(* ===== verification/_CoqProject ===== *)
-Q . S2P
Prelude.v
Model.v
StateMachine.v
RaftTypes.v
Raft.v
RaftSpec.v
RaftRefine.v
RaftReplicate.v
RaftElection.v
RaftAppend.v
RaftStep.v
System.v
SystemFrame.v
SystemSteps.v
SystemLog.v
SystemSafety.v
Deployment.v
ClusterSafety.v
ClusterTheorems.v
ReferenceModel.v
ReferenceTheorems.v
Bytes.v
Codec.v
CodecLemmas.v
CodecPayloads.v
CodecTheorems.v
RaftTyped.v
RaftOps.v
Wal.v
WalFormat.v
WalFrames.v
WalRecovery.v
WalScan.v
WalFile.v
WalDurability.v
WalTheorems.v
TcpTypes.v
TcpWire.v
TcpTransport.v
TcpLoop.v
TcpInv.v
TcpFrames.v
TcpConns.v
TcpClose.v
TcpTraffic.v
TcpRun.v
TcpMachine.v
TcpStop.v
TcpTheorems.v
HostTypes.v
HostWorker.v
NodeHost.v
HostAhead.v
HostTrack.v
HostStep.v
HostOwner.v
HostNode.v
HostNotices.v
HostPoll.v
HostSites.v
HostTheorems.v
Pcg.v
SimQueue.v
Simulator.v
SimTrace.v
SimSpec.v
SimNetwork.v
SimStorage.v
SimEquiv.v
SimDelivery.v
SimTheorems.v
HarnessTypes.v
Harness.v
HarnessSim.v
HarnessState.v
HarnessEffects.v
HarnessRun.v
HarnessTheorems.v
NodeProgram.v
SimProgram.v
