(* ===== verification/Prelude.v ===== *)
(** * DetLog: a verified model of a replicated log

    DetLog is a Raft replicated log in C++20.  Its parts, and how they interact:

    - [RaftNode] ([src/raft.cpp]) is a deterministic transition engine: its host
      calls [step] with an event (timer, message, client request, storage
      completion) and carries out the effects it returns (send a message, persist
      a batch, arm a timer, answer a client).  It never does I/O itself, and while
      a batch is being persisted it defers further events.
    - [KvStateMachine] ([src/state_machine.cpp]) executes committed commands with
      per-session deduplication.
    - The codec ([src/codec.cpp]) turns messages, entries and commands into framed
      bytes and back.
    - The WAL ([src/wal.cpp]) stores persisted batches as checksummed frames in a
      file, and recovers a node's durable state from it.
    - The reference model ([src/reference_model.cpp]) is the serial model that the
      tests compare the implementation with.
    - The simulator ([src/simulator.cpp]) is the deterministic clock, network and
      disk the tests run the nodes on.
    - The deterministic cluster ([src/cluster.cpp]) joins simulator, WAL, codec and
      nodes, observes their invariants and records a trace.
    - [NodeHost] ([src/node_host.cpp]) runs one node on a machine: its owner thread
      polls timers, clients and the transport, a storage worker's thread writes
      the WAL, with group commit if configured.
    - [TcpTransport] ([src/tcp_transport.cpp]) carries frames between machines; its
      I/O thread owns the sockets, and the owner sends and polls under a mutex.
    - [detlog-node] ([apps/detlog_node.cpp]) is a process with a [NodeHost] and a
      console; [detlog-sim] ([apps/detlog_sim.cpp]) and the scenario fuzzer
      ([fuzz/scenario_fuzz.cpp]) drive the deterministic cluster.

    ** Files

    - [Prelude]: machine integers with their wrap-around ([add64], [sub64], ...),
      ordered iteration over maps ([sorted_items]), shared lemmas.
    - [Model]: the types of [include/detlog/model.hpp].
    - [StateMachine]: [KvStateMachine]; [kv_apply] is [KvStateMachine::apply].
    - [RaftTypes], [Raft]: the state, events and effects of [RaftNode] and every
      function of [src/raft.cpp], in a small state monad that collects effects and
      can throw.  A [std::function] stored for the time after a completion is a
      constructor of [AfterSuccess], run by [run_after].
    - [RaftSpec]: the abstract protocol of one node ([View], [vstep]).  [RaftRefine],
      [RaftReplicate], [RaftElection], [RaftAppend], [RaftStep]: each handler, and
      then [step] and the constructor, refine it and keep the node invariant.
    - [System], [SystemFrame], [SystemSteps], [SystemLog], [SystemSafety]: a cluster of
      abstract nodes with disks and a network that loses, repeats, reorders and
      delays; the safety invariant over ghost history and its preservation.
    - [Deployment]: executable transitions of a cluster whose hosts run [step]; it
      refines [System].  [ClusterSafety], [ClusterTheorems]: the safety theorems for
      such a cluster.
    - [ReferenceModel], [ReferenceTheorems]: the reference model and its relation to
      [KvStateMachine].
    - [Bytes], [Codec], [CodecLemmas], [CodecPayloads], [CodecTheorems]: the wire format.
    - [Wal]: format, validation and recovery scan of [src/wal.cpp]; [WalFile]: the
      [Wal] class over a file whose calls may fail at any byte, and the loops of
      system calls that implement such a file; [WalFormat],
      [WalFrames], [WalRecovery], [WalScan], [WalDurability], [WalTheorems]: the proofs.
    - [Pcg]: [Pcg32].  [SimQueue]: [EventQueue] over [HeapLib], the interface to the
      heap algorithms of the C++ library; [HeapLaws] states what the C++ standard
      promises of them, and [sorted_heap_lib] and [swapped_heap_lib] are two
      implementations.  [Simulator]: every member function of [sim::Simulator], with
      [call] and [run] for sequences of them.  [SimTrace]: the JSON trace.
    - [SimSpec]: a small-step specification ([effect]) that every call follows.
      [SimNetwork], [SimStorage]: the invariants of the network accounting and of the
      devices.  [SimEquiv]: two simulators over different heap libraries.
      [SimDelivery]: stable bytes only grow, and which event [next] returns.
      [SimTheorems]: the theorems.

    - [RaftTyped]: every integer of a node and of its effects fits its C++ type
      ([node_typed], [effect_fits]).
      [RaftOps]: the numbers of storage operations.
    - [TcpTypes]: the declarations of [tcp_transport.hpp] and the class [Transport] of
      what a host calls, with its laws.  [TcpWire]: handshakes, keys and the frames
      of the stream.  [TcpTransport]: [TcpTransport::Impl] and the owner's calls,
      over the class [Sockets] of system calls.  [TcpLoop]: the I/O thread, its
      functions as programs of atomic actions ([prog]) and a [Machine] that takes one
      action per step.
    - [TcpInv]: the invariant of a transport over a record of what has passed
      through each connection, the laws of the operating system ([SocketLaws]), and
      a weakest precondition for programs that others interrupt ([wp]).
      [TcpFrames], [TcpConns], [TcpClose], [TcpTraffic], [TcpRun]: every call of the
      owner and every action of the thread keeps the invariant.  [TcpMachine]: so
      does every step of a machine.  [TcpStop]: what the thread leaves alone, and
      that it ends.  [TcpTheorems]: a machine is a [Transport]; the
      theorems, and a scripted operating system they are tried on.
    - [HostTypes], [HostWorker], [NodeHost]: the node host, over any [Transport].
      [HostAhead], [HostTrack], [HostStep], [HostOwner], [HostNode], [HostNotices],
      [HostPoll]: each function of it keeps its node, its log and its messages in
      step with a host of [Deployment].  [HostSites]: machines that lose power and
      start again; [HostTheorems]: the theorems and a run.
    - [HarnessTypes], [Harness]: the deterministic cluster, function by function.
      [HarnessSim]: what its calls of the simulator change.  [HarnessState]: the
      relation [matches] between its state and a cluster of [Deployment], and that
      reports and checks do not touch it.  [HarnessEffects], [HarnessRun]: every
      effect handler, the drain of the effect queue, every call and the constructor
      keep the relation.  [HarnessTheorems]: the theorems, the specification of the
      observer's checks and a scenario.
    - [NodeProgram]: the options of [detlog-node], the configuration made from them, and
      the console as a program of two threads ([console_step]).  [SimProgram]: the
      scenarios of [detlog-sim] and the scenario fuzzer.

    ** What the theorems show

    - Consensus ([ClusterTheorems]): state machine safety, election safety, leader
      completeness, log matching; votes and acknowledgements only after the state
      they speak of is durable; [step] never throws and refines the abstract
      protocol; committed entries survive crashes; a restarted node rebuilds its
      state machine; deferred events are drained.
    - Storage ([WalTheorems]): acknowledged batches survive every crash image; a
      crash loses at most a suffix; torn tails are found; staging implements the
      durable-state semantics of the consensus proof ([apply_batch]); formats
      round-trip; failures stop the object; the scan terminates; short, interrupted
      and failing system calls amount to the failures the proofs assume.
    - Codec ([CodecTheorems]): round trips, canonical encodings, located errors.
    - State machine ([StateMachine], [ReferenceTheorems]): at-most-once execution,
      agreement with the reference interpreter when no two distinct requests share
      a digest, and the invariants of the reference model.
    - Simulator ([Pcg], [SimTrace], [SimTheorems]): replies do not depend on the heap
      library; delivery order; byte accounting and the limits of events, links,
      devices and trace; ordered, durable
      storage; a crash leaves a file that the WAL scan recovers; the random
      generator terminates without bias; a trace file determines the trace.
    - Hosts ([HostTheorems]): machines that run [NodeHost], with or without group
      commit, and lose power at any time refine the cluster of [Deployment]; so
      their commits agree, votes and acknowledgements on the wire survive, even when
      all machines lose power, and [poll_once] does not throw.
    - Transport ([TcpTheorems]): frames arrive whole, unaltered and in order, from the
      peer they name; counters are exact and bounded; one connection per peer, the
      same one at both ends; the thread ends after [stop] and leaves nothing open;
      only a failed [select] ends its loop, and every send fails from then on; the
      transport meets the laws that the theorems about hosts assume.
    - Deterministic cluster ([HarnessTheorems]): every scenario of steps, requests,
      crashes, restarts and faults refines the cluster of [Deployment]; snapshots
      agree on what is committed; calls return with an empty effect queue; the
      observer's log check decides Log Matching and accepts every scenario, and its
      re-execution of the applied log, with a digest and a switch of its own
      ([observed_digest], [observed_switch]), agrees with the state machine.
    - Programs ([NodeProgram], [SimProgram]): member lists round-trip in any order;
      accepted command lines configure hosts that form one cluster, so that processes
      started from them agree on what is committed; no line of the console is lost
      silently while it runs, its commands have sessions of their own, and it ends with
      its input; runs of [detlog-sim] and of the fuzzer are scenarios of the
      deterministic cluster; a scenario that ends well has done what it is for
      ([outcome]): its faults lasted as long as they should, since steps and requests
      leave them alone ([steady]), and what had to be committed then was; the fuzzer
      reads no input out of bounds, and a run of a scenario is evaluated.
    - Three errors of the code are proved: [admitted_command_blocks_restart],
      [tcp_partition_splices] and [console_loses_line].

    ** Model choices and bounds

    Loops that are not structural take fuel, and the fuel is shown to be enough:
    [apply_loop], [drain] and [commit_target] get the length of what they consume and
    the proofs about [step] show that they return; [scan_loop] gets one unit per byte
    ([wal_scan_terminates]); [next_loop] gets one unit per pending event
    ([next_loop_enough]); the rejection loop of [bounded] may run [2 ^ 63] times, which
    [iterate_pow] evaluates only as far as needed ([pcg_bounded_total]);
    [process_frames] gets one unit per byte that has arrived and [out_of_fuel] is
    shown never to be raised ([tcp_loop_throws_only_select]).  [drain_loop] takes two
    rounds over the effect queue, which empty it ([harness_calls_return]).
    [parse_items] gets one turn per character; [write_calls] and [read_calls] take one
    answer of the system per turn ([native_io_refines]).

    An action of the I/O thread holds at most one section under the mutex; the code
    around it uses only what belongs to the thread, so no other thread can tell
    when it runs.  A step of the storage worker is the code between two points
    where it takes its mutex.

    Allocation failure is not modelled.  A [std::map] is a finite map whose
    iteration is [sorted_items]; a [std::unordered_map] is only used by key.  A file
    is its bytes and the prefix known to be on the medium; a crash leaves any image
    between the two.

    ** Not modelled

    - The Windows branches of [src/wal.cpp] and [src/tcp_transport.cpp]; error numbers
      are those of Linux.  The operating system is the class [Sockets] for the
      transport, and a list of answers for the log file.
    - The benchmarks under [bench/], which measure and print, and the tests.
    - What [detlog-node] does with its input thread after [main] has left the loop (the
      destructor of [std::jthread] joins it), and the bytes of the usage texts. *)

From stdpp Require Export gmap strings list sorting.
From Stdlib Require Export Ascii.
From Stdlib Require String.
From Stdlib Require Export NArith Lia.

#[global] Open Scope N_scope.

(** ** Machine integers

    [std::uint64_t] and [std::size_t] values are natural numbers below [2^64];
    the C++ operators on them are the operations below, with the wrap-around
    written out. *)

Definition u64_size : N := 2 ^ 64.
Definition u64_max : N := u64_size - 1.
Definition u32_size : N := 2 ^ 32.
Definition u32_max : N := u32_size - 1.

Definition wrap64 (x : N) : N := x mod u64_size.
Definition add64 (x y : N) : N := wrap64 (x + y).
Definition sub64 (x y : N) : N := wrap64 (x + u64_size - y).
Definition mul64 (x y : N) : N := wrap64 (x * y).

Lemma wrap64_small x : x <= u64_max -> wrap64 x = x.
Proof. intros H. apply N.mod_small. unfold u64_max, u64_size in *. lia. Qed.

Lemma wrap64_range x : wrap64 x <= u64_max.
Proof.
  pose proof (N.mod_upper_bound x u64_size ltac:(done)).
  unfold wrap64, u64_max, u64_size in *. lia.
Qed.

Lemma add64_small x y : x + y <= u64_max -> add64 x y = x + y.
Proof. apply wrap64_small. Qed.

Lemma add64_range x y : add64 x y <= u64_max.
Proof. apply wrap64_range. Qed.

Lemma sub64_small x y : y <= x -> x <= u64_max -> sub64 x y = x - y.
Proof.
  intros Hle Hmax. unfold sub64, wrap64.
  replace (x + u64_size - y) with ((x - y) + 1 * u64_size) by lia.
  rewrite N.Div0.mod_add. apply N.mod_small. unfold u64_max, u64_size in *. lia.
Qed.

(** ** Ordered iteration over maps

    A range-for over a [std::map] visits the bindings in increasing key order;
    [sorted_items] is that sequence for a finite map keyed by integers. *)

Section sorted_items.
Context {A : Type}.

Definition key_le (p q : N * A) : Prop := p.1 <= q.1.

#[global] Instance key_le_dec : RelDecision key_le.
Proof. intros p q. unfold key_le. apply _. Defined.

#[global] Instance key_le_total : Total key_le.
Proof. intros p q. unfold key_le. lia. Qed.

#[global] Instance key_le_trans : Transitive key_le.
Proof. intros p q r. unfold key_le. lia. Qed.

Definition sorted_items (m : gmap N A) : list (N * A) := merge_sort key_le (map_to_list m).

Lemma sorted_items_perm m : sorted_items m ≡ₚ map_to_list m.
Proof. apply merge_sort_Permutation. Qed.

Lemma sorted_items_sorted m : StronglySorted key_le (sorted_items m).
Proof. apply StronglySorted_merge_sort; apply _. Qed.

Lemma elem_of_sorted_items m k x : (k, x) ∈ sorted_items m <-> m !! k = Some x.
Proof. rewrite sorted_items_perm. apply elem_of_map_to_list. Qed.

Lemma sorted_items_keys_NoDup m : NoDup (sorted_items m).*1.
Proof. rewrite sorted_items_perm. apply NoDup_fst_map_to_list. Qed.

End sorted_items.

(** ** Lists *)

Lemma lookup_take_full {A} (l : list A) (n i : nat) :
  (i < n)%nat -> take n l !! i = l !! i.
Proof. intros H. rewrite lookup_take. by rewrite decide_True. Qed.

(** Two majorities of one membership list have a member in common. *)
Lemma majority_intersect (members : list N) (q1 q2 : gset N) :
  NoDup members ->
  (forall x, x ∈ q1 -> x ∈ members) ->
  (forall x, x ∈ q2 -> x ∈ members) ->
  (length members < 2 * size q1)%nat ->
  (length members < 2 * size q2)%nat ->
  exists x, x ∈ q1 /\ x ∈ q2.
Proof.
  intros Hnd H1 H2 Hs1 Hs2.
  set (M := list_to_set members : gset N).
  assert (HM : size M = length members).
  { unfold M. by apply size_list_to_set. }
  assert (Hsub : q1 ∪ q2 ⊆ M).
  { intros x [?|?]%elem_of_union; apply elem_of_list_to_set; auto. }
  apply subseteq_size in Hsub.
  destruct (decide (q1 ## q2)) as [Hd|Hd].
  - rewrite size_union in Hsub by done. lia.
  - assert (Hne : q1 ∩ q2 ≠ ∅) by set_solver.
    destruct (set_choose_L _ Hne) as [x Hx]. exists x. set_solver.
Qed.
