(* ===== verification/Model.v ===== *)
(** * Model: the value types shared by every component

    Translation of [include/detlog/model.hpp]: identifiers, commands, log
    entries, the persistent batch, the four protocol messages and the values a
    node hands to its host.  An [enum class] is an inductive type with the
    source's enumerators (a value cast from an unknown byte is rejected by the
    decoders before it becomes a value of the type), a [std::variant] is an
    inductive type with one constructor per alternative, and a [std::string] is
    a string of 8-bit characters. *)

From S2P Require Import Prelude.

(** [using NodeId = std::uint32_t] and the 64-bit identifiers are integers. *)
Abbreviation NodeId := N (only parsing).
Abbreviation Term := N (only parsing).
Abbreviation LogIndex := N (only parsing).
Abbreviation RpcId := N (only parsing).
Abbreviation StorageOpId := N (only parsing).
Abbreviation ClientToken := N (only parsing).
Abbreviation Tick := N (only parsing).

Record SessionId := mkSessionId { high : N; low : N }.

#[global] Instance SessionId_eq_dec : EqDecision SessionId.
Proof. solve_decision. Defined.

#[global] Instance SessionId_countable : Countable SessionId.
Proof.
  refine (inj_countable' (fun s => (high s, low s)) (fun p => mkSessionId p.1 p.2) _).
  by intros [].
Defined.

Inductive CommandKind := put | erase | get.

#[global] Instance CommandKind_eq_dec : EqDecision CommandKind.
Proof. solve_decision. Defined.

(** The enumerators' underlying [std::uint8_t] values. *)
Definition command_kind_u8 (k : CommandKind) : N :=
  match k with put => 1 | erase => 2 | get => 3 end.

(** [static_cast<CommandKind>] of a byte followed by the check that the result
    is one of the enumerators. *)
Definition command_kind_of_u8 (b : N) : option CommandKind :=
  match b with 1 => Some put | 2 => Some erase | 3 => Some get | _ => None end.

Record ClientCommand := mkClientCommand {
  session : SessionId;
  sequence : N;
  kind : CommandKind;
  key : string;
  value : string;
}.

#[global] Instance ClientCommand_eq_dec : EqDecision ClientCommand.
Proof. solve_decision. Defined.

(** No command denotes the leader's current-term readiness no-op. *)
Record LogEntry := mkLogEntry {
  index : LogIndex;
  term : Term;
  command : option ClientCommand;
}.

#[global] Instance LogEntry_eq_dec : EqDecision LogEntry.
Proof. solve_decision. Defined.

Record HardState := mkHardState {
  current_term : Term;
  voted_for : option NodeId;
}.

#[global] Instance HardState_eq_dec : EqDecision HardState.
Proof. solve_decision. Defined.

(** Entries at and after [truncate_from] become logically dead; the batch may
    then append a consecutive replacement suffix. *)
Record PersistBatch := mkPersistBatch {
  b_hard_state : option HardState;
  b_truncate_from : option LogIndex;
  b_entries : list LogEntry;
  b_commit_index : option LogIndex;
}.

#[global] Instance PersistBatch_eq_dec : EqDecision PersistBatch.
Proof. solve_decision. Defined.

Definition is_none {A} (o : option A) : bool := match o with None => true | Some _ => false end.
Definition is_nil {A} (l : list A) : bool := match l with [] => true | _ => false end.

(** [PersistBatch::empty]. *)
Definition batch_empty (b : PersistBatch) : bool :=
  is_none (b_hard_state b) && is_none (b_truncate_from b) &&
  is_nil (b_entries b) && is_none (b_commit_index b).

(** A default-constructed [PersistBatch]. *)
Definition no_batch : PersistBatch := mkPersistBatch None None [] None.

Record RequestVote := mkRequestVote {
  rv_term : Term;
  rv_candidate_id : NodeId;
  rv_last_log_index : LogIndex;
  rv_last_log_term : Term;
}.

Record RequestVoteResponse := mkRequestVoteResponse {
  rvr_term : Term;
  rvr_vote_granted : bool;
}.

Record AppendEntries := mkAppendEntries {
  ae_term : Term;
  ae_leader_id : NodeId;
  ae_rpc_id : RpcId;
  ae_prev_log_index : LogIndex;
  ae_prev_log_term : Term;
  ae_entries : list LogEntry;
  ae_leader_commit : LogIndex;
}.

Record AppendEntriesResponse := mkAppendEntriesResponse {
  aer_term : Term;
  aer_rpc_id : RpcId;
  aer_success : bool;
  aer_match_index : LogIndex;
  aer_conflict_index : LogIndex;
  aer_conflict_term : Term;
}.

Inductive Message :=
  | MRequestVote (m : RequestVote)
  | MRequestVoteResponse (m : RequestVoteResponse)
  | MAppendEntries (m : AppendEntries)
  | MAppendEntriesResponse (m : AppendEntriesResponse).

Record MessageEnvelope := mkMessageEnvelope {
  env_from : NodeId;
  env_to : NodeId;
  env_message : Message;
}.

#[global] Instance RequestVote_eq_dec : EqDecision RequestVote.
Proof. solve_decision. Defined.
#[global] Instance RequestVoteResponse_eq_dec : EqDecision RequestVoteResponse.
Proof. solve_decision. Defined.
#[global] Instance AppendEntries_eq_dec : EqDecision AppendEntries.
Proof. solve_decision. Defined.
#[global] Instance AppendEntriesResponse_eq_dec : EqDecision AppendEntriesResponse.
Proof. solve_decision. Defined.
#[global] Instance Message_eq_dec : EqDecision Message.
Proof. solve_decision. Defined.
#[global] Instance MessageEnvelope_eq_dec : EqDecision MessageEnvelope.
Proof. solve_decision. Defined.

Inductive ClientStatus :=
  | status_ok
  | not_leader
  | leader_not_ready
  | busy
  | status_unavailable
  | stale_sequence
  | sequence_gap
  | request_id_conflict
  | invalid_request
  | storage_error.

#[global] Instance ClientStatus_eq_dec : EqDecision ClientStatus.
Proof. solve_decision. Defined.

Record ClientReply := mkClientReply {
  cr_token : ClientToken;
  cr_status : ClientStatus;
  cr_leader_hint : option NodeId;
  cr_log_index : LogIndex;
  cr_value : string;
}.

Inductive TimerKind := election | heartbeat.

#[global] Instance TimerKind_eq_dec : EqDecision TimerKind.
Proof. solve_decision. Defined.

Record TimerRequest := mkTimerRequest {
  tr_kind : TimerKind;
  tr_delay : Tick;
  tr_generation : N;
}.

Inductive TraceKind :=
  | role_change
  | term_change
  | vote
  | send
  | receive
  | storage_begin
  | storage_complete
  | log_change
  | commit
  | apply_entry
  | client_reply
  | queue_saturated
  | fault.

Record TraceRecord := mkTraceRecord {
  trace_kind : TraceKind;
  trace_node : NodeId;
  trace_term : Term;
  trace_index : LogIndex;
  trace_detail : string;
}.

(** ** Facts about the shared types *)

Lemma command_kind_u8_of_u8 k : command_kind_of_u8 (command_kind_u8 k) = Some k.
Proof. by destruct k. Qed.

Lemma command_kind_of_u8_inv b k : command_kind_of_u8 b = Some k -> b = command_kind_u8 k.
Proof.
  unfold command_kind_of_u8. repeat case_match; naive_solver.
Qed.

Lemma batch_empty_spec b : batch_empty b = true <-> b = no_batch.
Proof.
  unfold batch_empty, no_batch. destruct b as [[] [] [] []]; simpl; naive_solver.
Qed.
