(* ===== verification/StateMachine.v ===== *)
(** * StateMachine: the replicated key-value state machine

    Translation of [include/detlog/state_machine.hpp] and
    [src/state_machine.cpp]. *)

From S2P Require Import Prelude Model.

Definition kFnvOffset : N := 14695981039346656037.
Definition kFnvPrime : N := 1099511628211.

Definition hash_byte (hash byte : N) : N := mul64 (N.lxor hash byte) kFnvPrime.

(** [static_cast<std::uint8_t>(value >> shift)]. *)
Definition byte_at (v shift : N) : N := N.shiftr v shift mod 256.

Definition hash_u64 (hash v : N) : N :=
  foldl (fun h shift => hash_byte h (byte_at v shift)) hash [0; 8; 16; 24; 32; 40; 48; 56].

(** The bytes of a [std::string_view] as unsigned characters. *)
Definition string_bytes (s : string) : list N := N_of_ascii <$> String.list_ascii_of_string s.

(** [std::string::size]. *)
Definition string_size (s : string) : N := N.of_nat (String.length s).

Definition string_empty (s : string) : bool := bool_decide (s = EmptyString).

Definition hash_string (hash : N) (s : string) : N :=
  foldl hash_byte (hash_u64 hash (string_size s)) (string_bytes s).

Definition command_digest (c : ClientCommand) : N :=
  hash_string (hash_string (hash_byte kFnvOffset (command_kind_u8 (kind c))) (key c)) (value c).

Definition structurally_valid (c : ClientCommand) : bool :=
  if (sequence c =? 0) || string_empty (key c) then false
  else match kind c with
       | put => true
       | erase | get => string_empty (value c)
       end.

Record SessionRecord := mkSessionRecord {
  sr_sequence : N;
  sr_command_digest : N;
  sr_status : ClientStatus;
  sr_result : string;
}.

#[global] Instance SessionRecord_eq_dec : EqDecision SessionRecord.
Proof. solve_decision. Defined.

Record ApplyResult := mkApplyResult {
  ar_status : ClientStatus;
  ar_value : string;
  ar_executed : bool;
  ar_duplicate : bool;
}.

#[global] Instance ApplyResult_eq_dec : EqDecision ApplyResult.
Proof. solve_decision. Defined.

(** A default-constructed [ApplyResult]. *)
Definition default_result : ApplyResult := mkApplyResult status_ok EmptyString false false.

Record KvStateMachine := mkKvStateMachine {
  values_ : gmap string string;
  sessions_ : gmap SessionId SessionRecord;
}.

#[global] Instance KvStateMachine_eq_dec : EqDecision KvStateMachine.
Proof. solve_decision. Defined.

Definition empty_kv : KvStateMachine := mkKvStateMachine ∅ ∅.

(** A result that reports a rejection: nothing executed, nothing cached. *)
Definition rejected (st : ClientStatus) : ApplyResult := mkApplyResult st EmptyString false false.

(** The deduplication checks of [KvStateMachine::apply]: [Some r] when the
    method returns [r] before executing the command. *)
Definition session_check (m : KvStateMachine) (c : ClientCommand) : option ApplyResult :=
  match sessions_ m !! session c with
  | Some record =>
      if sequence c <? sr_sequence record then Some (rejected stale_sequence)
      else if sequence c =? sr_sequence record then
        if negb (sr_command_digest record =? command_digest c)
        then Some (rejected request_id_conflict)
        else Some (mkApplyResult (sr_status record) (sr_result record) false true)
      else if (sr_sequence record =? u64_max)
              || negb (sequence c =? add64 (sr_sequence record) 1)
      then Some (rejected sequence_gap)
      else None
  | None => if negb (sequence c =? 1) then Some (rejected sequence_gap) else None
  end.

(** The [switch] that executes the command: its result and the new values. *)
Definition execute (values : gmap string string) (c : ClientCommand)
  : string * gmap string string :=
  match kind c with
  | put => (value c, <[key c := value c]> values)
  | erase => match values !! key c with
             | Some v => (v, delete (key c) values)
             | None => (EmptyString, values)
             end
  | get => match values !! key c with
           | Some v => (v, values)
           | None => (EmptyString, values)
           end
  end.

(** [KvStateMachine::apply]. *)
Definition kv_apply (m : KvStateMachine) (c : ClientCommand) : ApplyResult * KvStateMachine :=
  if negb (structurally_valid c) then (rejected invalid_request, m)
  else match session_check m c with
       | Some r => (r, m)
       | None =>
           let '(result, values') := execute (values_ m) c in
           (mkApplyResult status_ok result true false,
            mkKvStateMachine values'
              (<[session c := mkSessionRecord (sequence c) (command_digest c) status_ok result]>
                 (sessions_ m)))
       end.

(** [KvStateMachine::session] and [KvStateMachine::value_for_test]. *)
Definition kv_session (m : KvStateMachine) (id : SessionId) : option SessionRecord :=
  sessions_ m !! id.
Definition value_for_test (m : KvStateMachine) (k : string) : option string := values_ m !! k.
Definition key_count (m : KvStateMachine) : N := N.of_nat (size (values_ m)).
Definition session_count (m : KvStateMachine) : N := N.of_nat (size (sessions_ m)).

(** ** Histories

    [replay m cs] is the machine after the commands [cs] in order: what
    [RaftNode] computes over its log. *)

Definition replay (m : KvStateMachine) (cs : list ClientCommand) : KvStateMachine :=
  foldl (fun m c => (kv_apply m c).2) m cs.

(** The results the commands of a history return, in order. *)
Fixpoint results (m : KvStateMachine) (cs : list ClientCommand) : list ApplyResult :=
  match cs with
  | [] => []
  | c :: cs => let '(r, m') := kv_apply m c in r :: results m' cs
  end.

(** The last sequence number executed for a session, 0 when there is none. *)
Definition last_sequence (m : KvStateMachine) (id : SessionId) : N :=
  match sessions_ m !! id with Some r => sr_sequence r | None => 0 end.

(** A machine whose session table only holds results of executed commands. *)
Definition kv_wf (m : KvStateMachine) : Prop :=
  map_Forall (fun _ r => 1 <= sr_sequence r <= u64_max /\ sr_status r = status_ok) (sessions_ m).

Definition command_wf (c : ClientCommand) : Prop := sequence c <= u64_max.

Section apply_lemmas.
Implicit Types (m : KvStateMachine) (c : ClientCommand).

Lemma replay_app m cs cs' : replay m (cs ++ cs') = replay (replay m cs) cs'.
Proof. apply foldl_app. Qed.

(** Case analysis on [kv_apply]: it rejects, answers from the cache, or executes. *)
Lemma kv_apply_cases m c :
  (ar_executed (kv_apply m c).1 = false /\ (kv_apply m c).2 = m) \/
  (structurally_valid c = true /\ session_check m c = None /\
   kv_apply m c =
     (mkApplyResult status_ok (execute (values_ m) c).1 true false,
      mkKvStateMachine (execute (values_ m) c).2
        (<[session c := mkSessionRecord (sequence c) (command_digest c) status_ok
                          (execute (values_ m) c).1]> (sessions_ m)))).
Proof.
  unfold kv_apply. destruct (structurally_valid c); simpl; [|by left].
  destruct (session_check m c) as [r|] eqn:E.
  - left. split; [|done]. unfold session_check in E. repeat case_match; naive_solver.
  - right. destruct (execute (values_ m) c); done.
Qed.

(** A command is admitted for execution exactly when its sequence number is the
    successor of the session's last one. *)
Lemma session_check_None m c :
  kv_wf m -> command_wf c ->
  session_check m c = None <-> sequence c = last_sequence m (session c) + 1.
Proof.
  intros Hwf Hc. unfold session_check, last_sequence.
  destruct (sessions_ m !! session c) as [r|] eqn:E.
  - apply Hwf in E as [[? ?] ?]. unfold command_wf in Hc.
    destruct (N.ltb_spec (sequence c) (sr_sequence r)); [naive_solver lia|].
    destruct (N.eqb_spec (sequence c) (sr_sequence r)); [case_match; naive_solver lia|].
    destruct (N.eqb_spec (sr_sequence r) u64_max); simpl; [naive_solver lia|].
    rewrite add64_small by lia.
    destruct (N.eqb_spec (sequence c) (sr_sequence r + 1)); naive_solver lia.
  - destruct (N.eqb_spec (sequence c) 1); naive_solver lia.
Qed.

Lemma kv_apply_last_sequence m c id :
  kv_wf m -> command_wf c ->
  last_sequence (kv_apply m c).2 id =
    if ar_executed (kv_apply m c).1 && bool_decide (id = session c)
    then last_sequence m id + 1 else last_sequence m id.
Proof.
  intros Hwf Hc. destruct (kv_apply_cases m c) as [[-> ->]|(_ & Hs & ->)]; [done|].
  apply session_check_None in Hs; [|done..]. simpl. unfold last_sequence at 1. simpl.
  case_bool_decide as Hid.
  - subst. rewrite lookup_insert_eq. done.
  - by rewrite lookup_insert_ne.
Qed.

Lemma kv_apply_wf m c : kv_wf m -> command_wf c -> kv_wf (kv_apply m c).2.
Proof.
  intros Hwf Hc. destruct (kv_apply_cases m c) as [[_ ->]|(Hv & Hs & ->)]; [done|].
  apply session_check_None in Hs; [|done..]. unfold kv_wf; simpl.
  apply map_Forall_insert_2; [|done]. unfold command_wf in Hc. simpl. split; [lia|done].
Qed.

Lemma replay_wf m cs : kv_wf m -> Forall command_wf cs -> kv_wf (replay m cs).
Proof.
  intros Hwf Hcs. revert m Hwf. induction Hcs as [|c cs Hc _ IH]; intros m Hwf; [done|].
  simpl. apply IH. by apply kv_apply_wf.
Qed.

Lemma empty_kv_wf : kv_wf empty_kv.
Proof. apply map_Forall_empty. Qed.

Lemma replay_last_sequence_mono m cs id :
  kv_wf m -> Forall command_wf cs -> last_sequence m id <= last_sequence (replay m cs) id.
Proof.
  intros Hwf Hcs. revert m Hwf. induction Hcs as [|c cs Hc _ IH]; intros m Hwf; simpl; [lia|].
  etrans; [|by apply IH, kv_apply_wf]. rewrite kv_apply_last_sequence by done. case_match; lia.
Qed.

Lemma results_lookup m cs i c :
  cs !! i = Some c -> results m cs !! i = Some (kv_apply (replay m (take i cs)) c).1.
Proof.
  revert m i. induction cs as [|c' cs IH]; intros m [|i] H; simplify_eq/=.
  - by destruct (kv_apply m c).
  - destruct (kv_apply m c') eqn:E. simpl. by rewrite (IH _ _ H).
Qed.

End apply_lemmas.

(** ** Execution order within a session *)

Section history_lemmas.
Implicit Types (m : KvStateMachine) (c : ClientCommand).

(** The position of an executed command in a history, seen from the machine
    before it and the machine after it. *)
Lemma executed_sequence m cs i c r :
  kv_wf m -> Forall command_wf cs -> cs !! i = Some c -> results m cs !! i = Some r ->
  ar_executed r = true ->
  sequence c = last_sequence (replay m (take i cs)) (session c) + 1 /\
  last_sequence (replay m (take (S i) cs)) (session c) = sequence c.
Proof.
  intros Hwf Hcs Hc Hr He. rewrite (results_lookup _ _ _ _ Hc) in Hr. simplify_eq.
  assert (Hc' : command_wf c) by (by eapply Forall_lookup_1).
  assert (Hwf' : kv_wf (replay m (take i cs))) by (apply replay_wf, Forall_take; done).
  rewrite (take_S_r _ _ _ Hc), replay_app. simpl.
  rewrite kv_apply_last_sequence, He, bool_decide_true by done. simpl.
  destruct (kv_apply_cases (replay m (take i cs)) c) as [[Hx _]|(_ & Hs & _)]; [congruence|].
  apply session_check_None in Hs; [|done..]. lia.
Qed.

Lemma executed_increasing m cs i j ci cj ri rj :
  kv_wf m -> Forall command_wf cs -> (i < j)%nat ->
  cs !! i = Some ci -> cs !! j = Some cj ->
  results m cs !! i = Some ri -> results m cs !! j = Some rj ->
  ar_executed ri = true -> ar_executed rj = true -> session ci = session cj ->
  sequence ci < sequence cj.
Proof.
  intros Hwf Hcs Hij Hi Hj Hri Hrj Hei Hej Hs.
  destruct (executed_sequence _ _ _ _ _ Hwf Hcs Hi Hri Hei) as [_ H1].
  destruct (executed_sequence _ _ _ _ _ Hwf Hcs Hj Hrj Hej) as [H2 _].
  assert (Htake : take j cs = take (S i) cs ++ drop (S i) (take j cs)).
  { rewrite <- (take_drop (S i) (take j cs)) at 1. rewrite take_take. f_equal. f_equal. lia. }
  rewrite Htake, replay_app in H2.
  pose proof (replay_last_sequence_mono (replay m (take (S i) cs)) (drop (S i) (take j cs))
    (session cj)) as Hmono.
  rewrite <- Hs in *.
  specialize (Hmono ltac:(apply replay_wf, Forall_take; done)
    ltac:(apply Forall_drop, Forall_take; done)). lia.
Qed.

(** The cache entry an execution leaves stays until the session executes again. *)
Lemma replay_session m cs id :
  kv_wf m -> Forall command_wf cs ->
  last_sequence (replay m cs) id = last_sequence m id ->
  sessions_ (replay m cs) !! id = sessions_ m !! id.
Proof.
  intros Hwf Hcs. revert m Hwf. induction Hcs as [|c cs Hc Hcs IH]; intros m Hwf Hl; [done|].
  simpl in *.
  pose proof (replay_last_sequence_mono (kv_apply m c).2 cs id
    ltac:(by apply kv_apply_wf) Hcs) as Hmono.
  rewrite IH; [|by apply kv_apply_wf|].
  - rewrite Hl, kv_apply_last_sequence in Hmono by done.
    destruct (kv_apply_cases m c) as [[_ ->]|(_ & _ & Heq)]; [done|]. rewrite Heq in *. simpl in *.
    case_bool_decide; simplify_eq; [lia|]. by rewrite lookup_insert_ne.
  - rewrite Hl. rewrite Hl, kv_apply_last_sequence in Hmono by done.
    rewrite kv_apply_last_sequence by done. case_match; lia.
Qed.

Lemma retry_cached m cs c r :
  kv_wf m -> Forall command_wf (c :: cs) -> (kv_apply m c).1 = r -> ar_executed r = true ->
  last_sequence (replay m (c :: cs)) (session c) = sequence c ->
  kv_apply (replay m (c :: cs)) c =
    (mkApplyResult (ar_status r) (ar_value r) false true, replay m (c :: cs)).
Proof.
  intros Hwf Hcs Hr He Hl. apply Forall_cons in Hcs as [Hc Hcs].
  destruct (kv_apply_cases m c) as [[Hx _]|(Hv & Hs & Heq)]; [congruence|].
  apply session_check_None in Hs; [|done..].
  simpl in *. pose proof (replay_session (kv_apply m c).2 cs (session c)
    ltac:(by apply kv_apply_wf) Hcs) as Hsess.
  rewrite Hl, kv_apply_last_sequence, Hr, He, bool_decide_true in Hsess by done. simpl in Hsess.
  specialize (Hsess Hs). rewrite Heq in Hr, Hsess |- *. simplify_eq/=.
  rewrite lookup_insert_eq in Hsess. revert Hsess. generalize (replay (mkKvStateMachine
    (execute (values_ m) c).2 (<[session c := mkSessionRecord (sequence c) (command_digest c)
      status_ok (execute (values_ m) c).1]> (sessions_ m))) cs). intros m' Hsess.
  unfold kv_apply. rewrite Hv. simpl. unfold session_check. rewrite Hsess. simpl.
  rewrite N.ltb_irrefl, !N.eqb_refl. done.
Qed.

End history_lemmas.

(** ** Properties *)

Section properties.

(** C35 (I9, at-most-once client effect).  In every history of commands applied
    to a fresh machine, two distinct positions of one session never both
    execute the same sequence number: the later execution has the strictly
    larger one. *)
Theorem kv_at_most_once (cs : list ClientCommand) (i j : nat) (ci cj : ClientCommand)
    (ri rj : ApplyResult)
    (Hcs : Forall command_wf cs) (Hij : (i < j)%nat)
    (Hi : cs !! i = Some ci) (Hj : cs !! j = Some cj)
    (Hri : results empty_kv cs !! i = Some ri) (Hrj : results empty_kv cs !! j = Some rj)
    (Hei : ar_executed ri = true) (Hej : ar_executed rj = true)
    (Hs : session ci = session cj) :
  sequence ci < sequence cj.
Proof. eapply executed_increasing; eauto using empty_kv_wf. Qed.

(** Retries.  A command that executed is answered, when it is retried before
    the session's next command executes, with the status and value of its
    execution, marked as a duplicate, and the machine does not change. *)
Theorem kv_retry_cached (before after : list ClientCommand) (c : ClientCommand) (r : ApplyResult)
    (Hwf : Forall command_wf (before ++ c :: after))
    (Hr : (kv_apply (replay empty_kv before) c).1 = r) (He : ar_executed r = true)
    (Hlast : last_sequence (replay empty_kv (before ++ c :: after)) (session c) = sequence c) :
  kv_apply (replay empty_kv (before ++ c :: after)) c =
    (mkApplyResult (ar_status r) (ar_value r) false true, replay empty_kv (before ++ c :: after)).
Proof.
  apply Forall_app in Hwf as [Hb Ha]. rewrite replay_app in *.
  apply retry_cached; [|done|done|done|done]. by apply replay_wf; [apply empty_kv_wf|].
Qed.

(** (admission).  After any history, a command executes exactly when it is
    structurally valid and its sequence number is the successor of the last one
    executed for its session; otherwise neither the values nor the session table
    change. *)
Theorem kv_execution_rule (cs : list ClientCommand) (c : ClientCommand)
    (Hcs : Forall command_wf cs) (Hc : command_wf c) :
  (ar_executed (kv_apply (replay empty_kv cs) c).1 = true <->
   structurally_valid c = true /\ sequence c = last_sequence (replay empty_kv cs) (session c) + 1) /\
  (ar_executed (kv_apply (replay empty_kv cs) c).1 = false ->
   (kv_apply (replay empty_kv cs) c).2 = replay empty_kv cs).
Proof.
  assert (Hwf : kv_wf (replay empty_kv cs)) by (by apply replay_wf; [apply empty_kv_wf|]).
  pose proof (session_check_None _ _ Hwf Hc) as Hs.
  destruct (kv_apply_cases (replay empty_kv cs) c) as [[He Hm]|(Hv & Hn & Heq)].
  - rewrite He. split; [|done]. split; [done|]. intros [Hv Hseq]. apply Hs in Hseq.
    unfold kv_apply in He. rewrite Hv, Hseq in He. simpl in He. by destruct (execute _ c).
  - rewrite Heq. simpl. split; [|done]. split; [intros _|done]. split; [done|]. by apply Hs.
Qed.

Definition sm_put (seq : N) (v : string) : ClientCommand :=
  mkClientCommand (mkSessionId 0 1) seq put "k" v.
Definition sm_history : list ClientCommand := [sm_put 1 "a"; sm_put 1 "a"; sm_put 2 "b"].

Lemma sm_history_wf : Forall command_wf sm_history.
Proof. repeat constructor; by vm_compute. Qed.

Lemma kv_at_most_once_witness : sequence (sm_put 1 "a") < sequence (sm_put 2 "b").
Proof.
  apply (kv_at_most_once sm_history 0 2 (sm_put 1 "a") (sm_put 2 "b")
    (mkApplyResult status_ok "a" true false) (mkApplyResult status_ok "b" true false));
    [exact sm_history_wf|lia|reflexivity..].
Defined.

Lemma kv_retry_cached_witness :
  kv_apply (replay empty_kv ([] ++ sm_put 1 "a" :: [])) (sm_put 1 "a") =
    (mkApplyResult status_ok "a" false true, replay empty_kv ([] ++ sm_put 1 "a" :: [])).
Proof.
  apply (kv_retry_cached [] [] (sm_put 1 "a") (mkApplyResult status_ok "a" true false)).
  - repeat constructor; by vm_compute.
  - reflexivity.
  - reflexivity.
  - reflexivity.
Defined.

Lemma kv_execution_rule_witness :
  ar_executed (kv_apply (replay empty_kv sm_history) (sm_put 3 "c")).1 = true <->
  structurally_valid (sm_put 3 "c") = true /\
  3 = last_sequence (replay empty_kv sm_history) (mkSessionId 0 1) + 1.
Proof.
  apply (kv_execution_rule sm_history (sm_put 3 "c")); [exact sm_history_wf|by vm_compute].
Defined.

End properties.
