(* ===== verification/RaftTypes.v ===== *)
(** * RaftTypes: the state of a consensus node, its events and its effects

    Translation of the declarations of [include/detlog/raft.hpp], with the
    small monad the handlers of [src/raft.cpp] are written in. *)

From S2P Require Import Prelude Model StateMachine.

Inductive RaftRole := follower | candidate | leader | unavailable.

#[global] Instance RaftRole_eq_dec : EqDecision RaftRole.
Proof. solve_decision. Defined.

Record RaftConfig := mkRaftConfig {
  node_id : NodeId;
  members : list NodeId;
  election_timeout : Tick;
  heartbeat_interval : Tick;
  max_deferred_events : N;
  max_uncommitted_entries : N;
  max_uncommitted_bytes : N;
  max_command_bytes : N;
  max_key_bytes : N;
  max_value_bytes : N;
  max_append_entries_per_rpc : N;
  max_append_bytes_per_rpc : N;
  append_retry_heartbeats : N;
  max_waiters_per_request : N;
}.

(** The default member initialisers of [RaftConfig]. *)
Definition default_config (id : NodeId) (ms : list NodeId) : RaftConfig :=
  mkRaftConfig id ms 10 2 128 1024 (4 * 1024 * 1024) (64 * 1024) (4 * 1024) (64 * 1024)
    64 (512 * 1024) 3 8.

Record RecoveredState := mkRecoveredState {
  rec_hard_state : HardState;
  rec_log : list LogEntry;
  rec_commit_index : LogIndex;
}.

Inductive RaftEffect :=
  | PersistEffect (op_id : StorageOpId) (batch : PersistBatch)
  | SendEffect (envelope : MessageEnvelope)
  | ScheduleTimerEffect (timer : TimerRequest)
  | ClientReplyEffect (reply : ClientReply)
  | TraceEffect (record : TraceRecord).

Inductive RaftEvent :=
  | TimerFired (tkind : TimerKind) (generation : N)
  | MessageReceived (envelope : MessageEnvelope)
  | StorageComplete (op_id : StorageOpId) (success : bool) (error : string)
  | ClientRequest (token : ClientToken) (cmd : ClientCommand).

Record InflightAppend := mkInflightAppend {
  if_rpc_id : RpcId;
  if_prev_index : LogIndex;
  if_last_index : LogIndex;
}.

Record PeerProgress := mkPeerProgress {
  next_index : LogIndex;
  match_index : LogIndex;
  inflight : option InflightAppend;
  inflight_heartbeat_age : N;
}.

Record PendingClientEntry := mkPendingClientEntry {
  pc_command : ClientCommand;
  pc_digest : N;
  pc_waiters : list ClientToken;
}.

(** The [after_success] closures, one constructor per lambda expression of
    [src/raft.cpp] that is handed to [begin_persist], with its captures. *)
Inductive AfterSuccess :=
  | after_begin_election
  | after_vote_reply (from : NodeId) (grant was_leader : bool)
  | after_step_down
  | after_become_leader
  | after_append_reject (from : NodeId) (rpc_id : RpcId) (conflict_index : LogIndex)
      (conflict_term : Term)
  | after_append_accept (from : NodeId) (rpc_id : RpcId) (matched : LogIndex) (apply : bool)
  | after_client_request
  | after_advance_commit.

Record PendingStorage := mkPendingStorage {
  ps_op_id : StorageOpId;
  ps_batch : PersistBatch;
  ps_after_success : AfterSuccess;
}.

(** The data members of [RaftNode]. *)
Record RaftNode := mkRaftNode {
  config_ : RaftConfig;
  role_ : RaftRole;
  hard_state_ : HardState;
  durable_hard_state_ : HardState;
  log_ : list LogEntry;
  durable_last_log_index_ : LogIndex;
  commit_index_ : LogIndex;
  durable_commit_index_ : LogIndex;
  last_applied_ : LogIndex;
  state_machine_ : KvStateMachine;
  leader_hint_ : option NodeId;
  leader_ready_ : bool;
  readiness_index_ : LogIndex;
  votes_received_ : gset N;
  peers_ : gmap N PeerProgress;
  pending_clients_ : gmap N PendingClientEntry;
  pending_sessions_ : gmap SessionId N;
  pending_storage_ : option PendingStorage;
  deferred_events_ : list RaftEvent;
  next_storage_op_id_ : StorageOpId;
  next_rpc_id_ : RpcId;
  election_generation_ : N;
  heartbeat_generation_ : N;
  started_ : bool;
}.

Definition set_role (v : RaftRole) (s : RaftNode) : RaftNode :=
  mkRaftNode (config_ s) v (hard_state_ s) (durable_hard_state_ s) (log_ s)
    (durable_last_log_index_ s) (commit_index_ s) (durable_commit_index_ s) (last_applied_ s)
    (state_machine_ s) (leader_hint_ s) (leader_ready_ s) (readiness_index_ s) (votes_received_
    s) (peers_ s) (pending_clients_ s) (pending_sessions_ s) (pending_storage_ s)
    (deferred_events_ s) (next_storage_op_id_ s) (next_rpc_id_ s) (election_generation_ s)
    (heartbeat_generation_ s) (started_ s).
Definition set_hard_state (v : HardState) (s : RaftNode) : RaftNode :=
  mkRaftNode (config_ s) (role_ s) v (durable_hard_state_ s) (log_ s) (durable_last_log_index_
    s) (commit_index_ s) (durable_commit_index_ s) (last_applied_ s) (state_machine_ s)
    (leader_hint_ s) (leader_ready_ s) (readiness_index_ s) (votes_received_ s) (peers_ s)
    (pending_clients_ s) (pending_sessions_ s) (pending_storage_ s) (deferred_events_ s)
    (next_storage_op_id_ s) (next_rpc_id_ s) (election_generation_ s) (heartbeat_generation_ s)
    (started_ s).
Definition set_durable_hard_state (v : HardState) (s : RaftNode) : RaftNode :=
  mkRaftNode (config_ s) (role_ s) (hard_state_ s) v (log_ s) (durable_last_log_index_ s)
    (commit_index_ s) (durable_commit_index_ s) (last_applied_ s) (state_machine_ s)
    (leader_hint_ s) (leader_ready_ s) (readiness_index_ s) (votes_received_ s) (peers_ s)
    (pending_clients_ s) (pending_sessions_ s) (pending_storage_ s) (deferred_events_ s)
    (next_storage_op_id_ s) (next_rpc_id_ s) (election_generation_ s) (heartbeat_generation_ s)
    (started_ s).
Definition set_log (v : list LogEntry) (s : RaftNode) : RaftNode :=
  mkRaftNode (config_ s) (role_ s) (hard_state_ s) (durable_hard_state_ s) v
    (durable_last_log_index_ s) (commit_index_ s) (durable_commit_index_ s) (last_applied_ s)
    (state_machine_ s) (leader_hint_ s) (leader_ready_ s) (readiness_index_ s) (votes_received_
    s) (peers_ s) (pending_clients_ s) (pending_sessions_ s) (pending_storage_ s)
    (deferred_events_ s) (next_storage_op_id_ s) (next_rpc_id_ s) (election_generation_ s)
    (heartbeat_generation_ s) (started_ s).
Definition set_durable_last_log_index (v : LogIndex) (s : RaftNode) : RaftNode :=
  mkRaftNode (config_ s) (role_ s) (hard_state_ s) (durable_hard_state_ s) (log_ s) v
    (commit_index_ s) (durable_commit_index_ s) (last_applied_ s) (state_machine_ s)
    (leader_hint_ s) (leader_ready_ s) (readiness_index_ s) (votes_received_ s) (peers_ s)
    (pending_clients_ s) (pending_sessions_ s) (pending_storage_ s) (deferred_events_ s)
    (next_storage_op_id_ s) (next_rpc_id_ s) (election_generation_ s) (heartbeat_generation_ s)
    (started_ s).
Definition set_commit_index (v : LogIndex) (s : RaftNode) : RaftNode :=
  mkRaftNode (config_ s) (role_ s) (hard_state_ s) (durable_hard_state_ s) (log_ s)
    (durable_last_log_index_ s) v (durable_commit_index_ s) (last_applied_ s) (state_machine_ s)
    (leader_hint_ s) (leader_ready_ s) (readiness_index_ s) (votes_received_ s) (peers_ s)
    (pending_clients_ s) (pending_sessions_ s) (pending_storage_ s) (deferred_events_ s)
    (next_storage_op_id_ s) (next_rpc_id_ s) (election_generation_ s) (heartbeat_generation_ s)
    (started_ s).
Definition set_durable_commit_index (v : LogIndex) (s : RaftNode) : RaftNode :=
  mkRaftNode (config_ s) (role_ s) (hard_state_ s) (durable_hard_state_ s) (log_ s)
    (durable_last_log_index_ s) (commit_index_ s) v (last_applied_ s) (state_machine_ s)
    (leader_hint_ s) (leader_ready_ s) (readiness_index_ s) (votes_received_ s) (peers_ s)
    (pending_clients_ s) (pending_sessions_ s) (pending_storage_ s) (deferred_events_ s)
    (next_storage_op_id_ s) (next_rpc_id_ s) (election_generation_ s) (heartbeat_generation_ s)
    (started_ s).
Definition set_last_applied (v : LogIndex) (s : RaftNode) : RaftNode :=
  mkRaftNode (config_ s) (role_ s) (hard_state_ s) (durable_hard_state_ s) (log_ s)
    (durable_last_log_index_ s) (commit_index_ s) (durable_commit_index_ s) v (state_machine_ s)
    (leader_hint_ s) (leader_ready_ s) (readiness_index_ s) (votes_received_ s) (peers_ s)
    (pending_clients_ s) (pending_sessions_ s) (pending_storage_ s) (deferred_events_ s)
    (next_storage_op_id_ s) (next_rpc_id_ s) (election_generation_ s) (heartbeat_generation_ s)
    (started_ s).
Definition set_state_machine (v : KvStateMachine) (s : RaftNode) : RaftNode :=
  mkRaftNode (config_ s) (role_ s) (hard_state_ s) (durable_hard_state_ s) (log_ s)
    (durable_last_log_index_ s) (commit_index_ s) (durable_commit_index_ s) (last_applied_ s) v
    (leader_hint_ s) (leader_ready_ s) (readiness_index_ s) (votes_received_ s) (peers_ s)
    (pending_clients_ s) (pending_sessions_ s) (pending_storage_ s) (deferred_events_ s)
    (next_storage_op_id_ s) (next_rpc_id_ s) (election_generation_ s) (heartbeat_generation_ s)
    (started_ s).
Definition set_leader_hint (v : option NodeId) (s : RaftNode) : RaftNode :=
  mkRaftNode (config_ s) (role_ s) (hard_state_ s) (durable_hard_state_ s) (log_ s)
    (durable_last_log_index_ s) (commit_index_ s) (durable_commit_index_ s) (last_applied_ s)
    (state_machine_ s) v (leader_ready_ s) (readiness_index_ s) (votes_received_ s) (peers_ s)
    (pending_clients_ s) (pending_sessions_ s) (pending_storage_ s) (deferred_events_ s)
    (next_storage_op_id_ s) (next_rpc_id_ s) (election_generation_ s) (heartbeat_generation_ s)
    (started_ s).
Definition set_leader_ready (v : bool) (s : RaftNode) : RaftNode :=
  mkRaftNode (config_ s) (role_ s) (hard_state_ s) (durable_hard_state_ s) (log_ s)
    (durable_last_log_index_ s) (commit_index_ s) (durable_commit_index_ s) (last_applied_ s)
    (state_machine_ s) (leader_hint_ s) v (readiness_index_ s) (votes_received_ s) (peers_ s)
    (pending_clients_ s) (pending_sessions_ s) (pending_storage_ s) (deferred_events_ s)
    (next_storage_op_id_ s) (next_rpc_id_ s) (election_generation_ s) (heartbeat_generation_ s)
    (started_ s).
Definition set_readiness_index (v : LogIndex) (s : RaftNode) : RaftNode :=
  mkRaftNode (config_ s) (role_ s) (hard_state_ s) (durable_hard_state_ s) (log_ s)
    (durable_last_log_index_ s) (commit_index_ s) (durable_commit_index_ s) (last_applied_ s)
    (state_machine_ s) (leader_hint_ s) (leader_ready_ s) v (votes_received_ s) (peers_ s)
    (pending_clients_ s) (pending_sessions_ s) (pending_storage_ s) (deferred_events_ s)
    (next_storage_op_id_ s) (next_rpc_id_ s) (election_generation_ s) (heartbeat_generation_ s)
    (started_ s).
Definition set_votes_received (v : gset N) (s : RaftNode) : RaftNode :=
  mkRaftNode (config_ s) (role_ s) (hard_state_ s) (durable_hard_state_ s) (log_ s)
    (durable_last_log_index_ s) (commit_index_ s) (durable_commit_index_ s) (last_applied_ s)
    (state_machine_ s) (leader_hint_ s) (leader_ready_ s) (readiness_index_ s) v (peers_ s)
    (pending_clients_ s) (pending_sessions_ s) (pending_storage_ s) (deferred_events_ s)
    (next_storage_op_id_ s) (next_rpc_id_ s) (election_generation_ s) (heartbeat_generation_ s)
    (started_ s).
Definition set_peers (v : gmap N PeerProgress) (s : RaftNode) : RaftNode :=
  mkRaftNode (config_ s) (role_ s) (hard_state_ s) (durable_hard_state_ s) (log_ s)
    (durable_last_log_index_ s) (commit_index_ s) (durable_commit_index_ s) (last_applied_ s)
    (state_machine_ s) (leader_hint_ s) (leader_ready_ s) (readiness_index_ s) (votes_received_
    s) v (pending_clients_ s) (pending_sessions_ s) (pending_storage_ s) (deferred_events_ s)
    (next_storage_op_id_ s) (next_rpc_id_ s) (election_generation_ s) (heartbeat_generation_ s)
    (started_ s).
Definition set_pending_clients (v : gmap N PendingClientEntry) (s : RaftNode) : RaftNode :=
  mkRaftNode (config_ s) (role_ s) (hard_state_ s) (durable_hard_state_ s) (log_ s)
    (durable_last_log_index_ s) (commit_index_ s) (durable_commit_index_ s) (last_applied_ s)
    (state_machine_ s) (leader_hint_ s) (leader_ready_ s) (readiness_index_ s) (votes_received_
    s) (peers_ s) v (pending_sessions_ s) (pending_storage_ s) (deferred_events_ s)
    (next_storage_op_id_ s) (next_rpc_id_ s) (election_generation_ s) (heartbeat_generation_ s)
    (started_ s).
Definition set_pending_sessions (v : gmap SessionId N) (s : RaftNode) : RaftNode :=
  mkRaftNode (config_ s) (role_ s) (hard_state_ s) (durable_hard_state_ s) (log_ s)
    (durable_last_log_index_ s) (commit_index_ s) (durable_commit_index_ s) (last_applied_ s)
    (state_machine_ s) (leader_hint_ s) (leader_ready_ s) (readiness_index_ s) (votes_received_
    s) (peers_ s) (pending_clients_ s) v (pending_storage_ s) (deferred_events_ s)
    (next_storage_op_id_ s) (next_rpc_id_ s) (election_generation_ s) (heartbeat_generation_ s)
    (started_ s).
Definition set_pending_storage (v : option PendingStorage) (s : RaftNode) : RaftNode :=
  mkRaftNode (config_ s) (role_ s) (hard_state_ s) (durable_hard_state_ s) (log_ s)
    (durable_last_log_index_ s) (commit_index_ s) (durable_commit_index_ s) (last_applied_ s)
    (state_machine_ s) (leader_hint_ s) (leader_ready_ s) (readiness_index_ s) (votes_received_
    s) (peers_ s) (pending_clients_ s) (pending_sessions_ s) v (deferred_events_ s)
    (next_storage_op_id_ s) (next_rpc_id_ s) (election_generation_ s) (heartbeat_generation_ s)
    (started_ s).
Definition set_deferred_events (v : list RaftEvent) (s : RaftNode) : RaftNode :=
  mkRaftNode (config_ s) (role_ s) (hard_state_ s) (durable_hard_state_ s) (log_ s)
    (durable_last_log_index_ s) (commit_index_ s) (durable_commit_index_ s) (last_applied_ s)
    (state_machine_ s) (leader_hint_ s) (leader_ready_ s) (readiness_index_ s) (votes_received_
    s) (peers_ s) (pending_clients_ s) (pending_sessions_ s) (pending_storage_ s) v
    (next_storage_op_id_ s) (next_rpc_id_ s) (election_generation_ s) (heartbeat_generation_ s)
    (started_ s).
Definition set_next_storage_op_id (v : StorageOpId) (s : RaftNode) : RaftNode :=
  mkRaftNode (config_ s) (role_ s) (hard_state_ s) (durable_hard_state_ s) (log_ s)
    (durable_last_log_index_ s) (commit_index_ s) (durable_commit_index_ s) (last_applied_ s)
    (state_machine_ s) (leader_hint_ s) (leader_ready_ s) (readiness_index_ s) (votes_received_
    s) (peers_ s) (pending_clients_ s) (pending_sessions_ s) (pending_storage_ s)
    (deferred_events_ s) v (next_rpc_id_ s) (election_generation_ s) (heartbeat_generation_ s)
    (started_ s).
Definition set_next_rpc_id (v : RpcId) (s : RaftNode) : RaftNode :=
  mkRaftNode (config_ s) (role_ s) (hard_state_ s) (durable_hard_state_ s) (log_ s)
    (durable_last_log_index_ s) (commit_index_ s) (durable_commit_index_ s) (last_applied_ s)
    (state_machine_ s) (leader_hint_ s) (leader_ready_ s) (readiness_index_ s) (votes_received_
    s) (peers_ s) (pending_clients_ s) (pending_sessions_ s) (pending_storage_ s)
    (deferred_events_ s) (next_storage_op_id_ s) v (election_generation_ s)
    (heartbeat_generation_ s) (started_ s).
Definition set_election_generation (v : N) (s : RaftNode) : RaftNode :=
  mkRaftNode (config_ s) (role_ s) (hard_state_ s) (durable_hard_state_ s) (log_ s)
    (durable_last_log_index_ s) (commit_index_ s) (durable_commit_index_ s) (last_applied_ s)
    (state_machine_ s) (leader_hint_ s) (leader_ready_ s) (readiness_index_ s) (votes_received_
    s) (peers_ s) (pending_clients_ s) (pending_sessions_ s) (pending_storage_ s)
    (deferred_events_ s) (next_storage_op_id_ s) (next_rpc_id_ s) v (heartbeat_generation_ s)
    (started_ s).
Definition set_heartbeat_generation (v : N) (s : RaftNode) : RaftNode :=
  mkRaftNode (config_ s) (role_ s) (hard_state_ s) (durable_hard_state_ s) (log_ s)
    (durable_last_log_index_ s) (commit_index_ s) (durable_commit_index_ s) (last_applied_ s)
    (state_machine_ s) (leader_hint_ s) (leader_ready_ s) (readiness_index_ s) (votes_received_
    s) (peers_ s) (pending_clients_ s) (pending_sessions_ s) (pending_storage_ s)
    (deferred_events_ s) (next_storage_op_id_ s) (next_rpc_id_ s) (election_generation_ s) v
    (started_ s).
Definition set_started (v : bool) (s : RaftNode) : RaftNode :=
  mkRaftNode (config_ s) (role_ s) (hard_state_ s) (durable_hard_state_ s) (log_ s)
    (durable_last_log_index_ s) (commit_index_ s) (durable_commit_index_ s) (last_applied_ s)
    (state_machine_ s) (leader_hint_ s) (leader_ready_ s) (readiness_index_ s) (votes_received_
    s) (peers_ s) (pending_clients_ s) (pending_sessions_ s) (pending_storage_ s)
    (deferred_events_ s) (next_storage_op_id_ s) (next_rpc_id_ s) (election_generation_ s)
    (heartbeat_generation_ s) v.

(** ** The handler monad

    A member function that appends to [std::vector<RaftEffect>& effects] and
    mutates [*this] is a computation from the node to a result, the new node
    and the effects it appended; a [throw] is an [Outcome] of its own. *)

Inductive Exn :=
  | invalid_argument (what : string)
  | logic_error (what : string).

Inductive Outcome (A : Type) :=
  | Returns (a : A)
  | Throws (e : Exn).
Arguments Returns {A} a.
Arguments Throws {A} e.

Definition M (A : Type) : Type := RaftNode -> Outcome (A * RaftNode * list RaftEffect).

#[global] Instance M_ret : MRet M := fun A a s => Returns (a, s, []).

#[global] Instance M_bind : MBind M := fun A B f m s =>
  match m s with
  | Returns (a, s', es) =>
      match f a s' with
      | Returns (b, s'', es') => Returns (b, s'', es ++ es')
      | Throws e => Throws e
      end
  | Throws e => Throws e
  end.

Definition this : M RaftNode := fun s => Returns (s, s, []).
Definition modify (f : RaftNode -> RaftNode) : M unit := fun s => Returns (tt, f s, []).
Definition emit (e : RaftEffect) : M unit := fun s => Returns (tt, s, [e]).
Definition throw {A} (e : Exn) : M A := fun _ => Throws e.
Definition skip : M unit := mret tt.
Definition when (b : bool) (m : M unit) : M unit := if b then m else skip.

(** A range-for over a sequence. *)
Fixpoint for_each {A} (l : list A) (f : A -> M unit) : M unit :=
  match l with
  | [] => skip
  | x :: l => f x ;; for_each l f
  end.

(** ** Weakest preconditions

    [wp m Q s]: from [s] the computation [m] returns (it does not throw), and
    its result, final node and appended effects satisfy [Q]. *)
Definition wp {A} (m : M A) (Q : A -> RaftNode -> list RaftEffect -> Prop) (s : RaftNode) : Prop :=
  match m s with
  | Returns (a, s', es) => Q a s' es
  | Throws _ => False
  end.

Section wp_rules.
Context {A B : Type}.
Implicit Types (s : RaftNode) (es : list RaftEffect).

Lemma wp_ret (a : A) (Q : A -> RaftNode -> list RaftEffect -> Prop) s :
  Q a s [] -> wp (mret a) Q s.
Proof. done. Qed.

Lemma wp_bind (m : M A) (f : A -> M B) (Q : B -> RaftNode -> list RaftEffect -> Prop) s :
  wp m (fun a s' es => wp (f a) (fun b s'' es' => Q b s'' (es ++ es')) s') s ->
  wp (m ≫= f) Q s.
Proof.
  unfold wp, mbind, M_bind. destruct (m s) as [[[a s'] es]|]; [|done].
  destruct (f a s') as [[[b s''] es']|]; done.
Qed.

Lemma wp_mono (m : M A) (Q Q' : A -> RaftNode -> list RaftEffect -> Prop) s :
  wp m Q s -> (forall a s' es, Q a s' es -> Q' a s' es) -> wp m Q' s.
Proof. unfold wp. destruct (m s) as [[[a s'] es]|]; auto. Qed.

Lemma wp_conj (m : M A) (Q Q' : A -> RaftNode -> list RaftEffect -> Prop) s :
  wp m Q s -> wp m Q' s -> wp m (fun a s' es => Q a s' es /\ Q' a s' es) s.
Proof. unfold wp. destruct (m s) as [[[a s'] es]|]; auto. Qed.

End wp_rules.

Lemma wp_this (Q : RaftNode -> RaftNode -> list RaftEffect -> Prop) s : Q s s [] -> wp this Q s.
Proof. done. Qed.

Lemma wp_modify f (Q : unit -> RaftNode -> list RaftEffect -> Prop) s :
  Q tt (f s) [] -> wp (modify f) Q s.
Proof. done. Qed.

Lemma wp_emit e (Q : unit -> RaftNode -> list RaftEffect -> Prop) s :
  Q tt s [e] -> wp (emit e) Q s.
Proof. done. Qed.

Lemma wp_skip (Q : unit -> RaftNode -> list RaftEffect -> Prop) s : Q tt s [] -> wp skip Q s.
Proof. done. Qed.

Lemma wp_Returns {A} (m : M A) s a s' es (Q : A -> RaftNode -> list RaftEffect -> Prop) :
  wp m Q s -> m s = Returns (a, s', es) -> Q a s' es.
Proof. unfold wp. intros H Hs. by rewrite Hs in H. Qed.
