(* ===== verification/Raft.v ===== *)
(** * Raft: the transition engine of one consensus node

    Translation of [src/raft.cpp], function by function. *)

From S2P Require Import Prelude Model StateMachine RaftTypes.

Definition kEntryOverhead : N := 64.
Definition kAppendRpcOverhead : N := 64.

Definition command_size_within (c : ClientCommand) (maximum max_key max_value : N) : bool :=
  (string_size (key c) <=? max_key) && (string_size (value c) <=? max_value) &&
  (string_size (key c) <=? maximum) &&
  (string_size (value c) <=? sub64 maximum (string_size (key c))).

(** The test every handler makes of a command it accepts. *)
Definition command_acceptable (cfg : RaftConfig) (c : ClientCommand) : bool :=
  structurally_valid c &&
  command_size_within c (max_command_bytes cfg) (max_key_bytes cfg) (max_value_bytes cfg).

Definition entry_acceptable (cfg : RaftConfig) (e : LogEntry) : bool :=
  match command e with Some c => command_acceptable cfg c | None => true end.

(** ** Log accessors *)

Definition last_log_index (s : RaftNode) : LogIndex := N.of_nat (length (log_ s)).

Definition is_member (s : RaftNode) (id : NodeId) : bool :=
  bool_decide (id ∈ members (config_ s)).

Definition quorum_size (s : RaftNode) : N := N.of_nat (length (members (config_ s))) / 2 + 1.

(** [log_[index - 1]] behind the bounds check of [RaftNode::entry_at]. *)
Definition log_at (log : list LogEntry) (idx : LogIndex) : option LogEntry :=
  if (idx =? 0) || (N.of_nat (length log) <? idx) then None else log !! N.to_nat (idx - 1).

Definition entry_at (s : RaftNode) (idx : LogIndex) : option LogEntry := log_at (log_ s) idx.

Definition log_term_at (log : list LogEntry) (idx : LogIndex) : Term :=
  match log_at log idx with Some e => term e | None => 0 end.

Definition term_at (s : RaftNode) (idx : LogIndex) : Term :=
  match entry_at s idx with Some e => term e | None => 0 end.

Definition candidate_is_up_to_date (s : RaftNode) (idx : LogIndex) (t : Term) : bool :=
  let local_term := term_at s (last_log_index s) in
  (local_term <? t) || ((t =? local_term) && (last_log_index s <=? idx)).

Definition uncommitted_entry_count (s : RaftNode) : N :=
  sub64 (last_log_index s) (commit_index_ s).

Definition entry_bytes (e : LogEntry) : N :=
  match command e with
  | None => kEntryOverhead
  | Some c =>
      let key_size := string_size (key c) in
      let value_size := string_size (value c) in
      if (sub64 u64_max value_size <? key_size) ||
         (sub64 (sub64 u64_max key_size) value_size <? kEntryOverhead)
      then u64_max
      else add64 (add64 kEntryOverhead key_size) value_size
  end.

(** The loop of [RaftNode::uncommitted_bytes] over the entries after the commit
    index. *)
Fixpoint sum_entry_bytes (total : N) (es : list LogEntry) : N :=
  match es with
  | [] => total
  | e :: es =>
      let bytes := entry_bytes e in
      if sub64 u64_max total <? bytes then u64_max else sum_entry_bytes (add64 total bytes) es
  end.

Definition uncommitted_bytes (s : RaftNode) : N :=
  sum_entry_bytes 0 (drop (N.to_nat (commit_index_ s)) (log_ s)).

Definition can_append (s : RaftNode) (e : LogEntry) : bool :=
  let cfg := config_ s in
  if sub64 (max_append_bytes_per_rpc cfg) kAppendRpcOverhead <? entry_bytes e then false
  else if max_uncommitted_entries cfg <=? uncommitted_entry_count s then false
  else
    let current := uncommitted_bytes s in
    let added := entry_bytes e in
    (current <=? max_uncommitted_bytes cfg) &&
    (added <=? sub64 (max_uncommitted_bytes cfg) current).

Definition can_append_client (s : RaftNode) (e : LogEntry) : bool :=
  let cfg := config_ s in
  let count := uncommitted_entry_count s in
  if (max_uncommitted_entries cfg <=? count) ||
     (sub64 (max_uncommitted_entries cfg) count <=? 1) then false
  else
    let current := uncommitted_bytes s in
    let added := entry_bytes e in
    if (max_uncommitted_bytes cfg <? current) ||
       (sub64 (max_uncommitted_bytes cfg) current <? added) then false
    else
      let after_entry := add64 current added in
      (after_entry <=? max_uncommitted_bytes cfg) &&
      (kEntryOverhead <=? sub64 (max_uncommitted_bytes cfg) after_entry).

(** The reverse scan of [RaftNode::last_index_of_term]. *)
Fixpoint find_term (rlog : list LogEntry) (t : Term) : option LogIndex :=
  match rlog with
  | [] => None
  | e :: rlog => if term e =? t then Some (index e) else find_term rlog t
  end.

Definition last_index_of_term (s : RaftNode) (t : Term) : option LogIndex :=
  find_term (rev (log_ s)) t.

(** The loop [while (at > 1 && term_at(at - 1) == term) --at], with [n] the
    distance of [at] from 1. *)
Fixpoint first_of_term (s : RaftNode) (t : Term) (n : nat) : LogIndex :=
  match n with
  | O => 1
  | S n' => if term_at s (N.of_nat n) =? t then first_of_term s t n' else N.of_nat n + 1
  end.

Definition first_index_of_term (s : RaftNode) (at_ : LogIndex) : LogIndex :=
  if (at_ =? 0) || (last_log_index s <? at_) then add64 (last_log_index s) 1
  else first_of_term s (term_at s at_) (N.to_nat (at_ - 1)).

(** ** Effects *)

Definition trace (k : TraceKind) (detail : string) (idx : LogIndex) : M unit :=
  s ← this;
  emit (TraceEffect (mkTraceRecord k (node_id (config_ s)) (current_term (hard_state_ s))
                       idx detail)).

Definition emit_reply (token : ClientToken) (status : ClientStatus) (v : string)
    (idx : LogIndex) : M unit :=
  s ← this;
  let hint := if decide (role_ s = leader) then Some (node_id (config_ s)) else leader_hint_ s in
  emit (ClientReplyEffect (mkClientReply token status hint idx v)) ;;
  trace client_reply "client reply emitted" idx.

Definition schedule_election : M unit :=
  modify (fun s => set_election_generation (add64 (election_generation_ s) 1) s) ;;
  s ← this;
  emit (ScheduleTimerEffect (mkTimerRequest election (election_timeout (config_ s))
                               (election_generation_ s))).

Definition schedule_heartbeat : M unit :=
  modify (fun s => set_heartbeat_generation (add64 (heartbeat_generation_ s) 1) s) ;;
  s ← this;
  emit (ScheduleTimerEffect (mkTimerRequest heartbeat (heartbeat_interval (config_ s))
                               (heartbeat_generation_ s))).

Definition send_message (to : NodeId) (m : Message) : M unit :=
  trace send "protocol message emitted" 0 ;;
  s ← this;
  emit (SendEffect (mkMessageEnvelope (node_id (config_ s)) to m)).

(** ** Storage *)

Definition reply_storage_error (p : N * PendingClientEntry) : M unit :=
  for_each (pc_waiters p.2) (fun token => emit_reply token storage_error EmptyString p.1).

Definition reply_deferred_error (ev : RaftEvent) : M unit :=
  match ev with
  | ClientRequest token _ => emit_reply token storage_error EmptyString 0
  | _ => skip
  end.

Definition fail_storage (detail : string) : M unit :=
  modify (set_role unavailable) ;;
  modify (set_leader_hint None) ;;
  modify (set_leader_ready false) ;;
  modify (set_peers ∅) ;;
  modify (set_votes_received ∅) ;;
  modify (set_pending_storage None) ;;
  modify (fun s => set_election_generation (add64 (election_generation_ s) 1) s) ;;
  modify (fun s => set_heartbeat_generation (add64 (heartbeat_generation_ s) 1) s) ;;
  trace fault detail 0 ;;
  s ← this;
  for_each (sorted_items (pending_clients_ s)) reply_storage_error ;;
  modify (set_pending_clients ∅) ;;
  modify (set_pending_sessions ∅) ;;
  for_each (deferred_events_ s) reply_deferred_error ;;
  modify (set_deferred_events []).

(** [begin_persist batch k run]: [k] names the closure and [run] is its body,
    which an empty batch runs at once. *)
Definition begin_persist (batch : PersistBatch) (k : AfterSuccess) (run : M unit) : M unit :=
  if batch_empty batch then run
  else
    s ← this;
    match pending_storage_ s with
    | Some _ => throw (logic_error "only one Raft storage operation may be outstanding")
    | None =>
        if next_storage_op_id_ s =? 0 then fail_storage "storage operation id overflow"
        else
          let op_id := next_storage_op_id_ s in
          modify (set_next_storage_op_id (add64 op_id 1)) ;;
          modify (set_pending_storage (Some (mkPendingStorage op_id batch k))) ;;
          trace storage_begin "storage operation started" 0 ;;
          emit (PersistEffect op_id batch)
    end.

(** [if (batch.empty()) run(effects); else begin_persist(batch, run, effects)]. *)
Definition persist_or_run (batch : PersistBatch) (k : AfterSuccess) (run : M unit) : M unit :=
  if batch_empty batch then run else begin_persist batch k run.

(** ** Replication *)

(** The loop of [RaftNode::send_append] that copies entries while the byte
    budget lasts. *)
Fixpoint collect_entries (cfg : RaftConfig) (encoded_bytes : N) (es : list LogEntry)
  : list LogEntry :=
  match es with
  | [] => []
  | e :: es =>
      let bytes := entry_bytes e in
      if sub64 (max_append_bytes_per_rpc cfg) encoded_bytes <? bytes then []
      else e :: collect_entries cfg (add64 encoded_bytes bytes) es
  end.

(** [std::clamp(v, lo, hi)]. *)
Definition clamp (v lo hi : N) : N := if v <? lo then lo else if hi <? v then hi else v.

Definition send_append (peer : NodeId) : M unit :=
  s ← this;
  if negb (bool_decide (role_ s = leader)) || negb (is_none (pending_storage_ s)) then skip
  else match peers_ s !! peer with
  | None => skip
  | Some progress =>
      if negb (is_none (inflight progress)) then skip
      else
        let next := clamp (next_index progress) 1 (add64 (durable_last_log_index_ s) 1) in
        let progress := mkPeerProgress next (match_index progress) (inflight progress)
                          (inflight_heartbeat_age progress) in
        modify (set_peers (<[peer := progress]> (peers_ s))) ;;
        let prev := sub64 next 1 in
        let available := sub64 (durable_last_log_index_ s) prev in
        let candidate_count := N.min available (max_append_entries_per_rpc (config_ s)) in
        let entries := collect_entries (config_ s) kAppendRpcOverhead
                         (take (N.to_nat candidate_count) (drop (N.to_nat prev) (log_ s))) in
        if next_rpc_id_ s =? 0 then fail_storage "RPC id overflow"
        else
          let rpc_id := next_rpc_id_ s in
          modify (set_next_rpc_id (add64 rpc_id 1)) ;;
          let sent_last := add64 prev (N.of_nat (length entries)) in
          modify (set_peers (<[peer := mkPeerProgress next (match_index progress)
                                         (Some (mkInflightAppend rpc_id prev sent_last)) 0]>
                               (peers_ s))) ;;
          send_message peer
            (MAppendEntries (mkAppendEntries (current_term (hard_state_ s)) (node_id (config_ s))
               rpc_id prev (term_at s prev) entries (commit_index_ s)))
  end.

Definition send_all_appends : M unit :=
  s ← this;
  if negb (bool_decide (role_ s = leader)) || negb (is_none (pending_storage_ s)) then skip
  else for_each (sorted_items (peers_ s)).*1 send_append.

(** ** Applying *)

(** The part of an [apply_committed] iteration that answers the waiters of the
    entry just applied. *)
Definition answer_waiters (result : ApplyResult) : M unit :=
  s ← this;
  match pending_clients_ s !! last_applied_ s with
  | None => skip
  | Some pending =>
      for_each (pc_waiters pending)
        (fun token => emit_reply token (ar_status result) (ar_value result) (last_applied_ s)) ;;
      when (bool_decide (pending_sessions_ s !! session (pc_command pending)
                           = Some (last_applied_ s)))
        (modify (fun s' => set_pending_sessions
           (delete (session (pc_command pending)) (pending_sessions_ s')) s')) ;;
      modify (fun s' => set_pending_clients (delete (last_applied_ s) (pending_clients_ s')) s')
  end.

(** The loop of [RaftNode::apply_committed]; every iteration advances
    [last_applied_] by one, so [commit_index_ - last_applied_] iterations are
    enough. *)
Fixpoint apply_loop (n : nat) : M unit :=
  match n with
  | O => skip
  | S n =>
      s ← this;
      if last_applied_ s <? commit_index_ s then
        modify (set_last_applied (add64 (last_applied_ s) 1)) ;;
        s ← this;
        match entry_at s (last_applied_ s) with
        | None => fail_storage "commit index references a missing log entry"
        | Some entry =>
            let '(result, sm) := match command entry with
                                 | Some c => kv_apply (state_machine_ s) c
                                 | None => (default_result, state_machine_ s)
                                 end in
            modify (set_state_machine sm) ;;
            trace apply_entry (if is_none (command entry) then "applied no-op"
                               else "applied client command") (last_applied_ s) ;;
            answer_waiters result ;;
            apply_loop n
        end
      else skip
  end.

Definition apply_committed : M unit :=
  s ← this;
  apply_loop (N.to_nat (commit_index_ s - last_applied_ s)).

(** ** Committing *)

(** The number of replicas whose durable log is known to reach [idx]: the
    leader and the peers with [match_index >= idx]. *)
Definition replicas_at (s : RaftNode) (idx : LogIndex) : N :=
  1 + N.of_nat (length (filter (fun p => idx <= match_index p.2) (sorted_items (peers_ s)))).

(** The scan of [RaftNode::maybe_advance_commit] from the candidate
    [commit_index_ + n] down to [commit_index_]. *)
Fixpoint commit_target (s : RaftNode) (n : nat) : LogIndex :=
  match n with
  | O => commit_index_ s
  | S n' =>
      let candidate := commit_index_ s + N.of_nat n in
      match entry_at s candidate with
      | Some e =>
          if (term e =? current_term (hard_state_ s)) && (quorum_size s <=? replicas_at s candidate)
          then candidate else commit_target s n'
      | None => commit_target s n'
      end
  end.

(** The closure [maybe_advance_commit] hands to [begin_persist]. *)
Definition run_advance_commit : M unit :=
  s ← this;
  trace commit "leader durably advanced commit index" (commit_index_ s) ;;
  apply_committed ;;
  s ← this;
  when (bool_decide (role_ s = leader) && negb (readiness_index_ s =? 0) &&
        (readiness_index_ s <=? last_applied_ s))
    (modify (set_leader_ready true)) ;;
  send_all_appends.

Definition maybe_advance_commit : M unit :=
  s ← this;
  if negb (bool_decide (role_ s = leader)) || negb (is_none (pending_storage_ s)) then skip
  else
    let target := commit_target s (N.to_nat (durable_last_log_index_ s - commit_index_ s)) in
    if target =? commit_index_ s then skip
    else
      modify (set_commit_index target) ;;
      begin_persist (mkPersistBatch None None [] (Some target)) after_advance_commit
        run_advance_commit.

(** ** Elections *)

Definition step_down (t : Term) (hint : option NodeId) (emit_timer : bool) : M unit :=
  s ← this;
  let old_role := role_ s in
  when (current_term (hard_state_ s) <? t)
    (modify (set_hard_state (mkHardState t None)) ;;
     trace term_change "observed a higher term" 0) ;;
  modify (set_role follower) ;;
  modify (set_leader_hint hint) ;;
  modify (set_leader_ready false) ;;
  modify (set_readiness_index 0) ;;
  modify (set_votes_received ∅) ;;
  modify (set_peers ∅) ;;
  modify (fun s => set_heartbeat_generation (add64 (heartbeat_generation_ s) 1) s) ;;
  when (negb (bool_decide (old_role = follower))) (trace role_change "became follower" 0) ;;
  when emit_timer schedule_election.

(** A batch that carries only the hard state. *)
Definition hard_state_batch (h : HardState) : PersistBatch := mkPersistBatch (Some h) None [] None.

(** The closure of [begin_election]. *)
Definition run_begin_election : M unit :=
  s ← this;
  if negb (bool_decide (role_ s = candidate)) then skip
  else
    schedule_election ;;
    let request := mkRequestVote (current_term (hard_state_ s)) (node_id (config_ s))
                     (durable_last_log_index_ s) (term_at s (durable_last_log_index_ s)) in
    for_each (members (config_ s))
      (fun member => if negb (member =? node_id (config_ s))
                     then send_message member (MRequestVote request) else skip).

Definition begin_election : M unit :=
  s ← this;
  if current_term (hard_state_ s) =? u64_max then fail_storage "term counter overflow"
  else
    modify (set_role candidate) ;;
    modify (set_hard_state (mkHardState (add64 (current_term (hard_state_ s)) 1)
                              (Some (node_id (config_ s))))) ;;
    modify (set_leader_hint None) ;;
    modify (set_leader_ready false) ;;
    modify (set_readiness_index 0) ;;
    modify (set_peers ∅) ;;
    modify (set_votes_received {[ node_id (config_ s) ]}) ;;
    modify (fun s => set_heartbeat_generation (add64 (heartbeat_generation_ s) 1) s) ;;
    trace term_change "started election" 0 ;;
    trace role_change "became candidate" 0 ;;
    trace vote "recorded self vote" 0 ;;
    s ← this;
    begin_persist (hard_state_batch (hard_state_ s)) after_begin_election run_begin_election.

(** The closure of [become_leader]. *)
Definition run_become_leader : M unit :=
  s ← this;
  if negb (bool_decide (role_ s = leader)) then skip
  else send_all_appends ;; schedule_heartbeat ;; maybe_advance_commit.

(** The peers map [become_leader] builds. *)
Definition initial_peers (s : RaftNode) : gmap N PeerProgress :=
  foldl (fun m member =>
           if negb (member =? node_id (config_ s))
           then match m !! member with
                | Some _ => m
                | None => <[member := mkPeerProgress (add64 (durable_last_log_index_ s) 1) 0
                                        None 0]> m
                end
           else m) ∅ (members (config_ s)).

Definition become_leader : M unit :=
  modify (set_role leader) ;;
  s ← this;
  modify (set_leader_hint (Some (node_id (config_ s)))) ;;
  modify (set_leader_ready false) ;;
  modify (set_readiness_index 0) ;;
  modify (set_votes_received ∅) ;;
  modify (fun s => set_election_generation (add64 (election_generation_ s) 1) s) ;;
  modify (set_peers (initial_peers s)) ;;
  trace role_change "became leader" 0 ;;
  s ← this;
  if last_log_index s =? u64_max then fail_storage "log index overflow"
  else
    let no_op := mkLogEntry (add64 (last_log_index s) 1) (current_term (hard_state_ s)) None in
    if negb (can_append s no_op) then
      trace queue_saturated "no room for leader readiness entry" 0 ;;
      modify (set_role follower) ;;
      modify (set_leader_hint None) ;;
      modify (set_peers ∅) ;;
      schedule_election
    else
      modify (set_log (log_ s ++ [no_op])) ;;
      modify (set_readiness_index (index no_op)) ;;
      trace log_change "appended leader readiness no-op" (index no_op) ;;
      begin_persist (mkPersistBatch None None [no_op] None) after_become_leader
        run_become_leader.

(** The [reply] closure of [on_request_vote]. *)
Definition run_vote_reply (from : NodeId) (grant was_leader : bool) : M unit :=
  when grant (trace vote "granted vote" 0) ;;
  when (grant || was_leader) schedule_election ;;
  s ← this;
  send_message from
    (MRequestVoteResponse (mkRequestVoteResponse (current_term (hard_state_ s)) grant)).

Definition on_request_vote (from : NodeId) (request : RequestVote) : M unit :=
  s ← this;
  if (rv_term request =? 0) || negb (rv_candidate_id request =? from) then skip
  else if rv_term request <? current_term (hard_state_ s) then
    send_message from
      (MRequestVoteResponse (mkRequestVoteResponse (current_term (hard_state_ s)) false))
  else
    let was_leader := bool_decide (role_ s = leader) in
    let observed_higher_term := current_term (hard_state_ s) <? rv_term request in
    when observed_higher_term (step_down (rv_term request) None false) ;;
    s ← this;
    let batch := if observed_higher_term then hard_state_batch (hard_state_ s) else no_batch in
    let can_vote := match voted_for (hard_state_ s) with
                    | None => true
                    | Some v => v =? rv_candidate_id request
                    end in
    let grant := can_vote &&
      candidate_is_up_to_date s (rv_last_log_index request) (rv_last_log_term request) in
    if grant && negb (bool_decide (voted_for (hard_state_ s) = Some (rv_candidate_id request)))
    then
      modify (set_hard_state (mkHardState (current_term (hard_state_ s))
                                (Some (rv_candidate_id request)))) ;;
      s ← this;
      persist_or_run (hard_state_batch (hard_state_ s))
        (after_vote_reply from grant was_leader) (run_vote_reply from grant was_leader)
    else
      persist_or_run batch
        (after_vote_reply from grant was_leader) (run_vote_reply from grant was_leader).

(** The closure of the step-down branches of the two response handlers. *)
Definition run_step_down : M unit := schedule_election.

Definition on_request_vote_response (from : NodeId) (response : RequestVoteResponse) : M unit :=
  s ← this;
  if current_term (hard_state_ s) <? rvr_term response then
    step_down (rvr_term response) None false ;;
    s ← this;
    begin_persist (hard_state_batch (hard_state_ s)) after_step_down run_step_down
  else if negb (bool_decide (role_ s = candidate)) ||
          negb (rvr_term response =? current_term (hard_state_ s)) ||
          negb (rvr_vote_granted response) then skip
  else
    modify (set_votes_received ({[ from ]} ∪ votes_received_ s)) ;;
    when (negb (bool_decide (from ∈ votes_received_ s))) (trace vote "received vote" 0) ;;
    s ← this;
    when (quorum_size s <=? N.of_nat (size (votes_received_ s))) become_leader.

(** ** AppendEntries *)

(** The validation loop of [on_append_entries]. *)
Fixpoint entries_ok (cfg : RaftConfig) (request_term : Term) (expected_index : LogIndex)
    (append_bytes : N) (es : list LogEntry) : bool :=
  match es with
  | [] => true
  | e :: es =>
      if expected_index =? u64_max then false
      else
        let expected_index := add64 expected_index 1 in
        let bytes := entry_bytes e in
        if sub64 (max_append_bytes_per_rpc cfg) append_bytes <? bytes then false
        else if negb (index e =? expected_index) || (term e =? 0) || (request_term <? term e) ||
                negb (entry_acceptable cfg e) then false
        else entries_ok cfg request_term expected_index (add64 append_bytes bytes) es
  end.

Definition entries_valid (cfg : RaftConfig) (request : AppendEntries) : bool :=
  (N.of_nat (length (ae_entries request)) <=? max_append_entries_per_rpc cfg) &&
  entries_ok cfg (ae_term request) (ae_prev_log_index request) kAppendRpcOverhead
    (ae_entries request).

(** The [incoming] loop: how many leading entries the log already holds. *)
Fixpoint matching_prefix (log : list LogEntry) (es : list LogEntry) : nat :=
  match es with
  | [] => O
  | e :: es => if bool_decide (log_at log (index e) = Some e) then S (matching_prefix log es) else O
  end.

(** The body shared by the [reject], [missing] and [mismatch] closures. *)
Definition run_append_reject (from : NodeId) (rpc_id : RpcId) (conflict_index : LogIndex)
    (conflict_term : Term) : M unit :=
  schedule_election ;;
  s ← this;
  send_message from
    (MAppendEntriesResponse (mkAppendEntriesResponse (current_term (hard_state_ s)) rpc_id false 0
       conflict_index conflict_term)).

(** The [accept] closure. *)
Definition run_append_accept (from : NodeId) (rpc_id : RpcId) (matched : LogIndex) (apply : bool)
  : M unit :=
  when apply
    (s ← this;
     trace commit "learned committed prefix from leader" (commit_index_ s) ;;
     apply_committed) ;;
  schedule_election ;;
  s ← this;
  send_message from
    (MAppendEntriesResponse (mkAppendEntriesResponse (current_term (hard_state_ s)) rpc_id true
       matched 0 0)).

(** One iteration of [remove_pending_from]. *)
Definition remove_pending (p : N * PendingClientEntry) : M unit :=
  for_each (pc_waiters p.2) (fun token => emit_reply token status_unavailable EmptyString p.1) ;;
  s ← this;
  when (bool_decide (pending_sessions_ s !! session (pc_command p.2) = Some p.1))
    (modify (fun s => set_pending_sessions
       (delete (session (pc_command p.2)) (pending_sessions_ s)) s)) ;;
  modify (fun s => set_pending_clients (delete p.1 (pending_clients_ s)) s).

Definition remove_pending_from (idx : LogIndex) : M unit :=
  s ← this;
  for_each (filter (fun p => idx <= p.1) (sorted_items (pending_clients_ s))) remove_pending.

(** The part of [on_append_entries] that adopts the leader's suffix: the entries
    from position [incoming] of the request replace the log from their index. *)
Definition adopt_suffix (batch : PersistBatch) (es : list LogEntry) (replacement : LogIndex)
  : M PersistBatch :=
  s ← this;
  truncate_from ←
    (if replacement <=? last_log_index s then
       remove_pending_from replacement ;;
       modify (fun s => set_log (take (N.to_nat (replacement - 1)) (log_ s)) s) ;;
       mret (Some replacement)
     else mret (b_truncate_from batch));
  modify (fun s => set_log (log_ s ++ es) s) ;;
  trace log_change "accepted replicated log suffix" replacement ;;
  mret (mkPersistBatch (b_hard_state batch) truncate_from es (b_commit_index batch)).

(** The last part of [on_append_entries]: the commit index and the reply. *)
Definition finish_append (from : NodeId) (request : AppendEntries) (batch : PersistBatch)
  : M unit :=
  s ← this;
  let matched := match last (ae_entries request) with
                 | None => ae_prev_log_index request
                 | Some e => index e
                 end in
  let new_commit := N.min (ae_leader_commit request) matched in
  if commit_index_ s <? new_commit then
    modify (set_commit_index new_commit) ;;
    persist_or_run
      (mkPersistBatch (b_hard_state batch) (b_truncate_from batch) (b_entries batch)
         (Some new_commit))
      (after_append_accept from (ae_rpc_id request) matched true)
      (run_append_accept from (ae_rpc_id request) matched true)
  else
    persist_or_run batch
      (after_append_accept from (ae_rpc_id request) matched (negb (is_none (b_commit_index batch))))
      (run_append_accept from (ae_rpc_id request) matched (negb (is_none (b_commit_index batch)))).

Definition append_reject (from : NodeId) (request : AppendEntries) (batch : PersistBatch)
    (conflict_index : LogIndex) (conflict_term : Term) : M unit :=
  persist_or_run batch
    (after_append_reject from (ae_rpc_id request) conflict_index conflict_term)
    (run_append_reject from (ae_rpc_id request) conflict_index conflict_term).

(** The checks and the acceptance of a request whose term is current. *)
Definition process_append (from : NodeId) (request : AppendEntries) (batch : PersistBatch)
  : M unit :=
  s ← this;
  if negb (entries_valid (config_ s) request) then
    append_reject from request batch (add64 (last_log_index s) 1) 0
  else if last_log_index s <? ae_prev_log_index request then
    append_reject from request batch (add64 (last_log_index s) 1) 0
  else if negb (term_at s (ae_prev_log_index request) =? ae_prev_log_term request) then
    append_reject from request batch (first_index_of_term s (ae_prev_log_index request))
      (term_at s (ae_prev_log_index request))
  else
    match drop (matching_prefix (log_ s) (ae_entries request)) (ae_entries request) with
    | [] => finish_append from request batch
    | e :: es =>
        if index e <=? commit_index_ s then
          fail_storage "leader attempted to overwrite a committed entry"
        else
          batch ← adopt_suffix batch (e :: es) (index e);
          finish_append from request batch
    end.

Definition on_append_entries (from : NodeId) (request : AppendEntries) : M unit :=
  s ← this;
  if (ae_term request =? 0) || negb (ae_leader_id request =? from) then skip
  else if ae_term request <? current_term (hard_state_ s) then
    send_message from
      (MAppendEntriesResponse (mkAppendEntriesResponse (current_term (hard_state_ s))
         (ae_rpc_id request) false 0 (add64 (last_log_index s) 1) 0))
  else if current_term (hard_state_ s) <? ae_term request then
    step_down (ae_term request) (Some from) false ;;
    s ← this;
    process_append from request (hard_state_batch (hard_state_ s))
  else
    (if negb (bool_decide (role_ s = follower))
     then step_down (ae_term request) (Some from) false
     else modify (set_leader_hint (Some from))) ;;
    process_append from request no_batch.

(** The failure branch of [on_append_entries_response]: where to probe next. *)
Definition next_probe (s : RaftNode) (progress : PeerProgress) (response : AppendEntriesResponse)
  : LogIndex :=
  let next := aer_conflict_index response in
  let next := if negb (aer_conflict_term response =? 0)
              then match last_index_of_term s (aer_conflict_term response) with
                   | Some matching => add64 matching 1
                   | None => next
                   end
              else next in
  let next := if next =? 0
              then if 1 <? next_index progress then sub64 (next_index progress) 1 else 1
              else next in
  let next := N.min next (add64 (durable_last_log_index_ s) 1) in
  N.max next (add64 (match_index progress) 1).

Definition on_append_entries_response (from : NodeId) (response : AppendEntriesResponse) : M unit :=
  s ← this;
  if current_term (hard_state_ s) <? aer_term response then
    step_down (aer_term response) None false ;;
    s ← this;
    begin_persist (hard_state_batch (hard_state_ s)) after_step_down run_step_down
  else if negb (bool_decide (role_ s = leader)) ||
          negb (aer_term response =? current_term (hard_state_ s)) then skip
  else match peers_ s !! from with
  | None => skip
  | Some progress =>
      match inflight progress with
      | None => skip
      | Some sent =>
          if negb (if_rpc_id sent =? aer_rpc_id response) then skip
          else
            let progress := mkPeerProgress (next_index progress) (match_index progress) None 0 in
            modify (set_peers (<[from := progress]> (peers_ s))) ;;
            if aer_success response then
              if aer_match_index response <? if_last_index sent then skip
              else
                let matched := N.max (match_index progress) (if_last_index sent) in
                modify (set_peers (<[from := mkPeerProgress (add64 matched 1) matched None 0]>
                                     (peers_ s))) ;;
                maybe_advance_commit ;;
                s ← this;
                when (bool_decide (role_ s = leader) && is_none (pending_storage_ s))
                  (match peers_ s !! from with
                   | Some current =>
                       when (match_index current <? durable_last_log_index_ s) (send_append from)
                   | None => skip
                   end)
            else
              modify (set_peers (<[from := mkPeerProgress (next_probe s progress response)
                                             (match_index progress) None 0]> (peers_ s))) ;;
              send_append from
      end
  end.

(** ** Client requests *)

(** The closure of [on_client_request]. *)
Definition run_client_request : M unit :=
  s ← this;
  if negb (bool_decide (role_ s = leader)) then skip
  else send_all_appends ;; maybe_advance_commit.

(** The tail of [on_client_request]: append the command to the log. *)
Definition append_client (token : ClientToken) (cmd : ClientCommand) (digest : N) : M unit :=
  s ← this;
  if last_log_index s =? u64_max then emit_reply token busy EmptyString 0
  else
    let entry := mkLogEntry (add64 (last_log_index s) 1) (current_term (hard_state_ s)) (Some cmd) in
    if negb (can_append_client s entry) then
      trace queue_saturated "uncommitted log admission bound reached" 0 ;;
      emit_reply token busy EmptyString 0
    else
      modify (set_log (log_ s ++ [entry])) ;;
      modify (set_pending_sessions (<[session cmd := index entry]> (pending_sessions_ s))) ;;
      modify (set_pending_clients
                (<[index entry := mkPendingClientEntry cmd digest [token]]> (pending_clients_ s))) ;;
      trace log_change "appended client command" (index entry) ;;
      begin_persist (mkPersistBatch None None [entry] None) after_client_request
        run_client_request.

(** The lookup of an unresolved command of the same session. *)
Definition admit_client (token : ClientToken) (cmd : ClientCommand) (digest : N) : M unit :=
  s ← this;
  match pending_sessions_ s !! session cmd with
  | None => append_client token cmd digest
  | Some idx =>
      match pending_clients_ s !! idx with
      | None =>
          modify (set_pending_sessions (delete (session cmd) (pending_sessions_ s))) ;;
          append_client token cmd digest
      | Some pending =>
          if negb (sequence (pc_command pending) =? sequence cmd) then
            emit_reply token sequence_gap EmptyString 0
          else if negb (pc_digest pending =? digest) then
            emit_reply token request_id_conflict EmptyString 0
          else if max_waiters_per_request (config_ s) <=? N.of_nat (length (pc_waiters pending)) then
            emit_reply token busy EmptyString 0
          else
            modify (set_pending_clients
              (<[idx := mkPendingClientEntry (pc_command pending) (pc_digest pending)
                          (pc_waiters pending ++ [token])]> (pending_clients_ s)))
      end
  end.

Definition on_client_request (token : ClientToken) (cmd : ClientCommand) : M unit :=
  s ← this;
  if bool_decide (role_ s = unavailable) then emit_reply token status_unavailable EmptyString 0
  else if negb (bool_decide (role_ s = leader)) then emit_reply token not_leader EmptyString 0
  else if negb (leader_ready_ s) then emit_reply token leader_not_ready EmptyString 0
  else if negb (command_acceptable (config_ s) cmd) then
    emit_reply token invalid_request EmptyString 0
  else
    let digest := command_digest cmd in
    match kv_session (state_machine_ s) (session cmd) with
    | Some applied =>
        if sequence cmd <? sr_sequence applied then emit_reply token stale_sequence EmptyString 0
        else if sequence cmd =? sr_sequence applied then
          if negb (digest =? sr_command_digest applied)
          then emit_reply token request_id_conflict EmptyString 0
          else emit_reply token (sr_status applied) (sr_result applied) (last_applied_ s)
        else if (sr_sequence applied =? u64_max) ||
                negb (sequence cmd =? add64 (sr_sequence applied) 1)
        then emit_reply token sequence_gap EmptyString 0
        else admit_client token cmd digest
    | None =>
        if negb (sequence cmd =? 1) then emit_reply token sequence_gap EmptyString 0
        else admit_client token cmd digest
    end.

(** ** Timers, messages and storage completions *)

(** The ageing of one peer's in-flight append at a heartbeat. *)
Definition age_inflight (cfg : RaftConfig) (progress : PeerProgress) : PeerProgress :=
  match inflight progress with
  | None => progress
  | Some _ =>
      let age := add64 (inflight_heartbeat_age progress) 1 in
      if append_retry_heartbeats cfg <=? age
      then mkPeerProgress (next_index progress) (match_index progress) None 0
      else mkPeerProgress (next_index progress) (match_index progress) (inflight progress) age
  end.

Definition on_timer (k : TimerKind) (generation : N) : M unit :=
  s ← this;
  match k with
  | election =>
      if negb (generation =? election_generation_ s) || bool_decide (role_ s = leader) ||
         bool_decide (role_ s = unavailable) then skip
      else begin_election
  | heartbeat =>
      if negb (generation =? heartbeat_generation_ s) || negb (bool_decide (role_ s = leader))
      then skip
      else
        modify (set_peers (age_inflight (config_ s) <$> peers_ s)) ;;
        send_all_appends ;;
        schedule_heartbeat
  end.

Definition on_message (envelope : MessageEnvelope) : M unit :=
  s ← this;
  if negb (env_to envelope =? node_id (config_ s)) || (env_from envelope =? node_id (config_ s)) ||
     negb (is_member s (env_from envelope)) then skip
  else
    trace receive "protocol message received" 0 ;;
    match env_message envelope with
    | MRequestVote m => on_request_vote (env_from envelope) m
    | MRequestVoteResponse m => on_request_vote_response (env_from envelope) m
    | MAppendEntries m => on_append_entries (env_from envelope) m
    | MAppendEntriesResponse m => on_append_entries_response (env_from envelope) m
    end.

(** [pending.after_success(effects)]. *)
Definition run_after (k : AfterSuccess) : M unit :=
  match k with
  | after_begin_election => run_begin_election
  | after_vote_reply from grant was_leader => run_vote_reply from grant was_leader
  | after_step_down => run_step_down
  | after_become_leader => run_become_leader
  | after_append_reject from rpc_id conflict_index conflict_term =>
      run_append_reject from rpc_id conflict_index conflict_term
  | after_append_accept from rpc_id matched apply => run_append_accept from rpc_id matched apply
  | after_client_request => run_client_request
  | after_advance_commit => run_advance_commit
  end.

(** The durable mirrors [on_storage_complete] updates from the batch. *)
Definition mark_durable (batch : PersistBatch) (s : RaftNode) : RaftNode :=
  let s := match b_hard_state batch with
           | Some h => set_durable_hard_state h s
           | None => s
           end in
  let s := if negb (is_none (b_truncate_from batch)) || negb (is_nil (b_entries batch))
           then set_durable_last_log_index (last_log_index s) s else s in
  match b_commit_index batch with
  | Some c => set_durable_commit_index c s
  | None => s
  end.

Definition on_storage_complete (op_id : StorageOpId) (success : bool) (error : string) : M unit :=
  s ← this;
  match pending_storage_ s with
  | None => trace fault "unexpected storage completion" 0
  | Some pending =>
      if negb (ps_op_id pending =? op_id) then trace fault "unexpected storage completion" 0
      else
        modify (set_pending_storage None) ;;
        if negb success then
          fail_storage (if string_empty error then "storage operation failed" else error)
        else
          modify (mark_durable (ps_batch pending)) ;;
          trace storage_complete "storage operation completed" 0 ;;
          run_after (ps_after_success pending)
  end.

Definition dispatch (event : RaftEvent) : M unit :=
  match event with
  | TimerFired k generation => on_timer k generation
  | MessageReceived envelope => on_message envelope
  | StorageComplete op_id success error => on_storage_complete op_id success error
  | ClientRequest token cmd => on_client_request token cmd
  end.

(** ** The public entry points *)

(** The scan of [RaftNode::step] that bounds an AppendEntries before it is
    deferred. *)
Fixpoint deferred_entries_ok (cfg : RaftConfig) (bytes : N) (es : list LogEntry) : bool :=
  match es with
  | [] => true
  | e :: es =>
      let added := entry_bytes e in
      if sub64 (max_append_bytes_per_rpc cfg) (N.min (max_append_bytes_per_rpc cfg) bytes) <? added
      then false
      else if negb (entry_acceptable cfg e) then false
      else deferred_entries_ok cfg (add64 bytes added) es
  end.

(** [bounded] as computed in [RaftNode::step]. *)
Definition append_bounded (cfg : RaftConfig) (append : AppendEntries) : bool :=
  (N.of_nat (length (ae_entries append)) <=? max_append_entries_per_rpc cfg) &&
  deferred_entries_ok cfg kAppendRpcOverhead (ae_entries append).

Definition is_storage_complete (event : RaftEvent) : bool :=
  match event with StorageComplete _ _ _ => true | _ => false end.

(** Whether a deferred event is an AppendEntries beyond the configured bounds. *)
Definition oversized (cfg : RaftConfig) (event : RaftEvent) : bool :=
  match event with
  | MessageReceived env =>
      match env_message env with
      | MAppendEntries append => negb (append_bounded cfg append)
      | _ => false
      end
  | _ => false
  end.

(** The branch of [RaftNode::step] taken while a storage operation is pending. *)
Definition defer (event : RaftEvent) : M unit :=
  s ← this;
  let enqueue :=
    if oversized (config_ s) event then
      trace queue_saturated "rejected oversized deferred protocol event" 0
    else if max_deferred_events (config_ s) <=? N.of_nat (length (deferred_events_ s)) then
      trace queue_saturated "deferred event queue is full" 0 ;;
      match event with
      | ClientRequest token _ => emit_reply token busy EmptyString 0
      | _ => skip
      end
    else modify (set_deferred_events (deferred_events_ s ++ [event])) in
  match event with
  | ClientRequest token cmd =>
      if negb (command_acceptable (config_ s) cmd)
      then emit_reply token invalid_request EmptyString 0
      else enqueue
  | _ => enqueue
  end.

(** The loop of [RaftNode::step] that dispatches the deferred events.  A
    dispatch never enqueues, so the number of deferred events bounds the
    iterations. *)
Fixpoint drain (fuel : nat) : M unit :=
  match fuel with
  | O => skip
  | S fuel =>
      s ← this;
      if is_none (pending_storage_ s) && negb (bool_decide (role_ s = unavailable)) then
        match deferred_events_ s with
        | [] => skip
        | deferred :: rest =>
            modify (set_deferred_events rest) ;;
            dispatch deferred ;;
            drain fuel
        end
      else skip
  end.

Definition step (event : RaftEvent) : M unit :=
  s ← this;
  if negb (is_none (pending_storage_ s)) && negb (is_storage_complete event) then defer event
  else if bool_decide (role_ s = unavailable) && negb (is_storage_complete event) then
    match event with
    | ClientRequest token _ => emit_reply token status_unavailable EmptyString 0
    | _ => skip
    end
  else
    dispatch event ;;
    s ← this;
    drain (length (deferred_events_ s)).

Definition start : M unit :=
  s ← this;
  if started_ s || bool_decide (role_ s = unavailable) then skip
  else
    modify (set_started true) ;;
    schedule_election.

(** ** Construction *)

(** [std::sort] of the members. *)
Definition sort_members (ms : list NodeId) : list NodeId := merge_sort N.le ms.

(** [std::adjacent_find] on a sequence: whether two neighbours are equal. *)
Fixpoint adjacent_equal (ms : list NodeId) : bool :=
  match ms with
  | x :: (y :: _) as rest => (x =? y) || adjacent_equal rest
  | _ => false
  end.

Definition with_members (cfg : RaftConfig) (ms : list NodeId) : RaftConfig :=
  mkRaftConfig (node_id cfg) ms (election_timeout cfg) (heartbeat_interval cfg)
    (max_deferred_events cfg) (max_uncommitted_entries cfg) (max_uncommitted_bytes cfg)
    (max_command_bytes cfg) (max_key_bytes cfg) (max_value_bytes cfg)
    (max_append_entries_per_rpc cfg) (max_append_bytes_per_rpc cfg) (append_retry_heartbeats cfg)
    (max_waiters_per_request cfg).

Definition config_bounds_ok (cfg : RaftConfig) : bool :=
  negb ((election_timeout cfg =? 0) || (heartbeat_interval cfg =? 0) ||
        (max_deferred_events cfg =? 0) || (max_uncommitted_entries cfg =? 0) ||
        (max_uncommitted_bytes cfg <? kEntryOverhead) || (max_command_bytes cfg =? 0) ||
        (max_key_bytes cfg =? 0) || (max_append_entries_per_rpc cfg =? 0) ||
        (max_append_bytes_per_rpc cfg <=? kAppendRpcOverhead) ||
        (append_retry_heartbeats cfg =? 0) || (max_waiters_per_request cfg =? 0)).

(** The constructor's scan of the recovered log from position [offset]. *)
Fixpoint recovered_log_ok (cfg : RaftConfig) (current : Term) (offset : N) (log : list LogEntry)
  : bool :=
  match log with
  | [] => true
  | e :: log =>
      if negb (index e =? add64 offset 1) || (term e =? 0) || (current <? term e) ||
         negb (entry_acceptable cfg e) ||
         (sub64 (max_append_bytes_per_rpc cfg) kAppendRpcOverhead <? entry_bytes e)
      then false
      else recovered_log_ok cfg current (offset + 1) log
  end.

(** The client commands among log entries, in order. *)
Definition log_commands (log : list LogEntry) : list ClientCommand := omap command log.

Definition is_some_not_member (v : option NodeId) (ms : list NodeId) : bool :=
  match v with Some n => negb (bool_decide (n ∈ ms)) | None => false end.

(** [RaftNode::RaftNode(config, recovered)]. *)
Definition RaftNode_new (config : RaftConfig) (recovered : RecoveredState) : Outcome RaftNode :=
  let cfg := with_members config (sort_members (members config)) in
  let hs := rec_hard_state recovered in
  let log := rec_log recovered in
  let count := length (members cfg) in
  if (negb (count =? 3)%nat && negb (count =? 5)%nat) || adjacent_equal (members cfg) ||
     negb (bool_decide (node_id cfg ∈ members cfg)) then
    Throws (invalid_argument
      "Raft membership must contain this node and exactly 3 or 5 unique nodes")
  else if negb (is_none (voted_for hs)) &&
          ((current_term hs =? 0) || is_some_not_member (voted_for hs) (members cfg)) then
    Throws (invalid_argument "Recovered vote is not valid membership state")
  else if negb (config_bounds_ok cfg) then
    Throws (invalid_argument "Raft bounds and timer durations must be non-zero")
  else if u64_max <? N.of_nat (length log) then
    Throws (invalid_argument "Recovered log is too large")
  else if (current_term hs =? 0) && negb (is_none (voted_for hs)) then
    Throws (invalid_argument "term-zero hard state cannot contain a vote")
  else if negb (recovered_log_ok cfg (current_term hs) 0 log) then
    Throws (invalid_argument "Recovered log is not a valid consecutive Raft log")
  else if N.of_nat (length log) <? rec_commit_index recovered then
    Throws (invalid_argument "Recovered commit index is beyond the log")
  else
    Returns (mkRaftNode cfg follower hs hs log (N.of_nat (length log)) (rec_commit_index recovered)
      (rec_commit_index recovered) (rec_commit_index recovered)
      (replay empty_kv (log_commands (take (N.to_nat (rec_commit_index recovered)) log)))
      None false 0 ∅ ∅ ∅ ∅ None [] 1 1 0 0 false).
