(* ===== verification/RaftSpec.v ===== *)
(** * RaftSpec: the abstract protocol one node takes part in

    [View] is what the safety argument sees of a [RaftNode]; [vstep] is an
    abstract node: one rule per protocol action, with the guards the protocol
    rests on and none of the code's queues, timers, retries or bounds.  The
    refinement theorem (in [RaftRefine]) shows that every call of
    [RaftNode::step] is a sequence of these actions, and the system-level
    safety theorems are proved against [vstep] alone. *)

From S2P Require Import Prelude Model StateMachine RaftTypes Raft.

Record View := mkView {
  v_id : NodeId;
  v_members : list NodeId;
  v_role : RaftRole;
  v_hs : HardState;
  v_log : list LogEntry;
  v_commit : LogIndex;
  v_votes : gset N;
  v_match : gmap N N;
  v_pending : option (PersistBatch * AfterSuccess);
}.

Definition view (s : RaftNode) : View :=
  mkView (node_id (config_ s)) (members (config_ s)) (role_ s) (hard_state_ s) (log_ s)
    (commit_index_ s) (votes_received_ s) (match_index <$> peers_ s)
    ((fun p => (ps_batch p, ps_after_success p)) <$> pending_storage_ s).

(** The protocol messages among the effects of a call. *)
Definition effect_send (e : RaftEffect) : option MessageEnvelope :=
  match e with SendEffect env => Some env | _ => None end.
Definition sends (es : list RaftEffect) : list MessageEnvelope := omap effect_send es.

Definition llen (log : list LogEntry) : N := N.of_nat (length log).

(** The term of the last entry, 0 for an empty log. *)
Definition last_term (log : list LogEntry) : Term := log_term_at log (llen log).

(** The freshness rule of Raft: the candidate's log, given by its last index and
    term, is at least as up to date as [log]. *)
Definition up_to_date (log : list LogEntry) (idx : LogIndex) (t : Term) : Prop :=
  last_term log < t \/ (t = last_term log /\ llen log <= idx).

(** A majority of the members. *)
Definition is_quorum (ms : list NodeId) (q : gset N) : Prop :=
  (forall x, x ∈ q -> x ∈ ms) /\ (length ms < 2 * size q)%nat.

(** The replicas a leader may count for [idx]: itself and the peers whose match
    index reaches it. *)
Definition match_set (v : View) (idx : LogIndex) : gset N :=
  {[ v_id v ]} ∪ dom (filter (fun p : N * N => idx <= p.2) (v_match v)).

(** The message a completed batch releases. *)
Definition released (id : NodeId) (t : Term) (k : AfterSuccess) : list MessageEnvelope :=
  match k with
  | after_vote_reply from grant _ =>
      [mkMessageEnvelope id from (MRequestVoteResponse (mkRequestVoteResponse t grant))]
  | after_append_reject from rpc ci ct =>
      [mkMessageEnvelope id from
         (MAppendEntriesResponse (mkAppendEntriesResponse t rpc false 0 ci ct))]
  | after_append_accept from rpc matched _ =>
      [mkMessageEnvelope id from
         (MAppendEntriesResponse (mkAppendEntriesResponse t rpc true matched 0 0))]
  | _ => []
  end.

(** Continuations that release no promise about votes or entries. *)
Definition harmless (k : AfterSuccess) : Prop :=
  match k with
  | after_step_down | after_vote_reply _ false _ | after_append_reject _ _ _ _ => True
  | _ => False
  end.

(** Messages that promise nothing: denials and rejections. *)
Definition denial (id : NodeId) (t : Term) (env : MessageEnvelope) : Prop :=
  env_from env = id /\
  match env_message env with
  | MRequestVoteResponse m => rvr_term m = t /\ rvr_vote_granted m = false
  | MAppendEntriesResponse m => aer_term m = t /\ aer_success m = false
  | _ => False
  end.

(** [splice log pos es]: entries [es] stored from index [pos + 1] on, keeping what
    the log already holds of them and dropping a conflicting suffix: the
    reference definition of the follower's log after an accepted append. *)
Fixpoint splice (log : list LogEntry) (pos : nat) (es : list LogEntry) : list LogEntry :=
  match es with
  | [] => log
  | e :: es' =>
      if bool_decide (log !! pos = Some e) then splice log (S pos) es'
      else take pos log ++ e :: es'
  end.

(** The batch persists the difference between two durable states. *)
Definition apply_batch (d : RecoveredState) (b : PersistBatch) : RecoveredState :=
  mkRecoveredState
    (match b_hard_state b with Some h => h | None => rec_hard_state d end)
    ((match b_truncate_from b with
      | Some i => take (N.to_nat (i - 1)) (rec_log d)
      | None => rec_log d
      end) ++ b_entries b)
    (match b_commit_index b with Some c => c | None => rec_commit_index d end).

(** The state a view would recover to once its pending batch is durable. *)
Definition target (v : View) : RecoveredState := mkRecoveredState (v_hs v) (v_log v) (v_commit v).

Section vstep.
Variable soup : MessageEnvelope -> Prop.

(** [vstep v ms v']: one protocol action, sending [ms].  Every action but
    [v_fail] requires that no batch is pending and leaves either no batch, or
    the batch whose completion makes the new state durable. *)
Inductive vstep : View -> list MessageEnvelope -> View -> Prop :=
  (* fail-stop: the node serves no more requests; only a restart revives it *)
  | v_fail v role hs log commit votes mtch pend :
      role = unavailable -> pend = None -> votes = ∅ -> mtch = ∅ ->
      vstep v [] (mkView (v_id v) (v_members v) role hs log commit votes mtch pend)
  (* a denial *)
  | v_deny v env :
      v_role v <> unavailable -> v_pending v = None ->
      denial (v_id v) (current_term (v_hs v)) env ->
      vstep v [env] v
  (* a follower or candidate starts an election *)
  | v_campaign v b :
      v_role v = follower \/ v_role v = candidate -> v_pending v = None ->
      b = hard_state_batch (mkHardState (current_term (v_hs v) + 1) (Some (v_id v))) ->
      vstep v []
        (mkView (v_id v) (v_members v) candidate
           (mkHardState (current_term (v_hs v) + 1) (Some (v_id v)))
           (v_log v) (v_commit v) {[ v_id v ]} ∅ (Some (b, after_begin_election)))
  (* a candidate whose self-vote is durable asks for votes *)
  | v_request_vote v to :
      v_role v = candidate -> v_pending v = None ->
      vstep v
        [mkMessageEnvelope (v_id v) to
           (MRequestVote (mkRequestVote (current_term (v_hs v)) (v_id v) (llen (v_log v))
              (last_term (v_log v))))] v
  (* a higher term is observed and made durable *)
  | v_observe v t k :
      v_role v <> unavailable -> v_pending v = None -> current_term (v_hs v) < t -> harmless k ->
      vstep v []
        (mkView (v_id v) (v_members v) follower (mkHardState t None) (v_log v) (v_commit v) ∅ ∅
           (Some (hard_state_batch (mkHardState t None), k)))
  (* a vote is granted in a term just observed *)
  | v_grant_higher v from m wl :
      v_role v <> unavailable -> v_pending v = None ->
      soup (mkMessageEnvelope from (v_id v) (MRequestVote m)) ->
      rv_candidate_id m = from -> from <> v_id v -> from ∈ v_members v ->
      current_term (v_hs v) < rv_term m ->
      up_to_date (v_log v) (rv_last_log_index m) (rv_last_log_term m) ->
      vstep v []
        (mkView (v_id v) (v_members v) follower (mkHardState (rv_term m) (Some from)) (v_log v)
           (v_commit v) ∅ ∅
           (Some (hard_state_batch (mkHardState (rv_term m) (Some from)),
                  after_vote_reply from true wl)))
  (* the vote of the current term is granted *)
  | v_grant v from m wl :
      v_role v <> unavailable -> v_pending v = None ->
      soup (mkMessageEnvelope from (v_id v) (MRequestVote m)) ->
      rv_candidate_id m = from -> from <> v_id v -> from ∈ v_members v ->
      rv_term m = current_term (v_hs v) -> voted_for (v_hs v) = None ->
      up_to_date (v_log v) (rv_last_log_index m) (rv_last_log_term m) ->
      vstep v []
        (mkView (v_id v) (v_members v) (v_role v) (mkHardState (rv_term m) (Some from)) (v_log v)
           (v_commit v) (v_votes v) (v_match v)
           (Some (hard_state_batch (mkHardState (rv_term m) (Some from)),
                  after_vote_reply from true wl)))
  (* a vote already given is repeated *)
  | v_regrant v from m :
      v_role v <> unavailable -> v_pending v = None ->
      soup (mkMessageEnvelope from (v_id v) (MRequestVote m)) ->
      rv_candidate_id m = from ->
      rv_term m = current_term (v_hs v) -> voted_for (v_hs v) = Some from ->
      up_to_date (v_log v) (rv_last_log_index m) (rv_last_log_term m) ->
      vstep v
        [mkMessageEnvelope (v_id v) from
           (MRequestVoteResponse (mkRequestVoteResponse (current_term (v_hs v)) true))] v
  (* a candidate records a vote *)
  | v_count_vote v from m :
      v_role v = candidate -> v_pending v = None ->
      soup (mkMessageEnvelope from (v_id v) (MRequestVoteResponse m)) ->
      rvr_vote_granted m = true -> rvr_term m = current_term (v_hs v) ->
      from ∈ v_members v ->
      vstep v []
        (mkView (v_id v) (v_members v) (v_role v) (v_hs v) (v_log v) (v_commit v)
           ({[ from ]} ∪ v_votes v) (v_match v) (v_pending v))
  (* a candidate with a majority leads and appends its no-op *)
  | v_lead v mtch no_op :
      v_role v = candidate -> v_pending v = None ->
      is_quorum (v_members v) (v_votes v) ->
      map_Forall (fun _ i => i = 0) mtch ->
      no_op = mkLogEntry (llen (v_log v) + 1) (current_term (v_hs v)) None ->
      vstep v []
        (mkView (v_id v) (v_members v) leader (v_hs v) (v_log v ++ [no_op]) (v_commit v) ∅ mtch
           (Some (mkPersistBatch None None [no_op] None, after_become_leader)))
  (* a candidate without room for its no-op gives up *)
  | v_resign v :
      v_role v = candidate -> v_pending v = None ->
      vstep v []
        (mkView (v_id v) (v_members v) follower (v_hs v) (v_log v) (v_commit v) ∅ ∅ None)
  (* a leader replicates a contiguous part of its log *)
  | v_replicate v to rpc prev n :
      v_role v = leader -> v_pending v = None -> prev <= llen (v_log v) ->
      vstep v
        [mkMessageEnvelope (v_id v) to
           (MAppendEntries (mkAppendEntries (current_term (v_hs v)) (v_id v) rpc prev
              (log_term_at (v_log v) prev)
              (take n (drop (N.to_nat prev) (v_log v))) (v_commit v)))] v
  (* a node of the leader's term stores the replicated entries *)
  | v_append v from m hs log commit votes matched b ms pend :
      v_role v <> unavailable -> v_pending v = None ->
      soup (mkMessageEnvelope from (v_id v) (MAppendEntries m)) ->
      ae_leader_id m = from -> from <> v_id v ->
      current_term (v_hs v) <= ae_term m ->
      hs = (if current_term (v_hs v) <? ae_term m then mkHardState (ae_term m) None else v_hs v) ->
      ae_prev_log_index m <= llen (v_log v) ->
      log_term_at (v_log v) (ae_prev_log_index m) = ae_prev_log_term m ->
      log = splice (v_log v) (N.to_nat (ae_prev_log_index m)) (ae_entries m) ->
      take (N.to_nat (v_commit v)) log = take (N.to_nat (v_commit v)) (v_log v) ->
      matched = ae_prev_log_index m + N.of_nat (length (ae_entries m)) ->
      commit = N.max (v_commit v) (N.min (ae_leader_commit m) matched) ->
      votes = ∅ \/ votes = v_votes v ->
      apply_batch (target v) b = mkRecoveredState hs log commit ->
      (if batch_empty b
       then pend = None /\
            ms = released (v_id v) (current_term hs) (after_append_accept from (ae_rpc_id m) matched false)
       else exists apply, ms = [] /\
            pend = Some (b, after_append_accept from (ae_rpc_id m) matched apply)) ->
      vstep v ms (mkView (v_id v) (v_members v) follower hs log commit votes ∅ pend)
  (* a node that hears from the leader of its term follows it, even when it
     rejects the entries *)
  | v_follow v votes :
      v_role v <> unavailable -> v_pending v = None -> votes = ∅ \/ votes = v_votes v ->
      vstep v []
        (mkView (v_id v) (v_members v) follower (v_hs v) (v_log v) (v_commit v) votes ∅ None)
  (* a leader credits an acknowledgement *)
  | v_acknowledge v from m old i :
      v_role v = leader -> v_pending v = None ->
      soup (mkMessageEnvelope from (v_id v) (MAppendEntriesResponse m)) ->
      aer_success m = true -> aer_term m = current_term (v_hs v) ->
      v_match v !! from = Some old -> old <= i -> i <= N.max old (aer_match_index m) ->
      vstep v []
        (mkView (v_id v) (v_members v) (v_role v) (v_hs v) (v_log v) (v_commit v) (v_votes v)
           (<[from := i]> (v_match v)) (v_pending v))
  (* a leader commits an entry of its own term stored by a majority *)
  | v_commit_entry v i :
      v_role v = leader -> v_pending v = None ->
      v_commit v < i -> i <= llen (v_log v) ->
      log_term_at (v_log v) i = current_term (v_hs v) ->
      is_quorum (v_members v) (match_set v i) ->
      vstep v []
        (mkView (v_id v) (v_members v) (v_role v) (v_hs v) (v_log v) i (v_votes v) (v_match v)
           (Some (mkPersistBatch None None [] (Some i), after_advance_commit)))
  (* a leader appends a client command *)
  | v_propose v c entry :
      v_role v = leader -> v_pending v = None ->
      entry = mkLogEntry (llen (v_log v) + 1) (current_term (v_hs v)) (Some c) ->
      vstep v []
        (mkView (v_id v) (v_members v) (v_role v) (v_hs v) (v_log v ++ [entry]) (v_commit v)
           (v_votes v) (v_match v)
           (Some (mkPersistBatch None None [entry] None, after_client_request))).

(** A sequence of actions and the messages they send, in order. *)
Inductive vsteps : View -> list MessageEnvelope -> View -> Prop :=
  | vsteps_refl v : vsteps v [] v
  | vsteps_step v1 ms1 v2 ms2 v3 :
      vstep v1 ms1 v2 -> vsteps v2 ms2 v3 -> vsteps v1 (ms1 ++ ms2) v3.

End vstep.

(** Completion of the pending batch: the state it stores is durable and the
    message that waited for it is released. *)
Inductive vcomplete : View -> list MessageEnvelope -> View -> Prop :=
  | v_complete v b k :
      v_role v <> unavailable -> v_pending v = Some (b, k) ->
      vcomplete v (released (v_id v) (current_term (v_hs v)) k)
        (mkView (v_id v) (v_members v) (v_role v) (v_hs v) (v_log v) (v_commit v) (v_votes v)
           (v_match v) None).

Section vsteps_lemmas.
Context {soup : MessageEnvelope -> Prop}.

Lemma vsteps_one v ms v' : vstep soup v ms v' -> vsteps soup v ms v'.
Proof. intros H. rewrite <- (app_nil_r ms). econstructor; [done|constructor]. Qed.

Lemma vsteps_trans v1 ms1 v2 ms2 v3 :
  vsteps soup v1 ms1 v2 -> vsteps soup v2 ms2 v3 -> vsteps soup v1 (ms1 ++ ms2) v3.
Proof.
  induction 1 as [|v ms v' ms' v'' Hs _ IH]; intros H2; [done|].
  rewrite <- app_assoc. econstructor; eauto.
Qed.

Lemma vstep_soup_mono (soup' : MessageEnvelope -> Prop) v ms v' :
  (forall e, soup e -> soup' e) -> vstep soup v ms v' -> vstep soup' v ms v'.
Proof.
  intros Hs H. destruct H;
    [ eapply v_fail | eapply v_deny | eapply v_campaign | eapply v_request_vote | eapply v_observe
    | eapply v_grant_higher | eapply v_grant | eapply v_regrant | eapply v_count_vote
    | eapply v_lead | eapply v_resign | eapply v_replicate | eapply v_append | eapply v_follow
    | eapply v_acknowledge | eapply v_commit_entry | eapply v_propose ]; eauto.
Qed.

Lemma vsteps_soup_mono (soup' : MessageEnvelope -> Prop) v ms v' :
  (forall e, soup e -> soup' e) -> vsteps soup v ms v' -> vsteps soup' v ms v'.
Proof. intros Hs. induction 1; econstructor; eauto using vstep_soup_mono. Qed.

End vsteps_lemmas.

Create HintDb vstep.
#[export] Hint Constructors vsteps : vstep.
#[export] Hint Resolve vsteps_one : vstep.
