(* ===== verification/RaftRefine.v ===== *)
(** * RaftRefine: [RaftNode::step] refines the abstract protocol

    The well-formedness invariant of a node, its preservation by every handler,
    and the proof that every dispatched event is a sequence of [vstep] actions
    of the node's [View]. *)

From S2P Require Import Prelude Model StateMachine RaftTypes Raft RaftSpec.

(** ** Hard and soft state

    Leader hints, timer generations, waiting clients and the readiness marker
    do not take part in the protocol; [hard s] is [s] with them erased. *)
Definition hard (s : RaftNode) : RaftNode :=
  set_leader_hint None (set_leader_ready false (set_readiness_index 0 (set_pending_clients ∅
    (set_pending_sessions ∅ (set_election_generation 0 (set_heartbeat_generation 0
      (set_started false s))))))).

(** Computations that change only soft state and send no protocol message. *)
Definition quiet (m : M unit) : Prop :=
  forall s, wp m (fun _ s' es => hard s' = hard s /\ sends es = []) s.

Create HintDb quiet.

Lemma sends_app es1 es2 : sends (es1 ++ es2) = sends es1 ++ sends es2.
Proof. apply omap_app. Qed.

Section quiet_lemmas.

Lemma quiet_bind {A} (m : M A) (f : A -> M unit) :
  (forall s, wp m (fun _ s' es => hard s' = hard s /\ sends es = []) s) ->
  (forall a, quiet (f a)) -> quiet (m ≫= f).
Proof.
  intros Hm Hf s. apply wp_bind. eapply wp_mono; [apply Hm|]. intros a s' es [H1 H2].
  eapply wp_mono; [apply Hf|]. simpl. intros _ s'' es' [H3 H4].
  rewrite sends_app, H2, H4. split; [congruence|done].
Qed.

Lemma quiet_this (f : RaftNode -> M unit) : (forall s0, quiet (f s0)) -> quiet (this ≫= f).
Proof. intros Hf. apply quiet_bind; [|done]. by intros s. Qed.

Lemma quiet_skip : quiet skip.
Proof. by intros s. Qed.

Lemma quiet_modify f : (forall s, hard (f s) = hard s) -> quiet (modify f).
Proof. intros Hf s. split; [apply Hf|done]. Qed.

Lemma quiet_emit e : effect_send e = None -> quiet (emit e).
Proof. intros He s. split; [done|]. unfold sends. simpl. by rewrite He. Qed.

Lemma quiet_when b m : quiet m -> quiet (when b m).
Proof. destruct b; [done|]. intros _. apply quiet_skip. Qed.

Lemma quiet_for_each {A} (l : list A) f : (forall x, quiet (f x)) -> quiet (for_each l f).
Proof.
  intros Hf. induction l as [|x l IH]; simpl; [apply quiet_skip|].
  apply quiet_bind; [apply Hf|done].
Qed.

End quiet_lemmas.

#[export] Hint Resolve quiet_bind quiet_this quiet_skip quiet_emit quiet_when quiet_for_each : quiet.
#[export] Hint Extern 2 (quiet (modify _)) => (apply quiet_modify; done) : quiet.
#[export] Hint Extern 2 (effect_send _ = None) => reflexivity : quiet.

(** Unfolds a computation that is quiet by construction. *)
Ltac solve_quiet :=
  repeat first
    [ apply quiet_skip | apply quiet_this; intros ? | apply quiet_emit; reflexivity
    | apply quiet_modify; reflexivity | apply quiet_for_each; intros ? | apply quiet_when
    | assumption | solve [auto with quiet nocore]
    | apply quiet_bind; [|intros ?]
    | case_match ].

Lemma quiet_trace k d i : quiet (trace k d i).
Proof. unfold trace. solve_quiet. Qed.
#[export] Hint Resolve quiet_trace : quiet.

Lemma quiet_emit_reply t st v i : quiet (emit_reply t st v i).
Proof. unfold emit_reply. solve_quiet. Qed.
#[export] Hint Resolve quiet_emit_reply : quiet.

Lemma quiet_schedule_election : quiet schedule_election.
Proof. unfold schedule_election. solve_quiet. Qed.
Lemma quiet_schedule_heartbeat : quiet schedule_heartbeat.
Proof. unfold schedule_heartbeat. solve_quiet. Qed.
Lemma quiet_reply_storage_error p : quiet (reply_storage_error p).
Proof. unfold reply_storage_error. solve_quiet. Qed.
Lemma quiet_reply_deferred_error ev : quiet (reply_deferred_error ev).
Proof. unfold reply_deferred_error. solve_quiet. Qed.
Lemma quiet_answer_waiters r : quiet (answer_waiters r).
Proof. unfold answer_waiters. solve_quiet. Qed.
Lemma quiet_remove_pending_from i : quiet (remove_pending_from i).
Proof. unfold remove_pending_from, remove_pending. solve_quiet. Qed.
#[export] Hint Resolve quiet_schedule_election quiet_schedule_heartbeat quiet_reply_storage_error
  quiet_reply_deferred_error quiet_answer_waiters quiet_remove_pending_from : quiet.

(** ** Symbolic execution

    [put_soft p s] is [s] with the soft fields [p]; a quiet computation moves
    [s] to some [put_soft p s], on which every hard field still computes. *)
Record Soft := mkSoft {
  so_leader_hint : option NodeId;
  so_leader_ready : bool;
  so_readiness_index : LogIndex;
  so_pending_clients : gmap N PendingClientEntry;
  so_pending_sessions : gmap SessionId N;
  so_election_generation : N;
  so_heartbeat_generation : N;
  so_started : bool;
}.

Definition put_soft (p : Soft) (s : RaftNode) : RaftNode :=
  mkRaftNode (config_ s) (role_ s) (hard_state_ s) (durable_hard_state_ s) (log_ s)
    (durable_last_log_index_ s) (commit_index_ s) (durable_commit_index_ s) (last_applied_ s)
    (state_machine_ s) (so_leader_hint p) (so_leader_ready p) (so_readiness_index p)
    (votes_received_ s) (peers_ s) (so_pending_clients p) (so_pending_sessions p)
    (pending_storage_ s) (deferred_events_ s) (next_storage_op_id_ s) (next_rpc_id_ s)
    (so_election_generation p) (so_heartbeat_generation p) (so_started p).

Lemma hard_eq_soft s s' : hard s' = hard s -> exists p, s' = put_soft p s.
Proof.
  destruct s as [? ? ? ? ? ? ? ? ? ? h r i ? ? pc ps ? ? ? ? eg hg st].
  destruct s' as [? ? ? ? ? ? ? ? ? ? h' r' i' ? ? pc' ps' ? ? ? ? eg' hg' st'].
  intros H. injection H as H. subst.
  exists (mkSoft h' r' i' pc' ps' eg' hg' st'). reflexivity.
Qed.

(** [wps]: [wp] with a postcondition on the protocol messages only. *)
Definition wps {A} (m : M A) (Q : A -> RaftNode -> list MessageEnvelope -> Prop) (s : RaftNode)
  : Prop := wp m (fun a s' es => Q a s' (sends es)) s.

Lemma wps_bind {A B} (m : M A) (f : A -> M B)
    (Q : B -> RaftNode -> list MessageEnvelope -> Prop) s :
  wps m (fun a s' ms => wps (f a) (fun b s'' ms' => Q b s'' (ms ++ ms')) s') s ->
  wps (m ≫= f) Q s.
Proof.
  intros H. apply wp_bind. eapply wp_mono; [exact H|]. simpl. intros a s' es H'.
  eapply wp_mono; [exact H'|]. simpl. intros b s'' es'. by rewrite sends_app.
Qed.

Lemma wps_mono {A} (m : M A) (Q1 Q2 : A -> RaftNode -> list MessageEnvelope -> Prop) s :
  wps m Q1 s -> (forall a s' ms, Q1 a s' ms -> Q2 a s' ms) -> wps m Q2 s.
Proof. intros H Hm. eapply wp_mono; [exact H|]. simpl. eauto. Qed.

Section wps_rules.
Context {B : Type}.
Implicit Types (Q : B -> RaftNode -> list MessageEnvelope -> Prop) (s : RaftNode).

Lemma wps_this (f : RaftNode -> M B) Q s : wps (f s) Q s -> wps (this ≫= f) Q s.
Proof. intros H. apply wps_bind, wp_this. exact H. Qed.

Lemma wps_modify g (f : unit -> M B) Q s : wps (f tt) Q (g s) -> wps (modify g ≫= f) Q s.
Proof. intros H. apply wps_bind, wp_modify. exact H. Qed.

Lemma wps_skip (f : unit -> M B) Q s : wps (f tt) Q s -> wps (skip ≫= f) Q s.
Proof. intros H. apply wps_bind, wp_skip. exact H. Qed.

Lemma wps_quiet (m : M unit) (f : unit -> M B) Q s :
  quiet m -> (forall p, wps (f tt) Q (put_soft p s)) -> wps (m ≫= f) Q s.
Proof.
  intros Hq H. apply wps_bind. eapply wp_mono; [apply Hq|]. intros [] s' es [Hh ->].
  destruct (hard_eq_soft _ _ Hh) as [p ->]. apply H.
Qed.

Lemma wps_when_true (b : bool) m (f : unit -> M B) Q s :
  b = true -> wps (m ≫= f) Q s -> wps (when b m ≫= f) Q s.
Proof. by intros ->. Qed.

Lemma wps_when_false (b : bool) m (f : unit -> M B) Q s :
  b = false -> wps (f tt) Q s -> wps (when b m ≫= f) Q s.
Proof. intros -> H. by apply wps_skip. Qed.

End wps_rules.

Lemma wps_ret {A} (a : A) (Q : A -> RaftNode -> list MessageEnvelope -> Prop) s :
  Q a s [] -> wps (mret a) Q s.
Proof. done. Qed.

Lemma wps_end (m : M unit) (Q : unit -> RaftNode -> list MessageEnvelope -> Prop) s :
  quiet m -> (forall p, Q tt (put_soft p s) []) -> wps m Q s.
Proof.
  intros Hq H. eapply wp_mono; [apply Hq|]. intros [] s' es [Hh ->].
  destruct (hard_eq_soft _ _ Hh) as [p ->]. apply H.
Qed.

Lemma wps_modify_end g (Q : unit -> RaftNode -> list MessageEnvelope -> Prop) s :
  Q tt (g s) [] -> wps (modify g) Q s.
Proof. done. Qed.

Lemma wps_send to m (Q : unit -> RaftNode -> list MessageEnvelope -> Prop) s :
  (forall p, Q tt (put_soft p s) [mkMessageEnvelope (node_id (config_ s)) to m]) ->
  wps (send_message to m) Q s.
Proof.
  intros H. apply wps_quiet; [apply quiet_trace|]. intros p. apply wps_this, H.
Qed.

(** One step of symbolic execution on the head of a sequence. *)
Ltac wexec1 :=
  lazymatch goal with
  | |- wps (this ≫= _) _ _ => apply wps_this
  | |- wps (modify _ ≫= _) _ _ => apply wps_modify
  | |- wps (skip ≫= _) _ _ => apply wps_skip
  | |- wps (when true _ ≫= _) _ _ => apply wps_when_true; [reflexivity|]
  | |- wps (when false _ ≫= _) _ _ => apply wps_when_false; [reflexivity|]
  | |- wps (modify _) _ _ => apply wps_modify_end
  | |- wps skip _ _ => apply wps_ret
  | |- wps (mret _) _ _ => apply wps_ret
  | |- wps (send_message _ _) _ _ => apply wps_send; intros ?
  | |- wps ((_ ≫= _) ≫= _) _ _ => apply wps_bind
  | |- wps (_ ≫= _) _ _ => apply wps_quiet; [solve [auto with quiet nocore]|intros ?]
  | |- wps _ _ _ => apply wps_end; [solve [auto with quiet nocore]|intros ?]
  end; cbv beta.
Ltac wexec := repeat wexec1.

(** ** The invariant of a node *)

Record cfg_ok (cfg : RaftConfig) : Prop := {
  cfg_nodup : NoDup (members cfg);
  cfg_self : node_id cfg ∈ members cfg;
  cfg_count : length (members cfg) = 3%nat \/ length (members cfg) = 5%nat;
  cfg_append_bytes : kAppendRpcOverhead < max_append_bytes_per_rpc cfg <= u64_max;
  cfg_append_entries : 1 <= max_append_entries_per_rpc cfg;
}.

(** Entries are indexed consecutively from one. *)
Definition log_wf (log : list LogEntry) : Prop :=
  forall i e, log !! i = Some e -> index e = N.of_nat i + 1.

(** The durable mirrors once the pending batch, if any, completes. *)
Definition settled_last (s : RaftNode) : LogIndex :=
  match pending_storage_ s with
  | Some p => if negb (is_none (b_truncate_from (ps_batch p))) ||
                 negb (is_nil (b_entries (ps_batch p)))
              then llen (log_ s) else durable_last_log_index_ s
  | None => durable_last_log_index_ s
  end.
Definition settled_hs (s : RaftNode) : HardState :=
  match pending_storage_ s with
  | Some p => default (durable_hard_state_ s) (b_hard_state (ps_batch p))
  | None => durable_hard_state_ s
  end.
Definition settled_commit (s : RaftNode) : LogIndex :=
  match pending_storage_ s with
  | Some p => default (durable_commit_index_ s) (b_commit_index (ps_batch p))
  | None => durable_commit_index_ s
  end.

(** What holds of a node that has not failed. *)
Record live_ok (s : RaftNode) : Prop := {
  live_dlast : settled_last s = llen (log_ s);
  live_dhs : settled_hs s = hard_state_ s;
  live_dcommit : settled_commit s = commit_index_ s;
  live_vote : role_ s = candidate \/ role_ s = leader ->
              voted_for (hard_state_ s) = Some (node_id (config_ s));
  live_term : role_ s = candidate \/ role_ s = leader -> 1 <= current_term (hard_state_ s);
  live_votes : forall x, x ∈ votes_received_ s -> x ∈ members (config_ s);
  live_peers : forall x, is_Some (peers_ s !! x) ->
               role_ s = leader /\ x ∈ members (config_ s) /\ x <> node_id (config_ s);
}.

(** What holds of every node. *)
Record base_ok (s : RaftNode) : Prop := {
  ok_cfg : cfg_ok (config_ s);
  ok_log : log_wf (log_ s);
  ok_len : llen (log_ s) <= u64_max;
  ok_term : current_term (hard_state_ s) <= u64_max;
  ok_terms : Forall (fun e => 1 <= term e <= current_term (hard_state_ s)) (log_ s);
  ok_commit : commit_index_ s <= llen (log_ s);
  ok_applied : last_applied_ s <= commit_index_ s;
  ok_machine : state_machine_ s =
    replay empty_kv (log_commands (take (N.to_nat (last_applied_ s)) (log_ s)));
}.

Record node_ok (s : RaftNode) : Prop := {
  ok_base : base_ok s;
  ok_failed : role_ s = unavailable -> pending_storage_ s = None /\ deferred_events_ s = [];
  ok_live : role_ s <> unavailable -> live_ok s;
}.

Lemma live_ok_soft p s : live_ok s -> live_ok (put_soft p s).
Proof. intros []. by constructor. Qed.

Lemma base_ok_soft p s : base_ok s -> base_ok (put_soft p s).
Proof. intros []. by constructor. Qed.

Lemma node_ok_soft p s : node_ok s -> node_ok (put_soft p s).
Proof. intros []. constructor; eauto using live_ok_soft, base_ok_soft. Qed.

Lemma view_soft p s : view (put_soft p s) = view s.
Proof. reflexivity. Qed.

(** ** Refinement of one computation

    [refines soup s]: from [s], the computation keeps the invariant, leaves the
    configuration, is a sequence of protocol actions that read messages of
    [soup], and does not add deferred events. *)
Definition refines (soup : MessageEnvelope -> Prop) (s : RaftNode)
  : unit -> RaftNode -> list MessageEnvelope -> Prop :=
  fun _ s' ms =>
    node_ok s' /\ config_ s' = config_ s /\ vsteps soup (view s) ms (view s') /\
    (deferred_events_ s' = deferred_events_ s \/ deferred_events_ s' = []).

(** The node [fail_storage] leaves, up to soft state. *)
Definition failed (s : RaftNode) : RaftNode :=
  set_role unavailable (set_peers ∅ (set_votes_received ∅ (set_pending_storage None
    (set_deferred_events [] s)))).

(** The node [begin_persist] leaves, up to soft state. *)
Definition pend (op : StorageOpId) (n : N) (b : PersistBatch) (k : AfterSuccess) (s : RaftNode)
  : RaftNode :=
  set_pending_storage (Some (mkPendingStorage op b k)) (set_next_storage_op_id n s).

Definition soft_of (s : RaftNode) : Soft :=
  mkSoft (leader_hint_ s) (leader_ready_ s) (readiness_index_ s) (pending_clients_ s)
    (pending_sessions_ s) (election_generation_ s) (heartbeat_generation_ s) (started_ s).

Section refines_lemmas.
Context {soup : MessageEnvelope -> Prop}.
Implicit Types (s : RaftNode).

Lemma refines_refl s p : node_ok s -> refines soup s tt (put_soft p s) [].
Proof. intros H. split_and!; [by apply node_ok_soft|done|constructor|by left]. Qed.

Lemma refines_self s : node_ok s -> refines soup s tt s [].
Proof. intros H. split_and!; [done|done|constructor|by left]. Qed.

Lemma refines_seq (m1 : M unit) (m2 : unit -> M unit) s0 s :
  wps m1 (refines soup s) s -> refines soup s0 tt s [] ->
  (forall s', node_ok s' -> config_ s' = config_ s0 -> wps (m2 tt) (refines soup s') s') ->
  wps (m1 ≫= m2) (refines soup s0) s.
Proof.
  intros H1 (Hok0 & Hc0 & Hv0 & Hd0) H2. apply wps_bind. eapply wps_mono; [exact H1|].
  intros [] s' ms1 (Hok1 & Hc1 & Hv1 & Hd1). eapply wps_mono; [apply H2; [done|congruence]|].
  intros [] s'' ms2 (Hok2 & Hc2 & Hv2 & Hd2). split_and!; [done|congruence| |].
  - eapply (vsteps_trans _ [] _ _ _ Hv0). by eapply vsteps_trans.
  - destruct Hd2 as [->| ->]; [|by right]. destruct Hd1 as [->| ->]; [done|by right].
Qed.

Lemma refines_trans (m : M unit) s0 s1 s :
  refines soup s0 tt s1 [] -> wps m (refines soup s1) s -> wps m (refines soup s0) s.
Proof.
  intros (Hok0 & Hc0 & Hv0 & Hd0) H. eapply wps_mono; [exact H|].
  intros [] s' ms (Hok & Hc & Hv & Hd). split_and!; [done|congruence| |].
  - by apply (vsteps_trans _ [] _ _ _ Hv0).
  - destruct Hd as [->| ->]; [done|by right].
Qed.

Lemma refines_quiet (m : M unit) s : quiet m -> node_ok s -> wps m (refines soup s) s.
Proof. intros Hq Hok. apply wps_end; [done|]. intros p. by apply refines_refl. Qed.

(** Soft changes before a computation do not matter to its refinement. *)
Lemma refines_from_soft (m : M unit) s p :
  wps m (refines soup (put_soft p s)) (put_soft p s) -> wps m (refines soup s) (put_soft p s).
Proof. done. Qed.

Lemma wps_fail d (Q : unit -> RaftNode -> list MessageEnvelope -> Prop) s :
  (forall p, Q tt (put_soft p (failed s)) []) -> wps (fail_storage d) Q s.
Proof.
  intros H. unfold fail_storage. wexec.
  match goal with |- Q tt ?st [] => apply (H (soft_of st)) end.
Qed.

Lemma failed_ok p s : base_ok s -> node_ok (put_soft p (failed s)).
Proof. intros Hb. constructor; [|done..]. apply base_ok_soft. destruct Hb. by constructor. Qed.

Lemma refines_fail d s0 s :
  base_ok s -> config_ s = config_ s0 -> wps (fail_storage d) (refines soup s0) s.
Proof.
  intros Hb Hc. apply wps_fail. intros p. split_and!; [by apply failed_ok|done| |by right].
  apply vsteps_one. unfold view. simpl. rewrite Hc. by apply (v_fail _ (view s0)).
Qed.

(** [begin_persist] either leaves the batch pending or fails the node. *)
Lemma refines_persist b k run s0 s :
  batch_empty b = false -> pending_storage_ s = None -> role_ s <> unavailable ->
  base_ok s -> config_ s = config_ s0 -> deferred_events_ s = deferred_events_ s0 ->
  (forall op n, live_ok (pend op n b k s)) ->
  (forall op n, vsteps soup (view s0) [] (view (pend op n b k s))) ->
  wps (begin_persist b k run) (refines soup s0) s.
Proof.
  intros Hb Hp Hr Hok Hc Hd Hl Hv. unfold begin_persist. rewrite Hb. wexec. rewrite Hp.
  case_match; [by apply refines_fail|]. wexec.
  split_and!; simpl.
  - constructor; [repeat apply base_ok_soft; destruct Hok; by constructor|done|].
    intros _. repeat apply live_ok_soft. apply Hl.
  - done.
  - apply Hv.
  - left. done.
Qed.

End refines_lemmas.
