(* ===== verification/RaftReplicate.v ===== *)
(** * RaftReplicate: refinement of replication, commit and apply *)

From S2P Require Import Prelude Model StateMachine RaftTypes Raft RaftSpec RaftRefine.

Section log_lemmas.
Implicit Types (log : list LogEntry).

Lemma collect_entries_prefix cfg b es : exists n, collect_entries cfg b es = take n es.
Proof.
  revert b. induction es as [|e es IH]; intros b; simpl; [by exists O|].
  case_match; [by exists O|]. destruct (IH (add64 b (entry_bytes e))) as [n ->]. by exists (S n).
Qed.

Lemma clamp_prev next dlast :
  dlast <= u64_max -> sub64 (clamp next 1 (add64 dlast 1)) 1 <= dlast.
Proof.
  intros Hd. destruct (decide (dlast = u64_max)) as [->|Hne]; [apply wrap64_range|].
  rewrite add64_small by lia. unfold clamp.
  repeat case_match; repeat match goal with
    | H : (_ <? _) = true |- _ => apply N.ltb_lt in H
    | H : (_ <? _) = false |- _ => apply N.ltb_ge in H end; rewrite sub64_small; lia.
Qed.

Lemma log_at_Some log i e :
  log_at log i = Some e <-> 1 <= i /\ log !! N.to_nat (i - 1) = Some e.
Proof.
  unfold log_at. destruct (N.eqb_spec i 0) as [->|Hi]; simpl.
  { split; [done|]. intros [Hi _]. lia. }
  destruct (N.ltb_spec (N.of_nat (length log)) i) as [Hl|Hl].
  - split; [done|]. intros [_ Hlt%lookup_lt_Some]. lia.
  - split; [|by intros [_ ?]]. intros ?. split; [lia|done].
Qed.

Lemma log_at_lookup log i : 1 <= i -> log_at log i = log !! N.to_nat (i - 1).
Proof.
  intros Hi. destruct (log !! N.to_nat (i - 1)) eqn:E.
  - by apply log_at_Some.
  - destruct (log_at log i) eqn:E'; [|done]. apply log_at_Some in E' as [_ E']. congruence.
Qed.

Lemma log_at_is_Some log i : 1 <= i <= llen log -> is_Some (log_at log i).
Proof.
  intros [H1 H2]. rewrite log_at_lookup by done. apply lookup_lt_is_Some_2.
  unfold llen in H2. lia.
Qed.

End log_lemmas.

Section replicate.
Context {soup : MessageEnvelope -> Prop}.
Implicit Types (s : RaftNode).

Lemma live_dlast_idle s :
  node_ok s -> role_ s <> unavailable -> pending_storage_ s = None ->
  durable_last_log_index_ s = llen (log_ s).
Proof. intros Hok Hr Hp. pose proof (live_dlast _ (ok_live _ Hok Hr)) as H.
  unfold settled_last in H. by rewrite Hp in H. Qed.

Lemma match_insert_same (m : gmap N PeerProgress) peer pr pr' :
  m !! peer = Some pr -> match_index pr' = match_index pr ->
  match_index <$> <[peer := pr']> m = match_index <$> m.
Proof.
  intros Hl He. rewrite fmap_insert, He. apply insert_id. by rewrite lookup_fmap, Hl.
Qed.

(** Changing a peer's progress and the RPC counter keeps the invariant. *)
Lemma set_peers_ok s peer pr pr' n :
  node_ok s -> peers_ s !! peer = Some pr ->
  node_ok (set_peers (<[peer := pr']> (peers_ s)) (set_next_rpc_id n s)).
Proof.
  intros [Hb Hf Hl] Hpeer. constructor; [destruct Hb; by constructor|done|].
  intros Hr. destruct (Hl Hr). constructor; try done.
  simpl. intros x Hx. apply live_peers. destruct (decide (x = peer)) as [->|]; [by eexists|].
  by rewrite lookup_insert_ne in Hx.
Qed.

Lemma send_append_refines peer s : node_ok s -> wps (send_append peer) (refines soup s) s.
Proof.
  intros Hok. unfold send_append. wexec.
  destruct (bool_decide_reflect (role_ s = leader)) as [Hr|]; simpl;
    [|apply refines_quiet; [apply quiet_skip|done]].
  destruct (pending_storage_ s) eqn:Hp; simpl; [apply refines_quiet; [apply quiet_skip|done]|].
  destruct (peers_ s !! peer) as [pr|] eqn:Hpeer;
    [|apply refines_quiet; [apply quiet_skip|done]].
  destruct (inflight pr) eqn:Hin; simpl; [apply refines_quiet; [apply quiet_skip|done]|].
  wexec. case_match.
  { apply refines_fail; [|done]. destruct (ok_base _ Hok). by constructor. }
  wexec. pose proof (live_dlast_idle s Hok ltac:(congruence) Hp) as Hdl.
  set (next := clamp _ _ _). set (prev := sub64 next 1).
  assert (Hprev : prev <= llen (log_ s)).
  { subst prev next. rewrite Hdl. apply clamp_prev, (ok_len _ (ok_base _ Hok)). }
  destruct (collect_entries_prefix (config_ s) kAppendRpcOverhead
    (take (N.to_nat (N.min (sub64 (durable_last_log_index_ s) prev)
      (max_append_entries_per_rpc (config_ s)))) (drop (N.to_nat prev) (log_ s)))) as [n Hn].
  split_and!; [by apply node_ok_soft, (set_peers_ok s peer pr)|done| |by left].
  rewrite view_soft. apply vsteps_one. unfold view at 2. simpl.
  rewrite (match_insert_same _ _ _ _ Hpeer) by done. rewrite Hn, take_take.
  apply (v_replicate soup (view s)); [done|by simpl; rewrite Hp|done].
Qed.

Lemma for_each_refines {A} (l : list A) f s0 s :
  (forall x s, node_ok s -> config_ s = config_ s0 -> wps (f x) (refines soup s) s) ->
  node_ok s -> config_ s = config_ s0 -> wps (for_each l f) (refines soup s) s.
Proof.
  intros Hf. revert s. induction l as [|x l IH]; intros s Hok Hc; simpl.
  - apply refines_quiet; [apply quiet_skip|done].
  - eapply refines_seq; [by apply Hf| |].
    + split_and!; [done..|constructor|by left].
    + intros s' Hok' Hc'. apply IH; [done|congruence].
Qed.

Lemma send_all_appends_refines s : node_ok s -> wps send_all_appends (refines soup s) s.
Proof.
  intros Hok. unfold send_all_appends. wexec. case_match.
  - apply refines_quiet; [apply quiet_skip|done].
  - apply (for_each_refines _ _ s); [|done..]. intros x s' Hok' _. by apply send_append_refines.
Qed.

(** ** Applying committed entries *)

Lemma log_commands_snoc log n e :
  log !! n = Some e ->
  log_commands (take (S n) log) = log_commands (take n log) ++ option_list (command e).
Proof.
  intros He. rewrite (take_S_r _ _ _ He). unfold log_commands. rewrite omap_app. simpl.
  by destruct (command e).
Qed.

(** One applied entry: [last_applied_] and the machine advance together. *)
Lemma apply_one_ok s e :
  node_ok s -> last_applied_ s < commit_index_ s ->
  log_at (log_ s) (last_applied_ s + 1) = Some e ->
  node_ok (set_state_machine
    (match command e with Some c => kv_apply (state_machine_ s) c
     | None => (default_result, state_machine_ s) end).2
    (set_last_applied (last_applied_ s + 1) s)).
Proof.
  intros [Hb Hf Hl] Hlt He. constructor; [|done|].
  - destruct Hb. constructor; simpl; try done; [lia|].
    apply log_at_Some in He as [_ He]. replace (N.to_nat (last_applied_ s + 1 - 1))
      with (N.to_nat (last_applied_ s)) in He by lia.
    replace (N.to_nat (last_applied_ s + 1)) with (S (N.to_nat (last_applied_ s))) by lia.
    rewrite (log_commands_snoc _ _ _ He), replay_app, <- ok_machine.
    by destruct (command e).
  - intros Hr. destruct (Hl Hr). by constructor.
Qed.

(** What [apply_committed] leaves unchanged. *)
Definition applied_from (s s' : RaftNode) : Prop :=
  exists n m p, s' = put_soft p (set_state_machine m (set_last_applied n s)).

Lemma apply_loop_refines n s :
  node_ok s -> (N.to_nat (commit_index_ s - last_applied_ s) <= n)%nat ->
  wps (apply_loop n) (fun u s' ms => refines soup s u s' ms /\ applied_from s s' /\
                                     last_applied_ s' = commit_index_ s' /\ ms = []) s.
Proof.
  revert s. induction n as [|n IH]; intros s Hok Hn; simpl.
  - apply wps_end; [apply quiet_skip|]. intros p. pose proof (ok_applied _ (ok_base _ Hok)).
    split_and!; [by apply refines_refl| |simpl; lia|done].
    exists (last_applied_ s), (state_machine_ s), p. by destruct s.
  - wexec. destruct (N.ltb_spec (last_applied_ s) (commit_index_ s)) as [Hlt|Hge].
    2: { apply wps_end; [apply quiet_skip|]. intros p.
      pose proof (ok_applied _ (ok_base _ Hok)).
      split_and!; [by apply refines_refl| |simpl; lia|done].
      exists (last_applied_ s), (state_machine_ s), p. by destruct s. }
    wexec. simpl. unfold entry_at. simpl.
    pose proof (ok_commit _ (ok_base _ Hok)). pose proof (ok_len _ (ok_base _ Hok)).
    rewrite add64_small by lia.
    destruct (log_at_is_Some (log_ s) (last_applied_ s + 1)) as [e He]; [lia|].
    pose proof (apply_one_ok s e Hok Hlt He) as Hok'. rewrite He.
    destruct (match command e with Some c => _ | None => _ end) as [r sm] eqn:Er.
    simpl in Hok'. wexec. eapply wps_mono.
    + apply IH; [do 2 apply node_ok_soft; exact Hok'|simpl; lia].
    + simpl. intros [] s' ms ((? & ? & Hv & Hd) & (n1 & m1 & p1 & ->) & Hla & ->).
      split_and!; [split_and!; done| |done|done].
      exists n1, m1, p1. done.
Qed.

Lemma apply_committed_refines s :
  node_ok s ->
  wps apply_committed (fun u s' ms => refines soup s u s' ms /\ applied_from s s' /\
                                      last_applied_ s' = commit_index_ s' /\ ms = []) s.
Proof. intros Hok. unfold apply_committed. wexec. by apply apply_loop_refines. Qed.

(** ** Advancing the commit index *)

Lemma replicas_le_match_set s i :
  live_ok s -> (N.to_nat (replicas_at s i) <= size (match_set (view s) i))%nat.
Proof.
  intros Hl. unfold replicas_at.
  set (l := filter (fun p => i <= match_index p.2) (sorted_items (peers_ s))).
  assert (Hnd : NoDup l.*1).
  { eapply sublist_NoDup; [apply (sorted_items_keys_NoDup (peers_ s))|].
    apply fmap_sublist, sublist_filter. }
  assert (Hin : forall x, x ∈ l.*1 -> exists pr, peers_ s !! x = Some pr /\ i <= match_index pr).
  { intros x Hx. apply list_elem_of_fmap in Hx as [[y pr] [-> Hx]].
    apply list_elem_of_filter in Hx as [Hi Hx]. apply elem_of_sorted_items in Hx. by exists pr. }
  transitivity (size ({[node_id (config_ s)]} ∪ list_to_set l.*1 : gset N)).
  - rewrite size_union, size_singleton, size_list_to_set, length_fmap by
      first [done | apply disjoint_singleton_l; rewrite elem_of_list_to_set; intros Hx;
             destruct (Hin _ Hx) as (pr & Hpr & _);
             destruct (live_peers _ Hl (node_id (config_ s))) as (_ & _ & ?); [by eexists|done]].
    lia.
  - apply subseteq_size. unfold match_set. simpl. apply union_mono_l. intros x Hx.
    apply elem_of_list_to_set, Hin in Hx as (pr & Hpr & Hi).
    apply elem_of_dom. exists (match_index pr). apply map_lookup_filter_Some. split; [|done].
    by rewrite lookup_fmap, Hpr.
Qed.

Lemma quorum_size_majority s (q : gset N) :
  quorum_size s <= N.of_nat (size q) -> (length (members (config_ s)) < 2 * size q)%nat.
Proof.
  unfold quorum_size. intros H.
  pose proof (N.div_mod' (N.of_nat (length (members (config_ s)))) 2) as Hd.
  pose proof (N.mod_upper_bound (N.of_nat (length (members (config_ s)))) 2 ltac:(done)).
  lia.
Qed.

Lemma match_set_quorum s i :
  node_ok s -> role_ s = leader -> quorum_size s <= replicas_at s i ->
  is_quorum (members (config_ s)) (match_set (view s) i).
Proof.
  intros Hok Hr Hq. pose proof (ok_live _ Hok ltac:(congruence)) as Hl. split.
  - intros x. unfold match_set. simpl. rewrite elem_of_union, elem_of_singleton.
    intros [->|Hx]; [apply (cfg_self _ (ok_cfg _ (ok_base _ Hok)))|].
    apply elem_of_dom in Hx as [y Hy]. apply map_lookup_filter_Some in Hy as [Hy _].
    rewrite lookup_fmap in Hy. apply fmap_Some in Hy as (pr & Hpr & _).
    by destruct (live_peers _ Hl x) as (_ & ? & _).
  - apply quorum_size_majority. pose proof (replicas_le_match_set s i Hl). lia.
Qed.

(** The scan finds the commit index itself or an entry of the current term that
    a quorum stores. *)
Lemma commit_target_spec s n :
  commit_target s n = commit_index_ s \/
  (commit_index_ s < commit_target s n <= commit_index_ s + N.of_nat n /\
   log_term_at (log_ s) (commit_target s n) = current_term (hard_state_ s) /\
   is_Some (log_at (log_ s) (commit_target s n)) /\
   quorum_size s <= replicas_at s (commit_target s n)).
Proof.
  induction n as [|n IH]; [by left|]. cbn [commit_target].
  assert (IH' : commit_target s n = commit_index_ s \/
    (commit_index_ s < commit_target s n <= commit_index_ s + N.of_nat (S n) /\
     log_term_at (log_ s) (commit_target s n) = current_term (hard_state_ s) /\
     is_Some (log_at (log_ s) (commit_target s n)) /\
     quorum_size s <= replicas_at s (commit_target s n))).
  { destruct IH as [?|(? & ?)]; [by left|right]. split; [lia|done]. }
  unfold entry_at. destruct (log_at (log_ s) (commit_index_ s + N.of_nat (S n))) as [e|] eqn:He;
    [|done].
  destruct ((term e =? _) && _) eqn:Hc; [|done].
  apply andb_true_iff in Hc as [Ht%N.eqb_eq Hq%N.leb_le]. right.
  split_and!; [lia|lia| |by rewrite He|done]. unfold log_term_at. by rewrite He.
Qed.

Lemma set_commit_ok s i :
  base_ok s -> commit_index_ s <= i <= llen (log_ s) -> base_ok (set_commit_index i s).
Proof. intros [] Hi. constructor; simpl; try done; lia. Qed.

Lemma maybe_advance_commit_refines s : node_ok s -> wps maybe_advance_commit (refines soup s) s.
Proof.
  intros Hok. unfold maybe_advance_commit. wexec.
  destruct (bool_decide_reflect (role_ s = leader)) as [Hr|]; simpl;
    [|apply refines_quiet; [apply quiet_skip|done]].
  destruct (pending_storage_ s) eqn:Hp; simpl; [apply refines_quiet; [apply quiet_skip|done]|].
  set (n := N.to_nat _). destruct (commit_target_spec s n) as [->|(Hrange & Ht & [e He] & Hq)].
  { rewrite N.eqb_refl. apply refines_quiet; [apply quiet_skip|done]. }
  destruct (N.eqb_spec (commit_target s n) (commit_index_ s)); [lia|]. wexec.
  pose proof (live_dlast_idle s Hok ltac:(congruence) Hp) as Hdl.
  assert (Hle : commit_target s n <= llen (log_ s)).
  { apply log_at_Some in He as [Hi He]. apply lookup_lt_Some in He. unfold llen. lia. }
  apply refines_persist; try done.
  - simpl. congruence.
  - apply set_commit_ok; [apply Hok|lia].
  - intros op m. destruct (ok_live _ Hok ltac:(congruence)).
    constructor; simpl; unfold settled_last, settled_hs in *; simpl; rewrite ?Hp in *; done.
  - intros op m. apply vsteps_one.
    apply (v_commit_entry soup (view s)); simpl; [done|by rewrite Hp|lia|done|done|].
    by apply match_set_quorum.
Qed.

Lemma run_advance_commit_refines s : node_ok s -> wps run_advance_commit (refines soup s) s.
Proof.
  intros Hok. unfold run_advance_commit. wexec.
  eapply refines_seq; [|by apply refines_refl|].
  - eapply wps_mono; [apply apply_committed_refines; by apply node_ok_soft|]. by intros ??? [??].
  - intros s' Hok' _. wexec.
    by apply refines_from_soft, send_all_appends_refines, node_ok_soft.
Qed.

End replicate.
