(* ===== verification/RaftElection.v ===== *)
(** * RaftElection: refinement of the election handlers *)

From S2P Require Import Prelude Model StateMachine RaftTypes Raft RaftSpec RaftRefine RaftReplicate.

(** The node [step_down] leaves, up to soft state. *)
Definition stepped (t : Term) (s : RaftNode) : RaftNode :=
  set_role follower (set_votes_received ∅ (set_peers ∅
    (if current_term (hard_state_ s) <? t then set_hard_state (mkHardState t None) s else s))).

Section election.
Context {soup : MessageEnvelope -> Prop}.
Implicit Types (s : RaftNode).

Lemma wps_step_down t h {B} (f : unit -> M B) Q s :
  (forall p, wps (f tt) Q (put_soft p (stepped t s))) -> wps (step_down t h false ≫= f) Q s.
Proof.
  intros H. apply wps_bind. unfold step_down, stepped in *. wexec.
  destruct (current_term (hard_state_ s) <? t); wexec.
  all: match goal with |- wps _ _ ?st => apply (H (soft_of st)) end.
Qed.

Lemma stepped_base t s : base_ok s -> t <= u64_max -> base_ok (stepped t s).
Proof.
  intros [] Ht. unfold stepped.
  destruct (N.ltb_spec (current_term (hard_state_ s)) t); constructor; simpl; try done.
  eapply Forall_impl; [done|]. simpl. lia.
Qed.

(** A computation that only sends messages the protocol allows. *)
Lemma for_each_sends {A} (l : list A) (f : A -> M unit) s p0 :
  (forall x p, x ∈ l -> wps (f x)
     (fun _ s' ms => (exists p', s' = put_soft p' s) /\ vsteps soup (view s) ms (view s))
     (put_soft p s)) ->
  wps (for_each l f)
    (fun _ s' ms => (exists p', s' = put_soft p' s) /\ vsteps soup (view s) ms (view s))
    (put_soft p0 s).
Proof.
  revert p0. induction l as [|x l IH]; intros p0 Hf; simpl.
  - apply wps_ret. split; [by eexists|constructor].
  - apply wps_bind. eapply wps_mono; [apply Hf, list_elem_of_here|].
    simpl. intros [] s' ms [[p' ->] Hv]. eapply wps_mono.
    + apply IH. intros y p Hy. apply Hf. by apply list_elem_of_further.
    + simpl. intros [] s'' ms' [Hs Hv']. split; [done|]. by eapply vsteps_trans.
Qed.

Lemma run_begin_election_refines s :
  node_ok s -> pending_storage_ s = None -> wps run_begin_election (refines soup s) s.
Proof.
  intros Hok Hp. unfold run_begin_election. wexec.
  destruct (bool_decide_reflect (role_ s = candidate)) as [Hr|]; simpl;
    [|apply refines_quiet; [apply quiet_skip|done]].
  wexec. eapply wps_mono; [apply for_each_sends|].
  - intros x p' _. destruct (negb _); wexec.
    + split; [by eexists|]. apply vsteps_one. unfold term_at, entry_at.
      rewrite (live_dlast_idle s Hok ltac:(congruence) Hp).
      apply (v_request_vote soup (view s)); simpl; [done|by rewrite Hp].
    + split; [by eexists|constructor].
  - simpl. intros [] s' ms [[p' ->] Hv]. split_and!; [by apply node_ok_soft|done|done|by left].
Qed.

Lemma begin_election_refines s :
  node_ok s -> pending_storage_ s = None -> role_ s = follower \/ role_ s = candidate ->
  wps begin_election (refines soup s) s.
Proof.
  intros Hok Hp Hr. unfold begin_election. wexec.
  destruct (N.eqb_spec (current_term (hard_state_ s)) u64_max) as [_|Hmax].
  { apply refines_fail; [apply Hok|done]. }
  wexec. simpl. pose proof (ok_term _ (ok_base _ Hok)). rewrite add64_small by lia.
  assert (Hru : role_ s <> unavailable) by (destruct Hr; congruence).
  destruct (ok_live _ Hok Hru). destruct (ok_base _ Hok).
  apply refines_persist; try done.
  - repeat apply base_ok_soft. constructor; simpl; try done; [lia|].
    eapply Forall_impl; [done|]. simpl. lia.
  - intros op n. repeat apply live_ok_soft. unfold settled_last, settled_commit in *.
    rewrite Hp in *. constructor; simpl; try done.
    + lia.
    + intros x ->%elem_of_singleton. by destruct ok_cfg.
    + intros x [? Hx]. by rewrite lookup_empty in Hx.
  - intros op n. apply vsteps_one. unfold view at 2. simpl. rewrite fmap_empty.
    apply (v_campaign soup (view s)); [done|by simpl; rewrite Hp|done].
Qed.

Lemma initial_peers_lookup s x pr :
  initial_peers s !! x = Some pr ->
  x ∈ members (config_ s) /\ x <> node_id (config_ s) /\ match_index pr = 0.
Proof.
  unfold initial_peers. generalize (members (config_ s)) as ms.
  assert (Hgen : forall ms (m : gmap N PeerProgress) x pr,
    foldl (fun m member => if negb (member =? node_id (config_ s))
      then match m !! member with Some _ => m
           | None => <[member := mkPeerProgress (add64 (durable_last_log_index_ s) 1) 0 None 0]> m end
      else m) m ms !! x = Some pr ->
    m !! x = Some pr \/ (x ∈ ms /\ x <> node_id (config_ s) /\ match_index pr = 0)).
  { clear x pr. induction ms as [|y ms IH]; intros m x pr Hx; simpl in *; [by left|].
    apply IH in Hx as [Hx|(? & ? & ?)]; [|right; set_solver].
    destruct (N.eqb_spec y (node_id (config_ s))); simpl in Hx; [by left|].
    destruct (m !! y); [by left|]. destruct (decide (y = x)) as [->|].
    - rewrite lookup_insert_eq in Hx. simplify_eq. right. set_solver.
    - rewrite lookup_insert_ne in Hx by done. by left. }
  intros ms Hx. apply Hgen in Hx as [Hx|?]; [by rewrite lookup_empty in Hx|done].
Qed.

Lemma append_base s e :
  base_ok s -> llen (log_ s) < u64_max -> index e = llen (log_ s) + 1 ->
  1 <= term e <= current_term (hard_state_ s) -> base_ok (set_log (log_ s ++ [e]) s).
Proof.
  intros [] Hl Hi Ht. unfold llen in *. constructor; simpl; try done.
  - intros i e' He'. apply lookup_app_Some in He' as [He'|[Hlen He']]; [by apply ok_log|].
    apply list_lookup_singleton_Some in He' as [? <-]. lia.
  - unfold llen. rewrite length_app. simpl. lia.
  - apply Forall_app. split; [done|]. by constructor.
  - unfold llen. rewrite length_app. lia.
  - rewrite take_app_le by lia. done.
Qed.

Lemma become_leader_refines s :
  node_ok s -> pending_storage_ s = None -> role_ s = candidate ->
  quorum_size s <= N.of_nat (size (votes_received_ s)) ->
  wps become_leader (refines soup s) s.
Proof.
  intros Hok Hp Hr Hq. unfold become_leader. wexec.
  destruct (ok_live _ Hok ltac:(congruence)). pose proof (live_term ltac:(by left)) as Ht. destruct (ok_base _ Hok).
  change (last_log_index _) with (llen (log_ s)).
  destruct (N.eqb_spec (llen (log_ s)) u64_max) as [_|Hmax].
  { apply refines_fail; [|done]. repeat apply base_ok_soft. by constructor. }
  cbn [negb]. case_match.
  - wexec. split_and!; simpl; [|done| |by left].
    + constructor; [repeat apply base_ok_soft; by constructor|done|].
      intros _. repeat apply live_ok_soft. unfold settled_last, settled_hs, settled_commit in *.
      rewrite Hp in *. constructor; simpl; try done.
      all: first [ by intros [?|?] | by intros x [? Hx]; rewrite lookup_empty in Hx
                 | unfold settled_last, settled_hs, settled_commit; simpl; by rewrite Hp ].
    + apply vsteps_one. unfold view at 2. simpl. rewrite fmap_empty, Hp.
      apply (v_resign soup (view s)); [done|by simpl; rewrite Hp].
  - wexec. unfold last_log_index, put_soft; simpl. rewrite add64_small by (unfold llen in *; lia).
    apply refines_persist; try done.
    + repeat apply base_ok_soft. simpl.
      match goal with |- base_ok ?st =>
        assert (Hb : base_ok (set_log (log_ s ++ [mkLogEntry (llen (log_ s) + 1)
          (current_term (hard_state_ s)) None]) s)) end.
      { apply append_base; simpl; [by constructor|lia|done|lia]. }
      destruct Hb. by constructor.
    + intros op n0. repeat apply live_ok_soft. unfold settled_hs, settled_commit in *.
      rewrite Hp in *. constructor; simpl; try done.
      * intros _. apply live_vote. by left.
      * intros x [pr Hx]. apply initial_peers_lookup in Hx as (? & ? & _). done.
    + intros op n0. apply vsteps_one. unfold view at 2. simpl.
      apply (v_lead soup (view s)); simpl; [done|by rewrite Hp| | |done].
      * split; [done|]. by apply quorum_size_majority.
      * intros x i Hx. rewrite lookup_fmap in Hx. apply fmap_Some in Hx as (pr & Hpr & ->).
        by apply initial_peers_lookup in Hpr as (_ & _ & ?).
Qed.

Lemma run_become_leader_refines s : node_ok s -> wps run_become_leader (refines soup s) s.
Proof.
  intros Hok. unfold run_become_leader. wexec. case_match.
  { apply refines_quiet; [apply quiet_skip|done]. }
  eapply refines_seq; [by apply send_all_appends_refines|split_and!; [done..|constructor|by left]|].
  intros s' Hok' _. wexec.
  by apply refines_from_soft, maybe_advance_commit_refines, node_ok_soft.
Qed.

(** ** Votes *)

Lemma up_to_date_spec s i t :
  candidate_is_up_to_date s i t = true <-> up_to_date (log_ s) i t.
Proof.
  unfold candidate_is_up_to_date, up_to_date, last_term.
  change (term_at s (last_log_index s)) with (log_term_at (log_ s) (llen (log_ s))).
  change (last_log_index s) with (llen (log_ s)).
  rewrite orb_true_iff, andb_true_iff, N.ltb_lt, N.eqb_eq, N.leb_le. done.
Qed.

(** Sending a message the protocol allows from the current view. *)
Lemma refines_send to m s :
  node_ok s -> vstep soup (view s) [mkMessageEnvelope (node_id (config_ s)) to m] (view s) ->
  wps (send_message to m) (refines soup s) s.
Proof.
  intros Hok Hv. wexec. split_and!; [by repeat apply node_ok_soft|done| |by left].
  by apply vsteps_one.
Qed.

Lemma run_vote_reply_refines from grant wl s :
  node_ok s ->
  vstep soup (view s) [mkMessageEnvelope (node_id (config_ s)) from
    (MRequestVoteResponse (mkRequestVoteResponse (current_term (hard_state_ s)) grant))] (view s) ->
  wps (run_vote_reply from grant wl) (refines soup s) s.
Proof.
  intros Hok Hv. unfold run_vote_reply. wexec.
  split_and!; [by repeat apply node_ok_soft|done|by apply vsteps_one|by left].
Qed.

(** The new hard state [h] of a node that stepped down or voted is pending. *)
Lemma refines_hard_state k run s0 s h :
  pending_storage_ s = None -> role_ s <> unavailable -> role_ s = follower ->
  durable_hard_state_ s = durable_hard_state_ s0 ->
  base_ok s -> config_ s = config_ s0 -> deferred_events_ s = deferred_events_ s0 ->
  hard_state_ s = h -> live_ok (set_hard_state (durable_hard_state_ s0) s) ->
  (forall op n, vsteps soup (view s0) [] (view (pend op n (hard_state_batch h) k s))) ->
  wps (begin_persist (hard_state_batch h) k run) (refines soup s0) s.
Proof.
  intros Hp Hu Hr Hdh Hb Hc Hd Hh Hl Hv. apply refines_persist; try done.
  intros op n. destruct Hl. unfold settled_last, settled_hs, settled_commit in *.
  simpl in *. rewrite Hp in *. constructor; simpl; try done;
    unfold settled_last, settled_commit; simpl; try done; rewrite Hr; by intros [?|?].
Qed.

Lemma stepped_live t s :
  live_ok s -> pending_storage_ s = None ->
  live_ok (set_hard_state (durable_hard_state_ s) (stepped t s)).
Proof.
  intros [] Hp. unfold settled_last, settled_hs, settled_commit in *. rewrite Hp in *.
  unfold stepped. case_match; constructor; simpl; try done.
  all: try (unfold settled_last, settled_hs, settled_commit; simpl; by rewrite Hp).
  all: try by intros [?|?].
  all: intros x [? Hx]; by rewrite lookup_empty in Hx.
Qed.

(** The step-down of the two response handlers. *)
Lemma observe_refines t s :
  node_ok s -> pending_storage_ s = None -> role_ s <> unavailable ->
  current_term (hard_state_ s) < t -> t <= u64_max ->
  wps (step_down t None false ;; s ← this;
       begin_persist (hard_state_batch (hard_state_ s)) after_step_down run_step_down)
    (refines soup s) s.
Proof.
  intros Hok Hp Hr Ht Hm. apply wps_step_down. intros p. wexec.
  assert (Hlt : (current_term (hard_state_ s) <? t) = true) by by apply N.ltb_lt.
  apply refines_hard_state; try (unfold stepped; rewrite Hlt; simpl; done).
  - apply base_ok_soft, stepped_base; [apply Hok|done].
  - apply (live_ok_soft p (set_hard_state (durable_hard_state_ s) (stepped t s))), stepped_live;
      [by apply Hok|done].
  - intros op n. apply vsteps_one. unfold view at 2, stepped. rewrite Hlt. simpl.
    rewrite fmap_empty. apply (v_observe soup (view s)); simpl; [done|by rewrite Hp|done..].
Qed.

Section vote_request.
Context (from : NodeId) (m : RequestVote) (s : RaftNode).
Context (Hok : node_ok s) (Hp : pending_storage_ s = None) (Hr : role_ s <> unavailable).
Context (Hin : soup (mkMessageEnvelope from (node_id (config_ s)) (MRequestVote m))).
Context (Hfrom : from <> node_id (config_ s)) (Hmem : from ∈ members (config_ s)).
Context (Hc : rv_candidate_id m = from) (Hm : rv_term m <= u64_max).

Let grants (s' : RaftNode) : bool :=
  candidate_is_up_to_date s' (rv_last_log_index m) (rv_last_log_term m).

Lemma stepped_hs (Ht : current_term (hard_state_ s) < rv_term m) :
  hard_state_ (stepped (rv_term m) s) = mkHardState (rv_term m) None.
Proof. unfold stepped. apply N.ltb_lt in Ht. by rewrite Ht. Qed.

Lemma stepped_up_to_date t p i u :
  candidate_is_up_to_date (put_soft p (stepped t s)) i u = candidate_is_up_to_date s i u.
Proof. unfold stepped. by case_match. Qed.

Lemma vote_higher_refines wl p (Ht : current_term (hard_state_ s) < rv_term m) :
  grants s = true ->
  wps (begin_persist (hard_state_batch (mkHardState (rv_term m) (Some from)))
         (after_vote_reply from true wl) (run_vote_reply from true wl))
    (refines soup s)
    (set_hard_state (mkHardState (rv_term m) (Some from)) (put_soft p (stepped (rv_term m) s))).
Proof.
  intros Hg. assert (Hlt := Ht). apply N.ltb_lt in Hlt.
  pose proof (stepped_base (rv_term m) s (ok_base _ Hok) Hm) as Hb.
  pose proof (stepped_live (rv_term m) s (ok_live _ Hok Hr) Hp) as Hl.
  unfold stepped in *. rewrite Hlt in *. apply refines_hard_state; try done.
  - destruct Hb. by constructor.
  - apply (live_ok_soft p) in Hl. exact Hl.
  - intros op n. apply vsteps_one. unfold view at 2. simpl.
    rewrite fmap_empty. apply (v_grant_higher soup (view s) from m); simpl; try done; [by rewrite Hp|].
    by apply up_to_date_spec in Hg.
Qed.

Lemma vote_observe_refines wl p (Ht : current_term (hard_state_ s) < rv_term m) :
  wps (begin_persist (hard_state_batch (mkHardState (rv_term m) None))
         (after_vote_reply from false wl) (run_vote_reply from false wl))
    (refines soup s) (put_soft p (stepped (rv_term m) s)).
Proof.
  assert (Hlt := Ht). apply N.ltb_lt in Hlt.
  pose proof (stepped_base (rv_term m) s (ok_base _ Hok) Hm) as Hb.
  pose proof (stepped_live (rv_term m) s (ok_live _ Hok Hr) Hp) as Hl.
  unfold stepped in *. rewrite Hlt in *. apply refines_hard_state; try done.
  - by apply base_ok_soft.
  - apply (live_ok_soft p) in Hl. exact Hl.
  - intros op n. apply vsteps_one. unfold view at 2. simpl.
    rewrite fmap_empty. apply (v_observe soup (view s)); simpl; [done|by rewrite Hp|done..].
Qed.

Lemma vote_deny_refines wl :
  wps (run_vote_reply from false wl) (refines soup s) s.
Proof.
  apply run_vote_reply_refines; [done|]. apply v_deny; [done|by simpl; rewrite Hp|done].
Qed.

Lemma vote_grant_refines wl :
  rv_term m = current_term (hard_state_ s) -> voted_for (hard_state_ s) = None -> grants s = true ->
  wps (modify (set_hard_state (mkHardState (current_term (hard_state_ s)) (Some from))) ;;
       s ← this;
       begin_persist (hard_state_batch (hard_state_ s)) (after_vote_reply from true wl)
         (run_vote_reply from true wl))
    (refines soup s) s.
Proof.
  intros Ht Hv Hg. wexec. pose proof (ok_live _ Hok Hr) as Hl. pose proof (ok_base _ Hok) as Hb.
  assert (Hf : role_ s = follower).
  { pose proof (live_vote _ Hl) as Hlv. destruct (role_ s); [done|..|done];
      exfalso; rewrite Hv in Hlv; [by specialize (Hlv (or_introl eq_refl))
        |by specialize (Hlv (or_intror eq_refl))]. }
  apply refines_hard_state; try done.
  - destruct Hb. by constructor.
  - pose proof (live_dhs _ Hl) as Hd. unfold settled_hs in Hd. rewrite Hp in Hd.
    destruct Hl. rewrite Hd. by constructor.
  - intros op n. apply vsteps_one. unfold view at 2. simpl. rewrite <- Ht.
    apply (v_grant soup (view s) from m); simpl; try done; [by rewrite Hp|].
    by apply up_to_date_spec in Hg.
Qed.

Lemma vote_regrant_refines wl :
  rv_term m = current_term (hard_state_ s) -> voted_for (hard_state_ s) = Some from ->
  grants s = true -> wps (run_vote_reply from true wl) (refines soup s) s.
Proof.
  intros Ht Hv Hg. apply run_vote_reply_refines; [done|].
  apply (v_regrant soup (view s) from m); simpl; try done; [by rewrite Hp|].
  by apply up_to_date_spec in Hg.
Qed.

End vote_request.

Lemma on_request_vote_refines from m s :
  node_ok s -> pending_storage_ s = None -> role_ s <> unavailable ->
  soup (mkMessageEnvelope from (node_id (config_ s)) (MRequestVote m)) ->
  from <> node_id (config_ s) -> from ∈ members (config_ s) -> rv_term m <= u64_max ->
  wps (on_request_vote from m) (refines soup s) s.
Proof.
  intros Hok Hp Hr Hin Hfrom Hmem Hm. unfold on_request_vote. wexec.
  destruct (N.eqb_spec (rv_candidate_id m) from) as [Hc|];
    [|rewrite orb_true_r; by apply refines_quiet; [apply quiet_skip|]].
  rewrite orb_false_r. case_match; [by apply refines_quiet; [apply quiet_skip|]|].
  destruct (N.ltb_spec (rv_term m) (current_term (hard_state_ s))) as [|Hge].
  { apply refines_send; [done|]. apply v_deny; [done|by simpl; rewrite Hp|done]. }
  destruct (N.ltb_spec (current_term (hard_state_ s)) (rv_term m)) as [Hlt|Hle].
  - apply wps_when_true, wps_step_down; [done|]. intros p. wexec. rewrite Hc.
    change (hard_state_ (put_soft p (stepped (rv_term m) s)))
      with (hard_state_ (stepped (rv_term m) s)).
    rewrite stepped_hs by done. simpl. rewrite stepped_up_to_date, andb_true_r.
    destruct (candidate_is_up_to_date s _ _) eqn:Hg; cbn [andb].
    + wexec. unfold persist_or_run. simpl. by apply vote_higher_refines.
    + unfold persist_or_run. simpl. by apply vote_observe_refines.
  - apply wps_when_false; [done|]. wexec. rewrite Hc.
    assert (Ht : rv_term m = current_term (hard_state_ s)) by lia.
    unfold persist_or_run. destruct (voted_for (hard_state_ s)) as [w|] eqn:Hv.
    + destruct (N.eqb_spec w from) as [->|Hne]; simpl; [|by apply vote_deny_refines].
      rewrite (bool_decide_true (Some from = Some from)) by done. rewrite andb_false_r.
      destruct (candidate_is_up_to_date s _ _) eqn:Hg;
        [by eapply vote_regrant_refines|by apply vote_deny_refines].
    + simpl. rewrite andb_true_r. destruct (candidate_is_up_to_date s _ _) eqn:Hg; cbn [andb].
      * by eapply vote_grant_refines.
      * by apply vote_deny_refines.
Qed.

(** A recorded vote keeps the invariant and is a protocol action. *)
Lemma count_vote_refines from m s :
  node_ok s -> pending_storage_ s = None -> role_ s = candidate ->
  soup (mkMessageEnvelope from (node_id (config_ s)) (MRequestVoteResponse m)) ->
  from ∈ members (config_ s) -> rvr_vote_granted m = true ->
  rvr_term m = current_term (hard_state_ s) ->
  refines soup s tt (set_votes_received ({[ from ]} ∪ votes_received_ s) s) [].
Proof.
  intros Hok Hp Hr Hin Hmem Hg Ht. split_and!; [|done| |by left].
  - constructor; [by destruct (ok_base _ Hok)|by destruct Hok|].
    intros Hu. destruct (ok_live _ Hok Hu). constructor; try done.
    simpl. intros x [->%elem_of_singleton|]%elem_of_union; auto.
  - apply vsteps_one. by apply (v_count_vote soup (view s) from m); simpl; try done; rewrite Hp.
Qed.

Lemma on_request_vote_response_refines from m s :
  node_ok s -> pending_storage_ s = None -> role_ s <> unavailable ->
  soup (mkMessageEnvelope from (node_id (config_ s)) (MRequestVoteResponse m)) ->
  from ∈ members (config_ s) -> rvr_term m <= u64_max ->
  wps (on_request_vote_response from m) (refines soup s) s.
Proof.
  intros Hok Hp Hr Hin Hmem Hm. unfold on_request_vote_response. wexec.
  destruct (N.ltb_spec (current_term (hard_state_ s)) (rvr_term m)) as [Hlt|Hle].
  { by apply observe_refines. }
  destruct (bool_decide_reflect (role_ s = candidate)) as [Hc|];
    [|by apply refines_quiet; [apply quiet_skip|]].
  destruct (N.eqb_spec (rvr_term m) (current_term (hard_state_ s))) as [Ht|];
    [|by apply refines_quiet; [apply quiet_skip|]].
  destruct (rvr_vote_granted m) eqn:Hg; simpl; [|by apply refines_quiet; [apply quiet_skip|]].
  pose proof (count_vote_refines from m s Hok Hp Hc Hin Hmem Hg Ht) as Hcount.
  wexec. eapply refines_trans; [exact Hcount|]. apply refines_from_soft.
  unfold when. destruct (_ <=? _) eqn:Hq.
  - apply N.leb_le in Hq. apply become_leader_refines; try done.
    apply node_ok_soft, Hcount.
  - apply refines_quiet; [apply quiet_skip|]. apply node_ok_soft, Hcount.
Qed.

End election.
