(* ===== verification/RaftAppend.v ===== *)
(** * RaftAppend: refinement of the AppendEntries handlers *)

From S2P Require Import Prelude Model StateMachine RaftTypes Raft RaftSpec RaftRefine RaftReplicate RaftElection.

(** ** The entries of an accepted request *)

(** Entries numbered consecutively after [prev], of terms between 1 and [t]. *)
Definition entries_wf (prev : LogIndex) (t : Term) (es : list LogEntry) : Prop :=
  forall i e, es !! i = Some e -> index e = prev + N.of_nat i + 1 /\ 1 <= term e <= t.

Lemma entries_ok_wf cfg t prev bytes es :
  prev <= u64_max -> entries_ok cfg t prev bytes es = true ->
  entries_wf prev t es /\ prev + llen es <= u64_max.
Proof.
  unfold entries_wf, llen.
  revert prev bytes. induction es as [|e es IH]; intros prev bytes Hp H; simpl in *.
  { split; [done|lia]. }
  destruct (N.eqb_spec prev u64_max) as [|Hne]; [done|].
  rewrite add64_small in H by lia.
  case_match; [done|]. case_match eqn:Hbad; [done|].
  rewrite !orb_false_iff, negb_false_iff, N.eqb_eq, N.eqb_neq, N.ltb_ge in Hbad.
  destruct Hbad as [[[Hi Ht0] Ht] _].
  apply IH in H as [H1 H2]; [|lia]. split; [|lia].
  intros [|i] e' He'; simpl in He'; simplify_eq; [lia|].
  apply H1 in He'. lia.
Qed.

Lemma entries_valid_wf cfg m :
  ae_prev_log_index m <= u64_max -> entries_valid cfg m = true ->
  entries_wf (ae_prev_log_index m) (ae_term m) (ae_entries m) /\
  ae_prev_log_index m + llen (ae_entries m) <= u64_max.
Proof. intros Hp [_ H]%andb_true_iff. by eapply entries_ok_wf. Qed.

(** The index the follower acknowledges. *)
Lemma matched_spec prev t es :
  entries_wf prev t es ->
  match last es with None => prev | Some e => index e end = prev + llen es.
Proof.
  intros H. unfold llen. destruct (last es) as [e|] eqn:Hl.
  - rewrite last_lookup in Hl. pose proof (lookup_lt_Some _ _ _ Hl). apply H in Hl as [-> _]. lia.
  - apply last_None in Hl as ->. simpl. lia.
Qed.

(** The code's computation of the kept prefix is [splice]. *)
Lemma splice_matching log pos t es :
  entries_wf (N.of_nat pos) t es -> (pos <= length log)%nat ->
  (pos + matching_prefix log es <= length log)%nat /\
  splice log pos es =
    match drop (matching_prefix log es) es with
    | [] => log
    | es' => take (pos + matching_prefix log es) log ++ es'
    end.
Proof.
  revert pos. induction es as [|e es IH]; intros pos Hwf Hpos; simpl; [split; [lia|done]|].
  destruct (Hwf O e eq_refl) as [Hi _].
  rewrite log_at_lookup by lia.
  replace (N.to_nat (index e - 1)) with pos by lia.
  case_bool_decide as He; simpl.
  - pose proof (lookup_lt_Some _ _ _ He).
    destruct (IH (S pos)) as [H1 H2]; [|lia|].
    + intros i e' He'. destruct (Hwf (S i) e' He'). split; lia.
    + split; [lia|]. rewrite H2. case_match; [done|]. do 2 f_equal. lia.
  - split; [lia|]. by rewrite Nat.add_0_r.
Qed.

Lemma splice_prefix log pos es n :
  (n <= pos)%nat -> (pos <= length log)%nat -> take n (splice log pos es) = take n log.
Proof.
  revert pos. induction es as [|e es IH]; intros pos Hn Hp; simpl; [done|].
  case_bool_decide as He.
  - apply lookup_lt_Some in He. apply IH; lia.
  - rewrite take_app_le by (rewrite length_take; lia). rewrite take_take. f_equal. lia.
Qed.

Lemma splice_length log pos es :
  (pos <= length log)%nat -> (pos + length es <= length (splice log pos es))%nat.
Proof.
  revert pos. induction es as [|e es IH]; intros pos Hp; simpl; [lia|].
  case_bool_decide as He.
  - apply lookup_lt_Some in He. specialize (IH (S pos)). lia.
  - rewrite length_app, length_take. simpl. lia.
Qed.

(** Every entry of the result is one of the request at its position, or an old
    one at its old position. *)
Lemma splice_lookup log pos es i e :
  (pos <= length log)%nat -> splice log pos es !! i = Some e ->
  log !! i = Some e \/ ((pos <= i)%nat /\ es !! (i - pos)%nat = Some e).
Proof.
  revert pos. induction es as [|e' es IH]; intros pos Hp H; simpl in *; [by left|].
  case_bool_decide as He.
  - pose proof (lookup_lt_Some _ _ _ He). apply IH in H as [?|[? H]]; [by left| |lia].
    right. split; [lia|]. by replace (i - pos)%nat with (S (i - S pos)) by lia.
  - apply lookup_app_Some in H as [H|[Hl H]].
    + left. by apply lookup_take_Some in H as [? _].
    + right. rewrite length_take, Nat.min_l in * by lia. split; [lia|done].
Qed.

Section log_facts.
Context (log : list LogEntry) (prev : LogIndex) (t : Term) (es : list LogEntry).
Context (Hes : entries_wf prev t es) (Hprev : prev <= llen log).

Lemma splice_log_wf : log_wf log -> log_wf (splice log (N.to_nat prev) es).
Proof.
  intros Hl i e H. apply splice_lookup in H as [?|[? H]]; [by apply Hl| |unfold llen in *; lia].
  apply Hes in H as [? _]. lia.
Qed.

Lemma splice_terms cur :
  cur <= t -> Forall (fun e => 1 <= term e <= cur) log ->
  Forall (fun e => 1 <= term e <= t) (splice log (N.to_nat prev) es).
Proof.
  intros Hc Hl. apply Forall_lookup. intros i e H. apply splice_lookup in H as [H|[_ H]];
    [| |unfold llen in *; lia].
  - rewrite Forall_lookup in Hl. apply Hl in H. lia.
  - by apply Hes in H as [_ ?].
Qed.

End log_facts.

(** ** Following the leader of the request *)

(** The node after it accepted the sender as the leader of the term of [h]. *)
Definition following (h : HardState) (vs : gset N) (s : RaftNode) : RaftNode :=
  set_role follower (set_votes_received vs (set_peers ∅ (set_hard_state h s))).

(** The hard state of a node that saw a request of term [t]. *)
Definition observed_hs (t : Term) (s : RaftNode) : HardState :=
  if current_term (hard_state_ s) <? t then mkHardState t None else hard_state_ s.

Lemma stepped_following t s : stepped t s = following (observed_hs t s) ∅ s.
Proof. unfold stepped, following, observed_hs. destruct s. by case_match. Qed.

Lemma follower_following s :
  live_ok s -> role_ s = follower -> following (hard_state_ s) (votes_received_ s) s = s.
Proof.
  intros Hl Hr. assert (Hp : peers_ s = ∅).
  { apply map_empty. intros x. destruct (peers_ s !! x) as [pr|] eqn:Hx; [|done].
    destruct (live_peers _ Hl x) as [? _]; [by eexists|congruence]. }
  unfold following. rewrite <- Hp, <- Hr. by destruct s.
Qed.

Lemma observed_hs_term t s :
  current_term (hard_state_ s) <= t -> current_term (observed_hs t s) = t.
Proof.
  unfold observed_hs. intros H. destruct (N.ltb_spec (current_term (hard_state_ s)) t); [done|lia].
Qed.

(** A batch that leaves the log alone keeps the log it is applied to. *)
Lemma apply_batch_untouched d b r :
  apply_batch d b = r -> b_truncate_from b = None -> b_entries b = [] -> rec_log r = rec_log d.
Proof. intros <- Ht He. unfold apply_batch. simpl. by rewrite Ht, He, app_nil_r. Qed.

Section append.
Context {soup : MessageEnvelope -> Prop}.
Context (from : NodeId) (m : AppendEntries) (s : RaftNode).
Context (Hok : node_ok s) (Hp : pending_storage_ s = None) (Hr : role_ s <> unavailable).
Context (Hin : soup (mkMessageEnvelope from (node_id (config_ s)) (MAppendEntries m))).
Context (Hfrom : from <> node_id (config_ s)) (Hld : ae_leader_id m = from).
Context (Hterm : current_term (hard_state_ s) <= ae_term m) (Hmax : ae_term m <= u64_max).
Context (vs : gset N) (Hvs : vs = ∅ \/ vs = votes_received_ s).

Let h := observed_hs (ae_term m) s.

Lemma live_batch op n b k s' L c p :
  s' = put_soft p (set_commit_index c (set_log L (following h vs s))) ->
  apply_batch (target (view s)) b = mkRecoveredState h L c ->
  live_ok (pend op n b k s').
Proof.
  intros -> Hb. destruct (ok_live _ Hok Hr). unfold settled_last, settled_hs, settled_commit in *.
  rewrite Hp in *. injection Hb as Hbh Hbl Hbc. constructor; simpl; try (by intros [?|?]).
  - unfold settled_last. simpl. destruct (b_truncate_from b), (b_entries b); try done. simpl.
    rewrite app_nil_r in Hbl. by subst L.
  - unfold settled_hs. simpl. destruct (b_hard_state b); simpl in *; congruence.
  - unfold settled_commit. simpl. destruct (b_commit_index b); simpl in *; congruence.
  - intros x Hx. destruct Hvs as [-> | ->]; [set_solver|auto].
  - intros x [? Hx]. by rewrite lookup_empty in Hx.
Qed.

Lemma base_following L c :
  log_wf L -> llen L <= u64_max -> Forall (fun e => 1 <= term e <= ae_term m) L ->
  take (N.to_nat (commit_index_ s)) L = take (N.to_nat (commit_index_ s)) (log_ s) ->
  commit_index_ s <= c <= llen L ->
  base_ok (set_commit_index c (set_log L (following h vs s))).
Proof.
  intros Hwf Hlen Hts Htake Hc. destruct (ok_base _ Hok).
  pose proof (observed_hs_term _ _ Hterm) as Hh. constructor; simpl; try done.
  - unfold h. lia.
  - unfold h. by rewrite Hh.
  - lia.
  - lia.
  - rewrite ok_machine. do 2 f_equal.
    replace (N.to_nat (last_applied_ s))
      with (Nat.min (N.to_nat (last_applied_ s)) (N.to_nat (commit_index_ s))) by lia.
    by rewrite <- !take_take, Htake.
Qed.

(** The batch the node would recover from matches its state. *)
Lemma live_unbatched b L c :
  batch_empty b = true -> apply_batch (target (view s)) b = mkRecoveredState h L c ->
  live_ok (set_commit_index c (set_log L (following h vs s))).
Proof.
  intros He Hb. apply batch_empty_spec in He as ->.
  injection Hb as Hbh Hbl Hbc. simpl in *. rewrite app_nil_r in Hbl.
  destruct (ok_live _ Hok Hr). unfold settled_last, settled_hs, settled_commit in *.
  rewrite Hp in *. constructor; simpl; try (by intros [?|?]);
    unfold settled_last, settled_hs, settled_commit; simpl; rewrite ?Hp; try congruence.
  - intros x Hx. destruct Hvs as [-> | ->]; [set_solver|auto].
  - intros x [? Hx]. by rewrite lookup_empty in Hx.
Qed.

Section accept.
Context (L : list LogEntry) (matched : LogIndex).
Context (HL : L = splice (log_ s) (N.to_nat (ae_prev_log_index m)) (ae_entries m)).
Context (Hprev : ae_prev_log_index m <= llen (log_ s)).
Context (Hpt : log_term_at (log_ s) (ae_prev_log_index m) = ae_prev_log_term m).
Context (Hwf : entries_wf (ae_prev_log_index m) (ae_term m) (ae_entries m)).
Context (Hmatched : matched = ae_prev_log_index m + llen (ae_entries m)).
Context (Hlen : llen L <= u64_max).
Context (Htake : take (N.to_nat (commit_index_ s)) L = take (N.to_nat (commit_index_ s)) (log_ s)).

Lemma accept_base c :
  c = N.max (commit_index_ s) (N.min (ae_leader_commit m) matched) ->
  base_ok (set_commit_index c (set_log L (following h vs s))).
Proof.
  intros Hc. pose proof (ok_base _ Hok) as Hb. apply base_following; try done.
  - rewrite HL. eapply splice_log_wf; [done|done|apply Hb].
  - rewrite HL. eapply splice_terms; [done|done|done|apply Hb].
  - pose proof (splice_length (log_ s) (N.to_nat (ae_prev_log_index m)) (ae_entries m)
      ltac:(unfold llen in *; lia)) as Hs.
    rewrite <- HL in Hs. pose proof (ok_commit _ Hb) as Hcm.
    assert (commit_index_ s <= llen L).
    { apply (f_equal length) in Htake. rewrite !length_take in Htake. unfold llen in *. lia. }
    unfold llen in *. lia.
Qed.

Lemma accept_vstep c b apply ms pend :
  c = N.max (commit_index_ s) (N.min (ae_leader_commit m) matched) ->
  apply_batch (target (view s)) b = mkRecoveredState h L c ->
  (if batch_empty b
   then pend = None /\ ms = released (node_id (config_ s)) (current_term h)
                              (after_append_accept from (ae_rpc_id m) matched false)
   else ms = [] /\ pend = Some (b, after_append_accept from (ae_rpc_id m) matched apply)) ->
  vstep soup (view s) ms
    (mkView (node_id (config_ s)) (members (config_ s)) follower h L c vs ∅ pend).
Proof.
  intros Hc Hb Hpend.
  apply (v_append soup (view s) from m h L c vs matched b); simpl; try done; [by rewrite Hp|].
  case_match; [done|]. by exists apply.
Qed.

Lemma accept_refines c b apply p :
  c = N.max (commit_index_ s) (N.min (ae_leader_commit m) matched) ->
  apply_batch (target (view s)) b = mkRecoveredState h L c ->
  (batch_empty b = true -> apply = false) ->
  wps (persist_or_run b (after_append_accept from (ae_rpc_id m) matched apply)
         (run_append_accept from (ae_rpc_id m) matched apply)) (refines soup s)
    (put_soft p (set_commit_index c (set_log L (following h vs s)))).
Proof.
  intros Hc Hb Ha. unfold persist_or_run. pose proof (accept_base c Hc) as Hbase.
  destruct (batch_empty b) eqn:He.
  - rewrite Ha by done. unfold run_append_accept. wexec.
    split_and!; [|done| |by left]; repeat apply node_ok_soft.
    + constructor; [by repeat apply base_ok_soft|done|].
      intros _. by eapply live_unbatched.
    + apply vsteps_one. rewrite !view_soft. unfold view at 2. simpl. rewrite fmap_empty, Hp.
      apply (accept_vstep c b false); [done..|]. by rewrite He.
  - apply refines_persist; try done.
    + by apply base_ok_soft.
    + intros op n. by eapply live_batch.
    + intros op n. apply vsteps_one. unfold view at 2. simpl. rewrite fmap_empty.
      apply (accept_vstep c b apply); [done..|]. by rewrite He.
Qed.

Lemma finish_append_refines b p :
  apply_batch (target (view s)) b = mkRecoveredState h L (commit_index_ s) ->
  b_commit_index b = None ->
  wps (finish_append from m b) (refines soup s) (put_soft p (set_log L (following h vs s))).
Proof.
  intros Hb Hbc. unfold finish_append. wexec. rewrite (matched_spec _ _ _ Hwf), <- Hmatched. simpl.
  destruct (N.ltb_spec (commit_index_ s) (N.min (ae_leader_commit m) matched)) as [Hlt|Hge].
  - wexec. apply (accept_refines (N.min (ae_leader_commit m) matched) _ true p); [lia| |].
    + injection Hb as Hbh Hbl _. unfold apply_batch. simpl. by rewrite Hbh, Hbl.
    + unfold batch_empty. simpl. by rewrite !andb_false_r.
  - rewrite Hbc. apply (accept_refines (commit_index_ s) _ false p); [lia|done|done].
Qed.

End accept.

(** The batch [on_append_entries] starts from. *)
Let b0 : PersistBatch :=
  if current_term (hard_state_ s) <? ae_term m then hard_state_batch h else no_batch.

Lemma following_live :
  live_ok (set_hard_state (durable_hard_state_ s) (following h vs s)).
Proof.
  destruct (ok_live _ Hok Hr). unfold settled_last, settled_hs, settled_commit in *.
  rewrite Hp in *. constructor; simpl; try (by intros [?|?]);
    unfold settled_last, settled_hs, settled_commit; simpl; rewrite ?Hp; try done.
  - intros x Hx. destruct Hvs as [-> | ->]; [set_solver|auto].
  - intros x [? Hx]. by rewrite lookup_empty in Hx.
Qed.

Lemma following_base : base_ok (following h vs s).
Proof.
  pose proof (ok_base _ Hok) as Hb. pose proof (observed_hs_term _ _ Hterm) as Hh.
  destruct Hb. constructor; simpl; try done.
  - unfold h. lia.
  - unfold h. eapply Forall_impl; [done|]. simpl. intros e. lia.
Qed.

Lemma append_reject_refines ci ct p :
  (current_term (hard_state_ s) < ae_term m -> vs = ∅) ->
  wps (append_reject from m b0 ci ct) (refines soup s) (put_soft p (following h vs s)).
Proof.
  intros He. unfold append_reject, persist_or_run, b0.
  destruct (N.ltb_spec (current_term (hard_state_ s)) (ae_term m)) as [Hlt|Hge].
  - simpl. apply refines_hard_state; try done.
    + apply base_ok_soft, following_base.
    + apply (live_ok_soft p (set_hard_state (durable_hard_state_ s) (following h vs s))).
      apply following_live.
    + intros op n. apply vsteps_one. unfold view at 2. simpl. rewrite fmap_empty, He by done.
      unfold h, observed_hs. rewrite (proj2 (N.ltb_lt _ _) Hlt).
      apply (v_observe soup (view s)); simpl; [done|by rewrite Hp|done..].
  - simpl. unfold run_append_reject. wexec.
    assert (Hh : h = hard_state_ s).
    { unfold h, observed_hs. destruct (N.ltb_spec (current_term (hard_state_ s)) (ae_term m)); [lia|done]. }
    assert (Hd : durable_hard_state_ s = hard_state_ s).
    { pose proof (live_dhs _ (ok_live _ Hok Hr)) as Hd. unfold settled_hs in Hd. by rewrite Hp in Hd. }
    split_and!; [|done| |by left].
    + repeat apply node_ok_soft. constructor; [apply following_base|done|].
      intros _. pose proof following_live as Hl. rewrite Hd in Hl. by rewrite Hh in *.
    + rewrite !view_soft.
      assert (Hv : view (following h vs s) = mkView (v_id (view s)) (v_members (view s)) follower
        (v_hs (view s)) (v_log (view s)) (v_commit (view s)) vs ∅ None).
      { unfold view. simpl. by rewrite fmap_empty, Hp, Hh. }
      rewrite Hv. eapply (vsteps_trans _ []); apply vsteps_one.
      * apply (v_follow soup (view s) vs); simpl; [done|by rewrite Hp|done].
      * apply v_deny; [done..|]. simpl. unfold put_soft. simpl. by rewrite Hh.
Qed.

Lemma wps_adopt {B} b es r (f : PersistBatch -> M B) Q s' :
  (forall p, wps (f (mkPersistBatch (b_hard_state b)
                       (if r <=? llen (log_ s') then Some r else b_truncate_from b)
                       es (b_commit_index b))) Q
               (put_soft p (set_log (take (N.to_nat (r - 1)) (log_ s') ++ es) s'))) ->
  wps (adopt_suffix b es r ≫= f) Q s'.
Proof.
  intros H. apply wps_bind. unfold adopt_suffix. apply wps_this.
  change (last_log_index s') with (llen (log_ s')).
  destruct (N.leb_spec r (llen (log_ s'))) as [Hr'|Hr']; apply wps_bind; wexec.
  - match goal with |- wps _ _ ?st => apply (H (soft_of st)) end.
  - rewrite take_ge in H by (unfold llen in *; lia).
    match goal with |- wps _ _ ?st => apply (H (soft_of st)) end.
Qed.

Lemma b0_apply es (r : LogIndex) :
  apply_batch (target (view s))
    (mkPersistBatch (b_hard_state b0) (if r <=? llen (log_ s) then Some r else b_truncate_from b0)
       es (b_commit_index b0)) =
  mkRecoveredState h (take (N.to_nat (r - 1)) (log_ s) ++ es) (commit_index_ s).
Proof.
  assert (Hb : b_hard_state b0 = (if current_term (hard_state_ s) <? ae_term m then Some h else None)
               /\ b_truncate_from b0 = None /\ b_commit_index b0 = None).
  { unfold b0. by case_match. }
  destruct Hb as (Hh & Ht & Hc). unfold apply_batch. simpl. rewrite Hh, Ht, Hc. f_equal.
  - unfold h, observed_hs. by case_match.
  - destruct (N.leb_spec r (llen (log_ s))); [done|].
    rewrite (take_ge (log_ s)); [done|]. unfold llen in *. lia.
Qed.

Lemma process_append_refines p :
  (current_term (hard_state_ s) < ae_term m -> vs = ∅) -> ae_prev_log_index m <= u64_max ->
  wps (process_append from m b0) (refines soup s) (put_soft p (following h vs s)).
Proof.
  intros He Hpm. unfold process_append. wexec.
  destruct (entries_valid _ m) eqn:Hval; simpl; [|by apply append_reject_refines].
  apply entries_valid_wf in Hval as [Hwf Hend]; [|done].
  change (last_log_index (put_soft p (following h vs s))) with (llen (log_ s)).
  destruct (N.ltb_spec (llen (log_ s)) (ae_prev_log_index m)) as [|Hprev];
    [by apply append_reject_refines|].
  change (term_at (put_soft p (following h vs s)) (ae_prev_log_index m))
    with (log_term_at (log_ s) (ae_prev_log_index m)).
  destruct (N.eqb_spec (log_term_at (log_ s) (ae_prev_log_index m)) (ae_prev_log_term m)) as [Hpt|];
    [|by apply append_reject_refines].
  pose proof (ok_base _ Hok) as Hb.
  destruct (splice_matching (log_ s) (N.to_nat (ae_prev_log_index m)) (ae_term m) (ae_entries m))
    as [Hk HL]; [by rewrite N2Nat.id|unfold llen in *; lia|].
  set (k := matching_prefix (log_ s) (ae_entries m)) in *.
  destruct (drop k (ae_entries m)) as [|e es] eqn:Hdrop.
  - apply (finish_append_refines (log_ s) _ (eq_sym HL) Hprev Hpt Hwf eq_refl); [apply Hb|done| |].
    + pose proof (b0_apply [] (llen (log_ s) + 1)) as Hb0.
      destruct (N.leb_spec (llen (log_ s) + 1) (llen (log_ s))); [lia|].
      rewrite app_nil_r, take_ge in Hb0 by (unfold llen; lia).
      rewrite <- Hb0. unfold b0. by case_match.
    + unfold b0. by case_match.
  - assert (Hlk : ae_entries m !! k = Some e) by by rewrite <- (Nat.add_0_r k), <- lookup_drop, Hdrop.
    destruct (Hwf _ _ Hlk) as [Hi _].
    assert (Hpos : (N.to_nat (ae_prev_log_index m) + k = N.to_nat (index e - 1))%nat) by lia.
    rewrite Hpos in HL. simpl.
    destruct (N.leb_spec (index e) (commit_index_ s)) as [|Hci].
    { apply refines_fail; [|done]. apply base_ok_soft, following_base. }
    apply wps_adopt. intros p'. simpl.
    apply (finish_append_refines (take (N.to_nat (index e - 1)) (log_ s) ++ e :: es) _
      (eq_sym HL) Hprev Hpt Hwf eq_refl).
    + unfold llen in *. rewrite length_app, length_take, <- Hdrop, length_drop.
      apply lookup_lt_Some in Hlk. lia.
    + rewrite take_app_le by (rewrite length_take; lia). rewrite take_take. f_equal. lia.
    + apply b0_apply.
    + unfold b0. by case_match.
Qed.

End append.

Lemma on_append_entries_refines {soup} from m s :
  node_ok s -> pending_storage_ s = None -> role_ s <> unavailable ->
  soup (mkMessageEnvelope from (node_id (config_ s)) (MAppendEntries m)) ->
  from <> node_id (config_ s) -> ae_term m <= u64_max -> ae_prev_log_index m <= u64_max ->
  wps (on_append_entries from m) (refines soup s) s.
Proof.
  intros Hok Hp Hr Hin Hfrom Hm Hpm. unfold on_append_entries. wexec.
  destruct (N.eqb_spec (ae_leader_id m) from) as [Hc|];
    [|rewrite orb_true_r; by apply refines_quiet; [apply quiet_skip|]].
  rewrite orb_false_r. case_match; [by apply refines_quiet; [apply quiet_skip|]|].
  destruct (N.ltb_spec (ae_term m) (current_term (hard_state_ s))) as [|Hge].
  { apply refines_send; [done|]. apply v_deny; [done|by simpl; rewrite Hp|done]. }
  pose proof (process_append_refines (soup:=soup) from m s Hok Hp Hr Hin Hfrom Hc Hge Hm) as Hproc.
  destruct (N.ltb_spec (current_term (hard_state_ s)) (ae_term m)) as [Hlt|Hle].
  - apply wps_step_down. intros p. wexec. rewrite stepped_following.
    apply (Hproc ∅); auto.
  - assert (Hh : observed_hs (ae_term m) s = hard_state_ s).
    { unfold observed_hs. destruct (N.ltb_spec (current_term (hard_state_ s)) (ae_term m)); [lia|done]. }
    destruct (bool_decide_reflect (role_ s = follower)) as [Hf|]; simpl.
    + wexec. pose proof (follower_following s (ok_live _ Hok Hr) Hf) as Hs.
      specialize (Hproc (votes_received_ s)). rewrite Hh, Hs in Hproc.
      refine (Hproc _ (soft_of (set_leader_hint (Some from) s)) _ _); [by right|lia|done].
    + apply wps_step_down. intros p. rewrite stepped_following. apply (Hproc ∅); [by left|lia|done].
Qed.
