(* ===== verification/RaftStep.v ===== *)
(** * RaftStep: refinement of [RaftNode::step]

    The remaining handlers, the deferral loop, and the theorems about the whole
    call: it never throws, it keeps the invariant, and it is a sequence of
    protocol actions. *)

From S2P Require Import Prelude Model StateMachine RaftTypes Raft RaftSpec RaftRefine RaftReplicate RaftElection RaftAppend.

Section handlers.
Context {soup : MessageEnvelope -> Prop}.
Implicit Types (s : RaftNode).

(** Progress bookkeeping that leaves the match indexes alone is not a step. *)
Lemma progress_refines s peer pr pr' :
  node_ok s -> peers_ s !! peer = Some pr -> match_index pr' = match_index pr ->
  refines soup s tt (set_peers (<[peer := pr']> (peers_ s)) s) [].
Proof.
  intros Hok Hpr Hm. split_and!; [|done| |by left].
  - by apply (set_peers_ok s peer pr pr' (next_rpc_id_ s)).
  - unfold view at 2. simpl. rewrite (match_insert_same _ _ pr) by done. constructor.
Qed.

Lemma acknowledge_refines s from m pr pr' :
  node_ok s -> pending_storage_ s = None -> role_ s = leader ->
  soup (mkMessageEnvelope from (node_id (config_ s)) (MAppendEntriesResponse m)) ->
  aer_success m = true -> aer_term m = current_term (hard_state_ s) ->
  peers_ s !! from = Some pr -> match_index pr <= match_index pr' ->
  match_index pr' <= N.max (match_index pr) (aer_match_index m) ->
  refines soup s tt (set_peers (<[from := pr']> (peers_ s)) s) [].
Proof.
  intros Hok Hp Hr Hin Hs Ht Hpr Hle Hge. split_and!; [|done| |by left].
  - by apply (set_peers_ok s from pr pr' (next_rpc_id_ s)).
  - unfold view at 2. simpl. rewrite fmap_insert. apply vsteps_one.
    apply (v_acknowledge soup (view s) from m (match_index pr)); simpl; try done.
    + by rewrite Hp.
    + by rewrite lookup_fmap, Hpr.
Qed.

(** A computation after a change of the progress map. *)
Lemma refines_after (m : M unit) s s1 p :
  refines soup s tt s1 [] -> (node_ok s1 -> wps m (refines soup s1) (put_soft p s1)) ->
  wps m (refines soup s) (put_soft p s1).
Proof. intros H Hm. eapply refines_trans; [exact H|]. apply Hm, H. Qed.

Lemma on_append_entries_response_refines from m s :
  node_ok s -> pending_storage_ s = None -> role_ s <> unavailable ->
  soup (mkMessageEnvelope from (node_id (config_ s)) (MAppendEntriesResponse m)) ->
  aer_term m <= u64_max ->
  wps (on_append_entries_response from m) (refines soup s) s.
Proof.
  intros Hok Hp Hr Hin Hm. unfold on_append_entries_response. wexec.
  destruct (N.ltb_spec (current_term (hard_state_ s)) (aer_term m)) as [Hlt|Hle].
  { by apply observe_refines. }
  assert (Hskip : wps skip (refines soup s) s) by by apply refines_quiet; [apply quiet_skip|].
  destruct (bool_decide_reflect (role_ s = leader)) as [Hl|]; [|done].
  destruct (N.eqb_spec (aer_term m) (current_term (hard_state_ s))) as [Ht|]; [|done]. simpl.
  destruct (peers_ s !! from) as [pr|] eqn:Hpr; [|done].
  destruct (inflight pr) as [sent|]; [|done].
  destruct (negb _); [done|]. wexec.
  destruct (aer_success m) eqn:Hs.
  - destruct (N.ltb_spec (aer_match_index m) (if_last_index sent)) as [|Hge]; simpl; wexec.
    { by apply (progress_refines s from pr). }
    match goal with |- wps _ _ ?st => set (s2 := st) end.
    assert (Hack : refines soup s tt s2 []).
    { eapply (acknowledge_refines s from m pr); try done; simpl; lia. }
    eapply refines_trans; [exact Hack|].
    eapply refines_seq; [apply maybe_advance_commit_refines, Hack|apply refines_self, Hack|].
    intros s' Hok' _. wexec. unfold when.
    repeat case_match; try (by apply refines_quiet; [apply quiet_skip|]).
    by apply send_append_refines.
  - simpl. wexec. match goal with |- wps _ _ ?st => set (s2 := st) end.
    assert (Hack : refines soup s tt s2 []) by (eapply (progress_refines s from pr); done).
    eapply refines_trans; [exact Hack|]. apply send_append_refines, Hack.
Qed.

(** ** Client requests *)

Lemma run_client_request_refines s : node_ok s -> wps run_client_request (refines soup s) s.
Proof.
  intros Hok. unfold run_client_request. wexec. case_match.
  { by apply refines_quiet; [apply quiet_skip|]. }
  eapply refines_seq; [by apply send_all_appends_refines|by apply refines_self|].
  intros s' Hok' _. by apply maybe_advance_commit_refines.
Qed.

Lemma append_client_refines token cmd digest s :
  node_ok s -> pending_storage_ s = None -> role_ s = leader ->
  wps (append_client token cmd digest) (refines soup s) s.
Proof.
  intros Hok Hp Hr. unfold append_client. wexec.
  change (last_log_index s) with (llen (log_ s)).
  destruct (N.eqb_spec (llen (log_ s)) u64_max) as [_|Hmax]; wexec.
  { by apply (refines_refl s). }
  pose proof (ok_base _ Hok) as Hb. pose proof (ok_live _ Hok ltac:(congruence)) as Hl.
  pose proof (ok_len _ Hb). rewrite add64_small by lia.
  destruct (negb _); wexec; [by apply (refines_refl s)|].
  simpl. apply refines_persist; try done; simpl.
  - congruence.
  - apply base_ok_soft.
    assert (Hb' : base_ok (set_log (log_ s ++ [mkLogEntry (llen (log_ s) + 1)
      (current_term (hard_state_ s)) (Some cmd)]) s)).
    { pose proof (live_term _ Hl ltac:(by right)). apply append_base; simpl; [done|lia|done|lia]. }
    destruct Hb'. by constructor.
  - intros op n. destruct Hl. unfold settled_hs, settled_commit in *. rewrite Hp in *.
    by constructor.
  - intros op n. apply vsteps_one. unfold view at 2. simpl.
    apply (v_propose soup (view s) cmd); simpl; [done|by rewrite Hp|done].
Qed.

Lemma admit_client_refines token cmd digest s :
  node_ok s -> pending_storage_ s = None -> role_ s = leader ->
  wps (admit_client token cmd digest) (refines soup s) s.
Proof.
  intros Hok Hp Hr. unfold admit_client. wexec.
  repeat case_match; try by apply refines_quiet; [solve [auto with quiet]|].
  - wexec. match goal with |- wps _ _ ?st => apply (refines_trans _ s st) end.
    + by apply (refines_refl s (soft_of (set_pending_sessions _ s))).
    + apply append_client_refines; try done. by apply (node_ok_soft (soft_of (set_pending_sessions _ s)) s).
  - by apply append_client_refines.
Qed.

Lemma on_client_request_refines token cmd s :
  node_ok s -> pending_storage_ s = None ->
  wps (on_client_request token cmd) (refines soup s) s.
Proof.
  intros Hok Hp. unfold on_client_request. wexec.
  assert (Hrep : forall st v i, wps (emit_reply token st v i) (refines soup s) s).
  { intros. by apply refines_quiet; [auto with quiet|]. }
  destruct (bool_decide _); [done|].
  destruct (bool_decide_reflect (role_ s = leader)) as [Hr|]; simpl; [|done].
  destruct (negb (leader_ready_ s)); [done|]. destruct (negb _); [done|].
  repeat case_match; try done; by apply admit_client_refines.
Qed.

(** ** Timers and messages *)

Lemma age_inflight_refines s :
  node_ok s -> refines soup s tt (set_peers (age_inflight (config_ s) <$> peers_ s) s) [].
Proof.
  intros Hok. split_and!; [|done| |by left].
  - constructor; [by destruct (ok_base _ Hok)|by destruct Hok|]. intros Hu.
    destruct (ok_live _ Hok Hu). constructor; try done. simpl. intros x Hx. apply live_peers.
    by rewrite lookup_fmap, fmap_is_Some in Hx.
  - unfold view at 2. simpl. rewrite <- map_fmap_compose.
    rewrite (map_fmap_ext (match_index ∘ age_inflight (config_ s)) match_index); [constructor|].
    intros i x _. simpl. unfold age_inflight. by repeat case_match.
Qed.

Lemma on_timer_refines k g s :
  node_ok s -> pending_storage_ s = None -> role_ s <> unavailable ->
  wps (on_timer k g) (refines soup s) s.
Proof.
  intros Hok Hp Hr. unfold on_timer. wexec.
  assert (Hskip : wps skip (refines soup s) s) by by apply refines_quiet; [apply quiet_skip|].
  destruct k.
  - destruct (negb _); [done|]. destruct (role_ s) eqn:Hrole; simpl; try done;
      apply begin_election_refines; auto.
  - destruct (negb _); [done|]. destruct (negb _); [done|]. simpl. wexec.
    pose proof (age_inflight_refines s Hok) as Hage. eapply refines_trans; [exact Hage|].
    eapply refines_seq; [apply send_all_appends_refines, Hage|apply refines_self, Hage|].
    intros s' Hok' _. by apply refines_quiet; [auto with quiet|].
Qed.

End handlers.

(** ** Well-formed inputs

    Message fields are 64-bit on the wire; [event_ok soup] says so of the fields
    the handlers compute with, and that the message was really received. *)
Definition message_wf (m : Message) : Prop :=
  match m with
  | MRequestVote m => rv_term m <= u64_max
  | MRequestVoteResponse m => rvr_term m <= u64_max
  | MAppendEntries m => ae_term m <= u64_max /\ ae_prev_log_index m <= u64_max
  | MAppendEntriesResponse m => aer_term m <= u64_max
  end.

Definition event_ok (soup : MessageEnvelope -> Prop) (ev : RaftEvent) : Prop :=
  match ev with
  | MessageReceived env => soup env /\ message_wf (env_message env)
  | _ => True
  end.

Section completion.
Context {soup : MessageEnvelope -> Prop}.
Implicit Types (s : RaftNode).

Lemma on_message_refines env s :
  node_ok s -> pending_storage_ s = None -> role_ s <> unavailable ->
  event_ok soup (MessageReceived env) -> wps (on_message env) (refines soup s) s.
Proof.
  intros Hok Hp Hr [Hin Hwf]. unfold on_message. wexec.
  assert (Hskip : wps skip (refines soup s) s) by by apply refines_quiet; [apply quiet_skip|].
  destruct env as [from to m]. simpl in *.
  destruct (N.eqb_spec to (node_id (config_ s))) as [->|]; [|done].
  destruct (N.eqb_spec from (node_id (config_ s))) as [|Hfrom]; [done|].
  destruct (is_member s from) eqn:Hmem; [|done]. apply bool_decide_eq_true in Hmem. simpl. wexec.
  apply (refines_trans _ s (put_soft p s)); [by apply refines_refl|].
  destruct m; simpl in Hwf; [apply on_request_vote_refines|apply on_request_vote_response_refines
    |destruct Hwf; apply on_append_entries_refines|apply on_append_entries_response_refines];
    try done; by apply node_ok_soft.
Qed.

(** Dispatch of an event to a node without a pending operation. *)
Lemma dispatch_refines ev s :
  node_ok s -> pending_storage_ s = None ->
  role_ s <> unavailable \/ is_storage_complete ev = true ->
  event_ok soup ev -> wps (dispatch ev) (refines soup s) s.
Proof.
  intros Hok Hp Hr Hev. destruct ev as [k g|env|op ok err|token cmd]; simpl in Hr.
  - apply on_timer_refines; by destruct Hr.
  - apply on_message_refines; by destruct Hr.
  - simpl. unfold on_storage_complete. wexec. rewrite Hp. by apply refines_quiet; [auto with quiet|].
  - by apply on_client_request_refines.
Qed.

(** ** Completion of the pending batch *)

(** The node once the pending batch is marked durable. *)
Definition settled (p : PendingStorage) (s : RaftNode) : RaftNode :=
  mark_durable (ps_batch p) (set_pending_storage None s).

Lemma settled_fields p s :
  config_ (settled p s) = config_ s /\ deferred_events_ (settled p s) = deferred_events_ s /\
  pending_storage_ (settled p s) = None /\ role_ (settled p s) = role_ s /\
  view (settled p s) =
    mkView (node_id (config_ s)) (members (config_ s)) (role_ s) (hard_state_ s) (log_ s)
      (commit_index_ s) (votes_received_ s) (match_index <$> peers_ s) None.
Proof. unfold settled, mark_durable. destruct p as [? [hs ? ? c] ?]. simpl.
  by destruct hs, c, (_ || _). Qed.

Lemma settled_ok p s :
  node_ok s -> role_ s <> unavailable -> pending_storage_ s = Some p -> node_ok (settled p s).
Proof.
  intros Hok Hr Hp. pose proof (ok_base _ Hok) as Hb. destruct (ok_live _ Hok Hr).
  unfold settled_last, settled_hs, settled_commit in *. rewrite Hp in *.
  unfold settled, mark_durable. destruct p as [op [hs tr es c] k]. simpl in *.
  destruct hs, c, (_ || _); simpl in *;
    (constructor; [destruct Hb; by constructor|done|intros _]); constructor; simpl; try done.
Qed.

(** What the completion of the pending batch [k] does from the settled node. *)
Definition completes (k : AfterSuccess) (s : RaftNode)
  : unit -> RaftNode -> list MessageEnvelope -> Prop :=
  fun _ s' ms => exists ms2,
    ms = released (node_id (config_ s)) (current_term (hard_state_ s)) k ++ ms2 /\
    refines soup s tt s' ms2.

Lemma run_append_accept_completes from rpc matched apply s :
  node_ok s -> pending_storage_ s = None ->
  wps (run_append_accept from rpc matched apply)
    (completes (after_append_accept from rpc matched apply) s) s.
Proof.
  intros Hok Hp. unfold run_append_accept.
  assert (Hsend : forall s', applied_from s s' -> refines soup s tt s' [] ->
    wps (schedule_election ;; s ← this; send_message from
      (MAppendEntriesResponse (mkAppendEntriesResponse (current_term (hard_state_ s)) rpc true
         matched 0 0))) (completes (after_append_accept from rpc matched apply) s) s').
  { intros s' (n & sm & q & ->) (Hok' & Hc & Hv & Hd). wexec. exists []. simpl. split; [done|].
    split_and!; [exact (node_ok_soft _ _ Hok')|done|done|done]. }
  destruct apply; unfold when at 1.
  - wexec. eapply wps_mono;
      [apply (apply_committed_refines (soup:=soup)); by apply node_ok_soft|].
    simpl. intros [] s' ms (Href & (n & sm & q & ->) & _ & ->). apply Hsend; [|done].
    by exists n, sm, q.
  - wexec. exists []. split; [done|]. by apply (refines_refl s).
Qed.

Lemma run_after_completes k s :
  node_ok s -> pending_storage_ s = None ->
  wps (run_after k) (completes k s) s.
Proof.
  intros Hok Hp.
  assert (Hplain : released (node_id (config_ s)) (current_term (hard_state_ s)) k = [] ->
    forall m, wps m (refines soup s) s -> wps m (completes k s) s).
  { intros Hrel m Hm. eapply wps_mono; [exact Hm|]. intros [] s' ms Href. exists ms.
    by rewrite Hrel. }
  destruct k; simpl.
  - by apply Hplain, run_begin_election_refines.
  - unfold run_vote_reply. wexec. exists []. split; [done|]. by apply (refines_refl s).
  - apply Hplain; [done|]. by apply refines_quiet; [apply quiet_schedule_election|].
  - by apply Hplain, run_become_leader_refines.
  - unfold run_append_reject. wexec. exists []. split; [done|]. by apply (refines_refl s).
  - by apply run_append_accept_completes.
  - by apply Hplain, run_client_request_refines.
  - by apply Hplain, run_advance_commit_refines.
Qed.

End completion.

(** ** The whole call *)

(** The invariant of a node between calls of [step]: besides [node_ok], the
    deferred events are bounded, were really received, and wait only while a
    storage operation is pending. *)
Record node_inv (soup : MessageEnvelope -> Prop) (s : RaftNode) : Prop := {
  inv_ok : node_ok s;
  inv_deferred : Forall (event_ok soup) (deferred_events_ s);
  inv_bound : N.of_nat (length (deferred_events_ s)) <= max_deferred_events (config_ s);
  inv_waiting : deferred_events_ s <> [] -> pending_storage_ s <> None;
}.

(** Whether the event completes the pending batch successfully. *)
Definition completed (ev : RaftEvent) (s : RaftNode) : bool :=
  match ev, pending_storage_ s with
  | StorageComplete op success _, Some p => success && (ps_op_id p =? op)
  | _, _ => false
  end.

(** What one call does to the view. *)
Definition vcall (soup : MessageEnvelope -> Prop) (ev : RaftEvent) (s : RaftNode)
    (ms : list MessageEnvelope) (v' : View) : Prop :=
  if completed ev s then
    exists ms1 v1 ms2, vcomplete (view s) ms1 v1 /\ vsteps soup v1 ms2 v' /\ ms = ms1 ++ ms2
  else vsteps soup (view s) ms v'.

Section step.
Context {soup : MessageEnvelope -> Prop}.
Implicit Types (s : RaftNode).

Lemma node_inv_soft p s : node_inv soup s -> node_inv soup (put_soft p s).
Proof. intros []. constructor; try done. by apply node_ok_soft. Qed.

Lemma set_deferred_ok evs s :
  node_ok s -> role_ s <> unavailable -> node_ok (set_deferred_events evs s).
Proof.
  intros [Hb Hf Hl] Hr. constructor; [by destruct Hb|done|].
  intros _. destruct (Hl Hr). by constructor.
Qed.

Lemma deferred_shrink s s' (P : RaftEvent -> Prop) :
  deferred_events_ s' = deferred_events_ s \/ deferred_events_ s' = [] ->
  Forall P (deferred_events_ s) -> config_ s' = config_ s ->
  N.of_nat (length (deferred_events_ s)) <= max_deferred_events (config_ s) ->
  Forall P (deferred_events_ s') /\
  N.of_nat (length (deferred_events_ s')) <= max_deferred_events (config_ s') /\
  (length (deferred_events_ s') <= length (deferred_events_ s))%nat.
Proof.
  intros [Hd|Hd] HP Hc Hb; rewrite Hd, Hc; simpl; [done|].
  split_and!; [done|lia|lia].
Qed.

(** The loop over the deferred events: it stops because none is left or a batch
    is pending, never because the iterations ran out. *)
Lemma drain_refines n s :
  node_ok s -> Forall (event_ok soup) (deferred_events_ s) ->
  N.of_nat (length (deferred_events_ s)) <= max_deferred_events (config_ s) ->
  (length (deferred_events_ s) <= n)%nat ->
  wps (drain n) (fun _ s' ms => node_inv soup s' /\ config_ s' = config_ s /\
                                vsteps soup (view s) ms (view s')) s.
Proof.
  revert s. induction n as [|n IH]; intros s Hok Hev Hb Hn; simpl.
  { destruct (deferred_events_ s) eqn:Hd; [|simpl in *; lia]. wexec.
    split_and!; [constructor; try done; by rewrite ?Hd|done|constructor]. }
  wexec. destruct (pending_storage_ s) eqn:Hp; simpl.
  { wexec. split_and!; [constructor; try done; by rewrite Hp|done|constructor]. }
  destruct (bool_decide_reflect (role_ s = unavailable)) as [Hr|Hr]; simpl.
  { destruct (ok_failed _ Hok Hr) as [_ Hd]. wexec.
    split_and!; [constructor; try done; by rewrite Hd|done|constructor]. }
  destruct (deferred_events_ s) as [|ev rest] eqn:Hd.
  { wexec. split_and!; [constructor; try done; by rewrite ?Hd|done|constructor]. }
  simpl in *. wexec. inversion Hev as [|? ? Hev1 Hev2]; subst.
  apply wps_bind. eapply wps_mono.
  - apply (dispatch_refines (soup:=soup) ev (set_deferred_events rest s)); simpl; auto.
    by apply set_deferred_ok.
  - intros [] s' ms (Hok' & Hc & Hv & Hdd).
    destruct (deferred_shrink _ _ _ Hdd Hev2 Hc) as (H1 & H2 & H3); [simpl; lia|]. simpl in H3.
    eapply wps_mono; [apply IH; [done..|lia]|].
    intros [] s'' ms' (Hinv & Hc' & Hv'). split_and!; [done|by rewrite Hc', Hc|].
    by apply (vsteps_trans _ _ _ _ _ Hv).
Qed.

Lemma defer_refines ev s :
  node_inv soup s -> pending_storage_ s <> None -> event_ok soup ev ->
  wps (defer ev) (fun _ s' ms => node_inv soup s' /\ config_ s' = config_ s /\
                                 vsteps soup (view s) ms (view s')) s.
Proof.
  intros [Hok Hd Hb Hw] Hp Hev.
  assert (Hq : forall m, quiet m -> wps m (fun _ s' ms => node_inv soup s' /\
    config_ s' = config_ s /\ vsteps soup (view s) ms (view s')) s).
  { intros m Hm. apply wps_end; [done|]. intros p.
    split_and!; [constructor; try done; by apply node_ok_soft|done|constructor]. }
  assert (Henq : N.of_nat (length (deferred_events_ s)) < max_deferred_events (config_ s) ->
    wps (modify (set_deferred_events (deferred_events_ s ++ [ev])))
    (fun _ s' ms => node_inv soup s' /\ config_ s' = config_ s /\ vsteps soup (view s) ms (view s')) s).
  { intros Hlt. wexec. split_and!; [|done|constructor]. constructor; simpl; try done.
    - apply set_deferred_ok; [done|]. intros Hr. by destruct (ok_failed _ Hok Hr).
    - apply Forall_app. by repeat constructor.
    - rewrite length_app. simpl. lia. }
  unfold defer. wexec.
  repeat (case_match; try by apply Hq; solve_quiet).
  all: apply Henq; by apply N.leb_gt.
Qed.

Lemma completed_true ev s :
  completed ev s = true -> exists p err,
    pending_storage_ s = Some p /\ ev = StorageComplete (ps_op_id p) true err.
Proof.
  unfold completed. destruct ev as [| |op ok err|]; try done.
  destruct (pending_storage_ s) as [p|]; [|done].
  intros [-> <-%N.eqb_eq]%andb_true_iff. eauto.
Qed.

(** The two ways [dispatch] goes. *)
Lemma dispatch_storage_refines op err s p :
  node_ok s -> pending_storage_ s = Some p -> op = ps_op_id p ->
  wps (dispatch (StorageComplete op true err)) (completes (soup:=soup) (ps_after_success p) (settled p s)) s.
Proof.
  intros Hok Hp ->. simpl. unfold on_storage_complete. wexec. rewrite Hp, N.eqb_refl. simpl. wexec.
  assert (Hr : role_ s <> unavailable).
  { intros Hr. destruct (ok_failed _ Hok Hr). congruence. }
  eapply wps_mono; [apply (run_after_completes (soup:=soup))|].
  - by apply node_ok_soft, settled_ok.
  - by destruct (settled_fields p s) as (_ & _ & ? & _).
  - intros [] s' ms (ms2 & -> & Href). by exists ms2.
Qed.

Lemma dispatch_other_refines ev s :
  node_ok s -> (is_storage_complete ev = false -> pending_storage_ s = None /\ role_ s <> unavailable) ->
  completed ev s = false -> event_ok soup ev -> wps (dispatch ev) (refines soup s) s.
Proof.
  intros Hok Hside Hc Hev. destruct (is_storage_complete ev) eqn:Hs.
  2: { destruct Hside; [done|]. apply dispatch_refines; auto. }
  destruct ev as [| |op ok err|]; try done. simpl in *. unfold on_storage_complete. wexec.
  unfold completed in Hc.
  destruct (pending_storage_ s) as [p|] eqn:Hp; [|by apply refines_quiet; [auto with quiet|]].
  destruct (N.eqb_spec (ps_op_id p) op) as [He|]; simpl;
    [|by apply refines_quiet; [auto with quiet|]].
  rewrite andb_true_r in Hc. subst ok. wexec. apply refines_fail; [|done].
  destruct (ok_base _ Hok). by constructor.
Qed.

Lemma step_refines ev s :
  node_inv soup s -> event_ok soup ev ->
  wps (step ev) (fun _ s' ms => node_inv soup s' /\ config_ s' = config_ s /\
                                vcall soup ev s ms (view s')) s.
Proof.
  intros Hinv Hev. destruct Hinv as [Hok Hd Hb Hw] eqn:E. clear E. unfold step, vcall. wexec.
  destruct (completed ev s) eqn:Hc.
  - destruct (completed_true _ _ Hc) as (p & err & Hp & ->).
    rewrite Hp, !andb_false_r. simpl andb.
    destruct (settled_fields p s) as (Hfc & Hfd & Hfp & Hfr & Hfv).
    apply wps_bind. eapply wps_mono; [by apply dispatch_storage_refines|].
    intros [] s' ms (ms2 & -> & (Hok' & Hc' & Hv' & Hd')). rewrite Hfc in Hc'.
    rewrite Hfd in Hd'. destruct (deferred_shrink _ _ _ Hd' Hd Hc' Hb) as (H1 & H2 & _).
    wexec. eapply wps_mono; [apply drain_refines; done|].
    intros [] s'' ms' (Hinv' & Hc'' & Hv''). split_and!; [done|congruence|].
    eexists _, _, (ms2 ++ ms'). split_and!; [|by eapply vsteps_trans|].
    + rewrite Hfv. apply (v_complete (view s) (ps_batch p) (ps_after_success p)).
      * intros Hr. destruct (ok_failed _ Hok Hr). congruence.
      * simpl. by rewrite Hp.
    + rewrite Hfc. rewrite <- app_assoc. f_equal. f_equal.
      apply (f_equal v_hs) in Hfv. simpl in Hfv. by rewrite Hfv.
  - destruct (is_storage_complete ev) eqn:Hs; simpl; rewrite ?andb_false_r, ?andb_true_r.
    2: destruct (pending_storage_ s) eqn:Hp; simpl; [by apply defer_refines; rewrite ?Hp|].
    2: destruct (bool_decide_reflect (role_ s = unavailable)) as [Hr|Hr]; simpl.
    2: { case_match; wexec; (split_and!; [|done|apply vsteps_refl]);
         first [done|by apply node_inv_soft]. }
    all: apply wps_bind; eapply wps_mono; [apply dispatch_other_refines; [done| |done|done]|];
      [by rewrite ?Hs|].
    all: intros [] s' ms (Hok' & Hc' & Hv' & Hd');
      destruct (deferred_shrink _ _ _ Hd' Hd Hc' Hb) as (H1 & H2 & _);
      wexec; (eapply wps_mono; [apply drain_refines; done|]);
      intros [] s'' ms' (Hinv' & Hc'' & Hv''); split_and!;
      [done|congruence|by eapply vsteps_trans].
Qed.

End step.

(** ** Construction of a node from its recovered state *)

(** Sorting and [std::adjacent_find] decide uniqueness. *)
Lemma adjacent_equal_NoDup ms :
  Sorted N.le ms -> adjacent_equal ms = false -> NoDup ms.
Proof.
  intros Hs%Sorted_StronglySorted; [|intros ???; lia].
  induction Hs as [|x ms Hs IH Hx]; intros Ha; [constructor|].
  assert (Ha' : adjacent_equal ms = false).
  { destruct ms as [|y ms]; [done|]. by apply orb_false_iff in Ha as [_ ?]. }
  constructor; [|by apply IH]. intros Hin.
  destruct ms as [|y ms]; [by apply not_elem_of_nil in Hin|].
  apply orb_false_iff in Ha as [Hne%N.eqb_neq _].
  assert (Hxy : x <= y) by by inversion Hx.
  apply elem_of_cons in Hin as [|Hin]; [lia|].
  inversion Hs as [|? ? _ Hy]; subst.
  rewrite Forall_forall in Hy. apply Hy in Hin. lia.
Qed.

Lemma sort_members_nodup ms :
  adjacent_equal (sort_members ms) = false -> NoDup (sort_members ms).
Proof.
  apply adjacent_equal_NoDup. unfold sort_members. apply Sorted_merge_sort. intros ??; lia.
Qed.

Lemma recovered_log_ok_wf cfg t offset log :
  offset + llen log <= u64_max -> recovered_log_ok cfg t offset log = true ->
  entries_wf offset t log.
Proof.
  unfold entries_wf, llen. revert offset.
  induction log as [|e log IH]; intros offset Hl H; simpl in *; [done|].
  case_match eqn:Hbad; [done|].
  rewrite !orb_false_iff, negb_false_iff, N.eqb_eq, N.eqb_neq, N.ltb_ge in Hbad.
  destruct Hbad as [[[[Hi Ht0] Ht] _] _]. rewrite add64_small in Hi by lia.
  intros [|i] e' He'; simpl in He'; simplify_eq; [lia|].
  apply (IH (offset + 1)) in He'; [lia|lia|done].
Qed.

(** The disk image a node can be built from. *)
Record recoverable (cfg : RaftConfig) (r : RecoveredState) : Prop := {
  rec_term : current_term (rec_hard_state r) <= u64_max;
  rec_bytes : max_append_bytes_per_rpc cfg <= u64_max;
}.

Section recovery.
Context (config : RaftConfig) (r : RecoveredState) (s : RaftNode).
Context (Hnew : RaftNode_new config r = Returns s).
Context (Hrec : recoverable config r).

Lemma new_state :
  s = mkRaftNode (with_members config (sort_members (members config))) follower (rec_hard_state r)
        (rec_hard_state r) (rec_log r) (llen (rec_log r)) (rec_commit_index r)
        (rec_commit_index r) (rec_commit_index r)
        (replay empty_kv (log_commands (take (N.to_nat (rec_commit_index r)) (rec_log r))))
        None false 0 ∅ ∅ ∅ ∅ None [] 1 1 0 0 false.
Proof using Hnew. unfold RaftNode_new in Hnew. repeat case_match; by simplify_eq. Qed.

Lemma new_cfg_ok : cfg_ok (config_ s).
Proof.
  rewrite new_state. unfold RaftNode_new in Hnew. simpl in *.
  case_match eqn:Hm; [done|]. repeat (case_match; [done|]).
  rewrite !orb_false_iff, negb_false_iff in Hm. destruct Hm as [[Hcount Hadj] Hself].
  apply bool_decide_eq_true in Hself.
  match goal with H : negb (config_bounds_ok _) = false |- _ => apply negb_false_iff in H as Hbnd end.
  unfold config_bounds_ok in Hbnd. apply negb_true_iff in Hbnd. simpl in Hbnd.
  rewrite !orb_false_iff in Hbnd. destruct Hrec.
  constructor; simpl; [by apply sort_members_nodup|done| | |].
  - apply andb_false_iff in Hcount as [Hn|Hn]; apply negb_false_iff, Nat.eqb_eq in Hn; auto.
  - destruct_and?. repeat match goal with H : (_ <=? _) = false |- _ => apply N.leb_gt in H end. lia.
  - destruct_and?. repeat match goal with H : (_ =? _) = false |- _ => apply N.eqb_neq in H end. lia.
Qed.

Lemma new_log_ok :
  entries_wf 0 (current_term (rec_hard_state r)) (rec_log r) /\ llen (rec_log r) <= u64_max /\
  rec_commit_index r <= llen (rec_log r).
Proof using Hnew.
  unfold RaftNode_new in Hnew. do 3 (case_match; [done|]). case_match eqn:Hlen; [done|].
  case_match; [done|]. case_match eqn:Hlog; [done|]. case_match eqn:Hc; [done|].
  apply N.ltb_ge in Hlen, Hc. apply negb_false_iff in Hlog. fold (llen (rec_log r)) in *.
  split_and!; [|done|done]. by eapply recovered_log_ok_wf; [|exact Hlog]; lia.
Qed.

Lemma new_node_inv soup : node_inv soup s.
Proof.
  destruct new_log_ok as (Hwf & Hlen & Hc). pose proof new_cfg_ok as Hcfg. destruct Hrec.
  rewrite new_state in *. constructor; simpl; try done; [|lia].
  constructor; [|done|].
  - constructor; simpl; try done.
    + intros i e He. apply Hwf in He as [-> _]. lia.
    + apply Forall_lookup. intros i e He. by apply Hwf in He as [_ ?].
  - intros _. constructor; simpl; try done; try by intros [?|?].
    intros x [? Hx]. by rewrite lookup_empty in Hx.
Qed.

Lemma new_view :
  view s = mkView (node_id config) (sort_members (members config)) follower (rec_hard_state r)
             (rec_log r) (rec_commit_index r) ∅ ∅ None.
Proof using Hnew. rewrite new_state. unfold view. simpl. by rewrite fmap_empty. Qed.

End recovery.

(** [start] schedules the first election timer and nothing else. *)
Lemma start_refines soup s : node_ok s -> wps start (refines soup s) s.
Proof.
  intros Hok. unfold start. wexec. case_match; wexec.
  - by apply refines_self.
  - match goal with |- refines _ _ _ ?st _ => by apply (refines_refl s (soft_of st)) end.
Qed.
