(* ===== verification/System.v ===== *)
(** * System: a cluster of abstract nodes

    The nodes of a cluster, each with its volatile [View] and its disk, and the
    set of all protocol messages ever sent.  The network may lose, duplicate,
    reorder and delay messages; a disk write happens between the step that
    requested it and its completion; a node may crash and restart from its disk
    at any time.  The invariant behind the safety theorems is stated here, over
    ghost history (elections, votes, acknowledgements, commits) that no node
    reads. *)

From S2P Require Import Prelude Model StateMachine RaftTypes Raft RaftSpec RaftRefine RaftReplicate RaftElection RaftAppend.

(** ** Logs that agree up to an index *)

Definition agree (m : LogIndex) (l1 l2 : list LogEntry) : Prop :=
  m <= llen l1 /\ m <= llen l2 /\ take (N.to_nat m) l1 = take (N.to_nat m) l2.

Section agree.
Implicit Types (l : list LogEntry) (m i : N).

Lemma agree_refl m l : m <= llen l -> agree m l l.
Proof. done. Qed.

Lemma agree_sym m l1 l2 : agree m l1 l2 -> agree m l2 l1.
Proof. by intros (? & ? & ?). Qed.

Lemma agree_trans m l1 l2 l3 : agree m l1 l2 -> agree m l2 l3 -> agree m l1 l3.
Proof. intros (? & ? & ?) (? & ? & ?). split_and!; congruence. Qed.

Lemma agree_le m i l1 l2 : agree m l1 l2 -> i <= m -> agree i l1 l2.
Proof.
  intros (H1 & H2 & H3) Hi. split_and!; [lia|lia|].
  replace (N.to_nat i) with (Nat.min (N.to_nat i) (N.to_nat m)) by lia.
  by rewrite <- !take_take, H3.
Qed.

Lemma agree_zero l1 l2 : agree 0 l1 l2.
Proof. split_and!; [lia|lia|]. by rewrite !take_0. Qed.

Lemma agree_app l1 l2 : agree (llen l1) l1 (l1 ++ l2).
Proof.
  unfold agree, llen. rewrite length_app. split_and!; [lia|lia|].
  rewrite Nat2N.id, take_app_length. by rewrite take_ge.
Qed.

Lemma agree_prefix m l1 l2 l2' : l2 `prefix_of` l2' -> agree m l1 l2 -> agree m l1 l2'.
Proof.
  intros [k ->] H. eapply agree_trans; [exact H|].
  eapply agree_le; [apply agree_app|apply H].
Qed.

Lemma agree_lookup m l1 l2 (i : nat) :
  agree m l1 l2 -> (i < N.to_nat m)%nat -> l1 !! i = l2 !! i.
Proof.
  intros (_ & _ & H) Hi. rewrite <- (lookup_take_full l1 (N.to_nat m)), H by done.
  by apply lookup_take_full.
Qed.

Lemma agree_log_at m l1 l2 i : agree m l1 l2 -> i <= m -> log_at l1 i = log_at l2 i.
Proof.
  intros H Hi. destruct (N.eq_dec i 0) as [->|]; [done|].
  rewrite !log_at_lookup by lia. eapply agree_lookup; [done|lia].
Qed.

Lemma agree_term m l1 l2 i : agree m l1 l2 -> i <= m -> log_term_at l1 i = log_term_at l2 i.
Proof. intros H Hi. unfold log_term_at. by erewrite agree_log_at. Qed.

Lemma take_length_take l (n : nat) : take (length (take n l)) l = take n l.
Proof.
  rewrite length_take. destruct (decide (n <= length l)%nat); [by rewrite Nat.min_l|].
  by rewrite Nat.min_r, !take_ge by lia.
Qed.

(** The follower's new log: either it already held everything, or it is the
    leader's log cut after the last entry of the request. *)
Lemma splice_leader log pos es big n :
  agree (N.of_nat pos) log big -> es = take n (drop pos big) ->
  (splice log pos es = log /\ agree (N.of_nat (pos + length es)) log big) \/
  (splice log pos es = take (pos + length es) big /\
   forall m, agree m log big -> (N.to_nat m < pos + length es)%nat).
Proof.
  revert pos n. induction es as [|e es IH]; intros pos n Ha Hes; simpl.
  { left. split; [done|]. by rewrite Nat.add_0_r. }
  assert (He : big !! pos = Some e).
  { rewrite <- (Nat.add_0_r pos), <- lookup_drop. destruct n as [|n]; [done|].
    destruct (drop pos big); simpl in Hes; by simplify_eq. }
  assert (Hes' : es = take (pred n) (drop (S pos) big)).
  { destruct n as [|n]; [done|]. rewrite (drop_S _ _ _ He) in Hes. simpl in Hes. by simplify_eq. }
  destruct Ha as (H1 & H2 & H3). unfold llen in *.
  case_bool_decide as Hl.
  - assert (Ha' : agree (N.of_nat (S pos)) log big).
    { pose proof (lookup_lt_Some _ _ _ Hl). pose proof (lookup_lt_Some _ _ _ He).
      unfold agree, llen. split_and!; [lia|lia|]. rewrite !Nat2N.id in *.
      by rewrite (take_S_r _ _ _ Hl), (take_S_r _ _ _ He), H3. }
    destruct (IH (S pos) (pred n) Ha' Hes') as [[? Hg]|[-> Hm]].
    + left. split; [done|]. by replace (pos + S (length es))%nat with (S pos + length es)%nat by lia.
    + right. replace (pos + S (length es))%nat with (S pos + length es)%nat by lia. done.
  - right. rewrite !Nat2N.id in H3. split.
    + rewrite H3. rewrite Hes at 1.
      assert (Hlen : length (e :: es) = length (take n (drop pos big))) by by rewrite Hes.
      simpl in Hlen. rewrite <- (take_drop pos big) at 3.
      rewrite take_app_ge by (rewrite length_take; lia).
      rewrite length_take, Nat.min_l by lia. f_equal.
      replace (pos + S (length es) - pos)%nat with (S (length es)) by lia.
      by rewrite Hlen, take_length_take.
    + intros m Hm. destruct (decide (pos < N.to_nat m)%nat) as [Hp|]; [|lia].
      exfalso. apply Hl. rewrite <- He. by eapply agree_lookup.
Qed.

End agree.

(** ** The system *)

Record Sys := mkSys {
  y_view : NodeId -> View;
  y_disk : NodeId -> RecoveredState;
  y_written : NodeId -> bool;
  y_soup : MessageEnvelope -> Prop;
}.

(** [upd f x a]: [f] with the value at [x] replaced. *)
Definition upd {A} (f : NodeId -> A) (x : NodeId) (a : A) : NodeId -> A :=
  fun y => if decide (y = x) then a else f y.

Lemma upd_same {A} (f : NodeId -> A) x a : upd f x a x = a.
Proof. unfold upd. by rewrite decide_True. Qed.
Lemma upd_other {A} (f : NodeId -> A) x a y : y <> x -> upd f x a y = f y.
Proof. intros. unfold upd. by rewrite decide_False. Qed.

(** A node restarted from its disk. *)
Definition fresh (ms : list NodeId) (x : NodeId) (d : RecoveredState) : View :=
  mkView x ms follower (rec_hard_state d) (rec_log d) (rec_commit_index d) ∅ ∅ None.

Definition empty_disk : RecoveredState := mkRecoveredState (mkHardState 0 None) [] 0.

Definition live (v : View) : Prop := v_role v <> unavailable.

Inductive sys_step (ms : list NodeId) : Sys -> Sys -> Prop :=
  (* a node takes a protocol action *)
  | sys_act st x out v' :
      vstep (y_soup st) (y_view st x) out v' ->
      sys_step ms st
        (mkSys (upd (y_view st) x v') (y_disk st) (upd (y_written st) x false)
           (fun e => y_soup st e \/ e ∈ out))
  (* the pending batch of a node reaches its disk *)
  | sys_write st x b k :
      live (y_view st x) -> v_pending (y_view st x) = Some (b, k) -> y_written st x = false ->
      sys_step ms st
        (mkSys (y_view st) (upd (y_disk st) x (apply_batch (y_disk st x) b))
           (upd (y_written st) x true) (y_soup st))
  (* the node learns that its batch is durable *)
  | sys_complete st x out v' :
      y_written st x = true -> vcomplete (y_view st x) out v' ->
      sys_step ms st
        (mkSys (upd (y_view st) x v') (y_disk st) (upd (y_written st) x false)
           (fun e => y_soup st e \/ e ∈ out))
  (* the node crashes and restarts *)
  | sys_restart st x :
      sys_step ms st
        (mkSys (upd (y_view st) x (fresh ms x (y_disk st x))) (y_disk st)
           (upd (y_written st) x false) (y_soup st)).

Definition sys_init (ms : list NodeId) : Sys :=
  mkSys (fun x => fresh ms x empty_disk) (fun _ => empty_disk) (fun _ => false) (fun _ => False).

Inductive reachable (ms : list NodeId) : Sys -> Prop :=
  | reach_init : reachable ms (sys_init ms)
  | reach_step st st' : reachable ms st -> sys_step ms st st' -> reachable ms st'.

(** ** Ghost history *)

(** The election of a term: the log the leader had when elected, without its
    no-op, and the log it has built since. *)
Record Election := mkElection {
  el_leader : NodeId;
  el_votes : gset N;
  el_base : list LogEntry;
  el_log : list LogEntry;
}.

(** A durable vote, with the log of the voter at the time. *)
Record VoteRec := mkVoteRec {
  vr_voter : NodeId;
  vr_term : Term;
  vr_cand : NodeId;
  vr_log : list LogEntry;
}.

Record Ghost := mkGhost {
  g_elect : gmap N Election;
  g_votes : list VoteRec;
  g_acks : list (NodeId * Term * LogIndex);
  g_commits : list (Term * LogIndex);
}.

Section predicates.
Implicit Types (g : Ghost) (l : list LogEntry).

(** The log agrees up to [m] with what the leader of term [t] built. *)
Definition held g (t : Term) (m : LogIndex) l : Prop :=
  exists e, g_elect g !! t = Some e /\ agree m (el_log e) l.

(** Every leader elected after [t], up to [T], started from such a log. *)
Definition clean g (t : Term) (m : LogIndex) (T : Term) : Prop :=
  forall t' e', t < t' <= T -> g_elect g !! t' = Some e' -> held g t m (el_base e').

(** An acknowledged prefix survives as long as the leaders keep it. *)
Definition keeps g (t : Term) (m : LogIndex) (T : Term) l : Prop :=
  t <= T /\ (clean g t m T -> held g t m l).

Definition acked g (x : NodeId) (t : Term) (i : LogIndex) : Prop :=
  exists m, i <= m /\ (x, t, m) ∈ g_acks g.

(** Every prefix of the log that ends in an entry of term [t] is what the leader
    of [t] had: the Log Matching property. *)
Definition backed g l : Prop :=
  forall i, 1 <= i <= llen l -> held g (log_term_at l i) i l.

Record log_ok g l (T : Term) : Prop := {
  lo_backed : backed g l;
  lo_mono : forall i j, 1 <= i -> i <= j -> j <= llen l -> log_term_at l i <= log_term_at l j;
  lo_bound : forall i, 1 <= i <= llen l -> 1 <= log_term_at l i <= T;
}.

(** A commit index is covered by a committed entry of some term up to [T]. *)
Definition commit_ok g (T : Term) l (c : LogIndex) : Prop :=
  c = 0 \/ exists t i, (t, i) ∈ g_commits g /\ t <= T /\ c <= i /\ held g t c l.

Definition hs_le (h h' : HardState) : Prop :=
  current_term h < current_term h' \/
  (current_term h = current_term h' /\ (voted_for h = None \/ voted_for h = voted_for h')).

End predicates.

Section invariant.
Variable ms : list NodeId.
Implicit Types (g : Ghost) (soup : MessageEnvelope -> Prop).

Record election_ok g (t : Term) (e : Election) : Prop := {
  eo_term : 1 <= t;
  eo_quorum : is_quorum ms (el_votes e);
  eo_log : log_ok g (el_log e) t;
  eo_base : agree (llen (el_base e)) (el_base e) (el_log e);
  eo_longer : llen (el_base e) < llen (el_log e);
  eo_own : forall i, llen (el_base e) < i <= llen (el_log e) -> log_term_at (el_log e) i = t;
  eo_old : forall i, 1 <= i <= llen (el_base e) -> log_term_at (el_base e) i < t;
}.

(** What a sent message promises. *)
Definition message_ok g (env : MessageEnvelope) : Prop :=
  match env_message env with
  | MRequestVote _ => True
  | MRequestVoteResponse m =>
      rvr_vote_granted m = true ->
      exists r, r ∈ g_votes g /\ vr_voter r = env_from env /\ vr_term r = rvr_term m /\
                vr_cand r = env_to env
  | MAppendEntries m =>
      exists e, g_elect g !! ae_term m = Some e /\ ae_prev_log_index m <= llen (el_log e) /\
        ae_entries m = take (length (ae_entries m))
                         (drop (N.to_nat (ae_prev_log_index m)) (el_log e)) /\
        ae_prev_log_term m = log_term_at (el_log e) (ae_prev_log_index m) /\
        commit_ok g (ae_term m) (el_log e) (ae_leader_commit m)
  | MAppendEntriesResponse m =>
      aer_success m = true -> (env_from env, aer_term m, aer_match_index m) ∈ g_acks g
  end.

(** History alone. *)
Record ghost_ok g : Prop := {
  go_elect : forall t e, g_elect g !! t = Some e -> election_ok g t e;
  go_elect_votes : forall t e x, g_elect g !! t = Some e -> x ∈ el_votes e ->
    exists r, r ∈ g_votes g /\ vr_voter r = x /\ vr_term r = t /\ vr_cand r = el_leader e;
  go_functional : forall r1 r2, r1 ∈ g_votes g -> r2 ∈ g_votes g ->
    vr_voter r1 = vr_voter r2 -> vr_term r1 = vr_term r2 -> vr_cand r1 = vr_cand r2;
  go_vote_log : forall r, r ∈ g_votes g -> log_ok g (vr_log r) (vr_term r);
  go_vote_keeps : forall r t i, r ∈ g_votes g -> acked g (vr_voter r) t i -> t < vr_term r ->
    keeps g t i (vr_term r) (vr_log r);
  go_elect_keeps : forall t' e' x t e i, g_elect g !! t' = Some e' -> x ∈ el_votes e' ->
    acked g x t i -> t < t' -> 1 <= i -> g_elect g !! t = Some e ->
    log_term_at (el_log e) i = t -> clean g t i (t' - 1) -> held g t i (el_base e');
  go_acks : forall x t m, (x, t, m) ∈ g_acks g ->
    exists e, g_elect g !! t = Some e /\ m <= llen (el_log e);
  go_commits : forall t i, (t, i) ∈ g_commits g ->
    exists e q, g_elect g !! t = Some e /\ 1 <= i <= llen (el_log e) /\
      log_term_at (el_log e) i = t /\ is_quorum ms q /\ forall y, y ∈ q -> acked g y t i;
}.

Record disk_ok g soup (x : NodeId) (d : RecoveredState) : Prop := {
  do_log : log_ok g (rec_log d) (current_term (rec_hard_state d));
  do_commit : commit_ok g (current_term (rec_hard_state d)) (rec_log d) (rec_commit_index d);
  do_keeps : forall t i, acked g x t i ->
    keeps g t i (current_term (rec_hard_state d)) (rec_log d);
  do_voter : forall r, r ∈ g_votes g -> vr_voter r = x ->
    vr_term r <= current_term (rec_hard_state d) /\
    (vr_term r = current_term (rec_hard_state d) ->
     voted_for (rec_hard_state d) = Some (vr_cand r));
  do_voted : forall c, voted_for (rec_hard_state d) = Some c ->
    exists r, r ∈ g_votes g /\ vr_voter r = x /\
              vr_term r = current_term (rec_hard_state d) /\ vr_cand r = c;
  do_cand : forall r, r ∈ g_votes g -> vr_cand r = x ->
    vr_term r <= current_term (rec_hard_state d);
  do_request : forall to m, soup (mkMessageEnvelope x to (MRequestVote m)) ->
    rv_term m <= current_term (rec_hard_state d);
  do_led : forall t e, g_elect g !! t = Some e -> el_leader e = x ->
    t <= current_term (rec_hard_state d);
}.

Definition vterm (v : View) : Term := current_term (v_hs v).

(** What a candidate relies on. *)
Record candidate_ok g soup (x : NodeId) (v : View) : Prop := {
  co_term : 1 <= vterm v;
  co_self : voted_for (v_hs v) = Some x;
  co_votes : forall y, y ∈ v_votes v -> y = x \/
    soup (mkMessageEnvelope y x (MRequestVoteResponse (mkRequestVoteResponse (vterm v) true)));
  co_fresh : forall r, r ∈ g_votes g -> vr_cand r = x -> vr_term r = vterm v ->
    up_to_date (vr_log r) (llen (v_log v)) (last_term (v_log v));
  co_request : forall to m, soup (mkMessageEnvelope x to (MRequestVote m)) ->
    rv_term m = vterm v ->
    rv_last_log_index m = llen (v_log v) /\ rv_last_log_term m = last_term (v_log v);
  co_first : forall e, g_elect g !! vterm v = Some e -> el_leader e <> x;
}.

Record leader_ok g (x : NodeId) (v : View) : Prop := {
  ld_elect : exists e, g_elect g !! vterm v = Some e /\ el_leader e = x /\ el_log e = v_log v;
  ld_match : forall p j, v_match v !! p = Some j ->
    j = 0 \/ exists m, j <= m /\ (p, vterm v, m) ∈ g_acks g;
}.

(** What the completion of the pending batch will promise. *)
Record pending_ok g soup (x : NodeId) (v : View) (b : PersistBatch) (k : AfterSuccess) : Prop := {
  po_vote : forall c, voted_for (v_hs v) = Some c ->
    (exists r, r ∈ g_votes g /\ vr_voter r = x /\ vr_term r = vterm v /\ vr_cand r = c) \/
    (c = x /\ v_role v = candidate) \/
    (c <> x /\ exists m, soup (mkMessageEnvelope c x (MRequestVote m)) /\ rv_term m = vterm v /\
       up_to_date (v_log v) (rv_last_log_index m) (rv_last_log_term m));
  po_grant : forall c wl, k = after_vote_reply c true wl -> voted_for (v_hs v) = Some c;
  po_ack : forall f r m a, k = after_append_accept f r m a -> held g (vterm v) m (v_log v);
}.

Record view_ok g soup (x : NodeId) (v : View) : Prop := {
  vo_id : v_id v = x;
  vo_members : v_members v = ms;
  vo_log : log_ok g (v_log v) (vterm v);
  vo_commit : commit_ok g (vterm v) (v_log v) (v_commit v);
  vo_keeps : forall t i, acked g x t i -> keeps g t i (vterm v) (v_log v);
  vo_candidate : v_role v = candidate -> candidate_ok g soup x v;
  vo_leader : v_role v = leader -> leader_ok g x v;
  vo_pending : forall b k, v_pending v = Some (b, k) -> pending_ok g soup x v b k;
}.

(** How a live node's disk relates to its volatile state. *)
Record link_ok (d : RecoveredState) (v : View) (w : bool) : Prop := {
  lk_hs : hs_le (rec_hard_state d) (v_hs v);
  lk_disk : if w then d = target v /\ v_pending v <> None
            else match v_pending v with
                 | None => d = target v
                 | Some (b, _) => apply_batch d b = target v
                 end;
}.

Record inv (st : Sys) (g : Ghost) : Prop := {
  inv_ghost : ghost_ok g;
  inv_message : forall env, y_soup st env -> message_ok g env;
  inv_disk : forall x, disk_ok g (y_soup st) x (y_disk st x);
  inv_view : forall x, live (y_view st x) -> view_ok g (y_soup st) x (y_view st x);
  inv_link : forall x, live (y_view st x) ->
    link_ok (y_disk st x) (y_view st x) (y_written st x);
}.

End invariant.
