(* ===== verification/SystemFrame.v ===== *)
(** * SystemFrame: growth of the ghost history

    The invariant of a node that does not act is stable when history grows. *)

From S2P Require Import Prelude Model StateMachine RaftTypes Raft RaftSpec RaftRefine RaftReplicate RaftElection RaftAppend System.

(** History grows: elections stay, leaders' logs are extended. *)
Record gle (g g' : Ghost) : Prop := {
  gle_elect : forall t e, g_elect g !! t = Some e ->
    exists e', g_elect g' !! t = Some e' /\ el_leader e' = el_leader e /\
      el_votes e' = el_votes e /\ el_base e' = el_base e /\ el_log e `prefix_of` el_log e';
  gle_votes : forall r, r ∈ g_votes g -> r ∈ g_votes g';
  gle_acks : forall a, a ∈ g_acks g -> a ∈ g_acks g';
  gle_commits : forall c, c ∈ g_commits g -> c ∈ g_commits g';
}.

Create HintDb gle.

#[global] Instance gle_refl : Reflexive gle.
Proof. intros g. constructor; eauto 10. Qed.

Section growth.
Context {g g' : Ghost} (Hg : gle g g').
Implicit Types (l : list LogEntry).

Lemma gle_held t m l : held g t m l -> held g' t m l.
Proof.
  intros (e & He & Ha). destruct (gle_elect _ _ Hg _ _ He) as (e' & He' & _ & _ & _ & Hp).
  exists e'. split; [done|]. apply agree_sym. eapply agree_prefix; [done|]. by apply agree_sym.
Qed.

Lemma gle_backed l : backed g l -> backed g' l.
Proof. intros H i Hi. apply gle_held. auto. Qed.

Lemma gle_log_ok l T : log_ok g l T -> log_ok g' l T.
Proof. intros []. constructor; auto using gle_backed. Qed.

Lemma gle_commit_ok T l c : commit_ok g T l c -> commit_ok g' T l c.
Proof.
  intros [->|(t & i & Hc & Ht & Hi & Hh)]; [by left|]. right. exists t, i.
  split_and!; auto using gle_held. by apply (gle_commits _ _ Hg).
Qed.

(** A prefix the old history knew cannot become held by growth alone. *)
Lemma held_old t m l e :
  g_elect g !! t = Some e -> m <= llen (el_log e) -> held g' t m l -> held g t m l.
Proof.
  intros He Hm (e1 & He1 & Ha). destruct (gle_elect _ _ Hg _ _ He) as (e' & He' & _ & _ & _ & [k Hp]).
  simplify_eq. exists e. split; [done|]. eapply agree_trans; [|exact Ha].
  rewrite Hp. eapply agree_le; [apply agree_app|done].
Qed.

Lemma clean_old t m T e :
  g_elect g !! t = Some e -> m <= llen (el_log e) -> clean g' t m T -> clean g t m T.
Proof.
  intros He Hm Hc t1 e1 Ht1 He1.
  destruct (gle_elect _ _ Hg _ _ He1) as (e1' & He1' & _ & _ & Hb & _).
  eapply held_old; [done..|]. rewrite <- Hb. by eapply Hc.
Qed.

Lemma gle_keeps t m T l e :
  g_elect g !! t = Some e -> m <= llen (el_log e) -> keeps g t m T l -> keeps g' t m T l.
Proof.
  intros He Hm [Ht Hk]. split; [done|]. intros Hc. apply gle_held, Hk. by eapply clean_old.
Qed.

Lemma gle_election_ok ms t e : election_ok ms g t e -> election_ok ms g' t e.
Proof. intros []. constructor; auto using gle_log_ok. Qed.

Lemma gle_acked x t i : acked g x t i -> acked g' x t i.
Proof. intros (m & ? & ?). exists m. split; [done|]. by apply (gle_acks _ _ Hg). Qed.

Lemma gle_message_ok env : message_ok g env -> message_ok g' env.
Proof.
  unfold message_ok. destruct (env_message env) as [m|m|m|m]; [done|..].
  - intros H Hv. destruct (H Hv) as (r & ? & ?). exists r. split; [|done]. by apply (gle_votes _ _ Hg).
  - intros (e & He & Hp & Hes & Ht & Hc).
    destruct (gle_elect _ _ Hg _ _ He) as (e' & He' & _ & _ & _ & [k Hk]). exists e'.
    assert (Ha : agree (llen (el_log e)) (el_log e) (el_log e')) by (rewrite Hk; apply agree_app).
    split_and!; [done|..].
    + destruct Ha as (_ & ? & _). lia.
    + rewrite Hk, drop_app_le by (unfold llen in *; lia). rewrite take_app_le; [done|].
      apply (f_equal length) in Hes. rewrite length_take in Hes. lia.
    + rewrite Ht. by eapply agree_term.
    + destruct (gle_commit_ok _ _ _ Hc) as [->|(t & i & ? & ? & ? & (e1 & ? & Ha1))]; [by left|].
      right. exists t, i. split_and!; [done..|]. exists e1. split; [done|].
      eapply agree_trans; [exact Ha1|]. eapply agree_le; [exact Ha|]. apply Ha1.
  - intros H Hs. apply (gle_acks _ _ Hg), H, Hs.
Qed.

End growth.

(** ** What acknowledgements rest on *)

Section ghost_facts.
Context {ms : list NodeId} {g : Ghost} (Hok : ghost_ok ms g).

Lemma acked_elect x t i :
  acked g x t i -> exists e, g_elect g !! t = Some e /\ i <= llen (el_log e).
Proof.
  intros (m & Hi & Hm). destruct (go_acks _ _ Hok _ _ _ Hm) as (e & He & Hl).
  exists e. split; [done|lia].
Qed.

Lemma keeps_term t i T T' l : keeps g t i T l -> T <= T' -> keeps g t i T' l.
Proof.
  intros [Ht Hk] HT. split; [lia|]. intros Hc. apply Hk.
  intros t' e' Ht' He'. apply (Hc t'); [lia|done].
Qed.

Lemma keeps_log t i T l l' : keeps g t i T l -> agree (llen l) l l' -> keeps g t i T l'.
Proof.
  intros [Ht Hk] Ha. split; [done|]. intros Hc. destruct (Hk Hc) as (e & He & Hh).
  exists e. split; [done|]. eapply agree_trans; [exact Hh|]. eapply agree_le; [exact Ha|]. apply Hh.
Qed.

Lemma keeps_grow g' x t i T l : gle g g' -> acked g x t i -> keeps g t i T l -> keeps g' t i T l.
Proof. intros Hg Ha Hk. destruct (acked_elect _ _ _ Ha) as (e & He & Hi). by eapply gle_keeps. Qed.

End ghost_facts.

(** ** Nodes that do not act *)

(** History and messages grew without touching what node [x] did. *)
Record frame (g : Ghost) (soup : MessageEnvelope -> Prop) (g' : Ghost)
    (soup' : MessageEnvelope -> Prop) (x : NodeId) : Prop := {
  fr_gle : gle g g';
  fr_soup : forall env, soup env -> soup' env;
  fr_acks : forall t m, (x, t, m) ∈ g_acks g' -> (x, t, m) ∈ g_acks g;
  fr_voter : forall r, r ∈ g_votes g' -> vr_voter r = x -> r ∈ g_votes g;
  fr_cand : forall r, r ∈ g_votes g' -> vr_cand r = x -> r ∈ g_votes g \/
    exists to m, soup (mkMessageEnvelope x to (MRequestVote m)) /\ rv_term m = vr_term r /\
      up_to_date (vr_log r) (rv_last_log_index m) (rv_last_log_term m);
  fr_request : forall to m, soup' (mkMessageEnvelope x to (MRequestVote m)) ->
    soup (mkMessageEnvelope x to (MRequestVote m));
  fr_led : forall t e, g_elect g' !! t = Some e -> el_leader e = x -> g_elect g !! t = Some e;
}.

Section frame.
Context {ms : list NodeId} {g g' : Ghost} {soup soup' : MessageEnvelope -> Prop} {x : NodeId}.
Context (Hok : ghost_ok ms g) (Hf : frame g soup g' soup' x).

Let Hgle : gle g g' := fr_gle _ _ _ _ _ Hf.

Lemma acked_frame t i : acked g' x t i -> acked g x t i.
Proof. intros (m & Hi & Hm). exists m. split; [done|]. by apply (fr_acks _ _ _ _ _ Hf). Qed.

Lemma keeps_frame t i T l :
  (acked g x t i -> keeps g t i T l) -> acked g' x t i -> keeps g' t i T l.
Proof. intros Hk Ha%acked_frame. eapply keeps_grow; eauto. Qed.

Lemma disk_ok_frame d : disk_ok g soup x d -> disk_ok g' soup' x d.
Proof.
  intros []. constructor.
  - by apply (gle_log_ok Hgle).
  - by apply (gle_commit_ok Hgle).
  - intros t i. apply keeps_frame. auto.
  - intros r Hr Hv. apply do_voter; [|done]. by eapply fr_voter.
  - intros c Hc. destruct (do_voted c Hc) as (r & ? & ?). exists r. split; [|done].
    by apply (gle_votes _ _ Hgle).
  - intros r Hr Hc. destruct (fr_cand _ _ _ _ _ Hf r Hr Hc) as [?|(to & m & Hm & <- & _)]; eauto.
  - intros to m Hm. eapply do_request. by eapply fr_request.
  - intros t e He Hl. eapply do_led; [|done]. by eapply fr_led.
Qed.

Lemma candidate_ok_frame v : candidate_ok g soup x v -> candidate_ok g' soup' x v.
Proof.
  intros []. constructor; [done|done|..].
  - intros y Hy. destruct (co_votes y Hy); [by left|right]. by eapply fr_soup.
  - intros r Hr Hc Ht.
    destruct (fr_cand _ _ _ _ _ Hf r Hr Hc) as [?|(to & m & Hm & Hmt & Hup)]; [by apply co_fresh|].
    destruct (co_request _ _ Hm) as [<- <-]; [congruence|done].
  - intros to m Hm. eapply co_request. by eapply fr_request.
  - intros e He Hl. apply (co_first e); [|done]. by eapply fr_led.
Qed.

Lemma leader_ok_frame v : leader_ok g x v -> leader_ok g' x v.
Proof.
  intros [(e & He & Hl & Hlog) Hm]. constructor.
  - destruct (gle_elect _ _ Hgle _ _ He) as (e' & He' & Hl' & _).
    exists e'. assert (He2 : g_elect g !! vterm v = Some e') by (eapply fr_led; [done..|congruence]).
    simplify_eq. done.
  - intros p j Hj. destruct (Hm p j Hj) as [?|(m & ? & ?)]; [by left|right].
    exists m. split; [done|]. by apply (gle_acks _ _ Hgle).
Qed.

Lemma pending_ok_frame v b k : pending_ok g soup x v b k -> pending_ok g' soup' x v b k.
Proof.
  intros []. constructor; [|done|].
  - intros c Hc. destruct (po_vote c Hc) as [(r & Hr & ?)|[?|(Hne & m & Hm & ?)]].
    + left. exists r. split; [|done]. by apply (gle_votes _ _ Hgle).
    + right. by left.
    + right. right. split; [done|]. exists m. split; [|done]. by eapply fr_soup.
  - intros f r m a Hk. apply (gle_held Hgle). by eapply po_ack.
Qed.

Lemma view_ok_frame v : view_ok ms g soup x v -> view_ok ms g' soup' x v.
Proof.
  intros []. constructor; [done|done|..].
  - by apply (gle_log_ok Hgle).
  - by apply (gle_commit_ok Hgle).
  - intros t i. apply keeps_frame. auto.
  - intros Hr. by apply candidate_ok_frame, vo_candidate.
  - intros Hr. by apply leader_ok_frame, vo_leader.
  - intros b k Hp. by apply pending_ok_frame, vo_pending.
Qed.

End frame.
