(* ===== verification/SystemSteps.v ===== *)
(** * SystemSteps: every system step keeps the invariant *)

From S2P Require Import Prelude Model StateMachine RaftTypes Raft RaftSpec RaftRefine RaftReplicate RaftElection RaftAppend System SystemFrame.

(** History grew by actions of node [x] only. *)
Record mine (g : Ghost) (soup : MessageEnvelope -> Prop) (g' : Ghost) (x : NodeId) : Prop := {
  mn_gle : gle g g';
  mn_acks : forall y t m, (y, t, m) ∈ g_acks g' -> (y, t, m) ∈ g_acks g \/ y = x;
  mn_votes : forall r, r ∈ g_votes g' -> r ∈ g_votes g \/ (vr_voter r = x /\
    (vr_cand r = x \/ exists to m, soup (mkMessageEnvelope (vr_cand r) to (MRequestVote m)) /\
       rv_term m = vr_term r /\
       up_to_date (vr_log r) (rv_last_log_index m) (rv_last_log_term m)));
  mn_elect : forall t e, g_elect g' !! t = Some e -> g_elect g !! t = Some e \/ el_leader e = x;
}.

Lemma mine_refl g soup x : mine g soup g x.
Proof. constructor; eauto. reflexivity. Qed.

Lemma mine_frame g soup g' soup' x out y :
  mine g soup g' x -> y <> x -> Forall (fun env => env_from env = x) out ->
  (forall e, soup' e <-> soup e \/ e ∈ out) -> frame g soup g' soup' y.
Proof.
  intros Hm Hy Hout Hs. rewrite Forall_forall in Hout. constructor.
  - apply Hm.
  - intros env Henv. apply Hs. by left.
  - intros t m H. by destruct (mn_acks _ _ _ _ Hm _ _ _ H).
  - intros r Hr Hv. destruct (mn_votes _ _ _ _ Hm r Hr) as [?|[? _]]; [done|congruence].
  - intros r Hr Hc. destruct (mn_votes _ _ _ _ Hm r Hr) as [?|[? [?|?]]]; [by left|congruence|].
    right. by subst y.
  - intros to m [?|H]%Hs; [done|]. by apply Hout in H.
  - intros t e He Hl. destruct (mn_elect _ _ _ _ Hm t e He); [done|congruence].
Qed.

(** Node [x] acts; everything else stays. *)
Lemma inv_local ms st st' g g' x out :
  inv ms st g -> ghost_ok ms g' -> mine g (y_soup st) g' x ->
  (forall y, y <> x -> y_view st' y = y_view st y /\ y_disk st' y = y_disk st y /\
                       y_written st' y = y_written st y) ->
  (forall e, y_soup st' e <-> y_soup st e \/ e ∈ out) ->
  Forall (fun env => env_from env = x /\ message_ok g' env) out ->
  disk_ok g' (y_soup st') x (y_disk st' x) ->
  (live (y_view st' x) -> view_ok ms g' (y_soup st') x (y_view st' x) /\
                          link_ok (y_disk st' x) (y_view st' x) (y_written st' x)) ->
  inv ms st' g'.
Proof.
  intros [] Hg' Hm Hsame Hsoup Hout Hd Hv.
  assert (Hout1 : Forall (fun env => env_from env = x) out) by (eapply Forall_impl; [done|]; by intros env [? _]).
  constructor; [done|..].
  - intros env [Henv|Henv]%Hsoup.
    + eapply gle_message_ok; [apply Hm|auto].
    + rewrite Forall_forall in Hout. by apply Hout.
  - intros y. destruct (decide (y = x)) as [->|Hy]; [done|].
    destruct (Hsame y Hy) as (_ & -> & _).
    eapply disk_ok_frame; [exact inv_ghost|by apply (mine_frame g _ g' _ x out y)|auto].
  - intros y Hl. destruct (decide (y = x)) as [->|Hy]; [by apply Hv|].
    destruct (Hsame y Hy) as (Heq & _). rewrite Heq in *.
    eapply view_ok_frame; [exact inv_ghost|by apply (mine_frame g _ g' _ x out y)|auto].
  - intros y Hl. destruct (decide (y = x)) as [->|Hy]; [by apply Hv|].
    destruct (Hsame y Hy) as (Heq & -> & ->). rewrite Heq in *. auto.
Qed.

(** ** Actions that leave history alone *)

(** The messages [out] of node [x] contain no vote request. *)
Definition no_request (out : list MessageEnvelope) : Prop :=
  Forall (fun env => match env_message env with MRequestVote _ => False | _ => True end) out.

Lemma self_frame g soup x out :
  no_request out -> frame g soup g (fun e => soup e \/ e ∈ out) x.
Proof.
  intros Hn. constructor; eauto; [reflexivity|].
  intros to m [?|H]; [done|]. unfold no_request in Hn. rewrite Forall_forall in Hn.
  by apply Hn in H.
Qed.

Lemma apply_hard_state_batch d h :
  apply_batch d (hard_state_batch h) = mkRecoveredState h (rec_log d) (rec_commit_index d).
Proof. unfold apply_batch. simpl. by rewrite app_nil_r. Qed.

Lemma log_ok_term g l T T' : log_ok g l T -> T <= T' -> log_ok g l T'.
Proof. intros [] HT. constructor; auto. intros i Hi. specialize (lo_bound i Hi). lia. Qed.

Lemma commit_ok_term g T T' l c : commit_ok g T l c -> T <= T' -> commit_ok g T' l c.
Proof.
  intros [->|(t & i & ? & ? & ? & ?)] HT; [by left|]. right. exists t, i. split_and!; [done|lia|done..].
Qed.

Lemma up_to_date_refl l : up_to_date l (llen l) (last_term l).
Proof. right. done. Qed.

Section act.
Context {ms : list NodeId} {g : Ghost} {soup : MessageEnvelope -> Prop} {x : NodeId}.
Context {d : RecoveredState} {v : View} {w : bool}.
Context (Hg : ghost_ok ms g) (Hd : disk_ok g soup x d) (Hv : view_ok ms g soup x v).
Context (Hl : link_ok d v w) (Hidle : v_pending v = None).

(** An idle node's state is on its disk. *)
Lemma idle_disk : d = target v.
Proof using Hl Hidle.
  destruct Hl as [_ Hk]. rewrite Hidle in Hk. destruct w; [by destruct Hk as [? []]|done].
Qed.

Let H_id := vo_id _ _ _ _ _ Hv.
Let H_ms := vo_members _ _ _ _ _ Hv.

(** A higher or equal term with the same log keeps the log invariants. *)
Lemma view_ok_follower hs votes pend :
  vterm v <= current_term hs ->
  (forall b k, pend = Some (b, k) -> pending_ok g soup x
     (mkView (v_id v) (v_members v) follower hs (v_log v) (v_commit v) votes ∅ pend) b k) ->
  view_ok ms g soup x
    (mkView (v_id v) (v_members v) follower hs (v_log v) (v_commit v) votes ∅ pend).
Proof using Hv.
  intros HT Hp. destruct Hv. constructor; simpl; try done.
  - by eapply log_ok_term.
  - by eapply commit_ok_term.
  - intros t i Ha. eapply keeps_term; [by apply vo_keeps|done].
Qed.

Lemma act_campaign b :
  b = hard_state_batch (mkHardState (vterm v + 1) (Some (v_id v))) ->
  let v' := mkView (v_id v) (v_members v) candidate (mkHardState (vterm v + 1) (Some (v_id v)))
     (v_log v) (v_commit v) {[ v_id v ]} ∅ (Some (b, after_begin_election)) in
  view_ok ms g soup x v' /\ link_ok d v' false.
Proof.
  intros -> v'. subst v'. pose proof idle_disk as ->. pose proof H_id as Hid. rewrite Hid in *.
  destruct Hd. simpl in *. fold (vterm v) in *. split.
  - destruct Hv. constructor; simpl; try done.
    + eapply log_ok_term; [done|]. unfold vterm. simpl. lia.
    + eapply commit_ok_term; [done|]. unfold vterm. simpl. lia.
    + intros t i Ha. eapply keeps_term; [by apply vo_keeps|]. unfold vterm. simpl. lia.
    + intros _. constructor; unfold vterm; simpl; try done.
      * lia.
      * intros y ->%elem_of_singleton. by left.
      * intros r Hr Hc Ht. specialize (do_cand r Hr Hc). unfold vterm in *. lia.
      * intros to m Hm Ht. specialize (do_request to m Hm). unfold vterm in *. lia.
      * intros e He Hlead. specialize (do_led _ e He Hlead). unfold vterm in *. lia.
    + intros b k [= <- <-]. constructor; simpl; try done. intros c [= <-]. right. by left.
  - constructor; simpl.
    + left. simpl. unfold vterm. lia.
    + by rewrite apply_hard_state_batch.
Qed.

Lemma act_observe t k :
  vterm v < t -> harmless k ->
  let v' := mkView (v_id v) (v_members v) follower (mkHardState t None) (v_log v) (v_commit v)
     ∅ ∅ (Some (hard_state_batch (mkHardState t None), k)) in
  view_ok ms g soup x v' /\ link_ok d v' false.
Proof.
  intros Ht Hk v'. pose proof idle_disk as ->. split.
  - apply view_ok_follower; [simpl; lia|]. intros b k' [= <- <-]. constructor; simpl; try done.
    + by intros c wl ->.
    + by intros f r m a ->.
  - constructor; simpl; [left; done|]. by rewrite apply_hard_state_batch.
Qed.

Lemma act_grant_higher from m wl :
  soup (mkMessageEnvelope from (v_id v) (MRequestVote m)) -> from <> v_id v ->
  vterm v < rv_term m -> up_to_date (v_log v) (rv_last_log_index m) (rv_last_log_term m) ->
  let hs := mkHardState (rv_term m) (Some from) in
  let v' := mkView (v_id v) (v_members v) follower hs (v_log v) (v_commit v) ∅ ∅
     (Some (hard_state_batch hs, after_vote_reply from true wl)) in
  view_ok ms g soup x v' /\ link_ok d v' false.
Proof.
  intros Hm Hne Ht Hup hs v'. pose proof idle_disk as ->. split.
  - apply view_ok_follower; [simpl; lia|]. intros b k' [= <- <-]. constructor; simpl; try done.
    + intros c [= <-]. right. right. pose proof H_id as Hid. rewrite Hid in *. eauto.
    + by intros c wl' [= ->].
  - constructor; simpl; [left; done|]. by rewrite apply_hard_state_batch.
Qed.

Lemma act_grant from m wl :
  live v -> soup (mkMessageEnvelope from (v_id v) (MRequestVote m)) -> from <> v_id v ->
  rv_term m = vterm v -> voted_for (v_hs v) = None ->
  up_to_date (v_log v) (rv_last_log_index m) (rv_last_log_term m) ->
  let hs := mkHardState (rv_term m) (Some from) in
  let v' := mkView (v_id v) (v_members v) (v_role v) hs (v_log v) (v_commit v) (v_votes v)
     (v_match v) (Some (hard_state_batch hs, after_vote_reply from true wl)) in
  view_ok ms g soup x v' /\ link_ok d v' false.
Proof.
  intros Hlive Hm Hne Ht Hn Hup hs v'. pose proof idle_disk as ->.
  assert (Hvt : vterm v' = vterm v) by done. split.
  - destruct Hv. constructor; rewrite ?Hvt; simpl; try done.
    + intros Hr. destruct (vo_candidate Hr). congruence.
    + intros Hr. destruct (vo_leader Hr). constructor; rewrite ?Hvt; done.
    + intros b k' [= <- <-]. constructor; rewrite ?Hvt; simpl; try done.
      * intros c [= <-]. right. right. pose proof H_id as Hid. rewrite Hid in *. eauto.
      * by intros c wl' [= ->].
  - constructor; simpl; [right; split; [by symmetry|by left]|]. by rewrite apply_hard_state_batch.
Qed.

Lemma act_count_vote from m :
  v_role v = candidate -> soup (mkMessageEnvelope from (v_id v) (MRequestVoteResponse m)) ->
  rvr_vote_granted m = true -> rvr_term m = vterm v ->
  let v' := mkView (v_id v) (v_members v) (v_role v) (v_hs v) (v_log v) (v_commit v)
     ({[ from ]} ∪ v_votes v) (v_match v) (v_pending v) in
  view_ok ms g soup x v' /\ link_ok d v' false.
Proof.
  intros Hr Hm Hgr Ht v'. pose proof idle_disk as ->. pose proof H_id as Hid. rewrite Hid in Hm.
  assert (Hvt : vterm v' = vterm v) by done. split.
  - destruct Hv. constructor; rewrite ?Hvt; simpl; try done.
    + intros _. destruct (vo_candidate Hr). constructor; rewrite ?Hvt; try done.
      simpl. intros y [->%elem_of_singleton|Hy]%elem_of_union; [|auto].
      right. destruct m. simpl in *. by subst.
    + congruence.
    + intros b k. rewrite Hidle. done.
  - constructor; simpl; [right; auto|]. by rewrite Hidle.
Qed.

Lemma act_follow votes :
  let v' := mkView (v_id v) (v_members v) follower (v_hs v) (v_log v) (v_commit v) votes ∅ None in
  view_ok ms g soup x v' /\ link_ok d v' false.
Proof.
  pose proof idle_disk as ->. split; [by apply view_ok_follower|].
  constructor; simpl; [right; auto|done].
Qed.

Lemma act_acknowledge from m old i :
  v_role v = leader -> message_ok g (mkMessageEnvelope from (v_id v) (MAppendEntriesResponse m)) ->
  aer_success m = true -> aer_term m = vterm v -> v_match v !! from = Some old -> old <= i ->
  i <= N.max old (aer_match_index m) ->
  let v' := mkView (v_id v) (v_members v) (v_role v) (v_hs v) (v_log v) (v_commit v)
     (v_votes v) (<[from := i]> (v_match v)) (v_pending v) in
  view_ok ms g soup x v' /\ link_ok d v' false.
Proof.
  intros Hr Hm Hs Ht Ho Hle Hge v'. pose proof idle_disk as ->.
  assert (Hvt : vterm v' = vterm v) by done. split.
  - destruct Hv. constructor; rewrite ?Hvt; simpl; try done.
    + congruence.
    + intros _. destruct (vo_leader Hr). constructor; rewrite ?Hvt; [done|]. simpl.
      intros p j Hj. destruct (decide (p = from)) as [->|].
      * rewrite lookup_insert_eq in Hj. simplify_eq.
        destruct (ld_match _ _ Ho) as [->|(m' & ? & ?)];
          (destruct (decide (aer_match_index m < j)); [|right; exists (aer_match_index m);
             split; [lia|rewrite <- Ht; by apply Hm]]); [left; lia|].
        right. exists m'. split; [lia|done].
      * rewrite lookup_insert_ne in Hj by done. auto.
    + intros b k. rewrite Hidle. done.
  - constructor; simpl; [right; auto|]. by rewrite Hidle.
Qed.

(** The vote of an idle node is on record. *)
Lemma idle_vote c :
  voted_for (v_hs v) = Some c ->
  exists r, r ∈ g_votes g /\ vr_voter r = x /\ vr_term r = vterm v /\ vr_cand r = c.
Proof using Hd Hl Hidle. pose proof idle_disk as ->. apply Hd. Qed.

End act.

(** ** Acknowledgements *)

Definition add_ack (a : NodeId * Term * LogIndex) (g : Ghost) : Ghost :=
  mkGhost (g_elect g) (g_votes g) (a :: g_acks g) (g_commits g).

Section ack.
Context {ms : list NodeId} {g : Ghost} {soup : MessageEnvelope -> Prop} {x : NodeId}.
Context {t : Term} {m : LogIndex}.
Let g' := add_ack (x, t, m) g.

Lemma ack_mine : mine g soup g' x.
Proof.
  constructor; simpl; auto.
  - constructor; simpl; eauto 10. intros a Ha. by apply list_elem_of_further.
  - intros y t' m' [[= -> -> ->]|?]%elem_of_cons; auto.
Qed.

Let Hgle : gle g g' := mn_gle _ _ _ _ ack_mine.

Lemma acked_add y t' i :
  acked g' y t' i -> acked g y t' i \/ (y = x /\ t' = t /\ i <= m).
Proof.
  intros (m' & Hi & [[= -> -> ->]|H]%elem_of_cons); [by right|left]. by exists m'.
Qed.

Lemma held_keeps l i : held g t m l -> i <= m -> keeps g' t i t l.
Proof.
  intros (e & He & Ha) Hi. split; [done|]. intros _. exists e. split; [done|]. by eapply agree_le.
Qed.

Lemma ack_ghost_ok d :
  ghost_ok ms g -> disk_ok g soup x d -> current_term (rec_hard_state d) = t ->
  (exists e, g_elect g !! t = Some e /\ m <= llen (el_log e)) -> ghost_ok ms g'.
Proof.
  intros Hg Hd Ht He. destruct Hd as [_ _ _ Hvt _ _ _ _]. rewrite Ht in Hvt. destruct Hg.
  constructor; try done.
  - intros t' e' He'. apply (gle_election_ok Hgle). auto.
  - intros r Hr. apply (gle_log_ok Hgle). auto.
  - intros r t' i Hr [Ha|(Hx & -> & Hi)]%acked_add Hlt; [by apply go_vote_keeps|].
    destruct (Hvt r Hr Hx). lia.
  - intros t1 e1 y t0 e0 i He1 Hy [Ha|(-> & -> & Hi)]%acked_add Hlt Hi1 He0 Hti Hc;
      [by eapply go_elect_keeps|].
    destruct (go_elect_votes _ _ _ He1 Hy) as (r & Hr & Hrx & Hrt & _).
    destruct (Hvt r Hr Hrx). lia.
  - intros y t' m' [[= -> -> ->]|H]%elem_of_cons; eauto.
  - intros t' i Hi. destruct (go_commits _ _ Hi) as (e & q & ? & ? & ? & ? & Hq).
    exists e, q. split_and!; try done; try lia. intros y Hy.
    destruct (Hq y Hy) as (m' & ? & ?). exists m'. split; [done|]. by apply list_elem_of_further.
Qed.

Lemma ack_disk_ok d :
  disk_ok g soup x d -> current_term (rec_hard_state d) = t -> held g t m (rec_log d) ->
  disk_ok g' soup x d.
Proof.
  intros [] Ht Hh. constructor; try done; [by apply (gle_log_ok Hgle)|].
  intros t' i [Ha|(_ & -> & Hi)]%acked_add; [by apply do_keeps|].
  rewrite Ht. by apply held_keeps.
Qed.

Lemma ack_view_ok v :
  view_ok ms g soup x v -> vterm v = t -> held g t m (v_log v) -> view_ok ms g' soup x v.
Proof.
  intros [] Ht Hh. constructor; try done; [by apply (gle_log_ok Hgle)|..].
  - intros t' i [Ha|(_ & -> & Hi)]%acked_add; [by apply vo_keeps|].
    rewrite Ht. by apply held_keeps.
  - intros Hr. destruct (vo_candidate Hr). by constructor.
  - intros Hr. destruct (vo_leader Hr). constructor; [done|]. intros p j Hj.
    destruct (ld_match p j Hj) as [?|(m' & ? & ?)]; [by left|right].
    exists m'. split; [done|]. by apply list_elem_of_further.
  - intros b k Hp. destruct (vo_pending b k Hp). by constructor.
Qed.

End ack.
