(* ===== verification/SystemLog.v ===== *)
(** * SystemLog: replication, elections, commits and votes keep the invariant *)

From S2P Require Import Prelude Model StateMachine RaftTypes Raft RaftSpec RaftRefine RaftReplicate RaftElection RaftAppend System SystemFrame SystemSteps.

(** ** Log matching *)

Section matching.
Context {ms : list NodeId} {g : Ghost}.

(** Two logs backed by history with the same term at an index agree up to it. *)
Lemma backed_agree l1 l2 i :
  backed g l1 -> backed g l2 -> i <= llen l1 -> i <= llen l2 ->
  log_term_at l1 i = log_term_at l2 i -> agree i l1 l2.
Proof.
  intros H1 H2 Hi1 Hi2 Ht. destruct (N.eq_dec i 0) as [->|]; [apply agree_zero|].
  destruct (H1 i ltac:(lia)) as (e1 & He1 & Ha1), (H2 i ltac:(lia)) as (e2 & He2 & Ha2).
  rewrite Ht in He1. simplify_eq. eapply agree_trans; [by apply agree_sym|done].
Qed.

Lemma log_ok_prefix l l' T : log_ok g l T -> agree (llen l') l l' -> log_ok g l' T.
Proof.
  intros [] Ha. assert (Hlen : llen l' <= llen l) by apply Ha.
  assert (Ht : forall i, i <= llen l' -> log_term_at l' i = log_term_at l i).
  { intros i Hi. symmetry. by eapply agree_term. }
  constructor.
  - intros i Hi. rewrite Ht by lia. destruct (lo_backed i) as (e & He & Hae); [lia|].
    exists e. split; [done|]. eapply agree_trans; [exact Hae|]. eapply agree_le; [exact Ha|lia].
  - intros i j ???. rewrite !Ht by lia. apply lo_mono; lia.
  - intros i Hi. rewrite Ht by lia. apply lo_bound. lia.
Qed.

Lemma agree_take n l : agree (llen (take n l)) l (take n l).
Proof.
  unfold agree, llen. split_and!; [rewrite length_take; lia|done|].
  rewrite Nat2N.id, take_length_take. symmetry. by apply take_ge.
Qed.

(** One more entry, of a term that is current. *)
Lemma log_ok_snoc l T e el :
  log_ok g l T -> g_elect g !! T = Some el -> agree (llen l + 1) (el_log el) (l ++ [e]) ->
  1 <= T -> term e = T -> log_ok g (l ++ [e]) T.
Proof.
  intros [] Hel Ha HT He. pose proof (agree_app l [e]) as Happ.
  assert (Hlen : llen (l ++ [e]) = llen l + 1) by (unfold llen; rewrite length_app; simpl; lia).
  assert (Hold : forall i, i <= llen l -> log_term_at (l ++ [e]) i = log_term_at l i).
  { intros i Hi. symmetry. by eapply agree_term. }
  assert (Hnew : log_term_at (l ++ [e]) (llen l + 1) = T).
  { unfold log_term_at. rewrite log_at_lookup by lia. unfold llen.
    rewrite lookup_app_r by lia. replace (_ - _)%nat with O by lia. done. }
  constructor; rewrite ?Hlen.
  - intros i Hi. destruct (decide (i <= llen l)).
    + rewrite Hold by lia. destruct (lo_backed i) as (e1 & He1 & Ha1); [lia|].
      exists e1. split; [done|]. eapply agree_trans; [exact Ha1|]. by eapply agree_le.
    + replace i with (llen l + 1) by lia. rewrite Hnew. by exists el.
  - intros i j ???. destruct (decide (j <= llen l)).
    + rewrite !Hold by lia. apply lo_mono; lia.
    + replace j with (llen l + 1) by lia. rewrite Hnew.
      destruct (decide (i <= llen l)).
      * rewrite Hold by lia. apply lo_bound. lia.
      * by replace i with (llen l + 1) by lia; rewrite Hnew.
  - intros i Hi. destruct (decide (i <= llen l)); [rewrite Hold by lia; apply lo_bound; lia|].
    replace i with (llen l + 1) by lia. rewrite Hnew. lia.
Qed.

End matching.

(** ** The follower's side of replication *)

Section append.
Context {ms : list NodeId} {g : Ghost} {soup : MessageEnvelope -> Prop} {x : NodeId}.
Context {d : RecoveredState} {v : View} {w : bool}.
Context (Hg : ghost_ok ms g) (Hd : disk_ok g soup x d) (Hv : view_ok ms g soup x v).
Context (Hl : link_ok d v w) (Hidle : v_pending v = None).
Context (from : NodeId) (m : AppendEntries).
Context (Hm : message_ok g (mkMessageEnvelope from (v_id v) (MAppendEntries m))).
Context (HT : vterm v <= ae_term m).
Context (Hprev : ae_prev_log_index m <= llen (v_log v)).
Context (Hpt : log_term_at (v_log v) (ae_prev_log_index m) = ae_prev_log_term m).

Let L := splice (v_log v) (N.to_nat (ae_prev_log_index m)) (ae_entries m).
Let k := ae_prev_log_index m + N.of_nat (length (ae_entries m)).

(** The new log holds what the leader sent; what it held of the leader's log, it
    still holds. *)
Lemma append_cases :
  exists e, g_elect g !! ae_term m = Some e /\ agree k (el_log e) L /\
    (L = v_log v \/ agree (llen L) (el_log e) L) /\
    (forall i, agree i (v_log v) (el_log e) -> agree i (v_log v) L) /\
    commit_ok g (ae_term m) (el_log e) (ae_leader_commit m).
Proof.
  destruct Hm as (e & He & Hpe & Hes & Hte & Hc). exists e.
  pose proof (eo_log _ _ _ _ (go_elect _ _ Hg _ _ He)) as Hlog.
  assert (Ha : agree (ae_prev_log_index m) (v_log v) (el_log e)).
  { apply (backed_agree (g:=g)); [apply (vo_log _ _ _ _ _ Hv)|apply Hlog|done|done|congruence]. }
  rewrite <- (N2Nat.id (ae_prev_log_index m)) in Ha.
  destruct (splice_leader _ _ _ _ _ Ha Hes) as [[HL Hk]|[HL Hk]]; fold L in HL.
  - replace (N.of_nat (N.to_nat (ae_prev_log_index m) + length (ae_entries m))) with k in Hk by (unfold k; lia).
    rewrite HL. split_and!; [done|by apply agree_sym|by left| |done].
    intros i Hi. apply agree_refl, Hi.
  - set (n := (N.to_nat (ae_prev_log_index m) + length (ae_entries m))%nat) in *.
    assert (Hn : k = llen (take n (el_log e)) /\ N.to_nat k = n).
    { apply (f_equal length) in Hes. rewrite length_take, length_drop in Hes.
      unfold k, n, llen in *. rewrite length_take. lia. }
    destruct Hn as [Hkn Hkn']. pose proof (agree_take n (el_log e)) as Hat.
    rewrite HL. split_and!; [done|by rewrite Hkn|by right| |done].
    intros i Hi. pose proof (Hk i Hi) as Hin. eapply agree_trans; [exact Hi|].
    eapply agree_le; [exact Hat|]. lia.
Qed.

Lemma append_log_ok : log_ok g L (ae_term m).
Proof.
  destruct append_cases as (e & He & _ & [->|Ha] & _).
  - eapply log_ok_term; [apply Hv|done].
  - eapply log_ok_prefix; [|exact Ha]. apply (eo_log _ _ _ _ (go_elect _ _ Hg _ _ He)).
Qed.

Lemma append_keeps t i : acked g x t i -> keeps g t i (ae_term m) L.
Proof.
  intros Ha. destruct (vo_keeps _ _ _ _ _ Hv t i Ha) as [Ht Hk]. split; [lia|]. intros Hc.
  destruct Hk as (e0 & He0 & Ha0).
  { intros t' e' Ht' He'. apply (Hc t'); [lia|done]. }
  exists e0. split; [done|]. eapply agree_trans; [exact Ha0|].
  destruct append_cases as (e & He & _ & _ & Hold & _). apply Hold.
  destruct (N.eq_dec t (ae_term m)) as [->|Hne].
  { simplify_eq. by apply agree_sym. }
  destruct (Hc (ae_term m) e) as (e0' & He0' & Hb); [lia|done|]. simplify_eq.
  eapply agree_trans; [by apply agree_sym|]. eapply agree_trans; [exact Hb|].
  pose proof (eo_base _ _ _ _ (go_elect _ _ Hg _ _ He)) as Hbase.
  eapply agree_le; [exact Hbase|]. apply Hb.
Qed.

Lemma append_commit_ok :
  take (N.to_nat (v_commit v)) L = take (N.to_nat (v_commit v)) (v_log v) ->
  commit_ok g (ae_term m) L (N.max (v_commit v) (N.min (ae_leader_commit m) k)).
Proof.
  intros Htake. destruct append_cases as (e & He & Hk & _ & _ & Hc).
  destruct (N.max_spec (v_commit v) (N.min (ae_leader_commit m) k)) as [[_ ->]|[_ ->]].
  - destruct Hc as [Hz|(t & i & ? & ? & ? & (e1 & ? & Ha1))]; [left; lia|].
    right. exists t, i. split_and!; [done|done|lia|]. exists e1. split; [done|].
    eapply agree_trans; [eapply agree_le; [exact Ha1|lia]|]. eapply agree_le; [exact Hk|lia].
  - destruct (vo_commit _ _ _ _ _ Hv) as [->|(t & i & ? & ? & ? & (e1 & ? & Ha1))]; [by left|].
    right. exists t, i. split_and!; [done|lia|done|]. exists e1. split; [done|].
    eapply agree_trans; [exact Ha1|]. destruct Ha1 as (_ & Hlen & _).
    split_and!; [done| |done].
    apply (f_equal length) in Htake. rewrite !length_take in Htake. unfold llen in *. lia.
Qed.

Lemma append_held : held g (ae_term m) k L.
Proof. destruct append_cases as (e & He & Hk & _). by exists e. Qed.

(** The view after the append, with whatever batch is pending for it. *)
Lemma act_append hs commit votes pend :
  hs = (if vterm v <? ae_term m then mkHardState (ae_term m) None else v_hs v) ->
  take (N.to_nat (v_commit v)) L = take (N.to_nat (v_commit v)) (v_log v) ->
  commit = N.max (v_commit v) (N.min (ae_leader_commit m) k) ->
  (forall b a, pend = Some (b, a) -> exists r apply, a = after_append_accept from r k apply) ->
  let v' := mkView (v_id v) (v_members v) follower hs L commit votes ∅ pend in
  view_ok ms g soup x v' /\ vterm v' = ae_term m /\ held g (vterm v') k L /\
  hs_le (v_hs v) hs.
Proof.
  intros Hhs Htake Hcommit Hpend v'.
  assert (Hvt : vterm v' = ae_term m).
  { unfold vterm, v'. simpl. subst hs. destruct (N.ltb_spec (vterm v) (ae_term m)); [done|].
    unfold vterm in *. lia. }
  rewrite Hvt. split_and!; [|done|apply append_held|].
  - constructor; rewrite ?Hvt; simpl; try done; try apply Hv.
    + apply append_log_ok.
    + subst commit. by apply append_commit_ok.
    + intros t i. apply append_keeps.
    + intros b a Hba. destruct (Hpend b a Hba) as (r & apply & ->). constructor; rewrite ?Hvt; simpl.
      * intros c Hc. left. subst hs. destruct (N.ltb_spec (vterm v) (ae_term m)) as [|Hge]; [done|].
        destruct (idle_vote Hd Hl Hidle c Hc) as (r' & ? & ? & ? & ?).
        exists r'. split_and!; try done. lia.
      * done.
      * intros f r' m' a' [= <- <- <- <-]. apply append_held.
  - subst hs. destruct (N.ltb_spec (vterm v) (ae_term m)); [by left|right; auto].
Qed.

End append.

(** ** Elections *)

Definition set_elect (t : Term) (e : Election) (g : Ghost) : Ghost :=
  mkGhost (<[t := e]> (g_elect g)) (g_votes g) (g_acks g) (g_commits g).

Lemma llen_snoc l e : llen (l ++ [e]) = llen l + 1.
Proof. unfold llen. rewrite length_app. simpl. lia. Qed.

Lemma log_term_snoc l e : log_term_at (l ++ [e]) (llen l + 1) = term e.
Proof.
  unfold log_term_at. rewrite log_at_lookup by lia. unfold llen.
  rewrite lookup_app_r by lia. by replace (_ - _)%nat with O by lia.
Qed.

(** The comparison of the last entries makes a candidate hold what its voters
    acknowledged. *)
Lemma fresh_held ms g l c t i T T' e :
  ghost_ok ms g -> log_ok g l T' -> log_ok g c T -> g_elect g !! t = Some e -> 1 <= i ->
  log_term_at (el_log e) i = t -> held g t i l -> up_to_date l (llen c) (last_term c) ->
  clean g t i T -> held g t i c.
Proof.
  intros Hg Hl Hc He Hi Hte (e' & He' & Ha) Hup Hcl. simplify_eq.
  assert (Hil : i <= llen l) by apply Ha.
  assert (Htl : log_term_at (el_log e) i <= last_term l).
  { rewrite (agree_term _ _ _ i Ha) by done. unfold last_term. by apply (lo_mono _ _ _ Hl). }
  set (t := log_term_at (el_log e) i) in *.
  assert (Ht1 : 1 <= t). { apply (eo_term _ _ _ _ (go_elect _ _ Hg _ _ He)). }
  assert (Hne : 1 <= llen c).
  { destruct (decide (1 <= llen c)); [done|]. assert (Hz : llen c = 0) by lia.
    assert (Hlt : last_term c = 0) by (unfold last_term; by rewrite Hz).
    destruct Hup; lia. }
  destruct (lo_backed _ _ _ Hc (llen c)) as (e2 & He2 & Ha2); [lia|]. fold (last_term c) in He2.
  destruct (N.eq_dec (last_term c) t) as [Heq|Hneq].
  { rewrite Heq in He2. assert (e2 = e) as -> by congruence. exists e. split; [done|].
    eapply agree_le; [exact Ha2|]. destruct Hup as [?|[_ ?]]; lia. }
  assert (Hlt : t < last_term c) by (destruct Hup as [?|[? _]]; lia).
  assert (HltT : last_term c <= T) by (apply (lo_bound _ _ _ Hc); lia).
  destruct (Hcl _ _ (conj Hlt HltT) He2) as (e0 & He0 & Ha0).
  destruct (go_elect _ _ Hg _ _ He2) as [_ _ _ Hbase _ _ Hold].
  assert (Hlong : llen (el_base e2) < llen c).
  { destruct (decide (llen (el_base e2) < llen c)); [done|]. exfalso.
    specialize (Hold (llen c) ltac:(lia)).
    rewrite (agree_term _ _ _ (llen c) Hbase), (agree_term _ _ _ (llen c) Ha2) in Hold by lia.
    unfold last_term in Hold. lia. }
  exists e0. split; [done|]. eapply agree_trans; [exact Ha0|].
  assert (i <= llen (el_base e2)) by apply Ha0.
  eapply agree_trans; [eapply agree_le; [exact Hbase|lia]|]. eapply agree_le; [exact Ha2|lia].
Qed.

(** A new or longer leader log. *)
Section elect.
Context {ms : list NodeId} {g : Ghost} {soup : MessageEnvelope -> Prop} {x : NodeId}.
Context {T : Term} {e' : Election}.
Context (Hg : ghost_ok ms g).
Context (Hlead : el_leader e' = x).
Let g' := set_elect T e' g.
Context (Hgle : gle g g').

Lemma elect_mine : mine g soup g' x.
Proof using Hlead Hgle.
  constructor; simpl; auto. intros t e He.
  destruct (decide (t = T)) as [->|]; [rewrite lookup_insert_eq in He; simplify_eq; by right|].
  rewrite lookup_insert_ne in He by done. by left.
Qed.

Lemma elect_keeps t i T1 l l' :
  acked g' x t i -> (acked g x t i -> keeps g t i T1 l) -> agree (llen l) l l' ->
  keeps g' t i T1 l'.
Proof using Hg Hgle.
  intros Ha Hk Hl. eapply keeps_log; [|exact Hl]. eapply (keeps_grow Hg); [done|exact Ha|]. by apply Hk.
Qed.

Lemma elect_commit_ok T1 l l' c :
  commit_ok g T1 l c -> agree (llen l) l l' -> commit_ok g' T1 l' c.
Proof using Hgle.
  intros [->|(t & i & ? & ? & ? & (e & ? & Ha))]%(gle_commit_ok Hgle) Hl; [by left|].
  right. exists t, i. split_and!; try done. exists e. split; [done|].
  eapply agree_trans; [exact Ha|]. eapply agree_le; [exact Hl|]. apply Ha.
Qed.

(** The history stays sound when the new election is, its voters voted for it,
    and it starts from what its voters acknowledged. *)
Lemma elect_ghost_ok :
  election_ok ms g' T e' ->
  (forall y, y ∈ el_votes e' -> exists r, r ∈ g_votes g /\ vr_voter r = y /\ vr_term r = T /\
                                          vr_cand r = x) ->
  (forall y t e i, y ∈ el_votes e' -> acked g y t i -> t < T -> 1 <= i ->
     g_elect g !! t = Some e -> log_term_at (el_log e) i = t -> clean g t i (T - 1) ->
     held g t i (el_base e')) ->
  ghost_ok ms g'.
Proof using Hg Hgle Hlead.
  intros He' Hvotes Hkeeps. pose proof Hg as [].
  constructor; simpl; try done.
  - intros t e He. destruct (decide (t = T)) as [->|].
    + rewrite lookup_insert_eq in He. by simplify_eq.
    + rewrite lookup_insert_ne in He by done. apply (gle_election_ok Hgle). auto.
  - intros t e y He Hy. destruct (decide (t = T)) as [->|].
    + rewrite lookup_insert_eq in He. simplify_eq. auto.
    + rewrite lookup_insert_ne in He by done. eauto.
  - intros r Hr. apply (gle_log_ok Hgle). auto.
  - intros r t i Hr Ha Hlt. eapply (keeps_grow Hg); [done|exact Ha|]. by apply go_vote_keeps.
  - intros t1 e1 y t e i He1 Hy Ha Hlt Hi He Hte Hc.
    destruct (acked_elect Hg _ _ _ Ha) as (e0 & He0 & Hi0).
    assert (Hte0 : log_term_at (el_log e0) i = t).
    { destruct (gle_elect _ _ Hgle _ _ He0) as (e0' & He0' & _ & _ & _ & [k Hk]).
      assert (Heq : Some e0' = Some e) by (rewrite <- He0', <- He; done). simplify_eq.
      rewrite Hk in *. symmetry. rewrite <- (agree_term _ _ _ i (agree_app (el_log e0) k)); done. }
    assert (Hc0 : clean g t i (t1 - 1)) by (eapply (clean_old Hgle); done).
    apply (gle_held Hgle).
    destruct (decide (t1 = T)) as [->|].
    + rewrite lookup_insert_eq in He1. simplify_eq. by eapply Hkeeps.
    + rewrite lookup_insert_ne in He1 by done. by eapply go_elect_keeps.
  - intros y t m Hm. destruct (go_acks _ _ _ Hm) as (e & He & Hl).
    destruct (gle_elect _ _ Hgle _ _ He) as (e2 & He2 & _ & _ & _ & Hp).
    exists e2. split; [done|]. apply prefix_length in Hp. unfold llen in *. lia.
  - intros t i Hi. destruct (go_commits _ _ Hi) as (e & q & He & Hr & Ht & Hq & Hall).
    destruct (gle_elect _ _ Hgle _ _ He) as (e2 & He2 & _ & _ & _ & [k Hk]).
    exists e2, q. rewrite Hk. rewrite <- (agree_term _ _ _ i (agree_app (el_log e) k)) by lia.
    split_and!; try done; try lia. unfold llen in *. rewrite length_app. lia.
Qed.

Lemma elect_disk_ok d :
  disk_ok g soup x d -> T <= current_term (rec_hard_state d) -> disk_ok g' soup x d.
Proof using Hg Hgle.
  intros [] HT. constructor; try done.
  - by apply (gle_log_ok Hgle).
  - by apply (gle_commit_ok Hgle).
  - intros t i Ha. eapply (keeps_grow Hg); [done|exact Ha|]. by apply do_keeps.
  - simpl. intros t e He Hle. destruct (decide (t = T)) as [->|]; [done|].
    rewrite lookup_insert_ne in He by done. by eapply do_led.
Qed.

End elect.

Section leader.
Context {ms : list NodeId} {g : Ghost} {soup : MessageEnvelope -> Prop} {x : NodeId}.
Context {d : RecoveredState} {v : View} {w : bool}.
Context (Hnd : NoDup ms).
Context (Hg : ghost_ok ms g) (Hd : disk_ok g soup x d) (Hv : view_ok ms g soup x v).
Context (Hmsg : forall env, soup env -> message_ok g env).
Context (Hl : link_ok d v w) (Hidle : v_pending v = None).

Let Hdisk : d = target v := idle_disk Hl Hidle.

Lemma votes_recorded y :
  v_role v = candidate -> y ∈ v_votes v ->
  exists r, r ∈ g_votes g /\ vr_voter r = y /\ vr_term r = vterm v /\ vr_cand r = x.
Proof.
  intros Hr Hy. destruct (vo_candidate _ _ _ _ _ Hv Hr) as [_ Hself Hvotes _ _ _].
  destruct (Hvotes y Hy) as [->|Hm]; [by apply (idle_vote Hd Hl Hidle)|].
  by apply (Hmsg _ Hm).
Qed.

(** Election safety: the term of a candidate with a majority has no leader. *)
Lemma lead_first :
  v_role v = candidate -> is_quorum ms (v_votes v) -> g_elect g !! vterm v = None.
Proof.
  intros Hr [Hsub Hsize]. destruct (g_elect g !! vterm v) as [e|] eqn:He; [|done]. exfalso.
  destruct (eo_quorum _ _ _ _ (go_elect _ _ Hg _ _ He)) as [Hsub' Hsize'].
  destruct (majority_intersect ms (v_votes v) (el_votes e)) as (y & Hy & Hy'); [done..|].
  destruct (votes_recorded y Hr Hy) as (r & Hr1 & Hr2 & Hr3 & Hr4).
  destruct (go_elect_votes _ _ Hg _ _ _ He Hy') as (r' & Hr1' & Hr2' & Hr3' & Hr4').
  apply (co_first _ _ _ _ (vo_candidate _ _ _ _ _ Hv Hr) e He).
  rewrite <- Hr4', <- Hr4. apply (go_functional _ _ Hg); congruence.
Qed.

Lemma backed_term i :
  g_elect g !! vterm v = None -> 1 <= i <= llen (v_log v) -> log_term_at (v_log v) i < vterm v.
Proof.
  intros Hn Hi. destruct (vo_log _ _ _ _ _ Hv) as [Hb _ Hbd].
  destruct (Hb i Hi) as (e & He & _). specialize (Hbd i Hi).
  destruct (N.eq_dec (log_term_at (v_log v) i) (vterm v)) as [Heq|]; [|lia].
  rewrite Heq in He. congruence.
Qed.

Lemma act_lead mtch no_op :
  v_role v = candidate -> is_quorum ms (v_votes v) -> map_Forall (fun _ i => i = 0) mtch ->
  no_op = mkLogEntry (llen (v_log v) + 1) (vterm v) None ->
  let v' := mkView (v_id v) (v_members v) leader (v_hs v) (v_log v ++ [no_op]) (v_commit v) ∅ mtch
     (Some (mkPersistBatch None None [no_op] None, after_become_leader)) in
  exists g', ghost_ok ms g' /\ mine g soup g' x /\ disk_ok g' soup x d /\
             view_ok ms g' soup x v' /\ link_ok d v' false.
Proof.
  intros Hr Hq Hm -> v'. set (no_op := mkLogEntry _ _ None) in *.
  pose proof (lead_first Hr Hq) as Hnone.
  set (e' := mkElection x (v_votes v) (v_log v) (v_log v ++ [no_op])).
  set (g' := set_elect (vterm v) e' g).
  assert (Hgle : gle g g').
  { constructor; simpl; auto. intros t e He. exists e. rewrite lookup_insert_ne by congruence.
    split_and!; done. }
  destruct (vo_candidate _ _ _ _ _ Hv Hr) as [Hterm Hself _ Hfresh _ _].
  pose proof (agree_app (v_log v) [no_op]) as Happ.
  assert (Hlog : log_ok g' (v_log v ++ [no_op]) (vterm v)).
  { eapply (log_ok_snoc _ _ _ e'); [apply (gle_log_ok Hgle), Hv|by apply lookup_insert_eq| |done|done].
    simpl. apply agree_refl. by rewrite llen_snoc. }
  assert (HT : vterm v <= current_term (rec_hard_state d)) by by rewrite Hdisk.
  exists g'. split_and!.
  - apply (elect_ghost_ok (x:=x) (T:=vterm v) (e':=e') Hg eq_refl Hgle); simpl.
    + constructor; simpl; try done.
      * rewrite llen_snoc. lia.
      * rewrite llen_snoc. intros i Hi. replace i with (llen (v_log v) + 1) by lia.
        apply log_term_snoc.
      * intros i Hi. by apply backed_term.
    + intros y Hy. by apply votes_recorded.
    + intros y t e i Hy Ha Hlt Hi He Hte Hc.
      destruct (votes_recorded y Hr Hy) as (r & Hr1 & Hr2 & Hr3 & Hr4). subst y.
      destruct (go_vote_keeps _ _ Hg r t i Hr1 Ha) as [_ Hk]; [by rewrite Hr3|].
      assert (Hc' : clean g t i (vterm v)).
      { intros t1 e1 Ht1 He1. apply (Hc t1); [|done].
        assert (t1 <> vterm v) by congruence. lia. }
      rewrite Hr3 in Hk. eapply fresh_held; try done.
      * by apply (go_vote_log _ _ Hg).
      * apply Hv.
      * by apply Hk.
      * by apply Hfresh.
  - by apply (elect_mine (T:=vterm v) (e':=e') eq_refl Hgle).
  - by apply (elect_disk_ok (T:=vterm v) (e':=e') Hg Hgle).
  - constructor; simpl; try done; try apply Hv.
    + apply (elect_commit_ok Hgle _ (v_log v)); [apply Hv|done].
    + intros t i Ha. eapply (elect_keeps Hg Hgle); [exact Ha|apply Hv|done].
    + intros _. constructor.
      * exists e'. split_and!; try done. by apply lookup_insert_eq.
      * intros p j Hj. left. by apply (Hm p j).
    + intros b k [= <- <-]. constructor; try done. intros c Hc. left.
      by apply (idle_vote Hd Hl Hidle).
  - constructor; simpl; [rewrite Hdisk; right; auto|]. by rewrite Hdisk.
Qed.

Lemma act_propose c entry :
  v_role v = leader -> entry = mkLogEntry (llen (v_log v) + 1) (vterm v) (Some c) ->
  let v' := mkView (v_id v) (v_members v) (v_role v) (v_hs v) (v_log v ++ [entry]) (v_commit v)
     (v_votes v) (v_match v) (Some (mkPersistBatch None None [entry] None, after_client_request)) in
  exists g', ghost_ok ms g' /\ mine g soup g' x /\ disk_ok g' soup x d /\
             view_ok ms g' soup x v' /\ link_ok d v' false.
Proof.
  intros Hr -> v'. set (entry := mkLogEntry _ _ (Some c)) in *.
  destruct (vo_leader _ _ _ _ _ Hv Hr) as [(e & He & Hle & Hlog) Hmatch].
  set (e' := mkElection x (el_votes e) (el_base e) (v_log v ++ [entry])).
  set (g' := set_elect (vterm v) e' g).
  assert (Hgle : gle g g').
  { constructor; simpl; auto. intros t e1 He1. destruct (decide (t = vterm v)) as [->|].
    - rewrite lookup_insert_eq. assert (e1 = e) as -> by congruence. exists e'. simpl. rewrite Hlog.
      split_and!; try done. by apply prefix_app_r.
    - rewrite lookup_insert_ne by done. eauto 10. }
  pose proof (agree_app (v_log v) [entry]) as Happ.
  destruct (go_elect _ _ Hg _ _ He) as [Ht1 Hq Helog Hbase Hlong Hown Hold]. rewrite Hlog in *.
  assert (Hlog' : log_ok g' (v_log v ++ [entry]) (vterm v)).
  { eapply (log_ok_snoc _ _ _ e'); [by apply (gle_log_ok Hgle)|by apply lookup_insert_eq| |done|done].
    simpl. apply agree_refl. by rewrite llen_snoc. }
  assert (HT : vterm v <= current_term (rec_hard_state d)) by by rewrite Hdisk.
  exists g'. split_and!.
  - apply (elect_ghost_ok (x:=x) (T:=vterm v) (e':=e') Hg eq_refl Hgle); simpl.
    + constructor; simpl; try done.
      * eapply agree_prefix; [|exact Hbase]. by apply prefix_app_r.
      * rewrite llen_snoc. lia.
      * rewrite llen_snoc. intros i Hi. destruct (decide (i <= llen (v_log v))).
        -- rewrite <- (agree_term _ _ _ i Happ) by done. apply Hown. lia.
        -- replace i with (llen (v_log v) + 1) by lia. apply log_term_snoc.
    + intros y Hy. rewrite <- Hle. by apply (go_elect_votes _ _ Hg).
    + intros y t e1 i Hy Ha Hlt Hi He1 Hte Hc. by eapply (go_elect_keeps _ _ Hg).
  - by apply (elect_mine (T:=vterm v) (e':=e') eq_refl Hgle).
  - by apply (elect_disk_ok (T:=vterm v) (e':=e') Hg Hgle).
  - constructor; simpl; try done; try apply Hv.
    + apply (elect_commit_ok Hgle _ (v_log v)); [apply Hv|done].
    + intros t i Ha. eapply (elect_keeps Hg Hgle); [exact Ha|apply Hv|done].
    + congruence.
    + intros _. constructor; [|exact Hmatch].
      exists e'. split_and!; try done. by apply lookup_insert_eq.
    + intros b k [= <- <-]. constructor; try done. intros c' Hc'. left.
      by apply (idle_vote Hd Hl Hidle).
  - constructor; simpl; [rewrite Hdisk; right; auto|]. by rewrite Hdisk.
Qed.

End leader.

(** ** Commits *)

Definition add_commit (c : Term * LogIndex) (g : Ghost) : Ghost :=
  mkGhost (g_elect g) (g_votes g) (g_acks g) (c :: g_commits g).

Lemma commit_frame c g soup y : frame g soup (add_commit c g) soup y.
Proof.
  constructor; simpl; auto. constructor; simpl; eauto 10.
  intros c' Hc. by apply list_elem_of_further.
Qed.

Lemma commit_ghost_ok ms g t i e q :
  ghost_ok ms g -> g_elect g !! t = Some e -> 1 <= i <= llen (el_log e) ->
  log_term_at (el_log e) i = t -> is_quorum ms q -> (forall y, y ∈ q -> acked g y t i) ->
  ghost_ok ms (add_commit (t, i) g).
Proof.
  intros [] He Hi Ht Hq Ha.
  pose proof (fr_gle _ _ _ _ _ (commit_frame (t, i) g (fun _ => True) 0)) as Hgle.
  constructor; simpl; try done.
  - intros t' e' He'. apply (gle_election_ok Hgle). auto.
  - intros r Hr. apply (gle_log_ok Hgle). auto.
  - intros t' i' [[= -> ->]|H]%elem_of_cons; [|auto]. by exists e, q.
Qed.

Lemma mine_trans g1 g2 g3 soup x :
  mine g1 soup g2 x -> mine g2 soup g3 x -> gle g1 g3 -> mine g1 soup g3 x.
Proof.
  intros H1 H2 Hg. constructor; [done|..].
  - intros y t m H. destruct (mn_acks _ _ _ _ H2 _ _ _ H); [|by right].
    by apply (mn_acks _ _ _ _ H1).
  - intros r H. destruct (mn_votes _ _ _ _ H2 _ H); [|by right].
    by apply (mn_votes _ _ _ _ H1).
  - intros t e H. destruct (mn_elect _ _ _ _ H2 _ _ H); [|by right].
    by apply (mn_elect _ _ _ _ H1).
Qed.

Section commit.
Context {ms : list NodeId} {g : Ghost} {soup : MessageEnvelope -> Prop} {x : NodeId}.
Context {d : RecoveredState} {v : View} {w : bool}.
Context (Hg : ghost_ok ms g) (Hd : disk_ok g soup x d) (Hv : view_ok ms g soup x v).
Context (Hl : link_ok d v w) (Hidle : v_pending v = None).

Lemma act_commit i :
  v_role v = leader -> v_commit v < i -> i <= llen (v_log v) ->
  log_term_at (v_log v) i = vterm v -> is_quorum (v_members v) (match_set v i) ->
  let v' := mkView (v_id v) (v_members v) (v_role v) (v_hs v) (v_log v) i (v_votes v) (v_match v)
     (Some (mkPersistBatch None None [] (Some i), after_advance_commit)) in
  exists g', ghost_ok ms g' /\ mine g soup g' x /\ disk_ok g' soup x d /\
             view_ok ms g' soup x v' /\ link_ok d v' false.
Proof.
  intros Hr Hlt Hle Ht Hq v'. pose proof (idle_disk Hl Hidle) as Hdisk.
  destruct (vo_leader _ _ _ _ _ Hv Hr) as [(e & He & Hlead & Hlog) Hmatch].
  set (g1 := add_ack (x, vterm v, i) g). set (g' := add_commit (vterm v, i) g1).
  assert (Hheld : held g (vterm v) i (v_log v)).
  { exists e. split; [done|]. rewrite Hlog. by apply agree_refl. }
  assert (Hdt : current_term (rec_hard_state d) = vterm v) by by rewrite Hdisk.
  assert (Hg1 : ghost_ok ms g1).
  { eapply ack_ghost_ok; [done..|]. exists e. by rewrite Hlog. }
  assert (Hfr : frame g1 soup g' soup x) by apply commit_frame.
  assert (Hg' : ghost_ok ms g').
  { eapply (commit_ghost_ok _ _ _ _ e (match_set v i)); [done|done|rewrite Hlog; lia|by rewrite Hlog| |].
    - by rewrite <- (vo_members _ _ _ _ _ Hv).
    - intros y. unfold match_set. rewrite (vo_id _ _ _ _ _ Hv).
      intros [->%elem_of_singleton|Hy]%elem_of_union.
      + exists i. split; [done|]. apply list_elem_of_here.
      + apply elem_of_dom in Hy as [j Hj]. apply map_lookup_filter_Some in Hj as [Hj Hij]. simpl in Hij.
        destruct (Hmatch _ _ Hj) as [->|(m & ? & Hm)]; [lia|].
        exists m. split; [lia|]. by apply list_elem_of_further. }
  assert (Hgle : gle g g').
  { constructor; simpl; eauto 10; intros a Ha; by apply list_elem_of_further. }
  exists g'. split_and!; [done| | | |].
  - apply (mine_trans g g1); [apply ack_mine| |done]. constructor; simpl; auto. apply Hfr.
  - eapply (disk_ok_frame Hg1 Hfr). apply ack_disk_ok; [done|done|by rewrite Hdisk].
  - assert (Hv1 : view_ok ms g' soup x v).
    { apply (view_ok_frame Hg1 Hfr). by apply ack_view_ok. }
    destruct Hv1. constructor; try done; simpl.
    + right. exists (vterm v), i. split_and!; [apply list_elem_of_here|done|done|].
      by apply (gle_held Hgle).
    + congruence.
    + intros _. destruct (vo_leader Hr). by constructor.
    + intros b k [= <- <-]. constructor; try done. intros c Hc. left.
      destruct (idle_vote Hd Hl Hidle c Hc) as (r & ? & ?). by exists r.
  - constructor; simpl; [rewrite Hdisk; right; auto|]. rewrite Hdisk.
    unfold apply_batch. simpl. by rewrite app_nil_r.
Qed.

End commit.

(** ** Durable votes *)

Definition add_vote (r : VoteRec) (g : Ghost) : Ghost :=
  mkGhost (g_elect g) (r :: g_votes g) (g_acks g) (g_commits g).

Section write.
Context {ms : list NodeId} {g : Ghost} {soup : MessageEnvelope -> Prop} {x : NodeId}.
Context {d : RecoveredState} {v : View}.
Context (Hg : ghost_ok ms g) (Hd : disk_ok g soup x d) (Hv : view_ok ms g soup x v).
Context (Hhs : hs_le (rec_hard_state d) (v_hs v)).

Lemma disk_term : current_term (rec_hard_state d) <= vterm v.
Proof using Hhs. unfold vterm. destruct Hhs as [?|[? _]]; lia. Qed.

(** A vote of the current term on record is the node's vote. *)
Lemma recorded_vote r :
  r ∈ g_votes g -> vr_voter r = x ->
  vr_term r <= vterm v /\ (vr_term r = vterm v -> voted_for (v_hs v) = Some (vr_cand r)).
Proof using Hd Hhs.
  intros Hr Hx. destruct (do_voter _ _ _ _ Hd r Hr Hx) as [Hle Heq]. pose proof disk_term.
  split; [lia|]. intros Ht. destruct Hhs as [?|[Hte Hvo]]; [unfold vterm in *; lia|].
  unfold vterm in Ht. rewrite <- Hte in Ht. specialize (Heq Ht). destruct Hvo as [?|<-]; congruence.
Qed.

(** The disk after the write, when the vote it stores is on record. *)
Lemma write_disk_ok g' :
  gle g g' -> ghost_ok ms g -> g_acks g' = g_acks g -> g_elect g' = g_elect g ->
  view_ok ms g' soup x v ->
  (forall r, r ∈ g_votes g' -> r ∈ g_votes g \/
     (vr_voter r = x /\ vr_term r = vterm v /\ voted_for (v_hs v) = Some (vr_cand r))) ->
  (forall c, voted_for (v_hs v) = Some c -> exists r, r ∈ g_votes g' /\ vr_voter r = x /\
     vr_term r = vterm v /\ vr_cand r = c) ->
  disk_ok g' soup x (target v).
Proof using Hd Hhs.
  intros Hgle _ Hacks Helect Hv' Hnew Hrec. pose proof disk_term as HT.
  constructor; simpl; fold (vterm v).
  - apply Hv'.
  - apply Hv'.
  - intros t i Ha. by apply (vo_keeps _ _ _ _ _ Hv').
  - intros r Hr Hx. destruct (Hnew r Hr) as [Hold|(_ & -> & ?)]; [|done].
    by apply recorded_vote.
  - exact Hrec.
  - intros r Hr Hx. destruct (Hnew r Hr) as [Hold|(_ & -> & _)]; [|done].
    pose proof (do_cand _ _ _ _ Hd r Hold Hx). lia.
  - intros to m Hm. pose proof (do_request _ _ _ _ Hd to m Hm). lia.
  - intros t e He Hle. rewrite Helect in He. pose proof (do_led _ _ _ _ Hd t e He Hle). lia.
Qed.

Lemma vote_ghost_ok c :
  voted_for (v_hs v) = Some c -> ghost_ok ms (add_vote (mkVoteRec x (vterm v) c (v_log v)) g).
Proof using Hg Hd Hv Hhs.
  intros Hc. set (r := mkVoteRec _ _ _ _). set (g' := add_vote r g).
  assert (Hgle : gle g g').
  { constructor; simpl; eauto 10. intros r' Hr'. by apply list_elem_of_further. }
  pose proof Hg as []. constructor; simpl; try done.
  - intros t e He. apply (gle_election_ok Hgle). auto.
  - intros t e y He Hy. destruct (go_elect_votes _ _ _ He Hy) as (r' & ? & ?).
    exists r'. split; [|done]. by apply list_elem_of_further.
  - intros r1 r2 [->|H1]%elem_of_cons [->|H2]%elem_of_cons Hx Ht; simpl in *; [done|..|auto].
    + destruct (recorded_vote r2 H2) as [_ Heq]; [done|]. rewrite Heq in Hc by done. by simplify_eq.
    + destruct (recorded_vote r1 H1) as [_ Heq]; [done|]. rewrite Heq in Hc by done. by simplify_eq.
  - intros r' [->|Hr']%elem_of_cons; apply (gle_log_ok Hgle); simpl; [apply Hv|auto].
  - intros r' t i [->|Hr']%elem_of_cons Ha Hlt; simpl in *.
    + by apply (vo_keeps _ _ _ _ _ Hv).
    + by apply go_vote_keeps.
Qed.

Lemma act_write b k :
  v_pending v = Some (b, k) ->
  exists g', ghost_ok ms g' /\ mine g soup g' x /\ disk_ok g' soup x (target v) /\
             view_ok ms g' soup x v.
Proof using Hg Hd Hv Hhs.
  intros Hp. pose proof (po_vote _ _ _ _ _ _ (vo_pending _ _ _ _ _ Hv _ _ Hp)) as Hpo.
  destruct (voted_for (v_hs v)) as [c|] eqn:Hc.
  2: { exists g. split_and!; [done|apply mine_refl| |done].
    apply write_disk_ok; auto; [reflexivity|congruence]. }
  destruct (Hpo c eq_refl) as [Hrec|Hnew].
  { exists g. split_and!; [done|apply mine_refl| |done].
    apply write_disk_ok; auto; [reflexivity|]. intros c' Hc'. by simplify_eq. }
  set (r := mkVoteRec x (vterm v) c (v_log v)). set (g' := add_vote r g).
  assert (Hgle : gle g g').
  { constructor; simpl; eauto 10. intros r' Hr'. by apply list_elem_of_further. }
  assert (Hmine : mine g soup g' x).
  { constructor; simpl; auto. intros r' [->|?]%elem_of_cons; [|by left]. right. split; [done|].
    simpl. destruct Hnew as [[-> _]|(_ & m & ? & ? & ?)]; eauto 10. }
  assert (Hv' : view_ok ms g' soup x v).
  { destruct Hv. constructor; try done.
    - by apply (gle_log_ok Hgle).
    - intros Hr. destruct (vo_candidate Hr). constructor; try done. simpl.
      intros r' [->|Hr']%elem_of_cons; [|auto]. intros _ _. apply up_to_date_refl.
    - intros Hr. destruct (vo_leader Hr). by constructor.
    - intros b' k' Hp'. destruct (vo_pending b' k' Hp'). constructor; try done.
      intros c' Hc'. destruct (po_vote c' Hc') as [(r' & ? & ?)|?]; [|by right].
      left. exists r'. split; [|done]. by apply list_elem_of_further. }
  exists g'. split_and!; [by apply vote_ghost_ok|done| |done].
  apply write_disk_ok; auto.
  - intros r' [->|?]%elem_of_cons; [|by left]. by right.
  - intros c' Hc'. simplify_eq. exists r. split; [apply list_elem_of_here|done].
Qed.

End write.
