(* ===== verification/SystemSafety.v ===== *)
(** * SystemSafety: the invariant is inductive, and what follows from it *)

From S2P Require Import Prelude Model StateMachine RaftTypes Raft RaftSpec RaftRefine RaftReplicate RaftElection RaftAppend System SystemFrame SystemSteps SystemLog.

(** ** Preservation *)

Section preserve.
Context (ms : list NodeId) (Hnd : NoDup ms).

Lemma out_nil (P : MessageEnvelope -> Prop) : Forall P [].
Proof. constructor. Qed.

(** An action without ghost change and without vote requests. *)
Lemma preserve_plain st g x v' out :
  inv ms st g -> no_request out ->
  Forall (fun env => env_from env = x /\ message_ok g env) out ->
  (live v' -> view_ok ms g (y_soup st) x v' /\ link_ok (y_disk st x) v' false) ->
  inv ms (mkSys (upd (y_view st) x v') (y_disk st) (upd (y_written st) x false)
            (fun e => y_soup st e \/ e ∈ out)) g.
Proof.
  intros Hi Hn Hout Hv. pose proof (self_frame g (y_soup st) x out Hn) as Hf.
  eapply (inv_local ms st _ g g x out); simpl; [done|apply Hi|apply mine_refl| |done|done|..].
  - intros y Hy. by rewrite !upd_other.
  - eapply (disk_ok_frame (inv_ghost _ _ _ Hi) Hf). apply Hi.
  - rewrite !upd_same. intros Hl. destruct (Hv Hl) as [Hv1 Hv2]. split; [|done].
    by apply (view_ok_frame (inv_ghost _ _ _ Hi) Hf).
Qed.

(** An action that extends history and sends nothing. *)
Lemma preserve_ghost st g g' x v' :
  inv ms st g -> ghost_ok ms g' -> mine g (y_soup st) g' x ->
  disk_ok g' (y_soup st) x (y_disk st x) -> view_ok ms g' (y_soup st) x v' ->
  link_ok (y_disk st x) v' false ->
  inv ms (mkSys (upd (y_view st) x v') (y_disk st) (upd (y_written st) x false)
            (fun e => y_soup st e \/ e ∈ [])) g'.
Proof.
  intros Hi Hg' Hm Hd Hv Hl.
  pose proof (self_frame g' (y_soup st) x [] ltac:(constructor)) as Hf.
  eapply (inv_local ms st _ g g' x []); simpl; [done..| |done|constructor| |].
  - intros y Hy. by rewrite !upd_other.
  - by apply (disk_ok_frame Hg' Hf).
  - rewrite !upd_same. intros _. split; [|done]. by apply (view_ok_frame Hg' Hf).
Qed.

(** An acknowledgement leaves node [x], whose log holds the prefix durably. *)
Lemma preserve_ack st g x v' f r m :
  inv ms st g -> live v' -> view_ok ms g (y_soup st) x v' -> link_ok (y_disk st x) v' false ->
  y_disk st x = target v' -> held g (vterm v') m (v_log v') ->
  exists g', inv ms
    (mkSys (upd (y_view st) x v') (y_disk st) (upd (y_written st) x false)
       (fun e => y_soup st e \/ e ∈ released x (vterm v') (after_append_accept f r m false))) g'.
Proof.
  intros Hi Hlive Hv Hl Hd Hh. set (g' := add_ack (x, vterm v', m) g). exists g'.
  pose proof (inv_disk _ _ _ Hi x) as Hdisk. rewrite Hd in Hdisk.
  assert (Hg' : ghost_ok ms g').
  { eapply (ack_ghost_ok (soup:=y_soup st)); [apply Hi|exact Hdisk|done|].
    destruct Hh as (e & He & Ha). exists e. split; [done|apply Ha]. }
  pose proof (self_frame g' (y_soup st) x (released x (vterm v') (after_append_accept f r m false))
    ltac:(repeat constructor)) as Hf.
  eapply (inv_local ms st _ g g' x); simpl; [done|done|apply ack_mine| |done| |..].
  - intros y Hy. by rewrite !upd_other.
  - by repeat constructor.
  - rewrite Hd. apply (disk_ok_frame Hg' Hf). by apply ack_disk_ok.
  - rewrite !upd_same. intros _. split; [|done]. apply (view_ok_frame Hg' Hf). by apply ack_view_ok.
Qed.

Lemma denial_ok g x t env : denial x t env -> env_from env = x /\ message_ok g env.
Proof.
  intros [Hf Hm]. split; [done|]. unfold message_ok.
  destruct (env_message env); try done; intros; destruct Hm; congruence.
Qed.

Lemma apply_batch_empty d b : batch_empty b = true -> apply_batch d b = d.
Proof.
  intros ->%batch_empty_spec. unfold apply_batch. simpl. rewrite app_nil_r. by destruct d.
Qed.

Lemma preserve_request st g x v to :
  inv ms st g -> y_view st x = v -> v_role v = candidate -> v_pending v = None ->
  inv ms (mkSys (upd (y_view st) x v) (y_disk st) (upd (y_written st) x false)
            (fun e => y_soup st e \/ e ∈ [mkMessageEnvelope x to
               (MRequestVote (mkRequestVote (vterm v) x (llen (v_log v)) (last_term (v_log v))))])) g.
Proof.
  intros Hi <- Hr Hp. set (v := y_view st x) in *.
  assert (Hlive : live v) by (unfold live; congruence).
  pose proof (inv_view _ _ _ Hi x Hlive) as Hv. pose proof (inv_link _ _ _ Hi x Hlive) as Hl.
  pose proof (inv_disk _ _ _ Hi x) as Hd. pose proof (idle_disk Hl Hp) as Hdisk.
  eapply (inv_local ms st _ g g x); simpl; [done|apply Hi|apply mine_refl| |done| |..].
  - intros y Hy. by rewrite !upd_other.
  - by repeat constructor.
  - destruct Hd. constructor; try done. intros to' m [?|H]; [by eapply do_request|].
    apply list_elem_of_singleton in H. injection H as _ ->. simpl. by rewrite Hdisk.
  - rewrite !upd_same. intros _. split.
    + destruct Hv. constructor; try done.
      * intros _. destruct (vo_candidate Hr). constructor; try done.
        -- intros y Hy. destruct (co_votes y Hy); auto.
        -- intros to' m [?|H]; [by eapply co_request|].
           apply list_elem_of_singleton in H. by injection H as _ ->.
      * intros b k Hb. congruence.
    + destruct Hl. constructor; [done|]. by rewrite Hp.
Qed.

(** The follower's side of replication. *)
Lemma preserve_append st g x v from m hs log commit votes matched b out pend :
  inv ms st g -> y_view st x = v -> live v -> v_pending v = None ->
  y_soup st (mkMessageEnvelope from (v_id v) (MAppendEntries m)) ->
  vterm v <= ae_term m ->
  hs = (if vterm v <? ae_term m then mkHardState (ae_term m) None else v_hs v) ->
  ae_prev_log_index m <= llen (v_log v) ->
  log_term_at (v_log v) (ae_prev_log_index m) = ae_prev_log_term m ->
  log = splice (v_log v) (N.to_nat (ae_prev_log_index m)) (ae_entries m) ->
  take (N.to_nat (v_commit v)) log = take (N.to_nat (v_commit v)) (v_log v) ->
  matched = ae_prev_log_index m + N.of_nat (length (ae_entries m)) ->
  commit = N.max (v_commit v) (N.min (ae_leader_commit m) matched) ->
  apply_batch (target v) b = mkRecoveredState hs log commit ->
  (if batch_empty b
   then pend = None /\
        out = released (v_id v) (current_term hs) (after_append_accept from (ae_rpc_id m) matched false)
   else exists apply, out = [] /\
        pend = Some (b, after_append_accept from (ae_rpc_id m) matched apply)) ->
  exists g', inv ms
    (mkSys (upd (y_view st) x (mkView (v_id v) (v_members v) follower hs log commit votes ∅ pend))
       (y_disk st) (upd (y_written st) x false) (fun e => y_soup st e \/ e ∈ out)) g'.
Proof.
  intros Hi Ev Hlive Hidle Hm HT Hhs Hprev Hpt Hlog Htake Hmatched Hcommit Hb Hpend.
  pose proof (inv_ghost _ _ _ Hi) as Hg. pose proof (inv_disk _ _ _ Hi x) as Hd.
  rewrite <- Ev in Hlive. pose proof (inv_view _ _ _ Hi x Hlive) as Hv.
  pose proof (inv_link _ _ _ Hi x Hlive) as Hl. rewrite Ev in Hv, Hl, Hlive.
  pose proof (idle_disk Hl Hidle) as Hdisk.
  destruct (act_append Hg Hd Hv Hl Hidle from m (inv_message _ _ _ Hi _ Hm) HT Hprev Hpt hs commit
    votes pend) as (Hv' & Hvt & Hheld & Hle); [done|by rewrite <- Hlog|by rewrite <- Hmatched| |].
  { intros b' a Hba. rewrite <- Hmatched. destruct (batch_empty b).
    - destruct Hpend. congruence.
    - destruct Hpend as (apply & _ & ->). simplify_eq. eauto. }
  rewrite <- Hlog, <- Hmatched in *.
  destruct (batch_empty b) eqn:He.
  - destruct Hpend as [-> ->]. rewrite apply_batch_empty in Hb by done.
    pose proof (vo_id _ _ _ _ _ Hv) as Hid. rewrite Hid in *.
    apply (preserve_ack st g x (mkView x (v_members v) follower hs log commit votes ∅ None)
      from (ae_rpc_id m) matched); try done.
    + constructor; [by rewrite Hdisk|]. simpl. by rewrite Hdisk, Hb.
    + by rewrite Hdisk, Hb.
  - destruct Hpend as (apply & -> & ->). exists g. apply preserve_plain; [done|constructor..|].
    intros _. split; [done|]. constructor; simpl; [by rewrite Hdisk|]. by rewrite Hdisk, Hb.
Qed.

(** The actions of a live idle node. *)
Lemma preserve_act st g x out v v' :
  inv ms st g -> y_view st x = v -> vstep (y_soup st) v out v' ->
  exists g', inv ms
    (mkSys (upd (y_view st) x v') (y_disk st) (upd (y_written st) x false)
       (fun e => y_soup st e \/ e ∈ out)) g'.
Proof.
  intros Hi Ev Hstep.
  assert (Hcase : v_role v' = unavailable /\ out = [] \/ live v /\ v_pending v = None).
  { unfold live. destruct Hstep; auto; right; split; congruence || (destruct H; congruence) || auto. }
  destruct Hcase as [[Hdead ->]|[Hlive Hidle]].
  { exists g. apply preserve_plain; [done|constructor|constructor|]. intros Hl. by destruct Hl. }
  pose proof (inv_ghost _ _ _ Hi) as Hg. pose proof (inv_disk _ _ _ Hi x) as Hd.
  assert (Hlive' := Hlive). rewrite <- Ev in Hlive'.
  pose proof (inv_view _ _ _ Hi x Hlive') as Hv. pose proof (inv_link _ _ _ Hi x Hlive') as Hl.
  rewrite Ev in Hv, Hl. clear Hlive'. pose proof (idle_disk Hl Hidle) as Hdisk.
  assert (Hid : v_id v = x) by apply Hv. assert (Hms : v_members v = ms) by apply Hv.
  assert (Hplain : forall v1, view_ok ms g (y_soup st) x v1 /\ link_ok (y_disk st x) v1 false ->
    exists g', inv ms (mkSys (upd (y_view st) x v1) (y_disk st) (upd (y_written st) x false)
      (fun e => y_soup st e \/ e ∈ [])) g').
  { intros v1 Hv1. exists g. by apply preserve_plain; [done|constructor..|]. }
  assert (Hghost : forall v1, (exists g', ghost_ok ms g' /\ mine g (y_soup st) g' x /\
      disk_ok g' (y_soup st) x (y_disk st x) /\ view_ok ms g' (y_soup st) x v1 /\
      link_ok (y_disk st x) v1 false) ->
    exists g', inv ms (mkSys (upd (y_view st) x v1) (y_disk st) (upd (y_written st) x false)
      (fun e => y_soup st e \/ e ∈ [])) g').
  { intros v1 (g' & ? & ? & ? & ? & ?). exists g'. by apply (preserve_ghost st g). }
  assert (Hsend : forall env, env_from env = x -> message_ok g env ->
    match env_message env with MRequestVote _ => False | _ => True end ->
    exists g', inv ms (mkSys (upd (y_view st) x v) (y_disk st) (upd (y_written st) x false)
      (fun e => y_soup st e \/ e ∈ [env])) g').
  { intros env H1 H2 H3. exists g. apply preserve_plain; [done|by repeat constructor..|].
    intros _. split; [done|]. destruct Hl. constructor; [done|]. by rewrite Hidle. }
  destruct Hstep as [ v role hs log commit votes mtch pend Hrole _ _ _ | v env _ _ Hden | v b _ _ Hb | v to Hr _ | v t k _ _ Ht Hk
    | v from m wl _ _ Hm _ Hne _ Ht Hup | v from m wl _ _ Hm _ Hne _ Ht Hn Hup
    | v from m _ _ Hm _ Ht Hvote _ | v from m Hr _ Hm Hgr Ht _ | v mtch no_op Hr _ Hq Hmt Hno
    | v Hr _ | v to rpc prev n Hr _ Hprev | v from m hs log commit votes matched b out pend
    | v votes | v from m old i Hr _ Hm Hs Ht Ho Hle Hge | v i Hr _ Hlt Hle Ht Hq | v c entry Hr _ He ].
  - exists g. apply preserve_plain; [done|constructor..|]. intros Hlv. by destruct Hlv.
  - destruct (denial_ok g _ _ _ Hden) as [Hf Hok]. rewrite Hid in Hf. apply Hsend; [done|done|].
    destruct Hden as [_ Hden]. by destruct (env_message env).
  - apply Hplain. eapply act_campaign; done.
  - rewrite Hid. exists g. by apply preserve_request.
  - apply Hplain. eapply act_observe; done.
  - apply Hplain. eapply act_grant_higher; done.
  - apply Hplain. eapply act_grant; done.
  - apply Hsend; [done| |done]. intros _. rewrite Hid. by apply (idle_vote Hd Hl Hidle).
  - apply Hplain. eapply act_count_vote with (m := m); done.
  - apply Hghost. eapply act_lead; try done; [by apply Hi|by rewrite <- Hms].
  - apply Hplain. eapply act_follow; done.
  - apply Hsend; [done| |done]. simpl.
    destruct (vo_leader _ _ _ _ _ Hv Hr) as [(e & He & _ & Hlog) _].
    exists e. simpl. rewrite Hlog. split_and!; try done; [by rewrite take_length_take|apply Hv].
  - by eapply preserve_append.
  - apply Hplain. eapply act_follow; done.
  - apply Hplain. eapply act_acknowledge with (m := m); try done. by apply Hi.
  - apply Hghost. eapply act_commit; done.
  - apply Hghost. eapply act_propose; done.
Qed.

Lemma preserve_complete st g x out v v' :
  inv ms st g -> y_view st x = v -> y_written st x = true -> vcomplete v out v' ->
  exists g', inv ms
    (mkSys (upd (y_view st) x v') (y_disk st) (upd (y_written st) x false)
       (fun e => y_soup st e \/ e ∈ out)) g'.
Proof.
  intros Hi Ev Hw Hc. destruct Hc as [v b k Hlive Hp].
  assert (Hlive' := Hlive). rewrite <- Ev in Hlive'.
  pose proof (inv_view _ _ _ Hi x Hlive') as Hv. pose proof (inv_link _ _ _ Hi x Hlive') as Hl.
  pose proof (inv_disk _ _ _ Hi x) as Hd.
  rewrite Ev in Hv, Hl. rewrite Hw in Hl. destruct Hl as [Hle [Hdisk _]].
  set (v' := mkView _ _ _ _ _ _ _ _ None).
  assert (Hv' : view_ok ms g (y_soup st) x v').
  { destruct Hv. constructor; try done.
    - intros Hr. destruct (vo_candidate Hr). by constructor.
    - intros Hr. destruct (vo_leader Hr). by constructor. }
  assert (Hl' : link_ok (y_disk st x) v' false) by by constructor.
  destruct (vo_pending _ _ _ _ _ Hv b k Hp) as [_ Hgrant Hack].
  assert (Hid : v_id v = x) by apply Hv.
  destruct k as [|from grant wl| | |from rpc ci ct|from rpc m apply| |]; simpl;
    try (exists g; apply preserve_plain; [done|by repeat constructor| |done]; repeat constructor; done).
  - exists g. apply preserve_plain; [done|by repeat constructor| |done]. repeat constructor; [done|].
    intros Hgr. simpl in Hgr. subst grant. specialize (Hgrant _ _ eq_refl).
    pose proof (do_voted _ _ _ _ Hd) as Hdv. rewrite Hdisk in Hdv. simpl. rewrite Hid. by apply Hdv.
  - rewrite Hid. apply (preserve_ack st g x v' from rpc m); try done. by eapply Hack.
Qed.

Lemma inv_step st st' g : inv ms st g -> sys_step ms st st' -> exists g', inv ms st' g'.
Proof.
  intros Hi Hs. destruct Hs as [st x out v' Hs|st x b k Hlive Hp Hw|st x out v' Hw Hc|st x].
  - by eapply preserve_act.
  - pose proof (inv_link _ _ _ Hi x Hlive) as [Hle Hdisk]. rewrite Hw, Hp in Hdisk.
    destruct (act_write (inv_ghost _ _ _ Hi) (inv_disk _ _ _ Hi x) (inv_view _ _ _ Hi x Hlive) Hle
      b k Hp) as (g' & Hg' & Hm & Hd' & Hv').
    exists g'. rewrite Hdisk. eapply (inv_local ms st _ g g' x []); simpl; [done..| | |constructor| |].
    + intros y Hy. by rewrite !upd_other.
    + intros e. split; [by left|]. intros [?|H]; [done|]. by apply not_elem_of_nil in H.
    + by rewrite upd_same.
    + rewrite !upd_same. intros _. split; [done|]. constructor; [right; auto|].
      split; [done|congruence].
  - by eapply preserve_complete.
  - exists g. eapply (inv_local ms st _ g g x []); simpl; [done|apply Hi|apply mine_refl| | |constructor|apply Hi|].
    + intros y Hy. by rewrite !upd_other.
    + intros e. split; [by left|]. intros [?|H]; [done|]. by apply not_elem_of_nil in H.
    + rewrite !upd_same. intros _. pose proof (inv_disk _ _ _ Hi x) as []. split.
      * by constructor.
      * constructor; [right; auto|]. by destruct (y_disk st x).
Qed.

End preserve.

(** ** Consequences *)

Definition empty_ghost : Ghost := mkGhost ∅ [] [] [].

Lemma log_ok_nil g T : log_ok g [] T.
Proof. constructor; unfold backed, llen; simpl; intros; lia. Qed.

Lemma inv_init ms : inv ms (sys_init ms) empty_ghost.
Proof.
  assert (Hnone : forall t (e : Election), g_elect empty_ghost !! t = Some e -> False).
  { intros t e He. simpl in He. by rewrite lookup_empty in He. }
  assert (Hack : forall x t i, ~ acked empty_ghost x t i).
  { intros x t i (m & _ & Hm). by apply not_elem_of_nil in Hm. }
  constructor; simpl.
  - constructor; intros; exfalso; repeat match goal with
      | H : _ ∈ g_votes empty_ghost |- _ => by apply not_elem_of_nil in H
      | H : _ ∈ g_acks empty_ghost |- _ => by apply not_elem_of_nil in H
      | H : _ ∈ g_commits empty_ghost |- _ => by apply not_elem_of_nil in H
      | H : g_elect empty_ghost !! _ = Some _ |- _ => by apply Hnone in H
      end.
  - done.
  - intros x. constructor; simpl; try done; try apply log_ok_nil; try (by left).
    all: intros; exfalso; first [by eapply Hack|by eapply Hnone|by eapply not_elem_of_nil].
  - intros x _. constructor; simpl; try done; try apply log_ok_nil; try (by left).
    all: intros; exfalso; by eapply Hack.
  - intros x _. constructor; [right; auto|done].
Qed.

Lemma inv_reachable ms st : NoDup ms -> reachable ms st -> exists g, inv ms st g.
Proof.
  intros Hnd. induction 1 as [|st st' _ [g Hi] Hs]; [eexists; apply inv_init|].
  by eapply inv_step.
Qed.

Section safety.
Context {ms : list NodeId} (Hnd : NoDup ms) {g : Ghost} (Hg : ghost_ok ms g).

(** Leader completeness: whoever leads a later term started from a log that
    holds every committed entry. *)
Lemma committed_held t i t' e' :
  (t, i) ∈ g_commits g -> t < t' -> g_elect g !! t' = Some e' -> held g t i (el_base e').
Proof.
  intros Hc. revert e'. induction (N.lt_wf_0 t') as [t' _ IH]. intros e' Hlt He'.
  destruct (go_commits _ _ Hg _ _ Hc) as (e & q & He & Hi & Hte & [Hq1 Hq2] & Hq).
  destruct (eo_quorum _ _ _ _ (go_elect _ _ Hg _ _ He')) as [Hv1 Hv2].
  destruct (majority_intersect ms q (el_votes e')) as (y & Hy & Hy'); [done..|].
  eapply (go_elect_keeps _ _ Hg t' e' y t e i); auto; [lia|].
  intros t1 e1 Ht1 He1. apply (IH t1); [lia|lia|done].
Qed.

Lemma committed_held_log t i t' e' :
  (t, i) ∈ g_commits g -> t <= t' -> g_elect g !! t' = Some e' -> held g t i (el_log e').
Proof.
  intros Hc Hle He'. destruct (N.eq_dec t t') as [->|].
  - destruct (go_commits _ _ Hg _ _ Hc) as (e & q & He & Hi & _). simplify_eq.
    exists e'. split; [done|]. apply agree_refl. lia.
  - destruct (committed_held t i t' e') as (e & He & Ha); [done|lia|done|].
    exists e. split; [done|]. eapply agree_trans; [exact Ha|].
    eapply agree_le; [apply (eo_base _ _ _ _ (go_elect _ _ Hg _ _ He'))|apply Ha].
Qed.

(** Two covered commit indexes agree on the shorter prefix. *)
Lemma commits_agree T1 l1 c1 T2 l2 c2 :
  commit_ok g T1 l1 c1 -> commit_ok g T2 l2 c2 -> agree (N.min c1 c2) l1 l2.
Proof.
  intros [->|(t1 & i1 & Hc1 & _ & Hi1 & (e1 & He1 & Ha1))]; [intros _; rewrite N.min_l by lia; apply agree_zero|].
  intros [->|(t2 & i2 & Hc2 & _ & Hi2 & (e2 & He2 & Ha2))];
    [rewrite N.min_r by lia; apply agree_zero|].
  assert (H12 : agree (N.min c1 c2) (el_log e1) (el_log e2)).
  { destruct (N.le_ge_cases t1 t2) as [Hle|Hle].
    - destruct (committed_held_log t1 i1 t2 e2) as (e & He & Ha); [done..|]. simplify_eq.
      eapply agree_le; [exact Ha|lia].
    - destruct (committed_held_log t2 i2 t1 e1) as (e & He & Ha); [done..|]. simplify_eq.
      apply agree_sym. eapply agree_le; [exact Ha|lia]. }
  eapply agree_trans; [apply agree_sym; eapply agree_le; [exact Ha1|lia]|].
  eapply agree_trans; [exact H12|]. eapply agree_le; [exact Ha2|lia].
Qed.

End safety.
