(* ===== verification/Deployment.v ===== *)
(** * Deployment: a cluster of real nodes

    The hosts of a cluster run [RaftNode::step]; this file gives the executable
    transitions of such a cluster (events, disk writes, completions, crashes)
    and shows that it refines the abstract system of [System]. *)

From S2P Require Import Prelude Model StateMachine RaftTypes Raft RaftSpec RaftRefine RaftReplicate RaftElection RaftAppend RaftStep System SystemFrame SystemSteps SystemLog SystemSafety.

Record Host := mkHost {
  h_node : RaftNode;
  h_disk : RecoveredState;
  h_written : bool;
}.

(** The hosts and every message sent so far; a message may be delivered any
    number of times, in any order, or never. *)
Record Net := mkNet {
  n_host : gmap N Host;
  n_sent : list MessageEnvelope;
}.

Inductive Action :=
  | act_start (x : NodeId)
  | act_event (x : NodeId) (ev : RaftEvent)
  | act_disk_write (x : NodeId)
  | act_disk_done (x : NodeId)
  | act_crash (x : NodeId).

Definition message_wfb (m : Message) : bool :=
  match m with
  | MRequestVote m => rv_term m <=? u64_max
  | MRequestVoteResponse m => rvr_term m <=? u64_max
  | MAppendEntries m => (ae_term m <=? u64_max) && (ae_prev_log_index m <=? u64_max)
  | MAppendEntriesResponse m => aer_term m <=? u64_max
  end.

(** The events the environment may hand to a host: messages that were sent, and
    any timer, client request or storage report, except that a successful
    completion needs the write to have happened. *)
Definition event_allowed (sent : list MessageEnvelope) (ev : RaftEvent) (n : RaftNode) : bool :=
  match ev with
  | MessageReceived env => bool_decide (env ∈ sent) && message_wfb (env_message env)
  | _ => negb (completed ev n)
  end.

Definition run_host (net : Net) (x : NodeId) (h : Host) (m : M unit) (written : RaftNode -> bool)
  : option Net :=
  match m (h_node h) with
  | Returns (_, n', es) =>
      Some (mkNet (<[x := mkHost n' (h_disk h) (written n')]> (n_host net))
              (n_sent net ++ sends es))
  | Throws _ => None
  end.

Definition act (cfg : NodeId -> RaftConfig) (net : Net) (a : Action) : option Net :=
  match a with
  | act_start x =>
      h ← n_host net !! x;
      run_host net x h start (fun _ => h_written h)
  | act_event x ev =>
      h ← n_host net !! x;
      if event_allowed (n_sent net) ev (h_node h)
      then run_host net x h (step ev)
             (fun n' => h_written h && negb (is_none (pending_storage_ n')))
      else None
  | act_disk_write x =>
      h ← n_host net !! x;
      p ← pending_storage_ (h_node h);
      if h_written h then None
      else Some (mkNet (<[x := mkHost (h_node h) (apply_batch (h_disk h) (ps_batch p)) true]>
                          (n_host net)) (n_sent net))
  | act_disk_done x =>
      h ← n_host net !! x;
      p ← pending_storage_ (h_node h);
      if h_written h
      then run_host net x h (step (StorageComplete (ps_op_id p) true EmptyString)) (fun _ => false)
      else None
  | act_crash x =>
      h ← n_host net !! x;
      match RaftNode_new (cfg x) (h_disk h) with
      | Returns n => Some (mkNet (<[x := mkHost n (h_disk h) false]> (n_host net)) (n_sent net))
      | Throws _ => None
      end
  end.

(** All hosts start from an empty disk. *)
Fixpoint boot (cfg : NodeId -> RaftConfig) (xs : list NodeId) : option (gmap N Host) :=
  match xs with
  | [] => Some ∅
  | x :: xs =>
      hs ← boot cfg xs;
      match RaftNode_new (cfg x) empty_disk with
      | Returns n => Some (<[x := mkHost n empty_disk false]> hs)
      | Throws _ => None
      end
  end.

Fixpoint acts (cfg : NodeId -> RaftConfig) (net : Net) (l : list Action) : option Net :=
  match l with
  | [] => Some net
  | a :: l => net' ← act cfg net a; acts cfg net' l
  end.

(** The states of a cluster of nodes [ms]. *)
Definition cluster (cfg : NodeId -> RaftConfig) (ms : list NodeId) (net : Net) : Prop :=
  exists hs l, boot cfg ms = Some hs /\ acts cfg (mkNet hs []) l = Some net.

(** The configurations agree on the membership and fit their types. *)
Definition configured (cfg : NodeId -> RaftConfig) (ms : list NodeId) : Prop :=
  forall x, x ∈ ms -> node_id (cfg x) = x /\ members (cfg x) = ms /\
                      max_append_bytes_per_rpc (cfg x) <= u64_max.

(** ** Sequences of actions of one node in the abstract system *)

Section abstract.
Context {ms : list NodeId}.

Lemma dead_steps soup v out v' :
  vsteps soup v out v' -> v_role v = unavailable -> v_pending v = None ->
  v_role v' = unavailable /\ v_pending v' = None /\ out = [].
Proof.
  induction 1 as [v|v ms1 v1 ms2 v2 Hs _ IH]; intros Hr Hp; [done|].
  assert (Hfail : v_role v1 = unavailable /\ v_pending v1 = None /\ ms1 = []).
  { destruct Hs; simpl in *; try done; try congruence;
      match goal with H : _ \/ _ |- _ => destruct H; congruence end. }
  destruct Hfail as (H1 & H2 & ->). by destruct (IH H1 H2) as (? & ? & ->).
Qed.

Lemma hs_le_refl h : hs_le h h.
Proof. right. auto. Qed.

Lemma hs_le_trans h1 h2 h3 : hs_le h1 h2 -> hs_le h2 h3 -> hs_le h1 h3.
Proof.
  intros [H1|[H1 V1]] [H2|[H2 V2]]; [left; lia|left; lia|left; lia|right].
  split; [congruence|]. destruct V1 as [V1|V1]; [by left|]. rewrite V1. done.
Qed.

(** Terms only grow, and within a term a vote is cast at most once. *)
Lemma vstep_hs soup v out v' :
  vstep soup v out v' -> live v' -> hs_le (v_hs v) (v_hs v').
Proof.
  intros Hs Hl. destruct Hs; simpl; try apply hs_le_refl; try (left; simpl; lia).
  - by destruct Hl.
  - right. simpl. split; [by symmetry|by left].
  - subst hs. destruct (N.ltb_spec (current_term (v_hs v)) (ae_term m)); [by left|apply hs_le_refl].
Qed.

(** What is committed stays where it is. *)
Definition commit_grows (v v' : View) : Prop :=
  v_commit v <= v_commit v' /\
  take (N.to_nat (v_commit v)) (v_log v') = take (N.to_nat (v_commit v)) (v_log v).

Lemma vstep_commit soup v out v' :
  vstep soup v out v' -> live v' -> v_commit v <= llen (v_log v) -> commit_grows v v'.
Proof.
  intros Hs Hl Hc. unfold llen in *.
  destruct Hs; unfold commit_grows; simpl; try (split; [lia|done]).
  - by destruct Hl.
  - split; [lia|]. rewrite take_app_le by lia. done.
  - split; [lia|]. rewrite take_app_le by lia. done.
Qed.

Lemma vstep_commit_bound soup v out v' :
  vstep soup v out v' -> live v' -> v_commit v <= llen (v_log v) ->
  v_commit v' <= llen (v_log v').
Proof.
  intros Hs Hl Hc. unfold llen in *.
  destruct Hs; simpl; try done; rewrite ?length_app; try lia; try (by destruct Hl).
  match goal with H : take _ log = _ |- _ => apply (f_equal length) in H end.
  rewrite !length_take in *. subst log matched commit. unfold llen in *.
  pose proof (splice_length (v_log v) (N.to_nat (ae_prev_log_index m)) (ae_entries m) ltac:(lia)). lia.
Qed.

Lemma commit_grows_trans v1 v2 v3 :
  commit_grows v1 v2 -> commit_grows v2 v3 -> commit_grows v1 v3.
Proof.
  intros [H1 T1] [H2 T2]. split; [lia|].
  replace (N.to_nat (v_commit v1)) with (Nat.min (N.to_nat (v_commit v1)) (N.to_nat (v_commit v2))) by lia.
  rewrite <- !take_take, T2, take_take.
  replace (Nat.min _ _) with (N.to_nat (v_commit v1)) by lia. rewrite T1.
  rewrite take_take. f_equal. lia.
Qed.

Lemma vsteps_stable soup v out v' :
  vsteps soup v out v' -> live v' -> v_commit v <= llen (v_log v) ->
  hs_le (v_hs v) (v_hs v') /\ commit_grows v v'.
Proof.
  induction 1 as [v|v ms1 v1 ms2 v2 Hs Hr IH]; intros Hl Hc.
  { split; [apply hs_le_refl|]. split; [done|done]. }
  assert (Hl1 : live v1).
  { intros Hd. apply Hl. destruct (decide (v_pending v1 = None)) as [Hp|Hp].
    - by destruct (dead_steps _ _ _ _ Hr Hd Hp) as (? & _).
    - exfalso. apply Hp. destruct Hs; simpl in *; try done; try congruence. }
  destruct (IH Hl) as [Hh Hg]; [by eapply vstep_commit_bound|]. split.
  - eapply hs_le_trans; [by eapply vstep_hs|done].
  - eapply commit_grows_trans; [by eapply vstep_commit|done].
Qed.

(** While a batch is pending, the only action is to fail. *)
Lemma vstep_pending soup v out v' :
  vstep soup v out v' -> v_pending v <> None -> v_role v' = unavailable /\ v_pending v' = None.
Proof. intros Hs Hp. destruct Hs; simpl in *; congruence || done. Qed.

(** What a run of actions of [x] changes. *)
Record ran (st st' : Sys) (x : NodeId) (v' : View) (out : list MessageEnvelope) : Prop := {
  ran_self : y_view st' x = v';
  ran_view : forall y, y <> x -> y_view st' y = y_view st y;
  ran_disk : forall y, y_disk st' y = y_disk st y;
  ran_written : forall y, y <> x -> y_written st' y = y_written st y;
  ran_soup : forall e, y_soup st' e <-> y_soup st e \/ e ∈ out;
}.

Lemma vsteps_ran soup st x v out v' :
  vsteps soup v out v' -> reachable ms st -> y_view st x = v ->
  (forall e, soup e -> y_soup st e) ->
  exists st', reachable ms st' /\ ran st st' x v' out /\
    ((v' = v /\ out = [] /\ y_written st' x = y_written st x) \/
     (y_written st' x = false /\ (v_pending v <> None -> v_pending v' = None))).
Proof.
  intros H. revert st. induction H as [v|v ms1 v1 ms2 v2 Hs Hrest IH]; intros st Hr Hv Hsoup.
  { exists st. split_and!; [done| |by left]. constructor; try done.
    intros e. split; [by left|]. intros [?|He]; [done|]. by apply not_elem_of_nil in He. }
  subst v. set (st1 := mkSys (upd (y_view st) x v1) (y_disk st) (upd (y_written st) x false)
    (fun e => y_soup st e \/ e ∈ ms1)).
  destruct (IH st1) as (st2 & Hr2 & [] & Hw2); simpl.
  - eapply reach_step; [done|]. apply sys_act. by eapply vstep_soup_mono.
  - apply upd_same.
  - intros e He. left. auto.
  - exists st2. split_and!; [done| |].
    + constructor; try done.
      * intros y Hy. rewrite ran_view0 by done. by apply upd_other.
      * intros y Hy. rewrite ran_written0 by done. by apply upd_other.
      * intros e. rewrite ran_soup0. simpl. rewrite elem_of_app. tauto.
    + right. split.
      * destruct Hw2 as [(_ & _ & ->)|[? _]]; [|done]. simpl. apply upd_same.
      * intros Hp. destruct (vstep_pending _ _ _ _ Hs Hp) as [H1 H2].
        by destruct (dead_steps _ _ _ _ Hrest H1 H2) as (_ & ? & _).
Qed.

End abstract.

(** ** Simulation *)

Record host_sim (cfg : NodeId -> RaftConfig) (ms : list NodeId) (sent : list MessageEnvelope)
    (st : Sys) (x : NodeId) (h : Host) : Prop := {
  hs_member : x ∈ ms;
  hs_inv : node_inv (fun e => e ∈ sent) (h_node h);
  hs_config : config_ (h_node h) = with_members (cfg x) (sort_members (members (cfg x)));
  hs_view : y_view st x = view (h_node h);
  hs_disk : y_disk st x = h_disk h;
  hs_written : y_written st x = h_written h;
  hs_recoverable : recoverable (cfg x) (h_disk h);
  hs_pending : h_written h = true -> pending_storage_ (h_node h) <> None;
}.

Record sim (cfg : NodeId -> RaftConfig) (ms : list NodeId) (net : Net) (st : Sys) : Prop := {
  sim_reach : reachable (sort_members ms) st;
  sim_soup : forall e, y_soup st e <-> e ∈ n_sent net;
  sim_host : forall x h, n_host net !! x = Some h -> host_sim cfg ms (n_sent net) st x h;
}.

Lemma event_ok_mono (soup soup' : MessageEnvelope -> Prop) ev :
  (forall e, soup e -> soup' e) -> event_ok soup ev -> event_ok soup' ev.
Proof. intros H. destruct ev; simpl; try done. intros [??]. auto. Qed.

Lemma node_inv_mono (soup soup' : MessageEnvelope -> Prop) s :
  (forall e, soup e -> soup' e) -> node_inv soup s -> node_inv soup' s.
Proof.
  intros H []. constructor; try done. eapply Forall_impl; [done|].
  intros ev. by apply event_ok_mono.
Qed.

Lemma message_wfb_spec m : message_wfb m = true -> message_wf m.
Proof. destruct m; simpl; rewrite ?andb_true_iff, ?N.leb_le; done. Qed.

Lemma event_allowed_ok sent ev n :
  event_allowed sent ev n = true -> event_ok (fun e => e ∈ sent) ev.
Proof.
  destruct ev; simpl; try done.
  intros [H1%bool_decide_eq_true H2%message_wfb_spec]%andb_true_iff. done.
Qed.

Lemma event_allowed_incomplete sent ev n : event_allowed sent ev n = true -> completed ev n = false.
Proof. destruct ev; simpl; try done. apply negb_true_iff. Qed.

Section simulation.
Context (cfg : NodeId -> RaftConfig) (ms : list NodeId).
Context (Hnd : NoDup ms) (Hcfg : configured cfg ms).

Lemma sorted_nodup : NoDup (sort_members ms).
Proof using Hnd. unfold sort_members. by rewrite merge_sort_Permutation. Qed.

(** One host moves, with the abstract system following it. *)
Lemma sim_update net st st' x h h' out :
  sim cfg ms net st -> n_host net !! x = Some h ->
  reachable (sort_members ms) st' ->
  (forall e, y_soup st' e <-> y_soup st e \/ e ∈ out) ->
  (forall y, y <> x -> y_view st' y = y_view st y /\ y_disk st' y = y_disk st y /\
                       y_written st' y = y_written st y) ->
  host_sim cfg ms (n_sent net ++ out) st' x h' ->
  sim cfg ms (mkNet (<[x := h']> (n_host net)) (n_sent net ++ out)) st'.
Proof.
  intros [] Hx Hr Hs Hsame Hh. constructor; simpl; [done|..].
  - intros e. by rewrite Hs, elem_of_app, sim_soup0.
  - intros y h0 Hy. destruct (decide (y = x)) as [->|Hne].
    + rewrite lookup_insert_eq in Hy. by simplify_eq.
    + rewrite lookup_insert_ne in Hy by done. destruct (sim_host0 y h0 Hy).
      destruct (Hsame y Hne) as (Hv1 & Hd1 & Hw1).
      constructor; rewrite ?Hv1, ?Hd1, ?Hw1; try done.
      eapply node_inv_mono; [|done]. intros e. rewrite elem_of_app. by left.
Qed.

Lemma mono_sent sent out (n : RaftNode) :
  node_inv (fun e => e ∈ sent) n -> node_inv (fun e => e ∈ sent ++ out) n.
Proof. apply node_inv_mono. intros e. rewrite elem_of_app. by left. Qed.

(** A call that is a sequence of protocol actions. *)
Lemma sim_run net st x h n' out w :
  sim cfg ms net st -> n_host net !! x = Some h ->
  node_inv (fun e => e ∈ n_sent net) n' -> config_ n' = config_ (h_node h) ->
  vsteps (fun e => e ∈ n_sent net) (view (h_node h)) out (view n') ->
  w = h_written h && negb (is_none (pending_storage_ n')) ->
  exists st', sim cfg ms (mkNet (<[x := mkHost n' (h_disk h) w]> (n_host net)) (n_sent net ++ out)) st'.
Proof.
  intros Hsim Hx Hinv Hc Hv ->. destruct (sim_host _ _ _ _ Hsim x h Hx).
  destruct (vsteps_ran (ms:=sort_members ms) _ st x _ _ _ Hv) as (st' & Hr & [] & Hw);
    [apply Hsim|done|intros e; by apply (sim_soup _ _ _ _ Hsim)|].
  exists st'. eapply (sim_update net st st' x h); try done.
  { intros y Hy. auto. }
  constructor; simpl; try done.
  - by apply mono_sent.
  - congruence.
  - by rewrite ran_disk0.
  - destruct Hw as [(Heq & _ & ->)|Hw].
    + rewrite hs_written0. destruct (h_written h) eqn:E; [|done]. simpl.
      apply (f_equal v_pending) in Heq. simpl in Heq. specialize (hs_pending0 eq_refl).
      destruct (pending_storage_ (h_node h)), (pending_storage_ n'); by simplify_eq.
    + destruct Hw as [-> Hw]. destruct (h_written h) eqn:E; [|done]. simpl in *.
      specialize (hs_pending0 eq_refl).
      destruct (pending_storage_ (h_node h)); [|done]. specialize (Hw ltac:(done)).
      by destruct (pending_storage_ n').
  - intros [_ Hp]%andb_true_iff. by destruct (pending_storage_ n').
Qed.

Lemma quiet_start : quiet start.
Proof. unfold start. solve_quiet. Qed.

(** The result of a call whose behaviour is known. *)
Lemma wps_result (m : M unit) Q s n' es :
  wps m Q s -> m s = Returns (tt, n', es) -> Q tt n' (sends es).
Proof. unfold wps. intros H Hm. by apply (wp_Returns _ _ _ _ _ _ H) in Hm. Qed.

Lemma run_host_Some net x h m w net' :
  run_host net x h m w = Some net' -> exists n' es, m (h_node h) = Returns (tt, n', es) /\
    net' = mkNet (<[x := mkHost n' (h_disk h) (w n')]> (n_host net)) (n_sent net ++ sends es).
Proof.
  unfold run_host. destruct (m (h_node h)) as [[[[] n'] es]|]; [|done]. intros [= <-]. eauto.
Qed.

Lemma sim_write net st x h p :
  sim cfg ms net st -> n_host net !! x = Some h -> pending_storage_ (h_node h) = Some p ->
  h_written h = false ->
  exists st', sim cfg ms
    (mkNet (<[x := mkHost (h_node h) (apply_batch (h_disk h) (ps_batch p)) true]> (n_host net))
       (n_sent net)) st'.
Proof.
  intros Hsim Hx Hp Hw. destruct (sim_host _ _ _ _ Hsim x h Hx).
  set (b := ps_batch p). assert (Hvp : v_pending (y_view st x) = Some (b, ps_after_success p)).
  { rewrite hs_view0. simpl. by rewrite Hp. }
  pose proof (inv_ok _ _ hs_inv0) as Hok.
  assert (Hlive : live (y_view st x)).
  { rewrite hs_view0. intros Hr. destruct (ok_failed _ Hok Hr). congruence. }
  destruct (inv_reachable _ st sorted_nodup (sim_reach _ _ _ _ Hsim)) as [g Hg].
  pose proof (lk_disk _ _ _ (inv_link _ _ _ Hg x Hlive)) as Hlk.
  rewrite hs_written0, Hw, Hvp, hs_disk0, hs_view0 in Hlk.
  rewrite <- (app_nil_r (n_sent net)).
  exists (mkSys (y_view st) (upd (y_disk st) x (apply_batch (y_disk st x) b))
    (upd (y_written st) x true) (y_soup st)).
  apply (sim_update net st _ x h); try done.
  - eapply reach_step; [apply Hsim|]. eapply (sys_write _ st x); [done|exact Hvp|congruence].
  - simpl. intros e. split; [by left|]. intros [?|He]; [done|]. by apply not_elem_of_nil in He.
  - intros y Hy. simpl. by rewrite !upd_other.
  - constructor; simpl; rewrite ?upd_same, ?hs_disk0; try done.
    + by rewrite app_nil_r.
    + destruct hs_recoverable0. constructor; [|done]. fold b. rewrite Hlk. simpl. apply Hok.
    + by rewrite Hp.
Qed.

Lemma sim_done net st x h p n' es :
  sim cfg ms net st -> n_host net !! x = Some h -> pending_storage_ (h_node h) = Some p ->
  h_written h = true ->
  step (StorageComplete (ps_op_id p) true EmptyString) (h_node h) = Returns (tt, n', es) ->
  exists st', sim cfg ms
    (mkNet (<[x := mkHost n' (h_disk h) false]> (n_host net)) (n_sent net ++ sends es)) st'.
Proof.
  intros Hsim Hx Hp Hw Hstep. destruct (sim_host _ _ _ _ Hsim x h Hx).
  pose proof (wps_result _ _ _ _ _ (step_refines (StorageComplete (ps_op_id p) true EmptyString) _ hs_inv0 I) Hstep) as (Hinv & Hc & Hcall).
  unfold vcall, completed in Hcall. rewrite Hp in Hcall. simpl in Hcall. rewrite N.eqb_refl in Hcall.
  destruct Hcall as (ms1 & v1 & ms2 & Hcomp & Hv & ->). rewrite <- hs_view0 in Hcomp.
  set (st1 := mkSys (upd (y_view st) x v1) (y_disk st) (upd (y_written st) x false)
    (fun e => y_soup st e \/ e ∈ ms1)).
  assert (Hr1 : reachable (sort_members ms) st1).
  { eapply reach_step; [apply Hsim|]. apply sys_complete; [congruence|done]. }
  destruct (vsteps_ran (ms:=sort_members ms) _ st1 x _ _ _ Hv) as (st' & Hr & [] & Hw');
    [done|apply upd_same|intros e ?; left; by apply (sim_soup _ _ _ _ Hsim)|].
  exists st'. eapply (sim_update net st st' x h); try done.
  - intros e. rewrite ran_soup0. simpl. rewrite elem_of_app. tauto.
  - intros y Hy. rewrite ran_view0, ran_disk0, ran_written0 by done. simpl.
    by rewrite !upd_other.
  - constructor; simpl; try done.
    + by apply mono_sent.
    + congruence.
    + by rewrite ran_disk0.
    + destruct Hw' as [(_ & _ & ->)|[-> _]]; [|done]. simpl. apply upd_same.
Qed.

Lemma sim_restart net st x h n :
  sim cfg ms net st -> n_host net !! x = Some h ->
  RaftNode_new (cfg x) (h_disk h) = Returns n ->
  exists st', sim cfg ms (mkNet (<[x := mkHost n (h_disk h) false]> (n_host net)) (n_sent net)) st'.
Proof.
  intros Hsim Hx Hnew. destruct (sim_host _ _ _ _ Hsim x h Hx).
  destruct (Hcfg x hs_member0) as (Hid & Hmem & _).
  rewrite <- (app_nil_r (n_sent net)).
  exists (mkSys (upd (y_view st) x (fresh (sort_members ms) x (y_disk st x))) (y_disk st)
    (upd (y_written st) x false) (y_soup st)).
  apply (sim_update net st _ x h); try done.
  - eapply reach_step; [apply Hsim|apply (sys_restart _ st x)].
  - simpl. intros e. split; [by left|]. intros [?|He]; [done|]. by apply not_elem_of_nil in He.
  - intros y Hy. simpl. by rewrite !upd_other.
  - constructor; simpl; rewrite ?upd_same; try done.
    + by eapply new_node_inv.
    + by rewrite (new_state _ _ _ Hnew).
    + rewrite (new_view _ _ _ Hnew), hs_disk0, Hid, Hmem. done.
Qed.

Lemma sim_act net st a net' :
  sim cfg ms net st -> act cfg net a = Some net' -> exists st', sim cfg ms net' st'.
Proof.
  intros Hsim Ha. destruct a as [x|x ev|x|x|x]; simpl in Ha;
    destruct (n_host net !! x) as [h|] eqn:Hx; simpl in Ha; try done.
  all: pose proof (sim_host _ _ _ _ Hsim x h Hx) as Hh; destruct Hh.
  - apply run_host_Some in Ha as (n' & es & Hm & ->).
    destruct (hard_eq_soft _ _ (proj1 (wp_Returns _ _ _ _ _ _ (quiet_start (h_node h)) Hm))) as [p ->].
    pose proof (proj2 (wp_Returns _ _ _ _ _ _ (quiet_start (h_node h)) Hm)) as ->.
    eapply sim_run; try done; [by apply node_inv_soft|constructor|].
    simpl. destruct (h_written h); [|done]. specialize (hs_pending0 eq_refl).
    by destruct (pending_storage_ (h_node h)).
  - destruct (event_allowed _ _ _) eqn:Hev; [|done].
    apply run_host_Some in Ha as (n' & es & Hm & ->).
    pose proof (wps_result _ _ _ _ _ (step_refines _ _ hs_inv0 (event_allowed_ok _ _ _ Hev)) Hm)
      as (Hinv & Hc & Hcall).
    unfold vcall in Hcall. rewrite (event_allowed_incomplete _ _ _ Hev) in Hcall.
    by eapply sim_run.
  - destruct (pending_storage_ (h_node h)) as [p|] eqn:Hp; [|done]. simpl in Ha.
    destruct (h_written h) eqn:Hw; [done|]. injection Ha as <-. by eapply sim_write.
  - destruct (pending_storage_ (h_node h)) as [p|] eqn:Hp; [|done]. simpl in Ha.
    destruct (h_written h) eqn:Hw; [|done]. apply run_host_Some in Ha as (n' & es & Hm & ->).
    by eapply sim_done.
  - destruct (RaftNode_new (cfg x) (h_disk h)) as [n|] eqn:Hnew; [|done]. injection Ha as <-.
    by eapply sim_restart.
Qed.

Lemma sim_boot xs hs :
  (forall x, x ∈ xs -> x ∈ ms) -> boot cfg xs = Some hs ->
  sim cfg ms (mkNet hs []) (sys_init (sort_members ms)).
Proof.
  intros Hsub Hb. constructor; simpl; [constructor| |].
  { intros e. split; [done|]. by intros ?%not_elem_of_nil. }
  revert hs Hb. induction xs as [|x xs IH]; intros hs Hb y h Hy; simpl in Hb.
  { injection Hb as <-. by rewrite lookup_empty in Hy. }
  destruct (boot cfg xs) as [hs0|] eqn:Hb0; [|done]. simpl in Hb.
  destruct (RaftNode_new (cfg x) empty_disk) as [n|] eqn:Hnew; [|done]. simplify_eq.
  destruct (decide (y = x)) as [->|]; [|rewrite lookup_insert_ne in Hy by done; eapply IH; try done;
    intros z Hz; apply Hsub; by apply list_elem_of_further].
  rewrite lookup_insert_eq in Hy. simplify_eq.
  assert (Hx : x ∈ ms) by (apply Hsub, list_elem_of_here).
  destruct (Hcfg x Hx) as (Hid & Hmem & Hbytes).
  assert (Hrec : recoverable (cfg x) empty_disk) by (constructor; [done|done]).
  constructor; simpl; try done.
  - by eapply new_node_inv.
  - by rewrite (new_state _ _ _ Hnew).
  - by rewrite (new_view _ _ _ Hnew), Hid, Hmem.
Qed.

Lemma cluster_sim net : cluster cfg ms net -> exists st, sim cfg ms net st.
Proof.
  intros (hs & l & Hb & Ha). pose proof (sim_boot ms hs ltac:(auto) Hb) as Hs.
  revert Hs Ha. generalize (mkNet hs []) as net0, (sys_init (sort_members ms)) as st0.
  clear hs Hb. induction l as [|a l IH]; intros net0 st0 Hs Ha; simpl in Ha; [simplify_eq; eauto|].
  destruct (act cfg net0 a) as [net1|] eqn:Hact; [|done]. simpl in Ha.
  destruct (sim_act _ _ _ _ Hs Hact) as [st1 Hs1]. by eapply IH.
Qed.

End simulation.
