(* ===== verification/ClusterSafety.v ===== *)
(** * ClusterSafety: the safety theorems of a deployed cluster

    Statements about hosts that run [RaftNode::step], derived from the invariant
    of the abstract system through the simulation of [Deployment]. *)

From S2P Require Import Prelude Model StateMachine RaftTypes Raft RaftSpec RaftRefine RaftReplicate RaftElection RaftAppend RaftStep System SystemFrame SystemSteps SystemLog SystemSafety Deployment.

(** A host whose node has not stopped on a failure. *)
Definition available (h : Host) : Prop := role_ (h_node h) <> unavailable.

(** Stability of terms, votes and committed entries under one call. *)
Lemma vcall_stable soup ev s ms s' :
  node_inv soup s -> vcall soup ev s ms (view s') -> role_ s' <> unavailable ->
  hs_le (hard_state_ s) (hard_state_ s') /\ commit_grows (view s) (view s').
Proof.
  intros Hi Hc Hr. pose proof (ok_commit _ (ok_base _ (inv_ok _ _ Hi))) as Hb.
  unfold vcall in Hc. destruct (completed ev s).
  - destruct Hc as (ms1 & v1 & ms2 & Hcomp & Hv & _). inversion Hcomp; subst.
    by apply (vsteps_stable _ _ _ _ Hv).
  - by apply (vsteps_stable _ _ _ _ Hc).
Qed.

Section cluster.
Context {cfg : NodeId -> RaftConfig} {ms : list NodeId} {net : Net}.
Context (Hnd : NoDup ms) (Hcfg : configured cfg ms) (Hcl : cluster cfg ms net).

(** Everything the invariant says of the hosts. *)
Lemma cluster_inv :
  exists st g, inv (sort_members ms) st g /\ sim cfg ms net st /\
    forall x h, n_host net !! x = Some h ->
      disk_ok g (y_soup st) x (h_disk h) /\
      (available h -> view_ok (sort_members ms) g (y_soup st) x (view (h_node h))).
Proof using Hnd Hcfg Hcl.
  destruct (cluster_sim cfg ms Hnd Hcfg net Hcl) as [st Hs].
  destruct (inv_reachable _ st (sorted_nodup ms Hnd) (sim_reach _ _ _ _ Hs)) as [g Hg].
  exists st, g. split_and!; [done..|]. intros x h Hx. destruct (sim_host _ _ _ _ Hs x h Hx).
  split; [rewrite <- hs_disk; apply Hg|]. intros Ha. rewrite <- hs_view. apply Hg.
  by rewrite hs_view.
Qed.

Lemma node_commits_agree x y hx hy :
  n_host net !! x = Some hx -> n_host net !! y = Some hy -> available hx -> available hy ->
  agree (N.min (commit_index_ (h_node hx)) (commit_index_ (h_node hy)))
    (log_ (h_node hx)) (log_ (h_node hy)).
Proof using Hnd Hcfg Hcl.
  intros Hx Hy Hax Hay. destruct cluster_inv as (st & g & Hi & _ & H).
  destruct (H x hx Hx) as [_ Hvx], (H y hy Hy) as [_ Hvy].
  eapply (commits_agree (sorted_nodup ms Hnd) (inv_ghost _ _ _ Hi)).
  - apply (vo_commit _ _ _ _ _ (Hvx Hax)).
  - apply (vo_commit _ _ _ _ _ (Hvy Hay)).
Qed.

Lemma host_inv x h :
  n_host net !! x = Some h -> node_inv (fun e => e ∈ n_sent net) (h_node h).
Proof using Hnd Hcfg Hcl.
  intros Hx. destruct cluster_inv as (st & g & _ & Hs & _).
  by destruct (sim_host _ _ _ _ Hs x h Hx).
Qed.

Lemma host_ok x h : n_host net !! x = Some h -> node_ok (h_node h).
Proof using Hnd Hcfg Hcl.
  intros Hx. apply (host_inv x h Hx).
Qed.

(** The disk of an idle node holds its hard state, log and commit index. *)
Lemma idle_host_disk x h :
  n_host net !! x = Some h -> available h -> pending_storage_ (h_node h) = None ->
  h_disk h = target (view (h_node h)).
Proof using Hnd Hcfg Hcl.
  intros Hx Ha Hp. destruct cluster_inv as (st & g & Hi & Hs & _).
  destruct (sim_host _ _ _ _ Hs x h Hx). rewrite <- hs_disk, <- hs_view.
  assert (Hl : live (y_view st x)) by by rewrite hs_view.
  apply (idle_disk (inv_link _ _ _ Hi x Hl)). rewrite hs_view. simpl. by rewrite Hp.
Qed.

(** A sent grant is a vote on record, and the voter's disk remembers it. *)
Lemma grant_on_disk x c t h :
  mkMessageEnvelope x c (MRequestVoteResponse (mkRequestVoteResponse t true)) ∈ n_sent net ->
  n_host net !! x = Some h ->
  t <= current_term (rec_hard_state (h_disk h)) /\
  (t = current_term (rec_hard_state (h_disk h)) -> voted_for (rec_hard_state (h_disk h)) = Some c).
Proof using Hnd Hcfg Hcl.
  intros Hm Hx. destruct cluster_inv as (st & g & Hi & Hs & H). destruct (H x h Hx) as [Hd _].
  apply (sim_soup _ _ _ _ Hs) in Hm. apply (inv_message _ _ _ Hi) in Hm.
  destruct (Hm eq_refl) as (r & Hr & Hrx & Hrt & Hrc). simpl in *. subst t c.
  by apply (do_voter _ _ _ _ Hd).
Qed.

Lemma grants_unique x c1 c2 t :
  mkMessageEnvelope x c1 (MRequestVoteResponse (mkRequestVoteResponse t true)) ∈ n_sent net ->
  mkMessageEnvelope x c2 (MRequestVoteResponse (mkRequestVoteResponse t true)) ∈ n_sent net ->
  c1 = c2.
Proof using Hnd Hcfg Hcl.
  intros H1 H2. destruct cluster_inv as (st & g & Hi & Hs & _).
  apply (sim_soup _ _ _ _ Hs), (inv_message _ _ _ Hi) in H1, H2.
  destruct (H1 eq_refl) as (r1 & Hr1 & Hx1 & Ht1 & Hc1).
  destruct (H2 eq_refl) as (r2 & Hr2 & Hx2 & Ht2 & Hc2). simpl in *. subst c1 c2.
  apply (go_functional _ _ (inv_ghost _ _ _ Hi)); congruence.
Qed.

Lemma leaders_unique x y hx hy :
  n_host net !! x = Some hx -> n_host net !! y = Some hy ->
  role_ (h_node hx) = leader -> role_ (h_node hy) = leader ->
  current_term (hard_state_ (h_node hx)) = current_term (hard_state_ (h_node hy)) -> x = y.
Proof using Hnd Hcfg Hcl.
  intros Hx Hy Hlx Hly Ht. destruct cluster_inv as (st & g & Hi & _ & H).
  destruct (H x hx Hx) as [_ Hvx], (H y hy Hy) as [_ Hvy]. unfold available in *.
  destruct (vo_leader _ _ _ _ _ (Hvx ltac:(congruence)) Hlx) as [(e1 & He1 & <- & _) _].
  destruct (vo_leader _ _ _ _ _ (Hvy ltac:(congruence)) Hly) as [(e2 & He2 & <- & _) _].
  unfold vterm in *. simpl in *. congruence.
Qed.

Lemma logs_match x y hx hy i :
  n_host net !! x = Some hx -> n_host net !! y = Some hy -> available hx -> available hy ->
  i <= llen (log_ (h_node hx)) -> i <= llen (log_ (h_node hy)) ->
  log_term_at (log_ (h_node hx)) i = log_term_at (log_ (h_node hy)) i ->
  agree i (log_ (h_node hx)) (log_ (h_node hy)).
Proof using Hnd Hcfg Hcl.
  intros Hx Hy Hax Hay Hi1 Hi2 Ht. destruct cluster_inv as (st & g & Hi & _ & H).
  destruct (H x hx Hx) as [_ Hvx], (H y hy Hy) as [_ Hvy].
  apply (backed_agree (g:=g)); try done.
  - apply (vo_log _ _ _ _ _ (Hvx Hax)).
  - apply (vo_log _ _ _ _ _ (Hvy Hay)).
Qed.

Lemma leader_complete x y hx hy :
  n_host net !! x = Some hx -> n_host net !! y = Some hy -> available hx ->
  role_ (h_node hy) = leader ->
  current_term (hard_state_ (h_node hx)) <= current_term (hard_state_ (h_node hy)) ->
  agree (commit_index_ (h_node hx)) (log_ (h_node hx)) (log_ (h_node hy)).
Proof using Hnd Hcfg Hcl.
  intros Hx Hy Hax Hly Ht. destruct cluster_inv as (st & g & Hi & _ & H).
  destruct (H x hx Hx) as [_ Hvx], (H y hy Hy) as [_ Hvy]. unfold available in *.
  destruct (vo_leader _ _ _ _ _ (Hvy ltac:(congruence)) Hly) as [(e & He & _ & Hlog) _].
  simpl in Hlog. rewrite <- Hlog.
  destruct (vo_commit _ _ _ _ _ (Hvx Hax)) as [Hz|(t & i & Hc & Hti & Hci & (e0 & He0 & Ha))].
  { simpl in Hz. rewrite Hz. apply agree_zero. }
  unfold vterm in *. simpl in *.
  destruct (committed_held_log (sorted_nodup ms Hnd) (inv_ghost _ _ _ Hi) t i
    (current_term (hard_state_ (h_node hy))) e) as (e1 & He1 & Ha1); [done|lia|done|]. assert (e1 = e0) as -> by congruence.
  eapply agree_trans; [by apply agree_sym|]. by eapply agree_le.
Qed.

Lemma disk_commits_agree x y hx hy :
  n_host net !! x = Some hx -> n_host net !! y = Some hy ->
  agree (N.min (rec_commit_index (h_disk hx)) (rec_commit_index (h_disk hy)))
    (rec_log (h_disk hx)) (rec_log (h_disk hy)).
Proof using Hnd Hcfg Hcl.
  intros Hx Hy. destruct cluster_inv as (st & g & Hi & _ & H).
  destruct (H x hx Hx) as [Hdx _], (H y hy Hy) as [Hdy _].
  eapply (commits_agree (sorted_nodup ms Hnd) (inv_ghost _ _ _ Hi)); [apply Hdx|apply Hdy].
Qed.

Lemma acks_on_disk x y hx hy t m to rpc ci ct :
  n_host net !! x = Some hx -> n_host net !! y = Some hy ->
  mkMessageEnvelope x to (MAppendEntriesResponse (mkAppendEntriesResponse t rpc true m ci ct))
    ∈ n_sent net ->
  current_term (rec_hard_state (h_disk hx)) = t ->
  role_ (h_node hy) = leader -> current_term (hard_state_ (h_node hy)) = t ->
  agree m (log_ (h_node hy)) (rec_log (h_disk hx)).
Proof using Hnd Hcfg Hcl.
  intros Hx Hy Hm Ht Hly Hty. destruct cluster_inv as (st & g & Hi & Hs & H).
  destruct (H x hx Hx) as [Hdx _], (H y hy Hy) as [_ Hvy]. unfold available in *.
  destruct (vo_leader _ _ _ _ _ (Hvy ltac:(congruence)) Hly) as [(e & He & _ & Hlog) _].
  apply (sim_soup _ _ _ _ Hs), (inv_message _ _ _ Hi) in Hm. specialize (Hm eq_refl). simpl in Hm.
  destruct (do_keeps _ _ _ _ Hdx t m) as [_ Hk]; [by exists m|].
  destruct Hk as (e' & He' & Ha). { intros t' e' Ht'. lia. }
  unfold vterm in *. simpl in *. assert (e' = e) as -> by congruence. by rewrite <- Hlog.
Qed.

(** An acknowledgement of index [m] in term [t] is kept by the disk: its term is not
    below [t], and in term [t] it holds what the leader of the term has sent up to [m],
    whether that leader still runs or not. *)
Lemma ack_kept x hx t m to rpc ci ct :
  n_host net !! x = Some hx ->
  mkMessageEnvelope x to (MAppendEntriesResponse (mkAppendEntriesResponse t rpc true m ci ct))
    ∈ n_sent net ->
  t <= current_term (rec_hard_state (h_disk hx)) /\
  (current_term (rec_hard_state (h_disk hx)) = t ->
   m <= llen (rec_log (h_disk hx)) /\
   forall y z a (k : nat) e, mkMessageEnvelope y z (MAppendEntries a) ∈ n_sent net -> ae_term a = t ->
     ae_entries a !! k = Some e -> ae_prev_log_index a + N.of_nat k < m ->
     rec_log (h_disk hx) !! (N.to_nat (ae_prev_log_index a) + k)%nat = Some e).
Proof using Hnd Hcfg Hcl.
  intros Hx Hm. destruct cluster_inv as (st & g & Hi & Hs & H). destruct (H x hx Hx) as [Hdx _].
  apply (sim_soup _ _ _ _ Hs), (inv_message _ _ _ Hi) in Hm. specialize (Hm eq_refl). simpl in Hm.
  destruct (do_keeps _ _ _ _ Hdx t m) as [Hle Hk]; [by exists m|]. split; [done|]. intros Ht.
  destruct Hk as (el & Hel & Ha). { intros t' e' Ht'. lia. }
  split; [apply Ha|]. intros y z a k e Hsent Hta He Hlt.
  apply (sim_soup _ _ _ _ Hs), (inv_message _ _ _ Hi) in Hsent. simpl in Hsent.
  destruct Hsent as (el' & Hel' & _ & Hes & _). assert (el' = el) as -> by congruence.
  rewrite Hes in He. apply lookup_take_Some in He as [He _]. rewrite lookup_drop in He.
  rewrite <- He. symmetry. eapply agree_lookup; [done|lia].
Qed.

End cluster.
