(* ===== verification/ClusterTheorems.v ===== *)
(** * ClusterTheorems: the properties of the consensus engine, with a run of a
    three-node cluster that exercises them *)

From S2P Require Import Prelude Model StateMachine RaftTypes Raft RaftSpec RaftRefine RaftReplicate RaftElection RaftAppend RaftStep System SystemFrame SystemSteps SystemLog SystemSafety Deployment ClusterSafety.

(** ** A run: node 1 is elected, stores a client command, and node 2 applies it *)

Definition demo_members : list NodeId := [1; 2; 3].
Definition demo_cfg (x : NodeId) : RaftConfig := default_config x demo_members.

Inductive Cmd := do_act (a : Action) | deliver (x : NodeId) (i : nat).

Definition resolve (net : Net) (c : Cmd) : option Action :=
  match c with
  | do_act a => Some a
  | deliver x i => env ← n_sent net !! i; Some (act_event x (MessageReceived env))
  end.

(** The actions a script stands for. *)
Fixpoint script_actions (cfg : NodeId -> RaftConfig) (net : Net) (l : list Cmd) : list Action :=
  match l with
  | [] => []
  | c :: l =>
      match resolve net c with
      | Some a => match act cfg net a with
                  | Some net' => a :: script_actions cfg net' l
                  | None => []
                  end
      | None => []
      end
  end.

Definition persist (x : NodeId) : list Cmd := [do_act (act_disk_write x); do_act (act_disk_done x)].

Definition demo_command : ClientCommand := mkClientCommand (mkSessionId 7 7) 1 put "k" "v".

Definition demo_script : list Cmd :=
  [do_act (act_start 1); do_act (act_start 2); do_act (act_event 1 (TimerFired election 1))] ++
  persist 1 ++ [deliver 2 0] ++ persist 2 ++ [deliver 1 2] ++ persist 1 ++
  [deliver 2 3] ++ persist 2 ++ [deliver 1 5] ++ persist 1 ++
  [do_act (act_event 1 (ClientRequest 5 demo_command))] ++ persist 1 ++
  [deliver 2 6] ++ persist 2 ++ [deliver 1 7; deliver 2 8] ++ persist 2 ++ [deliver 1 9] ++
  persist 1 ++ [deliver 2 10] ++ persist 2 ++ [do_act (act_crash 3)].

Definition demo_boot : gmap N Host :=
  Eval vm_compute in match boot demo_cfg demo_members with Some h => h | None => ∅ end.
Definition demo_actions : list Action :=
  Eval vm_compute in script_actions demo_cfg (mkNet demo_boot []) demo_script.
Definition demo_net : Net :=
  Eval vm_compute in
    match acts demo_cfg (mkNet demo_boot []) demo_actions with Some n => n | None => mkNet ∅ [] end.
Definition demo_host (x : NodeId) : Host :=
  match n_host demo_net !! x with
  | Some h => h
  | None => mkHost (match RaftNode_new (demo_cfg 1) empty_disk with
                    | Returns n => n
                    | Throws _ => mkRaftNode (demo_cfg 1) follower (mkHardState 0 None)
                        (mkHardState 0 None) [] 0 0 0 0 empty_kv None false 0 ∅ ∅ ∅ ∅ None [] 1 1 0 0
                        false
                    end) empty_disk false
  end.

Lemma demo_cluster : cluster demo_cfg demo_members demo_net.
Proof. exists demo_boot, demo_actions. split; vm_compute; reflexivity. Qed.

Lemma demo_nodup : NoDup demo_members.
Proof. apply (bool_decide_unpack (NoDup demo_members)). vm_compute. exact I. Qed.

Lemma demo_configured : configured demo_cfg demo_members.
Proof. intros x _. split_and!; [done|done|]. vm_compute. done. Qed.

Example demo_applied :
  (last_applied_ (h_node (demo_host 1)), last_applied_ (h_node (demo_host 2)),
   value_for_test (state_machine_ (h_node (demo_host 2))) "k") = (2, 2, Some "v"%string).
Proof. vm_compute. reflexivity. Qed.

(** ** Agreement *)

(** C1 State Machine Safety: in every reachable state of a cluster, under message
    loss, duplication and reordering, crashes and restarts, two nodes that have
    both committed an index hold the same entry there. *)
Theorem cluster_state_machine_safety cfg ms net x y hx hy i :
  NoDup ms -> configured cfg ms -> cluster cfg ms net ->
  n_host net !! x = Some hx -> n_host net !! y = Some hy -> available hx -> available hy ->
  1 <= i -> i <= commit_index_ (h_node hx) -> i <= commit_index_ (h_node hy) ->
  exists e, entry_at (h_node hx) i = Some e /\ entry_at (h_node hy) i = Some e.
Proof.
  intros Hnd Hcfg Hcl Hx Hy Hax Hay Hi Hix Hiy.
  pose proof (node_commits_agree Hnd Hcfg Hcl x y hx hy Hx Hy Hax Hay) as Ha.
  destruct (log_at_is_Some (log_ (h_node hx)) i) as [e He].
  { destruct Ha as (Hl & _). lia. }
  exists e. split; [done|]. unfold entry_at. by rewrite <- (agree_log_at _ _ _ i Ha) by lia.
Qed.

Lemma cluster_state_machine_safety_witness :
  exists e, entry_at (h_node (demo_host 1)) 2 = Some e /\ entry_at (h_node (demo_host 2)) 2 = Some e.
Proof.
  eapply (cluster_state_machine_safety demo_cfg demo_members demo_net 1 2);
    [exact demo_nodup|exact demo_configured|exact demo_cluster| | | | | | |];
    vm_compute; congruence || reflexivity.
Defined.

(** Replicas agree: two nodes that have applied the same number of entries
    have the same key-value state and the same session table. *)
Theorem cluster_replicas_agree cfg ms net x y hx hy :
  NoDup ms -> configured cfg ms -> cluster cfg ms net ->
  n_host net !! x = Some hx -> n_host net !! y = Some hy -> available hx -> available hy ->
  last_applied_ (h_node hx) = last_applied_ (h_node hy) ->
  state_machine_ (h_node hx) = state_machine_ (h_node hy).
Proof.
  intros Hnd Hcfg Hcl Hx Hy Hax Hay Heq.
  pose proof (node_commits_agree Hnd Hcfg Hcl x y hx hy Hx Hy Hax Hay) as Ha.
  destruct (ok_base _ (host_ok Hnd Hcfg Hcl x hx Hx)), (ok_base _ (host_ok Hnd Hcfg Hcl y hy Hy)).
  rewrite ok_machine, ok_machine0, Heq. do 2 f_equal. eapply agree_le in Ha as (_ & _ & ->); [done|lia].
Qed.

Lemma cluster_replicas_agree_witness :
  state_machine_ (h_node (demo_host 1)) = state_machine_ (h_node (demo_host 2)).
Proof.
  eapply (cluster_replicas_agree demo_cfg demo_members demo_net 1 2);
    [exact demo_nodup|exact demo_configured|exact demo_cluster| | | | |];
    vm_compute; congruence || reflexivity.
Defined.

(** C26 Election Safety: a term has at most one leader. *)
Theorem cluster_election_safety cfg ms net x y hx hy :
  NoDup ms -> configured cfg ms -> cluster cfg ms net ->
  n_host net !! x = Some hx -> n_host net !! y = Some hy ->
  role_ (h_node hx) = leader -> role_ (h_node hy) = leader ->
  current_term (hard_state_ (h_node hx)) = current_term (hard_state_ (h_node hy)) -> x = y.
Proof. intros Hnd Hcfg Hcl. apply (leaders_unique Hnd Hcfg Hcl). Qed.

Lemma cluster_election_safety_witness : role_ (h_node (demo_host 1)) = leader /\ 1 = 1.
Proof.
  split; [vm_compute; reflexivity|].
  eapply (cluster_election_safety demo_cfg demo_members demo_net 1 1 (demo_host 1) (demo_host 1));
    [exact demo_nodup|exact demo_configured|exact demo_cluster| | | | |]; vm_compute; reflexivity.
Defined.

(** C27 Leader Completeness: a leader's log holds every entry that any node of a
    term up to the leader's has committed. *)
Theorem cluster_leader_completeness cfg ms net x y hx hy i :
  NoDup ms -> configured cfg ms -> cluster cfg ms net ->
  n_host net !! x = Some hx -> n_host net !! y = Some hy -> available hx ->
  role_ (h_node hy) = leader ->
  current_term (hard_state_ (h_node hx)) <= current_term (hard_state_ (h_node hy)) ->
  1 <= i -> i <= commit_index_ (h_node hx) ->
  exists e, entry_at (h_node hx) i = Some e /\ entry_at (h_node hy) i = Some e.
Proof.
  intros Hnd Hcfg Hcl Hx Hy Hax Hly Ht Hi Hc.
  pose proof (leader_complete Hnd Hcfg Hcl x y hx hy Hx Hy Hax Hly Ht) as Ha.
  destruct (log_at_is_Some (log_ (h_node hx)) i) as [e He].
  { destruct Ha as (Hl & _). lia. }
  exists e. split; [done|]. unfold entry_at. by rewrite <- (agree_log_at _ _ _ i Ha).
Qed.

Lemma cluster_leader_completeness_witness :
  exists e, entry_at (h_node (demo_host 2)) 2 = Some e /\ entry_at (h_node (demo_host 1)) 2 = Some e.
Proof.
  eapply (cluster_leader_completeness demo_cfg demo_members demo_net 2 1);
    [exact demo_nodup|exact demo_configured|exact demo_cluster| | | | | | |];
    vm_compute; congruence || reflexivity.
Defined.

(** C28 Log Matching: when two nodes hold entries of the same term at an index,
    their logs are identical up to that index. *)
Theorem cluster_log_matching cfg ms net x y hx hy i :
  NoDup ms -> configured cfg ms -> cluster cfg ms net ->
  n_host net !! x = Some hx -> n_host net !! y = Some hy -> available hx -> available hy ->
  i <= last_log_index (h_node hx) -> i <= last_log_index (h_node hy) ->
  term_at (h_node hx) i = term_at (h_node hy) i ->
  take (N.to_nat i) (log_ (h_node hx)) = take (N.to_nat i) (log_ (h_node hy)).
Proof.
  intros Hnd Hcfg Hcl Hx Hy Hax Hay Hix Hiy Ht.
  by destruct (logs_match Hnd Hcfg Hcl x y hx hy i Hx Hy Hax Hay Hix Hiy Ht) as (_ & _ & ?).
Qed.

Lemma cluster_log_matching_witness :
  take 2 (log_ (h_node (demo_host 1))) = take 2 (log_ (h_node (demo_host 2))).
Proof.
  eapply (cluster_log_matching demo_cfg demo_members demo_net 1 2 (demo_host 1) (demo_host 2) 2);
    [exact demo_nodup|exact demo_configured|exact demo_cluster| | | | | | |];
    vm_compute; congruence || reflexivity.
Defined.

(** ** One call of [step] *)

(** C29 Refinement: from a well-formed node, on any well-formed event, [step]
    returns (it never throws), leaves a well-formed node, and its effect on the
    protocol state and its messages are those of a sequence of protocol actions
    (preceded by the release of the pending promise when the event reports that
    the pending batch is durable). *)
Theorem step_refines_protocol soup ev s :
  node_inv soup s -> event_ok soup ev ->
  exists s' es, step ev s = Returns (tt, s', es) /\ node_inv soup s' /\ config_ s' = config_ s /\
                vcall soup ev s (sends es) (view s').
Proof.
  intros Hi He. pose proof (step_refines ev s Hi He) as H. unfold wps, wp in H.
  destruct (step ev s) as [[[[] s'] es]|]; [|done]. eauto.
Qed.

Lemma step_refines_protocol_witness :
  let s := h_node (demo_host 1) in
  exists s' es, step (TimerFired heartbeat (heartbeat_generation_ s)) s = Returns (tt, s', es) /\
    node_inv (fun e => e ∈ n_sent demo_net) s' /\ config_ s' = config_ s /\
    vcall (fun e => e ∈ n_sent demo_net) (TimerFired heartbeat (heartbeat_generation_ s)) s
      (sends es) (view s').
Proof.
  apply (step_refines_protocol (fun e => e ∈ n_sent demo_net)).
  - apply (host_inv demo_nodup demo_configured demo_cluster 1). vm_compute. reflexivity.
  - exact I.
Defined.

(** C30 No exceptions: in a reachable cluster no call of [step] with an event the
    environment can produce ever throws. *)
Theorem cluster_never_throws cfg ms net x h ev :
  NoDup ms -> configured cfg ms -> cluster cfg ms net -> n_host net !! x = Some h ->
  event_ok (fun e => e ∈ n_sent net) ev ->
  exists s' es, step ev (h_node h) = Returns (tt, s', es).
Proof.
  intros Hnd Hcfg Hcl Hx Hev.
  pose proof (step_refines ev _ (host_inv Hnd Hcfg Hcl x h Hx) Hev) as H. unfold wps, wp in H.
  destruct (step ev (h_node h)) as [[[[] s'] es]|]; [by exists s', es|done].
Qed.

Lemma cluster_never_throws_witness :
  exists s' es,
    step (ClientRequest 9 demo_command) (h_node (demo_host 1)) = Returns (tt, s', es).
Proof.
  eapply (cluster_never_throws demo_cfg demo_members demo_net 1);
    [exact demo_nodup|exact demo_configured|exact demo_cluster|vm_compute; reflexivity|exact I].
Defined.

(** C31 The deferral loop finishes its work: after every call, the deferred events
    number at most [max_deferred_events], and some remain only while a storage
    operation is pending; so the bounded iteration never leaves an event behind. *)
Theorem step_drains_deferred soup ev s s' es :
  node_inv soup s -> event_ok soup ev -> step ev s = Returns (tt, s', es) ->
  N.of_nat (length (deferred_events_ s')) <= max_deferred_events (config_ s) /\
  (pending_storage_ s' = None -> deferred_events_ s' = []).
Proof.
  intros Hi He Hs. pose proof (wps_result _ _ _ _ _ (step_refines ev s Hi He) Hs) as ([] & <- & _).
  split; [done|]. intros Hp. destruct (deferred_events_ s') eqn:E; [done|].
  by destruct inv_waiting.
Qed.

(** Node 1 after a second client request has a batch pending. *)
Definition demo_request : RaftEvent :=
  ClientRequest 6 (mkClientCommand (mkSessionId 7 7) 2 get "k" EmptyString).
Definition demo_busy : RaftNode :=
  Eval vm_compute in match step demo_request (h_node (demo_host 1)) with
                     | Returns (_, s, _) => s
                     | Throws _ => h_node (demo_host 1)
                     end.

Lemma demo_busy_step : exists es, step demo_request (h_node (demo_host 1)) = Returns (tt, demo_busy, es).
Proof. eexists. vm_compute. reflexivity. Qed.

Lemma demo_busy_inv : node_inv (fun e => e ∈ n_sent demo_net) demo_busy.
Proof.
  destruct demo_busy_step as [es Hes].
  refine (proj1 (wps_result _ _ _ _ _ (step_refines _ _ _ _) Hes)); [|exact I].
  apply (host_inv demo_nodup demo_configured demo_cluster 1). vm_compute. reflexivity.
Qed.

Lemma step_drains_deferred_witness :
  match step (TimerFired election 99) demo_busy with
  | Returns (_, s', _) => pending_storage_ s' <> None /\ length (deferred_events_ s') = 1%nat /\
      N.of_nat (length (deferred_events_ s')) <= max_deferred_events (config_ demo_busy) /\
      (pending_storage_ s' = None -> deferred_events_ s' = [])
  | Throws _ => False
  end.
Proof.
  destruct (step (TimerFired election 99) demo_busy) as [[[[] s'] es]|] eqn:E.
  - split; [|split].
    + vm_compute in E. injection E as <- _. discriminate.
    + vm_compute in E. injection E as <- _. reflexivity.
    + exact (step_drains_deferred _ (TimerFired election 99) _ _ _ demo_busy_inv I E).
  - vm_compute in E. discriminate.
Defined.

(** Terms never decrease, and within a term a node never changes its vote. *)
Theorem step_term_monotone soup ev s s' es :
  node_inv soup s -> event_ok soup ev -> step ev s = Returns (tt, s', es) ->
  role_ s' <> unavailable ->
  current_term (hard_state_ s) <= current_term (hard_state_ s') /\
  (current_term (hard_state_ s') = current_term (hard_state_ s) ->
   forall c, voted_for (hard_state_ s) = Some c -> voted_for (hard_state_ s') = Some c).
Proof.
  intros Hi He Hs Hr. pose proof (wps_result _ _ _ _ _ (step_refines ev s Hi He) Hs) as (_ & _ & Hcall).
  assert (Hc : hs_le (hard_state_ s) (hard_state_ s')).
  { apply (vcall_stable _ _ _ _ _ Hi Hcall Hr). }
  destruct Hc as [Hlt|[Heq Hv]]; [split; [lia|intros ?; lia]|].
  split; [lia|]. intros _ c Hc. destruct Hv as [Hv|<-]; congruence.
Qed.

Lemma step_term_monotone_witness :
  match step (TimerFired election 99) demo_busy with
  | Returns (_, s', _) => role_ s' = leader /\ (current_term (hard_state_ demo_busy)
                            <= current_term (hard_state_ s'))
  | Throws _ => False
  end.
Proof.
  destruct (step (TimerFired election 99) demo_busy) as [[[[] s'] es]|] eqn:E.
  - assert (Hr : role_ s' = leader) by (vm_compute in E; injection E as <- _; reflexivity).
    split; [exact Hr|].
    refine (proj1 (step_term_monotone _ (TimerFired election 99) _ _ _ demo_busy_inv I E _)).
    rewrite Hr. discriminate.
  - vm_compute in E. discriminate.
Defined.

(** What is committed never changes: a call of [step] never lowers the commit
    index and leaves every entry up to it in place. *)
Theorem step_commit_stable soup ev s s' es i :
  node_inv soup s -> event_ok soup ev -> step ev s = Returns (tt, s', es) ->
  role_ s' <> unavailable -> i <= commit_index_ s ->
  commit_index_ s <= commit_index_ s' /\ entry_at s' i = entry_at s i.
Proof.
  intros Hi He Hs Hr Hic. pose proof (wps_result _ _ _ _ _ (step_refines ev s Hi He) Hs) as (Hi' & _ & Hcall).
  destruct (vcall_stable _ _ _ _ _ Hi Hcall Hr) as [_ [Hle Ht]]. simpl in *. split; [done|].
  pose proof (ok_commit _ (ok_base _ (inv_ok _ _ Hi))) as Hc.
  pose proof (ok_commit _ (ok_base _ (inv_ok _ _ Hi'))) as Hc'.
  apply (agree_log_at (commit_index_ s)); [|done]. split_and!; [lia|done|done].
Qed.

Lemma step_commit_stable_witness :
  match step (TimerFired election 99) demo_busy with
  | Returns (_, s', _) => commit_index_ demo_busy = 2 /\ entry_at s' 2 = entry_at demo_busy 2
  | Throws _ => False
  end.
Proof.
  destruct (step (TimerFired election 99) demo_busy) as [[[[] s'] es]|] eqn:E.
  - assert (Hr : role_ s' = leader) by (vm_compute in E; injection E as <- _; reflexivity).
    split; [vm_compute; reflexivity|].
    refine (proj2 (step_commit_stable _ (TimerFired election 99) _ _ _ 2 demo_busy_inv I E _ _)).
    + rewrite Hr. discriminate.
    + vm_compute. discriminate.
  - vm_compute in E. discriminate.
Defined.

(** ** Durability *)

(** Acknowledged entries are durable: when node [x] has acknowledged index [m]
    to the leader of term [t] and has not moved to a later term, its disk holds
    the first [m] entries of that leader's log. *)
Theorem cluster_acks_durable cfg ms net x y hx hy t m to rpc ci ct :
  NoDup ms -> configured cfg ms -> cluster cfg ms net ->
  n_host net !! x = Some hx -> n_host net !! y = Some hy ->
  mkMessageEnvelope x to (MAppendEntriesResponse (mkAppendEntriesResponse t rpc true m ci ct))
    ∈ n_sent net ->
  current_term (rec_hard_state (h_disk hx)) = t ->
  role_ (h_node hy) = leader -> current_term (hard_state_ (h_node hy)) = t ->
  m <= llen (rec_log (h_disk hx)) /\
  take (N.to_nat m) (rec_log (h_disk hx)) = take (N.to_nat m) (log_ (h_node hy)).
Proof.
  intros Hnd Hcfg Hcl Hx Hy Hm Ht Hl Hlt.
  by destruct (acks_on_disk Hnd Hcfg Hcl x y hx hy t m to rpc ci ct) as (_ & ? & ?).
Qed.

Lemma cluster_acks_durable_witness :
  2 <= llen (rec_log (h_disk (demo_host 2))) /\
  take 2 (rec_log (h_disk (demo_host 2))) = take 2 (log_ (h_node (demo_host 1))).
Proof.
  eapply (cluster_acks_durable demo_cfg demo_members demo_net 2 1 (demo_host 2) (demo_host 1) 1 2 1 4 0 0);
    [exact demo_nodup|exact demo_configured|exact demo_cluster| | | | | |];
    try (vm_compute; reflexivity).
  apply (bool_decide_unpack (_ ∈ n_sent demo_net)). vm_compute. exact I.
Defined.

(** Granted votes are durable: a vote a node has granted in term [t] is on its
    disk, or its disk already records a later term. *)
Theorem cluster_votes_durable cfg ms net x c t h :
  NoDup ms -> configured cfg ms -> cluster cfg ms net -> n_host net !! x = Some h ->
  mkMessageEnvelope x c (MRequestVoteResponse (mkRequestVoteResponse t true)) ∈ n_sent net ->
  t < current_term (rec_hard_state (h_disk h)) \/
  rec_hard_state (h_disk h) = mkHardState t (Some c).
Proof.
  intros Hnd Hcfg Hcl Hx Hm.
  destruct (grant_on_disk Hnd Hcfg Hcl x c t h Hm Hx) as [Hle Heq].
  destruct (N.eq_dec t (current_term (rec_hard_state (h_disk h)))) as [Ht|]; [|left; lia].
  right. specialize (Heq Ht). destruct (rec_hard_state (h_disk h)). simpl in *. congruence.
Qed.

Lemma cluster_votes_durable_witness :
  1 < current_term (rec_hard_state (h_disk (demo_host 2))) \/
  rec_hard_state (h_disk (demo_host 2)) = mkHardState 1 (Some 1).
Proof.
  eapply (cluster_votes_durable demo_cfg demo_members demo_net 2 1 1 (demo_host 2));
    [exact demo_nodup|exact demo_configured|exact demo_cluster|vm_compute; reflexivity|].
  apply (bool_decide_unpack (_ ∈ n_sent demo_net)). vm_compute. exact I.
Defined.

(** One vote per term: a node never grants its vote to two candidates of the
    same term, not even across crashes. *)
Theorem cluster_one_vote_per_term cfg ms net x c1 c2 t :
  NoDup ms -> configured cfg ms -> cluster cfg ms net ->
  mkMessageEnvelope x c1 (MRequestVoteResponse (mkRequestVoteResponse t true)) ∈ n_sent net ->
  mkMessageEnvelope x c2 (MRequestVoteResponse (mkRequestVoteResponse t true)) ∈ n_sent net ->
  c1 = c2.
Proof. intros Hnd Hcfg Hcl. apply (grants_unique Hnd Hcfg Hcl). Qed.

Lemma cluster_one_vote_per_term_witness :
  mkMessageEnvelope 2 1 (MRequestVoteResponse (mkRequestVoteResponse 1 true)) ∈ n_sent demo_net /\
  1 = 1.
Proof.
  assert (H : mkMessageEnvelope 2 1 (MRequestVoteResponse (mkRequestVoteResponse 1 true))
                ∈ n_sent demo_net).
  { apply (bool_decide_unpack (_ ∈ n_sent demo_net)). vm_compute. exact I. }
  split; [exact H|].
  exact (cluster_one_vote_per_term demo_cfg demo_members demo_net 2 1 1 1 demo_nodup demo_configured
    demo_cluster H H).
Defined.

(** The disks agree: the committed prefixes two nodes would recover from their
    disks are the same up to the shorter one, whatever state the nodes are in. *)
Theorem cluster_disk_commits_agree cfg ms net x y hx hy :
  NoDup ms -> configured cfg ms -> cluster cfg ms net ->
  n_host net !! x = Some hx -> n_host net !! y = Some hy ->
  rec_commit_index (h_disk hx) <= rec_commit_index (h_disk hy) ->
  take (N.to_nat (rec_commit_index (h_disk hx))) (rec_log (h_disk hx)) =
  take (N.to_nat (rec_commit_index (h_disk hx))) (rec_log (h_disk hy)).
Proof.
  intros Hnd Hcfg Hcl Hx Hy Hle.
  destruct (disk_commits_agree Hnd Hcfg Hcl x y hx hy Hx Hy) as (_ & _ & H).
  by rewrite N.min_l in H.
Qed.

Lemma cluster_disk_commits_agree_witness :
  take 2 (rec_log (h_disk (demo_host 2))) = take 2 (rec_log (h_disk (demo_host 1))).
Proof.
  eapply (cluster_disk_commits_agree demo_cfg demo_members demo_net 2 1 (demo_host 2) (demo_host 1));
    [exact demo_nodup|exact demo_configured|exact demo_cluster| | |];
    vm_compute; congruence || reflexivity.
Defined.

(** Restart rebuilds the same state: a node that crashes while idle, with
    everything committed applied, restarts from its disk with the same log, hard
    state, commit index and state machine. *)
Theorem cluster_restart_same_machine cfg ms net x h s' :
  NoDup ms -> configured cfg ms -> cluster cfg ms net -> n_host net !! x = Some h ->
  available h -> pending_storage_ (h_node h) = None ->
  last_applied_ (h_node h) = commit_index_ (h_node h) ->
  RaftNode_new (cfg x) (h_disk h) = Returns s' ->
  state_machine_ s' = state_machine_ (h_node h) /\ log_ s' = log_ (h_node h) /\
  hard_state_ s' = hard_state_ (h_node h) /\ commit_index_ s' = commit_index_ (h_node h) /\
  last_applied_ s' = last_applied_ (h_node h).
Proof.
  intros Hnd Hcfg Hcl Hx Hav Hp Ha Hn. rewrite (new_state _ _ _ Hn).
  rewrite (idle_host_disk Hnd Hcfg Hcl x h Hx Hav Hp). simpl.
  pose proof (ok_machine _ (ok_base _ (host_ok Hnd Hcfg Hcl x h Hx))) as Hm.
  rewrite Ha in *. by rewrite Hm.
Qed.

Lemma cluster_restart_same_machine_witness :
  exists s', RaftNode_new (demo_cfg 2) (h_disk (demo_host 2)) = Returns s' /\
    state_machine_ s' = state_machine_ (h_node (demo_host 2)).
Proof.
  destruct (RaftNode_new (demo_cfg 2) (h_disk (demo_host 2))) as [s'|] eqn:E;
    [|vm_compute in E; discriminate].
  exists s'. split; [reflexivity|].
  refine (proj1 (cluster_restart_same_machine demo_cfg demo_members demo_net 2 (demo_host 2) s'
    demo_nodup demo_configured demo_cluster _ _ _ _ E)).
  - vm_compute. reflexivity.
  - vm_compute. discriminate.
  - vm_compute. reflexivity.
  - vm_compute. reflexivity.
Defined.

(** Construction: a node built from a recovered state is well formed, idle, and
    exactly in the recovered state; construction succeeds only on a membership of
    three or five distinct nodes that contains the node itself. *)
Theorem new_node_ok soup config r s :
  RaftNode_new config r = Returns s -> recoverable config r ->
  node_inv soup s /\ pending_storage_ s = None /\ role_ s = follower /\
  hard_state_ s = rec_hard_state r /\ log_ s = rec_log r /\ commit_index_ s = rec_commit_index r /\
  NoDup (members (config_ s)) /\ node_id config ∈ members (config_ s) /\
  (length (members (config_ s)) = 3 \/ length (members (config_ s)) = 5)%nat.
Proof.
  intros Hn Hr. pose proof (new_node_inv _ _ _ Hn Hr soup) as Hi.
  destruct (new_cfg_ok _ _ _ Hn Hr) as [Hc1 Hc2 Hc3 _ _].
  rewrite (new_state _ _ _ Hn) in *. by split_and!.
Qed.

Lemma new_node_ok_witness :
  exists s, RaftNode_new (demo_cfg 1) empty_disk = Returns s /\ role_ s = follower.
Proof.
  destruct (RaftNode_new (demo_cfg 1) empty_disk) as [s|] eqn:E; [|vm_compute in E; discriminate].
  exists s. split; [reflexivity|].
  refine (proj1 (proj2 (proj2 (new_node_ok (fun _ => False) _ _ _ E _)))).
  constructor; vm_compute; discriminate.
Defined.
