(* ===== verification/ReferenceTheorems.v ===== *)
(** * ReferenceTheorems: the reference model agrees with the implementation

    The digest-based [KvStateMachine] and the full-comparison [interpret] give
    the same answers on every history without digest collisions; the reference
    model keeps its replicas consistent with their committed logs, never changes
    a committed prefix, and a rejected action changes nothing. *)

From S2P Require Import Prelude Model StateMachine ReferenceModel.

(** ** Agreement of the two state machines *)

(** The record the implementation keeps for what the reference stores. *)
Definition record_of (s : SessionState) : SessionRecord :=
  mkSessionRecord (sequence (ss_command s)) (command_digest (ss_command s)) (ss_status s) (ss_result s).

(** The answer of the implementation that corresponds to an outcome. *)
Definition result_of (a : AppliedOutcome) : ApplyResult :=
  mkApplyResult (ao_status a) (ao_value a) (ao_executed a) (ao_duplicate a).

(** Interpretation of a list of commands at consecutive indexes. *)
Fixpoint interpret_all (r : ReplicaState) (idx : LogIndex) (cs : list ClientCommand)
  : list AppliedOutcome * ReplicaState :=
  match cs with
  | [] => ([], r)
  | c :: cs =>
      let '(a, r1) := interpret r idx c in
      let '(os, r2) := interpret_all r1 (idx + 1) cs in
      (a :: os, r2)
  end.

(** No two requests of one session and sequence number collide in their digest. *)
Definition collision_free (cs : list ClientCommand) : Prop :=
  forall c c', c ∈ cs -> c' ∈ cs -> session c = session c' -> sequence c = sequence c' ->
  command_digest c = command_digest c' -> c = c'.

(** The two machines hold the same values and corresponding sessions, whose
    commands come from [cs]. *)
Record machines_agree (cs : list ClientCommand) (r : ReplicaState) (m : KvStateMachine) : Prop := {
  ma_values : rs_values r = values_ m;
  ma_sessions : record_of <$> rs_sessions r = sessions_ m;
  ma_origin : forall id s, rs_sessions r !! id = Some s -> ss_command s ∈ cs /\ session (ss_command s) = id;
}.

Section agreement.
Context (cs : list ClientCommand) (Hcf : collision_free cs).

Lemma same_request_spec c c' : same_request c c' = true <-> c = c'.
Proof.
  unfold same_request. rewrite !andb_true_iff, !bool_decide_eq_true, N.eqb_eq.
  destruct c, c'; simpl. split; [intros [[[[? ?] ?] ?] ?]; congruence|by intros [= -> -> -> -> ->]].
Qed.

(** The comparison of digests is the comparison of requests. *)
Lemma digest_request c s :
  c ∈ cs -> ss_command s ∈ cs -> session (ss_command s) = session c ->
  sequence c = sequence (ss_command s) ->
  (sr_command_digest (record_of s) =? command_digest c) = same_request c (ss_command s).
Proof.
  intros Hc Hs Hid Hseq. destruct (same_request c (ss_command s)) eqn:E.
  - apply same_request_spec in E as ->. apply N.eqb_refl.
  - apply N.eqb_neq. simpl. intros Hd.
    rewrite (Hcf c (ss_command s)) in E by done.
    enough (same_request (ss_command s) (ss_command s) = true) by congruence.
    by apply same_request_spec.
Qed.

Lemma interpret_check_agrees r m idx c :
  machines_agree cs r m -> c ∈ cs ->
  (if negb (StateMachine.structurally_valid c) then Some (rejected invalid_request)
   else session_check m c) = result_of <$> interpret_check (rs_sessions r) idx c.
Proof.
  intros [Hv Hs Ho] Hc. unfold interpret_check, session_check.
  change (ReferenceModel.structurally_valid c) with (StateMachine.structurally_valid c).
  destruct (StateMachine.structurally_valid c); [|done]. cbn [negb].
  rewrite <- Hs, lookup_fmap. destruct (rs_sessions r !! session c) as [s|] eqn:E; simpl.
  - destruct (Ho _ _ E) as [Hin Hid].
    destruct (N.ltb_spec (sequence c) (sequence (ss_command s))); [done|].
    destruct (N.eqb_spec (sequence c) (sequence (ss_command s))) as [Heq|].
    + pose proof (digest_request c s Hc Hin Hid Heq) as Hd. simpl in Hd. rewrite Hd.
      by destruct (same_request c (ss_command s)).
    + by destruct (_ || _).
  - by destruct (_ =? _).
Qed.

Lemma interpret_agrees r m idx c :
  machines_agree cs r m -> c ∈ cs ->
  result_of (interpret r idx c).1 = (kv_apply m c).1 /\
  machines_agree cs (interpret r idx c).2 (kv_apply m c).2.
Proof.
  intros Hagree Hc. pose proof (interpret_check_agrees r m idx c Hagree Hc) as Hchk.
  destruct Hagree as [Hv Hs Ho]. unfold interpret, kv_apply.
  destruct (StateMachine.structurally_valid c); cbn [negb] in *.
  2: { destruct (interpret_check _ idx c) as [a|]; [|done]. apply (inj Some) in Hchk. simpl. by rewrite <- Hchk. }
  rewrite Hchk. destruct (interpret_check _ idx c) as [a|]; simpl; [done|].
  unfold execute. rewrite Hv.
  destruct (kind c); simpl; [|destruct (values_ m !! key c)..]; simpl;
    (split; [done|]; constructor; simpl; [done|by rewrite fmap_insert, Hs|]);
    (intros id st; destruct (decide (session c = id)) as [<-|];
     [rewrite lookup_insert_eq; intros [= <-]; done|rewrite lookup_insert_ne by done; apply Ho]).
Qed.

Lemma interpret_all_agrees r m idx l :
  machines_agree cs r m -> l ⊆ cs ->
  (result_of <$> (interpret_all r idx l).1) = results m l /\
  machines_agree cs (interpret_all r idx l).2 (replay m l).
Proof.
  revert r m idx. induction l as [|c l IH]; intros r m idx Hagree Hl; simpl; [done|].
  destruct (interpret_agrees r m idx c Hagree (Hl c (list_elem_of_here _ _))) as [Hr Ha].
  destruct (interpret r idx c) as [a r1]. destruct (kv_apply m c) as [res m1]. simpl in *.
  destruct (IH r1 m1 (idx + 1) Ha (fun x Hx => Hl x (list_elem_of_further _ _ _ Hx))) as [Hrs Ha'].
  destruct (interpret_all r1 (idx + 1) l) as [os r2]. simpl in *.
  split; [|done]. change (result_of a :: (result_of <$> os) = res :: results m1 l). by rewrite Hr, Hrs.
Qed.

Lemma new_replica_agrees x : machines_agree cs (new_replica x) empty_kv.
Proof. by constructor; simpl; [|rewrite fmap_empty|intros id s; rewrite lookup_empty]. Qed.

End agreement.

(** ** The invariant of the model *)

(** The machine a replica reaches by applying the first [n] entries of a log. *)
Definition interpreted (log : list LogEntry) (n : nat) : ReplicaState :=
  apply_steps n (set_rlog log (new_replica 0)).

(** A replica has applied exactly its committed prefix. *)
Record replica_ok (x : NodeId) (r : ReplicaState) : Prop := {
  ro_id : rs_id r = x;
  ro_applied : rs_last_applied r = rs_commit_index r;
  ro_commit : rs_commit_index r <= N.of_nat (length (rs_log r));
  ro_index : forall i e, rs_log r !! i = Some e -> index e = N.of_nat i + 1;
  ro_values : rs_values r = rs_values (interpreted (rs_log r) (N.to_nat (rs_commit_index r)));
  ro_sessions : rs_sessions r = rs_sessions (interpreted (rs_log r) (N.to_nat (rs_commit_index r)));
  ro_outcomes : rs_outcomes r = rs_outcomes (interpreted (rs_log r) (N.to_nat (rs_commit_index r)));
}.

Definition model_ok (m : Model) : Prop := map_Forall replica_ok (m_replicas m).

(** How a replica may change: its commit index grows and the committed prefix of
    its log stays. *)
Record replica_step (r r' : ReplicaState) : Prop := {
  rp_commit : rs_commit_index r <= rs_commit_index r';
  rp_prefix : take (N.to_nat (rs_commit_index r)) (rs_log r') =
              take (N.to_nat (rs_commit_index r)) (rs_log r);
}.

#[global] Instance replica_step_refl : Reflexive replica_step.
Proof. by constructor. Qed.

#[global] Instance replica_step_trans : Transitive replica_step.
Proof.
  intros r1 r2 r3 [C1 P1] [C2 P2]. constructor; [lia|].
  rewrite <- P1. apply (f_equal (take (N.to_nat (rs_commit_index r1)))) in P2.
  rewrite !take_take in P2.
  by replace (N.to_nat (rs_commit_index r1) `min` N.to_nat (rs_commit_index r2))%nat
    with (N.to_nat (rs_commit_index r1)) in P2 by lia.
Qed.

(** Two replicas with the same machine. *)
Record same_machine (r r' : ReplicaState) : Prop := {
  sm_applied : rs_last_applied r = rs_last_applied r';
  sm_values : rs_values r = rs_values r';
  sm_sessions : rs_sessions r = rs_sessions r';
  sm_outcomes : rs_outcomes r = rs_outcomes r';
}.

Section applying.

Lemma interpret_frame r idx c :
  rs_log (interpret r idx c).2 = rs_log r /\ rs_commit_index (interpret r idx c).2 = rs_commit_index r /\
  rs_id (interpret r idx c).2 = rs_id r.
Proof. unfold interpret. repeat case_match; done. Qed.

Lemma apply_next_frame r :
  rs_log (apply_next r) = rs_log r /\ rs_commit_index (apply_next r) = rs_commit_index r /\
  rs_id (apply_next r) = rs_id r /\ rs_last_applied (apply_next r) = rs_last_applied r + 1.
Proof.
  unfold apply_next. cbv zeta. cbn [rs_log set_machine].
  destruct (rs_log r !! _) as [e|]; [|done]. destruct (command e) as [c|]; [|done].
  pose proof (interpret_frame (set_machine (rs_last_applied r + 1) (rs_values r) (rs_sessions r)
    (rs_outcomes r) r) (rs_last_applied r + 1) c) as (H1 & H2 & H3).
  destruct (interpret _ _ c) as [a r']. simpl in *. done.
Qed.

Lemma apply_steps_frame n r :
  rs_log (apply_steps n r) = rs_log r /\ rs_commit_index (apply_steps n r) = rs_commit_index r /\
  rs_id (apply_steps n r) = rs_id r /\
  rs_last_applied (apply_steps n r) = rs_last_applied r + N.of_nat n.
Proof.
  revert r. induction n as [|n IH]; intros r; simpl; [split_and!; done || lia|].
  destruct (IH (apply_next r)) as (-> & -> & -> & ->).
  destruct (apply_next_frame r) as (-> & -> & -> & ->). split_and!; done || lia.
Qed.

(** Interpretation only depends on the machine. *)
Lemma interpret_same r r' idx c :
  same_machine r r' ->
  (interpret r idx c).1 = (interpret r' idx c).1 /\
  same_machine (interpret r idx c).2 (interpret r' idx c).2.
Proof.
  intros [Ha Hv Hs Ho]. unfold interpret. rewrite Hs, Hv.
  destruct (interpret_check (rs_sessions r') idx c); [done|].
  destruct (kind c); [|destruct (rs_values r' !! key c)..]; done.
Qed.

Lemma apply_next_same r r' :
  same_machine r r' ->
  rs_log r !! N.to_nat (rs_last_applied r) = rs_log r' !! N.to_nat (rs_last_applied r) ->
  same_machine (apply_next r) (apply_next r').
Proof.
  intros Hsm Hl. pose proof Hsm as [Ha Hv Hs Ho]. unfold apply_next. cbv zeta. cbn [rs_log set_machine].
  rewrite <- Ha. replace (rs_last_applied r + 1 - 1) with (rs_last_applied r) by lia. rewrite Hl.
  set (s := set_machine _ _ _ _ r). set (s' := set_machine _ _ _ _ r').
  assert (Hss : same_machine s s') by by constructor.
  destruct (rs_log r' !! _) as [e|]; [|done]. destruct (command e) as [c|]; [|done].
  destruct (interpret_same s s' (rs_last_applied r + 1) c Hss) as [H1 [H2 H3 H4 H5]].
  destruct (interpret s _ c) as [a t], (interpret s' _ c) as [a' t']. simpl in *.
  constructor; simpl; congruence.
Qed.

(** Applying [n] entries only reads the log up to there. *)
Lemma apply_steps_same n r r' :
  same_machine r r' ->
  take (N.to_nat (rs_last_applied r) + n) (rs_log r) = take (N.to_nat (rs_last_applied r) + n) (rs_log r') ->
  same_machine (apply_steps n r) (apply_steps n r').
Proof.
  revert r r'. induction n as [|n IH]; intros r r' Hsm Hl; [done|]. simpl.
  destruct (apply_next_frame r) as (L & _ & _ & A). destruct (apply_next_frame r') as (L' & _).
  apply IH.
  - apply apply_next_same; [done|].
    rewrite <- (lookup_take_full (rs_log r) (N.to_nat (rs_last_applied r) + S n)) by lia.
    rewrite Hl. apply lookup_take_full. lia.
  - rewrite L, L', A.
    replace (N.to_nat (rs_last_applied r + 1) + n)%nat with (N.to_nat (rs_last_applied r) + S n)%nat by lia.
    done.
Qed.

Lemma apply_steps_add n n' r : apply_steps (n + n') r = apply_steps n' (apply_steps n r).
Proof. revert r. induction n; intros r; simpl; auto. Qed.

Lemma interpreted_log log log' n :
  take n log = take n log' -> same_machine (interpreted log n) (interpreted log' n).
Proof. intros H. apply apply_steps_same; [done|]. simpl. done. Qed.

Lemma replica_machine x r :
  replica_ok x r -> same_machine r (interpreted (rs_log r) (N.to_nat (rs_commit_index r))).
Proof.
  intros [Hi Ha Hc _ Hv Hs Ho]. constructor; [|done..]. unfold interpreted.
  destruct (apply_steps_frame (N.to_nat (rs_commit_index r)) (set_rlog (rs_log r) (new_replica 0)))
    as (_ & _ & _ & ->). simpl. lia.
Qed.

(** A replica whose machine is that of its committed prefix is well formed. *)
Lemma replica_ok_intro x r :
  rs_id r = x -> rs_commit_index r <= N.of_nat (length (rs_log r)) ->
  (forall i e, rs_log r !! i = Some e -> index e = N.of_nat i + 1) ->
  same_machine r (interpreted (rs_log r) (N.to_nat (rs_commit_index r))) -> replica_ok x r.
Proof.
  intros Hi Hc Hx [Ha Hv Hs Ho]. constructor; try done. rewrite Ha. unfold interpreted.
  destruct (apply_steps_frame (N.to_nat (rs_commit_index r)) (set_rlog (rs_log r) (new_replica 0)))
    as (_ & _ & _ & ->). simpl. lia.
Qed.

Lemma same_machine_trans r1 r2 r3 : same_machine r1 r2 -> same_machine r2 r3 -> same_machine r1 r3.
Proof. intros [] []. constructor; congruence. Qed.

(** Committing and applying through an index of the log. *)
Lemma apply_through_ok x r i :
  replica_ok x r -> rs_commit_index r <= i -> i <= N.of_nat (length (rs_log r)) ->
  replica_ok x (apply_through (set_commit i r) i) /\
  replica_step r (apply_through (set_commit i r) i).
Proof.
  intros Hok Hc Hi. pose proof (replica_machine x r Hok) as Hm.
  pose proof (ro_applied x r Hok) as Ha.
  unfold apply_through. cbn [rs_last_applied set_commit]. set (n := N.to_nat (i - rs_last_applied r)).
  destruct (apply_steps_frame n (set_commit i r)) as (L & C & I & A). simpl in L, C, I, A.
  split; [|constructor; rewrite ?C, ?L; done || lia].
  apply replica_ok_intro; rewrite ?L, ?C, ?I; [apply Hok|done|apply Hok|].
  replace (N.to_nat i) with (N.to_nat (rs_commit_index r) + n)%nat by (unfold n; lia).
  unfold interpreted. rewrite apply_steps_add. apply apply_steps_same.
  - destruct Hm as [M1 M2 M3 M4]. by constructor.
  - simpl. by destruct (apply_steps_frame (N.to_nat (rs_commit_index r))
      (set_rlog (rs_log r) (new_replica 0))) as (-> & _).
Qed.

(** A log that keeps the committed prefix. *)
Lemma set_rlog_ok x r log :
  replica_ok x r -> take (N.to_nat (rs_commit_index r)) log = take (N.to_nat (rs_commit_index r)) (rs_log r) ->
  (forall i e, log !! i = Some e -> index e = N.of_nat i + 1) ->
  replica_ok x (set_rlog log r) /\ replica_step r (set_rlog log r).
Proof.
  intros Hok Hp Hx. split; [|constructor; simpl; done || lia].
  pose proof (ro_commit x r Hok) as Hc. apply replica_ok_intro; simpl; [apply Hok| |done|].
  - apply (f_equal length) in Hp. rewrite !length_take in Hp. lia.
  - eapply same_machine_trans; [|by apply interpreted_log].
    destruct (replica_machine x r Hok) as [M1 M2 M3 M4]. by constructor.
Qed.

(** Updates of terms, votes and liveness leave the machine alone. *)
Lemma set_vote_ok x r t v a :
  replica_ok x r -> replica_ok x (set_vote t v a r) /\ replica_step r (set_vote t v a r).
Proof. intros []. split; by constructor. Qed.

Lemma set_alive_ok x r a : replica_ok x r -> replica_ok x (set_alive a r) /\ replica_step r (set_alive a r).
Proof. intros []. split; by constructor. Qed.

Lemma set_ready_ok x r t : replica_ok x r -> replica_ok x (set_ready t r).
Proof. intros []. by constructor. Qed.

Lemma observe_term_ok x r t :
  replica_ok x r -> replica_ok x (observe_term t r) /\ replica_step r (observe_term t r).
Proof. intros Hok. unfold observe_term. case_match; [by apply set_vote_ok|done]. Qed.

End applying.

(** ** Every action keeps the invariant *)

(** The effect of an action on all replicas. *)
Definition model_step (m m' : Model) : Prop :=
  forall x r, find m x = Some r -> exists r', find m' x = Some r' /\ replica_step r r'.

Section actions.
Context (m : Model) (Hm : model_ok m).

Lemma model_step_refl : model_step m m.
Proof. intros x r H. by exists r. Qed.

Lemma put_replica_ok x r r' :
  find m x = Some r -> replica_ok x r' -> replica_step r r' ->
  model_ok (put_replica m x r') /\ model_step m (put_replica m x r').
Proof.
  intros Hf Hok Hst. split.
  - apply map_Forall_insert_2; [done|exact Hm].
  - intros y s Hs. unfold find, put_replica in *. simpl. destruct (decide (x = y)) as [<-|].
    + rewrite lookup_insert_eq. exists r'. split; [done|]. congruence.
    + rewrite lookup_insert_ne by done. by exists s.
Qed.

Lemma found_ok x r : find m x = Some r -> replica_ok x r.
Proof. apply Hm. Qed.

Lemma divergence_from_bound idx src dst :
  divergence_from idx src dst = 0 \/
  idx <= divergence_from idx src dst < idx + N.of_nat (length dst).
Proof.
  revert idx dst. induction src as [|a src IH]; intros idx [|b dst]; simpl; auto.
  case_bool_decide; [|right; lia]. destruct (IH (idx + 1) dst); [auto|]. right. lia.
Qed.

Lemma divergence_bound through src dst :
  divergence through src dst - 1 <= N.of_nat (length dst).
Proof.
  unfold divergence. destruct (_ && _); [lia|].
  destruct (divergence_from_bound 1 (take (N.to_nat through) src) dst) as [->|]; lia.
Qed.

(** The log replication gives the follower. *)
Lemma replicated_log_ok x r src through :
  replica_ok x r -> (forall i e, src !! i = Some e -> index e = N.of_nat i + 1) ->
  let d := divergence through src (rs_log r) in
  negb (d =? 0) && (d <=? rs_commit_index r) = false ->
  let log := if d =? 0 then rs_log r
             else take (N.to_nat (d - 1)) (rs_log r) ++
                  drop (N.to_nat (d - 1)) (take (N.to_nat through) src) in
  replica_ok x (set_rlog log r) /\ replica_step r (set_rlog log r).
Proof.
  intros Hok Hsrc d Hd log. pose proof (divergence_bound through src (rs_log r)) as Hb. fold d in Hb.
  unfold log. destruct (N.eqb_spec d 0) as [E|E].
  { apply set_rlog_ok; [done|done|apply Hok]. }
  simpl in Hd. apply N.leb_gt in Hd. pose proof (ro_index x r Hok) as Hx.
  apply set_rlog_ok; [done| |].
  - rewrite take_app_le by (rewrite length_take; lia). rewrite take_take. f_equal. lia.
  - intros i e [He|[Hlen He]]%lookup_app_Some.
    + apply lookup_take_Some in He as [He _]. eauto.
    + rewrite length_take in *. rewrite lookup_drop in He. apply lookup_take_Some in He as [He _].
      apply Hsrc in He. lia.
Qed.

Lemma append_entry_ok x r e :
  replica_ok x r -> index e = N.of_nat (length (rs_log r)) + 1 ->
  replica_ok x (set_rlog (rs_log r ++ [e]) r) /\ replica_step r (set_rlog (rs_log r ++ [e]) r).
Proof.
  intros Hok He. pose proof (ro_commit x r Hok) as Hc. pose proof (ro_index x r Hok) as Hx.
  apply set_rlog_ok; [done|by rewrite take_app_le by lia|].
  intros i e' [[_ H]|[-> <-]]%lookup_snoc_Some; [eauto|done].
Qed.

(** What an accepted election does to one replica, the winner apart. *)
Lemma granted_ok cid t (voted : gset N) x r :
  replica_ok x r ->
  let r' := if bool_decide (x ∈ voted) then grant_vote cid t r else r in
  replica_ok x r' /\ replica_step r r'.
Proof.
  intros Hok. simpl. case_bool_decide; [|done]. unfold grant_vote. case_match; by apply set_vote_ok.
Qed.

Lemma elected_ok cid t (voted : gset N) leaders :
  let m' := mkModel (m_members m)
    (alter (set_vote t (Some cid) true) cid
       (map_imap (fun x r => Some (if bool_decide (x ∈ voted) then grant_vote cid t r else r))
          (m_replicas m))) leaders in
  model_ok m' /\ model_step m m'.
Proof.
  intros m'.
  assert (Hall : forall x r, m_replicas m !! x = Some r -> exists r',
    m_replicas m' !! x = Some r' /\ replica_ok x r' /\ replica_step r r').
  { intros x r Hr. destruct (granted_ok cid t voted x r (Hm x r Hr)) as [H1 H2]. unfold m'. simpl.
    destruct (decide (cid = x)) as [<-|Hne].
    - rewrite lookup_alter_eq, map_lookup_imap, Hr. simpl.
      destruct (set_vote_ok cid _ t (Some cid) true H1) as [H3 H4].
      eexists. split; [done|]. split; [done|]. by etrans.
    - rewrite lookup_alter_ne, map_lookup_imap, Hr by done. simpl. eauto. }
  split.
  - intros x r' Hr'. destruct (m_replicas m !! x) as [r|] eqn:Hr.
    + destruct (Hall x r Hr) as (r2 & Hr2 & Hok & _). congruence.
    + exfalso. unfold m' in Hr'. simpl in Hr'. destruct (decide (cid = x)) as [<-|].
      * by rewrite lookup_alter_eq, map_lookup_imap, Hr in Hr'.
      * by rewrite lookup_alter_ne, map_lookup_imap, Hr in Hr' by done.
  - intros x r Hr. destruct (Hall x r Hr) as (r' & H1 & _ & H2). by exists r'.
Qed.

Lemma elect_ok cid t voters :
  model_ok (elect m cid t voters).2 /\ model_step m (elect m cid t voters).2.
Proof.
  unfold elect. pose proof model_step_refl as Hrefl.
  destruct (find m cid) as [cand|]; [|done].
  destruct (negb (rs_alive cand)); [done|]. destruct (_ || _); [done|].
  destruct (check_voters m cand cid t voters ∅) as [e|voted]; [done|].
  destruct (negb (bool_decide _)); [done|]. destruct (_ <? _)%nat; [done|].
  destruct (match m_leaders m !! t with Some _ => _ | None => _ end); [done|]. apply elected_ok.
Qed.

Lemma commit_ok l through acks :
  model_ok (commit m l through acks).2 /\ model_step m (commit m l through acks).2.
Proof.
  unfold commit. pose proof model_step_refl as Hrefl.
  destruct (find m l) as [r|] eqn:Hf; [|done]. destruct (negb _ || negb _); [done|].
  destruct (N.ltb_spec through (rs_commit_index r)) as [|H1]; [done|].
  destruct (N.ltb_spec (N.of_nat (length (rs_log r))) through) as [|H2]; [done|]. cbn [orb].
  destruct (check_acks m r through acks ∅) as [e|seen]; [done|].
  destruct (_ <? _)%nat; [done|]. destruct (negb (bool_decide _)); [done|].
  destruct (_ && negb (bool_decide _)); [done|].
  destruct (apply_through_ok l r through (found_ok l r Hf) H1 H2) as [Ho Hs]. cbn [snd].
  destruct (negb (through =? 0) && _); apply (put_replica_ok l r); auto using set_ready_ok.
  by destruct Hs; constructor.
Qed.

Lemma model_apply_ok a : model_ok (model_apply m a).2 /\ model_step m (model_apply m a).2.
Proof.
  pose proof model_step_refl as Hrefl.
  destruct a as [c t vs|l|l c|l f i|l i acks|l f i|x|x]; simpl; [apply elect_ok|..].
  - unfold append_noop. destruct (find m l) as [r|] eqn:Hf; [|done]. case_match; [done|].
    apply (put_replica_ok l r); [done|..]; by apply (append_entry_ok l); [apply found_ok|].
  - unfold propose. destruct (find m l) as [r|] eqn:Hf; [|done]. repeat (case_match; [done|]).
    apply (put_replica_ok l r); [done|..]; by apply (append_entry_ok l); [apply found_ok|].
  - unfold replicate. destruct (find m l) as [s|] eqn:Hl, (find m f) as [r|] eqn:Hf; try done.
    repeat (case_match; [done|]).
    destruct (replicated_log_ok f r (rs_log s) i (found_ok f r Hf)
      (ro_index l s (found_ok l s Hl))) as [Ho Hs]; [done|].
    destruct (observe_term_ok f _ (rs_current_term s) Ho) as [Ho' Hs'].
    apply (put_replica_ok f r); [done|done|by etrans].
  - apply commit_ok.
  - unfold learn. destruct (find m l) as [s|] eqn:Hl, (find m f) as [r|] eqn:Hf; try done.
    repeat (case_match; [done|]).
    match goal with H : _ || _ || negb (equal_prefix s r i) = false |- _ =>
      apply orb_false_iff in H as [H Heq]; apply orb_false_iff in H as [H1 H2] end.
    apply N.ltb_ge in H1. apply negb_false_iff in Heq. unfold equal_prefix in Heq.
    destruct (N.ltb_spec (N.of_nat (length (rs_log r))) i) as [|Hi]; [by rewrite orb_true_r in Heq|].
    destruct (apply_through_ok f r i (found_ok f r Hf) H1 Hi) as [Ho Hs].
    destruct (observe_term_ok f _ (rs_current_term s) Ho) as [Ho' Hs'].
    apply (put_replica_ok f r); [done|done|by etrans].
  - unfold crash. destruct (find m x) as [r|] eqn:Hf; [|done]. case_match; [done|].
    apply (put_replica_ok x r); [done|..]; by apply (set_alive_ok x), found_ok.
  - unfold restart. destruct (find m x) as [r|] eqn:Hf; [|done]. case_match; [done|].
    apply (put_replica_ok x r); [done|..]; by apply (set_alive_ok x), found_ok.
Qed.

Lemma model_apply_rejected a : ok (model_apply m a).1 = false -> (model_apply m a).2 = m.
Proof.
  destruct a as [c t vs|l|l c|l f i|l i acks|l f i|x|x]; simpl;
    unfold elect, append_noop, propose, replicate, commit, learn, crash, restart;
    repeat (case_match; simpl; try done).
Qed.

End actions.

(** ** Histories *)

Section histories.

Lemma build_replicas_ok ms acc reps :
  build_replicas ms acc = Some reps -> map_Forall replica_ok acc -> map_Forall replica_ok reps.
Proof.
  revert acc. induction ms as [|x ms IH]; intros acc H Hacc; simpl in H; [by injection H as <-|].
  case_match; [done|]. apply (IH _ H). apply map_Forall_insert_2; [|done].
  by constructor.
Qed.

Lemma Model_new_ok ms m : Model_new ms = Some m -> model_ok m.
Proof.
  unfold Model_new. case_match; [done|]. destruct (build_replicas ms ∅) as [reps|] eqn:E; [|done].
  intros [= <-]. by apply (build_replicas_ok _ _ _ E), map_Forall_empty.
Qed.

Lemma apply_history_from_ok m i h :
  model_ok m ->
  model_ok (apply_history_from m i h).2 /\ model_step m (apply_history_from m i h).2.
Proof.
  revert m i. induction h as [|a h IH]; intros m i Hm; simpl.
  - split; [done|apply model_step_refl].
  - destruct (model_apply_ok m Hm a) as [Hok Hst].
    destruct (model_apply m a) as [r m']. simpl in *. case_match; [|done].
    destruct (IH m' (i + 1) Hok) as [Hok' Hst']. split; [done|].
    intros x s Hs. destruct (Hst x s Hs) as (s1 & H1 & Hs1).
    destruct (Hst' x s1 H1) as (s2 & H2 & Hs2). exists s2. split; [done|]. by etrans.
Qed.

End histories.

(** ** Properties *)

(** C36 (agreement with the reference interpreter).  On every history in which no
    two requests of one session and sequence number collide in their 64-bit
    digest, [KvStateMachine::apply] returns the answers of the reference model's
    full-comparison interpreter, one by one, and reaches the same values. *)
Theorem kv_refines_reference (cs : list ClientCommand) (x : NodeId) (Hcf : collision_free cs) :
  (result_of <$> (interpret_all (new_replica x) 1 cs).1) = results empty_kv cs /\
  rs_values (interpret_all (new_replica x) 1 cs).2 = values_ (replay empty_kv cs).
Proof.
  destruct (interpret_all_agrees cs Hcf (new_replica x) empty_kv 1 cs (new_replica_agrees cs x)
    ltac:(done)) as [Hr [Hv _ _]]. done.
Qed.

(** (the reference model applies exactly its committed prefix).  After every
    history of actions, accepted or not, each replica of the model has applied
    its log up to its commit index and no further, and its values, sessions and
    outcomes are those of interpreting that prefix from scratch. *)
Theorem reference_applies_committed (ms : list NodeId) (m : Model) (h : list Action) (x : NodeId)
    (r : ReplicaState) (Hnew : Model_new ms = Some m)
    (Hr : find (apply_history m h).2 x = Some r) :
  rs_last_applied r = rs_commit_index r /\ rs_commit_index r <= N.of_nat (length (rs_log r)) /\
  rs_values r = rs_values (interpreted (rs_log r) (N.to_nat (rs_commit_index r))) /\
  rs_sessions r = rs_sessions (interpreted (rs_log r) (N.to_nat (rs_commit_index r))) /\
  rs_outcomes r = rs_outcomes (interpreted (rs_log r) (N.to_nat (rs_commit_index r))).
Proof.
  destruct (apply_history_from_ok m 0 h (Model_new_ok _ _ Hnew)) as [Hok _].
  destruct (Hok x r Hr). done.
Qed.

(** (committed prefixes are stable).  No action history removes a replica,
    lowers its commit index or changes an entry it had committed. *)
Theorem reference_committed_stable (ms : list NodeId) (m0 : Model) (h h' : list Action) (x : NodeId)
    (r : ReplicaState) (Hnew : Model_new ms = Some m0)
    (Hr : find (apply_history m0 h).2 x = Some r) :
  exists r', find (apply_history (apply_history m0 h).2 h').2 x = Some r' /\
    rs_commit_index r <= rs_commit_index r' /\
    take (N.to_nat (rs_commit_index r)) (rs_log r') = take (N.to_nat (rs_commit_index r)) (rs_log r).
Proof.
  destruct (apply_history_from_ok m0 0 h (Model_new_ok _ _ Hnew)) as [Hok _].
  destruct (apply_history_from_ok (apply_history m0 h).2 0 h' Hok) as [_ Hst].
  destruct (Hst x r Hr) as (r' & Hr' & [Hc Hp]). by exists r'.
Qed.

(** Rejection is atomic.  An action the model rejects leaves it unchanged,
    so a history stops exactly at its first rejected action. *)
Theorem reference_reject_unchanged (m : Model) (a : Action) (Hrej : ok (model_apply m a).1 = false) :
  (model_apply m a).2 = m.
Proof. by apply model_apply_rejected. Qed.

(** ** Witnesses *)

Definition ref_model : Model :=
  match Model_new [1; 2; 3] with Some m => m | None => mkModel [] ∅ ∅ end.

Definition ref_history : list Action :=
  [Elect 1 1 [1; 2]; AppendNoOp 1; ReplicatePrefix 1 2 1; CommitPrefix 1 1 [1; 2];
   Propose 1 (sm_put 1 "a"); ReplicatePrefix 1 2 2; CommitPrefix 1 2 [1; 2]; LearnCommit 1 2 2].

Definition ref_replica : ReplicaState :=
  match find (apply_history ref_model ref_history).2 2 with Some r => r | None => new_replica 0 end.

Example ref_history_accepted :
  (apply_history ref_model ref_history).1 = mkHistoryResult true 8 EmptyString /\
  model_value (apply_history ref_model ref_history).2 2 "k" = Some "a"%string.
Proof. split; vm_compute; reflexivity. Qed.

Lemma kv_refines_reference_witness :
  (result_of <$> (interpret_all (new_replica 1) 1 sm_history).1) = results empty_kv sm_history /\
  rs_values (interpret_all (new_replica 1) 1 sm_history).2 = values_ (replay empty_kv sm_history).
Proof.
  apply (kv_refines_reference sm_history 1). intros c c' Hc Hc' Hs Hq _.
  unfold sm_history in *. repeat (apply elem_of_cons in Hc as [->|Hc]); try by apply elem_of_nil in Hc.
  all: repeat (apply elem_of_cons in Hc' as [->|Hc']); try by apply elem_of_nil in Hc'.
  all: reflexivity || discriminate Hq.
Defined.

Lemma reference_applies_committed_witness :
  rs_last_applied ref_replica = rs_commit_index ref_replica /\
  rs_commit_index ref_replica <= N.of_nat (length (rs_log ref_replica)) /\
  rs_values ref_replica =
    rs_values (interpreted (rs_log ref_replica) (N.to_nat (rs_commit_index ref_replica))) /\
  rs_sessions ref_replica =
    rs_sessions (interpreted (rs_log ref_replica) (N.to_nat (rs_commit_index ref_replica))) /\
  rs_outcomes ref_replica =
    rs_outcomes (interpreted (rs_log ref_replica) (N.to_nat (rs_commit_index ref_replica))).
Proof.
  apply (reference_applies_committed [1; 2; 3] ref_model ref_history 2).
  - reflexivity.
  - vm_compute. reflexivity.
Defined.

Lemma reference_committed_stable_witness :
  exists r', find (apply_history (apply_history ref_model ref_history).2 [Crash 2]).2 2 = Some r' /\
    rs_commit_index ref_replica <= rs_commit_index r' /\
    take (N.to_nat (rs_commit_index ref_replica)) (rs_log r') =
    take (N.to_nat (rs_commit_index ref_replica)) (rs_log ref_replica).
Proof.
  apply (reference_committed_stable [1; 2; 3] ref_model ref_history [Crash 2] 2 ref_replica).
  - reflexivity.
  - vm_compute. reflexivity.
Defined.

Lemma reference_reject_unchanged_witness :
  (model_apply ref_model (AppendNoOp 3)).2 = ref_model.
Proof. apply (reference_reject_unchanged ref_model (AppendNoOp 3)). vm_compute. reflexivity. Defined.
