(* ===== verification/Bytes.v ===== *)
(** * Bytes: byte sequences and fixed-width integers in them

    A byte buffer ([std::vector<std::byte>], [std::span<const std::byte>]) is a
    list of integers below 256.  [be_bytes] and [le_bytes] are the sequences the
    shift loops of the wire codec (big-endian) and of the WAL (little-endian)
    emit; the lemmas invert the loops that read them back. *)

From S2P Require Import Prelude Model StateMachine.

Definition is_byte (b : N) : Prop := b < 256.
#[global] Instance is_byte_dec b : Decision (is_byte b) := N.lt_dec b 256.
Abbreviation bytes_ok := (Forall is_byte).

(** [bytes.size()]. *)
Definition blen (bs : list N) : N := N.of_nat (length bs).

(** [std::string(begin, size)] over bytes. *)
Definition string_of_bytes (bs : list N) : string :=
  String.string_of_list_ascii (ascii_of_N <$> bs).

(** The bytes of an integer in the order of the shifts [8(n-1), ..., 8, 0]. *)
Fixpoint be_bytes (n : nat) (v : N) : list N :=
  match n with
  | O => []
  | S n => byte_at v (8 * N.of_nat n) :: be_bytes n v
  end.

(** The bytes of an integer in the order of the shifts [0, 8, ..., 8(n-1)]. *)
Definition le_bytes (n : nat) (v : N) : list N :=
  (fun i => byte_at v (8 * N.of_nat i)) <$> seq 0 n.

(** [value = (value << 8) | byte], without the width. *)
Definition shift_in (acc b : N) : N := N.lor (N.shiftl acc 8) b.

Section arithmetic.

Lemma byte_at_is_byte v s : is_byte (byte_at v s).
Proof. apply N.mod_upper_bound. done. Qed.

Lemma byte_at_0 v : is_byte v -> byte_at v 0 = v.
Proof. intros H. unfold byte_at. rewrite N.shiftr_0_r. by apply N.mod_small. Qed.

Lemma pow256 n : 256 ^ n = 2 ^ (8 * n).
Proof. rewrite N.pow_mul_r. done. Qed.

Lemma byte_at_div v n : byte_at v (8 * n) = (v / 256 ^ n) mod 256.
Proof. unfold byte_at. by rewrite N.shiftr_div_pow2, pow256. Qed.

Lemma u32_bytes v : v <= u32_max <-> v < 256 ^ N.of_nat 4.
Proof. change (256 ^ N.of_nat 4) with u32_size. unfold u32_max, u32_size. lia. Qed.

Lemma u64_bytes v : v <= u64_max <-> v < 256 ^ N.of_nat 8.
Proof. change (256 ^ N.of_nat 8) with u64_size. unfold u64_max, u64_size. lia. Qed.

Lemma land_disjoint a b k : a < 2 ^ k -> N.land a (N.shiftl b k) = 0.
Proof.
  intros Ha. apply N.bits_inj. intros i. rewrite N.land_spec, N.bits_0.
  destruct (N.lt_ge_cases i k) as [Hi|Hi].
  - rewrite N.shiftl_spec_low by done. by rewrite andb_false_r.
  - rewrite <- (N.mod_small a (2 ^ k)) by done. by rewrite N.mod_pow2_bits_high.
Qed.

Lemma lor_add a b k : a < 2 ^ k -> N.lor a (N.shiftl b k) = a + b * 2 ^ k.
Proof.
  intros Ha. rewrite <- N.shiftl_mul_pow2, <- N.lxor_lor by by apply land_disjoint.
  symmetry. apply N.add_nocarry_lxor. by apply land_disjoint.
Qed.

Lemma shift_in_spec acc b : is_byte b -> shift_in acc b = acc * 256 + b.
Proof.
  intros Hb. unfold shift_in. rewrite N.lor_comm, lor_add by done.
  change (2 ^ 8) with 256. lia.
Qed.

Lemma pow256_S n : 256 ^ N.of_nat (S n) = 256 * 256 ^ N.of_nat n.
Proof. rewrite Nat2N.inj_succ. by rewrite N.pow_succ_r'. Qed.

Lemma pow256_pos n : 0 < 256 ^ n.
Proof. apply N.neq_0_lt_0. by apply N.pow_nonzero. Qed.

End arithmetic.

Section big_endian.

Lemma be_bytes_ok n v : bytes_ok (be_bytes n v).
Proof. induction n; simpl; auto using byte_at_is_byte. Qed.

Lemma be_bytes_length n v : length (be_bytes n v) = n.
Proof. induction n; simpl; congruence. Qed.

(** The number a byte sequence denotes, most significant byte first. *)
Definition be_value (acc : N) (bs : list N) : N := foldl shift_in acc bs.

Lemma be_value_bytes n v acc :
  be_value acc (be_bytes n v) = acc * 256 ^ N.of_nat n + v mod 256 ^ N.of_nat n.
Proof.
  revert acc. induction n as [|n IH]; intros acc; simpl be_bytes; simpl be_value.
  - rewrite N.mod_1_r. unfold be_value. simpl. lia.
  - unfold be_value in *. simpl. rewrite IH, shift_in_spec by apply byte_at_is_byte.
    rewrite byte_at_div, pow256_S, (N.mul_comm 256 (256 ^ N.of_nat n)).
    pose proof (pow256_pos (N.of_nat n)).
    rewrite N.Div0.mod_mul_r by lia. lia.
Qed.

Lemma be_value_inv n v : v < 256 ^ N.of_nat n -> be_value 0 (be_bytes n v) = v.
Proof. intros H. rewrite be_value_bytes. rewrite N.mod_small by done. lia. Qed.

Lemma be_value_bound bs acc :
  bytes_ok bs -> be_value acc bs < (acc + 1) * 256 ^ N.of_nat (length bs).
Proof.
  intros H. revert acc. induction H as [|b bs Hb _ IH]; intros acc.
  - unfold be_value. simpl. lia.
  - unfold be_value in *. cbn [foldl length]. rewrite shift_in_spec by done.
    specialize (IH (acc * 256 + b)). rewrite pow256_S. unfold is_byte in Hb.
    pose proof (pow256_pos (N.of_nat (length bs))). nia.
Qed.

Lemma be_value_acc bs acc :
  bytes_ok bs -> be_value acc bs = acc * 256 ^ N.of_nat (length bs) + be_value 0 bs.
Proof.
  intros H. revert acc. induction H as [|b bs Hb _ IH]; intros acc.
  - unfold be_value. simpl. lia.
  - change (be_value acc (b :: bs)) with (be_value (shift_in acc b) bs).
    change (be_value 0 (b :: bs)) with (be_value (shift_in 0 b) bs).
    rewrite (IH (shift_in acc b)), (IH (shift_in 0 b)), !shift_in_spec by done.
    cbn [length]. rewrite pow256_S. lia.
Qed.

Lemma be_bytes_value bs : bytes_ok bs -> be_bytes (length bs) (be_value 0 bs) = bs.
Proof.
  intros H. enough (He : forall acc, be_bytes (length bs) (be_value acc bs) = bs) by apply He.
  induction H as [|b bs Hb Hbs IH]; intros acc; [done|].
  change (be_value acc (b :: bs)) with (be_value (shift_in acc b) bs).
  cbn [length be_bytes]. f_equal; [|apply IH].
  rewrite shift_in_spec, byte_at_div by done. pose proof (pow256_pos (N.of_nat (length bs))) as Hp.
  pose proof (be_value_bound bs 0 Hbs) as Hv. rewrite be_value_acc by done.
  rewrite N.div_add_l by lia. rewrite N.div_small by lia.
  rewrite N.add_0_r. rewrite <- N.Div0.add_mod_idemp_l, N.Div0.mod_mul.
  by apply N.mod_small.
Qed.

End big_endian.

Section little_endian.

Lemma le_bytes_ok n v : bytes_ok (le_bytes n v).
Proof. apply Forall_fmap, Forall_true. intros i. apply byte_at_is_byte. Qed.

Lemma le_bytes_length n v : length (le_bytes n v) = n.
Proof. unfold le_bytes. by rewrite length_fmap, length_seq. Qed.

Lemma le_bytes_S n v : le_bytes (S n) v = le_bytes n v ++ [byte_at v (8 * N.of_nat n)].
Proof. unfold le_bytes. by rewrite seq_S, fmap_app. Qed.

(** One turn of the reading loop, [value |= byte << shift]. *)
Definition or_in (acc : N * N) (b : N) : N * N := (N.lor acc.1 (N.shiftl b acc.2), acc.2 + 8).

(** The number a byte sequence denotes, least significant byte first. *)
Definition le_value (bs : list N) : N := (foldl or_in (0, 0) bs).1.

Lemma le_bytes_be n v : le_bytes n v = reverse (be_bytes n v).
Proof. induction n as [|n IH]; [done|]. by rewrite le_bytes_S, IH, <- reverse_cons. Qed.

Lemma le_fold bs :
  bytes_ok bs -> foldl or_in (0, 0) bs = (be_value 0 (reverse bs), 8 * N.of_nat (length bs)).
Proof.
  induction bs as [|b bs IH] using rev_ind; intros H; [done|].
  apply Forall_app in H as [H Hb]. inversion Hb as [|? ? Hb' _]; subst.
  rewrite foldl_app, IH by done. unfold or_in. simpl. f_equal.
  - rewrite reverse_app. simpl.
    change (be_value 0 (b :: reverse bs)) with (be_value (shift_in 0 b) (reverse bs)).
    assert (Hr : bytes_ok (reverse bs)) by by apply Forall_reverse.
    pose proof (be_value_bound _ 0 Hr) as Hv. rewrite length_reverse in Hv.
    rewrite lor_add by (rewrite <- pow256; lia).
    rewrite (be_value_acc _ (shift_in 0 b)), shift_in_spec, length_reverse, <- pow256 by done. lia.
  - rewrite length_app. simpl. lia.
Qed.

Lemma le_value_be bs : bytes_ok bs -> le_value bs = be_value 0 (reverse bs).
Proof. intros H. unfold le_value. by rewrite le_fold. Qed.

Lemma le_value_inv n v : v < 256 ^ N.of_nat n -> le_value (le_bytes n v) = v.
Proof.
  intros H. rewrite le_value_be by apply le_bytes_ok.
  rewrite le_bytes_be, reverse_involutive. by apply be_value_inv.
Qed.

Lemma le_bytes_value bs : bytes_ok bs -> le_bytes (length bs) (le_value bs) = bs.
Proof.
  intros H. rewrite le_value_be, le_bytes_be, <- (length_reverse bs) by done.
  rewrite be_bytes_value by by apply Forall_reverse. apply reverse_involutive.
Qed.

Lemma le_value_bound bs : bytes_ok bs -> le_value bs < 256 ^ N.of_nat (length bs).
Proof.
  intros H. rewrite le_value_be by done.
  pose proof (be_value_bound (reverse bs) 0 ltac:(by apply Forall_reverse)) as Hv.
  rewrite length_reverse in Hv. lia.
Qed.

End little_endian.

(** ** Strings as bytes *)

Section strings.

Lemma string_bytes_ok s : bytes_ok (string_bytes s).
Proof. apply Forall_fmap, Forall_true. intros a. apply N_ascii_bounded. Qed.

Lemma string_bytes_length s : blen (string_bytes s) = string_size s.
Proof.
  unfold blen, string_bytes, string_size. rewrite length_fmap. f_equal.
  induction s; simpl; congruence.
Qed.

Lemma string_of_string_bytes s : string_of_bytes (string_bytes s) = s.
Proof.
  unfold string_of_bytes, string_bytes. rewrite <- list_fmap_compose.
  rewrite (list_fmap_ext _ id) by (intros; apply ascii_N_embedding).
  rewrite list_fmap_id. apply String.string_of_list_ascii_of_string.
Qed.

Lemma string_bytes_of_bytes bs : bytes_ok bs -> string_bytes (string_of_bytes bs) = bs.
Proof.
  intros H. unfold string_of_bytes, string_bytes.
  rewrite String.list_ascii_of_string_of_list_ascii, <- list_fmap_compose.
  induction H as [|b bs Hb _ IH]; simpl; [done|]. f_equal; [|done].
  by apply N_ascii_embedding.
Qed.

Lemma string_bytes_inj s s' : string_bytes s = string_bytes s' -> s = s'.
Proof. intros H. rewrite <- (string_of_string_bytes s), H. apply string_of_string_bytes. Qed.

Lemma blen_app bs bs' : blen (bs ++ bs') = blen bs + blen bs'.
Proof. unfold blen. rewrite length_app. lia. Qed.

Lemma blen_be n v : blen (be_bytes n v) = N.of_nat n.
Proof. unfold blen. by rewrite be_bytes_length. Qed.

Lemma blen_le n v : blen (le_bytes n v) = N.of_nat n.
Proof. unfold blen. by rewrite le_bytes_length. Qed.

End strings.

(** ** Value ranges of the C++ types *)

Definition u32 (v : N) : Prop := v <= u32_max.
Definition u64 (v : N) : Prop := v <= u64_max.

Definition command_fits (c : ClientCommand) : Prop :=
  u64 (high (session c)) /\ u64 (low (session c)) /\ u64 (sequence c).

Definition entry_fits (e : LogEntry) : Prop :=
  u64 (index e) /\ u64 (term e) /\ match command e with Some c => command_fits c | None => True end.

Definition message_fits (m : Message) : Prop :=
  match m with
  | MRequestVote v =>
      u64 (rv_term v) /\ u32 (rv_candidate_id v) /\ u64 (rv_last_log_index v) /\
      u64 (rv_last_log_term v)
  | MRequestVoteResponse v => u64 (rvr_term v)
  | MAppendEntries v =>
      u64 (ae_term v) /\ u32 (ae_leader_id v) /\ u64 (ae_rpc_id v) /\ u64 (ae_prev_log_index v) /\
      u64 (ae_prev_log_term v) /\ Forall entry_fits (ae_entries v) /\ u64 (ae_leader_commit v)
  | MAppendEntriesResponse v =>
      u64 (aer_term v) /\ u64 (aer_rpc_id v) /\ u64 (aer_match_index v) /\
      u64 (aer_conflict_index v) /\ u64 (aer_conflict_term v)
  end.

#[global] Instance command_fits_dec c : Decision (command_fits c).
Proof. unfold command_fits, u64. apply _. Defined.

#[global] Instance entry_fits_dec e : Decision (entry_fits e).
Proof. unfold entry_fits, u64. destruct (command e); apply _. Defined.

#[global] Instance message_fits_dec m : Decision (message_fits m).
Proof. unfold message_fits, u32, u64. destruct m; apply _. Defined.

Definition batch_fits (b : PersistBatch) : Prop :=
  match b_hard_state b with
  | Some h => u64 (current_term h) /\ match voted_for h with Some v => u32 v | None => True end
  | None => True
  end /\
  match b_truncate_from b with Some i => u64 i | None => True end /\
  Forall entry_fits (b_entries b) /\
  match b_commit_index b with Some i => u64 i | None => True end.

#[global] Instance batch_fits_dec b : Decision (batch_fits b).
Proof.
  unfold batch_fits, u32, u64.
  destruct (b_hard_state b) as [[? []]|], (b_truncate_from b), (b_commit_index b); apply _.
Defined.
