(* ===== verification/Codec.v ===== *)
(** * Codec: the binary wire format

    Translation of [include/detlog/codec.hpp] and [src/codec.cpp].  A [Writer]
    method is a function from the writer to its [bool] result and the new
    writer, [&&] between two such calls is [&&&]; a [Reader] method returns the
    value it stores through its reference argument, [None] for [false].
    [Result<T>] is a sum of [success] and [failure]. *)

From S2P Require Import Prelude Model StateMachine Bytes.

Record Limits := mkLimits {
  max_frame_bytes : N;
  max_key_bytes : N;
  max_value_bytes : N;
  max_entries_per_append : N;
}.

Definition default_limits : Limits := mkLimits (1024 * 1024) (4 * 1024) (64 * 1024) 256.

Inductive Error :=
  | none
  | truncated
  | bad_magic
  | unsupported_version
  | unknown_type
  | nonzero_reserved
  | invalid_boolean
  | invalid_enum
  | invalid_value
  | limit_exceeded
  | length_overflow
  | trailing_bytes
  | unexpected_type.

#[global] Instance Error_eq_dec : EqDecision Error.
Proof. solve_decision. Defined.

Definition to_string (e : Error) : string :=
  match e with
  | none => "none"
  | truncated => "truncated"
  | bad_magic => "bad_magic"
  | unsupported_version => "unsupported_version"
  | unknown_type => "unknown_type"
  | nonzero_reserved => "nonzero_reserved"
  | invalid_boolean => "invalid_boolean"
  | invalid_enum => "invalid_enum"
  | invalid_value => "invalid_value"
  | limit_exceeded => "limit_exceeded"
  | length_overflow => "length_overflow"
  | trailing_bytes => "trailing_bytes"
  | unexpected_type => "unexpected_type"
  end.

Inductive Result (T : Type) :=
  | success (value : T)
  | failure (error : Error) (offset : N).
Arguments success {T} value.
Arguments failure {T} error offset.

Definition kHeaderBytes : N := 12.
Definition kMinimumEntryPayloadBytes : N := 17.
Definition kMagic : list N := [68; 76; 79; 71].
Definition kVersion : N := 1.

Inductive WireType :=
  | wt_command
  | wt_log_entry
  | wt_request_vote
  | wt_request_vote_response
  | wt_append_entries
  | wt_append_entries_response.

#[global] Instance WireType_eq_dec : EqDecision WireType.
Proof. solve_decision. Defined.

Definition wire_type_u8 (t : WireType) : N :=
  match t with
  | wt_command => 1
  | wt_log_entry => 2
  | wt_request_vote => 16
  | wt_request_vote_response => 17
  | wt_append_entries => 18
  | wt_append_entries_response => 19
  end.

(** [static_cast<WireType>] of a byte, [None] when it is not an enumerator. *)
Definition wire_type_of_u8 (b : N) : option WireType :=
  match b with
  | 1 => Some wt_command
  | 2 => Some wt_log_entry
  | 16 => Some wt_request_vote
  | 17 => Some wt_request_vote_response
  | 18 => Some wt_append_entries
  | 19 => Some wt_append_entries_response
  | _ => None
  end.

Definition known_wire_type (b : N) : bool := negb (is_none (wire_type_of_u8 b)).

(** The check of a kind by its underlying value. *)
Definition known_command_kind (b : N) : bool := negb (is_none (command_kind_of_u8 b)).

Definition valid_log_pointer (idx t : N) : bool := Bool.eqb (idx =? 0) (t =? 0).

Definition valid_command_semantics (c : ClientCommand) : bool :=
  negb (sequence c =? 0) && negb (string_empty (key c)) &&
  known_command_kind (command_kind_u8 (kind c)) &&
  negb ((bool_decide (kind c = erase) || bool_decide (kind c = get)) &&
        negb (string_empty (value c))).

(** ** Writer *)

Record Writer := mkWriter {
  limit_ : N;
  wbytes_ : list N;
  werror_ : Error;
  werror_offset_ : N;
}.

Definition new_writer (limit : N) : Writer := mkWriter limit [] none 0.

Definition Put : Type := Writer -> bool * Writer.

(** [Writer::fail] keeps the first error. *)
Definition wfail (e : Error) (w : Writer) : Writer :=
  if bool_decide (werror_ w = none)
  then mkWriter (limit_ w) (wbytes_ w) e (blen (wbytes_ w)) else w.

Definition append_bytes (bs : list N) (w : Writer) : Writer :=
  mkWriter (limit_ w) (wbytes_ w ++ bs) (werror_ w) (werror_offset_ w).

Definition ensure (count : N) : Put := fun w =>
  if (limit_ w <? count) || (limit_ w - count <? blen (wbytes_ w))
  then (false, wfail limit_exceeded w) else (true, w).

(** Short-circuit conjunction of two calls. *)
Definition and_then (p q : Put) : Put := fun w =>
  let '(r, w') := p w in if r then q w' else (false, w').
Infix "&&&" := and_then (at level 40, left associativity).

Definition put_nothing : Put := fun w => (true, w).

(** [writer.fail(e); return false;]. *)
Definition put_fail (e : Error) : Put := fun w => (false, wfail e w).

Definition put_bytes (bs : list N) : Put := fun w =>
  let '(r, w') := ensure (blen bs) w in
  if r then (true, append_bytes bs w') else (false, w').

Definition put_u8 (v : N) : Put := fun w =>
  let '(r, w') := ensure 1 w in
  if r then (true, append_bytes [v] w') else (false, w').

(** The loops of [put_u32] and [put_u64], from the highest shift down. *)
Fixpoint put_be (n : nat) (v : N) : Put :=
  match n with
  | O => put_nothing
  | S n => put_u8 (byte_at v (8 * N.of_nat n)) &&& put_be n v
  end.

Definition put_u16 (v : N) : Put := put_u8 (byte_at v 8) &&& put_u8 (byte_at v 0).
Definition put_u32 (v : N) : Put := put_be 4 v.
Definition put_u64 (v : N) : Put := put_be 8 v.

Definition put_string (s : string) (field_limit : N) : Put :=
  if (field_limit <? string_size s) || (u32_max <? string_size s) then put_fail limit_exceeded
  else put_u32 (string_size s) &&& put_bytes (string_bytes s).

Definition bool_u8 (b : bool) : N := if b then 1 else 0.

(** ** Reader *)

Record Reader := mkReader {
  rbytes_ : list N;
  base_ : N;
  position_ : N;
  rerror_ : Error;
  rerror_offset_ : N;
}.

Definition new_reader (bs : list N) (base : N) : Reader := mkReader bs base 0 none 0.

Definition Get (A : Type) : Type := Reader -> option A * Reader.

Definition remaining (r : Reader) : N := blen (rbytes_ r) - position_ r.
Definition absolute_position (r : Reader) : N := base_ r + position_ r.
Definition at_end (r : Reader) : bool := position_ r =? blen (rbytes_ r).

Definition rfail (e : Error) (r : Reader) : Reader :=
  if bool_decide (rerror_ r = none)
  then mkReader (rbytes_ r) (base_ r) (position_ r) e (absolute_position r) else r.

Definition advance (n : N) (r : Reader) : Reader :=
  mkReader (rbytes_ r) (base_ r) (position_ r + n) (rerror_ r) (rerror_offset_ r).

Definition get_ret {A} (a : A) : Get A := fun r => (Some a, r).
Definition get_fail {A} (e : Error) : Get A := fun r => (None, rfail e r).
Definition get_bind {A B} (g : Get A) (k : A -> Get B) : Get B := fun r =>
  match g r with
  | (Some a, r') => k a r'
  | (None, r') => (None, r')
  end.
Notation "x <~ g ; k" := (get_bind g (fun x => k))
  (at level 100, g at next level, right associativity).

Definition require (count : N) : Get unit := fun r =>
  if remaining r <? count then (None, rfail truncated r) else (Some tt, r).

(** [bytes_[position_++]]. *)
Definition get_u8 : Get N :=
  _ <~ require 1;
  fun r => match rbytes_ r !! N.to_nat (position_ r) with
           | Some b => (Some b, advance 1 r)
           | None => (None, r)
           end.

(** The loop of [get_u32] and [get_u64] at a width. *)
Fixpoint get_be (width : N) (n : nat) (acc : N) : Get N :=
  match n with
  | O => get_ret acc
  | S n => b <~ get_u8; get_be width n (shift_in acc b mod 2 ^ width)
  end.

Definition get_u16 : Get N := hi <~ get_u8; lo <~ get_u8; get_ret (shift_in hi lo mod 2 ^ 16).
Definition get_u32 : Get N := get_be 32 4 0.
Definition get_u64 : Get N := get_be 64 8 0.

Definition get_string (field_limit : N) : Get string :=
  n <~ get_u32;
  if field_limit <? n then get_fail limit_exceeded
  else _ <~ require n;
       fun r => (Some (string_of_bytes (take (N.to_nat n) (drop (N.to_nat (position_ r)) (rbytes_ r)))),
                 advance n r).

Definition get_bool : Get bool :=
  raw <~ get_u8; if 1 <? raw then get_fail invalid_boolean else get_ret (raw =? 1).

(** ** Commands and entries *)

Definition write_command_payload (c : ClientCommand) (limits : Limits) : Put :=
  if negb (known_command_kind (command_kind_u8 (kind c))) then put_fail invalid_enum
  else if negb (valid_command_semantics c) then put_fail invalid_value
  else put_u64 (high (session c)) &&& put_u64 (low (session c)) &&& put_u64 (sequence c) &&&
       put_u8 (command_kind_u8 (kind c)) &&&
       put_string (key c) (max_key_bytes limits) &&& put_string (value c) (max_value_bytes limits).

Definition read_command_payload (limits : Limits) : Get ClientCommand :=
  hi <~ get_u64; lo <~ get_u64; seq <~ get_u64; raw <~ get_u8;
  match command_kind_of_u8 raw with
  | None => get_fail invalid_enum
  | Some kd =>
      k <~ get_string (max_key_bytes limits);
      v <~ get_string (max_value_bytes limits);
      let c := mkClientCommand (mkSessionId hi lo) seq kd k v in
      if negb (valid_command_semantics c) then get_fail invalid_value else get_ret c
  end.

Definition write_entry_payload (e : LogEntry) (limits : Limits) : Put :=
  if (index e =? 0) || (term e =? 0) then put_fail invalid_value
  else put_u64 (index e) &&& put_u64 (term e) &&&
       put_u8 (bool_u8 (negb (is_none (command e)))) &&&
       match command e with
       | None => put_nothing
       | Some c => write_command_payload c limits
       end.

Definition read_entry_payload (limits : Limits) : Get LogEntry :=
  i <~ get_u64; t <~ get_u64; has_command <~ get_bool;
  if (i =? 0) || (t =? 0) then get_fail invalid_value
  else if has_command : bool
       then c <~ read_command_payload limits; get_ret (mkLogEntry i t (Some c))
       else get_ret (mkLogEntry i t None).

(** The loop of [consecutive_entries], which stops the count at the largest
    index. *)
Fixpoint consecutive_from (expected : N) (es : list LogEntry) : bool :=
  match es with
  | [] => true
  | e :: es =>
      if negb (index e =? expected) then false
      else if negb (expected =? u64_max) then consecutive_from (expected + 1) es
      else if negb (is_nil es) then false
      else consecutive_from expected es
  end.

Definition consecutive_entries (a : AppendEntries) : bool :=
  if is_nil (ae_entries a) then true
  else if ae_prev_log_index a =? u64_max then false
  else consecutive_from (ae_prev_log_index a + 1) (ae_entries a).

Fixpoint write_entries (es : list LogEntry) (limits : Limits) : Put :=
  match es with
  | [] => put_nothing
  | e :: es => write_entry_payload e limits &&& write_entries es limits
  end.

Fixpoint read_entries (count : nat) (limits : Limits) : Get (list LogEntry) :=
  match count with
  | O => get_ret []
  | S count => e <~ read_entry_payload limits; es <~ read_entries count limits; get_ret (e :: es)
  end.

(** ** Frames *)

Definition payload_limit (limits : Limits) : N :=
  if max_frame_bytes limits <? kHeaderBytes then 0
  else N.min (max_frame_bytes limits - kHeaderBytes) u32_max.

Fixpoint put_each (bs : list N) : Put :=
  match bs with [] => put_nothing | b :: bs => put_u8 b &&& put_each bs end.

(** The header and the payload, as [frame] writes them. *)
Definition write_frame (type : WireType) (payload : list N) : Put :=
  put_each kMagic &&& put_u8 kVersion &&& put_u8 (wire_type_u8 type) &&& put_u16 0 &&&
  put_u32 (blen payload) &&& put_bytes payload.

Definition frame (type : WireType) (payload : Writer) (limits : Limits) : Result (list N) :=
  if negb (bool_decide (werror_ payload = none))
  then failure (werror_ payload) (kHeaderBytes + werror_offset_ payload)
  else if (max_frame_bytes limits <? kHeaderBytes) ||
          (payload_limit limits <? blen (wbytes_ payload))
  then failure limit_exceeded 0
  else match write_frame type (wbytes_ payload) (new_writer (max_frame_bytes limits)) with
       | (true, output) => success (wbytes_ output)
       | (false, output) => failure (werror_ output) (werror_offset_ output)
       end.

Record ParsedFrame := mkParsedFrame { pf_type : WireType; pf_payload : list N }.

(** The magic loop of [parse_frame]; an error is reported at its offset. *)
Fixpoint check_magic (magic : list N) (r : Reader) : (Error * N) + Reader :=
  match magic with
  | [] => inr r
  | expected :: magic =>
      match get_u8 r with
      | (None, r') => inl (rerror_ r', rerror_offset_ r')
      | (Some actual, r') =>
          if negb (actual =? expected) then inl (bad_magic, absolute_position r' - 1)
          else check_magic magic r'
      end
  end.

(** The fields after the magic. *)
Definition read_header : Get (N * N * N * N) :=
  version <~ get_u8; raw_type <~ get_u8; reserved <~ get_u16; len <~ get_u32;
  get_ret (version, raw_type, reserved, len).

Definition parse_frame (bs : list N) (limits : Limits) : Result ParsedFrame :=
  if max_frame_bytes limits <? blen bs then failure limit_exceeded 0
  else match check_magic kMagic (new_reader bs 0) with
  | inl (e, off) => failure e off
  | inr r =>
      match read_header r with
      | (None, r) => failure (rerror_ r) (rerror_offset_ r)
      | (Some (version, raw_type, reserved, len), r) =>
          if negb (version =? kVersion) then failure unsupported_version 4
          else match wire_type_of_u8 raw_type with
          | None => failure unknown_type 5
          | Some type =>
              if negb (reserved =? 0) then failure nonzero_reserved 6
              else if payload_limit limits <? len then failure limit_exceeded 8
              else if remaining r <? len then failure truncated kHeaderBytes
              else if len <? remaining r then failure trailing_bytes (kHeaderBytes + len)
              else success (mkParsedFrame type
                     (take (N.to_nat len) (drop (N.to_nat kHeaderBytes) bs)))
          end
      end
  end.

Definition decode_exact {T} (parsed : ParsedFrame) (decode : Get T) : Result T :=
  match decode (new_reader (pf_payload parsed) kHeaderBytes) with
  | (None, r) => failure (rerror_ r) (rerror_offset_ r)
  | (Some v, r) =>
      if negb (at_end r) then failure trailing_bytes (absolute_position r) else success v
  end.

Definition encode_command (c : ClientCommand) (limits : Limits) : Result (list N) :=
  frame wt_command (write_command_payload c limits (new_writer (payload_limit limits))).2 limits.

Definition decode_command (bs : list N) (limits : Limits) : Result ClientCommand :=
  match parse_frame bs limits with
  | failure e off => failure e off
  | success parsed =>
      if negb (bool_decide (pf_type parsed = wt_command)) then failure unexpected_type 5
      else decode_exact parsed (read_command_payload limits)
  end.

Definition encode_log_entry (e : LogEntry) (limits : Limits) : Result (list N) :=
  frame wt_log_entry (write_entry_payload e limits (new_writer (payload_limit limits))).2 limits.

Definition decode_log_entry (bs : list N) (limits : Limits) : Result LogEntry :=
  match parse_frame bs limits with
  | failure e off => failure e off
  | success parsed =>
      if negb (bool_decide (pf_type parsed = wt_log_entry)) then failure unexpected_type 5
      else decode_exact parsed (read_entry_payload limits)
  end.

(** ** Messages *)

(** The wire type [encode_message] gives an alternative, and its payload. *)
Definition message_type (m : Message) : WireType :=
  match m with
  | MRequestVote _ => wt_request_vote
  | MRequestVoteResponse _ => wt_request_vote_response
  | MAppendEntries _ => wt_append_entries
  | MAppendEntriesResponse _ => wt_append_entries_response
  end.

Definition write_message_payload (m : Message) (limits : Limits) : Put :=
  match m with
  | MRequestVote v =>
      if (rv_term v =? 0) || (rv_candidate_id v =? 0) ||
         negb (valid_log_pointer (rv_last_log_index v) (rv_last_log_term v))
      then put_fail invalid_value
      else put_u64 (rv_term v) &&& put_u32 (rv_candidate_id v) &&&
           put_u64 (rv_last_log_index v) &&& put_u64 (rv_last_log_term v)
  | MRequestVoteResponse v =>
      if rvr_term v =? 0 then put_fail invalid_value
      else put_u64 (rvr_term v) &&& put_u8 (bool_u8 (rvr_vote_granted v))
  | MAppendEntries v =>
      if (ae_term v =? 0) || (ae_leader_id v =? 0) || (ae_rpc_id v =? 0) ||
         negb (valid_log_pointer (ae_prev_log_index v) (ae_prev_log_term v))
      then put_fail invalid_value
      else if (max_entries_per_append limits <? N.of_nat (length (ae_entries v))) ||
              (u32_max <? N.of_nat (length (ae_entries v)))
      then put_fail limit_exceeded
      else if negb (consecutive_entries v) then put_fail invalid_value
      else put_u64 (ae_term v) &&& put_u32 (ae_leader_id v) &&& put_u64 (ae_rpc_id v) &&&
           put_u64 (ae_prev_log_index v) &&& put_u64 (ae_prev_log_term v) &&&
           put_u32 (N.of_nat (length (ae_entries v))) &&&
           write_entries (ae_entries v) limits &&& put_u64 (ae_leader_commit v)
  | MAppendEntriesResponse v =>
      if (aer_term v =? 0) || (aer_rpc_id v =? 0) then put_fail invalid_value
      else put_u64 (aer_term v) &&& put_u64 (aer_rpc_id v) &&& put_u8 (bool_u8 (aer_success v)) &&&
           put_u64 (aer_match_index v) &&& put_u64 (aer_conflict_index v) &&&
           put_u64 (aer_conflict_term v)
  end.

Definition encode_message (m : Message) (limits : Limits) : Result (list N) :=
  frame (message_type m) (write_message_payload m limits (new_writer (payload_limit limits))).2
    limits.

Definition read_request_vote : Get RequestVote :=
  t <~ get_u64; c <~ get_u32; i <~ get_u64; lt <~ get_u64; get_ret (mkRequestVote t c i lt).

Definition read_request_vote_response : Get RequestVoteResponse :=
  t <~ get_u64; g <~ get_bool; get_ret (mkRequestVoteResponse t g).

(** The allocation guard: the bytes present bound the entry count. *)
Definition count_guard (count : N) : Get unit := fun r =>
  if (remaining r <? 8) || ((remaining r - 8) / kMinimumEntryPayloadBytes <? count)
  then (None, rfail truncated r) else (Some tt, r).

Definition read_append_entries (limits : Limits) : Get AppendEntries :=
  t <~ get_u64; l <~ get_u32; rpc <~ get_u64; pi <~ get_u64; pt <~ get_u64; count <~ get_u32;
  if (t =? 0) || (l =? 0) || (rpc =? 0) || negb (valid_log_pointer pi pt)
  then get_fail invalid_value
  else if max_entries_per_append limits <? count then get_fail limit_exceeded
  else _ <~ count_guard count;
       es <~ read_entries (N.to_nat count) limits;
       lc <~ get_u64;
       let v := mkAppendEntries t l rpc pi pt es lc in
       if negb (consecutive_entries v) then get_fail invalid_value else get_ret v.

Definition read_append_entries_response : Get AppendEntriesResponse :=
  t <~ get_u64; rpc <~ get_u64; s <~ get_bool; m <~ get_u64; ci <~ get_u64; ct <~ get_u64;
  get_ret (mkAppendEntriesResponse t rpc s m ci ct).

Definition decode_message (bs : list N) (limits : Limits) : Result Message :=
  match parse_frame bs limits with
  | failure e off => failure e off
  | success parsed =>
      match pf_type parsed with
      | wt_request_vote =>
          match decode_exact parsed read_request_vote with
          | failure e off => failure e off
          | success v =>
              if (rv_term v =? 0) || (rv_candidate_id v =? 0) ||
                 negb (valid_log_pointer (rv_last_log_index v) (rv_last_log_term v))
              then failure invalid_value kHeaderBytes else success (MRequestVote v)
          end
      | wt_request_vote_response =>
          match decode_exact parsed read_request_vote_response with
          | failure e off => failure e off
          | success v =>
              if rvr_term v =? 0 then failure invalid_value kHeaderBytes
              else success (MRequestVoteResponse v)
          end
      | wt_append_entries =>
          match decode_exact parsed (read_append_entries limits) with
          | failure e off => failure e off
          | success v => success (MAppendEntries v)
          end
      | wt_append_entries_response =>
          match decode_exact parsed read_append_entries_response with
          | failure e off => failure e off
          | success v =>
              if (aer_term v =? 0) || (aer_rpc_id v =? 0) then failure invalid_value kHeaderBytes
              else success (MAppendEntriesResponse v)
          end
      | wt_command | wt_log_entry => failure unexpected_type 5
      end
  end.

Section examples.
Local Definition demo_vote := MRequestVote (mkRequestVote 7 2 300 6).

Example encode_demo_vote :
  encode_message demo_vote default_limits =
  success [68;76;79;71; 1; 16; 0;0; 0;0;0;28; 0;0;0;0;0;0;0;7; 0;0;0;2; 0;0;0;0;0;0;1;44;
           0;0;0;0;0;0;0;6].
Proof. vm_compute. reflexivity. Qed.

Example decode_demo_truncated :
  decode_message [68;76;79;71; 1; 16; 0;0; 0;0;0;28; 0] default_limits = failure truncated 12.
Proof. vm_compute. reflexivity. Qed.
End examples.
