(* ===== verification/CodecLemmas.v ===== *)
(** * CodecLemmas: what the writer and reader calls of the codec do

    [emits p Q bs] says exactly what a sequence of [Writer] calls does: it
    succeeds when [Q] holds and the bytes [bs] fit under the limit, appending
    [bs], and records an error otherwise.  [reads g bs a] says that a sequence of
    [Reader] calls accepts the bytes [bs] and returns [a]; [getp g P] says that
    whatever it accepts satisfies [P], and that a refusal has an error with an
    offset inside the input. *)

From S2P Require Import Prelude Model StateMachine Bytes Codec.

(** ** Writers *)

Definition fits (w : Writer) (bs : list N) : Prop := blen (wbytes_ w) + blen bs <= limit_ w.

Definition emits (p : Put) (Q : Prop) (bs : list N) : Prop :=
  forall w, werror_ w = none -> fits w [] ->
  match p w with
  | (true, w') => Q /\ fits w bs /\ w' = append_bytes bs w
  | (false, w') => ~ (Q /\ fits w bs) /\ werror_ w' <> none
  end.

Section writers.
Implicit Types (p q : Put) (Q R : Prop) (bs : list N).

Lemma emits_proper p Q R bs bs' : emits p Q bs -> (Q <-> R) -> bs = bs' -> emits p R bs'.
Proof.
  intros H HQ <- w He Hf. specialize (H w He Hf). destruct (p w) as [[] w']; tauto.
Qed.

Lemma emits_nothing : emits put_nothing True [].
Proof.
  intros w He Hf. simpl. split_and!; [done|done|].
  unfold append_bytes. rewrite app_nil_r. by destruct w.
Qed.

Lemma wfail_error e w : e <> none -> werror_ (wfail e w) <> none.
Proof. intros He. unfold wfail. case_bool_decide; done. Qed.

Lemma ensure_spec w n :
  werror_ w = none ->
  if bool_decide (blen (wbytes_ w) + n <= limit_ w) then ensure n w = (true, w)
  else (ensure n w).1 = false /\ werror_ (ensure n w).2 <> none.
Proof.
  intros He. unfold ensure.
  destruct (N.ltb_spec (limit_ w) n), (N.ltb_spec (limit_ w - n) (blen (wbytes_ w)));
    case_bool_decide; simpl; try lia; (split; [done|by apply wfail_error]) || done.
Qed.

Lemma emits_bytes bs : emits (put_bytes bs) True bs.
Proof.
  intros w He Hf. unfold put_bytes. pose proof (ensure_spec w (blen bs) He) as H.
  case_bool_decide as Hfit; [by rewrite H|].
  destruct (ensure (blen bs) w) as [[] w'], H as [H1 H2]; [done|]. unfold fits. tauto.
Qed.

Lemma put_u8_bytes v : put_u8 v = put_bytes [v].
Proof. done. Qed.

Lemma emits_u8 v : emits (put_u8 v) True [v].
Proof. rewrite put_u8_bytes. apply emits_bytes. Qed.

Lemma append_bytes_app bs bs' w :
  append_bytes bs' (append_bytes bs w) = append_bytes (bs ++ bs') w.
Proof. unfold append_bytes. simpl. by rewrite <- app_assoc. Qed.

Lemma fits_append w bs bs' :
  fits (append_bytes bs w) bs' <-> fits w (bs ++ bs').
Proof. unfold fits. simpl. rewrite !blen_app. lia. Qed.

Lemma emits_and p q Q R bs bs' :
  emits p Q bs -> emits q R bs' -> emits (p &&& q) (Q /\ R) (bs ++ bs').
Proof.
  intros Hp Hq w He Hf. unfold and_then. specialize (Hp w He Hf).
  destruct (p w) as [[] w1].
  - destruct Hp as (HQ & Hfit & ->).
    specialize (Hq (append_bytes bs w) He).
    specialize (Hq ltac:(apply fits_append; by rewrite app_nil_r)).
    destruct (q (append_bytes bs w)) as [[] w2]; rewrite fits_append in Hq; [|tauto].
    destruct Hq as (? & ? & ->). by rewrite append_bytes_app.
  - destruct Hp as [Hno He']. split; [|done]. intros ([HQ _] & Hfit). apply Hno. split; [done|].
    unfold fits in *. rewrite blen_app in Hfit. lia.
Qed.

Lemma emits_be n v : emits (put_be n v) True (be_bytes n v).
Proof.
  induction n as [|n IH]; simpl; [apply emits_nothing|].
  eapply emits_proper; [apply (emits_and _ _ _ _ _ _ (emits_u8 _) IH)|tauto|done].
Qed.

Lemma emits_u16 v : emits (put_u16 v) True (be_bytes 2 v).
Proof.
  eapply emits_proper; [apply (emits_and _ _ _ _ _ _ (emits_u8 _) (emits_u8 _))|tauto|done].
Qed.

Lemma emits_u32 v : emits (put_u32 v) True (be_bytes 4 v).
Proof. apply emits_be. Qed.

Lemma emits_u64 v : emits (put_u64 v) True (be_bytes 8 v).
Proof. apply emits_be. Qed.

Lemma emits_guard (b : bool) e p Q bs :
  e <> none -> emits p Q bs -> emits (if b then put_fail e else p) (b = false /\ Q) bs.
Proof.
  intros He Hp w Hw Hf. destruct b.
  - unfold put_fail. split; [intros [[? _] _]; done|by apply wfail_error].
  - specialize (Hp w Hw Hf). destruct (p w) as [[] w']; [tauto|]. split; [|tauto]. tauto.
Qed.

(** The bytes [put_string] writes. *)
Definition string_field (s : string) : list N := be_bytes 4 (string_size s) ++ string_bytes s.

Lemma emits_string s l :
  emits (put_string s l) (string_size s <= N.min l u32_max) (string_field s).
Proof.
  eapply emits_proper; [|idtac|done].
  - unfold put_string. apply emits_guard; [done|].
    apply emits_and; [apply emits_be|apply emits_bytes].
  - rewrite orb_false_iff, !N.ltb_ge, N.min_glb_iff. tauto.
Qed.

Lemma emits_each bs : emits (put_each bs) True bs.
Proof.
  induction bs as [|b bs IH]; simpl; [apply emits_nothing|].
  eapply emits_proper; [apply (emits_and _ _ _ _ _ _ (emits_u8 b) IH)|tauto|done].
Qed.

End writers.

(** The twelve bytes in front of a payload. *)
Definition header (t : WireType) (len : N) : list N :=
  kMagic ++ [kVersion; wire_type_u8 t; 0; 0] ++ be_bytes 4 len.

(** A framed payload within the limits. *)
Definition framed (t : WireType) (payload : list N) (limits : Limits) (out : list N) : Prop :=
  kHeaderBytes + blen payload <= max_frame_bytes limits /\ blen payload <= u32_max /\
  out = header t (blen payload) ++ payload.

Lemma header_length t len : blen (header t len) = kHeaderBytes.
Proof. unfold header. rewrite !blen_app, blen_be. done. Qed.

Lemma payload_limit_spec limits n :
  kHeaderBytes <= max_frame_bytes limits ->
  n <= payload_limit limits <-> kHeaderBytes + n <= max_frame_bytes limits /\ n <= u32_max.
Proof.
  intros H. unfold payload_limit. destruct (N.ltb_spec (max_frame_bytes limits) kHeaderBytes); lia.
Qed.

Lemma blen_nil : blen [] = 0.
Proof. done. Qed.

Lemma emits_frame t bs :
  emits (write_frame t bs) True (header t (blen bs) ++ bs).
Proof.
  unfold write_frame.
  eapply emits_proper; [|idtac|idtac].
  - repeat simple apply emits_and; eauto using emits_each, emits_u8, emits_u16, emits_u32, emits_bytes.
  - tauto.
  - done.
Qed.

Lemma frame_spec p Q bs t limits out :
  emits p Q bs ->
  frame t (p (new_writer (payload_limit limits))).2 limits = success out <->
  Q /\ framed t bs limits out.
Proof.
  intros Hp. specialize (Hp (new_writer (payload_limit limits)) eq_refl ltac:(apply N.le_0_l)).
  destruct (p (new_writer (payload_limit limits))) as [[] w];
    unfold frame, framed; unfold fits in Hp; cbn [wbytes_ werror_ limit_ new_writer snd] in *; rewrite blen_nil, N.add_0_l in Hp.
  - destruct Hp as (HQ & Hfit & ->). cbn [wbytes_ werror_ append_bytes new_writer app].
    rewrite bool_decide_true by done. cbn [negb].
    destruct (N.ltb_spec (max_frame_bytes limits) kHeaderBytes); simpl.
    { split; [done|]. intros (_ & ? & _); lia. }
    destruct (N.ltb_spec (payload_limit limits) (blen bs)); [lia|].
    apply payload_limit_spec in Hfit as [Hm Hu]; [|done].
    pose proof (emits_frame t bs (new_writer (max_frame_bytes limits)) eq_refl
      ltac:(apply N.le_0_l)) as Hout.
    destruct (write_frame t bs (new_writer (max_frame_bytes limits))) as [[] o].
    + destruct Hout as (_ & _ & ->). simpl. split; [by intros [= <-]|by intros (_ & _ & _ & ->)].
    + destruct Hout as [[] _]. split; [done|]. unfold fits. rewrite blen_app, header_length.
      simpl. rewrite blen_nil. lia.
  - destruct Hp as [Hno He]. rewrite bool_decide_false by done. simpl. split; [done|].
    intros (HQ & Hm & Hu & _). destruct Hno. split; [done|]. apply payload_limit_spec; lia.
Qed.

(** ** Readers *)

(** The bytes not yet consumed. *)
Definition rest (r : Reader) : list N := drop (N.to_nat (position_ r)) (rbytes_ r).

Definition reader_ok (r : Reader) : Prop :=
  rerror_ r = none /\ position_ r <= blen (rbytes_ r) /\ bytes_ok (rbytes_ r).

Definition reads {A} (g : Get A) (bs : list N) (a : A) : Prop :=
  forall r tl, reader_ok r -> rest r = bs ++ tl -> g r = (Some a, advance (blen bs) r).

Definition getp {A} (g : Get A) (P : A -> list N -> Prop) : Prop :=
  forall r, reader_ok r ->
  match g r with
  | (Some a, r') => exists bs tl, rest r = bs ++ tl /\ r' = advance (blen bs) r /\ P a bs
  | (None, r') => rerror_ r' <> none /\ rerror_offset_ r' <= base_ r + blen (rbytes_ r)
  end.

Section readers.
Context {A B : Type}.
Implicit Types (g : Get A) (k : A -> Get B) (bs : list N).

Lemma rest_length r : position_ r <= blen (rbytes_ r) -> blen (rest r) = remaining r.
Proof. intros H. unfold rest, remaining, blen in *. rewrite length_drop. lia. Qed.

Lemma rest_ok r : reader_ok r -> bytes_ok (rest r).
Proof. intros (_ & _ & H). by apply Forall_drop. Qed.

Lemma advance_0 r : advance 0 r = r.
Proof. unfold advance. rewrite N.add_0_r. by destruct r. Qed.

Lemma advance_advance n m r : advance m (advance n r) = advance (n + m) r.
Proof. unfold advance. simpl. by rewrite N.add_assoc. Qed.

Lemma advance_ok r bs tl :
  reader_ok r -> rest r = bs ++ tl ->
  reader_ok (advance (blen bs) r) /\ rest (advance (blen bs) r) = tl.
Proof.
  intros (He & Hp & Hb) Hr. pose proof (rest_length r Hp) as Hl.
  rewrite Hr, blen_app in Hl. unfold remaining in Hl. split.
  - split_and!; simpl; [done|lia|done].
  - unfold rest. simpl. rewrite N2Nat.inj_add, <- drop_drop. fold (rest r). rewrite Hr.
    unfold blen. by rewrite Nat2N.id, drop_app_length.
Qed.

Lemma remaining_rest r bs tl : reader_ok r -> rest r = bs ++ tl -> remaining r = blen bs + blen tl.
Proof. intros (_ & Hp & _) Hr. by rewrite <- rest_length, Hr, blen_app. Qed.

Lemma reads_ret (a : A) : reads (get_ret a) [] a.
Proof. intros r tl _ _. unfold get_ret. by rewrite blen_nil, advance_0. Qed.

Lemma reads_bind g k bs bs' a b :
  reads g bs a -> reads (k a) bs' b -> reads (get_bind g k) (bs ++ bs') b.
Proof.
  intros Hg Hk r tl Hr Hrest. rewrite <- app_assoc in Hrest. unfold get_bind.
  rewrite (Hg r _ Hr Hrest). destruct (advance_ok _ _ _ Hr Hrest) as [Hr' Hrest'].
  by rewrite (Hk _ _ Hr' Hrest'), advance_advance, blen_app.
Qed.

Lemma rfail_spec e r :
  reader_ok r -> e <> none ->
  rerror_ (rfail e r) <> none /\ rerror_offset_ (rfail e r) <= base_ r + blen (rbytes_ r).
Proof.
  intros (He & Hp & _) Hne. unfold rfail. rewrite bool_decide_true by done. simpl.
  unfold absolute_position. split; [done|lia].
Qed.

Lemma getp_ret (a : A) (P : A -> list N -> Prop) : P a [] -> getp (get_ret a) P.
Proof. intros H r Hr. exists [], (rest r). by rewrite blen_nil, advance_0. Qed.

Lemma getp_fail e (P : A -> list N -> Prop) : e <> none -> getp (get_fail e) P.
Proof. intros He r Hr. by apply rfail_spec. Qed.

Lemma getp_bind g k (P : A -> list N -> Prop) (Q : B -> list N -> Prop) :
  getp g P -> (forall a bs, P a bs -> getp (k a) (fun b bs' => Q b (bs ++ bs'))) ->
  getp (get_bind g k) Q.
Proof.
  intros Hg Hk r Hr. unfold get_bind. specialize (Hg r Hr).
  destruct (g r) as [[a|] r1]; [|done]. destruct Hg as (bs & tl & Hrest & -> & Ha).
  destruct (advance_ok _ _ _ Hr Hrest) as [Hr' Hrest']. specialize (Hk a bs Ha _ Hr').
  destruct (k a (advance (blen bs) r)) as [[b|] r2]; [|done].
  destruct Hk as (bs' & tl' & Hrest2 & -> & Hb). exists (bs ++ bs'), tl'.
  rewrite <- app_assoc, <- Hrest2, Hrest', advance_advance, blen_app. done.
Qed.

End readers.

Section primitives.

Lemma reads_require_bind {B} (k : Get B) n bs b :
  n <= blen bs -> reads k bs b -> reads (get_bind (require n) (fun _ => k)) bs b.
Proof.
  intros Hn Hk r tl Hr Hrest. unfold get_bind, require.
  rewrite (remaining_rest _ _ _ Hr Hrest). destruct (N.ltb_spec (blen bs + blen tl) n); [lia|].
  by apply (Hk r tl).
Qed.

Lemma getp_require_bind {B} (k : Get B) n (P : B -> list N -> Prop) :
  (forall r, reader_ok r -> n <= remaining r ->
     match k r with
     | (Some a, r') => exists bs tl, rest r = bs ++ tl /\ r' = advance (blen bs) r /\ P a bs
     | (None, r') => rerror_ r' <> none /\ rerror_offset_ r' <= base_ r + blen (rbytes_ r)
     end) ->
  getp (get_bind (require n) (fun _ => k)) P.
Proof.
  intros Hk r Hr. unfold get_bind, require. destruct (N.ltb_spec (remaining r) n).
  - by apply rfail_spec.
  - by apply Hk.
Qed.

(** The head byte of what is left. *)
Lemma lookup_position r b tl :
  rest r = b :: tl -> rbytes_ r !! N.to_nat (position_ r) = Some b.
Proof.
  intros H. unfold rest in H. rewrite <- (Nat.add_0_r (N.to_nat (position_ r))).
  rewrite <- lookup_drop, H. done.
Qed.

Lemma reads_u8 b : reads get_u8 [b] b.
Proof.
  apply reads_require_bind; [done|]. intros r tl Hr Hrest.
  by rewrite (lookup_position _ _ _ Hrest).
Qed.

Lemma getp_u8 : getp get_u8 (fun b bs => is_byte b /\ bs = [b]).
Proof.
  apply getp_require_bind. intros r Hr Hn.
  assert (Hl : blen (rest r) = remaining r) by (apply rest_length; apply Hr).
  pose proof (rest_ok r Hr) as Hok. destruct (rest r) as [|b tl] eqn:Hrest.
  { unfold blen in Hl. simpl in Hl. lia. }
  rewrite (lookup_position _ _ _ Hrest). exists [b], tl. apply Forall_cons in Hok as [Hb _]. done.
Qed.

(** Reading at a width that holds all the bytes. *)
Lemma reads_be_acc width n acc bs :
  length bs = n -> bytes_ok bs -> (acc + 1) * 256 ^ N.of_nat n <= 2 ^ width ->
  reads (get_be width n acc) bs (be_value acc bs).
Proof.
  revert acc bs. induction n as [|n IH]; intros acc [|b bs] Hn Hok Hw; simplify_eq/=.
  - apply reads_ret.
  - apply Forall_cons in Hok as [Hb Hok]. apply (reads_bind _ _ [b] bs b); [apply reads_u8|].
    pose proof (shift_in_spec acc b Hb) as Hs. rewrite pow256_S in Hw.
    pose proof (pow256_pos (N.of_nat (length bs))). unfold is_byte in Hb.
    assert (Hle : (shift_in acc b + 1) * 256 ^ N.of_nat (length bs) <= 2 ^ width) by nia.
    rewrite N.mod_small by nia. change (be_value acc (b :: bs)) with (be_value (shift_in acc b) bs).
    by apply IH.
Qed.

Lemma getp_be_acc width n acc :
  (acc + 1) * 256 ^ N.of_nat n <= 2 ^ width ->
  getp (get_be width n acc) (fun v bs => length bs = n /\ bytes_ok bs /\ v = be_value acc bs).
Proof.
  revert acc. induction n as [|n IH]; intros acc Hw; simpl.
  - apply getp_ret. done.
  - eapply getp_bind; [apply getp_u8|]. intros b bs [Hb ->]. simpl.
    pose proof (shift_in_spec acc b Hb) as Hs. rewrite pow256_S in Hw.
    pose proof (pow256_pos (N.of_nat n)). unfold is_byte in Hb.
    assert (Hle : (shift_in acc b + 1) * 256 ^ N.of_nat n <= 2 ^ width) by nia.
    rewrite N.mod_small by nia. intros r Hr. specialize (IH _ Hle r Hr).
    destruct (get_be width n (shift_in acc b) r) as [[v|] r']; [|done].
    destruct IH as (bs & tl & ? & ? & ? & ? & ?). exists bs, tl. split_and!; auto.
Qed.

Lemma reads_be width n v :
  256 ^ N.of_nat n <= 2 ^ width -> v < 256 ^ N.of_nat n ->
  reads (get_be width n 0) (be_bytes n v) v.
Proof.
  intros Hw Hv. rewrite <- (be_value_inv n v) at 2 by done.
  apply reads_be_acc; [apply be_bytes_length|apply be_bytes_ok|lia].
Qed.

Lemma getp_be width n :
  256 ^ N.of_nat n <= 2 ^ width ->
  getp (get_be width n 0) (fun v bs => v < 256 ^ N.of_nat n /\ bs = be_bytes n v).
Proof.
  intros Hw r Hr. pose proof (getp_be_acc width n 0 ltac:(lia) r Hr) as H.
  destruct (get_be width n 0 r) as [[v|] r']; [|done].
  destruct H as (bs & tl & ? & ? & Hn & Hok & ->). exists bs, tl. split_and!; [done..| |].
  - pose proof (be_value_bound bs 0 Hok). rewrite Hn in *. lia.
  - rewrite <- Hn at 1. by rewrite be_bytes_value.
Qed.

Lemma reads_u32 v : v <= u32_max -> reads get_u32 (be_bytes 4 v) v.
Proof. intros H. apply reads_be; [done|]. by apply u32_bytes. Qed.

Lemma reads_u64 v : v <= u64_max -> reads get_u64 (be_bytes 8 v) v.
Proof. intros H. apply reads_be; [done|]. by apply u64_bytes. Qed.

Lemma getp_u32 : getp get_u32 (fun v bs => v <= u32_max /\ bs = be_bytes 4 v).
Proof.
  intros r Hr. pose proof (getp_be 32 4 ltac:(done) r Hr) as H. fold get_u32 in H.
  destruct (get_u32 r) as [[v|] r']; [|done].
  destruct H as (bs & tl & ? & ? & Hv & ?). exists bs, tl. split_and!; [done..| |done].
  by apply u32_bytes.
Qed.

Lemma getp_u64 : getp get_u64 (fun v bs => v <= u64_max /\ bs = be_bytes 8 v).
Proof.
  intros r Hr. pose proof (getp_be 64 8 ltac:(done) r Hr) as H. fold get_u64 in H.
  destruct (get_u64 r) as [[v|] r']; [|done].
  destruct H as (bs & tl & ? & ? & Hv & ?). exists bs, tl. split_and!; [done..| |done].
  by apply u64_bytes.
Qed.

Lemma reads_u16_0 : reads get_u16 [0; 0] 0.
Proof.
  apply (reads_bind _ _ [0] [0] 0); [apply reads_u8|].
  apply (reads_bind _ _ [0] [] 0); [apply reads_u8|]. apply reads_ret.
Qed.

Lemma getp_u16 : getp get_u16 (fun v bs => bs = be_bytes 2 v).
Proof.
  eapply getp_bind; [apply getp_u8|]. intros hi bs [Hhi ->].
  eapply getp_bind; [apply getp_u8|]. intros lo bs [Hlo ->].
  apply getp_ret. simpl. pose proof (shift_in_spec hi lo Hlo) as Hs. unfold is_byte in *.
  rewrite N.mod_small by (rewrite Hs; change (2 ^ 16) with 65536; lia).
  rewrite <- (be_bytes_value [hi; lo]) at 1 by auto. simpl. unfold be_value. simpl.
  by replace (shift_in 0 hi) with hi by (rewrite shift_in_spec; done || lia).
Qed.

Lemma reads_bool b : reads get_bool [bool_u8 b] b.
Proof.
  apply (reads_bind _ _ [bool_u8 b] [] (bool_u8 b)); [apply reads_u8|].
  destruct b; apply reads_ret.
Qed.

Lemma getp_bool : getp get_bool (fun b bs => bs = [bool_u8 b]).
Proof.
  eapply getp_bind; [apply getp_u8|]. intros raw bs [Hraw ->].
  destruct (N.ltb_spec 1 raw); [by apply getp_fail|]. apply getp_ret.
  destruct (N.eqb_spec raw 1); simpl; [by subst|]. by replace raw with 0 by lia.
Qed.

End primitives.
