(* ===== verification/CodecPayloads.v ===== *)
(** * CodecPayloads: the payload formats of commands, entries and messages

    For each payload the byte sequence of its format, the predicate of the
    values the encoder accepts, and the three facts that the writer emits
    exactly those bytes, that the reader accepts them, and that the reader
    accepts nothing else. *)

From S2P Require Import Prelude Model StateMachine Bytes Codec CodecLemmas.

(** ** What the encoders accept *)

Definition command_valid (l : Limits) (c : ClientCommand) : Prop :=
  valid_command_semantics c = true /\
  string_size (key c) <= N.min (max_key_bytes l) u32_max /\
  string_size (value c) <= N.min (max_value_bytes l) u32_max.

Definition entry_valid (l : Limits) (e : LogEntry) : Prop :=
  index e <> 0 /\ term e <> 0 /\
  match command e with Some c => command_valid l c | None => True end.

Definition append_valid (l : Limits) (v : AppendEntries) : Prop :=
  ae_term v <> 0 /\ ae_leader_id v <> 0 /\ ae_rpc_id v <> 0 /\
  valid_log_pointer (ae_prev_log_index v) (ae_prev_log_term v) = true /\
  N.of_nat (length (ae_entries v)) <= N.min (max_entries_per_append l) u32_max /\
  consecutive_entries v = true /\ Forall (entry_valid l) (ae_entries v).

Definition message_valid (l : Limits) (m : Message) : Prop :=
  match m with
  | MRequestVote v =>
      rv_term v <> 0 /\ rv_candidate_id v <> 0 /\
      valid_log_pointer (rv_last_log_index v) (rv_last_log_term v) = true
  | MRequestVoteResponse v => rvr_term v <> 0
  | MAppendEntries v => append_valid l v
  | MAppendEntriesResponse v => aer_term v <> 0 /\ aer_rpc_id v <> 0
  end.

(** ** The formats *)

Definition command_bytes (c : ClientCommand) : list N :=
  be_bytes 8 (high (session c)) ++ be_bytes 8 (low (session c)) ++ be_bytes 8 (sequence c) ++
  [command_kind_u8 (kind c)] ++ string_field (key c) ++ string_field (value c).

Definition entry_bytes (e : LogEntry) : list N :=
  be_bytes 8 (index e) ++ be_bytes 8 (term e) ++
  match command e with Some c => [1] ++ command_bytes c | None => [0] end.

Definition entries_bytes (es : list LogEntry) : list N := mjoin (entry_bytes <$> es).

Definition message_bytes (m : Message) : list N :=
  match m with
  | MRequestVote v =>
      be_bytes 8 (rv_term v) ++ be_bytes 4 (rv_candidate_id v) ++
      be_bytes 8 (rv_last_log_index v) ++ be_bytes 8 (rv_last_log_term v)
  | MRequestVoteResponse v => be_bytes 8 (rvr_term v) ++ [bool_u8 (rvr_vote_granted v)]
  | MAppendEntries v =>
      be_bytes 8 (ae_term v) ++ be_bytes 4 (ae_leader_id v) ++ be_bytes 8 (ae_rpc_id v) ++
      be_bytes 8 (ae_prev_log_index v) ++ be_bytes 8 (ae_prev_log_term v) ++
      be_bytes 4 (N.of_nat (length (ae_entries v))) ++ entries_bytes (ae_entries v) ++
      be_bytes 8 (ae_leader_commit v)
  | MAppendEntriesResponse v =>
      be_bytes 8 (aer_term v) ++ be_bytes 8 (aer_rpc_id v) ++ [bool_u8 (aer_success v)] ++
      be_bytes 8 (aer_match_index v) ++ be_bytes 8 (aer_conflict_index v) ++
      be_bytes 8 (aer_conflict_term v)
  end.

(** ** Writers *)

Create HintDb emits.
#[export] Hint Resolve emits_u8 emits_u32 emits_u64 emits_string emits_nothing : emits.

(** Split a chain of calls and a guard in front of it. *)
Ltac emit :=
  eapply emits_proper;
  [ repeat first [ simple apply emits_guard; [done|] | simple apply emits_and ]; eauto with emits
  | | ].

Section writers.

Lemma known_kind k : known_command_kind (command_kind_u8 k) = true.
Proof. by destruct k. Qed.

Lemma emits_command l c : emits (write_command_payload c l) (command_valid l c) (command_bytes c).
Proof.
  unfold write_command_payload. emit.
  - unfold command_valid. rewrite known_kind, !negb_false_iff. tauto.
  - unfold command_bytes. by rewrite <- !app_assoc.
Qed.

#[local] Hint Resolve emits_command : emits.

Lemma emits_entry l e : emits (write_entry_payload e l) (entry_valid l e) (entry_bytes e).
Proof.
  unfold write_entry_payload, entry_valid, entry_bytes.
  destruct (command e) as [c|]; emit; try by rewrite <- !app_assoc.
  all: rewrite orb_false_iff, !N.eqb_neq; tauto.
Qed.

Lemma emits_entries l es : emits (write_entries es l) (Forall (entry_valid l) es) (entries_bytes es).
Proof.
  induction es as [|e es IH]; simpl.
  - eapply emits_proper; [apply emits_nothing|by rewrite Forall_nil|done].
  - eapply emits_proper; [apply (emits_and _ _ _ _ _ _ (emits_entry l e) IH)| |done].
    by rewrite Forall_cons.
Qed.

#[local] Hint Resolve emits_entries : emits.

Lemma emits_message l m : emits (write_message_payload m l) (message_valid l m) (message_bytes m).
Proof.
  destruct m as [v|v|v|v]; simpl.
  - emit; [|by rewrite <- !app_assoc].
    rewrite !orb_false_iff, negb_false_iff, !N.eqb_neq. tauto.
  - emit; [|done]. rewrite !N.eqb_neq. tauto.
  - emit; [|by rewrite <- !app_assoc]. unfold append_valid.
    rewrite !orb_false_iff, !negb_false_iff, !N.eqb_neq, !N.ltb_ge, N.min_glb_iff. tauto.
  - emit; [|by rewrite <- !app_assoc]. rewrite !orb_false_iff, !N.eqb_neq. tauto.
Qed.

End writers.

(** ** Readers accept the format *)

Lemma reads_last {A B} (g : Get A) (f : A -> B) bs a b :
  reads g bs a -> f a = b -> reads (get_bind g (fun x => get_ret (f x))) bs b.
Proof.
  intros Hg <-. rewrite <- (app_nil_r bs). eapply reads_bind; [done|]. apply reads_ret.
Qed.

Create HintDb reads.
#[export] Hint Resolve reads_u8 reads_u32 reads_u64 reads_bool : reads.

(** Consume the fields of the format one by one. *)
Ltac read_fields :=
  repeat first
    [ simple eapply reads_last; [solve [eauto with reads]|]
    | simple eapply reads_bind; [solve [eauto with reads]|cbv beta] ].

Section readers_accept.

Lemma reads_string s l :
  string_size s <= N.min l u32_max -> reads (get_string l) (string_field s) s.
Proof.
  intros Hs. unfold get_string, string_field.
  apply (reads_bind _ _ _ _ (string_size s)); [apply reads_u32; lia|].
  destruct (N.ltb_spec l (string_size s)); [lia|].
  apply reads_require_bind; [rewrite string_bytes_length; done|].
  intros r tl Hr Hrest. fold (rest r). rewrite Hrest, <- string_bytes_length.
  unfold blen. by rewrite Nat2N.id, take_app_length, string_of_string_bytes.
Qed.

#[local] Hint Resolve reads_string : reads.

Lemma reads_command l c :
  command_fits c -> command_valid l c -> reads (read_command_payload l) (command_bytes c) c.
Proof.
  intros (? & ? & ?) (Hv & ? & ?). unfold read_command_payload, command_bytes.
  read_fields. rewrite command_kind_u8_of_u8. simple eapply reads_bind; [by apply reads_string|].
  rewrite <- (app_nil_r (string_field (value c))).
  simple eapply reads_bind; [by apply reads_string|]. cbv beta zeta.
  destruct c as [[hi lo] seq kd k v]; simpl in *. rewrite Hv. apply reads_ret.
Qed.

Lemma reads_entry l e :
  entry_fits e -> entry_valid l e -> reads (read_entry_payload l) (entry_bytes e) e.
Proof.
  destruct e as [i t o]. intros (? & ? & Ho) (Hi & Ht & Hv). unfold read_entry_payload, entry_bytes.
  cbn [index term command] in *. apply N.eqb_neq in Hi, Ht.
  simple eapply reads_bind; [eauto with reads|]. simple eapply reads_bind; [eauto with reads|].
  cbv beta. destruct o as [c|].
  - apply (reads_bind _ _ [1] _ true); [apply (reads_bool true)|]. rewrite Hi, Ht. simpl.
    eapply reads_last; [by apply reads_command|done].
  - apply (reads_bind _ _ [0] [] false); [apply (reads_bool false)|]. rewrite Hi, Ht. apply reads_ret.
Qed.

Lemma reads_entries l es :
  Forall entry_fits es -> Forall (entry_valid l) es ->
  reads (read_entries (length es) l) (entries_bytes es) es.
Proof.
  induction es as [|e es IH]; intros Hf Hv; simpl; [apply reads_ret|].
  apply Forall_cons in Hf as [? ?], Hv as [? ?].
  eapply reads_bind; [by apply reads_entry|]. eapply reads_last; [by apply IH|done].
Qed.

Lemma reads_guard_bind {B} (k : Get B) count bs b :
  17 * count + 8 <= blen bs -> reads k bs b ->
  reads (get_bind (count_guard count) (fun _ => k)) bs b.
Proof.
  intros Hn Hk r tl Hr Hrest. unfold get_bind, count_guard.
  rewrite (remaining_rest _ _ _ Hr Hrest). unfold kMinimumEntryPayloadBytes.
  destruct (N.ltb_spec (blen bs + blen tl) 8); [lia|].
  destruct (N.ltb_spec ((blen bs + blen tl - 8) / 17) count) as [Hlt|]; [|by apply (Hk r tl)].
  pose proof (N.div_le_lower_bound (blen bs + blen tl - 8) 17 count ltac:(done) ltac:(lia)). lia.
Qed.

Lemma entries_bytes_length es : 17 * N.of_nat (length es) <= blen (entries_bytes es).
Proof.
  induction es as [|e es IH]; [done|].
  change (entries_bytes (e :: es)) with (entry_bytes e ++ entries_bytes es). rewrite blen_app. cbn [length]. enough (17 <= blen (entry_bytes e)) by lia.
  unfold entry_bytes. rewrite !blen_app, !blen_be. unfold blen. destruct (command e); simpl; lia.
Qed.

Lemma reads_append l v :
  message_fits (MAppendEntries v) -> append_valid l v ->
  reads (read_append_entries l) (message_bytes (MAppendEntries v)) v.
Proof.
  intros (? & ? & ? & ? & ? & He & ?) (Ht & Hl & Hr & Hp & Hn & Hc & Hv).
  unfold read_append_entries, message_bytes. apply N.eqb_neq in Ht, Hl, Hr.
  do 5 (simple eapply reads_bind; [solve [eauto with reads]|cbv beta]).
  simple eapply reads_bind; [apply reads_u32; lia|]. rewrite Ht, Hl, Hr, Hp.
  cbn [orb negb]. destruct (N.ltb_spec (max_entries_per_append l) (N.of_nat (length (ae_entries v))));
    [lia|].
  apply reads_guard_bind.
  { rewrite blen_app, blen_be. pose proof (entries_bytes_length (ae_entries v)). lia. }
  rewrite Nat2N.id. simple eapply reads_bind; [by apply reads_entries|].
  rewrite <- (app_nil_r (be_bytes 8 (ae_leader_commit v))).
  simple eapply reads_bind; [by apply reads_u64|]. cbv beta zeta.
  destruct v; simpl in *. rewrite Hc. apply reads_ret.
Qed.

End readers_accept.

(** ** Readers accept nothing else *)

Create HintDb getp.
#[export] Hint Resolve getp_u8 getp_u32 getp_u64 getp_bool : getp.

(** Read the fields one by one, naming nothing. *)
Ltac get_fields :=
  repeat (simple eapply getp_bind; [solve [eauto with getp]|cbv beta; intros ? ? ?]);
  destruct_and?; subst.

Section readers_sound.

Lemma getp_string l :
  getp (get_string l) (fun s bs => string_size s <= N.min l u32_max /\ bs = string_field s).
Proof.
  eapply getp_bind; [apply getp_u32|]. intros n bs [Hn ->].
  destruct (N.ltb_spec l n); [by apply getp_fail|].
  apply getp_require_bind. intros r Hr Hrem.
  assert (Hl : blen (rest r) = remaining r) by (apply rest_length; apply Hr).
  set (bs := take (N.to_nat n) (rest r)).
  assert (Hbs : blen bs = n).
  { unfold bs, blen in *. rewrite length_take. lia. }
  assert (Hok : bytes_ok bs) by (by apply Forall_take, rest_ok).
  exists bs, (drop (N.to_nat n) (rest r)). rewrite Hbs. unfold bs at 1. rewrite take_drop.
  fold (rest r) bs. unfold string_field.
  rewrite <- !string_bytes_length, string_bytes_of_bytes, Hbs by done. split_and!; [done..|lia|done].
Qed.

Lemma getp_command l :
  getp (read_command_payload l)
    (fun c bs => command_fits c /\ command_valid l c /\ bs = command_bytes c).
Proof.
  unfold read_command_payload. get_fields.
  destruct (command_kind_of_u8 _) as [kd|] eqn:Hk; [|by apply getp_fail].
  apply command_kind_of_u8_inv in Hk. subst.
  simple eapply getp_bind; [apply getp_string|]. intros k ? [? ->].
  simple eapply getp_bind; [apply getp_string|]. intros v ? [? ->]. cbv beta zeta.
  destruct (valid_command_semantics _) eqn:Hv; [|by apply getp_fail].
  apply getp_ret. split_and!; [done..|]. unfold command_bytes. cbn [session high low sequence kind key value].
  by rewrite app_nil_r.
Qed.

Lemma getp_entry l :
  getp (read_entry_payload l)
    (fun e bs => entry_fits e /\ entry_valid l e /\ bs = entry_bytes e).
Proof.
  unfold read_entry_payload. get_fields.
  destruct (N.eqb_spec a 0); [by apply getp_fail|]. destruct (N.eqb_spec a0 0); [by apply getp_fail|].
  cbn [orb]. destruct a1.
  - simple eapply getp_bind; [apply getp_command|]. intros c bs (Hf & Hv & ->).
    apply getp_ret. split_and!; [done..|]. unfold entry_bytes. cbn [index term command].
    by rewrite app_nil_r.
  - apply getp_ret. split_and!; done.
Qed.

Lemma getp_entries l n :
  getp (read_entries n l)
    (fun es bs => length es = n /\ Forall entry_fits es /\ Forall (entry_valid l) es /\
                  bs = entries_bytes es).
Proof.
  induction n as [|n IH]; simpl; [by apply getp_ret|].
  eapply getp_bind; [apply getp_entry|]. intros e ? (? & ? & ->).
  eapply getp_bind; [apply IH|]. intros es ? (<- & ? & ? & ->).
  apply getp_ret. split_and!; auto. by rewrite app_nil_r.
Qed.

Lemma getp_guard_bind {B} (k : Get B) count (P : B -> list N -> Prop) :
  getp k P -> getp (get_bind (count_guard count) (fun _ => k)) P.
Proof.
  intros Hk r Hr. unfold get_bind, count_guard. destruct (_ || _); [by apply rfail_spec|by apply Hk].
Qed.

Lemma getp_append l :
  getp (read_append_entries l)
    (fun v bs => message_fits (MAppendEntries v) /\ append_valid l v /\
                 bs = message_bytes (MAppendEntries v)).
Proof.
  unfold read_append_entries. get_fields.
  destruct (N.eqb_spec a 0); [by apply getp_fail|]. destruct (N.eqb_spec a0 0); [by apply getp_fail|].
  destruct (N.eqb_spec a1 0); [by apply getp_fail|].
  destruct (valid_log_pointer a2 a3) eqn:Hp; [|by apply getp_fail]. cbn [orb negb].
  destruct (N.ltb_spec (max_entries_per_append l) a4); [by apply getp_fail|].
  apply getp_guard_bind. simple eapply getp_bind; [apply getp_entries|].
  intros es ? (Hlen & ? & ? & ->). simple eapply getp_bind; [apply getp_u64|].
  intros lc ? [? ->]. cbv beta zeta.
  destruct (consecutive_entries _) eqn:Hc; [|by apply getp_fail]. apply getp_ret.
  split_and!; [done..| |]; unfold append_valid, message_bytes;
    cbn [ae_term ae_leader_id ae_rpc_id ae_prev_log_index ae_prev_log_term ae_entries ae_leader_commit].
  - split_and!; auto. lia.
  - rewrite app_nil_r. by replace (N.of_nat (length es)) with a4 by lia.
Qed.

End readers_sound.
