(* ===== verification/CodecTheorems.v ===== *)
(** * CodecTheorems: the wire format is a bijection on the values it accepts

    Frames round-trip, the accepted encodings are canonical, and every refusal
    carries an error and an offset inside the input. *)

From S2P Require Import Prelude Model StateMachine Bytes Codec CodecLemmas CodecPayloads.

(** ** Frames *)

Section frames.
Implicit Types (bs : list N) (l : Limits).

Lemma check_magic_spec magic r :
  reader_ok r ->
  match check_magic magic r with
  | inr r' => exists tl, rest r = magic ++ tl /\ r' = advance (blen magic) r
  | inl (e, off) => e <> none /\ off <= base_ r + blen (rbytes_ r)
  end.
Proof.
  revert r. induction magic as [|b magic IH]; intros r Hr; simpl.
  - exists (rest r). by rewrite blen_nil, advance_0.
  - pose proof (getp_u8 r Hr) as H. destruct (get_u8 r) as [[a|] r']; [|done].
    destruct H as (bs & tl & Hrest & -> & Ha & ->).
    destruct (advance_ok _ _ _ Hr Hrest) as [Hr' Hrest']. destruct (N.eqb_spec a b) as [<-|]; simpl.
    + specialize (IH _ Hr'). destruct (check_magic magic _) as [[e off]|r']; [done|].
      destruct IH as (tl' & Hm & ->). exists tl'.
      rewrite advance_advance, Hrest, <- Hrest', Hm. split; [done|]. f_equal. unfold blen. simpl. lia.
    + split; [done|]. destruct Hr' as (_ & Hp & _). unfold absolute_position. simpl in *. lia.
Qed.

Lemma check_magic_reads magic r tl :
  reader_ok r -> rest r = magic ++ tl -> check_magic magic r = inr (advance (blen magic) r).
Proof.
  revert r. induction magic as [|b magic IH]; intros r Hr Hrest; simpl.
  - by rewrite blen_nil, advance_0.
  - rewrite (reads_u8 b r (magic ++ tl) Hr Hrest), N.eqb_refl. simpl.
    destruct (advance_ok r [b] (magic ++ tl) Hr Hrest) as [Hr' Hrest'].
    rewrite (IH _ Hr' Hrest'), advance_advance. do 2 f_equal. unfold blen. simpl. lia.
Qed.

Lemma getp_header :
  getp read_header (fun '(v, t, res, len) bs =>
    len <= u32_max /\ bs = [v; t] ++ be_bytes 2 res ++ be_bytes 4 len).
Proof.
  unfold read_header. eapply getp_bind; [apply getp_u8|]. intros v ? [_ ->].
  eapply getp_bind; [apply getp_u8|]. intros t ? [_ ->].
  eapply getp_bind; [apply getp_u16|]. intros res ? ->.
  eapply getp_bind; [apply getp_u32|]. intros len ? [? ->].
  apply getp_ret. split; [done|]. by rewrite app_nil_r.
Qed.

Lemma reads_header v t len :
  len <= u32_max -> reads read_header ([v; t; 0; 0] ++ be_bytes 4 len) (v, t, 0, len).
Proof.
  intros Hl. apply (reads_bind _ _ [v] _ v); [apply reads_u8|].
  apply (reads_bind _ _ [t] _ t); [apply reads_u8|].
  apply (reads_bind _ _ [0; 0] _ 0); [apply reads_u16_0|].
  apply (reads_last _ (fun len => (v, t, 0, len)) _ len); [by apply reads_u32|done].
Qed.

Lemma wire_type_inv b t : wire_type_of_u8 b = Some t -> b = wire_type_u8 t.
Proof.
  intros H. destruct (decide (b < 20)) as [Hb|Hb].
  - revert t H. apply N.lt_le_pred in Hb.
    assert (Hall : forall i, (i < 20)%nat -> forall t, wire_type_of_u8 (N.of_nat i) = Some t ->
      N.of_nat i = wire_type_u8 t).
    { intros i Hi t. do 20 (destruct i as [|i]; [cbv; by intros [= <-]|]). lia. }
    intros t H. rewrite <- (N2Nat.id b) in *. apply (Hall (N.to_nat b)); [lia|done].
  - exfalso. unfold wire_type_of_u8 in H. repeat case_match; simplify_eq; lia.
Qed.

Lemma wire_type_of_u8_u8 t : wire_type_of_u8 (wire_type_u8 t) = Some t.
Proof. by destruct t. Qed.

Lemma new_reader_ok bs base : bytes_ok bs -> reader_ok (new_reader bs base).
Proof. intros H. split_and!; [done|apply N.le_0_l|done]. Qed.

Lemma parse_frame_complete t payload l bs :
  bytes_ok bs -> framed t payload l bs -> parse_frame bs l = success (mkParsedFrame t payload).
Proof.
  intros Hok (Hm & Hu & ->).
  assert (Hlen : blen (header t (blen payload) ++ payload) = 12 + blen payload)
    by (by rewrite blen_app, header_length).
  unfold parse_frame. destruct (N.ltb_spec (max_frame_bytes l)
    (blen (header t (blen payload) ++ payload))); [unfold kHeaderBytes in *; lia|].
  pose proof (new_reader_ok _ 0 Hok) as Hr. set (bs := header t (blen payload) ++ payload) in *.
  assert (Hrest : rest (new_reader bs 0) =
    kMagic ++ ([kVersion; wire_type_u8 t; 0; 0] ++ be_bytes 4 (blen payload)) ++ payload) by done.
  rewrite (check_magic_reads kMagic _ _ Hr Hrest).
  destruct (advance_ok _ _ _ Hr Hrest) as [Hr' Hrest'].
  rewrite (reads_header _ _ _ Hu _ _ Hr' Hrest').
  destruct (advance_ok _ _ _ Hr' Hrest') as [Hr'' Hrest''].
  rewrite N.eqb_refl, wire_type_of_u8_u8. cbn [negb N.eqb].
  assert (Hrem : remaining (advance (blen ([kVersion; wire_type_u8 t; 0; 0] ++
    be_bytes 4 (blen payload))) (advance (blen kMagic) (new_reader bs 0))) = blen payload).
  { rewrite (remaining_rest _ payload [] Hr'') by (by rewrite app_nil_r). rewrite blen_nil. lia. }
  rewrite Hrem. pose proof (payload_limit_spec l (blen payload) ltac:(unfold kHeaderBytes in *; lia)).
  destruct (N.ltb_spec (payload_limit l) (blen payload)); [unfold kHeaderBytes in *; lia|].
  rewrite N.ltb_irrefl. do 2 f_equal.
  change (drop (N.to_nat kHeaderBytes) bs) with payload. apply take_ge. unfold blen. lia.
Qed.

Lemma parse_frame_sound l bs :
  bytes_ok bs ->
  match parse_frame bs l with
  | success pf => framed (pf_type pf) (pf_payload pf) l bs
  | failure e off => e <> none /\ off <= blen bs
  end.
Proof.
  intros Hok. unfold parse_frame.
  destruct (N.ltb_spec (max_frame_bytes l) (blen bs)); [split; [done|lia]|].
  pose proof (new_reader_ok _ 0 Hok) as Hr. pose proof (check_magic_spec kMagic _ Hr) as Hm.
  destruct (check_magic kMagic (new_reader bs 0)) as [[e off]|r1]; [done|].
  destruct Hm as (tl & Hrest & ->). destruct (advance_ok _ _ _ Hr Hrest) as [Hr1 Hrest1].
  pose proof (getp_header _ Hr1) as Hh.
  destruct (read_header (advance (blen kMagic) (new_reader bs 0))) as [[[[[v t] res] len]|] r2];
    [|done].
  destruct Hh as (bs2 & tl2 & Hrest2 & -> & Hlen & ->).
  destruct (advance_ok _ _ _ Hr1 Hrest2) as [Hr2 Hrest3].
  assert (Hbs : bs = kMagic ++ [v; t] ++ be_bytes 2 res ++ be_bytes 4 len ++ tl2).
  { change bs with (rest (new_reader bs 0)). rewrite Hrest, <- Hrest1, Hrest2.
    by rewrite <- !app_assoc. }
  assert (Hbl : blen bs = 12 + blen tl2).
  { rewrite Hbs, !blen_app, !blen_be. unfold blen. simpl. lia. }
  rewrite (remaining_rest _ tl2 [] Hr2) by (by rewrite app_nil_r). rewrite blen_nil, N.add_0_r.
  destruct (N.eqb_spec v kVersion) as [->|]; [|split; [done|lia]].
  destruct (wire_type_of_u8 t) as [ty|] eqn:Hty; [|split; [done|lia]]. apply wire_type_inv in Hty.
  destruct (N.eqb_spec res 0) as [->|]; [|split; [done|lia]]. cbn [negb].
  destruct (N.ltb_spec (payload_limit l) len); [split; [done|lia]|].
  destruct (N.ltb_spec (blen tl2) len); [split; [done|unfold kHeaderBytes; lia]|].
  destruct (N.ltb_spec len (blen tl2)); [split; [done|unfold kHeaderBytes; lia]|].
  assert (Htl : take (N.to_nat len) (drop (N.to_nat kHeaderBytes) bs) = tl2).
  { rewrite Hbs. change (N.to_nat kHeaderBytes) with 12%nat. simpl. apply take_ge.
    unfold blen in *. lia. }
  rewrite Htl. unfold framed. cbn [pf_type pf_payload]. split_and!; [unfold kHeaderBytes; lia|lia|].
  replace (blen tl2) with len by lia. rewrite Hbs at 1. unfold header. by rewrite <- !app_assoc, Hty.
Qed.

Lemma decode_exact_complete {T} pf (g : Get T) a :
  bytes_ok (pf_payload pf) -> reads g (pf_payload pf) a -> decode_exact pf g = success a.
Proof.
  intros Hok Hg. unfold decode_exact. pose proof (new_reader_ok _ kHeaderBytes Hok) as Hr.
  rewrite (Hg _ [] Hr) by (by rewrite app_nil_r). unfold at_end. simpl. by rewrite N.eqb_refl.
Qed.

Lemma decode_exact_sound {T} pf (g : Get T) P :
  bytes_ok (pf_payload pf) -> getp g P ->
  match decode_exact pf g with
  | success a => P a (pf_payload pf)
  | failure e off => e <> none /\ off <= kHeaderBytes + blen (pf_payload pf)
  end.
Proof.
  intros Hok Hg. unfold decode_exact. pose proof (new_reader_ok _ kHeaderBytes Hok) as Hr.
  specialize (Hg _ Hr). destruct (g _) as [[a|] r]; [|done].
  destruct Hg as (bs & tl & Hrest & -> & Ha). unfold rest in Hrest. simpl in Hrest.
  rewrite drop_0 in Hrest. unfold at_end. cbn [position_ advance new_reader rbytes_].
  rewrite N.add_0_l. destruct (N.eqb_spec (blen bs) (blen (pf_payload pf))) as [Heq|]; cbn [negb].
  - rewrite Hrest in Heq |- *. rewrite blen_app in Heq. destruct tl; [by rewrite app_nil_r|].
    unfold blen in Heq. simpl in Heq. lia.
  - split; [done|]. rewrite Hrest, blen_app. unfold absolute_position. simpl. lia.
Qed.

Lemma payload_ok t payload l bs : framed t payload l bs -> bytes_ok bs -> bytes_ok payload.
Proof. intros (_ & _ & ->). by intros [_ ?]%Forall_app. Qed.

Lemma framed_length t payload l bs : framed t payload l bs -> blen bs = kHeaderBytes + blen payload.
Proof. intros (_ & _ & ->). by rewrite blen_app, header_length. Qed.

End frames.

(** ** Encoders *)

Section encoders.

Lemma encode_command_spec c l bs :
  encode_command c l = success bs <->
  command_valid l c /\ framed wt_command (command_bytes c) l bs.
Proof. apply frame_spec, emits_command. Qed.

Lemma encode_log_entry_spec e l bs :
  encode_log_entry e l = success bs <-> entry_valid l e /\ framed wt_log_entry (entry_bytes e) l bs.
Proof. apply frame_spec, emits_entry. Qed.

Lemma encode_message_spec m l bs :
  encode_message m l = success bs <->
  message_valid l m /\ framed (message_type m) (message_bytes m) l bs.
Proof. apply frame_spec, emits_message. Qed.

Lemma framed_ok t payload l bs : framed t payload l bs -> bytes_ok payload -> bytes_ok bs.
Proof.
  intros (_ & _ & ->) H. apply Forall_app. split; [|done]. unfold header.
  repeat (apply Forall_app; split); [..|apply be_bytes_ok].
  - by repeat constructor.
  - repeat constructor. by destruct t.
Qed.

Lemma command_bytes_ok c : bytes_ok (command_bytes c).
Proof.
  unfold command_bytes. repeat (apply Forall_app; split); auto using be_bytes_ok, string_bytes_ok.
  repeat constructor. by destruct (kind c).
Qed.

Lemma entry_bytes_ok e : bytes_ok (entry_bytes e).
Proof.
  unfold entry_bytes. repeat (apply Forall_app; split); auto using be_bytes_ok.
  destruct (command e); [apply Forall_app; split; [by repeat constructor|apply command_bytes_ok]|].
  by repeat constructor.
Qed.

Lemma message_bytes_ok m : bytes_ok (message_bytes m).
Proof.
  destruct m as [v|v|v|v]; unfold message_bytes;
    repeat (apply Forall_app; split); auto using be_bytes_ok.
  - repeat constructor. by destruct (rvr_vote_granted v).
  - unfold entries_bytes. apply Forall_join, Forall_fmap, Forall_true. apply entry_bytes_ok.
  - repeat constructor. by destruct (aer_success v).
Qed.

End encoders.

(** ** Decoders *)

Section decoders.
Implicit Types (bs : list N) (l : Limits).

Lemma decode_complete {T} t (g : Get T) payload l bs a :
  framed t payload l bs -> bytes_ok payload -> reads g payload a ->
  parse_frame bs l = success (mkParsedFrame t payload) /\
  decode_exact (mkParsedFrame t payload) g = success a.
Proof.
  intros Hf Hok Hg. split; [|by apply decode_exact_complete].
  apply parse_frame_complete; [by eapply framed_ok|done].
Qed.

Lemma reads_message_payload l m :
  message_fits m -> message_valid l m ->
  match m with
  | MRequestVote v => reads read_request_vote (message_bytes m) v
  | MRequestVoteResponse v => reads read_request_vote_response (message_bytes m) v
  | MAppendEntries v => reads (read_append_entries l) (message_bytes m) v
  | MAppendEntriesResponse v => reads read_append_entries_response (message_bytes m) v
  end.
Proof.
  destruct m as [v|v|v|v]; intros Hf Hv; unfold message_fits in Hf; destruct_and?.
  - unfold read_request_vote, message_bytes. read_fields. by destruct v.
  - unfold read_request_vote_response, message_bytes. read_fields. by destruct v.
  - apply reads_append; [|done]. split_and!; done.
  - unfold read_append_entries_response, message_bytes. read_fields. by destruct v.
Qed.

Lemma decode_message_complete l m bs :
  message_fits m -> message_valid l m -> framed (message_type m) (message_bytes m) l bs ->
  decode_message bs l = success m.
Proof.
  intros Hfit Hv Hf. pose proof (reads_message_payload l m Hfit Hv) as Hg.
  pose proof (message_bytes_ok m) as Hok. unfold decode_message.
  destruct m as [v|v|v|v]; destruct (decode_complete _ _ _ _ _ _ Hf Hok Hg) as [-> ->];
    cbn [pf_type message_type message_valid] in *; destruct_and?;
    repeat match goal with H : ?x <> 0 |- _ => apply N.eqb_neq in H; rewrite H; clear H end;
    try done.
  by match goal with H : valid_log_pointer _ _ = true |- _ => rewrite H end.
Qed.

Lemma getp_request_vote :
  getp read_request_vote (fun v bs => message_fits (MRequestVote v) /\
    bs = message_bytes (MRequestVote v)).
Proof.
  unfold read_request_vote. get_fields. apply getp_ret. split; [done|].
  unfold message_bytes. cbn [rv_term rv_candidate_id rv_last_log_index rv_last_log_term].
  by rewrite app_nil_r.
Qed.

Lemma getp_request_vote_response :
  getp read_request_vote_response (fun v bs => message_fits (MRequestVoteResponse v) /\
    bs = message_bytes (MRequestVoteResponse v)).
Proof.
  unfold read_request_vote_response. get_fields. by apply getp_ret.
Qed.

Lemma getp_append_entries_response :
  getp read_append_entries_response (fun v bs => message_fits (MAppendEntriesResponse v) /\
    bs = message_bytes (MAppendEntriesResponse v)).
Proof.
  unfold read_append_entries_response. get_fields. apply getp_ret. split; [done|].
  unfold message_bytes.
  cbn [aer_term aer_rpc_id aer_success aer_match_index aer_conflict_index aer_conflict_term].
  by rewrite app_nil_r.
Qed.

Lemma decode_message_sound l bs :
  bytes_ok bs ->
  match decode_message bs l with
  | success m => message_fits m /\ message_valid l m /\
                 framed (message_type m) (message_bytes m) l bs
  | failure e off => e <> none /\ off <= blen bs
  end.
Proof.
  intros Hok. unfold decode_message. pose proof (parse_frame_sound l bs Hok) as Hp.
  destruct (parse_frame bs l) as [[t payload]|e off]; [|done]. cbn [pf_type pf_payload] in *.
  pose proof (payload_ok _ _ _ _ Hp Hok) as Hpok.
  pose proof (framed_length _ _ _ _ Hp) as Hlen.
  unfold kHeaderBytes in Hlen.
  destruct t.
  1, 2: split; [done|lia].
  - pose proof (decode_exact_sound (mkParsedFrame wt_request_vote payload) _ _ Hpok
      getp_request_vote) as H. destruct (decode_exact _ _) as [v|e off]; [|by rewrite Hlen].
    destruct H as [Hfit Hb]. cbn [pf_payload] in Hb. subst payload.
    destruct (N.eqb_spec (rv_term v) 0), (N.eqb_spec (rv_candidate_id v) 0),
      (valid_log_pointer _ _) eqn:Hv; cbn [orb negb]; done || (split; [done|unfold kHeaderBytes; lia]).
  - pose proof (decode_exact_sound (mkParsedFrame wt_request_vote_response payload) _ _ Hpok
      getp_request_vote_response) as H. destruct (decode_exact _ _) as [v|e off]; [|by rewrite Hlen].
    destruct H as [Hfit Hb]. cbn [pf_payload] in Hb. subst payload.
    destruct (N.eqb_spec (rvr_term v) 0); done || (split; [done|unfold kHeaderBytes; lia]).
  - pose proof (decode_exact_sound (mkParsedFrame wt_append_entries payload) _ _ Hpok
      (getp_append l)) as H. destruct (decode_exact _ _) as [v|e off]; [|by rewrite Hlen].
    destruct H as (Hfit & Hv & Hb). cbn [pf_payload] in Hb. by subst payload.
  - pose proof (decode_exact_sound (mkParsedFrame wt_append_entries_response payload) _ _ Hpok
      getp_append_entries_response) as H. destruct (decode_exact _ _) as [v|e off]; [|by rewrite Hlen].
    destruct H as [Hfit Hb]. cbn [pf_payload] in Hb. subst payload.
    destruct (N.eqb_spec (aer_term v) 0), (N.eqb_spec (aer_rpc_id v) 0); cbn [orb];
      done || (split; [done|unfold kHeaderBytes; lia]).
Qed.

Lemma decode_log_entry_sound l bs :
  bytes_ok bs ->
  match decode_log_entry bs l with
  | success e => entry_fits e /\ entry_valid l e /\ framed wt_log_entry (entry_bytes e) l bs
  | failure e off => e <> none /\ off <= blen bs
  end.
Proof.
  intros Hok. unfold decode_log_entry. pose proof (parse_frame_sound l bs Hok) as Hp.
  destruct (parse_frame bs l) as [[t payload]|e off]; [|done]. cbn [pf_type pf_payload] in *.
  pose proof (payload_ok _ _ _ _ Hp Hok) as Hpok.
  pose proof (framed_length _ _ _ _ Hp) as Hlen.
  case_bool_decide; [subst t|split; [done|unfold kHeaderBytes in *; lia]]. cbn [negb].
  pose proof (decode_exact_sound (mkParsedFrame wt_log_entry payload) _ _ Hpok (getp_entry l)) as H.
  destruct (decode_exact _ _) as [v|e off]; [|by rewrite Hlen].
  destruct H as (Hfit & Hv & Hb). cbn [pf_payload] in Hb. by subst payload.
Qed.

Lemma decode_log_entry_complete l e bs :
  entry_fits e -> entry_valid l e -> framed wt_log_entry (entry_bytes e) l bs ->
  decode_log_entry bs l = success e.
Proof.
  intros Hfit Hv Hf. unfold decode_log_entry.
  by destruct (decode_complete _ _ _ _ _ _ Hf (entry_bytes_ok e) (reads_entry l e Hfit Hv))
    as [-> ->].
Qed.

Lemma decode_command_sound l bs :
  bytes_ok bs ->
  match decode_command bs l with
  | success c => command_fits c /\ command_valid l c /\ framed wt_command (command_bytes c) l bs
  | failure e off => e <> none /\ off <= blen bs
  end.
Proof.
  intros Hok. unfold decode_command. pose proof (parse_frame_sound l bs Hok) as Hp.
  destruct (parse_frame bs l) as [[t payload]|e off]; [|done]. cbn [pf_type pf_payload] in *.
  pose proof (payload_ok _ _ _ _ Hp Hok) as Hpok. pose proof (framed_length _ _ _ _ Hp) as Hlen.
  case_bool_decide; [subst t|split; [done|unfold kHeaderBytes in *; lia]]. cbn [negb].
  pose proof (decode_exact_sound (mkParsedFrame wt_command payload) _ _ Hpok (getp_command l)) as H.
  destruct (decode_exact _ _) as [v|e off]; [|by rewrite Hlen].
  destruct H as (Hfit & Hv & Hb). cbn [pf_payload] in Hb. by subst payload.
Qed.

Lemma decode_command_complete l c bs :
  command_fits c -> command_valid l c -> framed wt_command (command_bytes c) l bs ->
  decode_command bs l = success c.
Proof.
  intros Hfit Hv Hf. unfold decode_command.
  by destruct (decode_complete _ _ _ _ _ _ Hf (command_bytes_ok c) (reads_command l c Hfit Hv))
    as [-> ->].
Qed.

End decoders.

(** ** Properties *)

(** C33 (wire round trip).  Every message whose fields have their C++ widths and
    that [encode_message] accepts under some limits decodes, under the same
    limits, to the same message. *)
Theorem message_roundtrip (m : Message) (l : Limits) (bs : list N)
    (Hfit : message_fits m) (Henc : encode_message m l = success bs) :
  decode_message bs l = success m.
Proof. apply encode_message_spec in Henc as [? ?]. by apply decode_message_complete. Qed.

(** C34 (canonical encoding).  [decode_message] accepts only what [encode_message]
    produces: a byte string it accepts is the encoding of the message it
    returns, so two different frames never decode to one message and no
    ill-formed message enters the node. *)
Theorem message_canonical (m : Message) (l : Limits) (bs : list N)
    (Hok : bytes_ok bs) (Hdec : decode_message bs l = success m) :
  encode_message m l = success bs /\ message_fits m /\ message_valid l m.
Proof.
  pose proof (decode_message_sound l bs Hok) as H. rewrite Hdec in H.
  destruct H as (? & ? & ?). split_and!; [by apply encode_message_spec|done..].
Qed.

(** (the encoder is total on valid messages).  [encode_message] succeeds
    exactly on the valid messages whose payload fits the frame limit, and the
    frame is the twelve-byte header followed by the payload format. *)
Theorem encode_message_exact (m : Message) (l : Limits) (bs : list N) :
  encode_message m l = success bs <->
  message_valid l m /\ kHeaderBytes + blen (message_bytes m) <= max_frame_bytes l /\
  blen (message_bytes m) <= u32_max /\
  bs = header (message_type m) (blen (message_bytes m)) ++ message_bytes m.
Proof. apply encode_message_spec. Qed.

(** (error reporting).  When one of the three decoders refuses an input the
    result carries a proper error code (never [none]) and an offset that does
    not lie beyond the input. *)
Theorem decode_error_located (l : Limits) (bs : list N) (Hok : bytes_ok bs) :
  (forall e off, decode_message bs l = failure e off -> e <> none /\ off <= blen bs) /\
  (forall e off, decode_log_entry bs l = failure e off -> e <> none /\ off <= blen bs) /\
  (forall e off, decode_command bs l = failure e off -> e <> none /\ off <= blen bs).
Proof.
  split_and!; intros e off H.
  - pose proof (decode_message_sound l bs Hok) as Hs. by rewrite H in Hs.
  - pose proof (decode_log_entry_sound l bs Hok) as Hs. by rewrite H in Hs.
  - pose proof (decode_command_sound l bs Hok) as Hs. by rewrite H in Hs.
Qed.

(** (log-entry and command frames).  Log entries and commands round-trip
    through their frames, and their decoders accept only canonical frames. *)
Theorem entry_and_command_codec (l : Limits) (bs : list N) (Hok : bytes_ok bs) :
  (forall e, entry_fits e ->
     encode_log_entry e l = success bs <-> decode_log_entry bs l = success e) /\
  (forall c, command_fits c ->
     encode_command c l = success bs <-> decode_command bs l = success c).
Proof.
  split; intros x Hfit; rewrite ?encode_log_entry_spec, ?encode_command_spec; split.
  - intros [? ?]. by apply decode_log_entry_complete.
  - intros H. pose proof (decode_log_entry_sound l bs Hok) as Hs. rewrite H in Hs. tauto.
  - intros [? ?]. by apply decode_command_complete.
  - intros H. pose proof (decode_command_sound l bs Hok) as Hs. rewrite H in Hs. tauto.
Qed.

(** An [AppendEntries] with a no-op and a command, and its frame. *)
Definition demo_command : ClientCommand :=
  mkClientCommand (mkSessionId 1 2) 1 put "k" "v".
Definition demo_append : Message :=
  MAppendEntries (mkAppendEntries 3 1 9 4 2 [mkLogEntry 5 3 None; mkLogEntry 6 3 (Some demo_command)] 4).
Definition demo_frame : list N :=
  match encode_message demo_append default_limits with success bs => bs | failure _ _ => [] end.

Lemma message_roundtrip_witness :
  decode_message demo_frame default_limits = success demo_append.
Proof.
  apply (message_roundtrip demo_append default_limits demo_frame).
  - apply (bool_decide_unpack _). vm_compute. reflexivity.
  - vm_compute. reflexivity.
Defined.

Lemma message_canonical_witness :
  encode_message demo_append default_limits = success demo_frame /\ message_fits demo_append /\
  message_valid default_limits demo_append.
Proof.
  apply (message_canonical demo_append default_limits demo_frame).
  - apply (bool_decide_unpack _). vm_compute. reflexivity.
  - vm_compute. reflexivity.
Defined.

Lemma decode_error_located_witness :
  truncated <> none /\ 12 <= 20.
Proof.
  destruct (decode_error_located default_limits (take 20 demo_frame)) as [H _].
  - apply (bool_decide_unpack _). vm_compute. reflexivity.
  - apply (H truncated 12). vm_compute. reflexivity.
Defined.

Definition demo_entry_frame : list N :=
  match encode_log_entry (mkLogEntry 6 3 (Some demo_command)) default_limits with
  | success bs => bs | failure _ _ => [] end.

Lemma entry_and_command_codec_witness :
  decode_log_entry demo_entry_frame default_limits = success (mkLogEntry 6 3 (Some demo_command)).
Proof.
  destruct (entry_and_command_codec default_limits demo_entry_frame) as [H _].
  - apply (bool_decide_unpack _). vm_compute. reflexivity.
  - apply H; [apply (bool_decide_unpack _); vm_compute; reflexivity|]. vm_compute. reflexivity.
Defined.
