(* ===== verification/RaftTyped.v ===== *)
(** * RaftTyped: every value a node holds or emits fits its C++ type

    The model keeps terms, indexes and identifiers as natural numbers, with the
    wrap-around of the code's arithmetic written out.  [node_typed] says that every
    integer field of a node is a value of its C++ type, [event_fits] and
    [effect_fits] that every integer of an event and of an effect is one; [step]
    preserves the first and produces the last.  On the way the effects are checked
    against the pending batch: a call emits at most one [PersistEffect], and it is
    the batch the node then waits for. *)

From S2P Require Import Prelude Model StateMachine RaftTypes Raft RaftSpec RaftRefine RaftReplicate RaftElection RaftAppend RaftStep Bytes.

Definition hs_fits (h : HardState) : Prop :=
  u64 (current_term h) /\ match voted_for h with Some v => u32 v | None => True end.

Definition envelope_fits (e : MessageEnvelope) : Prop :=
  u32 (env_from e) /\ u32 (env_to e) /\ message_fits (env_message e).

Definition id_fits (v : option NodeId) : Prop := match v with Some x => u32 x | None => True end.

(** The width asked of the integers a node only compares or hands on: client tokens, the
    numbers of timers and operations that come back to it, and the durations of its
    configuration.  A claim about hosts does not depend on it and asks for none; with
    [width64] they are 64-bit integers, as in the code. *)
Class Width := wide : N -> Prop.
Definition any_width : Width := fun _ => True.
Definition width64 : Width := u64.

Section fits.
Context {W : Width}.

Definition event_fits (ev : RaftEvent) : Prop :=
  match ev with
  | TimerFired _ g => wide g
  | MessageReceived env => envelope_fits env
  | StorageComplete op _ _ => wide op
  | ClientRequest token cmd => wide token /\ command_fits cmd
  end.

Definition effect_fits (e : RaftEffect) : Prop :=
  match e with
  | PersistEffect op b => u64 op /\ batch_fits b
  | SendEffect env => envelope_fits env
  | ScheduleTimerEffect t => wide (tr_delay t) /\ u64 (tr_generation t)
  | ClientReplyEffect r => wide (cr_token r) /\ id_fits (cr_leader_hint r) /\ u64 (cr_log_index r)
  | TraceEffect t => u32 (trace_node t) /\ u64 (trace_term t) /\ u64 (trace_index t)
  end.

(** What a leader knows of a peer, and the clients that wait for an entry. *)
Definition progress_fits (p : PeerProgress) : Prop :=
  u64 (next_index p) /\ u64 (match_index p) /\ u64 (inflight_heartbeat_age p) /\
  match inflight p with
  | Some i => u64 (if_rpc_id i) /\ u64 (if_prev_index i) /\ u64 (if_last_index i)
  | None => True
  end.

Definition client_fits (limit : N) (p : PendingClientEntry) : Prop :=
  command_fits (pc_command p) /\ u64 (pc_digest p) /\ Forall wide (pc_waiters p) /\
  N.of_nat (length (pc_waiters p)) <= N.max 1 limit.

Definition session_fits (s : SessionId) : Prop := u64 (high s) /\ u64 (low s).

Definition machine_fits (m : KvStateMachine) : Prop :=
  map_Forall (fun s r => session_fits s /\ u64 (sr_sequence r) /\ u64 (sr_command_digest r)) (sessions_ m).
End fits.

(** The arguments a closure keeps. *)
Definition after_fits (k : AfterSuccess) : Prop :=
  match k with
  | after_vote_reply from _ _ => u32 from
  | after_append_reject from rpc ci ct => u32 from /\ u64 rpc /\ u64 ci /\ u64 ct
  | after_append_accept from rpc matched _ => u32 from /\ u64 rpc /\ u64 matched
  | _ => True
  end.

(** The room the append bound leaves for one command. *)
Definition roomy (cfg : RaftConfig) : Prop :=
  max_command_bytes cfg + kEntryOverhead + kAppendRpcOverhead <= max_append_bytes_per_rpc cfg <= u64_max.

(** What the constructor asks of a recovered entry, besides its position: its command is
    well formed and within the limits of a command, and the entry fits an append.  A
    leader that appends a command does not check the last. *)
Definition sized (cfg : RaftConfig) (e : LogEntry) : Prop :=
  entry_bytes e <= sub64 (max_append_bytes_per_rpc cfg) kAppendRpcOverhead.

Definition entry_good (cfg : RaftConfig) (e : LogEntry) : Prop :=
  entry_fits e /\ entry_acceptable cfg e = true /\ (roomy cfg -> sized cfg e).

(** The batches among the effects of a call. *)
Definition effect_persist (e : RaftEffect) : option (StorageOpId * PersistBatch) :=
  match e with PersistEffect op b => Some (op, b) | _ => None end.
Definition persists (es : list RaftEffect) : list (StorageOpId * PersistBatch) :=
  omap effect_persist es.

Lemma persists_app es1 es2 : persists (es1 ++ es2) = persists es1 ++ persists es2.
Proof. apply omap_app. Qed.

(** Partial correctness of a handler: [wp] without the claim that it returns. *)
Definition wlp {A} (m : M A) (Q : A -> RaftNode -> list RaftEffect -> Prop) (s : RaftNode) : Prop :=
  forall a s' es, m s = Returns (a, s', es) -> Q a s' es.

Lemma wlp_bind {A B} (m : M A) (f : A -> M B) Q s :
  wlp m (fun a s' es => wlp (f a) (fun b s'' es' => Q b s'' (es ++ es')) s') s -> wlp (m ≫= f) Q s.
Proof.
  intros H b s'' es0. unfold mbind, M_bind. destruct (m s) as [[[a s'] es]|] eqn:Hm; [|done].
  destruct (f a s') as [[[b' s3] es']|] eqn:Hf; [|done]. intros [= <- <- <-].
  by apply (H a s' es Hm).
Qed.

Lemma wlp_mono {A} (m : M A) (Q Q' : A -> RaftNode -> list RaftEffect -> Prop) s :
  wlp m Q s -> (forall a s' es, Q a s' es -> Q' a s' es) -> wlp m Q' s.
Proof. intros H HQ a s' es Hm. apply HQ, (H _ _ _ Hm). Qed.

Lemma wlp_eq {A} (m m' : M A) Q s : m' s = m s -> wlp m Q s -> wlp m' Q s.
Proof. intros He H a s' es. rewrite He. apply H. Qed.

Lemma u64_add x y : u64 (add64 x y).
Proof. apply add64_range. Qed.
Lemma u64_sub x y : u64 (sub64 x y).
Proof. apply wrap64_range. Qed.
Lemma u64_zero : u64 0.
Proof. done. Qed.
Lemma u64_min x y : u64 x \/ u64 y -> u64 (N.min x y).
Proof. unfold u64. lia. Qed.
Lemma u32_u64 x : u32 x -> u64 x.
Proof. unfold u32, u64, u32_max, u64_max, u32_size, u64_size. lia. Qed.

Lemma u64_one : u64 1.
Proof. done. Qed.
Lemma u64_max2 x y : u64 x -> u64 y -> u64 (N.max x y).
Proof. unfold u64. lia. Qed.

Create HintDb fits.
#[export] Hint Resolve u64_add u64_sub u64_zero u64_one : fits.

Section typed.
Context {W : Width} (cfg : RaftConfig).

Record node_typed (s : RaftNode) : Prop := {
  ty_config : config_ s = cfg;
  ty_hs : u64 (current_term (hard_state_ s));
  ty_vote : forall v, voted_for (hard_state_ s) = Some v -> v ∈ members cfg /\ 1 <= current_term (hard_state_ s);
  ty_durable : hs_fits (durable_hard_state_ s);
  ty_log : Forall (entry_good cfg) (log_ s);
  ty_dlast : u64 (durable_last_log_index_ s);
  ty_commit : u64 (commit_index_ s);
  ty_dcommit : u64 (durable_commit_index_ s);
  ty_applied : u64 (last_applied_ s);
  ty_machine : machine_fits (state_machine_ s);
  ty_hint : id_fits (leader_hint_ s);
  ty_ready : u64 (readiness_index_ s);
  ty_votes : set_Forall u32 (votes_received_ s);
  ty_peers : map_Forall (fun x p => x ∈ members cfg /\ progress_fits p) (peers_ s);
  ty_clients : map_Forall (fun i p => u64 i /\ client_fits (max_waiters_per_request cfg) p) (pending_clients_ s);
  ty_sessions : map_Forall (fun x i => session_fits x /\ u64 i) (pending_sessions_ s);
  ty_pending : forall p, pending_storage_ s = Some p ->
    u64 (ps_op_id p) /\ batch_fits (ps_batch p) /\ after_fits (ps_after_success p);
  ty_deferred : Forall (fun ev => event_fits ev /\ is_storage_complete ev = false) (deferred_events_ s);
  ty_op : u64 (next_storage_op_id_ s);
  ty_rpc : u64 (next_rpc_id_ s);
  ty_election : u64 (election_generation_ s);
  ty_heartbeat : u64 (heartbeat_generation_ s);
}.

(** How the pending batch and the persist effects of a computation relate. *)
Definition keeps (p p' : option PendingStorage) : Prop := p' = None \/ p' = p.
Definition leaves (p : option PendingStorage) (l : list (StorageOpId * PersistBatch))
    (p' : option PendingStorage) : Prop :=
  (l = [] /\ keeps p p') \/ exists q, p' = Some q /\ l = [(ps_op_id q, ps_batch q)].

(** A computation that emits no batch, and one that may end with one. *)
Definition calm (m : M unit) : Prop :=
  forall s, node_typed s -> wlp m (fun _ s' es => node_typed s' /\ Forall effect_fits es /\
    persists es = [] /\ keeps (pending_storage_ s) (pending_storage_ s')) s.
Definition active (m : M unit) : Prop :=
  forall s, node_typed s -> wlp m (fun _ s' es => node_typed s' /\ Forall effect_fits es /\
    leaves (pending_storage_ s) (persists es) (pending_storage_ s')) s.

Lemma keeps_refl p : keeps p p.
Proof. by right. Qed.

Lemma keeps_trans p1 p2 p3 : keeps p1 p2 -> keeps p2 p3 -> keeps p1 p3.
Proof. unfold keeps. intros [->| ->] [->| ->]; auto. Qed.

Lemma leaves_after p1 p2 l p3 : keeps p1 p2 -> leaves p2 l p3 -> leaves p1 l p3.
Proof. intros Hk [[-> H]|H]; [left|by right]. split; [done|]. by eapply keeps_trans. Qed.

Lemma calm_active m : calm m -> active m.
Proof.
  intros H s Hs. eapply wlp_mono; [by apply H|]. simpl. intros _ s' es (? & ? & -> & ?).
  split_and!; [done..|by left].
Qed.

Lemma calm_bind (m : M unit) (f : unit -> M unit) : calm m -> (forall a, calm (f a)) -> calm (m ≫= f).
Proof.
  intros Hm Hf s Hs. apply wlp_bind. eapply wlp_mono; [by apply Hm|].
  intros a s' es (Hs' & He & Hp & Hk). eapply wlp_mono; [by apply Hf|].
  simpl. intros _ s'' es' (? & ? & Hp' & ?). rewrite persists_app, Hp, Hp'.
  split_and!; [done|by apply Forall_app|done|by eapply keeps_trans].
Qed.

Lemma active_bind (m : M unit) (f : unit -> M unit) : calm m -> active (f tt) -> active (m ≫= f).
Proof.
  intros Hm Hf s Hs. apply wlp_bind. eapply wlp_mono; [by apply Hm|].
  intros [] s' es (Hs' & He & Hp & Hk). eapply wlp_mono; [by apply Hf|].
  simpl. intros _ s'' es' (? & ? & Hl). rewrite persists_app, Hp.
  split_and!; [done|by apply Forall_app|by eapply leaves_after].
Qed.

Lemma calm_this (f : RaftNode -> M unit) :
  (forall s0, node_typed s0 -> calm (f s0)) -> calm (this ≫= f).
Proof. intros Hf s Hs. apply wlp_bind. intros ? ? ? [= <- <- <-]. by apply Hf. Qed.

Lemma active_this (f : RaftNode -> M unit) :
  (forall s0, node_typed s0 -> active (f s0)) -> active (this ≫= f).
Proof. intros Hf s Hs. apply wlp_bind. intros ? ? ? [= <- <- <-]. by apply Hf. Qed.

Lemma calm_skip : calm skip.
Proof. intros s Hs ? ? ? [= <- <- <-]. split_and!; [done..|apply keeps_refl]. Qed.

Lemma calm_modify g :
  (forall s, node_typed s -> node_typed (g s) /\ keeps (pending_storage_ s) (pending_storage_ (g s))) ->
  calm (modify g).
Proof. intros Hg s Hs ? ? ? [= <- <- <-]. destruct (Hg s Hs). by split_and!. Qed.

Lemma calm_emit e : effect_fits e -> effect_persist e = None -> calm (emit e).
Proof.
  intros He Hp s Hs ? ? ? [= <- <- <-]. unfold persists. simpl. rewrite Hp.
  split_and!; [done|by constructor|done|apply keeps_refl].
Qed.

Lemma calm_when b m : (b = true -> calm m) -> calm (when b m).
Proof. destruct b; [auto|]. intros _. apply calm_skip. Qed.

Lemma active_when b m : (b = true -> active m) -> active (when b m).
Proof. destruct b; [auto|]. intros _. apply calm_active, calm_skip. Qed.

Lemma calm_for_each {A} (l : list A) f : (forall x, x ∈ l -> calm (f x)) -> calm (for_each l f).
Proof.
  induction l as [|x l IH]; intros Hf; simpl; [apply calm_skip|].
  apply calm_bind; [apply Hf, list_elem_of_here|]. intros _. apply IH.
  intros y Hy. by apply Hf, list_elem_of_further.
Qed.

(** A computation from one state, with a fact [R] about the state it leaves. *)
Definition active_at (m : M unit) (s : RaftNode) : Prop :=
  wlp m (fun _ s' es => node_typed s' /\ Forall effect_fits es /\
    leaves (pending_storage_ s) (persists es) (pending_storage_ s')) s.

Lemma active_at_bind (R : RaftNode -> Prop) (m : M unit) (f : unit -> M unit) s :
  node_typed s -> calm m -> wlp m (fun _ s' _ => R s') s ->
  (forall s', node_typed s' -> R s' -> active_at (f tt) s') -> active_at (m ≫= f) s.
Proof.
  intros Hs Hm HR Hf. apply wlp_bind. intros [] s' es He.
  destruct (Hm s Hs _ _ _ He) as (Hs' & Hfit & Hp & Hk).
  eapply wlp_mono; [apply Hf; [done|by apply (HR _ _ _ He)]|]. simpl.
  intros _ s'' es' (? & ? & Hl). rewrite persists_app, Hp.
  split_and!; [done|by apply Forall_app|by eapply leaves_after].
Qed.

(** What remains after [m] when a batch may be pending: [f] does nothing then. *)
Lemma active_guard (m : M unit) (f : unit -> M unit) s :
  active_at m s ->
  (forall s, node_typed s -> pending_storage_ s = None -> active_at (f tt) s) ->
  (forall s, pending_storage_ s <> None -> f tt s = Returns (tt, s, [])) ->
  active_at (m ≫= f) s.
Proof.
  intros Hm Hf Hg. apply wlp_bind. eapply wlp_mono; [exact Hm|].
  intros [] s' es (Hs' & He & Hl). destruct (pending_storage_ s') as [q|] eqn:Hq.
  - intros ? ? ?. rewrite Hg by congruence. intros [= <- <- <-].
    rewrite !app_nil_r. split_and!; [done..|]. by rewrite Hq.
  - eapply wlp_mono; [by apply Hf|]. simpl. intros _ s'' es' (? & ? & Hl').
    rewrite persists_app. destruct Hl as [[-> Hk]|(q & ? & ?)]; [|done].
    split_and!; [done|by apply Forall_app|]. rewrite Hq in Hl'. by eapply leaves_after.
Qed.

End typed.

(** The fields a change of the node touches. *)
Ltac typed_fields :=
  apply calm_modify; intros ? []; split;
    [constructor; simpl; try done; auto with fits|try (by right); try (by left)].

Create HintDb calm.
#[export] Hint Constants Opaque : calm.
#[export] Hint Constants Opaque : fits.
#[export] Hint Resolve calm_skip : calm.

(** Decomposes a computation into its steps; the lemmas of the database [calm]
    close the calls, the database [fits] the ranges. *)
Ltac calm_step :=
  first
    [ assumption | solve [eauto 4 with calm fits nocore]
    | apply calm_skip | apply calm_this; intros ? ? | apply calm_emit; [|reflexivity]
    | apply calm_for_each; intros ? ? | apply calm_when; intros ?
    | apply calm_bind; [|intros ?]
    | case_match ].
Ltac solve_calm := repeat calm_step; try exact I.

(** ** The fields of a node *)

Section setters.
Context {W : Width} (cfg : RaftConfig).
Implicit Types (s : RaftNode).

Lemma calm_set_role v : calm cfg (modify (set_role v)).
Proof. typed_fields. Qed.
Lemma calm_set_ready v : calm cfg (modify (set_leader_ready v)).
Proof. typed_fields. Qed.
Lemma calm_set_started v : calm cfg (modify (set_started v)).
Proof. typed_fields. Qed.
Lemma calm_no_hint : calm cfg (modify (set_leader_hint None)).
Proof. typed_fields. Qed.
Lemma calm_set_hint v : id_fits v -> calm cfg (modify (set_leader_hint v)).
Proof. intros H. typed_fields. Qed.
Lemma calm_set_readiness i : u64 i -> calm cfg (modify (set_readiness_index i)).
Proof. intros H. typed_fields. Qed.
Lemma calm_set_votes v : set_Forall u32 v -> calm cfg (modify (set_votes_received v)).
Proof. intros H. typed_fields. Qed.
Lemma calm_no_votes : calm cfg (modify (set_votes_received ∅)).
Proof. apply calm_set_votes. by intros x ?%elem_of_empty. Qed.
Lemma calm_election_generation : calm cfg (modify (fun s => set_election_generation (add64 (election_generation_ s) 1) s)).
Proof. typed_fields. Qed.
Lemma calm_heartbeat_generation : calm cfg (modify (fun s => set_heartbeat_generation (add64 (heartbeat_generation_ s) 1) s)).
Proof. typed_fields. Qed.
Lemma calm_set_op i : u64 i -> calm cfg (modify (set_next_storage_op_id i)).
Proof. intros H. typed_fields. Qed.
Lemma calm_set_rpc i : u64 i -> calm cfg (modify (set_next_rpc_id i)).
Proof. intros H. typed_fields. Qed.
Lemma calm_set_applied i : u64 i -> calm cfg (modify (set_last_applied i)).
Proof. intros H. typed_fields. Qed.
Lemma calm_set_machine m : machine_fits m -> calm cfg (modify (set_state_machine m)).
Proof. intros H. typed_fields. Qed.
Lemma calm_set_commit i : u64 i -> calm cfg (modify (set_commit_index i)).
Proof. intros H. typed_fields. Qed.
Lemma calm_drop_pending : calm cfg (modify (set_pending_storage None)).
Proof. typed_fields. Qed.

Lemma calm_set_deferred l :
  Forall (fun ev => event_fits ev /\ is_storage_complete ev = false) l -> calm cfg (modify (set_deferred_events l)).
Proof. intros H. typed_fields. Qed.
Lemma calm_no_deferred : calm cfg (modify (set_deferred_events [])).
Proof. apply calm_set_deferred. constructor. Qed.

Lemma calm_set_hard_state h :
  u64 (current_term h) ->
  (forall v, voted_for h = Some v -> v ∈ members cfg /\ 1 <= current_term h) ->
  calm cfg (modify (set_hard_state h)).
Proof. intros H1 H2. typed_fields. Qed.

Lemma calm_set_log f :
  (forall log, Forall (entry_good cfg) log -> Forall (entry_good cfg) (f log)) ->
  calm cfg (modify (fun s => set_log (f (log_ s)) s)).
Proof. intros H. typed_fields. Qed.
Lemma calm_set_log_to log : Forall (entry_good cfg) log -> calm cfg (modify (set_log log)).
Proof. intros H. apply (calm_set_log (fun _ => log)). auto. Qed.

Lemma calm_set_peers m :
  map_Forall (fun x p => x ∈ members cfg /\ progress_fits p) m -> calm cfg (modify (set_peers m)).
Proof. intros H. typed_fields. Qed.
Lemma calm_no_peers : calm cfg (modify (set_peers ∅)).
Proof. apply calm_set_peers, map_Forall_empty. Qed.
Lemma calm_put_peer s x p :
  node_typed cfg s -> is_Some (peers_ s !! x) -> progress_fits p -> calm cfg (modify (set_peers (<[x := p]> (peers_ s)))).
Proof.
  intros Hs [q Hx] Hp. apply calm_set_peers, map_Forall_insert_2; [|exact (ty_peers _ _ Hs)].
  split; [|done]. by apply (ty_peers _ _ Hs) in Hx as [? _].
Qed.

Lemma calm_set_clients m :
  map_Forall (fun i p => u64 i /\ client_fits (max_waiters_per_request cfg) p) m -> calm cfg (modify (set_pending_clients m)).
Proof. intros H. typed_fields. Qed.
Lemma calm_no_clients : calm cfg (modify (set_pending_clients ∅)).
Proof. apply calm_set_clients, map_Forall_empty. Qed.
Lemma calm_drop_client i : calm cfg (modify (fun s => set_pending_clients (delete i (pending_clients_ s)) s)).
Proof. typed_fields. by apply map_Forall_delete. Qed.
Lemma calm_put_client s i p :
  node_typed cfg s -> u64 i -> client_fits (max_waiters_per_request cfg) p ->
  calm cfg (modify (set_pending_clients (<[i := p]> (pending_clients_ s)))).
Proof. intros Hs Hi Hp. apply calm_set_clients, map_Forall_insert_2; [done|exact (ty_clients _ _ Hs)]. Qed.

Lemma calm_set_sessions m :
  map_Forall (fun x i => session_fits x /\ u64 i) m -> calm cfg (modify (set_pending_sessions m)).
Proof. intros H. typed_fields. Qed.
Lemma calm_no_sessions : calm cfg (modify (set_pending_sessions ∅)).
Proof. apply calm_set_sessions, map_Forall_empty. Qed.
Lemma calm_drop_session x : calm cfg (modify (fun s => set_pending_sessions (delete x (pending_sessions_ s)) s)).
Proof. typed_fields. by apply map_Forall_delete. Qed.
Lemma calm_forget_session s x : node_typed cfg s -> calm cfg (modify (set_pending_sessions (delete x (pending_sessions_ s)))).
Proof. intros Hs. apply calm_set_sessions, map_Forall_delete, (ty_sessions _ _ Hs). Qed.
Lemma calm_put_session s x i :
  node_typed cfg s -> session_fits x -> u64 i -> calm cfg (modify (set_pending_sessions (<[x := i]> (pending_sessions_ s)))).
Proof. intros Hs Hx Hi. apply calm_set_sessions, map_Forall_insert_2; [done|exact (ty_sessions _ _ Hs)]. Qed.
End setters.
#[export] Hint Resolve calm_set_role calm_set_ready calm_set_started calm_no_hint calm_set_readiness calm_no_votes
  calm_election_generation calm_heartbeat_generation calm_set_op calm_set_rpc calm_set_applied calm_drop_pending
  calm_no_deferred calm_no_peers calm_no_clients calm_drop_client calm_no_sessions calm_drop_session calm_forget_session : calm.
#[export] Hint Resolve ty_hs ty_dlast ty_commit ty_applied ty_ready ty_op ty_rpc ty_election ty_heartbeat : fits.

Section calm_calls.
Context {W : Width} (cfg : RaftConfig) (Hself : node_id cfg ∈ members cfg) (Hids : Forall u32 (members cfg)).
Context (Htimers : wide (election_timeout cfg) /\ wide (heartbeat_interval cfg)).

Lemma self_u32 : u32 (node_id cfg).
Proof. rewrite Forall_forall in Hids. by apply Hids. Qed.

Lemma member_u32 x : x ∈ members cfg -> u32 x.
Proof. rewrite Forall_forall in Hids. apply Hids. Qed.

Lemma calm_trace k d i : u64 i -> calm cfg (trace k d i).
Proof.
  intros Hi. unfold trace. apply calm_this. intros s Hs. apply calm_emit; [|done].
  rewrite (ty_config _ _ Hs). split_and!; [apply self_u32|exact (ty_hs _ _ Hs)|done].
Qed.
Hint Resolve calm_trace : calm.

Lemma calm_emit_reply t st v i : wide t -> u64 i -> calm cfg (emit_reply t st v i).
Proof.
  intros Ht Hi. unfold emit_reply. apply calm_this. intros s Hs. apply calm_bind; [|intros _; by apply calm_trace].
  apply calm_emit; [|done]. split_and!; [done| |done]. simpl. case_decide; [|exact (ty_hint _ _ Hs)].
  rewrite (ty_config _ _ Hs). apply self_u32.
Qed.
Hint Resolve calm_emit_reply : calm.

Lemma calm_schedule_election : calm cfg schedule_election.
Proof.
  unfold schedule_election. apply calm_bind; [auto with calm nocore|]. intros []. apply calm_this. intros s Hs.
  apply calm_emit; [|done]. rewrite (ty_config _ _ Hs). split; [apply Htimers|exact (ty_election _ _ Hs)].
Qed.
Lemma calm_schedule_heartbeat : calm cfg schedule_heartbeat.
Proof.
  unfold schedule_heartbeat. apply calm_bind; [auto with calm nocore|]. intros []. apply calm_this. intros s Hs.
  apply calm_emit; [|done]. rewrite (ty_config _ _ Hs). split; [apply Htimers|exact (ty_heartbeat _ _ Hs)].
Qed.
Hint Resolve calm_schedule_election calm_schedule_heartbeat : calm.

(** A reply to every waiter of an entry. *)
Lemma calm_reply_waiters p st v i :
  client_fits (max_waiters_per_request cfg) p -> u64 i ->
  calm cfg (for_each (pc_waiters p) (fun token => emit_reply token st v i)).
Proof.
  intros (_ & _ & Hw & _) Hi. rewrite Forall_forall in Hw. apply calm_for_each. intros x Hx. by apply calm_emit_reply; [apply Hw|].
Qed.

Lemma clients_item s p :
  node_typed cfg s -> p ∈ sorted_items (pending_clients_ s) ->
  u64 p.1 /\ client_fits (max_waiters_per_request cfg) p.2.
Proof using. intros Hs Hp. destruct p as [i q]. apply elem_of_sorted_items in Hp. by apply (ty_clients _ _ Hs) in Hp. Qed.

Lemma calm_reply_storage_error p :
  u64 p.1 -> client_fits (max_waiters_per_request cfg) p.2 -> calm cfg (reply_storage_error p).
Proof. intros Hi Hp. by apply calm_reply_waiters. Qed.
Lemma calm_reply_deferred_error ev : event_fits ev -> calm cfg (reply_deferred_error ev).
Proof. unfold reply_deferred_error. destruct ev; simpl; intros He; [apply calm_skip..|]. destruct He. auto with calm fits nocore. Qed.

Lemma calm_answer_waiters r : calm cfg (answer_waiters r).
Proof.
  unfold answer_waiters. apply calm_this. intros s Hs. destruct (pending_clients_ s !! last_applied_ s) as [p|] eqn:Hp; [|solve_calm].
  apply (ty_clients _ _ Hs) in Hp as [Hi Hp]. apply calm_bind; [by apply calm_reply_waiters|]. intros _. solve_calm.
Qed.

Lemma calm_remove_pending_from i : calm cfg (remove_pending_from i).
Proof.
  unfold remove_pending_from. apply calm_this. intros s Hs. apply calm_for_each.
  intros p [_ Hp]%list_elem_of_filter. apply (clients_item s p Hs) in Hp as [Hi Hp].
  unfold remove_pending. apply calm_bind; [by apply calm_reply_waiters|]. intros _. solve_calm.
Qed.
Hint Resolve calm_answer_waiters calm_remove_pending_from : calm.

Lemma calm_send_message to m : u32 to -> message_fits m -> calm cfg (send_message to m).
Proof.
  intros Hto Hm. unfold send_message. apply calm_bind; [auto with calm fits nocore|]. intros _. apply calm_this. intros s Hs.
  apply calm_emit; [|done]. split_and!; [|done..]. simpl. rewrite (ty_config _ _ Hs). apply self_u32.
Qed.

Lemma calm_fail_storage d : calm cfg (fail_storage d).
Proof.
  unfold fail_storage. repeat (apply calm_bind; [solve [eauto with calm fits nocore]|intros _]). apply calm_this. intros s Hs.
  apply calm_bind; [|intros _].
  { apply calm_for_each. intros p Hp. apply (clients_item s p Hs) in Hp as [Hi Hp]. by apply calm_reply_storage_error. }
  do 2 (apply calm_bind; [solve [eauto with calm fits nocore]|intros _]). apply calm_bind; [|intros _; apply calm_no_deferred].
  apply calm_for_each. intros ev He. pose proof (ty_deferred _ _ Hs) as Hd. rewrite Forall_forall in Hd.
  by apply calm_reply_deferred_error, Hd.
Qed.
Hint Resolve calm_fail_storage : calm.

(** ** Persisting *)

Lemma active_persist q d :
  u64 (ps_op_id q) -> batch_fits (ps_batch q) -> after_fits (ps_after_success q) ->
  active cfg (modify (set_pending_storage (Some q)) ;; trace storage_begin d 0 ;;
              emit (PersistEffect (ps_op_id q) (ps_batch q))).
Proof.
  intros Ho Hb Hk s Hs ? ? ? [= <- <- <-]. split_and!.
  - destruct Hs. constructor; simpl; try done. by intros p [= <-].
  - apply Forall_cons. split; [|by apply Forall_singleton]. simpl. rewrite (ty_config _ _ Hs).
    split_and!; [apply self_u32|exact (ty_hs _ _ Hs)|done].
  - right. by exists q.
Qed.

Lemma active_begin_persist b k run :
  batch_fits b -> after_fits k -> active cfg run -> active cfg (begin_persist b k run).
Proof.
  intros Hb Hk Hrun. unfold begin_persist. case_match; [done|]. apply active_this. intros s Hs.
  case_match; [by intros s1 _ ? ? ? [=]|]. case_match; [apply calm_active; solve_calm|].
  apply active_bind; [solve_calm|].
  by apply (active_persist (mkPendingStorage (next_storage_op_id_ s) b k) _ (ty_op _ _ Hs)).
Qed.

Lemma active_persist_or_run b k run :
  batch_fits b -> after_fits k -> active cfg run -> active cfg (persist_or_run b k run).
Proof.
  intros Hb Hk Hrun. unfold persist_or_run. case_match; [done|]. by apply active_begin_persist.
Qed.

Lemma hard_state_batch_fits s : node_typed cfg s -> batch_fits (hard_state_batch (hard_state_ s)).
Proof.
  intros []. unfold batch_fits. simpl. split_and!; [done| |done..].
  destruct (voted_for (hard_state_ s)) as [v|] eqn:Hv; [|done]. apply member_u32. by apply ty_vote0.
Qed.

(** ** Replication, application and commitment *)

Lemma term_at_fits s i : node_typed cfg s -> u64 (term_at s i).
Proof using.
  intros []. unfold term_at, entry_at, log_at. case_match eqn:He; [|done].
  case_match; [done|]. by apply (Forall_lookup_1 _ _ _ _ ty_log0) in He as [(_ & ? & _) _].
Qed.

Lemma collect_entries_sub b l e : e ∈ collect_entries cfg b l -> e ∈ l.
Proof using.
  revert b. induction l as [|x l IH]; intros b; simpl; [done|]. case_match; [by intros ?%not_elem_of_nil|].
  rewrite !elem_of_cons. intros [?|?]; [by left|right; eauto].
Qed.

Lemma log_entries_fit s (l : list LogEntry) :
  node_typed cfg s -> (forall e, e ∈ l -> e ∈ log_ s) -> Forall entry_fits l.
Proof using.
  intros [] Hsub. apply Forall_forall. intros e He. rewrite Forall_forall in ty_log0.
  by apply ty_log0, Hsub.
Qed.

Lemma u64_clamp v lo hi : u64 v -> u64 lo -> u64 hi -> u64 (clamp v lo hi).
Proof using. intros ? ? ?. unfold clamp. by repeat case_match. Qed.

Lemma calm_send_append peer : calm cfg (send_append peer).
Proof.
  unfold send_append. apply calm_this. intros s Hs. case_match; [solve_calm|].
  destruct (peers_ s !! peer) as [pr|] eqn:Hpr; [|solve_calm]. pose proof (ty_peers _ _ Hs _ _ Hpr) as [Hmem (Hn & Hm & Ha & Hi)].
  case_match; [solve_calm|]. cbv zeta. pose proof (u64_clamp _ 1 _ Hn u64_one (u64_add (durable_last_log_index_ s) 1)) as Hc.
  apply calm_bind; [by apply calm_put_peer|]. intros _.
  rewrite (ty_config _ _ Hs). case_match; [solve_calm|]. pose proof (ty_rpc _ _ Hs) as Hrpc.
  apply calm_bind; [apply calm_set_rpc, u64_add|]. intros _.
  apply calm_bind; [apply calm_put_peer; [done..|]; split_and!; simpl; auto with fits|]. intros _.
  apply calm_send_message; [by apply member_u32|]. simpl. split_and!; eauto with fits nocore.
  - apply self_u32.
  - by apply term_at_fits.
  - eapply (log_entries_fit s); [done|]. intros e He%collect_entries_sub.
    apply elem_of_take in He as (i & He & _). rewrite lookup_drop in He. by eapply list_elem_of_lookup_2.
Qed.
Hint Resolve calm_send_append : calm.

Lemma calm_send_all_appends : calm cfg send_all_appends.
Proof. unfold send_all_appends. solve_calm. Qed.
Hint Resolve calm_send_all_appends : calm.

Lemma hash_byte_fits h b : u64 (hash_byte h b).
Proof using. apply wrap64_range. Qed.

Lemma digest_fits c : u64 (command_digest c).
Proof using.
  unfold command_digest, hash_string. generalize (string_bytes (value c)). intros l. rewrite <- (rev_involutive l).
  destruct (rev l) as [|x r]; simpl; [apply hash_byte_fits|]. rewrite foldl_snoc. apply hash_byte_fits.
Qed.

Lemma apply_fits m c : machine_fits m -> command_fits c -> machine_fits (kv_apply m c).2.
Proof using.
  intros Hm (H1 & H2 & H3). unfold kv_apply. case_match; [done|]. case_match; [done|].
  destruct (execute _ _) as [result vs]. apply map_Forall_insert_2; [|done]. split_and!; [by split|done|apply digest_fits].
Qed.

Lemma calm_apply_loop n : calm cfg (apply_loop n).
Proof.
  induction n as [|n IH]; simpl; [solve_calm|]. apply calm_this. intros s Hs. case_match; [|solve_calm].
  apply calm_bind; [solve_calm|]. intros _. apply calm_this. intros s1 Hs1.
  destruct (entry_at s1 (last_applied_ s1)) as [e|] eqn:He; [|solve_calm].
  assert (Hm : machine_fits (match command e with Some c => kv_apply (state_machine_ s1) c | None => (default_result, state_machine_ s1) end).2).
  { pose proof (ty_machine _ _ Hs1) as Hm. destruct (command e) as [c|] eqn:Hc; [|done]. apply apply_fits; [done|].
    unfold entry_at, log_at in He. destruct (_ || _); [done|].
    apply (Forall_lookup_1 _ _ _ _ (ty_log _ _ Hs1)) in He as [(_ & _ & Hf) _]. by rewrite Hc in Hf. }
  destruct (match command e with Some c => _ | None => _ end) as [r sm]. simpl in Hm.
  apply calm_bind; [by apply calm_set_machine|]. intros _. solve_calm.
Qed.

Lemma calm_apply_committed : calm cfg apply_committed.
Proof. unfold apply_committed. pose proof calm_apply_loop. solve_calm. Qed.
Hint Resolve calm_apply_committed : calm.

Lemma calm_advance_commit : calm cfg run_advance_commit.
Proof. unfold run_advance_commit. solve_calm. Qed.

Lemma commit_target_le s n : commit_target s n <= commit_index_ s + N.of_nat n.
Proof using. induction n as [|n IH]; simpl; [lia|]. repeat case_match; lia. Qed.

Lemma commit_target_fits s :
  node_typed cfg s -> u64 (commit_target s (N.to_nat (durable_last_log_index_ s - commit_index_ s))).
Proof using.
  intros []. unfold u64 in *.
  pose proof (commit_target_le s (N.to_nat (durable_last_log_index_ s - commit_index_ s))). lia.
Qed.

Lemma active_maybe_advance_commit : active cfg maybe_advance_commit.
Proof.
  unfold maybe_advance_commit. apply active_this. intros s Hs.
  pose proof (commit_target_fits s Hs). case_match; [apply calm_active; solve_calm|].
  case_match; [apply calm_active; solve_calm|].
  apply active_bind; [by apply calm_set_commit|].
  by apply active_begin_persist; [split_and!| |apply calm_active, calm_advance_commit].
Qed.

(** ** Elections *)

Lemma calm_step_down t hint b : u64 t -> id_fits hint -> calm cfg (step_down t hint b).
Proof.
  intros Ht Hh. unfold step_down. pose proof (calm_set_hint cfg hint Hh).
  assert (calm cfg (modify (set_hard_state (mkHardState t None)))) by by apply calm_set_hard_state.
  solve_calm.
Qed.

Lemma calm_begin_election_closure : calm cfg run_begin_election.
Proof.
  unfold run_begin_election. apply calm_this. intros s Hs. case_match; [solve_calm|].
  apply calm_bind; [solve_calm|]. intros _. rewrite (ty_config _ _ Hs).
  apply calm_for_each. intros x Hx. case_match; [|solve_calm].
  apply calm_send_message; [by apply member_u32|]. pose proof Hs as []. simpl.
  split_and!; [done|apply self_u32|done|by apply term_at_fits].
Qed.

Lemma active_begin_election : active cfg begin_election.
Proof.
  unfold begin_election. apply active_this. intros s Hs. case_match eqn:Hmax; [apply calm_active; solve_calm|].
  apply N.eqb_neq in Hmax. pose proof Hs as [].
  assert (calm cfg (modify (set_hard_state (mkHardState (add64 (current_term (hard_state_ s)) 1)
            (Some (node_id (config_ s))))))).
  { apply calm_set_hard_state; simpl; auto with fits. intros v [= <-]. rewrite ty_config0.
    split; [done|]. unfold u64 in *. rewrite add64_small by lia. lia. }
  assert (calm cfg (modify (set_votes_received {[ node_id (config_ s) ]}))).
  { apply calm_set_votes. intros x ->%elem_of_singleton. rewrite ty_config0. apply self_u32. }
  repeat (apply active_bind; [solve [solve_calm]|]). apply active_this. intros s1 Hs1.
  apply active_begin_persist; [by apply hard_state_batch_fits|done|].
  apply calm_active, calm_begin_election_closure.
Qed.

Lemma active_become_leader_closure : active cfg run_become_leader.
Proof.
  unfold run_become_leader. apply active_this. intros s Hs. case_match; [apply calm_active; solve_calm|].
  repeat (apply active_bind; [solve [solve_calm]|]). apply active_maybe_advance_commit.
Qed.

Lemma initial_peers_fit s :
  config_ s = cfg -> map_Forall (fun x p => x ∈ members cfg /\ progress_fits p) (initial_peers s).
Proof using.
  intros Hc. unfold initial_peers. rewrite Hc.
  set (f := fun (m : gmap N PeerProgress) (member : N) => _).
  assert (Hf : forall l m, (forall x, x ∈ l -> x ∈ members cfg) ->
    map_Forall (fun x p => x ∈ members cfg /\ progress_fits p) m ->
    map_Forall (fun x p => x ∈ members cfg /\ progress_fits p) (foldl f m l)); [|apply Hf; [done|apply map_Forall_empty]].
  induction l as [|y l IH]; simpl; intros m Hl Hm; [done|]. apply IH; [intros x Hx; by apply Hl, list_elem_of_further|].
  unfold f. repeat case_match; try done. apply map_Forall_insert_2; [|done].
  split; [apply Hl, list_elem_of_here|]. split_and!; simpl; auto with fits.
Qed.

(** An entry a leader appends for itself. *)
Lemma no_op_good i t : u64 i -> u64 t -> entry_good cfg (mkLogEntry i t None).
Proof using.
  intros Hi Ht. split_and!; [done..|]. intros [Hr1 Hr2]. unfold sized, entry_bytes. simpl.
  unfold kEntryOverhead, kAppendRpcOverhead in *. rewrite sub64_small by lia. lia.
Qed.

Lemma active_become_leader : active cfg become_leader.
Proof.
  unfold become_leader. apply active_bind; [solve_calm|]. apply active_this. intros s Hs.
  assert (calm cfg (modify (set_peers (initial_peers s)))).
  { apply calm_set_peers, initial_peers_fit, (ty_config _ _ Hs). }
  assert (calm cfg (modify (set_leader_hint (Some (node_id (config_ s)))))).
  { apply calm_set_hint. simpl. rewrite (ty_config _ _ Hs). apply self_u32. }
  repeat (apply active_bind; [solve [solve_calm]|]). apply active_this. intros s1 Hs1.
  case_match; [apply calm_active; solve_calm|].
  case_match; [apply calm_active; solve_calm|]. pose proof Hs1 as [].
  assert (Hg : entry_good cfg (mkLogEntry (add64 (last_log_index s1) 1) (current_term (hard_state_ s1)) None)).
  { apply no_op_good; auto with fits. }
  apply active_bind; [apply calm_set_log_to, Forall_app; by split_and!; auto|]. cbn [index].
  repeat (apply active_bind; [solve [solve_calm]|]).
  apply active_begin_persist; [|done|apply active_become_leader_closure].
  split_and!; try done. repeat constructor; apply Hg.
Qed.

Lemma calm_vote_reply from grant wl : u32 from -> calm cfg (run_vote_reply from grant wl).
Proof.
  intros Hf. unfold run_vote_reply. apply calm_bind; [solve_calm|]. intros _.
  apply calm_bind; [solve_calm|]. intros _. apply calm_this. intros s [].
  by apply calm_send_message.
Qed.

Lemma step_down_term t hint s :
  wlp (step_down t hint false)
    (fun _ s' _ => current_term (hard_state_ s') = N.max (current_term (hard_state_ s)) t) s.
Proof using.
  assert (H : wps (step_down t hint false)
    (fun _ s' _ => current_term (hard_state_ s') = N.max (current_term (hard_state_ s)) t) s).
  { unfold step_down. wexec. destruct (N.ltb_spec (current_term (hard_state_ s)) t); wexec; simpl; lia. }
  intros a s' es He. by apply (wp_Returns _ _ _ _ _ _ H He).
Qed.

Lemma active_on_request_vote from m :
  from ∈ members cfg -> message_fits (MRequestVote m) -> active cfg (on_request_vote from m).
Proof.
  intros Hfrom (Ht & _ & _ & _). pose proof (member_u32 _ Hfrom) as Hf. unfold on_request_vote.
  intros s Hs. apply wlp_bind. intros ? ? ? [= <- <- <-].
  case_match eqn:Hbad; [by apply calm_active; [solve_calm|]|].
  apply orb_false_iff in Hbad as [Hz%N.eqb_neq Hc%negb_false_iff%N.eqb_eq].
  case_match eqn:Hlow; [by apply calm_active; [apply calm_send_message; [done|exact (ty_hs _ _ Hs)]|]|].
  apply N.ltb_ge in Hlow.
  apply (active_at_bind _ (fun s' => current_term (hard_state_ s') = rv_term m)); [done|..].
  { apply calm_when. intros _. by apply calm_step_down. }
  { destruct (N.ltb_spec (current_term (hard_state_ s)) (rv_term m)); simpl.
    - eapply wlp_mono; [apply step_down_term|]. simpl. intros _ s' _ ->. lia.
    - intros ? ? ? [= <- <- <-]. lia. }
  intros s1 Hs1 Hterm. apply wlp_bind. intros ? ? ? [= <- <- <-].
  match goal with |- wlp (if ?b then _ else _) _ _ => destruct b end.
  - refine (active_bind cfg _ _ _ _ s1 Hs1).
    + pose proof Hs1 as []. apply calm_set_hard_state; [done|]. simpl. intros v [= <-]. rewrite Hc.
      split; [done|lia].
    + apply active_this. intros s2 Hs2. apply active_persist_or_run; [by apply hard_state_batch_fits|done|].
      apply calm_active. by apply calm_vote_reply.
  - refine (active_persist_or_run _ _ _ _ _ _ s1 Hs1); [|done|apply calm_active; by apply calm_vote_reply].
    destruct (_ <? _); [by apply hard_state_batch_fits|done].
Qed.

Lemma active_higher_term t :
  u64 t ->
  active cfg (step_down t None false ;; s ← this;
              begin_persist (hard_state_batch (hard_state_ s)) after_step_down run_step_down).
Proof.
  intros Ht. apply active_bind; [by apply calm_step_down|]. apply active_this. intros s Hs.
  apply active_begin_persist; [by apply hard_state_batch_fits|done|].
  unfold run_step_down. apply calm_active. solve_calm.
Qed.

Lemma active_on_request_vote_response from m :
  u32 from -> message_fits (MRequestVoteResponse m) -> active cfg (on_request_vote_response from m).
Proof.
  intros Hf Ht. unfold on_request_vote_response. apply active_this. intros s Hs.
  case_match; [by apply active_higher_term|]. case_match; [apply calm_active; solve_calm|].
  assert (calm cfg (modify (set_votes_received ({[ from ]} ∪ votes_received_ s)))).
  { apply calm_set_votes. apply set_Forall_union; [by apply set_Forall_singleton|exact (ty_votes _ _ Hs)]. }
  repeat (apply active_bind; [solve [solve_calm]|]). apply active_this. intros s1 Hs1.
  apply active_when. intros _. apply active_become_leader.
Qed.

(** ** AppendEntries *)

Lemma entries_ok_sized t prev b es :
  roomy cfg -> kAppendRpcOverhead <= b <= max_append_bytes_per_rpc cfg ->
  entries_ok cfg t prev b es = true -> Forall (sized cfg) es.
Proof using.
  intros Hr. pose proof Hr as [Hr1 Hr2]. unfold kEntryOverhead, kAppendRpcOverhead in *.
  revert prev b. induction es as [|e es IH]; intros prev b Hb; simpl; [done|].
  case_match; [done|]. case_match eqn:Hfit; [done|]. case_match eqn:Hacc; [done|].
  apply N.ltb_ge in Hfit. rewrite sub64_small in Hfit by lia.
  rewrite !orb_false_iff, negb_false_iff in Hacc. destruct Hacc as [_ Hacc%negb_false_iff].
  rewrite (add64_small b) by lia. intros Hes. constructor; [|eapply IH; [|done]; lia].
  unfold sized, kAppendRpcOverhead. rewrite sub64_small by lia. lia.
Qed.

Lemma entries_ok_acceptable t prev b es :
  entries_ok cfg t prev b es = true -> Forall (fun e => entry_acceptable cfg e = true) es.
Proof using.
  revert prev b. induction es as [|e es IH]; intros prev b; simpl; [done|].
  case_match; [done|]. case_match; [done|]. case_match eqn:Hacc; [done|].
  rewrite !orb_false_iff, negb_false_iff in Hacc. destruct Hacc as [_ Hacc%negb_false_iff].
  intros Hes. constructor; [done|by eapply IH].
Qed.

Lemma valid_entries_good m :
  message_fits (MAppendEntries m) -> entries_valid cfg m = true ->
  Forall (entry_good cfg) (ae_entries m).
Proof using.
  intros (_ & _ & _ & _ & _ & Hes & _) [_ Hok]%andb_true_iff. apply Forall_forall. intros e He.
  split; [by eapply Forall_forall in He|].
  split; [apply entries_ok_acceptable in Hok; rewrite Forall_forall in Hok; by apply Hok|]. intros Hr. pose proof Hr as [Hr1 Hr2].
  apply entries_ok_sized in Hok; [by eapply Forall_forall in He|done|].
  unfold kEntryOverhead, kAppendRpcOverhead in *. lia.
Qed.

Lemma first_index_fits s i : u64 i -> u64 (first_index_of_term s i).
Proof using.
  intros Hi. unfold first_index_of_term. case_match eqn:Hz; [auto with fits|].
  apply orb_false_iff in Hz as [Hz%N.eqb_neq _].
  assert (Hle : forall t n, first_of_term s t n <= N.of_nat n + 1).
  { intros t n. induction n as [|n IH]; simpl; [lia|]. case_match; lia. }
  unfold u64 in *. specialize (Hle (term_at s i) (N.to_nat (i - 1))). lia.
Qed.

Lemma calm_append_reject from rpc ci ct :
  u32 from -> u64 rpc -> u64 ci -> u64 ct -> calm cfg (run_append_reject from rpc ci ct).
Proof.
  intros. unfold run_append_reject. apply calm_bind; [solve_calm|]. intros _. apply calm_this.
  intros s []. apply calm_send_message; [done|]. simpl. split_and!; auto with fits.
Qed.

Lemma calm_append_accept from rpc matched b :
  u32 from -> u64 rpc -> u64 matched -> calm cfg (run_append_accept from rpc matched b).
Proof.
  intros. unfold run_append_accept. apply calm_bind; [solve_calm|]. intros _.
  apply calm_bind; [solve_calm|]. intros _. apply calm_this.
  intros s []. apply calm_send_message; [done|]. simpl. split_and!; auto with fits.
Qed.

Lemma active_append_reject from m b ci ct :
  u32 from -> message_fits (MAppendEntries m) -> batch_fits b -> u64 ci -> u64 ct ->
  active cfg (append_reject from m b ci ct).
Proof.
  intros Hf (_ & _ & Hrpc & _) Hb Hci Hct. unfold append_reject.
  apply active_persist_or_run; [done|done|]. apply calm_active. by apply calm_append_reject.
Qed.

Lemma active_finish_append from m b :
  u32 from -> message_fits (MAppendEntries m) -> batch_fits b -> active cfg (finish_append from m b).
Proof.
  intros Hf (_ & _ & Hrpc & Hprev & _ & Hes & Hc) Hb. unfold finish_append. apply active_this. intros s Hs.
  set (matched := match last (ae_entries m) with Some e => index e | None => _ end).
  assert (Hm : u64 matched).
  { unfold matched. destruct (last (ae_entries m)) as [e|] eqn:He; [|done].
    apply last_Some_elem_of in He. rewrite Forall_forall in Hes. by apply Hes in He as [? _]. }
  case_match.
  - apply active_bind; [apply calm_set_commit, u64_min; by left|].
    apply active_persist_or_run; [|done|apply calm_active; by apply calm_append_accept].
    destruct Hb as (? & ? & ? & _). split_and!; try done. simpl. apply u64_min. by left.
  - apply active_persist_or_run; [done|done|]. apply calm_active. by apply calm_append_accept.
Qed.

Lemma adopt_suffix_typed b es i s :
  node_typed cfg s -> batch_fits b -> Forall (entry_good cfg) es -> u64 i ->
  wlp (adopt_suffix b es i) (fun b' s' es' => batch_fits b' /\ node_typed cfg s' /\
    Forall effect_fits es' /\ persists es' = [] /\
    keeps (pending_storage_ s) (pending_storage_ s')) s.
Proof.
  intros Hs (Hb1 & Hb2 & Hb3 & Hb4) Hes Hi.
  assert (Hfit : Forall entry_fits es) by (eapply Forall_impl; [done|]; by intros e []).
  set (rest := fun b' : PersistBatch => modify (fun s => set_log (log_ s ++ es) s) ;;
    trace log_change "accepted replicated log suffix" i).
  assert (Hrest : calm cfg (rest b)).
  { apply calm_bind; [|intros _; solve_calm].
    apply (calm_set_log cfg (fun log => log ++ es)). intros. by apply Forall_app. }
  unfold adopt_suffix. apply wlp_bind. intros ? ? ? [= <- <- <-].
  match goal with |- wlp (?c ≫= ?f) _ _ => set (cut := c) end.
  assert (Hcut : wlp cut (fun t s' es' => match t with Some j => u64 j | None => True end /\
    node_typed cfg s' /\ Forall effect_fits es' /\ persists es' = [] /\
    keeps (pending_storage_ s) (pending_storage_ s')) s).
  { unfold cut. destruct (i <=? last_log_index s).
    2: { intros ? ? ? Hret. injection Hret as <- <- <-. by split_and!; [..|right]. }
    assert (Hc : calm cfg (remove_pending_from i ;;
      modify (fun s => set_log (take (N.to_nat (i - 1)) (log_ s)) s))).
    { apply calm_bind; [solve_calm|]. intros _.
      apply (calm_set_log cfg (take (N.to_nat (i - 1)))). intros. by apply Forall_take. }
    intros t s' es'. unfold mbind, M_bind in *. destruct (remove_pending_from i s) as [[[[] s1] es1]|] eqn:E1; [|done].
    simpl. intros [= <- <- <-]. split; [done|]. rewrite app_nil_r. apply (Hc s Hs tt).
    unfold mbind, M_bind. rewrite E1. simpl. by rewrite app_nil_r. }
  apply wlp_bind. eapply wlp_mono; [exact Hcut|]. intros t s1 es1 (Ht & Hs1 & He1 & Hp1 & Hk1).
  intros b' s2 es2 H2.
  assert (Hb' : b' = mkPersistBatch (b_hard_state b) t es (b_commit_index b) /\
                rest b s1 = Returns (tt, s2, es2)).
  { unfold rest. cbv [mbind M_bind modify trace this emit mret M_ret] in *. simpl in *.
    injection H2 as <- <- <-. done. }
  destruct Hb' as [-> H2']. destruct (Hrest s1 Hs1 tt s2 es2 H2') as (? & ? & Hp2 & ?).
  rewrite app_nil_l, persists_app, Hp1, Hp2. split_and!; try done; [by apply Forall_app|by eapply keeps_trans].
Qed.

Lemma active_process_append from m b :
  u32 from -> message_fits (MAppendEntries m) -> batch_fits b -> active cfg (process_append from m b).
Proof.
  intros Hf Hm Hb. pose proof Hm as (_ & _ & _ & Hprev & _). unfold process_append.
  apply active_this. intros s Hs. rewrite (ty_config _ _ Hs).
  destruct (entries_valid cfg m) eqn:Hval; simpl; [|apply active_append_reject; auto with fits].
  case_match; [apply active_append_reject; auto with fits|].
  case_match; [apply active_append_reject; auto using first_index_fits, term_at_fits with fits|].
  pose proof (valid_entries_good m Hm Hval) as Hgood.
  apply (Forall_drop _ (matching_prefix (log_ s) (ae_entries m))) in Hgood.
  destruct (drop _ (ae_entries m)) as [|e es]; [by apply active_finish_append|].
  case_match; [apply calm_active; solve_calm|]. intros s1 Hs1. apply wlp_bind.
  eapply wlp_mono; [apply adopt_suffix_typed; try done|].
  { inversion Hgood as [|? ? [[? _] _] _]; by subst. }
  simpl. intros b' s2 es2 (Hb' & Hs2 & He2 & Hp2 & Hk2).
  eapply wlp_mono; [by apply active_finish_append|]. simpl. intros _ s3 es3 (? & ? & ?).
  rewrite persists_app, Hp2. split_and!; [done|by apply Forall_app|by eapply leaves_after].
Qed.

Lemma active_on_append_entries from m :
  u32 from -> message_fits (MAppendEntries m) -> active cfg (on_append_entries from m).
Proof.
  intros Hf Hm. pose proof Hm as (Ht & _ & Hrpc & Hprev & _). unfold on_append_entries.
  apply active_this. intros s Hs. case_match; [apply calm_active; solve_calm|].
  case_match.
  { apply calm_active, calm_send_message; [done|]. simpl. pose proof Hs as []. split_and!; auto with fits. }
  case_match.
  - apply active_bind; [by apply calm_step_down|]. apply active_this. intros s1 Hs1.
    apply active_process_append; [done..|]. by apply hard_state_batch_fits.
  - apply active_bind; [case_match; [by apply calm_step_down|by apply calm_set_hint]|].
    by apply active_process_append.
Qed.

Lemma next_probe_fits s pr m :
  node_typed cfg s -> u64 (next_index pr) -> u64 (match_index pr) -> u64 (aer_conflict_index m) -> u64 (next_probe s pr m).
Proof using.
  intros Hs Hn Hm Hc. unfold next_probe. apply u64_max2; [|auto with fits]. apply u64_min. right. auto with fits.
Qed.

Lemma active_on_append_entries_response from m :
  message_fits (MAppendEntriesResponse m) -> active cfg (on_append_entries_response from m).
Proof.
  intros (Ht & _ & _ & Hc & _). unfold on_append_entries_response. apply active_this. intros s Hs.
  case_match; [by apply active_higher_term|]. case_match; [apply calm_active; solve_calm|].
  destruct (peers_ s !! from) as [pr|] eqn:Hpr; [|apply calm_active; solve_calm].
  pose proof (ty_peers _ _ Hs _ _ Hpr) as [_ (Hn & Hm & _ & Hi)].
  destruct (inflight pr) as [sent|]; [|apply calm_active; solve_calm]. destruct Hi as (_ & _ & Hl).
  case_match; [apply calm_active; solve_calm|]. cbv zeta. cbn [match_index].
  assert (Hput : forall n k, u64 n -> u64 k -> calm cfg (modify (set_peers (<[from := mkPeerProgress n k None 0]> (peers_ s))))).
  { intros n k Hn' Hk. by apply calm_put_peer. }
  apply active_bind; [by apply Hput|]. case_match.
  - case_match; [apply calm_active; solve_calm|]. apply active_bind; [apply Hput; [apply u64_add|by apply u64_max2]|].
    intros s0 Hs0. apply active_guard; [by apply active_maybe_advance_commit|..].
    + intros s1 Hs1 Hp1. refine (calm_active cfg _ _ s1 Hs1). solve_calm.
    + intros s1 Hp1. cbv [mbind M_bind this]. destruct (pending_storage_ s1); [|done].
      simpl. by rewrite andb_false_r.
  - apply active_bind; [apply Hput; [by apply next_probe_fits|done]|]. apply calm_active. solve_calm.
Qed.

(** ** Clients and timers *)

Lemma client_entry_good i t c :
  u64 i -> u64 t -> command_fits c -> command_acceptable cfg c = true ->
  entry_good cfg (mkLogEntry i t (Some c)).
Proof using.
  intros Hi Ht Hc Hacc. split_and!; [done..|]. intros [Hr1 Hr2].
  apply andb_true_iff in Hacc as [_ Hs]. unfold command_size_within in Hs.
  rewrite !andb_true_iff, !N.leb_le in Hs. destruct Hs as [[_ Hk] Hv].
  unfold kEntryOverhead, kAppendRpcOverhead in *. rewrite sub64_small in Hv by lia.
  unfold sized, entry_bytes, kEntryOverhead, kAppendRpcOverhead. simpl. rewrite (sub64_small u64_max (string_size (value c))) by lia.
  rewrite (sub64_small u64_max (string_size (key c))) by lia. rewrite !sub64_small by lia.
  destruct (N.ltb_spec (u64_max - string_size (value c)) (string_size (key c))); [lia|].
  destruct (N.ltb_spec (u64_max - string_size (key c) - string_size (value c)) 64); [lia|]. simpl.
  rewrite (add64_small 64) by lia. rewrite add64_small by lia. lia.
Qed.

Lemma active_client_request_closure : active cfg run_client_request.
Proof.
  unfold run_client_request. apply active_this. intros s Hs. case_match; [apply calm_active; solve_calm|].
  apply active_bind; [solve_calm|]. apply active_maybe_advance_commit.
Qed.

Lemma active_append_client token c d :
  wide token -> u64 d -> command_fits c -> command_acceptable cfg c = true -> active cfg (append_client token c d).
Proof.
  intros Ht Hd Hc Hacc. unfold append_client. apply active_this. intros s Hs.
  case_match; [apply calm_active; solve_calm|]. case_match; [apply calm_active; solve_calm|].
  pose proof Hs as [].
  assert (Hg : entry_good cfg (mkLogEntry (add64 (last_log_index s) 1) (current_term (hard_state_ s)) (Some c))).
  { apply client_entry_good; auto with fits. }
  apply active_bind; [apply calm_set_log_to, Forall_app; by split_and!; auto|]. cbn [index].
  apply active_bind; [by apply calm_put_session; [|destruct Hc as (? & ? & _)|auto with fits]|].
  apply active_bind; [apply calm_put_client; [done|auto with fits|]|].
  { split_and!; [done|done|by apply Forall_singleton|simpl; lia]. }
  apply active_bind; [solve_calm|].
  apply active_begin_persist; [|done|apply active_client_request_closure].
  split_and!; try done. repeat constructor; apply Hg.
Qed.

Lemma active_admit_client token c d :
  wide token -> u64 d -> command_fits c -> command_acceptable cfg c = true -> active cfg (admit_client token c d).
Proof.
  intros Ht Hd Hc Hacc. unfold admit_client. apply active_this. intros s Hs.
  destruct (pending_sessions_ s !! session c) as [i|]; [|by apply active_append_client].
  destruct (pending_clients_ s !! i) as [p|] eqn:Hp.
  - apply (ty_clients _ _ Hs) in Hp as [Hi (H1 & H2 & H3 & H4)]. apply calm_active.
    do 2 (case_match; [solve_calm|]). rewrite (ty_config _ _ Hs). case_match eqn:Hw; [solve_calm|]. apply N.leb_gt in Hw.
    apply calm_put_client; [done..|]. split_and!; [done|done|by apply Forall_app_2; [|constructor]|].
    simpl. rewrite length_app. simpl. lia.
  - apply active_bind; [solve_calm|]. by apply active_append_client.
Qed.

Lemma active_on_client_request token c : wide token -> command_fits c -> active cfg (on_client_request token c).
Proof.
  intros Ht Hc. unfold on_client_request. apply active_this. intros s Hs. pose proof (digest_fits c) as Hd.
  do 3 (case_match; [apply calm_active; solve_calm|]). rewrite (ty_config _ _ Hs).
  destruct (command_acceptable cfg c) eqn:Hacc; simpl; [|apply calm_active; solve_calm].
  repeat case_match; try (by apply active_admit_client); apply calm_active; solve_calm.
Qed.

Lemma age_fits p : progress_fits p -> progress_fits (age_inflight cfg p).
Proof using.
  intros (H1 & H2 & H3 & H4). unfold age_inflight. destruct (inflight p) eqn:Hi; [|split_and!; try done; by rewrite Hi].
  case_match; split_and!; simpl; auto with fits.
Qed.

Lemma active_on_timer k g : active cfg (on_timer k g).
Proof.
  unfold on_timer. apply active_this. intros s Hs. destruct k.
  - case_match; [apply calm_active; solve_calm|apply active_begin_election].
  - apply calm_active. case_match; [solve_calm|].
    apply calm_bind; [|intros _; solve_calm]. apply calm_set_peers, map_Forall_fmap. rewrite (ty_config _ _ Hs).
    eapply map_Forall_impl; [exact (ty_peers _ _ Hs)|]. intros x p [? ?]. split; [done|by apply age_fits].
Qed.

Lemma active_on_message env : envelope_fits env -> active cfg (on_message env).
Proof.
  intros (Hf & _ & Hm). unfold on_message. apply active_this. intros s Hs.
  case_match eqn:Hbad; [apply calm_active; solve_calm|].
  apply orb_false_iff in Hbad as [_ Hmem%negb_false_iff%bool_decide_eq_true].
  rewrite (ty_config _ _ Hs) in Hmem. apply active_bind; [solve_calm|].
  destruct (env_message env) as [m|m|m|m].
  - by apply active_on_request_vote.
  - by apply active_on_request_vote_response.
  - by apply active_on_append_entries.
  - by apply active_on_append_entries_response.
Qed.

(** ** Storage completions *)

Lemma active_run_after k : after_fits k -> active cfg (run_after k).
Proof.
  intros Hk. destruct k; simpl in *.
  - apply calm_active, calm_begin_election_closure.
  - apply calm_active. by apply calm_vote_reply.
  - apply calm_active. unfold run_step_down. solve_calm.
  - apply active_become_leader_closure.
  - destruct Hk as (? & ? & ? & ?). apply calm_active. by apply calm_append_reject.
  - destruct Hk as (? & ? & ?). apply calm_active. by apply calm_append_accept.
  - apply active_client_request_closure.
  - apply calm_active, calm_advance_commit.
Qed.

Lemma mark_durable_typed b s :
  node_typed cfg s -> batch_fits b -> llen (log_ s) <= u64_max -> node_typed cfg (mark_durable b s).
Proof using.
  intros [] (Hh & _ & _ & Hc) Hlen. unfold mark_durable.
  destruct (b_hard_state b), (b_commit_index b), (negb _ || negb _); by constructor.
Qed.

Lemma storage_complete_typed op ok err s :
  node_typed cfg s -> llen (log_ s) <= u64_max -> active_at cfg (on_storage_complete op ok err) s.
Proof.
  intros Hs Hlen. unfold on_storage_complete. apply wlp_bind. intros ? ? ? [= <- <- <-].
  destruct (pending_storage_ s) as [q|] eqn:Hq; [|rewrite <- Hq; apply calm_active; [solve_calm|done]].
  case_match; [rewrite <- Hq; apply calm_active; [solve_calm|done]|].
  destruct (ty_pending _ _ Hs q Hq) as (_ & Hb & Hk). rewrite <- Hq.
  apply (active_at_bind _ (fun s' => llen (log_ s') <= u64_max)); [done|apply calm_drop_pending| |].
  { by intros ? ? ? [= <- <- <-]. }
  intros s1 Hs1 Hlen1. case_match; [apply calm_active; [solve_calm|done]|].
  apply wlp_bind. intros ? ? ? [= <- <- <-].
  pose proof (mark_durable_typed _ _ Hs1 Hb Hlen1) as Hs2.
  assert (Hp : pending_storage_ (mark_durable (ps_batch q) s1) = pending_storage_ s1).
  { unfold mark_durable. by repeat case_match. }
  rewrite <- Hp. refine (active_bind cfg _ _ _ _ _ Hs2); [solve_calm|by apply active_run_after].
Qed.

(** ** The whole call *)

Lemma active_dispatch ev :
  event_fits ev -> is_storage_complete ev = false -> active cfg (dispatch ev).
Proof.
  destruct ev; simpl; intros He Hc; try done;
    [apply active_on_timer|by apply active_on_message|destruct He; by apply active_on_client_request].
Qed.

Lemma drain_pending n s : pending_storage_ s <> None -> drain n s = Returns (tt, s, []).
Proof using.
  intros Hp. destruct n as [|n]; [done|]. simpl. cbv [mbind M_bind this].
  by destruct (pending_storage_ s).
Qed.

Lemma active_drain n : active cfg (drain n).
Proof.
  induction n as [|n IH]; simpl; [apply calm_active, calm_skip|].
  apply active_this. intros s Hs. case_match; [|apply calm_active, calm_skip].
  destruct (deferred_events_ s) as [|ev rest] eqn:Hd; [apply calm_active, calm_skip|].
  pose proof (ty_deferred _ _ Hs) as Hf. rewrite Hd in Hf. inversion Hf as [|? ? [He1 He2] Hrest]; subst.
  apply active_bind; [by apply calm_set_deferred|]. intros s1 Hs1.
  apply active_guard; [by apply active_dispatch|intros s2 Hs2 _; by apply IH|].
  intros s2 Hp2. by apply drain_pending.
Qed.

Lemma calm_defer ev : event_fits ev -> is_storage_complete ev = false -> calm cfg (defer ev).
Proof.
  intros He Hc. unfold defer. apply calm_this. intros s Hs.
  assert (calm cfg (modify (set_deferred_events (deferred_events_ s ++ [ev])))).
  { apply calm_set_deferred, Forall_app. split; [exact (ty_deferred _ _ Hs)|by repeat constructor]. }
  destruct ev as [| | |token cmd]; [solve_calm..|]. pose proof (proj1 He) as Ht. simpl in Ht. solve_calm.
Qed.

Lemma step_typed ev s :
  node_typed cfg s -> llen (log_ s) <= u64_max -> event_fits ev -> active_at cfg (step ev) s.
Proof.
  intros Hs Hlen He. unfold step. apply wlp_bind. intros ? ? ? [= <- <- <-].
  assert (Hrun : active_at cfg (dispatch ev) s ->
    active_at cfg (dispatch ev ;; s ← this; drain (length (deferred_events_ s))) s).
  { intros Hd. apply active_guard; [done|..].
    - intros s1 Hs1 _. revert s1 Hs1. apply active_this. intros s1 _. apply active_drain.
    - intros s1 Hp1. cbv [mbind M_bind this]. by rewrite drain_pending. }
  destruct (is_storage_complete ev) eqn:Hc.
  - rewrite !andb_false_r. apply Hrun. destruct ev; try done. by apply storage_complete_typed.
  - case_match; [by apply calm_active; [apply calm_defer|]|].
    case_match; [|apply Hrun; by apply active_dispatch]. apply calm_active; [|done].
    destruct ev as [| | |token cmd]; [apply calm_skip..|]. apply calm_emit_reply; [apply He|done].
Qed.

End calm_calls.

(** ** Construction and recovery *)

(** The durable state of a typed node. *)
Record disk_typed (cfg : RaftConfig) (r : RecoveredState) : Prop := {
  dt_term : u64 (current_term (rec_hard_state r));
  dt_vote : forall v, voted_for (rec_hard_state r) = Some v ->
            v ∈ members cfg /\ 1 <= current_term (rec_hard_state r);
  dt_log : Forall (entry_good cfg) (rec_log r);
  dt_wf : entries_wf 0 (current_term (rec_hard_state r)) (rec_log r);
  dt_len : llen (rec_log r) <= u64_max;
  dt_commit : rec_commit_index r <= llen (rec_log r);
}.

Lemma node_disk_typed {W : Width} cfg s : node_typed cfg s -> base_ok s -> disk_typed cfg (target (view s)).
Proof.
  intros [] []. constructor; simpl; try done. intros i e He. split; [rewrite (ok_log i e He); lia|].
  by apply (Forall_lookup_1 _ _ _ _ ok_terms) in He.
Qed.

Lemma replay_fits log : Forall entry_fits log -> machine_fits (replay empty_kv (log_commands log)).
Proof.
  intros Hl. assert (H0 : machine_fits empty_kv) by apply map_Forall_empty. revert H0. generalize empty_kv.
  induction Hl as [|e log (_ & _ & He) _ IH]; intros m Hm; [done|]. unfold log_commands. simpl.
  destruct (command e); simpl; apply IH; [by apply apply_fits|done].
Qed.

Lemma new_typed {W : Width} config r s :
  RaftNode_new config r = Returns s -> Forall u32 (members (config_ s)) -> disk_typed (config_ s) r ->
  node_typed (config_ s) s.
Proof.
  intros Hnew Hids []. rewrite Forall_forall in Hids. rewrite (new_state _ _ _ Hnew) in *. simpl in *. constructor; simpl; try done.
  all: try apply map_Forall_empty; try (by intros x ?%elem_of_empty); try (unfold u64 in *; lia).
  - split; [done|]. destruct (voted_for _) as [v|]; [|done]. by apply Hids, dt_vote0.
  - apply replay_fits. eapply Forall_impl; [apply Forall_take, dt_log0|]. by intros e [].
Qed.

(** The constructor accepts only a durable state of a typed node. *)
Lemma recovered_typed config r s :
  RaftNode_new config r = Returns s -> u64 (current_term (rec_hard_state r)) ->
  Forall entry_fits (rec_log r) -> disk_typed (config_ s) r.
Proof.
  intros Hnew Ht Hfit. destruct (new_log_ok _ _ _ Hnew) as (Hwf & Hlen & Hc).
  rewrite (new_state _ _ _ Hnew). constructor; simpl; try done.
  - intros v Hv. unfold RaftNode_new in Hnew. simpl in Hnew. case_match; [done|].
    rewrite Hv in Hnew. simpl in Hnew. case_match eqn:E; [done|]. apply orb_false_iff in E as [E1 E2].
    apply N.eqb_neq in E1. apply negb_false_iff, bool_decide_eq_true in E2. split; [done|lia].
  - unfold RaftNode_new in Hnew. simpl in Hnew. do 5 (case_match; [done|]). case_match eqn:Hlog; [done|].
    apply negb_false_iff in Hlog. clear -Hlog Hfit. revert Hlog. generalize 0 as off.
    induction Hfit as [|e log He _ IH]; intros off Hlog; [constructor|]. simpl in Hlog.
    case_match eqn:E; [done|]. rewrite !orb_false_iff in E. destruct E as [[_ Ea] Eb].
    apply negb_false_iff in Ea. apply N.ltb_ge in Eb. constructor; [by split|by eapply IH].
Qed.

Lemma recovered_log_good cfg t offset log :
  roomy cfg -> offset + llen log <= u64_max -> Forall (entry_good cfg) log ->
  entries_wf offset t log -> recovered_log_ok cfg t offset log = true.
Proof.
  intros Hr. unfold llen, entries_wf. revert offset.
  induction log as [|e log IH]; intros offset Hlen Hg Hwf; simpl in *; [done|].
  inversion Hg as [|? ? (_ & Hacc & He) Hg']; subst. pose proof (He Hr) as Hbytes. unfold sized in Hbytes.
  destruct (Hwf 0%nat e eq_refl) as [Hi Ht]. rewrite add64_small by lia.
  destruct (N.eqb_spec (index e) (offset + 1)); [|lia]. destruct (N.eqb_spec (term e) 0); [lia|].
  destruct (N.ltb_spec t (term e)); [lia|]. rewrite Hacc. simpl.
  destruct (N.ltb_spec (sub64 (max_append_bytes_per_rpc cfg) kAppendRpcOverhead) (entry_bytes e)); [lia|].
  apply IH; [lia|done|]. intros i e' He'. destruct (Hwf (S i) e' He'). lia.
Qed.

(** A node whose bounds leave room for its commands can restart from what it made
    durable. *)
Lemma new_returns config r0 s0 r :
  RaftNode_new config r0 = Returns s0 -> roomy (config_ s0) -> disk_typed (config_ s0) r ->
  exists s, RaftNode_new config r = Returns s.
Proof.
  intros Hnew Hr []. rewrite (new_state _ _ _ Hnew) in *. simpl in *.
  unfold RaftNode_new in *. simpl in *.
  case_match eqn:Hm; [done|]. case_match; [done|]. case_match eqn:Hb; [done|]. clear Hnew.
  assert (Hv : negb (is_none (voted_for (rec_hard_state r))) &&
    ((current_term (rec_hard_state r) =? 0) ||
     is_some_not_member (voted_for (rec_hard_state r)) (sort_members (members config))) = false).
  { destruct (voted_for (rec_hard_state r)) as [v|]; [|done]. simpl.
    destruct (dt_vote0 v eq_refl) as [Hin Hpos]. rewrite bool_decide_eq_true_2 by done.
    by destruct (N.eqb_spec (current_term (rec_hard_state r)) 0); [lia|]. }
  rewrite Hv. unfold llen in *. destruct (N.ltb_spec u64_max (N.of_nat (length (rec_log r)))); [lia|].
  assert (Hz : (current_term (rec_hard_state r) =? 0) && negb (is_none (voted_for (rec_hard_state r))) = false).
  { destruct (voted_for (rec_hard_state r)) as [v|]; [|by rewrite andb_false_r].
    destruct (dt_vote0 v eq_refl). by destruct (N.eqb_spec (current_term (rec_hard_state r)) 0); [lia|]. }
  rewrite Hz, recovered_log_good by done. simpl.
  destruct (N.ltb_spec (N.of_nat (length (rec_log r))) (rec_commit_index r)); [lia|]. eauto.
Qed.

(** ** Calls of a well-formed node *)

Section width.
Context {W : Width} (cfg : RaftConfig) (Htimers : wide (election_timeout cfg) /\ wide (heartbeat_interval cfg)).

Lemma step_fits soup ev s s' es :
  Forall u32 (members cfg) ->
  node_inv soup s -> node_typed cfg s -> event_fits ev -> step ev s = Returns (tt, s', es) ->
  node_typed cfg s' /\ Forall effect_fits es /\
  leaves (pending_storage_ s) (persists es) (pending_storage_ s').
Proof.
  intros Hids Hi Hs He Hst. pose proof (ok_base _ (inv_ok _ _ Hi)) as [].
  eapply (step_typed cfg); try done. rewrite <- (ty_config _ _ Hs). apply ok_cfg.
Qed.

Lemma start_fits s s' es :
  node_typed cfg s -> start s = Returns (tt, s', es) ->
  node_typed cfg s' /\ Forall effect_fits es /\ persists es = [] /\
  keeps (pending_storage_ s) (pending_storage_ s').
Proof.
  intros Hs Hst. assert (Hc : calm cfg start).
  { unfold start. pose proof (calm_schedule_election cfg Htimers). solve_calm. }
  by apply (Hc s Hs tt).
Qed.
End width.

(** Hosts ask for no width. *)
#[export] Existing Instance any_width.

Section calls.
Context (cfg : RaftConfig) (Hids : Forall u32 (members cfg)) (soup : MessageEnvelope -> Prop).

Lemma timers_any : wide (election_timeout cfg) /\ wide (heartbeat_interval cfg).
Proof using. done. Qed.

Lemma step_outcome ev s s' es :
  node_inv soup s -> node_typed cfg s -> event_fits ev -> step ev s = Returns (tt, s', es) ->
  node_typed cfg s' /\ Forall effect_fits es /\
  leaves (pending_storage_ s) (persists es) (pending_storage_ s').
Proof. by apply step_fits. Qed.

Lemma start_outcome s s' es :
  node_typed cfg s -> start s = Returns (tt, s', es) ->
  node_typed cfg s' /\ Forall effect_fits es /\ persists es = [] /\
  keeps (pending_storage_ s) (pending_storage_ s').
Proof using. by apply start_fits. Qed.

(** A completed batch is gone: the node waits for a new one or for none. *)
Lemma completion_leaves q err s s' es :
  node_inv soup s -> node_typed cfg s -> pending_storage_ s = Some q ->
  step (StorageComplete (ps_op_id q) true err) s = Returns (tt, s', es) ->
  leaves None (persists es) (pending_storage_ s').
Proof.
  intros Hi Hs Hq Hst. pose proof (ok_base _ (inv_ok _ _ Hi)) as [].
  assert (Hself : node_id cfg ∈ members cfg) by (rewrite <- (ty_config _ _ Hs); apply ok_cfg).
  destruct (ty_pending _ _ Hs q Hq) as (_ & Hb & Hk).
  set (m := modify (mark_durable (ps_batch q)) ;;
            trace storage_complete "storage operation completed" 0 ;;
            run_after (ps_after_success q)).
  set (s1 := set_pending_storage None s).
  assert (Heq : step (StorageComplete (ps_op_id q) true err) s =
    (m ;; s ← this; drain (length (deferred_events_ s))) s1).
  { assert (Hd : dispatch (StorageComplete (ps_op_id q) true err) s = m s1).
    { change (on_storage_complete (ps_op_id q) true err s = m s1). unfold on_storage_complete.
      unfold mbind at 1, M_bind at 1. unfold this at 1. rewrite Hq, N.eqb_refl. cbn [negb].
      unfold mbind at 1, M_bind at 1. unfold modify at 1. fold m. fold s1.
      by destruct (m s1) as [[[[] s2] es2]|]. }
    unfold step. unfold mbind at 1, M_bind at 1. unfold this at 1.
    cbn [is_storage_complete negb]. rewrite !andb_false_r.
    generalize (fun _ : unit => this ≫= fun s0 => drain (length (deferred_events_ s0))) as k. intros k.
    clearbody m. cbv [mbind M_bind]. rewrite Hd. destruct (m s1) as [[[[] s2] es2]|]; [|done].
    by destruct (k tt s2) as [[[[] s3] es3]|]. }
  rewrite Heq in Hst.
  assert (Hs1 : node_typed cfg s1).
  { by destruct (calm_drop_pending cfg s Hs _ _ _ eq_refl). }
  assert (Hm : active_at cfg m s1).
  { unfold m. apply wlp_bind. intros ? ? ? [= <- <- <-].
    pose proof (mark_durable_typed cfg _ _ Hs1 Hb ok_len) as Hs2.
    assert (Hp : pending_storage_ (mark_durable (ps_batch q) s1) = pending_storage_ s1).
    { unfold mark_durable. by repeat case_match. }
    rewrite <- Hp. refine (active_bind cfg _ _ _ _ _ Hs2); [by apply calm_trace|].
    by apply active_run_after. }
  refine (proj2 (proj2 (active_guard cfg m _ s1 Hm _ _ tt s' es Hst))).
  - intros s2 Hs2 _. revert s2 Hs2. apply active_this. intros s2 _. by apply active_drain.
  - intros s2 Hp2. cbv [mbind M_bind this]. by rewrite drain_pending.
Qed.

(** A failed completion persists nothing more. *)
Lemma failed_completion_quiet op err s s' es :
  node_inv soup s -> node_typed cfg s -> step (StorageComplete op false err) s = Returns (tt, s', es) ->
  persists es = [].
Proof.
  intros Hi Hs Hst. unfold step in Hst. cbv [mbind M_bind this] in Hst. simpl in Hst.
  rewrite !andb_false_r in Hst.
  assert (Hcalm : calm cfg (on_storage_complete op false err)).
  { assert (Hself : node_id cfg ∈ members cfg) by (rewrite <- (ty_config _ _ Hs); apply (ok_base _ (inv_ok _ _ Hi))).
    unfold on_storage_complete. pose proof (calm_fail_storage cfg Hself Hids) as Hf.
    pose proof (fun k d => calm_trace cfg Hself Hids k d 0 u64_zero) as Ht. simpl. solve_calm. }
  assert (Hwait : wps (on_storage_complete op false err)
    (fun _ s1 _ => pending_storage_ s1 <> None \/ deferred_events_ s1 = []) s).
  { destruct Hi. unfold on_storage_complete. wexec. destruct (pending_storage_ s) as [q|] eqn:Hq.
    - destruct (negb (ps_op_id q =? op)); wexec; [left; simpl; by rewrite Hq|]. simpl. apply wps_fail. intros p. by right.
    - wexec. right. simpl. destruct (deferred_events_ s); [done|]. by destruct (inv_waiting ltac:(done)). }
  destruct (on_storage_complete op false err s) as [[[[] s1] es1]|] eqn:E1; [|done].
  destruct (Hcalm s Hs _ _ _ E1) as (Hs1 & _ & Hp1 & _).
  apply (wp_Returns _ _ _ _ _ _ Hwait) in E1. simpl in Hst. destruct E1 as [Hp|Hd].
  - rewrite drain_pending in Hst by done. injection Hst as <- <-. by rewrite app_nil_r.
  - rewrite Hd in Hst. simpl in Hst. injection Hst as <- <-. by rewrite app_nil_r.
Qed.

(** A failed completion of the pending batch ends the node. *)
Lemma failed_completion_dead q err s s' es :
  node_inv soup s -> pending_storage_ s = Some q ->
  step (StorageComplete (ps_op_id q) false err) s = Returns (tt, s', es) ->
  role_ s' = unavailable /\ pending_storage_ s' = None.
Proof using.
  intros Hi Hq Hst.
  assert (Hw : wps (step (StorageComplete (ps_op_id q) false err))
    (fun _ s' _ => role_ s' = unavailable /\ pending_storage_ s' = None) s);
    [|exact (wp_Returns _ _ _ _ _ _ Hw Hst)].
  unfold step. wexec. rewrite !andb_false_r. unfold dispatch, on_storage_complete. wexec. rewrite Hq, N.eqb_refl.
  simpl. wexec. apply wps_fail. intros p. wexec. done.
Qed.

(** An event that arrives while a batch is pending is put aside. *)
Lemma defer_pending ev s s' es :
  defer ev s = Returns (tt, s', es) -> pending_storage_ s' = pending_storage_ s.
Proof using.
  intros Hd. assert (Hw : wps (defer ev) (fun _ s' _ => pending_storage_ s' = pending_storage_ s) s);
    [|exact (wp_Returns _ _ _ _ _ _ Hw Hd)].
  unfold defer. wexec. destruct ev; simpl; repeat case_match; wexec; done.
Qed.

Lemma defer_persists ev s s' es : defer ev s = Returns (tt, s', es) -> persists es = [].
Proof using.
  unfold defer, trace, emit_reply, trace. cbv [mbind M_bind this emit modify mret M_ret skip]. destruct ev; simpl.
  all: intros Hd; repeat (case_match; simplify_eq/=); done.
Qed.
End calls.

(** ** The type invariant of a node, and a command the bounds of a node admit but its
    constructor refuses *)

From S2P Require Import System Deployment ClusterSafety ClusterTheorems.

(** A configuration whose integers are values of their C++ types. *)
Definition raft_config_fits (c : RaftConfig) : Prop :=
  u32 (node_id c) /\ Forall u32 (members c) /\
  Forall u64 [election_timeout c; heartbeat_interval c; max_deferred_events c; max_uncommitted_entries c;
    max_uncommitted_bytes c; max_command_bytes c; max_key_bytes c; max_value_bytes c;
    max_append_entries_per_rpc c; max_append_bytes_per_rpc c; append_retry_heartbeats c; max_waiters_per_request c].

Lemma raft_config_timers c :
  raft_config_fits c -> wide (Width := width64) (election_timeout c) /\ wide (Width := width64) (heartbeat_interval c).
Proof. by intros (_ & _ & [? [? _]%Forall_cons]%Forall_cons). Qed.

Lemma raft_config_new config r s : RaftNode_new config r = Returns s -> raft_config_fits config -> raft_config_fits (config_ s).
Proof.
  intros Hnew (H1 & H2 & H3). rewrite (new_state _ _ _ Hnew). split_and!; [done| |done]. simpl. unfold sort_members.
  by rewrite (merge_sort_Permutation N.le (members config)).
Qed.

(** C37 Types: every integer a node holds or emits is a value of its C++ type.  The
    constructor, given a configuration and a recovered state whose integers fit, makes a
    node whose fields all fit: terms, votes, log entries, indexes, the tables of peers, of
    waiting clients and of sessions, the state machine, the pending batch, the deferred
    events, identifiers and timer generations.  [start], and [step] on an event whose
    integers fit, leave such a node, every effect (batch, message, timer, reply, trace
    record) fits, and at most one batch is emitted: the one the node then waits for. *)
Theorem step_well_typed cfg soup :
  raft_config_fits cfg ->
  (forall config r s, RaftNode_new config r = Returns s -> config_ s = cfg ->
     u64 (current_term (rec_hard_state r)) -> Forall entry_fits (rec_log r) -> node_typed (W := width64) cfg s) /\
  (forall s s' es, node_typed (W := width64) cfg s -> start s = Returns (tt, s', es) ->
     node_typed (W := width64) cfg s' /\ Forall (effect_fits (W := width64)) es /\ persists es = []) /\
  (forall ev s s' es, node_inv soup s -> node_typed (W := width64) cfg s -> event_fits (W := width64) ev ->
     step ev s = Returns (tt, s', es) ->
     node_typed (W := width64) cfg s' /\ Forall (effect_fits (W := width64)) es /\
     (persists es = [] \/
      exists q, pending_storage_ s' = Some q /\ persists es = [(ps_op_id q, ps_batch q)])).
Proof.
  intros Hcfg. pose proof (raft_config_timers _ Hcfg) as Ht. pose proof Hcfg as (_ & Hids & _). split_and!.
  - intros config r s Hnew <- Hterm Hlog. apply (new_typed config r); [done..|by eapply recovered_typed].
  - intros s s' es Hs Hst. destruct (start_fits (W := width64) cfg Ht s s' es Hs Hst) as (? & ? & ? & _). done.
  - intros ev s s' es Hi Hs He Hst.
    destruct (step_fits (W := width64) cfg Ht soup ev s s' es Hids Hi Hs He Hst) as (? & ? & [[? _]|?]); auto.
Qed.

(** The node a member boots with on an empty disk. *)
Definition demo_fresh : RaftNode :=
  Eval vm_compute in match RaftNode_new (demo_cfg 1) empty_disk with
                     | Returns s => s
                     | Throws _ => h_node (demo_host 1)
                     end.

Lemma demo_fresh_new : RaftNode_new (demo_cfg 1) empty_disk = Returns demo_fresh.
Proof. vm_compute. reflexivity. Qed.

Lemma demo_node_config_fits : raft_config_fits (config_ demo_fresh).
Proof. split_and!; [by vm_compute|..]; repeat constructor; by vm_compute. Qed.

(** A fresh node starts an election on its timer: the batch with its vote is the only one,
    and the node waits for it. *)
Lemma step_well_typed_witness :
  exists s' es, step (TimerFired election 0) demo_fresh = Returns (tt, s', es) /\
    length (persists es) = 1%nat /\ node_typed (W := width64) (config_ demo_fresh) s' /\
    Forall (effect_fits (W := width64)) es.
Proof.
  destruct (step_well_typed (config_ demo_fresh) (fun _ => False) demo_node_config_fits) as (Hnew & _ & Hstep).
  assert (Hf : node_typed (W := width64) (config_ demo_fresh) demo_fresh).
  { apply (Hnew _ _ _ demo_fresh_new eq_refl); [vm_compute; discriminate|constructor]. }
  destruct (step (TimerFired election 0) demo_fresh) as [[[[] s'] es]|] eqn:E.
  - exists s', es. split; [reflexivity|]. split.
    + vm_compute in E. injection E as _ <-. reflexivity.
    + destruct (Hstep (TimerFired election 0) demo_fresh s' es) as (H1 & H2 & _);
        [|exact Hf|vm_compute; discriminate|exact E|].
      * apply (new_node_inv _ _ _ demo_fresh_new). by constructor.
      * split; assumption.
  - vm_compute in E. discriminate.
Defined.

(** ** A command too large for an append

    [can_append_client] bounds a client's entry by the uncommitted log only;
    [can_append] and the constructor bound it by the append message too.  With a
    small [max_append_bytes_per_rpc] a leader stores a command that it can never
    replicate and that its own constructor refuses after a crash. *)

Definition tight_cfg (x : NodeId) : RaftConfig :=
  let c := default_config x demo_members in
  mkRaftConfig (node_id c) (members c) (election_timeout c) (heartbeat_interval c)
    (max_deferred_events c) (max_uncommitted_entries c) (max_uncommitted_bytes c)
    (max_command_bytes c) (max_key_bytes c) (max_value_bytes c) (max_append_entries_per_rpc c) 191
    (append_retry_heartbeats c) (max_waiters_per_request c).

Definition tight_command : ClientCommand :=
  mkClientCommand (mkSessionId 7 7) 1 put "k"
    "0123456789012345678901234567890123456789012345678901234567890123".

Definition tight_script : list Cmd :=
  [do_act (act_start 1); do_act (act_start 2); do_act (act_event 1 (TimerFired election 1))] ++
  persist 1 ++ [deliver 2 0] ++ persist 2 ++ [deliver 1 2] ++ persist 1 ++
  [deliver 2 3] ++ persist 2 ++ [deliver 1 5] ++ persist 1 ++
  [do_act (act_event 1 (ClientRequest 5 tight_command))] ++ persist 1.

Definition tight_boot : gmap N Host :=
  Eval vm_compute in match boot tight_cfg demo_members with Some h => h | None => ∅ end.
Definition tight_actions : list Action :=
  Eval vm_compute in script_actions tight_cfg (mkNet tight_boot []) tight_script.
Definition tight_net : Net :=
  Eval vm_compute in
    match acts tight_cfg (mkNet tight_boot []) tight_actions with Some n => n | None => mkNet ∅ [] end.

Definition tight_host : Host :=
  Eval vm_compute in match n_host tight_net !! 1 with Some h => h | None => demo_host 1 end.

Lemma tight_cluster : cluster tight_cfg demo_members tight_net.
Proof. exists tight_boot, tight_actions. split; vm_compute; reflexivity. Qed.

(** C38 A reachable cluster, with a configuration every constructor accepts, in
    which the leader has admitted and stored a client command and can then no
    longer be restarted: its constructor throws on its own durable log. *)
Theorem admitted_command_blocks_restart :
  exists cfg ms net h,
    NoDup ms /\ configured cfg ms /\ cluster cfg ms net /\ n_host net !! 1 = Some h /\
    role_ (h_node h) = leader /\ length (rec_log (h_disk h)) = 2%nat /\
    RaftNode_new (cfg 1) (h_disk h) =
      Throws (invalid_argument "Recovered log is not a valid consecutive Raft log").
Proof.
  exists tight_cfg, demo_members, tight_net, tight_host.
  split; [exact demo_nodup|]. split.
  { intros x _. split_and!; [done|done|]. vm_compute. discriminate. }
  split; [exact tight_cluster|].
  split; [vm_compute; reflexivity|]. split; [reflexivity|]. split; [reflexivity|].
  vm_compute. reflexivity.
Qed.
