(* ===== verification/RaftOps.v ===== *)
(** * RaftOps: operation numbers and senders

    Every batch a node persists gets the next operation number, numbers are never
    reused (a node whose counter is used up fails), and every message it sends
    carries its own id. *)

From S2P Require Import Prelude Model StateMachine RaftTypes Raft RaftSpec RaftRefine RaftReplicate RaftElection RaftAppend RaftStep RaftTyped.

(** [l] are the numbers a counter hands out between two values. *)
Fixpoint numbered (n : N) (l : list N) (n' : N) : Prop :=
  match l with
  | [] => n' = n
  | o :: l => o = n /\ n <> 0 /\ numbered (add64 n 1) l n'
  end.

Lemma numbered_app n l1 n1 l2 n2 :
  numbered n l1 n1 -> numbered n1 l2 n2 -> numbered n (l1 ++ l2) n2.
Proof. revert n. induction l1 as [|o l1 IH]; intros n; simpl; [by intros ->|].
  intros (-> & ? & ?) ?. eauto. Qed.

Definition sent_by (x : NodeId) (e : RaftEffect) : Prop :=
  match e with SendEffect env => env_from env = x | _ => True end.

(** A computation that numbers its batches and signs its messages. *)
Definition tidy {A} (m : M A) : Prop :=
  forall s, wlp m (fun _ s' es =>
    numbered (next_storage_op_id_ s) (persists es).*1 (next_storage_op_id_ s') /\
    config_ s' = config_ s /\ Forall (sent_by (node_id (config_ s))) es) s.

Create HintDb tidy.

Section rules.

Lemma tidy_bind {A B} (m : M A) (f : A -> M B) : tidy m -> (forall a, tidy (f a)) -> tidy (m ≫= f).
Proof.
  intros Hm Hf s. apply wlp_bind. eapply wlp_mono; [apply Hm|]. simpl.
  intros a s1 es (H1 & H2 & H3). eapply wlp_mono; [apply Hf|]. simpl. rewrite H2.
  intros b s2 es' (H1' & H2' & H3'). rewrite persists_app, fmap_app, Forall_app.
  split_and!; [by eapply numbered_app|done..].
Qed.

Lemma tidy_this : tidy this.
Proof. intros s ? ? ? [= <- <- <-]. done. Qed.

Lemma tidy_ret {A} (a : A) : tidy (mret a : M A).
Proof. intros s ? ? ? [= <- <- <-]. done. Qed.

Lemma tidy_skip : tidy skip.
Proof. apply tidy_ret. Qed.

Lemma tidy_throw {A} e : @tidy A (throw e).
Proof. by intros s ? ? ? [=]. Qed.

Lemma tidy_modify g :
  (forall s, next_storage_op_id_ (g s) = next_storage_op_id_ s) ->
  (forall s, config_ (g s) = config_ s) -> tidy (modify g).
Proof. intros H1 H2 s ? ? ? [= <- <- <-]. simpl. rewrite H1, H2. done. Qed.

Lemma tidy_emit e : effect_persist e = None -> (forall x, sent_by x e) -> tidy (emit e).
Proof.
  intros Hp Hs s ? ? ? [= <- <- <-]. unfold persists. simpl. rewrite Hp. split_and!; [done..|].
  by repeat constructor.
Qed.

Lemma tidy_when b m : tidy m -> tidy (when b m).
Proof. destruct b; [done|]. intros _. apply tidy_skip. Qed.

Lemma tidy_for_each {A} (l : list A) f : (forall x, tidy (f x)) -> tidy (for_each l f).
Proof.
  intros Hf. induction l as [|x l IH]; simpl; [apply tidy_skip|]. by apply tidy_bind.
Qed.

End rules.

Ltac solve_tidy :=
  repeat first
    [ apply tidy_skip | apply tidy_ret | apply tidy_this | apply tidy_throw | apply tidy_emit; [reflexivity|by intros ?]
    | apply tidy_modify; [by intros ?|by intros ?] | apply tidy_for_each; intros ?
    | assumption | solve [auto with tidy nocore]
    | apply tidy_when | apply tidy_bind; [|intros ?]
    | case_match ].

Section handlers.

Lemma tidy_trace k d i : tidy (trace k d i).
Proof. unfold trace. solve_tidy. Qed.
Hint Resolve tidy_trace : tidy.
Lemma tidy_emit_reply t st v i : tidy (emit_reply t st v i).
Proof. unfold emit_reply. solve_tidy. Qed.
Hint Resolve tidy_emit_reply : tidy.
Lemma tidy_schedule_election : tidy schedule_election.
Proof. unfold schedule_election. solve_tidy. Qed.
Lemma tidy_schedule_heartbeat : tidy schedule_heartbeat.
Proof. unfold schedule_heartbeat. solve_tidy. Qed.
Hint Resolve tidy_schedule_election tidy_schedule_heartbeat : tidy.

Lemma tidy_send_message to m : tidy (send_message to m).
Proof.
  unfold send_message. intros s ? ? ? Hm. cbv [mbind M_bind this emit] in Hm. simpl in Hm.
  injection Hm as <- <- <-. split_and!; [done..|]. by repeat constructor.
Qed.
Hint Resolve tidy_send_message : tidy.

Lemma tidy_fail_storage d : tidy (fail_storage d).
Proof. unfold fail_storage, reply_storage_error, reply_deferred_error. solve_tidy. Qed.
Hint Resolve tidy_fail_storage : tidy.

Lemma tidy_begin_persist b k run : tidy run -> tidy (begin_persist b k run).
Proof.
  intros Hrun. unfold begin_persist. case_match; [done|]. intros s. apply wlp_bind.
  intros ? ? ? [= <- <- <-]. case_match; [apply tidy_throw|]. case_match eqn:Hz; [apply tidy_fail_storage|].
  apply N.eqb_neq in Hz. intros ? ? ? Hm. unfold trace in Hm. cbv [mbind M_bind this modify emit] in Hm.
  simpl in Hm. injection Hm as <- <- <-. simpl. split_and!; try done. by repeat constructor.
Qed.
Hint Resolve tidy_begin_persist : tidy.

Lemma tidy_persist_or_run b k run : tidy run -> tidy (persist_or_run b k run).
Proof. intros Hrun. unfold persist_or_run. case_match; [done|]. by apply tidy_begin_persist. Qed.
Hint Resolve tidy_persist_or_run : tidy.

Lemma tidy_send_append peer : tidy (send_append peer).
Proof. unfold send_append. solve_tidy. Qed.
Hint Resolve tidy_send_append : tidy.
Lemma tidy_send_all_appends : tidy send_all_appends.
Proof. unfold send_all_appends. solve_tidy. Qed.
Hint Resolve tidy_send_all_appends : tidy.
Lemma tidy_answer_waiters r : tidy (answer_waiters r).
Proof. unfold answer_waiters. solve_tidy. Qed.
Hint Resolve tidy_answer_waiters : tidy.
Lemma tidy_apply_loop n : tidy (apply_loop n).
Proof. induction n; simpl; solve_tidy. Qed.
Hint Resolve tidy_apply_loop : tidy.
Lemma tidy_apply_committed : tidy apply_committed.
Proof. unfold apply_committed. solve_tidy. Qed.
Hint Resolve tidy_apply_committed : tidy.
Lemma tidy_run_advance_commit : tidy run_advance_commit.
Proof. unfold run_advance_commit. solve_tidy. Qed.
Hint Resolve tidy_run_advance_commit : tidy.
Lemma tidy_maybe_advance_commit : tidy maybe_advance_commit.
Proof. unfold maybe_advance_commit. solve_tidy. Qed.
Hint Resolve tidy_maybe_advance_commit : tidy.
Lemma tidy_step_down t hint b : tidy (step_down t hint b).
Proof. unfold step_down. solve_tidy. Qed.
Hint Resolve tidy_step_down : tidy.
Lemma tidy_run_begin_election : tidy run_begin_election.
Proof. unfold run_begin_election. solve_tidy. Qed.
Hint Resolve tidy_run_begin_election : tidy.
Lemma tidy_begin_election : tidy begin_election.
Proof. unfold begin_election. solve_tidy. Qed.
Hint Resolve tidy_begin_election : tidy.
Lemma tidy_run_become_leader : tidy run_become_leader.
Proof. unfold run_become_leader. solve_tidy. Qed.
Hint Resolve tidy_run_become_leader : tidy.
Lemma tidy_become_leader : tidy become_leader.
Proof. unfold become_leader. solve_tidy. Qed.
Hint Resolve tidy_become_leader : tidy.
Lemma tidy_run_vote_reply from g wl : tidy (run_vote_reply from g wl).
Proof. unfold run_vote_reply. solve_tidy. Qed.
Hint Resolve tidy_run_vote_reply : tidy.
Lemma tidy_run_step_down : tidy run_step_down.
Proof. unfold run_step_down. solve_tidy. Qed.
Hint Resolve tidy_run_step_down : tidy.
Lemma tidy_on_request_vote from m : tidy (on_request_vote from m).
Proof. unfold on_request_vote. solve_tidy. Qed.
Lemma tidy_on_request_vote_response from m : tidy (on_request_vote_response from m).
Proof. unfold on_request_vote_response. solve_tidy. Qed.
Lemma tidy_run_append_reject from r ci ct : tidy (run_append_reject from r ci ct).
Proof. unfold run_append_reject. solve_tidy. Qed.
Lemma tidy_run_append_accept from r m a : tidy (run_append_accept from r m a).
Proof. unfold run_append_accept. solve_tidy. Qed.
Hint Resolve tidy_on_request_vote tidy_on_request_vote_response tidy_run_append_reject tidy_run_append_accept : tidy.
Lemma tidy_remove_pending_from i : tidy (remove_pending_from i).
Proof. unfold remove_pending_from, remove_pending. solve_tidy. Qed.
Hint Resolve tidy_remove_pending_from : tidy.
Lemma tidy_adopt_suffix b l i : tidy (adopt_suffix b l i).
Proof. unfold adopt_suffix. solve_tidy. Qed.
Hint Resolve tidy_adopt_suffix : tidy.
Lemma tidy_finish_append from m b : tidy (finish_append from m b).
Proof. unfold finish_append. solve_tidy. Qed.
Hint Resolve tidy_finish_append : tidy.
Lemma tidy_append_reject from m b ci ct : tidy (append_reject from m b ci ct).
Proof. unfold append_reject. solve_tidy. Qed.
Hint Resolve tidy_append_reject : tidy.
Lemma tidy_process_append from m b : tidy (process_append from m b).
Proof. unfold process_append. solve_tidy. Qed.
Hint Resolve tidy_process_append : tidy.
Lemma tidy_on_append_entries from m : tidy (on_append_entries from m).
Proof. unfold on_append_entries. solve_tidy. Qed.
Lemma tidy_on_append_entries_response from m : tidy (on_append_entries_response from m).
Proof. unfold on_append_entries_response. solve_tidy. Qed.
Hint Resolve tidy_on_append_entries tidy_on_append_entries_response : tidy.
Lemma tidy_run_client_request : tidy run_client_request.
Proof. unfold run_client_request. solve_tidy. Qed.
Hint Resolve tidy_run_client_request : tidy.
Lemma tidy_append_client t c d : tidy (append_client t c d).
Proof. unfold append_client. solve_tidy. Qed.
Hint Resolve tidy_append_client : tidy.
Lemma tidy_admit_client t c d : tidy (admit_client t c d).
Proof. unfold admit_client. solve_tidy. Qed.
Hint Resolve tidy_admit_client : tidy.
Lemma tidy_on_client_request t c : tidy (on_client_request t c).
Proof. unfold on_client_request. solve_tidy. Qed.
Lemma tidy_on_timer k g : tidy (on_timer k g).
Proof. unfold on_timer. solve_tidy. Qed.
Lemma tidy_on_message e : tidy (on_message e).
Proof. unfold on_message. solve_tidy. Qed.
Lemma tidy_run_after k : tidy (run_after k).
Proof. unfold run_after. solve_tidy. Qed.
Hint Resolve tidy_on_client_request tidy_on_timer tidy_on_message tidy_run_after : tidy.
Lemma tidy_mark_durable b : tidy (modify (mark_durable b)).
Proof. apply tidy_modify; intros s; unfold mark_durable; by repeat case_match. Qed.
Hint Resolve tidy_mark_durable : tidy.
Lemma tidy_on_storage_complete op ok err : tidy (on_storage_complete op ok err).
Proof. unfold on_storage_complete. solve_tidy. Qed.
Hint Resolve tidy_on_storage_complete : tidy.
Lemma tidy_dispatch ev : tidy (dispatch ev).
Proof. unfold dispatch. solve_tidy. Qed.
Hint Resolve tidy_dispatch : tidy.
Lemma tidy_drain n : tidy (drain n).
Proof. induction n; simpl; solve_tidy. Qed.
Lemma tidy_defer ev : tidy (defer ev).
Proof. unfold defer. solve_tidy. Qed.
Hint Resolve tidy_drain tidy_defer : tidy.
Lemma tidy_step ev : tidy (step ev).
Proof. unfold step. solve_tidy. Qed.
Lemma tidy_start : tidy start.
Proof. unfold start. solve_tidy. Qed.

End handlers.
