(* ===== verification/Wal.v ===== *)
(** * Wal: the write-ahead log

    Translation of [include/detlog/wal.hpp] and of the format, validation,
    recovery and [Wal] class of [src/wal.cpp].  A function that throws
    [WalError] returns it on the left of a sum.  A [ByteReader] is the list of
    the bytes not yet consumed; a [ByteWriter] is its limit and its bytes.  The
    operating system's file is the list of its bytes together with the bytes
    known to be on the medium; every file call takes the outcome the system
    gives it. *)

From stdpp Require Import pretty.
From S2P Require Import Prelude Model StateMachine Bytes.
#[local] Open Scope N_scope.

Record WalIdentity := mkWalIdentity {
  cluster_id_high : N;
  cluster_id_low : N;
  node_id : NodeId;
}.

#[global] Instance WalIdentity_eq_dec : EqDecision WalIdentity.
Proof. solve_decision. Defined.

Inductive WalFlushPolicy := flush_every_append | unsafe_no_flush.

#[global] Instance WalFlushPolicy_eq_dec : EqDecision WalFlushPolicy.
Proof. solve_decision. Defined.

Record WalOptions := mkWalOptions {
  wo_flush_policy : WalFlushPolicy;
  wo_max_frame_bytes : N;
  wo_max_group_bytes : N;
  wo_max_group_frames : N;
  wo_max_entries_per_frame : N;
  wo_max_key_bytes : N;
  wo_max_value_bytes : N;
  wo_max_log_entries : N;
}.

Definition default_options : WalOptions :=
  mkWalOptions flush_every_append (16 * 1024 * 1024) (64 * 1024 * 1024) 1024 65536
    (1 * 1024 * 1024) (8 * 1024 * 1024) 10000000.

Inductive WalErrorCode :=
  | io
  | format
  | checksum
  | identity_mismatch
  | invariant_violation
  | bounds_exceeded
  | failed.

Record WalError := mkWalError { we_code : WalErrorCode; we_what : string }.

Record WalState := mkWalState {
  ws_hard_state : HardState;
  ws_entries : list LogEntry;
  ws_commit_index : LogIndex;
  ws_last_frame_sequence : N;
  ws_durable_frame_sequence : N;
  ws_file_bytes : N;
  ws_repaired_incomplete_tail : bool;
}.

(** A default-constructed [WalState]. *)
Definition initial_state : WalState := mkWalState (mkHardState 0 None) [] 0 0 0 0 false.

Record WalAppendResult := mkWalAppendResult {
  war_first_frame_sequence : N;
  war_last_frame_sequence : N;
  war_durable : bool;
  war_bytes_written : N;
}.

Record WalEncodedFrame := mkWalEncodedFrame { ef_bytes : list N; ef_state_after : WalState }.

Record WalScanResult := mkWalScanResult {
  sc_state : WalState;
  sc_valid_bytes : N;
  sc_has_incomplete_tail : bool;
}.

(** ** Exceptions *)

Definition W (A : Type) : Type := WalError + A.
Definition throw {A} (c : WalErrorCode) (what : string) : W A := inl (mkWalError c what).
Definition wbind {A B} (x : W A) (k : A -> W B) : W B :=
  match x with inl e => inl e | inr a => k a end.
Notation "x <- e ; k" := (wbind e (fun x => k)) (at level 100, e at next level, right associativity).

(** [if (b) throw WalError(c, what);] *)
Definition throw_if (b : bool) (c : WalErrorCode) (what : string) : W unit :=
  if b then throw c what else inr tt.

Definition with_offset (message : string) (offset : N) : string :=
  (message +:+ " at WAL offset " +:+ pretty offset)%string.

(** [catch (const WalError& error) { throw WalError(error.code(), with_offset(...)); }] *)
Definition at_offset {A} (offset : N) (x : W A) : W A :=
  match x with
  | inl e => inl (mkWalError (we_code e) (with_offset (we_what e) offset))
  | inr a => inr a
  end.

(** ** Constants *)

Definition kFileMagic : list N := string_bytes "DTLGWAL1".
Definition kFrameMagic : list N := string_bytes "DTLGFRM1".
Definition kTrailerMagic : list N := string_bytes "DTLGEND1".
Definition kFileHeaderBytes : N := 48.
Definition kFrameHeaderBytes : N := 48.
Definition kFrameTrailerBytes : N := 24.
Definition kBatchPrefixBytes : N := 8.
Definition kMinimumEntryPayloadBytes : N := 17.
Definition kMinimumFrameBytes : N := kFrameHeaderBytes + kBatchPrefixBytes + kFrameTrailerBytes.
Definition kFileHeaderTag : N := 0x31444857.
Definition kFrameHeaderTag : N := 0x31444846.
Definition kFrameTrailerTag : N := 0x31524c54.
Definition kHardStateFlag : N := 1.
Definition kTruncateFlag : N := 2.
Definition kCommitFlag : N := 4.
Definition kKnownBatchFlags : N := N.lor (N.lor kHardStateFlag kTruncateFlag) kCommitFlag.
Definition kAbsoluteMaxFrameBytes : N := 256 * 1024 * 1024.
Definition kAbsoluteMaxGroupBytes : N := 512 * 1024 * 1024.
Definition kAbsoluteMaxGroupFrames : N := 65536.
Definition kAbsoluteMaxEntriesPerFrame : N := 1000000.
Definition kAbsoluteMaxLogEntries : N := 100000000.
Definition format_version : N := 1.

(** ** ByteWriter *)

Record ByteWriter := mkByteWriter { bw_limit : N; bw_bytes : list N }.

Definition new_byte_writer (limit : N) : ByteWriter := mkByteWriter limit [].

(** [ensure(amount)] and the bytes pushed after it. *)
Definition bw_put (bs : list N) (w : ByteWriter) : W ByteWriter :=
  if bw_limit w - N.min (bw_limit w) (blen (bw_bytes w)) <? blen bs
  then throw bounds_exceeded "encoded WAL object exceeds configured size bound"
  else inr (mkByteWriter (bw_limit w) (bw_bytes w ++ bs)).

Definition bw_u8 (v : N) : ByteWriter -> W ByteWriter := bw_put [v].
Definition bw_u16 (v : N) : ByteWriter -> W ByteWriter := bw_put (le_bytes 2 v).
Definition bw_u32 (v : N) : ByteWriter -> W ByteWriter := bw_put (le_bytes 4 v).
Definition bw_u64 (v : N) : ByteWriter -> W ByteWriter := bw_put (le_bytes 8 v).
Definition bw_literal (bs : list N) : ByteWriter -> W ByteWriter := bw_put bs.
Definition bw_raw (bs : list N) : ByteWriter -> W ByteWriter := bw_put bs.
Definition bw_string (s : string) : ByteWriter -> W ByteWriter := bw_put (string_bytes s).

(** Calls on one writer, in order. *)
Definition bw_seq (p q : ByteWriter -> W ByteWriter) : ByteWriter -> W ByteWriter :=
  fun w => w' <- p w; q w'.
Definition bw_skip : ByteWriter -> W ByteWriter := fun w => inr w.
Infix ";;;" := bw_seq (at level 40, left associativity).

(** [if (o) p( *o);] *)
Definition bw_option {A} (o : option A) (p : A -> ByteWriter -> W ByteWriter)
  : ByteWriter -> W ByteWriter :=
  match o with Some a => p a | None => bw_skip end.

(** ** ByteReader *)

Definition Rd (A : Type) : Type := list N -> W (A * list N).
Definition rd_ret {A} (a : A) : Rd A := fun bs => inr (a, bs).
Definition rd_throw {A} (c : WalErrorCode) (what : string) : Rd A := fun _ => throw c what.
Definition rd_bind {A B} (g : Rd A) (k : A -> Rd B) : Rd B := fun bs =>
  match g bs with inl e => inl e | inr (a, bs') => k a bs' end.
Notation "x <~ g ; k" := (rd_bind g (fun x => k))
  (at level 100, g at next level, right associativity).
Definition rd_throw_if (b : bool) (c : WalErrorCode) (what : string) : Rd unit :=
  if b then rd_throw c what else rd_ret tt.

Definition rd_require (amount : N) : Rd unit := fun bs =>
  if blen bs <? amount then throw format "declared WAL object is internally truncated"
  else inr (tt, bs).

Definition rd_u8 : Rd N := fun bs =>
  match bs with
  | [] => throw format "declared WAL object is internally truncated"
  | b :: bs => inr (b, bs)
  end.

(** The loop [value |= u8() << shift], [n] bytes from a shift on. *)
Fixpoint rd_le (n : nat) (acc : N * N) : Rd N :=
  match n with
  | O => rd_ret acc.1
  | S n => b <~ rd_u8; rd_le n (or_in acc b)
  end.

Definition rd_u16 : Rd N := rd_le 2 (0, 0).
Definition rd_u32 : Rd N := rd_le 4 (0, 0).
Definition rd_u64 : Rd N := rd_le 8 (0, 0).

Fixpoint rd_match (expected : list N) (name : string) : Rd unit :=
  match expected with
  | [] => rd_ret tt
  | c :: expected =>
      b <~ rd_u8;
      if negb (b =? c) then rd_throw format ("invalid " +:+ name)%string
      else rd_match expected name
  end.

Definition rd_expect_literal (expected : list N) (name : string) : Rd unit :=
  _ <~ rd_require (blen expected); rd_match expected name.

Definition rd_string (size : N) : Rd string :=
  _ <~ rd_require size;
  fun bs => inr (string_of_bytes (take (N.to_nat size) bs), drop (N.to_nat size) bs).

(** ** CRC-32C *)

(** One bit of the polynomial division; [0U - (crc & 1U)] is the mask. *)
Definition crc_bit (crc : N) : N :=
  let mask := (u32_size - N.land crc 1) mod u32_size in
  N.lxor (N.shiftr crc 1) (N.land 0x82f63b78 mask).

Definition crc_byte (crc byte : N) : N := Nat.iter 8 crc_bit (N.lxor crc byte).

Definition crc32c (bs : list N) : N := N.lxor (foldl crc_byte u32_max bs) u32_max.

(** ** Options and states *)

Definition validate_options (o : WalOptions) : W unit :=
  _ <- throw_if ((wo_max_frame_bytes o <? kMinimumFrameBytes) ||
                 (kAbsoluteMaxFrameBytes <? wo_max_frame_bytes o))
         bounds_exceeded "max_frame_bytes is outside the supported range";
  _ <- throw_if ((wo_max_group_bytes o <? wo_max_frame_bytes o) ||
                 (kAbsoluteMaxGroupBytes <? wo_max_group_bytes o))
         bounds_exceeded "max_group_bytes is outside the supported range";
  _ <- throw_if ((wo_max_group_frames o =? 0) || (kAbsoluteMaxGroupFrames <? wo_max_group_frames o))
         bounds_exceeded "max_group_frames is outside the supported range";
  _ <- throw_if ((wo_max_entries_per_frame o =? 0) ||
                 (kAbsoluteMaxEntriesPerFrame <? wo_max_entries_per_frame o))
         bounds_exceeded "max_entries_per_frame is outside the supported range";
  _ <- throw_if ((kAbsoluteMaxFrameBytes <? wo_max_key_bytes o) ||
                 (kAbsoluteMaxFrameBytes <? wo_max_value_bytes o))
         bounds_exceeded "command field bound exceeds the absolute frame bound";
  throw_if ((wo_max_log_entries o =? 0) || (kAbsoluteMaxLogEntries <? wo_max_log_entries o))
    bounds_exceeded "max_log_entries is outside the supported range".

(** [ValidationView]: a batch staged over a state without copying its log. *)
Record ValidationView := mkValidationView {
  vv_hard_state : HardState;
  vv_commit_index : LogIndex;
  vv_base_entries : list LogEntry;
  vv_base_keep : nat;
  vv_suffix : list LogEntry;
}.

Definition new_view (st : WalState) : ValidationView :=
  mkValidationView (ws_hard_state st) (ws_commit_index st) (ws_entries st)
    (length (ws_entries st)) [].

Definition vv_last_index (v : ValidationView) : LogIndex :=
  N.of_nat (vv_base_keep v) + N.of_nat (length (vv_suffix v)).

Definition vv_last_term (v : ValidationView) : Term :=
  match last (vv_suffix v) with
  | Some e => term e
  | None => if (vv_base_keep v =? 0)%nat then 0
            else match vv_base_entries v !! (vv_base_keep v - 1)%nat with
                 | Some e => term e
                 | None => 0
                 end
  end.

Definition entry_count (v : ValidationView) : nat := vv_base_keep v + length (vv_suffix v).

Definition stage_hard_state (o : option HardState) (v : ValidationView) : W ValidationView :=
  match o with
  | None => inr v
  | Some next =>
      let hs := vv_hard_state v in
      _ <- throw_if ((current_term next =? 0) && negb (is_none (voted_for next)))
             invariant_violation "term-zero hard state cannot contain a vote";
      _ <- throw_if (current_term next <? current_term hs)
             invariant_violation "hard-state term would decrease";
      _ <- throw_if ((current_term next =? current_term hs) && negb (is_none (voted_for hs)) &&
                     negb (bool_decide (voted_for next = voted_for hs)))
             invariant_violation "vote would change or clear within one term";
      inr (mkValidationView next (vv_commit_index v) (vv_base_entries v) (vv_base_keep v)
             (vv_suffix v))
  end.

Definition stage_truncate (o : option LogIndex) (v : ValidationView) : W ValidationView :=
  match o with
  | None => inr v
  | Some from =>
      _ <- throw_if (from =? 0) invariant_violation "truncate_from index zero is invalid";
      _ <- throw_if (from <=? vv_commit_index v)
             invariant_violation "cannot truncate a committed log entry";
      _ <- throw_if (vv_last_index v + 1 <? from)
             invariant_violation "truncate_from is beyond the end of the log";
      let wanted := N.to_nat (from - 1) in
      inr (if (wanted <=? vv_base_keep v)%nat
           then mkValidationView (vv_hard_state v) (vv_commit_index v) (vv_base_entries v) wanted []
           else mkValidationView (vv_hard_state v) (vv_commit_index v) (vv_base_entries v)
                  (vv_base_keep v) (take (wanted - vv_base_keep v) (vv_suffix v)))
  end.

(** One turn of the entry loop of [stage]. *)
Definition stage_entry (o : WalOptions) (e : LogEntry) (v : ValidationView) : W ValidationView :=
  _ <- throw_if (wo_max_log_entries o <=? vv_last_index v)
         bounds_exceeded "logical WAL exceeds max_log_entries";
  _ <- throw_if (negb (index e =? vv_last_index v + 1))
         invariant_violation "log entries are not consecutive";
  _ <- throw_if ((term e =? 0) || (current_term (vv_hard_state v) <? term e))
         invariant_violation "log entry term is zero or exceeds current term";
  _ <- throw_if ((1 <? index e) && (term e <? vv_last_term v))
         invariant_violation "log entry terms decrease with index";
  _ <- match command e with
       | None => inr tt
       | Some c =>
           throw_if ((wo_max_key_bytes o <? string_size (key c)) ||
                     (wo_max_value_bytes o <? string_size (value c)))
             bounds_exceeded "command field exceeds configured size bound"
       end;
  inr (mkValidationView (vv_hard_state v) (vv_commit_index v) (vv_base_entries v) (vv_base_keep v)
         (vv_suffix v ++ [e])).

Fixpoint stage_entries (o : WalOptions) (es : list LogEntry) (v : ValidationView)
  : W ValidationView :=
  match es with
  | [] => inr v
  | e :: es => v' <- stage_entry o e v; stage_entries o es v'
  end.

Definition stage_commit (o : option LogIndex) (v : ValidationView) : W ValidationView :=
  match o with
  | None => inr v
  | Some c =>
      _ <- throw_if (c <? vv_commit_index v) invariant_violation "commit index would decrease";
      _ <- throw_if (vv_last_index v <? c)
             invariant_violation "commit index exceeds the end of the log";
      inr (mkValidationView (vv_hard_state v) c (vv_base_entries v) (vv_base_keep v) (vv_suffix v))
  end.

Definition stage (b : PersistBatch) (o : WalOptions) (v : ValidationView) : W ValidationView :=
  _ <- throw_if (batch_empty b) invariant_violation "an empty persistence batch is not a WAL frame";
  _ <- throw_if (wo_max_entries_per_frame o <? N.of_nat (length (b_entries b)))
         bounds_exceeded "persistence batch has too many entries";
  v <- stage_hard_state (b_hard_state b) v;
  v <- stage_truncate (b_truncate_from b) v;
  v <- stage_entries o (b_entries b) v;
  stage_commit (b_commit_index b) v.

Definition materialize (v : ValidationView) (st : WalState) : WalState :=
  mkWalState (vv_hard_state v) (take (vv_base_keep v) (ws_entries st) ++ vv_suffix v)
    (vv_commit_index v) (ws_last_frame_sequence st) (ws_durable_frame_sequence st)
    (ws_file_bytes st) (ws_repaired_incomplete_tail st).

Definition validate_state_summary (st : WalState) (o : WalOptions) : W unit :=
  let count := N.of_nat (length (ws_entries st)) in
  _ <- throw_if (wo_max_log_entries o <? count) bounds_exceeded "WAL state exceeds max_log_entries";
  _ <- throw_if ((current_term (ws_hard_state st) =? 0) &&
                 negb (is_none (voted_for (ws_hard_state st))))
         invariant_violation "term-zero WAL state cannot contain a vote";
  _ <- match head (ws_entries st), last (ws_entries st) with
       | Some front, Some back =>
           _ <- throw_if (negb (index front =? 1) || negb (index back =? count))
                  invariant_violation "WAL state does not use consecutive one-based indexes";
           throw_if (current_term (ws_hard_state st) <? term back)
             invariant_violation "WAL state log term exceeds hard-state term"
       | _, _ => inr tt
       end;
  _ <- throw_if (count <? ws_commit_index st)
         invariant_violation "WAL state commit index exceeds its log";
  throw_if (ws_last_frame_sequence st <? ws_durable_frame_sequence st)
    invariant_violation "durable frame sequence exceeds last frame sequence".

(** ** Batches as bytes *)

Definition flag (b : bool) (f : N) : N := if b then f else 0.

Definition batch_flags (b : PersistBatch) : N :=
  N.lor (N.lor (flag (negb (is_none (b_hard_state b))) kHardStateFlag)
               (flag (negb (is_none (b_truncate_from b))) kTruncateFlag))
        (flag (negb (is_none (b_commit_index b))) kCommitFlag).

Definition presence {A} (o : option A) : N := if is_none o then 0 else 1.

Definition encode_hard_state (h : HardState) : ByteWriter -> W ByteWriter :=
  bw_u64 (current_term h) ;;; bw_u8 (presence (voted_for h)) ;;; bw_option (voted_for h) bw_u32.

Definition encode_entry_command (c : ClientCommand) : ByteWriter -> W ByteWriter :=
  bw_u64 (high (session c)) ;;; bw_u64 (low (session c)) ;;; bw_u64 (sequence c) ;;;
  bw_u8 (command_kind_u8 (kind c)) ;;; bw_u32 (string_size (key c)) ;;;
  bw_u32 (string_size (value c)) ;;; bw_string (key c) ;;; bw_string (value c).

Definition encode_entry (e : LogEntry) : ByteWriter -> W ByteWriter :=
  bw_u64 (index e) ;;; bw_u64 (term e) ;;; bw_u8 (presence (command e)) ;;;
  bw_option (command e) encode_entry_command.

Fixpoint encode_entries (es : list LogEntry) : ByteWriter -> W ByteWriter :=
  match es with [] => bw_skip | e :: es => encode_entry e ;;; encode_entries es end.

Definition encode_batch_payload (b : PersistBatch) (o : WalOptions) : W (list N) :=
  let payload_limit := wo_max_frame_bytes o - kFrameHeaderBytes - kFrameTrailerBytes in
  w <- (bw_u32 (batch_flags b) ;;; bw_u32 (N.of_nat (length (b_entries b))) ;;;
        bw_option (b_hard_state b) encode_hard_state ;;; bw_option (b_truncate_from b) bw_u64 ;;;
        encode_entries (b_entries b) ;;; bw_option (b_commit_index b) bw_u64)
         (new_byte_writer payload_limit);
  inr (bw_bytes w).

Definition decode_hard_state : Rd HardState :=
  t <~ rd_u64; has_vote <~ rd_u8;
  _ <~ rd_throw_if (1 <? has_vote) format "invalid voted-for presence marker";
  if negb (has_vote =? 0) then v <~ rd_u32; rd_ret (mkHardState t (Some v))
  else rd_ret (mkHardState t None).

Definition decode_entry_command (o : WalOptions) : Rd ClientCommand :=
  hi <~ rd_u64; lo <~ rd_u64; seq <~ rd_u64; raw <~ rd_u8;
  match command_kind_of_u8 raw with
  | None => rd_throw format "WAL frame contains unknown command kind"
  | Some kd =>
      key_size <~ rd_u32; value_size <~ rd_u32;
      _ <~ rd_throw_if ((wo_max_key_bytes o <? key_size) || (wo_max_value_bytes o <? value_size))
             bounds_exceeded "WAL command field exceeds configured size bound";
      k <~ rd_string key_size; v <~ rd_string value_size;
      rd_ret (mkClientCommand (mkSessionId hi lo) seq kd k v)
  end.

Definition decode_entry (o : WalOptions) : Rd LogEntry :=
  i <~ rd_u64; t <~ rd_u64; has_command <~ rd_u8;
  _ <~ rd_throw_if (1 <? has_command) format "invalid command presence marker";
  if negb (has_command =? 0)
  then c <~ decode_entry_command o; rd_ret (mkLogEntry i t (Some c))
  else rd_ret (mkLogEntry i t None).

Fixpoint decode_entries (count : nat) (o : WalOptions) : Rd (list LogEntry) :=
  match count with
  | O => rd_ret []
  | S count => e <~ decode_entry o; es <~ decode_entries count o; rd_ret (e :: es)
  end.

(** [if ((flags & f) != 0) x = p();] *)
Definition rd_flag {A} (flags f : N) (p : Rd A) : Rd (option A) :=
  if negb (N.land flags f =? 0) then a <~ p; rd_ret (Some a) else rd_ret None.

(** The entry count is bounded by the bytes present. *)
Definition rd_count_guard (flags count : N) : Rd unit := fun bs =>
  let trailing := if negb (N.land flags kCommitFlag =? 0) then 8 else 0 in
  if (blen bs <? trailing) || ((blen bs - trailing) / kMinimumEntryPayloadBytes <? count)
  then throw format "WAL entry count exceeds the remaining frame payload" else inr (tt, bs).

Definition decode_batch (o : WalOptions) : Rd PersistBatch :=
  flags <~ rd_u32;
  _ <~ rd_throw_if (negb (N.ldiff flags kKnownBatchFlags =? 0)) format
         "WAL batch contains unknown flags";
  count <~ rd_u32;
  _ <~ rd_throw_if (wo_max_entries_per_frame o <? count) bounds_exceeded
         "WAL frame declares too many entries";
  hs <~ rd_flag flags kHardStateFlag decode_hard_state;
  tf <~ rd_flag flags kTruncateFlag rd_u64;
  _ <~ rd_count_guard flags count;
  es <~ decode_entries (N.to_nat count) o;
  ci <~ rd_flag flags kCommitFlag rd_u64;
  rd_ret (mkPersistBatch hs tf es ci).

Definition decode_batch_payload (payload : list N) (o : WalOptions) : W PersistBatch :=
  r <- decode_batch o payload;
  if negb (is_nil r.2) then throw format "WAL batch contains trailing bytes" else inr r.1.

(** ** Headers and frames *)

Definition make_file_header (id : WalIdentity) : W (list N) :=
  w <- (bw_literal kFileMagic ;;; bw_u16 format_version ;;; bw_u16 kFileHeaderBytes ;;; bw_u32 0 ;;;
        bw_u64 (cluster_id_high id) ;;; bw_u64 (cluster_id_low id) ;;; bw_u32 (node_id id) ;;;
        bw_u32 0) (new_byte_writer kFileHeaderBytes);
  w <- (bw_u32 (crc32c (bw_bytes w)) ;;; bw_u32 kFileHeaderTag) w;
  inr (bw_bytes w).

(** The fields of the file header: identity and checksum. *)
Definition read_file_header : Rd (WalIdentity * N) :=
  _ <~ rd_expect_literal kFileMagic "WAL file magic";
  version <~ rd_u16;
  _ <~ rd_throw_if (negb (version =? format_version)) format "unsupported WAL format version";
  size <~ rd_u16;
  _ <~ rd_throw_if (negb (size =? kFileHeaderBytes)) format "invalid WAL file header fields";
  reserved <~ rd_u32;
  _ <~ rd_throw_if (negb (reserved =? 0)) format "invalid WAL file header fields";
  hi <~ rd_u64; lo <~ rd_u64; node <~ rd_u32; reserved <~ rd_u32;
  _ <~ rd_throw_if (negb (reserved =? 0)) format "nonzero reserved WAL header field";
  sum <~ rd_u32; tag <~ rd_u32;
  _ <~ rd_throw_if (negb (tag =? kFileHeaderTag)) format "invalid WAL file header trailer";
  rd_ret (mkWalIdentity hi lo node, sum).

Definition validate_file_header (bs : list N) (expected : WalIdentity) : W unit :=
  _ <- throw_if (negb (blen bs =? kFileHeaderBytes)) format "WAL file header has the wrong size";
  r <- read_file_header bs;
  let '(actual, sum) := r.1 in
  _ <- throw_if (negb (sum =? crc32c (take 40 bs))) checksum "WAL file header checksum mismatch";
  throw_if (negb (bool_decide (actual = expected))) identity_mismatch
    "WAL cluster or node identity mismatch".

Definition make_frame (seq : N) (b : PersistBatch) (o : WalOptions) : W (list N) :=
  payload <- encode_batch_payload b o;
  let total_size := kFrameHeaderBytes + blen payload + kFrameTrailerBytes in
  _ <- throw_if (wo_max_frame_bytes o <? total_size) bounds_exceeded
         "WAL frame exceeds configured size bound";
  w <- (bw_literal kFrameMagic ;;; bw_u16 format_version ;;; bw_u16 kFrameHeaderBytes ;;; bw_u32 0 ;;;
        bw_u64 total_size ;;; bw_u64 (blen payload) ;;; bw_u64 seq) (new_byte_writer total_size);
  w <- (bw_u32 (crc32c (bw_bytes w)) ;;; bw_u32 kFrameHeaderTag ;;; bw_raw payload) w;
  w <- (bw_u32 (crc32c (bw_bytes w)) ;;; bw_u32 kFrameTrailerTag ;;; bw_u64 total_size ;;;
        bw_literal kTrailerMagic) w;
  inr (bw_bytes w).

Record ParsedFrameHeader := mkParsedFrameHeader {
  fh_frame_size : N;
  fh_payload_size : N;
  fh_sequence : N;
}.

Definition read_frame_header : Rd (ParsedFrameHeader * N) :=
  _ <~ rd_expect_literal kFrameMagic "WAL frame magic";
  version <~ rd_u16;
  _ <~ rd_throw_if (negb (version =? format_version)) format "unsupported WAL frame version";
  size <~ rd_u16;
  _ <~ rd_throw_if (negb (size =? kFrameHeaderBytes)) format "invalid WAL frame header fields";
  reserved <~ rd_u32;
  _ <~ rd_throw_if (negb (reserved =? 0)) format "invalid WAL frame header fields";
  fs <~ rd_u64; ps <~ rd_u64; seq <~ rd_u64; sum <~ rd_u32; tag <~ rd_u32;
  _ <~ rd_throw_if (negb (tag =? kFrameHeaderTag)) format "invalid WAL frame header trailer";
  rd_ret (mkParsedFrameHeader fs ps seq, sum).

Definition parse_frame_header (bs : list N) (o : WalOptions) : W ParsedFrameHeader :=
  r <- read_frame_header bs;
  let '(h, sum) := r.1 in
  _ <- throw_if (negb (sum =? crc32c (take 40 bs))) checksum "WAL frame header checksum mismatch";
  _ <- throw_if ((fh_frame_size h <? kMinimumFrameBytes) ||
                 (wo_max_frame_bytes o <? fh_frame_size h) || (u64_max <? fh_frame_size h))
         bounds_exceeded "WAL frame length is outside the configured bound";
  _ <- throw_if ((wo_max_frame_bytes o <? fh_payload_size h) ||
                 negb (add64 (add64 (fh_payload_size h) kFrameHeaderBytes) kFrameTrailerBytes
                       =? fh_frame_size h))
         format "inconsistent WAL frame and payload lengths";
  inr h.

(** The trailer, which yields the stored checksum. *)
Definition read_trailer (frame_size : N) : Rd N :=
  sum <~ rd_u32; tag <~ rd_u32;
  _ <~ rd_throw_if (negb (tag =? kFrameTrailerTag)) format "invalid WAL frame trailer fields";
  size <~ rd_u64;
  _ <~ rd_throw_if (negb (size =? frame_size)) format "invalid WAL frame trailer fields";
  _ <~ rd_expect_literal kTrailerMagic "WAL frame trailer magic";
  rd_ret sum.

Definition validate_complete_frame (frame : list N) (h : ParsedFrameHeader) (o : WalOptions)
  : W PersistBatch :=
  let trailer_offset := N.to_nat (kFrameHeaderBytes + fh_payload_size h) in
  r <- read_trailer (fh_frame_size h) (take (N.to_nat kFrameTrailerBytes) (drop trailer_offset frame));
  _ <- throw_if (negb (r.1 =? crc32c (take trailer_offset frame))) checksum
         "WAL frame checksum mismatch";
  decode_batch_payload
    (take (N.to_nat (fh_payload_size h)) (drop (N.to_nat kFrameHeaderBytes) frame)) o.

(** ** Recovery *)

(** The state and the cut after one more complete frame. *)
Definition scanned (st : WalState) (seq offset : N) : WalScanResult :=
  mkWalScanResult
    (mkWalState (ws_hard_state st) (ws_entries st) (ws_commit_index st) seq
       (ws_durable_frame_sequence st) offset (ws_repaired_incomplete_tail st))
    offset false.

Definition incomplete (r : WalScanResult) : WalScanResult :=
  mkWalScanResult (sc_state r) (sc_valid_bytes r) true.

(** The loop of [scan_source].  Every turn consumes at least
    [kMinimumFrameBytes], so the byte count is enough fuel; running out of it is
    reported as an error no source function throws. *)
Fixpoint scan_loop (fuel : nat) (byte_count : N) (read_exact : N -> N -> W (list N))
    (o : WalOptions) (offset : N) (r : WalScanResult) : W WalScanResult :=
  if negb (offset <? byte_count) then inr r
  else match fuel with
  | O => throw failed "scan fuel exhausted"
  | S fuel =>
      let remaining := byte_count - offset in
      if remaining <? kFrameHeaderBytes then inr (incomplete r)
      else
        hb <- read_exact offset kFrameHeaderBytes;
        h <- at_offset offset (parse_frame_header hb o);
        _ <- throw_if (negb (fh_sequence h =? add64 (ws_last_frame_sequence (sc_state r)) 1))
               invariant_violation (with_offset "WAL frame sequence is not consecutive" offset);
        if remaining <? fh_frame_size h then inr (incomplete r)
        else
          frame <- read_exact offset (fh_frame_size h);
          st <- at_offset offset
                  (b <- validate_complete_frame frame h o;
                   v <- stage b o (new_view (sc_state r));
                   inr (materialize v (sc_state r)));
          let offset' := offset + fh_frame_size h in
          scan_loop fuel byte_count read_exact o offset' (scanned st (fh_sequence h) offset')
  end.

(** What [scan_source] sets after its loop. *)
Definition finish_scan (r : WalScanResult) : WalScanResult :=
  let st := sc_state r in
  mkWalScanResult
    (mkWalState (ws_hard_state st) (ws_entries st) (ws_commit_index st) (ws_last_frame_sequence st)
       (ws_last_frame_sequence st) (ws_file_bytes st) (sc_has_incomplete_tail r))
    (sc_valid_bytes r) (sc_has_incomplete_tail r).

Definition scan_source (byte_count : N) (read_exact : N -> N -> W (list N)) (expected : WalIdentity)
    (o : WalOptions) : W WalScanResult :=
  _ <- validate_options o;
  _ <- throw_if (byte_count <? kFileHeaderBytes) format "WAL is missing a complete file header";
  hb <- read_exact 0 kFileHeaderBytes;
  _ <- validate_file_header hb expected;
  r <- scan_loop (N.to_nat byte_count) byte_count read_exact o kFileHeaderBytes
         (scanned initial_state 0 kFileHeaderBytes);
  inr (finish_scan r).

(** The byte source of [scan_wal_bytes]. *)
Definition read_span (bs : list N) (offset n : N) : W (list N) :=
  if (blen bs <? offset) || (blen bs - offset <? n)
  then throw format "WAL byte source ended unexpectedly"
  else inr (take (N.to_nat n) (drop (N.to_nat offset) bs)).

Definition scan_wal_bytes (bs : list N) (expected : WalIdentity) (o : WalOptions) : W WalScanResult :=
  scan_source (blen bs) (read_span bs) expected o.

Definition encode_wal_file_header (id : WalIdentity) : W (list N) := make_file_header id.

Definition encode_wal_frame (before : WalState) (b : PersistBatch) (o : WalOptions)
  : W WalEncodedFrame :=
  _ <- validate_options o;
  _ <- validate_state_summary before o;
  _ <- throw_if (ws_last_frame_sequence before =? u64_max) bounds_exceeded
         "WAL frame sequence is exhausted";
  v <- stage b o (new_view before);
  bs <- make_frame (add64 (ws_last_frame_sequence before) 1) b o;
  let st := materialize v before in
  _ <- throw_if (u64_max - ws_file_bytes st <? blen bs) bounds_exceeded
         "WAL file length would overflow";
  inr (mkWalEncodedFrame bs
    (mkWalState (ws_hard_state st) (ws_entries st) (ws_commit_index st)
       (add64 (ws_last_frame_sequence st) 1) (ws_durable_frame_sequence st)
       (ws_file_bytes st + blen bs) (ws_repaired_incomplete_tail st))).
