(* ===== verification/WalFormat.v ===== *)
(** * WalFormat: the bytes of batches, frames and headers

    [writes p bs] says that a sequence of [ByteWriter] calls appends [bs] when it
    fits and throws the bounds error otherwise; [accepts g bs a] says that a
    sequence of [ByteReader] calls consumes [bs] and returns [a].  The lemmas
    give every format of the WAL and show that the readers accept what the
    writers produce. *)

From stdpp Require Import pretty.
From S2P Require Import Prelude Model StateMachine Bytes Wal.
#[local] Open Scope N_scope.

Definition bounds_error {A} : W A :=
  throw bounds_exceeded "encoded WAL object exceeds configured size bound".

Definition writes (p : ByteWriter -> W ByteWriter) (bs : list N) : Prop :=
  forall w, blen (bw_bytes w) <= bw_limit w ->
  p w = if bool_decide (blen (bw_bytes w) + blen bs <= bw_limit w)
        then inr (mkByteWriter (bw_limit w) (bw_bytes w ++ bs)) else bounds_error.

Definition accepts {A} (g : Rd A) (bs : list N) (a : A) : Prop :=
  forall tl, g (bs ++ tl) = inr (a, tl).

Section writers.

Lemma writes_put bs : writes (bw_put bs) bs.
Proof.
  intros w Hw. unfold bw_put. rewrite N.min_r by done.
  destruct (N.ltb_spec (bw_limit w - blen (bw_bytes w)) (blen bs)); case_bool_decide; done || lia.
Qed.

Lemma writes_skip : writes bw_skip [].
Proof.
  intros w Hw. rewrite bool_decide_true; [|unfold blen in *; simpl; lia].
  rewrite app_nil_r. by destruct w.
Qed.

Lemma writes_seq p q bs bs' : writes p bs -> writes q bs' -> writes (p ;;; q) (bs ++ bs').
Proof.
  intros Hp Hq w Hw. unfold bw_seq, wbind. rewrite Hp by done. rewrite blen_app.
  case_bool_decide; [|case_bool_decide; [lia|done]].
  rewrite Hq by (simpl; rewrite blen_app; lia). simpl. rewrite blen_app, app_assoc.
  do 2 case_bool_decide; done || lia.
Qed.

Lemma writes_option {A} (o : option A) p (f : A -> list N) :
  (forall a, o = Some a -> writes (p a) (f a)) ->
  writes (bw_option o p) (match o with Some a => f a | None => [] end).
Proof. intros H. destruct o; simpl; [by apply H|apply writes_skip]. Qed.

Lemma writes_inv p bs w w' :
  writes p bs -> blen (bw_bytes w) <= bw_limit w -> p w = inr w' ->
  w' = mkByteWriter (bw_limit w) (bw_bytes w ++ bs) /\ blen (bw_bytes w) + blen bs <= bw_limit w.
Proof. intros Hp Hw. rewrite Hp by done. case_bool_decide; [by intros [= <-]|done]. Qed.

Lemma writes_exact p bs w :
  writes p bs -> blen (bw_bytes w) + blen bs <= bw_limit w ->
  p w = inr (mkByteWriter (bw_limit w) (bw_bytes w ++ bs)).
Proof. intros Hp Hw. rewrite Hp by lia. by rewrite bool_decide_true. Qed.

End writers.

Section readers.

Lemma accepts_ret {A} (a : A) : accepts (rd_ret a) [] a.
Proof. by intros tl. Qed.

Lemma accepts_bind {A B} (g : Rd A) (k : A -> Rd B) bs bs' a b :
  accepts g bs a -> accepts (k a) bs' b -> accepts (rd_bind g k) (bs ++ bs') b.
Proof. intros Hg Hk tl. unfold rd_bind. by rewrite <- app_assoc, Hg, Hk. Qed.

Lemma accepts_last {A B} (g : Rd A) (f : A -> B) bs a b :
  accepts g bs a -> f a = b -> accepts (x <~ g; rd_ret (f x)) bs b.
Proof.
  intros Hg <-. rewrite <- (app_nil_r bs). eapply accepts_bind; [done|]. apply accepts_ret.
Qed.

Lemma accepts_check {B} (b : bool) c m (k : Rd B) bs x :
  b = false -> accepts k bs x -> accepts (_ <~ rd_throw_if b c m; k) bs x.
Proof. intros -> Hk. exact Hk. Qed.

Lemma accepts_u8 b : accepts rd_u8 [b] b.
Proof. by intros tl. Qed.

Lemma accepts_le n acc bs : length bs = n -> accepts (rd_le n acc) bs (foldl or_in acc bs).1.
Proof.
  revert acc bs. induction n as [|n IH]; intros acc [|b bs] H; simplify_eq/=; [apply accepts_ret|].
  apply (accepts_bind _ _ [b] bs b); [apply accepts_u8|]. by apply IH.
Qed.

Lemma accepts_le_value n v :
  v < 256 ^ N.of_nat n -> accepts (rd_le n (0, 0)) (le_bytes n v) v.
Proof.
  intros H. pose proof (accepts_le n (0, 0) (le_bytes n v) (le_bytes_length n v)) as Ha.
  fold (le_value (le_bytes n v)) in Ha. by rewrite le_value_inv in Ha.
Qed.

Lemma accepts_u16 v : v < 65536 -> accepts rd_u16 (le_bytes 2 v) v.
Proof. apply (accepts_le_value 2). Qed.

Lemma accepts_u32 v : v <= u32_max -> accepts rd_u32 (le_bytes 4 v) v.
Proof. intros H. apply accepts_le_value. by apply u32_bytes. Qed.

Lemma accepts_u64 v : v <= u64_max -> accepts rd_u64 (le_bytes 8 v) v.
Proof. intros H. apply accepts_le_value. by apply u64_bytes. Qed.

Lemma accepts_match bs name : accepts (rd_match bs name) bs tt.
Proof.
  induction bs as [|b bs IH]; simpl; [apply accepts_ret|].
  apply (accepts_bind _ _ [b] bs b); [apply accepts_u8|]. by rewrite N.eqb_refl.
Qed.

Lemma accepts_require {B} n (k : Rd B) bs b :
  n <= blen bs -> accepts k bs b -> accepts (_ <~ rd_require n; k) bs b.
Proof.
  intros Hn Hk tl. unfold rd_bind, rd_require. rewrite blen_app.
  destruct (N.ltb_spec (blen bs + blen tl) n); [lia|]. apply Hk.
Qed.

Lemma accepts_literal bs name : accepts (rd_expect_literal bs name) bs tt.
Proof. apply accepts_require; [done|apply accepts_match]. Qed.

Lemma accepts_string s : accepts (rd_string (string_size s)) (string_bytes s) s.
Proof.
  apply accepts_require; [by rewrite string_bytes_length|]. intros tl.
  rewrite <- string_bytes_length. unfold blen. rewrite Nat2N.id.
  by rewrite take_app_length, drop_app_length, string_of_string_bytes.
Qed.

End readers.

(** ** Checksums are 32-bit values *)

Section crc.

Lemma lxor_bound a b : a <= u32_max -> b <= u32_max -> N.lxor a b <= u32_max.
Proof.
  intros Ha Hb. destruct (decide (N.lxor a b = 0)) as [->|Hne]; [done|].
  assert (H : N.log2 (N.lxor a b) < 32).
  { eapply N.le_lt_trans; [apply N.log2_lxor|].
    assert (Hlog : forall x, x <= u32_max -> N.log2 x < 32).
    { intros x Hx. destruct (decide (x = 0)) as [->|]; [done|]. apply N.log2_lt_pow2; [lia|].
      change (2 ^ 32) with u32_size. unfold u32_max, u32_size in *. lia. }
    by apply N.max_lub_lt; apply Hlog. }
  apply N.log2_lt_pow2 in H; [|lia]. change (2 ^ 32) with u32_size in H.
  unfold u32_max, u32_size in *. lia.
Qed.

Lemma land_bound a b : a <= u32_max -> N.land a b <= u32_max.
Proof. intros Ha. pose proof (N.land_le_l a b). lia. Qed.

Lemma crc_bit_bound c : c <= u32_max -> crc_bit c <= u32_max.
Proof.
  intros Hc. apply lxor_bound.
  - rewrite N.shiftr_div_pow2. etrans; [|exact Hc]. apply N.Div0.div_le_upper_bound. lia.
  - apply land_bound. done.
Qed.

Lemma crc_byte_bound c b : c <= u32_max -> is_byte b -> crc_byte c b <= u32_max.
Proof.
  intros Hc Hb. unfold crc_byte.
  assert (H : N.lxor c b <= u32_max).
  { apply lxor_bound; [done|]. unfold is_byte, u32_max, u32_size in *. lia. }
  revert H. generalize (N.lxor c b). simpl. auto 10 using crc_bit_bound.
Qed.

Lemma crc32c_bound bs : bytes_ok bs -> crc32c bs <= u32_max.
Proof.
  intros Hok. apply lxor_bound; [|done].
  assert (H : u32_max <= u32_max) by done. revert H. generalize u32_max at 1 3.
  induction Hok as [|b bs Hb _ IH]; intros c Hc; simpl; [done|]. by apply IH, crc_byte_bound.
Qed.

End crc.

(** ** Batches *)

Definition hard_state_bytes (h : HardState) : list N :=
  le_bytes 8 (current_term h) ++
  match voted_for h with Some v => [1] ++ le_bytes 4 v | None => [0] end.

Definition command_bytes (c : ClientCommand) : list N :=
  le_bytes 8 (high (session c)) ++ le_bytes 8 (low (session c)) ++ le_bytes 8 (sequence c) ++
  [command_kind_u8 (kind c)] ++ le_bytes 4 (string_size (key c)) ++
  le_bytes 4 (string_size (value c)) ++ string_bytes (key c) ++ string_bytes (value c).

Definition entry_bytes (e : LogEntry) : list N :=
  le_bytes 8 (index e) ++ le_bytes 8 (term e) ++
  match command e with Some c => [1] ++ command_bytes c | None => [0] end.

Definition entries_bytes (es : list LogEntry) : list N := mjoin (entry_bytes <$> es).

Definition option_u64 (o : option N) : list N :=
  match o with Some i => le_bytes 8 i | None => [] end.

Definition batch_bytes (b : PersistBatch) : list N :=
  le_bytes 4 (batch_flags b) ++ le_bytes 4 (N.of_nat (length (b_entries b))) ++
  match b_hard_state b with Some h => hard_state_bytes h | None => [] end ++
  option_u64 (b_truncate_from b) ++ entries_bytes (b_entries b) ++ option_u64 (b_commit_index b).

(** The size bounds a staged batch respects. *)
Definition entry_within (o : WalOptions) (e : LogEntry) : Prop :=
  match command e with
  | Some c => string_size (key c) <= wo_max_key_bytes o /\ string_size (value c) <= wo_max_value_bytes o
  | None => True
  end.

Definition batch_within (o : WalOptions) (b : PersistBatch) : Prop :=
  N.of_nat (length (b_entries b)) <= wo_max_entries_per_frame o /\
  Forall (entry_within o) (b_entries b).

(** Consequences of the absolute bounds of [validate_options]. *)
Definition options_ok (o : WalOptions) : Prop :=
  kMinimumFrameBytes <= wo_max_frame_bytes o <= kAbsoluteMaxFrameBytes /\
  wo_max_entries_per_frame o <= u32_max /\ wo_max_key_bytes o <= u32_max /\
  wo_max_value_bytes o <= u32_max /\ wo_max_log_entries o <= kAbsoluteMaxLogEntries.

Section batches.

Lemma throw_if_inr b c m u : throw_if b c m = inr u -> b = false.
Proof. by destruct b. Qed.

Lemma validate_options_ok o u : validate_options o = inr u -> options_ok o.
Proof.
  unfold validate_options, wbind. intros H. unfold options_ok.
  repeat (case_match; [done|]).
  repeat match goal with H : throw_if _ _ _ = inr _ |- _ => apply throw_if_inr in H end.
  rewrite ?orb_false_iff, ?N.ltb_ge in *. destruct_and?.
  unfold kAbsoluteMaxEntriesPerFrame, kAbsoluteMaxFrameBytes, u32_max, u32_size in *. lia.
Qed.

Lemma writes_hard_state h : writes (encode_hard_state h) (hard_state_bytes h).
Proof.
  unfold encode_hard_state, hard_state_bytes. destruct (voted_for h) as [v|]; rewrite ?app_assoc.
  - repeat apply writes_seq; apply writes_put.
  - rewrite <- (app_nil_r (_ ++ _)). repeat apply writes_seq; apply writes_put || apply writes_skip.
Qed.

Lemma writes_command c : writes (encode_entry_command c) (command_bytes c).
Proof.
  unfold encode_entry_command, command_bytes. rewrite !app_assoc.
  repeat apply writes_seq; apply writes_put.
Qed.

Lemma writes_entry e : writes (encode_entry e) (entry_bytes e).
Proof.
  unfold encode_entry, entry_bytes. destruct (command e) as [c|]; rewrite !app_assoc.
  - repeat first [apply writes_command | apply writes_put | apply writes_seq].
  - rewrite <- (app_nil_r (_ ++ _)). repeat apply writes_seq; apply writes_put || apply writes_skip.
Qed.

Lemma writes_entries es : writes (encode_entries es) (entries_bytes es).
Proof.
  induction es as [|e es IH]; simpl; [apply writes_skip|]. apply writes_seq; [apply writes_entry|done].
Qed.

Lemma encode_batch_payload_spec b o p :
  encode_batch_payload b o = inr p -> p = batch_bytes b.
Proof.
  unfold encode_batch_payload.
  assert (Hw : writes (bw_u32 (batch_flags b) ;;; bw_u32 (N.of_nat (length (b_entries b))) ;;;
    bw_option (b_hard_state b) encode_hard_state ;;; bw_option (b_truncate_from b) bw_u64 ;;;
    encode_entries (b_entries b) ;;; bw_option (b_commit_index b) bw_u64) (batch_bytes b)).
  { unfold batch_bytes. rewrite !app_assoc. repeat simple apply writes_seq; try apply writes_put.
    - apply writes_option. intros. apply writes_hard_state.
    - apply writes_option. intros. apply writes_put.
    - apply writes_entries.
    - apply writes_option. intros. apply writes_put. }
  unfold wbind. case_match eqn:Hp; [done|]. intros [= <-].
  apply (writes_inv _ _ _ _ Hw) in Hp as [-> _]; [done|]. apply N.le_0_l.
Qed.

End batches.

Create HintDb accepts.
#[export] Hint Resolve accepts_u8 accepts_u32 accepts_u64 accepts_string : accepts.

(** Consume one field of a format. *)
Ltac accept_field := simple eapply accepts_bind; [solve [eauto with accepts]|cbv beta].

Section decoding.
Context {o : WalOptions} (Ho : options_ok o).

Lemma accepts_hard_state h :
  u64 (current_term h) -> match voted_for h with Some v => u32 v | None => True end ->
  accepts decode_hard_state (hard_state_bytes h) h.
Proof.
  intros Ht Hv. unfold decode_hard_state, hard_state_bytes. destruct h as [t [v|]];
    cbn [current_term voted_for] in *; accept_field.
  - accept_field. apply accepts_check; [done|]. eapply accepts_last; [by apply accepts_u32|done].
  - rewrite <- (app_nil_r [0]). accept_field. apply accepts_ret.
Qed.

Lemma accepts_command c :
  command_fits c -> string_size (key c) <= wo_max_key_bytes o ->
  string_size (value c) <= wo_max_value_bytes o ->
  accepts (decode_entry_command o) (command_bytes c) c.
Proof.
  intros (? & ? & ?) Hk Hv. destruct Ho as (_ & _ & ? & ? & _).
  unfold decode_entry_command, command_bytes. do 4 accept_field. rewrite command_kind_u8_of_u8.
  simple eapply accepts_bind; [apply accepts_u32; lia|].
  simple eapply accepts_bind; [apply accepts_u32; lia|]. cbv beta.
  apply accepts_check.
  { apply orb_false_iff. split; by apply N.ltb_ge. }
  accept_field. eapply accepts_last; [apply accepts_string|]. by destruct c as [[]].
Qed.

Lemma accepts_entry e :
  entry_fits e -> entry_within o e -> accepts (decode_entry o) (entry_bytes e) e.
Proof.
  destruct e as [i t oc]. intros (Hi & Ht & Hc) Hw. unfold decode_entry, entry_bytes.
  cbn [index term command] in *. do 2 accept_field. destruct oc as [c|].
  - accept_field. apply accepts_check; [done|]. destruct Hw.
    eapply accepts_last; [by apply accepts_command|done].
  - rewrite <- (app_nil_r [0]). accept_field. apply accepts_ret.
Qed.

Lemma accepts_entries es :
  Forall entry_fits es -> Forall (entry_within o) es ->
  accepts (decode_entries (length es) o) (entries_bytes es) es.
Proof.
  induction es as [|e es IH]; intros Hf Hw; simpl; [apply accepts_ret|].
  apply Forall_cons in Hf as [? ?], Hw as [? ?].
  eapply accepts_bind; [by apply accepts_entry|]. eapply accepts_last; [by apply IH|done].
Qed.

Lemma accepts_flag {A} flags f (p : Rd A) (x : option A) (bs : A -> list N) :
  (N.land flags f =? 0) = is_none x ->
  (forall a, x = Some a -> accepts p (bs a) a) ->
  accepts (rd_flag flags f p) (match x with Some a => bs a | None => [] end) x.
Proof.
  intros Hf Hp. unfold rd_flag. rewrite Hf. destruct x as [a|]; simpl; [|apply accepts_ret].
  eapply accepts_last; [by apply Hp|done].
Qed.

Lemma wal_entries_bytes_length es : 17 * N.of_nat (length es) <= blen (entries_bytes es).
Proof.
  induction es as [|e es IH]; [done|].
  change (entries_bytes (e :: es)) with (entry_bytes e ++ entries_bytes es). rewrite blen_app.
  cbn [length]. enough (17 <= blen (entry_bytes e)) by lia.
  unfold entry_bytes. rewrite !blen_app, !blen_le. unfold blen. destruct (command e); simpl; lia.
Qed.

Lemma batch_flags_spec b :
  batch_flags b <= 7 /\ N.ldiff (batch_flags b) kKnownBatchFlags = 0 /\
  (N.land (batch_flags b) kHardStateFlag =? 0) = is_none (b_hard_state b) /\
  (N.land (batch_flags b) kTruncateFlag =? 0) = is_none (b_truncate_from b) /\
  (N.land (batch_flags b) kCommitFlag =? 0) = is_none (b_commit_index b).
Proof.
  unfold batch_flags. destruct (b_hard_state b), (b_truncate_from b), (b_commit_index b); done.
Qed.

Lemma accepts_count_guard {B} b (k : Rd B) x :
  let bs := entries_bytes (b_entries b) ++ option_u64 (b_commit_index b) in
  accepts k bs x ->
  accepts (_ <~ rd_count_guard (batch_flags b) (N.of_nat (length (b_entries b))); k) bs x.
Proof.
  intros bs Hk tl. unfold rd_bind, rd_count_guard.
  destruct (batch_flags_spec b) as (_ & _ & _ & _ & ->). rewrite blen_app.
  set (trailing := if negb (is_none (b_commit_index b)) then 8 else 0).
  assert (Hbs : 17 * N.of_nat (length (b_entries b)) + trailing <= blen bs).
  { unfold bs. rewrite blen_app. pose proof (wal_entries_bytes_length (b_entries b)).
    unfold trailing, option_u64. destruct (b_commit_index b); simpl; [rewrite blen_le; lia|].
    unfold blen at 2. simpl. lia. }
  destruct (N.ltb_spec (blen bs + blen tl) trailing); [lia|].
  pose proof (N.div_le_lower_bound (blen bs + blen tl - trailing) 17
    (N.of_nat (length (b_entries b))) ltac:(done) ltac:(lia)) as Hdiv.
  unfold kMinimumEntryPayloadBytes. destruct (N.ltb_spec ((blen bs + blen tl - trailing) / 17)
    (N.of_nat (length (b_entries b)))); [lia|]. apply Hk.
Qed.

Lemma accepts_batch b :
  batch_fits b -> batch_within o b -> accepts (decode_batch o) (batch_bytes b) b.
Proof.
  intros (Hh & Ht & He & Hc) (Hn & Hw). destruct Ho as (_ & Hmax & _).
  destruct (batch_flags_spec b) as (Hf & Hk & Hf1 & Hf2 & Hf3).
  unfold decode_batch, batch_bytes.
  simple eapply accepts_bind; [apply accepts_u32; unfold u32_max, u32_size; lia|].
  apply accepts_check; [by rewrite Hk|].
  simple eapply accepts_bind; [apply accepts_u32; lia|]. apply accepts_check; [by apply N.ltb_ge|].
  simple eapply accepts_bind.
  { apply accepts_flag; [done|]. intros h Eh. rewrite Eh in Hh. destruct Hh.
    by apply accepts_hard_state. }
  simple eapply accepts_bind.
  { apply (accepts_flag _ _ _ (b_truncate_from b) (le_bytes 8)); [done|]. intros i Ei.
    rewrite Ei in Ht. by apply accepts_u64. }
  apply accepts_count_guard. rewrite Nat2N.id.
  simple eapply accepts_bind; [by apply accepts_entries|]. eapply accepts_last.
  - apply (accepts_flag _ _ _ (b_commit_index b) (le_bytes 8)); [done|]. intros i Ei.
    rewrite Ei in Hc. by apply accepts_u64.
  - by destruct b.
Qed.

Lemma decode_batch_bytes b :
  batch_fits b -> batch_within o b -> decode_batch_payload (batch_bytes b) o = inr b.
Proof.
  intros Hf Hw. unfold decode_batch_payload, wbind.
  rewrite <- (app_nil_r (batch_bytes b)), (accepts_batch b Hf Hw). done.
Qed.

End decoding.
