(* ===== verification/WalFrames.v ===== *)
(** * WalFrames: file headers and frames round-trip

    The exact bytes [make_file_header] and [make_frame] produce, and that the
    validation functions of recovery accept them and return what was written. *)

From stdpp Require Import pretty.
From S2P Require Import Prelude Model StateMachine Bytes Wal WalFormat.
#[local] Open Scope N_scope.

Definition identity_fits (id : WalIdentity) : Prop :=
  u64 (cluster_id_high id) /\ u64 (cluster_id_low id) /\ u32 (node_id id).

(** ** The formats *)

Definition file_header_prefix (id : WalIdentity) : list N :=
  kFileMagic ++ le_bytes 2 format_version ++ le_bytes 2 kFileHeaderBytes ++ le_bytes 4 0 ++
  le_bytes 8 (cluster_id_high id) ++ le_bytes 8 (cluster_id_low id) ++ le_bytes 4 (node_id id) ++
  le_bytes 4 0.

Definition file_header_bytes (id : WalIdentity) : list N :=
  file_header_prefix id ++ le_bytes 4 (crc32c (file_header_prefix id)) ++ le_bytes 4 kFileHeaderTag.

(** The size of the frame of a batch. *)
Definition frame_size (b : PersistBatch) : N :=
  kFrameHeaderBytes + blen (batch_bytes b) + kFrameTrailerBytes.

Definition frame_header_prefix (seq : N) (b : PersistBatch) : list N :=
  kFrameMagic ++ le_bytes 2 format_version ++ le_bytes 2 kFrameHeaderBytes ++ le_bytes 4 0 ++
  le_bytes 8 (frame_size b) ++ le_bytes 8 (blen (batch_bytes b)) ++ le_bytes 8 seq.

Definition frame_header (seq : N) (b : PersistBatch) : list N :=
  frame_header_prefix seq b ++ le_bytes 4 (crc32c (frame_header_prefix seq b)) ++
  le_bytes 4 kFrameHeaderTag.

Definition frame_body (seq : N) (b : PersistBatch) : list N := frame_header seq b ++ batch_bytes b.

Definition frame_trailer (seq : N) (b : PersistBatch) : list N :=
  le_bytes 4 (crc32c (frame_body seq b)) ++ le_bytes 4 kFrameTrailerTag ++
  le_bytes 8 (frame_size b) ++ kTrailerMagic.

Definition frame_bytes (seq : N) (b : PersistBatch) : list N :=
  frame_body seq b ++ frame_trailer seq b.

Section sizes.

Lemma file_header_prefix_length id : blen (file_header_prefix id) = 40.
Proof. unfold file_header_prefix. rewrite !blen_app, !blen_le. done. Qed.

Lemma file_header_length id : blen (file_header_bytes id) = kFileHeaderBytes.
Proof. unfold file_header_bytes. rewrite !blen_app, !blen_le, file_header_prefix_length. done. Qed.

Lemma frame_header_prefix_length seq b : blen (frame_header_prefix seq b) = 40.
Proof. unfold frame_header_prefix. rewrite !blen_app, !blen_le. done. Qed.

Lemma frame_header_length seq b : blen (frame_header seq b) = kFrameHeaderBytes.
Proof. unfold frame_header. rewrite !blen_app, !blen_le, frame_header_prefix_length. done. Qed.

Lemma frame_trailer_length seq b : blen (frame_trailer seq b) = kFrameTrailerBytes.
Proof. unfold frame_trailer. rewrite !blen_app, !blen_le. done. Qed.

Lemma frame_length seq b : blen (frame_bytes seq b) = frame_size b.
Proof.
  unfold frame_bytes, frame_body, frame_size.
  by rewrite !blen_app, frame_header_length, frame_trailer_length.
Qed.

Lemma take_blen_app (bs bs' : list N) n : blen bs = n -> take (N.to_nat n) (bs ++ bs') = bs.
Proof. intros <-. unfold blen. by rewrite Nat2N.id, take_app_length. Qed.

Lemma drop_blen_app (bs bs' : list N) n : blen bs = n -> drop (N.to_nat n) (bs ++ bs') = bs'.
Proof. intros <-. unfold blen. by rewrite Nat2N.id, drop_app_length. Qed.

Lemma take_40 (bs bs' : list N) : blen bs = 40 -> take 40 (bs ++ bs') = bs.
Proof. intros H. change 40%nat with (N.to_nat 40). by apply take_blen_app. Qed.

Lemma magic_ok s : bytes_ok (string_bytes s).
Proof. apply string_bytes_ok. Qed.

Lemma file_header_prefix_ok id : bytes_ok (file_header_prefix id).
Proof.
  unfold file_header_prefix.
  repeat (apply Forall_app; split); auto using le_bytes_ok. apply magic_ok.
Qed.

Lemma frame_header_prefix_ok seq b : bytes_ok (frame_header_prefix seq b).
Proof.
  unfold frame_header_prefix.
  repeat (apply Forall_app; split); auto using le_bytes_ok. apply magic_ok.
Qed.

Lemma kind_ok k : bytes_ok [command_kind_u8 k].
Proof. repeat constructor. by destruct k. Qed.

Lemma wal_entry_bytes_ok e : bytes_ok (entry_bytes e).
Proof.
  unfold entry_bytes. destruct (command e) as [c|]; unfold command_bytes;
    repeat (apply Forall_app; split); auto using le_bytes_ok, string_bytes_ok, kind_ok;
    by repeat constructor.
Qed.

Lemma hard_state_bytes_ok h : bytes_ok (hard_state_bytes h).
Proof.
  unfold hard_state_bytes. apply Forall_app. split; [apply le_bytes_ok|].
  destruct (voted_for h); [apply Forall_app; split; [by repeat constructor|apply le_bytes_ok]|].
  by repeat constructor.
Qed.

Lemma batch_bytes_ok b : bytes_ok (batch_bytes b).
Proof.
  unfold batch_bytes, option_u64, entries_bytes.
  repeat (apply Forall_app; split); try apply le_bytes_ok.
  - destruct (b_hard_state b) as [h|]; [|constructor]. apply hard_state_bytes_ok.
  - destruct (b_truncate_from b); [apply le_bytes_ok|constructor].
  - apply Forall_join, Forall_fmap, Forall_true. apply wal_entry_bytes_ok.
  - destruct (b_commit_index b); [apply le_bytes_ok|constructor].
Qed.

Lemma frame_body_ok seq b : bytes_ok (frame_body seq b).
Proof.
  unfold frame_body, frame_header. rewrite !Forall_app.
  auto 10 using frame_header_prefix_ok, le_bytes_ok, batch_bytes_ok.
Qed.

End sizes.

(** ** Writing *)

Section writing.

Lemma make_file_header_bytes id : make_file_header id = inr (file_header_bytes id).
Proof.
  unfold make_file_header.
  assert (Hp : writes (bw_literal kFileMagic ;;; bw_u16 format_version ;;; bw_u16 kFileHeaderBytes ;;;
    bw_u32 0 ;;; bw_u64 (cluster_id_high id) ;;; bw_u64 (cluster_id_low id) ;;;
    bw_u32 (node_id id) ;;; bw_u32 0) (file_header_prefix id)).
  { unfold file_header_prefix. rewrite !app_assoc. repeat simple apply writes_seq; apply writes_put. }
  assert (Ht : forall c, writes (bw_u32 c ;;; bw_u32 kFileHeaderTag)
    (le_bytes 4 c ++ le_bytes 4 kFileHeaderTag)).
  { intros c. repeat simple apply writes_seq; apply writes_put. }
  unfold wbind. rewrite (writes_exact _ _ _ Hp) by (by rewrite file_header_prefix_length).
  cbn [bw_bytes bw_limit new_byte_writer]. rewrite app_nil_l.
  rewrite (writes_exact _ _ _ (Ht _)); [done|]. cbn [bw_bytes bw_limit].
  rewrite !blen_app, !blen_le, file_header_prefix_length. done.
Qed.

Lemma make_frame_bytes seq b o f :
  make_frame seq b o = inr f -> f = frame_bytes seq b /\ frame_size b <= wo_max_frame_bytes o.
Proof.
  unfold make_frame, wbind. destruct (encode_batch_payload b o) as [e|p] eqn:Hp; [done|].
  apply encode_batch_payload_spec in Hp as ->. fold (frame_size b).
  destruct (throw_if _ _ _) as [e|u] eqn:Hs; [done|]. apply throw_if_inr, N.ltb_ge in Hs.
  assert (H1 : writes (bw_literal kFrameMagic ;;; bw_u16 format_version ;;; bw_u16 kFrameHeaderBytes ;;;
    bw_u32 0 ;;; bw_u64 (frame_size b) ;;; bw_u64 (blen (batch_bytes b)) ;;; bw_u64 seq)
    (frame_header_prefix seq b)).
  { unfold frame_header_prefix. rewrite !app_assoc. repeat simple apply writes_seq; apply writes_put. }
  assert (H2 : forall c, writes (bw_u32 c ;;; bw_u32 kFrameHeaderTag ;;; bw_raw (batch_bytes b))
    (le_bytes 4 c ++ le_bytes 4 kFrameHeaderTag ++ batch_bytes b)).
  { intros c. rewrite !app_assoc. repeat simple apply writes_seq; apply writes_put. }
  assert (H3 : forall c, writes (bw_u32 c ;;; bw_u32 kFrameTrailerTag ;;; bw_u64 (frame_size b) ;;;
    bw_literal kTrailerMagic) (le_bytes 4 c ++ le_bytes 4 kFrameTrailerTag ++
    le_bytes 8 (frame_size b) ++ kTrailerMagic)).
  { intros c. rewrite !app_assoc. repeat simple apply writes_seq; apply writes_put. }
  assert (Hsz : frame_size b = 72 + blen (batch_bytes b)).
  { unfold frame_size, kFrameHeaderBytes, kFrameTrailerBytes. lia. }
  rewrite (writes_exact _ _ _ H1).
  2: { cbn [bw_bytes bw_limit new_byte_writer]. rewrite frame_header_prefix_length.
       change (blen []) with 0. lia. }
  cbn [bw_bytes bw_limit new_byte_writer]. rewrite app_nil_l. rewrite (writes_exact _ _ _ (H2 _)).
  2: { cbn [bw_bytes bw_limit]. rewrite !blen_app, !blen_le, frame_header_prefix_length. lia. }
  cbn [bw_bytes bw_limit]. rewrite (writes_exact _ _ _ (H3 _)).
  2: { cbn [bw_bytes bw_limit]. rewrite !blen_app, !blen_le, frame_header_prefix_length.
       change (blen kTrailerMagic) with 8. lia. }
  intros <-%(inj inr). split; [|done]. cbn [bw_bytes].
  unfold frame_bytes, frame_trailer, frame_body, frame_header. by rewrite <- !app_assoc.
Qed.

End writing.

(** ** Reading back *)

Section reading.
Context {o : WalOptions} (Ho : options_ok o).

Ltac accept_constant n :=
  simple eapply accepts_bind; [apply n; vm_compute; congruence|apply accepts_check; [reflexivity|]].

Lemma accepts_file_header id :
  identity_fits id ->
  accepts read_file_header (file_header_bytes id) (id, crc32c (file_header_prefix id)).
Proof.
  intros (Hh & Hl & Hn). unfold file_header_bytes.
  pose proof (crc32c_bound _ (file_header_prefix_ok id)) as Hcrc. revert Hcrc.
  generalize (crc32c (file_header_prefix id)). intros crc Hcrc.
  unfold read_file_header, file_header_prefix. rewrite <- !app_assoc.
  simple eapply accepts_bind; [apply accepts_literal|].
  accept_constant accepts_u16. accept_constant accepts_u16. accept_constant accepts_u32.
  simple eapply accepts_bind; [by apply accepts_u64|].
  simple eapply accepts_bind; [by apply accepts_u64|].
  simple eapply accepts_bind; [by apply accepts_u32|].
  accept_constant accepts_u32.
  simple eapply accepts_bind; [by apply accepts_u32|].
  rewrite <- (app_nil_r (le_bytes 4 kFileHeaderTag)).
  accept_constant accepts_u32. cbv beta. destruct id. apply accepts_ret.
Qed.

Lemma validate_file_header_bytes id :
  identity_fits id -> validate_file_header (file_header_bytes id) id = inr tt.
Proof.
  intros Hid. unfold validate_file_header. rewrite file_header_length.
  pose proof (accepts_file_header id Hid []) as Hr. rewrite app_nil_r in Hr.
  unfold wbind. rewrite N.eqb_refl. cbn [throw_if negb]. rewrite Hr. cbn [fst].
  unfold file_header_bytes at 1. rewrite take_40 by apply file_header_prefix_length.
  rewrite N.eqb_refl. cbn [throw_if negb]. rewrite bool_decide_true by reflexivity. reflexivity.
Qed.

Lemma validate_file_header_other id other :
  identity_fits id -> id <> other ->
  validate_file_header (file_header_bytes id) other =
    throw identity_mismatch "WAL cluster or node identity mismatch".
Proof.
  intros Hid Hne. unfold validate_file_header. rewrite file_header_length.
  pose proof (accepts_file_header id Hid []) as Hr. rewrite app_nil_r in Hr.
  unfold wbind. rewrite N.eqb_refl. cbn [throw_if negb]. rewrite Hr. cbn [fst].
  unfold file_header_bytes at 1. rewrite take_40 by apply file_header_prefix_length.
  rewrite N.eqb_refl. cbn [throw_if negb]. rewrite bool_decide_false by exact Hne. reflexivity.
Qed.

Lemma frame_size_bounds seq b :
  frame_size b <= wo_max_frame_bytes o -> seq <= u64_max ->
  u64 (frame_size b) /\ u64 (blen (batch_bytes b)) /\ kMinimumFrameBytes <= frame_size b.
Proof.
  intros Hs Hseq. destruct Ho as ([Hmin Hmax] & _).
  assert (8 <= blen (batch_bytes b)).
  { unfold batch_bytes. rewrite !blen_app, !blen_le. lia. }
  unfold u64, u64_max, u64_size, frame_size, kMinimumFrameBytes, kFrameHeaderBytes, kFrameTrailerBytes,
    kBatchPrefixBytes, kAbsoluteMaxFrameBytes in *. lia.
Qed.

Lemma accepts_frame_header seq b :
  frame_size b <= wo_max_frame_bytes o -> seq <= u64_max ->
  accepts read_frame_header (frame_header seq b)
    (mkParsedFrameHeader (frame_size b) (blen (batch_bytes b)) seq,
     crc32c (frame_header_prefix seq b)).
Proof.
  intros Hs Hseq. destruct (frame_size_bounds seq b Hs Hseq) as (Hf & Hp & _). unfold frame_header.
  pose proof (crc32c_bound _ (frame_header_prefix_ok seq b)) as Hcrc. revert Hcrc.
  generalize (crc32c (frame_header_prefix seq b)). intros crc Hcrc.
  unfold read_frame_header, frame_header_prefix. rewrite <- !app_assoc.
  simple eapply accepts_bind; [apply accepts_literal|].
  accept_constant accepts_u16. accept_constant accepts_u16. accept_constant accepts_u32.
  simple eapply accepts_bind; [by apply accepts_u64|].
  simple eapply accepts_bind; [by apply accepts_u64|].
  simple eapply accepts_bind; [by apply accepts_u64|].
  simple eapply accepts_bind; [by apply accepts_u32|].
  rewrite <- (app_nil_r (le_bytes 4 kFrameHeaderTag)).
  accept_constant accepts_u32. apply accepts_ret.
Qed.

Lemma parse_frame_header_bytes seq b :
  frame_size b <= wo_max_frame_bytes o -> seq <= u64_max ->
  parse_frame_header (frame_header seq b) o =
    inr (mkParsedFrameHeader (frame_size b) (blen (batch_bytes b)) seq).
Proof.
  intros Hs Hseq. destruct (frame_size_bounds seq b Hs Hseq) as (Hf & Hp & Hmin).
  pose proof (accepts_frame_header seq b Hs Hseq []) as Hr. rewrite app_nil_r in Hr.
  unfold parse_frame_header, wbind. rewrite Hr. cbn [fst].
  unfold frame_header at 1. rewrite take_40 by apply frame_header_prefix_length.
  rewrite N.eqb_refl. cbn [negb throw_if fh_frame_size fh_payload_size].
  destruct (N.ltb_spec (frame_size b) kMinimumFrameBytes); [lia|].
  destruct (N.ltb_spec (wo_max_frame_bytes o) (frame_size b)); [lia|].
  unfold u64 in *. destruct (N.ltb_spec u64_max (frame_size b)); [lia|]. cbn [orb throw_if].
  destruct (N.ltb_spec (wo_max_frame_bytes o) (blen (batch_bytes b))) as [Hx|];
    [unfold frame_size in *; lia|].
  rewrite (add64_small (blen (batch_bytes b))), add64_small by
    (unfold frame_size, kFrameHeaderBytes, kFrameTrailerBytes in *; lia).
  replace (blen (batch_bytes b) + kFrameHeaderBytes + kFrameTrailerBytes) with (frame_size b)
    by (unfold frame_size; lia).
  by rewrite N.eqb_refl.
Qed.

Lemma accepts_trailer seq b :
  frame_size b <= wo_max_frame_bytes o -> seq <= u64_max ->
  accepts (read_trailer (frame_size b)) (frame_trailer seq b) (crc32c (frame_body seq b)).
Proof.
  intros Hs Hseq. destruct (frame_size_bounds seq b Hs Hseq) as (Hf & _).
  unfold frame_trailer, read_trailer.
  simple eapply accepts_bind; [apply accepts_u32, crc32c_bound, frame_body_ok|].
  accept_constant accepts_u32.
  simple eapply accepts_bind; [by apply accepts_u64|].
  apply accepts_check; [by rewrite N.eqb_refl|].
  eapply accepts_last; [apply accepts_literal|done].
Qed.

Lemma validate_frame_bytes seq b :
  frame_size b <= wo_max_frame_bytes o -> seq <= u64_max -> batch_fits b -> batch_within o b ->
  validate_complete_frame (frame_bytes seq b)
    (mkParsedFrameHeader (frame_size b) (blen (batch_bytes b)) seq) o = inr b.
Proof.
  intros Hs Hseq Hf Hw. unfold validate_complete_frame, wbind.
  cbn [fh_payload_size fh_frame_size]. unfold frame_bytes at 1 2.
  assert (Hb : blen (frame_body seq b) = kFrameHeaderBytes + blen (batch_bytes b)).
  { unfold frame_body. by rewrite blen_app, frame_header_length. }
  rewrite take_blen_app, drop_blen_app by done.
  rewrite take_ge.
  2: { pose proof (frame_trailer_length seq b) as Hl. unfold blen in Hl. lia. }
  pose proof (accepts_trailer seq b Hs Hseq []) as Hr. rewrite app_nil_r in Hr.
  rewrite Hr. cbn [fst]. rewrite N.eqb_refl. cbn [negb throw_if].
  unfold frame_bytes, frame_body. rewrite <- app_assoc.
  rewrite drop_blen_app by apply frame_header_length. rewrite take_blen_app by done.
  by apply decode_batch_bytes.
Qed.

End reading.
