(* ===== verification/WalRecovery.v ===== *)
(** * WalRecovery: staged batches and recovery scans

    Staging a batch in a [ValidationView] computes the durable state the
    protocol proof uses ([apply_batch]) and keeps the log well formed; scanning
    a file image finds exactly the batches whose frames are complete. *)

From stdpp Require Import pretty.
From S2P Require Import Prelude Model StateMachine RaftTypes RaftSpec System.
From S2P Require Import Bytes Wal WalFormat WalFrames.
#[local] Open Scope N_scope.

(** ** Staging *)

(** The durable state a view stands for. *)
Definition view_log (v : ValidationView) : list LogEntry :=
  take (vv_base_keep v) (vv_base_entries v) ++ vv_suffix v.

Definition view_state (v : ValidationView) : RecoveredState :=
  mkRecoveredState (vv_hard_state v) (view_log v) (vv_commit_index v).

Definition wal_recovered (st : WalState) : RecoveredState :=
  mkRecoveredState (ws_hard_state st) (ws_entries st) (ws_commit_index st).

(** The kept prefix lies inside the base log. *)
Definition view_ok (v : ValidationView) : Prop :=
  (vv_base_keep v <= length (vv_base_entries v))%nat.

(** A well-formed durable log: indexes from one, terms that neither decrease nor
    pass the current term, a commit index inside the log, no vote in term zero. *)
Record wal_ok (r : RecoveredState) : Prop := {
  wal_index : forall i e, rec_log r !! i = Some e -> index e = N.of_nat i + 1;
  wal_term : forall i e, rec_log r !! i = Some e ->
    1 <= term e <= current_term (rec_hard_state r);
  wal_sorted : forall i e e', rec_log r !! i = Some e -> rec_log r !! S i = Some e' ->
    term e <= term e';
  wal_commit : rec_commit_index r <= N.of_nat (length (rec_log r));
  wal_vote : current_term (rec_hard_state r) = 0 -> voted_for (rec_hard_state r) = None;
}.

(** What a batch may do to the durable state: the term never decreases, a vote
    of a term is kept, and the committed prefix stays. *)
Record wal_step (r r' : RecoveredState) : Prop := {
  ws_term_mono : current_term (rec_hard_state r) <= current_term (rec_hard_state r');
  ws_vote_kept : current_term (rec_hard_state r') = current_term (rec_hard_state r) ->
    forall x, voted_for (rec_hard_state r) = Some x -> voted_for (rec_hard_state r') = Some x;
  ws_commit_mono : rec_commit_index r <= rec_commit_index r';
  ws_prefix : take (N.to_nat (rec_commit_index r)) (rec_log r') =
              take (N.to_nat (rec_commit_index r)) (rec_log r);
}.

(** Split the throws of a successful computation into their conditions. *)
Ltac thrown H :=
  repeat match type of H with
  | wbind (throw_if ?b _ _) _ = inr _ =>
      let E := fresh "E" in destruct b eqn:E; [discriminate H|]; cbn [throw_if wbind] in H
  end.

Section staging.
Context (o : WalOptions).
Implicit Types (v : ValidationView) (e : LogEntry).

Lemma view_last_index v : view_ok v -> vv_last_index v = N.of_nat (length (view_log v)).
Proof. intros Hv. unfold vv_last_index, view_log. rewrite length_app, length_take. unfold view_ok in Hv. lia. Qed.

Lemma view_last_term v e :
  view_ok v -> last (view_log v) = Some e -> vv_last_term v = term e.
Proof.
  intros Hv. unfold view_log, vv_last_term. rewrite last_app.
  destruct (last (vv_suffix v)); [naive_solver|]. intros Hl. unfold view_ok in Hv.
  rewrite last_lookup, length_take in Hl. destruct (Nat.eqb_spec (vv_base_keep v) 0) as [E|E].
  { rewrite E in Hl. by rewrite lookup_take_ge in Hl by lia. }
  rewrite lookup_take_full in Hl by lia.
  replace (Init.Nat.pred (vv_base_keep v `min` length (vv_base_entries v)))
    with (vv_base_keep v - 1)%nat in Hl by lia. by rewrite Hl.
Qed.

Lemma stage_hard_state_spec h v v' :
  stage_hard_state h v = inr v' -> view_ok v -> wal_ok (view_state v) ->
  view_ok v' /\ wal_ok (view_state v') /\ wal_step (view_state v) (view_state v') /\
  view_state v' = mkRecoveredState (from_option id (vv_hard_state v) h) (view_log v) (vv_commit_index v).
Proof.
  destruct h as [h|]; simpl; intros H Hv Hw.
  2: { injection H as <-. split_and!; auto. by constructor. }
  thrown H. injection H as <-. apply N.ltb_ge in E0.
  split_and!; [done| | |done].
  - destruct Hw as [Hi Ht Hs Hc Hz]. constructor; simpl in *; eauto.
    + intros i e He. specialize (Ht i e He). lia.
    + intros Hz'. rewrite Hz' in E. destruct (voted_for h); done.
  - constructor; simpl; [done| |done|done]. intros Heq x Hx. rewrite Heq, N.eqb_refl, Hx in E1.
    simpl in E1. apply negb_false_iff, bool_decide_eq_true in E1. congruence.
Qed.

Lemma wal_ok_take r n :
  wal_ok r -> rec_commit_index r <= N.of_nat n ->
  wal_ok (mkRecoveredState (rec_hard_state r) (take n (rec_log r)) (rec_commit_index r)).
Proof.
  intros [Hi Ht Hs Hc Hz] Hn. constructor; simpl; eauto.
  - intros i e [H _]%lookup_take_Some. eauto.
  - intros i e [H _]%lookup_take_Some. eauto.
  - intros i e e' [H _]%lookup_take_Some [H' _]%lookup_take_Some. eauto.
  - rewrite length_take. lia.
Qed.

Lemma stage_truncate_spec t v v' :
  stage_truncate t v = inr v' -> view_ok v -> wal_ok (view_state v) ->
  view_ok v' /\ wal_ok (view_state v') /\ wal_step (view_state v) (view_state v') /\
  view_state v' = mkRecoveredState (vv_hard_state v)
    (match t with Some i => take (N.to_nat (i - 1)) (view_log v) | None => view_log v end)
    (vv_commit_index v).
Proof.
  destruct t as [from|]; simpl; intros H Hv Hw.
  2: { injection H as <-. split_and!; auto. by constructor. }
  thrown H. injection H as <-. apply N.eqb_neq in E. apply N.leb_gt in E0.
  assert (Hst : forall v', (v' = if (N.to_nat (from - 1) <=? vv_base_keep v)%nat
      then mkValidationView (vv_hard_state v) (vv_commit_index v) (vv_base_entries v)
             (N.to_nat (from - 1)) []
      else mkValidationView (vv_hard_state v) (vv_commit_index v) (vv_base_entries v)
             (vv_base_keep v) (take (N.to_nat (from - 1) - vv_base_keep v) (vv_suffix v))) ->
    view_ok v' /\ view_state v' = mkRecoveredState (vv_hard_state v)
      (take (N.to_nat (from - 1)) (view_log v)) (vv_commit_index v)).
  { intros v' ->. unfold view_ok, view_state, view_log in *.
    destruct (Nat.leb_spec (N.to_nat (from - 1)) (vv_base_keep v)); simpl; (split; [lia|]); f_equal.
    - rewrite take_app_le by (rewrite length_take; lia). rewrite take_take, app_nil_r. f_equal. lia.
    - rewrite take_app_ge by (rewrite length_take; lia). rewrite length_take. do 2 f_equal. lia. }
  destruct (Hst _ eq_refl) as [Hok Heq]. split_and!; [done| | |done]; rewrite Heq.
  - apply (wal_ok_take (view_state v)); [done|]. simpl. lia.
  - constructor; simpl; [done|done|done|]. rewrite take_take. f_equal. lia.
Qed.

Lemma stage_entry_spec e v v' :
  stage_entry o e v = inr v' -> view_ok v -> wal_ok (view_state v) ->
  view_ok v' /\ wal_ok (view_state v') /\ entry_within o e /\
  view_state v' = mkRecoveredState (vv_hard_state v) (view_log v ++ [e]) (vv_commit_index v).
Proof.
  unfold stage_entry. intros H Hv Hw. thrown H.
  rewrite view_last_index in * by done.
  assert (Hin : entry_within o e /\ v' = mkValidationView (vv_hard_state v) (vv_commit_index v)
    (vv_base_entries v) (vv_base_keep v) (vv_suffix v ++ [e])).
  { unfold entry_within. destruct (command e) as [c|].
    - thrown H. injection H as <-. apply orb_false_iff in E3. rewrite !N.ltb_ge in E3. done.
    - by injection H as <-. }
  destruct Hin as [Hin ->]. clear H.
  apply negb_false_iff, N.eqb_eq in E0. apply orb_false_iff in E1 as [E1%N.eqb_neq E1'%N.ltb_ge].
  split_and!; [done| |done|]; [|unfold view_state, view_log; simpl; by rewrite app_assoc].
  destruct Hw as [Hi Ht Hs Hc Hz]. unfold view_state, view_log in *. simpl in *.
  rewrite app_assoc in *. set (l := take (vv_base_keep v) (vv_base_entries v) ++ vv_suffix v) in *.
  constructor; simpl; rewrite ?app_assoc; fold l; eauto.
  - intros i x [[Hl Hx]|[-> <-]]%lookup_snoc_Some; [eauto|]. lia.
  - intros i x [[Hl Hx]|[-> <-]]%lookup_snoc_Some; [eauto|]. lia.
  - intros i x x' [[Hl Hx]|[Hx <-]]%lookup_snoc_Some [[Hl' Hx']|[Hx' Heq]]%lookup_snoc_Some; try lia.
    + eauto.
    + subst x'. assert (Hlast : last l = Some x).
      { rewrite last_lookup. rewrite <- Hx. f_equal. lia. }
      pose proof (view_last_term v x Hv Hlast) as Hlt. rewrite Hlt in E2.
      apply andb_false_iff in E2 as [E2%N.ltb_ge|E2%N.ltb_ge]; lia.
  - rewrite length_app. simpl. lia.
Qed.
Lemma stage_entries_spec es v v' :
  stage_entries o es v = inr v' -> view_ok v -> wal_ok (view_state v) ->
  view_ok v' /\ wal_ok (view_state v') /\ Forall (entry_within o) es /\
  view_state v' = mkRecoveredState (vv_hard_state v) (view_log v ++ es) (vv_commit_index v).
Proof.
  revert v. induction es as [|e es IH]; intros v H Hv Hw; simpl in H.
  - injection H as <-. rewrite app_nil_r. auto.
  - destruct (stage_entry o e v) as [err|v1] eqn:E; [discriminate H|]. simpl in H.
    destruct (stage_entry_spec _ _ _ E Hv Hw) as (Hv1 & Hw1 & He & Heq).
    destruct (IH v1 H Hv1 Hw1) as (Hv2 & Hw2 & Hes & Heq2).
    split_and!; [done|done|by constructor|]. rewrite Heq2.
    unfold view_state in Heq. injection Heq as -> -> ->. by rewrite <- app_assoc.
Qed.

Lemma stage_commit_spec c v v' :
  stage_commit c v = inr v' -> view_ok v -> wal_ok (view_state v) ->
  view_ok v' /\ wal_ok (view_state v') /\ wal_step (view_state v) (view_state v') /\
  view_state v' = mkRecoveredState (vv_hard_state v) (view_log v) (from_option id (vv_commit_index v) c).
Proof.
  destruct c as [c|]; simpl; intros H Hv Hw.
  2: { injection H as <-. split_and!; auto. by constructor. }
  thrown H. injection H as <-. apply N.ltb_ge in E, E0. rewrite view_last_index in E0 by done.
  split_and!; [done| | |done].
  - destruct Hw. by constructor.
  - by constructor.
Qed.

Lemma wal_step_trans r1 r2 r3 : wal_step r1 r2 -> wal_step r2 r3 -> wal_step r1 r3.
Proof.
  intros [T1 V1 C1 P1] [T2 V2 C2 P2]. constructor; [lia| |lia|].
  - intros Heq x Hx. apply V2; [lia|]. apply V1; [lia|done].
  - rewrite <- P1. apply (f_equal (take (N.to_nat (rec_commit_index r1)))) in P2.
    rewrite !take_take in P2.
    by replace (N.to_nat (rec_commit_index r1) `min` N.to_nat (rec_commit_index r2))%nat
      with (N.to_nat (rec_commit_index r1)) in P2 by lia.
Qed.

Lemma wal_step_append r es :
  wal_ok r ->
  wal_step r (mkRecoveredState (rec_hard_state r) (rec_log r ++ es) (rec_commit_index r)).
Proof.
  intros Hr. constructor; simpl; try done. destruct Hr as [_ _ _ Hc _].
  by rewrite take_app_le by lia.
Qed.

(** Staging computes [apply_batch] and keeps the durable state well formed. *)
Lemma stage_spec b v v' :
  stage b o v = inr v' -> view_ok v -> wal_ok (view_state v) ->
  view_ok v' /\ wal_ok (view_state v') /\ wal_step (view_state v) (view_state v') /\
  batch_within o b /\ view_state v' = apply_batch (view_state v) b.
Proof.
  unfold stage. intros H Hv Hw. thrown H. apply N.ltb_ge in E0.
  destruct (stage_hard_state _ v) as [|v1] eqn:E1; [discriminate H|]. cbn [wbind] in H.
  destruct (stage_truncate _ v1) as [|v2] eqn:E2; [discriminate H|]. cbn [wbind] in H.
  destruct (stage_entries _ _ v2) as [|v3] eqn:E3; [discriminate H|]. cbn [wbind] in H.
  destruct (stage_hard_state_spec _ _ _ E1 Hv Hw) as (Hv1 & Hw1 & S1 & Q1).
  destruct (stage_truncate_spec _ _ _ E2 Hv1 Hw1) as (Hv2 & Hw2 & S2 & Q2).
  destruct (stage_entries_spec _ _ _ E3 Hv2 Hw2) as (Hv3 & Hw3 & Hes & Q3).
  destruct (stage_commit_spec _ _ _ H Hv3 Hw3) as (Hv4 & Hw4 & S4 & Q4).
  pose proof (wal_step_append (view_state v2) (b_entries b) Hw2) as S3.
  assert (S3' : wal_step (view_state v2) (view_state v3)) by (by rewrite Q3).
  split_and!; [done|done|by eauto using wal_step_trans|done|].
  rewrite Q4. unfold view_state in Q1, Q2, Q3. injection Q1 as H1 L1 C1.
  injection Q2 as H2 L2 C2. injection Q3 as H3 L3 C3.
  rewrite H3, L3, C3, H2, L2, C2, H1, L1, C1. unfold apply_batch, view_state. simpl.
  by destruct (b_hard_state b), (b_commit_index b).
Qed.

Lemma new_view_state st : view_ok (new_view st) /\ view_state (new_view st) = wal_recovered st.
Proof.
  unfold view_ok, view_state, view_log, wal_recovered. simpl.
  by rewrite firstn_all, app_nil_r.
Qed.

(** The base log of a view never changes. *)
Lemma stage_base b v v' : stage b o v = inr v' -> vv_base_entries v' = vv_base_entries v.
Proof.
  assert (Hes : forall es v v', stage_entries o es v = inr v' ->
    vv_base_entries v' = vv_base_entries v).
  { induction es as [|e es IH]; intros w w' H; simpl in H; [by injection H as <-|].
    destruct (stage_entry o e w) as [|w1] eqn:E; [discriminate H|]. rewrite (IH _ _ H).
    unfold stage_entry in E. thrown E. destruct (command e); thrown E; by injection E as <-. }
  unfold stage. intros H. thrown H.
  destruct (stage_hard_state _ v) as [|v1] eqn:E1; [discriminate H|]. cbn [wbind] in H.
  destruct (stage_truncate _ v1) as [|v2] eqn:E2; [discriminate H|]. cbn [wbind] in H.
  destruct (stage_entries _ _ v2) as [|v3] eqn:E3; [discriminate H|]. cbn [wbind] in H.
  apply Hes in E3. unfold stage_hard_state, stage_truncate, stage_commit in *.
  destruct (b_hard_state b), (b_truncate_from b), (b_commit_index b);
    thrown E1; thrown E2; thrown H; simplify_eq; repeat case_match; simpl in *; congruence.
Qed.

Lemma materialize_state b st v :
  stage b o (new_view st) = inr v -> wal_recovered (materialize v st) = view_state v.
Proof.
  intros H. apply stage_base in H. unfold wal_recovered, view_state, view_log. simpl in *.
  by rewrite H.
Qed.

End staging.
