(* ===== verification/WalScan.v ===== *)
(** * WalScan: recovery from complete and torn files

    A log written frame by frame, cut anywhere inside the next frame, scans to
    the state after its complete frames.  The scan terminates on every input. *)

From stdpp Require Import pretty.
From S2P Require Import Prelude Model StateMachine RaftTypes RaftSpec System.
From S2P Require Import Bytes Wal WalFormat WalFrames WalRecovery.
#[local] Open Scope N_scope.

(** The state of a log that holds its file header only. *)
Definition created_state : WalState := sc_state (scanned initial_state 0 kFileHeaderBytes).

(** Frames appended one after the other: their bytes and the state they leave. *)
Fixpoint wal_write (o : WalOptions) (st : WalState) (bs : list PersistBatch)
  : W (list N * WalState) :=
  match bs with
  | [] => inr ([], st)
  | b :: bs =>
      f <- encode_wal_frame st b o;
      r <- wal_write o (ef_state_after f) bs;
      inr (ef_bytes f ++ r.1, r.2)
  end.

(** The state a frame leaves behind. *)
Definition advanced (st : WalState) (v : ValidationView) (bs : list N) : WalState :=
  mkWalState (vv_hard_state v) (take (vv_base_keep v) (ws_entries st) ++ vv_suffix v)
    (vv_commit_index v) (add64 (ws_last_frame_sequence st) 1) (ws_durable_frame_sequence st)
    (ws_file_bytes st + blen bs) (ws_repaired_incomplete_tail st).

(** [appended o st bs fs st']: the frames [fs] of the batches [bs], each staged
    over the state the previous one left, lead from [st] to [st']. *)
Inductive appended (o : WalOptions) : WalState -> list PersistBatch -> list N -> WalState -> Prop :=
  | appended_nil st : appended o st [] [] st
  | appended_cons st b v bs fs st' f :
      stage b o (new_view st) = inr v -> frame_size b <= wo_max_frame_bytes o ->
      f = frame_bytes (add64 (ws_last_frame_sequence st) 1) b ->
      appended o (advanced st v f) bs fs st' -> appended o st (b :: bs) (f ++ fs) st'.

(** A tail that ends inside the frame of a further batch. *)
Definition torn (o : WalOptions) (st : WalState) (t : list N) : Prop :=
  t = [] \/
  exists b, frame_size b <= wo_max_frame_bytes o /\
    t `prefix_of` frame_bytes (add64 (ws_last_frame_sequence st) 1) b /\ blen t < frame_size b.

Section scan.
Context {o : WalOptions}.

Lemma encode_wal_frame_inv st b f :
  encode_wal_frame st b o = inr f ->
  options_ok o /\ frame_size b <= wo_max_frame_bytes o /\
  ef_bytes f = frame_bytes (add64 (ws_last_frame_sequence st) 1) b /\
  exists v, stage b o (new_view st) = inr v /\ ef_state_after f = advanced st v (ef_bytes f).
Proof.
  unfold encode_wal_frame. intros H.
  destruct (validate_options o) as [|u] eqn:Ho; [discriminate H|]. cbn [wbind] in H.
  apply validate_options_ok in Ho.
  destruct (validate_state_summary st o) as [|u']; [discriminate H|]. cbn [wbind] in H. thrown H.
  destruct (stage b o (new_view st)) as [|v] eqn:Hs; [discriminate H|]. cbn [wbind] in H.
  destruct (make_frame _ b o) as [|bs] eqn:Hf; [discriminate H|]. cbn [wbind] in H. thrown H.
  apply (inj inr) in H as <-. apply make_frame_bytes in Hf as [-> Hsz]. eauto 10.
Qed.

Lemma encode_wal_frame_options st b f :
  encode_wal_frame st b o = inr f -> validate_options o = inr tt.
Proof. unfold encode_wal_frame. by destruct (validate_options o) as [|[]]. Qed.

Context (bs : list N).

Lemma read_span_app pre mid tl n :
  bs = pre ++ mid ++ tl -> blen mid = n -> read_span bs (blen pre) n = inr mid.
Proof.
  intros -> <-. unfold read_span. rewrite !blen_app.
  destruct (N.ltb_spec (blen pre + (blen mid + blen tl)) (blen pre)); [lia|].
  destruct (N.ltb_spec (blen pre + (blen mid + blen tl) - blen pre) (blen mid)); [lia|].
  simpl. by rewrite drop_blen_app, take_blen_app by done.
Qed.

(** A complete frame at the scan position is replayed. *)
Lemma scan_frame fuel pre tl st b v r :
  options_ok o -> frame_size b <= wo_max_frame_bytes o -> batch_fits b ->
  stage b o (new_view st) = inr v -> wal_ok (wal_recovered st) -> sc_state r = st ->
  bs = pre ++ frame_bytes (add64 (ws_last_frame_sequence st) 1) b ++ tl ->
  let off := blen pre + frame_size b in
  scan_loop (S fuel) (blen bs) (read_span bs) o (blen pre) r =
  scan_loop fuel (blen bs) (read_span bs) o off
    (scanned (materialize v st) (add64 (ws_last_frame_sequence st) 1) off).
Proof.
  intros Ho Hsz Hfit Hst Hok Hr Hbs off. set (seq := add64 (ws_last_frame_sequence st) 1) in *.
  assert (Hseq : seq <= u64_max) by apply add64_range.
  destruct (frame_size_bounds Ho seq b Hsz Hseq) as (_ & _ & Hmin).
  destruct (new_view_state st) as [Hvok Hvst].
  destruct (stage_spec _ _ _ _ Hst Hvok ltac:(by rewrite Hvst)) as (_ & _ & _ & Hwithin & _).
  assert (Hlen : blen bs = blen pre + (frame_size b + blen tl)).
  { rewrite Hbs, !blen_app, frame_length. done. }
  cbn [scan_loop].
  destruct (N.ltb_spec (blen pre) (blen bs)) as [_|]; [|change kMinimumFrameBytes with 80 in *; lia].
  cbn [negb].
  destruct (N.ltb_spec (blen bs - blen pre) kFrameHeaderBytes);
    [change kMinimumFrameBytes with 80 in *; change kFrameHeaderBytes with 48 in *; lia|].
  rewrite (read_span_app pre (frame_header seq b)
    (batch_bytes b ++ frame_trailer seq b ++ tl) kFrameHeaderBytes).
  2: { rewrite Hbs. unfold frame_bytes, frame_body. by rewrite <- !app_assoc. }
  2: apply frame_header_length.
  cbn [wbind]. rewrite (parse_frame_header_bytes Ho seq b Hsz Hseq).
  cbn [at_offset wbind fh_sequence fh_frame_size]. rewrite Hr. fold seq. rewrite N.eqb_refl.
  cbn [negb throw_if wbind].
  destruct (N.ltb_spec (blen bs - blen pre) (frame_size b)); [lia|].
  rewrite (read_span_app pre (frame_bytes seq b) tl (frame_size b) Hbs (frame_length seq b)).
  cbn [wbind]. rewrite (validate_frame_bytes Ho seq b Hsz Hseq Hfit Hwithin).
  cbn [wbind]. rewrite Hst. reflexivity.
Qed.

(** A torn frame at the scan position ends the scan before it. *)
Lemma scan_torn fuel pre t st b r :
  options_ok o -> frame_size b <= wo_max_frame_bytes o -> sc_state r = st ->
  bs = pre ++ t -> t `prefix_of` frame_bytes (add64 (ws_last_frame_sequence st) 1) b ->
  t <> [] -> blen t < frame_size b ->
  scan_loop (S fuel) (blen bs) (read_span bs) o (blen pre) r = inr (incomplete r).
Proof.
  intros Ho Hsz Hr Hbs [u Hu] Hne Hlt. set (seq := add64 (ws_last_frame_sequence st) 1) in *.
  assert (Hseq : seq <= u64_max) by apply add64_range.
  assert (Hpos : 0 < blen t).
  { destruct t; [done|]. unfold blen. simpl. lia. }
  assert (Hlen : blen bs = blen pre + blen t) by by rewrite Hbs, blen_app.
  cbn [scan_loop]. destruct (N.ltb_spec (blen pre) (blen bs)) as [_|]; [|lia]. cbn [negb].
  destruct (N.ltb_spec (blen bs - blen pre) kFrameHeaderBytes); [done|].
  assert (Ht : t = frame_header seq b ++ drop (N.to_nat kFrameHeaderBytes) t).
  { rewrite <- (take_drop (N.to_nat kFrameHeaderBytes) t) at 1. f_equal.
    assert (Hth : take (N.to_nat kFrameHeaderBytes) (frame_bytes seq b) = frame_header seq b).
    { unfold frame_bytes, frame_body. rewrite <- app_assoc. apply take_blen_app, frame_header_length. }
    rewrite <- Hth, Hu. rewrite take_app_le; [done|]. unfold blen in *. lia. }
  rewrite (read_span_app pre (frame_header seq b) (drop (N.to_nat kFrameHeaderBytes) t)
    kFrameHeaderBytes); [|by rewrite <- Ht|apply frame_header_length].
  cbn [wbind]. rewrite (parse_frame_header_bytes Ho seq b Hsz Hseq).
  cbn [at_offset wbind fh_sequence fh_frame_size]. rewrite Hr. fold seq. rewrite N.eqb_refl.
  cbn [negb throw_if wbind].
  destruct (N.ltb_spec (blen bs - blen pre) (frame_size b)); [done|lia].
Qed.

End scan.

Section files.
Context {o : WalOptions} (Ho : options_ok o).

(** After the complete frames only a torn tail is left. *)
Lemma scan_tail st t pre r fuel bs :
  torn o st t -> r = mkWalScanResult st (blen pre) false -> bs = pre ++ t ->
  (N.to_nat (blen bs - blen pre) <= fuel)%nat ->
  scan_loop fuel (blen bs) (read_span bs) o (blen pre) r =
    inr (mkWalScanResult st (blen pre) (negb (is_nil t))).
Proof.
  intros Ht Hres Hbs Hfuel. destruct (decide (t = [])) as [->|Htne].
  { rewrite app_nil_r in Hbs. subst bs. destruct fuel; simpl; rewrite N.ltb_irrefl; simpl;
      by rewrite Hres. }
  destruct Ht as [?|(b & Hsz & Hp & Hlt)]; [done|].
  assert (0 < blen t) by (destruct t; [done|unfold blen; simpl; lia]).
  assert (blen bs = blen pre + blen t) by by rewrite Hbs, blen_app.
  destruct fuel as [|fuel]; [lia|].
  rewrite (scan_torn bs fuel pre t st b r Ho Hsz ltac:(by rewrite Hres) Hbs Hp Htne Hlt).
  rewrite Hres. unfold incomplete. simpl. by destruct t.
Qed.

(** One appended frame keeps the durable state well formed and applies its batch. *)
Lemma advanced_state st b v f :
  stage b o (new_view st) = inr v -> wal_ok (wal_recovered st) ->
  wal_ok (wal_recovered (advanced st v f)) /\
  wal_recovered (advanced st v f) = apply_batch (wal_recovered st) b.
Proof.
  intros Hs Hok. destruct (new_view_state st) as [Hvok Hvst].
  destruct (stage_spec _ _ _ _ Hs Hvok ltac:(by rewrite Hvst)) as (_ & Hok' & _ & _ & Hap).
  pose proof (materialize_state _ _ _ _ Hs) as Hmat.
  change (wal_recovered (advanced st v f)) with (wal_recovered (materialize v st)).
  rewrite Hmat. split; [done|]. by rewrite Hap, Hvst.
Qed.

Lemma appended_ok batches st fs st' :
  appended o st batches fs st' -> wal_ok (wal_recovered st) ->
  wal_ok (wal_recovered st') /\ wal_recovered st' = foldl apply_batch (wal_recovered st) batches.
Proof.
  induction 1 as [|st b v bs fs st' f Hs Hsz Hf _ IH]; intros Hok; [done|].
  destruct (advanced_state st b v f Hs Hok) as [Hok' Hap]. destruct (IH Hok') as [Hx Hy].
  split; [done|]. by rewrite Hy, Hap.
Qed.

Lemma appended_file batches st fs st' :
  appended o st batches fs st' -> ws_file_bytes st' = ws_file_bytes st + blen fs.
Proof.
  induction 1 as [|st b v bs fs st' f _ _ _ _ IH].
  - change (blen []) with 0. lia.
  - rewrite IH, blen_app. simpl. lia.
Qed.

(** The scan of the frames of a tail from the state they start from. *)
Lemma scan_frames batches st fs st' t pre r fuel bs :
  appended o st batches fs st' -> Forall batch_fits batches -> torn o st' t ->
  wal_ok (wal_recovered st) -> r = mkWalScanResult st (blen pre) false ->
  ws_file_bytes st = blen pre -> bs = pre ++ fs ++ t ->
  (N.to_nat (blen bs - blen pre) <= fuel)%nat ->
  scan_loop fuel (blen bs) (read_span bs) o (blen pre) r =
    inr (mkWalScanResult st' (blen pre + blen fs) (negb (is_nil t))).
Proof.
  intros Ha. revert pre r fuel.
  induction Ha as [st|st b v batches fs st' f Hs Hsz Hf Ha IH];
    intros pre r fuel Hfit Ht Hok Hr Hfb Hbs Hfuel.
  - rewrite N.add_0_r. by apply scan_tail.
  - apply Forall_cons in Hfit as [Hb Hfit].
    assert (Hbs' : bs = pre ++ f ++ (fs ++ t)) by (by rewrite Hbs, <- app_assoc).
    assert (Hfl : blen f = frame_size b) by (by rewrite Hf, frame_length).
    destruct (frame_size_bounds Ho _ b Hsz (add64_range (ws_last_frame_sequence st) 1))
      as (_ & _ & Hmin). change kMinimumFrameBytes with 80 in Hmin.
    assert (Hlen : blen bs = blen pre + (frame_size b + blen (fs ++ t))).
    { by rewrite Hbs', !blen_app, Hfl. }
    destruct fuel as [|fuel]; [lia|].
    rewrite (scan_frame bs fuel pre (fs ++ t) st b v r Ho Hsz Hb Hs Hok ltac:(by rewrite Hr)
      ltac:(by rewrite <- Hf)).
    assert (Hpre : blen (pre ++ f) = blen pre + frame_size b) by (by rewrite blen_app, Hfl).
    cbv zeta. rewrite <- Hpre. destruct (advanced_state st b v f Hs Hok) as [Hok' _].
    etrans; [apply (IH (pre ++ f)); [done|done|done| | | |]|].
    + unfold scanned, advanced, materialize. simpl. by rewrite Hpre, Hfb, Hfl.
    + simpl. by rewrite Hpre, Hfb, Hfl.
    + by rewrite Hbs', <- !app_assoc.
    + rewrite Hpre. lia.
    + rewrite Hpre, blen_app, Hfl. do 2 f_equal. lia.
Qed.

Lemma created_ok : wal_ok (wal_recovered created_state).
Proof. constructor; simpl; try done; intros i e; by rewrite lookup_nil. Qed.

Lemma wal_write_appended batches st fs st' :
  wal_write o st batches = inr (fs, st') -> appended o st batches fs st'.
Proof.
  revert st fs. induction batches as [|b batches IH]; intros st fs Hw; simpl in Hw.
  - injection Hw as <- <-. constructor.
  - destruct (encode_wal_frame st b o) as [|f] eqn:Hf; [discriminate Hw|]. cbn [wbind] in Hw.
    destruct (wal_write o (ef_state_after f) batches) as [|[fs' st2]] eqn:Hw'; [discriminate Hw|].
    cbn [wbind fst snd] in Hw. apply (inj inr) in Hw. apply (inj2 pair) in Hw as [<- ->].
    destruct (encode_wal_frame_inv _ _ _ Hf) as (_ & Hsz & Hb & v & Hs & Hst).
    eapply appended_cons; [done|done|done|]. rewrite <- Hst. by apply IH.
Qed.

Lemma torn_frame st b f t :
  encode_wal_frame st b o = inr f -> t `prefix_of` ef_bytes f -> t <> ef_bytes f -> torn o st t.
Proof.
  intros Hf [w Hp] Hne. destruct (encode_wal_frame_inv _ _ _ Hf) as (_ & Hsz & Hb & _).
  right. exists b. split_and!; [done|rewrite <- Hb, Hp; by eexists|].
  rewrite <- (frame_length (add64 (ws_last_frame_sequence st) 1)), <- Hb, Hp, blen_app.
  destruct w; [by rewrite app_nil_r in Hp|]. unfold blen. simpl. lia.
Qed.

Lemma scan_file id batches fs st t u :
  validate_options o = inr u -> identity_fits id -> Forall batch_fits batches ->
  appended o created_state batches fs st -> torn o st t ->
  scan_wal_bytes (file_header_bytes id ++ fs ++ t) id o =
    inr (finish_scan (mkWalScanResult st (ws_file_bytes st) (negb (is_nil t)))).
Proof.
  intros Hv Hid Hfit Ha Ht. unfold scan_wal_bytes, scan_source. rewrite Hv. cbn [wbind].
  set (bs := file_header_bytes id ++ fs ++ t).
  assert (Hlen : blen bs = kFileHeaderBytes + (blen fs + blen t)).
  { unfold bs. by rewrite !blen_app, file_header_length. }
  destruct (N.ltb_spec (blen bs) kFileHeaderBytes); [lia|]. cbn [throw_if wbind].
  pose proof (read_span_app bs [] (file_header_bytes id) (fs ++ t) kFileHeaderBytes eq_refl
    (file_header_length id)) as Hread. change (blen []) with 0 in Hread. rewrite Hread. cbn [wbind].
  rewrite (validate_file_header_bytes id Hid). cbn [wbind].
  pose proof (scan_frames batches created_state fs st t (file_header_bytes id)
    (scanned initial_state 0 kFileHeaderBytes) (N.to_nat (blen bs)) bs Ha Hfit Ht created_ok) as HA.
  rewrite (file_header_length id) in HA. rewrite HA; [|done|done|done|lia]. cbn [wbind].
  by rewrite (appended_file _ _ _ _ Ha).
Qed.

End files.

(** ** Termination *)

Section termination.
Context {o : WalOptions} (byte_count : N) (read_exact : N -> N -> W (list N)).

Lemma parsed_size hb h : parse_frame_header hb o = inr h -> kMinimumFrameBytes <= fh_frame_size h.
Proof.
  unfold parse_frame_header. intros H. destruct (read_frame_header hb) as [|[[h' sum] tl]];
    [discriminate H|]. cbn [wbind fst] in H. thrown H. injection H as <-.
  apply orb_false_iff in E0 as [E0 _]. apply orb_false_iff in E0 as [E0%N.ltb_ge _]. done.
Qed.

(** Any two amounts of fuel that cover the remaining bytes agree. *)
Lemma scan_loop_fuel fuel fuel' offset r :
  (N.to_nat (byte_count - offset) <= fuel)%nat -> (N.to_nat (byte_count - offset) <= fuel')%nat ->
  scan_loop fuel byte_count read_exact o offset r =
  scan_loop fuel' byte_count read_exact o offset r.
Proof.
  revert fuel' offset r. induction fuel as [|fuel IH]; intros fuel' offset r H1 H2.
  - destruct fuel'; simpl; destruct (N.ltb_spec offset byte_count); done || lia.
  - destruct fuel' as [|fuel']; simpl; destruct (N.ltb_spec offset byte_count); try done; [lia|].
    destruct (_ <? kFrameHeaderBytes); [done|].
    destruct (read_exact offset kFrameHeaderBytes) as [|hb]; [done|]. cbn [wbind].
    destruct (parse_frame_header hb o) as [|h] eqn:Hh; [done|]. cbn [at_offset wbind].
    destruct (throw_if _ _ _); [done|]. cbn [wbind].
    destruct (_ <? fh_frame_size h); [done|].
    destruct (read_exact offset (fh_frame_size h)) as [|frame]; [done|]. cbn [wbind].
    destruct (at_offset offset _) as [|st]; [done|]. cbn [wbind].
    apply parsed_size in Hh. change kMinimumFrameBytes with 80 in Hh. apply IH; lia.
Qed.

End termination.
