(* ===== verification/WalFile.v ===== *)
(** * WalFile: the [Wal] class over a file

    [Wal::Impl] of [src/wal.cpp].  A file is the list of its bytes and the list
    of the bytes an [fsync] made durable; each call of [NativeFile] takes the
    outcome the operating system gives it ([io_ok], or a failure after some
    bytes), so that every sequence of I/O errors is covered. *)

From stdpp Require Import pretty.
From S2P Require Import Prelude Model StateMachine RaftTypes RaftSpec System.
From S2P Require Import Bytes Wal.
#[local] Open Scope N_scope.

(** ** Files *)

Inductive IoOutcome :=
  | io_ok
  | io_fails (written : nat) (reason : string).

Record NativeFile := mkNativeFile {
  nf_created : bool;
  nf_bytes : list N;
  nf_synced : list N;
}.

(** [pwrite] of [src] at an offset: bytes between the end and the offset read as
    zero. *)
Definition overwrite (bs : list N) (offset : N) (src : list N) : list N :=
  let n := N.to_nat offset in
  take n bs ++ replicate (n - length bs) 0 ++ src ++ drop (n + length src) bs.

Definition set_bytes (f : NativeFile) (bs : list N) : NativeFile :=
  mkNativeFile (nf_created f) bs (nf_synced f).

(** [NativeFile::write_exact]. *)
Definition write_exact (offset : N) (src : list N) (out : IoOutcome) (f : NativeFile)
  : W unit * NativeFile :=
  match out with
  | io_ok => (inr tt, set_bytes f (overwrite (nf_bytes f) offset src))
  | io_fails k reason =>
      (throw io reason, set_bytes f (overwrite (nf_bytes f) offset (take k src)))
  end.

(** [NativeFile::flush]. *)
Definition flush_file (out : IoOutcome) (f : NativeFile) : W unit * NativeFile :=
  match out with
  | io_ok => (inr tt, mkNativeFile (nf_created f) (nf_bytes f) (nf_bytes f))
  | io_fails _ reason => (throw io reason, f)
  end.

(** [NativeFile::truncate]. *)
Definition truncate_file (len : N) (out : IoOutcome) (f : NativeFile) : W unit * NativeFile :=
  match out with
  | io_ok => (inr tt, set_bytes f (take (N.to_nat len) (nf_bytes f)))
  | io_fails _ reason => (throw io reason, f)
  end.

(** [NativeFile::sync_parent_directory]: no effect on the contents. *)
Definition sync_parent_directory (out : IoOutcome) (f : NativeFile) : W unit * NativeFile :=
  match out with io_ok => (inr tt, f) | io_fails _ reason => (throw io reason, f) end.

(** [NativeFile::read_exact]; [fails] names the reads the system refuses. *)
Definition native_read (fails : N -> N -> option string) (f : NativeFile) (offset n : N)
  : W (list N) :=
  match fails offset n with
  | Some reason => throw io reason
  | None =>
      if blen (nf_bytes f) <? offset + n then throw io "unexpected EOF while reading WAL"
      else inr (take (N.to_nat n) (drop (N.to_nat offset) (nf_bytes f)))
  end.

(** A computation on a file that may throw, and its sequencing: the file keeps
    what was done before the exception. *)
Definition FileM (A : Type) : Type := NativeFile -> W A * NativeFile.
Definition file_bind {A B} (m : FileM A) (k : A -> FileM B) : FileM B := fun f =>
  match m f with
  | (inl e, f') => (inl e, f')
  | (inr a, f') => k a f'
  end.
Notation "x <~~ m ; k" := (file_bind m (fun x => k))
  (at level 100, m at next level, right associativity).
Definition file_ret {A} (a : A) : FileM A := fun f => (inr a, f).
Definition file_lift {A} (x : W A) : FileM A := fun f => (x, f).

(** The outcomes of the calls of one operation, in order. *)
Definition out_at (outs : list IoOutcome) (i : nat) : IoOutcome := default io_ok (outs !! i).

(** ** The class *)

Record WalImpl := mkWalImpl {
  wi_identity : WalIdentity;
  wi_options : WalOptions;
  wi_file : NativeFile;
  wi_state : WalState;
  wi_failed : bool;
  wi_failure_reason : string;
}.

(** The constructor: creates the header, or recovers the state and cuts off an
    incomplete tail. *)
Definition wal_open (id : WalIdentity) (o : WalOptions) (fails : N -> N -> option string)
    (outs : list IoOutcome) : FileM WalImpl := fun f =>
  (_ <~~ file_lift (validate_options o);
   if blen (nf_bytes f) =? 0 then
     h <~~ file_lift (make_file_header id);
     _ <~~ write_exact 0 h (out_at outs 0);
     _ <~~ flush_file (out_at outs 1);
     _ <~~ (if nf_created f then sync_parent_directory (out_at outs 2) else file_ret tt);
     fun f' => (inr (mkWalImpl id o f'
       (mkWalState (mkHardState 0 None) [] 0 0 0 (blen h) false) false EmptyString), f')
   else
     r <~~ file_lift (scan_source (blen (nf_bytes f)) (native_read fails f) id o);
     if sc_has_incomplete_tail r then
       _ <~~ truncate_file (sc_valid_bytes r) (out_at outs 0);
       _ <~~ flush_file (out_at outs 1);
       let st := sc_state r in
       fun f' => (inr (mkWalImpl id o f'
         (mkWalState (ws_hard_state st) (ws_entries st) (ws_commit_index st)
            (ws_last_frame_sequence st) (ws_durable_frame_sequence st) (sc_valid_bytes r) true)
         false EmptyString), f')
     else fun f' => (inr (mkWalImpl id o f' (sc_state r) false EmptyString), f')) f.

Definition ensure_live (w : WalImpl) : W unit :=
  if wi_failed w then throw failed ("WAL is fail-stop: " +:+ wi_failure_reason w)%string else inr tt.

(** The staging loop of [append_group]: the final view, the frames, the last
    sequence number and the size of the group. *)
Fixpoint stage_group (o : WalOptions) (batches : list PersistBatch) (v : ValidationView)
    (seq group_bytes : N) : W (ValidationView * list (list N) * N * N) :=
  match batches with
  | [] => inr (v, [], seq, group_bytes)
  | b :: batches =>
      v <- stage b o v;
      let seq := add64 seq 1 in
      frame <- make_frame seq b o;
      _ <- throw_if (wo_max_group_bytes o - N.min (wo_max_group_bytes o) group_bytes <? blen frame)
             bounds_exceeded "WAL group exceeds configured byte bound";
      r <- stage_group o batches v seq (group_bytes + blen frame);
      let '(v, frames, seq, group_bytes) := r in
      inr (v, frame :: frames, seq, group_bytes)
  end.

(** The writing loop. *)
Fixpoint write_group (offset : N) (frames : list (list N)) (outs : list IoOutcome) (i : nat)
  : FileM N :=
  match frames with
  | [] => file_ret offset
  | frame :: frames =>
      _ <~~ write_exact offset frame (out_at outs i);
      write_group (offset + blen frame) frames outs (S i)
  end.

Definition should_flush (o : WalOptions) : bool :=
  bool_decide (wo_flush_policy o = flush_every_append).

Definition set_failed (w : WalImpl) (f : NativeFile) (reason : string) : WalImpl :=
  mkWalImpl (wi_identity w) (wi_options w) f (wi_state w) true reason.

Definition set_state (w : WalImpl) (f : NativeFile) (st : WalState) : WalImpl :=
  mkWalImpl (wi_identity w) (wi_options w) f st (wi_failed w) (wi_failure_reason w).

(** The checks of [append_group] before anything is written. *)
Definition prepare_group (w : WalImpl) (batches : list PersistBatch)
  : W (ValidationView * list (list N) * N * N) :=
  let o := wi_options w in
  let st := wi_state w in
  _ <- ensure_live w;
  _ <- throw_if (is_nil batches) invariant_violation "cannot append an empty WAL group";
  _ <- throw_if (wo_max_group_frames o <? N.of_nat (length batches)) bounds_exceeded
         "WAL group has too many frames";
  _ <- throw_if (u64_max - ws_last_frame_sequence st <? N.of_nat (length batches)) bounds_exceeded
         "WAL frame sequence is exhausted";
  r <- stage_group o batches (new_view st) (ws_last_frame_sequence st) 0;
  let '(v, frames, seq, group_bytes) := r in
  _ <- throw_if (u64_max - ws_file_bytes st <? group_bytes) bounds_exceeded
         "WAL file length would overflow";
  inr r.

(** The write offset after the frames and, under the safe policy, the flush. *)
Definition write_and_flush (o : WalOptions) (offset : N) (frames : list (list N))
    (outs : list IoOutcome) : FileM N :=
  off <~~ write_group offset frames outs 0;
  _ <~~ (if should_flush o then flush_file (out_at outs (length frames)) else file_ret tt);
  file_ret off.

(** [Wal::Impl::append_group] ([Wal::append] is the group of one batch). *)
Definition append_group (w : WalImpl) (batches : list PersistBatch) (outs : list IoOutcome)
  : W WalAppendResult * WalImpl :=
  let o := wi_options w in
  let st := wi_state w in
  match prepare_group w batches with
  | inl e => (inl e, w)
  | inr (v, frames, seq, group_bytes) =>
      match write_and_flush o (ws_file_bytes st) frames outs (wi_file w) with
      | (inl e, f') => (throw io (we_what e), set_failed w f' (we_what e))
      | (inr off, f') =>
          let st' := materialize v st in
          (inr (mkWalAppendResult (add64 (ws_last_frame_sequence st) 1) seq (should_flush o)
                  group_bytes),
           set_state w f'
             (mkWalState (ws_hard_state st') (ws_entries st') (ws_commit_index st') seq
                (if should_flush o then seq else ws_durable_frame_sequence st') off
                (ws_repaired_incomplete_tail st')))
      end
  end.

Definition wal_append (w : WalImpl) (b : PersistBatch) (outs : list IoOutcome)
  : W WalAppendResult * WalImpl := append_group w [b] outs.

(** [Wal::Impl::flush]. *)
Definition wal_flush (w : WalImpl) (out : IoOutcome) : W unit * WalImpl :=
  match ensure_live w with
  | inl e => (inl e, w)
  | inr _ =>
      let st := wi_state w in
      if ws_durable_frame_sequence st =? ws_last_frame_sequence st then (inr tt, w)
      else match flush_file out (wi_file w) with
           | (inl e, f') => (throw io (we_what e), set_failed w f' (we_what e))
           | (inr _, f') =>
               (inr tt, set_state w f'
                 (mkWalState (ws_hard_state st) (ws_entries st) (ws_commit_index st)
                    (ws_last_frame_sequence st) (ws_last_frame_sequence st) (ws_file_bytes st)
                    (ws_repaired_incomplete_tail st)))
           end
  end.

(** ** The system calls of [NativeFile]

    The loops and calls of the class for POSIX.  [write_exact] and [native_read] above
    tell what they do to the file: [write_calls_refine] and [read_calls_refine]. *)

Definition errno_EINTR : N := 4.
Definition errno_EEXIST : N := 17.
Definition off_max : N := 2 ^ 63 - 1.
Definition ssize_max : N := 2 ^ 63 - 1.

(** What a call of [pread] or [pwrite] returns: an error number, or how many bytes the
    system is ready to move. *)
Inductive SysAnswer := sys_error (errno : N) | sys_bytes (n : N).

Definition io_message (operation path : string) (native_error : N) : string :=
  (operation +:+ " '" +:+ path +:+ "' failed (error " +:+ pretty native_error +:+ ")")%string.

(** The constructor: the answers of the two calls of [open], [None] when they succeed;
    [img] is what an existing file holds. *)
Definition open_calls (path : string) (first second : option N) (img : list N) : W NativeFile :=
  match first with
  | None => inr (mkNativeFile true [] [])
  | Some e =>
      if e =? errno_EEXIST then
        match second with
        | None => inr (mkNativeFile false img img)
        | Some e => throw io (io_message "open" path e)
        end
      else throw io (io_message "open" path e)
  end.

(** [NativeFile::size]: [fstat] fails, or reports the size. *)
Definition size_call (path : string) (answer : option N) (f : NativeFile) : W N :=
  match answer with Some e => throw io (io_message "size" path e) | None => inr (blen (nf_bytes f)) end.

(** The loop of [NativeFile::write_exact]; [None] while the answers have not come. *)
Fixpoint write_calls (answers : list SysAnswer) (path : string) (offset : N) (source : list N) (done : nat)
    (f : NativeFile) : option (W unit * NativeFile) :=
  if (length source <=? done)%nat then Some (inr tt, f)
  else
    let position := add64 offset (N.of_nat done) in
    if off_max <? position then Some (throw io "WAL write offset is too large", f)
    else
      let amount := N.min (N.of_nat (length source - done)) ssize_max in
      match answers with
      | [] => None
      | sys_error e :: answers =>
          if e =? errno_EINTR then write_calls answers path offset source done f
          else Some (throw io (io_message "write" path e), f)
      | sys_bytes n :: answers =>
          let written := N.to_nat (N.min n amount) in
          if (written =? 0)%nat then Some (throw io "zero-length WAL write", f)
          else write_calls answers path offset source (done + written)
                 (set_bytes f (overwrite (nf_bytes f) position (take written (drop done source))))
      end.

(** The loop of [NativeFile::read_exact] into [size] bytes, of which [dest] are there. *)
Fixpoint read_calls (answers : list SysAnswer) (path : string) (offset size : N) (dest : list N)
    (f : NativeFile) : option (W (list N)) :=
  if (N.to_nat size <=? length dest)%nat then Some (inr dest)
  else
    let position := add64 offset (blen dest) in
    if off_max <? position then Some (throw io "WAL read offset is too large")
    else
      let amount := N.min (size - blen dest) ssize_max in
      match answers with
      | [] => None
      | sys_error e :: answers =>
          if e =? errno_EINTR then read_calls answers path offset size dest f
          else Some (throw io (io_message "read" path e))
      | sys_bytes n :: answers =>
          match take (N.to_nat (N.min n amount)) (drop (N.to_nat position) (nf_bytes f)) with
          | [] => Some (throw io "unexpected EOF while reading WAL")
          | data => read_calls answers path offset size (dest ++ data) f
          end
      end.

(** [NativeFile::flush]: [None] when [fsync] succeeds. *)
Definition flush_call (path : string) (answer : option N) (f : NativeFile) : W unit * NativeFile :=
  flush_file (match answer with None => io_ok | Some e => io_fails 0 (io_message "flush" path e) end) f.

(** [NativeFile::truncate]; [errno] is what the message reports. *)
Definition truncate_call (path : string) (len : N) (fails : bool) (errno : N) (f : NativeFile) : W unit * NativeFile :=
  truncate_file len
    (if (off_max <? len) || fails then io_fails 0 (io_message "truncate" path errno) else io_ok) f.

(** [NativeFile::sync_parent_directory]: the answers of [open] and of [fsync]. *)
Definition sync_directory_calls (parent : string) (opened synced : option N) (f : NativeFile) : W unit * NativeFile :=
  let parent := if String.eqb parent EmptyString then "."%string else parent in
  sync_parent_directory
    (match opened, synced with
     | Some e, _ => io_fails 0 (io_message "open directory" parent e)
     | None, Some e => io_fails 0 (io_message "flush directory" parent e)
     | None, None => io_ok
     end) f.

Lemma overwrite_nil bs offset : offset <= blen bs -> overwrite bs offset [] = bs.
Proof.
  intros Ho. unfold overwrite, blen in *. replace (N.to_nat offset - length bs)%nat with 0%nat by lia. simpl.
  rewrite Nat.add_0_r. apply take_drop.
Qed.

Lemma overwrite_length bs offset a :
  offset <= blen bs -> blen (overwrite bs offset a) = N.max (blen bs) (offset + blen a).
Proof.
  intros Ho. unfold overwrite, blen in *. replace (N.to_nat offset - length bs)%nat with 0%nat by lia.
  rewrite !length_app, length_take, length_drop. simpl. lia.
Qed.

Lemma overwrite_app bs offset a b :
  offset <= blen bs -> overwrite (overwrite bs offset a) (offset + blen a) b = overwrite bs offset (a ++ b).
Proof.
  intros Ho. pose proof (overwrite_length bs offset a Ho) as Hl. unfold overwrite at 1.
  replace (N.to_nat (offset + blen a) - length (overwrite bs offset a))%nat with 0%nat by (unfold blen in *; lia).
  unfold overwrite, blen in *. replace (N.to_nat offset - length bs)%nat with 0%nat by lia.
  replace (N.to_nat (offset + N.of_nat (length a))) with (length (take (N.to_nat offset) bs) + length a)%nat
    by (rewrite length_take; lia).
  simpl. rewrite take_app_add, take_app_length, <- Nat.add_assoc, drop_app_add, drop_app_add, drop_drop.
  rewrite length_app, <- !(assoc_L (++)).
  by replace (N.to_nat offset + length a + length b)%nat with (N.to_nat offset + (length a + length b))%nat by lia.
Qed.

(** Part of the source is written already. *)
Lemma write_calls_from answers path offset source done f0 f r f' :
  offset <= blen (nf_bytes f0) -> offset + blen source <= u64_max -> (done <= length source)%nat ->
  f = set_bytes f0 (overwrite (nf_bytes f0) offset (take done source)) ->
  write_calls answers path offset source done f = Some (r, f') ->
  exists out, write_exact offset source out f0 = (r, f').
Proof.
  intros Ho Hu. revert done f. induction answers as [|a answers IH]; intros done f Hd -> Hw; cbn [write_calls] in Hw.
  all: destruct (Nat.leb_spec (length source) done) as [Hge|Hlt];
    [injection Hw as <- <-; exists io_ok; cbn [write_exact]; by rewrite take_ge by lia|].
  all: destruct (off_max <? _); [injection Hw as <- <-; by exists (io_fails done "WAL write offset is too large")|].
  1: done.
  assert (Hpos : add64 offset (N.of_nat done) = offset + blen (take done source)).
  { unfold add64, wrap64, blen in *. rewrite length_take, Nat.min_l by lia. apply N.mod_small. unfold u64_max in *. lia. }
  destruct a as [e|n].
  - destruct (e =? errno_EINTR); [by eapply (IH done)|]. injection Hw as <- <-. by exists (io_fails done (io_message "write" path e)).
  - set (k := N.to_nat _) in Hw. destruct (Nat.eqb_spec k 0) as [|Hk].
    { injection Hw as <- <-. by exists (io_fails done "zero-length WAL write"). }
    assert (Hkle : (k <= length source - done)%nat) by (unfold k; lia).
    eapply (IH (done + k)%nat); [lia| |exact Hw]. cbn [nf_bytes set_bytes nf_created nf_synced].
    rewrite Hpos, overwrite_app by done. by rewrite take_take_drop.
Qed.

(** However the system splits a write, it is one of the outcomes of [write_exact]. *)
Lemma write_calls_refine answers path offset source f r f' :
  offset <= blen (nf_bytes f) -> offset + blen source <= u64_max ->
  write_calls answers path offset source 0 f = Some (r, f') -> exists out, write_exact offset source out f = (r, f').
Proof.
  intros Ho Hu. apply write_calls_from; [done|done|lia|]. simpl. rewrite overwrite_nil by done. by destruct f.
Qed.

(** The same for a read. *)
Lemma read_calls_from answers path offset size dest f r :
  offset <= blen (nf_bytes f) -> offset + size <= u64_max -> blen dest <= size ->
  dest = take (length dest) (drop (N.to_nat offset) (nf_bytes f)) ->
  read_calls answers path offset size dest f = Some r -> exists fails, native_read fails f offset size = r.
Proof.
  intros Ho Hu. revert dest. induction answers as [|a answers IH]; intros dest Hd Hpre Hr; cbn [read_calls] in Hr.
  all: destruct (Nat.leb_spec (N.to_nat size) (length dest)) as [Hge|Hlt].
  1, 3: injection Hr as <-; exists (fun _ _ => None); unfold native_read; assert (Hl : length dest = N.to_nat size)
      by (unfold blen in *; lia); rewrite Hl in Hpre;
    destruct (N.ltb_spec (blen (nf_bytes f)) (offset + size)); [exfalso|by rewrite <- Hpre];
    apply (f_equal length) in Hpre; rewrite length_take, length_drop in Hpre; unfold blen in *; lia.
  all: destruct (off_max <? _); [injection Hr as <-; by exists (fun _ _ => Some "WAL read offset is too large"%string)|].
  1: done.
  destruct a as [e|n].
  - destruct (e =? errno_EINTR); [by apply (IH dest)|]. injection Hr as <-. by exists (fun _ _ => Some (io_message "read" path e)).
  - set (data := take _ _) in Hr. destruct data as [|b data'] eqn:Hdata;
      [injection Hr as <-; by exists (fun _ _ => Some "unexpected EOF while reading WAL"%string)|]. rewrite <- Hdata in Hr.
    assert (Hpos : N.to_nat (add64 offset (blen dest)) = (N.to_nat offset + length dest)%nat).
    { unfold add64, wrap64, blen in *. rewrite N.mod_small by (unfold u64_max in *; lia). lia. }
    assert (Hlen : (length data <= N.to_nat size - length dest)%nat) by (unfold data; rewrite length_take; unfold blen in *; lia).
    apply (IH (dest ++ data)); [unfold blen in *; rewrite length_app; lia| |exact Hr].
    rewrite length_app, Hpre at 1. unfold data. rewrite Hpos, <- drop_drop. rewrite length_take.
    set (l := drop (N.to_nat offset) (nf_bytes f)). set (k := N.to_nat _). rewrite take_take_drop.
    destruct (Nat.le_ge_cases k (length (drop (length dest) l))) as [Hk|Hk]; [by rewrite Nat.min_l|].
    rewrite Nat.min_r by done. rewrite length_drop in *. rewrite !take_ge by lia. done.
Qed.

Lemma read_calls_refine answers path offset size f r :
  offset <= blen (nf_bytes f) -> offset + size <= u64_max ->
  read_calls answers path offset size [] f = Some r -> exists fails, native_read fails f offset size = r.
Proof. intros Ho Hu. by apply read_calls_from; [..|unfold blen; simpl; lia|]. Qed.

#[global] Instance SysAnswer_eq_dec : EqDecision SysAnswer.
Proof. solve_decision. Defined.

(** The answers that are not an interruption: each ends a loop or moves a byte. *)
Definition productive (answers : list SysAnswer) : nat :=
  length (filter (fun a => a <> sys_error errno_EINTR) answers).

Lemma productive_cons a answers :
  productive (a :: answers) = if decide (a = sys_error errno_EINTR) then productive answers else S (productive answers).
Proof. unfold productive. rewrite filter_cons. by destruct (decide (a = _)), (decide (a <> _)). Qed.

Lemma write_calls_return answers path offset source done f :
  (length source - done <= productive answers)%nat -> is_Some (write_calls answers path offset source done f).
Proof.
  revert done f. induction answers as [|a answers IH]; intros done f Hp; cbn [write_calls].
  all: destruct (Nat.leb_spec (length source) done); [by eexists|]. all: destruct (off_max <? _); [by eexists|].
  1: unfold productive in Hp; simpl in Hp; lia.
  rewrite productive_cons in Hp. destruct a as [e|n].
  - destruct (N.eqb_spec e errno_EINTR) as [->|]; [|by eexists]. apply IH. by rewrite decide_True in Hp.
  - rewrite decide_False in Hp by done. set (k := N.to_nat _). destruct (Nat.eqb_spec k 0); [by eexists|]. apply IH. lia.
Qed.

Lemma read_calls_return answers path offset size dest f :
  (N.to_nat size - length dest <= productive answers)%nat -> is_Some (read_calls answers path offset size dest f).
Proof.
  revert dest. induction answers as [|a answers IH]; intros dest Hp; cbn [read_calls].
  all: destruct (Nat.leb_spec (N.to_nat size) (length dest)); [by eexists|]. all: destruct (off_max <? _); [by eexists|].
  1: unfold productive in Hp; simpl in Hp; lia.
  rewrite productive_cons in Hp. destruct a as [e|n].
  - destruct (N.eqb_spec e errno_EINTR) as [->|]; [|by eexists]. apply IH. by rewrite decide_True in Hp.
  - rewrite decide_False in Hp by done. destruct (take _ _) as [|b data]; [by eexists|]. apply IH. rewrite length_app. simpl. lia.
Qed.
