(* ===== verification/WalDurability.v ===== *)
(** * WalDurability: what the [Wal] class keeps across failures and crashes

    The invariant of a [Wal] object splits the batches it was given into the
    durable ones, the acknowledged ones and the attempted ones; every operation
    keeps it under every outcome of its file calls, and reopening any file image
    a crash can leave recovers all durable batches and a prefix of the rest. *)

From stdpp Require Import pretty.
From S2P Require Import Prelude Model StateMachine RaftTypes RaftSpec System.
From S2P Require Import Bytes Wal WalFormat WalFrames WalRecovery WalScan WalFile.
#[local] Open Scope N_scope.

(** ** Staging depends on the durable state only *)

Section abstraction.
Context {o : WalOptions}.
Implicit Types (v w : ValidationView).

(** Two representations of one durable state. *)
Definition view_eq v w : Prop := view_ok v /\ view_ok w /\ view_state v = view_state w.

Lemma view_eq_fields v w :
  view_eq v w ->
  vv_hard_state v = vv_hard_state w /\ vv_commit_index v = vv_commit_index w /\
  view_log v = view_log w /\ vv_last_index v = vv_last_index w /\ vv_last_term v = vv_last_term w.
Proof.
  intros (Hv & Hw & Heq). pose proof Heq as Heq'. unfold view_state in Heq'.
  injection Heq' as Hh Hl Hc. rewrite !view_last_index by done. split_and!; [done..|by rewrite Hl|].
  destruct (last (view_log v)) as [e|] eqn:E.
  - rewrite (view_last_term v e Hv E). rewrite Hl in E. by rewrite (view_last_term w e Hw E).
  - assert (Hnil : forall x, view_ok x -> last (view_log x) = None -> vv_last_term x = 0).
    { intros x Hx Hn. apply last_None in Hn. unfold view_log in Hn. apply app_eq_nil in Hn as [Ht Hs].
      unfold vv_last_term. rewrite Hs. simpl. destruct (Nat.eqb_spec (vv_base_keep x) 0); [done|].
      apply (f_equal length) in Ht. rewrite length_take in Ht. unfold view_ok in Hx. simpl in Ht. lia. }
    rewrite (Hnil v Hv E). rewrite Hl in E. by rewrite (Hnil w Hw E).
Qed.

Lemma stage_entries_eq es v w v' :
  view_eq v w -> wal_ok (view_state v) -> stage_entries o es v = inr v' ->
  exists w', stage_entries o es w = inr w' /\ view_eq v' w'.
Proof.
  revert v w. induction es as [|e es IH]; intros v w Heq Hok H; simpl in *.
  - injection H as <-. eauto.
  - destruct (stage_entry o e v) as [|v1] eqn:E; [discriminate H|]. cbn [wbind] in H.
    assert (Hw1 : exists w1, stage_entry o e w = inr w1).
    { destruct (view_eq_fields v w Heq) as (Hh & _ & _ & Hi & Ht). revert E. unfold stage_entry.
      rewrite Hh, Hi, Ht. intros E. thrown E.
      destruct (command e); thrown E; by eexists. }
    destruct Hw1 as [w1 Hw1]. rewrite Hw1. cbn [wbind]. destruct Heq as (Hv & Hw & Heq).
    destruct (stage_entry_spec _ _ _ _ E Hv Hok) as (Hv1 & Hok1 & _ & Q1).
    destruct (stage_entry_spec _ _ _ _ Hw1 Hw ltac:(by rewrite <- Heq)) as (Hw1' & _ & _ & Q2).
    apply (IH v1 w1); [|done|done]. split_and!; [done|done|].
    rewrite Q1, Q2. unfold view_state in Heq. injection Heq as -> -> ->. done.
Qed.

Lemma stage_eq b v w v' :
  view_eq v w -> wal_ok (view_state v) -> stage b o v = inr v' ->
  exists w', stage b o w = inr w' /\ view_eq v' w'.
Proof.
  intros Heq Hok H. pose proof H as Hstage. unfold stage in H |- *.
  destruct (throw_if (batch_empty b) _ _) as [|[]]; [discriminate H|]. cbn [wbind] in *.
  destruct (throw_if (_ <? _) _ _) as [|[]]; [discriminate H|]. cbn [wbind] in *.
  destruct (stage_hard_state _ v) as [|v1] eqn:E1; [discriminate H|]. cbn [wbind] in H.
  destruct (stage_truncate _ v1) as [|v2] eqn:E2; [discriminate H|]. cbn [wbind] in H.
  destruct (stage_entries _ _ v2) as [|v3] eqn:E3; [discriminate H|]. cbn [wbind] in H.
  pose proof Heq as (Hv & Hw & Hst). assert (Hokw : wal_ok (view_state w)) by (by rewrite <- Hst).
  destruct (stage_hard_state_spec _ _ _ E1 Hv Hok) as (Hv1 & Hok1 & _ & Q1).
  assert (exists w1, stage_hard_state (b_hard_state b) w = inr w1) as [w1 F1].
  { destruct (view_eq_fields v w Heq) as (Hh & _). revert E1. unfold stage_hard_state.
    destruct (b_hard_state b); [|by eexists]. rewrite Hh. intros E1. thrown E1. by eexists. }
  rewrite F1. cbn [wbind].
  destruct (stage_hard_state_spec _ _ _ F1 Hw Hokw) as (Hw1 & Hokw1 & _ & R1).
  destruct (view_eq_fields v w Heq) as (Hh & Hc & Hl & _).
  assert (Heq1 : view_eq v1 w1) by (split_and!; [done|done|by rewrite Q1, R1, Hh, Hc, Hl]).
  destruct (stage_truncate_spec _ _ _ E2 Hv1 Hok1) as (Hv2 & Hok2 & _ & Q2).
  assert (exists w2, stage_truncate (b_truncate_from b) w1 = inr w2) as [w2 F2].
  { destruct (view_eq_fields v1 w1 Heq1) as (_ & Hc1 & _ & Hi & _). revert E2. unfold stage_truncate.
    destruct (b_truncate_from b); [|by eexists]. rewrite Hc1, Hi. intros E2. thrown E2. by eexists. }
  rewrite F2. cbn [wbind].
  destruct (stage_truncate_spec _ _ _ F2 Hw1 Hokw1) as (Hw2 & _ & _ & R2).
  destruct (view_eq_fields v1 w1 Heq1) as (Hh1 & Hc1 & Hl1 & _).
  assert (Heq2 : view_eq v2 w2) by (split_and!; [done|done|by rewrite Q2, R2, Hh1, Hc1, Hl1]).
  destruct (stage_entries_eq _ _ _ _ Heq2 Hok2 E3) as (w3 & F3 & Heq3). rewrite F3. cbn [wbind].
  destruct (view_eq_fields v3 w3 Heq3) as (Hh3 & Hc3 & Hl3 & Hi3 & _).
  revert H. unfold stage_commit. destruct (b_commit_index b) as [c|].
  - rewrite Hc3, Hi3. intros H. thrown H. injection H as <-. eexists. split; [done|].
    destruct Heq3 as (? & ? & ?). split_and!; [done|done|]. unfold view_state, view_log in *. simpl.
    congruence.
  - intros H. injection H as <-. eauto.
Qed.

End abstraction.

(** ** Groups *)

(** States that agree on everything but the durable mark and the repair flag. *)
Definition same_log (a b : WalState) : Prop :=
  wal_recovered a = wal_recovered b /\ ws_last_frame_sequence a = ws_last_frame_sequence b /\
  ws_file_bytes a = ws_file_bytes b.

Section groups.
Context {o : WalOptions}.

(** The batches staged in one view are the batches appended one by one. *)
Lemma stage_group_appended batches v st seq gb v' frames seq' gb' :
  stage_group o batches v seq gb = inr (v', frames, seq', gb') ->
  view_eq v (new_view st) -> wal_ok (wal_recovered st) -> seq = ws_last_frame_sequence st ->
  exists st', appended o st batches (mjoin frames) st' /\ view_state v' = wal_recovered st' /\
    seq' = ws_last_frame_sequence st' /\ gb' = gb + blen (mjoin frames).
Proof.
  revert v st seq gb v' frames seq' gb'.
  induction batches as [|b batches IH]; intros v st seq gb v' frames seq' gb' H Heq Hok Hseq;
    simpl in H; destruct (new_view_state st) as [Hvok Hvst].
  - injection H as <- <- <- <-. exists st. split_and!; [constructor| |done|].
    + destruct Heq as (_ & _ & ->). done.
    + change (blen (mjoin [])) with 0. lia.
  - destruct (stage b o v) as [|v1] eqn:Hs; [discriminate H|]. cbn [wbind] in H.
    destruct (make_frame (add64 seq 1) b o) as [|f] eqn:Hf; [discriminate H|]. cbn [wbind] in H.
    thrown H. destruct (stage_group o batches v1 (add64 seq 1) (gb + blen f))
      as [|[[[v2 fs] seq2] gb2]] eqn:Hg; [discriminate H|]. cbn [wbind] in H.
    injection H as <- <- <- <-.
    assert (Hokv : wal_ok (view_state v)) by (destruct Heq as (_ & _ & ->); by rewrite Hvst).
    destruct (stage_eq b v (new_view st) v1 Heq Hokv Hs) as (w1 & Hs' & Heq1).
    apply make_frame_bytes in Hf as [Hf Hsz]. rewrite Hseq in Hf.
    destruct (advanced_state st b w1 f Hs' Hok) as [Hok1 Hap].
    destruct (new_view_state (advanced st w1 f)) as [Hvok1 Hvst1].
    assert (Hw1 : view_state w1 = wal_recovered (advanced st w1 f)).
    { change (wal_recovered (advanced st w1 f)) with (wal_recovered (materialize w1 st)).
      by rewrite (materialize_state _ _ _ _ Hs'). }
    destruct (IH v1 (advanced st w1 f) (add64 seq 1) (gb + blen f) v2 fs seq2 gb2 Hg)
      as (st' & Ha & Hst & Hsq & Hgb); [|done|by rewrite Hseq|].
    { destruct Heq1 as (H1 & H2 & H3). split_and!; [done|done|]. by rewrite H3, Hw1, Hvst1. }
    exists st'. split_and!; [by eapply appended_cons|done|done|].
    change (mjoin (f :: fs)) with (f ++ mjoin fs). rewrite blen_app, Hgb. lia.
Qed.

Lemma stage_group_base batches v seq gb v' frames seq' gb' :
  stage_group o batches v seq gb = inr (v', frames, seq', gb') ->
  vv_base_entries v' = vv_base_entries v.
Proof.
  revert v seq gb v' frames seq' gb'.
  induction batches as [|b batches IH]; intros v seq gb v' frames seq' gb' H; simpl in H.
  - by injection H as <- <- <- <-.
  - destruct (stage b o v) as [|v1] eqn:Hs; [discriminate H|]. cbn [wbind] in H.
    destruct (make_frame (add64 seq 1) b o) as [|f]; [discriminate H|]. cbn [wbind] in H.
    thrown H. destruct (stage_group o batches v1 (add64 seq 1) (gb + blen f))
      as [|[[[v2 fs] seq2] gb2]] eqn:Hg; [discriminate H|]. cbn [wbind] in H.
    injection H as <- <- <- <-. rewrite (IH _ _ _ _ _ _ _ Hg). by apply stage_base in Hs.
Qed.

(** A prefix of the frames is some complete frames and a torn one. *)
Lemma cut_appended st bs fs st' t img :
  appended o st bs fs st' -> torn o st' t -> img `prefix_of` fs ++ t ->
  exists n fs' st'' t', appended o st (take n bs) fs' st'' /\ torn o st'' t' /\ img = fs' ++ t'.
Proof.
  intros Ha. revert img. induction Ha as [st|st b v bs fs st' f Hs Hsz Hf Ha IH]; intros img Ht Hp.
  - exists 0%nat, [], st, img. split_and!; [constructor| |done].
    destruct Ht as [->|(b & Hsz & Htp & Hlt)].
    + left. destruct Hp as [k Hk]. by destruct img.
    + right. exists b. simpl in Hp. destruct Hp as [k ->]. split_and!; [done| |].
      * etrans; [by apply prefix_app_r|]. done.
      * rewrite blen_app in Hlt. lia.
  - destruct Hp as [k Hk]. rewrite <- app_assoc in Hk. pose proof (f_equal (take (length img)) Hk) as Hi.
    rewrite take_app_length in Hi.
    destruct (decide (blen img < blen f)) as [Hlt|Hge].
    + exists 0%nat, [], st, img. split_and!; [constructor| |done]. right. exists b.
      split_and!; [done| |by rewrite <- (frame_length (add64 (ws_last_frame_sequence st) 1) b), <- Hf].
      rewrite <- Hf. exists (drop (length img) f). rewrite take_app_le in Hi by (unfold blen in Hlt; lia).
      rewrite <- Hi at 1. by rewrite take_drop.
    + assert (Himg : img = f ++ drop (length f) img).
      { rewrite <- (take_drop (length f) img) at 1. f_equal.
        pose proof (f_equal (take (length f)) Hk) as Hj. rewrite take_app_length in Hj.
        rewrite take_app_le in Hj by (unfold blen in Hge; lia). done. }
      destruct (IH (drop (length f) img) Ht) as (n & fs' & st'' & t' & Ha' & Ht' & Hi').
      { exists k. apply (f_equal (drop (length f))) in Hk. rewrite drop_app_length in Hk.
        rewrite Hk. rewrite drop_app_le by (unfold blen in Hge; lia). done. }
      exists (S n), (f ++ fs'), st'', t'. split_and!; [by eapply appended_cons|done|].
      rewrite Himg, Hi'. by rewrite app_assoc.
Qed.

Lemma appended_nil_inv st fs st' : appended o st [] fs st' -> fs = [] /\ st' = st.
Proof. by inversion 1. Qed.

(** Frames are numbered consecutively while the counter does not wrap. *)
Lemma appended_sequence st bs fs st' :
  appended o st bs fs st' -> ws_last_frame_sequence st + N.of_nat (length bs) <= u64_max ->
  ws_last_frame_sequence st' = ws_last_frame_sequence st + N.of_nat (length bs).
Proof.
  induction 1 as [|st b v bs fs st' f _ _ _ _ IH]; simpl; intros Hn; [lia|].
  assert (Hadd : add64 (ws_last_frame_sequence st) 1 = ws_last_frame_sequence st + 1).
  { apply add64_small. lia. }
  rewrite IH; simpl; rewrite Hadd; lia.
Qed.

Lemma appended_app st bs fs st1 bs' fs' st2 :
  appended o st bs fs st1 -> appended o st1 bs' fs' st2 -> appended o st (bs ++ bs') (fs ++ fs') st2.
Proof.
  induction 1 as [|st b v bs fs st1 f Hs Hsz Hf Ha IH]; intros H'; [done|].
  simpl. rewrite <- app_assoc. eapply appended_cons; eauto.
Qed.

End groups.

(** ** Files *)

Section writes.

Lemma overwrite_end bs src : overwrite bs (blen bs) src = bs ++ src.
Proof.
  unfold overwrite, blen. rewrite Nat2N.id, firstn_all, Nat.sub_diag. simpl.
  rewrite drop_ge by lia. by rewrite app_nil_r.
Qed.

(** Writing at the end appends a prefix of the frames, all of them on success. *)
Lemma write_group_spec frames outs i f :
  let '(res, f') := write_group (blen (nf_bytes f)) frames outs i f in
  exists img, img `prefix_of` mjoin frames /\ nf_bytes f' = nf_bytes f ++ img /\
    nf_synced f' = nf_synced f /\
    match res with
    | inr off => img = mjoin frames /\ off = blen (nf_bytes f')
    | inl e => True
    end.
Proof.
  revert i f. induction frames as [|fr frames IH]; intros i f; simpl.
  - exists []. by rewrite app_nil_r.
  - unfold file_bind. destruct (out_at outs i) as [|k reason]; simpl; rewrite overwrite_end.
    + set (f1 := set_bytes f (nf_bytes f ++ fr)).
      replace (blen (nf_bytes f) + blen fr) with (blen (nf_bytes f1)) by (simpl; apply blen_app).
      specialize (IH (S i) f1). destruct (write_group _ frames outs (S i) f1) as [res f'].
      destruct IH as (img & Hp & Hb & Hsy & Hres). exists (fr ++ img).
      split_and!; [by apply prefix_app|by rewrite Hb, app_assoc|done|].
      destruct res; [done|]. destruct Hres as [-> ->]. done.
    + exists (take k fr). split_and!; [|done|done|done].
      etrans; [apply prefix_take|]. by apply prefix_app_r.
Qed.

Lemma write_and_flush_spec o frames outs f :
  let '(res, f') := write_and_flush o (blen (nf_bytes f)) frames outs f in
  exists img, img `prefix_of` mjoin frames /\ nf_bytes f' = nf_bytes f ++ img /\
    match res with
    | inr off => img = mjoin frames /\ off = blen (nf_bytes f') /\
                 nf_synced f' = (if should_flush o then nf_bytes f' else nf_synced f)
    | inl e => nf_synced f' = nf_synced f
    end.
Proof.
  unfold write_and_flush, file_bind. pose proof (write_group_spec frames outs 0 f) as H.
  destruct (write_group _ frames outs 0 f) as [[e|off] f1];
    destruct H as (img & Hp & Hb & Hsy & Hres); [by exists img|]. destruct Hres as [-> ->].
  destruct (should_flush o); [destruct (out_at outs (length frames))|]; by exists (mjoin frames).
Qed.

End writes.

(** ** The invariant of a [Wal] object *)

(** [d] are the durable batches, [u] the further acknowledged ones, [x] the ones
    of a failed group whose frames are complete in the file. *)
Record impl_inv (w : WalImpl) (d u x : list PersistBatch) : Prop := {
  ii_options : validate_options (wi_options w) = inr tt;
  ii_identity : identity_fits (wi_identity w);
  ii_fits : Forall batch_fits (d ++ u ++ x);
  ii_count : N.of_nat (length (d ++ u ++ x)) <= u64_max;
  ii_file : exists fd sd fu su fx sx t,
    appended (wi_options w) created_state d fd sd /\
    appended (wi_options w) sd u fu su /\
    appended (wi_options w) su x fx sx /\ torn (wi_options w) sx t /\
    same_log (wi_state w) su /\
    ws_durable_frame_sequence (wi_state w) = ws_last_frame_sequence sd /\
    nf_bytes (wi_file w) = file_header_bytes (wi_identity w) ++ fd ++ fu ++ fx ++ t /\
    file_header_bytes (wi_identity w) ++ fd `prefix_of` nf_synced (wi_file w) /\
    nf_synced (wi_file w) `prefix_of` nf_bytes (wi_file w) /\
    (wi_failed w = false -> x = [] /\ t = []);
}.

(** The durable state of a log that received some batches. *)
Definition replayed (bs : list PersistBatch) : RecoveredState := foldl apply_batch empty_disk bs.

(** A file image a crash can leave: at least what was flushed, at most what was
    written. *)
Definition crash_image (f : NativeFile) (img : list N) : Prop :=
  nf_synced f `prefix_of` img /\ img `prefix_of` nf_bytes f.

Section invariant.
Implicit Types (w : WalImpl).

Lemma impl_inv_live w d u x : impl_inv w d u x -> wi_failed w = false -> x = [].
Proof. intros [_ _ _ _ (? & ? & ? & ? & ? & ? & ? & H)] Hf. destruct_and! H. tauto. Qed.

Lemma options_okw w d u x : impl_inv w d u x -> options_ok (wi_options w).
Proof. intros [H _ _ _ _]. by eapply validate_options_ok. Qed.

Lemma impl_inv_state w d u x :
  impl_inv w d u x -> wal_recovered (wi_state w) = replayed (d ++ u) /\ wal_ok (replayed (d ++ u)).
Proof.
  intros [_ _ _ _ (fd & sd & fu & su & fx & sx & t & Hd & Hu & _ & _ & (Hs & _) & _)].
  destruct (appended_ok _ _ _ _ (appended_app _ _ _ _ _ _ _ Hd Hu) created_ok) as [Hok Hap].
  rewrite Hs. unfold replayed. change empty_disk with (wal_recovered created_state). by rewrite <- Hap.
Qed.

(** The final view of a group, written over the old state. *)
Lemma materialize_group o batches st v frames seq gb st' :
  stage_group o batches (new_view st) (ws_last_frame_sequence st) 0 = inr (v, frames, seq, gb) ->
  view_state v = wal_recovered st' -> wal_recovered (materialize v st) = wal_recovered st'.
Proof.
  intros Hg Hv. apply stage_group_base in Hg. rewrite <- Hv.
  unfold wal_recovered, view_state, view_log. simpl in *. by rewrite Hg.
Qed.

Lemma new_view_same a b : same_log a b -> new_view a = new_view b.
Proof. intros [H _]. unfold wal_recovered in H. injection H as H1 H2 H3. unfold new_view. congruence. Qed.

Lemma prepare_group_inv w batches v frames seq gb :
  prepare_group w batches = inr (v, frames, seq, gb) ->
  wi_failed w = false /\
  N.of_nat (length batches) <= u64_max - ws_last_frame_sequence (wi_state w) /\
  stage_group (wi_options w) batches (new_view (wi_state w))
    (ws_last_frame_sequence (wi_state w)) 0 = inr (v, frames, seq, gb).
Proof.
  unfold prepare_group, ensure_live. destruct (wi_failed w); [done|]. intros H. cbn [wbind] in H.
  thrown H. destruct (stage_group _ _ _ _ _) as [|[[[v1 fr] s1] g1]]; [discriminate H|].
  cbn [wbind] in H. thrown H. apply N.ltb_ge in E1. done.
Qed.

(** A live object: its file is the header and the frames of its batches. *)
Lemma impl_inv_file w d u x :
  impl_inv w d u x -> wi_failed w = false ->
  x = [] /\ exists fd sd fu su,
    appended (wi_options w) created_state d fd sd /\ appended (wi_options w) sd u fu su /\
    same_log (wi_state w) su /\
    ws_durable_frame_sequence (wi_state w) = ws_last_frame_sequence sd /\
    nf_bytes (wi_file w) = file_header_bytes (wi_identity w) ++ fd ++ fu /\
    file_header_bytes (wi_identity w) ++ fd `prefix_of` nf_synced (wi_file w) /\
    nf_synced (wi_file w) `prefix_of` nf_bytes (wi_file w) /\
    ws_file_bytes (wi_state w) = blen (nf_bytes (wi_file w)).
Proof.
  intros [_ _ _ _ (fd & sd & fu & su & fx & sx & t & Hd & Hu & Hx & _ & Hs & Hq & Hb & Hp & Hy & Hl)] Hf.
  destruct (Hl Hf) as [-> ->]. split; [done|]. apply appended_nil_inv in Hx as [-> ->].
  rewrite !app_nil_r in Hb. exists fd, sd, fu, su. split_and!; auto.
  destruct Hs as (_ & _ & ->). rewrite Hb, !blen_app, file_header_length.
  rewrite (appended_file _ _ _ _ Hu), (appended_file _ _ _ _ Hd). simpl. lia.
Qed.

(** What the checks of [append_group] establish. *)
Lemma prepared_group w d u x batches v frames seq gb :
  impl_inv w d u x -> prepare_group w batches = inr (v, frames, seq, gb) ->
  wi_failed w = false /\ x = [] /\ exists fd sd fu su st',
    appended (wi_options w) created_state d fd sd /\ appended (wi_options w) sd u fu su /\
    appended (wi_options w) su batches (mjoin frames) st' /\ same_log (wi_state w) su /\
    ws_durable_frame_sequence (wi_state w) = ws_last_frame_sequence sd /\
    nf_bytes (wi_file w) = file_header_bytes (wi_identity w) ++ fd ++ fu /\
    file_header_bytes (wi_identity w) ++ fd `prefix_of` nf_synced (wi_file w) /\
    nf_synced (wi_file w) `prefix_of` nf_bytes (wi_file w) /\
    ws_file_bytes (wi_state w) = blen (nf_bytes (wi_file w)) /\
    wal_recovered (materialize v (wi_state w)) = wal_recovered st' /\
    seq = ws_last_frame_sequence st' /\
    ws_file_bytes st' = blen (nf_bytes (wi_file w)) + blen (mjoin frames) /\
    N.of_nat (length (d ++ u)) + N.of_nat (length batches) <= u64_max.
Proof.
  intros Hinv Hprep. apply prepare_group_inv in Hprep as (Hlive & Hn & Hg).
  destruct (impl_inv_file _ _ _ _ Hinv Hlive)
    as (-> & fd & sd & fu & su & Hd & Hu & Hsame & Hdur & Hb & Hsyn & Hsyn' & Hfb).
  destruct (impl_inv_state _ _ _ _ Hinv) as [Hst Hok].
  assert (Hsu : wal_recovered su = replayed (d ++ u)) by (destruct Hsame as [<- _]; done).
  destruct (stage_group_appended _ _ su _ _ _ _ _ _ Hg) as (st' & Ha & Hvs & Hsq & _).
  { rewrite (new_view_same _ _ Hsame). by destruct (new_view_state su). }
  { by rewrite Hsu. }
  { apply Hsame. }
  split_and!; [done|done|]. exists fd, sd, fu, su, st'. split_and!; try done.
  - by eapply materialize_group.
  - rewrite <- Hfb. destruct Hsame as (_ & _ & ->). by rewrite (appended_file _ _ _ _ Ha).
  - destruct Hsame as (_ & Hls & _). rewrite Hls in Hn. destruct Hinv as [_ _ _ Hc _].
    rewrite app_nil_r in Hc.
    pose proof (appended_sequence _ _ _ _ (appended_app _ _ _ _ _ _ _ Hd Hu) Hc) as Hq.
    simpl in Hq. lia.
Qed.

Lemma append_group_ok w d u x batches outs res w' :
  impl_inv w d u x -> Forall batch_fits batches -> append_group w batches outs = (inr res, w') ->
  (if should_flush (wi_options w)
   then impl_inv w' (d ++ u ++ batches) [] [] else impl_inv w' d (u ++ batches) []) /\
  war_durable res = should_flush (wi_options w) /\ wi_failed w' = false.
Proof.
  intros Hinv Hfit H. unfold append_group in H.
  destruct (prepare_group w batches) as [|[[[v frames] seq] gb]] eqn:Hprep; [done|].
  destruct (prepared_group _ _ _ _ _ _ _ _ _ Hinv Hprep) as (Hlive & -> & fd & sd & fu & su & st' &
    Hd & Hu & Ha & Hsame & Hdur & Hb & Hsyn & Hsyn' & Hfb & Hmat & Hsq & Hfb' & Hn).
  pose proof (write_and_flush_spec (wi_options w) frames outs (wi_file w)) as Hw.
  rewrite Hfb in H. destruct (write_and_flush _ _ frames outs (wi_file w)) as [[e|off] f']; [done|].
  destruct Hw as (img & _ & Hb' & -> & -> & Hsyn2). injection H as <- <-.
  assert (Hsame' : forall q, same_log (mkWalState (ws_hard_state (materialize v (wi_state w)))
      (ws_entries (materialize v (wi_state w))) (ws_commit_index (materialize v (wi_state w))) seq q
      (blen (nf_bytes f')) (ws_repaired_incomplete_tail (materialize v (wi_state w)))) st').
  { intros q. split_and!; [done|done|]. simpl. by rewrite Hb', blen_app. }
  assert (Hbytes : nf_bytes f' = file_header_bytes (wi_identity w) ++ (fd ++ fu ++ mjoin frames)).
  { by rewrite Hb', Hb, <- !app_assoc. }
  destruct Hinv as [Hopt Hid Hfits Hcount _]. rewrite app_nil_r in Hfits, Hcount.
  destruct (should_flush (wi_options w)) eqn:Hfl; (split; [|done]);
    (constructor; simpl; [done|done|by rewrite !app_nil_r, app_assoc, Forall_app|
       rewrite !app_nil_r, app_assoc, length_app; lia|]).
  - exists (fd ++ fu ++ mjoin frames), st', [], st', [], st', [].
    split_and!; [|apply appended_nil|apply appended_nil|by left|done|by rewrite Hsq|
      by rewrite !app_nil_r|by rewrite Hsyn2, Hbytes|by rewrite Hsyn2|done].
    eapply appended_app; [done|]. by eapply appended_app.
  - exists fd, sd, (fu ++ mjoin frames), st', [], st', [].
    split_and!; [done|by eapply appended_app|apply appended_nil|by left|done|done|
      by rewrite !app_nil_r|by rewrite Hsyn2| |done].
    rewrite Hsyn2, Hb'. etrans; [done|]. by apply prefix_app_r.
Qed.

(** A refused group changes nothing; an I/O error stops the log. *)
Lemma append_group_fails w d u x batches outs e w' :
  impl_inv w d u x -> Forall batch_fits batches -> append_group w batches outs = (inl e, w') ->
  w' = w \/
  (wi_failed w' = true /\ we_code e = io /\ wi_state w' = wi_state w /\
   exists n, impl_inv w' d u (take n batches)).
Proof.
  intros Hinv Hfit H. unfold append_group in H.
  destruct (prepare_group w batches) as [|[[[v frames] seq] gb]] eqn:Hprep; [left; congruence|].
  right. destruct (prepared_group _ _ _ _ _ _ _ _ _ Hinv Hprep) as (Hlive & -> & fd & sd & fu & su &
    st' & Hd & Hu & Ha & Hsame & Hdur & Hb & Hsyn & Hsyn' & Hfb & _ & _ & _ & Hn).
  pose proof (write_and_flush_spec (wi_options w) frames outs (wi_file w)) as Hw.
  rewrite Hfb in H. destruct (write_and_flush _ _ frames outs (wi_file w)) as [[e'|off] f']; [|done].
  destruct Hw as (img & Hp & Hb' & Hsyn2). unfold throw in H. injection H as <- <-.
  split_and!; [done|done|done|].
  destruct (cut_appended su batches (mjoin frames) st' [] img Ha ltac:(by left)
    ltac:(by rewrite app_nil_r)) as (n & fx & sx & t & Hx & Ht & Himg).
  exists n. destruct Hinv as [Hopt Hid Hfits Hcount _]. rewrite app_nil_r in Hfits, Hcount.
  constructor; simpl; [done|done| | |].
  { rewrite app_assoc. apply Forall_app. split; [done|]. by apply Forall_take. }
  { rewrite app_assoc, length_app, length_take. lia. }
  exists fd, sd, fu, su, fx, sx, t. split_and!; [done|done|done|done|done|done| | | |done].
  - by rewrite Hb', Hb, Himg, <- !app_assoc.
  - by rewrite Hsyn2.
  - rewrite Hsyn2, Hb'. etrans; [done|]. by apply prefix_app_r.
Qed.

Lemma wal_flush_ok w d u x out w' :
  impl_inv w d u x -> wal_flush w out = (inr tt, w') -> impl_inv w' (d ++ u) [] [].
Proof.
  intros Hinv H. unfold wal_flush, ensure_live in H.
  destruct (wi_failed w) eqn:Hlive; [done|].
  destruct (impl_inv_file _ _ _ _ Hinv Hlive)
    as (-> & fd & sd & fu & su & Hd & Hu & Hsame & Hdur & Hb & Hsyn & Hsyn' & Hfb).
  destruct Hinv as [Hopt Hid Hfits Hcount _]. rewrite app_nil_r in Hfits, Hcount.
  destruct (N.eqb_spec (ws_durable_frame_sequence (wi_state w)) (ws_last_frame_sequence (wi_state w)))
    as [Heq|Hne].
  - injection H as <-. assert (Hu0 : u = []).
    { pose proof (appended_sequence _ _ _ _ (appended_app _ _ _ _ _ _ _ Hd Hu) Hcount) as Hq.
      rewrite length_app in Hcount, Hq. pose proof (appended_sequence _ _ _ _ Hd) as Hq'. simpl in *.
      destruct Hsame as (_ & Hls & _). rewrite Hdur, Hls, Hq, Hq' in Heq by lia.
      destruct u; [done|]. simpl in Heq. lia. }
    subst u. apply appended_nil_inv in Hu as [-> ->]. rewrite app_nil_r in *.
    constructor; simpl; [done|done|by rewrite app_nil_r|by rewrite app_nil_r|].
    exists fd, sd, [], sd, [], sd, []. rewrite !app_nil_r.
    split_and!; auto using appended_nil. by left.
  - destruct out as [|k reason]; simpl in H; [|done]. injection H as <-.
    constructor; simpl; [done|done|by rewrite !app_nil_r|by rewrite !app_nil_r|].
    exists (fd ++ fu), su, [], su, [], su, [].
    split_and!; [by eapply appended_app|apply appended_nil|apply appended_nil|by left|done|
      apply Hsame|by rewrite !app_nil_r|by rewrite Hb|done|done].
Qed.

Lemma wal_flush_fails w d u x out e w' :
  impl_inv w d u x -> wal_flush w out = (inl e, w') ->
  w' = w \/ (wi_failed w' = true /\ we_code e = io /\ wi_state w' = wi_state w /\ impl_inv w' d u x).
Proof.
  intros Hinv H. unfold wal_flush, ensure_live in H.
  destruct (wi_failed w) eqn:Hlive; unfold throw in H; [simplify_eq/=; by left|].
  destruct (_ =? _); [done|]. destruct out as [|k reason]; simpl in H; [done|].
  injection H as <- <-. right. split_and!; [done|done|done|].
  pose proof (impl_inv_live _ _ _ _ Hinv Hlive) as ->. destruct Hinv as [Ho Hi Hf Hc Hx].
  constructor; simpl; [done|done|done|done|].
  destruct Hx as (fd & sd & fu & su & fx & sx & t & Hd & Hu & Hx & Ht & Hs & Hq & Hb & Hp & Hy & Hl).
  exists fd, sd, fu, su, fx, sx, t. split_and!; done.
Qed.

End invariant.

(** ** Reopening *)

#[local] Opaque file_header_bytes frame_bytes.

Section reopening.

(** No read is refused by the system. *)
Definition reads_ok (offset n : N) : option string := None.

Lemma native_read_span f offset n :
  offset + n <= blen (nf_bytes f) -> native_read reads_ok f offset n = read_span (nf_bytes f) offset n.
Proof.
  intros H. unfold native_read, read_span. simpl.
  destruct (N.ltb_spec (blen (nf_bytes f)) (offset + n)); [lia|].
  destruct (N.ltb_spec (blen (nf_bytes f)) offset); [lia|].
  by destruct (N.ltb_spec (blen (nf_bytes f) - offset) n); [lia|].
Qed.

(** The scan never reads outside the file, so the two byte sources agree. *)
Lemma scan_loop_native f o fuel offset r :
  scan_loop fuel (blen (nf_bytes f)) (native_read reads_ok f) o offset r =
  scan_loop fuel (blen (nf_bytes f)) (read_span (nf_bytes f)) o offset r.
Proof.
  revert offset r. induction fuel as [|fuel IH]; intros offset r; simpl; [done|].
  destruct (N.ltb_spec offset (blen (nf_bytes f))); [|done]. cbn [negb].
  destruct (N.ltb_spec (blen (nf_bytes f) - offset) kFrameHeaderBytes); [done|].
  rewrite native_read_span by lia. destruct (read_span _ offset kFrameHeaderBytes) as [|hb]; [done|].
  cbn [wbind]. destruct (at_offset offset (parse_frame_header hb o)) as [|h]; [done|]. cbn [wbind].
  destruct (throw_if _ _ _); [done|]. cbn [wbind].
  destruct (N.ltb_spec (blen (nf_bytes f) - offset) (fh_frame_size h)); [done|].
  rewrite native_read_span by lia. destruct (read_span _ offset _); [done|]. cbn [wbind].
  destruct (at_offset offset _); [done|]. cbn [wbind]. apply IH.
Qed.

Lemma scan_native f id o :
  scan_source (blen (nf_bytes f)) (native_read reads_ok f) id o = scan_wal_bytes (nf_bytes f) id o.
Proof.
  unfold scan_wal_bytes, scan_source. destruct (validate_options o); [done|]. cbn [wbind].
  destruct (N.ltb_spec (blen (nf_bytes f)) kFileHeaderBytes); [done|]. cbn [throw_if wbind].
  rewrite native_read_span by lia. destruct (read_span _ _ _); [done|]. cbn [wbind].
  destruct (validate_file_header _ _); [done|]. cbn [wbind]. by rewrite scan_loop_native.
Qed.

(** A created log is empty and durable. *)
Lemma wal_create_inv id o f outs w f' u :
  validate_options o = inr u -> identity_fits id -> nf_bytes f = [] -> nf_synced f = [] ->
  wal_open id o reads_ok outs f = (inr w, f') -> impl_inv w [] [] [] /\ wi_file w = f'.
Proof.
  intros Ho Hid Hb Hs H. unfold wal_open, file_bind, file_lift in H. rewrite Ho, Hb in H.
  change (blen [] =? 0) with true in H. cbv iota in H. rewrite make_file_header_bytes in H.
  remember (file_header_bytes id) as hdr eqn:Hhdr.
  assert (Hlen : blen hdr = kFileHeaderBytes) by (by rewrite Hhdr, file_header_length).
  unfold write_exact, throw in H. destruct (out_at outs 0); [|discriminate H].
  rewrite Hb in H. pose proof (overwrite_end [] hdr) as Hover. change (blen []) with 0 in Hover.
  rewrite Hover, app_nil_l in H. unfold flush_file, throw in H.
  destruct (out_at outs 1); [|discriminate H]. cbn [nf_created nf_bytes nf_synced set_bytes] in H.
  assert (Hw : (inr (mkWalImpl id o (mkNativeFile (nf_created f) hdr hdr)
      (mkWalState (mkHardState 0 None) [] 0 0 0 (blen hdr) false) false EmptyString),
      mkNativeFile (nf_created f) hdr hdr) = (inr w, f') :> W WalImpl * NativeFile).
  { destruct (nf_created f); [unfold sync_parent_directory, throw in H; destruct (out_at outs 2)|];
      [exact H|discriminate H|exact H]. }
  injection Hw as <- <-. split; [|reflexivity]. destruct u.
  constructor; cbn [wi_options wi_identity wi_failed wi_file wi_state nf_bytes nf_synced app length];
    [exact Ho|exact Hid|constructor|done|]. rewrite Hlen, <- Hhdr.
  exists [], created_state, [], created_state, [], created_state, [].
  rewrite !app_nil_r. split_and!; auto using appended_nil. 1: by left. done.
Qed.

(** The object that stands for a scanned file. *)
Lemma opened_inv id o bs fs st (st' : WalState) (bytes : list N) b :
  validate_options o = inr tt -> identity_fits id -> Forall batch_fits bs ->
  N.of_nat (length bs) <= u64_max -> appended o created_state bs fs st ->
  bytes = file_header_bytes id ++ fs -> same_log st' st ->
  ws_durable_frame_sequence st' = ws_last_frame_sequence st ->
  impl_inv (mkWalImpl id o (mkNativeFile b bytes bytes) st' false EmptyString) bs [] [].
Proof.
  intros Ho Hid Hfit Hcount Ha Hb Hs Hd.
  constructor; cbn [wi_options wi_identity wi_failed wi_file wi_state nf_bytes nf_synced];
    rewrite ?app_nil_r; [exact Ho|exact Hid|exact Hfit|exact Hcount|].
  exists fs, st, [], st, [], st, []. rewrite !app_nil_r.
  split_and!; [exact Ha|apply appended_nil|apply appended_nil|by left|exact Hs|exact Hd|exact Hb|
    by rewrite Hb|reflexivity|tauto].
Qed.

(** A header, complete frames and a torn tail reopen to the complete frames. *)
Lemma reopen_image id o bs fs st t img :
  validate_options o = inr tt -> identity_fits id -> Forall batch_fits bs ->
  N.of_nat (length bs) <= u64_max -> appended o created_state bs fs st -> torn o st t ->
  img = file_header_bytes id ++ fs ++ t ->
  exists w' f', wal_open id o reads_ok [] (mkNativeFile false img img) = (inr w', f') /\
    impl_inv w' bs [] [] /\ wi_failed w' = false /\ wi_identity w' = id /\ wi_options w' = o.
Proof.
  intros Ho Hid Hfit Hcount Ha Ht Himg. pose proof (validate_options_ok _ _ Ho) as Hok.
  pose proof (scan_file Hok id _ _ _ t tt Ho Hid Hfit Ha Ht) as Hscan. rewrite <- Himg in Hscan.
  pose proof (scan_native (mkNativeFile false img img) id o) as Hnat.
  cbn [nf_bytes] in Hnat. rewrite Hscan in Hnat.
  pose proof (file_header_length id) as Hhl.
  assert (Hfile : ws_file_bytes st = blen (file_header_bytes id ++ fs)).
  { rewrite (appended_file _ _ _ _ Ha), blen_app, Hhl. reflexivity. }
  assert (Hinv : forall st' bytes b, bytes = file_header_bytes id ++ fs -> same_log st' st ->
    ws_durable_frame_sequence st' = ws_last_frame_sequence st ->
    impl_inv (mkWalImpl id o (mkNativeFile b bytes bytes) st' false EmptyString) bs [] []).
  { intros. by eapply opened_inv. }
  assert (Htake : take (N.to_nat (ws_file_bytes st)) img = file_header_bytes id ++ fs).
  { rewrite Himg, app_assoc. by apply take_blen_app. }
  assert (Hne : (blen img =? 0) = false).
  { apply N.eqb_neq. rewrite Himg, blen_app, Hhl. unfold kFileHeaderBytes. lia. }
  unfold wal_open, file_bind, file_lift. rewrite Ho. cbn [nf_bytes]. rewrite Hne, Hnat.
  destruct (is_nil t) eqn:Hnil; cbn [sc_has_incomplete_tail finish_scan negb].
  - destruct t; [|discriminate Hnil]. rewrite app_nil_r in Himg.
    eexists _, _. split; [reflexivity|]. split_and!; [|reflexivity..].
    apply Hinv; [exact Himg|split_and!; reflexivity|reflexivity].
  - cbn [sc_valid_bytes sc_state truncate_file flush_file out_at default lookup list_lookup set_bytes
      nf_bytes nf_created nf_synced].
    eexists _, _. split; [reflexivity|]. split_and!; [|reflexivity..].
    apply Hinv; [exact Htake|split_and!; reflexivity|reflexivity].
Qed.

(** Any image a crash can leave reopens to the durable batches and a prefix of
    the others. *)
Lemma reopen_inv w d u x img :
  impl_inv w d u x -> crash_image (wi_file w) img ->
  exists n w' f', wal_open (wi_identity w) (wi_options w) reads_ok [] (mkNativeFile false img img)
    = (inr w', f') /\ impl_inv w' (d ++ take n (u ++ x)) [] [] /\ wi_failed w' = false /\
    wi_identity w' = wi_identity w /\ wi_options w' = wi_options w.
Proof.
  intros [Ho Hid Hfit Hcount
    (fd & sd & fu & su & fx & sx & t & Hd & Hu & Hx & Ht & Hs & Hq & Hb & Hp & Hy & Hl)] [Himg1 Himg2].
  assert (Hpre : file_header_bytes (wi_identity w) ++ fd `prefix_of` img) by (by etrans).
  destruct Hpre as [img' ->].
  assert (Himg' : img' `prefix_of` (fu ++ fx) ++ t).
  { rewrite Hb in Himg2. rewrite <- !app_assoc in Himg2. rewrite <- app_assoc.
    by do 2 apply prefix_app_inv in Himg2. }
  destruct (cut_appended _ _ _ _ _ _ (appended_app _ _ _ _ _ _ _ Hu Hx) Ht Himg')
    as (n & fs & st & t' & Ha & Ht' & ->). exists n.
  apply (reopen_image _ _ _ (fd ++ fs) st t'); [done|done| | |by eapply appended_app|done|].
  - apply Forall_app in Hfit as [? ?]. apply Forall_app. split; [done|]. by apply Forall_take.
  - rewrite !length_app in Hcount. rewrite length_app, length_take, length_app. lia.
  - by rewrite <- !app_assoc.
Qed.

End reopening.
