(* ===== verification/WalTheorems.v ===== *)
(** * WalTheorems: properties of the write-ahead log

    What survives crashes and I/O failures, the batch format, the recovery scan,
    and small logs on which each property is exercised. *)

From stdpp Require Import pretty.
From S2P Require Import Prelude Model StateMachine RaftTypes RaftSpec System.
From S2P Require Import Bytes Wal WalFormat WalFrames WalRecovery WalScan WalFile WalDurability.
#[local] Open Scope N_scope.

(** C32 (acknowledged batches survive).  When [append_group] returns a result
    marked durable, then for every file image a crash can leave behind (at least
    the flushed bytes, at most the written ones) reopening the log succeeds and
    recovers exactly the state of all batches acknowledged so far. *)
Theorem wal_acknowledged_survives (w w' : WalImpl) (d u x batches : list PersistBatch)
    (outs : list IoOutcome) (res : WalAppendResult) (img : list N)
    (Hinv : impl_inv w d u x) (Hfit : Forall batch_fits batches)
    (Happ : append_group w batches outs = (inr res, w')) (Hdur : war_durable res = true)
    (Himg : crash_image (wi_file w') img) :
  exists w2 f2,
    wal_open (wi_identity w') (wi_options w') reads_ok [] (mkNativeFile false img img) = (inr w2, f2) /\
    wal_recovered (wi_state w2) = replayed (d ++ u ++ batches).
Proof.
  destruct (append_group_ok _ _ _ _ _ _ _ _ Hinv Hfit Happ) as (Hw & Hd & _).
  rewrite <- Hd, Hdur in Hw.
  destruct (reopen_inv _ _ _ _ _ Hw Himg) as (n & w2 & f2 & Hopen & Hinv2 & _).
  rewrite app_nil_r, take_nil, app_nil_r in Hinv2. exists w2, f2. split; [done|].
  apply impl_inv_state in Hinv2 as [-> _]. by rewrite app_nil_r.
Qed.

(** (crash recovery is a prefix).  From every reachable state of the log, a
    failed one included, reopening any crash image succeeds and recovers all
    durable batches followed by a prefix, in order, of the acknowledged and
    attempted ones: no batch is lost before a later one and none is invented. *)
Theorem wal_crash_prefix (w : WalImpl) (d u x : list PersistBatch) (img : list N)
    (Hinv : impl_inv w d u x) (Himg : crash_image (wi_file w) img) :
  exists n w2 f2,
    wal_open (wi_identity w) (wi_options w) reads_ok [] (mkNativeFile false img img) = (inr w2, f2) /\
    wi_failed w2 = false /\
    wal_recovered (wi_state w2) = replayed (d ++ take n (u ++ x)) /\
    wal_ok (wal_recovered (wi_state w2)).
Proof.
  destruct (reopen_inv _ _ _ _ _ Hinv Himg) as (n & w2 & f2 & Hopen & Hinv2 & Hlive & _).
  apply impl_inv_state in Hinv2 as [Hst Hok]. rewrite app_nil_r in Hst, Hok.
  exists n, w2, f2. rewrite Hst. done.
Qed.

(** (torn-tail recovery).  A file that holds the header, the frames
    [encode_wal_frame] produced for some batches and any proper prefix of one
    further frame scans without error to the state after the complete frames,
    reports the byte offset to cut at, and flags an incomplete tail exactly when
    there is one. *)
Theorem wal_torn_tail (o : WalOptions) (id : WalIdentity) (batches : list PersistBatch)
    (hdr fs t : list N) (st : WalState) (b : PersistBatch) (f : WalEncodedFrame)
    (Hid : identity_fits id) (Hfit : Forall batch_fits batches)
    (Hhdr : encode_wal_file_header id = inr hdr)
    (Hfs : wal_write o created_state batches = inr (fs, st))
    (Hf : encode_wal_frame st b o = inr f)
    (Ht : t `prefix_of` ef_bytes f) (Hne : t <> ef_bytes f) :
  exists r, scan_wal_bytes (hdr ++ fs ++ t) id o = inr r /\
    wal_recovered (sc_state r) = replayed batches /\
    sc_valid_bytes r = blen (hdr ++ fs) /\ sc_has_incomplete_tail r = negb (is_nil t) /\
    ws_durable_frame_sequence (sc_state r) = ws_last_frame_sequence st.
Proof.
  unfold encode_wal_file_header in Hhdr. rewrite make_file_header_bytes in Hhdr.
  apply (inj inr) in Hhdr as <-. pose proof (encode_wal_frame_options _ _ _ Hf) as Ho.
  pose proof (validate_options_ok _ _ Ho) as Hok.
  pose proof (wal_write_appended _ _ _ _ Hfs) as Ha.
  pose proof (torn_frame _ _ _ _ Hf Ht Hne) as Htorn.
  eexists. split; [by eapply (scan_file Hok)|].
  destruct (appended_ok _ _ _ _ Ha created_ok) as [_ Hap]. split_and!; [exact Hap| |done|done].
  cbn [sc_valid_bytes finish_scan]. rewrite (appended_file _ _ _ _ Ha), blen_app, file_header_length.
  reflexivity.
Qed.

(** (staging implements the durable-state semantics).  A batch that
    [ValidationView::stage] accepts changes the state exactly as the protocol
    proof's [apply_batch] says; the result is again a well-formed log, terms and
    the commit index do not decrease, a vote of the current term is kept and the
    committed prefix is untouched. *)
Theorem wal_stage_refines (o : WalOptions) (st : WalState) (b : PersistBatch) (v : ValidationView)
    (Hok : wal_ok (wal_recovered st)) (Hst : stage b o (new_view st) = inr v) :
  wal_recovered (materialize v st) = apply_batch (wal_recovered st) b /\
  wal_ok (wal_recovered (materialize v st)) /\
  wal_step (wal_recovered st) (wal_recovered (materialize v st)).
Proof.
  destruct (new_view_state st) as [Hv Heq].
  destruct (stage_spec _ _ _ _ Hst Hv ltac:(by rewrite Heq)) as (_ & Hok' & Hstep & _ & Hap).
  rewrite (materialize_state _ _ _ _ Hst), <- Heq. done.
Qed.

(** (batch round trip).  The payload [encode_batch_payload] writes for a batch
    within the size limits decodes to the same batch. *)
Theorem wal_batch_roundtrip (o : WalOptions) (b : PersistBatch) (p : list N)
    (Ho : validate_options o = inr tt) (Hfit : batch_fits b) (Hin : batch_within o b)
    (Henc : encode_batch_payload b o = inr p) :
  decode_batch_payload p o = inr b.
Proof.
  apply encode_batch_payload_spec in Henc as ->.
  apply decode_batch_bytes; [by eapply validate_options_ok|done|done].
Qed.

(** (fail-stop).  After an I/O failure the object refuses every later
    [append_group] and [flush] with the [failed] code and does not touch its
    state or its file; and the failing call itself leaves the logical state as
    it was. *)
Theorem wal_fail_stop (w w' : WalImpl) (d u x batches : list PersistBatch) (outs : list IoOutcome)
    (e : WalError) (Hinv : impl_inv w d u x) (Hfit : Forall batch_fits batches)
    (Hfail : append_group w batches outs = (inl e, w')) :
  wi_state w' = wi_state w /\
  (w' = w \/
   (forall bs outs', (append_group w' bs outs').2 = w' /\
      exists m, (append_group w' bs outs').1 = throw failed m) /\
   (forall out, (wal_flush w' out).2 = w' /\ exists m, (wal_flush w' out).1 = throw failed m)).
Proof.
  destruct (append_group_fails _ _ _ _ _ _ _ _ Hinv Hfit Hfail) as [->|(Hf & _ & Hs & _)]; [auto|].
  split; [done|]. right.
  unfold append_group, wal_flush, prepare_group, ensure_live. rewrite Hf.
  split; intros; (split; [reflexivity|by eexists]).
Qed.

(** (the recovery scan terminates).  For every byte source, one unit of fuel
    per byte is enough: more fuel never changes the result of the scan loop. *)
Theorem wal_scan_terminates (byte_count : N) (read_exact : N -> N -> W (list N)) (o : WalOptions)
    (r : WalScanResult) (fuel : nat) (Hfuel : (N.to_nat byte_count <= fuel)%nat) :
  scan_loop (N.to_nat byte_count) byte_count read_exact o kFileHeaderBytes r =
  scan_loop fuel byte_count read_exact o kFileHeaderBytes r.
Proof. apply scan_loop_fuel; lia. Qed.

(** Identity check.  A log opened for another cluster or node is refused
    with [identity_mismatch], whatever frames follow the header. *)
Theorem wal_identity_checked (o : WalOptions) (id other : WalIdentity) (tl : list N)
    (Ho : validate_options o = inr tt) (Hid : identity_fits id) (Hne : id <> other) :
  exists m, scan_wal_bytes (file_header_bytes id ++ tl) other o = throw identity_mismatch m.
Proof.
  unfold scan_wal_bytes, scan_source. rewrite Ho. cbn [wbind].
  pose proof (file_header_length id) as Hl.
  destruct (N.ltb_spec (blen (file_header_bytes id ++ tl)) kFileHeaderBytes) as [Hlt|].
  { rewrite blen_app in Hlt. lia. }
  cbn [throw_if wbind].
  pose proof (read_span_app (file_header_bytes id ++ tl) [] (file_header_bytes id) tl
    kFileHeaderBytes eq_refl Hl) as Hread. change (blen []) with 0 in Hread. rewrite Hread. cbn [wbind].
  rewrite (validate_file_header_other id other Hid Hne). by eexists.
Qed.

(** ** Witnesses *)

Definition demo_id : WalIdentity := mkWalIdentity 7 8 1.
Definition demo_put : ClientCommand := mkClientCommand (mkSessionId 1 2) 1 put "k" "v".
Definition demo_batch1 : PersistBatch :=
  mkPersistBatch (Some (mkHardState 1 (Some 1))) None [mkLogEntry 1 1 None] None.
Definition demo_batch2 : PersistBatch :=
  mkPersistBatch None None [mkLogEntry 2 1 (Some demo_put)] (Some 1).
Definition demo_empty : NativeFile := mkNativeFile true [] [].

Definition demo_wal : WalImpl :=
  match (wal_open demo_id default_options reads_ok [] demo_empty).1 with
  | inr w => w
  | inl _ => mkWalImpl demo_id default_options demo_empty created_state true EmptyString
  end.

Lemma demo_wal_inv : impl_inv demo_wal [] [] [].
Proof.
  destruct (wal_create_inv demo_id default_options demo_empty [] demo_wal
    (wal_open demo_id default_options reads_ok [] demo_empty).2 tt) as [H _]; [..|exact H].
  - vm_compute. reflexivity.
  - split_and!; by vm_compute.
  - reflexivity.
  - reflexivity.
  - vm_compute. reflexivity.
Qed.

Lemma demo_fits : Forall batch_fits [demo_batch1; demo_batch2].
Proof. apply (bool_decide_unpack _). vm_compute. reflexivity. Qed.

Definition demo_appended : WalImpl := (append_group demo_wal [demo_batch1; demo_batch2] []).2.

Definition demo_broken : WalImpl :=
  (append_group demo_wal [demo_batch1; demo_batch2] [io_ok; io_fails 60 "disk full"]).2.

Lemma wal_acknowledged_survives_witness :
  exists w2 f2,
    wal_open (wi_identity demo_appended) (wi_options demo_appended) reads_ok []
      (mkNativeFile false (nf_bytes (wi_file demo_appended)) (nf_bytes (wi_file demo_appended)))
    = (inr w2, f2) /\
    wal_recovered (wi_state w2) = replayed [demo_batch1; demo_batch2].
Proof.
  apply (wal_acknowledged_survives demo_wal demo_appended [] [] [] [demo_batch1; demo_batch2] []
    (mkWalAppendResult 1 2 true 250)).
  - exact demo_wal_inv.
  - exact demo_fits.
  - vm_compute. reflexivity.
  - reflexivity.
  - split; apply (bool_decide_unpack _); vm_compute; reflexivity.
Defined.

Lemma wal_crash_prefix_witness :
  exists n w2 f2,
    wal_open demo_id default_options reads_ok []
      (mkNativeFile false (nf_bytes (wi_file demo_wal)) (nf_bytes (wi_file demo_wal))) = (inr w2, f2) /\
    wi_failed w2 = false /\
    wal_recovered (wi_state w2) = replayed ([] ++ take n ([] ++ [])) /\
    wal_ok (wal_recovered (wi_state w2)).
Proof.
  apply (wal_crash_prefix demo_wal [] [] []).
  - exact demo_wal_inv.
  - split; apply (bool_decide_unpack _); vm_compute; reflexivity.
Defined.

Definition demo_written : list N * WalState :=
  match wal_write default_options created_state [demo_batch1] with
  | inr r => r
  | inl _ => ([], created_state)
  end.

Definition demo_next : WalEncodedFrame :=
  match encode_wal_frame demo_written.2 demo_batch2 default_options with
  | inr f => f
  | inl _ => mkWalEncodedFrame [] created_state
  end.

Lemma wal_torn_tail_witness :
  exists r, scan_wal_bytes (file_header_bytes demo_id ++ demo_written.1 ++ take 100 (ef_bytes demo_next))
      demo_id default_options = inr r /\
    wal_recovered (sc_state r) = replayed [demo_batch1] /\
    sc_valid_bytes r = blen (file_header_bytes demo_id ++ demo_written.1) /\
    sc_has_incomplete_tail r = negb (is_nil (take 100 (ef_bytes demo_next))) /\
    ws_durable_frame_sequence (sc_state r) = ws_last_frame_sequence demo_written.2.
Proof.
  apply (wal_torn_tail default_options demo_id [demo_batch1] (file_header_bytes demo_id)
    demo_written.1 (take 100 (ef_bytes demo_next)) demo_written.2 demo_batch2 demo_next).
  - split_and!; by vm_compute.
  - apply (bool_decide_unpack _). vm_compute. reflexivity.
  - vm_compute. reflexivity.
  - vm_compute. reflexivity.
  - vm_compute. reflexivity.
  - apply (bool_decide_unpack _). vm_compute. reflexivity.
  - apply (bool_decide_unpack _). vm_compute. reflexivity.
Defined.

Definition demo_view : ValidationView :=
  match stage demo_batch1 default_options (new_view created_state) with
  | inr v => v
  | inl _ => new_view created_state
  end.

Lemma wal_stage_refines_witness :
  wal_recovered (materialize demo_view created_state) =
    apply_batch (wal_recovered created_state) demo_batch1 /\
  wal_ok (wal_recovered (materialize demo_view created_state)) /\
  wal_step (wal_recovered created_state) (wal_recovered (materialize demo_view created_state)).
Proof.
  apply (wal_stage_refines default_options).
  - exact created_ok.
  - vm_compute. reflexivity.
Defined.

Lemma wal_batch_roundtrip_witness :
  decode_batch_payload (batch_bytes demo_batch2) default_options = inr demo_batch2.
Proof.
  apply (wal_batch_roundtrip default_options demo_batch2 (batch_bytes demo_batch2)).
  - vm_compute. reflexivity.
  - apply (bool_decide_unpack _). vm_compute. reflexivity.
  - split; [by vm_compute|]. repeat constructor; by vm_compute.
  - vm_compute. reflexivity.
Defined.

Lemma wal_fail_stop_witness :
  wi_state demo_broken = wi_state demo_wal /\
  (demo_broken = demo_wal \/
   (forall bs outs', (append_group demo_broken bs outs').2 = demo_broken /\
      exists m, (append_group demo_broken bs outs').1 = throw failed m) /\
   (forall out, (wal_flush demo_broken out).2 = demo_broken /\
      exists m, (wal_flush demo_broken out).1 = throw failed m)).
Proof.
  apply (wal_fail_stop demo_wal demo_broken [] [] [] [demo_batch1; demo_batch2]
    [io_ok; io_fails 60 "disk full"] (mkWalError io "disk full")).
  - exact demo_wal_inv.
  - exact demo_fits.
  - vm_compute. reflexivity.
Defined.

Lemma wal_scan_terminates_witness :
  scan_loop (N.to_nat 100) 100 (read_span (replicate 100 0)) default_options kFileHeaderBytes
    (scanned initial_state 0 kFileHeaderBytes) =
  scan_loop 1000 100 (read_span (replicate 100 0)) default_options kFileHeaderBytes
    (scanned initial_state 0 kFileHeaderBytes).
Proof. apply (wal_scan_terminates 100). vm_compute. lia. Defined.

Lemma wal_identity_checked_witness :
  exists m, scan_wal_bytes (file_header_bytes demo_id ++ [1; 2; 3]) (mkWalIdentity 7 8 2)
    default_options = throw identity_mismatch m.
Proof.
  apply (wal_identity_checked default_options demo_id (mkWalIdentity 7 8 2)).
  - vm_compute. reflexivity.
  - split_and!; by vm_compute.
  - discriminate.
Defined.

(** C25 The loops of system calls do what the log relies on: however the system splits,
    interrupts or refuses the calls of [pwrite] and [pread], the loops of
    [write_exact] and [read_exact] end after as many answers as bytes that are not an
    interruption, and their result and the file they leave are one of the outcomes that
    the proofs about the log range over: everything, or an error after some bytes. *)
Theorem native_io_refines (answers : list SysAnswer) (path : string) (offset : N) (source : list N) (f : NativeFile)
    (Hoff : offset <= blen (nf_bytes f)) (Hlen : offset + blen source <= u64_max)
    (Hans : (length source <= productive answers)%nat) :
  (exists out r f', write_calls answers path offset source 0 f = Some (r, f') /\ write_exact offset source out f = (r, f')) /\
  (exists fails r, read_calls answers path offset (blen source) [] f = Some r /\
     native_read fails f offset (blen source) = r).
Proof.
  split.
  - destruct (write_calls_return answers path offset source 0 f) as [[r f'] Hw]; [lia|].
    destruct (write_calls_refine _ _ _ _ _ _ _ Hoff Hlen Hw) as [out Ho]. by exists out, r, f'.
  - destruct (read_calls_return answers path offset (blen source) [] f) as [r Hr]; [unfold blen; simpl; lia|].
    destruct (read_calls_refine _ _ _ _ _ _ Hoff Hlen Hr) as [fails Hf]. by exists fails, r.
Qed.

(** A write of four bytes, interrupted once and split in two. *)
Lemma native_io_refines_witness :
  exists out r f', write_calls [sys_error errno_EINTR; sys_bytes 3; sys_bytes 9; sys_bytes 1; sys_bytes 1] "log" 2 [1; 2; 3; 4] 0
    (mkNativeFile false [7; 7; 7] []) = Some (r, f') /\
    write_exact 2 [1; 2; 3; 4] out (mkNativeFile false [7; 7; 7] []) = (r, f').
Proof.
  apply (native_io_refines [sys_error errno_EINTR; sys_bytes 3; sys_bytes 9; sys_bytes 1; sys_bytes 1] "log" 2 [1; 2; 3; 4]
    (mkNativeFile false [7; 7; 7] [])); [by vm_compute|by vm_compute|]. vm_compute. lia.
Defined.
