(* ===== verification/TcpTypes.v ===== *)
(** * TcpTypes: the types of the TCP transport and its interface to a node host

    The declarations of [include/detlog/tcp_transport.hpp], and the class
    [Transport] of what [src/node_host.cpp] calls on a [TcpTransport]. *)

From S2P Require Import Prelude Model.

Record TcpIdentity := mkTcpIdentity {
  ti_cluster_id_high : N;
  ti_cluster_id_low : N;
  ti_node_id : NodeId;
}.

#[global] Instance TcpIdentity_eq_dec : EqDecision TcpIdentity.
Proof. solve_decision. Defined.

Record TcpPeerEndpoint := mkTcpPeerEndpoint {
  pe_node_id : NodeId;
  pe_address : string;
  pe_port : N;
}.

Record TcpTransportLimits := mkTcpTransportLimits {
  tl_max_frame_bytes : N;
  tl_max_outbound_bytes_per_peer : N;
  tl_max_total_outbound_bytes : N;
  tl_max_inbound_events : N;
  tl_max_inbound_event_bytes : N;
  tl_max_pending_connections : N;
  tl_handshake_timeout_ms : N;
  tl_reconnect_delay_ms : N;
  tl_io_poll_interval_ms : N;
}.

(** The default member initialisers of [TcpTransportLimits]. *)
Definition default_tcp_limits : TcpTransportLimits :=
  mkTcpTransportLimits (1024 * 1024) (4 * 1024 * 1024) (16 * 1024 * 1024) 1024 (8 * 1024 * 1024)
    32 3000 100 10.

Record TcpTransportConfig := mkTcpTransportConfig {
  tc_identity : TcpIdentity;
  tc_incarnation : N;
  tc_listen_address : string;
  tc_listen_port : N;
  tc_allow_non_loopback : bool;
  tc_peers : list TcpPeerEndpoint;
  tc_limits : TcpTransportLimits;
}.

Inductive TcpTransportErrorCode :=
  | tcp_none
  | invalid_configuration
  | self_peer
  | unknown_peer
  | duplicate_peer
  | wrong_cluster
  | wrong_version
  | protocol_error
  | frame_too_large
  | queue_full
  | connection_down
  | tcp_partitioned
  | io_error
  | tcp_stopped.

#[global] Instance TcpTransportErrorCode_eq_dec : EqDecision TcpTransportErrorCode.
Proof. solve_decision. Defined.

Record TcpTransportError := mkTcpTransportError {
  te_code : TcpTransportErrorCode;
  te_what : string;
}.

(** The exceptions that can leave a function: the transport's own, what
    [std::thread] throws, and what [std::map::at] throws.  [out_of_fuel] marks the
    end of a bounded loop and is never reached. *)
Inductive TcpExn :=
  | tcp_thrown (e : TcpTransportError)
  | system_error
  | out_of_range
  | out_of_fuel.

Inductive TcpSendStatus := tcp_queued | tcp_would_block | tcp_down | tcp_error.

Record TcpSendResult := mkTcpSendResult {
  tr_status : TcpSendStatus;
  tr_error : TcpTransportErrorCode;
  tr_peer_queued_bytes : N;
}.

Inductive TcpEventKind := peer_up | peer_down | tcp_message | peer_rejected | transport_error.

#[global] Instance TcpEventKind_eq_dec : EqDecision TcpEventKind.
Proof. solve_decision. Defined.

Record TcpTransportEvent := mkTcpTransportEvent {
  ev_kind : TcpEventKind;
  ev_peer : NodeId;
  ev_peer_incarnation : N;
  ev_error : TcpTransportErrorCode;
  ev_bytes : list N;
}.

#[global] Instance TcpTransportEvent_eq_dec : EqDecision TcpTransportEvent.
Proof. solve_decision. Defined.

(** What a host calls on its transport.  [W] is the outside world a transport is
    created in: the answers of the operating system and the progress of the I/O
    thread before each call.  [tcp_handed] lists the frames [send] has queued so
    far; [tcp_may t e] says that a [poll] may still return the event [e]. *)
Class Transport (W T : Type) := {
  tcp_new : TcpTransportConfig -> W -> TcpExn + T;
  tcp_start : T -> (TcpExn + unit) * T;
  tcp_stop : T -> T;
  tcp_send : NodeId -> list N -> T -> TcpSendResult * T;
  tcp_poll : N -> T -> list TcpTransportEvent * T;
  tcp_set_partitioned : NodeId -> bool -> T -> bool * T;
  tcp_running : T -> bool * T;
  tcp_listening_port : T -> N * T;
  tcp_handed : T -> list (NodeId * list N);
  tcp_may : T -> TcpTransportEvent -> Prop;
}.

(** [t'] comes from [t] by a call that sends nothing. *)
Definition silent {W T} `{Transport W T} (t t' : T) : Prop :=
  tcp_handed t' = tcp_handed t /\ forall e, tcp_may t' e -> tcp_may t e.

(** What a host relies on: [send] records the frame exactly when it reports
    [queued], no other call sends, and [poll] returns no more than asked for. *)
Class TransportLaws (W T : Type) `{Transport W T} := {
  law_new c w t : tcp_new c w = inr t -> tcp_handed t = [];
  law_start t : silent t (tcp_start t).2;
  law_stop t : silent t (tcp_stop t);
  law_send x bs t :
    tcp_handed (tcp_send x bs t).2 =
    match tr_status (tcp_send x bs t).1 with
    | tcp_queued => tcp_handed t ++ [(x, bs)]
    | _ => tcp_handed t
    end;
  law_send_may x bs t e : tcp_may (tcp_send x bs t).2 e -> tcp_may t e;
  law_poll n t : silent t (tcp_poll n t).2;
  law_poll_may n t e : e ∈ (tcp_poll n t).1 -> tcp_may t e;
  law_poll_bound n t : (length (tcp_poll n t).1 <= N.to_nat n)%nat;
  law_partition x b t : silent t (tcp_set_partitioned x b t).2;
  law_running t : silent t (tcp_running t).2;
  law_port t : silent t (tcp_listening_port t).2;
}.
