(* ===== verification/TcpWire.v ===== *)
(** * TcpWire: what two TCP transports say to each other

    The byte formats of [src/tcp_transport.cpp]: the handshake, the length prefix
    of a frame, and the key by which both ends of a connection compare it with
    another one. *)

From S2P Require Import Prelude Model StateMachine Bytes TcpTypes.
#[local] Open Scope N_scope.

(** ** Constants *)

Definition kHandshakeMagic : list N := string_bytes "DTLGPEER".
Definition kHandshakeBytes : N := 56.
Definition kInitiatorFlag : N := 1.
Definition kLengthPrefixBytes : N := 4.
Definition kAbsoluteMaxFrameBytes : N := 64 * 1024 * 1024.
Definition kReadChunkBytes : N := 16 * 1024.
Definition protocol_version : N := 1.

(** ** Integers in a buffer *)

(** Assignment to the bytes from [offset] on. *)
Definition store (bytes : list N) (offset : nat) (bs : list N) : list N :=
  take offset bytes ++ bs ++ drop (offset + length bs) bytes.

Definition put_u16 (bytes : list N) (offset : nat) (value : N) : list N :=
  store bytes offset [byte_at value 8; byte_at value 0].
Definition put_u32 (bytes : list N) (offset : nat) (value : N) : list N :=
  store bytes offset ((fun i => byte_at value (24 - N.of_nat i * 8)) <$> seq 0 4).
Definition put_u64 (bytes : list N) (offset : nat) (value : N) : list N :=
  store bytes offset ((fun i => byte_at value (56 - N.of_nat i * 8)) <$> seq 0 8).

Definition byte_in (bytes : list N) (i : nat) : N := nth i bytes 0.

Definition get_u16 (bytes : list N) (offset : nat) : N :=
  N.lor (N.shiftl (byte_in bytes offset) 8) (byte_in bytes (offset + 1)).
Definition get_u32 (bytes : list N) (offset : nat) : N :=
  foldl (fun value i => N.lor (N.shiftl value 8 mod u32_size) (byte_in bytes (offset + i))) 0 (seq 0 4).
Definition get_u64 (bytes : list N) (offset : nat) : N :=
  foldl (fun value i => N.lor (N.shiftl value 8 mod u64_size) (byte_in bytes (offset + i))) 0 (seq 0 8).

(** ** Handshakes *)

Record Handshake := mkHandshake {
  hs_identity : TcpIdentity;
  hs_incarnation : N;
  hs_nonce : N;
  hs_initiator : bool;
}.

Definition make_handshake (identity : TcpIdentity) (incarnation nonce : N) (initiator : bool) : list N :=
  let bytes := store (replicate (N.to_nat kHandshakeBytes) 0) 0 kHandshakeMagic in
  let bytes := put_u16 bytes 8 protocol_version in
  let bytes := put_u16 bytes 10 kHandshakeBytes in
  let bytes := put_u32 bytes 12 (if initiator then kInitiatorFlag else 0) in
  let bytes := put_u64 bytes 16 (ti_cluster_id_high identity) in
  let bytes := put_u64 bytes 24 (ti_cluster_id_low identity) in
  let bytes := put_u32 bytes 32 (ti_node_id identity) in
  let bytes := put_u32 bytes 36 0 in
  let bytes := put_u64 bytes 40 incarnation in
  put_u64 bytes 48 nonce.

Definition parse_handshake (bytes : list N) : TcpTransportErrorCode + Handshake :=
  if negb (forallb (fun i => byte_in bytes i =? byte_in kHandshakeMagic i) (seq 0 8)) then inl protocol_error
  else if negb (get_u16 bytes 8 =? protocol_version) then inl wrong_version
  else if negb (get_u16 bytes 10 =? kHandshakeBytes) || negb (get_u32 bytes 36 =? 0) then inl protocol_error
  else
    let flags := get_u32 bytes 12 in
    if negb (N.ldiff flags kInitiatorFlag =? 0) then inl protocol_error
    else inr (mkHandshake (mkTcpIdentity (get_u64 bytes 16) (get_u64 bytes 24) (get_u32 bytes 32))
                (get_u64 bytes 40) (get_u64 bytes 48) (negb (N.land flags kInitiatorFlag =? 0))).

(** [automatic_incarnation]: from the clock and the process-wide counter. *)
Definition automatic_incarnation (node : NodeId) (now counter : N) : N :=
  let value := N.lxor (N.lxor now (wrap64 (N.shiftl node 32))) counter in
  if value =? 0 then 1 else value.

(** ** Connection keys *)

Record ConnectionKey := mkConnectionKey {
  ck_lower_node_incarnation : N;
  ck_higher_node_incarnation : N;
  ck_initiator : NodeId;
  ck_nonce : N;
}.

#[global] Instance ConnectionKey_eq_dec : EqDecision ConnectionKey.
Proof. solve_decision. Defined.

(** [std::tie(...) < std::tie(...)]: lexicographic. *)
Definition key_less (lhs rhs : ConnectionKey) : bool :=
  let c1 := (ck_lower_node_incarnation lhs, ck_lower_node_incarnation rhs) in
  let c2 := (ck_higher_node_incarnation lhs, ck_higher_node_incarnation rhs) in
  let c3 := (ck_initiator lhs, ck_initiator rhs) in
  let c4 := (ck_nonce lhs, ck_nonce rhs) in
  (c1.1 <? c1.2) || negb (c1.2 <? c1.1) &&
  ((c2.1 <? c2.2) || negb (c2.2 <? c2.1) &&
   ((c3.1 <? c3.2) || negb (c3.2 <? c3.1) && (c4.1 <? c4.2))).

Definition no_key : ConnectionKey := mkConnectionKey 0 0 0 0.

(** ** Frames *)

(** The wire bytes that [send] queues for a codec frame. *)
Definition wire_frame (codec_frame : list N) : list N :=
  let wire_size := kLengthPrefixBytes + blen codec_frame in
  let bytes := put_u32 (replicate (N.to_nat wire_size) 0) 0 (blen codec_frame mod u32_size) in
  store bytes (N.to_nat kLengthPrefixBytes) codec_frame.

#[global] Arguments wire_frame : simpl never.

(** The codec frames that [send] takes under a limit. *)
Definition frame_fits (limit : N) (f : list N) : Prop := 0 < blen f <= limit /\ bytes_ok f.

(** ** The formats as concatenations *)

Lemma put_u16_bytes v : [byte_at v 8; byte_at v 0] = be_bytes 2 v.
Proof. done. Qed.

Lemma put_u32_bytes v : (fun i => byte_at v (24 - N.of_nat i * 8)) <$> seq 0 4 = be_bytes 4 v.
Proof. done. Qed.

Lemma put_u64_bytes v : (fun i => byte_at v (56 - N.of_nat i * 8)) <$> seq 0 8 = be_bytes 8 v.
Proof. done. Qed.

Lemma store_length bytes off bs :
  (off + length bs <= length bytes)%nat -> length (store bytes off bs) = length bytes.
Proof. intros. unfold store. rewrite !length_app, length_take, length_drop. lia. Qed.

Lemma store_app pre mid post bs :
  length bs = length mid -> store (pre ++ mid ++ post) (length pre) bs = pre ++ bs ++ post.
Proof.
  intros E. unfold store. rewrite take_app_length, E, (app_assoc pre mid post), <- length_app.
  by rewrite drop_app_length.
Qed.

Lemma byte_in_lookup bytes i b : bytes !! i = Some b -> byte_in bytes i = b.
Proof. intros Hl. by apply nth_lookup_Some. Qed.

(** The reading loops give the number of the bytes they read. *)
Lemma get_loop bytes off k n :
  bytes_ok bytes -> (off + k <= length bytes)%nat -> (k <= n)%nat ->
  foldl (fun v i => N.lor (N.shiftl v 8 mod 256 ^ N.of_nat n) (byte_in bytes (off + i))) 0 (seq 0 k) =
  be_value 0 (take k (drop off bytes)).
Proof.
  intros Hok. induction k as [|k IH]; intros Hlen Hk; [done|].
  rewrite seq_S, foldl_app, IH by lia. simpl.
  destruct (bytes !! (off + k)%nat) as [b|] eqn:Hb; [|apply lookup_ge_None in Hb; lia].
  rewrite (take_S_r _ _ b) by (rewrite lookup_drop; done). unfold be_value. rewrite foldl_app. simpl.
  fold (be_value 0 (take k (drop off bytes))). rewrite (byte_in_lookup _ _ _ Hb). unfold shift_in. f_equal.
  apply N.mod_small. rewrite N.shiftl_mul_pow2. change (2 ^ 8) with 256.
  assert (Hbd : be_value 0 (take k (drop off bytes)) < 256 ^ N.of_nat k).
  { pose proof (be_value_bound (take k (drop off bytes)) 0 ltac:(by apply Forall_take, Forall_drop)) as Hv.
    rewrite length_take, length_drop in Hv. rewrite N.mul_1_l in Hv.
    by replace (k `min` (length bytes - off))%nat with k in Hv by lia. }
  assert (256 ^ N.of_nat (S k) <= 256 ^ N.of_nat n) by (apply N.pow_le_mono_r; lia).
  rewrite pow256_S in *. lia.
Qed.

Lemma get_u32_value bytes off :
  bytes_ok bytes -> (off + 4 <= length bytes)%nat -> get_u32 bytes off = be_value 0 (take 4 (drop off bytes)).
Proof. intros. by apply (get_loop bytes off 4 4). Qed.

Lemma get_u64_value bytes off :
  bytes_ok bytes -> (off + 8 <= length bytes)%nat -> get_u64 bytes off = be_value 0 (take 8 (drop off bytes)).
Proof. intros. by apply (get_loop bytes off 8 8). Qed.

Lemma get_u16_value bytes off :
  bytes_ok bytes -> (off + 2 <= length bytes)%nat -> get_u16 bytes off = be_value 0 (take 2 (drop off bytes)).
Proof.
  intros Hok Hlen. rewrite <- (get_loop bytes off 2 2) by (done || lia). unfold get_u16. simpl.
  rewrite Nat.add_0_r. f_equal. symmetry. apply N.mod_small.
  destruct (bytes !! off) as [b|] eqn:Hb; [|apply lookup_ge_None in Hb; lia].
  rewrite (byte_in_lookup _ _ _ Hb). apply Forall_lookup_1 with (i := off) (x := b) in Hok; [|done].
  rewrite N.shiftl_mul_pow2. change (2 ^ 8) with 256. unfold is_byte in Hok. change (256 ^ 2) with (256 * 256). lia.
Qed.

(** ** Frames *)

Lemma wire_frame_app f : wire_frame f = be_bytes 4 (blen f mod u32_size) ++ f.
Proof.
  unfold wire_frame, put_u32. rewrite put_u32_bytes. set (p := be_bytes 4 _).
  assert (Hp : length p = 4%nat) by apply be_bytes_length.
  replace (N.to_nat (kLengthPrefixBytes + blen f)) with (4 + length f)%nat
    by (unfold kLengthPrefixBytes, blen; lia).
  rewrite replicate_add, (store_app [] (replicate 4 0) (replicate (length f) 0)) by done.
  change (N.to_nat kLengthPrefixBytes) with 4%nat. rewrite <- Hp.
  pose proof (store_app p (replicate (length f) 0) [] f ltac:(by rewrite length_replicate)) as Hs.
  rewrite !app_nil_r in Hs. exact Hs.
Qed.

Lemma wire_frame_length f : length (wire_frame f) = (4 + length f)%nat.
Proof. by rewrite wire_frame_app, length_app, be_bytes_length. Qed.

Lemma wire_frame_blen f : blen (wire_frame f) = kLengthPrefixBytes + blen f.
Proof. unfold blen, kLengthPrefixBytes. rewrite wire_frame_length. lia. Qed.

Lemma wire_frame_ok f : bytes_ok f -> bytes_ok (wire_frame f).
Proof. intros. rewrite wire_frame_app. apply Forall_app. split; [apply be_bytes_ok|done]. Qed.

(** The length prefix tells the length of the frame. *)
Lemma wire_frame_size f rest :
  bytes_ok f -> bytes_ok rest -> blen f <= u32_max -> get_u32 (wire_frame f ++ rest) 0 = blen f.
Proof.
  intros Hf Hr Hl. rewrite get_u32_value.
  - rewrite drop_0, wire_frame_app, <- app_assoc.
    rewrite take_app_length' by (by rewrite be_bytes_length).
    rewrite N.mod_small by (unfold u32_max, u32_size in *; lia).
    apply be_value_inv. by apply u32_bytes.
  - apply Forall_app. split; [by apply wire_frame_ok|done].
  - rewrite length_app, wire_frame_length. lia.
Qed.

(** Bytes whose prefix announces [n] bytes begin with a frame of [n] bytes. *)
Lemma wire_frame_split bytes :
  bytes_ok bytes -> (4 <= length bytes)%nat -> (4 + N.to_nat (get_u32 bytes 0) <= length bytes)%nat ->
  bytes = wire_frame (take (N.to_nat (get_u32 bytes 0)) (drop 4 bytes)) ++
          drop (4 + N.to_nat (get_u32 bytes 0)) bytes.
Proof.
  intros Hok H4 Hlen. set (n := N.to_nat (get_u32 bytes 0)) in *.
  rewrite wire_frame_app, <- app_assoc. rewrite <- (take_drop 4 bytes) at 1. f_equal.
  - unfold blen. rewrite length_take, length_drop.
    replace (n `min` (length bytes - 4))%nat with n by lia. unfold n. rewrite N2Nat.id.
    rewrite get_u32_value by (done || lia). rewrite drop_0.
    pose proof (be_value_bound (take 4 bytes) 0 ltac:(by apply Forall_take)) as Hb.
    assert (Hl4 : length (take 4 bytes) = 4%nat) by (rewrite length_take; lia). rewrite Hl4 in Hb.
    rewrite N.mod_small by (change u32_size with (256 ^ N.of_nat 4); lia).
    symmetry. rewrite <- Hl4 at 1. apply be_bytes_value. by apply Forall_take.
  - rewrite <- drop_drop. by rewrite take_drop.
Qed.

(** Frames on a stream can be told apart in one way only. *)
Lemma wire_prefix f g rest rest' :
  bytes_ok f -> bytes_ok g -> bytes_ok rest -> bytes_ok rest' -> blen f <= u32_max -> blen g <= u32_max ->
  wire_frame f ++ rest = wire_frame g ++ rest' -> f = g /\ rest = rest'.
Proof.
  intros Hf Hg Hr Hr' Hlf Hlg E.
  assert (Hb : blen f = blen g).
  { rewrite <- (wire_frame_size f rest), E by done. by apply wire_frame_size. }
  apply app_inj_1 in E as [E ->]; [|rewrite !wire_frame_length; unfold blen in Hb; lia].
  rewrite !wire_frame_app in E. apply app_inj_1 in E as [_ ->]; [done|by rewrite !be_bytes_length].
Qed.

(** ** Streams of frames *)

Definition stream (fs : list (list N)) : list N := concat (wire_frame <$> fs).

(** [part] is the beginning of a frame, but not all of it. *)
Definition unfinished (limit : N) (part : list N) : Prop :=
  part = [] \/ exists f rest, frame_fits limit f /\ wire_frame f = part ++ rest /\ rest <> [].

Lemma stream_snoc fs f : stream (fs ++ [f]) = stream fs ++ wire_frame f.
Proof. unfold stream. rewrite fmap_app, concat_app. simpl. by rewrite app_nil_r. Qed.

Lemma stream_cons f fs : stream (f :: fs) = wire_frame f ++ stream fs.
Proof. done. Qed.

Lemma stream_ok limit fs : Forall (frame_fits limit) fs -> bytes_ok (stream fs).
Proof.
  induction 1 as [|f fs [_ Hf] _ IH]; [constructor|]. apply Forall_app. split; [by apply wire_frame_ok|done].
Qed.

Lemma unfinished_ok limit part : unfinished limit part -> bytes_ok part.
Proof.
  intros [->|(f & rest & [_ Hf] & E & _)]; [constructor|].
  apply wire_frame_ok in Hf. rewrite E in Hf. by apply Forall_app in Hf as [? _].
Qed.

(** A reader of a prefix of a stream finds a prefix of its frames. *)
Lemma stream_prefix limit fs part cs rest :
  limit <= u32_max -> Forall (frame_fits limit) fs -> unfinished limit part -> Forall (frame_fits limit) cs ->
  stream cs ++ rest `prefix_of` stream fs ++ part -> cs `prefix_of` fs.
Proof.
  intros Hlim Hfs Hpart Hcs. revert fs Hfs. induction Hcs as [|c cs Hc Hcs IH]; intros fs Hfs [k E].
  { apply prefix_nil. }
  assert (Hall : bytes_ok (stream (c :: cs) ++ rest ++ k)).
  { rewrite app_assoc, <- E. apply Forall_app. split; [by eapply stream_ok|by eapply unfinished_ok]. }
  rewrite stream_cons, <- ?app_assoc in E, Hall.
  apply Forall_app in Hall as [_ Hrest]. destruct Hc as [Hc1 Hc2].
  destruct Hfs as [|f fs [Hf1 Hf2] Hfs]; [change (stream [] ++ part) with part in E|].
  - exfalso. destruct Hpart as [->|(f & r & [Hf1 Hf2] & Ef & Hr)].
    { apply (f_equal length) in E. rewrite !length_app, wire_frame_length in E. simpl in E. lia. }
    rewrite E in Ef. rewrite <- (app_nil_r (wire_frame f)), <- !app_assoc in Ef. symmetry in Ef.
    assert (Hr' : bytes_ok r).
    { pose proof (wire_frame_ok _ Hf2) as Hw. rewrite <- (app_nil_r (wire_frame f)), <- Ef in Hw.
      repeat (apply Forall_app in Hw as [_ Hw]). done. }
    apply wire_prefix in Ef as [_ Ef]; try done; try lia; [|].
    + by repeat (apply app_nil in Ef as [_ Ef]).
    + apply Forall_app in Hrest as [? Hrest]. apply Forall_app in Hrest as [? ?]. by repeat apply Forall_app_2.
  - rewrite stream_cons, <- !app_assoc in E. apply wire_prefix in E as [-> E]; try done; try lia.
    + apply prefix_cons. apply IH; [done|]. exists k. by rewrite <- app_assoc.
    + apply Forall_app. split; [by eapply stream_ok|by eapply unfinished_ok].
Qed.

(** ** The handshake round trip *)

(** The values of a handshake fit their fields. *)
Definition handshake_fits (h : Handshake) : Prop :=
  u64 (ti_cluster_id_high (hs_identity h)) /\ u64 (ti_cluster_id_low (hs_identity h)) /\
  u32 (ti_node_id (hs_identity h)) /\ u64 (hs_incarnation h) /\ u64 (hs_nonce h).

Definition handshake_of (h : Handshake) : list N :=
  make_handshake (hs_identity h) (hs_incarnation h) (hs_nonce h) (hs_initiator h).

Definition flag_of (initiator : bool) : N := if initiator then kInitiatorFlag else 0.

(** The fields of a handshake, in their order on the wire. *)
Definition handshake_fields (h : Handshake) : list (list N) :=
  [kHandshakeMagic; be_bytes 2 protocol_version; be_bytes 2 kHandshakeBytes; be_bytes 4 (flag_of (hs_initiator h));
   be_bytes 8 (ti_cluster_id_high (hs_identity h)); be_bytes 8 (ti_cluster_id_low (hs_identity h));
   be_bytes 4 (ti_node_id (hs_identity h)); be_bytes 4 0; be_bytes 8 (hs_incarnation h); be_bytes 8 (hs_nonce h)].

Lemma handshake_concat h : handshake_of h = concat (handshake_fields h).
Proof. by destruct h as [[] ? ? []]. Qed.

Lemma handshake_length h : length (handshake_of h) = 56%nat.
Proof. rewrite handshake_concat. done. Qed.

Lemma handshake_ok h : bytes_ok (handshake_of h).
Proof.
  rewrite handshake_concat. apply Forall_concat. unfold handshake_fields. rewrite !Forall_cons.
  split_and!; try apply be_bytes_ok; [apply string_bytes_ok|constructor].
Qed.

(** The bytes of the field at [off]. *)
Definition field (off n : nat) (bytes : list N) : list N := take n (drop off bytes).

(** A handshake is what [make_handshake] writes, field by field. *)
Definition is_handshake (h : Handshake) (bytes : list N) : Prop :=
  field 0 8 bytes = kHandshakeMagic /\
  field 8 2 bytes = be_bytes 2 protocol_version /\
  field 10 2 bytes = be_bytes 2 kHandshakeBytes /\
  field 12 4 bytes = be_bytes 4 (flag_of (hs_initiator h)) /\
  field 16 8 bytes = be_bytes 8 (ti_cluster_id_high (hs_identity h)) /\
  field 24 8 bytes = be_bytes 8 (ti_cluster_id_low (hs_identity h)) /\
  field 32 4 bytes = be_bytes 4 (ti_node_id (hs_identity h)) /\
  field 36 4 bytes = be_bytes 4 0 /\
  field 40 8 bytes = be_bytes 8 (hs_incarnation h) /\
  field 48 8 bytes = be_bytes 8 (hs_nonce h).

(** Every field of a handshake is read back. *)
Lemma handshake_slices h : is_handshake h (handshake_of h).
Proof. rewrite handshake_concat. unfold is_handshake. by split_and!. Qed.

(** A handshake is its fields, one after the other. *)
Lemma handshake_split bytes :
  length bytes = 56%nat ->
  bytes = concat [field 0 8 bytes; field 8 2 bytes; field 10 2 bytes; field 12 4 bytes; field 16 8 bytes;
                  field 24 8 bytes; field 32 4 bytes; field 36 4 bytes; field 40 8 bytes; field 48 8 bytes].
Proof. intros Hl. do 56 (destruct bytes as [|? bytes]; [done|]). by destruct bytes. Qed.

Lemma field_u16 off bytes v :
  bytes_ok bytes -> (off + 2 <= length bytes)%nat -> field off 2 bytes = be_bytes 2 v -> v < 256 ^ 2 ->
  get_u16 bytes off = v.
Proof. intros ? ? E ?. rewrite get_u16_value by done. fold (field off 2 bytes). rewrite E. by apply be_value_inv. Qed.

Lemma field_u32 off bytes v :
  bytes_ok bytes -> (off + 4 <= length bytes)%nat -> field off 4 bytes = be_bytes 4 v -> u32 v ->
  get_u32 bytes off = v.
Proof.
  intros ? ? E ?. rewrite get_u32_value by done. fold (field off 4 bytes). rewrite E. by apply be_value_inv, u32_bytes.
Qed.

Lemma field_u64 off bytes v :
  bytes_ok bytes -> (off + 8 <= length bytes)%nat -> field off 8 bytes = be_bytes 8 v -> u64 v ->
  get_u64 bytes off = v.
Proof.
  intros ? ? E ?. rewrite get_u64_value by done. fold (field off 8 bytes). rewrite E. by apply be_value_inv, u64_bytes.
Qed.

Lemma magic_field bytes :
  (8 <= length bytes)%nat ->
  forallb (fun i => byte_in bytes i =? byte_in kHandshakeMagic i) (seq 0 8) = bool_decide (field 0 8 bytes = kHandshakeMagic).
Proof.
  intros Hl. do 8 (destruct bytes as [|? bytes]; [simpl in Hl; lia|]). clear Hl. apply eq_bool_prop_intro.
  rewrite bool_decide_spec, Is_true_true. cbv [field take drop kHandshakeMagic string_bytes]. cbn.
  rewrite !andb_true_iff, !N.eqb_eq. split; [|by intros [= -> -> -> -> -> -> -> ->]].
  by intros (-> & -> & -> & -> & -> & -> & -> & -> & _).
Qed.

Lemma parse_fields h bytes :
  handshake_fits h -> bytes_ok bytes -> length bytes = 56%nat -> is_handshake h bytes ->
  parse_handshake bytes = inr h.
Proof.
  intros (H1 & H2 & H3 & H4 & H5) Hok Hl (F0 & F8 & F10 & F12 & F16 & F24 & F32 & F36 & F40 & F48).
  unfold parse_handshake. rewrite magic_field by lia.
  rewrite bool_decide_true by done.
  rewrite (field_u16 8 _ protocol_version) by (done || lia).
  rewrite (field_u16 10 _ kHandshakeBytes) by (done || lia).
  rewrite (field_u32 36 _ 0) by (done || lia).
  rewrite (field_u32 12 _ (flag_of (hs_initiator h))) by (done || lia || by destruct (hs_initiator h)).
  rewrite (field_u64 16 _ (ti_cluster_id_high (hs_identity h))) by (done || lia).
  rewrite (field_u64 24 _ (ti_cluster_id_low (hs_identity h))) by (done || lia).
  rewrite (field_u32 32 _ (ti_node_id (hs_identity h))) by (done || lia).
  rewrite (field_u64 40 _ (hs_incarnation h)) by (done || lia).
  rewrite (field_u64 48 _ (hs_nonce h)) by (done || lia).
  by destruct h as [[] ? ? []].
Qed.

Lemma parse_make h : handshake_fits h -> parse_handshake (handshake_of h) = inr h.
Proof.
  intros Hh. apply parse_fields; [done|apply handshake_ok|apply handshake_length|apply handshake_slices].
Qed.

(** The fields of bytes that parse. *)
Lemma u32_field off bytes :
  bytes_ok bytes -> (off + 4 <= length bytes)%nat ->
  field off 4 bytes = be_bytes 4 (get_u32 bytes off) /\ u32 (get_u32 bytes off).
Proof.
  intros Hok Hl. rewrite get_u32_value by done. fold (field off 4 bytes).
  assert (H4 : length (field off 4 bytes) = 4%nat) by (unfold field; rewrite length_take, length_drop; lia).
  assert (Hf : bytes_ok (field off 4 bytes)) by (by apply Forall_take, Forall_drop).
  split; [rewrite <- H4 at 2; by rewrite be_bytes_value|].
  apply u32_bytes. pose proof (be_value_bound _ 0 Hf) as Hb. rewrite H4 in Hb. lia.
Qed.

Lemma u64_field off bytes :
  bytes_ok bytes -> (off + 8 <= length bytes)%nat ->
  field off 8 bytes = be_bytes 8 (get_u64 bytes off) /\ u64 (get_u64 bytes off).
Proof.
  intros Hok Hl. rewrite get_u64_value by done. fold (field off 8 bytes).
  assert (H4 : length (field off 8 bytes) = 8%nat) by (unfold field; rewrite length_take, length_drop; lia).
  assert (Hf : bytes_ok (field off 8 bytes)) by (by apply Forall_take, Forall_drop).
  split; [rewrite <- H4 at 2; by rewrite be_bytes_value|].
  apply u64_bytes. pose proof (be_value_bound _ 0 Hf) as Hb. rewrite H4 in Hb. lia.
Qed.

Lemma u16_field off bytes :
  bytes_ok bytes -> (off + 2 <= length bytes)%nat -> field off 2 bytes = be_bytes 2 (get_u16 bytes off).
Proof.
  intros Hok Hl. rewrite get_u16_value by done. fold (field off 2 bytes).
  assert (H4 : length (field off 2 bytes) = 2%nat) by (unfold field; rewrite length_take, length_drop; lia).
  rewrite <- H4 at 2. rewrite be_bytes_value; [done|]. by apply Forall_take, Forall_drop.
Qed.

(** What parses as a handshake is the handshake. *)
Lemma make_parse bytes h :
  bytes_ok bytes -> length bytes = 56%nat -> parse_handshake bytes = inr h ->
  bytes = handshake_of h /\ handshake_fits h.
Proof.
  intros Hok Hl. unfold parse_handshake. rewrite magic_field by lia.
  pose proof (u16_field 8 _ Hok ltac:(lia)) as F8. pose proof (u16_field 10 _ Hok ltac:(lia)) as F10.
  destruct (u32_field 12 _ Hok ltac:(lia)) as [F12 _]. destruct (u64_field 16 _ Hok ltac:(lia)) as [F16 ?].
  destruct (u64_field 24 _ Hok ltac:(lia)) as [F24 ?]. destruct (u32_field 32 _ Hok ltac:(lia)) as [F32 ?].
  destruct (u32_field 36 _ Hok ltac:(lia)) as [F36 _]. destruct (u64_field 40 _ Hok ltac:(lia)) as [F40 ?].
  destruct (u64_field 48 _ Hok ltac:(lia)) as [F48 ?].
  case_bool_decide as F0; [|done]. destruct (N.eqb_spec (get_u16 bytes 8) protocol_version) as [E8|]; [|done].
  destruct (N.eqb_spec (get_u16 bytes 10) kHandshakeBytes) as [E10|]; [|done].
  destruct (N.eqb_spec (get_u32 bytes 36) 0) as [E36|]; [|done].
  destruct (N.eqb_spec (N.ldiff (get_u32 bytes 12) kInitiatorFlag) 0) as [E12|]; [|done].
  cbn [negb orb]. intros [= <-].
  assert (Hflag : get_u32 bytes 12 = flag_of (negb (N.land (get_u32 bytes 12) kInitiatorFlag =? 0))).
  { rewrite <- (N.lor_ldiff_and (get_u32 bytes 12) kInitiatorFlag) at 1. rewrite E12, N.lor_0_l.
    change kInitiatorFlag with (N.ones 1). rewrite N.land_ones. change (2 ^ 1) with 2.
    pose proof (N.mod_upper_bound (get_u32 bytes 12) 2 ltac:(done)).
    destruct (get_u32 bytes 12 mod 2) as [|[]] eqn:E; (done || lia). }
  rewrite E8 in F8. rewrite E10 in F10. rewrite E36 in F36. clear E8 E10 E36 E12.
  split; [|by split_and!]. rewrite handshake_concat. rewrite (handshake_split bytes Hl) at 1. unfold handshake_fields.
  cbn [hs_identity hs_incarnation hs_nonce hs_initiator ti_cluster_id_high ti_cluster_id_low ti_node_id].
  rewrite <- Hflag. by rewrite F0, F8, F10, F12, F16, F24, F32, F36, F40, F48.
Qed.

(** ** Keys are totally ordered *)

Lemma key_less_spec l r :
  key_less l r = true <->
  ck_lower_node_incarnation l < ck_lower_node_incarnation r \/
  ck_lower_node_incarnation l = ck_lower_node_incarnation r /\
  (ck_higher_node_incarnation l < ck_higher_node_incarnation r \/
   ck_higher_node_incarnation l = ck_higher_node_incarnation r /\
   (ck_initiator l < ck_initiator r \/ ck_initiator l = ck_initiator r /\ ck_nonce l < ck_nonce r)).
Proof.
  unfold key_less. cbn [fst snd].
  rewrite !orb_true_iff, !andb_true_iff, !negb_true_iff, !orb_true_iff, !andb_true_iff, !negb_true_iff,
    !orb_true_iff, !andb_true_iff, !negb_true_iff, !N.ltb_lt, !N.ltb_ge. lia.
Qed.

Lemma key_less_total l r : l <> r -> key_less l r = negb (key_less r l).
Proof.
  intros Hne. apply eq_bool_prop_intro. rewrite negb_True, !Is_true_true, !key_less_spec.
  assert (~ (ck_lower_node_incarnation l = ck_lower_node_incarnation r /\
             ck_higher_node_incarnation l = ck_higher_node_incarnation r /\
             ck_initiator l = ck_initiator r /\ ck_nonce l = ck_nonce r)).
  { destruct l, r; simpl in *. intros (-> & -> & -> & ->). done. }
  lia.
Qed.

Lemma key_less_trans k1 k2 k3 : key_less k1 k2 = true -> key_less k2 k3 = true -> key_less k1 k3 = true.
Proof. rewrite !key_less_spec. lia. Qed.

Lemma key_less_irrefl k : key_less k k = false.
Proof. apply not_true_is_false. rewrite key_less_spec. lia. Qed.
