(* ===== verification/TcpTransport.v ===== *)
(** * TcpTransport: the state of a transport and what its owner calls

    [TcpTransport::Impl] of [src/tcp_transport.cpp]: its data, the system calls it
    makes, and the member functions that an owner calls.  The I/O thread is in
    [TcpLoop].  Sockets, clock and name service are those of a class [Sockets]; the
    numbers of errors are those of Linux. *)

From Stdlib Require Import DecimalString DecimalN.
From S2P Require Import Prelude Model StateMachine Bytes TcpTypes TcpWire.
#[local] Open Scope N_scope.

(** [std::to_string]. *)
Definition decimal (n : N) : string := NilEmpty.string_of_uint (N.to_uint n).

Definition code_name (error : TcpTransportErrorCode) : string :=
  match error with
  | tcp_none => "none"
  | invalid_configuration => "invalid_configuration"
  | self_peer => "self_peer"
  | unknown_peer => "unknown_peer"
  | duplicate_peer => "duplicate_peer"
  | wrong_cluster => "wrong_cluster"
  | wrong_version => "wrong_version"
  | protocol_error => "protocol_error"
  | frame_too_large => "frame_too_large"
  | queue_full => "queue_full"
  | connection_down => "connection_down"
  | tcp_partitioned => "partitioned"
  | io_error => "io_error"
  | tcp_stopped => "stopped"
  end.

(** ** The operating system *)

Definition kInvalidSocket : Z := -1.
Definition FD_SETSIZE : N := 1024.
Definition EINTR : N := 4.
Definition EAGAIN : N := 11.
Definition EWOULDBLOCK : N := 11.
Definition EALREADY : N := 114.
Definition EINPROGRESS : N := 115.

Definition interrupted_error (error : N) : bool := error =? EINTR.
Definition would_block_error (error : N) : bool := (error =? EAGAIN) || (error =? EWOULDBLOCK).
Definition connect_pending_error (error : N) : bool :=
  (error =? EINPROGRESS) || (error =? EALREADY) || would_block_error error.

Definition select_compatible (socket : Z) : bool := (0 <=? socket)%Z && (socket <? Z.of_N FD_SETSIZE)%Z.

(** [sockaddr_in]: address and port in host order. *)
Record SockAddr := mkSockAddr { sa_addr : N; sa_port : N }.

Definition is_loopback (address : N) : bool := N.land address 0xff000000 =? 0x7f000000.

(** Descriptors ready to read, to write, and in error. *)
Record FdSets := mkFdSets { fd_read : list Z; fd_write : list Z; fd_error : list Z }.

Definition FD_ISSET (socket : Z) (set : list Z) : bool := bool_decide (socket ∈ set).

(** The calls of the transport to its operating system.  [os_errno] is [errno] after
    the last call, a result of [None] is a return value of -1 (or of no address),
    and [os_open] lists the sockets this transport has open. *)
Class Sockets (O : Type) := {
  os_errno : O -> N;
  os_socket : O -> Z * O;
  os_nonblocking : Z -> O -> bool * O;
  os_reuse_address : Z -> O -> O;
  os_no_delay : Z -> O -> O;
  os_bind : Z -> SockAddr -> O -> bool * O;
  os_listen : Z -> N -> O -> bool * O;
  os_getsockname : Z -> O -> option N * O;
  os_thread : O -> bool * O;
  os_connect : Z -> SockAddr -> O -> bool * O;
  os_accept : Z -> O -> (Z * N) * O;
  os_select : FdSets -> N -> O -> option FdSets * O;
  os_so_error : Z -> O -> option N * O;
  os_send : Z -> list N -> O -> option N * O;
  os_recv : Z -> N -> O -> option (list N) * O;
  os_close : Z -> O -> O;
  os_now : O -> N * O;
  os_inet_pton : string -> option N;
  os_getaddrinfo : string -> O -> option N * O;
  os_open : O -> gset Z;
}.

Definition config_error {A} (code : TcpTransportErrorCode) (what : string) : TcpExn + A :=
  inl (tcp_thrown (mkTcpTransportError code what)).

Definition resolve_ipv4 {O : Type} `{!Sockets O} (address : string) (port : N) (allow_non_loopback : bool) (o : O) :
    (TcpExn + SockAddr) * O :=
  let address := if String.eqb address "localhost" then "127.0.0.1"%string else address in
  let '(found, o) :=
    match os_inet_pton address with
    | Some a => (Some a, o)
    | None => os_getaddrinfo address o
    end in
  match found with
  | None => (config_error invalid_configuration ("cannot resolve IPv4 address '" +:+ address +:+ "'"), o)
  | Some a =>
      if negb allow_non_loopback && negb (is_loopback a)
      then (config_error invalid_configuration "non-loopback TCP address requires explicit opt-in", o)
      else (inr (mkSockAddr a port), o)
  end.

(** ** Data *)

Record OutboundFrame := mkOutboundFrame { of_wire_bytes : list N; of_offset : N }.

Inductive ConnectionPhase := ph_connecting | ph_handshake | ph_established.

#[global] Instance ConnectionPhase_eq_dec : EqDecision ConnectionPhase.
Proof. solve_decision. Defined.

Record Connection := mkConnection {
  cn_socket : Z;
  cn_phase : ConnectionPhase;
  cn_outbound : bool;
  cn_expected_peer : option NodeId;
  cn_local_nonce : N;
  cn_local_handshake : list N;
  cn_remote_handshake : list N;
  cn_handshake_sent : N;
  cn_handshake_received : N;
  cn_deadline : N;
  cn_peer : NodeId;
  cn_peer_incarnation : N;
  cn_key : ConnectionKey;
  cn_inbound : list N;
  cn_id : N;
}.

Definition set_cn_socket (x : Z) (c : Connection) : Connection :=
  mkConnection x (cn_phase c) (cn_outbound c) (cn_expected_peer c) (cn_local_nonce c) (cn_local_handshake c)
    (cn_remote_handshake c) (cn_handshake_sent c) (cn_handshake_received c) (cn_deadline c) (cn_peer c)
    (cn_peer_incarnation c) (cn_key c) (cn_inbound c) (cn_id c).
Definition set_cn_phase (x : ConnectionPhase) (c : Connection) : Connection :=
  mkConnection (cn_socket c) x (cn_outbound c) (cn_expected_peer c) (cn_local_nonce c) (cn_local_handshake c)
    (cn_remote_handshake c) (cn_handshake_sent c) (cn_handshake_received c) (cn_deadline c) (cn_peer c)
    (cn_peer_incarnation c) (cn_key c) (cn_inbound c) (cn_id c).
Definition set_cn_remote_handshake (x : list N) (c : Connection) : Connection :=
  mkConnection (cn_socket c) (cn_phase c) (cn_outbound c) (cn_expected_peer c) (cn_local_nonce c)
    (cn_local_handshake c) x (cn_handshake_sent c) (cn_handshake_received c) (cn_deadline c) (cn_peer c)
    (cn_peer_incarnation c) (cn_key c) (cn_inbound c) (cn_id c).
Definition set_cn_handshake_sent (x : N) (c : Connection) : Connection :=
  mkConnection (cn_socket c) (cn_phase c) (cn_outbound c) (cn_expected_peer c) (cn_local_nonce c)
    (cn_local_handshake c) (cn_remote_handshake c) x (cn_handshake_received c) (cn_deadline c) (cn_peer c)
    (cn_peer_incarnation c) (cn_key c) (cn_inbound c) (cn_id c).
Definition set_cn_handshake_received (x : N) (c : Connection) : Connection :=
  mkConnection (cn_socket c) (cn_phase c) (cn_outbound c) (cn_expected_peer c) (cn_local_nonce c)
    (cn_local_handshake c) (cn_remote_handshake c) (cn_handshake_sent c) x (cn_deadline c) (cn_peer c)
    (cn_peer_incarnation c) (cn_key c) (cn_inbound c) (cn_id c).
Definition set_cn_deadline (x : N) (c : Connection) : Connection :=
  mkConnection (cn_socket c) (cn_phase c) (cn_outbound c) (cn_expected_peer c) (cn_local_nonce c)
    (cn_local_handshake c) (cn_remote_handshake c) (cn_handshake_sent c) (cn_handshake_received c) x (cn_peer c)
    (cn_peer_incarnation c) (cn_key c) (cn_inbound c) (cn_id c).
Definition set_cn_peer (x : NodeId) (c : Connection) : Connection :=
  mkConnection (cn_socket c) (cn_phase c) (cn_outbound c) (cn_expected_peer c) (cn_local_nonce c)
    (cn_local_handshake c) (cn_remote_handshake c) (cn_handshake_sent c) (cn_handshake_received c) (cn_deadline c) x
    (cn_peer_incarnation c) (cn_key c) (cn_inbound c) (cn_id c).
Definition set_cn_peer_incarnation (x : N) (c : Connection) : Connection :=
  mkConnection (cn_socket c) (cn_phase c) (cn_outbound c) (cn_expected_peer c) (cn_local_nonce c)
    (cn_local_handshake c) (cn_remote_handshake c) (cn_handshake_sent c) (cn_handshake_received c) (cn_deadline c)
    (cn_peer c) x (cn_key c) (cn_inbound c) (cn_id c).
Definition set_cn_key (x : ConnectionKey) (c : Connection) : Connection :=
  mkConnection (cn_socket c) (cn_phase c) (cn_outbound c) (cn_expected_peer c) (cn_local_nonce c)
    (cn_local_handshake c) (cn_remote_handshake c) (cn_handshake_sent c) (cn_handshake_received c) (cn_deadline c)
    (cn_peer c) (cn_peer_incarnation c) x (cn_inbound c) (cn_id c).
Definition set_cn_inbound (x : list N) (c : Connection) : Connection :=
  mkConnection (cn_socket c) (cn_phase c) (cn_outbound c) (cn_expected_peer c) (cn_local_nonce c)
    (cn_local_handshake c) (cn_remote_handshake c) (cn_handshake_sent c) (cn_handshake_received c) (cn_deadline c)
    (cn_peer c) (cn_peer_incarnation c) (cn_key c) x (cn_id c).

Definition no_connection : Connection :=
  mkConnection kInvalidSocket ph_handshake false None 0 [] (replicate (N.to_nat kHandshakeBytes) 0) 0 0 0 0 0 no_key [] 0.

#[global] Instance Connection_inhabited : Inhabited Connection := populate no_connection.

Record PeerState := mkPeerState {
  ps_endpoint : TcpPeerEndpoint;
  ps_address : SockAddr;
  ps_has_outbound_endpoint : bool;
  ps_partitioned : bool;
  ps_connected : bool;
  ps_active_socket : Z;
  ps_active_key : ConnectionKey;
  ps_peer_incarnation : N;
  ps_outbound : list OutboundFrame;
  ps_queued_bytes : N;
  ps_next_attempt : N;
}.

Definition set_ps_partitioned (x : bool) (p : PeerState) : PeerState :=
  mkPeerState (ps_endpoint p) (ps_address p) (ps_has_outbound_endpoint p) x (ps_connected p) (ps_active_socket p)
    (ps_active_key p) (ps_peer_incarnation p) (ps_outbound p) (ps_queued_bytes p) (ps_next_attempt p).
Definition set_ps_connected (x : bool) (p : PeerState) : PeerState :=
  mkPeerState (ps_endpoint p) (ps_address p) (ps_has_outbound_endpoint p) (ps_partitioned p) x (ps_active_socket p)
    (ps_active_key p) (ps_peer_incarnation p) (ps_outbound p) (ps_queued_bytes p) (ps_next_attempt p).
Definition set_ps_active_socket (x : Z) (p : PeerState) : PeerState :=
  mkPeerState (ps_endpoint p) (ps_address p) (ps_has_outbound_endpoint p) (ps_partitioned p) (ps_connected p) x
    (ps_active_key p) (ps_peer_incarnation p) (ps_outbound p) (ps_queued_bytes p) (ps_next_attempt p).
Definition set_ps_active_key (x : ConnectionKey) (p : PeerState) : PeerState :=
  mkPeerState (ps_endpoint p) (ps_address p) (ps_has_outbound_endpoint p) (ps_partitioned p) (ps_connected p)
    (ps_active_socket p) x (ps_peer_incarnation p) (ps_outbound p) (ps_queued_bytes p) (ps_next_attempt p).
Definition set_ps_peer_incarnation (x : N) (p : PeerState) : PeerState :=
  mkPeerState (ps_endpoint p) (ps_address p) (ps_has_outbound_endpoint p) (ps_partitioned p) (ps_connected p)
    (ps_active_socket p) (ps_active_key p) x (ps_outbound p) (ps_queued_bytes p) (ps_next_attempt p).
Definition set_ps_outbound (x : list OutboundFrame) (p : PeerState) : PeerState :=
  mkPeerState (ps_endpoint p) (ps_address p) (ps_has_outbound_endpoint p) (ps_partitioned p) (ps_connected p)
    (ps_active_socket p) (ps_active_key p) (ps_peer_incarnation p) x (ps_queued_bytes p) (ps_next_attempt p).
Definition set_ps_queued_bytes (x : N) (p : PeerState) : PeerState :=
  mkPeerState (ps_endpoint p) (ps_address p) (ps_has_outbound_endpoint p) (ps_partitioned p) (ps_connected p)
    (ps_active_socket p) (ps_active_key p) (ps_peer_incarnation p) (ps_outbound p) x (ps_next_attempt p).
Definition set_ps_next_attempt (x : N) (p : PeerState) : PeerState :=
  mkPeerState (ps_endpoint p) (ps_address p) (ps_has_outbound_endpoint p) (ps_partitioned p) (ps_connected p)
    (ps_active_socket p) (ps_active_key p) (ps_peer_incarnation p) (ps_outbound p) (ps_queued_bytes p) x.

(** What happens, for the theorems: a connection is made (its number is [cn_id] and
    [im_made] is the number of the next one), bytes are written or read on it, a
    frame is taken by [send] or handed out as an event, a partly written frame for
    a peer is thrown away. *)
Inductive Io :=
  | io_opened (id : N)
  | io_sent (id : N) (bs : list N)
  | io_received (id : N) (bs : list N)
  | io_queued (peer : NodeId) (frame : list N)
  | io_delivered (id : N) (peer : NodeId) (frame : list N)
  | io_dropped (peer : NodeId).

(** [im_connections] are the connections of the I/O thread; no other thread uses
    them, nor [im_listener], [im_next_nonce] and the field [next_attempt] of a peer
    once the thread runs. *)
Section impl.
Context {O : Type} `{!Sockets O}.

Record Impl := mkImpl {
  im_config : TcpTransportConfig;
  im_peers : gmap N PeerState;
  im_events : list TcpTransportEvent;
  im_inbound_event_bytes : N;
  im_total_queued_bytes : N;
  im_listener : Z;
  im_listening_port : N;
  im_next_nonce : N;
  im_stopping : bool;
  im_running : bool;
  im_started : bool;
  im_fatal_error : bool;
  im_connections : list Connection;
  im_os : O;
  im_trace : list Io;
  im_made : N;
}.

Definition set_im_peers (x : gmap N PeerState) (s : Impl) : Impl :=
  mkImpl (im_config s) x (im_events s) (im_inbound_event_bytes s) (im_total_queued_bytes s) (im_listener s)
    (im_listening_port s) (im_next_nonce s) (im_stopping s) (im_running s) (im_started s) (im_fatal_error s)
    (im_connections s) (im_os s) (im_trace s) (im_made s).
Definition set_im_events (x : list TcpTransportEvent) (s : Impl) : Impl :=
  mkImpl (im_config s) (im_peers s) x (im_inbound_event_bytes s) (im_total_queued_bytes s) (im_listener s)
    (im_listening_port s) (im_next_nonce s) (im_stopping s) (im_running s) (im_started s) (im_fatal_error s)
    (im_connections s) (im_os s) (im_trace s) (im_made s).
Definition set_im_inbound_event_bytes (x : N) (s : Impl) : Impl :=
  mkImpl (im_config s) (im_peers s) (im_events s) x (im_total_queued_bytes s) (im_listener s) (im_listening_port s)
    (im_next_nonce s) (im_stopping s) (im_running s) (im_started s) (im_fatal_error s) (im_connections s) (im_os s)
    (im_trace s) (im_made s).
Definition set_im_total_queued_bytes (x : N) (s : Impl) : Impl :=
  mkImpl (im_config s) (im_peers s) (im_events s) (im_inbound_event_bytes s) x (im_listener s) (im_listening_port s)
    (im_next_nonce s) (im_stopping s) (im_running s) (im_started s) (im_fatal_error s) (im_connections s) (im_os s)
    (im_trace s) (im_made s).
Definition set_im_listener (x : Z) (s : Impl) : Impl :=
  mkImpl (im_config s) (im_peers s) (im_events s) (im_inbound_event_bytes s) (im_total_queued_bytes s) x
    (im_listening_port s) (im_next_nonce s) (im_stopping s) (im_running s) (im_started s) (im_fatal_error s)
    (im_connections s) (im_os s) (im_trace s) (im_made s).
Definition set_im_listening_port (x : N) (s : Impl) : Impl :=
  mkImpl (im_config s) (im_peers s) (im_events s) (im_inbound_event_bytes s) (im_total_queued_bytes s) (im_listener
    s) x (im_next_nonce s) (im_stopping s) (im_running s) (im_started s) (im_fatal_error s) (im_connections s)
    (im_os s) (im_trace s) (im_made s).
Definition set_im_next_nonce (x : N) (s : Impl) : Impl :=
  mkImpl (im_config s) (im_peers s) (im_events s) (im_inbound_event_bytes s) (im_total_queued_bytes s) (im_listener
    s) (im_listening_port s) x (im_stopping s) (im_running s) (im_started s) (im_fatal_error s) (im_connections s)
    (im_os s) (im_trace s) (im_made s).
Definition set_im_stopping (x : bool) (s : Impl) : Impl :=
  mkImpl (im_config s) (im_peers s) (im_events s) (im_inbound_event_bytes s) (im_total_queued_bytes s) (im_listener
    s) (im_listening_port s) (im_next_nonce s) x (im_running s) (im_started s) (im_fatal_error s) (im_connections s)
    (im_os s) (im_trace s) (im_made s).
Definition set_im_running (x : bool) (s : Impl) : Impl :=
  mkImpl (im_config s) (im_peers s) (im_events s) (im_inbound_event_bytes s) (im_total_queued_bytes s) (im_listener
    s) (im_listening_port s) (im_next_nonce s) (im_stopping s) x (im_started s) (im_fatal_error s) (im_connections
    s) (im_os s) (im_trace s) (im_made s).
Definition set_im_started (x : bool) (s : Impl) : Impl :=
  mkImpl (im_config s) (im_peers s) (im_events s) (im_inbound_event_bytes s) (im_total_queued_bytes s) (im_listener
    s) (im_listening_port s) (im_next_nonce s) (im_stopping s) (im_running s) x (im_fatal_error s) (im_connections
    s) (im_os s) (im_trace s) (im_made s).
Definition set_im_fatal_error (x : bool) (s : Impl) : Impl :=
  mkImpl (im_config s) (im_peers s) (im_events s) (im_inbound_event_bytes s) (im_total_queued_bytes s) (im_listener
    s) (im_listening_port s) (im_next_nonce s) (im_stopping s) (im_running s) (im_started s) x (im_connections s)
    (im_os s) (im_trace s) (im_made s).
Definition set_im_connections (x : list Connection) (s : Impl) : Impl :=
  mkImpl (im_config s) (im_peers s) (im_events s) (im_inbound_event_bytes s) (im_total_queued_bytes s) (im_listener
    s) (im_listening_port s) (im_next_nonce s) (im_stopping s) (im_running s) (im_started s) (im_fatal_error s) x
    (im_os s) (im_trace s) (im_made s).
Definition set_im_os (x : O) (s : Impl) : Impl :=
  mkImpl (im_config s) (im_peers s) (im_events s) (im_inbound_event_bytes s) (im_total_queued_bytes s) (im_listener
    s) (im_listening_port s) (im_next_nonce s) (im_stopping s) (im_running s) (im_started s) (im_fatal_error s)
    (im_connections s) x (im_trace s) (im_made s).
Definition set_im_trace (x : list Io) (s : Impl) : Impl :=
  mkImpl (im_config s) (im_peers s) (im_events s) (im_inbound_event_bytes s) (im_total_queued_bytes s) (im_listener
    s) (im_listening_port s) (im_next_nonce s) (im_stopping s) (im_running s) (im_started s) (im_fatal_error s)
    (im_connections s) (im_os s) x (im_made s).
Definition set_im_made (x : N) (s : Impl) : Impl :=
  mkImpl (im_config s) (im_peers s) (im_events s) (im_inbound_event_bytes s) (im_total_queued_bytes s) (im_listener
    s) (im_listening_port s) (im_next_nonce s) (im_stopping s) (im_running s) (im_started s) (im_fatal_error s)
    (im_connections s) (im_os s) (im_trace s) x.

Implicit Type s : Impl.

Definition limits s : TcpTransportLimits := tc_limits (im_config s).
Definition conn s (i : nat) : Connection := im_connections s !!! i.
Definition set_conn (i : nat) (c : Connection) s : Impl := set_im_connections (<[i := c]> (im_connections s)) s.
Definition set_peer (id : NodeId) (p : PeerState) s : Impl := set_im_peers (<[id := p]> (im_peers s)) s.
Definition note (e : Io) s : Impl := set_im_trace (im_trace s ++ [e]) s.

Definition sys {X} (f : O -> X * O) s : X * Impl := let '(x, o) := f (im_os s) in (x, set_im_os o s).

Definition ms_to_ns (ms : N) : N := ms * 1000000.
Definition reconnect_delay s : N := ms_to_ns (tl_reconnect_delay_ms (limits s)).
Definition handshake_timeout s : N := ms_to_ns (tl_handshake_timeout_ms (limits s)).

(** [close_socket] of a descriptor that no connection holds. *)
Definition close_fd (fd : Z) s : Impl :=
  if (fd =? kInvalidSocket)%Z then s else set_im_os (os_close fd (im_os s)) s.

Definition events_full s : bool := tl_max_inbound_events (limits s) <=? N.of_nat (length (im_events s)).

(** The event is lost when the queue is full. *)
Definition push_event (e : TcpTransportEvent) s : Impl :=
  if events_full s then s else set_im_events (im_events s ++ [e]) s.

Definition enqueue_diagnostic (kind : TcpEventKind) (peer : NodeId) (peer_incarnation : N)
    (error : TcpTransportErrorCode) s : Impl :=
  push_event (mkTcpTransportEvent kind peer peer_incarnation error []) s.

Definition peer_partitioned (id : NodeId) s : bool :=
  match im_peers s !! id with Some p => ps_partitioned p | None => false end.

(** ** Construction *)

Definition limits_ok (l : TcpTransportLimits) : bool :=
  negb ((tl_max_frame_bytes l =? 0) ||
        (kAbsoluteMaxFrameBytes <? tl_max_frame_bytes l) ||
        (u32_max <? tl_max_frame_bytes l) ||
        (tl_max_outbound_bytes_per_peer l <? kLengthPrefixBytes) ||
        (tl_max_total_outbound_bytes l <? kLengthPrefixBytes) ||
        (tl_max_inbound_events l =? 0) ||
        (tl_max_inbound_event_bytes l <? tl_max_frame_bytes l) ||
        (tl_max_pending_connections l =? 0) ||
        (FD_SETSIZE <=? tl_max_pending_connections l) ||
        (tl_handshake_timeout_ms l =? 0) || (tl_reconnect_delay_ms l =? 0) ||
        (tl_io_poll_interval_ms l =? 0)).

Fixpoint validate_peers (c : TcpTransportConfig) (seen : gset N) (ps : list TcpPeerEndpoint) (o : O) :
    (TcpExn + unit) * O :=
  match ps with
  | [] => (inr tt, o)
  | p :: ps =>
      if pe_node_id p =? ti_node_id (tc_identity c)
      then (config_error self_peer "TCP peer list contains the local node", o)
      else if pe_node_id p =? 0 then (config_error unknown_peer "TCP peer id zero is invalid", o)
      else if bool_decide (pe_node_id p ∈ seen)
      then (config_error duplicate_peer "TCP peer list contains a duplicate node", o)
      else
        match resolve_ipv4 (pe_address p) (pe_port p) (tc_allow_non_loopback c) o with
        | (inl e, o) => (inl e, o)
        | (inr _, o) => validate_peers c ({[pe_node_id p]} ∪ seen) ps o
        end
  end.

Definition validate_config (c : TcpTransportConfig) (o : O) : (TcpExn + unit) * O :=
  if ti_node_id (tc_identity c) =? 0 then (config_error invalid_configuration "TCP node id zero is invalid", o)
  else if negb (limits_ok (tc_limits c)) then (config_error invalid_configuration "invalid TCP transport limits", o)
  else
    match resolve_ipv4 (tc_listen_address c) (tc_listen_port c) (tc_allow_non_loopback c) o with
    | (inl e, o) => (inl e, o)
    | (inr _, o) =>
        match validate_peers c ∅ (tc_peers c) o with
        | (inl e, o) => (inl e, o)
        | (inr _, o) =>
            if tl_max_pending_connections (tc_limits c) <? N.of_nat (length (tc_peers c)) + 1
            then (config_error invalid_configuration "connection bound is smaller than peer set", o)
            else (inr tt, o)
        end
    end.

Definition new_peer (endpoint : TcpPeerEndpoint) (address : SockAddr) : PeerState :=
  mkPeerState endpoint address (negb (pe_port endpoint =? 0)) false false kInvalidSocket no_key 0 [] 0 0.

(** [emplace]: a key that is there already stays. *)
Fixpoint make_peers (c : TcpTransportConfig) (ps : list TcpPeerEndpoint) (m : gmap N PeerState) (o : O) :
    (TcpExn + gmap N PeerState) * O :=
  match ps with
  | [] => (inr m, o)
  | p :: ps =>
      match resolve_ipv4 (pe_address p) (pe_port p) (tc_allow_non_loopback c) o with
      | (inl e, o) => (inl e, o)
      | (inr a, o) =>
          make_peers c ps (match m !! pe_node_id p with Some _ => m | None => <[pe_node_id p := new_peer p a]> m end) o
      end
  end.

Definition with_incarnation (c : TcpTransportConfig) (incarnation : N) : TcpTransportConfig :=
  mkTcpTransportConfig (tc_identity c) incarnation (tc_listen_address c) (tc_listen_port c) (tc_allow_non_loopback c)
    (tc_peers c) (tc_limits c).

(** The constructor; [now] and [counter] are what [automatic_incarnation] reads. *)
Definition Impl_new (c : TcpTransportConfig) (now counter : N) (o : O) : (TcpExn + Impl) * O :=
  match validate_config c o with
  | (inl e, o) => (inl e, o)
  | (inr _, o) =>
      let c := if tc_incarnation c =? 0
               then with_incarnation c (automatic_incarnation (ti_node_id (tc_identity c)) now counter) else c in
      match make_peers c (tc_peers c) ∅ o with
      | (inl e, o) => (inl e, o)
      | (inr m, o) => (inr (mkImpl c m [] 0 0 kInvalidSocket 0 1 false false false false [] o [] 0), o)
      end
  end.

(** ** Starting *)

Definition start_failed {A} (what : string) (error : N) (s : Impl) : (TcpExn + A) * Impl :=
  (config_error io_error (what +:+ decimal error), set_im_listener kInvalidSocket (close_fd (im_listener s) s)).

(** [start], up to the creation of the I/O thread. *)
Definition start s : (TcpExn + unit) * Impl :=
  if im_started s then (config_error invalid_configuration "TCP transport is one-shot and already started", s)
  else
    let '(fd, s) := sys os_socket s in
    let s := set_im_listener fd s in
    if (fd =? kInvalidSocket)%Z
    then (config_error io_error ("cannot create TCP listener: " +:+ decimal (os_errno (im_os s))), s)
    else if negb (select_compatible fd)
    then (config_error io_error "TCP listener descriptor exceeds select() capacity",
          set_im_listener kInvalidSocket (close_fd fd s))
    else
      let s := set_im_os (os_reuse_address fd (im_os s)) s in
      let '(nonblocking, s) := sys (os_nonblocking fd) s in
      if negb nonblocking then start_failed "cannot make TCP listener nonblocking: " (os_errno (im_os s)) s
      else
        let c := im_config s in
        match sys (resolve_ipv4 (tc_listen_address c) (tc_listen_port c) (tc_allow_non_loopback c)) s with
        | (inl e, s) => (inl e, s)
        | (inr address, s) =>
            let '(bound, s) := sys (os_bind fd address) s in
            let '(listening, s) :=
              if bound then sys (os_listen fd (tl_max_pending_connections (limits s))) s else (false, s) in
            if negb listening then start_failed "cannot bind/listen TCP transport: " (os_errno (im_os s)) s
            else
              match sys (os_getsockname fd) s with
              | (None, s) => start_failed "cannot inspect TCP listener: " (os_errno (im_os s)) s
              | (Some port, s) =>
                  let s := set_im_running true (set_im_stopping false (set_im_started true (set_im_listening_port port s))) in
                  let '(created, s) := sys os_thread s in
                  if created then (inr tt, s)
                  else (inl system_error, set_im_listener kInvalidSocket (close_fd fd (set_im_running false s)))
              end
        end.

(** ** Sending and receiving *)

Definition send (peer_id : NodeId) (codec_frame : list N) s : TcpSendResult * Impl :=
  let l := limits s in
  if (blen codec_frame =? 0) || (tl_max_frame_bytes l <? blen codec_frame) || (u32_max <? blen codec_frame)
  then (mkTcpSendResult tcp_error frame_too_large 0, s)
  else
    let wire_size := kLengthPrefixBytes + blen codec_frame in
    match im_peers s !! peer_id with
    | None => (mkTcpSendResult tcp_error unknown_peer 0, s)
    | Some peer =>
        if im_fatal_error s then (mkTcpSendResult tcp_error io_error (ps_queued_bytes peer), s)
        else if ps_partitioned peer then (mkTcpSendResult tcp_down tcp_partitioned (ps_queued_bytes peer), s)
        else if negb (im_running s) || negb (ps_connected peer)
        then (mkTcpSendResult tcp_down (if im_started s then connection_down else tcp_stopped) (ps_queued_bytes peer), s)
        else if (tl_max_outbound_bytes_per_peer l <? wire_size) || (tl_max_total_outbound_bytes l <? wire_size) ||
                (sub64 (tl_max_outbound_bytes_per_peer l) wire_size <? ps_queued_bytes peer) ||
                (sub64 (tl_max_total_outbound_bytes l) wire_size <? im_total_queued_bytes s)
        then (mkTcpSendResult tcp_would_block queue_full (ps_queued_bytes peer), s)
        else
          let peer := set_ps_outbound (ps_outbound peer ++ [mkOutboundFrame (wire_frame codec_frame) 0]) peer in
          let peer := set_ps_queued_bytes (add64 (ps_queued_bytes peer) wire_size) peer in
          let s := set_im_total_queued_bytes (add64 (im_total_queued_bytes s) wire_size) (set_peer peer_id peer s) in
          (mkTcpSendResult tcp_queued tcp_none (ps_queued_bytes peer), note (io_queued peer_id codec_frame) s)
    end.

(** A frame of which a part has been written is at the head of the queue. *)
Definition partly_written (p : PeerState) : bool :=
  match ps_outbound p with f :: _ => 0 <? of_offset f | [] => false end.

Definition is_message_of (id : NodeId) (e : TcpTransportEvent) : bool :=
  (ev_peer e =? id) && bool_decide (ev_kind e = tcp_message).

Definition drop_messages (id : NodeId) s : Impl :=
  set_im_inbound_event_bytes
    (foldl (fun n e => if is_message_of id e then sub64 n (blen (ev_bytes e)) else n) (im_inbound_event_bytes s) (im_events s))
    (set_im_events (List.filter (fun e => negb (is_message_of id e)) (im_events s)) s).

Definition set_peer_partitioned (peer_id : NodeId) (partitioned : bool) s : bool * Impl :=
  match im_peers s !! peer_id with
  | None => (false, s)
  | Some peer =>
      if Bool.eqb (ps_partitioned peer) partitioned then (true, s)
      else if negb partitioned then (true, set_peer peer_id (set_ps_partitioned false peer) s)
      else
        let s := set_im_total_queued_bytes (sub64 (im_total_queued_bytes s) (ps_queued_bytes peer)) s in
        let s := if partly_written peer then note (io_dropped peer_id) s else s in
        let s := set_peer peer_id (set_ps_queued_bytes 0 (set_ps_outbound [] (set_ps_partitioned true peer))) s in
        (true, drop_messages peer_id s)
  end.

Definition poll (max_events : N) s : list TcpTransportEvent * Impl :=
  let count := N.to_nat (N.min max_events (N.of_nat (length (im_events s)))) in
  let result := take count (im_events s) in
  (result, set_im_inbound_event_bytes
             (foldl (fun n e => sub64 n (blen (ev_bytes e))) (im_inbound_event_bytes s) result)
             (set_im_events (drop count (im_events s)) s)).

End impl.

#[global] Arguments Impl O : clear implicits.
