(* ===== verification/TcpLoop.v ===== *)
(** * TcpLoop: the I/O thread of a transport

    The private member functions of [TcpTransport::Impl] and [io_loop].  A program
    of the thread is a tree of actions.  An action holds at most one section under
    the mutex, with the code before and after it that uses only what belongs to the
    thread (its connections, [next_attempt], the nonces, the sockets); no other
    thread can tell when that code runs.  The owner's calls come between the
    actions ([Machine]). *)

From S2P Require Import Prelude Model StateMachine Bytes TcpTypes TcpWire TcpTransport.
#[local] Open Scope N_scope.

(** ** Programs *)

Inductive prog (S A : Type) : Type :=
  | Ret (a : A)
  | Raise (e : TcpExn)
  | Act (X : Type) (f : S -> X * S) (k : X -> prog S A).
#[global] Arguments Ret {S A} a.
#[global] Arguments Raise {S A} e.
#[global] Arguments Act {S A X} f k.

Fixpoint prog_bind {S A B} (p : prog S A) (k : A -> prog S B) : prog S B :=
  match p with
  | Ret a => k a
  | Raise e => Raise e
  | Act f j => Act f (fun x => prog_bind (j x) k)
  end.

Notation "x <<- p ; k" := (prog_bind p (fun x => k))
  (at level 100, p at next level, right associativity).
Notation "p >> k" := (prog_bind p (fun _ => k)) (at level 100, right associativity).

Definition atomic {S X} (f : S -> X * S) : prog S X := Act f Ret.
Definition look {S X} (f : S -> X) : prog S X := atomic (fun s => (f s, s)).
Definition modify {S} (f : S -> S) : prog S unit := atomic (fun s => (tt, f s)).

(** Running a program without interruption. *)
Fixpoint run {S A} (p : prog S A) (s : S) : (TcpExn + A) * S :=
  match p with
  | Ret a => (inr a, s)
  | Raise e => (inl e, s)
  | Act f k => let '(x, s) := f s in run (k x) s
  end.

Fixpoint for_each {S} (ids : list nat) (body : nat -> prog S unit) : prog S unit :=
  match ids with
  | [] => Ret tt
  | i :: ids => body i >> for_each ids body
  end.

Section loop.
Context {O : Type} `{!Sockets O}.
Abbreviation Impl := (TcpTransport.Impl O).
Abbreviation io := (prog Impl).
Implicit Types (s : Impl) (i : nat).

(** [for (Connection& connection : connections)]. *)
Definition for_connections (body : nat -> io unit) : io unit :=
  n <<- look (fun s => length (im_connections s));
  for_each (seq 0 n) body.

(** ** Socket calls *)

Inductive IoStatus := st_progress | st_again | st_eof | st_error.

Record IoResult := mkIoResult { io_status : IoStatus; io_count : N; io_native_error : N }.

Definition failed_io s : IoResult :=
  let error := os_errno (im_os s) in
  mkIoResult (if would_block_error error || interrupted_error error then st_again else st_error) 0 error.

Definition socket_send (socket : Z) (bytes : list N) s : IoResult * Impl :=
  if blen bytes =? 0 then (mkIoResult st_progress 0 0, s)
  else
    match sys (os_send socket bytes) s with
    | (Some sent, s) =>
        if sent =? 0 then (mkIoResult st_eof 0 0, s)
        else (mkIoResult st_progress sent 0, s)
    | (None, s) => (failed_io s, s)
    end.

(** The result and the bytes that were read. *)
Definition socket_receive (socket : Z) (amount : N) s : (IoResult * list N) * Impl :=
  if amount =? 0 then ((mkIoResult st_again 0 0, []), s)
  else
    match sys (os_recv socket amount) s with
    | (Some received, s) =>
        if blen received =? 0 then ((mkIoResult st_eof 0 0, []), s)
        else ((mkIoResult st_progress (blen received) 0, received), s)
    | (None, s) => ((failed_io s, []), s)
    end.

(** [close_socket(connection.socket)]. *)
Definition close_socket i s : Impl :=
  let c := conn s i in
  set_conn i (set_cn_socket kInvalidSocket c) (close_fd (cn_socket c) s).

(** ** Making connections *)

Definition serves_peer (peer : NodeId) (c : Connection) : bool :=
  negb (cn_socket c =? kInvalidSocket)%Z &&
  (bool_decide (cn_expected_peer c = Some peer) ||
   (bool_decide (cn_phase c = ph_established) && (cn_peer c =? peer))).

Definition has_connection_for (peer : NodeId) s : bool := existsb (serves_peer peer) (im_connections s).

Definition take_nonce s : N * Impl :=
  let nonce := im_next_nonce s in
  let s := set_im_next_nonce (add64 nonce 1) s in
  if nonce =? 0 then (im_next_nonce s, set_im_next_nonce (add64 (im_next_nonce s) 1) s) else (nonce, s).

Definition new_connection (fd : Z) (phase : ConnectionPhase) (outbound : bool) (expected : option NodeId)
    (nonce : N) (handshake : list N) (deadline id : N) : Connection :=
  mkConnection fd phase outbound expected nonce handshake (replicate (N.to_nat kHandshakeBytes) 0) 0 0 deadline 0 0
    no_key [] id.

(** [connections.push_back]. *)
Definition push_connection (fd : Z) (phase : ConnectionPhase) (outbound : bool) (expected : option NodeId)
    (nonce : N) (handshake : list N) (deadline : N) s : Impl :=
  let c := new_connection fd phase outbound expected nonce handshake deadline (im_made s) in
  note (io_opened (im_made s)) (set_im_made (im_made s + 1) (set_im_connections (im_connections s ++ [c]) s)).

Definition connections_full s : bool := tl_max_pending_connections (limits s) <=? N.of_nat (length (im_connections s)).

(** [peers_] is iterated by key. *)
Definition peer_ids s : list NodeId := (sorted_items (im_peers s)).*1.

Definition delay_attempt (id : NodeId) (time : N) s : Impl :=
  match im_peers s !! id with Some p => set_peer id (set_ps_next_attempt time p) s | None => s end.

(** The conditions under which no attempt is made. *)
Definition not_due (now : N) (id : NodeId) s : bool :=
  match im_peers s !! id with
  | Some p => negb (ps_has_outbound_endpoint p) || (now <? ps_next_attempt p) || has_connection_for id s
  | None => true
  end.
Definition not_wanted (id : NodeId) s : bool :=
  match im_peers s !! id with Some p => ps_connected p || ps_partitioned p | None => true end.

Definition peer_address (id : NodeId) s : SockAddr :=
  match im_peers s !! id with Some p => ps_address p | None => mkSockAddr 0 0 end.

(** Opens a socket and connects it. *)
Definition attempt_peer (now : N) (id : NodeId) s : Impl :=
  let '(fd, s) := sys os_socket s in
  let '(usable, s) :=
    if (fd =? kInvalidSocket)%Z || negb (select_compatible fd) then (false, s) else sys (os_nonblocking fd) s in
  if negb usable then delay_attempt id (now + reconnect_delay s) (close_fd fd s)
  else
    let s := set_im_os (os_no_delay fd (im_os s)) s in
    let '(nonce, s) := take_nonce s in
    let handshake := make_handshake (tc_identity (im_config s)) (tc_incarnation (im_config s)) nonce true in
    let '(connected, s) := sys (os_connect fd (peer_address id s)) s in
    let phase := if connected then Some ph_handshake
                 else if connect_pending_error (os_errno (im_os s)) then Some ph_connecting else None in
    match phase with
    | Some phase => push_connection fd phase true (Some id) nonce handshake (now + handshake_timeout s) s
    | None => delay_attempt id (now + reconnect_delay s) (close_fd fd s)
    end.

Fixpoint attempt_peers (now : N) (ids : list NodeId) : io unit :=
  match ids with
  | [] => Ret tt
  | id :: ids =>
      skip <<- look (not_due now id);
      if skip : bool then attempt_peers now ids
      else
        skip <<- look (not_wanted id);
        if skip : bool then attempt_peers now ids
        else
          full <<- look connections_full;
          if full : bool then Ret tt
          else modify (attempt_peer now id) >> attempt_peers now ids
  end.

Definition attempt_outgoing : io unit :=
  now <<- atomic (sys os_now);
  ids <<- look peer_ids;
  attempt_peers now ids.

Inductive Accepted := no_more | accept_failed | refused | added.

Definition accept_one s : Accepted * Impl :=
  let '((fd, remote), s) := sys (os_accept (im_listener s)) s in
  if (fd =? kInvalidSocket)%Z then
    let error := os_errno (im_os s) in
    (if would_block_error error || interrupted_error error then no_more else accept_failed, s)
  else
    let '(usable, s) :=
      if (negb (tc_allow_non_loopback (im_config s)) && negb (is_loopback remote)) || connections_full s ||
         negb (select_compatible fd)
      then (false, s) else sys (os_nonblocking fd) s in
    if negb usable then (refused, close_fd fd s)
    else
      let s := set_im_os (os_no_delay fd (im_os s)) s in
      let '(nonce, s) := take_nonce s in
      let handshake := make_handshake (tc_identity (im_config s)) (tc_incarnation (im_config s)) nonce false in
      let '(now, s) := sys os_now s in
      (added, push_connection fd ph_handshake false None nonce handshake (now + handshake_timeout s) s).

Fixpoint accept_loop (n : nat) : io unit :=
  match n with
  | 0%nat => Ret tt
  | S n =>
      stopping <<- look im_stopping;
      if stopping : bool then Ret tt
      else
        r <<- atomic accept_one;
        match r with
        | no_more => Ret tt
        | accept_failed => modify (enqueue_diagnostic transport_error 0 0 io_error)
        | refused => modify (enqueue_diagnostic peer_rejected 0 0 protocol_error) >> accept_loop n
        | added => accept_loop n
        end
  end.

Definition accept_connections : io unit :=
  n <<- look (fun s => tl_max_pending_connections (limits s));
  accept_loop (N.to_nat n).

(** ** Frames that have arrived *)

Definition enqueue_message i (payload_offset payload_size : N) s : bool * Impl :=
  let c := conn s i in
  if peer_partitioned (cn_peer c) s then (true, s)
  else
    let most := tl_max_inbound_event_bytes (limits s) in
    if events_full s || (sub64 most (N.min most (im_inbound_event_bytes s)) <? payload_size) then (false, s)
    else
      let bytes := take (N.to_nat payload_size) (drop (N.to_nat payload_offset) (cn_inbound c)) in
      let s := set_im_inbound_event_bytes (add64 (im_inbound_event_bytes s) payload_size) s in
      let s := set_im_events
                 (im_events s ++ [mkTcpTransportEvent tcp_message (cn_peer c) (cn_peer_incarnation c) tcp_none bytes]) s in
      (true, note (io_delivered (cn_id c) (cn_peer c) bytes) s).

Definition erase_frame i (wire_size : N) s : Impl :=
  let c := conn s i in set_conn i (set_cn_inbound (drop (N.to_nat wire_size) (cn_inbound c)) c) s.

(** A frame leaves the buffer when it could be queued. *)
Definition take_frame i (payload_size : N) s : bool * Impl :=
  let '(queued, s) := enqueue_message i kLengthPrefixBytes payload_size s in
  (queued, if queued then erase_frame i (kLengthPrefixBytes + payload_size) s else s).

(** What the first bytes of the buffer announce. *)
Inductive Arrived := incomplete | malformed | complete (payload_size : N).

Definition next_frame i s : Arrived :=
  let inbound := cn_inbound (conn s i) in
  if blen inbound <? kLengthPrefixBytes then incomplete
  else
    let payload_size := get_u32 inbound 0 in
    if (payload_size =? 0) || (tl_max_frame_bytes (limits s) <? payload_size) then malformed
    else if blen inbound <? kLengthPrefixBytes + payload_size then incomplete
    else complete payload_size.

Fixpoint process_frames (fuel : nat) i : io bool :=
  match fuel with
  | 0%nat => Raise out_of_fuel
  | S fuel =>
      arrived <<- look (next_frame i);
      match arrived with
      | incomplete => Ret true
      | malformed => Ret false
      | complete payload_size =>
          partitioned <<- look (fun s => peer_partitioned (cn_peer (conn s i)) s);
          if partitioned : bool then
            modify (erase_frame i (kLengthPrefixBytes + payload_size)) >> process_frames fuel i
          else
            queued <<- atomic (take_frame i payload_size);
            if queued : bool then process_frames fuel i else Ret true
      end
  end.

Definition process_inbound i : io bool :=
  n <<- look (fun s => length (cn_inbound (conn s i)));
  process_frames (S n) i.

Definition can_read_established i s : bool :=
  negb (kLengthPrefixBytes + tl_max_frame_bytes (limits s) <=? blen (cn_inbound (conn s i))) &&
  (negb (events_full s) && (im_inbound_event_bytes s <? tl_max_inbound_event_bytes (limits s))).

Definition has_outbound_data i s : bool :=
  let c := conn s i in
  match im_peers s !! cn_peer c with
  | Some p => ps_connected p && (ps_active_socket p =? cn_socket c)%Z && negb (bool_decide (length (ps_outbound p) = 0%nat))
  | None => false
  end.

Definition reset_outbound_offsets (p : PeerState) : PeerState :=
  set_ps_outbound ((fun f => mkOutboundFrame (of_wire_bytes f) 0) <$> ps_outbound p) p.

(** ** Closing *)

(** Closes the socket and delays the next attempt; nothing where [at] throws. *)
Definition close_own i s : option Impl :=
  let c := conn s i in
  let s := close_socket i s in
  match cn_expected_peer c with
  | None => Some s
  | Some id =>
      match im_peers s !! id with
      | None => None
      | Some p =>
          let '(now, s) := sys os_now s in
          Some (set_peer id (set_ps_next_attempt (now + reconnect_delay s) p) s)
      end
  end.

(** The section under the mutex. *)
Definition close_peer i (old_socket : Z) (error : TcpTransportErrorCode) (notify : bool) s : option Impl :=
  let c := conn s i in
  match im_peers s !! cn_peer c with
  | None => None
  | Some p =>
      if negb (ps_active_socket p =? old_socket)%Z then Some s
      else
        let p := reset_outbound_offsets (set_ps_active_socket kInvalidSocket (set_ps_connected false p)) in
        let '(now, s) := sys os_now s in
        let s := set_peer (cn_peer c) (set_ps_next_attempt (now + reconnect_delay s) p) s in
        Some (if notify then enqueue_diagnostic peer_down (cn_peer c) (cn_peer_incarnation c) error s else s)
  end.

Definition close_now i (error : TcpTransportErrorCode) (notify : bool) s : option Impl :=
  let old := conn s i in
  match close_own i s with
  | None => None
  | Some s =>
      match cn_phase old with
      | ph_established => close_peer i (cn_socket old) error notify s
      | _ => Some s
      end
  end.

(** An action that may throw [std::out_of_range]. *)
Definition attempt (f : Impl -> option Impl) : io unit :=
  ok <<- atomic (fun s => match f s with Some s' => (true, s') | None => (false, s) end);
  if ok : bool then Ret tt else Raise out_of_range.

Definition close_connection i (error : TcpTransportErrorCode) (notify : bool) : io unit :=
  attempt (close_now i error notify).

Definition is_established i s : bool := bool_decide (cn_phase (conn s i) = ph_established).

(** [close_connection(connection, error, connection.phase == established)]. *)
Definition close_noting i (error : TcpTransportErrorCode) : io unit :=
  notify <<- look (is_established i);
  close_connection i error notify.

(** ** Handshakes *)

Definition validate_remote (c : Connection) (remote : Handshake) s : TcpTransportErrorCode :=
  let own := tc_identity (im_config s) in
  let id := hs_identity remote in
  if Bool.eqb (hs_initiator remote) (cn_outbound c) || (hs_incarnation remote =? 0) ||
     (hs_initiator remote && (hs_nonce remote =? 0)) then protocol_error
  else if negb (ti_cluster_id_high id =? ti_cluster_id_high own) || negb (ti_cluster_id_low id =? ti_cluster_id_low own)
  then wrong_cluster
  else if ti_node_id id =? ti_node_id own then self_peer
  else if bool_decide (im_peers s !! ti_node_id id = None) then unknown_peer
  else match cn_expected_peer c with
       | Some expected => if expected =? ti_node_id id then tcp_none else unknown_peer
       | None => tcp_none
       end.

Definition connection_key (c : Connection) (remote : Handshake) s : ConnectionKey :=
  let own := tc_identity (im_config s) in
  let own_first := ti_node_id own <? ti_node_id (hs_identity remote) in
  mkConnectionKey
    (if own_first then tc_incarnation (im_config s) else hs_incarnation remote)
    (if own_first then hs_incarnation remote else tc_incarnation (im_config s))
    (if cn_outbound c then ti_node_id own else ti_node_id (hs_identity remote))
    (if cn_outbound c then cn_local_nonce c else hs_nonce remote).

(** Who the remote end is: a reason to reject it, or its data are stored. *)
Definition identify i s : option (NodeId * N * TcpTransportErrorCode) * Impl :=
  let c := conn s i in
  match parse_handshake (cn_remote_handshake c) with
  | inl error => (Some (0, 0, error), s)
  | inr remote =>
      let id := ti_node_id (hs_identity remote) in
      let validation := validate_remote c remote s in
      if bool_decide (validation <> tcp_none) then (Some (id, hs_incarnation remote, validation), s)
      else (None, set_conn i (set_cn_key (connection_key c remote s)
                               (set_cn_peer_incarnation (hs_incarnation remote) (set_cn_peer id c))) s)
  end.

Inductive Establishment := no_such_peer | is_duplicate | replaces (old : Z).

(** The section under the mutex: the connection becomes the one of its peer, unless
    the one that is there has a key that is not less. *)
Definition establish i s : Establishment * Impl :=
  let c := conn s i in
  match im_peers s !! cn_peer c with
  | None => (no_such_peer, s)
  | Some p =>
      if ps_connected p && negb (key_less (ps_active_key p) (cn_key c)) then (is_duplicate, s)
      else
        let replaced := if ps_connected p then ps_active_socket p else kInvalidSocket in
        let p := set_ps_active_key (cn_key c) (set_ps_active_socket (cn_socket c) (set_ps_connected true p)) in
        let p := reset_outbound_offsets (set_ps_peer_incarnation (cn_peer_incarnation c) p) in
        let s := set_peer (cn_peer c) p s in
        (replaces replaced, enqueue_diagnostic peer_up (cn_peer c) (cn_peer_incarnation c) tcp_none s)
  end.

(** The first other connection on the socket that was replaced. *)
Definition replaced_index i (replaced : Z) s : option nat :=
  find (fun j => negb (Nat.eqb j i) && (cn_socket (conn s j) =? replaced)%Z) (seq 0 (length (im_connections s))).

Definition promote i (replaced : Z) s : Impl :=
  let s := set_conn i (set_cn_phase ph_established (conn s i)) s in
  if (replaced =? kInvalidSocket)%Z then s
  else match replaced_index i replaced s with Some j => close_socket j s | None => s end.

(** The first code after the section belongs to it. *)
Definition adopt i s : Establishment * Impl :=
  let '(r, s) := establish i s in
  (r, match r with replaces old => promote i old s | _ => s end).

Definition finish_handshake i : io bool :=
  rejected <<- atomic (identify i);
  match rejected with
  | Some (id, incarnation, error) =>
      modify (enqueue_diagnostic peer_rejected id incarnation error) >>
      (close_connection i error false >> Ret false)
  | None =>
      partitioned <<- look (fun s => peer_partitioned (cn_peer (conn s i)) s);
      if partitioned : bool then close_connection i tcp_partitioned false >> Ret false
      else
        r <<- atomic (adopt i);
        match r with
        | no_such_peer => Raise out_of_range
        | is_duplicate =>
            modify (fun s => enqueue_diagnostic peer_rejected (cn_peer (conn s i)) (cn_peer_incarnation (conn s i))
                               duplicate_peer s) >>
            (close_connection i duplicate_peer false >> Ret false)
        | replaces _ => Ret true
        end
  end.

Definition connect_outcome i s : bool * Impl :=
  let c := conn s i in
  match sys (os_so_error (cn_socket c)) s with
  | (Some 0, s) =>
      let '(now, s) := sys os_now s in
      (true, set_conn i (set_cn_deadline (now + handshake_timeout s) (set_cn_phase ph_handshake c)) s)
  | (_, s) => (false, s)
  end.

Definition complete_connect i : io bool :=
  ok <<- atomic (connect_outcome i);
  if ok : bool then Ret true else close_connection i connection_down false >> Ret false.

(** A socket call went on or has to be repeated; else the connection is closed. *)
Definition alive (r : IoResult) : bool :=
  match io_status r with st_progress | st_again => true | _ => false end.

Definition send_handshake i s : bool * Impl :=
  let c := conn s i in
  let remaining := drop (N.to_nat (cn_handshake_sent c)) (cn_local_handshake c) in
  let '(r, s) := socket_send (cn_socket c) remaining s in
  (alive r, match io_status r with
            | st_progress =>
                note (io_sent (cn_id c) (take (N.to_nat (io_count r)) remaining))
                  (set_conn i (set_cn_handshake_sent (cn_handshake_sent c + io_count r) c) s)
            | _ => s
            end).

Definition write_handshake i : io bool :=
  ok <<- atomic (send_handshake i);
  if ok : bool then Ret true else close_connection i connection_down false >> Ret false.

Definition receive_handshake i s : bool * Impl :=
  let c := conn s i in
  let '((r, bytes), s) := socket_receive (cn_socket c) (kHandshakeBytes - cn_handshake_received c) s in
  (alive r, match io_status r with
            | st_progress =>
                note (io_received (cn_id c) bytes)
                  (set_conn i (set_cn_handshake_received (cn_handshake_received c + io_count r)
                                 (set_cn_remote_handshake
                                    (store (cn_remote_handshake c) (N.to_nat (cn_handshake_received c)) bytes) c)) s)
            | _ => s
            end).

Definition read_handshake i : io bool :=
  ok <<- atomic (receive_handshake i);
  if ok : bool then Ret true else close_connection i connection_down false >> Ret false.

(** ** Established connections *)

Definition receive_frames i s : IoStatus * Impl :=
  let c := conn s i in
  let capacity := kLengthPrefixBytes + tl_max_frame_bytes (limits s) in
  let available := sub64 capacity (blen (cn_inbound c)) in
  let '((r, bytes), s) := socket_receive (cn_socket c) (N.min available kReadChunkBytes) s in
  (io_status r, match io_status r with
                | st_progress =>
                    note (io_received (cn_id c) bytes) (set_conn i (set_cn_inbound (cn_inbound c ++ bytes) c) s)
                | _ => s
                end).

Definition read_frames i : io bool :=
  r <<- atomic (receive_frames i);
  match r with
  | st_progress =>
      ok <<- process_inbound i;
      if ok : bool then Ret true else close_connection i protocol_error true >> Ret false
  | st_again => Ret true
  | _ => close_connection i connection_down true >> Ret false
  end.

Definition advance_front (p : PeerState) (count : N) : PeerState :=
  match ps_outbound p with
  | f :: rest => set_ps_outbound (mkOutboundFrame (of_wire_bytes f) (of_offset f + count) :: rest) p
  | [] => p
  end.

(** The frame at the head has been written. *)
Definition pop_front (id : NodeId) (p : PeerState) s : Impl :=
  match ps_outbound p with
  | f :: rest =>
      let size := blen (of_wire_bytes f) in
      if of_offset f =? size then
        set_im_total_queued_bytes (sub64 (im_total_queued_bytes s) size)
          (set_peer id (set_ps_outbound rest (set_ps_queued_bytes (sub64 (ps_queued_bytes p) size) p)) s)
      else set_peer id p s
  | [] => s
  end.

(** [send] is called under the mutex.  Nothing where [at] throws. *)
Definition write_frame i s : option bool * Impl :=
  let c := conn s i in
  match im_peers s !! cn_peer c with
  | None => (None, s)
  | Some p =>
      if negb (ps_connected p) || negb (ps_active_socket p =? cn_socket c)%Z then (Some true, s)
      else
        match ps_outbound p with
        | [] => (Some true, s)
        | f :: _ =>
            let remaining := drop (N.to_nat (of_offset f)) (of_wire_bytes f) in
            let '(r, s) := socket_send (cn_socket c) remaining s in
            (Some (alive r), match io_status r with
                             | st_progress =>
                                 note (io_sent (cn_id c) (take (N.to_nat (io_count r)) remaining))
                                   (pop_front (cn_peer c) (advance_front p (io_count r)) s)
                             | _ => s
                             end)
        end
  end.

(** ** The loop *)

Definition mark_fatal (error : TcpTransportErrorCode) s : Impl :=
  push_event (mkTcpTransportEvent transport_error 0 0 error []) (set_im_fatal_error true s).

Definition drop_closed s : Impl :=
  set_im_connections (List.filter (fun c => negb (cn_socket c =? kInvalidSocket)%Z) (im_connections s)) s.

Definition own_peer i s : option NodeId :=
  let c := conn s i in
  match cn_phase c with ph_established => Some (cn_peer c) | _ => cn_expected_peer c end.

Definition close_partitioned i : io unit :=
  peer <<- look (own_peer i);
  match peer with
  | None => Ret tt
  | Some id =>
      partitioned <<- look (peer_partitioned id);
      if partitioned : bool then close_noting i tcp_partitioned else Ret tt
  end.

Definition process_established i : io unit :=
  established <<- look (is_established i);
  if established : bool then
    ok <<- process_inbound i;
    if ok : bool then Ret tt else close_connection i protocol_error true
  else Ret tt.

Definition no_socket i s : bool := (cn_socket (conn s i) =? kInvalidSocket)%Z.

(** The sets that the socket of connection [i] joins, where the two conditions of
    an established connection are given. *)
Definition watch i (can_read has_data : bool) (sets : FdSets) s : FdSets :=
  let c := conn s i in
  let add (b : bool) (l : list Z) := if b then l ++ [cn_socket c] else l in
  let reads := match cn_phase c with
               | ph_connecting => false
               | ph_handshake => cn_handshake_received c <? kHandshakeBytes
               | ph_established => can_read
               end in
  let writes := match cn_phase c with
                | ph_connecting => true
                | ph_handshake => cn_handshake_sent c <? kHandshakeBytes
                | ph_established => has_data
                end in
  mkFdSets (add reads (fd_read sets)) (add writes (fd_write sets)) (fd_error sets ++ [cn_socket c]).

Fixpoint select_sets (ids : list nat) (sets : FdSets) : io FdSets :=
  match ids with
  | [] => Ret sets
  | i :: ids =>
      closed <<- look (no_socket i);
      if closed : bool then select_sets ids sets
      else
        fits <<- look (fun s => select_compatible (cn_socket (conn s i)));
        if fits : bool then
          can_read <<- look (can_read_established i);
          has_data <<- look (has_outbound_data i);
          sets <<- look (watch i can_read has_data sets);
          select_sets ids sets
        else close_noting i io_error >> select_sets ids sets
  end.

(** Timeout in microseconds. *)
Definition poll_timeout s : N := N.min (tl_io_poll_interval_ms (limits s) * 1000) 999999.

Definition do_select (sets : FdSets) s : (N + FdSets) * Impl :=
  match sys (os_select sets (poll_timeout s)) s with
  | (Some ready, s) => (inr ready, s)
  | (None, s) => (inl (os_errno (im_os s)), s)
  end.

Definition expired (now : N) i s : bool :=
  let c := conn s i in bool_decide (cn_phase c <> ph_established) && (cn_deadline c <=? now).

Definition ready i (set : list Z) s : bool := FD_ISSET (cn_socket (conn s i)) set.

Definition in_phase (phase : ConnectionPhase) i s : bool := bool_decide (cn_phase (conn s i) = phase).

Definition handshake_done i s : bool :=
  let c := conn s i in (cn_handshake_sent c =? kHandshakeBytes) && (cn_handshake_received c =? kHandshakeBytes).

(** [if (FD_ISSET(...) && !call(connection)) continue]: true when the pass goes on. *)
Definition when_ready i (set : list Z) (call : nat -> io bool) : io bool :=
  b <<- look (ready i set);
  if b : bool then call i else Ret true.

Definition serve_handshake (sets : FdSets) i : io unit :=
  ok <<- when_ready i (fd_write sets) write_handshake;
  if negb ok then Ret tt
  else
    ok <<- when_ready i (fd_read sets) read_handshake;
    if negb ok then Ret tt
    else
      done <<- look (handshake_done i);
      if done : bool then finish_handshake i >> Ret tt else Ret tt.

Definition serve_established (sets : FdSets) i : io unit :=
  ok <<- when_ready i (fd_read sets) read_frames;
  if negb ok then Ret tt
  else
    writable <<- look (fun s => negb (no_socket i s) && ready i (fd_write sets) s);
    if writable : bool then
      r <<- atomic (write_frame i);
      match r with
      | None => Raise out_of_range
      | Some true => Ret tt
      | Some false => close_connection i connection_down true
      end
    else Ret tt.

Definition serve_open (sets : FdSets) i : io unit :=
  pending <<- look (fun s => in_phase ph_connecting i s && ready i (fd_write sets) s);
  ok <<- (if pending : bool then complete_connect i else Ret true);
  if negb ok then Ret tt
  else
    shaking <<- look (in_phase ph_handshake i);
    if shaking : bool then serve_handshake sets i
    else
      established <<- look (is_established i);
      if established : bool then serve_established sets i else Ret tt.

Definition serve (now : N) (sets : FdSets) i : io unit :=
  closed <<- look (no_socket i);
  if closed : bool then Ret tt
  else
    late <<- look (expired now i);
    if late : bool then close_connection i connection_down false
    else
      failed <<- look (ready i (fd_error sets));
      if failed : bool then close_noting i connection_down
      else serve_open sets i.

(** One turn of the [while] loop; false when the loop ends. *)
Definition io_turn : io bool :=
  stopping <<- look im_stopping;
  if stopping : bool then Ret false
  else
    modify drop_closed >>
    (for_connections close_partitioned >>
    (attempt_outgoing >>
    (for_connections process_established >>
    (listener <<- look im_listener;
     n <<- look (fun s => length (im_connections s));
     sets <<- select_sets (seq 0 n) (mkFdSets [listener] [] []);
     r <<- atomic (do_select sets);
     match r with
     | inl error =>
         if interrupted_error error then Ret true
         else Raise (tcp_thrown (mkTcpTransportError io_error ("TCP select failed: " +:+ decimal error)))
     | inr sets =>
         (if FD_ISSET listener (fd_read sets) then accept_connections else Ret tt) >>
         (now <<- atomic (sys os_now);
          for_connections (serve now sets) >> Ret true)
     end)))).

Fixpoint close_all (ids : list nat) s : Impl :=
  match ids with
  | [] => s
  | i :: ids => close_all ids (close_socket i s)
  end.

Definition close_sockets s : Impl :=
  let s := close_all (seq 0 (length (im_connections s))) s in
  set_im_listener kInvalidSocket (close_fd (im_listener s) s).

Definition forget_peer (p : PeerState) : PeerState :=
  set_ps_queued_bytes 0 (set_ps_outbound [] (set_ps_active_socket kInvalidSocket (set_ps_connected false p))).

Definition forget_peers s : Impl := set_im_total_queued_bytes 0 (set_im_peers (forget_peer <$> im_peers s) s).

(** What follows the loop. *)
Definition io_tail : io unit :=
  modify (fun s => forget_peers (close_sockets s)) >> modify (set_im_running false).

(** ** Threads *)

Inductive Thread :=
  | no_thread
  | in_loop (p : io bool)
  | in_tail (p : io unit)
  | thread_done.

Record Machine := mkMachine { mc_impl : Impl; mc_thread : Thread }.

(** One action of the I/O thread. *)
Definition thread_step (m : Machine) : Machine :=
  let s := mc_impl m in
  match mc_thread m with
  | no_thread => m
  | in_loop (Ret true) => mkMachine s (in_loop io_turn)
  | in_loop (Ret false) => mkMachine s (in_tail io_tail)
  | in_loop (Raise _) => mkMachine s (in_tail (modify (mark_fatal io_error) >> io_tail))
  | in_loop (Act f k) => let '(x, s) := f s in mkMachine s (in_loop (k x))
  | in_tail (Ret _) => mkMachine s thread_done
  | in_tail (Raise _) => m
  | in_tail (Act f k) => let '(x, s) := f s in mkMachine s (in_tail (k x))
  | thread_done => m
  end.

(** Running to the end: what [join] waits for once [stopping_] is set. *)
Definition join_tail (p : io unit) s : Impl := (run p s).2.
Definition join_loop (p : io bool) s : Impl :=
  let '(r, s) := run p s in
  let '(r, s) := match r with inr true => run io_turn s | _ => (r, s) end in
  join_tail (match r with inl _ => modify (mark_fatal io_error) >> io_tail | inr _ => io_tail end) s.

Definition join (m : Machine) : Machine :=
  match mc_thread m with
  | no_thread => m
  | thread_done => m
  | in_loop p => mkMachine (join_loop p (mc_impl m)) thread_done
  | in_tail p => mkMachine (join_tail p (mc_impl m)) thread_done
  end.

(** ** The calls of the owner *)

Definition tt_start (m : Machine) : (TcpExn + unit) * Machine :=
  match start (mc_impl m) with
  | (inr _, s) => (inr tt, mkMachine s (in_loop io_turn))
  | (inl e, s) => (inl e, mkMachine s (mc_thread m))
  end.

Definition request_stop (m : Machine) : Machine := mkMachine (set_im_stopping true (mc_impl m)) (mc_thread m).

Definition tt_stop (m : Machine) : Machine :=
  let m := join (request_stop m) in mkMachine (set_im_running false (mc_impl m)) (mc_thread m).

Definition on_impl {X} (f : Impl -> X * Impl) (m : Machine) : X * Machine :=
  let '(x, s) := f (mc_impl m) in (x, mkMachine s (mc_thread m)).

Definition tt_send (peer : NodeId) (frame : list N) : Machine -> TcpSendResult * Machine := on_impl (send peer frame).
Definition tt_poll (max_events : N) : Machine -> list TcpTransportEvent * Machine := on_impl (poll max_events).
Definition tt_set_peer_partitioned (peer : NodeId) (b : bool) : Machine -> bool * Machine :=
  on_impl (set_peer_partitioned peer b).
Definition tt_running (m : Machine) : bool := im_running (mc_impl m).
Definition tt_listening_port (m : Machine) : N := im_listening_port (mc_impl m).
Definition tt_incarnation (m : Machine) : N := tc_incarnation (im_config (mc_impl m)).

Definition tt_new (c : TcpTransportConfig) (now counter : N) (o : O) : TcpExn + Machine :=
  match Impl_new c now counter o with
  | (inr s, _) => inr (mkMachine s no_thread)
  | (inl e, _) => inl e
  end.

End loop.

#[global] Arguments Machine O : clear implicits.
#[global] Arguments Thread O : clear implicits.
