(* ===== verification/TcpInv.v ===== *)
(** * TcpInv: the invariant of a transport

    What holds of the data of [TcpTransport::Impl] between any two actions: the
    byte counters are exact and within the limits, connections and peers agree, and
    the bytes on every socket are a handshake and a sequence of whole frames; and
    [wp], with which programs of the I/O thread are shown to keep it. *)

From S2P Require Import Prelude Model StateMachine Bytes TcpTypes TcpWire TcpTransport TcpLoop.
#[local] Open Scope N_scope.

(** What the operating system promises: it writes and reads no more than asked
    for, and a socket that it opens is none of those that are open. *)
Class SocketLaws (O : Type) `{!Sockets O} := {
  law_send fd bs (o : O) n o' : os_send fd bs o = (Some n, o') -> n <= blen bs;
  law_recv fd n (o : O) bs o' : os_recv fd n o = (Some bs, o') -> blen bs <= n /\ bytes_ok bs;
  law_socket (o : O) fd o' :
    os_socket o = (fd, o') -> fd <> kInvalidSocket -> (fd ∉ os_open o) /\ os_open o' = {[fd]} ∪ os_open o;
  law_no_socket (o : O) o' : os_socket o = (kInvalidSocket, o') -> os_open o' = os_open o;
  law_accept l (o : O) fd r o' :
    os_accept l o = ((fd, r), o') -> fd <> kInvalidSocket -> (fd ∉ os_open o) /\ os_open o' = {[fd]} ∪ os_open o;
  law_no_accept l (o : O) r o' : os_accept l o = ((kInvalidSocket, r), o') -> os_open o' = os_open o;
  law_close fd (o : O) : os_open (os_close fd o) = os_open o ∖ {[fd]};
  law_open_nonblocking fd (o : O) : os_open (os_nonblocking fd o).2 = os_open o;
  law_open_reuse fd (o : O) : os_open (os_reuse_address fd o) = os_open o;
  law_open_no_delay fd (o : O) : os_open (os_no_delay fd o) = os_open o;
  law_open_bind fd a (o : O) : os_open (os_bind fd a o).2 = os_open o;
  law_open_listen fd n (o : O) : os_open (os_listen fd n o).2 = os_open o;
  law_open_getsockname fd (o : O) : os_open (os_getsockname fd o).2 = os_open o;
  law_open_thread (o : O) : os_open (os_thread o).2 = os_open o;
  law_open_connect fd a (o : O) : os_open (os_connect fd a o).2 = os_open o;
  law_open_select sets n (o : O) : os_open (os_select sets n o).2 = os_open o;
  law_open_so_error fd (o : O) : os_open (os_so_error fd o).2 = os_open o;
  law_open_send fd bs (o : O) : os_open (os_send fd bs o).2 = os_open o;
  law_open_recv fd n (o : O) : os_open (os_recv fd n o).2 = os_open o;
  law_open_now (o : O) : os_open (os_now o).2 = os_open o;
  law_open_getaddrinfo a (o : O) : os_open (os_getaddrinfo a o).2 = os_open o;
}.

(** ** Queues *)

Definition sum_list (l : list N) : N := foldr N.add 0 l.

Lemma sum_list_app l k : sum_list (l ++ k) = sum_list l + sum_list k.
Proof. induction l as [|x l IH]; simpl; [done|]. rewrite IH. lia. Qed.

Definition queue_bytes (q : list OutboundFrame) : N := sum_list ((fun f => blen (of_wire_bytes f)) <$> q).

(** The codec frame inside the wire bytes. *)
Definition payload (f : OutboundFrame) : list N := drop 4 (of_wire_bytes f).

Definition is_frame (limit : N) (f : OutboundFrame) : Prop :=
  of_wire_bytes f = wire_frame (payload f) /\ frame_fits limit (payload f).

(** Only the frame at the head may be written in part, and only while a connection
    is there to write it. *)
Definition offsets_ok (connected : bool) (q : list OutboundFrame) : Prop :=
  match q with
  | [] => True
  | f :: rest =>
      of_offset f < blen (of_wire_bytes f) /\ (connected = false -> of_offset f = 0) /\
      Forall (fun f => of_offset f = 0) rest
  end.

Record peer_ok (l : TcpTransportLimits) (p : PeerState) : Prop := {
  po_bytes : ps_queued_bytes p = queue_bytes (ps_outbound p);
  po_bound : ps_queued_bytes p <= tl_max_outbound_bytes_per_peer l;
  po_frames : Forall (is_frame (tl_max_frame_bytes l)) (ps_outbound p);
  po_offsets : offsets_ok (ps_connected p) (ps_outbound p);
}.

(** The bytes queued for all peers. *)
Definition all_queued (peers : gmap N PeerState) : N :=
  map_fold (fun _ p n => ps_queued_bytes p + n) 0 peers.

Lemma all_queued_insert_new peers id p :
  peers !! id = None -> all_queued (<[id := p]> peers) = ps_queued_bytes p + all_queued peers.
Proof.
  intros Hn. unfold all_queued. rewrite map_fold_insert_L; [done| |done]. intros. lia.
Qed.

Lemma all_queued_update peers id p p' :
  peers !! id = Some p ->
  all_queued (<[id := p']> peers) + ps_queued_bytes p = all_queued peers + ps_queued_bytes p'.
Proof.
  intros Hp. rewrite <- (insert_delete_id peers id p Hp) at 2. rewrite <- insert_delete_eq.
  rewrite !all_queued_insert_new by apply lookup_delete_eq. lia.
Qed.

Lemma all_queued_same peers id p p' :
  peers !! id = Some p -> ps_queued_bytes p' = ps_queued_bytes p ->
  all_queued (<[id := p']> peers) = all_queued peers.
Proof. intros Hp E. pose proof (all_queued_update peers id p p' Hp). lia. Qed.

Lemma all_queued_ge peers id p : peers !! id = Some p -> ps_queued_bytes p <= all_queued peers.
Proof.
  intros Hp. pose proof (all_queued_update peers id p (set_ps_queued_bytes 0 p) Hp) as E. simpl in E. lia.
Qed.

Record queues_ok (l : TcpTransportLimits) (peers : gmap N PeerState) (total : N) : Prop := {
  qo_peers : map_Forall (fun _ => peer_ok l) peers;
  qo_total : total = all_queued peers;
  qo_bound : total <= tl_max_total_outbound_bytes l;
}.

(** ** Events *)

Definition event_bytes (es : list TcpTransportEvent) : N := sum_list ((fun e => blen (ev_bytes e)) <$> es).

Record events_ok (l : TcpTransportLimits) (es : list TcpTransportEvent) (bytes : N) : Prop := {
  eo_bytes : bytes = event_bytes es;
  eo_bound : bytes <= tl_max_inbound_event_bytes l;
  eo_count : N.of_nat (length es) <= tl_max_inbound_events l;
}.

(** ** Connections *)

Definition own_handshake (cfg : TcpTransportConfig) (c : Connection) : Handshake :=
  mkHandshake (tc_identity cfg) (tc_incarnation cfg) (cn_local_nonce c) (cn_outbound c).

Definition live (c : Connection) : Prop := cn_socket c <> kInvalidSocket.

Record conn_ok (cfg : TcpTransportConfig) (peers : gset N) (open : gset Z) (c : Connection) : Prop := {
  co_expected : forall id, cn_expected_peer c = Some id -> id ∈ peers;
  co_peer : cn_phase c = ph_established -> cn_peer c ∈ peers;
  co_sent : cn_handshake_sent c <= kHandshakeBytes;
  co_received : cn_handshake_received c <= kHandshakeBytes;
  co_nonce : u64 (cn_local_nonce c);
  co_local : cn_local_handshake c = handshake_of (own_handshake cfg c);
  co_remote : length (cn_remote_handshake c) = 56%nat /\ bytes_ok (cn_remote_handshake c);
  co_inbound : bytes_ok (cn_inbound c);
  co_capacity : blen (cn_inbound c) <= kLengthPrefixBytes + tl_max_frame_bytes (tc_limits cfg);
  co_open : live c -> cn_socket c ∈ open;
}.

Record conns_ok (cfg : TcpTransportConfig) (peers : gset N) (cs : list Connection) (open : gset Z) : Prop := {
  cs_each : Forall (conn_ok cfg peers open) cs;
  cs_distinct : forall i j c d, cs !! i = Some c -> cs !! j = Some d -> live c -> cn_socket c = cn_socket d -> i = j;
  cs_count : N.of_nat (length cs) <= tl_max_pending_connections (tc_limits cfg);
}.

(** ** What has passed through a connection *)

(** [fl_dropped]: the peers for whom a partly written frame was thrown away. *)
Record FdLog := mkFdLog {
  fl_written : list N;
  fl_read : list N;
  fl_delivered : list (NodeId * list N);
  fl_dropped : list NodeId;
}.

Definition new_log : FdLog := mkFdLog [] [] [] [].

Definition log_event (id : N) (l : FdLog) (e : Io) : FdLog :=
  match e with
  | io_opened id' => if bool_decide (id' = id) then new_log else l
  | io_sent id' bs =>
      if bool_decide (id' = id) then mkFdLog (fl_written l ++ bs) (fl_read l) (fl_delivered l) (fl_dropped l) else l
  | io_received id' bs =>
      if bool_decide (id' = id) then mkFdLog (fl_written l) (fl_read l ++ bs) (fl_delivered l) (fl_dropped l) else l
  | io_delivered id' p f =>
      if bool_decide (id' = id) then mkFdLog (fl_written l) (fl_read l) (fl_delivered l ++ [(p, f)]) (fl_dropped l) else l
  | io_dropped p => mkFdLog (fl_written l) (fl_read l) (fl_delivered l) (fl_dropped l ++ [p])
  | io_queued _ _ => l
  end.

Definition conn_log (id : N) (tr : list Io) : FdLog := foldl (log_event id) new_log tr.

(** The frames that [send] has taken for a peer. *)
Definition queued_for (id : NodeId) (tr : list Io) : list (list N) :=
  omap (fun e => match e with io_queued id' f => if bool_decide (id' = id) then Some f else None | _ => None end) tr.

Lemma conn_log_snoc id tr e : conn_log id (tr ++ [e]) = log_event id (conn_log id tr) e.
Proof. unfold conn_log. by rewrite foldl_app. Qed.

Lemma queued_for_app id tr tr' : queued_for id (tr ++ tr') = queued_for id tr ++ queued_for id tr'.
Proof. apply omap_app. Qed.

Lemma queued_for_snoc id tr id' f :
  queued_for id (tr ++ [io_queued id' f]) = queued_for id tr ++ (if bool_decide (id' = id) then [f] else []).
Proof. rewrite queued_for_app. simpl. by case_bool_decide. Qed.

Lemma queued_for_sublist id tr tr' : queued_for id tr `sublist_of` queued_for id (tr ++ tr').
Proof. rewrite queued_for_app. by apply sublist_inserts_r. Qed.

(** What was read is a handshake, whole frames and [rest]; of the frames, a
    subsequence was handed out. *)
Definition reads (limit : N) (remote : Handshake) (l : FdLog) (rest : list N) : Prop :=
  exists cs ds, Forall (frame_fits limit) cs /\ ds `sublist_of` cs /\
    fl_read l = handshake_of remote ++ stream cs ++ rest /\
    fl_delivered l = (fun f => (ti_node_id (hs_identity remote), f)) <$> ds.

(** Unless a partly written frame for [peer] was thrown away, what was written is a
    handshake, whole frames and [part]; the frames, and after them [queue], are a
    subsequence of [all]. *)
Definition writes (limit : N) (own : Handshake) (peer : NodeId) (l : FdLog) (part : list N)
    (queue all : list (list N)) : Prop :=
  peer ∉ fl_dropped l ->
  exists fs, Forall (frame_fits limit) fs /\ fl_written l = handshake_of own ++ stream fs ++ part /\
    (fs ++ queue) `sublist_of` all.

Section streams.
Context (cfg : TcpTransportConfig).
Let limit := tl_max_frame_bytes (tc_limits cfg).

Definition is_own (own : Handshake) : Prop :=
  hs_identity own = tc_identity cfg /\ hs_incarnation own = tc_incarnation cfg /\ handshake_fits own.

Definition same_cluster (remote : Handshake) : Prop :=
  ti_cluster_id_high (hs_identity remote) = ti_cluster_id_high (tc_identity cfg) /\
  ti_cluster_id_low (hs_identity remote) = ti_cluster_id_low (tc_identity cfg).

Record talk (own remote : Handshake) (l : FdLog) (rest : list N) (tr : list Io) : Prop := {
  tk_remote : handshake_fits remote /\ same_cluster remote /\ hs_initiator remote = negb (hs_initiator own);
  tk_greeting : handshake_of own `prefix_of` fl_written l;
  tk_reads : reads limit remote l rest;
  tk_writes : exists part, unfinished limit part /\
    writes limit own (ti_node_id (hs_identity remote)) l part [] (queued_for (ti_node_id (hs_identity remote)) tr);
}.

(** The log of any connection. *)
Definition log_ok (l : FdLog) (tr : list Io) : Prop :=
  exists own, is_own own /\
    ((fl_written l `prefix_of` handshake_of own /\ fl_delivered l = []) \/
     exists remote rest, talk own remote l rest tr).

(** The part of the head of the queue that has been written. *)
Definition front_part (p : PeerState) : list N :=
  match ps_outbound p with f :: _ => take (N.to_nat (of_offset f)) (of_wire_bytes f) | [] => [] end.

Definition adopted (peers : gmap N PeerState) (c : Connection) (p : PeerState) : Prop :=
  peers !! cn_peer c = Some p /\ ps_connected p = true /\ ps_active_socket p = cn_socket c.

(** The log of a connection that the thread still holds. *)
Record linked (peers : gmap N PeerState) (c : Connection) (l : FdLog) (tr : list Io) : Prop := {
  lk_shaking : cn_phase c <> ph_established ->
    fl_written l = take (N.to_nat (cn_handshake_sent c)) (cn_local_handshake c) /\
    fl_read l = take (N.to_nat (cn_handshake_received c)) (cn_remote_handshake c) /\
    fl_delivered l = [] /\ cn_inbound c = [];
  lk_talking : cn_phase c = ph_established ->
    exists remote, cn_peer c = ti_node_id (hs_identity remote) /\ talk (own_handshake cfg c) remote l (cn_inbound c) tr;
  lk_active : live c -> forall p, adopted peers c p ->
    writes limit (own_handshake cfg c) (cn_peer c) l (front_part p) (payload <$> ps_outbound p)
      (queued_for (cn_peer c) tr);
}.

Record streams_ok (peers : gmap N PeerState) (cs : list Connection) (tr : list Io) (made : N) : Prop := {
  so_logs : forall id, log_ok (conn_log id tr) tr;
  so_linked : forall i c, cs !! i = Some c -> linked peers c (conn_log (cn_id c) tr) tr;
  so_agree : forall i c id p, cs !! i = Some c -> live c -> peers !! id = Some p ->
    ps_connected p = true -> ps_active_socket p = cn_socket c -> cn_peer c = id;
  so_ids : forall i j c d, cs !! i = Some c -> cs !! j = Some d -> cn_id c = cn_id d -> i = j;
  so_made : Forall (fun c => cn_id c < made) cs;
  so_queued : forall id p, peers !! id = Some p -> (payload <$> ps_outbound p) `sublist_of` queued_for id tr;
}.

End streams.

(** ** Messages *)

(** Every message in the queue of events came out of a connection. *)
Definition noted (es : list TcpTransportEvent) (tr : list Io) (made : N) : Prop :=
  Forall (fun e => ev_kind e = tcp_message ->
    exists id, id < made /\ (ev_peer e, ev_bytes e) ∈ fl_delivered (conn_log id tr)) es.

Lemma delivered_grows id l e :
  e <> io_opened id -> fl_delivered l `prefix_of` fl_delivered (log_event id l e).
Proof.
  intros He. destruct e as [k|k bs|k bs|p f|k p f|p]; simpl; try done; case_bool_decide; try done; simpl.
  - by subst.
  - by exists [(p, f)].
Qed.

Lemma noted_mono es tr made e : noted es tr made -> (forall k, e <> io_opened k) -> noted es (tr ++ [e]) made.
Proof.
  intros Hn He. eapply Forall_impl; [exact Hn|]. intros x Hx Hk. destruct (Hx Hk) as (id & Hid & Hin). exists id.
  split; [done|]. rewrite conn_log_snoc. by eapply elem_of_prefix, delivered_grows.
Qed.

Lemma noted_opened es tr made : noted es tr made -> noted es (tr ++ [io_opened made]) (made + 1).
Proof.
  intros Hn. eapply Forall_impl; [exact Hn|]. intros x Hx Hk. destruct (Hx Hk) as (id & Hid & Hin). exists id.
  split; [lia|]. rewrite conn_log_snoc. eapply elem_of_prefix, delivered_grows; [done|]. intros [= ?]. lia.
Qed.

Lemma noted_snoc es tr made e : noted es tr made -> ev_kind e <> tcp_message -> noted (es ++ [e]) tr made.
Proof. intros Hn Hk. apply Forall_app. split; [done|]. by constructor. Qed.

Lemma noted_message es tr made id p inc f :
  noted es tr made -> id < made ->
  noted (es ++ [mkTcpTransportEvent tcp_message p inc tcp_none f]) (tr ++ [io_delivered id p f]) made.
Proof.
  intros Hn Hid. apply Forall_app. split; [by apply noted_mono|]. constructor; [|constructor].
  intros _. exists id. split; [done|]. rewrite conn_log_snoc. simpl. rewrite bool_decide_true by done. simpl.
  apply elem_of_app. right. by left.
Qed.

Lemma noted_filter b es tr made : noted es tr made -> noted (List.filter b es) tr made.
Proof.
  unfold noted. rewrite !Forall_forall. intros Hn e He. apply Hn. by apply list_elem_of_In, filter_In in He as [?%list_elem_of_In _].
Qed.

(** ** The invariant *)

(** The values of a configuration that was accepted. *)
Record config_ok (c : TcpTransportConfig) : Prop := {
  cg_limits : limits_ok (tc_limits c) = true;
  cg_per_peer : tl_max_outbound_bytes_per_peer (tc_limits c) <= u64_max;
  cg_total : tl_max_total_outbound_bytes (tc_limits c) <= u64_max;
  cg_events : tl_max_inbound_event_bytes (tc_limits c) <= u64_max;
  cg_identity : handshake_fits (mkHandshake (tc_identity c) (tc_incarnation c) 0 false);
}.

Definition active_of (peers : gmap N PeerState) : gmap N (bool * Z) :=
  (fun p => (ps_connected p, ps_active_socket p)) <$> peers.

(** Every connected peer has an established connection. *)
Definition settled (active : gmap N (bool * Z)) (cs : list Connection) : Prop :=
  forall id fd, active !! id = Some (true, fd) ->
    exists i c, cs !! i = Some c /\ cn_socket c = fd /\ live c /\ cn_peer c = id /\ cn_phase c = ph_established.

(** The peers of a configuration. *)
Definition peer_set (cfg : TcpTransportConfig) : gset N := list_to_set (pe_node_id <$> tc_peers cfg).

Section invariant.
Context {O : Type} `{!Sockets O}.
Abbreviation Impl := (TcpTransport.Impl O).

Record core (cfg : TcpTransportConfig) (s : Impl) : Prop := {
  gd_config : im_config s = cfg;
  gd_queues : queues_ok (tc_limits cfg) (im_peers s) (im_total_queued_bytes s);
  gd_events : events_ok (tc_limits cfg) (im_events s) (im_inbound_event_bytes s);
  gd_noted : noted (im_events s) (im_trace s) (im_made s);
  gd_conns : conns_ok cfg (dom (im_peers s)) (im_connections s) (os_open (im_os s));
  gd_streams : streams_ok cfg (im_peers s) (im_connections s) (im_trace s) (im_made s);
  gd_peers : dom (im_peers s) = peer_set cfg;
  gd_zero : im_peers s !! 0 = None;
  gd_nonce : u64 (im_next_nonce s);
}.

Record good (cfg : TcpTransportConfig) (s : Impl) : Prop := {
  gd_core : core cfg s;
  gd_settled : settled (active_of (im_peers s)) (im_connections s);
}.

End invariant.

(** ** Programs of the I/O thread

    [wp] says of a program that every action of it keeps the invariant [I], whatever
    other threads do in between as long as they keep [I] and what the thread owns. *)

Section wp.
Context {S W : Type} (I : S -> Prop) (own : S -> W) (E : TcpExn -> Prop).

Fixpoint wp {A} (p : prog S A) (Q : A -> W -> Prop) (w : W) : Prop :=
  match p with
  | Ret a => Q a w
  | Raise e => E e
  | Act f k => forall s, own s = w -> I s -> I (f s).2 /\ wp (k (f s).1) Q (own (f s).2)
  end.

Lemma iwp_mono {A} (p : prog S A) (Q Q' : A -> W -> Prop) w :
  wp p Q w -> (forall a w, Q a w -> Q' a w) -> wp p Q' w.
Proof.
  intros Hp HQ. revert w Hp. induction p as [a|e|X f k IH]; simpl; [by auto|done|].
  intros w Hp s Hs HI. destruct (Hp s Hs HI). auto.
Qed.

Lemma iwp_bind {A B} (p : prog S A) (k : A -> prog S B) Q w :
  wp p (fun a => wp (k a) Q) w -> wp (prog_bind p k) Q w.
Proof.
  revert w. induction p as [a|e|X f j IH]; simpl; [done..|].
  intros w Hp s Hs HI. destruct (Hp s Hs HI). auto.
Qed.

Lemma iwp_seq {A B} (p : prog S A) (k : A -> prog S B) (R : A -> W -> Prop) Q w :
  wp p R w -> (forall a w, R a w -> wp (k a) Q w) -> wp (prog_bind p k) Q w.
Proof. intros Hp Hk. apply iwp_bind. eapply iwp_mono; eauto. Qed.

Lemma iwp_atomic {X} (f : S -> X * S) Q w :
  (forall s, own s = w -> I s -> I (f s).2 /\ Q (f s).1 (own (f s).2)) -> wp (atomic f) Q w.
Proof. done. Qed.

Lemma iwp_modify (f : S -> S) Q w :
  (forall s, own s = w -> I s -> I (f s) /\ Q tt (own (f s))) -> wp (modify f) Q w.
Proof. done. Qed.

Lemma iwp_look {X} (f : S -> X) Q w :
  (forall s, own s = w -> I s -> Q (f s) w) -> wp (look f) Q w.
Proof. intros HQ s <- HI. split; [done|]. by apply HQ. Qed.

Lemma iwp_for_each ids (body : nat -> prog S unit) (P : W -> Prop) w :
  P w -> (forall i w, i ∈ ids -> P w -> wp (body i) (fun _ => P) w) -> wp (for_each ids body) (fun _ => P) w.
Proof.
  revert w. induction ids as [|x l IH]; intros w Hw Hbody; [done|].
  simpl. eapply iwp_seq; [apply Hbody; [by left|done]|]. intros [] w' Hw'. apply IH; [done|].
  intros i w'' Hi. apply Hbody. by right.
Qed.

(** The state of the thread that an action reads. *)
Lemma iwp_look_bind {X A} (f : S -> X) (k : X -> prog S A) Q w :
  (forall s, own s = w -> I s -> wp (k (f s)) Q w) -> wp (prog_bind (look f) k) Q w.
Proof. intros Hk. by apply iwp_bind, iwp_look. Qed.

Lemma iwp_act_bind {X A} (f : S -> X * S) (k : X -> prog S A) Q w :
  (forall s, own s = w -> I s -> I (f s).2 /\ wp (k (f s).1) Q (own (f s).2)) -> wp (prog_bind (atomic f) k) Q w.
Proof. intros Hk. by apply iwp_bind, iwp_atomic. Qed.

Lemma iwp_modify_bind {A} (f : S -> S) (k : prog S A) Q w :
  (forall s, own s = w -> I s -> I (f s) /\ wp k Q (own (f s))) -> wp (prog_bind (modify f) (fun _ => k)) Q w.
Proof. intros Hk. by apply iwp_bind, iwp_modify. Qed.

(** An action at the head of a program. *)
Lemma iwp_step {X A} (f : S -> X * S) (k : X -> prog S A) Q s :
  wp (Act f k) Q (own s) -> I s -> I (f s).2 /\ wp (k (f s).1) Q (own (f s).2).
Proof. intros Hp HI. by apply Hp. Qed.

End wp.
