(* ===== verification/TcpFrames.v ===== *)
(** * TcpFrames: how the parts of the invariant change

    One lemma per kind of change to the queues, the events, the connections and the
    logs of the sockets; then the calls of the owner keep the invariant. *)

From S2P Require Import Prelude Model StateMachine Bytes TcpTypes TcpWire TcpTransport TcpLoop TcpInv.
#[local] Open Scope N_scope.

(** ** Frames in a queue *)

Lemma payload_wire f n : payload (mkOutboundFrame (wire_frame f) n) = f.
Proof. unfold payload. cbn [of_wire_bytes]. rewrite wire_frame_app. by rewrite drop_app_length' by by rewrite be_bytes_length. Qed.

Lemma payload_offset f n : payload (mkOutboundFrame (of_wire_bytes f) n) = payload f.
Proof. done. Qed.

Lemma queue_bytes_app q q' : queue_bytes (q ++ q') = queue_bytes q + queue_bytes q'.
Proof. unfold queue_bytes. by rewrite fmap_app, sum_list_app. Qed.

Lemma queue_bytes_cons f q : queue_bytes (f :: q) = blen (of_wire_bytes f) + queue_bytes q.
Proof. done. Qed.

Definition reset (q : list OutboundFrame) : list OutboundFrame := (fun f => mkOutboundFrame (of_wire_bytes f) 0) <$> q.

Lemma reset_bytes q : queue_bytes (reset q) = queue_bytes q.
Proof. unfold queue_bytes, reset. by rewrite <- list_fmap_compose. Qed.

Lemma reset_payload q : payload <$> reset q = payload <$> q.
Proof. unfold reset. by rewrite <- list_fmap_compose. Qed.

Lemma reset_frames limit q : Forall (is_frame limit) q -> Forall (is_frame limit) (reset q).
Proof. intros Hq. unfold reset. by apply Forall_fmap. Qed.

Lemma frame_nonempty limit f : is_frame limit f -> 0 < blen (of_wire_bytes f).
Proof. intros [-> [? _]]. rewrite wire_frame_blen. unfold kLengthPrefixBytes. lia. Qed.

Lemma reset_offsets limit b q : Forall (is_frame limit) q -> offsets_ok b (reset q).
Proof.
  destruct 1 as [|f q Hf Hq]; [done|]. split_and!; [by eapply frame_nonempty|done|].
  apply Forall_fmap, Forall_forall. done.
Qed.

Lemma offsets_connected b q : offsets_ok b q -> offsets_ok true q.
Proof. destruct q; [done|]. intros (? & _ & ?). by split_and!. Qed.

Section queues.
Context (l : TcpTransportLimits).
Implicit Types (peers : gmap N PeerState) (p : PeerState).

(** The flags of a peer. *)
Lemma peer_ok_flags p p' :
  peer_ok l p -> ps_outbound p' = ps_outbound p -> ps_queued_bytes p' = ps_queued_bytes p ->
  ps_connected p' = ps_connected p -> peer_ok l p'.
Proof. intros [] E1 E2 E3. constructor; rewrite ?E1, ?E2, ?E3; done. Qed.

(** The queue starts anew on another connection. *)
Lemma peer_ok_reset p p' :
  peer_ok l p -> ps_outbound p' = reset (ps_outbound p) -> ps_queued_bytes p' = ps_queued_bytes p -> peer_ok l p'.
Proof.
  intros [] E1 E2. constructor; rewrite ?E1, ?E2, ?reset_bytes; [done|done|by apply reset_frames|].
  by eapply reset_offsets.
Qed.

Lemma peer_ok_cleared p' : ps_outbound p' = [] -> ps_queued_bytes p' = 0 -> peer_ok l p'.
Proof. intros E1 E2. constructor; rewrite ?E1, ?E2; [done|lia|constructor|done]. Qed.

Lemma queues_update peers total id p p' :
  queues_ok l peers total -> peers !! id = Some p -> peer_ok l p' -> ps_queued_bytes p' = ps_queued_bytes p ->
  queues_ok l (<[id := p']> peers) total.
Proof.
  intros [Hp Ht Hb] Hid Hp' E. constructor; [|by rewrite (all_queued_same peers id p)|done].
  by apply map_Forall_insert_2.
Qed.

Lemma queues_push peers total id p f n :
  queues_ok l peers total -> peers !! id = Some p -> is_frame (tl_max_frame_bytes l) f -> of_offset f = 0 ->
  ps_connected p = true -> n = blen (of_wire_bytes f) ->
  ps_queued_bytes p + n <= tl_max_outbound_bytes_per_peer l -> total + n <= tl_max_total_outbound_bytes l ->
  tl_max_outbound_bytes_per_peer l <= u64_max -> tl_max_total_outbound_bytes l <= u64_max ->
  queues_ok l (<[id := set_ps_queued_bytes (add64 (ps_queued_bytes p) n) (set_ps_outbound (ps_outbound p ++ [f]) p)]> peers)
    (add64 total n).
Proof.
  intros [Hp Ht Hb] Hid Hf H0 Hc -> Hn Hn' Hu Hu'. rewrite !add64_small by lia.
  destruct (map_Forall_lookup_1 _ _ _ _ Hp Hid) as [B1 B2 B3 B4]. constructor.
  - apply map_Forall_insert_2; [|done]. constructor; simpl.
    + rewrite queue_bytes_app, queue_bytes_cons, B1. unfold queue_bytes at 3. simpl. lia.
    + lia.
    + by apply Forall_app_2, Forall_singleton.
    + rewrite Hc in *. destruct (ps_outbound p) as [|g q]; simpl in *.
      * split_and!; [rewrite H0; by eapply frame_nonempty|done|constructor].
      * destruct B4 as (? & ? & ?). split_and!; [done..|]. by apply Forall_app_2, Forall_singleton.
  - pose proof (all_queued_update peers id p
      (set_ps_queued_bytes (ps_queued_bytes p + blen (of_wire_bytes f)) (set_ps_outbound (ps_outbound p ++ [f]) p)) Hid)
      as E. simpl in E. lia.
  - lia.
Qed.

Lemma queues_clear peers total id p p' :
  queues_ok l peers total -> peers !! id = Some p -> ps_outbound p' = [] -> ps_queued_bytes p' = 0 ->
  tl_max_total_outbound_bytes l <= u64_max ->
  queues_ok l (<[id := p']> peers) (sub64 total (ps_queued_bytes p)).
Proof.
  intros [Hp Ht Hb] Hid E1 E2 Hu. pose proof (all_queued_ge peers id p Hid).
  pose proof (all_queued_update peers id p p' Hid). rewrite sub64_small by lia.
  constructor; [|lia..]. apply map_Forall_insert_2; [by apply peer_ok_cleared|done].
Qed.

Lemma queues_pop peers total id p p' f q :
  queues_ok l peers total -> peers !! id = Some p -> ps_outbound p = f :: q ->
  p' = set_ps_outbound q (set_ps_queued_bytes (sub64 (ps_queued_bytes p) (blen (of_wire_bytes f))) p) ->
  tl_max_total_outbound_bytes l <= u64_max -> tl_max_outbound_bytes_per_peer l <= u64_max ->
  queues_ok l (<[id := p']> peers) (sub64 total (blen (of_wire_bytes f))).
Proof.
  intros [Hp Ht Hb] Hid Eq -> Hu Hu'. destruct (map_Forall_lookup_1 _ _ _ _ Hp Hid) as [B1 B2 B3 B4].
  rewrite Eq in *. rewrite queue_bytes_cons in B1. pose proof (all_queued_ge peers id p Hid).
  apply Forall_cons in B3 as [_ B3]. destruct B4 as (_ & _ & B4).
  rewrite !sub64_small by lia. constructor.
  - apply map_Forall_insert_2; [|done]. constructor; simpl; [lia|lia|done|].
    destruct q as [|g q]; [done|]. apply Forall_cons in B4 as [E0 B4]. apply Forall_cons in B3 as [Hg _].
    split_and!; [rewrite E0; by eapply frame_nonempty|done|done].
  - pose proof (all_queued_update peers id p
      (set_ps_outbound q (set_ps_queued_bytes (ps_queued_bytes p - blen (of_wire_bytes f)) p)) Hid) as E.
    simpl in E. lia.
  - lia.
Qed.

(** All queues are emptied at the end of the thread. *)
Lemma queues_forget peers (g : PeerState -> PeerState) total :
  queues_ok l peers total -> (forall p, ps_outbound (g p) = []) -> (forall p, ps_queued_bytes (g p) = 0) ->
  queues_ok l (g <$> peers) 0.
Proof.
  intros _ H1 H2. constructor; [|symmetry|lia].
  - intros id p Hp. apply lookup_fmap_Some in Hp as (p0 & <- & _). by apply peer_ok_cleared.
  - induction peers as [|id p m Hm Hf IH] using map_first_key_ind; [done|].
    rewrite fmap_insert, all_queued_insert_new by (by rewrite lookup_fmap, Hm). rewrite IH, H2. done.
Qed.

End queues.

(** ** Events *)

Lemma event_bytes_app es es' : event_bytes (es ++ es') = event_bytes es + event_bytes es'.
Proof. unfold event_bytes. by rewrite fmap_app, sum_list_app. Qed.

Section events.
Context (l : TcpTransportLimits) (Hu : tl_max_inbound_event_bytes l <= u64_max).

Lemma events_push es bytes e :
  events_ok l es bytes -> ev_bytes e = [] -> N.of_nat (length es) < tl_max_inbound_events l ->
  events_ok l (es ++ [e]) bytes.
Proof.
  clear Hu. intros [Hb Hm Hc] E Hlt. constructor; [|done|rewrite length_app; simpl; lia].
  rewrite event_bytes_app, Hb. unfold event_bytes at 3. simpl. rewrite E. unfold blen. simpl. lia.
Qed.

Lemma events_message es bytes e n :
  events_ok l es bytes -> blen (ev_bytes e) = n -> N.of_nat (length es) < tl_max_inbound_events l ->
  bytes + n <= tl_max_inbound_event_bytes l -> events_ok l (es ++ [e]) (add64 bytes n).
Proof.
  intros [Hb Hm Hc] <- Hlt Hn. rewrite add64_small by lia.
  constructor; [|done|rewrite length_app; simpl; lia].
  rewrite event_bytes_app, Hb. unfold event_bytes at 3. simpl. lia.
Qed.

(** Removing events one by one takes their bytes off the counter. *)
Lemma events_filter es bytes (b : TcpTransportEvent -> bool) :
  events_ok l es bytes ->
  events_ok l (List.filter (fun e => negb (b e)) es)
    (foldl (fun n e => if b e then sub64 n (blen (ev_bytes e)) else n) bytes es).
Proof.
  intros [Hb Hm Hc].
  assert (Hg : forall es n, event_bytes es <= n -> n <= u64_max ->
    foldl (fun n e => if b e then sub64 n (blen (ev_bytes e)) else n) n es + event_bytes es =
    n + event_bytes (List.filter (fun e => negb (b e)) es)).
  { clear. intros es. induction es as [|e es IH]; intros n H1 H2; [done|].
    change (event_bytes (e :: es)) with (blen (ev_bytes e) + event_bytes es) in *. simpl. destruct (b e); simpl.
    - rewrite sub64_small by lia. specialize (IH (n - blen (ev_bytes e)) ltac:(lia) ltac:(lia)). lia.
    - change (event_bytes (e :: ?k)) with (blen (ev_bytes e) + event_bytes k).
      specialize (IH n ltac:(lia) ltac:(lia)). lia. }
  specialize (Hg es bytes ltac:(lia) ltac:(lia)).
  assert (Hle : event_bytes (List.filter (fun e => negb (b e)) es) <= event_bytes es).
  { clear. induction es as [|e es IH]; [done|]. simpl.
    change (event_bytes (e :: es)) with (blen (ev_bytes e) + event_bytes es). destruct (b e); simpl; [lia|].
    change (event_bytes (e :: ?k)) with (blen (ev_bytes e) + event_bytes k). lia. }
  assert (Hlen : (length (List.filter (fun e => negb (b e)) es) <= length es)%nat).
  { clear. induction es as [|e es IH]; [done|]. simpl. destruct (b e); simpl; lia. }
  constructor; [|lia..]. lia.
Qed.

Lemma events_drop es bytes k :
  events_ok l es bytes ->
  events_ok l (drop k es) (foldl (fun n e => sub64 n (blen (ev_bytes e))) bytes (take k es)).
Proof.
  intros [Hb Hm Hc].
  assert (Hg : forall es n, event_bytes es <= n -> n <= u64_max ->
    foldl (fun n e => sub64 n (blen (ev_bytes e))) n es + event_bytes es = n).
  { clear. intros es. induction es as [|e es IH]; intros n H1 H2; [unfold event_bytes; simpl; lia|].
    change (event_bytes (e :: es)) with (blen (ev_bytes e) + event_bytes es) in *. simpl.
    rewrite sub64_small by lia. specialize (IH (n - blen (ev_bytes e)) ltac:(lia) ltac:(lia)). lia. }
  pose proof (event_bytes_app (take k es) (drop k es)) as E. rewrite take_drop in E.
  specialize (Hg (take k es) bytes ltac:(lia) ltac:(lia)).
  constructor; [lia|lia|rewrite length_drop; lia].
Qed.

End events.

(** ** Streams *)

Lemma writes_mono limit own peer l part q all q' all' :
  writes limit own peer l part q all -> q' `sublist_of` q -> all `sublist_of` all' ->
  writes limit own peer l part q' all'.
Proof.
  intros Hw Hq Ha Hd. destruct (Hw Hd) as (fs & ? & ? & Hs). exists fs. split_and!; [done..|].
  etrans; [|done]. etrans; [|done]. by apply sublist_app.
Qed.

Section streams.
Context (cfg : TcpTransportConfig).
Implicit Types (peers : gmap N PeerState) (cs : list Connection) (tr : list Io) (c : Connection) (made : N).

Lemma talk_mono own remote l rest tr tr' :
  talk cfg own remote l rest tr -> (forall id, queued_for id tr `sublist_of` queued_for id tr') ->
  talk cfg own remote l rest tr'.
Proof.
  intros [? ? ? (part & ? & Hw)] Htr. constructor; [done..|]. exists part. split; [done|]. by eapply writes_mono.
Qed.

Lemma log_ok_mono l tr tr' :
  log_ok cfg l tr -> (forall id, queued_for id tr `sublist_of` queued_for id tr') -> log_ok cfg l tr'.
Proof.
  intros (own & ? & [?|(remote & rest & ?)]) Htr; exists own; (split; [done|]); [by left|].
  right. exists remote, rest. by eapply talk_mono.
Qed.

Lemma linked_mono peers c l tr tr' :
  linked cfg peers c l tr -> (forall id, queued_for id tr `sublist_of` queued_for id tr') -> linked cfg peers c l tr'.
Proof.
  intros [H1 H2 H3] Htr. constructor; [done| |].
  - intros Hp. destruct (H2 Hp) as (remote & ? & ?). exists remote. split; [done|]. by eapply talk_mono.
  - intros Hl p Hp. eapply writes_mono; [by apply H3|done|done].
Qed.

(** The peers may lose connections, and change what has nothing to do with them. *)
Definition peers_le peers' peers : Prop :=
  forall id p', peers' !! id = Some p' -> ps_connected p' = true ->
    exists p, peers !! id = Some p /\ ps_connected p = true /\ ps_active_socket p' = ps_active_socket p /\
      front_part p' = front_part p /\ payload <$> ps_outbound p' = payload <$> ps_outbound p.

Lemma linked_peers peers peers' c l tr : linked cfg peers c l tr -> peers_le peers' peers -> linked cfg peers' c l tr.
Proof.
  intros [H1 H2 H3] Hle. constructor; [done..|]. intros Hl p' (Hp & Hc & Ha).
  destruct (Hle _ _ Hp Hc) as (p & Hp0 & ? & Ha' & -> & ->). apply H3; [done|]. split_and!; congruence.
Qed.

Lemma streams_peers peers peers' cs tr made :
  streams_ok cfg peers cs tr made -> peers_le peers' peers ->
  (forall id p', peers' !! id = Some p' -> exists p, peers !! id = Some p /\
     (payload <$> ps_outbound p') `sublist_of` (payload <$> ps_outbound p)) ->
  streams_ok cfg peers' cs tr made.
Proof.
  intros [H1 H2 H3 H4 H5 H6] Hle Hq. constructor; [done|..|done|done|].
  3: { intros id p' Hp'. destruct (Hq id p' Hp') as (p & Hp & Hs). etrans; [done|by apply H6]. }
  - intros i c Hi. by eapply linked_peers; [apply (H2 i)|].
  - intros i c id p Hi Hl Hp Hc Ha. destruct (Hle _ _ Hp Hc) as (p0 & ? & ? & ? & _). eapply H3; eauto. congruence.
Qed.

Lemma peers_le_update peers id p p' :
  peers !! id = Some p ->
  (ps_connected p' = true -> ps_connected p = true /\ ps_active_socket p' = ps_active_socket p /\
     front_part p' = front_part p /\ payload <$> ps_outbound p' = payload <$> ps_outbound p) ->
  peers_le (<[id := p']> peers) peers.
Proof.
  intros Hid Hp id' q Hq Hc. apply lookup_insert_Some in Hq as [[<- <-]|[_ Hq]]; [|by exists q].
  destruct (Hp Hc) as (? & ? & ? & ?). by exists p.
Qed.

Lemma queues_le_update peers id p p' :
  peers !! id = Some p -> payload <$> ps_outbound p' = payload <$> ps_outbound p ->
  forall x q', <[id := p']> peers !! x = Some q' -> exists q, peers !! x = Some q /\
    (payload <$> ps_outbound q') `sublist_of` (payload <$> ps_outbound q).
Proof.
  intros Hid E x q' Hq. apply lookup_insert_Some in Hq as [[<- <-]|[_ Hq]]; [exists p|by exists q'].
  by rewrite E.
Qed.

(** The queue of a peer and the trace change; its connection stays. *)
Lemma streams_queue peers cs tr tr' made id p p' :
  streams_ok cfg peers cs tr made -> peers !! id = Some p ->
  ps_connected p' = ps_connected p -> ps_active_socket p' = ps_active_socket p ->
  (forall x, queued_for x tr `sublist_of` queued_for x tr') ->
  (forall i, log_ok cfg (conn_log i tr) tr -> log_ok cfg (conn_log i tr') tr) ->
  (forall c, linked cfg peers c (conn_log (cn_id c) tr) tr -> linked cfg peers c (conn_log (cn_id c) tr') tr) ->
  (forall c, ps_connected p = true ->
     writes (tl_max_frame_bytes (tc_limits cfg)) (own_handshake cfg c) id (conn_log (cn_id c) tr) (front_part p)
       (payload <$> ps_outbound p) (queued_for id tr) ->
     writes (tl_max_frame_bytes (tc_limits cfg)) (own_handshake cfg c) id (conn_log (cn_id c) tr') (front_part p')
       (payload <$> ps_outbound p') (queued_for id tr')) ->
  ((payload <$> ps_outbound p) `sublist_of` queued_for id tr -> (payload <$> ps_outbound p') `sublist_of` queued_for id tr') ->
  streams_ok cfg (<[id := p']> peers) cs tr' made.
Proof.
  intros [H1 H2 H3 H4 H5 H6] Hid Ec Ea Htr Hlog Hlink Hw Hq. constructor; [..|done|done|].
  4: { intros x q Hx. apply lookup_insert_Some in Hx as [[<- <-]|[_ Hx]]; [by apply Hq, H6|].
       etrans; [by apply H6|apply Htr]. }
  - intros i. apply (log_ok_mono _ tr); [auto|done].
  - intros i c Hi. pose proof (H2 i c Hi) as HL. pose proof (Hlink c HL) as HL'.
    destruct (linked_mono _ _ _ _ _ HL' Htr) as [L1 L2 L3]. constructor; [done..|].
    intros Hl q (Hq' & Hc & Ha). apply lookup_insert_Some in Hq' as [[Eid <-]|[Hne Hq']]; [|by apply L3].
    rewrite Ec in Hc. rewrite Ea in Ha. rewrite <- Eid. apply Hw; [done|]. rewrite Eid in *.
    by apply (lk_active _ _ _ _ _ HL Hl).
  - intros i c x q Hi Hl Hq' Hc Ha. apply lookup_insert_Some in Hq' as [[<- <-]|[Hne Hq']]; [|by eapply H3].
    eapply H3; eauto; congruence.
Qed.

(** A new frame in a queue. *)
Lemma streams_queued peers cs tr made id p p' f :
  streams_ok cfg peers cs tr made -> peers !! id = Some p ->
  ps_connected p' = ps_connected p -> ps_active_socket p' = ps_active_socket p ->
  ps_outbound p' = ps_outbound p ++ [mkOutboundFrame (wire_frame f) 0] ->
  streams_ok cfg (<[id := p']> peers) cs (tr ++ [io_queued id f]) made.
Proof.
  intros Hs Hid Ec Ea Eo. eapply streams_queue; try done.
  - intros x. apply queued_for_sublist.
  - intros i. by rewrite conn_log_snoc.
  - intros c. by rewrite conn_log_snoc.
  - intros c Hc Hw. rewrite conn_log_snoc. simpl. intros Hd. destruct (Hw Hd) as (fs & ? & Ew & Hq).
    exists fs. split_and!; [done| |].
    + rewrite Ew. unfold front_part. rewrite Eo. by destruct (ps_outbound p).
    + rewrite Eo, fmap_app, app_assoc, queued_for_snoc, bool_decide_true by done. simpl.
      rewrite payload_wire. by apply sublist_app.
  - intros Hq. rewrite Eo, fmap_app, queued_for_snoc, bool_decide_true by done. simpl. rewrite payload_wire.
    by apply sublist_app.
Qed.

(** A queue is emptied while none of its frames is half written. *)
Lemma streams_cleared peers cs tr made id p p' :
  streams_ok cfg peers cs tr made -> peers !! id = Some p -> partly_written p = false ->
  ps_connected p' = ps_connected p -> ps_active_socket p' = ps_active_socket p -> ps_outbound p' = [] ->
  streams_ok cfg (<[id := p']> peers) cs tr made.
Proof.
  intros Hs Hid Hp Ec Ea Eo. eapply streams_queue; try done; [|intros _; rewrite Eo; apply sublist_nil_l].
  intros c Hc Hw Hd. destruct (Hw Hd) as (fs & ? & Ew & Hq). exists fs. split_and!; [done| |].
  - rewrite Ew. unfold front_part, partly_written in *. rewrite Eo. destruct (ps_outbound p) as [|f q]; [done|].
    apply N.ltb_ge in Hp. replace (of_offset f) with 0 by lia. done.
  - rewrite Eo. simpl. rewrite app_nil_r. etrans; [|done]. by apply sublist_inserts_r.
Qed.

Definition drop_log (id : NodeId) (l : FdLog) : FdLog :=
  mkFdLog (fl_written l) (fl_read l) (fl_delivered l) (fl_dropped l ++ [id]).

Lemma writes_dropped limit own peer id l part q all :
  writes limit own peer l part q all -> writes limit own peer (drop_log id l) part q all.
Proof. intros Hw Hd. apply Hw. simpl in Hd. set_solver. Qed.

Lemma talk_dropped own remote id l rest tr :
  talk cfg own remote l rest tr -> talk cfg own remote (drop_log id l) rest tr.
Proof. intros [? ? ? (part & ? & Hw)]. constructor; [done..|]. exists part. split; [done|]. by apply writes_dropped. Qed.

Lemma log_dropped id l tr : log_ok cfg l tr -> log_ok cfg (drop_log id l) tr.
Proof.
  intros (own & ? & [?|(remote & rest & ?)]); exists own; (split; [done|]); [by left|].
  right. exists remote, rest. by apply talk_dropped.
Qed.

Lemma linked_dropped peers c id l tr : linked cfg peers c l tr -> linked cfg peers c (drop_log id l) tr.
Proof.
  intros [H1 H2 H3]. constructor; [done| |].
  - intros Hp. destruct (H2 Hp) as (remote & ? & ?). exists remote. split; [done|]. by apply talk_dropped.
  - intros Hl p Hp. by apply writes_dropped, H3.
Qed.

Lemma queued_for_other id tr e :
  (forall id' f, e <> io_queued id' f) -> queued_for id (tr ++ [e]) = queued_for id tr.
Proof. intros He. rewrite queued_for_app. destruct e; simpl; rewrite ?app_nil_r; try done. by destruct (He peer frame). Qed.

(** A frame that is half written is thrown away. *)
Lemma streams_dropped peers cs tr made id p p' :
  streams_ok cfg peers cs tr made -> peers !! id = Some p ->
  ps_connected p' = ps_connected p -> ps_active_socket p' = ps_active_socket p -> ps_outbound p' = [] ->
  streams_ok cfg (<[id := p']> peers) cs (tr ++ [io_dropped id]) made.
Proof.
  intros Hs Hid Ec Ea Eo. eapply streams_queue; try done.
  - intros x. by rewrite queued_for_other.
  - intros i. rewrite conn_log_snoc. apply log_dropped.
  - intros c. rewrite conn_log_snoc. apply linked_dropped.
  - intros c Hc Hw. rewrite conn_log_snoc. intros Hd. destruct Hd. simpl. set_solver.
  - intros _. rewrite Eo. apply sublist_nil_l.
Qed.

End streams.

(** ** The calls of the owner *)

Section owner.
Context {O : Type} `{!Sockets O} {HL : SocketLaws O}.
Abbreviation Impl := (TcpTransport.Impl O).
Implicit Types (s : Impl) (cfg : TcpTransportConfig).

(** Changes to flags, the clock and the like. *)
Lemma core_same cfg s s' :
  core cfg s -> im_config s' = im_config s -> im_peers s' = im_peers s ->
  im_total_queued_bytes s' = im_total_queued_bytes s -> im_events s' = im_events s ->
  im_inbound_event_bytes s' = im_inbound_event_bytes s -> im_connections s' = im_connections s ->
  os_open (im_os s') = os_open (im_os s) -> im_trace s' = im_trace s -> im_made s' = im_made s ->
  im_next_nonce s' = im_next_nonce s -> core cfg s'.
Proof.
  intros [] E1 E2 E3 E4 E5 E6 E7 E8 E9 E10.
  constructor; rewrite ?E1, ?E2, ?E3, ?E4, ?E5, ?E6, ?E7, ?E8, ?E9, ?E10; done.
Qed.

(** The peers keep their connections. *)
Lemma good_core cfg s s' :
  good cfg s -> core cfg s' -> active_of (im_peers s') = active_of (im_peers s) ->
  im_connections s' = im_connections s -> good cfg s'.
Proof. intros [_ Hs] Hc Ea Ec. constructor; [done|]. by rewrite Ea, Ec. Qed.

(** A peer whose connection stays as it is. *)
Lemma active_update peers id p p' :
  peers !! id = Some p -> ps_connected p' = ps_connected p -> ps_active_socket p' = ps_active_socket p ->
  active_of (<[id := p']> peers) = active_of peers.
Proof.
  intros Hid Ec Ea. unfold active_of. rewrite fmap_insert, Ec, Ea. apply insert_id. by rewrite lookup_fmap, Hid.
Qed.

Lemma dom_update (peers : gmap N PeerState) id p p' : peers !! id = Some p -> dom (<[id := p']> peers) = dom peers.
Proof. intros Hid. apply dom_insert_lookup_L. by exists p. Qed.

Lemma zero_update (peers : gmap N PeerState) id p p' :
  peers !! 0 = None -> peers !! id = Some p -> <[id := p']> peers !! 0 = None.
Proof. intros H0 Hid. rewrite lookup_insert_ne; [done|]. by intros ->; rewrite H0 in Hid. Qed.

Lemma core_events cfg s es bytes :
  core cfg s -> events_ok (tc_limits cfg) es bytes -> noted es (im_trace s) (im_made s) ->
  core cfg (set_im_inbound_event_bytes bytes (set_im_events es s)).
Proof. intros [] He Hn. by constructor. Qed.

Lemma push_event_core cfg s e : core cfg s -> ev_bytes e = [] /\ ev_kind e <> tcp_message -> core cfg (push_event e s).
Proof.
  intros Hg [He Hk]. unfold push_event, events_full, limits. rewrite (gd_config _ _ Hg).
  destruct (N.leb_spec (tl_max_inbound_events (tc_limits cfg)) (N.of_nat (length (im_events s)))); [done|].
  pose proof (gd_events _ _ Hg) as Hev. destruct Hg. constructor; simpl; try done.
  - by apply events_push.
  - by apply noted_snoc.
Qed.

Lemma push_event_rest e s :
  im_peers (push_event e s) = im_peers s /\ im_connections (push_event e s) = im_connections s.
Proof. unfold push_event. by destruct (events_full s). Qed.

Lemma push_event_good cfg s e : good cfg s -> ev_bytes e = [] /\ ev_kind e <> tcp_message -> good cfg (push_event e s).
Proof.
  intros Hg He. destruct (push_event_rest e s) as [Ep Ec]. eapply good_core; [done|by apply push_event_core; [apply Hg|]| |done].
  by rewrite Ep.
Qed.

(** ** [send] *)

Definition refuses (r : TcpSendResult) : Prop := tr_status r <> tcp_queued.

(** Either nothing changes, or the frame is queued. *)
Lemma send_cases id f s :
  (refuses (send id f s).1 /\ (send id f s).2 = s) \/
  exists p, im_peers s !! id = Some p /\ ps_connected p = true /\ ps_partitioned p = false /\
    0 < blen f <= tl_max_frame_bytes (limits s) /\
    kLengthPrefixBytes + blen f <= tl_max_outbound_bytes_per_peer (limits s) /\
    kLengthPrefixBytes + blen f <= tl_max_total_outbound_bytes (limits s) /\
    ps_queued_bytes p <= sub64 (tl_max_outbound_bytes_per_peer (limits s)) (kLengthPrefixBytes + blen f) /\
    im_total_queued_bytes s <= sub64 (tl_max_total_outbound_bytes (limits s)) (kLengthPrefixBytes + blen f) /\
    send id f s =
      let n := kLengthPrefixBytes + blen f in
      let p' := set_ps_queued_bytes (add64 (ps_queued_bytes p) n)
                  (set_ps_outbound (ps_outbound p ++ [mkOutboundFrame (wire_frame f) 0]) p) in
      (mkTcpSendResult tcp_queued tcp_none (add64 (ps_queued_bytes p) n),
       note (io_queued id f) (set_im_total_queued_bytes (add64 (im_total_queued_bytes s) n) (set_peer id p' s))).
Proof.
  unfold send.
  destruct (N.eqb_spec (blen f) 0); [by left|].
  destruct (N.ltb_spec (tl_max_frame_bytes (limits s)) (blen f)); [by left|].
  destruct (N.ltb_spec u32_max (blen f)); [by left|]. cbn [orb].
  destruct (im_peers s !! id) as [p|] eqn:Hp; [|by left].
  destruct (im_fatal_error s); [by left|]. destruct (ps_partitioned p) eqn:Hpart; [by left|].
  destruct (im_running s); [|by left]. destruct (ps_connected p) eqn:Hc; [|by left]. cbn [negb orb].
  destruct (N.ltb_spec (tl_max_outbound_bytes_per_peer (limits s)) (kLengthPrefixBytes + blen f)); [by left|].
  destruct (N.ltb_spec (tl_max_total_outbound_bytes (limits s)) (kLengthPrefixBytes + blen f)); [by left|].
  destruct (N.ltb_spec (sub64 (tl_max_outbound_bytes_per_peer (limits s)) (kLengthPrefixBytes + blen f)) (ps_queued_bytes p));
    [by left|].
  destruct (N.ltb_spec (sub64 (tl_max_total_outbound_bytes (limits s)) (kLengthPrefixBytes + blen f))
              (im_total_queued_bytes s)); [by left|].
  right. exists p. split_and!; try done; lia.
Qed.

Lemma send_core cfg id f s :
  config_ok cfg -> core cfg s -> bytes_ok f -> core cfg (send id f s).2.
Proof.
  intros Hcfg Hg Hf. destruct (send_cases id f s) as [[_ ->]|(p & Hp & Hc & _ & Hb & H1 & H2 & H3 & H4 & ->)]; [done|].
  unfold limits in *. rewrite (gd_config _ _ Hg) in *. destruct Hcfg as [_ Hu1 Hu2 _ _].
  unfold kLengthPrefixBytes in *. rewrite sub64_small in H3, H4 by lia. cbn [snd fst].
  destruct Hg. constructor; simpl; try done.
    + apply queues_push; try done; [|cbn [of_wire_bytes]; by rewrite wire_frame_blen|lia|lia].
      split; [cbn [of_wire_bytes]; by rewrite payload_wire|]. rewrite payload_wire. by split.
    + by apply noted_mono.
    + by erewrite dom_update.
    + by eapply streams_queued.
    + by erewrite dom_update.
    + by eapply zero_update.
Qed.

(** ** [poll] and [set_peer_partitioned] *)

Lemma poll_core cfg n s :
  config_ok cfg -> core cfg s -> core cfg (poll n s).2.
Proof.
  intros Hcfg Hg. unfold poll. cbn [snd]. apply core_events; [done|..].
  - apply events_drop; [by apply Hcfg|apply Hg].
  - apply Forall_drop, Hg.
Qed.

Lemma partition_core cfg id b s :
  config_ok cfg -> core cfg s -> core cfg (set_peer_partitioned id b s).2.
Proof.
  intros Hcfg Hg. unfold set_peer_partitioned. destruct (im_peers s !! id) as [p|] eqn:Hp; [|done].
  destruct (Bool.eqb (ps_partitioned p) b); [done|].
  pose proof (qo_peers _ _ _ (gd_queues _ _ Hg) _ _ Hp) as Hok. destruct b; cbn [negb snd].
  - unfold drop_messages.
    apply core_events; [|apply events_filter; [by apply Hcfg|]; simpl; destruct (partly_written p); apply Hg|].
    2: { apply noted_filter. simpl. destruct (partly_written p); [apply noted_mono; [apply Hg|done]|apply Hg]. }
    pose proof Hg as []. destruct (partly_written p) eqn:Hpart; constructor; simpl; try done;
      try first [by erewrite dom_update|by eapply zero_update|by apply noted_mono].
    + eapply queues_clear; [done|done|done|done|apply Hcfg].
    + by eapply streams_dropped.
    + eapply queues_clear; [done|done|done|done|apply Hcfg].
    + by eapply streams_cleared.
  - pose proof Hg as []. constructor; simpl; try done;
      try first [by erewrite dom_update|by eapply zero_update].
    + eapply queues_update; [done..| |done]. by apply (peer_ok_flags _ p).
    + eapply streams_peers; [done| |by eapply queues_le_update]. eapply peers_le_update; [done|]. by intros ?.
Qed.

(** ** The calls leave the connections alone *)

Lemma send_still id f s :
  active_of (im_peers (send id f s).2) = active_of (im_peers s) /\ im_connections (send id f s).2 = im_connections s.
Proof.
  destruct (send_cases id f s) as [[_ ->]|(p & Hp & _ & _ & _ & _ & _ & _ & _ & ->)]; [done|].
  split; [|done]. simpl. by eapply active_update.
Qed.

Lemma partition_still id b s :
  active_of (im_peers (set_peer_partitioned id b s).2) = active_of (im_peers s) /\
  im_connections (set_peer_partitioned id b s).2 = im_connections s.
Proof.
  unfold set_peer_partitioned. destruct (im_peers s !! id) as [p|] eqn:Hp; [|done].
  destruct (Bool.eqb (ps_partitioned p) b); [done|]. destruct b; cbn [negb snd].
  - destruct (partly_written p); simpl; (split; [|done]); by eapply active_update.
  - simpl. split; [|done]. by eapply active_update.
Qed.

Lemma send_good cfg id f s : config_ok cfg -> good cfg s -> bytes_ok f -> good cfg (send id f s).2.
Proof. intros Hcfg Hg Hf. destruct (send_still id f s). eapply good_core; eauto. by apply send_core; [|apply Hg|]. Qed.

Lemma poll_good cfg n s : config_ok cfg -> good cfg s -> good cfg (poll n s).2.
Proof. intros Hcfg Hg. eapply good_core; [done|by apply poll_core; [|apply Hg]|done|done]. Qed.

Lemma partition_good cfg id b s : config_ok cfg -> good cfg s -> good cfg (set_peer_partitioned id b s).2.
Proof.
  intros Hcfg Hg. destruct (partition_still id b s). eapply good_core; eauto. by apply partition_core; [|apply Hg].
Qed.

(** ** [start] and [stop] *)

Lemma resolve_open a n b (o : O) : os_open (resolve_ipv4 a n b o).2 = os_open o.
Proof.
  unfold resolve_ipv4. destruct (os_inet_pton _) as [x|].
  - by destruct (negb b && negb (is_loopback x)).
  - pose proof (law_open_getaddrinfo (if String.eqb a "localhost" then "127.0.0.1"%string else a) o) as E.
    destruct (os_getaddrinfo _ o) as [[x|] o']; [|done]. by destruct (negb b && negb (is_loopback x)).
Qed.

End owner.
