(* ===== verification/TcpConns.v ===== *)
(** * TcpConns: how connections change

    The invariant under a change to one connection, its end, a new connection, and
    bytes or frames that pass through a socket; then the actions that make
    connections. *)

From S2P Require Import Prelude Model StateMachine Bytes TcpTypes TcpWire TcpTransport TcpLoop TcpInv TcpFrames.
#[local] Open Scope N_scope.

(** Removing elements of a list leaves those distinct that were. *)
Lemma filter_distinct {A B} (f : A -> B) (P : A -> Prop) (b : A -> bool) (l : list A) :
  (forall i j x y, l !! i = Some x -> l !! j = Some y -> P x -> f x = f y -> i = j) ->
  forall i j x y, List.filter b l !! i = Some x -> List.filter b l !! j = Some y -> P x -> f x = f y -> i = j.
Proof.
  induction l as [|c l IH]; intros Hd; [done|].
  assert (Hd' : forall i j x y, l !! i = Some x -> l !! j = Some y -> P x -> f x = f y -> i = j).
  { intros i j x y Hi Hj Hl E. by pose proof (Hd (S i) (S j) x y Hi Hj Hl E) as [= ?]. }
  assert (Hin : forall i d, List.filter b l !! i = Some d -> exists j, l !! j = Some d).
  { intros i d Hi. apply list_elem_of_lookup_2, list_elem_of_In, filter_In in Hi as [Hi _].
    by apply list_elem_of_In, list_elem_of_lookup in Hi. }
  simpl. destruct (b c); [|by apply IH]. intros [|i] [|j] x y Hi Hj Hl E; simpl in Hi, Hj; [done|..].
  - apply Hin in Hj as (k & Hk). simplify_eq. by pose proof (Hd 0%nat (S k) x y eq_refl Hk Hl E).
  - apply Hin in Hi as (k & Hk). simplify_eq. by pose proof (Hd (S k) 0%nat x y Hk eq_refl Hl E).
  - f_equal. by eapply IH.
Qed.

Section conns.
Context (cfg : TcpTransportConfig).
Implicit Types (peers : gmap N PeerState) (cs : list Connection) (tr : list Io) (c d : Connection).

(** ** Well-formed connections *)

Lemma conns_at ids cs open i c : conns_ok cfg ids cs open -> cs !! i = Some c -> conn_ok cfg ids open c.
Proof. intros [He _ _] Hi. by eapply Forall_lookup_1. Qed.

Lemma conns_update ids cs open i c c' :
  conns_ok cfg ids cs open -> cs !! i = Some c -> conn_ok cfg ids open c' -> cn_socket c' = cn_socket c ->
  conns_ok cfg ids (<[i := c']> cs) open.
Proof.
  intros [He Hd Hn] Hi Hc' Es. constructor; [by apply Forall_insert| |by rewrite length_insert].
  intros j k x y Hj Hk Hl Exy.
  apply list_lookup_insert_Some in Hj as [(<- & <- & _)|[? Hj]];
    apply list_lookup_insert_Some in Hk as [(<- & <- & _)|[? Hk]]; [done|..].
  - unfold live in Hl. rewrite Es in *. by eapply Hd.
  - rewrite Es in Exy. by eapply Hd.
  - by eapply Hd.
Qed.

Lemma conn_ok_open ids open open' c :
  conn_ok cfg ids open c -> (live c -> cn_socket c ∈ open -> cn_socket c ∈ open') -> conn_ok cfg ids open' c.
Proof. intros [] Ho. constructor; auto. Qed.

Definition closed c : Connection := set_cn_socket kInvalidSocket c.

Lemma closed_dead c : ~ live (closed c).
Proof. intros Hl. by apply Hl. Qed.

Lemma conns_close ids cs open i c :
  conns_ok cfg ids cs open -> cs !! i = Some c -> conns_ok cfg ids (<[i := closed c]> cs) (open ∖ {[cn_socket c]}).
Proof.
  intros Hok Hi. pose proof Hok as [He Hd Hn]. constructor; [| |by rewrite length_insert].
  - apply Forall_lookup. intros j d Hj. apply list_lookup_insert_Some in Hj as [(<- & <- & _)|[Hne Hj]].
    + destruct (conns_at _ _ _ _ _ Hok Hi). by constructor.
    + eapply conn_ok_open; [by eapply conns_at|]. intros Hl Ho. apply elem_of_difference. split; [done|].
      rewrite elem_of_singleton. intros E. apply Hne. symmetry. by eapply Hd.
  - intros j k x y Hj Hk Hl Exy.
    apply list_lookup_insert_Some in Hj as [(<- & <- & _)|[? Hj]]; [by destruct (closed_dead c)|].
    apply list_lookup_insert_Some in Hk as [(<- & <- & _)|[? Hk]]; [|by eapply Hd].
    by destruct Hl.
Qed.

(** A connection whose socket was closed before. *)
Lemma conns_close_dead ids cs open i c :
  conns_ok cfg ids cs open -> cs !! i = Some c -> ~ live c -> conns_ok cfg ids (<[i := closed c]> cs) open.
Proof.
  intros Hok Hi Hl. assert (E : closed c = c).
  { unfold live in Hl. destruct (decide (cn_socket c = kInvalidSocket)) as [E|]; [|done].
    unfold closed. destruct c. simpl in *. by subst. }
  rewrite E. by rewrite list_insert_id.
Qed.

(** A socket that no connection uses. *)
Definition unused (fd : Z) cs : Prop := forall i c, cs !! i = Some c -> live c -> cn_socket c <> fd.

Lemma fresh_unused ids cs open fd : conns_ok cfg ids cs open -> fd ∉ open -> unused fd cs.
Proof. intros Hok Hfd i c Hi Hl E. apply Hfd. rewrite <- E. by apply (conns_at _ _ _ _ _ Hok Hi). Qed.

Lemma conns_append ids cs open fd c :
  conns_ok cfg ids cs open -> unused fd cs -> cn_socket c = fd ->
  N.of_nat (length cs) < tl_max_pending_connections (tc_limits cfg) ->
  conn_ok cfg ids open c -> conns_ok cfg ids (cs ++ [c]) open.
Proof.
  intros Hok Hfd Ec Hlt Hc. pose proof Hok as [He Hd Hn].
  constructor; [|..|rewrite length_app; simpl; lia].
  - by apply Forall_app_2, Forall_singleton.
  - intros j k x y Hj Hk Hl Exy.
    apply lookup_snoc_Some in Hj as [[Hj1 Hj]|[-> ->]]; apply lookup_snoc_Some in Hk as [[Hk1 Hk]|[-> ->]]; [by eapply Hd|..].
    + destruct (Hfd _ _ Hj Hl). congruence.
    + destruct (Hfd _ _ Hk); [|congruence]. unfold live in *. congruence.
    + done.
Qed.

(** Closing such a socket. *)
Lemma conns_unopen ids cs open fd :
  conns_ok cfg ids cs open -> unused fd cs -> conns_ok cfg ids cs (open ∖ {[fd]}).
Proof.
  intros Hok Hfd. pose proof Hok as [He Hd Hn]. constructor; [|done|done]. apply Forall_lookup. intros i c Hi.
  eapply conn_ok_open; [by eapply conns_at|]. intros Hl Ho. apply elem_of_difference. split; [done|].
  rewrite elem_of_singleton. by apply (Hfd i).
Qed.

Lemma conns_open_mono ids cs open open' :
  conns_ok cfg ids cs open -> (forall fd, fd ∈ open -> fd ∈ open') -> conns_ok cfg ids cs open'.
Proof.
  intros [He Hd Hn] Ho. constructor; [|done|done]. eapply Forall_impl; [exact He|].
  intros c Hc. eapply conn_ok_open; [done|]. auto.
Qed.

Lemma conns_filter ids cs open (b : Connection -> bool) :
  conns_ok cfg ids cs open -> conns_ok cfg ids (List.filter b cs) open.
Proof.
  intros [He Hd Hn]. constructor.
  - clear Hd Hn. induction He as [|c cs Hc He IH]; simpl; [constructor|]. destruct (b c); [by constructor|done].
  - intros i j c d Hi Hj Hl E. by eapply (filter_distinct cn_socket live b cs).
  - assert (length (List.filter b cs) <= length cs)%nat; [|lia]. clear. induction cs as [|c cs IH]; [done|].
    simpl. destruct (b c); simpl; lia.
Qed.

(** ** Settled peers *)

Lemma settled_update active cs i c c' :
  settled active cs -> cs !! i = Some c -> cn_socket c' = cn_socket c ->
  (cn_phase c = ph_established -> cn_peer c' = cn_peer c /\ cn_phase c' = ph_established) ->
  settled active (<[i := c']> cs).
Proof.
  intros Hs Hi Es Hp id fd Ha. destruct (Hs id fd Ha) as (j & d & Hj & Efd & Hl & Ep & Eph).
  destruct (decide (i = j)) as [<-|Hne].
  - rewrite Hi in Hj. injection Hj as <-. destruct (Hp Eph) as [Ep' Eph'].
    exists i, c'. unfold live in *. rewrite Es. split_and!; try congruence.
    apply list_lookup_insert_eq. by eapply lookup_lt_Some.
  - exists j, d. by rewrite list_lookup_insert_ne.
Qed.

Lemma settled_close active cs i c :
  settled active cs -> cs !! i = Some c ->
  (cn_phase c = ph_established -> live c -> active !! cn_peer c <> Some (true, cn_socket c)) ->
  settled active (<[i := closed c]> cs).
Proof.
  intros Hs Hi Hno id fd Ha. destruct (Hs id fd Ha) as (j & d & Hj & Efd & Hl & Ep & Eph).
  destruct (decide (i = j)) as [<-|Hne]; [|by exists j, d; rewrite list_lookup_insert_ne].
  rewrite Hi in Hj. injection Hj as <-. destruct (Hno Eph Hl). congruence.
Qed.

Lemma settled_append active cs c : settled active cs -> settled active (cs ++ [c]).
Proof.
  intros Hs id fd Ha. destruct (Hs id fd Ha) as (j & d & Hj & ?). exists j, d. split; [|done].
  by apply lookup_app_l_Some.
Qed.

Lemma settled_filter active cs : 
  settled active cs -> settled active (List.filter (fun c => negb (cn_socket c =? kInvalidSocket)%Z) cs).
Proof.
  intros Hs id fd Ha. destruct (Hs id fd Ha) as (j & d & Hj & Efd & Hl & ?).
  assert (Hin : d ∈ List.filter (fun c => negb (cn_socket c =? kInvalidSocket)%Z) cs).
  { apply list_elem_of_In, filter_In. split; [by apply list_elem_of_In, list_elem_of_lookup_2 with j|].
    apply negb_true_iff, Z.eqb_neq. done. }
  apply list_elem_of_lookup in Hin as (k & Hk). exists k, d. done.
Qed.

End conns.

Section streams.
Context (cfg : TcpTransportConfig) (Hcfg : config_ok cfg).
Implicit Types (peers : gmap N PeerState) (cs : list Connection) (tr : list Io) (c d : Connection).

Lemma own_fits c : u64 (cn_local_nonce c) -> is_own cfg (own_handshake cfg c).
Proof.
  intros Hn. split_and!; [done..|]. destruct Hcfg as [_ _ _ _ (? & ? & ? & ? & _)]. by split_and!.
Qed.

(** What a connection says of its log holds of the log when the connection is gone. *)
Lemma linked_log ids open peers c l tr :
  conn_ok cfg ids open c -> linked cfg peers c l tr -> log_ok cfg l tr.
Proof.
  intros Hok [L1 L2 _]. exists (own_handshake cfg c). split; [apply own_fits, Hok|].
  destruct (decide (cn_phase c = ph_established)) as [E|E].
  - right. destruct (L2 E) as (remote & _ & Ht). by exists remote, (cn_inbound c).
  - left. destruct (L1 E) as (-> & _ & -> & _). split; [|done]. rewrite (co_local _ _ _ _ Hok). apply prefix_take.
Qed.

Lemma blank_log_ok tr : log_ok cfg new_log tr.
Proof.
  exists (mkHandshake (tc_identity cfg) (tc_incarnation cfg) 0 false). split; [by split_and!; try apply Hcfg|].
  left. split; [apply prefix_nil|done].
Qed.

(** No peer uses a socket whose connection is not established. *)
Lemma not_adopted ids open peers cs i c p :
  conns_ok cfg ids cs open -> settled (active_of peers) cs -> cs !! i = Some c -> live c ->
  cn_phase c <> ph_established -> forall id, peers !! id = Some p -> ps_connected p = true ->
  ps_active_socket p <> cn_socket c.
Proof.
  intros Hok Hs Hi Hl Hph id Hp Hc Ha. destruct (Hs id (cn_socket c)) as (j & d & Hj & E & Hd & _ & Hest).
  { unfold active_of. by rewrite lookup_fmap, Hp; simpl; rewrite Hc, Ha. }
  rewrite (cs_distinct _ _ _ _ Hok j i d c Hj Hi Hd E) in Hj. congruence.
Qed.

(** The event [e] passes through connection [id] only. *)
Definition passes (e : Io) (id : N) : Prop :=
  (forall id' l, id' <> id -> log_event id' l e = l) /\ (forall id' f, e <> io_queued id' f) /\ (forall k, e <> io_opened k).

(** The identity and the socket of a connection stay. *)
Record same_conn c c' : Prop := {
  sc_id : cn_id c' = cn_id c;
  sc_socket : cn_socket c' = cn_socket c;
  sc_peer : cn_peer c' = cn_peer c;
}.

Lemma ids_update cs i c c' :
  (forall i j c d, cs !! i = Some c -> cs !! j = Some d -> cn_id c = cn_id d -> i = j) -> cs !! i = Some c ->
  cn_id c' = cn_id c ->
  forall j k d e, <[i := c']> cs !! j = Some d -> <[i := c']> cs !! k = Some e -> cn_id d = cn_id e -> j = k.
Proof.
  intros Hd Hi Ei j k d e Hj Hk E.
  apply list_lookup_insert_Some in Hj as [(<- & <- & _)|[? Hj]];
    apply list_lookup_insert_Some in Hk as [(<- & <- & _)|[? Hk]]; [done|..]; eapply Hd; eauto; congruence.
Qed.

Lemma streams_pass ids open peers cs tr made i c c' e :
  streams_ok cfg peers cs tr made -> cs !! i = Some c -> same_conn c c' -> conn_ok cfg ids open c' ->
  passes e (cn_id c) -> linked cfg peers c' (log_event (cn_id c) (conn_log (cn_id c) tr) e) tr ->
  streams_ok cfg peers (<[i := c']> cs) (tr ++ [e]) made.
Proof.
  intros [H1 H2 H3 H4 H5 H6] Hi [Ei Es Ep] Hc' [He [Hq _]] Hlk.
  assert (Htr : forall x, queued_for x tr `sublist_of` queued_for x (tr ++ [e]))
    by (intros x; by rewrite queued_for_other).
  constructor.
  - intros id. rewrite conn_log_snoc. apply (log_ok_mono cfg _ tr); [|done].
    destruct (decide (id = cn_id c)) as [->|Hne]; [by eapply linked_log|]. by rewrite He.
  - intros j d Hj. apply (linked_mono cfg _ _ _ tr); [|done]. rewrite conn_log_snoc.
    apply list_lookup_insert_Some in Hj as [(<- & <- & _)|[Hne Hj]]; [by rewrite Ei|].
    rewrite He; [by eapply H2|]. intros E. apply Hne. symmetry. by eapply H4.
  - intros j d id p Hj Hd Hp Hc Ha. apply list_lookup_insert_Some in Hj as [(<- & <- & _)|[Hne Hj]]; [|by eapply H3].
    rewrite Ep. unfold live in Hd. rewrite Es in *. by eapply H3.
  - by eapply ids_update.
  - apply Forall_insert; [done|]. rewrite Ei. by apply (Forall_lookup_1 _ _ _ _ H5 Hi).
  - intros x q Hq'. etrans; [by apply H6|apply Htr].
Qed.

(** A connection changes without any traffic. *)
Lemma streams_update peers cs tr made i c c' :
  streams_ok cfg peers cs tr made -> cs !! i = Some c -> cn_socket c' = cn_socket c -> cn_id c' = cn_id c ->
  linked cfg peers c' (conn_log (cn_id c) tr) tr ->
  (live c -> cn_peer c' = cn_peer c \/
     forall id p, peers !! id = Some p -> ps_connected p = true -> ps_active_socket p <> cn_socket c) ->
  streams_ok cfg peers (<[i := c']> cs) tr made.
Proof.
  intros [H1 H2 H3 H4 H5 H6] Hi Es Ei Hlk Hag. constructor; [done|..].
  - intros j d Hj. apply list_lookup_insert_Some in Hj as [(<- & <- & _)|[Hne Hj]]; [by rewrite Ei|by eapply H2].
  - intros j d id p Hj Hd Hp Hc Ha. apply list_lookup_insert_Some in Hj as [(<- & <- & _)|[Hne Hj]]; [|by eapply H3].
    unfold live in Hd. rewrite Es in *. destruct (Hag Hd) as [->|Hno]; [by eapply H3|]. by destruct (Hno id p).
  - by eapply ids_update.
  - apply Forall_insert; [done|]. rewrite Ei. by apply (Forall_lookup_1 _ _ _ _ H5 Hi).
  - done.
Qed.

Lemma streams_close peers cs tr made i c :
  streams_ok cfg peers cs tr made -> cs !! i = Some c -> streams_ok cfg peers (<[i := closed c]> cs) tr made.
Proof.
  intros [H1 H2 H3 H4 H5 H6] Hi. constructor; [done|..].
  - intros j d Hj. apply list_lookup_insert_Some in Hj as [(<- & <- & _)|[Hne Hj]]; [|by eapply H2].
    destruct (H2 i c Hi) as [L1 L2 L3]. constructor; [done|done|]. intros Hl. by destruct (closed_dead c).
  - intros j d id p Hj Hd. apply list_lookup_insert_Some in Hj as [(<- & <- & _)|[Hne Hj]]; [|by eapply H3].
    by destruct (closed_dead c).
  - by eapply ids_update.
  - apply Forall_insert; [done|]. by apply (Forall_lookup_1 _ _ _ _ H5 Hi).
  - done.
Qed.

(** A new connection. *)
Lemma streams_append peers cs tr made c :
  streams_ok cfg peers cs tr made -> cn_id c = made -> cn_phase c <> ph_established ->
  cn_handshake_sent c = 0 -> cn_handshake_received c = 0 -> cn_inbound c = [] -> cn_peer c = 0 -> peers !! 0 = None ->
  (forall id p, peers !! id = Some p -> ps_connected p = true -> ps_active_socket p <> cn_socket c) ->
  streams_ok cfg peers (cs ++ [c]) (tr ++ [io_opened made]) (made + 1).
Proof.
  intros [H1 H2 H3 H4 H5 H6] Ei Hph E1 E2 E3 E4 H0 Hno.
  assert (Htr : forall x, queued_for x tr `sublist_of` queued_for x (tr ++ [io_opened made]))
    by (intros x; by rewrite queued_for_other).
  assert (Hne : forall j d, cs !! j = Some d -> cn_id d <> made).
  { intros j d Hj. apply (Forall_lookup_1 _ _ _ _ H5) in Hj. lia. }
  constructor.
  - intros id. rewrite conn_log_snoc. simpl. case_bool_decide; [apply blank_log_ok|]. by eapply log_ok_mono.
  - intros j d Hj. rewrite conn_log_snoc. simpl. apply lookup_snoc_Some in Hj as [[_ Hj]|[-> ->]].
    + rewrite bool_decide_false by (apply Hne in Hj; congruence). by eapply linked_mono; [eapply H2|].
    + rewrite bool_decide_true by done. constructor; [intros _; by rewrite E1, E2|done|].
      intros _ p (Hp & _). by rewrite E4, H0 in Hp.
  - intros j d id p Hj Hd Hp Hc Ha. apply lookup_snoc_Some in Hj as [[_ Hj]|[-> ->]]; [by eapply H3|]. by destruct (Hno id p).
  - intros j k d e Hj Hk E. apply lookup_snoc_Some in Hj as [[_ Hj]|[-> ->]];
      apply lookup_snoc_Some in Hk as [[_ Hk]|[-> ->]]; [by eapply H4|..|done].
    + destruct (Hne _ _ Hj). congruence.
    + destruct (Hne _ _ Hk). congruence.
  - apply Forall_app_2; [|apply Forall_singleton; lia]. eapply Forall_impl; [exact H5|]. intros d ?. simpl in *. lia.
  - intros x q Hq'. etrans; [by apply H6|apply Htr].
Qed.

Lemma streams_filter peers cs tr made (b : Connection -> bool) :
  streams_ok cfg peers cs tr made -> streams_ok cfg peers (List.filter b cs) tr made.
Proof.
  intros [H1 H2 H3 H4 H5 H6]. assert (Hin : forall i d, List.filter b cs !! i = Some d -> exists j, cs !! j = Some d).
  { intros i d Hi. apply list_elem_of_lookup_2, list_elem_of_In, filter_In in Hi as [Hi _].
    by apply list_elem_of_In, list_elem_of_lookup in Hi. }
  constructor; [done|..].
  - intros i c Hi. apply Hin in Hi as (j & Hj). by eapply H2.
  - intros i c id p Hi Hl Hp. apply Hin in Hi as (j & Hj). by eapply H3.
  - intros i j c d Hi Hj E. eapply (filter_distinct cn_id (fun _ => True) b cs); eauto.
  - apply Forall_lookup. intros i c Hi. apply Hin in Hi as (j & Hj). by apply (Forall_lookup_1 _ _ _ _ H5 Hj).
  - done.
Qed.

End streams.

(** ** Actions of the I/O thread *)

Section acts.
Context {O : Type} `{!Sockets O} {HL : SocketLaws O} (cfg : TcpTransportConfig) (Hcfg : config_ok cfg).
Abbreviation Impl := (TcpTransport.Impl O).
Implicit Types (s : Impl) (i : nat) (c : Connection) (p : PeerState).

Lemma conn_at s i c : im_connections s !! i = Some c -> conn s i = c.
Proof. intros Hi. by apply list_lookup_total_correct. Qed.

Lemma set_conn_at s i c c' : im_connections s !! i = Some c -> conn (set_conn i c' s) i = c'.
Proof. intros Hi. apply conn_at. simpl. apply list_lookup_insert_eq. by eapply lookup_lt_Some. Qed.

(** ** Small changes *)

Lemma core_os s o :
  core cfg s -> (forall fd, fd ∈ os_open (im_os s) -> fd ∈ os_open o) -> core cfg (set_im_os o s).
Proof. intros [] Ho. constructor; simpl; try done. by eapply conns_open_mono. Qed.

Lemma good_os s o :
  good cfg s -> (forall fd, fd ∈ os_open (im_os s) -> fd ∈ os_open o) -> good cfg (set_im_os o s).
Proof. intros Hg Ho. eapply good_core; [done|by apply core_os; [apply Hg|]|done|done]. Qed.

(** A peer changes, but not its queue and connection. *)
Lemma core_peer s id p p' :
  core cfg s -> im_peers s !! id = Some p -> ps_outbound p' = ps_outbound p -> ps_queued_bytes p' = ps_queued_bytes p ->
  ps_connected p' = ps_connected p -> ps_active_socket p' = ps_active_socket p -> core cfg (set_peer id p' s).
Proof.
  intros Hg Hp E1 E2 E3 E4. pose proof (qo_peers _ _ _ (gd_queues _ _ Hg) _ _ Hp) as Hok. destruct Hg.
  constructor; simpl; try done; try first [by erewrite dom_update|by eapply zero_update].
  - eapply queues_update; [done..| |done]. by apply (peer_ok_flags _ p).
  - eapply streams_peers; [done| |].
    + eapply peers_le_update; [done|]. unfold front_part. rewrite E1, E3, E4. by intros ->.
    + eapply queues_le_update; [done|]. by rewrite E1.
Qed.

Lemma delay_attempt_good s id time : good cfg s -> good cfg (delay_attempt id time s).
Proof.
  intros Hg. unfold delay_attempt. destruct (im_peers s !! id) as [p|] eqn:Hp; [|done].
  eapply good_core; [done|by eapply core_peer; [apply Hg|..]| |done]. simpl. by eapply active_update.
Qed.

Lemma delay_attempt_rest s id time : im_connections (delay_attempt id time s) = im_connections s.
Proof. unfold delay_attempt. by destruct (im_peers s !! id). Qed.

Lemma nonce_good s : good cfg s -> good cfg (take_nonce s).2 /\ u64 (take_nonce s).1.
Proof.
  intros Hg. pose proof (gd_nonce _ _ (gd_core _ _ Hg)) as Hn. unfold take_nonce.
  assert (Hset : forall n s, good cfg s -> u64 n -> good cfg (set_im_next_nonce n s)).
  { clear. intros n s [[] ?] Hn. constructor; [by constructor|done]. }
  destruct (N.eqb_spec (im_next_nonce s) 0); cbn [fst snd].
  - split; [|apply add64_range]. apply Hset; [apply Hset; [done|apply add64_range]|apply add64_range].
  - split; [|done]. apply Hset; [done|apply add64_range].
Qed.

Lemma nonce_rest s :
  im_connections (take_nonce s).2 = im_connections s /\ im_os (take_nonce s).2 = im_os s /\
  im_config (take_nonce s).2 = im_config s /\ im_peers (take_nonce s).2 = im_peers s.
Proof. unfold take_nonce. by destruct (im_next_nonce s =? 0). Qed.

Lemma drop_closed_good s : good cfg s -> good cfg (drop_closed s).
Proof.
  intros [[] Hs]. constructor; [constructor; simpl; try done|].
  - by apply conns_filter.
  - by apply streams_filter.
  - by apply settled_filter.
Qed.

(** ** New sockets *)

(** A socket that the system has just opened. *)
Definition fresh (fd : Z) s : Prop :=
  fd <> kInvalidSocket /\ fd ∈ os_open (im_os s) /\ unused fd (im_connections s).

Lemma close_fd_good fd s : good cfg s -> fresh fd s -> good cfg (close_fd fd s).
Proof.
  intros Hg (_ & _ & Hun). unfold close_fd. destruct (fd =? kInvalidSocket)%Z; [done|].
  pose proof Hg as [[] Hs]. constructor; [|done]. constructor; simpl; try done. rewrite law_close. by apply conns_unopen.
Qed.

Lemma close_fd_rest fd s : im_connections (close_fd fd s) = im_connections s.
Proof. unfold close_fd. by destruct (fd =? kInvalidSocket)%Z. Qed.

(** A peer has no connection on a socket that no connection uses. *)
Lemma unused_inactive s fd id p :
  good cfg s -> unused fd (im_connections s) -> im_peers s !! id = Some p -> ps_connected p = true ->
  ps_active_socket p <> fd.
Proof.
  intros Hg Hun Hp Hc E. destruct (gd_settled _ _ Hg id fd) as (j & d & Hj & Ed & Hl & _).
  { unfold active_of. rewrite lookup_fmap, Hp. simpl. by rewrite Hc, E. }
  by destruct (Hun j d).
Qed.

Lemma push_connection_good fd phase outbound expected nonce handshake deadline s :
  good cfg s -> fresh fd s -> connections_full s = false -> phase <> ph_established ->
  (forall id, expected = Some id -> id ∈ peer_set cfg) -> u64 nonce ->
  handshake = make_handshake (tc_identity cfg) (tc_incarnation cfg) nonce outbound ->
  good cfg (push_connection fd phase outbound expected nonce handshake deadline s).
Proof.
  intros Hg (Hv & Ho & Hun) Hfull Hph Hexp Hn ->. pose proof Hg as [Hc Hs]. pose proof Hc as [].
  unfold connections_full, limits in Hfull. rewrite gd_config in Hfull. apply N.leb_gt in Hfull.
  constructor; [constructor; simpl; try done; try by apply noted_opened|].
  - eapply conns_append; [done..|]. constructor; simpl; try done; try lia.
    + intros id Hid. rewrite gd_peers. by apply Hexp.
    + split; [done|]. by repeat constructor.
    + unfold blen, kLengthPrefixBytes. simpl. lia.
  - apply streams_append; try done. intros id p Hp Hcon. by eapply unused_inactive.
  - by apply settled_append.
Qed.

Lemma fresh_os s o fd : fresh fd s -> os_open o = os_open (im_os s) -> fresh fd (set_im_os o s).
Proof. intros (? & ? & ?) E. split_and!; [done|simpl; by rewrite E|done]. Qed.

(** [::socket]. *)
Lemma socket_good s fd o :
  good cfg s -> os_socket (im_os s) = (fd, o) ->
  good cfg (set_im_os o s) /\ (fd <> kInvalidSocket -> fresh fd (set_im_os o s)).
Proof.
  intros Hg E. destruct (decide (fd = kInvalidSocket)) as [->|Hne].
  - split; [|done]. apply good_os; [done|]. by rewrite (law_no_socket _ _ E).
  - destruct (law_socket _ _ _ E Hne) as [Hf Ho]. split.
    + apply good_os; [done|]. rewrite Ho. intros x Hx. by apply elem_of_union_r.
    + intros _. split_and!; [done|simpl; rewrite Ho; by apply elem_of_union_l, elem_of_singleton|]. simpl. eapply fresh_unused; [apply Hg|done].
Qed.

Lemma accept_good s l fd r o :
  good cfg s -> os_accept l (im_os s) = ((fd, r), o) ->
  good cfg (set_im_os o s) /\ (fd <> kInvalidSocket -> fresh fd (set_im_os o s)).
Proof.
  intros Hg E. destruct (decide (fd = kInvalidSocket)) as [->|Hne].
  - split; [|done]. apply good_os; [done|]. by rewrite (law_no_accept _ _ _ _ E).
  - destruct (law_accept _ _ _ _ _ E Hne) as [Hf Ho]. split.
    + apply good_os; [done|]. rewrite Ho. intros x Hx. by apply elem_of_union_r.
    + intros _. split_and!; [done|simpl; rewrite Ho; by apply elem_of_union_l, elem_of_singleton|]. simpl. eapply fresh_unused; [apply Hg|done].
Qed.

(** A call on the side that opens and closes nothing. *)
Lemma sys_good {X} (f : O -> X * O) s :
  good cfg s -> os_open (f (im_os s)).2 = os_open (im_os s) ->
  good cfg (sys f s).2 /\ (forall fd, fresh fd s -> fresh fd (sys f s).2) /\
  im_connections (sys f s).2 = im_connections s /\ im_config (sys f s).2 = im_config s /\
  im_peers (sys f s).2 = im_peers s.
Proof.
  intros Hg E. unfold sys. destruct (f (im_os s)) as [x o]. simpl in *.
  split_and!; [|by intros; apply fresh_os|done..]. apply good_os; [done|]. by rewrite E.
Qed.

Lemma fresh_nonce s fd : fresh fd s -> fresh fd (take_nonce s).2.
Proof. destruct (nonce_rest s) as (E1 & E2 & _). unfold fresh. by rewrite E1, E2. Qed.

Lemma full_same s s' :
  im_connections s' = im_connections s -> im_config s' = im_config s -> connections_full s' = connections_full s.
Proof. intros E1 E2. unfold connections_full, limits. by rewrite E1, E2. Qed.

Lemma attempt_peer_good now id s :
  good cfg s -> id ∈ peer_set cfg -> connections_full s = false -> good cfg (attempt_peer now id s).
Proof.
  intros Hg Hid Hfull. unfold attempt_peer, sys at 1. destruct (os_socket (im_os s)) as [fd o] eqn:Esock.
  destruct (socket_good s fd o Hg Esock) as [Hg1 Hfr]. set (s1 := set_im_os o s) in *.
  destruct (Z.eqb_spec fd kInvalidSocket) as [->|Hne]; [by apply delay_attempt_good|]. specialize (Hfr Hne).
  destruct (select_compatible fd); cbn [orb negb]; [|by apply delay_attempt_good, close_fd_good].
  destruct (sys_good (os_nonblocking fd) s1 Hg1 (law_open_nonblocking _ _)) as (Hg2 & Hfr2 & Ec2 & Eg2 & Ep2).
  destruct (sys (os_nonblocking fd) s1) as [b s2]. cbn [snd] in *. specialize (Hfr2 fd Hfr).
  destruct b; cbn [negb]; [|by apply delay_attempt_good, close_fd_good].
  set (s3 := set_im_os (os_no_delay fd (im_os s2)) s2).
  assert (Hg3 : good cfg s3) by (apply good_os; [done|]; by rewrite law_open_no_delay).
  assert (Hfr3 : fresh fd s3) by (apply fresh_os; [done|apply law_open_no_delay]).
  destruct (nonce_good s3 Hg3) as [Hg4 Hn]. pose proof (fresh_nonce s3 fd Hfr3) as Hfr4.
  destruct (nonce_rest s3) as (Ec4 & _ & Eg4 & Ep4). destruct (take_nonce s3) as [nonce s4]. cbn [fst snd] in *.
  destruct (sys_good (os_connect fd (peer_address id s4)) s4 Hg4 (law_open_connect _ _ _)) as (Hg5 & Hfr5 & Ec5 & Eg5 & _).
  destruct (sys (os_connect fd (peer_address id s4)) s4) as [b s5]. cbn [snd] in *. specialize (Hfr5 fd Hfr4).
  assert (Hfull5 : connections_full s5 = false).
  { rewrite <- Hfull. apply full_same; [by rewrite Ec5, Ec4|by rewrite Eg5, Eg4]. }
  assert (Eg : im_config s4 = cfg) by apply Hg4.
  destruct b; [|destruct (connect_pending_error (os_errno (im_os s5)))].
  - apply push_connection_good; try done; [|by rewrite Eg]. by intros ? [= <-].
  - apply push_connection_good; try done; [|by rewrite Eg]. by intros ? [= <-].
  - by apply delay_attempt_good, close_fd_good.
Qed.

Lemma accept_one_good s : good cfg s -> good cfg (accept_one s).2.
Proof.
  intros Hg. unfold accept_one, sys at 1. destruct (os_accept (im_listener s) (im_os s)) as [[fd r] o] eqn:Eacc.
  destruct (accept_good s _ fd r o Hg Eacc) as [Hg1 Hfr]. set (s1 := set_im_os o s) in *.
  destruct (Z.eqb_spec fd kInvalidSocket) as [->|Hne]; [done|]. specialize (Hfr Hne).
  destruct (negb (tc_allow_non_loopback (im_config s1)) && negb (is_loopback r)); cbn [orb]; [by apply close_fd_good|].
  destruct (connections_full s1) eqn:Hfull; cbn [orb]; [by apply close_fd_good|].
  destruct (select_compatible fd); cbn [orb negb]; [|by apply close_fd_good].
  destruct (sys_good (os_nonblocking fd) s1 Hg1 (law_open_nonblocking _ _)) as (Hg2 & Hfr2 & Ec2 & Eg2 & Ep2).
  destruct (sys (os_nonblocking fd) s1) as [b s2]. cbn [snd] in *. specialize (Hfr2 fd Hfr).
  destruct b; cbn [negb]; [|by apply close_fd_good].
  set (s3 := set_im_os (os_no_delay fd (im_os s2)) s2).
  assert (Hg3 : good cfg s3) by (apply good_os; [done|]; by rewrite law_open_no_delay).
  assert (Hfr3 : fresh fd s3) by (apply fresh_os; [done|apply law_open_no_delay]).
  destruct (nonce_good s3 Hg3) as [Hg4 Hn]. pose proof (fresh_nonce s3 fd Hfr3) as Hfr4.
  destruct (nonce_rest s3) as (Ec4 & _ & Eg4 & Ep4). destruct (take_nonce s3) as [nonce s4]. cbn [fst snd] in *.
  destruct (sys_good os_now s4 Hg4 (law_open_now _)) as (Hg5 & Hfr5 & Ec5 & Eg5 & _).
  destruct (sys os_now s4) as [now s5]. cbn [snd] in *. specialize (Hfr5 fd Hfr4).
  assert (Eg : im_config s4 = cfg) by apply Hg4.
  apply push_connection_good; try done; [|by rewrite Eg].
  rewrite <- Hfull. apply full_same; [by rewrite Ec5, Ec4|by rewrite Eg5, Eg4].
Qed.

End acts.
