(* ===== verification/TcpClose.v ===== *)
(** * TcpClose: ending a connection, and making it that of its peer *)

From S2P Require Import Prelude Model StateMachine Bytes TcpTypes TcpWire TcpTransport TcpLoop TcpInv TcpFrames TcpConns.
#[local] Open Scope N_scope.

Section close.
Context {O : Type} `{!Sockets O} {HL : SocketLaws O} (cfg : TcpTransportConfig) (Hcfg : config_ok cfg).
Abbreviation Impl := (TcpTransport.Impl O).
Implicit Types (s : Impl) (i : nat) (c : Connection) (p : PeerState).

(** ** [close_connection] *)

(** What a step that closes connection [i] leaves. *)
Record closes i c s s' : Prop := {
  cl_core : core cfg s';
  cl_conns : im_connections s' = <[i := closed c]> (im_connections s);
  cl_active : active_of (im_peers s') = active_of (im_peers s);
}.

Lemma close_socket_closes s i c :
  core cfg s -> im_connections s !! i = Some c -> closes i c s (close_socket i s).
Proof.
  intros Hg Hi. unfold close_socket. rewrite (conn_at _ _ _ Hi). fold (closed c). unfold close_fd.
  destruct (Z.eqb_spec (cn_socket c) kInvalidSocket) as [E|E]; (constructor; [|done|done]);
    destruct Hg; constructor; simpl; try done; try by apply streams_close.
  - apply conns_close_dead; [done..|]. intros Hl. done.
  - rewrite law_close. by apply conns_close.
Qed.

Lemma close_own_closes s i c :
  core cfg s -> im_connections s !! i = Some c -> exists s', close_own i s = Some s' /\ closes i c s s'.
Proof.
  intros Hg Hi. pose proof (close_socket_closes s i c Hg Hi) as [Hg1 Ec Ea]. unfold close_own. rewrite (conn_at _ _ _ Hi).
  destruct (cn_expected_peer c) as [id|] eqn:Eid; [|by eexists].
  pose proof (co_expected _ _ _ _ (conns_at _ _ _ _ _ _ (gd_conns _ _ Hg) Hi) id Eid) as Hid.
  rewrite (gd_peers _ _ Hg), <- (gd_peers _ _ Hg1) in Hid. apply elem_of_dom in Hid as [p Hp]. rewrite Hp.
  unfold sys. pose proof (law_open_now (im_os (close_socket i s))) as Eo.
  destruct (os_now (im_os (close_socket i s))) as [now o]. eexists. split; [done|]. constructor; [|done|].
  - apply (core_peer cfg _ id p); try done. apply core_os; [done|]. simpl in Eo. by rewrite Eo.
  - simpl. rewrite <- Ea. by eapply active_update.
Qed.

(** The peer of an established connection loses it. *)
Lemma close_peer_core s i c old error notify :
  core cfg s -> im_connections s !! i = Some c -> cn_phase c = ph_established ->
  exists s', close_peer i old error notify s = Some s' /\ core cfg s' /\ im_connections s' = im_connections s /\
    exists p, im_peers s !! cn_peer c = Some p /\
      ((ps_active_socket p <> old /\ s' = s) \/
       active_of (im_peers s') = <[cn_peer c := (false, kInvalidSocket)]> (active_of (im_peers s))).
Proof.
  intros Hg Hi Hph. unfold close_peer. rewrite (conn_at _ _ _ Hi).
  pose proof (co_peer _ _ _ _ (conns_at _ _ _ _ _ _ (gd_conns _ _ Hg) Hi) Hph) as Hid.
  apply elem_of_dom in Hid as [p Hp]. rewrite Hp.
  destruct (Z.eqb_spec (ps_active_socket p) old) as [E|E]; cbn [negb].
  2: { exists s. split_and!; try done. exists p. split; [done|]. by left. }
  unfold sys. pose proof (law_open_now (im_os s)) as Eo. destruct (os_now (im_os s)) as [now o]. simpl in Eo.
  set (p' := set_ps_next_attempt _ _). set (s1 := set_peer (cn_peer c) p' (set_im_os o s)).
  assert (Hg1 : core cfg s1).
  { pose proof (qo_peers _ _ _ (gd_queues _ _ Hg) _ _ Hp) as Hok.
    destruct (core_os cfg s o Hg) as []; [by rewrite Eo|]. constructor; simpl in *; try done;
      try first [by erewrite dom_update|by eapply zero_update].
    - eapply queues_update; [done..| |done]. by apply (peer_ok_reset _ p).
    - eapply streams_peers; [done| |].
      + eapply peers_le_update; [done|]. done.
      + eapply queues_le_update; [done|]. apply reset_payload. }
  exists (if notify then enqueue_diagnostic peer_down (cn_peer c) (cn_peer_incarnation c) error s1 else s1).
  destruct (push_event_rest (mkTcpTransportEvent peer_down (cn_peer c) (cn_peer_incarnation c) error []) s1) as [Ep Ec].
  split_and!; [done| | |exists p; split; [done|right]].
  - destruct notify; [|done]. by apply push_event_core.
  - destruct notify; [exact Ec|done].
  - transitivity (active_of (im_peers s1)); [destruct notify; [exact (f_equal active_of Ep)|done]|].
    simpl. unfold active_of. by rewrite fmap_insert.
Qed.

Lemma settled_disconnect active cs i c id fd :
  settled active cs -> cs !! i = Some c -> cn_peer c = id ->
  settled (<[id := (false, fd)]> active) (<[i := closed c]> cs).
Proof.
  intros Hs Hi Ep x fd' Hx. apply lookup_insert_Some in Hx as [[_ ?]|[Hne Hx]]; [done|].
  destruct (Hs x fd' Hx) as (j & d & Hj & ? & ? & Ed & ?). exists j, d. rewrite list_lookup_insert_ne; [done|].
  intros ->. congruence.
Qed.

Lemma close_now_good s i c error notify :
  good cfg s -> im_connections s !! i = Some c ->
  exists s', close_now i error notify s = Some s' /\ good cfg s' /\
    im_connections s' = <[i := closed c]> (im_connections s).
Proof.
  intros [Hg Hs] Hi. unfold close_now. rewrite (conn_at _ _ _ Hi).
  destruct (close_own_closes s i c Hg Hi) as (s1 & -> & [Hg1 Ec Ea]).
  destruct (decide (cn_phase c = ph_established)) as [Hph|Hph].
  - rewrite Hph. assert (Hi1 : im_connections s1 !! i = Some (closed c)).
    { rewrite Ec. apply list_lookup_insert_eq. by eapply lookup_lt_Some. }
    destruct (close_peer_core s1 i (closed c) (cn_socket c) error notify Hg1 Hi1 Hph)
      as (s2 & -> & Hg2 & Ec2 & p & Hp & Hcase).
    exists s2. split_and!; [done| |by rewrite Ec2]. constructor; [done|]. rewrite Ec2, Ec.
    destruct Hcase as [[Hno ->]|Eact].
    + rewrite Ea. apply settled_close; [done..|]. intros _ _ Hact. rewrite <- Ea in Hact.
      unfold active_of in Hact. apply lookup_fmap_Some in Hact as (q & [= _ ?] & Hq). simpl in Hp. congruence.
    + rewrite Eact, Ea. simpl. by apply settled_disconnect.
  - exists s1. split_and!; [by destruct (cn_phase c)| |done]. constructor; [done|]. rewrite Ea, Ec.
    by apply settled_close.
Qed.

(** ** [finish_handshake] *)

(** The remote end has said who it is, and it is a peer of this cluster. *)
Definition identified c : Prop :=
  exists remote, parse_handshake (cn_remote_handshake c) = inr remote /\ cn_peer c = ti_node_id (hs_identity remote) /\
    same_cluster cfg remote /\ hs_initiator remote = negb (cn_outbound c) /\ cn_peer c ∈ peer_set cfg.

Lemma validate_remote_none c remote s :
  core cfg s -> validate_remote c remote s = tcp_none ->
  same_cluster cfg remote /\ hs_initiator remote = negb (cn_outbound c) /\
  ti_node_id (hs_identity remote) ∈ peer_set cfg.
Proof.
  intros Hg. unfold validate_remote. rewrite (gd_config _ _ Hg).
  destruct (Bool.eqb (hs_initiator remote) (cn_outbound c)) eqn:Ei; [done|].
  destruct (hs_incarnation remote =? 0); [done|]. destruct (hs_initiator remote && (hs_nonce remote =? 0)); [done|].
  cbn [orb]. destruct (N.eqb_spec (ti_cluster_id_high (hs_identity remote)) (ti_cluster_id_high (tc_identity cfg))); [|done].
  destruct (N.eqb_spec (ti_cluster_id_low (hs_identity remote)) (ti_cluster_id_low (tc_identity cfg))); [|done].
  cbn [negb orb]. destruct (ti_node_id (hs_identity remote) =? ti_node_id (tc_identity cfg)); [done|].
  case_bool_decide as Hp; [done|]. intros _. split_and!; [done|..].
  - apply Bool.eqb_false_iff in Ei. by destruct (hs_initiator remote), (cn_outbound c).
  - rewrite <- (gd_peers _ _ Hg). by apply elem_of_dom, not_eq_None_Some.
Qed.

Lemma identify_good s i c :
  good cfg s -> im_connections s !! i = Some c -> cn_phase c <> ph_established ->
  good cfg (identify i s).2 /\
  match (identify i s).1 with
  | Some _ => (identify i s).2 = s
  | None => exists key inc id,
      let c' := set_cn_key key (set_cn_peer_incarnation inc (set_cn_peer id c)) in
      im_connections (identify i s).2 = <[i := c']> (im_connections s) /\ identified c'
  end.
Proof.
  intros Hg Hi Hph. pose proof Hg as [Hc Hs]. unfold identify. rewrite (conn_at _ _ _ Hi).
  destruct (parse_handshake (cn_remote_handshake c)) as [e|remote] eqn:Epa; [done|].
  case_bool_decide as Hv; [done|].
  destruct (validate_remote_none c remote s Hc) as (Hcl & Hin & Hp); [by destruct (decide (validate_remote c remote s = tcp_none))|].
  cbn [fst snd]. set (c' := set_cn_key _ _).
  pose proof (conns_at _ _ _ _ _ _ (gd_conns _ _ Hc) Hi) as Hok.
  assert (Hok' : conn_ok cfg (dom (im_peers s)) (os_open (im_os s)) c') by (destruct Hok; by constructor).
  assert (Hno : live c -> forall id p, im_peers s !! id = Some p -> ps_connected p = true -> ps_active_socket p <> cn_socket c).
  { intros Hl id p. by apply (not_adopted cfg _ _ _ _ _ _ _ (gd_conns _ _ Hc) Hs Hi Hl Hph). }
  split.
  - constructor; [|simpl; by eapply settled_update]. destruct Hc. constructor; simpl; try done; try by apply noted_mono.
    + by eapply conns_update.
    + eapply streams_update; [done..| |intros Hl; right; by apply Hno]. destruct (so_linked _ _ _ _ _ gd_streams i c Hi) as [L1 L2 L3].
      constructor; [done|done|]. intros Hl p (Hp' & Hcon & Ha). by destruct (Hno Hl _ _ Hp' Hcon).
  - exists (connection_key c remote s), (hs_incarnation remote), (ti_node_id (hs_identity remote)). split; [done|]. by exists remote.
Qed.

(** The connection as its handshake ends. *)
Definition greeted c : Prop :=
  live c /\ cn_phase c = ph_handshake /\ cn_handshake_sent c = kHandshakeBytes /\
  cn_handshake_received c = kHandshakeBytes /\ identified c.

Definition established_conn c : Connection := set_cn_phase ph_established c.

(** The peer as [establish] leaves it. *)
Definition taken_over p c : PeerState :=
  reset_outbound_offsets (set_ps_peer_incarnation (cn_peer_incarnation c)
    (set_ps_active_key (cn_key c) (set_ps_active_socket (cn_socket c) (set_ps_connected true p)))).

Lemma greeted_linked c l tr peers p all :
  greeted c -> conn_ok cfg (peer_set cfg) all c -> peers !! cn_peer c = Some p ->
  linked cfg peers c l tr -> (payload <$> ps_outbound p) `sublist_of` queued_for (cn_peer c) tr ->
  linked cfg (<[cn_peer c := taken_over p c]> peers) (established_conn c) l tr.
Proof.
  intros (Hl & Hph & Es & Er & remote & Hpa & Ep & Hcl & Hin & _) Hok Hp [L1 _ _] Hq.
  destruct (L1 ltac:(by rewrite Hph)) as (Ew & Erd & Ed & Einb).
  destruct (co_remote _ _ _ _ Hok) as [Hlen Hb]. destruct (make_parse _ _ Hb Hlen Hpa) as [Ehs Hfits].
  rewrite Es, (co_local _ _ _ _ Hok), take_ge in Ew by (rewrite handshake_length; done).
  rewrite Er, take_ge in Erd by (rewrite Hlen; done).
  assert (Hwr : forall q, q `sublist_of` queued_for (cn_peer c) tr ->
    writes (tl_max_frame_bytes (tc_limits cfg)) (own_handshake cfg c) (cn_peer c) l [] q (queued_for (cn_peer c) tr)).
  { intros q Hq' _. exists []. split_and!; [constructor|by rewrite Ew, app_nil_r|done]. }
  constructor; [done|..].
  - intros _. exists remote. split; [done|]. constructor; [done|by rewrite Ew|..].
    + exists [], []. split_and!; [constructor|done| |done].
      change (cn_inbound (established_conn c)) with (cn_inbound c). by rewrite Erd, Ehs, Einb, app_nil_r.
    + exists []. split; [by left|]. rewrite <- Ep. apply Hwr, sublist_nil_l.
  - intros _ q (Hq' & _ & _). simpl in Hq'. rewrite lookup_insert_eq in Hq'. injection Hq' as <-. simpl cn_peer.
    replace (front_part (taken_over p c)) with ([] : list N).
    + apply Hwr. simpl. fold (reset (ps_outbound p)). by rewrite reset_payload.
    + unfold front_part. simpl. by destruct (ps_outbound p).
Qed.

Lemma takeover_streams s i c p :
  good cfg s -> im_connections s !! i = Some c -> greeted c -> im_peers s !! cn_peer c = Some p ->
  streams_ok cfg (<[cn_peer c := taken_over p c]> (im_peers s)) (<[i := established_conn c]> (im_connections s))
    (im_trace s) (im_made s).
Proof.
  intros Hg Hi Hgr Hp. pose proof Hg as [Hc Hs]. pose proof (conns_at _ _ _ _ _ _ (gd_conns _ _ Hc) Hi) as Hok.
  rewrite (gd_peers _ _ Hc) in Hok. pose proof Hgr as (Hl & Hph & _).
  pose proof (cs_distinct _ _ _ _ (gd_conns _ _ Hc)) as Hd.
  assert (Hno : forall id p, im_peers s !! id = Some p -> ps_connected p = true -> ps_active_socket p <> cn_socket c).
  { intros id q. apply (not_adopted cfg _ _ _ _ _ _ _ (gd_conns _ _ Hc) Hs Hi Hl). by rewrite Hph. }
  destruct (gd_streams _ _ Hc) as [H1 H2 H3 H4 H5 H6]. constructor; [done|..].
  - intros j d Hj. apply list_lookup_insert_Some in Hj as [(<- & <- & _)|[Hne Hj]].
    + change (cn_id (established_conn c)) with (cn_id c).
      eapply greeted_linked; [done..|by apply (H2 i)|]. by apply H6.
    + destruct (H2 j d Hj) as [L1 L2 L3]. constructor; [done..|]. intros Hld q (Hq & Hcon & Ha).
      apply lookup_insert_Some in Hq as [[_ <-]|[Hnp Hq]]; [|by apply L3]. destruct Hne. by eapply Hd.
  - intros j d id q Hj Hld Hq Hcon Ha. apply lookup_insert_Some in Hq as [[<- <-]|[Hnp Hq]];
      apply list_lookup_insert_Some in Hj as [(<- & <- & _)|[Hne Hj]]; [done|..].
    + destruct Hne. by eapply Hd.
    + by destruct (Hno _ _ Hq Hcon).
    + by eapply H3.
  - by eapply ids_update.
  - apply Forall_insert; [done|]. by apply (Forall_lookup_1 _ _ _ _ H5 Hi).
  - intros id q Hq. apply lookup_insert_Some in Hq as [[<- <-]|[_ Hq]]; [|by apply H6].
    simpl. fold (reset (ps_outbound p)). rewrite reset_payload. by apply H6.
Qed.

Lemma takeover_core s i c p e :
  good cfg s -> im_connections s !! i = Some c -> greeted c -> im_peers s !! cn_peer c = Some p -> ev_bytes e = [] /\ ev_kind e <> tcp_message ->
  core cfg (set_conn i (established_conn c) (push_event e (set_peer (cn_peer c) (taken_over p c) s))).
Proof.
  intros Hg Hi Hgr Hp He. pose proof (takeover_streams s i c p Hg Hi Hgr Hp) as Hst.
  assert (Hco : core cfg (set_conn i (established_conn c) (set_peer (cn_peer c) (taken_over p c) s))).
  { destruct (gd_core _ _ Hg). constructor; simpl; try done; try first [by erewrite dom_update|by eapply zero_update].
    - eapply queues_update; [done..| |done]. eapply peer_ok_reset; [by apply (qo_peers _ _ _ gd_queues _ _ Hp)|done..].
    - erewrite dom_update by done. eapply conns_update; [done..| |done].
      destruct (conns_at _ _ _ _ _ _ gd_conns Hi). constructor; try done. intros _. simpl. by apply elem_of_dom. }
  unfold push_event. destruct (events_full _) eqn:Hf; [done|]. pose proof (push_event_core cfg _ e Hco He) as Hp1.
  unfold push_event in Hp1. change (events_full (set_conn i (established_conn c) ?s)) with (events_full s) in Hp1.
  by rewrite Hf in Hp1.
Qed.

(** The connection that is replaced. *)
Definition previous p : Z := if ps_connected p then ps_active_socket p else kInvalidSocket.

(** Connections of other peers are not on the socket of the one that is replaced. *)
Lemma takeover_settled s i c p cs' :
  good cfg s -> im_connections s !! i = Some c -> greeted c -> im_peers s !! cn_peer c = Some p ->
  cs' !! i = Some (established_conn c) ->
  (forall k d, k <> i -> im_connections s !! k = Some d -> cn_socket d <> previous p \/ previous p = kInvalidSocket ->
     cs' !! k = Some d) ->
  settled (<[cn_peer c := (true, cn_socket c)]> (active_of (im_peers s))) cs'.
Proof.
  intros [Hc Hs] Hi (Hl & Hph & _) Hp Hi' Hk id fd Ha.
  apply lookup_insert_Some in Ha as [[<- [= <-]]|[Hne Ha]]; [by exists i, (established_conn c)|].
  destruct (Hs id fd Ha) as (k & d & Hk' & Ed & Hld & Epd & Hest). exists k, d. split; [|done].
  apply Hk; [intros ->; congruence|done|].
  destruct (decide (cn_socket d = previous p)) as [Eo|]; [|by left]. right. unfold previous in *.
  destruct (ps_connected p) eqn:Hcon; [|done]. exfalso.
  destruct (Hs (cn_peer c) (ps_active_socket p)) as (k2 & d2 & Hk2 & Ed2 & Hl2 & Ep2 & _).
  { unfold active_of. rewrite lookup_fmap, Hp. simpl. by rewrite Hcon. }
  assert (k2 = k) as -> by (eapply (cs_distinct _ _ _ _ (gd_conns _ _ Hc)); [done..|congruence]). congruence.
Qed.

Lemma promote_good s i c p s0 :
  good cfg s -> im_connections s !! i = Some c -> greeted c -> im_peers s !! cn_peer c = Some p ->
  im_connections s0 = im_connections s -> im_peers s0 = <[cn_peer c := taken_over p c]> (im_peers s) ->
  core cfg (set_conn i (established_conn c) s0) ->
  good cfg (promote i (previous p) s0) /\
  length (im_connections (promote i (previous p) s0)) = length (im_connections s).
Proof.
  intros Hg Hi Hgr Hp Ec0 Ep0 Hc1. unfold promote. rewrite (conn_at s0 i c) by by rewrite Ec0.
  fold (established_conn c). set (s1 := set_conn i (established_conn c) s0) in *.
  assert (Ec1 : im_connections s1 = <[i := established_conn c]> (im_connections s)) by (simpl; by rewrite Ec0).
  assert (Hi1 : im_connections s1 !! i = Some (established_conn c)).
  { rewrite Ec1. apply list_lookup_insert_eq. by eapply lookup_lt_Some. }
  assert (Hact1 : active_of (im_peers s1) = <[cn_peer c := (true, cn_socket c)]> (active_of (im_peers s))).
  { simpl. rewrite Ep0. unfold active_of. by rewrite fmap_insert. }
  assert (Hkeep : good cfg s1 /\ length (im_connections s1) = length (im_connections s)).
  { split; [|by rewrite Ec1, length_insert]. constructor; [done|]. rewrite Hact1. eapply takeover_settled; [done..|].
    intros k d Hne Hk _. rewrite Ec1. by rewrite list_lookup_insert_ne. }
  destruct (Z.eqb_spec (previous p) kInvalidSocket) as [Eold|Eold]; [done|].
  destruct (replaced_index i (previous p) s1) as [j|] eqn:Hj; [|done].
  apply find_some in Hj as [Hin Hj]. apply andb_true_iff in Hj as [Hji Hj]. apply in_seq in Hin.
  apply negb_true_iff, Nat.eqb_neq in Hji. apply Z.eqb_eq in Hj.
  destruct (lookup_lt_is_Some_2 (im_connections s1) j ltac:(lia)) as [d Hd]. rewrite (conn_at _ _ _ Hd) in Hj.
  destruct (close_socket_closes s1 j d Hc1 Hd) as [Hc2 Ec2 Ea2].
  split; [|by rewrite Ec2, length_insert, Ec1, length_insert]. constructor; [done|]. rewrite Ea2, Ec2, Hact1.
  eapply takeover_settled; [done..|by rewrite list_lookup_insert_ne|].
  intros k d' Hne Hk [Hno|?]; [|done]. destruct (decide (k = j)) as [->|Hkj].
  - rewrite Ec1, list_lookup_insert_ne in Hd by done. congruence.
  - rewrite list_lookup_insert_ne by done. rewrite Ec1. by rewrite list_lookup_insert_ne.
Qed.

Lemma adopt_good s i c :
  good cfg s -> im_connections s !! i = Some c -> greeted c ->
  good cfg (adopt i s).2 /\ (adopt i s).1 <> no_such_peer /\
  length (im_connections (adopt i s).2) = length (im_connections s) /\
  ((adopt i s).1 = is_duplicate -> (adopt i s).2 = s).
Proof.
  intros Hg Hi Hgr. pose proof Hgr as (Hl & Hph & _ & _ & _ & _ & _ & _ & _ & Hid).
  rewrite <- (gd_peers _ _ (gd_core _ _ Hg)) in Hid. apply elem_of_dom in Hid as [p Hp].
  unfold adopt, establish. rewrite (conn_at _ _ _ Hi), Hp.
  destruct (ps_connected p && negb (key_less (ps_active_key p) (cn_key c))); [done|].
  fold (taken_over p c) (previous p). cbn [fst snd]. unfold enqueue_diagnostic.
  set (e := mkTcpTransportEvent peer_up (cn_peer c) (cn_peer_incarnation c) tcp_none []).
  destruct (push_event_rest e (set_peer (cn_peer c) (taken_over p c) s)) as [Ep Ec].
  destruct (promote_good s i c p (push_event e (set_peer (cn_peer c) (taken_over p c) s))) as [? ?]; try done.
  by apply takeover_core.
Qed.

End close.
