(* ===== verification/TcpTraffic.v ===== *)
(** * TcpTraffic: bytes and frames on a connection *)

From S2P Require Import Prelude Model StateMachine Bytes TcpTypes TcpWire TcpTransport TcpLoop TcpInv TcpFrames TcpConns TcpClose.
#[local] Open Scope N_scope.

Section traffic.
Context {O : Type} `{!Sockets O} {HL : SocketLaws O} (cfg : TcpTransportConfig) (Hcfg : config_ok cfg).
Abbreviation Impl := (TcpTransport.Impl O).
Implicit Types (s : Impl) (i : nat) (c : Connection) (p : PeerState).

(** ** Frames that leave the buffer *)

(** The buffer begins with a whole frame of [n] bytes. *)
Definition frame_at c (n : N) : Prop :=
  cn_phase c = ph_established /\ 0 < n <= tl_max_frame_bytes (tc_limits cfg) /\
  n = get_u32 (cn_inbound c) 0 /\ kLengthPrefixBytes + n <= blen (cn_inbound c).

Definition frame_of c (n : N) : list N := take (N.to_nat n) (drop 4 (cn_inbound c)).

Definition consumed c (n : N) : Connection :=
  set_cn_inbound (drop (N.to_nat (kLengthPrefixBytes + n)) (cn_inbound c)) c.

Lemma next_frame_complete s i c n :
  core cfg s -> im_connections s !! i = Some c -> cn_phase c = ph_established -> next_frame i s = complete n -> frame_at c n.
Proof.
  intros Hg Hi Hph. unfold next_frame. rewrite (conn_at _ _ _ Hi). unfold limits. rewrite (gd_config _ _ Hg).
  destruct (N.ltb_spec (blen (cn_inbound c)) kLengthPrefixBytes); [done|].
  destruct (N.eqb_spec (get_u32 (cn_inbound c) 0) 0); [done|].
  destruct (N.ltb_spec (tl_max_frame_bytes (tc_limits cfg)) (get_u32 (cn_inbound c) 0)); [done|]. cbn [orb].
  destruct (N.ltb_spec (blen (cn_inbound c)) (kLengthPrefixBytes + get_u32 (cn_inbound c) 0)); [done|].
  intros [= <-]. split_and!; try done; lia.
Qed.

Lemma frame_split c n :
  frame_at c n -> bytes_ok (cn_inbound c) ->
  cn_inbound c = wire_frame (frame_of c n) ++ cn_inbound (consumed c n) /\
  frame_fits (tl_max_frame_bytes (tc_limits cfg)) (frame_of c n) /\ blen (frame_of c n) = n.
Proof.
  intros (_ & Hn & En & Hlen) Hb. unfold blen, kLengthPrefixBytes in Hlen.
  assert (Hbl : blen (frame_of c n) = n).
  { unfold frame_of, blen. rewrite length_take, length_drop. lia. }
  split_and!; [|split; [by rewrite Hbl|by apply Forall_take, Forall_drop]|done].
  simpl. unfold frame_of. replace (N.to_nat (kLengthPrefixBytes + n)) with (4 + N.to_nat n)%nat
    by (unfold kLengthPrefixBytes; lia).
  rewrite En. apply wire_frame_split; [done|lia|lia].
Qed.

Lemma consumed_ok ids open c n : conn_ok cfg ids open c -> conn_ok cfg ids open (consumed c n).
Proof.
  intros []. constructor; try done; simpl; [by apply Forall_drop|].
  unfold blen in *. rewrite length_drop. lia.
Qed.

(** The same log with the frame handed out, or not. *)
Lemma linked_consumed peers c n l l' tr (handed : bool) :
  frame_at c n -> bytes_ok (cn_inbound c) -> linked cfg peers c l tr ->
  fl_written l' = fl_written l -> fl_read l' = fl_read l -> fl_dropped l' = fl_dropped l ->
  fl_delivered l' = fl_delivered l ++ (if handed then [(cn_peer c, frame_of c n)] else []) ->
  linked cfg peers (consumed c n) l' tr.
Proof.
  intros Hf Hb [_ L2 L3] Ew Er Ed Edel. destruct (frame_split c n Hf Hb) as (Es & Hfit & _).
  constructor; [by destruct Hf| |].
  - intros _. destruct (L2 (proj1 Hf)) as (remote & Ep & [Hr Hgr (cs & ds & Hcs & Hds & Erd & Edl) (part & Hp & Hw)]).
    exists remote. split; [done|]. constructor; [done|by rewrite Ew| |].
    + exists (cs ++ [frame_of c n]), (ds ++ (if handed then [frame_of c n] else [])). split_and!.
      * by apply Forall_app_2, Forall_singleton.
      * apply sublist_app; [done|]. destruct handed; [done|apply sublist_nil_l].
      * rewrite Er, Erd, stream_snoc, <- app_assoc. by rewrite <- Es.
      * rewrite Edel, Edl, fmap_app, Ep. by destruct handed.
    + exists part. split; [done|]. unfold writes. by rewrite Ew, Ed.
  - intros Hl q Hq. unfold writes. rewrite Ew, Ed. by apply L3.
Qed.

(** What a consumed frame leaves. *)
Lemma erase_frame_good s i c n :
  good cfg s -> im_connections s !! i = Some c -> frame_at c n ->
  good cfg (erase_frame i (kLengthPrefixBytes + n) s) /\
  im_connections (erase_frame i (kLengthPrefixBytes + n) s) = <[i := consumed c n]> (im_connections s).
Proof.
  intros [Hc Hs] Hi Hf. unfold erase_frame. rewrite (conn_at _ _ _ Hi). fold (consumed c n). split; [|done].
  pose proof (conns_at _ _ _ _ _ _ (gd_conns _ _ Hc) Hi) as Hok.
  constructor; [|simpl; by eapply settled_update]. destruct Hc. constructor; simpl; try done; try by apply noted_mono.
  - eapply conns_update; [done..|by apply consumed_ok|done].
  - eapply streams_update; [done..| |by left].
    eapply (linked_consumed _ _ _ _ _ _ false); [done|apply Hok|by apply (so_linked _ _ _ _ _ gd_streams i)|done..|].
    by rewrite app_nil_r.
Qed.

Lemma take_frame_good s i c n :
  good cfg s -> im_connections s !! i = Some c -> frame_at c n ->
  good cfg (take_frame i n s).2 /\
  im_connections (take_frame i n s).2 = if (take_frame i n s).1 then <[i := consumed c n]> (im_connections s) else im_connections s.
Proof.
  intros Hg Hi Hf. unfold take_frame, enqueue_message. rewrite (conn_at _ _ _ Hi).
  destruct (peer_partitioned (cn_peer c) s); [by apply erase_frame_good|].
  destruct (events_full s) eqn:Hfull; [done|]. cbn [orb].
  pose proof (eo_bound _ _ _ (gd_events _ _ (gd_core _ _ Hg))) as Hbound. unfold limits.
  rewrite (gd_config _ _ (gd_core _ _ Hg)). rewrite (N.min_r _ _ Hbound).
  rewrite sub64_small by (done || apply Hcfg).
  destruct (N.ltb_spec (tl_max_inbound_event_bytes (tc_limits cfg) - im_inbound_event_bytes s) n); [done|].
  cbn [fst snd]. change (N.to_nat kLengthPrefixBytes) with 4%nat. fold (frame_of c n).
  pose proof (conns_at _ _ _ _ _ _ (gd_conns _ _ (gd_core _ _ Hg)) Hi) as Hok.
  destruct (frame_split c n Hf (co_inbound _ _ _ _ Hok)) as (_ & Hfit & Hbl).
  unfold events_full, limits in Hfull. rewrite (gd_config _ _ (gd_core _ _ Hg)) in Hfull. apply N.leb_gt in Hfull.
  unfold erase_frame. rewrite (conn_at _ i c) by done. fold (consumed c n). split; [|done]. destruct Hg as [Hc Hs].
  constructor; [|simpl; by eapply settled_update]. destruct Hc. constructor; simpl; try done; try by apply noted_mono.
  - apply events_message; [apply Hcfg|done..|lia].
  - apply noted_message; [done|]. by apply (Forall_lookup_1 _ _ i c (so_made _ _ _ _ _ gd_streams)).
  - eapply conns_update; [done..|by apply consumed_ok|done].
  - eapply (streams_pass cfg Hcfg); [done|done|done|by apply consumed_ok|..].
    + split; [|done]. intros id' l Hne. simpl. by rewrite bool_decide_false.
    + eapply (linked_consumed _ _ _ _ _ _ true); [done|apply Hok|by apply (so_linked _ _ _ _ _ gd_streams i)|..];
        simpl; by rewrite bool_decide_true.
Qed.

(** ** Socket calls *)

Lemma socket_send_spec fd bs s :
  good cfg s ->
  good cfg (socket_send fd bs s).2 /\ im_connections (socket_send fd bs s).2 = im_connections s /\
  im_peers (socket_send fd bs s).2 = im_peers s /\ io_count (socket_send fd bs s).1 <= blen bs.
Proof.
  intros Hg. unfold socket_send. destruct (N.eqb_spec (blen bs) 0) as [E|_]; [split_and!; simpl; (done || lia)|].
  unfold sys. pose proof (law_open_send fd bs (im_os s)) as Eo. pose proof (law_send fd bs (im_os s)) as Hn.
  destruct (os_send fd bs (im_os s)) as [[n|] o]; simpl in Eo.
  - specialize (Hn n o eq_refl).
    destruct (n =? 0); (split_and!; simpl; [apply good_os; [done|by rewrite Eo]|done|done|lia]).
  - split_and!; simpl; [apply good_os; [done|by rewrite Eo]|done|done|lia].
Qed.

Lemma socket_receive_spec fd n s :
  good cfg s ->
  good cfg (socket_receive fd n s).2 /\ im_connections (socket_receive fd n s).2 = im_connections s /\
  io_count (socket_receive fd n s).1.1 = blen (socket_receive fd n s).1.2 /\
  blen (socket_receive fd n s).1.2 <= n /\ bytes_ok (socket_receive fd n s).1.2.
Proof.
  intros Hg. unfold socket_receive. destruct (N.eqb_spec n 0) as [E|_].
  { unfold blen. split_and!; simpl; (done || lia || constructor). }
  unfold sys. pose proof (law_open_recv fd n (im_os s)) as Eo. pose proof (law_recv fd n (im_os s)) as Hn.
  destruct (os_recv fd n (im_os s)) as [[bs|] o]; simpl in Eo.
  - destruct (Hn bs o eq_refl) as [? ?]. destruct (blen bs =? 0); unfold blen in *; 
      (split_and!; simpl; [apply good_os; [done|by rewrite Eo]|done|done|lia|(done || constructor)]).
  - unfold blen. split_and!; simpl; [apply good_os; [done|by rewrite Eo]|done|done|lia|constructor].
Qed.

(** ** Handshakes *)

(** A change to a connection with traffic on it. *)
Lemma pass_good s i c c' e :
  good cfg s -> im_connections s !! i = Some c -> same_conn c c' ->
  conn_ok cfg (dom (im_peers s)) (os_open (im_os s)) c' -> passes e (cn_id c) ->
  (cn_phase c = ph_established -> cn_phase c' = ph_established) ->
  linked cfg (im_peers s) c' (log_event (cn_id c) (conn_log (cn_id c) (im_trace s)) e) (im_trace s) ->
  good cfg (note e (set_conn i c' s)).
Proof.
  intros [Hc Hs] Hi Hsame Hok He Hph Hlk. pose proof Hsame as [? ? ?].
  constructor; [|simpl; eapply settled_update; eauto]. destruct Hc. constructor; simpl; try done; try by apply noted_mono; [|apply He].
  - by eapply conns_update.
  - by eapply (streams_pass cfg Hcfg).
Qed.

Lemma send_handshake_good s i c :
  good cfg s -> im_connections s !! i = Some c -> cn_phase c <> ph_established ->
  good cfg (send_handshake i s).2 /\
  exists n, im_connections (send_handshake i s).2 = <[i := set_cn_handshake_sent n c]> (im_connections s).
Proof.
  intros Hg Hi Hph. unfold send_handshake. rewrite (conn_at _ _ _ Hi). set (rest := drop _ _).
  destruct (socket_send_spec (cn_socket c) rest s Hg) as (Hg1 & Ec & Ep & Hn).
  destruct (socket_send (cn_socket c) rest s) as [r s1]. cbn [fst snd] in *.
  assert (Hstay : exists n, im_connections s1 = <[i := set_cn_handshake_sent n c]> (im_connections s)).
  { exists (cn_handshake_sent c). rewrite Ec. symmetry. apply list_insert_id. rewrite Hi. by destruct c. }
  destruct (io_status r); [|done..].
  split; [|exists (cn_handshake_sent c + io_count r); simpl; by rewrite Ec]. rewrite <- Ec in Hi.
  pose proof (conns_at _ _ _ _ _ _ (gd_conns _ _ (gd_core _ _ Hg1)) Hi) as Hok.
  assert (Hlen : cn_handshake_sent c + io_count r <= kHandshakeBytes).
  { unfold blen, rest in Hn. rewrite length_drop, (co_local _ _ _ _ Hok), handshake_length in Hn.
    pose proof (co_sent _ _ _ _ Hok). unfold kHandshakeBytes in *. lia. }
  eapply pass_good; [done|done|done|destruct Hok; by constructor|..|done|].
  - split; [|done]. intros id' l Hne. simpl. by rewrite bool_decide_false.
  - destruct (so_linked _ _ _ _ _ (gd_streams _ _ (gd_core _ _ Hg1)) i c Hi) as [L1 L2 L3].
    simpl. rewrite bool_decide_true by done. destruct (L1 Hph) as (Ew & Er & Ed & Ei). constructor; [|done|]; simpl.
    + intros _. split_and!; [|done..]. rewrite Ew, N2Nat.inj_add. unfold rest. by rewrite take_take_drop.
    + intros Hl q (Hq & Hcon & Ha). exfalso.
      by eapply (not_adopted cfg _ _ _ _ _ _ _ (gd_conns _ _ (gd_core _ _ Hg1)) (gd_settled _ _ Hg1) Hi Hl Hph).
Qed.

Lemma receive_handshake_good s i c :
  good cfg s -> im_connections s !! i = Some c -> cn_phase c <> ph_established ->
  good cfg (receive_handshake i s).2 /\
  exists n r, im_connections (receive_handshake i s).2 =
    <[i := set_cn_handshake_received n (set_cn_remote_handshake r c)]> (im_connections s).
Proof.
  intros Hg Hi Hph. unfold receive_handshake. rewrite (conn_at _ _ _ Hi).
  destruct (socket_receive_spec (cn_socket c) (kHandshakeBytes - cn_handshake_received c) s Hg) as (Hg1 & Ec & En & Hn & Hb).
  destruct (socket_receive (cn_socket c) (kHandshakeBytes - cn_handshake_received c) s) as [[r bs] s1]. cbn [fst snd] in *.
  assert (Hstay : exists n r, im_connections s1 = <[i := set_cn_handshake_received n (set_cn_remote_handshake r c)]> (im_connections s)).
  { exists (cn_handshake_received c), (cn_remote_handshake c). rewrite Ec. symmetry. apply list_insert_id. rewrite Hi. by destruct c. }
  destruct (io_status r); [|done..].
  split; [|eexists _, _; simpl; by rewrite Ec]. rewrite <- Ec in Hi.
  pose proof (conns_at _ _ _ _ _ _ (gd_conns _ _ (gd_core _ _ Hg1)) Hi) as Hok.
  destruct (co_remote _ _ _ _ Hok) as [Hrl Hrb]. pose proof (co_received _ _ _ _ Hok) as Hrc.
  unfold blen, kHandshakeBytes in *. rewrite En in *.
  set (at_ := N.to_nat (cn_handshake_received c)) in *.
  assert (Hsum : (at_ + length bs <= 56)%nat) by (unfold at_; lia).
  eapply pass_good; [done|done|done| |..|done|].
  - destruct Hok. constructor; try done; simpl; [unfold kHandshakeBytes; lia|]. split; [rewrite store_length; lia|].
    unfold store. repeat apply Forall_app_2; [by apply Forall_take|done|by apply Forall_drop].
  - split; [|done]. intros id' l Hne. simpl. by rewrite bool_decide_false.
  - destruct (so_linked _ _ _ _ _ (gd_streams _ _ (gd_core _ _ Hg1)) i c Hi) as [L1 L2 L3].
    simpl. rewrite bool_decide_true by done. destruct (L1 Hph) as (Ew & Er & Ed & Ei). constructor; [|done|]; simpl.
    + intros _. split_and!; [done| |done..]. rewrite Er. fold at_.
      replace (N.to_nat (cn_handshake_received c + N.of_nat (length bs))) with (at_ + length bs)%nat by (unfold at_; lia).
      unfold store. rewrite app_assoc. rewrite take_app_length'; [done|].
      rewrite length_app, length_take. lia.
    + intros Hl q (Hq & Hcon & Ha). exfalso.
      by eapply (not_adopted cfg _ _ _ _ _ _ _ (gd_conns _ _ (gd_core _ _ Hg1)) (gd_settled _ _ Hg1) Hi Hl Hph).
Qed.

Lemma connect_outcome_good s i c :
  good cfg s -> im_connections s !! i = Some c -> cn_phase c <> ph_established ->
  good cfg (connect_outcome i s).2 /\
  im_connections (connect_outcome i s).2 =
    (if (connect_outcome i s).1
     then <[i := conn (connect_outcome i s).2 i]> (im_connections s) else im_connections s) /\
  ((connect_outcome i s).1 = true -> cn_phase (conn (connect_outcome i s).2 i) = ph_handshake /\
     cn_socket (conn (connect_outcome i s).2 i) = cn_socket c).
Proof.
  intros Hg Hi Hph. unfold connect_outcome. rewrite (conn_at _ _ _ Hi).
  destruct (sys_good cfg (os_so_error (cn_socket c)) s Hg (law_open_so_error _ _)) as (Hg1 & _ & Ec1 & Eg1 & Ep1).
  destruct (sys (os_so_error (cn_socket c)) s) as [[[|e]|] s1]; cbn [fst snd] in *; [|done..].
  destruct (sys_good cfg os_now s1 Hg1 (law_open_now _)) as (Hg2 & _ & Ec2 & Eg2 & Ep2).
  destruct (sys os_now s1) as [now s2]. cbn [fst snd] in *.
  assert (Hi2 : im_connections s2 !! i = Some c) by by rewrite Ec2, Ec1. rewrite (set_conn_at _ _ c) by done.
  set (c' := set_cn_deadline _ _). split_and!; [|simpl; by rewrite Ec2, Ec1|done].
  pose proof (conns_at _ _ _ _ _ _ (gd_conns _ _ (gd_core _ _ Hg2)) Hi2) as Hok. destruct Hg2 as [Hc Hs].
  constructor; [|simpl; by eapply settled_update]. destruct Hc. constructor; simpl; try done; try by apply noted_mono.
  - eapply conns_update; [done|done| |done]. destruct Hok. by constructor.
  - eapply streams_update; [done..| |by left]. destruct (so_linked _ _ _ _ _ gd_streams i c Hi2) as [L1 L2 L3].
    constructor; [intros _; by apply L1|done|]. done.
Qed.

(** ** Established connections *)

Lemma frame_limit : tl_max_frame_bytes (tc_limits cfg) <= kAbsoluteMaxFrameBytes.
Proof.
  pose proof (cg_limits _ Hcfg) as Hl. unfold limits_ok in Hl. apply negb_true_iff in Hl.
  rewrite !orb_false_iff in Hl. destruct Hl as [[[[[[[[[[[_ Hl] _] _] _] _] _] _] _] _] _] _]. by apply N.ltb_ge in Hl.
Qed.

Lemma receive_frames_good s i c :
  good cfg s -> im_connections s !! i = Some c -> cn_phase c = ph_established ->
  good cfg (receive_frames i s).2 /\
  exists bs, im_connections (receive_frames i s).2 = <[i := set_cn_inbound bs c]> (im_connections s).
Proof.
  intros Hg Hi Hph. unfold receive_frames. rewrite (conn_at _ _ _ Hi). unfold limits. rewrite (gd_config _ _ (gd_core _ _ Hg)).
  pose proof (co_capacity _ _ _ _ (conns_at _ _ _ _ _ _ (gd_conns _ _ (gd_core _ _ Hg)) Hi)) as Hcap.
  pose proof frame_limit as Hlim.
  rewrite sub64_small by (done || (unfold kLengthPrefixBytes, kAbsoluteMaxFrameBytes, u64_max, u64_size in *; lia)).
  set (amount := N.min _ _). assert (Ham : amount <= kLengthPrefixBytes + tl_max_frame_bytes (tc_limits cfg) - blen (cn_inbound c))
    by apply N.le_min_l.
  destruct (socket_receive_spec (cn_socket c) amount s Hg) as (Hg1 & Ec & _ & Hn & Hb).
  destruct (socket_receive (cn_socket c) amount s) as [[r bs] s1]. cbn [fst snd] in *.
  assert (Hstay : exists bs, im_connections s1 = <[i := set_cn_inbound bs c]> (im_connections s)).
  { exists (cn_inbound c). rewrite Ec. symmetry. apply list_insert_id. rewrite Hi. by destruct c. }
  destruct (io_status r); [|done..]. split; [|eexists; simpl; by rewrite Ec]. rewrite <- Ec in Hi.
  pose proof (conns_at _ _ _ _ _ _ (gd_conns _ _ (gd_core _ _ Hg1)) Hi) as Hok.
  eapply pass_good; [done|done|done| |..|done|].
  - destruct Hok. constructor; try done; simpl; [by apply Forall_app_2|]. rewrite blen_app. lia.
  - split; [|done]. intros id' l Hne. simpl. by rewrite bool_decide_false.
  - destruct (so_linked _ _ _ _ _ (gd_streams _ _ (gd_core _ _ Hg1)) i c Hi) as [L1 L2 L3].
    simpl. rewrite bool_decide_true by done. constructor; [done| |done].
    intros _. destruct (L2 Hph) as (remote & Ep & [Hr Hgr (cs & ds & Hcs & Hds & Erd & Edl) Hw]).
    exists remote. split; [done|]. constructor; [done|done| |done]. exists cs, ds. split_and!; [done..| |done].
    simpl. by rewrite Erd, <- !app_assoc.
Qed.

(** A front frame of which [n] more bytes are written. *)
Lemma front_written p f q n :
  peer_ok (tc_limits cfg) p -> ps_outbound p = f :: q -> of_offset f + n <= blen (of_wire_bytes f) ->
  (of_offset f + n < blen (of_wire_bytes f) ->
     peer_ok (tc_limits cfg) (advance_front p n) \/ ps_connected p = false) /\
  unfinished (tl_max_frame_bytes (tc_limits cfg)) (take (N.to_nat (of_offset f)) (of_wire_bytes f)).
Proof.
  intros [B1 B2 B3 B4] Eq Hn. rewrite Eq in *. apply Forall_cons in B3 as [Hf Hq]. destruct B4 as (Hlt & H0 & Hz). split.
  - intros Hlt'. destruct (ps_connected p) eqn:Hc; [left|by right]. unfold advance_front. rewrite Eq. constructor; simpl.
    + by rewrite B1, !queue_bytes_cons.
    + done.
    + by constructor.
    + rewrite Hc. by split_and!.
  - right. destruct Hf as [Ew Hfit]. exists (payload f), (drop (N.to_nat (of_offset f)) (of_wire_bytes f)).
    split_and!; [done|by rewrite take_drop|]. intros E. apply (f_equal length) in E. rewrite length_drop in E.
    unfold blen in Hlt. simpl in E. lia.
Qed.

(** Bytes of the queue of a peer are written on its connection. *)
Lemma streams_written ids open peers cs tr made i c p p' bs :
  streams_ok cfg peers cs tr made -> conns_ok cfg ids cs open -> cs !! i = Some c -> live c ->
  cn_phase c = ph_established -> adopted peers c p ->
  ps_connected p' = true -> ps_active_socket p' = cn_socket c ->
  unfinished (tl_max_frame_bytes (tc_limits cfg)) (front_part p') ->
  (payload <$> ps_outbound p') `sublist_of` (payload <$> ps_outbound p) ->
  (forall l all,
     writes (tl_max_frame_bytes (tc_limits cfg)) (own_handshake cfg c) (cn_peer c) l (front_part p) (payload <$> ps_outbound p) all ->
     writes (tl_max_frame_bytes (tc_limits cfg)) (own_handshake cfg c) (cn_peer c)
       (mkFdLog (fl_written l ++ bs) (fl_read l) (fl_delivered l) (fl_dropped l))
       (front_part p') (payload <$> ps_outbound p') all) ->
  streams_ok cfg (<[cn_peer c := p']> peers) cs (tr ++ [io_sent (cn_id c) bs]) made.
Proof.
  intros Hst Hok Hi Hl Hph Had Hc' Ha' Hun Hsub Hw.
  pose proof (streams_pass cfg Hcfg ids open peers cs tr made i c c (io_sent (cn_id c) bs) Hst Hi ltac:(done)
    (conns_at _ _ _ _ _ _ Hok Hi)) as Hpass. pose proof Hst as [H1 H2 H3 H4 H5 H6].
  assert (Hlk : linked cfg (<[cn_peer c := p']> peers) c
    (log_event (cn_id c) (conn_log (cn_id c) tr) (io_sent (cn_id c) bs)) tr).
  { simpl. rewrite bool_decide_true by done. destruct (H2 i c Hi) as [_ L2 L3]. specialize (Hw _ _ (L3 Hl p Had)).
    constructor; [done|..].
    - intros _. destruct (L2 Hph) as (remote & Ep & [Hr Hgr Hrd _]). exists remote. split; [done|].
      constructor; [done|simpl; by apply prefix_app_r|done|].
      exists (front_part p'). split; [done|]. rewrite <- Ep. eapply writes_mono; [done|apply sublist_nil_l|done].
    - intros _ q (Hq & _). rewrite lookup_insert_eq in Hq. by injection Hq as <-. }
  assert (Hne : forall j d, cs !! j = Some d -> j <> i -> cn_id d <> cn_id c) by (intros j d Hj Hne E; by eapply Hne, H4).
  assert (Htr : forall x, queued_for x tr `sublist_of` queued_for x (tr ++ [io_sent (cn_id c) bs]))
    by (intros x; by rewrite queued_for_other).
  constructor; [..|done|done|].
  - intros id. rewrite conn_log_snoc. apply (log_ok_mono cfg _ tr); [|done].
    destruct (decide (id = cn_id c)) as [->|Hid]; [eapply (linked_log cfg Hcfg); [by eapply conns_at|done]|].
    simpl. by rewrite bool_decide_false.
  - intros j d Hj. rewrite conn_log_snoc. apply (linked_mono cfg _ _ _ tr); [|done].
    destruct (decide (j = i)) as [->|Hji]; [by assert (d = c) as -> by congruence|].
    simpl. rewrite bool_decide_false by (symmetry; by eapply Hne). destruct (H2 j d Hj) as [L1 L2 L3].
    constructor; [done..|]. intros Hld q (Hq & Hcq & Haq).
    apply lookup_insert_Some in Hq as [[_ <-]|[_ Hq]]; [|by apply L3]. destruct Hji.
    eapply (cs_distinct _ _ _ _ Hok); [done..|]. congruence.
  - intros j d id q Hj Hld Hq Hcq Haq. apply lookup_insert_Some in Hq as [[<- <-]|[_ Hq]]; [|by eapply H3].
    destruct Had as (Hp & Hc & Ha). eapply H3; [done..|]. congruence.
  - intros id q Hq. etrans; [|apply Htr]. apply lookup_insert_Some in Hq as [[<- <-]|[_ Hq]]; [|by apply H6].
    etrans; [done|]. apply H6, Had.
Qed.

(** [n] more bytes of the head of the queue. *)
Lemma writes_advance limit own peer l p f q n all :
  ps_outbound p = f :: q ->
  writes limit own peer l (front_part p) (payload <$> ps_outbound p) all ->
  writes limit own peer
    (mkFdLog (fl_written l ++ take (N.to_nat n) (drop (N.to_nat (of_offset f)) (of_wire_bytes f))) (fl_read l)
       (fl_delivered l) (fl_dropped l))
    (take (N.to_nat (of_offset f + n)) (of_wire_bytes f)) (payload f :: (payload <$> q)) all.
Proof.
  intros Eq Hw Hd. destruct (Hw Hd) as (fs & Hfs & Ew & Hs). rewrite Eq in Hs. exists fs. split_and!; [done| |done].
  simpl. rewrite Ew. unfold front_part. rewrite Eq, <- !app_assoc. f_equal. f_equal.
  by rewrite take_take_drop, N2Nat.inj_add.
Qed.

(** The head of the queue has been written. *)
Lemma writes_whole limit own peer l f q all :
  is_frame limit f -> writes limit own peer l (of_wire_bytes f) (payload f :: q) all -> writes limit own peer l [] q all.
Proof.
  intros [Hwire Hfit] Hw Hd. destruct (Hw Hd) as (fs & Hfs & Ew & Hs). exists (fs ++ [payload f]).
  split_and!; [by apply Forall_app_2, Forall_singleton| |by rewrite <- app_assoc].
  by rewrite Ew, stream_snoc, <- Hwire, app_nil_r.
Qed.

(** A queue whose head is not begun. *)
Lemma front_unbegun p : Forall (fun f => of_offset f = 0) (ps_outbound p) -> front_part p = [].
Proof. unfold front_part. destruct 1 as [|f q E _]; [done|]. by rewrite E. Qed.

Lemma write_frame_good s i c :
  good cfg s -> im_connections s !! i = Some c -> live c -> cn_phase c = ph_established ->
  good cfg (write_frame i s).2 /\ im_connections (write_frame i s).2 = im_connections s /\ (write_frame i s).1 <> None.
Proof.
  intros Hg Hi Hl Hph. pose proof (conns_at _ _ _ _ _ _ (gd_conns _ _ (gd_core _ _ Hg)) Hi) as Hok.
  pose proof (co_peer _ _ _ _ Hok Hph) as Hid. apply elem_of_dom in Hid as [p Hp].
  unfold write_frame. rewrite (conn_at _ _ _ Hi), Hp.
  destruct (ps_connected p) eqn:Hcon; [|done]. destruct (Z.eqb_spec (ps_active_socket p) (cn_socket c)) as [Hact|]; [|done].
  cbn [negb orb]. destruct (ps_outbound p) as [|f q] eqn:Eq; [done|].
  destruct (socket_send_spec (cn_socket c) (drop (N.to_nat (of_offset f)) (of_wire_bytes f)) s Hg) as (Hg1 & Ec & Ep & Hn).
  destruct (socket_send _ _ s) as [r s1]. cbn [fst snd] in *.
  destruct (io_status r); [|done..]. rewrite <- Ep in Hp. rewrite <- Ec in Hi. set (n := io_count r) in *.
  pose proof (qo_peers _ _ _ (gd_queues _ _ (gd_core _ _ Hg1)) _ _ Hp) as Hpok.
  pose proof (po_offsets _ _ Hpok) as Ho. rewrite Eq in Ho. destruct Ho as (Hlt & _ & Hz).
  assert (Hsum : of_offset f + n <= blen (of_wire_bytes f)) by (unfold blen in *; rewrite length_drop in Hn; lia).
  destruct (front_written p f q n Hpok Eq Hsum) as [Hadv _].
  assert (Had : adopted (im_peers s1) c p) by done.
  unfold pop_front, advance_front. rewrite Eq. cbn [ps_outbound set_ps_outbound of_offset of_wire_bytes].
  destruct (N.eqb_spec (of_offset f + n) (blen (of_wire_bytes f))) as [Efull|Epart];
    (split_and!; [constructor; [|simpl; erewrite active_update; [apply Hg1|done..]]|done|done]);
    destruct (gd_core _ _ Hg1).
  - constructor; simpl; try done; try first [by apply noted_mono|by erewrite dom_update|by eapply zero_update].
    + eapply queues_pop; [done|done|exact Eq|done|apply Hcfg|apply Hcfg].
    + assert (Hfp : forall p0, front_part (set_ps_outbound q p0) = []) by (intros p0; by apply front_unbegun).
      eapply streams_written; [done|done|done|done|done|exact Had|done|done|..]; rewrite ?Hfp;
        [by left|rewrite Eq; by apply sublist_cons|].
      intros l all Hw. apply (writes_advance _ _ _ _ _ _ _ n _ Eq) in Hw.
      rewrite (take_ge (of_wire_bytes f)) in Hw by (unfold blen in Efull; lia). apply writes_whole in Hw; [done|].
      pose proof (po_frames _ _ Hpok) as Hfr. rewrite Eq in Hfr. by apply Forall_cons in Hfr as [? _].
  - destruct Hadv as [Hp'|?]; [lia| |congruence]. unfold advance_front in Hp'. rewrite Eq in Hp'.
    constructor; simpl; try done; try first [by apply noted_mono|by erewrite dom_update|by eapply zero_update].
    + by eapply queues_update.
    + eapply streams_written; [done|done|done|done|done|exact Had|done|done|..|].
      * destruct (front_written _ (mkOutboundFrame (of_wire_bytes f) (of_offset f + n)) q 0 Hp' eq_refl) as [_ H];
          [simpl; lia|exact H].
      * by rewrite Eq.
      * intros l all Hw. by apply (writes_advance _ _ _ _ _ _ _ n _ Eq) in Hw.
Qed.

End traffic.
