(* ===== verification/TcpRun.v ===== *)
(** * TcpRun: every program of the I/O thread keeps the invariant

    Each function of the thread, from [close_connection] to [io_turn], keeps the
    invariant at every action and throws nothing but the failure of [select]. *)

From S2P Require Import Prelude Model StateMachine Bytes TcpTypes TcpWire TcpTransport TcpLoop TcpInv TcpFrames TcpConns TcpClose TcpTraffic.
#[local] Open Scope N_scope.

(** The exception of [io_loop]. *)
Definition select_failed (e : TcpExn) : Prop :=
  exists error, e = tcp_thrown (mkTcpTransportError io_error ("TCP select failed: " +:+ decimal error)).

Section run.
Context {O : Type} `{!Sockets O} {HL : SocketLaws O} (cfg : TcpTransportConfig) (Hcfg : config_ok cfg).
Abbreviation Impl := (TcpTransport.Impl O).
Abbreviation safe := (wp (S := Impl) (good cfg) im_connections select_failed).
Implicit Types (s : Impl) (i n : nat) (c : Connection) (cs : list Connection).

(** The number of connections stays. *)
Definition sized n {X} : X -> list Connection -> Prop := fun _ cs => length cs = n.

Ltac wlook s Hs Hg := apply iwp_look_bind; intros s Hs Hg.

Lemma at_index cs i : (i < length cs)%nat -> exists c, cs !! i = Some c.
Proof. intros Hi. by apply lookup_lt_is_Some_2 in Hi. Qed.

(** ** Closing *)

Lemma safe_attempt (f : Impl -> option Impl) (Q : unit -> list Connection -> Prop) cs :
  (forall s, im_connections s = cs -> good cfg s -> exists s', f s = Some s' /\ good cfg s' /\ Q tt (im_connections s')) ->
  safe (attempt f) Q cs.
Proof. intros Hf. apply iwp_act_bind. intros s Hs Hg. by destruct (Hf s Hs Hg) as (s' & -> & ? & ?). Qed.

Lemma safe_close i error notify cs :
  (i < length cs)%nat -> safe (close_connection i error notify) (sized (length cs)) cs.
Proof.
  intros Hi. destruct (at_index cs i Hi) as [c Hc]. apply safe_attempt. intros s Hs Hg. rewrite <- Hs in Hc.
  destruct (close_now_good cfg s i c error notify Hg Hc) as (s' & E & Hg' & Ec). exists s'. split_and!; [done..|].
  unfold sized. by rewrite Ec, length_insert, Hs.
Qed.

Lemma safe_close_noting i error cs : (i < length cs)%nat -> safe (close_noting i error) (sized (length cs)) cs.
Proof. intros Hi. wlook s Hs Hg. by apply safe_close. Qed.

(** Closing, and then a result. *)
Lemma safe_close_ret {A} i error notify (a : A) cs (Q : A -> list Connection -> Prop) :
  (i < length cs)%nat -> (forall cs', length cs' = length cs -> Q a cs') ->
  safe (close_connection i error notify >> Ret a) Q cs.
Proof. intros Hi HQ. eapply iwp_seq; [by apply safe_close|]. intros [] cs' Hcs'. by apply HQ. Qed.

Lemma safe_for_connections (body : nat -> prog Impl unit) cs :
  (forall i cs, (i < length cs)%nat -> safe (body i) (sized (length cs)) cs) ->
  safe (for_connections body) (sized (length cs)) cs.
Proof.
  intros Hbody. wlook s Hs Hg. rewrite Hs. unfold sized.
  apply (iwp_for_each _ _ _ _ _ (fun cs' => length cs' = length cs)); [done|].
  intros i cs' Hi Hlen. apply elem_of_seq in Hi. rewrite <- Hlen. apply Hbody. lia.
Qed.

Lemma safe_close_partitioned i cs : (i < length cs)%nat -> safe (close_partitioned i) (sized (length cs)) cs.
Proof.
  intros Hi. wlook s Hs Hg. destruct (own_peer i s) as [id|]; [|done]. wlook s' Hs' Hg'.
  destruct (peer_partitioned id s'); [by apply safe_close_noting|done].
Qed.

(** ** Frames *)

(** Connection [i] is established. *)
Definition working i n cs : Prop := length cs = n /\ exists c, cs !! i = Some c /\ cn_phase c = ph_established.

Lemma safe_process_frames fuel i n cs c :
  length cs = n -> cs !! i = Some c -> cn_phase c = ph_established -> (length (cn_inbound c) < fuel)%nat ->
  safe (process_frames fuel i) (fun _ => working i n) cs.
Proof.
  revert cs c. induction fuel as [|fuel IH]; intros cs c Hn Hi Hph Hf; [lia|].
  assert (Hw : working i n cs) by (split; [done|by exists c]).
  cbn [process_frames]. wlook s Hs Hg. rewrite <- Hs in Hi. destruct (next_frame i s) as [| |k] eqn:Hk; [done..|].
  apply (next_frame_complete cfg s i c k (gd_core _ _ Hg) Hi Hph) in Hk. rewrite Hs in Hi.
  assert (Hnext : forall cs', cs' = <[i := consumed c k]> cs -> safe (process_frames fuel i) (fun _ => working i n) cs').
  { intros cs' ->. apply (IH _ (consumed c k)); [by rewrite length_insert| |done|].
    - apply list_lookup_insert_eq. by eapply lookup_lt_Some.
    - simpl. destruct Hk as (_ & ? & _ & Hlen). unfold blen, kLengthPrefixBytes in *. rewrite length_drop. lia. }
  wlook s1 Hs1 Hg1. destruct (peer_partitioned _ s1).
  - apply iwp_modify_bind. intros s2 Hs2 Hg2. rewrite <- Hs2 in Hi.
    destruct (erase_frame_good cfg s2 i c k Hg2 Hi Hk) as [? Ec]. split; [done|]. apply Hnext. by rewrite Ec, Hs2.
  - apply iwp_act_bind. intros s2 Hs2 Hg2. rewrite <- Hs2 in Hi.
    destruct (take_frame_good cfg Hcfg s2 i c k Hg2 Hi Hk) as [? Ec]. split; [done|]. rewrite Ec.
    destruct (take_frame i k s2).1; [apply Hnext; by rewrite Hs2|by rewrite Hs2].
Qed.

Lemma safe_process_inbound i cs :
  working i (length cs) cs -> safe (process_inbound i) (fun _ => working i (length cs)) cs.
Proof.
  intros (_ & c & Hi & Hph). wlook s Hs Hg. rewrite <- Hs in Hi. rewrite (conn_at _ _ _ Hi). rewrite Hs in Hi.
  apply (safe_process_frames _ _ _ _ c); [done..|lia].
Qed.

Lemma working_index i n cs : working i n cs -> (i < n)%nat.
Proof. intros (<- & c & Hi & _). by eapply lookup_lt_Some. Qed.

Lemma established_working s i cs :
  im_connections s = cs -> (i < length cs)%nat -> is_established i s = true -> working i (length cs) cs.
Proof.
  intros Hs Hi He. split; [done|]. destruct (at_index cs i Hi) as [c Hc]. exists c. split; [done|].
  unfold is_established in He. rewrite <- Hs in Hc. rewrite (conn_at _ _ _ Hc) in He. by apply bool_decide_eq_true in He.
Qed.

Lemma safe_process_established i cs : (i < length cs)%nat -> safe (process_established i) (sized (length cs)) cs.
Proof.
  intros Hi. wlook s Hs Hg. destruct (is_established i s) eqn:He; [|done].
  eapply iwp_seq; [apply safe_process_inbound; by eapply established_working|]. intros b cs' Hw.
  destruct b; [apply Hw|]. rewrite <- (proj1 Hw). apply safe_close. rewrite (proj1 Hw). by eapply working_index.
Qed.

(** ** New connections *)

Lemma safe_attempt_peers now ids cs : safe (attempt_peers now ids) (fun _ _ => True) cs.
Proof.
  revert cs. induction ids as [|id ids IH]; intros cs; [done|]. cbn [attempt_peers].
  wlook s Hs Hg. destruct (not_due now id s) eqn:Hd; [apply IH|].
  assert (Hid : id ∈ peer_set cfg).
  { unfold not_due in Hd. rewrite <- (gd_peers _ _ (gd_core _ _ Hg)).
    destruct (im_peers s !! id) eqn:Hp; [|done]. by apply elem_of_dom. }
  wlook s1 Hs1 Hg1. destruct (not_wanted id s1); [apply IH|].
  wlook s2 Hs2 Hg2. destruct (connections_full s2) eqn:Hfull; [done|].
  apply iwp_modify_bind. intros s3 Hs3 Hg3. split; [|apply IH]. apply (attempt_peer_good cfg Hcfg); [done..|].
  rewrite <- Hfull. apply full_same; [by rewrite Hs2|].
  by rewrite (gd_config _ _ (gd_core _ _ Hg2)), (gd_config _ _ (gd_core _ _ Hg3)).
Qed.

Lemma safe_attempt_outgoing cs : safe attempt_outgoing (fun _ _ => True) cs.
Proof.
  apply iwp_act_bind. intros s Hs Hg. split; [by apply sys_good, law_open_now|].
  wlook s' Hs' Hg'. apply safe_attempt_peers.
Qed.

Lemma safe_diagnostic k id inc e cs (Q : unit -> list Connection -> Prop) :
  k <> tcp_message -> Q tt cs -> safe (modify (enqueue_diagnostic k id inc e)) Q cs.
Proof.
  intros Hk HQ. apply iwp_modify. intros s Hs Hg. split; [by apply push_event_good|].
  unfold enqueue_diagnostic. by rewrite (proj2 (push_event_rest _ s)), Hs.
Qed.

Lemma safe_accept_loop n cs : safe (accept_loop n) (fun _ _ => True) cs.
Proof.
  revert cs. induction n as [|n IH]; intros cs; [done|]. cbn [accept_loop]. wlook s Hs Hg. destruct (im_stopping s); [done|].
  apply iwp_act_bind. intros s1 Hs1 Hg1. split; [by apply (accept_one_good cfg Hcfg)|].
  destruct (accept_one s1).1; [done|by apply safe_diagnostic| |apply IH].
  apply iwp_bind, safe_diagnostic; [done|apply IH].
Qed.

Lemma safe_accept_connections cs : safe accept_connections (fun _ _ => True) cs.
Proof. wlook s Hs Hg. apply safe_accept_loop. Qed.

(** ** Handshakes *)

(** Connection [i] is in its handshake. *)
Definition shaking i n cs : Prop :=
  length cs = n /\ exists c, cs !! i = Some c /\ cn_phase c = ph_handshake /\ live c.

(** The pass goes on with connection [i] in its handshake, or it is closed. *)
Definition still_shaking i n (b : bool) cs : Prop := length cs = n /\ (b = true -> shaking i n cs).

Lemma shaking_index i n cs : shaking i n cs -> (i < n)%nat.
Proof. intros (<- & c & Hi & _). by eapply lookup_lt_Some. Qed.

(** An action on the handshake that may end the connection. *)
Lemma safe_handshake_step i n cs (f : Impl -> bool * Impl) :
  shaking i n cs ->
  (forall s c, good cfg s -> im_connections s !! i = Some c -> cn_phase c <> ph_established ->
     good cfg (f s).2 /\ exists c', im_connections (f s).2 = <[i := c']> (im_connections s) /\
       cn_phase c' = cn_phase c /\ cn_socket c' = cn_socket c) ->
  safe (ok <<- atomic f; if ok : bool then Ret true else close_connection i connection_down false >> Ret false)
    (still_shaking i n) cs.
Proof.
  intros Hsh Hf. pose proof (shaking_index _ _ _ Hsh) as Hin. destruct Hsh as (<- & c & Hi & Hph & Hl).
  apply iwp_act_bind. intros s Hs Hg. rewrite <- Hs in Hi.
  destruct (Hf s c Hg Hi ltac:(by rewrite Hph)) as (Hg' & c' & Ec & Eph & Es). split; [done|]. rewrite Ec, Hs.
  destruct (f s).1.
  - split; [by rewrite length_insert|]. intros _. split; [by rewrite length_insert|]. exists c'.
    split_and!; [apply list_lookup_insert_eq; by rewrite Hs in Hi|congruence|]. unfold live. by rewrite Es.
  - apply safe_close_ret; [by rewrite length_insert|]. intros cs' Hcs'. split; [by rewrite Hcs', length_insert|done].
Qed.

Lemma safe_write_handshake i n cs : shaking i n cs -> safe (write_handshake i) (still_shaking i n) cs.
Proof.
  intros Hsh. apply safe_handshake_step; [done|]. intros s c Hg Hi Hph.
  destruct (send_handshake_good cfg Hcfg s i c Hg Hi Hph) as (? & k & ?). split; [done|]. by exists (set_cn_handshake_sent k c).
Qed.

Lemma safe_read_handshake i n cs : shaking i n cs -> safe (read_handshake i) (still_shaking i n) cs.
Proof.
  intros Hsh. apply safe_handshake_step; [done|]. intros s c Hg Hi Hph.
  destruct (receive_handshake_good cfg Hcfg s i c Hg Hi Hph) as (? & k & r & ?). split; [done|].
  by exists (set_cn_handshake_received k (set_cn_remote_handshake r c)).
Qed.

Lemma safe_complete_connect i cs c :
  cs !! i = Some c -> cn_phase c = ph_connecting -> live c ->
  safe (complete_connect i) (still_shaking i (length cs)) cs.
Proof.
  intros Hi Hph Hl. apply iwp_act_bind. intros s Hs Hg. rewrite <- Hs in Hi.
  destruct (connect_outcome_good cfg s i c Hg Hi ltac:(by rewrite Hph)) as (Hg' & Ec & Eph). split; [done|]. rewrite Ec, Hs.
  pose proof (lookup_lt_Some _ _ _ Hi) as Hin. rewrite Hs in Hin. destruct (connect_outcome i s).1.
  - destruct (Eph eq_refl) as [Eph' Es]. split; [by rewrite length_insert|]. intros _.
    split; [by rewrite length_insert|]. eexists. split_and!; [by apply list_lookup_insert_eq|done|]. unfold live. by rewrite Es.
  - apply safe_close_ret; [done|]. intros cs' Hcs'. by split.
Qed.

Lemma safe_when_ready i n set call cs :
  shaking i n cs -> (forall cs, shaking i n cs -> safe (call i) (still_shaking i n) cs) ->
  safe (when_ready i set call) (still_shaking i n) cs.
Proof.
  intros Hsh Hcall. wlook s Hs Hg. destruct (ready i set s); [by apply Hcall|]. split; [apply Hsh|done].
Qed.

(** The handshake of connection [i] is complete. *)
Definition exchanged i n cs : Prop :=
  length cs = n /\ exists c, cs !! i = Some c /\ cn_phase c = ph_handshake /\ live c /\
    cn_handshake_sent c = kHandshakeBytes /\ cn_handshake_received c = kHandshakeBytes.

Lemma safe_finish_handshake i n cs : exchanged i n cs -> safe (finish_handshake i) (sized n) cs.
Proof.
  intros (Hn & c & Hi & Hph & Hl & Hsent & Hrec). apply iwp_act_bind. intros s Hs Hg. rewrite <- Hs in Hi.
  destruct (identify_good cfg s i c Hg Hi ltac:(by rewrite Hph)) as [Hg' Hid]. split; [done|].
  pose proof (lookup_lt_Some _ _ _ Hi) as Hin. destruct (identify i s).1 as [[[id inc] error]|].
  { rewrite Hid, Hs. apply iwp_bind, safe_diagnostic; [done|]. rewrite Hs in Hin. apply safe_close_ret; [done|]. unfold sized. by intros ? ->. }
  destruct Hid as (key & inc & id & Ec & Hident). set (c' := set_cn_key _ _) in *.
  set (cs1 := im_connections (identify i s).2) in *.
  assert (Hi1 : cs1 !! i = Some c') by (rewrite Ec; by apply list_lookup_insert_eq).
  assert (Hn1 : length cs1 = n) by (by rewrite Ec, length_insert, Hs).
  pose proof (lookup_lt_Some _ _ _ Hi1) as Hin1. clear Ec.
  assert (Hret : forall e, safe (close_connection i e false >> Ret false) (sized n) cs1).
  { intros e. apply safe_close_ret; [done|]. unfold sized. by intros ? ->. }
  wlook s1 Hs1 Hg1. destruct (peer_partitioned _ s1); [apply Hret|].
  apply iwp_act_bind. intros s2 Hs2 Hg2. rewrite <- Hs2 in Hi1.
  destruct (adopt_good cfg s2 i c' Hg2 Hi1) as (Hg3 & Hne & Hlen & Hdup); [by split_and!|]. split; [done|].
  destruct (adopt i s2).1 eqn:Er; [done|..].
  - rewrite (Hdup eq_refl), Hs2. apply iwp_modify_bind. intros s3 Hs3 Hg3'. split; [by apply push_event_good|].
    unfold enqueue_diagnostic. rewrite (proj2 (push_event_rest _ s3)), Hs3. apply Hret.
  - unfold sized. simpl. by rewrite Hlen, Hs2.
Qed.

Lemma safe_serve_handshake sets i n cs : shaking i n cs -> safe (serve_handshake sets i) (sized n) cs.
Proof.
  intros Hsh. eapply iwp_seq; [apply safe_when_ready; [done|apply safe_write_handshake]|].
  intros b cs1 [Hn1 Hb]. destruct b; [|done]. specialize (Hb eq_refl).
  eapply iwp_seq; [apply safe_when_ready; [done|apply safe_read_handshake]|].
  intros b cs2 [Hn2 Hb2]. destruct b; [|done]. destruct (Hb2 eq_refl) as (_ & c & Hi & Hph & Hl).
  wlook s Hs Hg. rewrite <- Hs in Hi. unfold handshake_done. rewrite (conn_at _ _ _ Hi).
  destruct (N.eqb_spec (cn_handshake_sent c) kHandshakeBytes) as [E1|]; [|done].
  destruct (N.eqb_spec (cn_handshake_received c) kHandshakeBytes) as [E2|]; [|done].
  eapply iwp_seq; [apply safe_finish_handshake; split; [done|]; exists c; by rewrite <- Hs|]. done.
Qed.

(** ** Established connections *)

Lemma safe_read_frames i n cs :
  working i n cs -> safe (read_frames i) (fun b cs => length cs = n /\ (b = true -> working i n cs)) cs.
Proof.
  intros Hw. pose proof (working_index _ _ _ Hw) as Hin. destruct Hw as (<- & c & Hi & Hph).
  apply iwp_act_bind. intros s Hs Hg. rewrite <- Hs in Hi.
  destruct (receive_frames_good cfg Hcfg s i c Hg Hi Hph) as (Hg' & bs & Ec). split; [done|].
  assert (Hw : working i (length cs) (im_connections (receive_frames i s).2)).
  { rewrite Ec. split; [by rewrite length_insert, Hs|]. exists (set_cn_inbound bs c).
    split; [apply list_lookup_insert_eq; by rewrite Hs|done]. }
  assert (Hret : forall e cs1, working i (length cs) cs1 ->
    safe (close_connection i e true >> Ret false) (fun b cs2 => length cs2 = length cs /\ (b = true -> working i (length cs) cs2)) cs1).
  { intros e cs1 Hw1. apply safe_close_ret; [by rewrite (proj1 Hw1)|]. intros cs' Hcs'. by rewrite Hcs', (proj1 Hw1). }
  destruct (receive_frames i s).1; [|split; [apply Hw|done]|by apply Hret..].
  eapply iwp_seq; [rewrite <- (proj1 Hw) in Hw; by apply safe_process_inbound|].
  intros b cs' Hw'. rewrite (proj1 Hw) in Hw'. destruct b; [|by apply Hret]. split; [apply Hw'|done].
Qed.

Lemma safe_serve_established sets i n cs : working i n cs -> safe (serve_established sets i) (sized n) cs.
Proof.
  intros Hw. eapply (iwp_seq _ _ _ _ _ (fun b cs => length cs = n /\ (b = true -> working i n cs))).
  { wlook s Hs Hg. destruct (ready i (fd_read sets) s); [by apply safe_read_frames|]. split; [apply Hw|done]. }
  intros b cs1 [Hn Hb]. destruct b; [|done]. destruct (Hb eq_refl) as (_ & c & Hi & Hph). cbn [negb].
  pose proof (lookup_lt_Some _ _ _ Hi) as Hin.
  wlook s Hs Hg. unfold no_socket. rewrite <- Hs in Hi. rewrite (conn_at _ _ _ Hi).
  destruct (Z.eqb_spec (cn_socket c) kInvalidSocket) as [|Hl]; [done|]. cbn [negb andb].
  destruct (ready i (fd_write sets) s); [|done]. rewrite Hs in Hi.
  apply iwp_act_bind. intros s1 Hs1 Hg1. rewrite <- Hs1 in Hi.
  destruct (write_frame_good cfg Hcfg s1 i c Hg1 Hi Hl Hph) as (Hg2 & Ec & Hne). split; [done|]. rewrite Ec, Hs1.
  destruct (write_frame i s1).1 as [[]|]; [done| |done]. rewrite <- Hn. by apply safe_close.
Qed.

Lemma safe_serve_open sets i cs c :
  cs !! i = Some c -> live c -> safe (serve_open sets i) (sized (length cs)) cs.
Proof.
  intros Hi Hl. wlook s Hs Hg. unfold in_phase at 1. rewrite <- Hs in Hi. rewrite (conn_at _ _ _ Hi). rewrite Hs in Hi.
  assert (Hrest : forall c cs1, cs1 !! i = Some c -> live c -> length cs1 = length cs ->
    safe (shaking <<- look (in_phase ph_handshake i);
          if shaking : bool then serve_handshake sets i
          else established <<- look (is_established i);
               if established : bool then serve_established sets i else Ret tt) (sized (length cs)) cs1).
  { clear c Hi Hl. intros c cs1 Hi Hl Hn. wlook s1 Hs1 Hg1. unfold in_phase.
    rewrite <- Hs1 in Hi. rewrite (conn_at _ _ _ Hi). rewrite Hs1 in Hi. case_bool_decide as Hph.
    - apply safe_serve_handshake. split; [done|]. by exists c.
    - wlook s2 Hs2 Hg2. destruct (is_established i s2) eqn:He; [|done]. apply safe_serve_established.
      rewrite <- Hn. eapply established_working; [done| |done]. by eapply lookup_lt_Some. }
  case_bool_decide as Hph; cbn [andb].
  - destruct (ready i (fd_write sets) s); cbn [andb]; [|by apply (Hrest c)].
    eapply iwp_seq; [by eapply safe_complete_connect|]. intros b cs1 [Hn Hb]. destruct b; [|done].
    destruct (Hb eq_refl) as (_ & c1 & Hi1 & Hph1 & Hl1). by apply (Hrest c1).
  - by apply (Hrest c).
Qed.

Lemma safe_serve now sets i cs : (i < length cs)%nat -> safe (serve now sets i) (sized (length cs)) cs.
Proof.
  intros Hin. destruct (at_index cs i Hin) as [c Hi]. wlook s Hs Hg. unfold no_socket.
  rewrite <- Hs in Hi. rewrite (conn_at _ _ _ Hi). rewrite Hs in Hi.
  destruct (Z.eqb_spec (cn_socket c) kInvalidSocket) as [|Hl]; [done|].
  wlook s1 Hs1 Hg1. destruct (expired now i s1); [by apply safe_close|].
  wlook s2 Hs2 Hg2. destruct (ready i (fd_error sets) s2); [by apply safe_close_noting|]. by eapply safe_serve_open.
Qed.

(** ** The loop *)

Lemma safe_select_sets ids sets n cs :
  (forall i, i ∈ ids -> (i < n)%nat) -> length cs = n -> safe (select_sets ids sets) (sized n) cs.
Proof.
  revert sets cs. induction ids as [|i ids IH]; intros sets cs Hids Hn; [done|]. cbn [select_sets].
  assert (Hids' : forall j, j ∈ ids -> (j < n)%nat) by (intros j Hj; apply Hids; by right).
  wlook s Hs Hg. destruct (no_socket i s); [by apply IH|].
  wlook s1 Hs1 Hg1. destruct (select_compatible (cn_socket (conn s1 i))).
  - wlook s2 Hs2 Hg2. wlook s3 Hs3 Hg3. wlook s4 Hs4 Hg4. by apply IH.
  - eapply iwp_seq; [apply safe_close_noting; rewrite Hn; apply Hids; by left|].
    intros [] cs' Hcs'. apply IH; [done|]. unfold sized in Hcs'. congruence.
Qed.

Lemma do_select_good sets s :
  good cfg s -> good cfg (do_select sets s).2 /\ im_connections (do_select sets s).2 = im_connections s.
Proof.
  intros Hg. unfold do_select.
  destruct (sys_good cfg (os_select sets (poll_timeout s)) s Hg (law_open_select _ _ _)) as (Hg1 & _ & Ec & _).
  by destruct (sys _ s) as [[r|] s1].
Qed.

Lemma safe_io_turn cs : safe io_turn (fun _ _ => True) cs.
Proof.
  unfold io_turn. wlook s Hs Hg. destruct (im_stopping s); [done|].
  apply iwp_modify_bind. intros s1 Hs1 Hg1. split; [by apply (drop_closed_good cfg)|].
  eapply iwp_seq; [apply safe_for_connections, safe_close_partitioned|]. intros [] cs1 _.
  eapply iwp_seq; [apply safe_attempt_outgoing|]. intros [] cs2 _.
  eapply iwp_seq; [apply safe_for_connections, safe_process_established|]. intros [] cs3 _.
  wlook s2 Hs2 Hg2. wlook s3 Hs3 Hg3. rewrite Hs3.
  eapply iwp_seq; [apply (safe_select_sets _ _ (length cs3)); [|done]; intros i Hi; apply elem_of_seq in Hi; lia|].
  intros sets cs4 _. apply iwp_act_bind. intros s4 Hs4 Hg4. destruct (do_select_good sets s4 Hg4) as [Hg5 Ec].
  split; [done|]. rewrite Ec. destruct (do_select sets s4).1 as [error|ready_sets].
  { destruct (interrupted_error error); [done|]. by exists error. }
  eapply (iwp_seq _ _ _ _ _ (fun _ _ => True)).
  { destruct (FD_ISSET _ _); [apply safe_accept_connections|done]. }
  intros [] cs5 _. apply iwp_act_bind. intros s6 Hs6 Hg6. split; [by apply sys_good, law_open_now|].
  eapply iwp_seq; [apply safe_for_connections, safe_serve|]. done.
Qed.

End run.
