(* ===== verification/TcpMachine.v ===== *)
(** * TcpMachine: a transport with its I/O thread, in any schedule

    The steps of a transport: an action of the thread, a call of the owner, or
    something that happens in the network.  The invariant holds in every state that
    they reach, and [stop] ends the thread. *)

From stdpp Require Import relations.
From S2P Require Import Prelude Model StateMachine Bytes TcpTypes TcpWire TcpTransport TcpLoop TcpInv TcpFrames TcpConns TcpClose TcpTraffic TcpRun.
#[local] Open Scope N_scope.

Section machine.
Context {O : Type} `{!Sockets O} {HL : SocketLaws O}.
Abbreviation Impl := (TcpTransport.Impl O).
Abbreviation Machine := (TcpLoop.Machine O).
Implicit Types (s : Impl) (m : Machine) (cfg : TcpTransportConfig).

(** No thread is running. *)
Definition idle m : Prop := mc_thread m = no_thread \/ mc_thread m = thread_done.

(** Steps of others than the I/O thread.  [stop] is two steps: the request, and
    what follows when the thread has ended. *)
Inductive other_step m : Machine -> Prop :=
  | do_send peer f : bytes_ok f -> other_step m (tt_send peer f m).2
  | do_poll n : other_step m (tt_poll n m).2
  | do_partition peer b : other_step m (tt_set_peer_partitioned peer b m).2
  | do_request_stop : other_step m (request_stop m)
  | do_joined : idle m -> other_step m (mkMachine (set_im_running false (mc_impl m)) (mc_thread m))
  | do_network o : os_open o = os_open (im_os (mc_impl m)) ->
      other_step m (mkMachine (set_im_os o (mc_impl m)) (mc_thread m)).

Inductive machine_step m : Machine -> Prop :=
  | do_thread : machine_step m (thread_step m)
  | do_start : idle m \/ im_started (mc_impl m) = true -> machine_step m (tt_start m).2
  | do_other m' : other_step m m' -> machine_step m m'.

(** What a transport that was constructed can become. *)
Definition machine_reachable (c : TcpTransportConfig) (m : Machine) : Prop :=
  exists now counter o m0, u64 now /\ u64 counter /\ tt_new c now counter o = inr m0 /\ rtc machine_step m0 m.

(** The values of a configuration fit their types. *)
Record config_fits (c : TcpTransportConfig) : Prop := {
  cf_per_peer : u64 (tl_max_outbound_bytes_per_peer (tc_limits c));
  cf_total : u64 (tl_max_total_outbound_bytes (tc_limits c));
  cf_events : u64 (tl_max_inbound_event_bytes (tc_limits c));
  cf_high : u64 (ti_cluster_id_high (tc_identity c));
  cf_low : u64 (ti_cluster_id_low (tc_identity c));
  cf_node : u32 (ti_node_id (tc_identity c));
  cf_incarnation : u64 (tc_incarnation c);
}.

(** ** Construction *)

Lemma log2_u64 x : u64 x -> N.log2 x < 64.
Proof.
  intros Hx. destruct (decide (x = 0)) as [->|Hne]; [done|]. apply N.log2_lt_pow2; [lia|].
  unfold u64, u64_max, u64_size in *. lia.
Qed.

Lemma lxor_u64 a b : u64 a -> u64 b -> u64 (N.lxor a b).
Proof.
  intros Ha Hb. destruct (decide (N.lxor a b = 0)) as [->|Hne]; [done|]. unfold u64, u64_max, u64_size in *.
  assert (N.lxor a b < 2 ^ 64); [|lia]. apply N.log2_lt_pow2; [lia|].
  eapply N.le_lt_trans; [apply N.log2_lxor|].
  by apply N.max_lub_lt; apply log2_u64.
Qed.

Lemma automatic_incarnation_fits node now counter :
  u64 now -> u64 counter -> u64 (automatic_incarnation node now counter) /\ automatic_incarnation node now counter <> 0.
Proof.
  intros Hn Hc. unfold automatic_incarnation.
  assert (u64 (N.lxor (N.lxor now (wrap64 (N.shiftl node 32))) counter)).
  { apply lxor_u64; [apply lxor_u64; [done|apply wrap64_range]|done]. }
  destruct (N.eqb_spec (N.lxor (N.lxor now (wrap64 (N.shiftl node 32))) counter) 0); [split; [done|lia]|done].
Qed.

Lemma validate_peers_zero c seen ps (o : O) o' :
  validate_peers c seen ps o = (inr tt, o') -> Forall (fun p => pe_node_id p <> 0) ps.
Proof.
  revert seen o. induction ps as [|p ps IH]; intros seen o; [constructor|]. simpl.
  destruct (pe_node_id p =? ti_node_id (tc_identity c)); [done|].
  destruct (N.eqb_spec (pe_node_id p) 0); [done|]. case_bool_decide; [done|].
  destruct (resolve_ipv4 _ _ _ o) as [[e|a] o1]; [done|]. intros Hv. constructor; [done|]. by eapply IH.
Qed.

(** A peer that has just been made. *)
Definition unborn (p : PeerState) : Prop :=
  ps_outbound p = [] /\ ps_queued_bytes p = 0 /\ ps_connected p = false.

Lemma make_peers_spec c ps pm0 (o : O) pm o' :
  make_peers c ps pm0 o = (inr pm, o') -> map_Forall (fun _ => unborn) pm0 ->
  map_Forall (fun _ => unborn) pm /\ dom pm = list_to_set (pe_node_id <$> ps) ∪ dom pm0.
Proof.
  revert pm0 o. induction ps as [|p ps IH]; intros pm0 o; simpl.
  { intros [= <- <-] H0. split; [done|by rewrite union_empty_l_L]. }
  destruct (resolve_ipv4 _ _ _ o) as [[e|a] o1]; [done|]. intros Hm H0.
  destruct (IH _ _ Hm) as [H1 H2].
  { destruct (pm0 !! pe_node_id p); [done|]. by apply map_Forall_insert_2. }
  split; [done|]. rewrite H2. destruct (pm0 !! pe_node_id p) as [q|] eqn:Hq.
  - rewrite <- union_assoc_L, (subseteq_union_1_L {[pe_node_id p]}); [done|].
    apply singleton_subseteq_l, elem_of_union_r, elem_of_dom. by exists q.
  - rewrite dom_insert_L, union_assoc_L. by rewrite (union_comm_L (list_to_set _)).
Qed.

Lemma unborn_good c pm (o : O) port fd nonce running started stopping fatal :
  map_Forall (fun _ => unborn) pm -> dom pm = peer_set c -> 0 ∉ peer_set c -> config_ok c -> u64 nonce ->
  good c (mkImpl c pm [] 0 0 fd port nonce stopping running started fatal [] o [] 0).
Proof.
  intros Hm Hd H0 Hcfg Hn. assert (Hno : forall id p, pm !! id = Some p -> ps_connected p = false).
  { intros id p Hp. apply (Hm id p Hp). }
  constructor; [constructor; simpl; try done|].
  - constructor; [|symmetry|lia].
    + intros id p Hp. destruct (Hm id p Hp) as (? & ? & ?). by apply peer_ok_cleared.
    + clear Hd Hno. induction pm as [|id p pm Hi _ IH] using map_first_key_ind; [done|].
      rewrite all_queued_insert_new by done. apply map_Forall_insert in Hm as [(_ & -> & _) Hm]; [|done]. by rewrite IH.
  - by constructor; simpl; try lia.
  - constructor.
  - constructor; [constructor|done|simpl; lia].
  - constructor; [intros id; by apply blank_log_ok|done|done|done|constructor|].
    intros id p Hp. destruct (Hm id p Hp) as (-> & _). done.
  - apply not_elem_of_dom. by rewrite Hd.
  - intros id fd' Ha. simpl in Ha. unfold active_of in Ha. apply lookup_fmap_Some in Ha as (p & [= E _] & Hp).
    by rewrite (Hno id p Hp) in E.
Qed.

Lemma new_good c now counter (o : O) s o' :
  Impl_new c now counter o = (inr s, o') -> config_fits c -> u64 now -> u64 counter ->
  config_ok (im_config s) /\ good (im_config s) s /\ tc_limits (im_config s) = tc_limits c /\
  tc_identity (im_config s) = tc_identity c /\ tc_peers (im_config s) = tc_peers c.
Proof.
  intros Hnew [] Hnow Hcnt. unfold Impl_new in Hnew.
  destruct (validate_config c o) as [[e|[]] o1] eqn:Hv; [done|]. unfold validate_config in Hv.
  destruct (ti_node_id (tc_identity c) =? 0); [done|]. destruct (limits_ok (tc_limits c)) eqn:Hl; [|done].
  destruct (resolve_ipv4 _ _ _ o) as [[e|a] o2]; [done|].
  destruct (validate_peers c ∅ (tc_peers c) o2) as [[e|[]] o3] eqn:Hp; [done|]. apply validate_peers_zero in Hp.
  set (c' := if tc_incarnation c =? 0 then _ else _) in *.
  destruct (automatic_incarnation_fits (ti_node_id (tc_identity c)) now counter Hnow Hcnt) as [Hi _].
  assert (Hc' : tc_limits c' = tc_limits c /\ tc_identity c' = tc_identity c /\ tc_peers c' = tc_peers c /\ u64 (tc_incarnation c')).
  { unfold c'. by destruct (tc_incarnation c =? 0). }
  destruct Hc' as (E1 & E2 & E3 & E4).
  destruct (make_peers c' (tc_peers c') ∅ o1) as [[e|pm] o4] eqn:Hm; [done|].
  injection Hnew as <- <-. simpl. apply make_peers_spec in Hm as [Hm Hd]; [|apply map_Forall_empty].
  assert (Hcfg : config_ok c') by (constructor; rewrite ?E1, ?E2; try done; by split_and!).
  split_and!; [done| |done..]. apply unborn_good; try done.
  - rewrite Hd, dom_empty_L, union_empty_r_L. done.
  - unfold peer_set. rewrite E3, elem_of_list_to_set, list_elem_of_fmap. intros (p & E & Hin).
    rewrite Forall_forall in Hp. by destruct (Hp p Hin).
Qed.

(** ** [start] *)

Section invariant.
Context (cfg : TcpTransportConfig) (Hcfg : config_ok cfg).

Lemma good_listener s fd : good cfg s -> good cfg (set_im_listener fd s).
Proof. intros Hg. eapply good_core; [done| |done|done]. by eapply core_same; [apply Hg|..]. Qed.

Lemma start_failed_good {A} what error s :
  good cfg s -> fresh (im_listener s) s -> good cfg (start_failed (A := A) what error s).2.
Proof. intros Hg Hf. by apply good_listener, close_fd_good. Qed.

Lemma started_good s port : good cfg s ->
  good cfg (set_im_running true (set_im_stopping false (set_im_started true (set_im_listening_port port s)))).
Proof. intros Hg. eapply good_core; [done| |done|done]. by eapply core_same; [apply Hg|..]. Qed.

Lemma start_good s : good cfg s -> good cfg (start s).2.
Proof.
  intros Hg. unfold start. destruct (im_started s); [done|].
  unfold sys at 1. destruct (os_socket (im_os s)) as [fd o] eqn:Esock.
  destruct (socket_good cfg s fd o Hg Esock) as [Hg1 Hfr]. set (s1 := set_im_listener fd (set_im_os o s)).
  assert (Hgs1 : good cfg s1) by by apply good_listener.
  destruct (Z.eqb_spec fd kInvalidSocket) as [->|Hne]; [done|]. assert (Hf1 : fresh fd s1) by by apply Hfr.
  destruct (select_compatible fd); cbn [negb]; [|by apply good_listener, close_fd_good].
  set (s2 := set_im_os (os_reuse_address fd (im_os s1)) s1).
  assert (Hg2 : good cfg s2) by (apply good_os; [done|]; by rewrite law_open_reuse).
  assert (Hf2 : fresh fd s2) by (apply fresh_os; [done|apply law_open_reuse]).
  assert (El : forall X (f : O -> X * O) s, im_listener (sys f s).2 = im_listener s)
    by (intros X f s'; unfold sys; by destruct (f (im_os s'))).
  destruct (sys_good cfg (os_nonblocking fd) s2 Hg2 (law_open_nonblocking _ _)) as (Hg3 & Hf3 & _).
  pose proof (El _ (os_nonblocking fd) s2) as E3. destruct (sys (os_nonblocking fd) s2) as [b s3]. cbn [snd] in *.
  specialize (Hf3 fd Hf2). destruct b; cbn [negb]; [|apply start_failed_good; [done|by rewrite E3]].
  set (r := resolve_ipv4 _ _ _).
  destruct (sys_good cfg r s3 Hg3 (resolve_open _ _ _ _)) as (Hg4 & Hf4 & _). pose proof (El _ r s3) as E4.
  destruct (sys r s3) as [[e|a] s4]; [done|]. cbn [snd] in *. specialize (Hf4 fd Hf3).
  destruct (sys_good cfg (os_bind fd a) s4 Hg4 (law_open_bind _ _ _)) as (Hg5 & Hf5 & _).
  pose proof (El _ (os_bind fd a) s4) as E5. destruct (sys (os_bind fd a) s4) as [bound s5]. cbn [snd] in *.
  specialize (Hf5 fd Hf4).
  set (l := os_listen fd (tl_max_pending_connections (limits s5))).
  assert (H6 : good cfg (if bound then sys l s5 else (false, s5)).2 /\ fresh fd (if bound then sys l s5 else (false, s5)).2 /\
    im_listener (if bound then sys l s5 else (false, s5)).2 = fd).
  { destruct bound; [|cbn [snd]; split_and!; [done|done|by rewrite E5, E4, E3]].
    destruct (sys_good cfg l s5 Hg5 (law_open_listen _ _ _)) as (? & Hf & _).
    split_and!; [done|by apply Hf|by rewrite El, E5, E4, E3]. }
  destruct (if bound then sys l s5 else (false, s5)) as [b s6]. cbn [snd] in *. destruct H6 as (Hg6 & Hf6 & E6).
  destruct b; cbn [negb]; [|apply start_failed_good; [done|by rewrite E6]].
  destruct (sys_good cfg (os_getsockname fd) s6 Hg6 (law_open_getsockname _ _)) as (Hg7 & Hf7 & _).
  pose proof (El _ (os_getsockname fd) s6) as E7.
  destruct (sys (os_getsockname fd) s6) as [[port|] s7]; cbn [snd] in *; specialize (Hf7 fd Hf6);
    [|apply start_failed_good; [done|by rewrite E7, E6]].
  apply (started_good _ port) in Hg7. set (s8 := set_im_running true _) in *.
  destruct (sys_good cfg os_thread s8 Hg7 (law_open_thread _)) as (Hg9 & Hf9 & _).
  destruct (sys os_thread s8) as [b s9]. cbn [snd] in *. specialize (Hf9 fd Hf7). destruct b; [done|].
  apply good_listener, close_fd_good; [|done]. eapply good_core; [done| |done|done]. by eapply core_same; [apply Hg9|..].
Qed.

(** ** The end of the thread *)

Lemma close_all_core ids s :
  core cfg s -> Forall (fun i => (i < length (im_connections s))%nat) ids ->
  core cfg (close_all ids s) /\ length (im_connections (close_all ids s)) = length (im_connections s) /\
  (forall i c, im_connections (close_all ids s) !! i = Some c -> live c -> im_connections s !! i = Some c /\ i ∉ ids).
Proof.
  intros Hc Hids. revert s Hc Hids. induction ids as [|i ids IH]; intros s Hc Hids.
  { simpl. split_and!; [done..|]. intros j c Hj _. split; [done|apply not_elem_of_nil]. }
  apply Forall_cons in Hids as [Hi Hids]. destruct (lookup_lt_is_Some_2 _ _ Hi) as [c Hci].
  destruct (close_socket_closes cfg s i c Hc Hci) as [Hc1 Ec _]. cbn [close_all].
  destruct (IH (close_socket i s) Hc1) as (Hc2 & Hlen & Hrest).
  { rewrite Ec. eapply Forall_impl; [exact Hids|]. intros j Hj. by rewrite length_insert. }
  split_and!; [done|by rewrite Hlen, Ec, length_insert|]. intros j d Hj Hl. destruct (Hrest j d Hj Hl) as [Hd Hni].
  rewrite Ec in Hd. apply list_lookup_insert_Some in Hd as [(<- & <- & _)|[Hne Hd]]; [by destruct (closed_dead c)|].
  split; [done|]. by apply not_elem_of_cons.
Qed.

Lemma finish_good s : core cfg s -> good cfg (forget_peers (close_sockets s)).
Proof.
  intros Hc. unfold close_sockets. set (s1 := close_all _ s).
  destruct (close_all_core (seq 0 (length (im_connections s))) s Hc) as (Hc1 & Hlen & Hdead).
  { apply Forall_forall. intros i Hi. apply elem_of_seq in Hi. lia. }
  fold s1 in Hc1, Hlen, Hdead.
  assert (Hun : forall fd, unused fd (im_connections s1)).
  { intros fd i c Hi Hl. destruct (Hdead i c Hi Hl) as [Hs Hni]. destruct Hni. apply elem_of_seq.
    apply lookup_lt_Some in Hs. lia. }
  assert (Hc2 : core cfg (close_fd (im_listener s1) s1)).
  { unfold close_fd. destruct (im_listener s1 =? kInvalidSocket)%Z; [done|]. destruct Hc1. constructor; simpl; try done.
    rewrite law_close. apply conns_unopen; [done|apply Hun]. }
  set (s2 := close_fd (im_listener s1) s1) in *. destruct Hc2. constructor; [constructor; simpl; try done|].
  - by eapply queues_forget.
  - by rewrite dom_fmap_L.
  - eapply streams_peers; [done|..].
    + intros id p Hp Hcon. apply lookup_fmap_Some in Hp as (q & <- & _). done.
    + intros id p Hp. apply lookup_fmap_Some in Hp as (q & <- & Hq). exists q. split; [done|apply sublist_nil_l].
  - by rewrite dom_fmap_L.
  - by rewrite lookup_fmap, gd_zero.
  - intros id fd Ha. simpl in Ha. unfold active_of in Ha. rewrite <- map_fmap_compose in Ha.
    by apply lookup_fmap_Some in Ha as (q & [= ?] & _).
Qed.

Definition tail_safe (p : prog Impl unit) (cs : list Connection) : Prop :=
  wp (good cfg) im_connections (fun _ => False) p (fun _ _ => True) cs.

Lemma good_running s b : good cfg s -> good cfg (set_im_running b s).
Proof. intros Hg. eapply good_core; [done| |done|done]. by eapply core_same; [apply Hg|..]. Qed.

Lemma safe_io_tail cs : tail_safe io_tail cs.
Proof.
  apply iwp_modify_bind. intros s Hs Hg. split; [apply finish_good, Hg|].
  apply iwp_modify. intros s' Hs' Hg'. split; [by apply good_running|done].
Qed.

Lemma safe_fatal_tail cs : tail_safe (modify (mark_fatal io_error) >> io_tail) cs.
Proof.
  apply iwp_modify_bind. intros s Hs Hg. split; [|apply safe_io_tail]. apply push_event_good; [|done].
  eapply good_core; [done| |done|done]. by eapply core_same; [apply Hg|..].
Qed.

(** ** The invariant of a machine *)

Definition thread_ok (th : Thread O) (cs : list Connection) : Prop :=
  match th with
  | in_loop p => wp (good cfg) im_connections select_failed p (fun _ _ => True) cs
  | in_tail p => tail_safe p cs
  | _ => True
  end.

Definition machine_ok m : Prop := good cfg (mc_impl m) /\ thread_ok (mc_thread m) (im_connections (mc_impl m)).

Lemma thread_step_ok m : machine_ok m -> machine_ok (thread_step m).
Proof.
  intros [Hg Hth]. unfold thread_step. destruct m as [s th]. simpl in *.
  destruct th as [|[[]|e|X f k]|[a|e|X f k]|]; simpl in *; try done.
  - split; [done|]. by apply (safe_io_turn cfg).
  - split; [done|]. apply safe_io_tail.
  - split; [done|]. apply safe_fatal_tail.
  - destruct (Hth s eq_refl Hg) as [Hg' Hk]. by destruct (f s).
  - destruct (Hth s eq_refl Hg) as [Hg' Hk]. by destruct (f s).
Qed.

Lemma other_step_ok m m' : machine_ok m -> other_step m m' -> machine_ok m'.
Proof.
  intros [Hg Hth] Hstep. destruct Hstep as [peer f Hf|n|peer b| | |o Ho].
  - unfold tt_send, on_impl. pose proof (send_good cfg peer f (mc_impl m) Hcfg Hg Hf) as Hg'.
    destruct (send_still peer f (mc_impl m)) as [_ Ec]. destruct (send peer f (mc_impl m)) as [r s]. simpl in *.
    split; [done|]. simpl. by rewrite Ec.
  - unfold tt_poll, on_impl. pose proof (poll_good cfg n (mc_impl m) Hcfg Hg) as Hg'. by split.
  - unfold tt_set_peer_partitioned, on_impl. pose proof (partition_good cfg peer b (mc_impl m) Hcfg Hg) as Hg'.
    destruct (partition_still peer b (mc_impl m)) as [_ Ec].
    destruct (set_peer_partitioned peer b (mc_impl m)) as [r s]. simpl in *. split; [done|]. simpl. by rewrite Ec.
  - split; [|done]. eapply good_core; [exact Hg| |done|done]. by eapply core_same; [apply Hg|..].
  - split; [|done]. by apply good_running.
  - split; [|done]. apply good_os; [done|]. by rewrite Ho.
Qed.

Lemma machine_step_ok m m' : machine_ok m -> machine_step m m' -> machine_ok m'.
Proof.
  intros Hm [|Hi|m1 Hs]; [by apply thread_step_ok| |by eapply other_step_ok]. destruct Hm as [Hg Hth]. unfold tt_start.
  pose proof (start_good (mc_impl m) Hg) as Hg'. destruct (start (mc_impl m)) as [[e|[]] s] eqn:Es; simpl in *.
  - destruct Hi as [[E|E]|E]; [split; [done|by simpl; rewrite E]..|].
    unfold start in Es. rewrite E in Es. injection Es as _ <-. done.
  - split; [done|]. by apply (safe_io_turn cfg).
Qed.

End invariant.

Lemma reachable_ok c m :
  config_fits c -> machine_reachable c m ->
  exists cfg, config_ok cfg /\ machine_ok cfg m /\ tc_limits cfg = tc_limits c /\
    tc_identity cfg = tc_identity c /\ tc_peers cfg = tc_peers c.
Proof.
  intros Hc (now & counter & o & m0 & Hnow & Hcnt & Hnew & Hrun). unfold tt_new in Hnew.
  destruct (Impl_new c now counter o) as [[e|s] o'] eqn:E; [done|]. injection Hnew as <-.
  destruct (new_good c now counter o s o' E Hc Hnow Hcnt) as (Hcfg & Hg & E1 & E2 & E3).
  exists (im_config s). split_and!; [done| |done..].
  assert (H0 : machine_ok (im_config s) (mkMachine s no_thread)) by done. revert H0.
  induction Hrun as [|x y z Hxy _ IH]; intros Hx; [done|]. apply IH. by eapply machine_step_ok.
Qed.

End machine.
