(* ===== verification/TcpStop.v ===== *)
(** * TcpStop: what the I/O thread leaves alone, and that it ends

    No action of the thread takes a frame to send or takes back the request to
    stop, and every program of it is finite; so the thread leaves its loop at the
    next turn at the latest.  A transport that has been started stays started, so
    that a thread which has failed is never followed by another one. *)

From stdpp Require Import relations.
From S2P Require Import Prelude Model StateMachine Bytes TcpTypes TcpWire TcpTransport TcpLoop TcpInv TcpFrames TcpConns TcpClose TcpTraffic TcpRun TcpMachine.
#[local] Open Scope N_scope.

(** The frames that [send] has taken, with their peers. *)
Definition handed (tr : list Io) : list (NodeId * list N) :=
  omap (fun e => match e with io_queued id f => Some (id, f) | _ => None end) tr.

Lemma handed_snoc tr e :
  handed (tr ++ [e]) = handed tr ++ match e with io_queued id f => [(id, f)] | _ => [] end.
Proof. unfold handed. rewrite omap_app. by destruct e. Qed.

Section kept.
Context {O : Type} `{!Sockets O}.
Abbreviation Impl := (TcpTransport.Impl O).
Implicit Types (s : Impl) (i : nat).

(** What stays. *)
Definition kept s : bool * (bool * list (NodeId * list N)) := (im_stopping s, (im_started s, handed (im_trace s))).

Definition keeps {X} (f : Impl -> X * Impl) : Prop := forall s, kept (f s).2 = kept s.

Lemma kept_note e s : match e with io_queued _ _ => False | _ => True end -> kept (note e s) = kept s.
Proof. intros He. unfold kept. simpl. rewrite handed_snoc. destruct e; try done; by rewrite app_nil_r. Qed.

(** Computes what is kept. *)
Ltac kept_eq :=
  unfold kept in *; simpl in *; rewrite ?handed_snoc; simpl; rewrite ?app_nil_r; congruence.

(** All actions of a program let it stay. *)
Fixpoint patient {A} (p : prog Impl A) : Prop :=
  match p with
  | Ret _ => True
  | Raise _ => True
  | Act f k => keeps f /\ forall x, patient (k x)
  end.

Lemma patient_bind {A B} (p : prog Impl A) (k : A -> prog Impl B) :
  patient p -> (forall a, patient (k a)) -> patient (prog_bind p k).
Proof. intros Hp Hk. induction p as [a|e|X f j IH]; simpl; [done..|]. destruct Hp as [? ?]. split; auto. Qed.

Lemma patient_atomic {X} (f : Impl -> X * Impl) : keeps f -> patient (atomic f).
Proof. intros Hf. by split. Qed.

Lemma patient_look {X} (f : Impl -> X) : patient (look f).
Proof. by split. Qed.

Lemma patient_modify (f : Impl -> Impl) : (forall s, kept (f s) = kept s) -> patient (modify f).
Proof. intros Hf. by split. Qed.

Lemma patient_for_each ids (body : nat -> prog Impl unit) :
  (forall i, patient (body i)) -> patient (for_each ids body).
Proof. intros Hb. induction ids as [|i ids IH]; [done|]. apply patient_bind; [done|]. by intros. Qed.

(** ** The actions *)

Lemma stays_sys {X} (f : O -> X * O) : keeps (sys f).
Proof. intros s. unfold sys. by destruct (f (im_os s)). Qed.

Lemma stays_push e s : kept (push_event e s) = kept s.
Proof. unfold push_event. by destruct (events_full s). Qed.

Lemma stays_close_fd fd s : kept (close_fd fd s) = kept s.
Proof. unfold close_fd. by destruct (fd =? kInvalidSocket)%Z. Qed.

Lemma stays_delay id t s : kept (delay_attempt id t s) = kept s.
Proof. unfold delay_attempt. by destruct (im_peers s !! id). Qed.

Lemma stays_nonce : keeps take_nonce.
Proof. intros s. unfold take_nonce. by destruct (im_next_nonce s =? 0). Qed.

Lemma stays_close_socket i s : kept (close_socket i s) = kept s.
Proof. unfold close_socket. simpl. apply stays_close_fd. Qed.

Lemma stays_push_connection fd ph out e n h d s : kept (push_connection fd ph out e n h d s) = kept s.
Proof. unfold push_connection. by rewrite kept_note. Qed.

Lemma stays_attempt_peer now id s : kept (attempt_peer now id s) = kept s.
Proof.
  unfold attempt_peer. pose proof (stays_sys os_socket s) as E1. destruct (sys os_socket s) as [fd s1]. cbn [snd] in E1.
  set (q := if (fd =? kInvalidSocket)%Z || negb (select_compatible fd) then (false, s1) else sys (os_nonblocking fd) s1).
  assert (E2 : kept q.2 = kept s).
  { unfold q. destruct ((fd =? kInvalidSocket)%Z || negb (select_compatible fd)); [done|]. by rewrite stays_sys. }
  destruct q as [u s2]. cbn [snd] in E2. destruct (negb u); [by rewrite stays_delay, stays_close_fd|].
  pose proof (stays_nonce (set_im_os (os_no_delay fd (im_os s2)) s2)) as E3. destruct (take_nonce _) as [n s3]. cbn [snd] in E3.
  pose proof (stays_sys (os_connect fd (peer_address id s3)) s3) as E4. destruct (sys _ s3) as [b s4]. cbn [snd] in E4.
  destruct b; [|destruct (connect_pending_error _)]; rewrite ?stays_delay, ?stays_close_fd, ?stays_push_connection;
    by rewrite E4, E3.
Qed.

Lemma stays_accept_one : keeps accept_one.
Proof.
  intros s. unfold accept_one. pose proof (stays_sys (os_accept (im_listener s)) s) as E1.
  destruct (sys _ s) as [[fd r] s1]. cbn [snd] in E1. destruct (fd =? kInvalidSocket)%Z; [done|].
  set (bad := negb (tc_allow_non_loopback (im_config s1)) && negb (is_loopback r) || connections_full s1
                || negb (select_compatible fd)).
  set (q := if bad then (false, s1) else sys (os_nonblocking fd) s1).
  assert (E2 : kept q.2 = kept s) by (unfold q; destruct bad; [done|by rewrite stays_sys]).
  destruct q as [u s2]. cbn [snd] in E2. destruct (negb u); [simpl; by rewrite stays_close_fd|].
  pose proof (stays_nonce (set_im_os (os_no_delay fd (im_os s2)) s2)) as E3. destruct (take_nonce _) as [n s3]. cbn [snd] in E3.
  pose proof (stays_sys os_now s3) as E4. destruct (sys os_now s3) as [t s4]. cbn [snd] in *.
  by rewrite stays_push_connection, E4, E3.
Qed.

Lemma stays_close_now i e b s s' : close_now i e b s = Some s' -> kept s' = kept s.
Proof.
  unfold close_now. destruct (close_own i s) as [s1|] eqn:E1; [|done].
  assert (Es1 : kept s1 = kept s).
  { unfold close_own in E1. destruct (cn_expected_peer (conn s i)) as [id|]; [|injection E1 as <-; apply stays_close_socket].
    destruct (im_peers _ !! id) as [p|]; [|done]. pose proof (stays_sys os_now (close_socket i s)) as E2.
    destruct (sys os_now _) as [t s2]. injection E1 as <-. cbn [snd] in E2.
    transitivity (kept s2); [done|]. by rewrite E2, stays_close_socket. }
  rewrite <- Es1. clear Es1 E1. destruct (cn_phase (conn s i)); [by intros [= <-]..|].
  unfold close_peer. destruct (im_peers s1 !! _) as [p|]; [|done]. destruct (negb _); [by intros [= <-]|].
  pose proof (stays_sys os_now s1) as E2. destruct (sys os_now s1) as [t s2]. cbn [snd] in E2. intros [= <-].
  destruct b; [unfold enqueue_diagnostic; rewrite stays_push|]; by rewrite <- E2.
Qed.

Lemma stays_take_frame i n : keeps (take_frame i n).
Proof.
  intros s. unfold take_frame, enqueue_message. destruct (peer_partitioned _ s); [done|]. destruct (_ || _); [done|]. kept_eq.
Qed.

Lemma stays_identify i : keeps (identify i).
Proof. intros s. unfold identify. destruct (parse_handshake _); [done|]. by case_bool_decide. Qed.

Lemma stays_adopt i : keeps (adopt i).
Proof.
  intros s. unfold adopt, establish. destruct (im_peers s !! _) as [p|]; [|done]. destruct (_ && _); [done|].
  cbn [snd]. unfold enqueue_diagnostic, promote. set (s1 := push_event _ _).
  assert (E : kept s1 = kept s) by (unfold s1; by rewrite stays_push).
  destruct (_ =? kInvalidSocket)%Z; [done|]. destruct (replaced_index _ _ _); [by rewrite stays_close_socket|done].
Qed.

Lemma stays_connect_outcome i : keeps (connect_outcome i).
Proof.
  intros s. unfold connect_outcome. pose proof (stays_sys (os_so_error (cn_socket (conn s i))) s) as E1.
  destruct (sys _ s) as [[[|e]|] s1]; [|done..]. cbn [snd] in E1.
  pose proof (stays_sys os_now s1) as E2. destruct (sys os_now s1) as [t s2]. kept_eq.
Qed.

Lemma stays_socket_send fd bs : keeps (socket_send fd bs).
Proof.
  intros s. unfold socket_send. destruct (blen bs =? 0); [done|]. pose proof (stays_sys (os_send fd bs) s) as E1.
  destruct (sys _ s) as [[n|] s1]; [|done]. by destruct (n =? 0).
Qed.

Lemma stays_socket_receive fd n : keeps (socket_receive fd n).
Proof.
  intros s. unfold socket_receive. destruct (n =? 0); [done|]. pose proof (stays_sys (os_recv fd n) s) as E1.
  destruct (sys _ s) as [[bs|] s1]; [|done]. by destruct (blen bs =? 0).
Qed.

Lemma stays_send_handshake i : keeps (send_handshake i).
Proof.
  intros s. unfold send_handshake. pose proof (stays_socket_send (cn_socket (conn s i))
    (drop (N.to_nat (cn_handshake_sent (conn s i))) (cn_local_handshake (conn s i))) s) as E.
  destruct (socket_send _ _ s) as [r s1]. simpl in *. destruct (io_status r); kept_eq.
Qed.

Lemma stays_receive_handshake i : keeps (receive_handshake i).
Proof.
  intros s. unfold receive_handshake. pose proof (stays_socket_receive (cn_socket (conn s i))
    (kHandshakeBytes - cn_handshake_received (conn s i)) s) as E.
  destruct (socket_receive _ _ s) as [[r bs] s1]. simpl in *. destruct (io_status r); kept_eq.
Qed.

Lemma stays_receive_frames i : keeps (receive_frames i).
Proof.
  intros s. unfold receive_frames. set (amount := N.min _ _).
  pose proof (stays_socket_receive (cn_socket (conn s i)) amount s) as E.
  destruct (socket_receive _ _ s) as [[r bs] s1]. simpl in *. destruct (io_status r); kept_eq.
Qed.

Lemma stays_write_frame i : keeps (write_frame i).
Proof.
  intros s. unfold write_frame. destruct (im_peers s !! _) as [p|]; [|done]. destruct (_ || _); [done|].
  destruct (ps_outbound p) as [|f q]; [done|].
  pose proof (stays_socket_send (cn_socket (conn s i)) (drop (N.to_nat (of_offset f)) (of_wire_bytes f)) s) as E.
  destruct (socket_send _ _ s) as [r s1]. simpl in *. destruct (io_status r); [|done..]. simpl.
  unfold pop_front. destruct (ps_outbound (advance_front p (io_count r))); [kept_eq|]. destruct (_ =? _); kept_eq.
Qed.

Lemma stays_do_select sets : keeps (do_select sets).
Proof.
  intros s. unfold do_select. pose proof (stays_sys (os_select sets (poll_timeout s)) s) as E.
  by destruct (sys _ s) as [[r|] s1].
Qed.

(** ** The programs *)

Create HintDb patience.
#[local] Hint Resolve patient_atomic patient_look patient_modify patient_for_each : patience.
#[local] Hint Resolve stays_attempt_peer stays_accept_one stays_take_frame stays_identify stays_adopt stays_connect_outcome
  stays_send_handshake stays_receive_handshake stays_receive_frames stays_write_frame stays_do_select : patience.

(** Goes through binds and branches. *)
Ltac patience :=
  repeat first
    [ exact I
    | solve [eauto 3 with patience]
    | match goal with
      | |- patient (prog_bind _ _) => apply patient_bind; [|intros ?]
      | |- patient (match ?x with _ => _ end) => destruct x
      end ].

Lemma patient_diagnostic k id inc e : patient (modify (enqueue_diagnostic k id inc e : Impl -> Impl)).
Proof. apply patient_modify. intros s. apply stays_push. Qed.

Lemma patient_close i e b : patient (close_connection i e b : prog Impl unit).
Proof.
  apply patient_bind; [|intros []; done]. apply patient_atomic. intros s.
  destruct (close_now i e b s) as [s'|] eqn:E; [|done]. by eapply stays_close_now.
Qed.
#[local] Hint Resolve patient_diagnostic patient_close : patience.

Lemma patient_close_noting i e : patient (close_noting i e : prog Impl unit).
Proof. unfold close_noting. patience. Qed.
#[local] Hint Resolve patient_close_noting : patience.

Lemma patient_process_frames fuel i : patient (process_frames fuel i : prog Impl bool).
Proof. induction fuel as [|fuel IH]; [done|]. cbn [process_frames]. patience. Qed.
#[local] Hint Resolve patient_process_frames : patience.

Lemma patient_process_inbound i : patient (process_inbound i : prog Impl bool).
Proof. unfold process_inbound. patience. Qed.
#[local] Hint Resolve patient_process_inbound : patience.

Lemma patient_attempt_peers now ids : patient (attempt_peers now ids : prog Impl unit).
Proof. induction ids as [|id ids IH]; [done|]. cbn [attempt_peers]. patience. Qed.

Lemma patient_attempt_outgoing : patient (attempt_outgoing : prog Impl unit).
Proof.
  unfold attempt_outgoing. apply patient_bind; [apply patient_atomic, stays_sys|]. intros now.
  patience. apply patient_attempt_peers.
Qed.

Lemma patient_accept_loop n : patient (accept_loop n : prog Impl unit).
Proof. induction n as [|n IH]; [done|]. cbn [accept_loop]. patience. Qed.

Lemma patient_close_partitioned i : patient (close_partitioned i : prog Impl unit).
Proof. unfold close_partitioned. patience. Qed.

Lemma patient_process_established i : patient (process_established i : prog Impl unit).
Proof. unfold process_established. patience. Qed.

Lemma patient_select_sets ids sets : patient (select_sets ids sets : prog Impl FdSets).
Proof. revert sets. induction ids as [|i ids IH]; intros sets; [done|]. cbn [select_sets]. patience; apply IH. Qed.

Lemma patient_finish_handshake i : patient (finish_handshake i : prog Impl bool).
Proof. unfold finish_handshake. patience. apply patient_modify. intros s. apply stays_push. Qed.
#[local] Hint Resolve patient_finish_handshake : patience.

Lemma patient_write_handshake i : patient (write_handshake i : prog Impl bool).
Proof. unfold write_handshake. patience. Qed.

Lemma patient_read_handshake i : patient (read_handshake i : prog Impl bool).
Proof. unfold read_handshake. patience. Qed.

Lemma patient_complete_connect i : patient (complete_connect i : prog Impl bool).
Proof. unfold complete_connect. patience. Qed.

Lemma patient_read_frames i : patient (read_frames i : prog Impl bool).
Proof. unfold read_frames. patience. Qed.
#[local] Hint Resolve patient_write_handshake patient_read_handshake patient_complete_connect patient_read_frames : patience.

Lemma patient_serve now sets i : patient (serve now sets i : prog Impl unit).
Proof.
  unfold serve, serve_open, serve_handshake, serve_established, when_ready. patience.
Qed.

Lemma patient_for_connections (body : nat -> prog Impl unit) :
  (forall i, patient (body i)) -> patient (for_connections body).
Proof. intros Hb. unfold for_connections. patience. Qed.

Lemma patient_io_turn : patient (io_turn : prog Impl bool).
Proof.
  unfold io_turn. apply patient_bind; [apply patient_look|]. intros []; [done|].
  apply patient_bind; [by apply patient_modify|]. intros _.
  apply patient_bind; [apply patient_for_connections, patient_close_partitioned|]. intros _.
  apply patient_bind; [apply patient_attempt_outgoing|]. intros _.
  apply patient_bind; [apply patient_for_connections, patient_process_established|]. intros _.
  apply patient_bind; [apply patient_look|]. intros l. apply patient_bind; [apply patient_look|]. intros n.
  apply patient_bind; [apply patient_select_sets|]. intros sets.
  apply patient_bind; [apply patient_atomic, stays_do_select|]. intros [e|r]; [by destruct (interrupted_error e)|].
  apply patient_bind.
  { destruct (FD_ISSET _ _); [|done]. unfold accept_connections. apply patient_bind; [apply patient_look|].
    intros k. apply patient_accept_loop. }
  intros _. apply patient_bind; [apply patient_atomic, stays_sys|]. intros now.
  apply patient_bind; [apply patient_for_connections, patient_serve|done].
Qed.


Lemma stays_forget s : kept (forget_peers (close_sockets s)) = kept s.
Proof.
  unfold close_sockets. set (s1 := close_all _ _). transitivity (kept (close_fd (im_listener s1) s1)); [done|].
  rewrite stays_close_fd. unfold s1. clear s1.
  generalize (seq 0 (length (im_connections s))) as ids. intros ids. revert s.
  induction ids as [|i ids IH]; intros s; [done|]. cbn [close_all]. by rewrite IH, stays_close_socket.
Qed.

Lemma patient_tail : patient (io_tail : prog Impl unit).
Proof.
  unfold io_tail. apply patient_bind; [apply patient_modify, stays_forget|]. intros _. by apply patient_modify.
Qed.

Lemma stays_fatal e s : kept (mark_fatal e s) = kept s.
Proof. unfold mark_fatal. by rewrite stays_push. Qed.

Lemma patient_fatal_tail : patient (modify (mark_fatal io_error) >> io_tail : prog Impl unit).
Proof. apply patient_bind; [apply patient_modify, stays_fatal|]. intros _. apply patient_tail. Qed.

End kept.

Section stop.
Context {O : Type} `{!Sockets O}.
Abbreviation Impl := (TcpTransport.Impl O).
Abbreviation Machine := (TcpLoop.Machine O).
Implicit Types (s : Impl) (m : Machine).

(** ** The end of the thread *)

Definition busy m : Prop := match mc_thread m with in_loop _ | in_tail _ => True | _ => False end.

(** The thread takes its next action, after any number of steps of others. *)
Inductive next_action m : Machine -> Prop :=
  | next_action_intro m' : rtc other_step m m' -> busy m' -> next_action m (thread_step m').

Fixpoint never_raises {A} (p : prog Impl A) : Prop :=
  match p with
  | Ret _ => True
  | Raise _ => False
  | Act f k => forall x, never_raises (k x)
  end.

(** The programs of a thread. *)
Definition thread_patient (th : Thread O) : Prop :=
  match th with in_loop p => patient p | in_tail p => never_raises p /\ patient p | _ => True end.

Definition stopping m : Prop := im_stopping (mc_impl m) = true /\ thread_patient (mc_thread m).

Lemma other_thread m m' : other_step m m' -> mc_thread m' = mc_thread m.
Proof.
  intros []; unfold tt_send, tt_poll, tt_set_peer_partitioned, on_impl; try done.
  - by destruct (send peer f (mc_impl m)).
  - by destruct (set_peer_partitioned peer b (mc_impl m)).
Qed.

Lemma other_stays m m' : other_step m m' -> im_stopping (mc_impl m) = true -> im_stopping (mc_impl m') = true.
Proof.
  intros Hstep Hs. destruct Hstep; unfold tt_send, tt_poll, tt_set_peer_partitioned, on_impl; try done.
  - destruct (send_cases peer f (mc_impl m)) as [[_ E]|(p & _ & _ & _ & _ & _ & _ & _ & _ & E)].
    + destruct (send peer f (mc_impl m)) as [r s]. simpl in *. by subst.
    + by rewrite E.
  - unfold set_peer_partitioned. destruct (im_peers _ !! peer) as [p|]; [|by destruct m].
    destruct (Bool.eqb _ b); [by destruct m|]. destruct b; [|done]. by destruct (partly_written p).
Qed.

Lemma others_stopping m m' : stopping m -> rtc other_step m m' -> stopping m' /\ mc_thread m' = mc_thread m.
Proof.
  intros Hs Hr. induction Hr as [|x y z Hxy _ IH]; [done|]. pose proof (other_thread _ _ Hxy) as Ey.
  destruct IH as [? Ez]; [split; [by eapply other_stays, Hs|rewrite Ey; apply Hs]|]. split; [done|congruence].
Qed.

(** Every thread that runs was started on [io_turn]. *)
Lemma patient_step m m' : thread_patient (mc_thread m) -> machine_step m m' -> thread_patient (mc_thread m').
Proof.
  intros Hp [|_|m1 Hs]; [| |by rewrite (other_thread _ _ Hs)].
  - unfold thread_step. destruct (mc_thread m) as [|[[]|e|X f k]|[a|e|X f k]|] eqn:E; simpl in *; rewrite ?E; try done.
    + apply patient_io_turn.
    + split; [done|apply patient_tail].
    + split; [done|apply patient_fatal_tail].
    + destruct Hp as [_ Hk]. destruct (f (mc_impl m)). apply Hk.
    + destruct Hp as [Hn [_ Hk]]. destruct (f (mc_impl m)). split; [apply Hn|apply Hk].
  - unfold tt_start. destruct (start (mc_impl m)) as [[e|[]] s]; simpl; [done|]. apply patient_io_turn.
Qed.

Lemma reachable_patient c m : machine_reachable c m -> thread_patient (mc_thread m).
Proof.
  intros (now & counter & o & m0 & _ & _ & Hnew & Hrun). unfold tt_new in Hnew.
  destruct (Impl_new c now counter o) as [[e|s] o']; [done|]. injection Hnew as <-.
  assert (H0 : thread_patient (mc_thread (mkMachine s no_thread))) by done. revert H0.
  induction Hrun as [|x y z Hxy _ IH]; intros Hx; [done|]. apply IH. by eapply patient_step.
Qed.

Abbreviation ends := (Acc (fun m' m => next_action m m')).

(** It is enough to look at the next action. *)
Lemma ends_intro m :
  stopping m ->
  (forall m', stopping m' -> mc_thread m' = mc_thread m -> busy m' -> ends (thread_step m')) -> ends m.
Proof.
  intros Hs Hnext. constructor. intros m2 [m1 Hr Hb]. destruct (others_stopping m m1 Hs Hr) as [Hs1 E]. by apply Hnext.
Qed.

Lemma done_ends s : im_stopping s = true -> ends (mkMachine s thread_done).
Proof. intros Hs. apply ends_intro; [by split|]. intros m _ E Hb. unfold busy in Hb. by rewrite E in Hb. Qed.

Lemma tail_ends s (p : prog Impl unit) :
  never_raises p -> patient p -> im_stopping s = true -> ends (mkMachine s (in_tail p)).
Proof.
  revert s. induction p as [a|e|X f k IH]; intros s Hn Hp Hs; [|done|]; (apply ends_intro; [by split|]); intros [s' th] Hs' E _;
    simpl in E; subst th; unfold thread_step; simpl.
  - apply done_ends, Hs'.
  - destruct Hp as [Hf Hk]. pose proof (Hf s') as Ef. destruct (f s') as [x s2]. apply IH; [apply Hn|apply Hk|].
    apply (f_equal fst) in Ef. simpl in Ef. rewrite Ef. apply Hs'.
Qed.

Lemma io_tail_ends s : im_stopping s = true -> ends (mkMachine s (in_tail io_tail)).
Proof. intros Hs. apply tail_ends; [done|apply patient_tail|done]. Qed.

Lemma fatal_tail_ends s : im_stopping s = true -> ends (mkMachine s (in_tail (modify (mark_fatal io_error) >> io_tail))).
Proof.
  intros Hs. apply tail_ends; [done|apply patient_fatal_tail|done].
Qed.

(** A turn that begins after the request is the last. *)
Lemma turn_ends s : im_stopping s = true -> ends (mkMachine s (in_loop io_turn)).
Proof.
  intros Hs. apply ends_intro; [split; [done|apply patient_io_turn]|]. intros [s1 th] [Hs1 _] E _. simpl in E, Hs1.
  subst th. unfold thread_step, io_turn. cbn -[im_stopping]. rewrite Hs1.
  apply ends_intro; [by split|]. intros [s2 th] [Hs2 _] E _. simpl in E, Hs2. subst th. by apply io_tail_ends.
Qed.

Lemma loop_ends s (p : prog Impl bool) : patient p -> im_stopping s = true -> ends (mkMachine s (in_loop p)).
Proof.
  revert s. induction p as [b|e|X f k IH]; intros s Hp Hs; (apply ends_intro; [by split|]); intros [s' th] [Hs' _] E _;
    simpl in E, Hs'; subst th; unfold thread_step; simpl.
  - destruct b; [by apply turn_ends|by apply io_tail_ends].
  - by apply fatal_tail_ends.
  - destruct Hp as [Hf Hk]. pose proof (Hf s') as Ef. destruct (f s') as [x s2]. apply IH; [apply Hk|].
    apply (f_equal fst) in Ef. simpl in Ef. by rewrite Ef.
Qed.

(** ** [join] *)

Definition thread_steps : Machine -> Machine -> Prop := rtc (fun m m' => m' = thread_step m).

Lemma run_loop_steps (p : prog Impl bool) s r s' :
  run p s = (r, s') ->
  thread_steps (mkMachine s (in_loop p)) (mkMachine s' (in_loop (match r with inr b => Ret b | inl e => Raise e end))).
Proof.
  revert s. induction p as [b|e|X f k IH]; intros s; simpl; [by intros [= <- <-]..|].
  destruct (f s) as [x s1] eqn:E. intros Hr. eapply rtc_l; [|by apply (IH x s1)]. unfold thread_step. simpl. by rewrite E.
Qed.

Lemma run_tail_steps (p : prog Impl unit) s :
  never_raises p -> thread_steps (mkMachine s (in_tail p)) (mkMachine (join_tail p s) thread_done).
Proof.
  unfold join_tail. revert s. induction p as [a|e|X f k IH]; intros s Hn; simpl; [by apply rtc_once|done|].
  destruct (f s) as [x s1] eqn:E. eapply rtc_l; [|by apply (IH x s1)]. unfold thread_step. simpl. by rewrite E.
Qed.

(** A program that keeps [im_stopping] keeps it to its end. *)
Lemma run_kept {A} (p : prog Impl A) s : patient p -> kept (run p s).2 = kept s.
Proof.
  revert s. induction p as [a|e|X f k IH]; intros s Hp; simpl; [done..|]. destruct Hp as [Hf Hk].
  pose proof (Hf s) as E. destruct (f s) as [x s1]. by rewrite IH.
Qed.

Lemma run_stopping_turn s : im_stopping s = true -> run (io_turn : prog Impl bool) s = (inr false, s).
Proof. intros Hs. unfold io_turn. cbn -[im_stopping]. by rewrite Hs. Qed.

(** [join] gives the state in which the thread ends when no other step comes. *)
Lemma join_steps m : stopping m -> thread_steps m (join m).
Proof.
  intros [Hs Hp]. destruct m as [s [|p|p|]]; unfold join; simpl in *; [by apply rtc_refl| | |by apply rtc_refl].
  - pose proof (run_kept p s Hp) as Ek. destruct (run p s) as [r s1] eqn:E. pose proof (run_loop_steps p s r s1 E) as H1.
    apply (f_equal fst) in Ek. simpl in Ek. etrans; [exact H1|]. unfold join_loop. rewrite E.
    destruct r as [e|[]]; cbn match.
    + eapply rtc_l; [reflexivity|]. by apply (run_tail_steps (modify (mark_fatal io_error) >> io_tail)).
    + rewrite run_stopping_turn by congruence. eapply rtc_l; [reflexivity|].
      etrans; [apply (run_loop_steps io_turn); apply run_stopping_turn; simpl; congruence|].
      eapply rtc_l; [reflexivity|]. by apply run_tail_steps.
    + eapply rtc_l; [reflexivity|]. by apply run_tail_steps.
  - apply run_tail_steps, Hp.
Qed.

(** ** What the thread leaves alone *)

Lemma thread_step_kept m : thread_patient (mc_thread m) -> kept (mc_impl (thread_step m)) = kept (mc_impl m).
Proof.
  intros Hp. unfold thread_step. destruct (mc_thread m) as [|[[]|e|X f k]|[a|e|X f k]|]; simpl in *; try done.
  - destruct Hp as [Hf _]. pose proof (Hf (mc_impl m)) as E. by destruct (f (mc_impl m)).
  - destruct Hp as [_ [Hf _]]. pose proof (Hf (mc_impl m)) as E. by destruct (f (mc_impl m)).
Qed.

Lemma thread_steps_kept m m' :
  thread_patient (mc_thread m) -> thread_steps m m' ->
  thread_patient (mc_thread m') /\ kept (mc_impl m') = kept (mc_impl m).
Proof.
  intros Hp Hr. induction Hr as [|x y z -> _ IH]; [done|].
  destruct IH as [? E]; [by eapply patient_step, do_thread|]. split; [done|]. by rewrite E, thread_step_kept.
Qed.

(** ** Failure

    A thread was started once, and no other follows it. *)

Lemma start_started s s' : start s = (inr tt, s') -> im_started s' = true.
Proof.
  unfold start. destruct (im_started s); [done|]. destruct (sys os_socket s) as [fd s1].
  destruct (fd =? kInvalidSocket)%Z; [done|]. destruct (negb (select_compatible fd)); [done|].
  destruct (sys (os_nonblocking fd) _) as [nb s2]. destruct (negb nb); [done|].
  destruct (sys _ s2) as [[e|a] s3]; [done|]. destruct (sys _ s3) as [bound s4].
  destruct (if bound then _ else _) as [l s5]. destruct (negb l); [done|]. destruct (sys _ s5) as [[port|] s6]; [|done].
  set (s7 := set_im_running true _). pose proof (stays_sys os_thread s7) as E. destruct (sys os_thread s7) as [[] s8]; [|done].
  intros [= <-]. by apply (f_equal (fun q => fst (snd q))) in E.
Qed.

Lemma start_again s : im_started s = true -> (start s).2 = s /\ is_Some (match (start s).1 with inl e => Some e | inr _ => None end).
Proof. intros Hs. unfold start. rewrite Hs. by eexists. Qed.

(** What the calls of others keep. *)
Lemma other_keeps m m' : other_step m m' ->
  im_started (mc_impl m') = im_started (mc_impl m) /\ im_fatal_error (mc_impl m') = im_fatal_error (mc_impl m).
Proof.
  intros Hstep. destruct Hstep; unfold tt_send, tt_poll, tt_set_peer_partitioned, on_impl; try done.
  - destruct (send_cases peer f (mc_impl m)) as [[_ E]|(p & _ & _ & _ & _ & _ & _ & _ & _ & E)].
    + destruct (send peer f (mc_impl m)) as [r s]. simpl in *. by subst.
    + by rewrite E.
  - unfold set_peer_partitioned. destruct (im_peers _ !! peer) as [p|]; [|by destruct m].
    destruct (Bool.eqb _ b); [by destruct m|]. destruct b; [|done]. by destruct (partly_written p).
Qed.

(** A thread that was created belongs to a transport that was started. *)
Definition threaded m : Prop :=
  thread_patient (mc_thread m) /\ (mc_thread m = no_thread \/ im_started (mc_impl m) = true).

Lemma threaded_step m m' : threaded m -> machine_step m m' -> threaded m'.
Proof.
  intros [Hp Hs] Hstep. split; [by eapply patient_step|]. destruct Hstep as [|_|m1 Ho].
  - pose proof (f_equal (fun q => fst (snd q)) (thread_step_kept m Hp)) as E. simpl in E. rewrite E.
    destruct Hs as [Hs|Hs]; [|by right]. left. unfold thread_step. by rewrite Hs.
  - destruct Hs as [Hs|Hs]; unfold tt_start.
    + destruct (start (mc_impl m)) as [[e|[]] s] eqn:E; simpl; [by left|right; by eapply start_started].
    + right. destruct (start_again _ Hs) as [E [e He]]. destruct (start (mc_impl m)) as [[e'|[]] s]; simpl in *; by subst.
  - rewrite (other_thread _ _ Ho), (proj1 (other_keeps _ _ Ho)). done.
Qed.

Lemma reachable_threaded c m : machine_reachable c m -> threaded m.
Proof.
  intros (now & counter & o & m0 & _ & _ & Hnew & Hrun). unfold tt_new in Hnew.
  destruct (Impl_new c now counter o) as [[e|s] o']; [done|]. injection Hnew as <-.
  assert (H0 : threaded (mkMachine s no_thread)) by (split; [done|by left]). revert H0.
  induction Hrun as [|x y z Hxy _ IH]; intros Hx; [done|]. apply IH. by eapply threaded_step.
Qed.

(** A step of the owner or the network, [start] included. *)
Definition outer_step m m' : Prop := other_step m m' \/ m' = (tt_start m).2.

Lemma outer_started m m' : outer_step m m' -> im_started (mc_impl m) = true ->
  im_started (mc_impl m') = true /\ im_fatal_error (mc_impl m') = im_fatal_error (mc_impl m) /\ mc_thread m' = mc_thread m.
Proof.
  intros [Ho| ->] Hs.
  - destruct (other_keeps _ _ Ho) as [E1 E2]. rewrite E1, E2, (other_thread _ _ Ho). done.
  - unfold tt_start. destruct (start_again _ Hs) as [E [e He]]. destruct (start (mc_impl m)) as [[e'|[]] s]; simpl in *; by subst.
Qed.

Lemma outers_started m m' : rtc outer_step m m' -> im_started (mc_impl m) = true ->
  im_started (mc_impl m') = true /\ mc_thread m' = mc_thread m /\ rtc machine_step m m'.
Proof.
  intros Hr. induction Hr as [|x y z Hxy _ IH]; intros Hs; [split_and!; [done..|apply rtc_refl]|].
  destruct (outer_started _ _ Hxy Hs) as (Hy & _ & E). destruct (IH Hy) as (? & -> & Hyz). split_and!; [done..|].
  eapply rtc_l; [|exact Hyz]. destruct Hxy as [Ho| ->]; [by apply do_other|by apply do_start; right].
Qed.

(** What is left of the thread once the failure is marked. *)
Definition marked m : Prop :=
  im_started (mc_impl m) = true /\ im_fatal_error (mc_impl m) = true /\
  (mc_thread m = in_tail io_tail \/ mc_thread m = in_tail (modify (set_im_running false)) \/
   mc_thread m = in_tail (Ret tt) \/ mc_thread m = thread_done).

Lemma forget_keeps s :
  im_started (forget_peers (close_sockets s)) = im_started s /\
  im_fatal_error (forget_peers (close_sockets s)) = im_fatal_error s.
Proof.
  assert (Hfd : forall fd s, im_started (close_fd fd s) = im_started s /\ im_fatal_error (close_fd fd s) = im_fatal_error s)
    by (intros fd s'; unfold close_fd; by destruct (fd =? kInvalidSocket)%Z).
  unfold close_sockets. set (s1 := close_all _ s).
  assert (E : im_started s1 = im_started s /\ im_fatal_error s1 = im_fatal_error s).
  { unfold s1. clear s1. generalize (seq 0 (length (im_connections s))) as ids. intros ids. revert s.
    induction ids as [|i ids IH]; intros s; [done|]. cbn [close_all]. destruct (IH (close_socket i s)) as [-> ->]. apply Hfd. }
  destruct E as [<- <-]. apply Hfd.
Qed.

Lemma marked_step m m' : marked m -> machine_step m m' -> marked m'.
Proof.
  intros (Hs & Hf & Ht) [|_|m1 Ho].
  - destruct (forget_keeps (mc_impl m)) as [E1 E2]. unfold thread_step.
    destruct Ht as [Ht|[Ht|[Ht|Ht]]]; rewrite Ht; unfold marked; cbn -[forget_peers].
    + split_and!; [congruence..|]. by right; left.
    + split_and!; [done..|]. by right; right; left.
    + split_and!; [done..|]. by right; right; right.
    + split_and!; [done..|]. by right; right; right.
  - destruct (outer_started m _ (or_intror eq_refl) Hs) as (? & E & Et). unfold marked. by rewrite E, Et.
  - destruct (outer_started m _ (or_introl Ho) Hs) as (? & E & Et). unfold marked. by rewrite E, Et.
Qed.

Lemma marked_steps m m' : marked m -> rtc machine_step m m' -> marked m'.
Proof. intros Hm Hr. induction Hr as [|x y z Hxy _ IH]; [done|]. apply IH. by eapply marked_step. Qed.

(** The two actions with which the thread leaves its loop on an exception. *)
Lemma raise_marks e m m1 m2 :
  im_started (mc_impl m) = true -> mc_thread m = in_loop (Raise e) -> rtc outer_step m m1 ->
  rtc outer_step (thread_step m1) m2 -> marked (thread_step m2) /\ rtc machine_step m (thread_step m2).
Proof.
  intros Hs Ht H1 H2. destruct (outers_started _ _ H1 Hs) as (Hs1 & Ht1 & R1). rewrite Ht in Ht1.
  assert (E1 : thread_step m1 = mkMachine (mc_impl m1) (in_tail (modify (mark_fatal io_error) >> io_tail)))
    by (unfold thread_step; by rewrite Ht1).
  destruct (outers_started _ _ H2) as (Hs2 & Ht2 & R2); [by rewrite E1|]. split.
  2: { etrans; [exact R1|]. eapply rtc_l; [apply do_thread|]. eapply rtc_r; [exact R2|apply do_thread]. }
  rewrite E1 in Ht2. simpl in Ht2. unfold thread_step. rewrite Ht2. simpl.
  unfold marked, mark_fatal, push_event. simpl. destruct (events_full _); simpl; by auto.
Qed.

End stop.
