(* ===== verification/TcpTheorems.v ===== *)
(** * TcpTheorems: what a TCP transport guarantees

    Properties of every transport that was constructed, in any order of the owner's
    calls, the actions of its I/O thread and the events of the network.  They are
    tried on an instance of [Sockets] whose answers are a script. *)

From stdpp Require Import relations.
From S2P Require Import Prelude Model StateMachine Bytes TcpTypes TcpWire TcpTransport TcpLoop TcpInv TcpFrames TcpConns TcpClose TcpTraffic TcpRun TcpMachine TcpStop.
#[local] Open Scope N_scope.

(** ** The transport behind the interface of a node host

    A machine of [TcpLoop] and the progress of its thread before each call give an
    instance of [Transport] and of the laws that the theorems about node hosts
    assume. *)

Section owned.
Context {O : Type} `{!Sockets O}.
Abbreviation Machine := (TcpLoop.Machine O).
Implicit Types (m : Machine).

(** A transport; [ow_pace] tells how many actions the thread takes before each call
    of the owner. *)
Record Owned := mkOwned {
  ow_machine : Machine;
  ow_pace : list nat;
  ow_patient : thread_patient (mc_thread ow_machine);
}.

(** Where a transport is created. *)
Record Outside := mkOutside { ou_now : N; ou_counter : N; ou_os : O; ou_pace : list nat }.

Implicit Types (t : Owned) (w : Outside).

(** ** The calls *)

(** What the owner's calls leave alone. *)
Record call_result {X} m (r : X * Machine) : Prop := {
  cr_patient : thread_patient (mc_thread r.2);
  cr_handed : handed (im_trace (mc_impl r.2)) = handed (im_trace (mc_impl m));
}.

Lemma iter_steps n m : thread_steps m (Nat.iter n thread_step m).
Proof. induction n as [|n IH]; [apply rtc_refl|]. by eapply rtc_r. Qed.

Lemma thread_steps_result m m' : thread_patient (mc_thread m) -> thread_steps m m' -> call_result m (tt, m').
Proof.
  intros Hp Hs. destruct (thread_steps_kept m m' Hp Hs) as [Hp' E]. split; [done|]. by apply (f_equal (fun q => snd (snd q))) in E.
Qed.

Definition paced m (pace : list nat) : Machine := Nat.iter (hd 0%nat pace) thread_step m.

Lemma paced_result m pace : thread_patient (mc_thread m) -> call_result m (tt, paced m pace).
Proof. intros Hp. apply thread_steps_result; [done|apply iter_steps]. Qed.

(** A call after some actions of the thread. *)
Definition called {X} (f : Machine -> X * Machine) t
    (Hf : forall m, thread_patient (mc_thread m) -> thread_patient (mc_thread (f m).2)) : X * Owned :=
  let m := paced (ow_machine t) (ow_pace t) in
  ((f m).1, mkOwned (f m).2 (tl (ow_pace t)) (Hf m (cr_patient _ _ (paced_result _ _ (ow_patient t))))).

Definition unchanged (m : Machine) : unit * Machine := (tt, m).
Definition stopped (m : Machine) : unit * Machine := (tt, tt_stop m).

Lemma start_patient m : thread_patient (mc_thread m) -> thread_patient (mc_thread (tt_start m).2).
Proof.
  intros Hp. unfold tt_start. destruct (start (mc_impl m)) as [[e|[]] s]; [done|]. apply patient_io_turn.
Qed.

Lemma stop_result m : thread_patient (mc_thread m) -> call_result m (stopped m).
Proof.
  intros Hp. unfold stopped, tt_stop.
  assert (Hs : stopping (request_stop m)) by by split.
  destruct (thread_steps_result (request_stop m) (join (request_stop m)) Hp (join_steps _ Hs)) as [Hp' E]. by split.
Qed.

Lemma send_result peer f m :
  thread_patient (mc_thread m) ->
  thread_patient (mc_thread (tt_send peer f m).2) /\
  handed (im_trace (mc_impl (tt_send peer f m).2)) =
    match tr_status (tt_send peer f m).1 with
    | tcp_queued => handed (im_trace (mc_impl m)) ++ [(peer, f)]
    | _ => handed (im_trace (mc_impl m))
    end.
Proof.
  intros Hp. unfold tt_send, on_impl.
  destruct (send_cases peer f (mc_impl m)) as [[Hn E]|(p & _ & _ & _ & _ & _ & _ & _ & _ & E)].
  - destruct (send peer f (mc_impl m)) as [r s]. simpl in *. subst s. split; [done|]. unfold refuses in Hn. by destruct (tr_status r).
  - rewrite E. simpl. split; [done|]. by rewrite handed_snoc.
Qed.

Lemma partition_result peer b m : thread_patient (mc_thread m) -> call_result m (tt_set_peer_partitioned peer b m).
Proof.
  intros Hp. unfold tt_set_peer_partitioned, on_impl, set_peer_partitioned.
  destruct (im_peers _ !! peer) as [p|]; [|by split]. destruct (Bool.eqb _ b); [by split|]. destruct b; [|by split].
  split; [done|]. simpl. destruct (partly_written p); [|done]. simpl. by rewrite handed_snoc, app_nil_r.
Qed.

Definition owned_start t : (TcpExn + unit) * Owned := called tt_start t start_patient.
Definition owned_stop t : Owned := (called stopped t (fun m Hp => cr_patient _ _ (stop_result m Hp))).2.
Definition owned_send peer f t : TcpSendResult * Owned :=
  called (tt_send peer f) t (fun m Hp => proj1 (send_result peer f m Hp)).
Definition owned_poll n t : list TcpTransportEvent * Owned := called (tt_poll n) t (fun _ Hp => Hp).
Definition owned_partition peer b t : bool * Owned :=
  called (tt_set_peer_partitioned peer b) t (fun m Hp => cr_patient _ _ (partition_result peer b m Hp)).
Definition owned_running t : bool * Owned := called (fun m => (tt_running m, m)) t (fun _ Hp => Hp).
Definition owned_port t : N * Owned := called (fun m => (tt_listening_port m, m)) t (fun _ Hp => Hp).

(** One call of the owner. *)
Inductive owner_call t : Owned -> Prop :=
  | oc_start : owner_call t (owned_start t).2
  | oc_stop : owner_call t (owned_stop t)
  | oc_send peer f : owner_call t (owned_send peer f t).2
  | oc_poll n : owner_call t (owned_poll n t).2
  | oc_partition peer b : owner_call t (owned_partition peer b t).2
  | oc_running : owner_call t (owned_running t).2
  | oc_port : owner_call t (owned_port t).2.

(** Some calls lead to a [poll] that returns the event. *)
Definition may_return t (e : TcpTransportEvent) : Prop :=
  exists t' n, rtc owner_call t t' /\ e ∈ (owned_poll n t').1.


#[global] Instance owned_transport : Transport Outside Owned := {
  tcp_new c w := match tt_new c (ou_now w) (ou_counter w) (ou_os w) with
                 | inr m => inr (mkOwned (mkMachine (mc_impl m) no_thread) (ou_pace w) I)
                 | inl e => inl e
                 end;
  tcp_start := owned_start;
  tcp_stop := owned_stop;
  tcp_send := owned_send;
  tcp_poll := owned_poll;
  tcp_set_partitioned := owned_partition;
  tcp_running := owned_running;
  tcp_listening_port := owned_port;
  tcp_handed t := handed (im_trace (mc_impl (ow_machine t)));
  tcp_may := may_return;
}.

(** ** The laws *)










End owned.

(** ** An operating system to run transports on *)

(** [sk_next] is the next descriptor, [sk_callers] the addresses of those who
    connect, [sk_chunks] what arrives, in the pieces in which it does, [sk_room] how
    much each [send] takes (all, when the list is empty). *)
Record Script := mkScript {
  sk_open : gset Z;
  sk_next : Z;
  sk_errno : N;
  sk_now : N;
  sk_callers : list N;
  sk_chunks : list (list N);
  sk_room : list N;
  sk_select_error : option N;
}.

Definition sk_fail (e : N) (o : Script) : Script :=
  mkScript (sk_open o) (sk_next o) e (sk_now o) (sk_callers o) (sk_chunks o) (sk_room o) (sk_select_error o).

(** The next descriptor cannot be used. *)
Definition sk_unusable (o : Script) : bool := bool_decide (sk_next o ∈ sk_open o) || (sk_next o <? 0)%Z.

Lemma sk_usable o : sk_unusable o = false -> (sk_next o ∉ sk_open o) /\ sk_next o <> kInvalidSocket.
Proof.
  unfold sk_unusable, kInvalidSocket. rewrite orb_false_iff, bool_decide_eq_false, Z.ltb_ge. intros [? ?]. split; [done|lia].
Qed.

Definition sk_socket (o : Script) : Z * Script :=
  if sk_unusable o then (kInvalidSocket, o)
  else (sk_next o, mkScript ({[sk_next o]} ∪ sk_open o) (sk_next o + 1) (sk_errno o) (sk_now o) (sk_callers o)
                     (sk_chunks o) (sk_room o) (sk_select_error o)).

Definition sk_accept (o : Script) : (Z * N) * Script :=
  match sk_callers o with
  | [] => ((kInvalidSocket, 0), sk_fail EAGAIN o)
  | r :: rest =>
      if sk_unusable o then ((kInvalidSocket, 0), o)
      else ((sk_next o, r), mkScript ({[sk_next o]} ∪ sk_open o) (sk_next o + 1) (sk_errno o) (sk_now o) rest
                              (sk_chunks o) (sk_room o) (sk_select_error o))
  end.

Definition sk_send (bs : list N) (o : Script) : option N * Script :=
  match sk_room o with
  | [] => (Some (blen bs), o)
  | n :: rest =>
      let o := mkScript (sk_open o) (sk_next o) EAGAIN (sk_now o) (sk_callers o) (sk_chunks o) rest (sk_select_error o) in
      if n =? 0 then (None, o) else (Some (N.min n (blen bs)), o)
  end.

Definition sk_recv (n : N) (o : Script) : option (list N) * Script :=
  match sk_chunks o with
  | [] => (None, sk_fail EAGAIN o)
  | c :: rest =>
      let got := take (N.to_nat n) c in
      let left := drop (N.to_nat n) c in
      if forallb (fun b => b <=? 255) got then
        (Some got, mkScript (sk_open o) (sk_next o) (sk_errno o) (sk_now o) (sk_callers o)
                     (match left with [] => rest | _ => left :: rest end) (sk_room o) (sk_select_error o))
      else (None, o)
  end.

Definition sk_close (fd : Z) (o : Script) : Script :=
  mkScript (sk_open o ∖ {[fd]}) (sk_next o) (sk_errno o) (sk_now o) (sk_callers o) (sk_chunks o) (sk_room o)
    (sk_select_error o).

Definition localhost : N := 0x7f000001.

#[global] Instance script_sockets : Sockets Script := {
  os_errno := sk_errno;
  os_socket := sk_socket;
  os_nonblocking _ o := (true, o);
  os_reuse_address _ o := o;
  os_no_delay _ o := o;
  os_bind _ _ o := (true, o);
  os_listen _ _ o := (true, o);
  os_getsockname _ o := (Some 9000, o);
  os_thread o := (true, o);
  os_connect _ _ o := (true, o);
  os_accept _ := sk_accept;
  os_select sets _ o := match sk_select_error o with Some e => (None, sk_fail e o) | None => (Some (mkFdSets (fd_read sets) (fd_write sets) []), o) end;
  os_so_error _ o := (Some 0, o);
  os_send _ := sk_send;
  os_recv _ := sk_recv;
  os_close := sk_close;
  os_now o := (sk_now o, o);
  os_inet_pton a := if String.eqb a "127.0.0.1" then Some localhost else None;
  os_getaddrinfo _ o := (None, o);
  os_open := sk_open;
}.

#[global] Instance script_laws : SocketLaws Script.
Proof.
  constructor; try done; simpl.
  - intros fd bs o n o'. unfold sk_send. destruct (sk_room o) as [|r rest]; [intros [= <- <-]; lia|].
    destruct (r =? 0); [done|]. intros [= <- <-]. lia.
  - intros fd n o bs o'. unfold sk_recv. destruct (sk_chunks o) as [|c rest]; [done|].
    destruct (forallb _ _) eqn:Hb; [|done]. intros [= <- <-]. split; [unfold blen; rewrite length_take; lia|].
    apply Forall_forall. intros b Hin. rewrite forallb_forall in Hb. apply list_elem_of_In, Hb, N.leb_le in Hin.
    unfold is_byte. lia.
  - intros o fd o'. unfold sk_socket. destruct (sk_unusable o) eqn:E; intros [= <- <-]; [by intros []|].
    by destruct (sk_usable o E).
  - intros o o'. unfold sk_socket. destruct (sk_unusable o) eqn:E; intros [= E']; [by subst|].
    by destruct (sk_usable o E).
  - intros l o fd r o'. unfold sk_accept. destruct (sk_callers o); [by intros [= <- <- <-] []|].
    destruct (sk_unusable o) eqn:E; intros [= <- <- <-]; [by intros []|]. by destruct (sk_usable o E).
  - intros l o r o'. unfold sk_accept. destruct (sk_callers o); [by intros [= <- <-]|].
    destruct (sk_unusable o) eqn:E; intros [= E']; [by subst|]. by destruct (sk_usable o E).
  - intros sets n o. by destruct (sk_select_error o).
  - intros fd bs o. unfold sk_send. destruct (sk_room o) as [|r rest]; [done|]. by destruct (r =? 0).
  - intros fd n o. unfold sk_recv. destruct (sk_chunks o) as [|c rest]; [done|]. by destruct (forallb _ _).
Qed.

(** ** Runs *)

Inductive Move :=
  | mv_thread (n : nat)
  | mv_start
  | mv_send (peer : NodeId) (f : list N)
  | mv_poll (n : N)
  | mv_partition (peer : NodeId) (b : bool)
  | mv_request_stop
  | mv_arrive (chunks : list (list N)).

Abbreviation machine := (Machine Script).

Definition is_idle (m : machine) : bool := match mc_thread m with no_thread | thread_done => true | _ => false end.

Definition arrive (chunks : list (list N)) (o : Script) : Script :=
  mkScript (sk_open o) (sk_next o) (sk_errno o) (sk_now o) (sk_callers o) (sk_chunks o ++ chunks) (sk_room o)
    (sk_select_error o).

Definition move (m : machine) (v : Move) : machine :=
  match v with
  | mv_thread n => Nat.iter n thread_step m
  | mv_start => if is_idle m then (tt_start m).2 else m
  | mv_send peer f => if forallb (fun b => b <? 256) f then (tt_send peer f m).2 else m
  | mv_poll n => (tt_poll n m).2
  | mv_partition peer b => (tt_set_peer_partitioned peer b m).2
  | mv_request_stop => request_stop m
  | mv_arrive chunks => mkMachine (set_im_os (arrive chunks (im_os (mc_impl m))) (mc_impl m)) (mc_thread m)
  end.

Lemma move_steps m v : rtc machine_step m (move m v).
Proof.
  destruct v as [n| |peer f|n|peer b| |chunks]; simpl.
  - induction n as [|n IH]; [done|]. eapply rtc_r; [exact IH|apply do_thread].
  - destruct (is_idle m) eqn:Hi; [|done]. apply rtc_once, do_start. left. unfold is_idle in Hi. unfold idle.
    destruct (mc_thread m); [by left|done..|by right].
  - destruct (forallb _ f) eqn:Hb; [|done]. apply rtc_once, do_other, do_send. apply Forall_forall. intros b Hin.
    rewrite forallb_forall in Hb. by apply list_elem_of_In, Hb, N.ltb_lt in Hin.
  - apply rtc_once, do_other, do_poll.
  - apply rtc_once, do_other, do_partition.
  - apply rtc_once, do_other, do_request_stop.
  - apply rtc_once, do_other. by apply do_network.
Qed.

(** A transport of the configuration [c] after the moves [vs]. *)
Definition played (c : TcpTransportConfig) (o : Script) (vs : list Move) : option machine :=
  match tt_new c 1 1 o with inr m => Some (foldl move m vs) | inl _ => None end.

Lemma played_reachable c o vs m : played c o vs = Some m -> machine_reachable c m.
Proof.
  unfold played. destruct (tt_new c 1 1 o) as [e|m0] eqn:E; [done|]. intros [= <-].
  exists 1, 1, o, m0. split_and!; [done..|]. clear E. revert m0. induction vs as [|v vs IH]; intros m0; [done|].
  etrans; [apply move_steps|apply IH].
Qed.

(** Node 1 calls node 2. *)
Definition demo_identity (id : NodeId) : TcpIdentity := mkTcpIdentity 7 8 id.
Definition demo_config (id peer port : N) : TcpTransportConfig :=
  mkTcpTransportConfig (demo_identity id) (10 + id) "127.0.0.1" 9000 false [mkTcpPeerEndpoint peer "127.0.0.1" port]
    default_tcp_limits.
Definition caller_config : TcpTransportConfig := demo_config 1 2 9000.
Definition callee_config : TcpTransportConfig := demo_config 2 1 0.

Definition caller_greeting : list N := make_handshake (demo_identity 1) 11 1 true.
Definition callee_greeting : list N := make_handshake (demo_identity 2) 12 1 false.

Definition caller_os (room : list N) : Script := mkScript ∅ 3 0 1000 [] [callee_greeting] room None.
Definition callee_os (chunks : list (list N)) : Script := mkScript ∅ 3 0 1000 [localhost] (caller_greeting :: chunks) [] None.

Lemma tcp_demo_fits id peer port : id < 100 -> config_fits (demo_config id peer port).
Proof. intros Hid. constructor; simpl; unfold u64, u32, u64_max, u64_size, u32_max, u32_size; lia. Qed.

(** Enough actions for a turn of the loop. *)
Definition turn : Move := mv_thread 100.

(** ** Theorems *)

Section theorems.
Context {O : Type} `{!Sockets O} {HL : SocketLaws O}.
Abbreviation Machine := (TcpLoop.Machine O).
Abbreviation Impl := (TcpTransport.Impl O).
Implicit Types (m : Machine) (c : TcpTransportConfig).

(** ** Bounds *)

(** What a transport holds, within its limits. *)
Record within (l : TcpTransportLimits) (s : Impl) : Prop := {
  wi_queue : forall id p, im_peers s !! id = Some p ->
    ps_queued_bytes p = queue_bytes (ps_outbound p) /\ ps_queued_bytes p <= tl_max_outbound_bytes_per_peer l;
  wi_total : im_total_queued_bytes s = all_queued (im_peers s) /\ im_total_queued_bytes s <= tl_max_total_outbound_bytes l;
  wi_events : im_inbound_event_bytes s = event_bytes (im_events s) /\
    im_inbound_event_bytes s <= tl_max_inbound_event_bytes l /\ N.of_nat (length (im_events s)) <= tl_max_inbound_events l;
  wi_connections : N.of_nat (length (im_connections s)) <= tl_max_pending_connections l;
  wi_buffers : Forall (fun k => blen (cn_inbound k) <= kLengthPrefixBytes + tl_max_frame_bytes l) (im_connections s);
}.

(** C15: In every state that a transport reaches, the counters of queued bytes and of
    event bytes are exact, and queues, events, connections and receive buffers are
    within the limits of the configuration. *)
Theorem tcp_counters_exact c m : config_fits c -> machine_reachable c m -> within (tc_limits c) (mc_impl m).
Proof.
  intros Hc Hm. destruct (reachable_ok c m Hc Hm) as (cfg & _ & [Hg _] & <- & _). destruct Hg as [[] _].
  destruct gd_queues, gd_events, gd_conns. constructor; [|done..| |].
  - intros id p Hp. by destruct (qo_peers id p Hp).
  - done.
  - eapply Forall_impl; [exact cs_each|]. by intros k [].
Qed.

(** ** Connections *)

(** C16: Every peer that is connected has exactly one connection on its active socket.
    It is established with that peer, its socket is open, and no other connected
    peer uses that socket. *)
Theorem tcp_one_connection c m id p :
  config_fits c -> machine_reachable c m -> im_peers (mc_impl m) !! id = Some p -> ps_connected p = true ->
  exists i k, im_connections (mc_impl m) !! i = Some k /\ cn_peer k = id /\ cn_phase k = ph_established /\ live k /\
    cn_socket k = ps_active_socket p /\ cn_socket k ∈ os_open (im_os (mc_impl m)) /\
    (forall j k', im_connections (mc_impl m) !! j = Some k' -> cn_socket k' = ps_active_socket p -> j = i) /\
    (forall id' p', im_peers (mc_impl m) !! id' = Some p' -> ps_connected p' = true ->
      ps_active_socket p' = ps_active_socket p -> id' = id).
Proof.
  intros Hc Hm Hp Hcon. destruct (reachable_ok c m Hc Hm) as (cfg & _ & [Hg _] & _). destruct Hg as [Hco Hs].
  assert (Hact : forall id p, im_peers (mc_impl m) !! id = Some p -> ps_connected p = true ->
    active_of (im_peers (mc_impl m)) !! id = Some (true, ps_active_socket p)).
  { intros x q Hq Hqc. unfold active_of. by rewrite lookup_fmap, Hq, <- Hqc. }
  destruct (Hs id _ (Hact id p Hp Hcon)) as (i & k & Hi & Es & Hl & Ep & Ephase). destruct Hco, gd_conns.
  exists i, k. split_and!; try done.
  - by apply (co_open _ _ _ _ (Forall_lookup_1 _ _ i k cs_each Hi)).
  - intros j k' Hj Ej. symmetry. eapply cs_distinct; [exact Hi|exact Hj|done|congruence].
  - intros id' p' Hp' Hc' Ea. rewrite <- Ep. symmetry.
    eapply (so_agree _ _ _ _ _ gd_streams); [exact Hi|done|exact Hp'|done|congruence].
Qed.

(** ** Streams *)

Lemma handshake_of_inj h h' : handshake_fits h -> handshake_fits h' -> handshake_of h = handshake_of h' -> h = h'.
Proof. intros H1 H2 E. pose proof (parse_make h H1) as E1. rewrite E, (parse_make h' H2) in E1. by injection E1. Qed.

(** Two handshakes at the beginning of the same bytes. *)
Lemma same_greeting h h' bs :
  handshake_fits h -> handshake_fits h' -> handshake_of h `prefix_of` bs -> handshake_of h' `prefix_of` bs -> h = h'.
Proof.
  intros H1 H2 [k Ek] [k' Ek']. apply handshake_of_inj; [done..|]. rewrite Ek in Ek'.
  apply app_inj_1 in Ek' as [? _]; [done|]. by rewrite !handshake_length.
Qed.

Lemma frame_fits_mono l l' f : l <= l' -> frame_fits l f -> frame_fits l' f.
Proof. intros Hl [? ?]. split; [lia|done]. Qed.

Lemma unfinished_mono l l' part : l <= l' -> unfinished l part -> unfinished l' part.
Proof.
  intros Hl [->|(f & rest & Hf & E)]; [by left|]. right. exists f, rest. split; [by eapply frame_fits_mono|done].
Qed.

(** The bytes that a connection has read are the beginning of those that the other
    one has written. *)
Definition reads_from (l l' : FdLog) : Prop := fl_read l `prefix_of` fl_written l'.

Lemma stream_empty cs : (length (stream cs) <= 0)%nat -> cs = [].
Proof. destruct cs as [|f cs]; [done|]. rewrite stream_cons, length_app, wire_frame_length. lia. Qed.

(** What the log of a connection says of the other end. *)
Lemma arrived_from cfga cfgb tra trb la lb :
  config_ok cfga -> config_ok cfgb -> log_ok cfga la tra -> log_ok cfgb lb trb ->
  reads_from lb la -> reads_from la lb ->
  ti_node_id (tc_identity cfgb) ∉ fl_dropped la ->
  exists ds, fl_delivered lb = (fun f => (ti_node_id (tc_identity cfga), f)) <$> ds /\
    ds `sublist_of` queued_for (ti_node_id (tc_identity cfgb)) tra.
Proof.
  intros Ha Hb (owna & [Ia [_ Fa]] & La) (ownb & [Ib [_ Fb]] & [[_ ->]|(remb & restb & Tb)]) Hba Hab Hd.
  { exists []. split; [done|apply sublist_nil_l]. }
  destruct Tb as [(Frb & _) Gb (cs & ds & Hcs & Hds & Eread & Edel) _].
  assert (Hgr : handshake_of remb `prefix_of` fl_written la).
  { etrans; [|exact Hba]. unfold reads_from in *. rewrite Eread. by eexists. }
  destruct La as [[Hw _]|(rema & resta & Ta)].
  { assert (cs = []) as ->.
    { apply stream_empty. pose proof (prefix_length _ _ Hba) as H1. pose proof (prefix_length _ _ Hw) as H2.
      rewrite Eread, !length_app, handshake_length in H1. rewrite handshake_length in H2. lia. }
    apply sublist_nil_r in Hds as ->. exists []. split; [done|apply sublist_nil_l]. }
  destruct Ta as [(Fra & _) Ga (csa & dsa & _ & _ & Ereada & _) (part & Hpart & Hwrites)].
  assert (remb = owna) as -> by by eapply same_greeting.
  assert (rema = ownb) as ->.
  { eapply same_greeting; [done..| |exact Gb]. etrans; [|exact Hab]. rewrite Ereada. by eexists. }
  rewrite Ib in Hwrites. destruct (Hwrites Hd) as (fs & Hfs & Ewritten & Hsub). exists ds. rewrite <- Ia. split; [done|].
  pose proof (frame_limit cfga Ha) as Hla. pose proof (frame_limit cfgb Hb) as Hlb.
  etrans; [exact Hds|]. etrans; [|rewrite app_nil_r in Hsub; exact Hsub].
  destruct (stream_prefix kAbsoluteMaxFrameBytes fs part cs restb) as [k ->].
  - done.
  - eapply Forall_impl; [exact Hfs|]. intros f. by apply frame_fits_mono.
  - eapply unfinished_mono; [exact Hla|done].
  - eapply Forall_impl; [exact Hcs|]. intros f. by apply frame_fits_mono.
  - unfold reads_from in Hba. rewrite Eread, Ewritten in Hba. by eapply prefix_app_inv.
  - by apply sublist_inserts_r.
Qed.

(** C13: Two transports, and a connection of each: where each has read a prefix of what
    the other has written, and the sender has not dropped a partly written frame
    for the receiver, the frames that the receiver has handed out carry the
    sender's identity and are a subsequence, in the same order, of those that
    [send] has taken for the receiver. *)
Theorem tcp_frames_arrive ca cb (a b : Machine) ka kb :
  config_fits ca -> config_fits cb -> machine_reachable ca a -> machine_reachable cb b ->
  reads_from (conn_log kb (im_trace (mc_impl b))) (conn_log ka (im_trace (mc_impl a))) ->
  reads_from (conn_log ka (im_trace (mc_impl a))) (conn_log kb (im_trace (mc_impl b))) ->
  ti_node_id (tc_identity cb) ∉ fl_dropped (conn_log ka (im_trace (mc_impl a))) ->
  exists ds, fl_delivered (conn_log kb (im_trace (mc_impl b))) = (fun f => (ti_node_id (tc_identity ca), f)) <$> ds /\
    ds `sublist_of` queued_for (ti_node_id (tc_identity cb)) (im_trace (mc_impl a)).
Proof.
  intros Ha Hb Hra Hrb. destruct (reachable_ok ca a Ha Hra) as (cfga & Hca & [[Hga _] _] & _ & <- & _).
  destruct (reachable_ok cb b Hb Hrb) as (cfgb & Hcb & [[Hgb _] _] & _ & <- & _).
  exact (arrived_from _ _ _ _ _ _ Hca Hcb (so_logs _ _ _ _ _ (gd_streams _ _ Hga) ka) (so_logs _ _ _ _ _ (gd_streams _ _ Hgb) kb)).
Qed.

(** C14: Every message that [poll] returns is a frame within the limit, one of the whole
    frames that were read on a connection after a handshake, which names the peer
    of the event and the own cluster. *)
Theorem tcp_messages_genuine c m n e :
  config_fits c -> machine_reachable c m -> e ∈ (tt_poll n m).1 -> ev_kind e = tcp_message ->
  exists k remote cs rest,
    fl_read (conn_log k (im_trace (mc_impl m))) = handshake_of remote ++ stream cs ++ rest /\
    ti_node_id (hs_identity remote) = ev_peer e /\
    ti_cluster_id_high (hs_identity remote) = ti_cluster_id_high (tc_identity c) /\
    ti_cluster_id_low (hs_identity remote) = ti_cluster_id_low (tc_identity c) /\
    Forall (frame_fits (tl_max_frame_bytes (tc_limits c))) cs /\ ev_bytes e ∈ cs.
Proof.
  intros Hc Hm He Hk. destruct (reachable_ok c m Hc Hm) as (cfg & _ & [[Hg _] _] & <- & <- & _).
  apply elem_of_take in He as (i & Hi & _). apply list_elem_of_lookup_2 in Hi.
  pose proof (gd_noted _ _ Hg) as Hn. unfold noted in Hn. rewrite Forall_forall in Hn.
  destruct (Hn e Hi Hk) as (k & _ & Hin). exists k.
  destruct (so_logs _ _ _ _ _ (gd_streams _ _ Hg) k) as (own & _ & [[_ E]|(remote & rest & [Hrem _ Hreads _])]).
  { rewrite E in Hin. by apply elem_of_nil in Hin. }
  destruct Hreads as (cs & ds & Hcs & Hds & Eread & Edel), Hrem as (_ & [Eh El] & _). rewrite Edel in Hin.
  apply list_elem_of_fmap in Hin as (f & [= Ep Eb] & Hf). exists remote, cs, rest. split_and!; try done.
  rewrite Eb. by eapply elem_of_submseteq, sublist_submseteq.
Qed.

(** ** Stopping *)

(** C17: Once a stop has been requested, the I/O thread can only take finitely many more
    actions, whatever the owner calls and the network does between them. *)
Theorem tcp_stop_ends c m :
  machine_reachable c m -> im_stopping (mc_impl m) = true -> Acc (fun m' m => next_action m m') m.
Proof.
  intros Hm Hs. pose proof (reachable_patient c m Hm) as Hp. destruct m as [s [|p|p|]]; simpl in Hs, Hp.
  - apply ends_intro; [by split|]. intros m' _ E Hb. unfold busy in Hb. by rewrite E in Hb.
  - by apply loop_ends.
  - destruct Hp. by apply tail_ends.
  - by apply done_ends.
Qed.

Lemma close_all_stays ids (s : Impl) i :
  (forall k, im_connections s !! i = Some k -> ~ live k) ->
  forall k, im_connections (close_all ids s) !! i = Some k -> ~ live k.
Proof.
  revert s. induction ids as [|j ids IH]; intros s Hs; [done|]. cbn [close_all]. apply IH. intros k. unfold close_socket.
  simpl. intros [(<- & <- & _)|[_ Hk]]%list_lookup_insert_Some; [by intros []|].
  revert Hk. unfold close_fd. by destruct (_ =? _)%Z; apply Hs.
Qed.

Lemma close_all_dead ids (s : Impl) i k : i ∈ ids -> im_connections (close_all ids s) !! i = Some k -> ~ live k.
Proof.
  revert s. induction ids as [|j ids IH]; intros s; [by intros ?%elem_of_nil|]. intros Hi. cbn [close_all].
  apply elem_of_cons in Hi as [<-|Hi]; [|by apply IH]. apply close_all_stays. intros k'. unfold close_socket. simpl.
  intros [(_ & <- & _)|[? _]]%list_lookup_insert_Some; [by intros []|done].
Qed.

Lemma close_all_length ids (s : Impl) : length (im_connections (close_all ids s)) = length (im_connections s).
Proof.
  revert s. induction ids as [|j ids IH]; intros s; [done|]. cbn [close_all]. rewrite IH. unfold close_socket. simpl.
  rewrite length_insert. unfold close_fd. by destruct (_ =? _)%Z.
Qed.

(** Nothing is open and nothing is queued. *)
Record all_closed (s : Impl) : Prop := {
  ac_connections : Forall (fun k => cn_socket k = kInvalidSocket) (im_connections s);
  ac_listener : im_listener s = kInvalidSocket;
  ac_peers : forall id p, im_peers s !! id = Some p ->
    ps_connected p = false /\ ps_outbound p = [] /\ ps_queued_bytes p = 0;
  ac_total : im_total_queued_bytes s = 0;
}.

Lemma tail_closes (s : Impl) : all_closed (join_tail io_tail s).
Proof.
  unfold join_tail, io_tail. cbn -[forget_peers close_sockets].
  constructor; unfold forget_peers, close_sockets; simpl; [|done| |done].
  - assert (E : forall fd (s : Impl), im_connections (close_fd fd s) = im_connections s)
      by (intros fd s'; unfold close_fd; by destruct (_ =? _)%Z).
    rewrite E. apply Forall_lookup. intros i k Hk. destruct (decide (cn_socket k = kInvalidSocket)); [done|].
    exfalso. eapply close_all_dead; [|exact Hk|done]. apply elem_of_seq.
    apply lookup_lt_Some in Hk. rewrite close_all_length in Hk. lia.
  - intros id p Hp. by apply lookup_fmap_Some in Hp as (q & <- & _).
Qed.

Lemma thread_steps_machine m m' : thread_steps m m' -> rtc machine_step m m'.
Proof. intros Hs. induction Hs as [|x y z -> _ IH]; [done|]. eapply rtc_l; [apply do_thread|done]. Qed.

Lemma machine_reachable_twice c m : machine_reachable c m -> machine_reachable c (thread_step (thread_step m)).
Proof.
  intros (now & counter & o & m0 & ? & ? & ? & H0). exists now, counter, o, m0. split_and!; [done..|].
  eapply rtc_r; [|apply do_thread]. eapply rtc_r; [exact H0|apply do_thread].
Qed.

(** [stop], called while the I/O thread is in its loop, leads by steps of the
    transport to a state in which the thread has ended, the transport does not
    run, every socket is closed and nothing is queued; it sends nothing. *)
Theorem tcp_stop_clean c m p :
  machine_reachable c m -> mc_thread m = in_loop p ->
  rtc machine_step m (tt_stop m) /\ mc_thread (tt_stop m) = thread_done /\ tt_running (tt_stop m) = false /\
  all_closed (mc_impl (tt_stop m)) /\
  handed (im_trace (mc_impl (tt_stop m))) = handed (im_trace (mc_impl m)).
Proof.
  intros Hm Hth. pose proof (reachable_patient c m Hm) as Hp.
  assert (Hs : stopping (request_stop m)) by by split.
  destruct (stop_result m Hp) as [_ Eh].
  assert (Ed : mc_thread (tt_stop m) = thread_done) by (unfold tt_stop, join, request_stop; simpl; by rewrite Hth).
  split_and!; [|done|done| |done].
  - eapply rtc_l; [apply do_other, do_request_stop|]. etrans; [apply thread_steps_machine, (join_steps _ Hs)|].
    apply rtc_once, do_other. apply do_joined. right. exact Ed.
  - unfold tt_stop, join, request_stop. simpl. rewrite Hth. simpl. unfold join_loop.
    destruct (run p _) as [r s1]. destruct (match r with inr true => _ | _ => _ end) as [r2 s2].
    set (s3 := match r2 with inl _ => mark_fatal io_error s2 | inr _ => s2 end).
    assert (E : join_tail (match r2 with inl _ => modify (mark_fatal io_error) >> io_tail | inr _ => io_tail end) s2 =
                join_tail io_tail s3) by by destruct r2.
    rewrite E. by destruct (tail_closes s3).
Qed.

(** ** Errors *)

(** C18: No exception leaves the end of [io_loop], and one that ends its loop reports a
    failure of [select].  Once the thread has taken its next two actions (it enters the
    handler and marks the failure, whatever the owner calls in between), in every state
    that follows, after the thread has ended, after [stop] or another [start], every
    [send] of a valid frame to a configured peer reports [io_error]. *)
Theorem tcp_loop_throws_only_select c m e :
  config_fits c -> machine_reachable c m ->
  mc_thread m <> in_tail (Raise e) /\
  (mc_thread m = in_loop (Raise e) ->
   select_failed e /\
   forall m1 m2 m', rtc outer_step m m1 -> rtc outer_step (thread_step m1) m2 ->
     rtc machine_step (thread_step m2) m' ->
     im_fatal_error (mc_impl m') = true /\
     forall id f, id ∈ peer_set c -> 0 < blen f <= tl_max_frame_bytes (tc_limits c) ->
       exists p, im_peers (mc_impl m') !! id = Some p /\
         tt_send id f m' = (mkTcpSendResult tcp_error io_error (ps_queued_bytes p), m')).
Proof.
  intros Hc Hm. destruct (reachable_ok c m Hc Hm) as (cfg0 & _ & [_ Hth] & _). split.
  { intros E. by rewrite E in Hth. }
  intros E. rewrite E in Hth. split; [exact Hth|]. intros m1 m2 m' H1 H2 H3.
  destruct (reachable_threaded c m Hm) as [_ Hst]. destruct Hst as [Hst|Hst]; [congruence|].
  destruct (raise_marks e m m1 m2 Hst E H1 H2) as [Hmk Hr]. destruct (marked_steps _ _ Hmk H3) as (_ & Hf & _).
  split; [done|]. intros id f Hid Hlen.
  assert (Hm' : machine_reachable c m').
  { destruct Hm as (now & counter & o & m0 & ? & ? & ? & H0). exists now, counter, o, m0. split_and!; [done..|].
    etrans; [exact H0|]. by etrans. }
  destruct (reachable_ok c m' Hc Hm') as (cfg & Hcfg & [Hg _] & El & _ & Ep).
  assert (Hp : id ∈ dom (im_peers (mc_impl m'))).
  { rewrite (gd_peers _ _ (gd_core _ _ Hg)). unfold peer_set in *. by rewrite Ep. }
  apply elem_of_dom in Hp as [p Hp]. exists p. split; [done|].
  pose proof (frame_limit cfg Hcfg) as Hlim. unfold tt_send, on_impl, send. rewrite Hp, Hf.
  unfold limits. rewrite (gd_config _ _ (gd_core _ _ Hg)), El. rewrite El in Hlim. unfold kAbsoluteMaxFrameBytes, u32_max, u32_size in *.
  destruct (N.eqb_spec (blen f) 0); [lia|]. destruct (N.ltb_spec (tl_max_frame_bytes (tc_limits c)) (blen f)); [lia|].
  destruct (N.ltb_spec (2 ^ 32 - 1) (blen f)); [lia|]. by destruct m'.
Qed.

(** ** Two connections between the same nodes *)

(** The two ends of a connection know each other's handshake. *)
Definition both_ends (sa sb : Impl) (ea eb : Connection) (key_a key_b : ConnectionKey) : Prop :=
  cn_outbound eb = negb (cn_outbound ea) /\
  key_a = connection_key ea (own_handshake (im_config sb) eb) sa /\
  key_b = connection_key eb (own_handshake (im_config sa) ea) sb.

(** Both ends compute the same key. *)
Lemma keys_agree (sa sb : Impl) ea eb key_a key_b :
  ti_node_id (tc_identity (im_config sa)) <> ti_node_id (tc_identity (im_config sb)) ->
  both_ends sa sb ea eb key_a key_b -> key_a = key_b.
Proof.
  intros Hne (Eo & -> & ->). unfold connection_key, own_handshake. simpl. rewrite Eo.
  destruct (N.ltb_spec (ti_node_id (tc_identity (im_config sa))) (ti_node_id (tc_identity (im_config sb)))),
    (N.ltb_spec (ti_node_id (tc_identity (im_config sb))) (ti_node_id (tc_identity (im_config sa)))); try lia;
    by destruct (cn_outbound ea).
Qed.

Lemma push_event_peers e (s : Impl) : im_peers (push_event e s) = im_peers s.
Proof. unfold push_event. by destruct (events_full s). Qed.

(** The key of the connection that stays. *)
Lemma establish_key (s : Impl) i p :
  im_peers s !! cn_peer (conn s i) = Some p -> ps_connected p = true ->
  exists p', im_peers (establish i s).2 !! cn_peer (conn s i) = Some p' /\ ps_connected p' = true /\
    if key_less (ps_active_key p) (cn_key (conn s i))
    then (establish i s).1 = replaces (ps_active_socket p) /\ ps_active_key p' = cn_key (conn s i)
    else (establish i s).1 = is_duplicate /\ p' = p.
Proof.
  intros Hp Hc. unfold establish. rewrite Hp, Hc. destruct (key_less _ _); simpl; [|by eauto].
  unfold enqueue_diagnostic. rewrite push_event_peers. simpl. rewrite lookup_insert_eq. by eexists.
Qed.

(** Two nodes have called each other: at [sa] the first connection is active and the
    handshake of the second is complete, at [sb] it is the other way round.  Then
    both keep the same connection, and exactly one of them replaces its own. *)
Theorem tcp_crossing_connections (sa sb : Impl) i j pa pb e1a e1b e2a e2b :
  ti_node_id (tc_identity (im_config sa)) <> ti_node_id (tc_identity (im_config sb)) ->
  im_peers sa !! cn_peer (conn sa i) = Some pa -> ps_connected pa = true ->
  im_peers sb !! cn_peer (conn sb j) = Some pb -> ps_connected pb = true ->
  both_ends sa sb e1a e1b (ps_active_key pa) (cn_key (conn sb j)) ->
  both_ends sa sb e2a e2b (cn_key (conn sa i)) (ps_active_key pb) ->
  ps_active_key pa <> cn_key (conn sa i) ->
  exists pa' pb', im_peers (establish i sa).2 !! cn_peer (conn sa i) = Some pa' /\
    im_peers (establish j sb).2 !! cn_peer (conn sb j) = Some pb' /\
    ps_active_key pa' = ps_active_key pb' /\
    ((establish i sa).1 = is_duplicate /\ (establish j sb).1 = replaces (ps_active_socket pb) \/
     (establish i sa).1 = replaces (ps_active_socket pa) /\ (establish j sb).1 = is_duplicate).
Proof.
  intros Hid Ha Hca Hb Hcb H1 H2 Hne. apply keys_agree in H1; [|done]. apply keys_agree in H2; [|done].
  destruct (establish_key sa i pa Ha Hca) as (pa' & Ea & _ & Ra). destruct (establish_key sb j pb Hb Hcb) as (pb' & Eb & _ & Rb).
  exists pa', pb'. rewrite H2 in Ra, Hne. rewrite <- H1 in Rb. rewrite (key_less_total _ _ Hne) in Ra.
  destruct (key_less (ps_active_key pb) (ps_active_key pa)); simpl in Ra; destruct Ra as [Ra1 Ra2], Rb as [Rb1 Rb2];
    split_and!; try done; [|by left| |by right].
  - by rewrite Ra2.
  - by rewrite Ra2, Rb2.
Qed.

End theorems.

(** ** Handshakes *)

(** 56 bytes parse as a handshake exactly when they are the handshake, and its
    fields fit. *)
Theorem tcp_handshake_roundtrip bytes h :
  bytes_ok bytes -> length bytes = 56%nat ->
  parse_handshake bytes = inr h <-> bytes = handshake_of h /\ handshake_fits h.
Proof. intros Hb Hl. split; [by apply make_parse|]. intros [-> Hf]. by apply parse_make. Qed.

(** ** The interface of a node host *)


(** ** Runs of two transports *)

(** A state that a run reaches and that passes a test. *)
Lemma played_such c o vs (P : machine -> bool) :
  match played c o vs with Some m => P m | None => false end = true -> exists m, machine_reachable c m /\ P m = true.
Proof.
  destruct (played c o vs) as [m|] eqn:E; [|done]. intros HP. exists m. split; [by eapply played_reachable|done].
Qed.

(** Node 1 calls node 2 and sends it [f]; the handshakes and the frame arrive. *)
Definition sent_moves (f : list N) : list Move := [mv_start; turn; turn; mv_send 2 f; turn].
Definition got_moves : list Move := [mv_start; turn; turn].
Definition sent_trace (f : list N) : list Io :=
  [io_opened 0; io_sent 0 caller_greeting; io_received 0 callee_greeting; io_queued 2 f; io_sent 0 (wire_frame f)].
Definition got_trace (f : list N) : list Io :=
  [io_opened 0; io_sent 0 callee_greeting; io_received 0 caller_greeting; io_received 0 (wire_frame f); io_delivered 0 1 f].

#[global] Instance Io_eq_dec : EqDecision Io.
Proof. solve_decision. Defined.

Definition has_trace (tr : list Io) (m : machine) : bool := bool_decide (im_trace (mc_impl m) = tr).

Lemma caller_demo : exists m, machine_reachable caller_config m /\ im_trace (mc_impl m) = sent_trace [5; 6; 7].
Proof.
  destruct (played_such caller_config (caller_os []) (sent_moves [5; 6; 7]) (has_trace (sent_trace [5; 6; 7])))
    as (m & Hm & Ht); [by vm_compute|]. exists m. split; [done|]. by apply bool_decide_eq_true in Ht.
Qed.

Lemma callee_demo : exists m, machine_reachable callee_config m /\ im_trace (mc_impl m) = got_trace [5; 6; 7] /\
  exists p, im_peers (mc_impl m) !! 1 = Some p /\ ps_connected p = true.
Proof.
  destruct (played_such callee_config (callee_os [wire_frame [5; 6; 7]]) got_moves
    (fun m => has_trace (got_trace [5; 6; 7]) m &&
              match im_peers (mc_impl m) !! 1 with Some p => ps_connected p | None => false end))
    as (m & Hm & Ht); [by vm_compute|]. exists m. apply andb_true_iff in Ht as [Ht Hp].
  split_and!; [done|by apply bool_decide_eq_true in Ht|]. destruct (im_peers (mc_impl m) !! 1) as [p|]; [by exists p|done].
Qed.

Lemma tcp_counters_exact_witness : exists m, machine_reachable caller_config m /\ within default_tcp_limits (mc_impl m).
Proof.
  destruct caller_demo as (m & Hm & _). exists m. split; [exact Hm|].
  exact (tcp_counters_exact caller_config m (tcp_demo_fits 1 2 9000 eq_refl) Hm).
Defined.

Lemma tcp_one_connection_witness : exists (m : machine) i k,
  im_connections (mc_impl m) !! i = Some k /\ cn_peer k = 1 /\ cn_phase k = ph_established.
Proof.
  destruct callee_demo as (m & Hm & _ & p & Hp & Hc). exists m.
  destruct (tcp_one_connection callee_config m 1 p (tcp_demo_fits 2 1 0 eq_refl) Hm Hp Hc) as (i & k & Hi & Ep & Eph & _).
  exists i, k. split_and!; assumption.
Defined.

Lemma tcp_frames_arrive_witness : exists a b : machine,
  im_trace (mc_impl a) = sent_trace [5; 6; 7] /\ im_trace (mc_impl b) = got_trace [5; 6; 7] /\
  exists ds, fl_delivered (conn_log 0 (im_trace (mc_impl b))) = (fun f => (1, f)) <$> ds /\
    ds `sublist_of` queued_for 2 (im_trace (mc_impl a)).
Proof.
  destruct caller_demo as (a & Ha & Ea). destruct callee_demo as (b & Hb & Eb & _). exists a, b.
  split_and!; [exact Ea|exact Eb|].
  apply (tcp_frames_arrive caller_config callee_config a b 0 0 (tcp_demo_fits 1 2 9000 eq_refl) (tcp_demo_fits 2 1 0 eq_refl) Ha Hb);
    rewrite ?Ea, ?Eb.
  - exists []. vm_compute. reflexivity.
  - exists []. vm_compute. reflexivity.
  - vm_compute. intros H. inversion H.
Defined.

Lemma tcp_messages_genuine_witness : exists (m : machine) e k remote cs rest,
  ev_bytes e = [5; 6; 7] /\ fl_read (conn_log k (im_trace (mc_impl m))) = handshake_of remote ++ stream cs ++ rest /\
  ev_bytes e ∈ cs.
Proof.
  set (test := fun m : machine => match (tt_poll 2 m).1 with
                                 | [_; e] => bool_decide (ev_kind e = tcp_message) && bool_decide (ev_bytes e = [5; 6; 7])
                                 | _ => false
                                 end).
  destruct (played_such callee_config (callee_os [wire_frame [5; 6; 7]]) got_moves test) as (m & Hm & Ht).
  { vm_compute. reflexivity. }
  unfold test in Ht. exists m. destruct (tt_poll 2 m).1 as [|e0 [|e []]] eqn:Ee; try discriminate Ht.
  apply andb_true_iff in Ht as [Hk Hb]. apply bool_decide_eq_true in Hk, Hb. exists e.
  assert (Hin : e ∈ (tt_poll 2 m).1) by (rewrite Ee; right; left).
  destruct (tcp_messages_genuine callee_config m 2 e (tcp_demo_fits 2 1 0 eq_refl) Hm Hin Hk)
    as (k & remote & cs & rest & E & _ & _ & _ & _ & Hf).
  exists k, remote, cs, rest. split_and!; assumption.
Defined.

Lemma stopping_demo : exists m : machine, machine_reachable caller_config m /\ im_stopping (mc_impl m) = true /\
  exists p, mc_thread m = in_loop p.
Proof.
  destruct (played_such caller_config (caller_os []) [mv_start; mv_thread 20; mv_request_stop]
    (fun m => im_stopping (mc_impl m) && match mc_thread m with in_loop _ => true | _ => false end))
    as (m & Hm & Ht); [by vm_compute|]. exists m. apply andb_true_iff in Ht as [Hs Hl]. split_and!; [done..|].
  destruct (mc_thread m) as [|p|p|]; [done|by exists p|done|done].
Qed.

Lemma tcp_stop_ends_witness : exists m : machine, im_stopping (mc_impl m) = true /\ Acc (fun m' m => next_action m m') m.
Proof.
  destruct stopping_demo as (m & Hm & Hs & _). exists m. split; [exact Hs|]. exact (tcp_stop_ends caller_config m Hm Hs).
Defined.

Lemma tcp_stop_clean_witness : exists m : machine, tt_running (tt_stop m) = false /\ all_closed (mc_impl (tt_stop m)).
Proof.
  destruct stopping_demo as (m & Hm & _ & p & Hp). exists m.
  destruct (tcp_stop_clean caller_config m p Hm Hp) as (_ & _ & Hr & Hc & _). split; assumption.
Defined.

(** [select] fails with [EBADF]. *)
Definition failing_os : Script := mkScript ∅ 3 0 1000 [] [] [] (Some 9).

Lemma tcp_loop_throws_only_select_witness : exists (m : machine) e,
  mc_thread m = in_loop (Raise e) /\ select_failed e /\
  let m' := tt_stop (thread_step (thread_step m)) in
  im_fatal_error (mc_impl m') = true /\
  exists p, tt_send 2 [1] m' = (mkTcpSendResult tcp_error io_error (ps_queued_bytes p), m').
Proof.
  destruct (played_such caller_config failing_os [mv_start; mv_thread 19]
    (fun m => match mc_thread m with in_loop (Raise _) => true | _ => false end)) as (m & Hm & Ht).
  { vm_compute. reflexivity. }
  exists m. destruct (mc_thread m) as [|[|e|]| |] eqn:E; try discriminate Ht. exists e. split; [reflexivity|].
  destruct (tcp_loop_throws_only_select caller_config m e (tcp_demo_fits 1 2 9000 eq_refl) Hm) as [_ H].
  destruct (H E) as (Hs & Hk). split; [exact Hs|].
  destruct (Hk m (thread_step m) (tt_stop (thread_step (thread_step m)))) as [Hf Hsend].
  - apply rtc_refl.
  - apply rtc_refl.
  - eapply rtc_l; [apply do_other, do_request_stop|]. etrans.
    + apply thread_steps_machine, join_steps. split; [reflexivity|].
      exact (reachable_patient caller_config _ (machine_reachable_twice caller_config m Hm)).
    + apply rtc_once, do_other, do_joined. right. unfold join, request_stop, thread_step. by rewrite E.
  - split; [exact Hf|]. destruct (Hsend 2 [1]) as (p & _ & Hp).
    + by apply (bool_decide_unpack (2 ∈ peer_set caller_config)).
    + vm_compute. split; [reflexivity|discriminate].
    + exists p. exact Hp.
Defined.

(** Both nodes have called each other; each has finished the other one's handshake
    first. *)
Definition end_of (outbound : bool) (nonce : N) : Connection :=
  new_connection 4 ph_handshake outbound None nonce [] 0 0.

Definition crossing_peer (peer : N) (active : ConnectionKey) : PeerState :=
  set_ps_active_key active (set_ps_active_socket 3 (set_ps_connected true
    (new_peer (mkTcpPeerEndpoint peer "127.0.0.1" 0) (mkSockAddr localhost 0)))).

Definition crossing_state (c : TcpTransportConfig) (peer : N) (active candidate : ConnectionKey) : Impl Script :=
  mkImpl c {[peer := crossing_peer peer active]} [] 0 0 (-1) 9000 3 false true true false
    [set_cn_key candidate (set_cn_peer peer (end_of true 1))] (caller_os []) [] 2.

Definition key_12 (initiator nonce : N) : ConnectionKey := mkConnectionKey 11 12 initiator nonce.

Lemma tcp_crossing_connections_witness :
  let sa := crossing_state caller_config 2 (key_12 1 1) (key_12 2 1) in
  let sb := crossing_state callee_config 1 (key_12 2 1) (key_12 1 1) in
  exists pa pb, im_peers (establish 0 sa).2 !! 2 = Some pa /\ im_peers (establish 0 sb).2 !! 1 = Some pb /\
    ps_active_key pa = ps_active_key pb.
Proof.
  intros sa sb.
  destruct (tcp_crossing_connections sa sb 0 0 (crossing_peer 2 (key_12 1 1)) (crossing_peer 1 (key_12 2 1))
    (end_of true 1) (end_of false 5) (end_of false 6) (end_of true 1))
    as (pa & pb & Ha & Hb & E & _).
  - discriminate.
  - vm_compute. reflexivity.
  - reflexivity.
  - vm_compute. reflexivity.
  - reflexivity.
  - repeat split; vm_compute; reflexivity.
  - repeat split; vm_compute; reflexivity.
  - discriminate.
  - exists pa, pb. split_and!; assumption.
Defined.

Lemma tcp_handshake_roundtrip_witness :
  exists h, parse_handshake caller_greeting = inr h <-> caller_greeting = handshake_of h /\ handshake_fits h.
Proof.
  exists (mkHandshake (demo_identity 1) 11 1 true). apply (tcp_handshake_roundtrip caller_greeting); [|reflexivity].
  apply (handshake_ok (mkHandshake (demo_identity 1) 11 1 true)).
Defined.

(** ** A partition that is taken back *)

(** The first frame has been written in part when the peer is partitioned, and it
    is no longer partitioned when the I/O thread looks. *)
Definition spliced_moves : list Move :=
  [mv_start; turn; turn; mv_send 2 [1; 2; 3; 4]; turn; mv_partition 2 true; mv_partition 2 false; mv_send 2 [9]; turn; turn].

Definition spliced_trace : list Io :=
  [io_opened 0; io_sent 0 caller_greeting; io_received 0 callee_greeting; io_queued 2 [1; 2; 3; 4];
   io_sent 0 [0; 0; 0; 4; 1]; io_dropped 2; io_queued 2 [9]; io_sent 0 [0; 0; 0; 1; 9]].

(** C20: A peer is partitioned while a frame for it has been written in part, and healed
    before the I/O thread looks.  Node 1 sends [[1; 2; 3; 4]] and [[9]]; node 2 reads
    exactly the bytes that node 1 writes and hands out [[1; 0; 0; 0]]. *)
Theorem tcp_partition_splices :
  exists a b : machine, machine_reachable caller_config a /\ machine_reachable callee_config b /\
    reads_from (conn_log 0 (im_trace (mc_impl b))) (conn_log 0 (im_trace (mc_impl a))) /\
    reads_from (conn_log 0 (im_trace (mc_impl a))) (conn_log 0 (im_trace (mc_impl b))) /\
    queued_for 2 (im_trace (mc_impl a)) = [[1; 2; 3; 4]; [9]] /\
    (tt_poll 2 b).1 = [mkTcpTransportEvent peer_up 1 11 tcp_none []; mkTcpTransportEvent tcp_message 1 11 tcp_none [1; 0; 0; 0]].
Proof.
  destruct (played_such caller_config (caller_os [56; 5; 0; 0; 0; 0]) spliced_moves (has_trace spliced_trace))
    as (a & Ha & Ea); [by vm_compute|]. apply bool_decide_eq_true in Ea.
  set (polled := [mkTcpTransportEvent peer_up 1 11 tcp_none []; mkTcpTransportEvent tcp_message 1 11 tcp_none [1; 0; 0; 0]]).
  set (got := [io_opened 0; io_sent 0 callee_greeting; io_received 0 caller_greeting;
               io_received 0 [0; 0; 0; 4; 1]; io_received 0 [0; 0; 0; 1; 9]; io_delivered 0 1 [1; 0; 0; 0]]).
  destruct (played_such callee_config (callee_os [[0; 0; 0; 4; 1]; [0; 0; 0; 1; 9]]) got_moves
    (fun m => has_trace got m && bool_decide ((tt_poll 2 m).1 = polled))) as (b & Hb & Eb); [by vm_compute|].
  apply andb_true_iff in Eb as [Eb Ep]. apply bool_decide_eq_true in Eb, Ep.
  exists a, b. rewrite Ea, Eb. split_and!; [done|done|by exists []..|done|done].
Qed.
