(* ===== verification/HostTypes.v ===== *)
(** * HostTypes: the state of a node host

    The declarations of [include/detlog/node_host.hpp] and the data members of
    the storage worker and of [NodeHost::Impl] of [src/node_host.cpp]. *)

From S2P Require Import Prelude Model StateMachine RaftTypes Raft.
From S2P Require Codec.
From S2P Require Import Bytes Wal WalFile TcpTypes.
#[local] Open Scope N_scope.

Record NodeHostLimits := mkNodeHostLimits {
  max_owner_events : N;
  max_client_queue : N;
  max_client_slots : N;
  max_trace_records : N;
  max_storage_tasks : N;
  max_storage_completions : N;
  max_group_quarantined_effects : N;
  max_tcp_events_per_poll : N;
}.

(** The default member initialisers of [NodeHostLimits]. *)
Definition default_host_limits : NodeHostLimits := mkNodeHostLimits 1024 256 1024 4096 16 16 4096 128.

(** [std::chrono::milliseconds] is a signed count. *)
Record NodeHostGroupCommitConfig := mkGroupCommitConfig {
  gc_enabled : bool;
  gc_max_operations : N;
  gc_max_delay : Z;
}.

Record NodeHostConfig := mkNodeHostConfig {
  hc_raft : RaftConfig;
  hc_identity : WalIdentity;
  hc_wal_path : string;
  hc_wal : WalOptions;
  hc_tcp : TcpTransportConfig;
  hc_codec : Codec.Limits;
  hc_tick_duration : Z;
  hc_election_jitter : Tick;
  hc_timer_seed : N;
  hc_idle_sleep : Z;
  hc_limits : NodeHostLimits;
  hc_group_commit : NodeHostGroupCommitConfig;
}.

(** The counters of [NodeHostMetrics]; a metric record is the value of each. *)
Inductive Metric :=
  | tcp_messages_received
  | tcp_decode_drops
  | tcp_messages_queued
  | tcp_backpressure_drops
  | tcp_down_drops
  | tcp_error_drops
  | tcp_peer_rejections
  | owner_queue_backpressure
  | storage_submitted
  | storage_completed
  | storage_errors
  | storage_flushes
  | storage_group_commits
  | storage_grouped_operations
  | storage_staged_operations
  | storage_group_max_size
  | storage_group_max_bytes
  | storage_task_queue_high_water
  | storage_quarantine_high_water
  | clients_submitted
  | client_replies
  | client_submit_backpressure
  | trace_drops
  | owner_queue_high_water
  | client_queue_high_water.

#[global] Instance Metric_eq_dec : EqDecision Metric.
Proof. solve_decision. Defined.

Definition NodeHostMetrics : Type := Metric -> N.
Definition no_metrics : NodeHostMetrics := fun _ => 0.

(** [metrics.m = v]. *)
Definition set_metric (k : Metric) (v : N) (m : NodeHostMetrics) : NodeHostMetrics :=
  fun k' => if decide (k' = k) then v else m k'.

(** [metrics.m += n] and [metrics.m = std::max(metrics.m, n)]. *)
Definition add_metric (k : Metric) (n : N) (m : NodeHostMetrics) : NodeHostMetrics :=
  set_metric k (add64 (m k) n) m.
Definition max_metric (k : Metric) (n : N) (m : NodeHostMetrics) : NodeHostMetrics :=
  set_metric k (N.max (m k) n) m.

Inductive NodeHostSubmitStatus := sub_accepted | sub_would_block | sub_stopped | sub_error.

Record NodeHostSubmitResult := mkNodeHostSubmitResult {
  sr_status : NodeHostSubmitStatus;
  sr_token : ClientToken;
}.

Record NodeHostStatus := mkNodeHostStatus {
  st_node : NodeId;
  st_role : RaftRole;
  st_term : Term;
  st_leader_hint : option NodeId;
  st_leader_ready : bool;
  st_last_log_index : LogIndex;
  st_durable_last_log_index : LogIndex;
  st_commit_index : LogIndex;
  st_last_applied : LogIndex;
  st_storage_pending : bool;
  st_owner_events : N;
  st_client_queue : N;
}.

(** ** The storage worker *)

Record StorageTask := mkStorageTask {
  tk_operation : StorageOpId;
  tk_batch : PersistBatch;
}.

Inductive StorageNoticeKind := nk_complete | nk_staged | nk_barrier | nk_failed.

(** [StorageComplete] as a value of its own. *)
Record Completion := mkCompletion {
  cp_op_id : StorageOpId;
  cp_success : bool;
  cp_error : string;
}.

Definition no_completion : Completion := mkCompletion 0 false EmptyString.
Definition completion_event (c : Completion) : RaftEvent :=
  StorageComplete (cp_op_id c) (cp_success c) (cp_error c).

Record StorageNotice := mkStorageNotice {
  sn_kind : StorageNoticeKind;
  sn_completion : Completion;
  sn_delayed_completion : option Completion;
  sn_group_size : N;
  sn_group_bytes : N;
  sn_flushed : bool;
  sn_durable_through : StorageOpId;
}.

Record StorageEnqueueResult := mkStorageEnqueueResult {
  eq_accepted : bool;
  eq_queue_depth : N;
}.

Record QuarantinedEffect := mkQuarantinedEffect {
  qe_durability_dependency : StorageOpId;
  qe_effect : RaftEffect;
}.

(** Where the worker's thread is.  A thread inside one of the two [run] loops is
    at one of the points where it takes the mutex or calls the log:
    - [pc_wait]: at [task_ready_.wait];
    - [pc_task t]: holding [t], before [wal_->append];
    - [pc_flush t]: before the flush that closes the group of [t];
    - [pc_timeout]: before the flush of a group whose delay has passed;
    - [pc_failed n]: before [mark_failed], with the notice to publish then;
    - [pc_publish n next]: at [publish]. *)
Inductive AfterPublish := then_return | then_loop | then_reset.

Inductive WorkerPc :=
  | pc_idle
  | pc_wait
  | pc_task (t : StorageTask)
  | pc_flush (t : StorageTask)
  | pc_timeout
  | pc_failed (n : StorageNotice)
  | pc_publish (n : StorageNotice) (next : AfterPublish)
  | pc_returned.

(** [StorageWorker], with the local variables of [run_grouped]. *)
Record StorageWorker := mkStorageWorker {
  sw_wal : WalImpl;
  sw_max_tasks : N;
  sw_max_completions : N;
  sw_flush_policy : WalFlushPolicy;
  sw_group_commit : NodeHostGroupCommitConfig;
  sw_max_frame_bytes : N;
  sw_max_group_bytes : N;
  sw_tasks : list StorageTask;
  sw_completions : list StorageNotice;
  sw_started : bool;
  sw_stopping : bool;
  sw_failed : bool;
  sw_pc : WorkerPc;
  sw_group_size : N;
  sw_group_bytes : N;
  sw_group_last : StorageOpId;
  sw_deadline : N;
}.

Definition set_sw_wal (v : WalImpl) (w : StorageWorker) : StorageWorker :=
  mkStorageWorker v (sw_max_tasks w) (sw_max_completions w) (sw_flush_policy w) (sw_group_commit
    w) (sw_max_frame_bytes w) (sw_max_group_bytes w) (sw_tasks w) (sw_completions w) (sw_started
    w) (sw_stopping w) (sw_failed w) (sw_pc w) (sw_group_size w) (sw_group_bytes w)
    (sw_group_last w) (sw_deadline w).
Definition set_sw_tasks (v : list StorageTask) (w : StorageWorker) : StorageWorker :=
  mkStorageWorker (sw_wal w) (sw_max_tasks w) (sw_max_completions w) (sw_flush_policy w)
    (sw_group_commit w) (sw_max_frame_bytes w) (sw_max_group_bytes w) v (sw_completions w)
    (sw_started w) (sw_stopping w) (sw_failed w) (sw_pc w) (sw_group_size w) (sw_group_bytes w)
    (sw_group_last w) (sw_deadline w).
Definition set_sw_completions (v : list StorageNotice) (w : StorageWorker) : StorageWorker :=
  mkStorageWorker (sw_wal w) (sw_max_tasks w) (sw_max_completions w) (sw_flush_policy w)
    (sw_group_commit w) (sw_max_frame_bytes w) (sw_max_group_bytes w) (sw_tasks w) v (sw_started
    w) (sw_stopping w) (sw_failed w) (sw_pc w) (sw_group_size w) (sw_group_bytes w)
    (sw_group_last w) (sw_deadline w).
Definition set_sw_started (v : bool) (w : StorageWorker) : StorageWorker :=
  mkStorageWorker (sw_wal w) (sw_max_tasks w) (sw_max_completions w) (sw_flush_policy w)
    (sw_group_commit w) (sw_max_frame_bytes w) (sw_max_group_bytes w) (sw_tasks w)
    (sw_completions w) v (sw_stopping w) (sw_failed w) (sw_pc w) (sw_group_size w)
    (sw_group_bytes w) (sw_group_last w) (sw_deadline w).
Definition set_sw_stopping (v : bool) (w : StorageWorker) : StorageWorker :=
  mkStorageWorker (sw_wal w) (sw_max_tasks w) (sw_max_completions w) (sw_flush_policy w)
    (sw_group_commit w) (sw_max_frame_bytes w) (sw_max_group_bytes w) (sw_tasks w)
    (sw_completions w) (sw_started w) v (sw_failed w) (sw_pc w) (sw_group_size w)
    (sw_group_bytes w) (sw_group_last w) (sw_deadline w).
Definition set_sw_failed (v : bool) (w : StorageWorker) : StorageWorker :=
  mkStorageWorker (sw_wal w) (sw_max_tasks w) (sw_max_completions w) (sw_flush_policy w)
    (sw_group_commit w) (sw_max_frame_bytes w) (sw_max_group_bytes w) (sw_tasks w)
    (sw_completions w) (sw_started w) (sw_stopping w) v (sw_pc w) (sw_group_size w)
    (sw_group_bytes w) (sw_group_last w) (sw_deadline w).
Definition set_sw_pc (v : WorkerPc) (w : StorageWorker) : StorageWorker :=
  mkStorageWorker (sw_wal w) (sw_max_tasks w) (sw_max_completions w) (sw_flush_policy w)
    (sw_group_commit w) (sw_max_frame_bytes w) (sw_max_group_bytes w) (sw_tasks w)
    (sw_completions w) (sw_started w) (sw_stopping w) (sw_failed w) v (sw_group_size w)
    (sw_group_bytes w) (sw_group_last w) (sw_deadline w).
Definition set_sw_group_size (v : N) (w : StorageWorker) : StorageWorker :=
  mkStorageWorker (sw_wal w) (sw_max_tasks w) (sw_max_completions w) (sw_flush_policy w)
    (sw_group_commit w) (sw_max_frame_bytes w) (sw_max_group_bytes w) (sw_tasks w)
    (sw_completions w) (sw_started w) (sw_stopping w) (sw_failed w) (sw_pc w) v (sw_group_bytes
    w) (sw_group_last w) (sw_deadline w).
Definition set_sw_group_bytes (v : N) (w : StorageWorker) : StorageWorker :=
  mkStorageWorker (sw_wal w) (sw_max_tasks w) (sw_max_completions w) (sw_flush_policy w)
    (sw_group_commit w) (sw_max_frame_bytes w) (sw_max_group_bytes w) (sw_tasks w)
    (sw_completions w) (sw_started w) (sw_stopping w) (sw_failed w) (sw_pc w) (sw_group_size w)
    v (sw_group_last w) (sw_deadline w).
Definition set_sw_group_last (v : N) (w : StorageWorker) : StorageWorker :=
  mkStorageWorker (sw_wal w) (sw_max_tasks w) (sw_max_completions w) (sw_flush_policy w)
    (sw_group_commit w) (sw_max_frame_bytes w) (sw_max_group_bytes w) (sw_tasks w)
    (sw_completions w) (sw_started w) (sw_stopping w) (sw_failed w) (sw_pc w) (sw_group_size w)
    (sw_group_bytes w) v (sw_deadline w).
Definition set_sw_deadline (v : N) (w : StorageWorker) : StorageWorker :=
  mkStorageWorker (sw_wal w) (sw_max_tasks w) (sw_max_completions w) (sw_flush_policy w)
    (sw_group_commit w) (sw_max_frame_bytes w) (sw_max_group_bytes w) (sw_tasks w)
    (sw_completions w) (sw_started w) (sw_stopping w) (sw_failed w) (sw_pc w) (sw_group_size w)
    (sw_group_bytes w) (sw_group_last w) v.

(** ** The host *)

Record HostTimer := mkHostTimer {
  ht_active : bool;
  ht_request : TimerRequest;
  ht_deadline : N;
}.

Definition no_timer : HostTimer := mkHostTimer false (mkTimerRequest election 0 0) 0.

(** What one step of the worker's thread meets: the time that passes before each
    reading of the clock, and the outcomes of its file calls. *)
Record WorkerInput := mkWorkerInput {
  in_elapsed : N;
  in_elapsed_again : N;
  in_outs : list IoOutcome;
  in_flush : IoOutcome;
}.

Definition quiet_input : WorkerInput := mkWorkerInput 1 1 [] io_ok.

(** The surroundings of the owner thread: the clock (nanoseconds), the time that
    passes before each further reading (one nanosecond once the list is used up),
    and for each time the owner takes the worker's mutex the steps the worker's
    thread makes before. *)
Record Surroundings := mkSurroundings {
  en_now : N;
  en_elapsed : list N;
  en_worker : list (list WorkerInput);
}.

(** The data members of [NodeHost::Impl]. *)
Record HostImpl (T : Type) := mkHostImpl {
  nh_config : NodeHostConfig;
  nh_raft : RaftNode;
  nh_storage : StorageWorker;
  nh_tcp : T;
  nh_owner_events : list RaftEvent;
  nh_client_queue : list (ClientToken * ClientCommand);
  nh_outstanding_tokens : gset N;
  nh_replies : list ClientReply;
  nh_traces : list TraceRecord;
  nh_quarantined_effects : list QuarantinedEffect;
  nh_election_timer : HostTimer;
  nh_heartbeat_timer : HostTimer;
  nh_metrics : NodeHostMetrics;
  nh_published_status : NodeHostStatus;
  nh_next_client_token : ClientToken;
  nh_random_state : N;
  nh_last_submitted_operation : StorageOpId;
  nh_durable_operation_through : StorageOpId;
  nh_owner_thread : N;
  nh_started : bool;
  nh_running : bool;
  nh_fatal_error : bool;
  nh_group_barrier_active : bool;
  nh_env : Surroundings;
}.
Arguments mkHostImpl {T}.
Arguments nh_config {T}.
Arguments nh_raft {T}.
Arguments nh_storage {T}.
Arguments nh_tcp {T}.
Arguments nh_owner_events {T}.
Arguments nh_client_queue {T}.
Arguments nh_outstanding_tokens {T}.
Arguments nh_replies {T}.
Arguments nh_traces {T}.
Arguments nh_quarantined_effects {T}.
Arguments nh_election_timer {T}.
Arguments nh_heartbeat_timer {T}.
Arguments nh_metrics {T}.
Arguments nh_published_status {T}.
Arguments nh_next_client_token {T}.
Arguments nh_random_state {T}.
Arguments nh_last_submitted_operation {T}.
Arguments nh_durable_operation_through {T}.
Arguments nh_owner_thread {T}.
Arguments nh_started {T}.
Arguments nh_running {T}.
Arguments nh_fatal_error {T}.
Arguments nh_group_barrier_active {T}.
Arguments nh_env {T}.

Section setters.
Context {T : Type}.
Implicit Types h : HostImpl T.

Definition set_nh_raft (v : RaftNode) h : HostImpl T :=
  mkHostImpl (nh_config h) v (nh_storage h) (nh_tcp h) (nh_owner_events h) (nh_client_queue h)
    (nh_outstanding_tokens h) (nh_replies h) (nh_traces h) (nh_quarantined_effects h)
    (nh_election_timer h) (nh_heartbeat_timer h) (nh_metrics h) (nh_published_status h)
    (nh_next_client_token h) (nh_random_state h) (nh_last_submitted_operation h)
    (nh_durable_operation_through h) (nh_owner_thread h) (nh_started h) (nh_running h)
    (nh_fatal_error h) (nh_group_barrier_active h) (nh_env h).
Definition set_nh_storage (v : StorageWorker) h : HostImpl T :=
  mkHostImpl (nh_config h) (nh_raft h) v (nh_tcp h) (nh_owner_events h) (nh_client_queue h)
    (nh_outstanding_tokens h) (nh_replies h) (nh_traces h) (nh_quarantined_effects h)
    (nh_election_timer h) (nh_heartbeat_timer h) (nh_metrics h) (nh_published_status h)
    (nh_next_client_token h) (nh_random_state h) (nh_last_submitted_operation h)
    (nh_durable_operation_through h) (nh_owner_thread h) (nh_started h) (nh_running h)
    (nh_fatal_error h) (nh_group_barrier_active h) (nh_env h).
Definition set_nh_tcp (v : T) h : HostImpl T :=
  mkHostImpl (nh_config h) (nh_raft h) (nh_storage h) v (nh_owner_events h) (nh_client_queue h)
    (nh_outstanding_tokens h) (nh_replies h) (nh_traces h) (nh_quarantined_effects h)
    (nh_election_timer h) (nh_heartbeat_timer h) (nh_metrics h) (nh_published_status h)
    (nh_next_client_token h) (nh_random_state h) (nh_last_submitted_operation h)
    (nh_durable_operation_through h) (nh_owner_thread h) (nh_started h) (nh_running h)
    (nh_fatal_error h) (nh_group_barrier_active h) (nh_env h).
Definition set_nh_owner_events (v : list RaftEvent) h : HostImpl T :=
  mkHostImpl (nh_config h) (nh_raft h) (nh_storage h) (nh_tcp h) v (nh_client_queue h)
    (nh_outstanding_tokens h) (nh_replies h) (nh_traces h) (nh_quarantined_effects h)
    (nh_election_timer h) (nh_heartbeat_timer h) (nh_metrics h) (nh_published_status h)
    (nh_next_client_token h) (nh_random_state h) (nh_last_submitted_operation h)
    (nh_durable_operation_through h) (nh_owner_thread h) (nh_started h) (nh_running h)
    (nh_fatal_error h) (nh_group_barrier_active h) (nh_env h).
Definition set_nh_client_queue (v : list (ClientToken * ClientCommand)) h : HostImpl T :=
  mkHostImpl (nh_config h) (nh_raft h) (nh_storage h) (nh_tcp h) (nh_owner_events h) v
    (nh_outstanding_tokens h) (nh_replies h) (nh_traces h) (nh_quarantined_effects h)
    (nh_election_timer h) (nh_heartbeat_timer h) (nh_metrics h) (nh_published_status h)
    (nh_next_client_token h) (nh_random_state h) (nh_last_submitted_operation h)
    (nh_durable_operation_through h) (nh_owner_thread h) (nh_started h) (nh_running h)
    (nh_fatal_error h) (nh_group_barrier_active h) (nh_env h).
Definition set_nh_outstanding_tokens (v : gset N) h : HostImpl T :=
  mkHostImpl (nh_config h) (nh_raft h) (nh_storage h) (nh_tcp h) (nh_owner_events h)
    (nh_client_queue h) v (nh_replies h) (nh_traces h) (nh_quarantined_effects h)
    (nh_election_timer h) (nh_heartbeat_timer h) (nh_metrics h) (nh_published_status h)
    (nh_next_client_token h) (nh_random_state h) (nh_last_submitted_operation h)
    (nh_durable_operation_through h) (nh_owner_thread h) (nh_started h) (nh_running h)
    (nh_fatal_error h) (nh_group_barrier_active h) (nh_env h).
Definition set_nh_replies (v : list ClientReply) h : HostImpl T :=
  mkHostImpl (nh_config h) (nh_raft h) (nh_storage h) (nh_tcp h) (nh_owner_events h)
    (nh_client_queue h) (nh_outstanding_tokens h) v (nh_traces h) (nh_quarantined_effects h)
    (nh_election_timer h) (nh_heartbeat_timer h) (nh_metrics h) (nh_published_status h)
    (nh_next_client_token h) (nh_random_state h) (nh_last_submitted_operation h)
    (nh_durable_operation_through h) (nh_owner_thread h) (nh_started h) (nh_running h)
    (nh_fatal_error h) (nh_group_barrier_active h) (nh_env h).
Definition set_nh_traces (v : list TraceRecord) h : HostImpl T :=
  mkHostImpl (nh_config h) (nh_raft h) (nh_storage h) (nh_tcp h) (nh_owner_events h)
    (nh_client_queue h) (nh_outstanding_tokens h) (nh_replies h) v (nh_quarantined_effects h)
    (nh_election_timer h) (nh_heartbeat_timer h) (nh_metrics h) (nh_published_status h)
    (nh_next_client_token h) (nh_random_state h) (nh_last_submitted_operation h)
    (nh_durable_operation_through h) (nh_owner_thread h) (nh_started h) (nh_running h)
    (nh_fatal_error h) (nh_group_barrier_active h) (nh_env h).
Definition set_nh_quarantined_effects (v : list QuarantinedEffect) h : HostImpl T :=
  mkHostImpl (nh_config h) (nh_raft h) (nh_storage h) (nh_tcp h) (nh_owner_events h)
    (nh_client_queue h) (nh_outstanding_tokens h) (nh_replies h) (nh_traces h) v
    (nh_election_timer h) (nh_heartbeat_timer h) (nh_metrics h) (nh_published_status h)
    (nh_next_client_token h) (nh_random_state h) (nh_last_submitted_operation h)
    (nh_durable_operation_through h) (nh_owner_thread h) (nh_started h) (nh_running h)
    (nh_fatal_error h) (nh_group_barrier_active h) (nh_env h).
Definition set_nh_election_timer (v : HostTimer) h : HostImpl T :=
  mkHostImpl (nh_config h) (nh_raft h) (nh_storage h) (nh_tcp h) (nh_owner_events h)
    (nh_client_queue h) (nh_outstanding_tokens h) (nh_replies h) (nh_traces h)
    (nh_quarantined_effects h) v (nh_heartbeat_timer h) (nh_metrics h) (nh_published_status h)
    (nh_next_client_token h) (nh_random_state h) (nh_last_submitted_operation h)
    (nh_durable_operation_through h) (nh_owner_thread h) (nh_started h) (nh_running h)
    (nh_fatal_error h) (nh_group_barrier_active h) (nh_env h).
Definition set_nh_heartbeat_timer (v : HostTimer) h : HostImpl T :=
  mkHostImpl (nh_config h) (nh_raft h) (nh_storage h) (nh_tcp h) (nh_owner_events h)
    (nh_client_queue h) (nh_outstanding_tokens h) (nh_replies h) (nh_traces h)
    (nh_quarantined_effects h) (nh_election_timer h) v (nh_metrics h) (nh_published_status h)
    (nh_next_client_token h) (nh_random_state h) (nh_last_submitted_operation h)
    (nh_durable_operation_through h) (nh_owner_thread h) (nh_started h) (nh_running h)
    (nh_fatal_error h) (nh_group_barrier_active h) (nh_env h).
Definition set_nh_metrics (v : NodeHostMetrics) h : HostImpl T :=
  mkHostImpl (nh_config h) (nh_raft h) (nh_storage h) (nh_tcp h) (nh_owner_events h)
    (nh_client_queue h) (nh_outstanding_tokens h) (nh_replies h) (nh_traces h)
    (nh_quarantined_effects h) (nh_election_timer h) (nh_heartbeat_timer h) v
    (nh_published_status h) (nh_next_client_token h) (nh_random_state h)
    (nh_last_submitted_operation h) (nh_durable_operation_through h) (nh_owner_thread h)
    (nh_started h) (nh_running h) (nh_fatal_error h) (nh_group_barrier_active h) (nh_env h).
Definition set_nh_published_status (v : NodeHostStatus) h : HostImpl T :=
  mkHostImpl (nh_config h) (nh_raft h) (nh_storage h) (nh_tcp h) (nh_owner_events h)
    (nh_client_queue h) (nh_outstanding_tokens h) (nh_replies h) (nh_traces h)
    (nh_quarantined_effects h) (nh_election_timer h) (nh_heartbeat_timer h) (nh_metrics h) v
    (nh_next_client_token h) (nh_random_state h) (nh_last_submitted_operation h)
    (nh_durable_operation_through h) (nh_owner_thread h) (nh_started h) (nh_running h)
    (nh_fatal_error h) (nh_group_barrier_active h) (nh_env h).
Definition set_nh_next_client_token (v : ClientToken) h : HostImpl T :=
  mkHostImpl (nh_config h) (nh_raft h) (nh_storage h) (nh_tcp h) (nh_owner_events h)
    (nh_client_queue h) (nh_outstanding_tokens h) (nh_replies h) (nh_traces h)
    (nh_quarantined_effects h) (nh_election_timer h) (nh_heartbeat_timer h) (nh_metrics h)
    (nh_published_status h) v (nh_random_state h) (nh_last_submitted_operation h)
    (nh_durable_operation_through h) (nh_owner_thread h) (nh_started h) (nh_running h)
    (nh_fatal_error h) (nh_group_barrier_active h) (nh_env h).
Definition set_nh_random_state (v : N) h : HostImpl T :=
  mkHostImpl (nh_config h) (nh_raft h) (nh_storage h) (nh_tcp h) (nh_owner_events h)
    (nh_client_queue h) (nh_outstanding_tokens h) (nh_replies h) (nh_traces h)
    (nh_quarantined_effects h) (nh_election_timer h) (nh_heartbeat_timer h) (nh_metrics h)
    (nh_published_status h) (nh_next_client_token h) v (nh_last_submitted_operation h)
    (nh_durable_operation_through h) (nh_owner_thread h) (nh_started h) (nh_running h)
    (nh_fatal_error h) (nh_group_barrier_active h) (nh_env h).
Definition set_nh_last_submitted_operation (v : StorageOpId) h : HostImpl T :=
  mkHostImpl (nh_config h) (nh_raft h) (nh_storage h) (nh_tcp h) (nh_owner_events h)
    (nh_client_queue h) (nh_outstanding_tokens h) (nh_replies h) (nh_traces h)
    (nh_quarantined_effects h) (nh_election_timer h) (nh_heartbeat_timer h) (nh_metrics h)
    (nh_published_status h) (nh_next_client_token h) (nh_random_state h) v
    (nh_durable_operation_through h) (nh_owner_thread h) (nh_started h) (nh_running h)
    (nh_fatal_error h) (nh_group_barrier_active h) (nh_env h).
Definition set_nh_durable_operation_through (v : StorageOpId) h : HostImpl T :=
  mkHostImpl (nh_config h) (nh_raft h) (nh_storage h) (nh_tcp h) (nh_owner_events h)
    (nh_client_queue h) (nh_outstanding_tokens h) (nh_replies h) (nh_traces h)
    (nh_quarantined_effects h) (nh_election_timer h) (nh_heartbeat_timer h) (nh_metrics h)
    (nh_published_status h) (nh_next_client_token h) (nh_random_state h)
    (nh_last_submitted_operation h) v (nh_owner_thread h) (nh_started h) (nh_running h)
    (nh_fatal_error h) (nh_group_barrier_active h) (nh_env h).
Definition set_nh_owner_thread (v : N) h : HostImpl T :=
  mkHostImpl (nh_config h) (nh_raft h) (nh_storage h) (nh_tcp h) (nh_owner_events h)
    (nh_client_queue h) (nh_outstanding_tokens h) (nh_replies h) (nh_traces h)
    (nh_quarantined_effects h) (nh_election_timer h) (nh_heartbeat_timer h) (nh_metrics h)
    (nh_published_status h) (nh_next_client_token h) (nh_random_state h)
    (nh_last_submitted_operation h) (nh_durable_operation_through h) v (nh_started h)
    (nh_running h) (nh_fatal_error h) (nh_group_barrier_active h) (nh_env h).
Definition set_nh_started (v : bool) h : HostImpl T :=
  mkHostImpl (nh_config h) (nh_raft h) (nh_storage h) (nh_tcp h) (nh_owner_events h)
    (nh_client_queue h) (nh_outstanding_tokens h) (nh_replies h) (nh_traces h)
    (nh_quarantined_effects h) (nh_election_timer h) (nh_heartbeat_timer h) (nh_metrics h)
    (nh_published_status h) (nh_next_client_token h) (nh_random_state h)
    (nh_last_submitted_operation h) (nh_durable_operation_through h) (nh_owner_thread h) v
    (nh_running h) (nh_fatal_error h) (nh_group_barrier_active h) (nh_env h).
Definition set_nh_running (v : bool) h : HostImpl T :=
  mkHostImpl (nh_config h) (nh_raft h) (nh_storage h) (nh_tcp h) (nh_owner_events h)
    (nh_client_queue h) (nh_outstanding_tokens h) (nh_replies h) (nh_traces h)
    (nh_quarantined_effects h) (nh_election_timer h) (nh_heartbeat_timer h) (nh_metrics h)
    (nh_published_status h) (nh_next_client_token h) (nh_random_state h)
    (nh_last_submitted_operation h) (nh_durable_operation_through h) (nh_owner_thread h)
    (nh_started h) v (nh_fatal_error h) (nh_group_barrier_active h) (nh_env h).
Definition set_nh_fatal_error (v : bool) h : HostImpl T :=
  mkHostImpl (nh_config h) (nh_raft h) (nh_storage h) (nh_tcp h) (nh_owner_events h)
    (nh_client_queue h) (nh_outstanding_tokens h) (nh_replies h) (nh_traces h)
    (nh_quarantined_effects h) (nh_election_timer h) (nh_heartbeat_timer h) (nh_metrics h)
    (nh_published_status h) (nh_next_client_token h) (nh_random_state h)
    (nh_last_submitted_operation h) (nh_durable_operation_through h) (nh_owner_thread h)
    (nh_started h) (nh_running h) v (nh_group_barrier_active h) (nh_env h).
Definition set_nh_group_barrier_active (v : bool) h : HostImpl T :=
  mkHostImpl (nh_config h) (nh_raft h) (nh_storage h) (nh_tcp h) (nh_owner_events h)
    (nh_client_queue h) (nh_outstanding_tokens h) (nh_replies h) (nh_traces h)
    (nh_quarantined_effects h) (nh_election_timer h) (nh_heartbeat_timer h) (nh_metrics h)
    (nh_published_status h) (nh_next_client_token h) (nh_random_state h)
    (nh_last_submitted_operation h) (nh_durable_operation_through h) (nh_owner_thread h)
    (nh_started h) (nh_running h) (nh_fatal_error h) v (nh_env h).
Definition set_nh_env (v : Surroundings) h : HostImpl T :=
  mkHostImpl (nh_config h) (nh_raft h) (nh_storage h) (nh_tcp h) (nh_owner_events h)
    (nh_client_queue h) (nh_outstanding_tokens h) (nh_replies h) (nh_traces h)
    (nh_quarantined_effects h) (nh_election_timer h) (nh_heartbeat_timer h) (nh_metrics h)
    (nh_published_status h) (nh_next_client_token h) (nh_random_state h)
    (nh_last_submitted_operation h) (nh_durable_operation_through h) (nh_owner_thread h)
    (nh_started h) (nh_running h) (nh_fatal_error h) (nh_group_barrier_active h) v.

End setters.
