(* ===== verification/HostWorker.v ===== *)
(** * HostWorker: the storage worker of a node host

    [StorageWorker] of [src/node_host.cpp].  Its thread is a state machine: each
    [worker_step] is the code between two points where the thread takes the mutex
    or calls the log, so that the owner may run between any two steps. *)

From S2P Require Import Prelude Model StateMachine RaftTypes.
From S2P Require Import Bytes Wal WalFile TcpTypes HostTypes.
#[local] Open Scope N_scope.

(** ** The owner's side *)

(** [StorageWorker::StorageWorker]. *)
Definition new_worker (wal : WalImpl) (max_tasks max_completions : N) (policy : WalFlushPolicy)
    (group : NodeHostGroupCommitConfig) (max_frame_bytes max_group_bytes : N) : StorageWorker :=
  mkStorageWorker wal max_tasks max_completions policy group max_frame_bytes max_group_bytes
    [] [] false false false pc_idle 0 0 0 0.

(** [StorageWorker::start]. *)
Definition start_worker (w : StorageWorker) : Exn + StorageWorker :=
  if sw_started w then inl (logic_error "storage worker already started")
  else inr (set_sw_pc pc_wait (set_sw_started true w)).

(** [StorageWorker::enqueue]. *)
Definition enqueue (task : StorageTask) (w : StorageWorker) : StorageEnqueueResult * StorageWorker :=
  if negb (sw_started w) || sw_stopping w || sw_failed w ||
     (sw_max_tasks w <=? N.of_nat (length (sw_tasks w)))
  then (mkStorageEnqueueResult false 0, w)
  else
    let w1 := set_sw_tasks (sw_tasks w ++ [task]) w in
    (mkStorageEnqueueResult true (N.of_nat (length (sw_tasks w1))), w1).

(** [StorageWorker::take]. *)
Definition take_notices (maximum : N) (w : StorageWorker) : list StorageNotice * StorageWorker :=
  let count := N.to_nat (N.min maximum (N.of_nat (length (sw_completions w)))) in
  (take count (sw_completions w), set_sw_completions (drop count (sw_completions w)) w).

(** ** The worker's side *)

Definition success (operation : StorageOpId) : Completion := mkCompletion operation true EmptyString.

(** [message.resize(512)] when it is longer. *)
Definition failure (operation : StorageOpId) (message : string) : Completion :=
  mkCompletion operation false (String.substring 0 512 message).

Definition failed_notice (w : StorageWorker) (operation : StorageOpId) (message : string)
  : StorageNotice :=
  mkStorageNotice nk_failed (failure operation message) None (sw_group_size w) (sw_group_bytes w)
    false 0.

Definition barrier_notice (w : StorageWorker) (delayed : option Completion) : StorageNotice :=
  mkStorageNotice nk_barrier no_completion delayed (sw_group_size w) (sw_group_bytes w) true
    (sw_group_last w).

(** [StorageWorker::mark_failed]. *)
Definition mark_failed (w : StorageWorker) : StorageWorker :=
  set_sw_tasks [] (set_sw_failed true w).

(** The group variables after a barrier. *)
Definition reset_group (w : StorageWorker) : StorageWorker :=
  set_sw_group_last 0 (set_sw_group_bytes 0 (set_sw_group_size 0 w)).

(** [StorageWorker::publish] and what its caller does with the answer; the thread
    stays where it is while there is no room. *)
Definition publish (n : StorageNotice) (next : AfterPublish) (w : StorageWorker) : StorageWorker :=
  if sw_stopping w then set_sw_pc pc_returned w
  else if N.of_nat (length (sw_completions w)) <? sw_max_completions w then
    let w1 := set_sw_completions (sw_completions w ++ [n]) w in
    match next with
    | then_return => set_sw_pc pc_returned w1
    | then_loop => set_sw_pc pc_wait w1
    | then_reset => set_sw_pc pc_wait (reset_group w1)
    end
  else w.

(** The body of the loop of [run_ungrouped] between the two locks. *)
Definition ungrouped_task (t : StorageTask) (i : WorkerInput) (w : StorageWorker) : StorageWorker :=
  let notice c flushed := mkStorageNotice nk_complete c None 0 0 flushed 0 in
  let fails e w := set_sw_pc (pc_failed (notice (failure (tk_operation t) (we_what e)) false)) w in
  let completes flushed w :=
    set_sw_pc (pc_publish (notice (success (tk_operation t)) flushed) then_loop) w in
  match wal_append (sw_wal w) (tk_batch t) (in_outs i) with
  | (inl e, wal) => fails e (set_sw_wal wal w)
  | (inr appended, wal) =>
      if bool_decide (sw_flush_policy w = flush_every_append) then
        if war_durable appended then completes true (set_sw_wal wal w)
        else match wal_flush wal (in_flush i) with
             | (inl e, wal) => fails e (set_sw_wal wal w)
             | (inr _, wal) => completes true (set_sw_wal wal w)
             end
      else completes false (set_sw_wal wal w)
  end.

(** The test of [run_grouped] that closes a group; the clock is read only when the
    other conditions do not hold. *)
Definition close_group (t : StorageTask) (now : N) (w : StorageWorker) : bool :=
  negb (is_none (b_commit_index (tk_batch t))) ||
  (gc_max_operations (sw_group_commit w) <=? sw_group_size w) ||
  (sub64 (sw_max_group_bytes w) (sw_max_frame_bytes w) <? sw_group_bytes w) ||
  (sw_deadline w <=? now).

Definition ns_per_ms : N := 1000000.

(** A frame joins the group; the first one sets the deadline. *)
Definition join_group (t : StorageTask) (bytes now : N) (w : StorageWorker) : StorageWorker :=
  let w := set_sw_group_bytes (add64 (sw_group_bytes w) bytes) w in
  let w := set_sw_deadline
             (if sw_group_size w =? 0
              then now + Z.to_N (gc_max_delay (sw_group_commit w)) * ns_per_ms
              else sw_deadline w) w in
  set_sw_group_last (tk_operation t) (set_sw_group_size (add64 (sw_group_size w) 1) w).

(** The loop of [run_grouped] from the append to the test that closes the group. *)
Definition grouped_task (t : StorageTask) (i : WorkerInput) (now : N) (w : StorageWorker)
  : StorageWorker :=
  let fails what w := set_sw_pc (pc_failed (failed_notice w (tk_operation t) what)) w in
  match wal_append (sw_wal w) (tk_batch t) (in_outs i) with
  | (inl e, wal) => fails (we_what e) (set_sw_wal wal w)
  | (inr appended, wal) =>
      let w := set_sw_wal wal w in
      if war_durable appended then
        fails "group-commit staging unexpectedly crossed a durability barrier"%string w
      else if sub64 (sw_max_group_bytes w) (N.min (sw_max_group_bytes w) (sw_group_bytes w))
                <? war_bytes_written appended then
        fails "runtime group exceeded the configured WAL byte bound"%string w
      else
        let w := join_group t (war_bytes_written appended) now w in
        if close_group t (now + in_elapsed_again i) w then set_sw_pc (pc_flush t) w
        else set_sw_pc (pc_publish (mkStorageNotice nk_staged (success (tk_operation t)) None 0 0
                          false 0) then_loop) w
  end.

(** The flush that closes a group: after the task [t], or after the delay. *)
Definition flush_group (t : option StorageTask) (i : WorkerInput) (w : StorageWorker)
  : StorageWorker :=
  let op := match t with Some t => tk_operation t | None => 0 end in
  match wal_flush (sw_wal w) (in_flush i) with
  | (inl e, wal) =>
      let w := set_sw_wal wal w in set_sw_pc (pc_failed (failed_notice w op (we_what e))) w
  | (inr _, wal) =>
      let w := set_sw_wal wal w in
      let delayed := match t with Some t => Some (success (tk_operation t)) | None => None end in
      set_sw_pc (pc_publish (barrier_notice w delayed) then_reset) w
  end.

(** The wait for a task: it ends when the worker is stopped or has a task, or, in
    an open group, at the deadline. *)
Definition wait_task (now : N) (w : StorageWorker) : StorageWorker :=
  if sw_stopping w then set_sw_pc pc_returned w
  else match sw_tasks w with
       | t :: tasks => set_sw_pc (pc_task t) (set_sw_tasks tasks w)
       | [] =>
           if gc_enabled (sw_group_commit w) && negb (sw_group_size w =? 0) &&
              (sw_deadline w <=? now)
           then set_sw_pc pc_timeout w else w
       end.

(** One step of the thread, at the time [now]. *)
Definition worker_step (i : WorkerInput) (now : N) (w : StorageWorker) : StorageWorker :=
  match sw_pc w with
  | pc_idle | pc_returned => w
  | pc_wait => wait_task now w
  | pc_task t =>
      if gc_enabled (sw_group_commit w) then grouped_task t i now w else ungrouped_task t i w
  | pc_flush t => flush_group (Some t) i w
  | pc_timeout => flush_group None i w
  | pc_failed n => set_sw_pc (pc_publish n then_return) (mark_failed w)
  | pc_publish n next => publish n next w
  end.

(** Several steps, with the clock they read. *)
Fixpoint worker_steps (ins : list WorkerInput) (now : N) (w : StorageWorker) : N * StorageWorker :=
  match ins with
  | [] => (now, w)
  | i :: ins =>
      let now := now + in_elapsed i in
      worker_steps ins (now + in_elapsed_again i) (worker_step i now w)
  end.

(** [thread_.join()] of a stopping worker: the thread runs to its end. *)
Definition join_steps : nat := 6.
Definition join_inputs (ins : list WorkerInput) : list WorkerInput :=
  take join_steps (ins ++ replicate join_steps quiet_input).

(** [StorageWorker::stop], with the steps that the thread still makes. *)
Definition stop_worker (ins : list WorkerInput) (now : N) (w : StorageWorker) : N * StorageWorker :=
  worker_steps (join_inputs ins) now (set_sw_tasks [] (set_sw_stopping true w)).
