(* ===== verification/NodeHost.v ===== *)
(** * NodeHost: the owner thread of a node

    [NodeHost::Impl] of [src/node_host.cpp], function by function, over any
    [Transport].  The storage worker runs between the points where the owner
    takes its mutex ([lock_worker]); the clock moves at each reading. *)

From S2P Require Import Prelude Model StateMachine RaftTypes Raft.
From S2P Require Codec.
From S2P Require Import Bytes Wal WalFile TcpTypes HostTypes HostWorker.
#[local] Open Scope N_scope.

Inductive HostExn :=
  | host_exn (e : Exn)
  | wal_exn (e : WalError)
  | tcp_exn (e : TcpExn).

(** ** Configuration *)

(** [next_random]: xorshift64*; the value and the next state. *)
Definition next_random (state : N) : N * N :=
  let s1 := N.lxor state (N.shiftr state 12) in
  let s2 := N.lxor s1 (wrap64 (N.shiftl s1 25)) in
  let s3 := N.lxor s2 (N.shiftr s2 27) in
  (mul64 s3 0x2545f4914f6cdd1d, s3).

Definition runtime_wal_options (c : NodeHostConfig) : WalOptions :=
  let o := hc_wal c in
  if gc_enabled (hc_group_commit c) then
    mkWalOptions unsafe_no_flush (wo_max_frame_bytes o) (wo_max_group_bytes o)
      (wo_max_group_frames o) (wo_max_entries_per_frame o) (wo_max_key_bytes o)
      (wo_max_value_bytes o) (wo_max_log_entries o)
  else o.

Definition identity_consistent (c : NodeHostConfig) : bool :=
  let r := hc_raft c in
  let i := hc_identity c in
  let t := tc_identity (hc_tcp c) in
  negb (string_size (hc_wal_path c) =? 0) && negb (RaftTypes.node_id r =? 0) &&
  (Wal.node_id i =? RaftTypes.node_id r) && (ti_node_id t =? RaftTypes.node_id r) &&
  (cluster_id_high i =? ti_cluster_id_high t) && (cluster_id_low i =? ti_cluster_id_low t).

Definition host_bounds_ok (c : NodeHostConfig) : bool :=
  let l := hc_limits c in
  (0 <? hc_tick_duration c)%Z && (0 <=? hc_idle_sleep c)%Z &&
  negb (max_owner_events l =? 0) && negb (max_client_queue l =? 0) &&
  negb (max_client_slots l =? 0) && negb (max_trace_records l =? 0) &&
  negb (max_storage_tasks l =? 0) && negb (max_storage_completions l =? 0) &&
  negb (max_group_quarantined_effects l =? 0) && negb (max_tcp_events_per_poll l =? 0).

Definition group_commit_ok (c : NodeHostConfig) : bool :=
  let g := hc_group_commit c in
  negb (gc_enabled g) ||
  (bool_decide (wo_flush_policy (hc_wal c) = flush_every_append) &&
   negb (gc_max_operations g =? 0) &&
   (gc_max_operations g <=? wo_max_group_frames (hc_wal c)) &&
   (0 <? gc_max_delay g)%Z && (gc_max_delay g <=? 60000)%Z).

Definition codec_bound_ok (c : NodeHostConfig) : bool :=
  negb (Codec.max_frame_bytes (hc_codec c) =? 0) &&
  (Codec.max_frame_bytes (hc_codec c) <=? tl_max_frame_bytes (tc_limits (hc_tcp c))).

Definition raft_bounds_ok (c : NodeHostConfig) : bool :=
  let r := hc_raft c in
  let d := hc_codec c in
  let w := hc_wal c in
  (max_key_bytes r <=? Codec.max_key_bytes d) && (max_key_bytes r <=? wo_max_key_bytes w) &&
  (max_value_bytes r <=? Codec.max_value_bytes d) && (max_value_bytes r <=? wo_max_value_bytes w) &&
  (max_append_entries_per_rpc r <=? Codec.max_entries_per_append d) &&
  (max_append_entries_per_rpc r <=? wo_max_entries_per_frame w) &&
  (max_append_bytes_per_rpc r <=? Codec.max_frame_bytes d) &&
  (max_append_bytes_per_rpc r <=? wo_max_frame_bytes w) &&
  (max_command_bytes r <=? Codec.max_frame_bytes d) &&
  (max_command_bytes r <=? wo_max_frame_bytes w).

Definition kTcpLengthPrefixBytes : N := 4.

Definition outbound_bound_ok (c : NodeHostConfig) : bool :=
  let need := max_append_bytes_per_rpc (hc_raft c) in
  let l := tc_limits (hc_tcp c) in
  (need <=? u64_max - kTcpLengthPrefixBytes) &&
  (add64 need kTcpLengthPrefixBytes <=? tl_max_outbound_bytes_per_peer l) &&
  (add64 need kTcpLengthPrefixBytes <=? tl_max_total_outbound_bytes l).

Definition members_ok (c : NodeHostConfig) : bool :=
  let ms := sort_members (members (hc_raft c)) in
  ((length ms =? 3)%nat || (length ms =? 5)%nat) && negb (adjacent_equal ms) &&
  bool_decide (RaftTypes.node_id (hc_raft c) ∈ ms).

Definition peers_match (c : NodeHostConfig) : bool :=
  let ms := sort_members (members (hc_raft c)) in
  bool_decide (sort_members (pe_node_id <$> tc_peers (hc_tcp c)) =
               filter (fun m => m <> RaftTypes.node_id (hc_raft c)) ms).

Definition validate_host_config (c : NodeHostConfig) : Exn + unit :=
  if negb (identity_consistent c) then
    inl (invalid_argument "NodeHost identity configuration is inconsistent")
  else if negb (host_bounds_ok c) then
    inl (invalid_argument "NodeHost queue and timing bounds must be nonzero")
  else if negb (group_commit_ok c) then
    inl (invalid_argument "safe group commit requires the safe WAL policy and bounded positive operation/delay limits")
  else if negb (codec_bound_ok c) then
    inl (invalid_argument "TCP frame bound is smaller than codec bound")
  else if negb (raft_bounds_ok c) then
    inl (invalid_argument "Raft command/append bounds exceed codec or WAL bounds")
  else if negb (outbound_bound_ok c) then
    inl (invalid_argument "TCP outbound queue cannot hold one maximum Raft frame")
  else if negb (members_ok c) then
    inl (invalid_argument "NodeHost requires 3 or 5 unique members including this node")
  else if negb (peers_match c) then
    inl (invalid_argument "TCP peer set must exactly match Raft members except this node")
  else inr tt.

Section host.
Context {W T : Type} `{Transport W T}.
Abbreviation Host := (HostImpl T).
Implicit Types h : Host.

(** A call that may throw; the host keeps what was done before the exception. *)
Definition Call (A : Type) : Type := Host -> (HostExn + A) * Host.
Definition call_ret {A} (a : A) : Call A := fun h => (inr a, h).
Definition call_throw {A} (e : HostExn) : Call A := fun h => (inl e, h).
Definition call_bind {A B} (m : Call A) (k : A -> Call B) : Call B := fun h =>
  match m h with
  | (inl e, h') => (inl e, h')
  | (inr a, h') => k a h'
  end.
Definition call_do (f : Host -> Host) : Call unit := fun h => (inr tt, f h).
Definition call_get {A} (f : Host -> A) : Call A := fun h => (inr (f h), h).
Notation "x <-- m ; k" := (call_bind m (fun x => k))
  (at level 100, m at next level, right associativity).

(** ** Surroundings *)

(** The steps the worker makes before the owner gets the mutex. *)
Definition lock_worker h : Host :=
  let env := nh_env h in
  let ins := default [] (head (en_worker env)) in
  let r := worker_steps ins (en_now env) (nh_storage h) in
  set_nh_env (mkSurroundings r.1 (en_elapsed env) (tail (en_worker env))) (set_nh_storage r.2 h).

(** [steady_clock::now()]. *)
Definition read_clock h : N * Host :=
  let env := nh_env h in
  let now := en_now env + default 1 (head (en_elapsed env)) in
  (now, set_nh_env (mkSurroundings now (tail (en_elapsed env)) (en_worker env)) h).

(** [sleep_for]. *)
Definition sleep_for (d : N) h : Host :=
  let env := nh_env h in
  set_nh_env (mkSurroundings (en_now env + d) (en_elapsed env) (en_worker env)) h.

Definition storage_stop h : Host :=
  let h := lock_worker h in
  let env := nh_env h in
  let ins := default [] (head (en_worker env)) in
  let r := stop_worker ins (en_now env) (nh_storage h) in
  set_nh_env (mkSurroundings r.1 (en_elapsed env) (tail (en_worker env))) (set_nh_storage r.2 h).

Definition count (k : Metric) (n : N) h : Host := set_nh_metrics (add_metric k n (nh_metrics h)) h.
Definition high_water (k : Metric) (n : N) h : Host :=
  set_nh_metrics (max_metric k n (nh_metrics h)) h.

(** ** Status *)

Definition queue_size {A} (l : list A) : N := N.of_nat (length l).

Definition live_status h : NodeHostStatus :=
  let r := nh_raft h in
  mkNodeHostStatus (RaftTypes.node_id (config_ r))
    (if nh_fatal_error h then unavailable else role_ r)
    (current_term (hard_state_ r)) (leader_hint_ r) (leader_ready_ r) (last_log_index r)
    (durable_last_log_index_ r) (commit_index_ r) (last_applied_ r)
    (negb (is_none (pending_storage_ r))) (queue_size (nh_owner_events h))
    (queue_size (nh_client_queue h)).

Definition refresh_published_status h : Host :=
  if negb (nh_group_barrier_active h) && negb (nh_fatal_error h)
  then set_nh_published_status (live_status h) h else h.

Definition record_queue_depths h : Host :=
  high_water client_queue_high_water (queue_size (nh_client_queue h))
    (high_water owner_queue_high_water (queue_size (nh_owner_events h)) h).

(** ** Timers *)

Definition election_jitter h : N * Host :=
  let jitter := hc_election_jitter (nh_config h) in
  if jitter =? 0 then (0, h)
  else
    let '(v, s) := next_random (nh_random_state h) in
    (if jitter =? u64_max then v else v mod (add64 jitter 1), set_nh_random_state s h).

(** [std::numeric_limits<std::int64_t>::max()], and the latest time point. *)
Definition i64_max : N := 2 ^ 63 - 1.
Definition clock_max : N := i64_max.

(** The delay of a timer in ticks, with the jitter of an election. *)
Definition timer_ticks (kind : TimerKind) (delay : Tick) h : N * Host :=
  match kind with
  | election =>
      let '(jitter, h) := election_jitter h in
      (if sub64 u64_max delay <? jitter then u64_max else add64 delay jitter, h)
  | heartbeat => (delay, h)
  end.

Definition delay_ms (ticks milliseconds_per_tick : N) : N :=
  if i64_max / milliseconds_per_tick <? ticks then i64_max else mul64 ticks milliseconds_per_tick.

Definition timer_deadline (kind : TimerKind) (delay : Tick) h : N * Host :=
  let '(ticks, h) := timer_ticks kind delay h in
  let ms := delay_ms ticks (Z.to_N (hc_tick_duration (nh_config h))) in
  let '(now, h) := read_clock h in
  let remaining := (clock_max - now) / ns_per_ms in
  (now + N.min ms remaining * ns_per_ms, h).

Definition schedule_timer (request : TimerRequest) h : Host :=
  let '(deadline, h) := timer_deadline (tr_kind request) (tr_delay request) h in
  let t := mkHostTimer true request deadline in
  match tr_kind request with
  | election => set_nh_election_timer t h
  | heartbeat => set_nh_heartbeat_timer t h
  end.

(** ** Failure *)

(** The replies to the clients whose requests are lost. *)
Fixpoint reply_unavailable (tokens : list ClientToken) h : Host :=
  match tokens with
  | [] => h
  | token :: tokens =>
      if max_client_slots (hc_limits (nh_config h)) <=? queue_size (nh_replies h) then h
      else reply_unavailable tokens
             (count client_replies 1
                (set_nh_replies (nh_replies h ++
                   [mkClientReply token status_unavailable None 0 EmptyString]) h))
  end.

(** The tokens of a [std::set] in increasing order. *)
Definition ordered (s : gset N) : list N := merge_sort N.le (elements s).

Definition fail_transport h : Host :=
  if negb (nh_running h) then h
  else
    let p := nh_published_status h in
    let h := set_nh_running false (set_nh_fatal_error true h) in
    let h := set_nh_group_barrier_active false (set_nh_quarantined_effects [] h) in
    let h := set_nh_published_status
      (mkNodeHostStatus (st_node p) unavailable (st_term p) None false (st_last_log_index p)
         (st_durable_last_log_index p) (st_commit_index p) (st_last_applied p) false
         (st_owner_events p) (st_client_queue p)) h in
    let h := reply_unavailable (ordered (nh_outstanding_tokens h)) h in
    let h := set_nh_owner_events [] (set_nh_client_queue [] (set_nh_outstanding_tokens ∅ h)) in
    storage_stop (set_nh_tcp (tcp_stop (nh_tcp h)) h).

Definition fail_group_storage h : Host :=
  fail_transport (set_nh_group_barrier_active false (set_nh_quarantined_effects [] h)).

(** ** Effects *)

Definition persist_effect (op_id : StorageOpId) (batch : PersistBatch) h : Host :=
  let h := lock_worker (count storage_submitted 1 h) in
  let '(r, w) := enqueue (mkStorageTask op_id batch) (nh_storage h) in
  let h := high_water storage_task_queue_high_water (eq_queue_depth r) (set_nh_storage w h) in
  if eq_accepted r then h
  else
    let h := count storage_errors 1 h in
    if gc_enabled (hc_group_commit (nh_config h)) then fail_group_storage h
    else if queue_size (nh_owner_events h) <? max_owner_events (hc_limits (nh_config h)) then
      set_nh_owner_events
        (StorageComplete op_id false "bounded storage queue unavailable" :: nh_owner_events h) h
    else h.

Definition send_metric (s : TcpSendStatus) : Metric :=
  match s with
  | tcp_queued => tcp_messages_queued
  | tcp_would_block => tcp_backpressure_drops
  | tcp_down => tcp_down_drops
  | tcp_error => tcp_error_drops
  end.

Definition send_effect (env : MessageEnvelope) h : Host :=
  match Codec.encode_message (env_message env) (hc_codec (nh_config h)) with
  | Codec.failure _ _ => fail_transport (count tcp_error_drops 1 h)
  | Codec.success encoded =>
      let '(r, t) := tcp_send (env_to env) encoded (nh_tcp h) in
      count (send_metric (tr_status r)) 1 (set_nh_tcp t h)
  end.

Definition reply_effect (reply : ClientReply) h : Host :=
  let h := set_nh_outstanding_tokens (nh_outstanding_tokens h ∖ {[ cr_token reply ]}) h in
  if queue_size (nh_replies h) <? max_client_slots (hc_limits (nh_config h))
  then count client_replies 1 (set_nh_replies (nh_replies h ++ [reply]) h) else h.

Definition trace_effect (record : TraceRecord) h : Host :=
  if queue_size (nh_traces h) <? max_trace_records (hc_limits (nh_config h))
  then set_nh_traces (nh_traces h ++ [record]) h else count trace_drops 1 h.

Definition dispatch_effect (effect : RaftEffect) h : Host :=
  match effect with
  | PersistEffect op_id batch => persist_effect op_id batch h
  | SendEffect env => send_effect env h
  | ScheduleTimerEffect request => schedule_timer request h
  | ClientReplyEffect reply => reply_effect reply h
  | TraceEffect record => trace_effect record h
  end.

Definition is_persist (e : RaftEffect) : bool :=
  match e with PersistEffect _ _ => true | _ => false end.

(** The largest operation that the effects submit, or [dependency]. *)
Fixpoint effect_dependency (dependency : StorageOpId) (effects : list RaftEffect) : StorageOpId :=
  match effects with
  | [] => dependency
  | PersistEffect op_id _ :: effects => effect_dependency (N.max dependency op_id) effects
  | _ :: effects => effect_dependency dependency effects
  end.

(** One turn of the loop of [handle_effects]. *)
Definition handle_effect (dependency : StorageOpId) (effect : RaftEffect) h : Host :=
  if gc_enabled (hc_group_commit (nh_config h)) && nh_group_barrier_active h &&
     negb (is_persist effect) then
    if max_group_quarantined_effects (hc_limits (nh_config h)) <=?
       queue_size (nh_quarantined_effects h)
    then fail_group_storage (count storage_errors 1 h)
    else
      let h := set_nh_quarantined_effects
                 (nh_quarantined_effects h ++ [mkQuarantinedEffect dependency effect]) h in
      high_water storage_quarantine_high_water (queue_size (nh_quarantined_effects h)) h
  else dispatch_effect effect h.

Fixpoint handle_each (dependency : StorageOpId) (effects : list RaftEffect) h : Host :=
  match effects with
  | [] => h
  | effect :: effects =>
      let h := handle_effect dependency effect h in
      if nh_running h then handle_each dependency effects h else h
  end.

Definition handle_effects (effects : list RaftEffect) h : Host :=
  let group := gc_enabled (hc_group_commit (nh_config h)) in
  let dependency :=
    if group then effect_dependency (nh_last_submitted_operation h) effects
    else nh_last_submitted_operation h in
  let h := if group && (nh_last_submitted_operation h <? dependency)
           then set_nh_group_barrier_active true (set_nh_last_submitted_operation dependency h)
           else h in
  record_queue_depths (refresh_published_status (handle_each dependency effects h)).

(** [raft_->m()], whose effects the caller hands to [handle_effects]. *)
Definition raft_call (m : M unit) : Call (list RaftEffect) := fun h =>
  match m (nh_raft h) with
  | Returns (_, n, effects) => (inr effects, set_nh_raft n h)
  | Throws e => (inl (host_exn e), h)
  end.

(** [handle_effects(raft_->step(event))]. *)
Definition step_raft (event : RaftEvent) : Call unit :=
  effects <-- raft_call (step event); call_do (handle_effects effects).

(** ** Storage notices *)

(** The loop of [complete_group_barrier]: the effects that still wait. *)
Fixpoint release (held : list QuarantinedEffect) (waiting : list QuarantinedEffect) h
  : list QuarantinedEffect * Host :=
  match held with
  | [] => (waiting, h)
  | q :: held =>
      if qe_durability_dependency q <=? nh_durable_operation_through h then
        let h := dispatch_effect (qe_effect q) h in
        if nh_running h then release held waiting h else (waiting, h)
      else release held (waiting ++ [q]) h
  end.

Definition barrier_metrics (n : StorageNotice) h : Host :=
  let h := count storage_completed (sn_group_size n) h in
  let h := if sn_flushed n then count storage_flushes 1 h else h in
  let h := count storage_group_commits 1 h in
  let h := count storage_grouped_operations (sn_group_size n) h in
  high_water storage_group_max_bytes (sn_group_bytes n)
    (high_water storage_group_max_size (sn_group_size n) h).

(** [complete_group_barrier] up to the delayed completion. *)
Definition open_barrier (n : StorageNotice) h : Host :=
  let h := barrier_metrics n h in
  let h := set_nh_durable_operation_through
             (N.max (nh_durable_operation_through h) (sn_durable_through n)) h in
  let '(waiting, h) := release (nh_quarantined_effects h) [] h in
  let h := set_nh_quarantined_effects waiting h in
  set_nh_group_barrier_active
    (nh_durable_operation_through h <? nh_last_submitted_operation h) h.

Definition complete_group_barrier (n : StorageNotice) : Call unit :=
  _ <-- call_do (open_barrier n);
  running <-- call_get nh_running;
  _ <-- match sn_delayed_completion n with
        | Some c => if (running : bool) then step_raft (completion_event c) else call_ret tt
        | None => call_ret tt
        end;
  call_do refresh_published_status.

(** One notice of a host with group commit; [true] asks to return at once. *)
Definition group_notice (n : StorageNotice) : Call bool :=
  match sn_kind n with
  | nk_staged =>
      _ <-- call_do (count storage_staged_operations 1);
      _ <-- step_raft (completion_event (sn_completion n));
      running <-- call_get nh_running;
      call_ret (negb running)
  | nk_barrier =>
      _ <-- complete_group_barrier n;
      running <-- call_get nh_running;
      call_ret (negb running)
  | nk_failed | nk_complete =>
      _ <-- call_do (fun h => fail_group_storage (count storage_errors 1 h));
      call_ret true
  end.

(** One notice of a host without. *)
Definition plain_notice (n : StorageNotice) h : Host :=
  let h := count storage_completed 1 h in
  let h := if sn_flushed n then count storage_flushes 1 h else h in
  let h := if cp_success (sn_completion n) then h else count storage_errors 1 h in
  set_nh_owner_events (nh_owner_events h ++ [completion_event (sn_completion n)]) h.

Fixpoint take_in (notices : list StorageNotice) : Call bool :=
  match notices with
  | [] => call_ret false
  | n :: notices =>
      group <-- call_get (fun h => gc_enabled (hc_group_commit (nh_config h)));
      if (group : bool) then
        over <-- group_notice n;
        if (over : bool) then call_ret true else take_in notices
      else
        _ <-- call_do (plain_notice n);
        take_in notices
  end.

(** ** Inputs *)

Definition owner_room h : N :=
  sub64 (max_owner_events (hc_limits (nh_config h))) (queue_size (nh_owner_events h)).

Definition owner_free h : bool :=
  queue_size (nh_owner_events h) <? max_owner_events (hc_limits (nh_config h)).

Definition push_event (e : RaftEvent) h : Host :=
  set_nh_owner_events (nh_owner_events h ++ [e]) h.

(** The completions of the storage worker: did any arrive, and is the call over? *)
Definition gather_storage : Call (bool * bool) := fun h =>
  let available := owner_room h in
  if available =? 0 then (inr (false, false), h)
  else
    let h := lock_worker h in
    let '(notices, w) := take_notices available (nh_storage h) in
    (over <-- take_in notices; call_ret (negb (is_nil notices), over)) (set_nh_storage w h).

Definition is_due (now : N) (t : HostTimer) h : bool :=
  ht_active t && (ht_deadline t <=? now) && owner_free h.

Definition fired (t : HostTimer) : RaftEvent :=
  TimerFired (tr_kind (ht_request t)) (tr_generation (ht_request t)).
Definition stopped (t : HostTimer) : HostTimer :=
  mkHostTimer false (ht_request t) (ht_deadline t).

(** The due timers, the election first: did any fire? *)
Definition gather_timers h : bool * Host :=
  let '(now, h) := read_clock h in
  let e := nh_election_timer h in
  let '(a1, h) := if is_due now e h
                  then (true, set_nh_election_timer (stopped e) (push_event (fired e) h))
                  else (false, h) in
  let b := nh_heartbeat_timer h in
  let '(a2, h) := if is_due now b h
                  then (true, set_nh_heartbeat_timer (stopped b) (push_event (fired b) h))
                  else (false, h) in
  (a1 || a2, h).

(** One client request, if there is one and room for it. *)
Definition admit_client_request h : bool * Host :=
  match nh_client_queue h with
  | (token, cmd) :: rest =>
      if owner_free h
      then (true, set_nh_client_queue rest (push_event (ClientRequest token cmd) h)) else (false, h)
  | [] => (false, h)
  end.

(** [while (!client_queue_.empty() && ...)], with [fuel] the length of the queue. *)
Fixpoint admit_clients (fuel : nat) h : bool * Host :=
  match fuel with
  | O => (false, h)
  | S fuel =>
      let '(admitted, h) := admit_client_request h in
      if admitted then (true, (admit_clients fuel h).2) else (false, h)
  end.

(** The events of the transport; [true] when it has failed. *)
Fixpoint take_tcp (events : list TcpTransportEvent) h : bool * Host :=
  match events with
  | [] => (false, h)
  | e :: events =>
      match ev_kind e with
      | tcp_message =>
          match Codec.decode_message (ev_bytes e) (hc_codec (nh_config h)) with
          | Codec.failure _ _ => take_tcp events (count tcp_decode_drops 1 h)
          | Codec.success m =>
              take_tcp events
                (count tcp_messages_received 1
                   (push_event (MessageReceived
                      (mkMessageEnvelope (ev_peer e) (RaftTypes.node_id (hc_raft (nh_config h))) m)) h))
          end
      | peer_rejected => take_tcp events (count tcp_peer_rejections 1 h)
      | transport_error =>
          (true, fail_transport (record_queue_depths (count tcp_error_drops 1 h)))
      | peer_up | peer_down => take_tcp events h
      end
  end.

(** The transport's events: did any arrive, and is the call over? *)
Definition gather_tcp h : (bool * bool) * Host :=
  let available := owner_room h in
  if available =? 0 then ((false, false), h)
  else
    let limit := N.min available (max_tcp_events_per_poll (hc_limits (nh_config h))) in
    let '(events, t) := tcp_poll limit (nh_tcp h) in
    let '(over, h) := take_tcp events (set_nh_tcp t h) in
    ((negb (is_nil events), over), h).

Definition note_backpressure h : Host :=
  if (max_owner_events (hc_limits (nh_config h)) <=? queue_size (nh_owner_events h)) &&
     (negb (is_nil (nh_client_queue h)) || ht_active (nh_election_timer h) ||
      ht_active (nh_heartbeat_timer h))
  then count owner_queue_backpressure 1 h else h.

(** [gather_inputs] after the storage notices. *)
Definition gather_rest (activity : bool) h : bool * Host :=
  let '(a1, h) := gather_timers h in
  let '(a2, h) := admit_client_request h in
  let '((a3, over), h) := gather_tcp h in
  if over then (true, h)
  else
    let '(a4, h) := admit_clients (length (nh_client_queue h)) h in
    (activity || a1 || a2 || a3 || a4, record_queue_depths (note_backpressure h)).

Definition gather_inputs : Call bool := fun h =>
  let '(up, t) := tcp_running (nh_tcp h) in
  let h := set_nh_tcp t h in
  if negb up then (inr true, fail_transport (count tcp_error_drops 1 h))
  else
    (r <-- gather_storage;
     if (r.2 : bool) then call_ret true
     else fun h => let '(a, h) := gather_rest r.1 h in (inr a, h)) h.

(** ** The interface *)

Definition ensure_owner (caller : N) : Call unit := fun h =>
  if nh_started h && negb (caller =? nh_owner_thread h)
  then (inl (host_exn (logic_error "NodeHost consensus API called from non-owner thread")), h)
  else (inr tt, h).

(** [NodeHost::Impl::start]. *)
Definition host_start (caller : N) : Call unit := fun h =>
  if nh_started h then
    (inl (host_exn (logic_error "NodeHost is one-shot and already started")), h)
  else
    let h := lock_worker (set_nh_owner_thread caller h) in
    match start_worker (nh_storage h) with
    | inl e => (inl (host_exn e), h)
    | inr w =>
        let h := set_nh_storage w h in
        match tcp_start (nh_tcp h) with
        | (inl e, t) => (inl (tcp_exn e), storage_stop (set_nh_tcp t h))
        | (inr _, t) =>
            (effects <-- raft_call start;
             call_do (handle_effects effects))
              (set_nh_running true (set_nh_started true (set_nh_tcp t h)))
        end
    end.

(** [NodeHost::Impl::poll_once]. *)
Definition poll_once (caller : N) : Call bool :=
  _ <-- ensure_owner caller;
  running <-- call_get nh_running;
  if negb running then call_ret false
  else
    activity <-- gather_inputs;
    events <-- call_get nh_owner_events;
    match events with
    | [] => call_ret activity
    | event :: rest =>
        _ <-- call_do (set_nh_owner_events rest);
        _ <-- step_raft event;
        call_ret true
    end.

(** The idle branch of the loop of [run_for]. *)
Definition idle (deadline : N) h : Host :=
  let pause := Z.to_N (hc_idle_sleep (nh_config h)) in
  if pause =? 0 then h
  else
    let '(now, h) := read_clock h in
    if now <? deadline
    then sleep_for (N.min pause ((deadline - now) / ns_per_ms) * ns_per_ms) h else h.

(** The [do ... while] loop of [run_for]; [None] when the fuel is used up. *)
Fixpoint run_loop (fuel : nat) (caller deadline work : N) : Call (option N) :=
  match fuel with
  | O => call_ret None
  | S fuel =>
      polled <-- poll_once caller;
      work <-- (if (polled : bool) then call_ret (add64 work 1)
                else (_ <-- call_do (idle deadline); call_ret work));
      running <-- call_get nh_running;
      if (running : bool) then
        fun h =>
          let '(now, h) := read_clock h in
          if now <? deadline then run_loop fuel caller deadline work h else (inr (Some work), h)
      else call_ret (Some work)
  end.

(** [NodeHost::Impl::run_for]. *)
Definition run_for (fuel : nat) (caller : N) (duration : Z) : Call (option N) :=
  _ <-- ensure_owner caller;
  if (duration <? 0)%Z then
    call_throw (host_exn (invalid_argument "NodeHost run duration cannot be negative"))
  else fun h =>
    let '(now, h) := read_clock h in
    run_loop fuel caller (now + Z.to_N duration * ns_per_ms) 0 h.

(** [NodeHost::Impl::stop]. *)
Definition host_stop h : Host :=
  if negb (nh_started h) || negb (nh_running h) then h
  else
    let h := set_nh_running false h in
    storage_stop (set_nh_tcp (tcp_stop (nh_tcp h)) h).

Definition submit_acceptable (cfg : RaftConfig) (c : ClientCommand) : bool :=
  structurally_valid c && (string_size (key c) <=? max_key_bytes cfg) &&
  (string_size (value c) <=? max_value_bytes cfg) &&
  (string_size (key c) <=? max_command_bytes cfg) &&
  (string_size (value c) <=? sub64 (max_command_bytes cfg) (string_size (key c))).

Definition client_room h : bool :=
  (queue_size (nh_client_queue h) <? max_client_queue (hc_limits (nh_config h))) &&
  (N.of_nat (size (nh_outstanding_tokens h)) + queue_size (nh_replies h) <?
   max_client_slots (hc_limits (nh_config h))).

(** [NodeHost::Impl::submit]. *)
Definition submit (caller : N) (cmd : ClientCommand) : Call NodeHostSubmitResult :=
  _ <-- ensure_owner caller;
  fun h =>
    if negb (nh_running h) then (inr (mkNodeHostSubmitResult sub_stopped 0), h)
    else if negb (submit_acceptable (hc_raft (nh_config h)) cmd) then
      (inr (mkNodeHostSubmitResult sub_error 0), h)
    else if negb (client_room h) then
      (inr (mkNodeHostSubmitResult sub_would_block 0), count client_submit_backpressure 1 h)
    else if (nh_next_client_token h =? 0) || (nh_next_client_token h =? u64_max) then
      (inr (mkNodeHostSubmitResult sub_error 0), h)
    else
      let token := nh_next_client_token h in
      let h := set_nh_next_client_token (add64 token 1) h in
      let h := record_queue_depths (set_nh_client_queue (nh_client_queue h ++ [(token, cmd)]) h) in
      let h := set_nh_outstanding_tokens ({[ token ]} ∪ nh_outstanding_tokens h) h in
      (inr (mkNodeHostSubmitResult sub_accepted token), count clients_submitted 1 h).

(** [NodeHost::Impl::poll_replies] and [poll_traces]. *)
Definition poll_replies (caller maximum : N) : Call (list ClientReply) :=
  _ <-- ensure_owner caller;
  fun h =>
    let n := N.to_nat (N.min maximum (queue_size (nh_replies h))) in
    (inr (take n (nh_replies h)), set_nh_replies (drop n (nh_replies h)) h).

Definition poll_traces (caller maximum : N) : Call (list TraceRecord) :=
  _ <-- ensure_owner caller;
  fun h =>
    let n := N.to_nat (N.min maximum (queue_size (nh_traces h))) in
    (inr (take n (nh_traces h)), set_nh_traces (drop n (nh_traces h)) h).

(** [NodeHost::Impl::set_peer_partitioned]: [noexcept]. *)
Definition set_peer_partitioned (caller : N) (peer : NodeId) (partitioned : bool) h : bool * Host :=
  match ensure_owner caller h with
  | (inl _, h) => (false, h)
  | (inr _, h) =>
      let '(r, t) := tcp_set_partitioned peer partitioned (nh_tcp h) in (r, set_nh_tcp t h)
  end.

(** [NodeHost::Impl::listening_port]. *)
Definition host_listening_port (caller : N) : Call N :=
  _ <-- ensure_owner caller;
  fun h => let '(p, t) := tcp_listening_port (nh_tcp h) in (inr p, set_nh_tcp t h).

(** [NodeHost::Impl::status]. *)
Definition visible_status h : NodeHostStatus :=
  let group := gc_enabled (hc_group_commit (nh_config h)) in
  let r := if group && (nh_group_barrier_active h || nh_fatal_error h)
           then nh_published_status h else live_status h in
  mkNodeHostStatus (st_node r) (st_role r) (st_term r) (st_leader_hint r) (st_leader_ready r)
    (st_last_log_index r) (st_durable_last_log_index r) (st_commit_index r) (st_last_applied r)
    (if group && nh_group_barrier_active h then true else st_storage_pending r)
    (queue_size (nh_owner_events h)) (queue_size (nh_client_queue h)).

Definition status (caller : N) : Call NodeHostStatus :=
  _ <-- ensure_owner caller; call_get visible_status.

(** [NodeHost::Impl::value_for_test] and [log_for_test]. *)
Definition host_value_for_test (caller : N) (k : string) : Call (option string) :=
  _ <-- ensure_owner caller; call_get (fun h => value_for_test (state_machine_ (nh_raft h)) k).
Definition log_for_test (caller : N) : Call (list LogEntry) :=
  _ <-- ensure_owner caller; call_get (fun h => log_ (nh_raft h)).

(** ** Construction *)

(** The seed of the timers. *)
Definition initial_random (c : NodeHostConfig) : N :=
  let s := N.lxor (N.lxor (hc_timer_seed c)
                     (wrap64 (N.shiftl (RaftTypes.node_id (hc_raft c)) 32))) 0x9e3779b97f4a7c15 in
  if s =? 0 then 1 else s.

(** The host before the worker and the transport have run. *)
Definition initial_host (c : NodeHostConfig) (n : RaftNode) (wal : WalImpl) (t : T)
    (env : Surroundings) : Host :=
  let w := new_worker wal (max_storage_tasks (hc_limits c)) (max_storage_completions (hc_limits c))
             (wo_flush_policy (hc_wal c)) (hc_group_commit c) (wo_max_frame_bytes (hc_wal c))
             (wo_max_group_bytes (hc_wal c)) in
  let status := mkNodeHostStatus (RaftTypes.node_id (config_ n)) (role_ n)
    (current_term (hard_state_ n)) (leader_hint_ n) (leader_ready_ n) (last_log_index n)
    (durable_last_log_index_ n) (commit_index_ n) (last_applied_ n)
    (negb (is_none (pending_storage_ n))) 0 0 in
  mkHostImpl c n w t [] [] ∅ [] [] [] no_timer no_timer no_metrics status 1 (initial_random c)
    0 0 0 false false false false env.

(** [NodeHost::Impl::Impl], on a file with the outcomes of the calls that open it. *)
Definition NodeHost_new (c : NodeHostConfig) (fails : N -> N -> option string)
    (outs : list IoOutcome) (world : W) (env : Surroundings) (f : NativeFile)
  : (HostExn + Host) * NativeFile :=
  match validate_host_config c with
  | inl e => (inl (host_exn e), f)
  | inr _ =>
      match wal_open (hc_identity c) (runtime_wal_options c) fails outs f with
      | (inl e, f) => (inl (wal_exn e), f)
      | (inr wal, f) =>
          let st := wi_state wal in
          let recovered := mkRecoveredState (ws_hard_state st) (ws_entries st) (ws_commit_index st) in
          match RaftNode_new (hc_raft c) recovered with
          | Throws e => (inl (host_exn e), f)
          | Returns n =>
              match tcp_new (hc_tcp c) world with
              | inl e => (inl (tcp_exn e), f)
              | inr t => (inr (initial_host c n wal t env), f)
              end
          end
      end
  end.

End host.
