(* ===== verification/HostAhead.v ===== *)
(** * HostAhead: a node that runs ahead of its disk

    A host with group commit reports batches as complete to its node before they
    are durable.  [ahead] relates the node as far as its disk has followed to the
    node as the host has it; [advance] lets the cluster of [Deployment] catch up
    when batches become durable. *)

From S2P Require Import Prelude Model StateMachine RaftTypes Raft RaftSpec RaftRefine RaftReplicate RaftElection RaftAppend RaftStep System SystemFrame SystemSteps SystemLog SystemSafety Deployment ClusterSafety RaftTyped RaftOps.
From S2P Require Import Bytes Wal WalFile TcpTypes HostTypes HostWorker NodeHost.
#[local] Open Scope N_scope.

(** ** One call of a node *)

(** A node that takes no further part. *)
Definition dead (s : RaftNode) : Prop := role_ s = unavailable /\ pending_storage_ s = None.

Definition pend (s : RaftNode) : list (StorageOpId * PersistBatch) :=
  match pending_storage_ s with Some q => [(ps_op_id q, ps_batch q)] | None => [] end.

(** What a host may rely on about a node. *)
Record sound (cfg : RaftConfig) (sent : list MessageEnvelope) (s : RaftNode) : Prop := {
  so_inv : node_inv (fun e => e ∈ sent) s;
  so_typed : node_typed cfg s;
}.

(** The counter is past every number given out so far, of which [last] is the
    largest. *)
Record counted (last : StorageOpId) (s : RaftNode) : Prop := {
  co_next : next_storage_op_id_ s = 0 \/ last < next_storage_op_id_ s;
  co_range : next_storage_op_id_ s <= u64_max;
  co_pend : Forall (fun p => p.1 <= last) (pend s);
}.

Lemma effect_dependency_persists last es :
  effect_dependency last es = foldl N.max last (persists es).*1.
Proof.
  revert last. unfold persists. induction es as [|e es IH]; intros last; simpl; [done|].
  destruct e; simpl; apply IH.
Qed.

Lemma fits_wf m : message_fits m -> message_wf m.
Proof. destruct m; simpl; unfold u64; tauto. Qed.

(** A view that waits for a batch stays as it is or dies. *)
Lemma pending_steps soup v out v' :
  vsteps soup v out v' -> v_pending v <> None ->
  (v' = v /\ out = []) \/ (v_role v' = unavailable /\ v_pending v' = None /\ out = []).
Proof.
  intros H Hp. destruct H as [v|v ms1 v1 ms2 v2 Hs Hrest]; [by left|right].
  destruct (vstep_pending _ _ _ _ Hs Hp) as [Hr Hn].
  destruct (dead_steps _ _ _ _ Hrest Hr Hn) as (? & ? & ->). split_and!; [done..|].
  destruct Hs; simpl in *; try done; try congruence.
Qed.

Section calls.
Context (cfg : RaftConfig) (Hids : Forall u32 (members cfg)).

(** The batches of a call: none, or the one it then waits for, with a new number. *)
Lemma step_batches sent ev s s' es :
  sound cfg sent s -> event_ok (fun e => e ∈ sent) ev -> event_fits ev ->
  step ev s = Returns (tt, s', es) ->
  sound cfg sent s' /\ Forall effect_fits es /\ Forall (sent_by (RaftTypes.node_id cfg)) es /\
  ((persists es = [] /\ next_storage_op_id_ s' = next_storage_op_id_ s /\
    keeps (pending_storage_ s) (pending_storage_ s')) \/
   (exists q, pending_storage_ s' = Some q /\ persists es = [(ps_op_id q, ps_batch q)] /\
     ps_op_id q = next_storage_op_id_ s /\ ps_op_id q <> 0 /\
     next_storage_op_id_ s' = add64 (ps_op_id q) 1)).
Proof using Hids.
  intros [Hi Ht] Hok Hfit Hst.
  pose proof (wps_result _ _ _ _ _ (step_refines _ _ Hi Hok) Hst) as (Hi' & _ & _).
  destruct (step_outcome cfg Hids _ _ _ _ _ Hi Ht Hfit Hst) as (Ht' & Hf & Hl).
  destruct (tidy_step ev s _ _ _ Hst) as (Hn & _ & Hs). rewrite (ty_config _ _ Ht) in Hs.
  split_and!; [by constructor|done..|]. destruct Hl as [[Hp Hk]|(q & Hq & Hp)]; rewrite Hp in Hn; simpl in Hn.
  - left. by split_and!.
  - right. exists q. destruct Hn as (Ho & Hz & Hn'). rewrite <- Ho in Hz, Hn'. by split_and!.
Qed.

(** While a batch is pending, other events are put aside. *)
Lemma pending_kept sent ev s s' es q :
  sound cfg sent s -> event_fits ev -> pending_storage_ s = Some q -> is_storage_complete ev = false ->
  step ev s = Returns (tt, s', es) ->
  sends es = [] /\ persists es = [] /\ pending_storage_ s' = Some q.
Proof using.
  intros [Hi Ht] Hfit Hq Hsc Hst. unfold step in Hst. cbv [mbind M_bind this] in Hst.
  rewrite Hq, Hsc in Hst. simpl in Hst.
  assert (Hd : defer ev s = Returns (tt, s', es)).
  { destruct (defer ev s) as [[[[] s1] es1]|]; [|done]. simpl in Hst. congruence. }
  split_and!; [|exact (defer_persists _ _ _ _ Hd)|by rewrite (defer_pending _ _ _ _ Hd)].
  assert (Hw : wps (defer ev) (fun _ _ ms => ms = []) s).
  { unfold defer. wexec. destruct ev; simpl; repeat case_match; wexec; done. }
  exact (wps_result _ _ _ _ _ Hw Hd).
Qed.

(** A failed completion of the pending batch kills the node silently. *)
Lemma failing_step sent s s' es q err :
  sound cfg sent s -> pending_storage_ s = Some q ->
  step (StorageComplete (ps_op_id q) false err) s = Returns (tt, s', es) ->
  sound cfg sent s' /\ dead s' /\ sends es = [] /\ persists es = [].
Proof using Hids.
  intros [Hi Ht] Hq Hst.
  pose proof (wps_result _ _ _ _ _ (step_refines (StorageComplete (ps_op_id q) false err) _ Hi I) Hst) as (Hi' & _ & Hv).
  assert (Hfit : event_fits (StorageComplete (ps_op_id q) false err)) by done.
  destruct (step_outcome cfg Hids _ _ _ _ _ Hi Ht Hfit Hst) as (Ht' & _).
  destruct (failed_completion_dead _ _ _ _ _ _ Hi Hq Hst) as [Hr Hn].
  split_and!; [by constructor|by split| |].
  - unfold vcall, completed in Hv. rewrite Hq in Hv. simpl in Hv.
    destruct (pending_steps _ _ _ _ Hv) as [[? ?]|(? & ? & ?)]; [simpl; by rewrite Hq|done..].
  - exact (failed_completion_quiet cfg Hids _ _ _ _ _ _ Hi Ht Hst).
Qed.

(** A dead node stays dead and shows nothing. *)
Lemma dead_step sent ev s s' es :
  sound cfg sent s -> dead s -> event_ok (fun e => e ∈ sent) ev -> event_fits ev ->
  step ev s = Returns (tt, s', es) ->
  sound cfg sent s' /\ dead s' /\ sends es = [] /\ persists es = [].
Proof using Hids.
  intros Hs [Hr Hn] Hok Hfit Hst.
  destruct (step_batches _ _ _ _ _ Hs Hok Hfit Hst) as (Hs' & _ & _ & Hb). destruct Hs as [Hi Ht].
  pose proof (wps_result _ _ _ _ _ (step_refines _ _ Hi Hok) Hst) as (_ & _ & Hv).
  unfold vcall in Hv. assert (completed ev s = false) as Hc.
  { unfold completed. rewrite Hn. by destruct ev. }
  rewrite Hc in Hv. destruct (dead_steps _ _ _ _ Hv) as (Hr' & Hn' & Hout); [done|simpl; by rewrite Hn|].
  assert (pending_storage_ s' = None) as Hn''.
  { simpl in Hn'. by destruct (pending_storage_ s'). }
  split_and!; [done|by split|done|]. destruct Hb as [(? & _)|(q & Hq & _)]; [done|congruence].
Qed.

(** The completion of the pending batch, and an event to an idle node: what the
    node then waits for is what it has emitted. *)
Lemma step_pend sent ev s s' es :
  sound cfg sent s -> event_ok (fun e => e ∈ sent) ev -> event_fits ev ->
  completed ev s = true \/ pending_storage_ s = None -> step ev s = Returns (tt, s', es) ->
  pend s' = persists es.
Proof using Hids.
  intros Hs Hok Hfit Hc Hst. unfold pend.
  assert (Hl : leaves None (persists es) (pending_storage_ s')).
  { destruct Hs as [Hi Ht]. destruct Hc as [Hc|Hn].
    - destruct (completed_true _ _ Hc) as (q & err & Hq & ->). by eapply (completion_leaves cfg Hids).
    - rewrite <- Hn. by eapply (step_outcome cfg Hids). }
  destruct Hl as [[-> [-> | ->]]|(q & -> & ->)]; done.
Qed.

(** Calls keep the counter ahead. *)
Lemma step_counted sent ev s s' es last :
  sound cfg sent s -> event_ok (fun e => e ∈ sent) ev -> event_fits ev ->
  step ev s = Returns (tt, s', es) -> counted last s -> counted (effect_dependency last es) s'.
Proof using Hids.
  intros Hs Hok Hfit Hst [Hn Hr Hp]. rewrite effect_dependency_persists.
  destruct (step_batches _ _ _ _ _ Hs Hok Hfit Hst)
    as (_ & _ & _ & [(-> & Hn' & Hk)|(q & Hq & -> & Hop & Hz & Hn')]); simpl.
  - constructor; [by rewrite Hn'|by rewrite Hn'|]. unfold pend in *. destruct Hk as [->| ->]; [constructor|done].
  - constructor; [|rewrite Hn'; apply add64_range|].
    + rewrite Hn'. destruct (N.eq_dec (ps_op_id q) u64_max) as [->|Hne]; [by left|right].
      destruct Hn as [Hn|Hn]; [congruence|]. rewrite add64_small by lia. lia.
    + unfold pend. rewrite Hq. repeat constructor. simpl. lia.
Qed.

End calls.

(** ** Running ahead *)

(** The messages of a call, with the operation they depend on. *)
Definition tagged (dep : StorageOpId) (es : list RaftEffect) : list (StorageOpId * MessageEnvelope) :=
  (fun e => (dep, e)) <$> sends es.

(** [ahead sent last n ops out c last']: from [n], whose largest operation is
    [last], events and completions of the batches [ops] lead to [c], whose largest
    operation is [last'], and send [out]. *)
Inductive ahead (sent : list MessageEnvelope) : StorageOpId -> RaftNode ->
    list (StorageOpId * PersistBatch) -> list (StorageOpId * MessageEnvelope) ->
    RaftNode -> StorageOpId -> Prop :=
  | ahead_nil last n : ahead sent last n [] [] n last
  | ahead_done last n q n1 es ops out c last' :
      pending_storage_ n = Some q -> ps_op_id q <= last ->
      step (StorageComplete (ps_op_id q) true EmptyString) n = Returns (tt, n1, es) ->
      ahead sent (effect_dependency last es) n1 ops out c last' ->
      ahead sent last n ((ps_op_id q, ps_batch q) :: ops)
        (tagged (effect_dependency last es) es ++ out) c last'
  | ahead_event last n ev n1 es ops out c last' :
      event_allowed sent ev n = true -> event_fits ev ->
      step ev n = Returns (tt, n1, es) ->
      ahead sent (effect_dependency last es) n1 ops out c last' ->
      ahead sent last n ops (tagged (effect_dependency last es) es ++ out) c last'.

Section ahead_rules.

Lemma ahead_trans sent last n ops out c last' ops' out' c' last'' :
  ahead sent last n ops out c last' -> ahead sent last' c ops' out' c' last'' ->
  ahead sent last n (ops ++ ops') (out ++ out') c' last''.
Proof.
  induction 1 as [|last n q n1 es ops out c last' Hq Hle Hst _ IH|last n ev n1 es ops out c last' He Hf Hst _ IH];
    intros H'; [done|..]; rewrite <- app_assoc.
  - simpl. eapply ahead_done; eauto.
  - eapply ahead_event; eauto.
Qed.

Lemma event_allowed_mono sent sent' ev n :
  (forall e, e ∈ sent -> e ∈ sent') -> event_allowed sent ev n = true -> event_allowed sent' ev n = true.
Proof.
  intros H. destruct ev; simpl; try done. rewrite !andb_true_iff, !bool_decide_eq_true. intros [? ?]. auto.
Qed.

Lemma ahead_mono sent sent' last n ops out c last' :
  (forall e, e ∈ sent -> e ∈ sent') -> ahead sent last n ops out c last' -> ahead sent' last n ops out c last'.
Proof.
  intros Hsub. induction 1 as [|last n q n1 es ops out c last' Hq Hle Hst _ IH|last n ev n1 es ops out c last' He Hf Hst _ IH].
  - constructor.
  - eapply ahead_done; eauto.
  - eapply ahead_event; eauto. by eapply event_allowed_mono.
Qed.

Lemma sound_mono cfg sent sent' s :
  (forall e, e ∈ sent -> e ∈ sent') -> sound cfg sent s -> sound cfg sent' s.
Proof. intros H []. constructor; [|done]. by apply (node_inv_mono (fun e => e ∈ sent)). Qed.

Lemma foldl_max_ge last l : last <= foldl N.max last l.
Proof. revert last. induction l as [|o l IH]; intros last; simpl; [lia|]. specialize (IH (N.max last o)). lia. Qed.

Lemma dependency_ge last es : last <= effect_dependency last es.
Proof. rewrite effect_dependency_persists. apply foldl_max_ge. Qed.

(** What is sent ahead depends on an operation at least as large as the first. *)
Lemma ahead_tags sent last n ops out c last' :
  ahead sent last n ops out c last' -> Forall (fun p => last <= p.1) out /\ last <= last'.
Proof.
  induction 1 as [|last n q n1 es ops out c last' Hq Hle Hst _ [IH1 IH2]|last n ev n1 es ops out c last' He Hf Hst _ [IH1 IH2]];
    [by split; [constructor|lia]|..]; pose proof (dependency_ge last es).
  all: split; [|lia]; apply Forall_app; split;
    [apply Forall_fmap, Forall_true; intros e; simpl; lia|].
  all: eapply Forall_impl; [exact IH1|]; simpl; intros; lia.
Qed.

End ahead_rules.

(** ** Catching up *)

Section advance.
Context (cfg : NodeId -> RaftConfig) (ms : list NodeId).

Lemma acts_app net l l' :
  acts cfg net (l ++ l') = (net' ← acts cfg net l; acts cfg net' l').
Proof.
  revert net. induction l as [|a l IH]; intros net; simpl; [done|].
  destruct (act cfg net a) as [net1|]; simpl; [apply IH|done].
Qed.

Lemma cluster_act net a net' : cluster cfg ms net -> act cfg net a = Some net' -> cluster cfg ms net'.
Proof.
  intros (hs & l & Hb & Hl) Ha. exists hs, (l ++ [a]). split; [done|].
  rewrite acts_app, Hl. simpl. by rewrite Ha.
Qed.

(** [net'] differs from [net] in the host of [x], and has more messages. *)
Record moved (x : NodeId) (net net' : Net) : Prop := {
  mv_others : forall y, y <> x -> n_host net' !! y = n_host net !! y;
  mv_sent : exists out, n_sent net' = n_sent net ++ out;
}.

Lemma moved_refl x net : moved x net net.
Proof. constructor; [done|]. exists []. by rewrite app_nil_r. Qed.

Lemma moved_trans x net1 net2 net3 : moved x net1 net2 -> moved x net2 net3 -> moved x net1 net3.
Proof.
  intros [H1 [o1 E1]] [H2 [o2 E2]]. constructor.
  - intros y Hy. rewrite H2, H1; done.
  - exists (o1 ++ o2). by rewrite E2, E1, app_assoc.
Qed.

Lemma moved_sent x net net' e : moved x net net' -> e ∈ n_sent net -> e ∈ n_sent net'.
Proof. intros [_ [o ->]] He. apply elem_of_app. by left. Qed.

Lemma moved_insert x net h out :
  moved x net (mkNet (<[x := h]> (n_host net)) (n_sent net ++ out)).
Proof.
  constructor; simpl; [|by exists out]. intros y Hy. by rewrite lookup_insert_ne.
Qed.

(** The steps of one host, as steps of the cluster. *)
Lemma do_event net x n D w ev n' es :
  cluster cfg ms net -> n_host net !! x = Some (mkHost n D w) ->
  event_allowed (n_sent net) ev n = true -> step ev n = Returns (tt, n', es) ->
  exists net', cluster cfg ms net' /\ moved x net net' /\
    n_host net' !! x = Some (mkHost n' D (w && negb (is_none (pending_storage_ n')))) /\
    (forall e, e ∈ sends es -> e ∈ n_sent net').
Proof.
  intros Hc Hx He Hst. eexists. split_and!; [eapply (cluster_act net (act_event x ev)); [done|]| | |].
  - simpl. rewrite Hx. simpl. rewrite He. unfold run_host. simpl. rewrite Hst. done.
  - apply moved_insert.
  - simpl. by rewrite lookup_insert_eq.
  - intros e Hin. simpl. apply elem_of_app. by right.
Qed.

Lemma do_write net x n D q :
  cluster cfg ms net -> n_host net !! x = Some (mkHost n D false) -> pending_storage_ n = Some q ->
  exists net', cluster cfg ms net' /\ moved x net net' /\
    n_host net' !! x = Some (mkHost n (apply_batch D (ps_batch q)) true).
Proof.
  intros Hc Hx Hq. eexists. split_and!; [eapply (cluster_act net (act_disk_write x)); [done|]| |].
  - simpl. rewrite Hx. simpl. rewrite Hq. done.
  - constructor; simpl; [|exists []; by rewrite app_nil_r]. intros y Hy. by rewrite lookup_insert_ne.
  - simpl. by rewrite lookup_insert_eq.
Qed.

Lemma do_done net x n D q n' es :
  cluster cfg ms net -> n_host net !! x = Some (mkHost n D true) -> pending_storage_ n = Some q ->
  step (StorageComplete (ps_op_id q) true EmptyString) n = Returns (tt, n', es) ->
  exists net', cluster cfg ms net' /\ moved x net net' /\
    n_host net' !! x = Some (mkHost n' D false) /\ (forall e, e ∈ sends es -> e ∈ n_sent net').
Proof.
  intros Hc Hx Hq Hst. eexists. split_and!; [eapply (cluster_act net (act_disk_done x)); [done|]| | |].
  - simpl. rewrite Hx. simpl. rewrite Hq. unfold run_host. simpl. rewrite Hst. done.
  - apply moved_insert.
  - simpl. by rewrite lookup_insert_eq.
  - intros e Hin. simpl. apply elem_of_app. by right.
Qed.

Lemma do_start net x n D w n' es :
  cluster cfg ms net -> n_host net !! x = Some (mkHost n D w) -> start n = Returns (tt, n', es) ->
  exists net', cluster cfg ms net' /\ moved x net net' /\ n_host net' !! x = Some (mkHost n' D w) /\
    (forall e, e ∈ sends es -> e ∈ n_sent net').
Proof.
  intros Hc Hx Hst. eexists. split_and!; [eapply (cluster_act net (act_start x)); [done|]| | |].
  - simpl. rewrite Hx. simpl. unfold run_host. simpl. rewrite Hst. done.
  - apply moved_insert.
  - simpl. by rewrite lookup_insert_eq.
  - intros e Hin. simpl. apply elem_of_app. by right.
Qed.

Lemma do_crash net x n D w n' :
  cluster cfg ms net -> n_host net !! x = Some (mkHost n D w) -> RaftNode_new (cfg x) D = Returns n' ->
  exists net', cluster cfg ms net' /\ moved x net net' /\ n_host net' !! x = Some (mkHost n' D false).
Proof.
  intros Hc Hx Hst. eexists. split_and!; [eapply (cluster_act net (act_crash x)); [done|]| |].
  - simpl. rewrite Hx. simpl. rewrite Hst. done.
  - constructor; simpl; [|exists []; by rewrite app_nil_r]. intros y Hy. by rewrite lookup_insert_ne.
  - simpl. by rewrite lookup_insert_eq.
Qed.

(** A node that is ahead: the first batches [ops1] become durable, and the cluster
    follows until it waits for the next one. *)
Lemma advance x sent last n ops1 ops2 out c last' net D :
  ahead sent last n (ops1 ++ ops2) out c last' -> (forall e, e ∈ sent -> e ∈ n_sent net) ->
  cluster cfg ms net -> n_host net !! x = Some (mkHost n D false) ->
  exists net' n' out' lastn,
    cluster cfg ms net' /\ moved x net net' /\
    n_host net' !! x = Some (mkHost n' (foldl apply_batch D ops1.*2) false) /\
    ahead (n_sent net') lastn n' ops2 out' c last' /\
    (forall d e, (d, e) ∈ out -> e ∈ n_sent net' \/ (d, e) ∈ out') /\
    match ops2 with
    | [] => n' = c /\ out' = [] /\ lastn = last'
    | p :: _ => p.1 <= lastn
    end.
Proof.
  remember (ops1 ++ ops2) as ops eqn:Hops. intros Ha. revert ops1 Hops net D.
  induction Ha as [last n|last n q n1 es ops out c last' Hq Hle Hst Ha IH|last n ev n1 es ops out c last' He Hf Hst Ha IH];
    intros ops1 Hops net D Hsub Hc Hx.
  - symmetry in Hops. apply app_nil in Hops as [-> ->].
    exists net, n, [], last. split_and!; [done|apply moved_refl|done|apply ahead_nil|by intros d e ?%not_elem_of_nil|done..].
  - destruct ops1 as [|p ops1]; simpl in Hops.
    + exists net, n, (tagged (effect_dependency last es) es ++ out), last. rewrite <- Hops.
      split_and!; [done|apply moved_refl|done| |by right|done].
      eapply ahead_mono; [done|]. by eapply ahead_done.
    + injection Hops as <- ->.
      destruct (do_write net x n D q Hc Hx Hq) as (net1 & Hc1 & Hm1 & Hx1).
      destruct (do_done net1 x n _ q n1 es Hc1 Hx1 Hq Hst) as (net2 & Hc2 & Hm2 & Hx2 & Hs2).
      destruct (IH ops1 eq_refl net2 (apply_batch D (ps_batch q)))
        as (net3 & n' & out' & lastn & ? & Hm3 & Hx3 & ? & Ho & ?);
        [intros e He; eapply moved_sent, moved_sent; eauto|done|done|].
      exists net3, n', out', lastn. split_and!; [done| |done|done| |done].
      * eapply moved_trans; [by eapply moved_trans|done].
      * intros d e [Hin|Hin]%elem_of_app; [|by apply Ho].
        left. apply list_elem_of_fmap in Hin as (e' & [= -> ->] & Hin). eapply moved_sent; [done|auto].
  - destruct (do_event net x n D false ev n1 es Hc Hx ltac:(by eapply event_allowed_mono) Hst)
      as (net2 & Hc2 & Hm2 & Hx2 & Hs2).
    destruct (IH ops1 Hops net2 D) as (net3 & n' & out' & lastn & ? & Hm3 & Hx3 & ? & Ho & ?);
      [intros e ?; eapply moved_sent; eauto|done|done|].
    exists net3, n', out', lastn. split_and!; [done| |done|done| |done].
    + by eapply moved_trans.
    + intros d e [Hin|Hin]%elem_of_app; [|by apply Ho].
      left. apply list_elem_of_fmap in Hin as (e' & [= -> ->] & Hin). eapply moved_sent; [done|auto].
Qed.

End advance.
