(* ===== verification/HostTrack.v ===== *)
(** * HostTrack: the storage worker follows the node

    The invariant that ties the worker of a host, its log and the batches its node
    has handed over to a host of [Deployment], and that every step of the worker's
    thread keeps it. *)

From S2P Require Import Prelude Model StateMachine RaftTypes Raft RaftSpec RaftRefine RaftReplicate RaftElection RaftAppend RaftStep System SystemFrame SystemSteps SystemLog SystemSafety Deployment ClusterSafety RaftTyped RaftOps.
From S2P Require Import Bytes Wal WalFormat WalFrames WalRecovery WalScan WalFile WalDurability TcpTypes HostTypes HostWorker NodeHost HostAhead.
#[local] Open Scope N_scope.

(** ** Claims

    A claim is a batch on its way to be reported complete (or, with [false], as
    failed): a task, a group about to be flushed, a notice or a queued event. *)

Definition pair_of (t : StorageTask) : StorageOpId * PersistBatch := (tk_operation t, tk_batch t).

(** The tasks not yet appended to the log. *)
Definition todo (w : StorageWorker) : list (StorageOpId * PersistBatch) :=
  match sw_pc w with pc_task t => [pair_of t] | _ => [] end ++ (pair_of <$> sw_tasks w).

Definition completion_claim (c : Completion) : StorageOpId * bool := (cp_op_id c, cp_success c).

Definition notice_claims (n : StorageNotice) : list (StorageOpId * bool) :=
  match sn_kind n with
  | nk_staged | nk_complete => [completion_claim (sn_completion n)]
  | nk_barrier =>
      match sn_delayed_completion n with Some c => [completion_claim c] | None => [] end
  | nk_failed => []
  end.

Definition pc_claims (pc : WorkerPc) : list (StorageOpId * bool) :=
  match pc with
  | pc_task t | pc_flush t => [(tk_operation t, true)]
  | pc_failed n | pc_publish n _ => notice_claims n
  | _ => []
  end.

Definition event_claim (ev : RaftEvent) : option (StorageOpId * bool) :=
  match ev with StorageComplete op ok _ => Some (op, ok) | _ => None end.

(** [owed] are batches the node has emitted and the owner has not yet enqueued. *)
Definition claims (w : StorageWorker) (evs : list RaftEvent)
    (owed : list (StorageOpId * PersistBatch)) : list (StorageOpId * bool) :=
  pc_claims (sw_pc w) ++ ((fun t => (tk_operation t, true)) <$> sw_tasks w) ++
  (sw_completions w ≫= notice_claims) ++ omap event_claim evs ++ ((fun p => (p.1, true)) <$> owed).

(** The notices published or about to be. *)
Definition notices (w : StorageWorker) : list StorageNotice :=
  match sw_pc w with pc_publish n _ => [n] | pc_failed n => [n] | _ => [] end ++ sw_completions w.

(** At most one claim, on the batch the node waits for. *)
Definition claimed (m : RaftNode) (l : list (StorageOpId * bool)) : Prop :=
  l = [] \/ exists q ok, pending_storage_ m = Some q /\ l = [(ps_op_id q, ok)].

(** The node does not wait in vain. *)
Definition hopeful (m : RaftNode) (l : list (StorageOpId * bool)) : Prop :=
  pending_storage_ m = None \/ exists op, l = [(op, true)].

(** ** The invariant *)

(** The host of [Deployment], and where the worker is:
    - [g_node], [g_disk], [g_written]: the host's node, disk and flag, and [g_last]
      its largest operation;
    - [g_ops], [g_out], [g_top]: the batches completed ahead of it, the messages
      sent ahead of it, the largest operation so far;
    - [g_durable], [g_staged], [g_extra]: the batches in the log that are durable,
      those appended since, and those of a failed append;
    - [g_flushed]: the largest durable operation of a flushed group. *)
Record Ghost := mkGhost {
  g_node : RaftNode;
  g_disk : RecoveredState;
  g_written : bool;
  g_last : StorageOpId;
  g_ops : list (StorageOpId * PersistBatch);
  g_out : list (StorageOpId * MessageEnvelope);
  g_top : StorageOpId;
  g_durable : list PersistBatch;
  g_staged : list (StorageOpId * PersistBatch);
  g_extra : list PersistBatch;
  g_flushed : StorageOpId;
}.

(** The batches the node has handed over and the disk does not have. *)
Definition unwritten (g : Ghost) (m : RaftNode) : list (StorageOpId * PersistBatch) :=
  g_ops g ++ (if g_written g then [] else pend m).

Definition notice_ok (group : bool) (g : Ghost) (n : StorageNotice) : Prop :=
  match sn_kind n with
  | nk_staged => group = true /\ exists op, sn_completion n = success op
  | nk_barrier =>
      group = true /\ sn_durable_through n <= g_flushed g /\
      match sn_delayed_completion n with
      | Some c => g_written g = true /\ exists op, c = success op
      | None => True
      end
  | nk_complete =>
      group = false /\
      (cp_success (sn_completion n) = true ->
       g_written g = true /\ exists op, sn_completion n = success op)
  | nk_failed => group = true
  end.

(** The completions among the queued events. *)
Definition report_ok (group written : bool) (ev : RaftEvent) : Prop :=
  match ev with
  | StorageComplete op true err => (group = false -> written = true) /\ err = EmptyString
  | StorageComplete _ false _ => group = false
  | _ => True
  end.

Section track.
Context (net : Net) (x : NodeId) (rcfg : RaftConfig) (made : WalIdentity * WalOptions).

(** The log against the host of [Deployment], for the node [m] the host has, or had
    before its log failed. *)
Record track (wal : WalImpl) (m : RaftNode) (g : Ghost) : Prop := {
  tr_host : n_host net !! x = Some (mkHost (g_node g) (g_disk g) (g_written g));
  tr_wal : impl_inv wal (g_durable g) (g_staged g).*2 (g_extra g);
  tr_disk : g_disk g = replayed (g_durable g);
  tr_ahead : ahead (n_sent net) (g_last g) (g_node g) (g_ops g) (g_out g) m (g_top g);
  tr_sound : sound rcfg (n_sent net) m;
  tr_counted : counted (g_top g) m;
  tr_written : g_written g = true -> g_ops g = [] /\ pend m <> [];
  tr_order : StronglySorted N.lt (g_flushed g :: (unwritten g m).*1);
  tr_below : Forall (fun p => p.1 <= g_top g) (unwritten g m) /\ g_flushed g <= g_top g;
  tr_tags : Forall (fun p => g_flushed g < p.1) (g_out g);
  tr_eager : match g_ops g with
             | [] => g_node g = m /\ g_out g = [] /\ g_last g = g_top g
             | p :: _ => True
             end;
  tr_prefix : g_staged g `prefix_of` unwritten g m;
  tr_made : (wi_identity wal, wi_options wal) = made;
  tr_extra : (g_staged g).*2 ++ g_extra g `prefix_of` (unwritten g m).*2;
}.

End track.

(** The worker against the node; [evs] are the events the owner has queued. *)
Record works (group : bool) (w : StorageWorker) (m : RaftNode) (evs : list RaftEvent)
    (owed : list (StorageOpId * PersistBatch)) (g : Ghost) : Prop := {
  wk_mode : gc_enabled (sw_group_commit w) = group;
  wk_policy : sw_flush_policy w = flush_every_append;
  wk_options : should_flush (wi_options (sw_wal w)) = negb group;
  wk_pc : match sw_pc w with
          | pc_flush t => group = true /\ g_written g = false
          | pc_timeout => group = true
          | _ => True
          end;
  wk_claims : claimed m (claims w evs owed);
  wk_todo : Forall (fun p => batch_fits p.2) (todo w ++ owed);
  wk_eq : hopeful m (claims w evs owed) -> g_staged g ++ todo w ++ owed = unwritten g m;
  wk_notices : Forall (notice_ok group g) (notices w);
  wk_plain : group = false -> g_ops g = [] /\ g_staged g = [];
  wk_last : group = true ->
    sw_group_last w <= g_flushed g \/
    sw_group_last w ∈ (g_staged g).*1;
  wk_events : Forall (report_ok group (g_written g)) evs;
}.

Section claims.
Implicit Types (m : RaftNode) (l : list (StorageOpId * bool)).

(** Fewer claims: the invariant stays, and hope only where nothing was lost. *)
Lemma claimed_sub m l l' :
  claimed m l -> l' ⊆+ l -> claimed m l' /\ (hopeful m l' -> l' = l).
Proof.
  intros [->|(q & ok & Hq & ->)] Hsub.
  - apply submseteq_nil_r in Hsub as ->. split; [by left|done].
  - destruct l' as [|c l'].
    + split; [by left|]. intros [?|[op ?]]; congruence.
    + pose proof (submseteq_length _ _ Hsub) as Hl. destruct l'; simpl in Hl; [|lia].
      apply submseteq_cons_l in Hsub as (k & Hp & _). apply Permutation_singleton_l in Hp.
      injection Hp as <- <-. split; [right; eauto|done].
Qed.

Lemma hopeful_claim m l op : l = [(op, true)] -> hopeful m l.
Proof. intros ->. right. eauto. Qed.

End claims.

Lemma sublist_omap {A B} (f : A -> option B) l l' :
  l `sublist_of` l' -> omap f l `sublist_of` omap f l'.
Proof.
  induction 1 as [|a l1 l2 _ IH|a l1 l2 _ IH]; simpl; [constructor|..]; destruct (f a); by try constructor.
Qed.

(** ** Steps that do not touch the log *)

Section works_rules.
Context (group : bool) (m : RaftNode) (evs : list RaftEvent).
Context (owed : list (StorageOpId * PersistBatch)) (g : Ghost).
Implicit Types w : StorageWorker.

Lemma works_sub w w' :
  works group w m evs owed g ->
  sw_wal w' = sw_wal w -> sw_group_commit w' = sw_group_commit w ->
  sw_flush_policy w' = sw_flush_policy w ->
  claims w' evs owed ⊆+ claims w evs owed ->
  (claims w' evs owed = claims w evs owed -> todo w' = todo w) ->
  Forall (fun p => batch_fits p.2) (todo w') -> Forall (notice_ok group g) (notices w') ->
  match sw_pc w' with
  | pc_flush t => group = true /\ g_written g = false
  | pc_timeout => group = true
  | _ => True
  end ->
  sw_group_last w' = sw_group_last w \/ sw_group_last w' = 0 ->
  works group w' m evs owed g.
Proof.
  intros [] Hw Hgc Hfp Hsub Htodo Hfit Hn Hpc Hlast.
  destruct (claimed_sub _ _ _ wk_claims0 Hsub) as [Hcl Hhope].
  constructor; rewrite ?Hw, ?Hgc, ?Hfp; try done.
  - apply Forall_app in wk_todo0 as [_ ?]. by apply Forall_app.
  - intros Hh. pose proof (Hhope Hh) as Heq. rewrite (Htodo Heq). apply wk_eq0. by rewrite <- Heq.
  - intros Hg. destruct Hlast as [->| ->]; [auto|left; lia].
Qed.

Lemma wait_task_works now w :
  sw_pc w = pc_wait -> works group w m evs owed g -> works group (wait_task now w) m evs owed g.
Proof.
  intros Hpc H. pose proof H as []. apply Forall_app in wk_todo0 as [wk_todo0 _]. unfold wait_task. unfold todo, notices in *. rewrite Hpc in *.
  destruct (sw_stopping w); [|destruct (sw_tasks w) as [|t ts] eqn:Ht; [case_match eqn:Hb|]].
  - apply (works_sub w); unfold todo, notices; simpl; rewrite ?Hpc; try done; [|by left].
    unfold claims. simpl. rewrite Hpc. done.
  - apply andb_true_iff in Hb as [[Hb _]%andb_true_iff _].
    apply (works_sub w); unfold todo, notices; simpl; rewrite ?Hpc, ?Ht; try done; [|congruence|by left].
    unfold claims. simpl. rewrite Hpc, Ht. done.
  - done.
  - apply (works_sub w); unfold todo, notices; simpl; rewrite ?Hpc, ?Ht; try done; [|by left].
    unfold claims. simpl. rewrite Hpc, Ht. done.
Qed.

Lemma publish_works n next w :
  sw_pc w = pc_publish n next -> works group w m evs owed g -> works group (publish n next w) m evs owed g.
Proof.
  intros Hpc H. pose proof H as []. apply Forall_app in wk_todo0 as [wk_todo0 _]. unfold publish. unfold todo, notices in *. rewrite Hpc in *.
  destruct (sw_stopping w); [|case_match; [|done]].
  - apply (works_sub w); unfold todo, notices; simpl; rewrite ?Hpc; try done; [|by inversion wk_notices0|by left].
    unfold claims. simpl. rewrite Hpc. simpl. by apply submseteq_inserts_l.
  - assert (Hperm : ((fun t => (tk_operation t, true)) <$> sw_tasks w) ++
        ((sw_completions w ++ [n]) ≫= notice_claims) ++ omap event_claim evs ++
        ((fun p => (p.1, true)) <$> owed) ⊆+ claims w evs owed).
    { unfold claims. rewrite Hpc. simpl. rewrite bind_app. simpl. rewrite app_nil_r, <- !app_assoc.
      apply Permutation_submseteq. solve_Permutation. }
    apply Forall_cons in wk_notices0 as [Hn Hns].
    destruct next; (apply (works_sub w); unfold todo, notices; simpl; rewrite ?Hpc; try done;
      [apply Forall_app; by repeat constructor|auto]).
Qed.

Lemma mark_failed_works n w :
  sw_pc w = pc_failed n -> works group w m evs owed g ->
  works group (set_sw_pc (pc_publish n then_return) (mark_failed w)) m evs owed g.
Proof.
  intros Hpc H. pose proof H as []. apply Forall_app in wk_todo0 as [wk_todo0 _]. unfold todo, notices in *. rewrite Hpc in *.
  apply (works_sub w); unfold todo, notices; simpl; rewrite ?Hpc; try done; [| |by left].
  - unfold claims. simpl. rewrite Hpc. simpl. apply submseteq_app; [done|]. by apply submseteq_inserts_l.
  - unfold claims. simpl. rewrite Hpc. simpl. intros Heq. apply app_inv_head in Heq.
    destruct (sw_tasks w) as [|t ts]; [done|]. apply (f_equal length) in Heq.
    rewrite !length_app, !length_fmap in Heq. cbn [length] in Heq. lia.
Qed.

(** [stop] drops the tasks. *)
Lemma drop_tasks_works w :
  works group w m evs owed g -> works group (set_sw_tasks [] (set_sw_stopping true w)) m evs owed g.
Proof.
  intros H. pose proof H as []. apply Forall_app in wk_todo0 as [wk_todo0 _].
  apply (works_sub w); try done; [| | |by left].
  - unfold claims. simpl. apply submseteq_app; [done|]. by apply submseteq_inserts_l.
  - unfold claims, todo. simpl. intros Heq. apply app_inv_head in Heq.
    destruct (sw_tasks w) as [|t ts]; [done|]. apply (f_equal length) in Heq.
    rewrite !length_app, !length_fmap in Heq. cbn [length] in Heq. lia.
  - unfold todo in *. simpl. rewrite app_nil_r. by apply Forall_app in wk_todo0 as [? _].
Qed.

(** The owner drops events. *)
Lemma drop_events_works w evs' :
  evs' `sublist_of` evs -> works group w m evs owed g -> works group w m evs' owed g.
Proof.
  intros Hsub [].
  assert (Hs : claims w evs' owed ⊆+ claims w evs owed).
  { unfold claims. do 3 (apply submseteq_app; [done|]). apply submseteq_app; [|done].
    by apply sublist_submseteq, sublist_omap. }
  destruct (claimed_sub _ _ _ wk_claims0 Hs) as [Hcl Hhope].
  constructor; try done.
  - intros Hh. apply wk_eq0. by rewrite <- (Hhope Hh).
  - rewrite Forall_forall in *. intros ev Hev. apply wk_events0. by eapply elem_of_sublist.
Qed.

End works_rules.

(** ** Steps that append *)

Definition put_log (staged : list (StorageOpId * PersistBatch)) (extra : list PersistBatch) (g : Ghost)
  : Ghost :=
  mkGhost (g_node g) (g_disk g) (g_written g) (g_last g) (g_ops g) (g_out g) (g_top g)
    (g_durable g) staged extra (g_flushed g).

Lemma notice_ok_log group staged extra g n :
  notice_ok group (put_log staged extra g) n <-> notice_ok group g n.
Proof. done. Qed.

Lemma append_made wal b outs r wal' :
  wal_append wal b outs = (r, wal') -> (wi_identity wal', wi_options wal') = (wi_identity wal, wi_options wal).
Proof. unfold wal_append, append_group. intros H. repeat case_match; by simplify_eq. Qed.

Lemma flush_made wal out r wal' :
  wal_flush wal out = (r, wal') -> (wi_identity wal', wi_options wal') = (wi_identity wal, wi_options wal).
Proof. unfold wal_flush. intros H. repeat case_match; by simplify_eq. Qed.

Section append.
Context (net : Net) (x : NodeId) (rcfg : RaftConfig) (made : WalIdentity * WalOptions).
Context (group : bool) (m : RaftNode) (evs : list RaftEvent).
Context (owed : list (StorageOpId * PersistBatch)).
Implicit Types (w : StorageWorker) (g : Ghost).

(** A worker that holds a task holds the only claim. *)
Lemma task_alone g w t :
  works group w m evs owed g -> sw_pc w = pc_task t ->
  sw_tasks w = [] /\ (sw_completions w ≫= notice_claims) = [] /\ omap event_claim evs = [] /\
  owed = [] /\ g_staged g ++ [pair_of t] = unwritten g m /\ batch_fits (tk_batch t) /\
  exists q, pending_storage_ m = Some q /\ ps_op_id q = tk_operation t.
Proof.
  intros [] Hpc. unfold todo, claims, notices in *. rewrite Hpc in *. simpl in *.
  destruct wk_claims0 as [?|(q & ok & Hq & Heq)]; [done|]. injection Heq as Ho Hok Hrest.
  apply app_nil in Hrest as [Ht Hrest]. apply app_nil in Hrest as [Hc Hrest].
  apply app_nil in Hrest as [He Hw].
  apply fmap_nil_inv in Ht. apply fmap_nil_inv in Hw. rewrite Ht, Hw in *. rewrite Hc, He in *. simpl in *.
  split_and!; [done..| | |eauto].
  - apply wk_eq0. right. eauto.
  - by apply Forall_cons in wk_todo0 as [? _].
Qed.

(** The worker's fields after a task. *)
Lemma works_after_task g g' w w' t :
  works group w m evs owed g -> sw_pc w = pc_task t ->
  sw_tasks w' = sw_tasks w -> sw_completions w' = sw_completions w ->
  sw_group_commit w' = sw_group_commit w -> sw_flush_policy w' = sw_flush_policy w ->
  wi_options (sw_wal w') = wi_options (sw_wal w) ->
  match sw_pc w' with
  | pc_flush t' => tk_operation t' = tk_operation t /\ group = true /\ g_written g' = false
  | pc_failed n | pc_publish n _ => notice_ok group g' n /\
      (notice_claims n = [] \/ exists ok, notice_claims n = [(tk_operation t, ok)])
  | _ => False
  end ->
  (forall op, pc_claims (sw_pc w') = [(op, true)] -> g_staged g' = unwritten g' m) ->
  Forall (notice_ok group g') (sw_completions w) ->
  (group = false -> g_ops g' = [] /\ g_staged g' = []) ->
  (group = true -> sw_group_last w' <= g_flushed g' \/ sw_group_last w' ∈ (g_staged g').*1) ->
  Forall (report_ok group (g_written g')) evs ->
  works group w' m evs owed g'.
Proof.
  intros Hw Hpc Ht Hc Hgc Hfp Hopt Hpc' Hst Hn Hpl Hl He.
  destruct (task_alone _ _ _ Hw Hpc) as (Ht0 & Hc0 & He0 & Hw0 & _ & _ & q & Hq & Hop). destruct Hw.
  assert (Hcl : claims w' evs owed = pc_claims (sw_pc w')).
  { unfold claims. rewrite Ht, Ht0, Hc, Hc0, He0, Hw0. simpl. by rewrite app_nil_r. }
  assert (Htodo : todo w' = []).
  { unfold todo. rewrite Ht, Ht0. simpl. destruct (sw_pc w'); try done. }
  constructor; rewrite ?Hgc, ?Hfp, ?Hopt, ?Hcl, ?Htodo, ?Hw0; try done.
  - destruct (sw_pc w'); try done. by destruct Hpc' as (_ & ? & ?).
  - destruct (sw_pc w'); try done; simpl.
    + destruct Hpc' as (-> & _). right. exists q, true. by rewrite Hop.
    + destruct Hpc' as [_ [->|[ok ->]]]; [by left|right]. exists q, ok. by rewrite Hop.
    + destruct Hpc' as [_ [->|[ok ->]]]; [by left|right]. exists q, ok. by rewrite Hop.
  - intros [?|[op Heq]]; [congruence|]. rewrite app_nil_r. by eapply Hst.
  - unfold notices. rewrite Hc. apply Forall_app. split; [|done].
    destruct (sw_pc w'); try done; constructor; (done || apply Hpc').
Qed.

(** A failed append leaves the log or adds complete frames of the batch. *)
Lemma append_fails_track g w t outs e wal :
  track net x rcfg made (sw_wal w) m g -> works group w m evs owed g -> sw_pc w = pc_task t ->
  wal_append (sw_wal w) (tk_batch t) outs = (inl e, wal) ->
  exists extra, track net x rcfg made wal m (put_log (g_staged g) extra g) /\
    wi_options wal = wi_options (sw_wal w).
Proof.
  intros Htr Hw Hpc Happ. destruct (task_alone _ _ _ Hw Hpc) as (_ & _ & _ & _ & Heq & Hfit & _).
  pose proof (tr_wal _ _ _ _ _ _ _ Htr) as Hinv.
  assert (Hopt : wi_options wal = wi_options (sw_wal w)).
  { unfold wal_append, append_group in Happ. repeat case_match; simplify_eq; done. }
  destruct (append_group_fails _ _ _ _ [tk_batch t] _ _ _ Hinv ltac:(by constructor) Happ) as [->|(_ & _ & _ & k & Hinv')].
  - exists (g_extra g). split; [|done]. destruct Htr, g. done.
  - exists (take k [tk_batch t]). split; [|done]. destruct Htr. constructor; try done.
    { by rewrite (append_made _ _ _ _ _ Happ). }
    change (unwritten (put_log _ _ g) m) with (unwritten g m). rewrite <- Heq, fmap_app.
    apply prefix_app. destruct k; [apply prefix_nil|]. simpl. by rewrite take_nil.
Qed.

(** A successful append without a flush. *)
Lemma append_ok_track g w t outs r wal :
  track net x rcfg made (sw_wal w) m g -> works group w m evs owed g -> sw_pc w = pc_task t -> group = true ->
  wal_append (sw_wal w) (tk_batch t) outs = (inr r, wal) ->
  track net x rcfg made wal m (put_log (g_staged g ++ [pair_of t]) [] g) /\
  wi_options wal = wi_options (sw_wal w) /\ war_durable r = false.
Proof.
  intros Htr Hw Hpc Hg Happ. destruct (task_alone _ _ _ Hw Hpc) as (_ & _ & _ & _ & Heq & Hfit & _).
  pose proof (tr_wal _ _ _ _ _ _ _ Htr) as Hinv. pose proof (wk_options _ _ _ _ _ _ Hw) as Hflush.
  assert (Hopt : wi_options wal = wi_options (sw_wal w)).
  { unfold wal_append, append_group in Happ. repeat case_match; simplify_eq; done. }
  destruct (append_group_ok _ _ _ _ [tk_batch t] _ _ _ Hinv ltac:(by constructor) Happ) as (Hinv' & Hd & _).
  rewrite Hflush, Hg in *. simpl in *. split_and!; [|done..]. destruct Htr. constructor; try done; simpl.
  - by rewrite fmap_app.
  - change (unwritten (put_log _ _ g) m) with (unwritten g m). by rewrite Heq.
  - by rewrite (append_made _ _ _ _ _ Happ).
  - change (unwritten (put_log _ _ g) m) with (unwritten g m). by rewrite app_nil_r, Heq.
Qed.

End append.

(** ** Steps that make batches durable *)

(** The cluster follows: only the host of [x] moves, and what was sent ahead is
    either sent now or still ahead. *)
Record follows (x : NodeId) (net net' : Net) (g g' : Ghost) : Prop := {
  fo_moved : moved x net net';
  fo_out : forall d e, (d, e) ∈ g_out g -> e ∈ n_sent net' \/ (d, e) ∈ g_out g';
  fo_top : g_top g' = g_top g;
  fo_flushed : g_flushed g <= g_flushed g';
}.

Lemma follows_refl x net g : follows x net net g g.
Proof. constructor; [apply moved_refl|by right|done|lia]. Qed.

Lemma follows_log x net staged extra g : follows x net net g (put_log staged extra g).
Proof. constructor; [apply moved_refl|by right|done|simpl; lia]. Qed.

Lemma follows_trans x net1 net2 net3 g1 g2 g3 :
  follows x net1 net2 g1 g2 -> follows x net2 net3 g2 g3 -> follows x net1 net3 g1 g3.
Proof.
  intros [M1 O1 T1 F1] [M2 O2 T2 F2]. constructor; [by eapply moved_trans| |congruence|lia].
  intros d e [Hs|Ho]%O1; [left; by eapply moved_sent|auto].
Qed.

Lemma replayed_app d bs : replayed (d ++ bs) = foldl apply_batch (replayed d) bs.
Proof. unfold replayed. by rewrite foldl_app. Qed.

Lemma sorted_drop f (l1 l2 : list N) f' :
  StronglySorted N.lt (f :: l1 ++ l2) -> f' <= f \/ f' ∈ l1 -> StronglySorted N.lt (N.max f f' :: l2).
Proof.
  intros [H1 H2]%StronglySorted_inv Hf. apply StronglySorted_app in H1 as (H1 & Hs1 & Hs2).
  apply Forall_app in H2 as [_ H2]. constructor; [done|]. rewrite Forall_forall in *.
  intros y Hy. specialize (H2 y Hy). destruct Hf as [Hf|Hf]; [lia|]. specialize (H1 f' y Hf Hy). lia.
Qed.

Section durable.
Context (cfg : NodeId -> RaftConfig) (ms : list NodeId) (x : NodeId) (rcfg : RaftConfig) (made : WalIdentity * WalOptions).
Context (m : RaftNode).
Implicit Types (g : Ghost).

(** The node's batch is written: the host of the cluster writes it too. *)
Lemma write_pending net wal wal' g q f :
  cluster cfg ms net -> track net x rcfg made wal m g -> g_ops g = [] -> g_written g = false ->
  pending_storage_ m = Some q -> f = g_flushed g \/ f = ps_op_id q ->
  impl_inv wal' (g_durable g ++ [ps_batch q]) [] [] -> (wi_identity wal', wi_options wal') = made ->
  exists net', cluster cfg ms net' /\
    let g' := mkGhost m (apply_batch (g_disk g) (ps_batch q)) true (g_top g) [] [] (g_top g)
                (g_durable g ++ [ps_batch q]) [] [] f in
    follows x net net' g g' /\ track net' x rcfg made wal' m g'.
Proof.
  intros Hc [] Hops Hwr Hq Hf Hinv Hmade. rewrite Hops in *. destruct tr_eager0 as (Hn & Hout & Hlast).
  rewrite Hwr, Hn in *. destruct (do_write cfg ms net x m (g_disk g) q Hc tr_host0 Hq)
    as (net' & Hc' & Hm & Hx).
  assert (Hun : unwritten g m = [(ps_op_id q, ps_batch q)]).
  { unfold unwritten, pend. by rewrite Hops, Hwr, Hq. }
  rewrite Hun in *. destruct tr_below0 as [Hb1 Hb2]. apply Forall_cons in Hb1 as [Hb1 _].
  apply StronglySorted_inv in tr_order0 as [_ Ho]. apply Forall_cons in Ho as [Ho _]. simpl in Hb1, Ho.
  assert (Hsub : forall e, e ∈ n_sent net -> e ∈ n_sent net') by (intros e; by apply moved_sent with x).
  exists net'. split; [done|]. intros g'. split.
  - constructor; simpl; [done| |done|destruct Hf; subst; lia].
    rewrite Hout. by intros d e ?%not_elem_of_nil.
  - constructor; simpl; try done.
    + by rewrite tr_disk0, replayed_app.
    + apply ahead_nil.
    + by eapply sound_mono.
    + intros _. split; [done|]. unfold pend. by rewrite Hq.
    + by repeat constructor.
    + split; [constructor|]. destruct Hf; subst; lia.
Qed.

(** A flush makes the appended batches durable. *)
Lemma flush_track net wal wal' g out f :
  cluster cfg ms net -> track net x rcfg made wal m g -> wal_flush wal out = (inr tt, wal') ->
  f <= g_flushed g \/ f ∈ (g_staged g).*1 ->
  exists net' g', cluster cfg ms net' /\ follows x net net' g g' /\ track net' x rcfg made wal' m g' /\
    unwritten g m = g_staged g ++ unwritten g' m /\ g_staged g' = [] /\ g_ops g' `suffix_of` g_ops g /\
    f <= g_flushed g' /\ (g_written g = true -> g_written g' = true) /\
    (g_staged g = unwritten g m -> pend m <> [] -> g_written g' = true).
Proof.
  intros Hc Htr Hflush Hf. pose proof Htr as [].
  pose proof (wal_flush_ok _ _ _ _ _ _ tr_wal0 Hflush) as Hinv.
  rewrite <- (flush_made _ _ _ _ Hflush) in tr_made0.
  destruct tr_prefix0 as [rest Hrest].
  assert (Hord : StronglySorted N.lt (N.max (g_flushed g) f :: rest.*1)).
  { rewrite Hrest, fmap_app in tr_order0. by eapply sorted_drop. }
  assert (Htop : N.max (g_flushed g) f <= g_top g).
  { destruct tr_below0 as [Hb ?]. destruct Hf as [?|Hf]; [lia|]. rewrite Hrest in Hb.
    apply list_elem_of_fmap in Hf as (p & -> & Hp). rewrite Forall_forall in Hb.
    specialize (Hb p ltac:(apply elem_of_app; by left)). lia. }
  assert (Hbelow : Forall (fun p => p.1 <= g_top g) rest).
  { destruct tr_below0 as [Hb _]. rewrite Hrest in Hb. by apply Forall_app in Hb as [_ ?]. }
  destruct (g_written g) eqn:Hwr.
  { destruct (tr_written0 eq_refl) as [Hops Hp]. unfold unwritten in Hrest. rewrite Hops, Hwr in Hrest.
    symmetry in Hrest. apply app_nil in Hrest as [Hst ->]. rewrite Hops, Hst, app_nil_r in *.
    destruct tr_eager0 as (Hn & Hout & Hl). rewrite Hout in *.
    exists net, (mkGhost (g_node g) (g_disk g) true (g_last g) [] [] (g_top g) (g_durable g) [] []
      (N.max (g_flushed g) f)).
    split_and!; [done|constructor| |by unfold unwritten; rewrite ?Hops, ?Hwr, ?Hst|done|by apply suffix_nil|simpl; lia|done..];
      simpl; [apply moved_refl|by rewrite Hout; intros ? ? ?%not_elem_of_nil|done|lia|].
    constructor; simpl; try done. }
  clear tr_written0. unfold unwritten in Hrest. rewrite Hwr in Hrest.
  assert (Hcase : (exists ops2, g_ops g = g_staged g ++ ops2 /\ rest = ops2 ++ pend m) \/
    (exists q, pending_storage_ m = Some q /\ rest = [] /\ g_staged g = g_ops g ++ [(ps_op_id q, ps_batch q)])).
  { apply app_eq_inv in Hrest as [(k & -> & ->)|(k & Hk & Hp)]; [by left; exists k|].
    unfold pend in *. destruct (pending_storage_ m) as [q|]; [|symmetry in Hp; apply app_nil in Hp as [-> ->]].
    - destruct k as [|p [|]]; simpl in Hp; [left|right|done].
      + exists []. rewrite app_nil_r in *. by rewrite Hk, <- Hp.
      + injection Hp as <- <-. exists q. done.
    - left. exists []. rewrite !app_nil_r in *. by rewrite Hk. }
  destruct Hcase as [(ops2 & Hops & Hr)|(q & Hq & -> & Hst)].
  - rewrite Hops in tr_ahead0.
    destruct (advance cfg ms x _ _ _ _ _ _ _ _ net (g_disk g) tr_ahead0 ltac:(done) Hc tr_host0)
      as (net' & n' & out' & lastn & Hc' & Hm & Hx & Ha & Hout & Hend).
    exists net', (mkGhost n' (foldl apply_batch (g_disk g) (g_staged g).*2) false lastn ops2 out' (g_top g)
      (g_durable g ++ (g_staged g).*2) [] [] (N.max (g_flushed g) f)).
    assert (Hun : unwritten (mkGhost n' (foldl apply_batch (g_disk g) (g_staged g).*2) false lastn ops2 out' (g_top g)
      (g_durable g ++ (g_staged g).*2) [] [] (N.max (g_flushed g) f)) m = rest) by (by rewrite Hr).
    split_and!; [done|by constructor; simpl; [..|lia]| |..].
    + constructor; rewrite ?Hun; simpl; try done.
      * by rewrite tr_disk0, replayed_app.
      * eapply sound_mono; [|done]. intros e. by apply moved_sent with x.
      * destruct (ahead_tags _ _ _ _ _ _ _ Ha) as [Ht _]. destruct ops2 as [|p ops2].
        { destruct Hend as (_ & -> & _). constructor. }
        apply StronglySorted_inv in Hord as [_ Ho]. rewrite Hr in Ho. simpl in Ho.
        apply Forall_cons in Ho as [Ho _]. eapply Forall_impl; [exact Ht|]. simpl. lia.
      * destruct ops2; [|done]. naive_solver.
      * apply prefix_nil.
      * apply prefix_nil.
    + rewrite Hun. unfold unwritten. by rewrite Hwr, Hrest.
    + done.
    + simpl. rewrite Hops. by apply suffix_app_r.
    + simpl. lia.
    + done.
    + intros Heq Hp. exfalso. unfold unwritten in Heq. rewrite Hwr, Hops in Heq.
      apply (f_equal length) in Heq. rewrite !length_app in Heq. unfold pend in *.
      destruct (pending_storage_ m); [|done]. simpl in Heq. lia.
  - rewrite <- (app_nil_r (g_ops g)) in tr_ahead0.
    destruct (advance cfg ms x _ _ _ _ _ _ _ _ net (g_disk g) tr_ahead0 ltac:(done) Hc tr_host0)
      as (net1 & n' & out' & lastn & Hc1 & Hm1 & Hx1 & Ha & Hout & (-> & -> & ->)).
    destruct (do_write cfg ms net1 x m _ q Hc1 Hx1 Hq) as (net2 & Hc2 & Hm2 & Hx2).
    assert (Hm : moved x net net2) by (by eapply moved_trans).
    exists net2, (mkGhost m (apply_batch (foldl apply_batch (g_disk g) (g_ops g).*2) (ps_batch q)) true
      (g_top g) [] [] (g_top g) (g_durable g ++ (g_staged g).*2) [] [] (N.max (g_flushed g) f)).
    split_and!; [done|constructor| |..]; simpl; try done.
    + intros d e He. destruct (Hout d e He) as [?|?%not_elem_of_nil]; [|done]. left. by apply (moved_sent x net1).
    + lia.
    + constructor; simpl; try done.
      * rewrite tr_disk0, replayed_app, Hst, fmap_app, foldl_app. done.
      * apply ahead_nil.
      * eapply sound_mono; [|done]. intros e. by apply moved_sent with x.
      * intros _. split; [done|]. unfold pend. by rewrite Hq.
    + unfold unwritten. simpl. by rewrite Hwr, Hrest.
    + apply suffix_nil.
    + lia.
Qed.

End durable.

(** ** Every step of the worker *)

Lemma notice_ok_follows group g g' n :
  (g_written g = true -> g_written g' = true) -> g_flushed g <= g_flushed g' ->
  notice_ok group g n -> notice_ok group g' n.
Proof.
  unfold notice_ok. intros Hw Hf. destruct (sn_kind n); try done.
  - intros [? Hc]. split; [done|]. intros Hs. destruct (Hc Hs). auto.
  - intros (? & ? & Hd). split_and!; [done|lia|]. destruct (sn_delayed_completion n); [|done].
    destruct Hd. auto.
Qed.

Lemma report_mono group written written' evs :
  (written = true -> written' = true) ->
  Forall (report_ok group written) evs -> Forall (report_ok group written') evs.
Proof.
  intros Hw H. eapply Forall_impl; [exact H|]. intros [| |op [] err|]; try done.
  intros [Hg ?]. split; auto.
Qed.

Lemma flush_options wal out r wal' : wal_flush wal out = (r, wal') -> wi_options wal' = wi_options wal.
Proof. unfold wal_flush. intros H. repeat case_match; by simplify_eq. Qed.

Section worker.
Context (cfg : NodeId -> RaftConfig) (ms : list NodeId) (x : NodeId) (rcfg : RaftConfig) (made : WalIdentity * WalOptions).
Context (group : bool) (m : RaftNode) (evs : list RaftEvent).
Context (owed : list (StorageOpId * PersistBatch)).
Implicit Types (w : StorageWorker) (g : Ghost).

Definition tracked (net : Net) (w : StorageWorker) (g : Ghost) : Prop :=
  track net x rcfg made (sw_wal w) m g /\ works group w m evs owed g.

Lemma ungrouped_tracked net w g t i :
  cluster cfg ms net -> tracked net w g -> sw_pc w = pc_task t -> group = false ->
  exists net' g', cluster cfg ms net' /\ follows x net net' g g' /\
    tracked net' (ungrouped_task t i w) g'.
Proof.
  intros Hc [Htr Hw] Hpc Hg. pose proof (wk_policy _ _ _ _ _ _ Hw) as Hpol.
  pose proof (wk_options _ _ _ _ _ _ Hw) as Hopts. unfold ungrouped_task. rewrite Hpol. simpl.
  destruct (task_alone _ _ _ _ _ _ _ Hw Hpc) as (_ & _ & _ & _ & Heq & Hfit & q & Hq & Hop).
  destruct (wk_plain _ _ _ _ _ _ Hw Hg) as [Hops Hst].
  destruct (wal_append (sw_wal w) (tk_batch t) (in_outs i)) as [[e|r] wal] eqn:Happ.
  - destruct (append_fails_track _ _ _ _ _ _ _ _ _ _ _ _ _ _ Htr Hw Hpc Happ) as (extra & Htr' & Hopt).
    exists net, (put_log (g_staged g) extra g). split_and!; [done|apply follows_log|split; [exact Htr'|]].
    pose proof Hw as []. eapply (works_after_task group m evs owed g _ w _ t); try done; simpl; try done.
    + split; [done|]. right. eexists. reflexivity.
    + apply Forall_app in wk_notices0 as [_ ?]. done.
  - rewrite Hst in Heq. simpl in Heq. unfold unwritten in Heq. rewrite Hops in Heq. simpl in Heq.
    destruct (g_written g) eqn:Hwr; [done|]. unfold pend in Heq. rewrite Hq in Heq. injection Heq as _ Hb.
    destruct (append_group_ok _ _ _ _ [tk_batch t] _ _ _ (tr_wal _ _ _ _ _ _ _ Htr) ltac:(by constructor) Happ)
      as (Hinv & Hd & _).
    assert (Hopt : wi_options wal = wi_options (sw_wal w)).
    { unfold wal_append, append_group in Happ. repeat case_match; simplify_eq; done. }
    rewrite Hopts, Hg in Hinv, Hd. simpl in Hinv, Hd. rewrite Hd, Hst, Hb in *. simpl in Hinv.
    destruct (write_pending cfg ms x rcfg made m net _ _ g q (g_flushed g) Hc Htr Hops Hwr Hq (or_introl eq_refl) Hinv
      ltac:(rewrite (append_made _ _ _ _ _ Happ); apply Htr))
      as (net' & Hc' & Hfo & Htr'). cbv zeta in Htr', Hfo.
    eexists net', _. split_and!; [done|exact Hfo|split; [exact Htr'|]]. pose proof Hw as [].
    eapply (works_after_task group m evs owed g _ w _ t); try done; simpl; try done.
    + split; [|right; eexists; reflexivity]. split; [done|]. intros _. split; [done|by eexists].
    + apply Forall_app in wk_notices0 as [_ Hn]. eapply Forall_impl; [exact Hn|].
      intros n. apply notice_ok_follows; [congruence|]. simpl. lia.
    + intros Hg'. congruence.
    + eapply report_mono; [|done]. done.
Qed.

Lemma grouped_tracked net w g t i now :
  cluster cfg ms net -> tracked net w g -> sw_pc w = pc_task t -> group = true ->
  exists net' g', cluster cfg ms net' /\ follows x net net' g g' /\
    tracked net' (grouped_task t i now w) g'.
Proof.
  intros Hc [Htr Hw] Hpc Hg. unfold grouped_task.
  destruct (task_alone _ _ _ _ _ _ _ Hw Hpc) as (_ & _ & _ & _ & Heq & Hfit & q & Hq & Hop).
  destruct (wal_append (sw_wal w) (tk_batch t) (in_outs i)) as [[e|r] wal] eqn:Happ.
  - destruct (append_fails_track _ _ _ _ _ _ _ _ _ _ _ _ _ _ Htr Hw Hpc Happ) as (extra & Htr' & Hopt).
    exists net, (put_log (g_staged g) extra g). split_and!; [done|apply follows_log|split; [exact Htr'|]].
    pose proof Hw as []. eapply (works_after_task group m evs owed g _ w _ t); try done; simpl; try done.
    + split; [done|by left].
    + apply Forall_app in wk_notices0 as [_ ?]. done.
  - destruct (append_ok_track _ _ _ _ _ _ _ _ _ _ _ _ _ _ Htr Hw Hpc Hg Happ) as (Htr' & Hopt & Hdur).
    exists net, (put_log (g_staged g ++ [pair_of t]) [] g). rewrite Hdur. cbv zeta.
    assert (Hwr : g_written g = false).
    { destruct (g_written g) eqn:E; [|done]. unfold unwritten in Heq. rewrite E in Heq.
      destruct (tr_written _ _ _ _ _ _ _ Htr E) as [Ho _]. rewrite Ho in Heq. by destruct (g_staged g). }
    split_and!; [done|apply follows_log|]. pose proof Hw as []. apply Forall_app in wk_notices0 as [_ Hns].
    destruct (_ <? war_bytes_written r); [|destruct (close_group _ _ _)]; (split; [exact Htr'|]);
      (eapply (works_after_task group m evs owed g _ w _ t); try done; simpl; try done; try congruence).
    + split; [done|by left].
    + intros _. destruct (wk_last0 Hg) as [?|?]; [by left|right]. rewrite fmap_app. apply elem_of_app. by left.
    + intros _. right. rewrite fmap_app. apply elem_of_app. right. apply list_elem_of_here.
    + split; [split; [done|by eexists]|right; eexists; reflexivity].
    + intros _. right. rewrite fmap_app. apply elem_of_app. right. apply list_elem_of_here.
Qed.

(** A flush that fails loses at most a claim. *)
Lemma flush_fails_tracked net w g t i e wal :
  tracked net w g -> (sw_pc w = pc_timeout /\ t = None \/ exists t', sw_pc w = pc_flush t' /\ t = Some t') ->
  group = true -> wal_flush (sw_wal w) (in_flush i) = (inl e, wal) ->
  tracked net (flush_group t i w) g.
Proof.
  intros [Htr Hw] Hpc Hg Hf. unfold flush_group. rewrite Hf. split.
  - destruct (wal_flush_fails _ _ _ _ _ _ _ (tr_wal _ _ _ _ _ _ _ Htr) Hf) as [->|(_ & _ & _ & Hinv)]; [done|].
    destruct Htr. constructor; try done. rewrite <- tr_made0. exact (flush_made _ _ _ _ Hf).
  - pose proof (flush_options _ _ _ _ Hf) as Hopt. pose proof Hw as [].
    assert (Htodo : todo (set_sw_pc (pc_failed (failed_notice (set_sw_wal wal w)
      match t with Some t => tk_operation t | None => 0 end (we_what e))) (set_sw_wal wal w)) = todo w).
    { unfold todo. simpl. by destruct Hpc as [[-> _]|(t' & -> & _)]. }
    assert (Hsub : claims (set_sw_pc (pc_failed (failed_notice (set_sw_wal wal w)
      match t with Some t => tk_operation t | None => 0 end (we_what e))) (set_sw_wal wal w)) evs owed ⊆+ claims w evs owed).
    { unfold claims. simpl. destruct Hpc as [[-> _]|(t' & -> & _)]; simpl; [done|]. by apply submseteq_cons. }
    destruct (claimed_sub _ _ _ wk_claims0 Hsub) as [Hcl Hhope].
    constructor; simpl; try done; [congruence|by rewrite Htodo| |].
    + intros Hh. rewrite Htodo. apply wk_eq0. by rewrite <- (Hhope Hh).
    + unfold notices in *. simpl. constructor; [done|].
      by apply Forall_app in wk_notices0 as [_ ?].
Qed.

Lemma flush_ok_tracked net w g t i wal :
  cluster cfg ms net -> tracked net w g ->
  (sw_pc w = pc_timeout /\ t = None \/ exists t', sw_pc w = pc_flush t' /\ t = Some t') ->
  group = true -> wal_flush (sw_wal w) (in_flush i) = (inr tt, wal) ->
  exists net' g', cluster cfg ms net' /\ follows x net net' g g' /\ tracked net' (flush_group t i w) g'.
Proof.
  intros Hc [Htr Hw] Hpc Hg Hf. unfold flush_group. rewrite Hf. pose proof Hw as [].
  destruct (flush_track cfg ms x rcfg made m net _ wal g _ (sw_group_last w) Hc Htr Hf (wk_last0 Hg))
    as (net' & g' & Hc' & Hfo & Htr' & Hun & Hst & _ & Hlast & Hwr & Hall).
  exists net', g'. split_and!; [done|done|split; [done|]].
  assert (Hcl : forall n, notice_claims n = pc_claims (sw_pc w) ->
    claims (set_sw_pc (pc_publish n then_reset) (set_sw_wal wal w)) evs owed = claims w evs owed).
  { intros n Hn. unfold claims. simpl. by rewrite Hn. }
  set (n := barrier_notice _ _).
  assert (Hn : notice_claims n = pc_claims (sw_pc w)).
  { by destruct Hpc as [[-> ->]|(t' & -> & ->)]. }
  assert (Htodo : todo (set_sw_pc (pc_publish n then_reset) (set_sw_wal wal w)) = todo w).
  { unfold todo. simpl. by destruct Hpc as [[-> _]|(t' & -> & _)]. }
  constructor; rewrite ?Htodo, ?Hcl by done; try done; simpl.
  - by rewrite (flush_options _ _ _ _ Hf).
  - intros Hh. specialize (wk_eq0 Hh). rewrite Hun in wk_eq0. rewrite Hst. by apply app_inv_head in wk_eq0.
  - unfold notices in *. simpl. apply Forall_app in wk_notices0 as [_ Hns]. constructor.
    + unfold notice_ok. simpl. split_and!; [done..|].
      destruct Hpc as [[_ ->]|(t' & Hpc & ->)]; [done|]. split; [|by eexists]. apply Hall.
      * rewrite <- wk_eq0, <- (app_nil_r (g_staged g)) at 1.
        { f_equal. unfold todo. rewrite Hpc. unfold claims in wk_claims0. rewrite Hpc in wk_claims0.
          simpl in *. destruct wk_claims0 as [?|(q & ok & _ & Heq)]; [done|].
          injection Heq as _ _ Heq. apply app_nil in Heq as [Heq1 Heq]. apply app_nil in Heq as [_ Heq].
          apply app_nil in Heq as [_ Heq2]. apply fmap_nil_inv in Heq1. apply fmap_nil_inv in Heq2.
          by rewrite Heq1, Heq2. }
        unfold claims in *. rewrite Hpc in *. simpl in *. destruct wk_claims0 as [?|(q & ok & _ & Heq)]; [done|].
        right. injection Heq as -> _ ->. by eexists.
      * unfold claims in wk_claims0. rewrite Hpc in wk_claims0. simpl in *.
        destruct wk_claims0 as [?|(q & ok & Hq & _)]; [done|]. unfold pend. by rewrite Hq.
    + eapply Forall_impl; [exact Hns|]. intros n'. apply notice_ok_follows; [done|apply Hfo].
  - congruence.
  - by left.
  - by eapply report_mono.
Qed.

Lemma worker_step_tracked net w g i now :
  cluster cfg ms net -> tracked net w g ->
  exists net' g', cluster cfg ms net' /\ follows x net net' g g' /\ tracked net' (worker_step i now w) g'.
Proof.
  intros Hc Ht. pose proof Ht as [Htr Hw]. pose proof Hw as [].
  assert (Hsame : forall w', sw_wal w' = sw_wal w -> works group w' m evs owed g ->
    exists net' g', cluster cfg ms net' /\ follows x net net' g g' /\ tracked net' w' g').
  { intros w' Heq Hw'. exists net, g. split_and!; [done|apply follows_refl|]. split; [by rewrite Heq|done]. }
  assert (Hflush : forall t, (sw_pc w = pc_timeout /\ t = None \/ exists t', sw_pc w = pc_flush t' /\ t = Some t') ->
    exists net' g', cluster cfg ms net' /\ follows x net net' g g' /\ tracked net' (flush_group t i w) g').
  { intros t Hpc. assert (group = true) as Hg.
    { destruct Hpc as [[Hpc _]|(t' & Hpc & _)]; rewrite Hpc in wk_pc0; tauto. }
    destruct (wal_flush (sw_wal w) (in_flush i)) as [[e|[]] wal] eqn:Hf.
    - exists net, g. split_and!; [done|apply follows_refl|by eapply flush_fails_tracked].
    - by eapply flush_ok_tracked. }
  unfold worker_step. destruct (sw_pc w) eqn:Hpc.
  - by apply Hsame.
  - apply Hsame; [|by apply wait_task_works]. unfold wait_task. by repeat case_match.
  - rewrite wk_mode0. destruct group eqn:Hg; [by eapply grouped_tracked|by eapply ungrouped_tracked].
  - apply Hflush. right. by exists t.
  - apply Hflush. by left.
  - apply Hsame; [done|by apply mark_failed_works].
  - apply Hsame; [|by apply publish_works]. unfold publish. by repeat case_match.
  - by apply Hsame.
Qed.

Lemma worker_steps_tracked ins now net w g :
  cluster cfg ms net -> tracked net w g ->
  exists net' g', cluster cfg ms net' /\ follows x net net' g g' /\
    tracked net' (worker_steps ins now w).2 g'.
Proof.
  revert now net w g. induction ins as [|i ins IH]; intros now net w g Hc Ht; simpl.
  { exists net, g. split_and!; [done|apply follows_refl|done]. }
  destruct (worker_step_tracked net w g i (now + in_elapsed i) Hc Ht) as (net1 & g1 & Hc1 & Hf1 & Ht1).
  destruct (IH (now + in_elapsed i + in_elapsed_again i) net1 _ g1 Hc1 Ht1) as (net2 & g2 & Hc2 & Hf2 & Ht2).
  exists net2, g2. split_and!; [done|by eapply follows_trans|done].
Qed.

Lemma stop_worker_tracked ins now net w g :
  cluster cfg ms net -> tracked net w g ->
  exists net' g', cluster cfg ms net' /\ follows x net net' g g' /\
    tracked net' (stop_worker ins now w).2 g'.
Proof.
  intros Hc [Htr Hw]. apply worker_steps_tracked; [done|]. split; [done|]. by apply drop_tasks_works.
Qed.

End worker.

(** ** Stopping *)

(** The steps a stopping thread still makes. *)
Definition steps_left (w : StorageWorker) : nat :=
  match sw_pc w with
  | pc_idle | pc_returned => 0
  | pc_wait | pc_publish _ _ => 1
  | pc_failed _ => 2
  | pc_timeout | pc_flush _ => 3
  | pc_task _ => 4
  end.

(** A thread that has ended, or was never started. *)
Definition thread_over (w : StorageWorker) : Prop := sw_pc w = pc_idle \/ sw_pc w = pc_returned.

Lemma stopping_step i now w :
  sw_stopping w = true -> sw_stopping (worker_step i now w) = true /\
  (steps_left (worker_step i now w) <= pred (steps_left w))%nat.
Proof.
  intros Hs. unfold worker_step. destruct (sw_pc w) eqn:Hpc; unfold steps_left; rewrite ?Hpc.
  - auto.
  - unfold wait_task. by rewrite Hs.
  - unfold grouped_task, ungrouped_task. destruct (wal_append _ _ _) as [[?|r] wal].
    + destruct (gc_enabled _); simpl; auto.
    + destruct (gc_enabled _).
      * destruct (war_durable r); [simpl; auto|]. destruct (_ <? war_bytes_written r); [simpl; auto|].
        destruct (close_group _ _ _); simpl; auto.
      * destruct (bool_decide _), (war_durable r), (wal_flush wal (in_flush i)) as [[?|?] ?]; simpl; auto.
  - unfold flush_group. destruct (wal_flush _ _) as [[?|?] ?]; simpl; auto.
  - unfold flush_group. destruct (wal_flush _ _) as [[?|?] ?]; simpl; auto.
  - auto.
  - unfold publish. by rewrite Hs.
  - auto.
Qed.

Lemma stopping_steps ins now w :
  sw_stopping w = true ->
  (steps_left (worker_steps ins now w).2 <= steps_left w - length ins)%nat.
Proof.
  revert now w. induction ins as [|i ins IH]; intros now w Hs; simpl; [lia|].
  destruct (stopping_step i (now + in_elapsed i) w Hs) as [Hs' Hl].
  specialize (IH (now + in_elapsed i + in_elapsed_again i) _ Hs'). lia.
Qed.

(** [join] returns: the steps modelled are enough to end the thread. *)
Lemma stop_worker_over ins now w : thread_over (stop_worker ins now w).2.
Proof.
  unfold stop_worker. set (w1 := set_sw_tasks [] (set_sw_stopping true w)).
  pose proof (stopping_steps (join_inputs ins) now w1 eq_refl) as Hl.
  assert (Hlen : length (join_inputs ins) = join_steps).
  { unfold join_inputs. rewrite length_take, length_app, length_replicate. lia. }
  rewrite Hlen in Hl. assert (Hb : (steps_left w1 <= 4)%nat) by (unfold steps_left; destruct (sw_pc w1); lia).
  unfold join_steps in Hl. unfold thread_over, steps_left in *.
  destruct (sw_pc (worker_steps (join_inputs ins) now w1).2); auto; lia.
Qed.
