(* ===== verification/HostStep.v ===== *)
(** * HostStep: a call of the node keeps its host on track

    The node takes an event or a completion: the host of [Deployment] takes it too
    when it is as far, and otherwise the node gets further ahead of it. *)

From S2P Require Import Prelude Model StateMachine RaftTypes Raft RaftSpec RaftRefine RaftReplicate RaftElection RaftAppend RaftStep System SystemFrame SystemSteps SystemLog SystemSafety Deployment ClusterSafety RaftTyped RaftOps.
From S2P Require Import Bytes Wal WalFormat WalFrames WalRecovery WalScan WalFile WalDurability TcpTypes HostTypes HostWorker NodeHost HostAhead HostTrack.
#[local] Open Scope N_scope.

Lemma message_wfb_fits m : message_fits m -> message_wfb m = true.
Proof.
  destruct m; simpl; unfold u64; rewrite ?andb_true_iff, ?N.leb_le; tauto.
Qed.

(** An event the host may pass to its node. *)
Definition event_fine (net : Net) (ev : RaftEvent) : Prop :=
  event_ok (fun e => e ∈ n_sent net) ev /\ event_fits ev.

Lemma fine_allowed net ev n :
  event_fine net ev -> is_storage_complete ev = false -> event_allowed (n_sent net) ev n = true.
Proof.
  intros [Hok Hfit] Hsc. destruct ev as [env| | |]; simpl in *; try done.
  destruct Hok as [Hs _], Hfit as (_ & _ & Hm). rewrite message_wfb_fits by done.
  by rewrite bool_decide_eq_true_2.
Qed.

(** Something ahead of the disk: the next operation is not flushed. *)
Lemma flushed_below net x rcfg made wal m g :
  track net x rcfg made wal m g -> unwritten g m <> [] -> g_flushed g < g_top g.
Proof.
  intros [] Hne. destruct tr_below as [Hb _]. destruct (unwritten g m) as [|p l]; [done|].
  apply StronglySorted_inv in tr_order as [_ Ho]. apply Forall_cons in Hb as [Hb _].
  simpl in Ho. apply Forall_cons in Ho as [Ho _]. lia.
Qed.

(** Nothing is ahead of a node that waits for a written batch. *)
Lemma unwritten_nil net x rcfg made wal m g :
  track net x rcfg made wal m g -> g_written g = true -> unwritten g m = [].
Proof. intros [] Hw. unfold unwritten. rewrite Hw. by destruct (tr_written Hw) as [-> _]. Qed.

Section step.
Context (cfg : NodeId -> RaftConfig) (ms : list NodeId) (x : NodeId) (rcfg : RaftConfig) (made : WalIdentity * WalOptions).
Context (Hids : Forall u32 (members rcfg)).
Implicit Types (net : Net) (g : Ghost) (m : RaftNode).

(** What a call is allowed to change. *)
Record onto net net' g g' (es : list RaftEffect) : Prop := {
  on_moved : moved x net net';
  on_out : forall d e, (d, e) ∈ g_out g -> e ∈ n_sent net' \/ (d, e) ∈ g_out g';
  on_top : g_top g' = effect_dependency (g_top g) es;
  on_flushed : g_flushed g' = g_flushed g;
  on_sends : forall e, e ∈ sends es -> e ∈ n_sent net' \/ (g_top g', e) ∈ g_out g';
}.

(** The ghost of a host that follows its node at once, and of one that does not. *)
Definition along (m' : RaftNode) (written : bool) (es : list RaftEffect) g : Ghost :=
  let top := effect_dependency (g_top g) es in
  mkGhost m' (g_disk g) written top [] [] top (g_durable g) (g_staged g) (g_extra g) (g_flushed g).
Definition leap (done : list (StorageOpId * PersistBatch)) (es : list RaftEffect) g : Ghost :=
  let top := effect_dependency (g_top g) es in
  mkGhost (g_node g) (g_disk g) false (g_last g) (g_ops g ++ done)
    (g_out g ++ tagged top es) top (g_durable g) (g_staged g) (g_extra g) (g_flushed g).

(** What a call gives for the batches. *)
Record call_facts net m' (es : list RaftEffect) g : Prop := {
  cf_sound : sound rcfg (n_sent net) m';
  cf_counted : counted (effect_dependency (g_top g) es) m';
  cf_new : Forall (fun p => g_top g < p.1 /\ p.1 <= effect_dependency (g_top g) es) (persists es);
  cf_one : (length (persists es) <= 1)%nat;
  cf_fits : Forall (fun p => batch_fits p.2) (persists es);
  cf_from : Forall (fun e => env_from e = RaftTypes.node_id rcfg /\ envelope_fits e) (sends es);
}.

Lemma effects_facts es :
  Forall effect_fits es -> Forall (sent_by (RaftTypes.node_id rcfg)) es ->
  Forall (fun p => batch_fits p.2) (persists es) /\
  Forall (fun e => env_from e = RaftTypes.node_id rcfg /\ envelope_fits e) (sends es).
Proof using.
  induction 1 as [|e es He Hes IH]; intros Hs; [by split; constructor|].
  apply Forall_cons in Hs as [Hs1 Hs2]. destruct (IH Hs2) as [IH1 IH2].
  destruct e; simpl in *; unfold persists, sends in *; simpl; auto; split; auto. destruct He. by constructor.
Qed.

Lemma step_facts net wal m g ev m' es :
  track net x rcfg made wal m g -> event_fine net ev -> step ev m = Returns (tt, m', es) ->
  call_facts net m' es g.
Proof using Hids.
  intros [] [Hok Hfit] Hst.
  destruct (step_batches rcfg Hids _ _ _ _ _ tr_sound Hok Hfit Hst) as (Hs & Hf & Hsent & Hb).
  pose proof (step_counted rcfg Hids _ _ _ _ _ _ tr_sound Hok Hfit Hst tr_counted) as Hco.
  destruct (effects_facts es Hf Hsent) as [? ?].
  constructor; try done; rewrite ?effect_dependency_persists in *;
    destruct Hb as [(-> & _)|(q & Hq & -> & Hop & Hz & _)]; simpl; try lia; repeat constructor; simpl; try lia.
  destruct tr_counted as [[?|?] _ _]; [congruence|lia].
Qed.

(** The log is as it was; the batches of the call come after the others. *)
Lemma track_grow net net' wal m g m' es node written last ops out :
  let top := effect_dependency (g_top g) es in
  let g' := mkGhost node (g_disk g) written last ops out top (g_durable g) (g_staged g) (g_extra g)
              (g_flushed g) in
  track net x rcfg made wal m g -> moved x net net' -> call_facts net m' es g ->
  n_host net' !! x = Some (mkHost node (g_disk g) written) ->
  ahead (n_sent net') last node ops out m' top ->
  (written = true -> ops = [] /\ pend m' <> []) ->
  unwritten g' m' = unwritten g m ++ persists es ->
  Forall (fun p => g_flushed g < p.1) out ->
  match ops with [] => node = m' /\ out = [] /\ last = top | _ :: _ => True end ->
  track net' x rcfg made wal m' g'.
Proof using.
  intros top g' [] Hm [] Hx Ha Hw Hun Ht He. destruct tr_below as [Hb Hft].
  assert (Htop : g_top g <= effect_dependency (g_top g) es) by apply dependency_ge.
  constructor; try done; rewrite ?Hun; simpl.
  - eapply sound_mono; [|done]. intros e. by apply (moved_sent x).
  - rewrite fmap_app, app_comm_cons. apply StronglySorted_app. split_and!; [|done|].
    + intros a b Hia Hib. apply list_elem_of_fmap in Hib as (p & -> & Hp).
      rewrite Forall_forall in cf_new0. specialize (cf_new0 p Hp).
      apply elem_of_cons in Hia as [->|Hia]; [lia|]. apply list_elem_of_fmap in Hia as (p' & -> & Hp').
      rewrite Forall_forall in Hb. specialize (Hb p' Hp'). lia.
    + destruct (persists es) as [|p [|]]; simpl in *; [constructor|repeat constructor|lia].
  - unfold top. split; [|lia]. apply Forall_app. split; eapply Forall_impl; [exact Hb| |exact cf_new0|]; simpl; lia.
  - by apply prefix_app_r.
  - rewrite fmap_app. by apply prefix_app_r.
Qed.

(** The host of the cluster makes the call too. *)
Lemma track_along net net' wal m g m' es written :
  track net x rcfg made wal m g -> moved x net net' -> call_facts net m' es g ->
  n_host net' !! x = Some (mkHost m' (g_disk g) written) -> (written = true -> pend m' <> []) ->
  (if written then [] else pend m') = unwritten g m ++ persists es ->
  track net' x rcfg made wal m' (along m' written es g).
Proof using.
  intros Htr Hm Hf Hx Hw Hun. eapply track_grow; try done; [apply ahead_nil|auto].
Qed.

(** It waits for its disk. *)
Lemma track_leap net wal m g m' es ops :
  let top := effect_dependency (g_top g) es in
  track net x rcfg made wal m g -> g_written g = false -> unwritten g m <> [] -> call_facts net m' es g ->
  ahead (n_sent net) (g_top g) m ops (tagged top es) m' top -> g_ops g ++ ops <> [] ->
  ops ++ pend m' = pend m ++ persists es ->
  track net x rcfg made wal m' (leap ops es g).
Proof using.
  intros top Htr Hw Hne Hf Ha Hops Hp. pose proof (flushed_below _ _ _ _ _ _ _ Htr Hne) as Hfl.
  eapply track_grow; try done; [apply moved_refl| | | | |].
  - rewrite <- Hw. apply Htr.
  - eapply ahead_trans; [apply Htr|done].
  - unfold unwritten. simpl. rewrite Hw, <- !app_assoc. by rewrite Hp.
  - apply Forall_app. split; [apply Htr|]. apply Forall_fmap, Forall_true. intros e. simpl.
    pose proof (dependency_ge (g_top g) es). lia.
  - by destruct (g_ops g ++ ops).
Qed.

(** ** The worker during a call *)

(** An event that is not a completion goes to a node that waits. *)
Lemma works_kept group w m ev evs g m' g' :
  works group w m (ev :: evs) [] g -> event_claim ev = None ->
  pending_storage_ m' = pending_storage_ m ->
  g_staged g' = g_staged g -> g_flushed g' = g_flushed g -> g_written g' = g_written g ->
  g_ops g' = g_ops g -> works group w m' evs [] g'.
Proof using.
  intros [] Hev Hp Hst Hfl Hw Hops.
  assert (Hcl : claims w evs [] = claims w (ev :: evs) []).
  { unfold claims. simpl. by rewrite Hev. }
  assert (Hun : unwritten g' m' = unwritten g m) by (unfold unwritten, pend; by rewrite Hops, Hw, Hp).
  apply Forall_cons in wk_events as [_ wk_events].
  constructor; try done; rewrite ?Hcl, ?Hst, ?Hfl, ?Hw, ?Hops, ?Hun; try done.
  - unfold claimed. by rewrite Hp.
  - unfold hopeful. by rewrite Hp.
  - eapply Forall_impl; [exact wk_notices|]. intros n. apply notice_ok_follows; [congruence|lia].
Qed.

(** When nothing is claimed, the batches of the call are all there is to do. *)
Lemma works_fresh group w m ev evs net g m' es g' :
  works group w m (ev :: evs) [] g -> call_facts net m' es g ->
  claims w evs [] = [] -> hopeful m (claims w (ev :: evs) []) -> pend m' = persists es ->
  g_staged g' = g_staged g -> g_flushed g' = g_flushed g ->
  unwritten g' m' = unwritten g m ++ persists es -> (group = false -> g_ops g' = []) ->
  works group w m' evs (persists es) g'.
Proof using.
  intros [] [] Hnil Hh Hp Hst Hfl Hun Hops. specialize (wk_eq Hh).
  apply Forall_cons in wk_events as [_ wk_events]. rewrite !app_nil_r in *.
  assert (Hcl : claims w evs (persists es) = (fun p => (p.1, true)) <$> persists es).
  { unfold claims in *. simpl in Hnil. rewrite app_nil_r, !app_assoc in *. by rewrite Hnil. }
  unfold claims in Hnil. simpl in Hnil. rewrite app_nil_r in Hnil.
  apply app_nil in Hnil as [Hpc Hnil]. apply app_nil in Hnil as [_ Hnil]. apply app_nil in Hnil as [Hn He].
  constructor; try done; rewrite ?Hcl, ?Hst, ?Hfl, ?Hun; try done.
  - destruct (sw_pc w); done.
  - rewrite <- Hp. unfold claimed, pend. destruct (pending_storage_ m') as [q|]; [right|by left].
    by exists q, true.
  - by apply Forall_app.
  - intros _. by rewrite <- wk_eq, app_assoc.
  - assert (Hnc : forall n, notice_ok group g n -> notice_claims n = [] -> notice_ok group g' n).
    { intros n. unfold notice_ok, notice_claims. rewrite Hfl. destruct (sn_kind n); try done.
      destruct (sn_delayed_completion n); done. }
    unfold notices in *. apply Forall_app in wk_notices as [Hn1 Hn2]. apply Forall_app. split.
    + destruct (sw_pc w); try done; constructor; try done; apply Forall_cons in Hn1 as [? _]; by apply Hnc.
    + rewrite Forall_forall in *. intros n Hin. apply Hnc; [auto|].
      apply elem_of_nil_inv. intros c Hc. assert (Hbad : c ∈ sw_completions w ≫= notice_claims).
      { apply list_elem_of_bind. eauto. }
      rewrite Hn in Hbad. by apply not_elem_of_nil in Hbad.
  - intros Hg. split; [auto|]. by apply wk_plain.
  - rewrite Forall_forall in *. intros e Hin. destruct e as [| |op ok err|]; try done.
    exfalso. assert (Hbad : (op, ok) ∈ omap event_claim evs).
    { apply list_elem_of_omap. by exists (StorageComplete op ok err). }
    rewrite He in Hbad. by apply not_elem_of_nil in Hbad.
Qed.

(** ** The calls *)

Implicit Types (group : bool) (w : StorageWorker) (evs : list RaftEvent).

Lemma onto_along net net' g m' written es :
  g_out g = [] -> moved x net net' -> (forall e, e ∈ sends es -> e ∈ n_sent net') ->
  onto net net' g (along m' written es g) es.
Proof using.
  intros Ho Hm Hs. constructor; simpl; auto. rewrite Ho. by intros d e ?%not_elem_of_nil.
Qed.

Lemma onto_leap net g ops es : onto net net g (leap ops es g) es.
Proof using.
  constructor; simpl; try done; [apply moved_refl| |].
  - intros d e He. right. apply elem_of_app. by left.
  - intros e He. right. apply elem_of_app. right. apply list_elem_of_fmap. eauto.
Qed.

(** Without a pending batch, nothing is claimed and the disk has all. *)
Lemma idle_worker group w m evs g :
  works group w m evs [] g -> pending_storage_ m = None -> claims w evs [] = [].
Proof using. intros [] Hp. destruct wk_claims as [?|(q & ok & ? & _)]; [done|congruence]. Qed.

(** A queued completion is the only claim. *)
Lemma report_alone group w m op ok err evs g :
  works group w m (StorageComplete op ok err :: evs) [] g ->
  exists q, pending_storage_ m = Some q /\ op = ps_op_id q /\
    claims w (StorageComplete op ok err :: evs) [] = [(op, ok)] /\ claims w evs [] = [].
Proof using.
  intros Hw. pose proof (wk_claims _ _ _ _ _ _ Hw) as Hcl.
  assert (Hperm : claims w (StorageComplete op ok err :: evs) [] ≡ₚ (op, ok) :: claims w evs []).
  { unfold claims. simpl. rewrite !app_nil_r. solve_Permutation. }
  destruct Hcl as [Hn|(q & ok' & Hq & Hn)]; rewrite Hn in Hperm; [by apply Permutation_nil_cons in Hperm|].
  apply Permutation_singleton_l in Hperm. injection Hperm as H1 H2 H3. exists q.
  rewrite Hn, H1, H2. by split_and!.
Qed.

(** An event, other than a completion. *)
Lemma event_tracked group net w m ev evs g m' es :
  cluster cfg ms net -> tracked x rcfg made group m (ev :: evs) [] net w g ->
  event_fine net ev -> is_storage_complete ev = false -> step ev m = Returns (tt, m', es) ->
  exists net' g', cluster cfg ms net' /\ onto net net' g g' es /\
    tracked x rcfg made group m' evs (persists es) net' w g'.
Proof using Hids.
  intros Hc [Htr Hw] Hev Hsc Hst. pose proof (step_facts _ _ _ _ _ _ _ Htr Hev Hst) as Hf.
  pose proof (tr_sound _ _ _ _ _ _ _ Htr) as Hs. destruct (Hev) as [Hok Hfit].
  assert (Hcl : event_claim ev = None) by (by destruct ev).
  assert (Hcase : exists kept, (kept = true -> exists q, pending_storage_ m = Some q /\ persists es = [] /\
      pending_storage_ m' = pending_storage_ m) /\
      (kept = false -> pending_storage_ m = None /\ pend m' = persists es)).
  { destruct (pending_storage_ m) as [q|] eqn:Hq.
    - exists true. split; [intros _|done]. destruct (pending_kept rcfg _ _ _ _ _ _ Hs Hfit Hq Hsc Hst) as (_ & ? & ?).
      by exists q.
    - exists false. split; [done|intros _]. split; [done|]. eapply (step_pend rcfg Hids); eauto. }
  destruct Hcase as (kept & Hk & Hi).
  assert (Hpend : pend m' = pend m ++ persists es).
  { unfold pend in *. destruct kept; [destruct (Hk eq_refl) as (q & Hq & -> & ->); by rewrite app_nil_r|].
    destruct (Hi eq_refl) as [-> ->]. done. }
  assert (Hwork : forall g', g_staged g' = g_staged g -> g_flushed g' = g_flushed g ->
    g_written g' = g_written g -> g_ops g' = g_ops g -> works group w m' evs (persists es) g').
  { intros g' H1 H2 H3 H4. destruct kept.
    - destruct (Hk eq_refl) as (q & _ & -> & ?). by eapply works_kept.
    - destruct (Hi eq_refl) as [Hn Hp']. pose proof (idle_worker _ _ _ _ _ Hw Hn) as Hnil.
      assert (Hnil' : claims w evs [] = []) by (rewrite <- Hnil; unfold claims; simpl; by rewrite Hcl).
      eapply works_fresh; try done; [by left| |].
      + unfold unwritten. rewrite H3, H4, Hpend. destruct (g_written g) eqn:E; [|by rewrite app_assoc].
        destruct (tr_written _ _ _ _ _ _ _ Htr E) as [_ Hb]. unfold pend in Hb. by rewrite Hn in Hb.
      + intros Hg. rewrite H4. by apply (wk_plain _ _ _ _ _ _ Hw). }
  pose proof (tr_eager _ _ _ _ _ _ _ Htr) as He. destruct (g_ops g) as [|p ops] eqn:Hops.
  - destruct He as (Hn & Ho & Hl). pose proof (tr_host _ _ _ _ _ _ _ Htr) as Hx. rewrite Hn in Hx.
    destruct (do_event cfg ms net x m (g_disk g) (g_written g) ev m' es Hc Hx) as (net' & Hc' & Hm & Hx' & Hsent);
      [by apply fine_allowed|done|].
    assert (Hwr : g_written g && negb (is_none (pending_storage_ m')) = g_written g).
    { destruct (g_written g) eqn:E; [|done]. destruct (tr_written _ _ _ _ _ _ _ Htr E) as [_ Hb].
      unfold pend in *. destruct (pending_storage_ m) eqn:Hq; [|done]. by destruct (pending_storage_ m'). }
    rewrite Hwr in Hx'. exists net', (along m' (g_written g) es g). split_and!; [done|by apply onto_along|split].
    + eapply track_along; try done.
      * intros E. destruct (tr_written _ _ _ _ _ _ _ Htr E) as [_ Hb]. rewrite Hpend. by destruct (pend m).
      * unfold unwritten. rewrite Hops. simpl. destruct (g_written g) eqn:E; [|done].
        destruct (tr_written _ _ _ _ _ _ _ Htr E) as [_ Hb]. destruct kept; [by destruct (Hk eq_refl) as (q & _ & -> & _)|].
        destruct (Hi eq_refl) as [Hn' _]. unfold pend in Hb. by rewrite Hn' in Hb.
    + by apply Hwork.
  - assert (Hwr : g_written g = false).
    { destruct (g_written g) eqn:E; [|done]. destruct (tr_written _ _ _ _ _ _ _ Htr E) as [Hb _]. congruence. }
    exists net, (leap [] es g). split_and!; [done|apply onto_leap|split].
    + eapply track_leap; try done.
      * unfold unwritten. by rewrite Hops.
      * rewrite <- (app_nil_r (tagged _ _)). eapply ahead_event; [by apply fine_allowed|done..|apply ahead_nil].
      * by rewrite Hops.
    + apply Hwork; try done. simpl. by rewrite app_nil_r.
Qed.

(** The completion of a batch that is durable, or, with group commit, that the log
    has accepted. *)
Lemma done_tracked group net w m op err evs g m' es :
  cluster cfg ms net -> tracked x rcfg made group m (StorageComplete op true err :: evs) [] net w g ->
  step (StorageComplete op true err) m = Returns (tt, m', es) ->
  exists net' g', cluster cfg ms net' /\ onto net net' g g' es /\
    tracked x rcfg made group m' evs (persists es) net' w g'.
Proof using Hids.
  intros Hc [Htr Hw] Hst.
  assert (Hev : event_fine net (StorageComplete op true err)) by done.
  pose proof (step_facts _ _ _ _ _ _ _ Htr Hev Hst) as Hf.
  pose proof (tr_sound _ _ _ _ _ _ _ Htr) as Hs.
  pose proof (wk_events _ _ _ _ _ _ Hw) as Hr. apply Forall_cons in Hr as [[Hr ->] _].
  destruct (report_alone _ _ _ _ _ _ _ _ Hw) as (q & Hq & -> & Hcl & Hnil).
  assert (Hcomp : completed (StorageComplete (ps_op_id q) true EmptyString) m = true).
  { simpl. rewrite Hq. simpl. apply N.eqb_refl. }
  pose proof (step_pend rcfg Hids _ _ _ _ _ Hs (proj1 Hev) (proj2 Hev) (or_introl Hcomp) Hst) as Hpend.
  assert (Hle : ps_op_id q <= g_top g).
  { pose proof (co_pend _ _ (tr_counted _ _ _ _ _ _ _ Htr)) as Hp. unfold pend in Hp. rewrite Hq in Hp.
    by apply Forall_cons in Hp as [? _]. }
  destruct (g_written g) eqn:Hwr.
  - destruct (tr_written _ _ _ _ _ _ _ Htr Hwr) as [Hops _]. pose proof (tr_eager _ _ _ _ _ _ _ Htr) as He.
    rewrite Hops in He. destruct He as (Hn & Ho & Hl). pose proof (tr_host _ _ _ _ _ _ _ Htr) as Hx.
    rewrite Hn, Hwr in Hx. pose proof (unwritten_nil _ _ _ _ _ _ _ Htr Hwr) as Hun.
    destruct (do_done cfg ms net x m (g_disk g) q m' es Hc Hx Hq Hst) as (net' & Hc' & Hm & Hx' & Hsent).
    exists net', (along m' false es g). split_and!; [done|by apply onto_along|split].
    + eapply track_along; try done. by rewrite Hun.
    + eapply works_fresh; try done; [by eapply hopeful_claim|]. by rewrite Hun.
  - exists net, (leap [(ps_op_id q, ps_batch q)] es g).
    assert (Hp : pend m = [(ps_op_id q, ps_batch q)]) by (unfold pend; by rewrite Hq).
    split_and!; [done|apply onto_leap|split].
    + eapply track_leap; try done.
      * unfold unwritten. rewrite Hwr, Hp. by destruct (g_ops g).
      * rewrite <- (app_nil_r (tagged _ _)). eapply ahead_done; [done..|apply ahead_nil].
      * by destruct (g_ops g).
      * by rewrite Hp, Hpend.
    + eapply works_fresh; try done; [by eapply hopeful_claim| |].
      * unfold unwritten. simpl. rewrite Hwr, Hp, Hpend. done.
      * intros Hg. specialize (Hr Hg). done.
Qed.

(** A failed append kills the node of a host without group commit. *)
Lemma failed_tracked group net w m op err evs g m' es :
  tracked x rcfg made group m (StorageComplete op false err :: evs) [] net w g ->
  step (StorageComplete op false err) m = Returns (tt, m', es) ->
  group = false /\ sound rcfg (n_sent net) m' /\ dead m' /\ sends es = [] /\ persists es = [] /\
  claims w evs [] = [].
Proof using Hids.
  intros [Htr Hw] Hst. pose proof (wk_events _ _ _ _ _ _ Hw) as Hr. apply Forall_cons in Hr as [Hr _].
  destruct (report_alone _ _ _ _ _ _ _ _ Hw) as (q & Hq & -> & _ & Hnil).
  destruct (failing_step rcfg Hids _ _ _ _ _ _ (tr_sound _ _ _ _ _ _ _ Htr) Hq Hst) as (? & ? & ? & ?).
  by split_and!.
Qed.

End step.
