(* ===== verification/HostOwner.v ===== *)
(** * HostOwner: the owner thread keeps its host on track

    The invariant of a host against the cluster of [Deployment]: an [active] host
    is tracked, and what it has sent, queued or quarantined is accounted for; a
    host that failed, was stopped or whose node has died only has its log to
    show.  Every function of [NodeHost] keeps it. *)

From S2P Require Import Prelude Model StateMachine RaftTypes Raft RaftSpec RaftRefine RaftReplicate RaftElection RaftAppend RaftStep System SystemFrame SystemSteps SystemLog SystemSafety Deployment ClusterSafety RaftTyped RaftOps.
From S2P Require Codec CodecTheorems.
From S2P Require Import Bytes CodecPayloads Wal WalFormat WalFrames WalRecovery WalScan WalFile WalDurability TcpTypes HostTypes HostWorker NodeHost HostAhead HostTrack HostStep.
#[local] Open Scope N_scope.

Section owner.
Context {W T : Type} `{TransportLaws W T}.
Context (hcfg : NodeId -> NodeHostConfig) (ms : list NodeId) (x : NodeId).
Abbreviation Host := (HostImpl T).
Implicit Types (h : Host) (net : Net) (g : Ghost) (es : list RaftEffect).

Definition raft_config (y : NodeId) : RaftConfig := hc_raft (hcfg y).
Definition node_config : RaftConfig :=
  with_members (raft_config x) (sort_members (members (raft_config x))).
Definition wal_setup : WalIdentity * WalOptions := (hc_identity (hcfg x), runtime_wal_options (hcfg x)).
Definition grouped : bool := gc_enabled (hc_group_commit (hcfg x)).
Definition limits : Codec.Limits := hc_codec (hcfg x).

Context (Hids : Forall u32 (members node_config)).

(** [bs] is the frame of a message of the cluster. *)
Definition frame_of net (from to : NodeId) (bs : list N) : Prop :=
  exists env, env ∈ n_sent net /\ envelope_fits env /\ env_from env = from /\ env_to env = to /\
    Codec.encode_message (env_message env) (hc_codec (hcfg from)) = Codec.success bs.

(** What holds of every host: its frames are messages of the cluster, and so is
    what its transport may still deliver. *)
Record common net h : Prop := {
  cm_config : nh_config h = hcfg x;
  cm_handed : forall to bs, (to, bs) ∈ tcp_handed (nh_tcp h) -> frame_of net x to bs;
  cm_may : forall e, tcp_may (nh_tcp h) e -> ev_kind e = tcp_message ->
           frame_of net (ev_peer e) x (ev_bytes e);
}.

(** A message that depends on the operation [dep] is sent, or ahead with it. *)
Definition message_ok net g (dep : StorageOpId) (env : MessageEnvelope) : Prop :=
  envelope_fits env /\ env_from env = x /\ (env ∈ n_sent net \/ (dep, env) ∈ g_out g).

Definition effect_ok net g (e : RaftEffect) : Prop :=
  match e with
  | SendEffect env => message_ok net g (g_top g) env
  | _ => True
  end.

Definition quarantine_ok net g (q : QuarantinedEffect) : Prop :=
  match qe_effect q with
  | SendEffect env => message_ok net g (qe_durability_dependency q) env
  | PersistEffect _ _ => False
  | _ => True
  end.

(** The gate of group commit. *)
Definition gate g h : Prop :=
  nh_last_submitted_operation h = g_top g /\ nh_durable_operation_through h <= g_flushed g /\
  nh_group_barrier_active h = (nh_durable_operation_through h <? nh_last_submitted_operation h).

(** A host whose node has emitted the effects [es], not yet handled. *)
Record active net h g es : Prop := {
  ac_common : common net h;
  ac_tracked : tracked x node_config wal_setup grouped (nh_raft h) (nh_owner_events h) (persists es) net
                 (nh_storage h) g;
  ac_events : Forall (event_fine net) (nh_owner_events h);
  ac_clients : Forall (fun p => command_fits p.2) (nh_client_queue h);
  ac_quarantine : Forall (quarantine_ok net g) (nh_quarantined_effects h);
  ac_effects : Forall (effect_ok net g) es;
  ac_gate : grouped = true -> nh_started h = true -> gate g h;
  ac_running : nh_running h = true -> nh_started h = true;
}.

(** A host that has stopped for good: its worker has ended. *)
Record ended net h : Prop := {
  en_common : common net h;
  en_thread : thread_over (nh_storage h);
  en_running : nh_running h = false;
  en_started : nh_started h = true;
  en_log : exists m g, track net x node_config wal_setup (sw_wal (nh_storage h)) m g;
}.

(** The worker of a node that has died: it has nothing to write. *)
Definition dead_worker (w : StorageWorker) : Prop :=
  gc_enabled (sw_group_commit w) = false /\ todo w = [] /\
  match sw_pc w with pc_flush _ | pc_timeout => False | _ => True end.

(** A host without group commit whose node has died because its log failed. *)
Record dying net h : Prop := {
  dy_common : common net h;
  dy_mode : grouped = false;
  dy_worker : dead_worker (nh_storage h);
  dy_dead : dead (nh_raft h);
  dy_sound : sound node_config (n_sent net) (nh_raft h);
  dy_events : Forall (event_fine net) (nh_owner_events h);
  dy_clients : Forall (fun p => command_fits p.2) (nh_client_queue h);
  dy_running : nh_running h = true -> nh_started h = true;
  dy_log : exists m g, track net x node_config wal_setup (sw_wal (nh_storage h)) m g;
}.

(** ** Frames *)

(** The parts of a host the invariant speaks of. *)
Definition core h :=
  (nh_config h, nh_tcp h, nh_raft h, nh_storage h, nh_owner_events h, nh_client_queue h,
   nh_quarantined_effects h, (nh_running h, nh_started h),
   (nh_last_submitted_operation h, nh_durable_operation_through h, nh_group_barrier_active h)).

Lemma active_core net h h' g es : core h' = core h -> active net h g es -> active net h' g es.
Proof.
  unfold core. intros Hc. injection Hc as H1 H2 H3 H4 H5 H6 H7 H8 H9 H10 H11 H12. intros [[] ].
  constructor; [constructor|..]; unfold gate in *;
    rewrite ?H1, ?H2, ?H3, ?H4, ?H5, ?H6, ?H7, ?H8, ?H9, ?H10, ?H11, ?H12; done.
Qed.

Lemma dying_core net h h' : core h' = core h -> dying net h -> dying net h'.
Proof.
  unfold core. intros Hc. injection Hc as H1 H2 H3 H4 H5 H6 H7 H8 H9 H10 H11 H12. intros [[] ].
  constructor; [constructor|..];
    rewrite ?H1, ?H2, ?H3, ?H4, ?H5, ?H6, ?H7, ?H8, ?H9, ?H10, ?H11, ?H12; done.
Qed.

(** A host that has ended depends on even less. *)
Lemma ended_core net h h' :
  nh_config h' = nh_config h -> nh_tcp h' = nh_tcp h -> nh_storage h' = nh_storage h ->
  nh_running h' = nh_running h -> nh_started h' = nh_started h -> ended net h -> ended net h'.
Proof.
  intros H1 H2 H3 H4 H5 [[] ]. constructor; [constructor|..]; rewrite ?H1, ?H2, ?H3, ?H4, ?H5; done.
Qed.

(** ** The cluster moves on *)

Lemma frame_moved net net' from to bs :
  moved x net net' -> frame_of net from to bs -> frame_of net' from to bs.
Proof. intros Hm (env & ? & ?). exists env. split; [by eapply moved_sent|done]. Qed.

Lemma common_moved net net' h : moved x net net' -> common net h -> common net' h.
Proof.
  intros Hm []. constructor; [done|..]; intros; eapply frame_moved; eauto.
Qed.

Lemma fine_moved net net' evs :
  moved x net net' -> Forall (event_fine net) evs -> Forall (event_fine net') evs.
Proof.
  intros Hm Hev. eapply Forall_impl; [exact Hev|]. intros ev [Hok ?]. split; [|done].
  eapply event_ok_mono; [|done]. intros e. by apply (moved_sent x).
Qed.

Lemma message_follows net net' g g' dep env :
  follows x net net' g g' -> message_ok net g dep env -> message_ok net' g' dep env.
Proof.
  intros [Hm Ho Ht Hf] (? & ? & Hs). split_and!; [done..|].
  destruct Hs as [Hs|Hs]; [left; by eapply moved_sent|auto].
Qed.

Lemma quarantine_follows net net' g g' l :
  follows x net net' g g' -> Forall (quarantine_ok net g) l -> Forall (quarantine_ok net' g') l.
Proof.
  intros Hfo Hl. eapply Forall_impl; [exact Hl|]. intros [dep []]; unfold quarantine_ok; simpl; try done.
  by apply message_follows.
Qed.

Lemma effects_follow net net' g g' es :
  follows x net net' g g' -> Forall (effect_ok net g) es -> Forall (effect_ok net' g') es.
Proof.
  intros Hfo Hl. eapply Forall_impl; [exact Hl|]. intros []; unfold effect_ok; simpl; try done.
  rewrite (fo_top _ _ _ _ _ Hfo). by apply message_follows.
Qed.

Lemma gate_follows net net' g g' h : follows x net net' g g' -> gate g h -> gate g' h.
Proof. intros [_ _ Ht Hf] (? & ? & ?). split_and!; [congruence|lia|done]. Qed.

(** The worker moves, the owner does not. *)
Lemma active_storage net net' h g g' es w :
  follows x net net' g g' -> active net h g es ->
  tracked x node_config wal_setup grouped (nh_raft h) (nh_owner_events h) (persists es) net' w g' ->
  active net' (set_nh_storage w h) g' es.
Proof.
  intros Hfo [] Ht. pose proof (fo_moved _ _ _ _ _ Hfo). constructor; simpl; try done.
  - apply (common_moved net net') in ac_common0 as []; [|done]. by constructor.
  - by eapply fine_moved.
  - by eapply quarantine_follows.
  - by eapply effects_follow.
  - intros. by eapply gate_follows; [|apply ac_gate0].
Qed.

Lemma lock_worker_active net h g es :
  cluster raft_config ms net -> active net h g es ->
  exists net' g', cluster raft_config ms net' /\ follows x net net' g g' /\
    active net' (lock_worker h) g' es.
Proof.
  intros Hc Ha. unfold lock_worker.
  destruct (worker_steps_tracked raft_config ms x node_config wal_setup grouped (nh_raft h) (nh_owner_events h)
    (persists es) (default [] (head (en_worker (nh_env h)))) (en_now (nh_env h)) net (nh_storage h) g Hc
    (ac_tracked _ _ _ _ Ha)) as (net' & g' & Hc' & Hfo & Ht).
  exists net', g'. split_and!; [done|done|]. eapply active_core; [|by eapply active_storage]. done.
Qed.

(** ** Failing and stopping *)

Lemma common_same net h h' :
  nh_config h' = nh_config h -> nh_tcp h' = nh_tcp h -> common net h -> common net h'.
Proof. intros H1 H2 []. constructor; by rewrite ?H1, ?H2. Qed.

Lemma common_tcp net h t :
  silent (nh_tcp h) t -> common net h -> common net (set_nh_tcp t h).
Proof.
  intros [Hh Hm] []. constructor; simpl; [done|..].
  - rewrite Hh. done.
  - intros e He. auto.
Qed.

Lemma dead_worker_step i now w :
  dead_worker w -> dead_worker (worker_step i now w) /\ sw_wal (worker_step i now w) = sw_wal w.
Proof.
  intros (Hg & Ht & Hpc). unfold worker_step, dead_worker, todo in *. destruct (sw_pc w) eqn:E; try done.
  - by rewrite E.
  - apply fmap_nil_inv in Ht. unfold wait_task. rewrite Ht, Hg. simpl.
    destruct (sw_stopping w); simpl; rewrite ?E, ?Ht; done.
  - unfold publish. destruct (sw_stopping w); [done|]. case_match; [|by rewrite E]. by destruct next.
  - by rewrite E.
Qed.

Lemma dead_worker_steps ins now w :
  dead_worker w -> dead_worker (worker_steps ins now w).2 /\ sw_wal (worker_steps ins now w).2 = sw_wal w.
Proof.
  revert now w. induction ins as [|i ins IH]; intros now w Hw; simpl; [done|].
  destruct (dead_worker_step i (now + in_elapsed i) w Hw) as [Hw' E].
  destruct (IH (now + in_elapsed i + in_elapsed_again i) _ Hw') as [? E']. split; [done|congruence].
Qed.

(** A worker that leaves its log in order. *)
Definition keeper net (w : StorageWorker) : Prop :=
  (exists m evs owed g, tracked x node_config wal_setup grouped m evs owed net w g) \/
  (dead_worker w /\ exists m g, track net x node_config wal_setup (sw_wal w) m g).

Lemma storage_stop_tracked net h g evs owed m :
  cluster raft_config ms net -> tracked x node_config wal_setup grouped m evs owed net (nh_storage h) g ->
  exists net' g', cluster raft_config ms net' /\ follows x net net' g g' /\
    tracked x node_config wal_setup grouped m evs owed net' (nh_storage (storage_stop h)) g' /\
    thread_over (nh_storage (storage_stop h)).
Proof.
  intros Hc Ht. unfold storage_stop.
  destruct (worker_steps_tracked raft_config ms x node_config wal_setup grouped m evs owed
    (default [] (head (en_worker (nh_env h)))) (en_now (nh_env h)) net (nh_storage h) g Hc Ht)
    as (net1 & g1 & Hc1 & Hf1 & Ht1).
  destruct (stop_worker_tracked raft_config ms x node_config wal_setup grouped m evs owed
    (default [] (head (en_worker (nh_env (lock_worker h))))) (en_now (nh_env (lock_worker h)))
    net1 (nh_storage (lock_worker h)) g1 Hc1 Ht1) as (net2 & g2 & Hc2 & Hf2 & Ht2).
  exists net2, g2. split_and!; [done|by eapply follows_trans|exact Ht2|apply stop_worker_over].
Qed.

(** What [storage_stop] leaves alone. *)
Lemma storage_stop_frame h :
  nh_config (storage_stop h) = nh_config h /\ nh_tcp (storage_stop h) = nh_tcp h /\
  nh_running (storage_stop h) = nh_running h /\ nh_started (storage_stop h) = nh_started h /\
  nh_owner_events (storage_stop h) = nh_owner_events h.
Proof. done. Qed.

Lemma storage_stop_kept net h :
  cluster raft_config ms net -> keeper net (nh_storage h) ->
  exists net', cluster raft_config ms net' /\ moved x net net' /\ thread_over (nh_storage (storage_stop h)) /\
    exists m g, track net' x node_config wal_setup (sw_wal (nh_storage (storage_stop h))) m g.
Proof.
  intros Hc [(m & evs & owed & g & Ht)|(Hd & m & g & Htr)].
  - destruct (storage_stop_tracked net h g evs owed m Hc Ht) as (net' & g' & ? & ? & [? _] & ?).
    exists net'. split_and!; [done|by eapply fo_moved|done|eauto].
  - exists net. split_and!; [done|apply moved_refl|apply stop_worker_over|]. exists m, g.
    assert (Hwal : sw_wal (nh_storage (storage_stop h)) = sw_wal (nh_storage h)); [|by rewrite Hwal].
    unfold storage_stop, lock_worker, stop_worker. simpl.
    set (w1 := (worker_steps _ _ (nh_storage h)).2).
    destruct (dead_worker_steps (default [] (head (en_worker (nh_env h)))) (en_now (nh_env h)) _ Hd) as [Hd1 E1].
    fold w1 in Hd1, E1. rewrite <- E1. destruct Hd1 as (Hg & Htd & Hpc).
    match goal with |- sw_wal (worker_steps ?i ?n ?w).2 = _ =>
      exact (proj2 (dead_worker_steps i n w ltac:(unfold dead_worker, todo in *; simpl in *;
        apply app_nil in Htd as [-> _]; done))) end.
Qed.

(** The common end of [stop] and of a failure: transport and worker stop. *)
Lemma shutdown_ended net h :
  cluster raft_config ms net -> common net h -> keeper net (nh_storage h) ->
  nh_running h = false -> nh_started h = true ->
  exists net', cluster raft_config ms net' /\ moved x net net' /\
    ended net' (storage_stop (set_nh_tcp (tcp_stop (nh_tcp h)) h)).
Proof.
  intros Hc Hcm Ht Hr Hs.
  destruct (storage_stop_kept net (set_nh_tcp (tcp_stop (nh_tcp h)) h) Hc Ht)
    as (net' & Hc' & Hm & Hover & Hlog).
  exists net'. split_and!; [done|done|]. constructor; try done.
  apply (common_moved net); [done|].
  apply (common_same _ (set_nh_tcp (tcp_stop (nh_tcp h)) h)); [done|done|].
  apply common_tcp; [apply law_stop|done].
Qed.

Lemma reply_unavailable_core tokens h : core (reply_unavailable tokens h) = core h.
Proof.
  revert h. induction tokens as [|t ts IH]; intros h; simpl; [done|]. case_match; [done|].
  by rewrite IH.
Qed.

Lemma tracked_drop_events evs' net w g evs owed m :
  evs' `sublist_of` evs -> tracked x node_config wal_setup grouped m evs owed net w g ->
  tracked x node_config wal_setup grouped m evs' owed net w g.
Proof. intros Hs [? ?]. split; [done|]. by eapply drop_events_works. Qed.

(** A running host whose log is in order. *)
Definition live net h : Prop :=
  common net h /\ nh_running h = true /\ nh_started h = true /\ keeper net (nh_storage h).

Lemma active_live net h g es : active net h g es -> nh_running h = true -> live net h.
Proof.
  intros Ha Hr. split_and!; [apply Ha|done|by apply (ac_running _ _ _ _ Ha)|].
  left. do 4 eexists. apply Ha.
Qed.

(** [h] has failed: it has ended, and nothing is left to do. *)
Definition failed_host net h : Prop := ended net h /\ nh_owner_events h = [].

Lemma fail_transport_failed net h :
  cluster raft_config ms net -> live net h ->
  exists net', cluster raft_config ms net' /\ moved x net net' /\ failed_host net' (fail_transport h).
Proof.
  intros Hc (Hcm & Hr & Hs & Ht). unfold fail_transport. rewrite Hr.
  cbn [negb]. set (h1 := set_nh_owner_events _ _).
  set (h0 := reply_unavailable _ _) in h1.
  match eval unfold h0 in h0 with reply_unavailable ?l ?k => pose proof (reply_unavailable_core l k) as Hcore end.
  fold h0 in Hcore. unfold core in Hcore. simpl in Hcore.
  injection Hcore as H1 H2 H3 H4 H5 H6 H7 H8 H9 H10 H11 H12.
  destruct (shutdown_ended net h1) as (net' & Hc' & Hm & He); [done|..].
  - by apply (common_same _ h).
  - simpl. by rewrite H4.
  - done.
  - simpl. congruence.
  - exists net'. by split_and!.
Qed.

Lemma fail_group_failed net h :
  cluster raft_config ms net -> live net h ->
  exists net', cluster raft_config ms net' /\ moved x net net' /\ failed_host net' (fail_group_storage h).
Proof.
  intros Hc (Hcm & Hr & Hs & Ht). apply fail_transport_failed; [done|]. split_and!; [|done..].
  by apply (common_same _ h).
Qed.

(** ** Effects *)

Lemma active_tail net h g e es :
  is_persist e = false -> active net h g (e :: es) -> active net h g es.
Proof.
  intros He []. apply Forall_cons in ac_effects0 as [_ ?]. constructor; try done.
  by destruct e.
Qed.

Lemma schedule_timer_core r h : core (schedule_timer r h) = core h.
Proof.
  unfold schedule_timer, timer_deadline, timer_ticks, election_jitter, read_clock.
  by destruct (tr_kind r), (hc_election_jitter (nh_config h) =? 0).
Qed.

Lemma reply_effect_core r h : core (reply_effect r h) = core h.
Proof. unfold reply_effect. by case_match. Qed.

Lemma trace_effect_core r h : core (trace_effect r h) = core h.
Proof. unfold trace_effect. by case_match. Qed.

(** An effect that may be shown: a message of it is a message of the cluster. *)
Definition exposable net (e : RaftEffect) : Prop :=
  match e with
  | SendEffect env => env ∈ n_sent net /\ envelope_fits env /\ env_from env = x
  | PersistEffect _ _ => False
  | _ => True
  end.

Lemma send_common net h env encoded :
  common net h -> env ∈ n_sent net -> envelope_fits env -> env_from env = x ->
  Codec.encode_message (env_message env) limits = Codec.success encoded ->
  common net (set_nh_tcp (tcp_send (env_to env) encoded (nh_tcp h)).2 h).
Proof.
  intros [] Hs Hf Hx Henc. constructor; simpl; [done|..].
  - intros to bs Hin. rewrite law_send in Hin. case_match; auto.
    apply elem_of_app in Hin as [?|Hin%list_elem_of_singleton]; [auto|]. simplify_eq.
    exists env. by split_and!.
  - intros e He%law_send_may. auto.
Qed.

Lemma active_tcp net h g es t :
  common net (set_nh_tcp t h) -> active net h g es -> active net (set_nh_tcp t h) g es.
Proof. intros Hc []. by constructor. Qed.

Lemma dispatch_exposable net h g es e :
  cluster raft_config ms net -> active net h g es -> nh_running h = true -> exposable net e ->
  (active net (dispatch_effect e h) g es /\ nh_running (dispatch_effect e h) = true) \/
  exists net', cluster raft_config ms net' /\ moved x net net' /\ failed_host net' (dispatch_effect e h).
Proof.
  intros Hc Ha Hr He. pose proof (ac_common _ _ _ _ Ha) as Hcm. destruct e as [|env|req|r|r]; simpl in *; [done|..].
  - destruct He as (Hs & Hf & Hx). unfold send_effect. rewrite (cm_config _ _ Hcm). fold limits.
    destruct (Codec.encode_message (env_message env) limits) as [encoded|err off] eqn:Henc.
    + pose proof (send_common net h env encoded Hcm Hs Hf Hx Henc) as Hcm'.
      destruct (tcp_send (env_to env) encoded (nh_tcp h)) as [r t] eqn:Hsend. simpl in Hcm'. left. split; [|done].
      eapply (active_core _ (set_nh_tcp t h)); [done|]. by apply active_tcp.
    + right. apply fail_transport_failed; [done|]. eapply active_live; [|done].
      by eapply (active_core _ h).
  - left. pose proof (schedule_timer_core req h) as Hcore. split; [by eapply active_core|].
    unfold core in Hcore. congruence.
  - left. pose proof (reply_effect_core r h) as Hcore. split; [by eapply active_core|].
    unfold core in Hcore. congruence.
  - left. pose proof (trace_effect_core r h) as Hcore. split; [by eapply active_core|].
    unfold core in Hcore. congruence.
Qed.

(** The owner hands a batch to the worker. *)
Lemma enqueue_works group w m evs op b g :
  works group w m evs [(op, b)] g ->
  works group (set_sw_tasks (sw_tasks w ++ [mkStorageTask op b]) w) m evs [] g.
Proof.
  intros []. set (w' := set_sw_tasks _ w).
  assert (Hsub : claims w' evs [] ⊆+ claims w evs [(op, b)]).
  { unfold claims. simpl. rewrite fmap_app, app_nil_r, <- !app_assoc. simpl.
    apply Permutation_submseteq. solve_Permutation. }
  destruct (claimed_sub _ _ _ wk_claims Hsub) as [Hcl Hhope].
  assert (Htodo : todo w' ++ [] = todo w ++ [(op, b)]).
  { unfold todo. simpl. by rewrite fmap_app, app_nil_r, <- app_assoc. }
  constructor; try done.
  - by rewrite Htodo.
  - intros Hh. rewrite Htodo. apply wk_eq. by rewrite <- (Hhope Hh).
Qed.

(** A batch that is not accepted is lost, with or without a report. *)
Lemma reject_works group w m evs op b g :
  works group w m evs [(op, b)] g ->
  works group w m evs [] g /\
  (group = false -> forall err, works group w m (StorageComplete op false err :: evs) [] g).
Proof.
  intros [].
  assert (Hsub : claims w evs [] ⊆+ claims w evs [(op, b)]).
  { unfold claims. simpl. rewrite app_nil_r. do 3 (apply submseteq_app; [done|]).
    apply submseteq_inserts_r. done. }
  assert (Hone : claims w evs [(op, b)] = [(op, true)] /\ claims w evs [] = []).
  { unfold claims in *. simpl in *. rewrite app_nil_r. rewrite !app_assoc in *.
    destruct wk_claims as [Hn|(q & ok & _ & Hn)]; [by apply app_nil in Hn as [_ ?]|].
    apply (app_inj_tail _ []) in Hn as [Hn _]. rewrite Hn. done. }
  destruct Hone as [Hone Hnil]. destruct (claimed_sub _ _ _ wk_claims Hsub) as [Hcl Hhope].
  apply Forall_app in wk_todo as [Hfit _]. split.
  - constructor; try done; [by rewrite app_nil_r|]. intros Hh. specialize (Hhope Hh). by rewrite Hone, Hnil in Hhope.
  - intros Hg err.
    assert (Hcl' : claims w (StorageComplete op false err :: evs) [] = [(op, false)]).
    { unfold claims in *. simpl in *. rewrite app_nil_r in *. rewrite !app_assoc in *.
      apply app_nil in Hnil as [Hnil Hev]. rewrite Hnil. simpl. f_equal. exact Hev. }
    rewrite Hone in wk_claims. destruct wk_claims as [?|(q & ok & Hq & [= -> _])]; [done|].
    constructor; try done; rewrite ?Hcl'; try done.
    + right. by exists q, false.
    + by rewrite app_nil_r.
    + intros [?|[o ?]]; congruence.
    + constructor; [done|]. done.
Qed.

(** The host goes on with the effects [es] left, or has failed; what was flushed
    stays so. *)
Definition onward net h (g0 : Ghost) es : Prop :=
  exists net', cluster raft_config ms net' /\ moved x net net' /\
    ((exists g, active net' h g es /\ nh_running h = true /\ g_top g = g_top g0 /\
       g_flushed g0 <= g_flushed g) \/ failed_host net' h).

Lemma onward_failed net h g0 es :
  (exists net', cluster raft_config ms net' /\ moved x net net' /\ failed_host net' h) ->
  onward net h g0 es.
Proof. intros (net' & ? & ? & ?). exists net'. auto. Qed.

Lemma onward_from net net' h g0 g1 es :
  moved x net net' -> g_top g1 = g_top g0 -> g_flushed g0 <= g_flushed g1 ->
  onward net' h g1 es -> onward net h g0 es.
Proof.
  intros Hm Ht Hf (net2 & ? & ? & Hcase). exists net2. split_and!; [done|by eapply moved_trans|].
  destruct Hcase as [(g & ? & ? & ? & ?)|?]; [left|by right]. exists g. split_and!; [done..|congruence|lia].
Qed.

Lemma onward_stays net h g es :
  cluster raft_config ms net -> active net h g es -> nh_running h = true -> onward net h g es.
Proof. intros. exists net. split_and!; [done|apply moved_refl|left]. exists g. split_and!; [done..|lia]. Qed.

Lemma persist_onward net h g op b es :
  cluster raft_config ms net -> active net h g (PersistEffect op b :: es) -> nh_running h = true ->
  persists es = [] -> onward net (persist_effect op b h) g es.
Proof.
  intros Hc Ha Hr Hp. unfold persist_effect.
  destruct (lock_worker_active net (count storage_submitted 1 h) g (PersistEffect op b :: es) Hc)
    as (net1 & g1 & Hc1 & Hfo & Ha1); [by apply (active_core _ h)|].
  set (h1 := lock_worker (count storage_submitted 1 h)) in *.
  assert (Hr1 : nh_running h1 = true) by done.
  apply (onward_from _ net1 _ _ g1); [apply Hfo..|].
  assert (Hone : persists (PersistEffect op b :: es) = [(op, b)]).
  { unfold persists in *. simpl. f_equal. exact Hp. }
  pose proof (ac_tracked _ _ _ _ Ha1) as [Htr Hw]. rewrite Hone in Hw.
  assert (Hgo : forall w evs, sw_wal w = sw_wal (nh_storage h1) ->
    works grouped w (nh_raft h1) evs [] g1 -> Forall (event_fine net1) evs ->
    active net1 (set_nh_owner_events evs (set_nh_storage w h1)) g1 es).
  { intros w evs Hwal Hw' Hev. destruct Ha1. apply Forall_cons in ac_effects0 as [_ ?].
    constructor; simpl; try done.
    - by apply (common_same _ h1).
    - rewrite Hp. split; [by rewrite Hwal|done]. }
  destruct (reject_works _ _ _ _ _ _ _ Hw) as [Hrej Hrep].
  unfold enqueue. destruct (negb (sw_started _) || _ || _ || _); cbn [eq_accepted eq_queue_depth].
  - set (h2 := count storage_errors 1 (high_water _ _ (set_nh_storage (nh_storage h1) h1))).
    pose proof (Hgo (nh_storage h1) (nh_owner_events h1) eq_refl Hrej (ac_events _ _ _ _ Ha1)) as Ha2.
    assert (Hcfg : nh_config h2 = hcfg x) by (apply (ac_common _ _ _ _ Ha1)).
    rewrite Hcfg. fold grouped. destruct grouped eqn:Hg.
    + apply onward_failed, fail_group_failed; [done|]. eapply active_live; [|done].
      eapply active_core; [|exact Ha2]. done.
    + case_match.
      * apply onward_stays; [done| |done].
        eapply active_core; [|apply (Hgo (nh_storage h1)); [done|by apply Hrep|]]; [done|].
        constructor; [done|apply Ha1].
      * apply onward_stays; [done| |done].
        eapply active_core; [|exact Ha2]. done.
  - apply onward_stays; [done| |done].
    eapply active_core; [|apply (Hgo (set_sw_tasks (sw_tasks (nh_storage h1) ++ [mkStorageTask op b])
      (nh_storage h1)) (nh_owner_events h1)); [done|by apply enqueue_works|apply Ha1]]. done.
Qed.

(** When the gate is open, nothing is ahead of the disk. *)
Lemma open_gate_exposable net h g e es :
  active net h g (e :: es) -> nh_running h = true -> is_persist e = false ->
  (grouped = true -> nh_group_barrier_active h = false) -> exposable net e.
Proof.
  intros Ha Hr Hp Hgate. pose proof (ac_effects _ _ _ _ Ha) as He. apply Forall_cons in He as [He _].
  destruct e as [|env| | |]; simpl in *; try done. destruct He as (Hf & Hx & Hs). split_and!; [|done..].
  destruct Hs as [?|Hout]; [done|]. exfalso. destruct (ac_tracked _ _ _ _ Ha) as [Htr Hw].
  destruct grouped eqn:Hg.
  - destruct (ac_gate _ _ _ _ Ha Hg (ac_running _ _ _ _ Ha Hr)) as (Hl & Hd & Hb).
    rewrite (Hgate eq_refl) in Hb. symmetry in Hb. apply N.ltb_ge in Hb.
    pose proof (tr_tags _ _ _ _ _ _ _ Htr) as Ht. rewrite Forall_forall in Ht.
    specialize (Ht _ Hout). simpl in Ht. lia.
  - destruct (wk_plain _ _ _ _ _ _ Hw eq_refl) as [Ho _]. pose proof (tr_eager _ _ _ _ _ _ _ Htr) as Hea.
    rewrite Ho in Hea. destruct Hea as (_ & Hnil & _). rewrite Hnil in Hout. by apply not_elem_of_nil in Hout.
Qed.

Lemma handle_effect_onward net h g e es dep :
  cluster raft_config ms net -> active net h g (e :: es) -> nh_running h = true ->
  (length (persists (e :: es)) <= 1)%nat -> (grouped = true -> dep = g_top g) ->
  onward net (handle_effect dep e h) g es.
Proof.
  intros Hc Ha Hr Hlen Hdep. unfold handle_effect.
  rewrite (cm_config _ _ (ac_common _ _ _ _ Ha)). fold grouped.
  destruct (is_persist e) eqn:Hp.
  { rewrite andb_false_r. destruct e; try done. apply (persist_onward _ _ g); try done.
    change (length ((op_id, batch) :: persists es) <= 1)%nat in Hlen.
    destruct (persists es); [done|simpl in Hlen; lia]. }
  rewrite andb_true_r. destruct (grouped && nh_group_barrier_active h) eqn:Hgb.
  - apply andb_true_iff in Hgb as [Hg Hb]. case_match.
    + apply onward_failed, fail_group_failed; [done|]. eapply active_live; [|done].
      by eapply (active_core _ h).
    + apply onward_stays; [done| |done].
      pose proof (ac_effects _ _ _ _ Ha) as He. apply Forall_cons in He as [He _].
      pose proof (active_tail _ _ _ _ _ Hp Ha) as []. constructor; simpl; try done.
      * by apply (common_same _ h).
      * apply Forall_app. split; [done|]. constructor; [|done]. unfold quarantine_ok. simpl.
        rewrite (Hdep Hg). by destruct e.
  - destruct (dispatch_exposable net h g es e Hc) as [[Ha' Hr']|Hf]; [by eapply active_tail|done| | |].
    + eapply open_gate_exposable; [done..|]. intros Hg. rewrite Hg in Hgb. done.
    + by apply onward_stays.
    + by apply onward_failed.
Qed.

Lemma handle_each_onward es net h g dep :
  cluster raft_config ms net -> active net h g es -> nh_running h = true ->
  (length (persists es) <= 1)%nat -> (grouped = true -> dep = g_top g) ->
  onward net (handle_each dep es h) g [].
Proof.
  revert net h g. induction es as [|e es IH]; intros net h g Hc Ha Hr Hlen Hdep; simpl.
  { by apply onward_stays. }
  destruct (handle_effect_onward net h g e es dep Hc Ha Hr Hlen Hdep)
    as (net1 & Hc1 & Hm1 & [(g1 & Ha1 & Hr1 & Ht1 & Hf1)|Hf]).
  - generalize dependent (handle_effect dep e h). intros h1 Ha1 Hr1.
    rewrite Hr1. apply (onward_from _ net1 _ _ g1); [done..|]. apply IH; [done..| |by rewrite Ht1].
    destruct e; try exact Hlen. change (length ((op_id, batch) :: persists es) <= 1)%nat in Hlen.
    simpl in Hlen. lia.
  - destruct Hf as [He Hev]. rewrite (en_running _ _ He). exists net1. split_and!; [done..|]. by right.
Qed.

End owner.
