(* ===== verification/HostNode.v ===== *)
(** * HostNode: the owner thread calls its node

    [step_raft], the storage notices and the rest of [poll_once] keep the invariant
    of [HostOwner]. *)

From S2P Require Import Prelude Model StateMachine RaftTypes Raft RaftSpec RaftRefine RaftReplicate RaftElection RaftAppend RaftStep System SystemFrame SystemSteps SystemLog SystemSafety Deployment ClusterSafety RaftTyped RaftOps.
From S2P Require Codec CodecTheorems.
From S2P Require Import Bytes CodecPayloads Wal WalFormat WalFrames WalRecovery WalScan WalFile WalDurability TcpTypes HostTypes HostWorker NodeHost HostAhead HostTrack HostStep HostOwner.
#[local] Open Scope N_scope.

Section node.
Context {W T : Type} `{TransportLaws W T}.
Context (hcfg : NodeId -> NodeHostConfig) (ms : list NodeId) (x : NodeId).
Abbreviation Host := (HostImpl T).
Abbreviation raft_config := (raft_config hcfg).
Abbreviation node_config := (node_config hcfg x).
Abbreviation grouped := (grouped hcfg x).
Abbreviation wal_setup := (wal_setup hcfg x).
Abbreviation common := (common hcfg x).
Abbreviation active := (active hcfg x).
Abbreviation dying := (dying hcfg x).
Abbreviation ended := (ended hcfg x).
Abbreviation failed_host := (failed_host hcfg x).
Implicit Types (h : Host) (net : Net) (g : Ghost) (es : list RaftEffect).

Context (Hids : Forall u32 (members node_config)) (Hself : RaftTypes.node_id (raft_config x) = x).

(** A running host, and a host after a call; the operations up to [f] are flushed. *)
Definition runs (f : StorageOpId) net h : Prop :=
  (exists g, active net h g [] /\ f <= g_flushed g) \/ dying net h.
Definition carries_on (f : StorageOpId) net h : Prop :=
  exists net', cluster raft_config ms net' /\ moved x net net' /\
    ((runs f net' h /\ nh_running h = true) \/ failed_host net' h).

Lemma carries_moved f net net' h : moved x net net' -> carries_on f net' h -> carries_on f net h.
Proof.
  intros Hm (net2 & ? & ? & ?). exists net2. split_and!; [done|by eapply moved_trans|done].
Qed.

Lemma carries_failed f net h :
  (exists net', cluster raft_config ms net' /\ moved x net net' /\ failed_host net' h) -> carries_on f net h.
Proof. intros (net' & ? & ? & ?). exists net'. auto. Qed.

Lemma carries_runs f net h :
  cluster raft_config ms net -> runs f net h -> nh_running h = true -> carries_on f net h.
Proof. intros. exists net. split_and!; [done|apply moved_refl|auto]. Qed.

(** ** Effects *)

Lemma refresh_core h : core (refresh_published_status h) = core h.
Proof. unfold refresh_published_status. by case_match. Qed.

Lemma depths_core h : core (record_queue_depths h) = core h.
Proof. done. Qed.

Lemma core_running h h' : core h' = core h -> nh_running h' = nh_running h.
Proof. unfold core. congruence. Qed.

Lemma core_runs f net h h' : core h' = core h -> runs f net h -> runs f net h'.
Proof.
  intros Hcore [(g & Ha & Hf)|Hd]; [left; exists g; split; [by eapply active_core|done]|right; by eapply dying_core].
Qed.

Lemma failed_core net h h' : core h' = core h -> failed_host net h -> failed_host net h'.
Proof.
  unfold core. intros Hcore [He Hev]. injection Hcore as H1 H2 H3 H4 H5 H6 H7 H8 H9 H10 H11 H12.
  split; [|congruence]. by eapply ended_core; [..|exact He].
Qed.

Lemma core_carries f net h h' : core h' = core h -> carries_on f net h -> carries_on f net h'.
Proof.
  intros Hcore (net' & ? & ? & Hcase). exists net'. split_and!; [done..|].
  destruct Hcase as [[? ?]|?]; [left|right; by eapply failed_core].
  split; [by eapply core_runs|]. by rewrite (core_running _ _ Hcore).
Qed.

(** The effects of a call raise the gate and are handled one by one. *)
Lemma handle_effects_carry net h g es :
  cluster raft_config ms net -> nh_running h = true -> (length (persists es) <= 1)%nat ->
  (forall h', core h' = core h -> grouped = false -> active net h' g es) ->
  (grouped = true -> effect_dependency (nh_last_submitted_operation h) es = g_top g) ->
  (grouped = true -> active net (set_nh_group_barrier_active
      (nh_durable_operation_through h <? effect_dependency (nh_last_submitted_operation h) es)
      (set_nh_last_submitted_operation (effect_dependency (nh_last_submitted_operation h) es) h)) g es) ->
  nh_config h = hcfg x ->
  (grouped = true -> nh_durable_operation_through h <= nh_last_submitted_operation h /\
     nh_group_barrier_active h = (nh_durable_operation_through h <? nh_last_submitted_operation h)) ->
  carries_on (g_flushed g) net (handle_effects es h).
Proof.
  intros Hc Hr Hlen Hplain Htop Hgroup Hcfg Hbar. unfold handle_effects. rewrite Hcfg.
  change (gc_enabled (hc_group_commit (hcfg x))) with grouped.
  set (dep := if grouped then effect_dependency (nh_last_submitted_operation h) es
              else nh_last_submitted_operation h).
  set (h1 := if grouped && _ then _ else _).
  assert (Ha : active net h1 g es /\ nh_running h1 = true).
  { unfold h1, dep. destruct grouped; simpl; [|by split; [apply Hplain|]].
    specialize (Hgroup eq_refl). destruct (Hbar eq_refl) as [Hle Hb].
    destruct (nh_last_submitted_operation h <? effect_dependency _ _) eqn:Hlt; (split; [|done]); (eapply active_core; [|exact Hgroup]); unfold core; simpl.
    - apply N.ltb_lt in Hlt. assert ((nh_durable_operation_through h <?
        effect_dependency (nh_last_submitted_operation h) es) = true) as -> by (apply N.ltb_lt; lia). done.
    - apply N.ltb_ge in Hlt. pose proof (dependency_ge (nh_last_submitted_operation h) es).
      assert (effect_dependency (nh_last_submitted_operation h) es = nh_last_submitted_operation h) as -> by lia.
      by rewrite Hb. }
  destruct Ha as [Ha Hr1].
  destruct (handle_each_onward hcfg ms x es net h1 g dep) as (net' & Hc' & Hm & Hcase); [done..| |].
  { intros Hg. unfold dep. rewrite Hg. auto. }
  eapply core_carries; [by rewrite depths_core, refresh_core|]. exists net'. split_and!; [done..|].
  destruct Hcase as [(g' & ? & ? & _ & ?)|?]; [left|by right]. split; [|done]. left. by exists g'.
Qed.


(** ** Calls of the node *)

(** The head of the queue is in the owner's hands. *)
Definition holding (ev : RaftEvent) h : Host := set_nh_owner_events (ev :: nh_owner_events h) h.

Lemma raft_call_frame net h g g' net' m' evs es :
  active net (set_nh_owner_events evs h) g [] -> onto x net net' g g' es ->
  call_facts node_config net m' es g ->
  tracked x node_config wal_setup grouped m' (nh_owner_events h) (persists es) net' (nh_storage h) g' ->
  Forall (event_fine net) (nh_owner_events h) ->
  forall h', nh_config h' = nh_config h -> nh_tcp h' = nh_tcp h -> nh_raft h' = m' ->
    nh_storage h' = nh_storage h -> nh_owner_events h' = nh_owner_events h ->
    nh_client_queue h' = nh_client_queue h -> nh_quarantined_effects h' = nh_quarantined_effects h ->
    nh_running h' = nh_running h -> nh_started h' = nh_started h ->
    (grouped = true -> nh_started h' = true -> gate g' h') -> active net' h' g' es.
Proof.
  intros [] Hon Hf Ht Hev h' H1 H2 H3 H4 H5 H6 H7 H8 H9 Hg. simpl in *.
  assert (Hm : moved x net net') by apply Hon.
  constructor; rewrite ?H1, ?H2, ?H3, ?H4, ?H5, ?H6, ?H7, ?H8, ?H9; try done.
  - apply (common_same _ _ _ h); [done..|]. apply (common_same _ _ _ _ h) in ac_common; [|done..].
    by eapply common_moved.
  - by eapply fine_moved.
  - eapply Forall_impl; [exact ac_quarantine|]. intros [dep []]; unfold quarantine_ok; simpl; try done.
    intros (? & ? & Hs). split_and!; [done..|]. destruct Hs as [Hs|Hs]; [left; by eapply moved_sent|].
    by apply (on_out _ _ _ _ _ _ Hon).
  - apply Forall_forall. intros e He. destruct e as [|env| | |]; try done. simpl.
    assert (Hs : env ∈ sends es). { apply list_elem_of_omap. by exists (SendEffect env). }
    pose proof (cf_from _ _ _ _ _ Hf) as Hfrom. rewrite Forall_forall in Hfrom.
    destruct (Hfrom env Hs) as [Hx Hfit]. split_and!; [done|by rewrite Hx|].
    by apply (on_sends _ _ _ _ _ _ Hon).
  - intros ? ?. apply Hg; congruence.
Qed.

Lemma step_returns sent ev s :
  sound node_config sent s -> event_ok (fun e => e ∈ sent) ev -> exists s' es, step ev s = Returns (tt, s', es).
Proof.
  intros [Hi _] Hok. pose proof (step_refines ev _ Hi Hok) as Hw. unfold wps, wp in Hw.
  destruct (step ev s) as [[[[] s'] es]|]; [by exists s', es|done].
Qed.

Lemma step_raft_eq ev h m' es :
  step ev (nh_raft h) = Returns (tt, m', es) ->
  step_raft ev h = (inr tt, handle_effects es (set_nh_raft m' h)).
Proof. intros Hst. unfold step_raft, call_bind, raft_call. by rewrite Hst. Qed.

(** Effects that neither send nor write. *)
Lemma silent_each dep es h :
  gc_enabled (hc_group_commit (nh_config h)) = false -> sends es = [] -> persists es = [] ->
  core (handle_each dep es h) = core h.
Proof.
  revert h. induction es as [|e es IH]; intros h Hg Hs Hp; simpl; [done|].
  assert (Hcore : core (handle_effect dep e h) = core h).
  { unfold handle_effect. rewrite Hg. simpl. destruct e; try done; simpl.
    - apply schedule_timer_core.
    - apply reply_effect_core.
    - apply trace_effect_core. }
  case_match; [|done]. destruct e; try done; rewrite IH; try done; unfold core in Hcore; congruence.
Qed.

Lemma silent_effects es h :
  gc_enabled (hc_group_commit (nh_config h)) = false -> sends es = [] -> persists es = [] ->
  core (handle_effects es h) = core h.
Proof.
  intros Hg Hs Hp. unfold handle_effects. rewrite depths_core, refresh_core, Hg. simpl.
  by apply silent_each.
Qed.

Lemma dying_mode net h : dying net h -> gc_enabled (hc_group_commit (nh_config h)) = false.
Proof. intros Hd. rewrite (cm_config _ _ _ _ (dy_common _ _ _ _ Hd)). apply Hd. Qed.

(** A dead node takes any event. *)
Lemma step_raft_dying net h ev :
  dying net h -> event_fine net ev ->
  exists h', step_raft ev h = (inr tt, h') /\ dying net h' /\ nh_running h' = nh_running h.
Proof.
  intros Hd [Hok Hfit]. destruct (step_returns _ ev _ (dy_sound _ _ _ _ Hd) Hok) as (m' & es & Hst).
  destruct (dead_step node_config Hids _ _ _ _ _ (dy_sound _ _ _ _ Hd) (dy_dead _ _ _ _ Hd) Hok Hfit Hst)
    as (Hs & Hdd & Hse & Hpe).
  exists (handle_effects es (set_nh_raft m' h)). split; [by apply step_raft_eq|].
  pose proof (silent_effects es (set_nh_raft m' h) (dying_mode _ _ Hd) Hse Hpe) as Hcore.
  split; [|by apply core_running in Hcore]. eapply dying_core; [exact Hcore|].
  destruct Hd as [[]]. by constructor.
Qed.

(** The claims left on a dead node's worker. *)
Lemma quiet_worker w evs :
  claims w evs [] = [] -> (forall t, sw_pc w <> pc_flush t) /\ todo w = [].
Proof.
  unfold claims, todo. intros Hc. apply app_nil in Hc as [Hpc Hc]. apply app_nil in Hc as [Ht _].
  apply fmap_nil_inv in Ht. rewrite Ht. destruct (sw_pc w); by split.
Qed.

Lemma step_raft_carries net h g ev :
  cluster raft_config ms net -> active net (holding ev h) g [] -> nh_running h = true ->
  exists h', step_raft ev h = (inr tt, h') /\ carries_on (g_flushed g) net h'.
Proof.
  intros Hc Ha Hr. pose proof Ha as []. simpl in *. apply Forall_cons in ac_events as [Hev Hevs].
  pose proof (tr_sound _ _ _ _ _ _ _ (proj1 ac_tracked)) as Hs.
  destruct (step_returns _ ev _ Hs (proj1 Hev)) as (m' & es & Hst).
  exists (handle_effects es (set_nh_raft m' h)). split; [by apply step_raft_eq|].
  assert (Hcases : (exists op err, ev = StorageComplete op false err) \/
    (forall op err, ev <> StorageComplete op false err)).
  { destruct ev as [| |op [] err|]; [by right..|left; eauto|by right]. }
  destruct Hcases as [(op & err & ->)|Hnf].
  - destruct (failed_tracked x node_config wal_setup Hids _ _ _ _ _ _ _ _ _ _ ac_tracked Hst)
      as (Hg & Hs' & Hdead & Hse & Hpe & Hcl).
    assert (Hcfg : nh_config h = hcfg x) by apply ac_common.
    assert (Hcore : core (handle_effects es (set_nh_raft m' h)) = core (set_nh_raft m' h)).
    { apply silent_effects; [|done..]. simpl. by rewrite Hcfg. }
    apply carries_runs; [done|right|by rewrite (core_running _ _ Hcore)].
    eapply dying_core; [exact Hcore|]. destruct (quiet_worker _ _ Hcl) as [Hfl Htd].
    pose proof (proj2 ac_tracked) as Hw. destruct ac_common.
    constructor; simpl; try done.
    + split_and!; [by rewrite (wk_mode _ _ _ _ _ _ Hw)|done|].
      pose proof (wk_pc _ _ _ _ _ _ Hw) as Hpc. destruct (sw_pc (nh_storage h)) eqn:E; try done.
      * by apply (Hfl t).
      * congruence.
    + exists (nh_raft h), g. apply ac_tracked.
  - assert (Hcase : exists net' g', cluster raft_config ms net' /\ onto x net net' g g' es /\
      tracked x node_config wal_setup grouped m' (nh_owner_events h) (persists es) net' (nh_storage h) g').
    { destruct (is_storage_complete ev) eqn:Hsc.
      - destruct ev as [| |op [] err|]; try done; [|by destruct (Hnf op err)].
        eapply done_tracked; eauto.
      - eapply event_tracked; eauto. }
    destruct Hcase as (net' & g' & Hc' & Hon & Ht).
    pose proof (step_facts x node_config wal_setup Hids _ _ _ _ _ _ _ (proj1 ac_tracked) Hev Hst) as Hf.
    eapply carries_moved; [apply Hon|]. rewrite <- (on_flushed _ _ _ _ _ _ Hon).
    pose proof (raft_call_frame _ _ _ _ _ _ _ _ Ha Hon Hf Ht Hevs) as Hframe.
    eapply (handle_effects_carry net' _ g'); try done.
    + apply Hf.
    + intros h' Hcore Hg. unfold core in Hcore. simpl in Hcore. injection Hcore as E1 E2 E3 E4 E5 E6 E7 E8 E9 E10 E11 E12.
      apply Hframe; try done. congruence.
    + intros Hg. destruct (ac_gate Hg) as (Hl & _ & _); [by apply ac_running|]. simpl in Hl. simpl. rewrite Hl.
      by rewrite (on_top _ _ _ _ _ _ Hon).
    + intros Hg. destruct (ac_gate Hg) as (Hl & Hd & _); [by apply ac_running|]. simpl in Hl, Hd.
      apply Hframe; try done. intros _ _. unfold gate. simpl. rewrite Hl.
      split_and!; [by rewrite (on_top _ _ _ _ _ _ Hon)|by rewrite (on_flushed _ _ _ _ _ _ Hon)|done].
    + apply ac_common.
    + intros Hg. destruct (ac_gate Hg) as (Hl & Hd & Hb); [by apply ac_running|]. simpl in *. split; [|done].
      destruct (tr_below _ _ _ _ _ _ _ (proj1 ac_tracked)) as [_ Hle]. lia.
Qed.

End node.
