(* ===== verification/HostNotices.v ===== *)
(** * HostNotices: the owner thread takes in the reports of its storage worker

    The quarantine is released only as far as the log is flushed, and each
    completion reaches the node once. *)

From S2P Require Import Prelude Model StateMachine RaftTypes Raft RaftSpec RaftRefine RaftReplicate RaftElection RaftAppend RaftStep System SystemFrame SystemSteps SystemLog SystemSafety Deployment ClusterSafety RaftTyped RaftOps.
From S2P Require Codec CodecTheorems.
From S2P Require Import Bytes CodecPayloads Wal WalFormat WalFrames WalRecovery WalScan WalFile WalDurability TcpTypes HostTypes HostWorker NodeHost HostAhead HostTrack HostStep HostOwner HostNode.
#[local] Open Scope N_scope.

Section notices.
Context {W T : Type} `{TransportLaws W T}.
Context (hcfg : NodeId -> NodeHostConfig) (ms : list NodeId) (x : NodeId).
Abbreviation Host := (HostImpl T).
Abbreviation raft_config := (raft_config hcfg).
Abbreviation node_config := (node_config hcfg x).
Abbreviation grouped := (grouped hcfg x).
Abbreviation wal_setup := (wal_setup hcfg x).
Abbreviation common := (common hcfg x).
Abbreviation active := (active hcfg x).
Abbreviation dying := (dying hcfg x).
Abbreviation ended := (ended hcfg x).
Abbreviation failed_host := (failed_host hcfg x).
Abbreviation runs := (runs hcfg x).
Abbreviation carries_on := (carries_on hcfg ms x).
Implicit Types (h : Host) (net : Net) (g : Ghost) (es : list RaftEffect).

Context (Hids : Forall u32 (members node_config)) (Hself : RaftTypes.node_id (raft_config x) = x).

(** ** Opening the gate *)

(** The owner's queue and the flag of the barrier, which the release of effects
    does not look at. *)
Definition dress (b : bool) (evs : list RaftEvent) h : Host :=
  set_nh_group_barrier_active b (set_nh_owner_events evs h).

Lemma reply_unavailable_events tokens evs h :
  reply_unavailable tokens (set_nh_owner_events evs h) =
  set_nh_owner_events evs (reply_unavailable tokens h).
Proof.
  revert h. induction tokens as [|t ts IH]; intros h; simpl; [done|]. case_match; [done|].
  by rewrite <- IH.
Qed.

Lemma fail_transport_dress b evs h :
  nh_running h = true -> fail_transport (dress b evs h) = fail_transport h.
Proof.
  intros Hr. unfold fail_transport. simpl. rewrite Hr. cbn [negb].
  match goal with |- context [reply_unavailable ?l (set_nh_published_status ?p ?k)] =>
    replace (reply_unavailable l (set_nh_published_status p k)) with
      (set_nh_owner_events evs (reply_unavailable l (set_nh_published_status p
        (set_nh_group_barrier_active false (set_nh_quarantined_effects []
          (set_nh_running false (set_nh_fatal_error true h)))))))
      by (rewrite <- reply_unavailable_events; done) end.
  done.
Qed.

Lemma fail_transport_stops h : nh_running (fail_transport h) = false.
Proof.
  unfold fail_transport. destruct (nh_running h) eqn:Hr; simpl; [|done].
  match goal with |- context [reply_unavailable ?l ?k] => pose proof (reply_unavailable_core l k) as Hc end.
  apply core_running in Hc. by rewrite Hc.
Qed.

Lemma dispatch_dress e b evs h :
  nh_running h = true -> is_persist e = false ->
  (nh_running (dispatch_effect e h) = true /\
   dispatch_effect e (dress b evs h) = dress b evs (dispatch_effect e h)) \/
  (nh_running (dispatch_effect e h) = false /\
   dispatch_effect e (dress b evs h) = dispatch_effect e h).
Proof.
  intros Hr Hp. destruct e as [|env|req|r|r]; [done|..]; simpl.
  - unfold send_effect. change (nh_config (dress b evs h)) with (nh_config h).
    destruct (Codec.encode_message _ _) as [encoded|]; [left|right].
    + change (nh_tcp (dress b evs h)) with (nh_tcp h). by destruct (tcp_send _ _ _).
    + split; [apply fail_transport_stops|].
      by rewrite <- (fail_transport_dress b evs (count tcp_error_drops 1 h)).
  - left. unfold schedule_timer, timer_deadline, timer_ticks, election_jitter, read_clock. simpl.
    by destruct (tr_kind req), (hc_election_jitter (nh_config h) =? 0).
  - left. unfold reply_effect. simpl. by case_match.
  - left. unfold trace_effect. simpl. by case_match.
Qed.

(** What [dispatch_effect] leaves alone. *)
Lemma dispatch_gate e h :
  is_persist e = false -> nh_running (dispatch_effect e h) = true ->
  nh_durable_operation_through (dispatch_effect e h) = nh_durable_operation_through h /\
  nh_last_submitted_operation (dispatch_effect e h) = nh_last_submitted_operation h /\
  nh_owner_events (dispatch_effect e h) = nh_owner_events h.
Proof.
  intros Hp. destruct e as [|env|req|r|r]; [done|..]; simpl.
  - unfold send_effect. destruct (Codec.encode_message _ _) as [encoded|].
    + by destruct (tcp_send _ _ _).
    + by rewrite fail_transport_stops.
  - intros _. pose proof (schedule_timer_core req h) as Hc. unfold core in Hc. by injection Hc.
  - intros _. pose proof (reply_effect_core r h) as Hc. unfold core in Hc. by injection Hc.
  - intros _. pose proof (trace_effect_core r h) as Hc. unfold core in Hc. by injection Hc.
Qed.

(** A quarantined effect whose operation is flushed may be shown. *)
Lemma flushed_exposable net h g q :
  active net h g [] -> quarantine_ok x net g q -> qe_durability_dependency q <= g_flushed g ->
  exposable x net (qe_effect q) /\ is_persist (qe_effect q) = false.
Proof.
  intros Ha Hq Hle. destruct q as [dep [|env| | |]]; unfold quarantine_ok in Hq; simpl in *; try done.
  split; [|done]. destruct Hq as (Hf & Hx & Hs). split_and!; [|done..].
  destruct Hs as [?|Hout]; [done|]. destruct (ac_tracked _ _ _ _ _ _ Ha) as [Htr _].
  pose proof (tr_tags _ _ _ _ _ _ _ Htr) as Ht. rewrite Forall_forall in Ht. specialize (Ht _ Hout). simpl in Ht. lia.
Qed.

Lemma release_active net g b evs held waiting h :
  cluster raft_config ms net -> active net (dress b evs h) g [] -> nh_running h = true ->
  nh_durable_operation_through h <= g_flushed g ->
  Forall (quarantine_ok x net g) held -> Forall (quarantine_ok x net g) waiting ->
  let r := release held waiting h in
  (active net (dress b evs r.2) g [] /\ nh_running r.2 = true /\ Forall (quarantine_ok x net g) r.1 /\
   nh_durable_operation_through r.2 = nh_durable_operation_through h /\
   nh_last_submitted_operation r.2 = nh_last_submitted_operation h /\
   nh_owner_events r.2 = nh_owner_events h) \/
  exists net', cluster raft_config ms net' /\ moved x net net' /\ failed_host net' r.2.
Proof.
  revert waiting h. induction held as [|q held IH]; intros waiting h Hc Ha Hr Hd Hh Hw; cbn [release].
  { left. by split_and!. }
  apply Forall_cons in Hh as [Hq Hh].
  destruct (qe_durability_dependency q <=? nh_durable_operation_through h) eqn:Hle.
  - apply N.leb_le in Hle.
    destruct (flushed_exposable net _ g q Ha Hq ltac:(lia)) as [He Hp].
    destruct (dispatch_exposable hcfg ms x net (dress b evs h) g [] (qe_effect q) Hc Ha Hr He)
      as [[Ha' Hr']|Hf].
    + destruct (dispatch_dress _ b evs h Hr Hp) as [[Hrun Heq]|[Hrun Heq]]; [|congruence].
      destruct (dispatch_gate _ h Hp Hrun) as (Hd1 & Hd2 & Hd3). rewrite Hrun. rewrite Heq in Ha'.
      destruct (IH waiting _ Hc Ha' Hrun ltac:(congruence) Hh Hw) as [(? & ? & ? & E1 & E2 & E3)|?]; [left|by right].
      split_and!; [done..|congruence|congruence|congruence].
    + right. destruct Hf as (net' & ? & ? & Hf).
      destruct (dispatch_dress _ b evs h Hr Hp) as [[Hrun Heq]|[Hrun Heq]]; rewrite Heq in Hf.
      * pose proof (en_running _ _ _ _ (proj1 Hf)) as Hbad. change (nh_running (dispatch_effect (qe_effect q) h) = false) in Hbad.
        congruence.
      * rewrite Hrun. by exists net'.
  - apply IH; try done. apply Forall_app. split; [done|by constructor].
Qed.

Lemma open_barrier_active net h g n evs :
  cluster raft_config ms net -> active net (set_nh_owner_events evs h) g [] -> nh_running h = true ->
  grouped = true -> sn_durable_through n <= g_flushed g ->
  (active net (set_nh_owner_events evs (open_barrier n h)) g [] /\ nh_running (open_barrier n h) = true /\
   nh_owner_events (open_barrier n h) = nh_owner_events h) \/
  exists net', cluster raft_config ms net' /\ moved x net net' /\ failed_host net' (open_barrier n h).
Proof.
  intros Hc Ha Hr Hg Hn. unfold open_barrier. set (h1 := set_nh_durable_operation_through _ _).
  assert (Hm : core (barrier_metrics n h) = core h).
  { unfold barrier_metrics. by destruct (sn_flushed n). }
  pose proof (ac_gate _ _ _ _ _ _ Ha Hg (ac_running _ _ _ _ _ _ Ha Hr)) as (Hl & Hd & Hb). simpl in Hl, Hd, Hb.
  unfold core in Hm. injection Hm as E1 E2 E3 E4 E5 E6 E7 E8 E9 E10 E11 E12.
  assert (Hdur : nh_durable_operation_through h1 <= g_flushed g).
  { unfold h1. simpl. rewrite E11. lia. }
  set (b := nh_durable_operation_through h1 <? nh_last_submitted_operation h1).
  assert (Ha1 : active net (dress b evs h1) g []).
  { destruct Ha. constructor; simpl; rewrite ?E1, ?E2, ?E3, ?E4, ?E5, ?E6, ?E7, ?E8, ?E9; try done.
    - by apply (common_same _ _ _ (set_nh_owner_events evs h)).
    - intros _ _. unfold gate. split_and!; [simpl; congruence|exact Hdur|reflexivity]. }
  assert (Hr1 : nh_running h1 = true) by (unfold h1; simpl; congruence).
  destruct (release_active net g b evs (nh_quarantined_effects h1) [] h1 Hc Ha1 Hr1 Hdur)
    as [(Ha2 & Hr2 & Hq & Hd2 & Hl2 & He2)|(net' & ? & ? & Hf)].
  - apply (ac_quarantine _ _ _ _ _ _ Ha1).
  - constructor.
  - left. destruct (release _ _ h1) as [waiting h2]. simpl in *.
    split_and!; [|done|congruence]. destruct Ha2. constructor; simpl in *; try done.
    + by apply (common_same _ _ _ (dress b evs h2)).
    + intros Hg' Hs. specialize (ac_gate Hg' Hs). unfold gate in *. simpl in *. tauto.
  - right. exists net'. split_and!; [done..|]. destruct (release _ _ h1) as [waiting h2]. simpl in *.
    destruct Hf as [He Hev]. split; [|done]. by eapply ended_core; [..|exact He].
Qed.

(** ** Notices in hand *)

(** The completions that the notices in the owner's hands will report. *)
Definition notice_event (n : StorageNotice) : option RaftEvent :=
  match sn_kind n with
  | nk_staged | nk_complete => Some (completion_event (sn_completion n))
  | nk_barrier => completion_event <$> sn_delayed_completion n
  | nk_failed => None
  end.

Lemma notice_event_claims ns : omap event_claim (omap notice_event ns) = ns ≫= notice_claims.
Proof.
  induction ns as [|n ns IH]; [done|]. rewrite bind_cons, <- IH. cbn [omap list_omap].
  unfold notice_event at 1, notice_claims. destruct (sn_kind n); try done.
  by destruct (sn_delayed_completion n).
Qed.

(** What a host with group commit knows of a notice in hand. *)
Definition in_hand (f : StorageOpId) (n : StorageNotice) : Prop :=
  match sn_kind n with
  | nk_staged => exists op, sn_completion n = success op
  | nk_barrier => sn_durable_through n <= f /\
      match sn_delayed_completion n with Some c => exists op, c = success op | None => True end
  | _ => True
  end.

Lemma in_hand_mono f f' n : f <= f' -> in_hand f n -> in_hand f' n.
Proof. unfold in_hand. destruct (sn_kind n); try done. intros ? [? ?]. split; [lia|done]. Qed.

Lemma step_raft_true net h f ev :
  cluster raft_config ms net -> nh_running h = true ->
  (exists g, active net (holding ev h) g [] /\ f <= g_flushed g) ->
  exists h', step_raft ev h = (inr tt, h') /\ carries_on f net h'.
Proof.
  intros Hc Hr (g & Ha & Hf). destruct (step_raft_carries hcfg ms x Hids Hself net h g ev Hc Ha Hr)
    as (h' & Heq & net' & Hc' & Hm & Hcase). exists h'. split; [done|]. exists net'. split_and!; [done..|].
  destruct Hcase as [[Hruns ?]|?]; [left|by right]. split; [|done]. 
  destruct Hruns as [(g' & ? & ?)|?]; [left|by right]. exists g'. split; [done|lia].
Qed.

(** The host with the notices [ns] in hand. *)
Definition in_hands net g (ns : list StorageNotice) h : Prop :=
  active net (set_nh_owner_events (omap notice_event ns ++ nh_owner_events h) h) g [] /\
  Forall (in_hand (g_flushed g)) ns.

Lemma notice_events_nil ns : ns ≫= notice_claims = [] -> omap notice_event ns = [].
Proof.
  induction ns as [|n ns IH]; [done|]. rewrite bind_cons. intros [Hn Hns]%app_nil. cbn [omap list_omap].
  rewrite (IH Hns). revert Hn. unfold notice_event, notice_claims. destruct (sn_kind n); try done.
  by destruct (sn_delayed_completion n).
Qed.

(** A notice with a completion is the last one with any. *)
Lemma in_hands_event net g n ns h c :
  in_hands net g (n :: ns) h -> notice_event n = Some (completion_event c) ->
  active net (holding (completion_event c) h) g [] /\ omap notice_event ns = [].
Proof.
  intros [Ha _] Hn. cbn [omap list_omap] in Ha. rewrite Hn in Ha. cbn [app] in Ha.
  destruct (ac_tracked _ _ _ _ _ _ Ha) as [_ Hw]. simpl in Hw.
  destruct (report_alone _ _ _ _ _ _ _ _ Hw) as (q & _ & _ & _ & Hnil).
  assert (Hns : omap notice_event ns = []).
  { unfold claims in Hnil. rewrite omap_app, notice_event_claims in Hnil.
    do 3 apply app_nil in Hnil as [_ Hnil]. apply app_nil in Hnil as [Hnil _].
    apply app_nil in Hnil as [Hnil _]. by apply notice_events_nil. }
  split; [|done]. by rewrite Hns in Ha.
Qed.

Lemma in_hands_skip net g n ns h :
  in_hands net g (n :: ns) h -> notice_event n = None -> in_hands net g ns h.
Proof.
  intros [Ha Hh] Hn. apply Forall_cons in Hh as [_ Hh]. cbn [omap list_omap] in Ha.
  rewrite Hn in Ha. by split.
Qed.

Lemma holding_core ev h h' : core h' = core h -> core (holding ev h') = core (holding ev h).
Proof. unfold core, holding. simpl. congruence. Qed.

Lemma in_hands_core net g ns h h' : core h' = core h -> in_hands net g ns h -> in_hands net g ns h'.
Proof.
  intros Hcore [Ha Hh]. split; [|done]. eapply active_core; [|exact Ha]. revert Hcore. unfold core. simpl. congruence.
Qed.

Lemma in_hands_live net g ns h : in_hands net g ns h -> nh_running h = true -> live hcfg x net h.
Proof.
  intros [Ha _] Hr. split_and!; [|done|by apply (ac_running _ _ _ _ _ _ Ha)|left; do 4 eexists; apply Ha].
  eapply common_same; [..|apply Ha]; done.
Qed.

(** What is left after a notice: to go on with the rest, or to return. *)
Definition next_notice net g (ns : list StorageNotice) (over : bool) h : Prop :=
  (over = false /\ exists net' g', cluster raft_config ms net' /\ moved x net net' /\
     g_flushed g <= g_flushed g' /\ in_hands net' g' ns h /\ nh_running h = true) \/
  (over = true /\ exists net', cluster raft_config ms net' /\ moved x net net' /\ failed_host net' h).

(** After a call of the node with the last completion in hand. *)
Lemma next_after_step net g ns h :
  grouped = true -> omap notice_event ns = [] -> Forall (in_hand (g_flushed g)) ns ->
  carries_on (g_flushed g) net h -> next_notice net g ns (negb (nh_running h)) h.
Proof.
  intros Hg Hns Hh (net' & Hc' & Hm & [[Hruns Hr]|Hf]).
  - rewrite Hr. left. split; [done|]. destruct Hruns as [(g' & Ha & Hle)|Hd].
    + exists net', g'. split_and!; [done..| |done]. split.
      * rewrite Hns. simpl. eapply active_core; [|exact Ha]. done.
      * eapply Forall_impl; [exact Hh|]. intros n. by apply in_hand_mono.
    + pose proof (dy_mode _ _ _ _ Hd). congruence.
  - rewrite (en_running _ _ _ _ (proj1 Hf)). right. split; [done|]. by exists net'.
Qed.

Lemma group_notice_next net g n ns h :
  cluster raft_config ms net -> grouped = true -> in_hands net g (n :: ns) h -> nh_running h = true ->
  exists over h', group_notice n h = (inr over, h') /\ next_notice net g ns over h'.
Proof.
  intros Hc Hg Hin Hr. pose proof Hin as [Ha Hh]. apply Forall_cons in Hh as [Hn Hh].
  unfold group_notice, in_hand, call_bind, call_do, call_get, call_ret in *.
  assert (Hfail : exists over h', (inr true, fail_group_storage (count storage_errors 1 h)) = (@inr HostExn _ over, h') /\
    next_notice net g ns over h').
  { do 2 eexists. split; [done|]. right. split; [done|]. apply fail_group_failed; [done|].
    apply (in_hands_live net g (n :: ns)); [|done]. by apply (in_hands_core _ _ _ h). }
  destruct (sn_kind n) eqn:Hk; [done| | |done].
  - destruct (in_hands_event net g n ns h (sn_completion n) Hin) as [Hhold Hns].
    { unfold notice_event. by rewrite Hk. }
    destruct (step_raft_carries hcfg ms x Hids Hself net (count storage_staged_operations 1 h) g
      (completion_event (sn_completion n)) Hc) as (h' & Heq & Hcar); [by apply (active_core _ _ _ (holding (completion_event (sn_completion n)) h))|done|].
    rewrite Heq. do 2 eexists. split; [done|]. by apply next_after_step.
  - destruct Hn as [Hdur Hdel]. unfold complete_group_barrier, call_bind, call_do, call_get, call_ret.
    destruct (open_barrier_active net h g n _ Hc Ha Hr Hg Hdur) as [(Ha1 & Hr1 & He1)|(net' & Hc' & Hm & Hf)].
    + rewrite Hr1. assert (Hin1 : in_hands net g (n :: ns) (open_barrier n h)).
      { split; [by rewrite He1|]. apply Hin. }
      destruct (sn_delayed_completion n) as [c|] eqn:Hd.
      * destruct (in_hands_event net g n ns _ c Hin1) as [Hhold Hns].
        { unfold notice_event. by rewrite Hk, Hd. }
        destruct (step_raft_carries hcfg ms x Hids Hself net (open_barrier n h) g (completion_event c) Hc Hhold Hr1)
          as (h' & Heq & Hcar).
        rewrite Heq. do 2 eexists. split; [done|]. apply next_after_step; try done.
        eapply core_carries; [apply refresh_core|done].
      * do 2 eexists. split; [done|]. rewrite (core_running _ _ (refresh_core _)), Hr1. left. split; [done|].
        exists net, g. split_and!; [done|apply moved_refl|lia| |by rewrite (core_running _ _ (refresh_core _))].
        eapply in_hands_core; [apply refresh_core|]. eapply in_hands_skip; [exact Hin1|].
        unfold notice_event. by rewrite Hk, Hd.
    + pose proof (en_running _ _ _ _ (proj1 Hf)) as Hr1. rewrite Hr1.
      destruct (sn_delayed_completion n); (do 2 eexists; split; [done|]);
        rewrite (core_running _ _ (refresh_core _)), Hr1; right; (split; [done|]); exists net';
        (split_and!; [done..|]); (eapply failed_core; [apply refresh_core|done]).
Qed.

Lemma take_in_group net g ns h :
  cluster raft_config ms net -> grouped = true -> in_hands net g ns h -> nh_running h = true ->
  exists over h', take_in ns h = (inr over, h') /\ next_notice net g [] over h'.
Proof.
  revert net g h. induction ns as [|n ns IH]; intros net g h Hc Hg Hin Hr; cbn [take_in].
  - do 2 eexists. split; [done|]. left. split; [done|]. exists net, g. split_and!; [done|apply moved_refl|lia|done..].
  - unfold call_bind, call_get. assert (Hcfg : nh_config h = hcfg x).
    { apply (in_hands_live net g (n :: ns) h Hin Hr). }
    rewrite Hcfg. change (gc_enabled (hc_group_commit (hcfg x))) with grouped. rewrite Hg.
    destruct (group_notice_next net g n ns h Hc Hg Hin Hr) as (over & h1 & Heq & Hnext). rewrite Heq.
    destruct Hnext as [(-> & net1 & g1 & Hc1 & Hm1 & Hf1 & Hin1 & Hr1)|(-> & net1 & Hc1 & Hm1 & Hf1)].
    + destruct (IH net1 g1 h1 Hc1 Hg Hin1 Hr1) as (over & h2 & Heq2 & Hnext). exists over, h2. split; [done|].
      destruct Hnext as [(-> & net2 & g2 & ? & ? & ? & ? & ?)|(-> & net2 & ? & ? & ?)]; [left|right]; (split; [done|]).
      * exists net2, g2. split_and!; [done|by eapply moved_trans|lia|done..].
      * exists net2. split_and!; [done|by eapply moved_trans|done].
    + do 2 eexists. split; [done|]. right. split; [done|]. by exists net1.
Qed.

(** ** Taking the notices *)

(** Notices move from the worker to the owner's queue. *)
Lemma take_works group w m evs g ns rest evs' :
  works group w m evs [] g -> sw_completions w = ns ++ rest ->
  omap event_claim evs' ≡ₚ (ns ≫= notice_claims) ++ omap event_claim evs ->
  Forall (report_ok group (g_written g)) evs' -> works group (set_sw_completions rest w) m evs' [] g.
Proof.
  intros [] Hns Hperm Hrep. rewrite app_nil_r in *.
  assert (Hsub : claims (set_sw_completions rest w) evs' [] ≡ₚ claims w evs []).
  { unfold claims. simpl. rewrite Hns, bind_app, Hperm, !app_nil_r. solve_Permutation. }
  apply Permutation_submseteq in Hsub. destruct (claimed_sub _ _ _ wk_claims Hsub) as [Hcl Hhope].
  constructor; try done; rewrite ?app_nil_r; try done.
  - intros Hh. apply wk_eq. by rewrite <- (Hhope Hh).
  - unfold notices in *. rewrite Hns in wk_notices. simpl. apply Forall_app in wk_notices as [? Hn].
    apply Forall_app in Hn as [_ ?]. by apply Forall_app.
Qed.

Lemma group_reports g ns :
  Forall (notice_ok true g) ns ->
  Forall (report_ok true (g_written g)) (omap notice_event ns) /\ Forall (in_hand (g_flushed g)) ns.
Proof.
  induction 1 as [|n ns Hn Hns [IH1 IH2]]; [by split; constructor|]. cbn [omap list_omap].
  unfold notice_ok, notice_event, in_hand in *. destruct (sn_kind n) eqn:Hk.
  - by destruct Hn.
  - destruct Hn as [_ [op Hop]]. split; constructor; try done; [|rewrite Hk; eauto].
    rewrite Hop. by split.
  - destruct Hn as (_ & ? & Hd). split; [|constructor; [rewrite Hk|done]].
    + destruct (sn_delayed_completion n); [|done]. simpl. destruct Hd as [_ [op ->]]. by constructor.
    + split; [done|]. destruct (sn_delayed_completion n); [|done]. by destruct Hd.
  - split; [done|]. constructor; [by rewrite Hk|done].
Qed.

(** What a host without group commit queues. *)
Definition report_of (n : StorageNotice) : RaftEvent := completion_event (sn_completion n).

Lemma plain_reports g ns :
  Forall (notice_ok false g) ns ->
  Forall (report_ok false (g_written g)) (report_of <$> ns) /\
  omap event_claim (report_of <$> ns) = ns ≫= notice_claims.
Proof.
  induction 1 as [|n ns Hn Hns [IH1 IH2]]; [by split; constructor|]. rewrite bind_cons, <- IH2.
  unfold notice_ok, notice_claims, report_of in *. destruct (sn_kind n) eqn:Hk; try done; try by destruct Hn.
  destruct Hn as [_ Hs]. split; [|done]. constructor; [|done]. simpl.
  destruct (cp_success (sn_completion n)) eqn:Hok; [|done]. destruct (Hs eq_refl) as [Hw [op ->]]. done.
Qed.

Lemma take_in_plain ns h :
  gc_enabled (hc_group_commit (nh_config h)) = false ->
  exists h', take_in ns h = (inr false, h') /\
    core h' = core (set_nh_owner_events (nh_owner_events h ++ (report_of <$> ns)) h).
Proof.
  revert h. induction ns as [|n ns IH]; intros h Hg; cbn [take_in].
  - exists h. split; [done|]. unfold core. simpl. by rewrite app_nil_r.
  - unfold call_bind, call_get, call_do. rewrite Hg.
    assert (Hcore : core (plain_notice n h) = core (set_nh_owner_events (nh_owner_events h ++ [report_of n]) h)).
    { unfold plain_notice. by destruct (sn_flushed n), (cp_success (sn_completion n)). }
    generalize dependent (plain_notice n h). intros h1 Hcore.
    unfold core in Hcore. simpl in Hcore. injection Hcore as E1 E2 E3 E4 E5 E6 E7 E8 E9 E10 E11 E12.
    destruct (IH h1 ltac:(by rewrite E1)) as (h' & Heq & Hcore'). exists h'. split; [done|]. rewrite Hcore'.
    unfold core. simpl. by rewrite E1, E2, E3, E4, E5, E6, E7, E8, E9, E10, E11, E12, <- app_assoc.
Qed.

(** ** A dead node's worker *)

Lemma dying_storage net h w :
  dying net h -> dead_worker w -> sw_wal w = sw_wal (nh_storage h) -> dying net (set_nh_storage w h).
Proof.
  intros [] Hw E. constructor; simpl; try done; [|by rewrite E]. by apply (common_same _ _ _ h).
Qed.

Lemma lock_worker_dying net h : dying net h -> dying net (lock_worker h).
Proof.
  intros Hd. unfold lock_worker. eapply dying_core; [|eapply (dying_storage net h)];
    [|done|apply dead_worker_steps, Hd..]. done.
Qed.

Lemma dying_push net h evs :
  dying net h -> Forall (event_fine net) evs -> dying net (set_nh_owner_events evs h).
Proof. intros [] He. constructor; simpl; try done. by apply (common_same _ _ _ h). Qed.

End notices.
