(* ===== verification/HostPoll.v ===== *)
(** * HostPoll: the polling loop of a host

    [gather_inputs], [poll_once], [run_for] and the other calls of [NodeHost] keep
    the invariant of [HostOwner]. *)

From S2P Require Import Prelude Model StateMachine RaftTypes Raft RaftSpec RaftRefine RaftReplicate RaftElection RaftAppend RaftStep System SystemFrame SystemSteps SystemLog SystemSafety Deployment ClusterSafety RaftTyped RaftOps.
From S2P Require Codec CodecLemmas CodecTheorems.
From S2P Require Import Bytes CodecPayloads Wal WalFormat WalFrames WalRecovery WalScan WalFile WalDurability TcpTypes HostTypes HostWorker NodeHost HostAhead HostTrack HostStep HostOwner HostNode HostNotices.
#[local] Open Scope N_scope.

(** ** Frames between hosts *)

(** Limits that allow what either of two allows. *)
Definition join_limits (l l' : Codec.Limits) : Codec.Limits :=
  Codec.mkLimits (N.max (Codec.max_frame_bytes l) (Codec.max_frame_bytes l'))
    (N.max (Codec.max_key_bytes l) (Codec.max_key_bytes l'))
    (N.max (Codec.max_value_bytes l) (Codec.max_value_bytes l'))
    (N.max (Codec.max_entries_per_append l) (Codec.max_entries_per_append l')).

Definition limits_le (l l' : Codec.Limits) : Prop :=
  Codec.max_frame_bytes l <= Codec.max_frame_bytes l' /\ Codec.max_key_bytes l <= Codec.max_key_bytes l' /\
  Codec.max_value_bytes l <= Codec.max_value_bytes l' /\
  Codec.max_entries_per_append l <= Codec.max_entries_per_append l'.

Lemma message_valid_mono l l' m : limits_le l l' -> message_valid l m -> message_valid l' m.
Proof.
  intros (_ & Hk & Hv & He). destruct m; simpl; try done. unfold append_valid.
  intros (? & ? & ? & ? & ? & ? & Hes). split_and!; try done; [lia|].
  eapply Forall_impl; [exact Hes|]. unfold entry_valid. intros e (? & ? & Hc). split_and!; [done..|].
  destruct (command e); [|done]. unfold command_valid in *. destruct Hc as (? & ? & ?). split_and!; [done|lia..].
Qed.

(** A frame encoded under one set of limits decodes to its message under any
    other, or is refused. *)
Lemma decode_encoded l l' m m' bs :
  message_fits m -> Codec.encode_message m l = Codec.success bs ->
  Codec.decode_message bs l' = Codec.success m' -> m' = m.
Proof.
  intros Hfit Henc Hdec. apply CodecTheorems.encode_message_spec in Henc as [Hv Hf].
  assert (Hok : bytes_ok bs) by (eapply CodecTheorems.framed_ok; [done|apply CodecTheorems.message_bytes_ok]).
  pose proof (CodecTheorems.decode_message_sound l' bs Hok) as Hs. rewrite Hdec in Hs. destruct Hs as (Hfit' & Hv' & Hf').
  assert (Hle : limits_le l (join_limits l l')) by (unfold limits_le; simpl; lia).
  assert (Hle' : limits_le l' (join_limits l l')) by (unfold limits_le; simpl; lia).
  assert (Hframe : forall k t p, limits_le k (join_limits l l') -> CodecLemmas.framed t p k bs ->
    CodecLemmas.framed t p (join_limits l l') bs).
  { intros k t p [Hk _] (? & ? & ?). split_and!; [lia|done..]. }
  pose proof (CodecTheorems.decode_message_complete _ _ _ Hfit (message_valid_mono _ _ _ Hle Hv)
    (Hframe _ _ _ Hle Hf)) as E.
  rewrite (CodecTheorems.decode_message_complete _ _ _ Hfit' (message_valid_mono _ _ _ Hle' Hv')
    (Hframe _ _ _ Hle' Hf')) in E. congruence.
Qed.

Section poll.
Context {W T : Type} `{TransportLaws W T}.
Context (hcfg : NodeId -> NodeHostConfig) (ms : list NodeId) (x : NodeId).
Abbreviation Host := (HostImpl T).
Abbreviation raft_config := (raft_config hcfg).
Abbreviation node_config := (node_config hcfg x).
Abbreviation grouped := (grouped hcfg x).
Abbreviation wal_setup := (wal_setup hcfg x).
Abbreviation common := (common hcfg x).
Abbreviation active := (active hcfg x).
Abbreviation dying := (dying hcfg x).
Abbreviation ended := (ended hcfg x).
Abbreviation failed_host := (failed_host hcfg x).
Abbreviation runs := (runs hcfg x).
Abbreviation carries_on := (carries_on hcfg ms x).
Abbreviation frame_of := (frame_of hcfg).
Implicit Types (h : Host) (net : Net) (g : Ghost) (es : list RaftEffect).

Context (Hids : Forall u32 (members node_config)) (Hself : RaftTypes.node_id (raft_config x) = x).

(** ** Storage *)

(** The outcome of a part of [gather_inputs]. *)
Definition gathered net (over : bool) h : Prop :=
  exists net', cluster raft_config ms net' /\ moved x net net' /\
    ((over = false /\ runs 0 net' h /\ nh_running h = true) \/ (over = true /\ failed_host net' h)).

Lemma gathered_runs net h :
  cluster raft_config ms net -> runs 0 net h -> nh_running h = true -> gathered net false h.
Proof. intros. exists net. split_and!; [done|apply moved_refl|by left]. Qed.

Lemma gathered_moved net net' over h : moved x net net' -> gathered net' over h -> gathered net over h.
Proof. intros Hm (net2 & ? & ? & ?). exists net2. split_and!; [done|by eapply moved_trans|done]. Qed.

(** The worker with the notices taken, and the host with them queued or in hand. *)
Lemma take_active net h g ns rest evs :
  active net h g [] -> sw_completions (nh_storage h) = ns ++ rest ->
  omap event_claim evs ≡ₚ (ns ≫= notice_claims) ++ omap event_claim (nh_owner_events h) ->
  Forall (report_ok grouped (g_written g)) evs -> Forall (event_fine net) evs ->
  active net (set_nh_owner_events evs (set_nh_storage (set_sw_completions rest (nh_storage h)) h)) g [].
Proof.
  intros [] Hns Hperm Hrep Hev. constructor; simpl; try done.
  - by apply (common_same _ _ _ h).
  - destruct ac_tracked as [Htr Hw]. split; [done|]. by eapply take_works.
Qed.

Lemma completion_fine net c : event_fine net (completion_event c).
Proof. done. Qed.

Lemma gather_storage_active net h g :
  cluster raft_config ms net -> active net h g [] -> nh_running h = true ->
  exists r h', gather_storage h = (inr r, h') /\ gathered net r.2 h'.
Proof.
  intros Hc Ha Hr. unfold gather_storage. destruct (owner_room h =? 0).
  { do 2 eexists. split; [done|]. apply gathered_runs; [done|left|done]. exists g. split; [done|lia]. }
  destruct (lock_worker_active hcfg ms x net h g [] Hc Ha) as (net1 & g1 & Hc1 & Hfo & Ha1).
  set (h1 := lock_worker h) in *. assert (Hr1 : nh_running h1 = true) by done. unfold take_notices.
  set (k := N.to_nat _). set (ns := take k _). set (rest := drop k _).
  assert (Hns : sw_completions (nh_storage h1) = ns ++ rest) by (symmetry; apply take_drop).
  set (h2 := set_nh_storage _ h1).
  assert (Hcfg : nh_config h2 = hcfg x) by (apply (ac_common _ _ _ _ _ _ Ha1)).
  destruct (ac_tracked _ _ _ _ _ _ Ha1) as [_ Hw].
  assert (Hok : Forall (notice_ok grouped g1) ns).
  { pose proof (wk_notices _ _ _ _ _ _ Hw) as Hn. unfold notices in Hn. rewrite Hns in Hn.
    apply Forall_app in Hn as [_ Hn]. by apply Forall_app in Hn as [? _]. }
  assert (Hgo : exists over h', take_in ns h2 = (inr over, h') /\ gathered net1 over h').
  { destruct grouped eqn:Hg.
    - destruct (group_reports g1 ns Hok) as [Hrep Hhand].
      destruct (take_in_group hcfg ms x Hids Hself net1 g1 ns h2) as (over & h' & Heq & Hnext); [done|done| |done|].
      { split; [|done]. apply (take_active _ _ _ ns); [done..| | |].
        - by rewrite omap_app, notice_event_claims.
        - rewrite Hg. apply Forall_app. split; [done|apply Hw].
        - apply Forall_app. split; [|apply Ha1]. apply Forall_forall. intros ev Hev.
          apply list_elem_of_omap in Hev as (n & _ & Hn). unfold notice_event in Hn.
          destruct (sn_kind n); simplify_eq; try done. by destruct (sn_delayed_completion n); simplify_eq/=. }
      exists over, h'. split; [done|].
      destruct Hnext as [(-> & net2 & g2 & ? & ? & ? & [Ha2 _] & ?)|(-> & net2 & ? & ? & ?)];
        exists net2; (split_and!; [done..|]); [left|by right].
      split_and!; [done|left|done]. exists g2. split; [|lia]. simpl in Ha2. by eapply active_core; [|exact Ha2].
    - destruct (take_in_plain ns h2) as (h' & Heq & Hcore); [by rewrite Hcfg|].
      exists false, h'. split; [done|]. destruct (plain_reports g1 ns Hok) as [Hrep Hcl].
      apply gathered_runs; [done|left|by rewrite (core_running _ _ Hcore)]. exists g1. split; [|lia].
      eapply active_core; [exact Hcore|]. apply (take_active _ _ _ ns); [done..| | |].
      + rewrite omap_app, Hcl. apply Permutation_app_comm.
      + rewrite Hg. apply Forall_app. split; [apply Hw|done].
      + apply Forall_app. split; [apply Ha1|]. apply Forall_fmap, Forall_true. intros n. apply completion_fine. }
  destruct Hgo as (over & h' & Heq & Hgat). unfold call_bind. rewrite Heq.
  do 2 eexists. split; [done|]. by eapply gathered_moved; [apply Hfo|].
Qed.

Lemma gather_storage_gathered net h :
  cluster raft_config ms net -> runs 0 net h -> nh_running h = true ->
  exists r h', gather_storage h = (inr r, h') /\ gathered net r.2 h'.
Proof.
  intros Hc [(g & Ha & _)|Hd] Hr; [by eapply gather_storage_active|].
  unfold gather_storage. destruct (owner_room h =? 0).
  { do 2 eexists. split; [done|]. apply gathered_runs; [done|by right|done]. }
  pose proof (lock_worker_dying _ _ _ _ Hd) as Hd1. set (h1 := lock_worker h) in *. unfold take_notices.
  set (k := N.to_nat _). set (ns := take k _). set (h2 := set_nh_storage _ h1).
  assert (Hd2 : dying net h2) by (eapply dying_storage; [done|apply Hd1|done]).
  destruct (take_in_plain ns h2 (dying_mode _ _ _ _ Hd2)) as (h' & Heq & Hcore).
  unfold call_bind. rewrite Heq. do 2 eexists. split; [done|].
  apply gathered_runs; [done|right|by rewrite (core_running _ _ Hcore)].
  eapply dying_core; [exact Hcore|]. apply dying_push; [done|]. apply Forall_app. split; [apply Hd2|].
  apply Forall_fmap, Forall_true. intros n. apply completion_fine.
Qed.

(** ** Timers and clients *)

Lemma push_runs f net h ev :
  runs f net h -> event_fine net ev -> event_claim ev = None -> runs f net (push_event ev h).
Proof.
  intros [(g & Ha & Hf)|Hd] Hev Hcl; [left; exists g; split; [|done]|right].
  - destruct Ha. constructor; simpl; try done.
    + by apply (common_same _ _ _ h).
    + destruct ac_tracked as [Htr []]. split; [done|].
      assert (Heq : claims (nh_storage h) (nh_owner_events h ++ [ev]) [] = claims (nh_storage h) (nh_owner_events h) []).
      { unfold claims. rewrite omap_app. simpl. rewrite Hcl. by rewrite app_nil_r. }
      constructor; try done; change (persists []) with (@nil (StorageOpId * PersistBatch)); rewrite ?Heq; try done.
      apply Forall_app. split; [done|]. constructor; [|done]. by destruct ev.
    + apply Forall_app. split; [done|by constructor].
  - apply dying_push; [done|]. apply Forall_app. split; [apply Hd|by constructor].
Qed.

Lemma clients_runs f net h q :
  runs f net h -> Forall (fun p => command_fits p.2) q -> runs f net (set_nh_client_queue q h).
Proof.
  intros [(g & [] & Hf)|[]] Hq; [left; exists g; split; [|done]|right]; constructor; simpl; try done;
    by apply (common_same _ _ _ h).
Qed.

Lemma runs_clients f net h : runs f net h -> Forall (fun p => command_fits p.2) (nh_client_queue h).
Proof. intros [(g & [] & _)|[]]; done. Qed.

Lemma runs_common f net h : runs f net h -> common net h.
Proof. intros [(g & [] & _)|[]]; done. Qed.

(** A part that stays at the same cluster. *)
Definition stays net h h' : Prop := runs 0 net h' /\ nh_running h' = nh_running h.

Lemma gather_timers_stays net h : runs 0 net h -> stays net h (gather_timers h).2.
Proof.
  intros Hr. unfold gather_timers, read_clock. cbv zeta. set (h1 := set_nh_env _ h).
  assert (H1 : runs 0 net h1) by (eapply core_runs; [|exact Hr]; done).
  set (now := en_now _ + _). set (e := nh_election_timer h1).
  assert (Hs : forall k t set_t, runs 0 net k -> (forall t' k', core (set_t t' k') = core k') ->
    stays net k (if is_due now t k then (true, set_t (stopped t) (push_event (fired t) k)) else (false, k)).2).
  { intros k t set_t Hk Hset. case_match; [|done]. simpl. split.
    - eapply core_runs; [apply Hset|]. by apply push_runs.
    - by rewrite (core_running _ _ (Hset _ _)). }
  pose proof (Hs h1 e set_nh_election_timer H1 ltac:(done)) as H2.
  destruct (if is_due now e h1 then _ else _) as [a1 h2]. simpl in H2. destruct H2 as [H2 R2].
  pose proof (Hs h2 (nh_heartbeat_timer h2) set_nh_heartbeat_timer H2 ltac:(done)) as H3.
  destruct (if is_due now (nh_heartbeat_timer h2) h2 then _ else _) as [a2 h3]. simpl in H3 |- *.
  destruct H3 as [H3 R3]. split; [done|]. by rewrite R3, R2.
Qed.

Lemma admit_client_stays net h : runs 0 net h -> stays net h (admit_client_request h).2.
Proof.
  intros Hr. unfold admit_client_request. pose proof (runs_clients _ _ _ Hr) as Hq.
  destruct (nh_client_queue h) as [|[token cmd] rest]; [done|]. apply Forall_cons in Hq as [Hc Hq].
  destruct (owner_free h); [|done]. split; [|done]. simpl. apply clients_runs; [|done]. by apply push_runs.
Qed.

Lemma admit_clients_stays fuel net h : runs 0 net h -> stays net h (admit_clients fuel h).2.
Proof.
  revert h. induction fuel as [|fuel IH]; intros h Hr; cbn [admit_clients]; [done|].
  pose proof (admit_client_stays net h Hr) as [Hr1 E]. destruct (admit_client_request h) as [[] h1]; [|done].
  simpl in *. destruct (IH h1 Hr1) as [? E']. split; [done|]. by rewrite E'.
Qed.

(** ** The transport *)

Lemma tcp_runs f net h t : silent (nh_tcp h) t -> runs f net h -> runs f net (set_nh_tcp t h).
Proof.
  intros Hs Hr. pose proof (common_tcp hcfg x net h t Hs (runs_common _ _ _ Hr)) as Hcm.
  destruct Hr as [(g & [] & Hf)|[]]; [left; exists g; split; [|done]|right]; by constructor.
Qed.

Lemma runs_live f net h : runs f net h -> nh_running h = true -> live hcfg x net h.
Proof.
  intros [(g & Ha & _)|Hd] Hr; [by eapply active_live|].
  split_and!; [apply Hd|done|by apply (dy_running _ _ _ _ Hd)|]. right. split; apply Hd.
Qed.

Lemma fail_gathered net h :
  cluster raft_config ms net -> runs 0 net h -> nh_running h = true -> gathered net true (fail_transport h).
Proof.
  intros Hc Hr Hrun. destruct (fail_transport_failed hcfg ms x net h Hc) as (net' & ? & ? & ?);
    [by eapply runs_live|]. exists net'. split_and!; [done..|by right].
Qed.

(** A frame of the cluster decodes to a message that was sent. *)
Lemma decoded_fine net from bs m :
  frame_of net from x bs -> Codec.decode_message bs (hc_codec (hcfg x)) = Codec.success m ->
  event_fine net (MessageReceived (mkMessageEnvelope from x m)).
Proof.
  intros (env & Hs & Hf & <- & Hto & Henc) Hdec.
  assert (m = env_message env) as -> by (eapply decode_encoded; [apply Hf|done..]).
  assert (Heq : mkMessageEnvelope (env_from env) x (env_message env) = env) by (rewrite <- Hto; by destruct env).
  rewrite Heq. split; [|done]. split; [done|]. apply fits_wf, Hf.
Qed.

Lemma take_tcp_gathered net events h :
  cluster raft_config ms net -> runs 0 net h -> nh_running h = true ->
  (forall e, e ∈ events -> ev_kind e = tcp_message -> frame_of net (ev_peer e) x (ev_bytes e)) ->
  gathered net (take_tcp events h).1 (take_tcp events h).2.
Proof.
  intros Hc. revert h. induction events as [|e events IH]; intros h Hr Hrun Hev; cbn [take_tcp].
  { by apply gathered_runs. }
  assert (Hrest : forall e', e' ∈ events -> ev_kind e' = tcp_message -> frame_of net (ev_peer e') x (ev_bytes e')).
  { intros e' He'. apply Hev. by right. }
  pose proof (Hev e (list_elem_of_here _ _)) as He. pose proof (cm_config _ _ _ _ (runs_common _ _ _ Hr)) as Hcfg.
  destruct (ev_kind e).
  - by apply IH.
  - by apply IH.
  - rewrite Hcfg. destruct (Codec.decode_message _ _) as [m|] eqn:Hdec.
    + apply IH; [|done|done]. eapply core_runs; [|apply push_runs]; [done|done| |done].
      change (RaftTypes.node_id (hc_raft (hcfg x))) with (RaftTypes.node_id (raft_config x)). rewrite Hself.
      by eapply decoded_fine; [apply He|].
    + apply IH; [|done|done]. by eapply core_runs; [|exact Hr].
  - apply IH; [|done|done]. by eapply core_runs; [|exact Hr].
  - simpl. apply fail_gathered; [done| |done]. by eapply core_runs; [|exact Hr].
Qed.

Lemma gather_tcp_gathered net h :
  cluster raft_config ms net -> runs 0 net h -> nh_running h = true ->
  gathered net (gather_tcp h).1.2 (gather_tcp h).2.
Proof.
  intros Hc Hr Hrun. unfold gather_tcp. destruct (owner_room h =? 0); [by apply gathered_runs|].
  set (limit := N.min _ _). pose proof (law_poll limit (nh_tcp h)) as Hsil.
  pose proof (law_poll_may limit (nh_tcp h)) as Hmay.
  destruct (tcp_poll limit (nh_tcp h)) as [events t]. simpl in *.
  pose proof (take_tcp_gathered net events (set_nh_tcp t h) Hc) as Hg.
  destruct (take_tcp events (set_nh_tcp t h)) as [over h']. simpl in *. apply Hg; [by apply tcp_runs|done|].
  intros e He Hk. apply (cm_may _ _ _ _ (runs_common _ _ _ Hr)); auto.
Qed.

Lemma gather_rest_carries net activity h :
  cluster raft_config ms net -> runs 0 net h -> nh_running h = true ->
  carries_on 0 net (gather_rest activity h).2.
Proof.
  intros Hc Hr Hrun. unfold gather_rest.
  destruct (gather_timers_stays net h Hr) as [H1 R1]. destruct (gather_timers h) as [a1 h1]. simpl in *.
  destruct (admit_client_stays net h1 H1) as [H2 R2]. destruct (admit_client_request h1) as [a2 h2]. simpl in *.
  pose proof (gather_tcp_gathered net h2 Hc H2 ltac:(congruence)) as H3.
  destruct (gather_tcp h2) as [[a3 over] h3]. simpl in *. destruct H3 as (net' & Hc' & Hm & Hcase).
  exists net'. split_and!; [done..|]. destruct Hcase as [(-> & H3 & R3)|(-> & Hf)]; [left|by right].
  destruct (admit_clients_stays (length (nh_client_queue h3)) net' h3 H3) as [H4 R4].
  destruct (admit_clients _ h3) as [a4 h4]. simpl in *.
  assert (Hcore : core (record_queue_depths (note_backpressure h4)) = core h4).
  { unfold note_backpressure. by case_match. }
  split; [by eapply core_runs|]. change (nh_running (record_queue_depths (note_backpressure h4)) = true).
  rewrite (core_running _ _ Hcore). congruence.
Qed.

Lemma gather_inputs_carries net h :
  cluster raft_config ms net -> runs 0 net h -> nh_running h = true ->
  exists a h', gather_inputs h = (inr a, h') /\ carries_on 0 net h'.
Proof.
  intros Hc Hr Hrun. unfold gather_inputs. pose proof (law_running (nh_tcp h)) as Hsil.
  destruct (tcp_running (nh_tcp h)) as [up t]. simpl in Hsil.
  assert (H1 : runs 0 net (set_nh_tcp t h)) by (by apply tcp_runs).
  destruct up; cbn [negb].
  - destruct (gather_storage_gathered net _ Hc H1 Hrun) as ([a over] & h2 & Heq & net' & Hc' & Hm & Hcase).
    unfold call_bind at 1. rewrite Heq. destruct Hcase as [(Hov & H2 & R2)|(Hov & Hf)]; simpl in Hov; subst over; cbn [fst snd].
    + pose proof (gather_rest_carries net' a h2 Hc' H2 R2) as Hcar.
      destruct (gather_rest a h2) as [a' h3]. do 2 eexists. split; [done|]. by eapply carries_moved.
    + do 2 eexists. split; [done|]. exists net'. auto.
  - do 2 eexists. split; [done|].
    destruct (fail_gathered net (count tcp_error_drops 1 (set_nh_tcp t h)) Hc) as (net' & ? & ? & Hcase);
      [by eapply core_runs; [|exact H1]|done|].
    exists net'. split_and!; [done..|]. destruct Hcase as [(? & _)|(_ & ?)]; [done|by right].
Qed.

(** ** The calls of a host *)

(** The worker of a host that has not been started, or not successfully. *)
Definition resting (w : StorageWorker) : Prop :=
  sw_tasks w = [] /\ sw_completions w = [] /\ sw_group_size w = 0 /\ sw_group_last w = 0 /\
  match sw_pc w with pc_idle | pc_wait | pc_returned => True | _ => False end.

Record fresh net h : Prop := {
  fr_common : common net h;
  fr_flags : nh_running h = false /\ nh_started h = false;
  fr_worker : resting (nh_storage h);
  fr_mode : gc_enabled (sw_group_commit (nh_storage h)) = grouped;
  fr_policy : sw_flush_policy (nh_storage h) = flush_every_append;
  fr_options : should_flush (wi_options (sw_wal (nh_storage h))) = negb grouped;
  fr_made : (wi_identity (sw_wal (nh_storage h)), wi_options (sw_wal (nh_storage h))) = wal_setup;
  fr_queues : nh_owner_events h = [] /\ nh_client_queue h = [] /\ nh_quarantined_effects h = [];
  fr_gate : nh_last_submitted_operation h = 0 /\ nh_durable_operation_through h = 0 /\
            nh_group_barrier_active h = false;
  fr_log : exists d, impl_inv (sw_wal (nh_storage h)) d [] [] /\
           n_host net !! x = Some (mkHost (nh_raft h) (replayed d) false);
  fr_node : sound node_config (n_sent net) (nh_raft h) /\ pending_storage_ (nh_raft h) = None /\
            counted 0 (nh_raft h);
}.

(** A host between calls: it has not been started, it runs, or it has ended. *)
Definition host_ok net h : Prop :=
  fresh net h \/ (runs 0 net h /\ nh_running h = true) \/ ended net h.

(** A call leaves the host in order, at a later state of the cluster. *)
Definition call_ok {A} net (r : (HostExn + A) * Host) : Prop :=
  exists net', cluster raft_config ms net' /\ moved x net net' /\ host_ok net' r.2.

Lemma call_stays {A} net (a : HostExn + A) h :
  cluster raft_config ms net -> host_ok net h -> call_ok net (a, h).
Proof. intros. exists net. split_and!; [done|apply moved_refl|done]. Qed.

Lemma call_carries {A} f net (a : HostExn + A) h : carries_on f net h -> call_ok net (a, h).
Proof.
  intros (net' & ? & ? & [[Hr Hrun]|[He _]]); exists net'; (split_and!; [done..|]); right; [left|by right].
  split; [|done]. destruct Hr as [(g & ? & _)|?]; [left|by right]. exists g. split; [done|lia].
Qed.

Lemma call_moved {A} net net' (r : (HostExn + A) * Host) : moved x net net' -> call_ok net' r -> call_ok net r.
Proof. intros Hm (net2 & ? & ? & ?). exists net2. split_and!; [done|by eapply moved_trans|done]. Qed.

Lemma fresh_core net h h' : core h' = core h -> fresh net h -> fresh net h'.
Proof.
  unfold core. intros Hc. injection Hc as H1 H2 H3 H4 H5 H6 H7 H8 H9 H10 H11 H12. intros [[] ].
  constructor; [constructor|..];
    rewrite ?H1, ?H2, ?H3, ?H4, ?H5, ?H6, ?H7, ?H8, ?H9, ?H10, ?H11, ?H12; done.
Qed.

Lemma host_ok_core net h h' : core h' = core h -> host_ok net h -> host_ok net h'.
Proof.
  intros Hcore [Hf|[[Hr Hs]|He]]; [left; by eapply fresh_core|right; left|right; right].
  - split; [by eapply core_runs|by rewrite (core_running _ _ Hcore)].
  - unfold core in Hcore. injection Hcore as H1 H2 H3 H4 H5 H6 H7 H8 H9 H10 H11 H12.
    by eapply ended_core; [..|exact He].
Qed.

Lemma running_runs net h : host_ok net h -> nh_running h = true -> runs 0 net h.
Proof.
  intros [Hf|[[? _]|He]] Hr; [|done|].
  - destruct (fr_flags _ _ Hf). congruence.
  - pose proof (en_running _ _ _ _ He). congruence.
Qed.

Lemma step_raft_runs net ev rest h :
  cluster raft_config ms net -> runs 0 net h -> nh_running h = true -> nh_owner_events h = ev :: rest ->
  exists h', step_raft ev (set_nh_owner_events rest h) = (inr tt, h') /\ carries_on 0 net h'.
Proof.
  intros Hc [(g & Ha & _)|Hd] Hr Hev.
  - apply step_raft_true; [done..|]. exists g. split; [|lia]. eapply active_core; [|exact Ha].
    unfold core, holding. simpl. by rewrite Hev.
  - pose proof (dy_events _ _ _ _ Hd) as He. rewrite Hev in He. apply Forall_cons in He as [He Hrest].
    destruct (step_raft_dying hcfg x Hids net (set_nh_owner_events rest h) ev) as (h' & Heq & Hd' & Hr');
      [by apply dying_push|done|].
    exists h'. split; [done|]. apply carries_runs; [done|by right|by rewrite Hr'].
Qed.

Lemma poll_once_ok caller net h :
  cluster raft_config ms net -> host_ok net h -> call_ok net (poll_once caller h).
Proof.
  intros Hc Hok. unfold poll_once, call_bind, ensure_owner.
  destruct (nh_started h && _); [by apply call_stays|].
  unfold call_get. destruct (nh_running h) eqn:Hr; cbn [negb]; [|by apply call_stays].
  destruct (gather_inputs_carries net h Hc (running_runs _ _ Hok Hr) Hr) as (a & h1 & Heq & Hcar). rewrite Heq.
  destruct Hcar as (net1 & Hc1 & Hm1 & Hcase). apply (call_moved _ net1); [done|].
  destruct Hcase as [[Hr1 Hrun1]|[He Hev]].
  - destruct (nh_owner_events h1) as [|ev rest] eqn:Hev.
    + by eapply call_carries, carries_runs.
    + unfold call_do. destruct (step_raft_runs net1 ev rest h1 Hc1 Hr1 Hrun1 Hev) as (h2 & Heq2 & Hcar2).
      rewrite Heq2. by eapply call_carries.
  - rewrite Hev. apply call_stays; [done|by right; right].
Qed.

Lemma run_loop_ok fuel caller deadline work net h :
  cluster raft_config ms net -> host_ok net h -> call_ok net (run_loop fuel caller deadline work h).
Proof.
  revert work net h. induction fuel as [|fuel IH]; intros work net h Hc Hok; cbn [run_loop]; [by apply call_stays|].
  unfold call_bind at 1. destruct (poll_once_ok caller net h Hc Hok) as (net1 & Hc1 & Hm1 & Hok1).
  destruct (poll_once caller h) as [[e|polled] h1]; simpl in Hok1; apply (call_moved _ net1); try done;
    [by apply call_stays|]. unfold call_bind, call_get.
  assert (Hidle : core (idle deadline h1) = core h1).
  { unfold idle, read_clock, sleep_for. by repeat case_match. }
  assert (Hgo : forall work' h2, core h2 = core h1 ->
    call_ok net1 (if nh_running h2 then let '(now, h) := read_clock h2 in
      if now <? deadline then run_loop fuel caller deadline work' h else (inr (Some work'), h)
      else (inr (Some work'), h2))).
  { intros work' h2 Hcore. assert (Hok2 : host_ok net1 h2) by (by eapply host_ok_core).
    destruct (nh_running h2); [|by apply call_stays]. unfold read_clock.
    assert (Hok3 : forall v, host_ok net1 (set_nh_env v h2)) by (intros v; by eapply host_ok_core; [|exact Hok2]).
    case_match; [by apply IH|by apply call_stays]. }
  destruct polled; simpl.
  - specialize (Hgo (add64 work 1) h1 eq_refl). destruct (nh_running h1); exact Hgo.
  - specialize (Hgo work (idle deadline h1) Hidle). unfold call_ret. destruct (nh_running (idle deadline h1)); exact Hgo.
Qed.

(** The checks of the calling thread. *)
Lemma owner_ok {A} caller net h (k : unit -> Call A) :
  cluster raft_config ms net -> host_ok net h -> call_ok net (k tt h) ->
  call_ok net (call_bind (ensure_owner caller) k h).
Proof.
  intros Hc Hok Hk. unfold call_bind, ensure_owner. destruct (nh_started h && _); [by apply call_stays|done].
Qed.

Lemma run_for_ok fuel caller duration net h :
  cluster raft_config ms net -> host_ok net h -> call_ok net (run_for fuel caller duration h).
Proof.
  intros Hc Hok. apply owner_ok; [done..|]. destruct (duration <? 0)%Z; [by apply call_stays|].
  unfold read_clock. apply run_loop_ok; [done|]. by eapply host_ok_core; [|exact Hok].
Qed.

Lemma submit_ok caller cmd net h :
  cluster raft_config ms net -> host_ok net h -> command_fits cmd -> call_ok net (submit caller cmd h).
Proof.
  intros Hc Hok Hfit. apply owner_ok; [done..|].
  destruct (nh_running h) eqn:Hr; cbn [negb]; [|by apply call_stays].
  destruct (submit_acceptable _ _); cbn [negb]; [|by apply call_stays].
  destruct (client_room h); cbn [negb]; [|apply call_stays; [done|by eapply host_ok_core; [|exact Hok]]].
  destruct (_ || _); [by apply call_stays|]. apply call_stays; [done|]. right. left. split; [|done].
  pose proof (running_runs _ _ Hok Hr) as Hruns.
  eapply core_runs; [|apply (clients_runs 0 net h (nh_client_queue h ++ [(nh_next_client_token h, cmd)]))];
    [done|done|]. apply Forall_app. split; [by eapply runs_clients|by constructor].
Qed.

Lemma tcp_ok net h t :
  silent (nh_tcp h) t -> host_ok net h -> host_ok net (set_nh_tcp t h).
Proof.
  intros Hs [Hf|[[Hr Hrun]|He]].
  - left. pose proof (common_tcp hcfg x net h t Hs (fr_common _ _ Hf)). destruct Hf. by constructor.
  - right. left. split; [by apply tcp_runs|done].
  - right. right. pose proof (common_tcp hcfg x net h t Hs (en_common _ _ _ _ He)). destruct He. by constructor.
Qed.

Lemma set_peer_partitioned_ok caller peer b net h :
  host_ok net h -> host_ok net (set_peer_partitioned caller peer b h).2.
Proof.
  intros Hok. unfold set_peer_partitioned, ensure_owner. destruct (nh_started h && _); [done|].
  pose proof (law_partition peer b (nh_tcp h)) as Hs. destruct (tcp_set_partitioned _ _ _). by apply tcp_ok.
Qed.

Lemma host_listening_port_ok caller net h :
  cluster raft_config ms net -> host_ok net h -> call_ok net (host_listening_port caller h).
Proof.
  intros Hc Hok. apply owner_ok; [done..|]. pose proof (law_port (nh_tcp h)) as Hs.
  destruct (tcp_listening_port _). apply call_stays; [done|]. by apply tcp_ok.
Qed.

Lemma poll_replies_ok caller n net h :
  cluster raft_config ms net -> host_ok net h -> call_ok net (poll_replies caller n h).
Proof. intros Hc Hok. apply owner_ok; [done..|]. apply call_stays; [done|by eapply host_ok_core; [|exact Hok]]. Qed.

Lemma poll_traces_ok caller n net h :
  cluster raft_config ms net -> host_ok net h -> call_ok net (poll_traces caller n h).
Proof. intros Hc Hok. apply owner_ok; [done..|]. apply call_stays; [done|by eapply host_ok_core; [|exact Hok]]. Qed.

Lemma host_stop_ok net h :
  cluster raft_config ms net -> host_ok net h ->
  exists net', cluster raft_config ms net' /\ moved x net net' /\ host_ok net' (host_stop h).
Proof.
  intros Hc Hok. unfold host_stop. destruct (nh_started h) eqn:Hs, (nh_running h) eqn:Hr; simpl;
    try by exists net; split_and!; [done|apply moved_refl|done].
  destruct (runs_live 0 net h (running_runs _ _ Hok Hr) Hr) as (Hcm & _ & _ & Hk).
  destruct (shutdown_ended hcfg ms x net (set_nh_running false h) Hc) as (net' & ? & ? & He); [by apply (common_same _ _ _ h)|done..|].
  exists net'. split_and!; [done..|]. by right; right.
Qed.

(** ** Starting *)

Lemma resting_step i now w :
  resting w -> resting (worker_step i now w) /\ sw_wal (worker_step i now w) = sw_wal w /\
  sw_group_commit (worker_step i now w) = sw_group_commit w /\
  sw_flush_policy (worker_step i now w) = sw_flush_policy w.
Proof.
  intros (Ht & Hc & Hs & Hl & Hpc). unfold worker_step, resting. destruct (sw_pc w) eqn:E; try done.
  - by rewrite E.
  - unfold wait_task. rewrite Ht, Hs. simpl. rewrite andb_false_r. simpl.
    destruct (sw_stopping w); simpl; rewrite ?E; done.
  - by rewrite E.
Qed.

Lemma resting_steps ins now w :
  resting w -> resting (worker_steps ins now w).2 /\ sw_wal (worker_steps ins now w).2 = sw_wal w /\
  sw_group_commit (worker_steps ins now w).2 = sw_group_commit w /\
  sw_flush_policy (worker_steps ins now w).2 = sw_flush_policy w.
Proof.
  revert now w. induction ins as [|i ins IH]; intros now w Hw; simpl; [done|].
  destruct (resting_step i (now + in_elapsed i) w Hw) as (Hw' & E1 & E2 & E3).
  destruct (IH (now + in_elapsed i + in_elapsed_again i) _ Hw') as (? & F1 & F2 & F3).
  split_and!; [done|congruence..].
Qed.

(** The worker moves without a task. *)
Lemma fresh_storage net h w :
  fresh net h -> resting w -> sw_wal w = sw_wal (nh_storage h) ->
  sw_group_commit w = sw_group_commit (nh_storage h) -> sw_flush_policy w = sw_flush_policy (nh_storage h) ->
  fresh net (set_nh_storage w h).
Proof.
  intros [] Hw E1 E2 E3. constructor; simpl; rewrite ?E1, ?E2, ?E3; try done. by apply (common_same _ _ _ h).
Qed.

Lemma fresh_lock net h : fresh net h -> fresh net (lock_worker h).
Proof.
  intros Hf. unfold lock_worker. destruct (resting_steps (default [] (head (en_worker (nh_env h))))
    (en_now (nh_env h)) _ (fr_worker _ _ Hf)) as (Hw & E1 & E2 & E3).
  eapply fresh_core; [|by eapply (fresh_storage net h)]. done.
Qed.

Lemma fresh_stop net h : fresh net h -> fresh net (storage_stop h).
Proof.
  intros Hf%fresh_lock. unfold storage_stop, stop_worker. set (h1 := lock_worker h) in *.
  set (w := set_sw_tasks [] _).
  assert (Hw : resting w). { destruct (fr_worker _ _ Hf) as (_ & ? & ? & ? & ?). by split_and!. }
  destruct (resting_steps (join_inputs (default [] (head (en_worker (nh_env h1))))) (en_now (nh_env h1)) w Hw)
    as (Hw' & E1 & E2 & E3).
  eapply fresh_core; [|by eapply (fresh_storage net h1)]. done.
Qed.

(** The call of [start] on a fresh node. *)
Lemma start_facts net s :
  sound node_config (n_sent net) s -> pending_storage_ s = None -> counted 0 s ->
  exists s' es, start s = Returns (tt, s', es) /\ sound node_config (n_sent net) s' /\
    pending_storage_ s' = None /\ counted 0 s' /\ sends es = [] /\ persists es = [].
Proof.
  intros [Hi Ht] Hp [Hn Hr Hpe]. pose proof (quiet_start s) as Hq. unfold wp in Hq.
  destruct (start s) as [[[[] s'] es]|] eqn:Hst; [|done]. destruct Hq as [Hh Hse].
  destruct (start_outcome node_config s s' es Ht Hst) as (Ht' & _ & Hpe' & Hk).
  destruct (tidy_start s _ _ _ Hst) as (Hnum & _). rewrite Hpe' in Hnum. simpl in Hnum.
  assert (Hp' : pending_storage_ s' = None) by (destruct Hk as [?|E]; congruence).
  exists s', es. split_and!; try done.
  - constructor; [|done]. destruct (hard_eq_soft _ _ Hh) as [p ->]. by apply node_inv_soft.
  - constructor; [by rewrite Hnum|by rewrite Hnum|]. unfold pend. rewrite Hp'. constructor.
Qed.

(** The ghost of a host that starts on the log of the batches [d]. *)
Definition start_ghost (m : RaftNode) (d : list PersistBatch) : Ghost :=
  mkGhost m (replayed d) false 0 [] [] 0 d [] [] 0.

Lemma fresh_active net net' h m' es d t :
  fresh net h -> moved x net net' -> sends es = [] -> persists es = [] ->
  impl_inv (sw_wal (nh_storage h)) d [] [] ->
  n_host net' !! x = Some (mkHost m' (replayed d) false) ->
  sound node_config (n_sent net) m' -> pending_storage_ m' = None -> counted 0 m' ->
  silent (nh_tcp h) t ->
  active net' (set_nh_raft m' (set_nh_running true (set_nh_started true (set_nh_tcp t
    (set_nh_storage (set_sw_pc pc_wait (set_sw_started true (nh_storage h))) h))))) (start_ghost m' d) es.
Proof.
  intros [] Hm Hse Hpe Hinv Hx Hs Hp Hco Ht.
  destruct fr_queues0 as (Q1 & Q2 & Q3). destruct fr_gate0 as (G1 & G2 & G3).
  destruct fr_worker0 as (W1 & W2 & W3 & W4 & _).
  assert (Hun : unwritten (start_ghost m' d) m' = []) by (unfold unwritten, pend; by rewrite Hp).
  constructor; simpl; rewrite ?Q1, ?Q2, ?Q3; try done.
  - eapply common_same; [..|eapply (common_tcp hcfg x net' h t); [done|]]; [done|done|]. by eapply common_moved.
  - rewrite Hpe. split.
    + constructor; rewrite ?Hun; simpl; try done.
      * apply ahead_nil.
      * eapply sound_mono; [|done]. intros e. by apply (moved_sent x).
      * by repeat constructor.
    + assert (Hcl : claims (set_sw_pc pc_wait (set_sw_started true (nh_storage h))) [] [] = []).
      { unfold claims. simpl. by rewrite W1, W2. }
      constructor; rewrite ?Hcl, ?Hun; simpl; try done.
      * by left.
      * unfold todo. simpl. by rewrite W1.
      * intros _. unfold todo. simpl. by rewrite W1.
      * unfold notices. simpl. by rewrite W2.
      * intros _. left. lia.
  - apply Forall_forall. intros e He. destruct e as [|env| | |]; try done.
    exfalso. assert (Hbad : env ∈ sends es). { apply list_elem_of_omap. by exists (SendEffect env). }
    rewrite Hse in Hbad. by apply not_elem_of_nil in Hbad.
  - intros _ _. unfold gate. simpl. rewrite G1, G2, G3. done.
Qed.

Lemma host_start_ok caller net h :
  cluster raft_config ms net -> host_ok net h -> call_ok net (host_start caller h).
Proof.
  intros Hc Hok. unfold host_start. destruct (nh_started h) eqn:Hs; [by apply call_stays|].
  destruct Hok as [Hf|[[Hr Hrun]|He]].
  2: { exfalso. destruct Hr as [(g & Ha & _)|Hd]; [pose proof (ac_running _ _ _ _ _ _ Ha Hrun)|
         pose proof (dy_running _ _ _ _ Hd Hrun)]; congruence. }
  2: { pose proof (en_started _ _ _ _ He). congruence. }
  assert (Hf1 : fresh net (lock_worker (set_nh_owner_thread caller h))).
  { apply fresh_lock. eapply fresh_core; [|exact Hf]. done. }
  set (h1 := lock_worker (set_nh_owner_thread caller h)) in *. clearbody h1. unfold start_worker.
  destruct (sw_started (nh_storage h1)); [by apply call_stays; [|left]|].
  set (w := set_sw_pc pc_wait _).
  assert (Hw : resting w). { destruct (fr_worker _ _ Hf1) as (? & ? & ? & ? & ?). by split_and!. }
  pose proof (law_start (nh_tcp h1)) as Hsil. change (nh_tcp (set_nh_storage w h1)) with (nh_tcp h1).
  destruct (tcp_start (nh_tcp h1)) as [[e|[]] t]; simpl in Hsil.
  - apply call_stays; [done|]. left. apply fresh_stop.
    assert (Hf2 : fresh net (set_nh_storage w h1)) by (by eapply fresh_storage).
    pose proof (common_tcp hcfg x net (set_nh_storage w h1) t Hsil (fr_common _ _ Hf2)). destruct Hf2. by constructor.
  - destruct (fr_log _ _ Hf1) as (d & Hinv & Hx). destruct (fr_node _ _ Hf1) as (Hsd & Hp & Hco).
    destruct (start_facts net _ Hsd Hp Hco) as (m' & es & Hst & Hsd' & Hp' & Hco' & Hse & Hpe).
    destruct (do_start raft_config ms net x _ _ _ m' es Hc Hx Hst) as (net' & Hc' & Hm & Hx' & _).
    unfold call_bind, raft_call, call_do.
    cbn [nh_raft set_nh_running set_nh_started set_nh_tcp set_nh_storage]. rewrite Hst.
    pose proof (fresh_active net net' h1 m' es d t Hf1 Hm Hse Hpe Hinv Hx' Hsd' Hp' Hco' Hsil) as Ha.
    apply (call_moved _ net'); [done|]. fold w in Ha.
    eapply (call_carries 0), (handle_effects_carry hcfg ms x Hself net' _ (start_ghost m' d) es); simpl; try done.
    + rewrite Hpe. simpl. lia.
    + intros h' Hcore _. by eapply active_core; [|exact Ha].
    + intros _. destruct (fr_gate _ _ Hf1) as (-> & _). by rewrite effect_dependency_persists, Hpe.
    + intros _. destruct (fr_gate _ _ Hf1) as (G1 & G2 & G3). eapply active_core; [|exact Ha]. unfold core. simpl.
      by rewrite effect_dependency_persists, Hpe, G1, G2, G3.
    + apply (cm_config _ _ _ _ (fr_common _ _ Hf1)).
    + intros _. destruct (fr_gate _ _ Hf1) as (-> & -> & ->). done.
Qed.

End poll.
