(* ===== verification/HostSites.v ===== *)
(** * HostSites: a cluster of node hosts

    Machines that run a [NodeHost] each, lose power and start again, over a network
    that may lose, delay, reorder and duplicate frames; and that they refine the
    cluster of [Deployment]. *)

From S2P Require Import Prelude Model StateMachine RaftTypes Raft RaftSpec RaftRefine RaftReplicate RaftElection RaftAppend RaftStep System SystemFrame SystemSteps SystemLog SystemSafety Deployment ClusterSafety RaftTyped RaftOps.
From S2P Require Codec CodecTheorems.
From S2P Require Import Bytes CodecPayloads Wal WalFormat WalFrames WalRecovery WalScan WalFile WalDurability TcpTypes HostTypes HostWorker NodeHost HostAhead HostTrack HostStep HostOwner HostNode HostNotices HostPoll.
#[local] Open Scope N_scope.

(** The calls of the owner thread that change a host. *)
Inductive HostCall :=
  | call_start (caller : N)
  | call_poll (caller : N)
  | call_run (fuel : nat) (caller : N) (duration : Z)
  | call_submit (caller : N) (cmd : ClientCommand)
  | call_stop
  | call_partition (caller : N) (peer : NodeId) (partitioned : bool)
  | call_port (caller : N)
  | call_replies (caller maximum : N)
  | call_traces (caller maximum : N).

(** The arguments are values of their types. *)
Definition call_fits (c : HostCall) : Prop :=
  match c with call_submit _ cmd => command_fits cmd | _ => True end.

Section sites.
Context {W T : Type} `{TransportLaws W T}.
Abbreviation Host := (HostImpl T).
Implicit Types (h : Host) (net : Net) (g : Ghost).

Definition do_call (c : HostCall) h : Host :=
  match c with
  | call_start caller => (host_start caller h).2
  | call_poll caller => (poll_once caller h).2
  | call_run fuel caller duration => (run_for fuel caller duration h).2
  | call_submit caller cmd => (submit caller cmd h).2
  | call_stop => host_stop h
  | call_partition caller peer b => (set_peer_partitioned caller peer b h).2
  | call_port caller => (host_listening_port caller h).2
  | call_replies caller n => (poll_replies caller n h).2
  | call_traces caller n => (poll_traces caller n h).2
  end.

(** A machine: a host that was constructed, or the log file that a crash or the
    end of the process has left. *)
Inductive Site :=
  | up (h : Host)
  | down (img : list N).

(** [hd_wire]: the frames that the transports have accepted, with sender and
    receiver. *)
Record Hosted := mkHosted {
  hd_sites : gmap N Site;
  hd_wire : list (NodeId * NodeId * list N);
}.

Definition frames_of (x : NodeId) h : list (NodeId * NodeId * list N) :=
  (fun p => (x, p.1, p.2)) <$> tcp_handed (nh_tcp h).

Definition put_site (x : NodeId) h (s : Hosted) : Hosted :=
  mkHosted (<[x := up h]> (hd_sites s)) (hd_wire s ++ frames_of x h).

(** A frame that arrives at [x] was accepted by its sender. *)
Definition genuine (s : Hosted) (x : NodeId) (t : T) : Prop :=
  forall e, tcp_may t e -> ev_kind e = tcp_message -> (ev_peer e, x, ev_bytes e) ∈ hd_wire s.

Definition log_file (img : list N) : NativeFile := mkNativeFile (bool_decide (img = [])) img img.

Section system.
Context (hcfg : NodeId -> NodeHostConfig) (ms : list NodeId).

Inductive hosted_step (s : Hosted) : Hosted -> Prop :=
  | hosted_call x h c :
      hd_sites s !! x = Some (up h) -> call_fits c -> hosted_step s (put_site x (do_call c h) s)
  | hosted_worker x h :
      hd_sites s !! x = Some (up h) -> hosted_step s (put_site x (lock_worker h) s)
  | hosted_surroundings x h env :
      hd_sites s !! x = Some (up h) -> hosted_step s (put_site x (set_nh_env env h) s)
  | hosted_network x h t :
      hd_sites s !! x = Some (up h) -> tcp_handed t = tcp_handed (nh_tcp h) -> genuine s x t ->
      hosted_step s (put_site x (set_nh_tcp t h) s)
  | hosted_crash x h img :
      hd_sites s !! x = Some (up h) -> crash_image (wi_file (sw_wal (nh_storage h))) img ->
      hosted_step s (mkHosted (<[x := down img]> (hd_sites s)) (hd_wire s))
  | hosted_boot x img world env h f :
      hd_sites s !! x = Some (down img) ->
      NodeHost_new (hcfg x) reads_ok [] world env (log_file img) = (inr h, f) ->
      genuine s x (nh_tcp h) -> hosted_step s (put_site x h s).

(** Every machine starts without a log. *)
Definition hosted_init : Hosted :=
  mkHosted (list_to_map ((fun x => (x, down [])) <$> ms)) [].

Definition hosted_reachable (s : Hosted) : Prop := rtc hosted_step hosted_init s.

(** What the machines are set up with. *)
Record hosted_setup : Prop := {
  hu_nodup : NoDup ms;
  hu_ids : Forall u32 ms;
  hu_configured : configured (raft_config hcfg) ms;
  hu_safe : forall x, x ∈ ms -> wo_flush_policy (hc_wal (hcfg x)) = flush_every_append;
  hu_identity : forall x, x ∈ ms -> identity_fits (hc_identity (hcfg x));
  hu_boot : is_Some (boot (raft_config hcfg) ms);
}.

(** ** Steps elsewhere *)

(** The cluster moves on without the host of [x]. *)
Record apart (x : NodeId) net net' : Prop := {
  ap_host : n_host net' !! x = n_host net !! x;
  ap_sent : forall e, e ∈ n_sent net -> e ∈ n_sent net';
}.

Lemma moved_apart x y net net' : moved y net net' -> x <> y -> apart x net net'.
Proof. intros Hm Hne. constructor; [by apply Hm|]. intros e. by apply (moved_sent y). Qed.

Section apart.
Context (x : NodeId) (net net' : Net) (Ha : apart x net net').

Lemma apart_frame from to bs : frame_of hcfg net from to bs -> frame_of hcfg net' from to bs.
Proof. intros (env & ? & ?). exists env. split; [by apply (ap_sent _ _ _ Ha)|done]. Qed.

Lemma apart_common h : common hcfg x net h -> common hcfg x net' h.
Proof. intros []. constructor; [done|..]; intros; apply apart_frame; auto. Qed.

Lemma apart_track rcfg made wal m g : track net x rcfg made wal m g -> track net' x rcfg made wal m g.
Proof.
  intros []. constructor; try done.
  - by rewrite (ap_host _ _ _ Ha).
  - eapply ahead_mono; [|done]. apply (ap_sent _ _ _ Ha).
  - eapply sound_mono; [|done]. apply (ap_sent _ _ _ Ha).
Qed.

Lemma apart_fine evs : Forall (event_fine net) evs -> Forall (event_fine net') evs.
Proof.
  intros Hev. eapply Forall_impl; [exact Hev|]. intros ev [Hok ?]. split; [|done].
  eapply event_ok_mono; [|done]. apply (ap_sent _ _ _ Ha).
Qed.

Lemma apart_message g dep env : message_ok x net g dep env -> message_ok x net' g dep env.
Proof.
  intros (? & ? & Hs). split_and!; [done..|]. destruct Hs as [?|?]; [left|by right]. by apply (ap_sent _ _ _ Ha).
Qed.

Lemma apart_active h g : active hcfg x net h g [] -> active hcfg x net' h g [].
Proof.
  intros []. constructor; try done.
  - by apply apart_common.
  - destruct ac_tracked as [? ?]. split; [by apply apart_track|done].
  - by apply apart_fine.
  - eapply Forall_impl; [exact ac_quarantine|]. intros [dep []]; unfold quarantine_ok; simpl; try done.
    apply apart_message.
Qed.

Lemma apart_ok h : host_ok hcfg x net h -> host_ok hcfg x net' h.
Proof.
  intros [[]|[[[(g & Hg & ?)|[]] Hr]|[]]].
  - left. constructor; try done.
    + by apply apart_common.
    + by rewrite (ap_host _ _ _ Ha).
    + destruct fr_node as (? & ? & ?). split_and!; [|done..]. eapply sound_mono; [|done]. apply (ap_sent _ _ _ Ha).
  - right. left. split; [|done]. left. exists g. split; [by apply apart_active|done].
  - right. left. split; [|done]. right. constructor; try done.
    + by apply apart_common.
    + eapply sound_mono; [|done]. apply (ap_sent _ _ _ Ha).
    + by apply apart_fine.
    + destruct dy_log as (m & g & ?). exists m, g. by apply apart_track.
  - right. right. constructor; try done; [by apply apart_common|].
    destruct en_log as (m & g & ?). exists m, g. by apply apart_track.
Qed.

End apart.

(** ** Crashes *)

(** The log of every host is tracked. *)
Lemma host_logged x net h :
  host_ok hcfg x net h ->
  exists m g, track net x (node_config hcfg x) (wal_setup hcfg x) (sw_wal (nh_storage h)) m g.
Proof.
  intros [[]|[[[(g & Hg & ?)|[]] _]|[]]].
  - destruct fr_log as (d & Hinv & Hx). destruct fr_node as (Hs & Hp & Hco).
    exists (nh_raft h), (start_ghost (nh_raft h) d).
    assert (Hun : unwritten (start_ghost (nh_raft h) d) (nh_raft h) = []) by (unfold unwritten, pend; by rewrite Hp).
    constructor; rewrite ?Hun; simpl; try done; [apply ahead_nil|by repeat constructor].
  - exists (nh_raft h), g. apply Hg.
  - done.
  - done.
Qed.

(** What a crash has left of a log. *)
Definition down_ok (x : NodeId) net (img : list N) : Prop :=
  (img = [] /\ exists n, n_host net !! x = Some (mkHost n empty_disk false)) \/
  exists wal m g, track net x (node_config hcfg x) (wal_setup hcfg x) wal m g /\ crash_image (wi_file wal) img.

Lemma apart_down x net net' img : apart x net net' -> down_ok x net img -> down_ok x net' img.
Proof.
  intros Ha [(? & n & Hn)|(wal & m & g & Ht & Hi)]; [left|right].
  - split; [done|]. exists n. by rewrite (ap_host _ _ _ Ha).
  - exists wal, m, g. split; [by apply (apart_track x net)|done].
Qed.

(** The cluster writes a prefix of what its host has not written. *)
Lemma catch_up x rcfg made wal m g net bs :
  cluster (raft_config hcfg) ms net -> track net x rcfg made wal m g ->
  bs `prefix_of` (unwritten g m).*2 ->
  exists net' n w, cluster (raft_config hcfg) ms net' /\ moved x net net' /\
    n_host net' !! x = Some (mkHost n (replayed (g_durable g ++ bs)) w).
Proof.
  intros Hc Htr [rest Hbs]. pose proof Htr as []. rewrite replayed_app, <- tr_disk.
  destruct (g_written g) eqn:Hw.
  { rewrite (unwritten_nil _ _ _ _ _ _ _ Htr Hw) in Hbs. symmetry in Hbs. apply app_nil in Hbs as [-> _].
    exists net, (g_node g), true. split_and!; [done|apply moved_refl|done]. }
  unfold unwritten in Hbs. rewrite Hw, fmap_app in Hbs.
  apply app_eq_inv in Hbs as [(k & Hk & _)|(k & Hk & Hp)].
  - apply fmap_app_inv in Hk as (ops1 & ops2 & -> & -> & Hops). rewrite Hops in tr_ahead.
    destruct (advance (raft_config hcfg) ms x _ _ _ _ _ _ _ _ net (g_disk g) tr_ahead ltac:(done) Hc tr_host)
      as (net' & n' & out' & lastn & Hc' & Hm & Hx & _). by exists net', n', false.
  - rewrite <- (app_nil_r (g_ops g)) in tr_ahead.
    destruct (advance (raft_config hcfg) ms x _ _ _ _ _ _ _ _ net (g_disk g) tr_ahead ltac:(done) Hc tr_host)
      as (net1 & n1 & out1 & last1 & Hc1 & Hm1 & Hx1 & _ & _ & (-> & _)).
    subst bs. rewrite foldl_app. unfold pend in Hp. destruct (pending_storage_ m) as [q|] eqn:Hq.
    + destruct k as [|b [|]]; simpl in Hp; [|injection Hp as <- _|done].
      * by exists net1, m, false.
      * destruct (do_write (raft_config hcfg) ms net1 x m _ q Hc1 Hx1 Hq) as (net2 & Hc2 & Hm2 & Hx2).
        exists net2, m, true. split_and!; [done|by eapply moved_trans|done].
    + symmetry in Hp. apply app_nil in Hp as [-> _]. by exists net1, m, false.
Qed.

(** ** Restarts *)

Definition disk_fits (r : RecoveredState) : Prop :=
  u64 (current_term (rec_hard_state r)) /\ Forall entry_fits (rec_log r).

Lemma replayed_fits d : Forall batch_fits d -> disk_fits (replayed d).
Proof.
  unfold replayed. assert (H0' : disk_fits empty_disk) by (split; [done|constructor]). revert H0'.
  generalize empty_disk. intros r Hr Hd. revert r Hr.
  induction Hd as [|b d (Hh & _ & He & _) _ IH]; intros r [Hr1 Hr2]; simpl; [done|]. apply IH. split; simpl.
  - destruct (b_hard_state b); [by destruct Hh|done].
  - apply Forall_app. split; [|done]. destruct (b_truncate_from b); [by apply Forall_take|done].
Qed.

Lemma wal_open_valid id o fails outs f w f' :
  wal_open id o fails outs f = (inr w, f') -> exists u, validate_options o = inr u.
Proof.
  unfold wal_open, file_bind, file_lift. destruct (validate_options o) as [e|u]; [done|eauto].
Qed.

Lemma wal_open_made id o fails outs f w f' :
  wal_open id o fails outs f = (inr w, f') -> (wi_identity w, wi_options w) = (id, o).
Proof.
  unfold wal_open, file_bind, file_lift, file_ret. intros Hw. repeat case_match; by simplify_eq.
Qed.

(** A log that was opened is never empty again. *)
Lemma image_nonempty w d u e img : impl_inv w d u e -> crash_image (wi_file w) img -> img <> [].
Proof.
  intros [_ _ _ _ (fd & sd & fu & su & fx & sx & t & _ & _ & _ & _ & _ & _ & _ & Hp & _)] [Hi _] ->.
  apply prefix_nil_inv in Hi. rewrite Hi in Hp. apply prefix_nil_inv, app_nil in Hp as [Hh _].
  pose proof (file_header_length (wi_identity w)) as Hl. rewrite Hh in Hl. done.
Qed.

Lemma reopened x net img w f' :
  hosted_setup -> x ∈ ms -> cluster (raft_config hcfg) ms net -> down_ok x net img ->
  wal_open (hc_identity (hcfg x)) (runtime_wal_options (hcfg x)) reads_ok [] (log_file img) = (inr w, f') ->
  exists d net' n b, impl_inv w d [] [] /\ (wi_identity w, wi_options w) = wal_setup hcfg x /\
    cluster (raft_config hcfg) ms net' /\ moved x net net' /\
    n_host net' !! x = Some (mkHost n (replayed d) b).
Proof.
  intros Hsu Hin Hc Hd Hw. pose proof (wal_open_made _ _ _ _ _ _ _ Hw) as Hmade.
  destruct (wal_open_valid _ _ _ _ _ _ _ Hw) as [u Hv].
  destruct Hd as [(-> & n & Hn)|(wal & m & g & Htr & Hi)].
  - destruct (wal_create_inv _ _ (log_file []) _ _ _ _ Hv (hu_identity Hsu x Hin) eq_refl eq_refl Hw) as [Hinv _].
    exists [], net, n, false. split_and!; [done..|apply moved_refl|done].
  - pose proof (tr_wal _ _ _ _ _ _ _ Htr) as Hinv. pose proof (image_nonempty _ _ _ _ _ Hinv Hi) as Hne.
    destruct (reopen_inv _ _ _ _ _ Hinv Hi) as (k & w' & f'' & Hopen & Hinv' & _).
    pose proof (tr_made _ _ _ _ _ _ _ Htr) as Hm. unfold wal_setup in Hm. injection Hm as Hid Hop.
    rewrite Hid, Hop in Hopen. unfold log_file in Hw. rewrite bool_decide_eq_false_2 in Hw by done.
    rewrite Hopen in Hw. injection Hw as <- <-.
    destruct (catch_up x _ _ _ _ _ net (take k ((g_staged g).*2 ++ g_extra g)) Hc Htr) as (net' & n & b & ? & ? & ?).
    { etrans; [apply prefix_take|apply Htr]. }
    eexists _, net', n, b. split_and!; [exact Hinv'|done..].
Qed.

Lemma setup_ids x : hosted_setup -> x ∈ ms -> Forall u32 (members (node_config hcfg x)).
Proof.
  intros Hsu Hin. destruct (hu_configured Hsu x Hin) as (_ & Hms & _). simpl. rewrite Hms, Forall_forall. intros y Hy.
  pose proof (hu_ids Hsu) as Hu. rewrite Forall_forall in Hu.
  apply Hu. unfold sort_members in Hy. by rewrite merge_sort_Permutation in Hy.
Qed.

(** The node of a host that was just constructed. *)
Lemma booted_node x net n d :
  hosted_setup -> x ∈ ms -> cluster (raft_config hcfg) ms net -> Forall batch_fits d ->
  RaftNode_new (raft_config hcfg x) (replayed d) = Returns n ->
  n_host net !! x = Some (mkHost n (replayed d) false) ->
  sound (node_config hcfg x) (n_sent net) n /\ pending_storage_ n = None /\ counted 0 n.
Proof.
  intros Hsu Hin Hc Hfit Hnew Hx. pose proof (new_state _ _ _ Hnew) as Hst.
  assert (Hcfg : config_ n = node_config hcfg x) by (by rewrite Hst). split_and!.
  - constructor.
    + exact (ClusterSafety.host_inv (hu_nodup Hsu) (hu_configured Hsu) Hc x _ Hx).
    + rewrite <- Hcfg. apply (new_typed _ _ _ Hnew); [rewrite Hcfg; by apply setup_ids|].
      destruct (replayed_fits d Hfit). by apply (recovered_typed _ _ _ Hnew).
  - by rewrite Hst.
  - rewrite Hst. constructor; simpl; [by right|done|constructor].
Qed.

Lemma boot_ok x net img world env h f :
  hosted_setup -> x ∈ ms -> cluster (raft_config hcfg) ms net -> down_ok x net img ->
  NodeHost_new (hcfg x) reads_ok [] world env (log_file img) = (inr h, f) ->
  (forall e, tcp_may (nh_tcp h) e -> ev_kind e = tcp_message -> frame_of hcfg net (ev_peer e) x (ev_bytes e)) ->
  exists net', cluster (raft_config hcfg) ms net' /\ moved x net net' /\ fresh hcfg x net' h /\
    tcp_handed (nh_tcp h) = [].
Proof.
  intros Hsu Hin Hc Hd Hnew Hgen. unfold NodeHost_new in Hnew.
  destruct (validate_host_config (hcfg x)); [done|].
  destruct (wal_open _ _ _ _ _) as [[e|w] f1] eqn:Hw; [done|].
  change (mkRecoveredState _ _ _) with (wal_recovered (wi_state w)) in Hnew.
  destruct (reopened x net img w f1 Hsu Hin Hc Hd Hw) as (d & net1 & n1 & b & Hinv & Hmade & Hc1 & Hm1 & Hx1).
  destruct (impl_inv_state _ _ _ _ Hinv) as [Hrec _]. rewrite app_nil_r in Hrec. rewrite Hrec in Hnew.
  change (hc_raft (hcfg x)) with (raft_config hcfg x) in Hnew.
  destruct (RaftNode_new (raft_config hcfg x) (replayed d)) as [n|] eqn:Hn; [|done].
  destruct (tcp_new _ world) as [e|t] eqn:Ht; [done|]. injection Hnew as <- _. simpl in Hgen.
  destruct (do_crash (raft_config hcfg) ms net1 x n1 _ b n Hc1 Hx1 Hn) as (net2 & Hc2 & Hm2 & Hx2).
  assert (Hm : moved x net net2) by (by eapply moved_trans).
  assert (Hfit : Forall batch_fits d).
  { destruct Hinv as [_ _ Hfit _ _]. by rewrite !app_nil_r in Hfit. }
  exists net2. split_and!; [done..| |by eapply law_new].
  constructor; simpl; try done.
  - constructor; simpl; [done|..].
    + rewrite (law_new _ _ _ Ht). by intros ? ? ?%not_elem_of_nil.
    + intros e He Hk. eapply frame_moved; eauto.
  - by apply (hu_safe Hsu).
  - injection Hmade as _ ->. unfold runtime_wal_options, should_flush, grouped.
    destruct (gc_enabled _); simpl; [done|]. rewrite (hu_safe Hsu x Hin). done.
  - eauto.
  - by apply booted_node with d.
Qed.

(** ** The invariant of the machines *)

Definition site_ok (x : NodeId) net (site : Site) : Prop :=
  match site with up h => host_ok hcfg x net h | down img => down_ok x net img end.

(** The machines [s] behave like the cluster [net]. *)
Record hosted_inv (s : Hosted) net : Prop := {
  hi_cluster : cluster (raft_config hcfg) ms net;
  hi_wire : forall from to bs, (from, to, bs) ∈ hd_wire s -> frame_of hcfg net from to bs;
  hi_sites : forall x site, hd_sites s !! x = Some site -> x ∈ ms /\ site_ok x net site;
}.

Lemma put_inv s net net' x h site :
  hosted_inv s net -> hd_sites s !! x = Some site -> cluster (raft_config hcfg) ms net' -> moved x net net' ->
  host_ok hcfg x net' h -> hosted_inv (put_site x h s) net'.
Proof.
  intros [] Hx Hc Hm Hok.
  assert (Hcm : common hcfg x net' h).
  { destruct Hok as [[]|[[[(g & [] & _)|[]] _]|[]]]; done. }
  constructor; [done|..]; simpl.
  - intros from to bs [Hin|Hin]%elem_of_app; [eapply frame_moved; eauto|].
    apply list_elem_of_fmap in Hin as ([to' bs'] & [= -> -> ->] & Hin). by apply (cm_handed _ _ _ _ Hcm).
  - intros y site' Hy. destruct (decide (y = x)) as [->|Hne].
    + rewrite lookup_insert_eq in Hy. injection Hy as <-. split; [by apply (hi_sites0 x site)|done].
    + rewrite lookup_insert_ne in Hy by done. destruct (hi_sites0 y site' Hy) as [? Hsite]. split; [done|].
      pose proof (moved_apart y x net net' Hm Hne) as Hap. destruct site'; simpl in *.
      * by apply (apart_ok y net).
      * by apply (apart_down y net).
Qed.

Lemma do_call_ok x net c h :
  hosted_setup -> x ∈ ms -> cluster (raft_config hcfg) ms net -> host_ok hcfg x net h -> call_fits c ->
  exists net', cluster (raft_config hcfg) ms net' /\ moved x net net' /\ host_ok hcfg x net' (do_call c h).
Proof.
  intros Hsu Hin Hc Hok Hfit. destruct (hu_configured Hsu x Hin) as (Hself & Hms & _).
  pose proof (setup_ids x Hsu Hin) as Hids.
  destruct c; simpl in *.
  - by apply (host_start_ok hcfg ms x Hself).
  - by apply (poll_once_ok hcfg ms x Hids Hself).
  - by apply (run_for_ok hcfg ms x Hids Hself).
  - by apply (submit_ok hcfg ms x).
  - by apply (host_stop_ok hcfg ms x).
  - exists net. split_and!; [done|apply moved_refl|by apply set_peer_partitioned_ok].
  - by apply (host_listening_port_ok hcfg ms x).
  - by apply (poll_replies_ok hcfg ms x).
  - by apply (poll_traces_ok hcfg ms x).
Qed.

(** The worker runs on its own. *)
Lemma over_steps ins now w : thread_over w -> (worker_steps ins now w).2 = w.
Proof.
  revert now. induction ins as [|i ins IH]; intros now Hw; [done|]. simpl.
  assert (Hst : worker_step i (now + in_elapsed i) w = w) by (unfold worker_step; by destruct Hw as [-> | ->]).
  rewrite Hst. by apply IH.
Qed.

Lemma lock_worker_ok x net h :
  cluster (raft_config hcfg) ms net -> host_ok hcfg x net h ->
  exists net', cluster (raft_config hcfg) ms net' /\ moved x net net' /\ host_ok hcfg x net' (lock_worker h).
Proof.
  intros Hc [Hf|[[[(g & Ha & _)|Hd] Hr]|He]].
  - exists net. split_and!; [done|apply moved_refl|]. left. by apply fresh_lock.
  - destruct (lock_worker_active hcfg ms x net h g [] Hc Ha) as (net' & g' & Hc' & Hfo & Ha').
    exists net'. split_and!; [done|apply Hfo|]. right. left. split; [|done]. left. exists g'. split; [done|lia].
  - exists net. split_and!; [done|apply moved_refl|]. right. left. split; [|done]. right. by apply lock_worker_dying.
  - exists net. split_and!; [done|apply moved_refl|]. right. right. eapply ended_core; [..|exact He]; try done.
    apply over_steps, He.
Qed.

(** The network shows other frames. *)
Lemma network_ok x net h t :
  tcp_handed t = tcp_handed (nh_tcp h) ->
  (forall e, tcp_may t e -> ev_kind e = tcp_message -> frame_of hcfg net (ev_peer e) x (ev_bytes e)) ->
  host_ok hcfg x net h -> host_ok hcfg x net (set_nh_tcp t h).
Proof.
  intros Hh Hm Hok.
  assert (Hcm : common hcfg x net h -> common hcfg x net (set_nh_tcp t h)).
  { intros []. constructor; simpl; [done| |done]. by rewrite Hh. }
  destruct Hok as [[]|[[[(g & [] & ?)|[]] Hr]|[]]]; specialize (Hcm ltac:(done)).
  - left. by constructor.
  - right. left. split; [|done]. left. exists g. split; [by constructor|done].
  - right. left. split; [|done]. right. by constructor.
  - right. right. by constructor.
Qed.

Lemma hosted_step_inv s s' net :
  hosted_setup -> hosted_inv s net -> hosted_step s s' ->
  exists net', hosted_inv s' net' /\ (forall e, e ∈ n_sent net -> e ∈ n_sent net').
Proof.
  intros Hsu Hi Hst. pose proof Hi as []. destruct Hst as [x h c Hx Hfit|x h Hx|x h env Hx|x h t Hx Hh Hg|x h img Hx Hg|x img world env h f Hx Hnew Hg];
    destruct (hi_sites0 x _ Hx) as [Hin Hok]; simpl in Hok.
  - destruct (do_call_ok x net c h Hsu Hin hi_cluster0 Hok Hfit) as (net' & ? & ? & ?).
    exists net'. split; [by eapply put_inv|]. intros e. by apply (moved_sent x).
  - destruct (lock_worker_ok x net h hi_cluster0 Hok) as (net' & ? & ? & ?).
    exists net'. split; [by eapply put_inv|]. intros e. by apply (moved_sent x).
  - exists net. split; [|done]. eapply put_inv; [done..|apply moved_refl|]. by eapply host_ok_core; [|exact Hok].
  - exists net. split; [|done]. eapply put_inv; [done..|apply moved_refl|]. apply network_ok; [done| |done].
    intros e He Hk. apply hi_wire0. by apply Hg.
  - exists net. split; [|done]. constructor; [done|done|]. simpl. intros y site Hy. destruct (decide (y = x)) as [->|Hne].
    + rewrite lookup_insert_eq in Hy. injection Hy as <-. split; [done|]. right.
      destruct (host_logged x net h Hok) as (m & g & Ht). by exists (sw_wal (nh_storage h)), m, g.
    + rewrite lookup_insert_ne in Hy by done. by apply hi_sites0.
  - destruct (boot_ok x net img world env h f Hsu Hin hi_cluster0 Hok Hnew) as (net' & Hc' & Hm & Hfr & _).
    { intros e He Hk. apply hi_wire0. by apply Hg. }
    exists net'. split; [eapply put_inv; [done..|by left]|]. intros e. by apply (moved_sent x).
Qed.

Lemma boot_lookup cfg xs hs x :
  boot cfg xs = Some hs -> x ∈ xs -> exists n, hs !! x = Some (mkHost n empty_disk false).
Proof.
  revert hs. induction xs as [|y xs IH]; intros hs Hb Hx; simpl in Hb; [by apply not_elem_of_nil in Hx|].
  destruct (boot cfg xs) as [hs'|]; [|done]. simpl in Hb. destruct (RaftNode_new (cfg y) empty_disk) as [n|]; [|done].
  injection Hb as <-. destruct (decide (x = y)) as [->|Hne]; [rewrite lookup_insert_eq; eauto|].
  rewrite lookup_insert_ne by done. apply IH; [done|]. by apply elem_of_cons in Hx as [?|?].
Qed.

Lemma hosted_init_inv : hosted_setup -> exists net, hosted_inv hosted_init net.
Proof.
  intros Hsu. destruct (hu_boot Hsu) as [hs Hb]. exists (mkNet hs []).
  constructor; [by exists hs, []|by intros ? ? ? ?%not_elem_of_nil|]. simpl. intros x site Hx.
  apply elem_of_list_to_map_2, list_elem_of_fmap in Hx as (y & [= -> ->] & Hy). split; [done|]. left.
  split; [done|]. by apply (boot_lookup (raft_config hcfg) ms).
Qed.

Lemma hosted_reachable_inv s : hosted_setup -> hosted_reachable s -> exists net, hosted_inv s net.
Proof.
  intros Hsu Hr. unfold hosted_reachable in Hr. apply rtc_nsteps in Hr as [k Hr]. revert s Hr.
  induction k as [|k IH]; intros s Hr.
  - inversion Hr. subst. by apply hosted_init_inv.
  - apply nsteps_inv_r in Hr as (s1 & Hr & Hst). destruct (IH s1 Hr) as [net Hi].
    destruct (hosted_step_inv s1 s net Hsu Hi Hst) as (net' & ? & _). by exists net'.
Qed.

End system.
End sites.
