(* ===== verification/HostTheorems.v ===== *)
(** * HostTheorems: what a cluster of node hosts guarantees

    The theorems about machines that run [NodeHost], with and without group commit,
    and a run of three of them over a scripted transport. *)

From S2P Require Import Prelude Model StateMachine RaftTypes Raft RaftSpec RaftRefine RaftReplicate RaftElection RaftAppend RaftStep System SystemFrame SystemSteps SystemLog SystemSafety Deployment ClusterSafety RaftTyped RaftOps.
From S2P Require Codec CodecTheorems.
From S2P Require Import Bytes CodecPayloads Wal WalFormat WalFrames WalRecovery WalScan WalFile WalDurability TcpTypes HostTypes HostWorker NodeHost HostAhead HostTrack HostStep HostOwner HostNode HostNotices HostPoll HostSites.
#[local] Open Scope N_scope.

(** ** A transport *)

Record ScriptTcp := mkScriptTcp {
  sc_running : bool;
  sc_handed : list (NodeId * list N);
  sc_inbox : list TcpTransportEvent;
}.

#[global] Instance script_transport : Transport unit ScriptTcp := {
  tcp_new _ _ := inr (mkScriptTcp false [] []);
  tcp_start t := (inr tt, mkScriptTcp true (sc_handed t) (sc_inbox t));
  tcp_stop t := mkScriptTcp false (sc_handed t) [];
  tcp_send x bs t :=
    if sc_running t
    then (mkTcpSendResult tcp_queued tcp_none (N.of_nat (length bs)),
          mkScriptTcp true (sc_handed t ++ [(x, bs)]) (sc_inbox t))
    else (mkTcpSendResult tcp_down connection_down 0, t);
  tcp_poll n t := (take (N.to_nat n) (sc_inbox t),
                   mkScriptTcp (sc_running t) (sc_handed t) (drop (N.to_nat n) (sc_inbox t)));
  tcp_set_partitioned _ _ t := (true, t);
  tcp_running t := (sc_running t, t);
  tcp_listening_port t := (0, t);
  tcp_handed := sc_handed;
  tcp_may t e := e ∈ sc_inbox t;
}.

#[global] Instance script_laws : TransportLaws unit ScriptTcp.
Proof.
  constructor; simpl.
  - intros c w t [= <-]. done.
  - done.
  - intros t. split; [done|]. by intros e ?%not_elem_of_nil.
  - intros x bs t. by destruct (sc_running t).
  - intros x bs t e. by destruct (sc_running t).
  - intros n t. split; [done|]. simpl. intros e He. rewrite <- (take_drop (N.to_nat n) (sc_inbox t)).
    apply elem_of_app. by right.
  - intros n t e He. rewrite <- (take_drop (N.to_nat n) (sc_inbox t)). apply elem_of_app. by left.
  - intros n t. rewrite length_take. lia.
  - done.
  - done.
  - done.
Qed.

(** ** Labels *)

Inductive Label :=
  | l_call (x : NodeId) (c : HostCall)
  | l_clock (x : NodeId) (now : N)
  | l_worker (x : NodeId) (now : N) (steps : nat)
  | l_deliver (x : NodeId) (from : NodeId) (i : nat)
  | l_power_loss (x : NodeId)
  | l_boot (x : NodeId).

Section labels.
Context (hcfg : NodeId -> NodeHostConfig).
Abbreviation State := (Hosted (T := ScriptTcp)).

Definition host_at (s : State) (x : NodeId) : option (HostImpl ScriptTcp) :=
  match hd_sites s !! x with Some (up h) => Some h | _ => None end.

(** The i-th frame that [from] has sent, as an event at its receiver. *)
Definition nth_frame (s : State) (from : NodeId) (i : nat) : option (NodeId * TcpTransportEvent) :=
  h ← host_at s from;
  p ← tcp_handed (nh_tcp h) !! i;
  Some (p.1, mkTcpTransportEvent tcp_message from 1 tcp_none p.2).

Definition do_label (l : Label) (s : State) : option State :=
  match l with
  | l_call x c => h ← host_at s x; Some (put_site x (do_call c h) s)
  | l_clock x now => h ← host_at s x; Some (put_site x (set_nh_env (mkSurroundings now [] []) h) s)
  | l_worker x now n =>
      h ← host_at s x;
      let s1 := put_site x (set_nh_env (mkSurroundings now [] [replicate n quiet_input]) h) s in
      h ← host_at s1 x; Some (put_site x (lock_worker h) s1)
  | l_deliver x from i =>
      h ← host_at s x;
      p ← nth_frame s from i;
      if bool_decide (p.1 = x) && bool_decide ((from, x, ev_bytes p.2) ∈ hd_wire s)
         && bool_decide (sc_inbox (nh_tcp h) = [])
      then Some (put_site x (set_nh_tcp (mkScriptTcp (sc_running (nh_tcp h)) (sc_handed (nh_tcp h))
                               [p.2]) h) s)
      else None
  | l_power_loss x =>
      h ← host_at s x;
      let f := wi_file (sw_wal (nh_storage h)) in
      if bool_decide (nf_synced f `prefix_of` nf_bytes f)
      then Some (mkHosted (<[x := down (nf_synced f)]> (hd_sites s)) (hd_wire s)) else None
  | l_boot x =>
      match hd_sites s !! x with
      | Some (down img) =>
          match NodeHost_new (hcfg x) reads_ok [] tt (mkSurroundings 0 [] []) (log_file img) with
          | (inr h, _) => if bool_decide (sc_inbox (nh_tcp h) = []) then Some (put_site x h s) else None
          | _ => None
          end
      | _ => None
      end
  end.

Fixpoint do_labels (ls : list Label) (s : State) : option State :=
  match ls with
  | [] => Some s
  | l :: ls => s' ← do_label l s; do_labels ls s'
  end.

Definition label_fits (l : Label) : Prop :=
  match l with l_call _ c => call_fits c | _ => True end.

Lemma host_at_up s x h : host_at s x = Some h -> hd_sites s !! x = Some (up h).
Proof. unfold host_at. destruct (hd_sites s !! x) as [[]|]; try done. by intros [= <-]. Qed.

Lemma do_label_steps l s s' :
  label_fits l -> do_label l s = Some s' -> rtc (hosted_step hcfg) s s'.
Proof.
  intros Hf Hl. destruct l; simpl in *.
  - apply bind_Some in Hl as (h & Hh%host_at_up & [= <-]). apply rtc_once. by apply hosted_call.
  - apply bind_Some in Hl as (h & Hh%host_at_up & [= <-]). apply rtc_once. by apply hosted_surroundings.
  - apply bind_Some in Hl as (h & Hh%host_at_up & Hl). apply bind_Some in Hl as (h' & Hh'%host_at_up & [= <-]).
    eapply rtc_l; [by apply (hosted_surroundings hcfg s x h)|]. apply rtc_once. by apply hosted_worker.
  - apply bind_Some in Hl as (h & Hh%host_at_up & Hl). apply bind_Some in Hl as ([y e] & Hfr & Hl). simpl in Hl.
    destruct (_ && _) eqn:Hb; [|done]. injection Hl as <-. apply andb_true_iff in Hb as [[Hy Hw]%andb_true_iff Hi].
    apply bool_decide_eq_true in Hy, Hw, Hi. apply rtc_once. apply hosted_network; [done..|].
    intros e' He' Hk. simpl in He'. apply list_elem_of_singleton in He' as ->.
    unfold nth_frame in Hfr. apply bind_Some in Hfr as (h' & _ & Hfr). apply bind_Some in Hfr as (p & _ & [= <- <-]).
    done.
  - apply bind_Some in Hl as (h & Hh%host_at_up & Hl). case_bool_decide; [|done]. injection Hl as <-.
    apply rtc_once. by apply (hosted_crash hcfg s x h).
  - destruct (hd_sites s !! x) as [[|img]|] eqn:Hx; try done.
    destruct (NodeHost_new _ _ _ _ _ _) as [[e|h] f] eqn:Hn; [done|]. case_bool_decide as Hi; [|done].
    injection Hl as <-. apply rtc_once. eapply hosted_boot; [done..|]. intros e He. simpl in He.
    rewrite Hi in He. by apply not_elem_of_nil in He.
Qed.

Lemma do_labels_steps ls s s' :
  Forall label_fits ls -> do_labels ls s = Some s' -> rtc (hosted_step hcfg) s s'.
Proof.
  intros Hf. revert s. induction Hf as [|l ls Hl _ IH]; intros s Hs; simpl in Hs; [by simplify_eq|].
  apply bind_Some in Hs as (s1 & H1 & H2). etrans; [by eapply do_label_steps|by apply IH].
Qed.

End labels.

(** ** The configuration *)

Definition site_members : list NodeId := [1; 2; 3].

Definition site_config (x : NodeId) : NodeHostConfig :=
  mkNodeHostConfig (default_config x site_members) (mkWalIdentity 11 22 x) "detlog.wal"
    default_options
    (mkTcpTransportConfig (mkTcpIdentity 11 22 x) 1 "127.0.0.1" 0 false
       ((fun y => mkTcpPeerEndpoint y "127.0.0.1" (7000 + y)) <$> filter (fun y => y <> x) site_members)
       default_tcp_limits)
    Codec.default_limits 10 0 7 1 default_host_limits (mkGroupCommitConfig true 8 5).

Definition sites_start : Hosted (T := ScriptTcp) := hosted_init site_members.

(** ** The run *)

Definition at_ms (n : N) : N := n * 1000000.
Definition poll (x : NodeId) : Label := l_call x (call_poll 0).

(** The worker of [x] appends and stages, the owner sees the notice; when the
    delay of the group is over, the worker flushes and the owner sees the barrier. *)
Definition sync (x t : N) : list Label :=
  [l_worker x (at_ms t) 3; poll x; l_worker x (at_ms (t + 6)) 4; poll x].
Definition deliver_to (x from : NodeId) (i : nat) : list Label := [l_deliver x from i; poll x].

Definition site_command : ClientCommand := mkClientCommand (mkSessionId 7 7) 1 put "k" "v".

Definition site_script : list Label :=
  [l_boot 1; l_boot 2; l_boot 3;
   l_call 1 (call_start 0); l_call 2 (call_start 0); l_call 3 (call_start 0);
   l_clock 1 (at_ms 150); poll 1] ++ sync 1 150 ++ deliver_to 2 1 0 ++ sync 2 160 ++
  deliver_to 1 2 0 ++ sync 1 170 ++ deliver_to 2 1 2 ++ sync 2 180 ++ deliver_to 1 2 1 ++ sync 1 190 ++
  [l_call 1 (call_submit 0 site_command); poll 1] ++ sync 1 200 ++ deliver_to 2 1 4 ++ sync 2 210 ++
  sync 2 220 ++ deliver_to 1 2 2 ++ sync 1 230 ++ deliver_to 2 1 5 ++ sync 2 240 ++
  deliver_to 1 2 3 ++ sync 1 250 ++ deliver_to 2 1 6 ++ sync 2 260.

Definition after (ls : list Label) : Hosted (T := ScriptTcp) :=
  default sites_start (do_labels site_config ls sites_start).

Definition some {A} (o : option A) : bool := match o with Some _ => true | None => false end.

Lemma after_steps ls :
  Forall label_fits ls -> some (do_labels site_config ls sites_start) = true ->
  hosted_reachable site_config site_members (after ls).
Proof.
  intros Hf Hs. unfold after. destruct (do_labels site_config ls sites_start) as [s|] eqn:E; [|done].
  by apply (do_labels_steps site_config ls).
Qed.

Lemma site_setup : hosted_setup site_config site_members.
Proof.
  constructor.
  - by apply (bool_decide_unpack (NoDup site_members)).
  - by repeat constructor.
  - intros x Hx. by repeat constructor.
  - done.
  - intros x Hx. split_and!; [done..|]. simpl. unfold site_members in Hx.
    repeat (apply elem_of_cons in Hx as [->|Hx]; [done|]). by apply not_elem_of_nil in Hx.
  - eexists. vm_compute. reflexivity.
Qed.

(** ** Facts about the machines *)

Section facts.
Context {W T : Type} `{TransportLaws W T}.
Context (hcfg : NodeId -> NodeHostConfig) (ms : list NodeId).
Implicit Types (h : HostImpl T) (net : Net).

(** A host whose node is as far as its disk: it runs, its node takes part, and with
    group commit its gate is open. *)
Definition settled h : Prop :=
  nh_running h = true /\ role_ (nh_raft h) <> unavailable /\
  (gc_enabled (hc_group_commit (nh_config h)) = true -> nh_group_barrier_active h = false).

Lemma settled_node s net x h :
  hosted_inv hcfg ms s net -> hd_sites s !! x = Some (up h) -> settled h ->
  exists D w, n_host net !! x = Some (mkHost (nh_raft h) D w).
Proof.
  intros Hi Hx (Hr & Hrole & Hgate). destruct (hi_sites _ _ _ _ Hi x _ Hx) as [_ Hok]. simpl in Hok.
  destruct (running_runs hcfg x _ _ Hok Hr) as [(g & Ha & _)|Hd].
  - pose proof Ha as []. destruct ac_tracked as [Htr Hw]. pose proof (tr_host _ _ _ _ _ _ _ Htr) as Hh.
    assert (Hops : g_ops g = []).
    { destruct (grouped hcfg x) eqn:Hg; [|by apply (wk_plain _ _ _ _ _ _ Hw)].
      rewrite (cm_config _ _ _ _ ac_common) in Hgate. specialize (Hgate Hg).
      destruct (ac_gate eq_refl (ac_running Hr)) as (Hl & Hd & Hb). rewrite Hgate in Hb. symmetry in Hb.
      apply N.ltb_ge in Hb. destruct (g_ops g) as [|p ops] eqn:E; [done|].
      assert (Hne : unwritten g (nh_raft h) <> []) by (unfold unwritten; by rewrite E).
      pose proof (flushed_below _ _ _ _ _ _ _ Htr Hne). lia. }
    pose proof (tr_eager _ _ _ _ _ _ _ Htr) as He. rewrite Hops in He. destruct He as (Hn & _).
    rewrite Hn in Hh. eauto.
  - destruct (dy_dead _ _ _ _ Hd). done.
Qed.

(** A frame on the wire is a message of the cluster. *)
Lemma wire_message s net from to bs l m :
  hosted_inv hcfg ms s net -> (from, to, bs) ∈ hd_wire s -> Codec.decode_message bs l = Codec.success m ->
  mkMessageEnvelope from to m ∈ n_sent net.
Proof.
  intros Hi Hin Hdec. destruct (hi_wire _ _ _ _ Hi from to bs Hin) as (env & Hs & Hf & <- & <- & Henc).
  assert (m = env_message env) as -> by (eapply decode_encoded; [apply Hf|done..]). by destruct env.
Qed.

(** A log that is opened after a crash is a disk of the cluster. *)
Lemma crashed_disk s net x img w f :
  hosted_setup hcfg ms -> hosted_inv hcfg ms s net -> hd_sites s !! x = Some (down img) ->
  wal_open (hc_identity (hcfg x)) (runtime_wal_options (hcfg x)) reads_ok [] (log_file img) = (inr w, f) ->
  exists net' n b, cluster (raft_config hcfg) ms net' /\ moved x net net' /\
    n_host net' !! x = Some (mkHost n (wal_recovered (wi_state w)) b).
Proof.
  intros Hsu Hi Hx Hw. destruct (hi_sites _ _ _ _ Hi x _ Hx) as [Hin Hd].
  destruct (reopened hcfg ms x net img w f Hsu Hin (hi_cluster _ _ _ _ Hi) Hd Hw)
    as (d & net' & n & b & Hinv & _ & Hc & Hm & Hh).
  destruct (impl_inv_state _ _ _ _ Hinv) as [Hrec _]. rewrite app_nil_r in Hrec. rewrite <- Hrec in Hh.
  by exists net', n, b.
Qed.

(** A poll of the owner thread returns. *)
Lemma poll_once_returns x net caller h :
  hosted_setup hcfg ms -> x ∈ ms -> cluster (raft_config hcfg) ms net -> host_ok hcfg x net h ->
  nh_owner_thread h = caller -> exists b h', poll_once caller h = (inr b, h').
Proof.
  intros Hsu Hin Hc Hok Hcal. destruct (hu_configured _ _ Hsu x Hin) as (Hself & _).
  pose proof (setup_ids hcfg ms x Hsu Hin) as Hids.
  unfold poll_once, call_bind, ensure_owner. rewrite Hcal, N.eqb_refl, andb_false_r.
  unfold call_get. destruct (nh_running h) eqn:Hr; cbn [negb]; [|by do 2 eexists].
  destruct (gather_inputs_carries hcfg ms x Hids Hself net h Hc (running_runs _ _ _ _ Hok Hr) Hr)
    as (a & h1 & Heq & net1 & Hc1 & Hm1 & Hcase). rewrite Heq.
  destruct (nh_owner_events h1) as [|ev rest] eqn:Hev; [by do 2 eexists|].
  destruct Hcase as [[Hr1 Hrun1]|[_ Hnil]]; [|congruence]. unfold call_do.
  destruct (step_raft_runs hcfg ms x Hids Hself net1 ev rest h1 Hc1 Hr1 Hrun1 Hev) as (h2 & -> & _).
  by do 2 eexists.
Qed.

(** Settled hosts agree on what they have committed. *)
Lemma settled_agree (s : Hosted (T := T)) x y hx hy i :
  hosted_setup hcfg ms -> hosted_reachable hcfg ms s ->
  hd_sites s !! x = Some (up hx) -> hd_sites s !! y = Some (up hy) -> settled hx -> settled hy ->
  1 <= i -> i <= commit_index_ (nh_raft hx) -> i <= commit_index_ (nh_raft hy) ->
  exists e, entry_at (nh_raft hx) i = Some e /\ entry_at (nh_raft hy) i = Some e.
Proof.
  intros Hsu Hr Hx Hy Hsx Hsy Hi Hix Hiy. destruct (hosted_reachable_inv hcfg ms s Hsu Hr) as [net Hinv].
  destruct (settled_node s net x hx Hinv Hx Hsx) as (Dx & wx & Hnx).
  destruct (settled_node s net y hy Hinv Hy Hsy) as (Dy & wy & Hny).
  pose proof (node_commits_agree (hu_nodup _ _ Hsu) (hu_configured _ _ Hsu) (hi_cluster _ _ _ _ Hinv) x y _ _ Hnx Hny
    ltac:(apply Hsx) ltac:(apply Hsy)) as Ha. simpl in Ha.
  destruct (log_at_is_Some (log_ (nh_raft hx)) i) as [e He]; [destruct Ha as (Hl & _); lia|].
  exists e. split; [done|]. unfold entry_at. by rewrite <- (agree_log_at _ _ _ i Ha) by lia.
Qed.

End facts.

(** ** The machines refine the cluster *)

(** C2 The hosts refine the cluster of nodes: whatever machines running [NodeHost]
    do, with or without group commit, through crashes of storage, process and
    power, there is a run of the abstract cluster in which every frame on the wire
    is a message that was sent, every settled host has the node of the abstract
    host, and every log that a crash has left opens to a disk the abstract host
    can have. *)
Theorem hosts_refine_cluster {W T : Type} `{TransportLaws W T} hcfg ms (s : Hosted (T := T)) :
  hosted_setup hcfg ms -> hosted_reachable hcfg ms s ->
  exists net, cluster (raft_config hcfg) ms net /\
    (forall from to bs l m, (from, to, bs) ∈ hd_wire s -> Codec.decode_message bs l = Codec.success m ->
       mkMessageEnvelope from to m ∈ n_sent net) /\
    (forall x h, hd_sites s !! x = Some (up h) -> settled h ->
       exists D w, n_host net !! x = Some (mkHost (nh_raft h) D w)) /\
    (forall x img w f, hd_sites s !! x = Some (down img) ->
       wal_open (hc_identity (hcfg x)) (runtime_wal_options (hcfg x)) reads_ok [] (log_file img) = (inr w, f) ->
       exists net' n b, cluster (raft_config hcfg) ms net' /\ moved x net net' /\
         n_host net' !! x = Some (mkHost n (wal_recovered (wi_state w)) b)).
Proof.
  intros Hsu Hr. destruct (hosted_reachable_inv hcfg ms s Hsu Hr) as [net Hi]. exists net.
  split_and!; [apply Hi| | |].
  - intros from to bs l m. by apply (wire_message hcfg ms s).
  - intros x h. by apply (settled_node hcfg ms s).
  - intros x img w f. by apply (crashed_disk hcfg ms s).
Qed.

(** Committed entries agree on the machines: two settled hosts that have both
    committed an index hold the same entry there. *)
Theorem hosts_commits_agree {W T : Type} `{TransportLaws W T} hcfg ms (s : Hosted (T := T)) x y hx hy i :
  hosted_setup hcfg ms -> hosted_reachable hcfg ms s ->
  hd_sites s !! x = Some (up hx) -> hd_sites s !! y = Some (up hy) -> settled hx -> settled hy ->
  1 <= i -> i <= commit_index_ (nh_raft hx) -> i <= commit_index_ (nh_raft hy) ->
  exists e, entry_at (nh_raft hx) i = Some e /\ entry_at (nh_raft hy) i = Some e.
Proof. apply settled_agree. Qed.

(** One leader per term on the machines: two settled hosts that lead the same
    term are the same host. *)
Theorem hosts_one_leader {W T : Type} `{TransportLaws W T} hcfg ms (s : Hosted (T := T)) x y hx hy :
  hosted_setup hcfg ms -> hosted_reachable hcfg ms s ->
  hd_sites s !! x = Some (up hx) -> hd_sites s !! y = Some (up hy) -> settled hx -> settled hy ->
  role_ (nh_raft hx) = leader -> role_ (nh_raft hy) = leader ->
  current_term (hard_state_ (nh_raft hx)) = current_term (hard_state_ (nh_raft hy)) -> x = y.
Proof.
  intros Hsu Hr Hx Hy Hsx Hsy Hlx Hly Ht. destruct (hosted_reachable_inv hcfg ms s Hsu Hr) as [net Hinv].
  destruct (settled_node hcfg ms s net x hx Hinv Hx Hsx) as (Dx & wx & Hnx).
  destruct (settled_node hcfg ms s net y hy Hinv Hy Hsy) as (Dy & wy & Hny).
  by apply (leaders_unique (hu_nodup _ _ Hsu) (hu_configured _ _ Hsu) (hi_cluster _ _ _ _ Hinv) x y _ _ Hnx Hny).
Qed.

(** C4 A vote on the wire survives a power loss: when machine [x] has ever put on
    the wire a frame that grants its vote in term [t] to [c], any log that a crash
    of [x] leaves later records that vote or a later term. *)
Theorem vote_survives_power_loss {W T : Type} `{TransportLaws W T} hcfg ms (s : Hosted (T := T))
    x c bs l t img w f :
  hosted_setup hcfg ms -> hosted_reachable hcfg ms s -> (x, c, bs) ∈ hd_wire s ->
  Codec.decode_message bs l = Codec.success (MRequestVoteResponse (mkRequestVoteResponse t true)) ->
  hd_sites s !! x = Some (down img) ->
  wal_open (hc_identity (hcfg x)) (runtime_wal_options (hcfg x)) reads_ok [] (log_file img) = (inr w, f) ->
  t < current_term (ws_hard_state (wi_state w)) \/ ws_hard_state (wi_state w) = mkHardState t (Some c).
Proof.
  intros Hsu Hr Hw Hdec Hx Hopen. destruct (hosted_reachable_inv hcfg ms s Hsu Hr) as [net Hinv].
  destruct (crashed_disk hcfg ms s net x img w f Hsu Hinv Hx Hopen) as (net' & n & b & Hc & Hm & Hn).
  pose proof (moved_sent _ _ _ _ Hm (wire_message hcfg ms s net x c bs l _ Hinv Hw Hdec)) as Hsent.
  destruct (grant_on_disk (hu_nodup _ _ Hsu) (hu_configured _ _ Hsu) Hc x c t _ Hsent Hn) as [Hle Heq]. simpl in Hle, Heq.
  destruct (N.eq_dec t (current_term (ws_hard_state (wi_state w)))) as [Ht|]; [right|left; lia].
  specialize (Heq Ht). destruct (ws_hard_state (wi_state w)). simpl in *. congruence.
Qed.

(** C5 An acknowledgement on the wire survives a power loss: when machine [x] has
    acknowledged index [m] in term [t] and a crash of [x] left a log, whatever became
    of the other machines, the log is in term [t] or later; in term [t] it is [m]
    entries long, it holds at its place every entry up to [m] that any frame of the
    term has carried, and it agrees up to [m] with the leader of the term where one is
    still up. *)
Theorem ack_survives_power_loss {W T : Type} `{TransportLaws W T} hcfg ms (s : Hosted (T := T))
    x to bs l t rpc m ci ct img w f :
  hosted_setup hcfg ms -> hosted_reachable hcfg ms s -> (x, to, bs) ∈ hd_wire s ->
  Codec.decode_message bs l =
    Codec.success (MAppendEntriesResponse (mkAppendEntriesResponse t rpc true m ci ct)) ->
  hd_sites s !! x = Some (down img) ->
  wal_open (hc_identity (hcfg x)) (runtime_wal_options (hcfg x)) reads_ok [] (log_file img) = (inr w, f) ->
  t <= current_term (ws_hard_state (wi_state w)) /\
  (current_term (ws_hard_state (wi_state w)) = t ->
   m <= llen (ws_entries (wi_state w)) /\
   (forall y z bs' l' a (k : nat) e, (y, z, bs') ∈ hd_wire s ->
      Codec.decode_message bs' l' = Codec.success (MAppendEntries a) -> ae_term a = t ->
      ae_entries a !! k = Some e -> ae_prev_log_index a + N.of_nat k < m ->
      ws_entries (wi_state w) !! (N.to_nat (ae_prev_log_index a) + k)%nat = Some e) /\
   (forall y hy, hd_sites s !! y = Some (up hy) -> settled hy -> role_ (nh_raft hy) = leader ->
      current_term (hard_state_ (nh_raft hy)) = t ->
      take (N.to_nat m) (ws_entries (wi_state w)) = take (N.to_nat m) (log_ (nh_raft hy)))).
Proof.
  intros Hsu Hr Hw Hdec Hx Hopen. destruct (hosted_reachable_inv hcfg ms s Hsu Hr) as [net Hinv].
  destruct (crashed_disk hcfg ms s net x img w f Hsu Hinv Hx Hopen) as (net' & n & b & Hc & Hm & Hn).
  pose proof (moved_sent _ _ _ _ Hm (wire_message hcfg ms s net x to bs l _ Hinv Hw Hdec)) as Hsent.
  destruct (ack_kept (hu_nodup _ _ Hsu) (hu_configured _ _ Hsu) Hc x _ t m to rpc ci ct Hn Hsent) as [Hle Hkept].
  split; [done|]. intros Hwt. destruct (Hkept Hwt) as [Hlen Hframes]. split_and!; [done|..].
  - intros y z bs' l' a k e Hw' Hdec'. apply (Hframes y z).
    exact (moved_sent _ _ _ _ Hm (wire_message hcfg ms s net y z bs' l' _ Hinv Hw' Hdec')).
  - intros y hy Hy Hsy Hl Ht. destruct (settled_node hcfg ms s net y hy Hinv Hy Hsy) as (Dy & wy & Hny).
    rewrite <- (mv_others _ _ _ Hm y) in Hny by congruence.
    by destruct (acks_on_disk (hu_nodup _ _ Hsu) (hu_configured _ _ Hsu) Hc x y _ _ t m to rpc ci ct Hn Hny Hsent Hwt Hl Ht)
      as (_ & ? & ?).
Qed.

(** C6 Polling never throws: on every machine of a reachable state, [poll_once]
    called from the owner thread returns. *)
Theorem host_poll_returns {W T : Type} `{TransportLaws W T} hcfg ms (s : Hosted (T := T)) x h :
  hosted_setup hcfg ms -> hosted_reachable hcfg ms s -> hd_sites s !! x = Some (up h) ->
  exists b h', poll_once (nh_owner_thread h) h = (inr b, h').
Proof.
  intros Hsu Hr Hx. destruct (hosted_reachable_inv hcfg ms s Hsu Hr) as [net Hinv].
  destruct (hi_sites _ _ _ _ Hinv x _ Hx) as [Hin Hok]. by apply (poll_once_returns hcfg ms x net); try apply Hinv.
Qed.

(** ** Witnesses *)

Definition settledb (h : HostImpl ScriptTcp) : bool :=
  nh_running h && negb (bool_decide (role_ (nh_raft h) = unavailable)) && negb (nh_group_barrier_active h).

Lemma settledb_spec h : settledb h = true -> settled h.
Proof.
  unfold settledb, settled. intros [[Hr Hu]%andb_true_iff Hb]%andb_true_iff.
  apply negb_true_iff, bool_decide_eq_false in Hu. apply negb_true_iff in Hb. by split_and!.
Qed.

Lemma site_script_fits : Forall label_fits site_script.
Proof. unfold site_script. by repeat constructor. Qed.

(** The state at the end of the run, and after a power loss of machine 2. *)
Definition site_end : Hosted (T := ScriptTcp) := after site_script.
Definition site_dark : Hosted (T := ScriptTcp) := after (site_script ++ [l_power_loss 2]).

Lemma site_end_reachable : hosted_reachable site_config site_members site_end.
Proof. apply after_steps; [apply site_script_fits|]. vm_compute. reflexivity. Qed.

Lemma site_dark_reachable : hosted_reachable site_config site_members site_dark.
Proof.
  apply after_steps; [|vm_compute; reflexivity]. apply Forall_app. split; [apply site_script_fits|by repeat constructor].
Qed.

Lemma hosts_refine_cluster_witness :
  exists net, cluster (raft_config site_config) site_members net /\
    forall from to bs l m, (from, to, bs) ∈ hd_wire site_end -> Codec.decode_message bs l = Codec.success m ->
      mkMessageEnvelope from to m ∈ n_sent net.
Proof.
  destruct (hosts_refine_cluster site_config site_members site_end site_setup site_end_reachable)
    as (net & Hc & Hw & _). exists net. split; [exact Hc|exact Hw].
Defined.

(** A fact about the host of a machine, by evaluation. *)
Definition at_host (s : Hosted (T := ScriptTcp)) (x : NodeId) (P : HostImpl ScriptTcp -> bool) : bool :=
  match host_at s x with Some h => P h | None => false end.

Lemma at_host_spec s x P :
  at_host s x P = true -> exists h, hd_sites s !! x = Some (up h) /\ P h = true.
Proof.
  unfold at_host. destruct (host_at s x) as [h|] eqn:E; [|done]. intros HP. exists h. split; [|done].
  by apply host_at_up.
Qed.

Definition agreed (h : HostImpl ScriptTcp) : bool := settledb h && (2 <=? commit_index_ (nh_raft h)).

Lemma hosts_commits_agree_witness :
  exists h1 h2 e, hd_sites site_end !! 1 = Some (up h1) /\ hd_sites site_end !! 2 = Some (up h2) /\
    entry_at (nh_raft h1) 2 = Some e /\ entry_at (nh_raft h2) 2 = Some e.
Proof.
  assert (H1 : at_host site_end 1 agreed = true) by (vm_compute; reflexivity).
  assert (H2 : at_host site_end 2 agreed = true) by (vm_compute; reflexivity).
  apply at_host_spec in H1 as (h1 & X1 & [S1 C1]%andb_true_iff), H2 as (h2 & X2 & [S2 C2]%andb_true_iff).
  destruct (hosts_commits_agree site_config site_members site_end 1 2 h1 h2 2 site_setup site_end_reachable X1 X2
    (settledb_spec _ S1) (settledb_spec _ S2) ltac:(lia) (proj1 (N.leb_le _ _) C1) (proj1 (N.leb_le _ _) C2)) as (e & E1 & E2).
  exists h1, h2, e. exact (conj X1 (conj X2 (conj E1 E2))).
Defined.

Definition leading (h : HostImpl ScriptTcp) : bool := settledb h && bool_decide (role_ (nh_raft h) = leader).

Lemma hosts_one_leader_witness : exists h, hd_sites site_end !! 1 = Some (up h) /\ 1 = 1.
Proof.
  assert (H1 : at_host site_end 1 leading = true) by (vm_compute; reflexivity).
  apply at_host_spec in H1 as (h1 & X1 & [S1 L1%bool_decide_eq_true]%andb_true_iff). exists h1. split; [exact X1|].
  exact (hosts_one_leader site_config site_members site_end 1 1 h1 h1 site_setup site_end_reachable X1 X1
    (settledb_spec _ S1) (settledb_spec _ S1) L1 L1 eq_refl).
Defined.

Lemma host_poll_returns_witness :
  exists h b h', hd_sites site_end !! 1 = Some (up h) /\ poll_once (nh_owner_thread h) h = (inr b, h').
Proof.
  assert (H1 : at_host site_end 1 leading = true) by (vm_compute; reflexivity).
  apply at_host_spec in H1 as (h1 & X1 & _).
  destruct (host_poll_returns site_config site_members site_end 1 h1 site_setup site_end_reachable X1) as (b & h' & E).
  exists h1, b, h'. exact (conj X1 E).
Defined.

(** The log that the power loss leaves on machine 2, and what it opens to. *)
Definition dark_image : list N :=
  match hd_sites site_dark !! 2 with Some (down img) => img | _ => [] end.

Lemma dark_site : hd_sites site_dark !! 2 = Some (down dark_image).
Proof. vm_compute. reflexivity. Qed.

Definition dark_open : (WalError + WalImpl) * NativeFile :=
  wal_open (hc_identity (site_config 2)) (runtime_wal_options (site_config 2)) reads_ok [] (log_file dark_image).

Lemma dark_opens :
  exists w f, dark_open = (inr w, f) /\ current_term (ws_hard_state (wi_state w)) = 1.
Proof.
  assert (Hb : match dark_open with
               | (inr w, _) => current_term (ws_hard_state (wi_state w)) =? 1 | _ => false end = true)
    by (vm_compute; reflexivity).
  destruct dark_open as [[e|w] f]; [discriminate Hb|]. exists w, f. split; [reflexivity|]. by apply N.eqb_eq.
Qed.

Definition frame_bytes (m : Message) : list N :=
  match Codec.encode_message m Codec.default_limits with Codec.success bs => bs | _ => [] end.

Definition grant_message : Message := MRequestVoteResponse (mkRequestVoteResponse 1 true).
Definition ack_message : Message := MAppendEntriesResponse (mkAppendEntriesResponse 1 4 true 2 0 0).

Lemma on_wire (s : Hosted (T := ScriptTcp)) x y m :
  bool_decide ((x, y, frame_bytes m) ∈ hd_wire s) = true -> (x, y, frame_bytes m) ∈ hd_wire s.
Proof. apply bool_decide_eq_true. Qed.

Lemma vote_survives_power_loss_witness :
  exists w f, dark_open = (inr w, f) /\
    (1 < current_term (ws_hard_state (wi_state w)) \/ ws_hard_state (wi_state w) = mkHardState 1 (Some 1)).
Proof.
  destruct dark_opens as (w & f & Hw & _). exists w, f. split; [exact Hw|].
  refine (vote_survives_power_loss site_config site_members site_dark 2 1 (frame_bytes grant_message)
    Codec.default_limits 1 dark_image w f site_setup site_dark_reachable (on_wire _ _ _ _ _) _ dark_site Hw);
    vm_compute; reflexivity.
Defined.

(** A power loss of every machine: the leader first, then the two others. *)
Definition site_black : Hosted (T := ScriptTcp) :=
  after (site_script ++ [l_power_loss 1; l_power_loss 2; l_power_loss 3]).

Lemma site_black_reachable : hosted_reachable site_config site_members site_black.
Proof.
  apply after_steps; [|vm_compute; reflexivity]. apply Forall_app. split; [apply site_script_fits|by repeat constructor].
Qed.

Definition is_down (s : Hosted (T := ScriptTcp)) (x : NodeId) : bool :=
  match hd_sites s !! x with Some (down _) => true | _ => false end.

Lemma black_site : hd_sites site_black !! 2 = Some (down dark_image).
Proof. vm_compute. reflexivity. Qed.

(** The frame with which the leader sent its command. *)
Definition site_entry : LogEntry := mkLogEntry 2 1 (Some site_command).
Definition append_message : Message := MAppendEntries (mkAppendEntries 1 1 4 1 1 [site_entry] 1).

Lemma ack_survives_power_loss_witness :
  forallb (is_down site_black) site_members = true /\
  exists w f, dark_open = (inr w, f) /\ 2 <= llen (ws_entries (wi_state w)) /\
    ws_entries (wi_state w) !! 1%nat = Some site_entry.
Proof.
  split; [vm_compute; reflexivity|]. destruct dark_opens as (w & f & Hw & Ht). exists w, f. split; [exact Hw|].
  assert (Hack : (2, 1, frame_bytes ack_message) ∈ hd_wire site_black) by (apply on_wire; vm_compute; reflexivity).
  assert (Happ : (1, 2, frame_bytes append_message) ∈ hd_wire site_black) by (apply on_wire; vm_compute; reflexivity).
  assert (Hd1 : Codec.decode_message (frame_bytes ack_message) Codec.default_limits = Codec.success ack_message)
    by (vm_compute; reflexivity).
  assert (Hd2 : Codec.decode_message (frame_bytes append_message) Codec.default_limits = Codec.success append_message)
    by (vm_compute; reflexivity).
  pose proof (ack_survives_power_loss site_config site_members site_black 2 1 (frame_bytes ack_message)
    Codec.default_limits 1 4 2 0 0 dark_image w f site_setup site_black_reachable Hack Hd1 black_site Hw) as Hk.
  destruct (proj2 Hk Ht) as [Hlen [Hframes _]]. split; [exact Hlen|].
  exact (Hframes 1 2 (frame_bytes append_message) Codec.default_limits (mkAppendEntries 1 1 4 1 1 [site_entry] 1)
    0%nat site_entry Happ Hd2 eq_refl eq_refl eq_refl).
Defined.
