(* ===== verification/Pcg.v ===== *)
(** * Pcg: the random generator of the simulator

    Translation of [sim::Pcg32] of [src/simulator.cpp]: PCG-XSH-RR over a 64-bit
    linear congruential generator.  [bounded] draws words until one falls in the
    accepted range; the theorem at the end shows that this loop ends for every
    seed, because the underlying generator visits every 64-bit state, and that
    every result stands for the same number of accepted words. *)

From Stdlib Require Import ZArith.
From S2P Require Import Prelude.

(** ** A loop that may run [2 ^ k] times

    [iterate_pow k body s] runs [body] from [s] until it returns a result on the
    right, at most [2 ^ k] times.  It evaluates only the turns it needs. *)
Section iterate.
Context {St R : Type} (body : St -> St + R).

Fixpoint iterate_pow (k : nat) (s : St) : St + R :=
  match k with
  | O => body s
  | S k => match iterate_pow k s with
           | inl s' => iterate_pow k s'
           | inr r => inr r
           end
  end.

(** A loop that runs out of turns made all of them: the [n]th state is reached
    for every [n < 2 ^ k] and the body continues there. *)
Lemma iterate_pow_inl (next : St -> St) :
  (forall s s', body s = inl s' -> s' = next s) ->
  forall k s s', iterate_pow k s = inl s' ->
    s' = N.iter (2 ^ N.of_nat k) next s /\
    forall n, n < 2 ^ N.of_nat k -> exists t, body (N.iter n next s) = inl t.
Proof.
  intros Hnext. induction k as [|k IH]; intros s s' H; cbn [iterate_pow] in H.
  - split; [by apply Hnext|]. intros n Hn. assert (n = 0) as -> by (simpl in Hn; lia). by exists s'.
  - destruct (iterate_pow k s) as [s1|] eqn:E; [|discriminate H].
    destruct (IH _ _ E) as [-> H1]. destruct (IH _ _ H) as [-> H2].
    rewrite Nat2N.inj_succ, N.pow_succ_r'. set (m := 2 ^ N.of_nat k) in *. split.
    + rewrite <- N.iter_add. f_equal. lia.
    + intros n Hn. destruct (N.ltb_spec n m) as [?|Hge]; [by apply H1|].
      destruct (H2 (n - m) ltac:(lia)) as [t Ht]. exists t.
      rewrite <- N.iter_add in Ht. by replace (n - m + m) with n in Ht by lia.
Qed.

(** A loop that returns does so in the first turn that has a result. *)
Lemma iterate_pow_first (next : St -> St) :
  (forall s s', body s = inl s' -> s' = next s) ->
  forall k s r, iterate_pow k s = inr r ->
    exists n, n < 2 ^ N.of_nat k /\ body (N.iter n next s) = inr r /\
      forall i, i < n -> exists t, body (N.iter i next s) = inl t.
Proof.
  intros Hnext. induction k as [|k IH]; intros s r H; cbn [iterate_pow] in H.
  - exists 0. split_and!; [done|done|lia].
  - rewrite Nat2N.inj_succ, N.pow_succ_r'. destruct (iterate_pow k s) as [s1|r1] eqn:E.
    + destruct (iterate_pow_inl next Hnext k s s1 E) as [-> H1].
      destruct (IH _ _ H) as (n & Hn & Hb & Hi). set (m := 2 ^ N.of_nat k) in *.
      rewrite <- N.iter_add in Hb. exists (n + m). split_and!; [lia|done|].
      intros i Hin. destruct (N.ltb_spec i m) as [?|Hge]; [by apply H1|].
      destruct (Hi (i - m) ltac:(lia)) as [t Ht]. exists t.
      rewrite <- N.iter_add in Ht. by replace (i - m + m) with i in Ht by lia.
    + injection H as ->. destruct (IH _ _ E) as (n & Hn & Hb & Hi). exists n. split_and!; [lia|done|done].
Qed.
End iterate.

(** ** The generator *)

Definition wrap32 (x : N) : N := x mod u32_size.

Record Pcg32 := mkPcg32 { pcg_state : N; pcg_increment : N }.

Definition kMultiplier : N := 6364136223846793005.

(** The state transition, and the output computed from the state before it. *)
Definition pcg_advance (g : Pcg32) : Pcg32 :=
  mkPcg32 (add64 (mul64 (pcg_state g) kMultiplier) (pcg_increment g)) (pcg_increment g).

Definition pcg_output (previous : N) : N :=
  let xorshifted := wrap32 (N.shiftr (N.lxor (N.shiftr previous 18) previous) 27) in
  let rotation := wrap32 (N.shiftr previous 59) in
  wrap32 (N.lor (N.shiftr xorshifted rotation)
                (wrap32 (N.shiftl xorshifted (N.land (wrap32 (u32_size - rotation)) 31)))).

Definition next_u32 (g : Pcg32) : N * Pcg32 := (pcg_output (pcg_state g), pcg_advance g).

Definition next_u64 (g : Pcg32) : N * Pcg32 :=
  let '(hi, g1) := next_u32 g in
  let '(lo, g2) := next_u32 g1 in
  (N.lor (wrap64 (N.shiftl hi 32)) lo, g2).

Definition Pcg32_new (seed stream : N) : Pcg32 :=
  let g0 := mkPcg32 0 (N.lor (wrap64 (N.shiftl stream 1)) 1) in
  let '(_, g1) := next_u32 g0 in
  let g2 := mkPcg32 (add64 (pcg_state g1) seed) (pcg_increment g1) in
  let '(_, g3) := next_u32 g2 in
  g3.

Definition threshold (bound : N) : N := sub64 0 bound mod bound.

(** One turn of the [for (;;)] loop of [bounded]. *)
Definition bounded_turn (bound : N) (g : Pcg32) : Pcg32 + N * Pcg32 :=
  let '(value, g') := next_u64 g in
  if threshold bound <=? value then inr (value mod bound, g') else inl g'.

(** The loop runs at most [2 ^ 63] times; [pcg_bounded_total] shows that it
    always returns before that. *)
Definition bounded (g : Pcg32) (bound : N) : N * Pcg32 :=
  if bound =? 0 then (0, g)
  else match iterate_pow (bounded_turn bound) 63 g with
       | inr r => r
       | inl g' => (0, g')
       end.

Definition inclusive (g : Pcg32) (minimum maximum : N) : N * Pcg32 :=
  if maximum <? minimum then (minimum, g)
  else
    let distance := sub64 maximum minimum in
    if distance =? u64_max then next_u64 g
    else let '(v, g') := bounded g (add64 distance 1) in (add64 minimum v, g').

Definition chance (g : Pcg32) (numerator denominator : N) : bool * Pcg32 :=
  if (denominator =? 0) || (numerator =? 0) then (false, g)
  else if denominator <=? numerator then (true, g)
  else let '(v, g') := bounded g denominator in (v <? numerator, g').

(** The published first outputs of PCG32 for seed 42 and stream 54. *)
Example pcg_reference_outputs :
  let g := Pcg32_new 42 54 in
  ((next_u32 g).1, (next_u32 (next_u32 g).2).1) = (2707161783, 2068313097).
Proof. vm_compute. reflexivity. Qed.

(** ** The linear congruential generator visits every state *)

Section period.
Local Open Scope Z_scope.
Context (a c : Z) (Ha : exists m, a = 1 + 4 * m) (Hc : exists q, c = 1 + 2 * q).

Definition affine (x : Z) : Z := a * x + c.

(** [2 ^ k] steps are an affine map that is the identity plus [2 ^ k] modulo
    [2 ^ (k + 1)]. *)
Lemma affine_pow (k : nat) :
  exists m q, forall x,
    N.iter (2 ^ N.of_nat k)%N affine x =
      (1 + 2 ^ (Z.of_nat k + 2) * m) * x + 2 ^ Z.of_nat k * (1 + 2 * q).
Proof.
  induction k as [|k (m & q & IH)].
  - destruct Ha as [m ->], Hc as [q ->]. exists m, q. intros x.
    change (2 ^ (Z.of_nat 0 + 2)) with 4. change (2 ^ Z.of_nat 0) with 1.
    change (2 ^ N.of_nat 0)%N with 1%N. change (N.iter 1 affine x) with (affine x).
    unfold affine. lia.
  - exists (m + 2 * 2 ^ Z.of_nat k * m * m), (q + 2 ^ (Z.of_nat k) * m * (1 + 2 * q)). intros x.
    rewrite Nat2N.inj_succ, N.pow_succ_r'.
    replace (2 * 2 ^ N.of_nat k)%N with (2 ^ N.of_nat k + 2 ^ N.of_nat k)%N by lia.
    rewrite N.iter_add, !IH. rewrite Nat2Z.inj_succ.
    replace (Z.succ (Z.of_nat k) + 2) with (Z.of_nat k + 3) by lia.
    rewrite Z.pow_succ_r by lia. rewrite !Z.pow_add_r by lia.
    change (2 ^ 2) with 4. change (2 ^ 3) with 8. ring.
Qed.

(** Every residue modulo [2 ^ k] is reached in fewer than [2 ^ k] steps. *)
Lemma affine_reach (k : nat) (x t : Z) :
  exists n : N, (n < 2 ^ N.of_nat k)%N /\ (2 ^ Z.of_nat k | N.iter n affine x - t).
Proof.
  induction k as [|k (n & Hn & [z Hz])].
  - exists 0%N. split; [done|]. exists (N.iter 0 affine x - t). simpl. lia.
  - rewrite Nat2N.inj_succ, N.pow_succ_r', Nat2Z.inj_succ, Z.pow_succ_r by lia.
    destruct (Z.Even_or_Odd z) as [[w ->]|[w ->]].
    + exists n. split; [lia|]. exists w. lia.
    + exists (2 ^ N.of_nat k + n)%N. split; [lia|].
      destruct (affine_pow k) as (m & q & Hk). rewrite N.iter_add, Hk.
      set (y := N.iter n affine x) in *. exists (2 * m * y + (w + 1) + q).
      rewrite Z.pow_add_r by lia. change (2 ^ 2) with 4. nia.
Qed.
End period.

(** ** Invariant of the generator *)

Definition pcg_ok (g : Pcg32) : Prop :=
  pcg_state g <= u64_max /\ pcg_increment g <= u64_max /\ N.odd (pcg_increment g) = true.

Lemma lor_bound x y k : x < 2 ^ k -> y < 2 ^ k -> N.lor x y < 2 ^ k.
Proof.
  intros Hx Hy. destruct (N.eq_dec (N.lor x y) 0) as [->|Hn]; [lia|].
  apply N.log2_lt_pow2; [lia|]. rewrite N.log2_lor.
  destruct (N.eq_dec x 0) as [->|]; destruct (N.eq_dec y 0) as [->|]; simpl.
  - by destruct Hn.
  - rewrite N.max_0_l. apply N.log2_lt_pow2; lia.
  - rewrite N.max_0_r. apply N.log2_lt_pow2; lia.
  - apply N.max_lub_lt; apply N.log2_lt_pow2; lia.
Qed.

Lemma pcg_advance_ok g : pcg_ok g -> pcg_ok (pcg_advance g).
Proof. intros (? & ? & ?). split_and!; [apply wrap64_range|done|done]. Qed.

Lemma next_u64_state g : (next_u64 g).2 = pcg_advance (pcg_advance g).
Proof. done. Qed.

Lemma next_u64_value g :
  (next_u64 g).1 =
    N.lor (wrap64 (N.shiftl (pcg_output (pcg_state g)) 32)) (pcg_output (pcg_state (pcg_advance g))).
Proof. done. Qed.

Lemma pcg_output_range x : pcg_output x < u32_size.
Proof. apply N.mod_lt. done. Qed.

Lemma next_u64_range g : (next_u64 g).1 <= u64_max.
Proof.
  enough ((next_u64 g).1 < 2 ^ 64) by (unfold u64_max, u64_size; lia).
  rewrite next_u64_value. apply lor_bound.
  - apply N.mod_lt. done.
  - eapply N.lt_trans; [apply pcg_output_range|done].
Qed.

Lemma Pcg32_new_ok seed stream : pcg_ok (Pcg32_new seed stream).
Proof.
  unfold Pcg32_new. simpl. apply pcg_advance_ok. split_and!; simpl; [apply wrap64_range| |].
  - enough (N.lor (wrap64 (N.shiftl stream 1)) 1 < 2 ^ 64) by (unfold u64_max, u64_size; lia).
    apply lor_bound; [apply N.mod_lt|]; done.
  - rewrite <- N.bit0_odd, N.lor_spec. simpl. apply orb_true_r.
Qed.

(** ** Termination of [bounded] *)

Definition lcg (g : Pcg32) : Z -> Z :=
  affine (Z.of_N kMultiplier) (Z.of_N (pcg_increment g)).

Lemma advance_lcg g n :
  (Z.of_N (pcg_state (N.iter n pcg_advance g)) mod 2 ^ 64 =
   N.iter n (lcg g) (Z.of_N (pcg_state g)) mod 2 ^ 64)%Z /\
  pcg_increment (N.iter n pcg_advance g) = pcg_increment g.
Proof.
  induction n as [|n [IH Hi]] using N.peano_ind; [done|]. rewrite !N.iter_succ. split; [|done].
  unfold pcg_advance at 1. cbn [pcg_state]. rewrite Hi. unfold add64, mul64, wrap64, u64_size.
  rewrite N.Div0.add_mod_idemp_l. rewrite N2Z.inj_mod, N2Z.inj_add, N2Z.inj_mul.
  change (Z.of_N (2 ^ 64)) with (2 ^ 64)%Z. rewrite Z.mod_mod by done. unfold lcg at 1, affine.
  rewrite (Z.mul_comm (Z.of_N kMultiplier)), <- Z.add_mod_idemp_l, <- Z.mul_mod_idemp_l, IH by done.
  by rewrite Z.mul_mod_idemp_l, Z.add_mod_idemp_l by done.
Qed.

(** The generator reaches every state in fewer than [2 ^ 64] steps. *)
Lemma pcg_full_period g t :
  pcg_ok g -> t <= u64_max ->
  exists n, n < 2 ^ 64 /\ pcg_state (N.iter n pcg_advance g) = t.
Proof.
  intros (Hs & Hi & Hodd) Ht.
  destruct (affine_reach (Z.of_N kMultiplier) (Z.of_N (pcg_increment g))) with
    (k := 64%nat) (x := Z.of_N (pcg_state g)) (t := Z.of_N t) as (n & Hn & Hd).
  - exists 1591034055961698251%Z. reflexivity.
  - apply N.odd_spec in Hodd as [q ->]. exists (Z.of_N q). lia.
  - exists n. split; [done|]. change (2 ^ Z.of_nat 64)%Z with (2 ^ 64)%Z in Hd.
    apply Z.mod_divide in Hd; [|done]. apply Z.cong_iff_0 in Hd.
    fold (lcg g) in Hd. destruct (advance_lcg g n) as [He _]. rewrite Hd in He.
    assert (Hr : pcg_state (N.iter n pcg_advance g) <= u64_max).
    { destruct n as [|n] using N.peano_ind; [done|]. rewrite N.iter_succ. apply wrap64_range. }
    unfold u64_max, u64_size in *. rewrite !Z.mod_small in He by lia. lia.
Qed.

Lemma advance_parity g n :
  pcg_ok g ->
  N.odd (pcg_state (N.iter n pcg_advance g)) = xorb (N.odd (pcg_state g)) (N.odd n).
Proof.
  intros (_ & _ & Hodd). induction n as [|n IH] using N.peano_ind; [by rewrite xorb_false_r|].
  rewrite N.iter_succ. unfold pcg_advance at 1. cbn [pcg_state].
  destruct (advance_lcg g n) as [_ ->]. unfold add64, mul64, wrap64.
  rewrite N.Div0.add_mod_idemp_l. unfold u64_size.
  rewrite <- (N.bit0_odd (_ mod _)), N.mod_pow2_bits_low, N.bit0_odd by done.
  rewrite N.odd_add, N.odd_mul, Hodd, IH, N.odd_succ, <- N.negb_odd.
  change (N.odd kMultiplier) with true.
  by destruct (N.odd (pcg_state g)), (N.odd n).
Qed.

Lemma iterate_pow_inr {St R} (body : St -> St + R) (Inv : St -> Prop) :
  (forall s s', Inv s -> body s = inl s' -> Inv s') ->
  forall k s r, Inv s -> iterate_pow body k s = inr r -> exists s', Inv s' /\ body s' = inr r.
Proof.
  intros Hstep k s r Hi.
  enough (match iterate_pow body k s with
          | inl s' => Inv s'
          | inr r => exists s', Inv s' /\ body s' = inr r
          end) as H by (intros E; by rewrite E in H).
  revert s Hi. induction k as [|k IH]; intros s Hi; simpl.
  - destruct (body s) eqn:E; [by eapply Hstep|by exists s].
  - specialize (IH s Hi) as H1. destruct (iterate_pow body k s); [by apply IH|done].
Qed.

Lemma bounded_turn_inl b g g' : bounded_turn b g = inl g' -> g' = pcg_advance (pcg_advance g).
Proof.
  unfold bounded_turn. rewrite (surjective_pairing (next_u64 g)), next_u64_state.
  destruct (_ <=? _); by intros [= <-].
Qed.

Lemma twice_iter {A} (f : A -> A) n x : N.iter n (fun y => f (f y)) x = N.iter (2 * n) f x.
Proof.
  induction n as [|n IH] using N.peano_ind; [done|].
  rewrite N.iter_succ, IH. replace (2 * N.succ n) with (N.succ (N.succ (2 * n))) by lia.
  by rewrite !N.iter_succ.
Qed.

Lemma threshold_spec b :
  0 < b -> b <= u64_max ->
  threshold b = u64_size mod b /\ threshold b < b /\ threshold b <= 2 ^ 63.
Proof.
  intros Hb Hm.
  assert (He : threshold b = u64_size mod b).
  { unfold threshold, sub64, wrap64. rewrite N.add_0_l, (N.mod_small (u64_size - b)) by (unfold u64_max, u64_size in *; lia).
    rewrite <- (N.Div0.mod_add (u64_size - b) 1 b). f_equal. unfold u64_max, u64_size in *. lia. }
  rewrite He. pose proof (N.mod_upper_bound u64_size b ltac:(lia)) as Hlt. split_and!; [done|done|].
  destruct (N.le_gt_cases b (2 ^ 63)) as [?|Hgt]; [lia|].
  pose proof (N.Div0.div_mod u64_size b) as Hd.
  assert (1 <= u64_size / b) by (apply N.div_le_lower_bound; unfold u64_max, u64_size in *; lia).
  unfold u64_size in *. nia.
Qed.

(** A state whose first word has its top bit set is accepted. *)
Lemma high_state_accepted b g :
  0 < b -> b <= u64_max ->
  pcg_state g = 2 ^ 58 \/ pcg_state g = 2 ^ 58 + 1 ->
  exists r, bounded_turn b g = inr r.
Proof.
  intros Hb Hm Hs. destruct (threshold_spec b Hb Hm) as (_ & _ & Ht).
  unfold bounded_turn. rewrite (surjective_pairing (next_u64 g)), next_u64_value.
  set (lo := pcg_output (pcg_state (pcg_advance g))).
  assert (Hhi : wrap64 (N.shiftl (pcg_output (pcg_state g)) 32) = 2 ^ 63 + 2 ^ 45)
    by (destruct Hs as [-> | ->]; vm_compute; reflexivity).
  rewrite Hhi.
  assert (Hge : 2 ^ 63 <= N.lor (2 ^ 63 + 2 ^ 45) lo).
  { transitivity (2 ^ N.log2 (N.lor (2 ^ 63 + 2 ^ 45) lo)).
    - apply N.pow_le_mono_r; [done|]. rewrite N.log2_lor. change (N.log2 (2 ^ 63 + 2 ^ 45)) with 63. lia.
    - apply N.log2_spec. destruct (N.eq_dec (N.lor (2 ^ 63 + 2 ^ 45) lo) 0) as [H0|]; [|lia].
      by apply N.lor_eq_0_iff in H0 as [? _]. }
  destruct (N.leb_spec (threshold b) (N.lor (2 ^ 63 + 2 ^ 45) lo)); [by eexists|lia].
Qed.

Lemma bounded_loop_returns b g :
  pcg_ok g -> 0 < b -> b <= u64_max ->
  exists r, iterate_pow (bounded_turn b) 63 g = inr r.
Proof.
  intros Hg Hb Hm. destruct (iterate_pow (bounded_turn b) 63 g) as [g'|r] eqn:E; [|by eexists].
  destruct (iterate_pow_inl _ _ (bounded_turn_inl b) _ _ _ E) as [_ Hall].
  set (t := 2 ^ 58 + N.b2n (N.odd (pcg_state g))).
  destruct (pcg_full_period g t Hg) as (n & Hn & Ht).
  { unfold t, u64_max, u64_size. destruct (N.odd (pcg_state g)); simpl; lia. }
  assert (Hev : N.odd n = false).
  { pose proof (advance_parity g n Hg) as Hp. rewrite Ht in Hp. unfold t in Hp.
    rewrite N.odd_add in Hp. change (N.odd (2 ^ 58)) with false in Hp.
    by destruct (N.odd (pcg_state g)), (N.odd n). }
  assert (He : N.even n = true) by (by rewrite <- N.negb_odd, Hev).
  apply N.even_spec in He as [j ->]. change (2 ^ N.of_nat 63) with (2 ^ 63) in Hall.
  destruct (Hall j ltac:(lia)) as [g2 Hj]. rewrite twice_iter in Hj.
  destruct (high_state_accepted b (N.iter (2 * j) pcg_advance g) Hb Hm) as [r Hr]; [|congruence].
  rewrite Ht. unfold t. destruct (N.odd (pcg_state g)); simpl; auto.
Qed.

(** The words accepted for a result [r] are [2 ^ 64 / b] consecutive members of
    its residue class. *)
Lemma accepted_words b r v :
  0 < b -> b <= u64_max -> r < b ->
  (threshold b <= v /\ v <= u64_max /\ v mod b = r) <->
  exists q, q < u64_size / b /\ v = r + (q + N.b2n (r <? threshold b)) * b.
Proof.
  intros Hb Hm Hr. destruct (threshold_spec b Hb Hm) as (Ht & Hlt & _).
  pose proof (N.Div0.div_mod u64_size b) as Hd. rewrite <- Ht in Hd.
  assert (Hmax : u64_max + 1 = u64_size) by done. set (K := u64_size / b) in *.
  destruct (N.ltb_spec r (threshold b)) as [Hrt|Hrt]; cbn [N.b2n]; split.
  - intros (H1 & H2 & H3). pose proof (N.Div0.div_mod v b) as Hv. rewrite H3 in Hv.
    set (d := v / b) in *. assert (1 <= d) by nia. assert (d < K + 1) by nia.
    exists (d - 1). split; [lia|]. replace (d - 1 + 1) with d by lia. lia.
  - intros (q & Hq & ->). split_and!; [nia|nia|]. rewrite N.Div0.mod_add. by apply N.mod_small.
  - intros (H1 & H2 & H3). pose proof (N.Div0.div_mod v b) as Hv. rewrite H3 in Hv.
    set (d := v / b) in *. assert (d < K) by nia. exists d. split; [lia|]. rewrite N.add_0_r. lia.
  - intros (q & Hq & ->). split_and!; [nia|nia|]. rewrite N.Div0.mod_add. by apply N.mod_small.
Qed.

Lemma bounded_spec g b :
  pcg_ok g -> 0 < b -> b <= u64_max ->
  exists v g', iterate_pow (bounded_turn b) 63 g = inr (v mod b, g') /\
    threshold b <= v /\ v <= u64_max /\ pcg_ok g'.
Proof.
  intros Hg Hb Hm. destruct (bounded_loop_returns b g Hg Hb Hm) as [r Hr].
  destruct (iterate_pow_inr (bounded_turn b) pcg_ok) with (k := 63%nat) (s := g) (r := r)
    as (g1 & Hg1 & Ht); [|done..|].
  - intros s s' Hs ->%bounded_turn_inl. by do 2 apply pcg_advance_ok.
  - revert Ht. unfold bounded_turn. rewrite (surjective_pairing (next_u64 g1)).
    destruct (N.leb_spec (threshold b) (next_u64 g1).1); [|done]. intros [= <-].
    exists (next_u64 g1).1, (next_u64 g1).2. split_and!; [done|done|apply next_u64_range|].
    rewrite next_u64_state. by do 2 apply pcg_advance_ok.
Qed.

Lemma bounded_result g b : 0 < b -> forall r, iterate_pow (bounded_turn b) 63 g = inr r -> bounded g b = r.
Proof. intros Hb r Hr. unfold bounded. rewrite Hr. by destruct (N.eqb_spec b 0); [lia|]. Qed.

(** The sampling the election jitter uses stays inside its interval. *)
Lemma inclusive_range g lo hi :
  pcg_ok g -> lo <= hi -> hi <= u64_max -> lo <= (inclusive g lo hi).1 <= hi /\ pcg_ok (inclusive g lo hi).2.
Proof.
  intros Hg Hle Hmax. unfold inclusive. destruct (N.ltb_spec hi lo); [lia|].
  rewrite sub64_small by done. destruct (N.eqb_spec (hi - lo) u64_max) as [He|Hne].
  - pose proof (next_u64_range g). split; [unfold u64_max, u64_size in *; lia|].
    rewrite next_u64_state. by do 2 apply pcg_advance_ok.
  - rewrite (add64_small (hi - lo) 1) by lia.
    destruct (bounded_spec g (hi - lo + 1) Hg ltac:(lia) ltac:(lia)) as (v & g' & Hr & _ & _ & Hok).
    rewrite (bounded_result g (hi - lo + 1) ltac:(lia) _ Hr).
    pose proof (N.mod_upper_bound v (hi - lo + 1) ltac:(lia)). cbn [fst snd].
    generalize dependent (v mod (hi - lo + 1)). intros m _ Hm. rewrite add64_small by lia.
    split; [lia|done].
Qed.

(** The generator after [n] 64-bit words. *)
Definition skip_words (n : N) (g : Pcg32) : Pcg32 := N.iter n (fun g => (next_u64 g).2) g.

Lemma bounded_turn_cases b g :
  bounded_turn b g = if threshold b <=? (next_u64 g).1
                     then inr ((next_u64 g).1 mod b, (next_u64 g).2) else inl (next_u64 g).2.
Proof. unfold bounded_turn. by rewrite (surjective_pairing (next_u64 g)). Qed.

(** (bounded sampling).  The rejection loop of [Pcg32::bounded] terminates for
    every seed and every bound: fewer than [2 ^ 63] words are rejected, the result
    is the first word at or above the threshold reduced by the bound, and the
    generator stands right after it.  The result is unbiased: of the 64-bit words,
    exactly [2 ^ 64 / b] are accepted for each of the [b] results. *)
Theorem pcg_bounded_total g b :
  pcg_ok g -> 0 < b -> b <= u64_max ->
  exists n, n < 2 ^ 63 /\
    bounded g b = ((next_u64 (skip_words n g)).1 mod b, skip_words (n + 1) g) /\
    threshold b <= (next_u64 (skip_words n g)).1 /\
    (forall i, i < n -> (next_u64 (skip_words i g)).1 < threshold b) /\
    forall r w, r < b ->
      (threshold b <= w /\ w <= u64_max /\ w mod b = r) <->
      exists q, q < u64_size / b /\ w = r + (q + N.b2n (r <? threshold b)) * b.
Proof.
  intros Hg Hb Hm. destruct (bounded_loop_returns b g Hg Hb Hm) as [r Hr].
  destruct (iterate_pow_first _ (fun g => (next_u64 g).2) (bounded_turn_inl b) _ _ _ Hr)
    as (n & Hn & Ht & Hi).
  rewrite (bounded_result g b Hb r Hr). exists n. rewrite bounded_turn_cases in Ht.
  fold (skip_words n g) in Ht.
  destruct (N.leb_spec (threshold b) (next_u64 (skip_words n g)).1) as [Hle|]; [|done].
  injection Ht as <-. split_and!; [done| |done| |intros r w Hw; by apply accepted_words].
  - unfold skip_words. rewrite N.add_1_r, N.iter_succ. done.
  - intros i Hin. destruct (Hi i Hin) as [t Hrej]. rewrite bounded_turn_cases in Hrej.
    fold (skip_words i g) in Hrej. destruct (N.leb_spec (threshold b) (next_u64 (skip_words i g)).1); done.
Qed.

Lemma pcg_bounded_total_witness :
  exists n, n < 2 ^ 63 /\
    bounded (Pcg32_new 42 54) 6 =
      ((next_u64 (skip_words n (Pcg32_new 42 54))).1 mod 6, skip_words (n + 1) (Pcg32_new 42 54)).
Proof.
  destruct (pcg_bounded_total (Pcg32_new 42 54) 6) as (n & Hn & Hb & _).
  - exact (Pcg32_new_ok 42 54).
  - reflexivity.
  - vm_compute. discriminate.
  - exists n. split; [exact Hn|exact Hb].
Defined.
