(* ===== verification/SimQueue.v ===== *)
(** * SimQueue: the event queue of the simulator

    Translation of the event types and of [EventQueue] of
    [include/detlog/simulator.hpp] and [src/simulator.cpp].  The queue keeps its
    events in a vector ordered by the heap algorithms of the C++ standard
    library.  The standard fixes what these algorithms achieve, not the layout
    they choose, so they are an interface here: [HeapLib] holds the three
    functions, [HeapLaws] what the standard says of them, and every theorem holds
    for every library that satisfies it. *)

From S2P Require Import Prelude Model Bytes.

(** ** Events *)

Inductive StorageOperationKind := op_write | op_flush.
Inductive StorageCompletionStatus := completed_ok | completed_io_error | completed_short_write.

#[global] Instance storage_kind_eq_dec : EqDecision StorageOperationKind.
Proof. solve_decision. Defined.
#[global] Instance storage_status_eq_dec : EqDecision StorageCompletionStatus.
Proof. solve_decision. Defined.

Record TimerEvent := mkTimerEvent {
  te_node : NodeId; te_kind : TimerKind; te_generation : N; te_incarnation : N;
}.

Record NetworkEvent := mkNetworkEvent {
  ne_delivery_id : N; ne_from : NodeId; ne_to : NodeId;
  ne_from_incarnation : N; ne_to_incarnation : N; ne_copy_index : N; ne_bytes : list N;
}.

Record StorageEvent := mkStorageEvent {
  se_node : NodeId; se_operation_id : StorageOpId; se_kind : StorageOperationKind;
  se_incarnation : N; se_byte_count : N; se_status : StorageCompletionStatus;
}.

Record UserEvent := mkUserEvent {
  ue_node : NodeId; ue_tag : N; ue_incarnation : N; ue_bytes : list N;
}.

Inductive EventPayload :=
  | PTimer (e : TimerEvent)
  | PNetwork (e : NetworkEvent)
  | PStorage (e : StorageEvent)
  | PUser (e : UserEvent).

Record ScheduledEvent := mkScheduledEvent {
  ev_time : Tick; ev_sequence : N; ev_payload : EventPayload;
}.

(** [EarlierEvent]: the lexicographic comparison of time and sequence. *)
Definition later (l r : ScheduledEvent) : bool :=
  (ev_time r <? ev_time l) || ((ev_time l =? ev_time r) && (ev_sequence r <? ev_sequence l)).

(** ** The heap algorithms of the standard library *)

Class HeapLib := {
  push_heap : list ScheduledEvent -> list ScheduledEvent;
  pop_heap : list ScheduledEvent -> list ScheduledEvent;
  make_heap : list ScheduledEvent -> list ScheduledEvent;
}.

(** [std::is_heap] with comparator [later]: no element is later than its
    children. *)
Definition is_heap (l : list ScheduledEvent) : Prop :=
  forall i p c, (0 < i)%nat -> l !! Nat.div2 (i - 1) = Some p -> l !! i = Some c -> later p c = false.

(** What the standard requires of [std::push_heap], [std::pop_heap] and
    [std::make_heap]. *)
Class HeapLaws `{HeapLib} : Prop := {
  push_heap_ok h e : is_heap h -> push_heap (h ++ [e]) ≡ₚ h ++ [e] /\ is_heap (push_heap (h ++ [e]));
  pop_heap_ok e h : is_heap (e :: h) ->
    exists h', pop_heap (e :: h) = h' ++ [e] /\ h' ≡ₚ h /\ is_heap h';
  make_heap_ok l : make_heap l ≡ₚ l /\ is_heap (make_heap l);
}.

(** ** The queue *)

Record EventQueueLimits := mkEventQueueLimits { max_pending_events : N; max_total_events : N }.

Definition default_queue_limits : EventQueueLimits := mkEventQueueLimits 100000 1000000.

Inductive ScheduleStatus :=
  | sched_scheduled
  | sched_unknown_node
  | sched_node_down
  | sched_payload_limit
  | sched_time_in_past
  | sched_time_overflow
  | sched_pending_limit
  | sched_total_limit
  | sched_sequence_exhausted.

Record ScheduleResult := mkScheduleResult { sched_status : ScheduleStatus; sched_sequence : N }.

#[global] Instance schedule_status_eq_dec : EqDecision ScheduleStatus.
Proof. solve_decision. Defined.

Definition sched_ok (r : ScheduleResult) : bool := bool_decide (sched_status r = sched_scheduled).

Record EventQueue := mkEventQueue {
  q_limits : EventQueueLimits;
  q_now : Tick;
  q_next_sequence : N;
  q_total_scheduled : N;
  q_heap : list ScheduledEvent;
}.

Definition EventQueue_new (limits : EventQueueLimits) : EventQueue := mkEventQueue limits 0 1 0 [].

Definition add_overflows (lhs rhs : N) : bool := u64_max - lhs <? rhs.
Definition pending (q : EventQueue) : N := N.of_nat (length (q_heap q)).

(** The successor of a counter that reserves zero: at its last value it becomes
    zero and stays there. *)
Definition next_id (x : N) : N := if x =? u64_max then 0 else add64 x 1.

Section queue.
Context `{HeapLib}.

Definition schedule_at (q : EventQueue) (time : Tick) (payload : EventPayload)
  : ScheduleResult * EventQueue :=
  if time <? q_now q then (mkScheduleResult sched_time_in_past 0, q)
  else if max_pending_events (q_limits q) <=? pending q then (mkScheduleResult sched_pending_limit 0, q)
  else if max_total_events (q_limits q) <=? q_total_scheduled q
  then (mkScheduleResult sched_total_limit 0, q)
  else if q_next_sequence q =? 0 then (mkScheduleResult sched_sequence_exhausted 0, q)
  else
    let sequence := q_next_sequence q in
    (mkScheduleResult sched_scheduled sequence,
     mkEventQueue (q_limits q) (q_now q) (next_id sequence) (add64 (q_total_scheduled q) 1)
       (push_heap (q_heap q ++ [mkScheduledEvent time sequence payload]))).

Definition schedule_after (q : EventQueue) (delay : Tick) (payload : EventPayload)
  : ScheduleResult * EventQueue :=
  if add_overflows (q_now q) delay then (mkScheduleResult sched_time_overflow 0, q)
  else schedule_at q (add64 (q_now q) delay) payload.

(** [pop_heap] moves the front to the back, which is then removed. *)
Definition pop_next (q : EventQueue) : option ScheduledEvent * EventQueue :=
  match q_heap q with
  | [] => (None, q)
  | _ =>
      let heap := pop_heap (q_heap q) in
      match last heap with
      | None => (None, q)
      | Some event =>
          (Some event,
           mkEventQueue (q_limits q) (ev_time event) (q_next_sequence q) (q_total_scheduled q)
             (take (length heap - 1) heap))
      end
  end.

Definition extract_if (q : EventQueue) (predicate : ScheduledEvent -> bool)
  : list ScheduledEvent * EventQueue :=
  let removed := filter (fun e => predicate e = true) (q_heap q) in
  let kept := filter (fun e => predicate e = false) (q_heap q) in
  (removed,
   mkEventQueue (q_limits q) (q_now q) (q_next_sequence q) (q_total_scheduled q) (make_heap kept)).
End queue.

Definition can_schedule (q : EventQueue) (count : N) : bool :=
  let l := q_limits q in
  if (max_pending_events l <? count) || (max_pending_events l - count <? pending q) then false
  else if (max_total_events l <? count) || (max_total_events l - count <? q_total_scheduled q) then false
  else if q_next_sequence q =? 0 then false
  else count <=? add64 (sub64 u64_max (q_next_sequence q)) 1.

(** ** The order of events *)

Definition ev_le (a b : ScheduledEvent) : Prop := later a b = false.
Definition ev_lt (a b : ScheduledEvent) : Prop := later b a = true.

Lemma ev_le_spec a b :
  ev_le a b <-> ev_time a < ev_time b \/ (ev_time a = ev_time b /\ ev_sequence a <= ev_sequence b).
Proof.
  unfold ev_le, later.
  destruct (N.ltb_spec (ev_time b) (ev_time a)), (N.eqb_spec (ev_time a) (ev_time b)),
    (N.ltb_spec (ev_sequence b) (ev_sequence a)); simpl; split; intros; try done; lia.
Qed.

Lemma ev_lt_spec a b :
  ev_lt a b <-> ev_time a < ev_time b \/ (ev_time a = ev_time b /\ ev_sequence a < ev_sequence b).
Proof.
  unfold ev_lt, later.
  destruct (N.ltb_spec (ev_time a) (ev_time b)), (N.eqb_spec (ev_time b) (ev_time a)),
    (N.ltb_spec (ev_sequence a) (ev_sequence b)); simpl; split; intros; try done; lia.
Qed.

#[global] Instance ev_le_dec : RelDecision ev_le.
Proof. intros a b. unfold ev_le. apply _. Defined.
#[global] Instance ev_le_total : Total ev_le.
Proof. intros a b. rewrite !ev_le_spec. lia. Qed.
#[global] Instance ev_le_trans : Transitive ev_le.
Proof. intros a b c. rewrite !ev_le_spec. lia. Qed.
#[global] Instance ev_le_refl : Reflexive ev_le.
Proof. intros a. rewrite ev_le_spec. lia. Qed.

Lemma ev_le_antisym_seq a b : ev_le a b -> ev_le b a -> ev_sequence a = ev_sequence b.
Proof. rewrite !ev_le_spec. lia. Qed.

(** The front of a heap is its minimum. *)
Lemma heap_front h e : is_heap (e :: h) -> forall x, x ∈ e :: h -> ev_le e x.
Proof.
  intros Hh x [i Hi]%list_elem_of_lookup. revert x Hi.
  induction i as [i IH] using lt_wf_ind. intros x Hi.
  destruct i as [|i]; [simpl in Hi; injection Hi as ->; reflexivity|].
  assert (Hlt : (Nat.div2 (S i - 1) < S i)%nat) by (pose proof (Nat.div2_decr (S i - 1) i); lia).
  destruct ((e :: h) !! Nat.div2 (S i - 1)) as [p|] eqn:Hp.
  - transitivity p; [by apply (IH _ Hlt)|]. by apply (Hh (S i) p x ltac:(lia) Hp Hi).
  - apply lookup_ge_None in Hp. apply lookup_lt_Some in Hi. lia.
Qed.

Lemma sorted_lookup l i j x y :
  StronglySorted ev_le l -> l !! i = Some x -> l !! j = Some y -> (i < j)%nat -> ev_le x y.
Proof.
  intros Hs. revert i j. induction Hs as [|a l Hs IH Ha]; intros i j Hi Hj Hij; [done|].
  destruct j as [|j]; [lia|]. destruct i as [|i]; simpl in *.
  - injection Hi as ->. rewrite Forall_forall in Ha. apply Ha. by eapply list_elem_of_lookup_2.
  - apply (IH i j Hi Hj). lia.
Qed.

Lemma sorted_is_heap l : StronglySorted ev_le l -> is_heap l.
Proof.
  intros Hs i p c Hi Hp Hc.
  assert (Hlt : (Nat.div2 (i - 1) < i)%nat) by (pose proof (Nat.div2_decr (i - 1) (i - 1)); lia).
  by apply (sorted_lookup l (Nat.div2 (i - 1)) i).
Qed.

(** A library that keeps its heaps sorted satisfies the interface. *)
Definition sorted_heap_lib : HeapLib := {|
  push_heap := merge_sort ev_le;
  pop_heap l := match l with [] => [] | e :: h => merge_sort ev_le h ++ [e] end;
  make_heap := merge_sort ev_le;
|}.

Lemma sort_heap_ok l : merge_sort ev_le l ≡ₚ l /\ is_heap (merge_sort ev_le l).
Proof.
  split; [apply merge_sort_Permutation|]. apply sorted_is_heap.
  by apply StronglySorted_merge_sort; apply _.
Qed.

Lemma sorted_heap_laws : @HeapLaws sorted_heap_lib.
Proof.
  split; simpl.
  - intros h e _. apply sort_heap_ok.
  - intros e h _. exists (merge_sort ev_le h). split; [done|apply sort_heap_ok].
  - apply sort_heap_ok.
Qed.

(** A library with another layout: the two children of the root are swapped. *)
Definition swap_siblings (l : list ScheduledEvent) : list ScheduledEvent :=
  match l with a :: b :: c :: l => a :: c :: b :: l | _ => l end.

Definition swapped_heap_lib : HeapLib := {|
  push_heap l := swap_siblings (merge_sort ev_le l);
  pop_heap l := match l with [] => [] | e :: h => swap_siblings (merge_sort ev_le h) ++ [e] end;
  make_heap l := swap_siblings (merge_sort ev_le l);
|}.

Lemma swap_siblings_heap l : StronglySorted ev_le l -> is_heap (swap_siblings l).
Proof.
  intros Hs. destruct l as [|a [|b [|c l]]]; try by apply sorted_is_heap. simpl.
  pose proof (fun i j x y => sorted_lookup _ i j x y Hs) as Hle.
  intros i p x Hi Hp Hx. change (ev_le p x).
  destruct i as [|[|[|i]]]; [lia|..].
  - simpl in Hp, Hx. simplify_eq. apply (Hle 0%nat 2%nat); [done..|lia].
  - simpl in Hp, Hx. simplify_eq. apply (Hle 0%nat 1%nat); [done..|lia].
  - change (l !! i = Some x) in Hx. assert (Hlt : (Nat.div2 (S (S (S i)) - 1) < S (S (S i)))%nat)
      by (pose proof (Nat.div2_decr (S (S (S i)) - 1) (S (S i))); lia).
    destruct (Nat.div2 _) as [|[|[|j]]]; simpl in Hp; simplify_eq.
    + apply (Hle 0%nat (S (S (S i)))); [done..|lia].
    + apply (Hle 2%nat (S (S (S i)))); [done..|lia].
    + apply (Hle 1%nat (S (S (S i)))); [done..|lia].
    + apply (Hle (S (S (S j))) (S (S (S i)))); [done..|lia].
Qed.

Lemma swapped_ok l :
  swap_siblings (merge_sort ev_le l) ≡ₚ l /\ is_heap (swap_siblings (merge_sort ev_le l)).
Proof.
  split.
  - rewrite <- (merge_sort_Permutation ev_le l) at 2.
    destruct (merge_sort ev_le l) as [|a [|b [|c t]]]; try done. simpl. apply perm_skip, perm_swap.
  - apply swap_siblings_heap. by apply StronglySorted_merge_sort; apply _.
Qed.

Lemma swapped_heap_laws : @HeapLaws swapped_heap_lib.
Proof.
  split; simpl.
  - intros h e _. apply swapped_ok.
  - intros e h _. exists (swap_siblings (merge_sort ev_le h)). split; [done|apply swapped_ok].
  - apply swapped_ok.
Qed.

(** ** The invariant of the queue *)

Record queue_ok (q : EventQueue) : Prop := {
  qo_heap : is_heap (q_heap q);
  qo_sequences : NoDup (ev_sequence <$> q_heap q);
  qo_range : Forall (fun e => 1 <= ev_sequence e <= u64_max /\
                              (q_next_sequence q = 0 \/ ev_sequence e < q_next_sequence q)) (q_heap q);
  qo_times : Forall (fun e => q_now q <= ev_time e <= u64_max) (q_heap q);
  qo_now : q_now q <= u64_max;
  qo_next : q_next_sequence q <= u64_max;
  qo_pending : pending q <= max_pending_events (q_limits q);
  qo_total : q_total_scheduled q <= max_total_events (q_limits q);
  qo_limits : max_total_events (q_limits q) <= u64_max;
}.

Lemma queue_new_ok limits : max_total_events limits <= u64_max -> queue_ok (EventQueue_new limits).
Proof.
  intros Hl. split; simpl; try (by constructor); [|done|done|unfold pending; simpl; lia|lia|done].
  intros i p c _. by rewrite !lookup_nil.
Qed.

(** Two queues that hold the same events. *)
Definition queue_eq (q1 q2 : EventQueue) : Prop :=
  q_limits q1 = q_limits q2 /\ q_now q1 = q_now q2 /\ q_next_sequence q1 = q_next_sequence q2 /\
  q_total_scheduled q1 = q_total_scheduled q2 /\ q_heap q1 ≡ₚ q_heap q2.

#[global] Instance queue_eq_equiv : Equivalence queue_eq.
Proof.
  split.
  - intros q. done.
  - intros q1 q2 (? & ? & ? & ? & ?). split_and!; by symmetry.
  - intros q1 q2 q3 (? & ? & ? & ? & ?) (? & ? & ? & ? & ?). split_and!; by etrans.
Qed.

Lemma queue_eq_pending q1 q2 : queue_eq q1 q2 -> pending q1 = pending q2.
Proof. intros (_ & _ & _ & _ & Hp). unfold pending. by rewrite Hp. Qed.

Lemma queue_eq_can_schedule q1 q2 n : queue_eq q1 q2 -> can_schedule q1 n = can_schedule q2 n.
Proof.
  intros He. pose proof (queue_eq_pending _ _ He) as Hp. destruct He as (Hl & _ & Hs & Ht & _).
  unfold can_schedule. by rewrite Hl, Hs, Ht, Hp.
Qed.

Lemma next_id_spec x : 1 <= x <= u64_max -> next_id x = 0 \/ next_id x = x + 1 /\ next_id x <= u64_max.
Proof.
  intros Hx. unfold next_id. destruct (N.eqb_spec x u64_max); [by left|right].
  rewrite add64_small by lia. lia.
Qed.

(** What [schedule_at] does when it accepts an event. *)
Definition accepts_event (q : EventQueue) (time : Tick) : bool :=
  negb (time <? q_now q) && (pending q <? max_pending_events (q_limits q)) &&
  (q_total_scheduled q <? max_total_events (q_limits q)) && negb (q_next_sequence q =? 0).

Section laws.
Context `{HeapLaws}.

Lemma push_perm h e : is_heap h -> push_heap (h ++ [e]) ≡ₚ e :: h.
Proof. intros Hh. rewrite (proj1 (push_heap_ok h e Hh)). by rewrite (comm app). Qed.

Lemma schedule_at_spec q time p :
  queue_ok q -> time <= u64_max ->
  let '(r, q') := schedule_at q time p in
  sched_ok r = accepts_event q time /\ queue_ok q' /\
  if accepts_event q time then
    sched_sequence r = q_next_sequence q /\ q_now q' = q_now q /\ q_limits q' = q_limits q /\
    q_next_sequence q' = next_id (q_next_sequence q) /\
    q_total_scheduled q' = q_total_scheduled q + 1 /\
    q_heap q' ≡ₚ mkScheduledEvent time (q_next_sequence q) p :: q_heap q
  else q' = q.
Proof.
  intros Hq Hmax. unfold schedule_at, accepts_event.
  destruct (N.ltb_spec time (q_now q)) as [?|Htime]; [done|].
  destruct (N.leb_spec (max_pending_events (q_limits q)) (pending q)) as [Hp|Hp];
    [by rewrite (proj2 (N.ltb_ge _ _) Hp)|rewrite (proj2 (N.ltb_lt _ _) Hp)].
  destruct (N.leb_spec (max_total_events (q_limits q)) (q_total_scheduled q)) as [Ht|Ht];
    [by rewrite (proj2 (N.ltb_ge _ _) Ht)|rewrite (proj2 (N.ltb_lt _ _) Ht)].
  destruct (N.eqb_spec (q_next_sequence q) 0) as [|Hs]; [done|]. simpl.
  pose proof Hq as [Hheap Hnd Hr Htm Hnow Hn Hpd Htl Hlm].
  pose proof (push_perm (q_heap q) (mkScheduledEvent time (q_next_sequence q) p) Hheap) as Hperm.
  rewrite add64_small by lia. split; [done|]. split; [|done].
  split; simpl; rewrite ?Hperm; simpl.
  - apply push_heap_ok. done.
  - constructor; [|done]. rewrite list_elem_of_fmap. intros (e & He & Hin).
    rewrite Forall_forall in Hr. destruct (Hr e Hin) as [_ [?|?]]; lia.
  - assert (Hnext : forall x, 1 <= x <= q_next_sequence q ->
              next_id (q_next_sequence q) = 0 \/ x < next_id (q_next_sequence q)).
    { intros x Hx. destruct (next_id_spec (q_next_sequence q)); lia. }
    constructor; simpl; [split; [lia|apply Hnext; lia]|].
    eapply Forall_impl; [exact Hr|]. intros e [? [?|?]]; (split; [done|]); [lia|]. apply Hnext. lia.
  - by constructor.
  - done.
  - destruct (next_id_spec (q_next_sequence q)); lia.
  - unfold pending in *. simpl. rewrite Hperm. simpl. lia.
  - lia.
  - done.
Qed.

(** [pop_next] removes the event that comes before all others. *)
Lemma pop_next_spec q :
  queue_ok q ->
  match pop_next q with
  | (None, q') => q_heap q = [] /\ q' = q
  | (Some e, q') =>
      q_heap q ≡ₚ e :: q_heap q' /\ Forall (ev_lt e) (q_heap q') /\ queue_ok q' /\
      q_now q' = ev_time e /\ q_now q <= ev_time e /\ q_limits q' = q_limits q /\
      q_next_sequence q' = q_next_sequence q /\ q_total_scheduled q' = q_total_scheduled q
  end.
Proof.
  intros [Hheap Hnd Hr Htm Hnow Hn Hpd Htl Hlm]. unfold pop_next.
  destruct (q_heap q) as [|e h] eqn:Eh; [done|].
  destruct (pop_heap_ok e h Hheap) as (h' & -> & Hp & Hh'). rewrite last_snoc, length_app. simpl.
  replace (length h' + 1 - 1)%nat with (length h') by lia. rewrite take_app_length.
  pose proof (heap_front _ _ Hheap) as Hmin.
  rewrite fmap_cons, NoDup_cons in Hnd. destruct Hnd as [Hni Hnd].
  apply Forall_cons in Hr as [[He1 He2] Hr]. apply Forall_cons in Htm as [Hte Htm].
  assert (Hlt : Forall (ev_lt e) h').
  { rewrite Hp, Forall_forall. intros x Hx. pose proof (Hmin x ltac:(by right)) as Hle.
    rewrite ev_le_spec in Hle. rewrite ev_lt_spec.
    assert (ev_sequence e <> ev_sequence x).
    { intros Heq. apply Hni. rewrite Heq. by apply list_elem_of_fmap_2. }
    lia. }
  split_and!; try done; [by rewrite Hp| |lia]. split; simpl; try done.
  - by rewrite Hp.
  - by rewrite Hp.
  - rewrite Forall_forall in Hlt, Htm |- *. intros x Hx. pose proof (Hlt x Hx) as Hle.
    rewrite ev_lt_spec in Hle. rewrite Hp in Hx. specialize (Htm x Hx). lia.
  - lia.
  - unfold pending in *. simpl. rewrite Hp. rewrite Eh in Hpd. simpl in Hpd. lia.
Qed.

Lemma Forall_filtered {A} (Q : A -> Prop) (P : A -> Prop) `{!forall x, Decision (P x)} l :
  Forall Q l -> Forall Q (filter P l).
Proof.
  rewrite !Forall_forall. intros HQ x [_ Hx]%list_elem_of_filter. by apply HQ.
Qed.

Lemma extract_if_spec q P :
  queue_ok q ->
  let '(removed, q') := extract_if q P in
  queue_ok q' /\ q_now q' = q_now q /\ q_limits q' = q_limits q /\
  q_next_sequence q' = q_next_sequence q /\ q_total_scheduled q' = q_total_scheduled q /\
  q_heap q' ≡ₚ filter (fun e => P e = false) (q_heap q) /\
  removed = filter (fun e => P e = true) (q_heap q).
Proof.
  intros [Hheap Hnd Hr Htm Hnow Hn Hpd Htl Hlm]. unfold extract_if.
  destruct (make_heap_ok (filter (fun e => P e = false) (q_heap q))) as [Hp Hk].
  split_and!; try done. split; simpl; rewrite ?Hp; try done.
  - apply (sublist_NoDup _ _ Hnd). apply fmap_sublist, sublist_filter.
  - by apply Forall_filtered.
  - by apply Forall_filtered.
  - unfold pending in *. simpl. rewrite Hp.
    pose proof (length_filter (fun e => P e = false) (q_heap q)). lia.
Qed.
End laws.

(** ** The layout of the heap is unobservable *)

Section two_libraries.
Context (L1 L2 : HeapLib) {W1 : @HeapLaws L1} {W2 : @HeapLaws L2}.

Lemma schedule_at_eq q1 q2 time p :
  queue_ok q1 -> queue_ok q2 -> queue_eq q1 q2 ->
  (@schedule_at L1 q1 time p).1 = (@schedule_at L2 q2 time p).1 /\
  queue_eq (@schedule_at L1 q1 time p).2 (@schedule_at L2 q2 time p).2.
Proof.
  intros Hq1 Hq2 He. pose proof (queue_eq_pending _ _ He) as Hp.
  pose proof He as (Hl & Hn & Hs & Ht & Hh). unfold schedule_at. rewrite Hl, Hn, Hs, Ht, Hp.
  repeat case_match; simpl; split; try done. split_and!; simpl; try done.
  rewrite (@push_perm L1 W1) by apply Hq1. rewrite (@push_perm L2 W2) by apply Hq2. by rewrite Hh.
Qed.

Lemma schedule_after_eq q1 q2 delay p :
  queue_ok q1 -> queue_ok q2 -> queue_eq q1 q2 ->
  (@schedule_after L1 q1 delay p).1 = (@schedule_after L2 q2 delay p).1 /\
  queue_eq (@schedule_after L1 q1 delay p).2 (@schedule_after L2 q2 delay p).2.
Proof.
  intros Hq1 Hq2 He. unfold schedule_after. pose proof He as (_ & Hn & _). rewrite Hn.
  destruct (add_overflows _ _); [done|]. by apply schedule_at_eq.
Qed.

(** The minimum is unique because sequence numbers are. *)
Lemma pop_next_eq q1 q2 :
  queue_ok q1 -> queue_ok q2 -> queue_eq q1 q2 ->
  (@pop_next L1 q1).1 = (@pop_next L2 q2).1 /\ queue_eq (@pop_next L1 q1).2 (@pop_next L2 q2).2.
Proof.
  intros Hq1 Hq2 He. pose proof He as (Hl & Hn & Hs & Ht & Hh).
  pose proof (@pop_next_spec L1 W1 q1 Hq1) as S1. pose proof (@pop_next_spec L2 W2 q2 Hq2) as S2.
  destruct (@pop_next L1 q1) as [[e1|] q1'], (@pop_next L2 q2) as [[e2|] q2']; simpl.
  - destruct S1 as (P1 & F1 & _ & N1 & _ & L1' & X1 & T1), S2 as (P2 & F2 & _ & N2 & _ & L2' & X2 & T2).
    assert (e1 = e2) as ->.
    { assert (H1 : e1 ∈ e2 :: q_heap q2') by (rewrite <- P2, <- Hh, P1; by left).
      assert (H2 : e2 ∈ e1 :: q_heap q1') by (rewrite <- P1, Hh, P2; by left).
      apply elem_of_cons in H1 as [?|H1]; [done|]. apply elem_of_cons in H2 as [?|H2]; [done|].
      rewrite Forall_forall in F1, F2. apply F1, ev_lt_spec in H2. apply F2, ev_lt_spec in H1. lia. }
    split; [done|]. split_and!; try congruence.
    apply (Permutation_cons_inv (a := e2)). by rewrite <- P1, <- P2.
  - destruct S1 as (P1 & _), S2 as [E2 _]. rewrite E2, P1 in Hh.
    by apply Permutation_nil_cons in Hh || (symmetry in Hh; by apply Permutation_nil_cons in Hh).
  - destruct S2 as (P2 & _), S1 as [E1 _]. rewrite E1, P2 in Hh. by apply Permutation_nil_cons in Hh.
  - destruct S1 as [_ ->], S2 as [_ ->]. done.
Qed.

Lemma extract_if_eq q1 q2 P :
  queue_ok q1 -> queue_ok q2 -> queue_eq q1 q2 ->
  (@extract_if L1 q1 P).1 ≡ₚ (@extract_if L2 q2 P).1 /\
  queue_eq (@extract_if L1 q1 P).2 (@extract_if L2 q2 P).2.
Proof.
  intros Hq1 Hq2 (Hl & Hn & Hs & Ht & Hh).
  pose proof (@extract_if_spec L1 W1 q1 P Hq1) as S1. pose proof (@extract_if_spec L2 W2 q2 P Hq2) as S2.
  destruct (@extract_if L1 q1 P) as [r1 q1'], (@extract_if L2 q2 P) as [r2 q2']. simpl.
  destruct S1 as (_ & ? & ? & ? & ? & K1 & ->), S2 as (_ & ? & ? & ? & ? & K2 & ->).
  split; [by rewrite Hh|]. split_and!; try congruence. by rewrite K1, K2, Hh.
Qed.
End two_libraries.
