(* ===== verification/Simulator.v ===== *)
(** * Simulator: the deterministic network, clock and storage

    Translation of [Simulator] of [include/detlog/simulator.hpp] and
    [src/simulator.cpp]: one definition per member function, each a function of
    the simulator state that returns the call's result and the new state.  A
    [std::map] is a [gmap]; its [begin()] is the binding with the least key.
    Byte counts are the lengths of byte lists. *)

From S2P Require Import Prelude Model Bytes SimQueue.
#[local] Open Scope string_scope.
#[local] Open Scope list_scope.
#[local] Open Scope N_scope.

(** ** Configuration and results *)

Record TransportLimits := mkTransportLimits {
  tl_max_frame_bytes : N;
  tl_max_queued_bytes_per_link : N;
  tl_max_total_queued_bytes : N;
  tl_max_extra_duplicates_per_send : N;
  tl_drop_in_flight_on_endpoint_crash : bool;
}.

Record StorageLimits := mkStorageLimits {
  sl_max_file_bytes : N;
  sl_max_write_bytes : N;
  sl_max_pending_bytes : N;
  sl_max_pending_operations : N;
}.

Record SimulatorConfig := mkSimulatorConfig {
  sc_events : EventQueueLimits;
  sc_transport : TransportLimits;
  sc_storage : StorageLimits;
  sc_max_trace_records : N;
}.

Definition default_simulator_config : SimulatorConfig :=
  mkSimulatorConfig default_queue_limits
    (mkTransportLimits (1024 * 1024) (2 * 1024 * 1024) (16 * 1024 * 1024) 8 true)
    (mkStorageLimits (64 * 1024 * 1024) (1024 * 1024) (4 * 1024 * 1024) 1024)
    1000000.

Record LinkFaultState := mkLinkFaultState {
  lf_partitioned : bool; lf_additional_delay : Tick; lf_drop_next : N; lf_extra_copies_next : N;
}.

Definition no_fault : LinkFaultState := mkLinkFaultState false 0 0 0.

Inductive SendStatus :=
  | send_queued | send_dropped | send_partitioned | send_unknown_node | send_endpoint_down
  | send_frame_limit | send_queue_limit | send_duplicate_limit | send_time_overflow
  | send_event_limit.

Record SendResult := mkSendResult { sr_send_status : SendStatus; sr_copies : N; sr_queued_bytes : N }.

Record TimerToken := mkTimerToken {
  tt_node : NodeId; tt_kind : TimerKind; tt_generation : N; tt_incarnation : N; tt_event_sequence : N;
}.

Inductive StorageSubmitStatus :=
  | submit_queued | submit_unknown_node | submit_node_down | submit_write_limit
  | submit_pending_limit | submit_file_limit | submit_time_overflow | submit_event_limit
  | submit_id_exhausted.

Record StorageSubmitResult := mkStorageSubmitResult {
  sub_status : StorageSubmitStatus; sub_operation_id : StorageOpId; sub_completion_time : Tick;
}.

Record StorageCrashSpec := mkStorageCrashSpec {
  surviving_unstable_bytes : N; torn_pending_write_bytes : N;
}.

(** ** The trace *)

Inductive SimTraceKind :=
  | sim_node_registered | sim_node_crashed | sim_node_restarted
  | sim_timer_armed | sim_timer_cancelled | sim_timer_fired | sim_stale_event
  | sim_link_fault | sim_network_queued | sim_network_dropped | sim_network_saturated
  | sim_network_delivered | sim_storage_queued | sim_storage_completed | sim_storage_crashed
  | sim_storage_initialized | sim_storage_repaired | sim_storage_fault | sim_storage_saturated
  | sim_user_scheduled | sim_user_delivered.

Record SimTraceRecord := mkSimTraceRecord {
  st_time : Tick; st_sequence : N; st_kind : SimTraceKind; st_node : NodeId; st_peer : NodeId;
  st_token : N; st_incarnation : N; st_bytes : N; st_detail : string;
}.

(** ** State *)

Record PendingStorageOperation := mkPendingStorageOperation {
  po_kind : StorageOperationKind;
  po_bytes : list N;
  po_completion_status : StorageCompletionStatus;
  po_actual_write_bytes : N;
  po_completion_time : Tick;
  po_event_sequence : N;
}.

Record StorageDevice := mkStorageDevice {
  sd_stable : list N;
  sd_unstable : list N;
  sd_pending : gmap N PendingStorageOperation;
  sd_pending_bytes : N;
  sd_available_at : Tick;
  sd_fail_next_write : bool;
  sd_short_write_prefix : option N;
  sd_fail_next_flush : bool;
}.

Record NodeState := mkNodeState {
  ns_alive : bool;
  ns_incarnation : N;
  ns_election_generation : N;
  ns_heartbeat_generation : N;
  ns_storage : StorageDevice;
}.

Record LinkState := mkLinkState { ls_fault : LinkFaultState; ls_queued_bytes : N }.

Definition new_device : StorageDevice := mkStorageDevice [] [] ∅ 0 0 false None false.
Definition new_node : NodeState := mkNodeState true 1 0 0 new_device.
Definition new_link : LinkState := mkLinkState no_fault 0.

Record Simulator := mkSimulator {
  sim_config : SimulatorConfig;
  sim_events : EventQueue;
  sim_nodes : gmap N NodeState;
  sim_links : gmap (N * N) LinkState;
  sim_total_network_bytes : N;
  sim_next_delivery_id : N;
  sim_next_storage_id : N;
  sim_next_trace_sequence : N;
  sim_trace_records : list SimTraceRecord;
  sim_trace_was_truncated : bool;
}.

(** [Impl::Impl]. *)
Definition clamp_duplicates (t : TransportLimits) : TransportLimits :=
  mkTransportLimits (tl_max_frame_bytes t) (tl_max_queued_bytes_per_link t)
    (tl_max_total_queued_bytes t)
    (if tl_max_extra_duplicates_per_send t =? u32_max then u32_max - 1
     else tl_max_extra_duplicates_per_send t)
    (tl_drop_in_flight_on_endpoint_crash t).

Definition Simulator_new (config : SimulatorConfig) : Simulator :=
  mkSimulator
    (mkSimulatorConfig (sc_events config) (clamp_duplicates (sc_transport config))
       (sc_storage config) (sc_max_trace_records config))
    (EventQueue_new (sc_events config)) ∅ ∅ 0 1 1 1 [] false.

Section setters.
Implicit Types (s : Simulator).

Definition set_events s (q : EventQueue) : Simulator :=
  mkSimulator (sim_config s) q (sim_nodes s) (sim_links s) (sim_total_network_bytes s)
    (sim_next_delivery_id s) (sim_next_storage_id s) (sim_next_trace_sequence s)
    (sim_trace_records s) (sim_trace_was_truncated s).

Definition put_node s (n : NodeId) (st : NodeState) : Simulator :=
  mkSimulator (sim_config s) (sim_events s) (<[n := st]> (sim_nodes s)) (sim_links s)
    (sim_total_network_bytes s) (sim_next_delivery_id s) (sim_next_storage_id s)
    (sim_next_trace_sequence s) (sim_trace_records s) (sim_trace_was_truncated s).

Definition put_link s (from to : NodeId) (l : LinkState) : Simulator :=
  mkSimulator (sim_config s) (sim_events s) (sim_nodes s) (<[(from, to) := l]> (sim_links s))
    (sim_total_network_bytes s) (sim_next_delivery_id s) (sim_next_storage_id s)
    (sim_next_trace_sequence s) (sim_trace_records s) (sim_trace_was_truncated s).

Definition set_total_network_bytes s (n : N) : Simulator :=
  mkSimulator (sim_config s) (sim_events s) (sim_nodes s) (sim_links s) n
    (sim_next_delivery_id s) (sim_next_storage_id s) (sim_next_trace_sequence s)
    (sim_trace_records s) (sim_trace_was_truncated s).

Definition set_next_delivery_id s (n : N) : Simulator :=
  mkSimulator (sim_config s) (sim_events s) (sim_nodes s) (sim_links s)
    (sim_total_network_bytes s) n (sim_next_storage_id s) (sim_next_trace_sequence s)
    (sim_trace_records s) (sim_trace_was_truncated s).

Definition set_next_storage_id s (n : N) : Simulator :=
  mkSimulator (sim_config s) (sim_events s) (sim_nodes s) (sim_links s)
    (sim_total_network_bytes s) (sim_next_delivery_id s) n (sim_next_trace_sequence s)
    (sim_trace_records s) (sim_trace_was_truncated s).

(** [Impl::record]. *)
Definition record s (kind : SimTraceKind) (node peer : NodeId) (token incarnation bytes : N)
    (detail : string) : Simulator :=
  if sc_max_trace_records (sim_config s) <=? N.of_nat (length (sim_trace_records s)) then
    mkSimulator (sim_config s) (sim_events s) (sim_nodes s) (sim_links s)
      (sim_total_network_bytes s) (sim_next_delivery_id s) (sim_next_storage_id s)
      (sim_next_trace_sequence s) (sim_trace_records s) true
  else
    mkSimulator (sim_config s) (sim_events s) (sim_nodes s) (sim_links s)
      (sim_total_network_bytes s) (sim_next_delivery_id s) (sim_next_storage_id s)
      (add64 (sim_next_trace_sequence s) 1)
      (sim_trace_records s ++
         [mkSimTraceRecord (q_now (sim_events s)) (sim_next_trace_sequence s) kind node peer token
            incarnation bytes detail])
      (sim_trace_was_truncated s).
End setters.

Definition set_device (st : NodeState) (d : StorageDevice) : NodeState :=
  mkNodeState (ns_alive st) (ns_incarnation st) (ns_election_generation st)
    (ns_heartbeat_generation st) d.

Definition timer_generation (st : NodeState) (kind : TimerKind) : N :=
  match kind with heartbeat => ns_heartbeat_generation st | election => ns_election_generation st end.

Definition set_timer_generation (st : NodeState) (kind : TimerKind) (g : N) : NodeState :=
  match kind with
  | heartbeat => mkNodeState (ns_alive st) (ns_incarnation st) (ns_election_generation st) g (ns_storage st)
  | election => mkNodeState (ns_alive st) (ns_incarnation st) g (ns_heartbeat_generation st) (ns_storage st)
  end.

Definition advance_generation (g : N) : N := if g =? u64_max then 1 else add64 g 1.

Definition kind_name (kind : TimerKind) : string :=
  match kind with heartbeat => "heartbeat" | election => "election" end.

Definition storage_start (s : Simulator) (d : StorageDevice) : Tick :=
  N.max (q_now (sim_events s)) (sd_available_at d).

Definition link (s : Simulator) (from to : NodeId) : LinkState :=
  default new_link (sim_links s !! (from, to)).

(** [Impl::release_network_bytes]. *)
Definition release_network_bytes (s : Simulator) (e : NetworkEvent) : Simulator :=
  let bytes := blen (ne_bytes e) in
  let s1 := match sim_links s !! (ne_from e, ne_to e) with
            | Some l => put_link s (ne_from e) (ne_to e)
                          (mkLinkState (ls_fault l)
                             (if ls_queued_bytes l <? bytes then 0 else ls_queued_bytes l - bytes))
            | None => s
            end in
  set_total_network_bytes s1
    (if sim_total_network_bytes s <? bytes then 0 else sim_total_network_bytes s - bytes).

(** ** Nodes *)

Definition register_node (s : Simulator) (node : NodeId) : bool * Simulator :=
  match sim_nodes s !! node with
  | Some _ => (false, s)
  | None =>
      let d := mkStorageDevice [] [] ∅ 0 (q_now (sim_events s)) false None false in
      let s1 := put_node s node (mkNodeState true 1 0 0 d) in
      (true, record s1 sim_node_registered node 0 0 1 0 "")
  end.

Definition is_alive (s : Simulator) (node : NodeId) : bool :=
  match sim_nodes s !! node with Some st => ns_alive st | None => false end.

Definition incarnation (s : Simulator) (node : NodeId) : N :=
  match sim_nodes s !! node with Some st => ns_incarnation st | None => 0 end.

(** The events [crash_node] cancels. *)
Definition cancelled_by_crash (s : Simulator) (node : NodeId) (e : ScheduledEvent) : bool :=
  match ev_payload e with
  | PNetwork n => (ne_to n =? node) ||
      (tl_drop_in_flight_on_endpoint_crash (sc_transport (sim_config s)) && (ne_from n =? node))
  | PTimer t => te_node t =? node
  | PStorage p => se_node p =? node
  | PUser u => ue_node u =? node
  end.

(** The loop of [crash_node] over the cancelled events. *)
Fixpoint record_cancelled (s : Simulator) (node : NodeId) (inc : N) (l : list ScheduledEvent)
  : Simulator :=
  match l with
  | [] => s
  | e :: l =>
      let s1 :=
        match ev_payload e with
        | PNetwork n =>
            record (release_network_bytes s n) sim_stale_event (ne_from n) (ne_to n)
              (ne_delivery_id n) (ne_to_incarnation n) (blen (ne_bytes n))
              "network_cancelled_by_crash"
        | _ => record s sim_stale_event node 0 (ev_sequence e) inc 0 "event_cancelled_by_crash"
        end in
      record_cancelled s1 node inc l
  end.

(** The active operation: the first of the ordered map of pending ones. *)
Definition active_operation (d : StorageDevice) : option PendingStorageOperation :=
  match sorted_items (sd_pending d) with
  | [] => None
  | (_, op) :: _ => Some op
  end.

Definition unstable_survivors (d : StorageDevice) (crash : StorageCrashSpec) : N :=
  N.min (surviving_unstable_bytes crash) (blen (sd_unstable d)).

(** The bytes of the active write that reach the medium. *)
Definition torn_bytes (d : StorageDevice) (crash : StorageCrashSpec) : list N :=
  if unstable_survivors d crash =? blen (sd_unstable d) then
    match active_operation d with
    | Some op =>
        match po_kind op with
        | op_write => take (N.to_nat (N.min (torn_pending_write_bytes crash) (blen (po_bytes op))))
                        (po_bytes op)
        | op_flush => []
        end
    | None => []
    end
  else [].

(** What [crash_node] does to the device. *)
Definition crash_device (d : StorageDevice) (crash : StorageCrashSpec) (now : Tick) : StorageDevice :=
  mkStorageDevice
    ((sd_stable d ++ take (N.to_nat (unstable_survivors d crash)) (sd_unstable d)) ++
       torn_bytes d crash)
    [] ∅ 0 now false None false.

Section simulator.
Context `{HeapLib}.

Definition crash_node (s : Simulator) (node : NodeId) (crash : StorageCrashSpec) : bool * Simulator :=
  match sim_nodes s !! node with
  | None => (false, s)
  | Some st =>
      if negb (ns_alive st) then (false, s)
      else
        let d := ns_storage st in
        let survivors := unstable_survivors d crash + blen (torn_bytes d crash) in
        let st1 := mkNodeState false (ns_incarnation st) (ns_election_generation st)
                     (ns_heartbeat_generation st)
                     (crash_device d crash (q_now (sim_events s))) in
        let s1 := put_node s node st1 in
        let '(cancelled, q) := extract_if (sim_events s1) (cancelled_by_crash s1 node) in
        let s2 := record_cancelled (set_events s1 q) node (ns_incarnation st) cancelled in
        let s3 := record s2 sim_storage_crashed node 0 0 (ns_incarnation st) survivors "tail_survived" in
        (true, record s3 sim_node_crashed node 0 0 (ns_incarnation st) 0 "")
  end.

Definition restart_node (s : Simulator) (node : NodeId) : bool * Simulator :=
  match sim_nodes s !! node with
  | None => (false, s)
  | Some st =>
      if ns_alive st || (ns_incarnation st =? u64_max) then (false, s)
      else
        let d := ns_storage st in
        let inc := add64 (ns_incarnation st) 1 in
        let d' := mkStorageDevice (sd_stable d) (sd_unstable d) (sd_pending d) (sd_pending_bytes d)
                    (q_now (sim_events s)) (sd_fail_next_write d) (sd_short_write_prefix d)
                    (sd_fail_next_flush d) in
        let s1 := put_node s node (mkNodeState true inc 0 0 d') in
        (true, record s1 sim_node_restarted node 0 0 inc 0 "")
  end.

(** ** Timers *)

Definition arm_timer (s : Simulator) (node : NodeId) (kind : TimerKind) (delay : Tick)
  : option TimerToken * Simulator :=
  match sim_nodes s !! node with
  | None => (None, s)
  | Some st =>
      if negb (ns_alive st) then (None, s)
      else
        let candidate := advance_generation (timer_generation st kind) in
        let '(scheduled, q) :=
          schedule_after (sim_events s) delay
            (PTimer (mkTimerEvent node kind candidate (ns_incarnation st))) in
        let s1 := set_events s q in
        if negb (sched_ok scheduled) then (None, s1)
        else
          let s2 := put_node s1 node (set_timer_generation st kind candidate) in
          (Some (mkTimerToken node kind candidate (ns_incarnation st) (sched_sequence scheduled)),
           record s2 sim_timer_armed node 0 candidate (ns_incarnation st) 0 (kind_name kind))
  end.

Definition cancel_timer (s : Simulator) (node : NodeId) (kind : TimerKind) : bool * Simulator :=
  match sim_nodes s !! node with
  | None => (false, s)
  | Some st =>
      if negb (ns_alive st) then (false, s)
      else
        let g := advance_generation (timer_generation st kind) in
        let s1 := put_node s node (set_timer_generation st kind g) in
        (true, record s1 sim_timer_cancelled node 0 g (ns_incarnation st) 0 (kind_name kind))
  end.

(** ** Links *)

Definition known (s : Simulator) (node : NodeId) : bool :=
  negb (bool_decide (sim_nodes s !! node = None)).

(** The common part of the four fault setters. *)
Definition set_fault (s : Simulator) (from to : NodeId) (f : LinkFaultState -> LinkFaultState)
    (token : N) (detail : string) : bool * Simulator :=
  let l := link s from to in
  let s1 := put_link s from to (mkLinkState (f (ls_fault l)) (ls_queued_bytes l)) in
  (true, record s1 sim_link_fault from to token (incarnation s1 from) 0 detail).

Definition set_partition (s : Simulator) (from to : NodeId) (partitioned : bool) : bool * Simulator :=
  if negb (known s from) || negb (known s to) then (false, s)
  else set_fault s from to
         (fun f => mkLinkFaultState partitioned (lf_additional_delay f) (lf_drop_next f)
                     (lf_extra_copies_next f))
         (if partitioned then 1 else 0) "partition".

Definition set_link_delay (s : Simulator) (from to : NodeId) (delay : Tick) : bool * Simulator :=
  if negb (known s from) || negb (known s to) then (false, s)
  else set_fault s from to
         (fun f => mkLinkFaultState (lf_partitioned f) delay (lf_drop_next f) (lf_extra_copies_next f))
         delay "delay".

Definition drop_next (s : Simulator) (from to : NodeId) (count : N) : bool * Simulator :=
  if negb (known s from) || negb (known s to) then (false, s)
  else set_fault s from to
         (fun f => mkLinkFaultState (lf_partitioned f) (lf_additional_delay f) count
                     (lf_extra_copies_next f))
         count "drop_next".

Definition duplicate_next (s : Simulator) (from to : NodeId) (extra_copies : N) : bool * Simulator :=
  if negb (known s from) || negb (known s to) ||
     (tl_max_extra_duplicates_per_send (sc_transport (sim_config s)) <? extra_copies)
  then (false, s)
  else set_fault s from to
         (fun f => mkLinkFaultState (lf_partitioned f) (lf_additional_delay f) (lf_drop_next f)
                     extra_copies)
         extra_copies "duplicate_next".

Definition link_fault (s : Simulator) (from to : NodeId) : LinkFaultState :=
  match sim_links s !! (from, to) with Some l => ls_fault l | None => no_fault end.

Definition size_multiply_overflows (lhs rhs : N) : bool :=
  negb (lhs =? 0) && (u64_max / lhs <? rhs).

(** The loop of [send] that schedules the copies, from copy number [i]. *)
Fixpoint schedule_copies (q : EventQueue) (time : Tick) (e : N -> NetworkEvent) (i : N) (n : nat)
  : EventQueue :=
  match n with
  | O => q
  | S n => schedule_copies (schedule_at q time (PNetwork (e i))).2 time e (i + 1) n
  end.

(** The byte bounds of [send]. *)
Definition send_saturated (s : Simulator) (l : LinkState) (queued_bytes : N) : bool :=
  let t := sc_transport (sim_config s) in
  (tl_max_queued_bytes_per_link t <? queued_bytes) ||
  (tl_max_queued_bytes_per_link t - queued_bytes <? ls_queued_bytes l) ||
  (tl_max_total_queued_bytes t <? queued_bytes) ||
  (tl_max_total_queued_bytes t - queued_bytes <? sim_total_network_bytes s).

(** The end of [send]: the copies are scheduled and accounted for. *)
Definition enqueue_copies (s : Simulator) (from to : NodeId) (source target : NodeState)
    (bytes : list N) (copies queued_bytes : N) (delivery_time : Tick) : SendResult * Simulator :=
  let l := link s from to in
  let f := ls_fault l in
  let delivery_id := sim_next_delivery_id s in
  let s1 := set_next_delivery_id s (next_id delivery_id) in
  let q := schedule_copies (sim_events s1) delivery_time
             (fun copy => mkNetworkEvent delivery_id from to (ns_incarnation source)
                            (ns_incarnation target) copy bytes)
             0 (N.to_nat copies) in
  let s2 := set_events s1 q in
  let s3 := put_link s2 from to
              (mkLinkState (mkLinkFaultState (lf_partitioned f) (lf_additional_delay f)
                              (lf_drop_next f) 0)
                 (add64 (ls_queued_bytes l) queued_bytes)) in
  let s4 := set_total_network_bytes s3 (add64 (sim_total_network_bytes s3) queued_bytes) in
  (mkSendResult send_queued copies queued_bytes,
   record s4 sim_network_queued from to delivery_id (ns_incarnation source) queued_bytes
     (if lf_extra_copies_next f =? 0 then "single" else "duplicated")).

Definition send (s : Simulator) (from to : NodeId) (bytes : list N) (base_delay : Tick)
  : SendResult * Simulator :=
  let refused st := mkSendResult st 0 0 in
  let size := blen bytes in
  match sim_nodes s !! from, sim_nodes s !! to with
  | Some source, Some target =>
      if negb (ns_alive source) || negb (ns_alive target) then (refused send_endpoint_down, s)
      else if tl_max_frame_bytes (sc_transport (sim_config s)) <? size
      then (refused send_frame_limit, s)
      else
        let l := link s from to in
        let f := ls_fault l in
        let s0 := put_link s from to l in
        let now := q_now (sim_events s) in
        if lf_partitioned f then
          (refused send_partitioned,
           record s0 sim_network_dropped from to 0 (ns_incarnation source) size "partition")
        else if negb (lf_drop_next f =? 0) then
          let s1 := put_link s0 from to
                      (mkLinkState (mkLinkFaultState (lf_partitioned f) (lf_additional_delay f)
                                      (lf_drop_next f - 1) (lf_extra_copies_next f))
                         (ls_queued_bytes l)) in
          (refused send_dropped,
           record s1 sim_network_dropped from to 0 (ns_incarnation source) size "drop_next")
        else if tl_max_extra_duplicates_per_send (sc_transport (sim_config s)) <? lf_extra_copies_next f
        then (refused send_duplicate_limit, s0)
        else
          let copies := lf_extra_copies_next f + 1 in
          if size_multiply_overflows size copies then (refused send_queue_limit, s0)
          else
            let queued_bytes := mul64 size copies in
            if add_overflows now base_delay ||
               add_overflows (add64 now base_delay) (lf_additional_delay f)
            then (refused send_time_overflow, s0)
            else if send_saturated s0 l queued_bytes then
              (refused send_queue_limit,
               record s0 sim_network_saturated from to 0 (ns_incarnation source) queued_bytes
                 "byte_limit")
            else if negb (can_schedule (sim_events s0) copies) then
              (refused send_event_limit,
               record s0 sim_network_saturated from to 0 (ns_incarnation source) queued_bytes
                 "event_limit")
            else if sim_next_delivery_id s0 =? 0 then (refused send_event_limit, s0)
            else enqueue_copies s0 from to source target bytes copies queued_bytes
                   (add64 (add64 now base_delay) (lf_additional_delay f))
  | _, _ => (refused send_unknown_node, s)
  end.
End simulator.

(** ** Storage *)

Definition set_faults (d : StorageDevice) (fail_write : bool) (short : option N) (fail_flush : bool)
  : StorageDevice :=
  mkStorageDevice (sd_stable d) (sd_unstable d) (sd_pending d) (sd_pending_bytes d)
    (sd_available_at d) fail_write short fail_flush.

Definition size_add_overflows (lhs rhs : N) : bool := u64_max - lhs <? rhs.

(** The file-size bound of [submit_write]. *)
Definition file_full (limits : StorageLimits) (d : StorageDevice) (size : N) : bool :=
  let stable := blen (sd_stable d) in
  let unstable := blen (sd_unstable d) in
  let pend := sd_pending_bytes d in
  size_add_overflows stable unstable ||
  size_add_overflows (add64 stable unstable) pend ||
  size_add_overflows (add64 (add64 stable unstable) pend) size ||
  (sl_max_file_bytes limits <? add64 (add64 (add64 stable unstable) pend) size).

(** The completion status of a write, and the number of bytes it writes. *)
Definition write_outcome (d : StorageDevice) (size : N) : StorageCompletionStatus * N :=
  if sd_fail_next_write d then (completed_io_error, 0)
  else match sd_short_write_prefix d with
       | Some prefix => (completed_short_write, if size =? 0 then 0 else N.min prefix (size - 1))
       | None => (completed_ok, size)
       end.

Section storage.
Context `{HeapLib}.

Definition refused_storage (st : StorageSubmitStatus) : StorageSubmitResult :=
  mkStorageSubmitResult st 0 0.

Definition submit_write (s : Simulator) (node : NodeId) (bytes : list N) (latency : Tick)
  : StorageSubmitResult * Simulator :=
  let size := blen bytes in
  match sim_nodes s !! node with
  | None => (refused_storage submit_unknown_node, s)
  | Some st =>
      if negb (ns_alive st) then (refused_storage submit_node_down, s)
      else
        let d := ns_storage st in
        let limits := sc_storage (sim_config s) in
        if sl_max_write_bytes limits <? size then (refused_storage submit_write_limit, s)
        else if (sl_max_pending_operations limits <=? N.of_nat (base.size (sd_pending d))) ||
                (sl_max_pending_bytes limits <? size) ||
                (sl_max_pending_bytes limits - size <? sd_pending_bytes d) then
          (refused_storage submit_pending_limit,
           record s sim_storage_saturated node 0 0 (ns_incarnation st) size "pending_limit")
        else if file_full limits d size then
          (refused_storage submit_file_limit,
           record s sim_storage_saturated node 0 0 (ns_incarnation st) size "file_limit")
        else
          let start := storage_start s d in
          if add_overflows start latency then (refused_storage submit_time_overflow, s)
          else if negb (can_schedule (sim_events s) 1) then (refused_storage submit_event_limit, s)
          else if sim_next_storage_id s =? 0 then (refused_storage submit_id_exhausted, s)
          else
            let completion := add64 start latency in
            let '(status, actual) := write_outcome d size in
            let operation_id := sim_next_storage_id s in
            let s1 := set_next_storage_id s (next_id operation_id) in
            let '(scheduled, q) :=
              schedule_at (sim_events s1) completion
                (PStorage (mkStorageEvent node operation_id op_write (ns_incarnation st) actual status)) in
            let s2 := set_events s1 q in
            if negb (sched_ok scheduled) then (refused_storage submit_event_limit, s2)
            else
              let op := mkPendingStorageOperation op_write bytes status actual completion
                          (sched_sequence scheduled) in
              let d' := mkStorageDevice (sd_stable d) (sd_unstable d)
                          (<[operation_id := op]> (sd_pending d))
                          (add64 (sd_pending_bytes d) size) completion false None
                          (sd_fail_next_flush d) in
              let s3 := put_node s2 node (set_device st d') in
              (mkStorageSubmitResult submit_queued operation_id completion,
               record s3 sim_storage_queued node 0 operation_id (ns_incarnation st) size "write")
  end.

Definition submit_flush (s : Simulator) (node : NodeId) (latency : Tick)
  : StorageSubmitResult * Simulator :=
  match sim_nodes s !! node with
  | None => (refused_storage submit_unknown_node, s)
  | Some st =>
      if negb (ns_alive st) then (refused_storage submit_node_down, s)
      else
        let d := ns_storage st in
        if sl_max_pending_operations (sc_storage (sim_config s)) <=? N.of_nat (base.size (sd_pending d))
        then
          (refused_storage submit_pending_limit,
           record s sim_storage_saturated node 0 0 (ns_incarnation st) 0 "pending_limit")
        else
          let start := storage_start s d in
          if add_overflows start latency then (refused_storage submit_time_overflow, s)
          else if negb (can_schedule (sim_events s) 1) then (refused_storage submit_event_limit, s)
          else if sim_next_storage_id s =? 0 then (refused_storage submit_id_exhausted, s)
          else
            let completion := add64 start latency in
            let status := if sd_fail_next_flush d then completed_io_error else completed_ok in
            let operation_id := sim_next_storage_id s in
            let s1 := set_next_storage_id s (next_id operation_id) in
            let '(scheduled, q) :=
              schedule_at (sim_events s1) completion
                (PStorage (mkStorageEvent node operation_id op_flush (ns_incarnation st) 0 status)) in
            let s2 := set_events s1 q in
            if negb (sched_ok scheduled) then (refused_storage submit_event_limit, s2)
            else
              let op := mkPendingStorageOperation op_flush [] status 0 completion
                          (sched_sequence scheduled) in
              let d' := mkStorageDevice (sd_stable d) (sd_unstable d)
                          (<[operation_id := op]> (sd_pending d))
                          (sd_pending_bytes d) completion (sd_fail_next_write d)
                          (sd_short_write_prefix d) false in
              let s3 := put_node s2 node (set_device st d') in
              (mkStorageSubmitResult submit_queued operation_id completion,
               record s3 sim_storage_queued node 0 operation_id (ns_incarnation st) 0 "flush")
  end.
End storage.

(** The common part of the three fault requests on a live node. *)
Definition fault_request (s : Simulator) (node : NodeId) (f : StorageDevice -> StorageDevice)
    (bytes : N) (detail : string) : bool * Simulator :=
  match sim_nodes s !! node with
  | None => (false, s)
  | Some st =>
      if negb (ns_alive st) then (false, s)
      else (true, record (put_node s node (set_device st (f (ns_storage st)))) sim_storage_fault
                    node 0 0 (ns_incarnation st) bytes detail)
  end.

Definition fail_next_write (s : Simulator) (node : NodeId) : bool * Simulator :=
  fault_request s node (fun d => set_faults d true None (sd_fail_next_flush d)) 0 "fail_next_write".

Definition short_write_next (s : Simulator) (node : NodeId) (prefix_bytes : N) : bool * Simulator :=
  fault_request s node (fun d => set_faults d false (Some prefix_bytes) (sd_fail_next_flush d))
    prefix_bytes "short_write_next".

Definition fail_next_flush (s : Simulator) (node : NodeId) : bool * Simulator :=
  fault_request s node (fun d => set_faults d (sd_fail_next_write d) (sd_short_write_prefix d) true) 0
    "fail_next_flush".

Definition device_idle (d : StorageDevice) : bool :=
  bool_decide (sd_unstable d = []) && bool_decide (sd_pending d = ∅).

Definition initialize_storage (s : Simulator) (node : NodeId) (stable_bytes : list N)
  : bool * Simulator :=
  match sim_nodes s !! node with
  | None => (false, s)
  | Some st =>
      if negb (ns_alive st) || (sl_max_file_bytes (sc_storage (sim_config s)) <? blen stable_bytes)
      then (false, s)
      else
        let d := ns_storage st in
        if negb (bool_decide (sd_stable d = [])) || negb (device_idle d) then (false, s)
        else
          let d' := mkStorageDevice stable_bytes (sd_unstable d) (sd_pending d) (sd_pending_bytes d)
                      (q_now (sim_events s)) (sd_fail_next_write d) (sd_short_write_prefix d)
                      (sd_fail_next_flush d) in
          (true, record (put_node s node (set_device st d')) sim_storage_initialized node 0 0
                   (ns_incarnation st) (blen stable_bytes) "durable_header")
  end.

Definition truncate_stable_storage (s : Simulator) (node : NodeId) (valid_bytes : N)
  : bool * Simulator :=
  match sim_nodes s !! node with
  | None => (false, s)
  | Some st =>
      if ns_alive st then (false, s)
      else
        let d := ns_storage st in
        if negb (device_idle d) || (blen (sd_stable d) <? valid_bytes) then (false, s)
        else
          let removed := blen (sd_stable d) - valid_bytes in
          let d' := mkStorageDevice (take (N.to_nat valid_bytes) (sd_stable d)) (sd_unstable d)
                      (sd_pending d) (sd_pending_bytes d) (sd_available_at d) (sd_fail_next_write d)
                      (sd_short_write_prefix d) (sd_fail_next_flush d) in
          (true, record (put_node s node (set_device st d')) sim_storage_repaired node 0 0
                   (ns_incarnation st) removed "truncate_incomplete_tail")
  end.

Definition schedule_user `{HeapLib} (s : Simulator) (node : NodeId) (tag : N) (bytes : list N)
    (delay : Tick) : ScheduleResult * Simulator :=
  match sim_nodes s !! node with
  | None => (mkScheduleResult sched_unknown_node 0, s)
  | Some st =>
      if negb (ns_alive st) then (mkScheduleResult sched_node_down 0, s)
      else if tl_max_frame_bytes (sc_transport (sim_config s)) <? blen bytes
      then (mkScheduleResult sched_payload_limit 0, s)
      else
        let '(result, q) :=
          schedule_after (sim_events s) delay (PUser (mkUserEvent node tag (ns_incarnation st) bytes)) in
        let s1 := set_events s q in
        (result,
         if sched_ok result
         then record s1 sim_user_scheduled node 0 tag (ns_incarnation st) (blen bytes) ""
         else s1)
  end.

(** ** The event loop *)

Definition status_name (st : StorageCompletionStatus) : string :=
  match st with
  | completed_ok => "success"
  | completed_io_error => "io_error"
  | completed_short_write => "short_write"
  end.

(** The effect of a completed operation on the device, and its byte count. *)
Definition complete_operation (d : StorageDevice) (id : StorageOpId) (op : PendingStorageOperation)
    (now : Tick) : N * StorageDevice :=
  let '(count, stable, unstable, pend) :=
    match po_kind op with
    | op_write =>
        (po_actual_write_bytes op, sd_stable d,
         sd_unstable d ++ take (N.to_nat (po_actual_write_bytes op)) (po_bytes op),
         sub64 (sd_pending_bytes d) (blen (po_bytes op)))
    | op_flush =>
        if bool_decide (po_completion_status op = completed_ok)
        then (blen (sd_unstable d), sd_stable d ++ sd_unstable d, [], sd_pending_bytes d)
        else (0, sd_stable d, sd_unstable d, sd_pending_bytes d)
    end in
  let pending := delete id (sd_pending d) in
  (count,
   mkStorageDevice stable unstable pending pend
     (if bool_decide (pending = ∅) then now else sd_available_at d)
     (sd_fail_next_write d) (sd_short_write_prefix d) (sd_fail_next_flush d)).

(** The branches of [next]: each returns the payload to deliver, or [None] when
    the event is consumed ([continue]). *)
Definition fire_timer (s : Simulator) (t : TimerEvent) : option EventPayload * Simulator :=
  let valid :=
    match sim_nodes s !! te_node t with
    | Some st => ns_alive st && (ns_incarnation st =? te_incarnation t) &&
                 (timer_generation st (te_kind t) =? te_generation t)
    | None => false
    end in
  if negb valid then
    (None, record s sim_stale_event (te_node t) 0 (te_generation t) (te_incarnation t) 0 "timer")
  else
    (Some (PTimer t),
     record s sim_timer_fired (te_node t) 0 (te_generation t) (te_incarnation t) 0
       (kind_name (te_kind t))).

Definition endpoint_valid (s : Simulator) (node : NodeId) (inc : N) : bool :=
  match sim_nodes s !! node with
  | Some st => ns_alive st && (ns_incarnation st =? inc)
  | None => false
  end.

Definition deliver_network (s : Simulator) (e : NetworkEvent) : option EventPayload * Simulator :=
  let s1 := release_network_bytes s e in
  if lf_partitioned (link_fault s1 (ne_from e) (ne_to e)) then
    (None, record s1 sim_network_dropped (ne_from e) (ne_to e) (ne_delivery_id e)
             (ne_from_incarnation e) (blen (ne_bytes e)) "partition_at_delivery")
  else if negb (endpoint_valid s1 (ne_to e) (ne_to_incarnation e)) ||
          (tl_drop_in_flight_on_endpoint_crash (sc_transport (sim_config s1)) &&
           negb (endpoint_valid s1 (ne_from e) (ne_from_incarnation e))) then
    (None, record s1 sim_stale_event (ne_from e) (ne_to e) (ne_delivery_id e)
             (ne_to_incarnation e) (blen (ne_bytes e)) "network")
  else
    (Some (PNetwork e),
     record s1 sim_network_delivered (ne_from e) (ne_to e) (ne_delivery_id e)
       (ne_to_incarnation e) (blen (ne_bytes e))
       (if ne_copy_index e =? 0 then "original" else "duplicate")).

Definition complete_storage (s : Simulator) (e : StorageEvent) : option EventPayload * Simulator :=
  let stale detail :=
    (None, record s sim_stale_event (se_node e) 0 (se_operation_id e) (se_incarnation e) 0 detail) in
  match sim_nodes s !! se_node e with
  | None => stale "storage"
  | Some st =>
      if negb (ns_alive st) || negb (ns_incarnation st =? se_incarnation e) then stale "storage"
      else
        match sd_pending (ns_storage st) !! se_operation_id e with
        | None => stale "storage_cancelled"
        | Some op =>
            let '(count, d') :=
              complete_operation (ns_storage st) (se_operation_id e) op (q_now (sim_events s)) in
            let e' := mkStorageEvent (se_node e) (se_operation_id e) (se_kind e) (se_incarnation e)
                        count (po_completion_status op) in
            (Some (PStorage e'),
             record (put_node s (se_node e) (set_device st d')) sim_storage_completed (se_node e) 0
               (se_operation_id e) (se_incarnation e) count (status_name (po_completion_status op)))
        end
  end.

Definition deliver_user (s : Simulator) (u : UserEvent) : option EventPayload * Simulator :=
  if negb (endpoint_valid s (ue_node u) (ue_incarnation u)) then
    (None, record s sim_stale_event (ue_node u) 0 (ue_tag u) (ue_incarnation u) (blen (ue_bytes u))
             "user")
  else
    (Some (PUser u),
     record s sim_user_delivered (ue_node u) 0 (ue_tag u) (ue_incarnation u) (blen (ue_bytes u)) "").

Definition dispatch_payload (s : Simulator) (p : EventPayload) : option EventPayload * Simulator :=
  match p with
  | PTimer t => fire_timer s t
  | PNetwork e => deliver_network s e
  | PStorage e => complete_storage s e
  | PUser u => deliver_user s u
  end.

Section loop.
Context `{HeapLib}.

(** Every turn of the [while] loop pops one event, so as many turns as there are
    pending events suffice ([next_loop_enough]). *)
Fixpoint next_loop (fuel : nat) (s : Simulator) : option ScheduledEvent * Simulator :=
  match pop_next (sim_events s) with
  | (None, _) => (None, s)
  | (Some e, q) =>
      match fuel with
      | O => (None, s)
      | S fuel =>
          match dispatch_payload (set_events s q) (ev_payload e) with
          | (Some p, s') => (Some (mkScheduledEvent (ev_time e) (ev_sequence e) p), s')
          | (None, s') => next_loop fuel s'
          end
      end
  end.

Definition next (s : Simulator) : option ScheduledEvent * Simulator :=
  next_loop (length (q_heap (sim_events s))) s.
End loop.

(** ** Observers *)

Definition now (s : Simulator) : Tick := q_now (sim_events s).
Definition pending_events (s : Simulator) : N := pending (sim_events s).
Definition queued_network_bytes (s : Simulator) : N := sim_total_network_bytes s.

Definition stable_bytes (s : Simulator) (node : NodeId) : list N :=
  match sim_nodes s !! node with Some st => sd_stable (ns_storage st) | None => [] end.
Definition unstable_bytes (s : Simulator) (node : NodeId) : list N :=
  match sim_nodes s !! node with Some st => sd_unstable (ns_storage st) | None => [] end.
Definition visible_bytes (s : Simulator) (node : NodeId) : list N :=
  match sim_nodes s !! node with
  | Some st => sd_stable (ns_storage st) ++ sd_unstable (ns_storage st)
  | None => []
  end.
Definition pending_storage_bytes (s : Simulator) (node : NodeId) : N :=
  match sim_nodes s !! node with Some st => sd_pending_bytes (ns_storage st) | None => 0 end.

(** ** Sequences of calls *)

Inductive Call :=
  | call_register (node : NodeId)
  | call_crash (node : NodeId) (crash : StorageCrashSpec)
  | call_restart (node : NodeId)
  | call_arm (node : NodeId) (kind : TimerKind) (delay : Tick)
  | call_cancel (node : NodeId) (kind : TimerKind)
  | call_partition (from to : NodeId) (partitioned : bool)
  | call_delay (from to : NodeId) (delay : Tick)
  | call_drop (from to : NodeId) (count : N)
  | call_duplicate (from to : NodeId) (extra_copies : N)
  | call_send (from to : NodeId) (bytes : list N) (base_delay : Tick)
  | call_write (node : NodeId) (bytes : list N) (latency : Tick)
  | call_flush (node : NodeId) (latency : Tick)
  | call_fail_write (node : NodeId)
  | call_short_write (node : NodeId) (prefix_bytes : N)
  | call_fail_flush (node : NodeId)
  | call_initialize (node : NodeId) (bytes : list N)
  | call_truncate (node : NodeId) (valid_bytes : N)
  | call_user (node : NodeId) (tag : N) (bytes : list N) (delay : Tick)
  | call_next.

Inductive Reply :=
  | reply_bool (b : bool)
  | reply_timer (t : option TimerToken)
  | reply_send (r : SendResult)
  | reply_storage (r : StorageSubmitResult)
  | reply_schedule (r : ScheduleResult)
  | reply_event (e : option ScheduledEvent).

Definition reply_as {A} (f : A -> Reply) (p : A * Simulator) : Reply * Simulator := (f p.1, p.2).

Section calls.
Context `{HeapLib}.

Definition call (s : Simulator) (c : Call) : Reply * Simulator :=
  match c with
  | call_register n => reply_as reply_bool (register_node s n)
  | call_crash n spec => reply_as reply_bool (crash_node s n spec)
  | call_restart n => reply_as reply_bool (restart_node s n)
  | call_arm n k d => reply_as reply_timer (arm_timer s n k d)
  | call_cancel n k => reply_as reply_bool (cancel_timer s n k)
  | call_partition f t b => reply_as reply_bool (set_partition s f t b)
  | call_delay f t d => reply_as reply_bool (set_link_delay s f t d)
  | call_drop f t c => reply_as reply_bool (drop_next s f t c)
  | call_duplicate f t c => reply_as reply_bool (duplicate_next s f t c)
  | call_send f t bs d => reply_as reply_send (send s f t bs d)
  | call_write n bs l => reply_as reply_storage (submit_write s n bs l)
  | call_flush n l => reply_as reply_storage (submit_flush s n l)
  | call_fail_write n => reply_as reply_bool (fail_next_write s n)
  | call_short_write n p => reply_as reply_bool (short_write_next s n p)
  | call_fail_flush n => reply_as reply_bool (fail_next_flush s n)
  | call_initialize n bs => reply_as reply_bool (initialize_storage s n bs)
  | call_truncate n v => reply_as reply_bool (truncate_stable_storage s n v)
  | call_user n t bs d => reply_as reply_schedule (schedule_user s n t bs d)
  | call_next => reply_as reply_event (next s)
  end.

Fixpoint run (s : Simulator) (cs : list Call) : list Reply * Simulator :=
  match cs with
  | [] => ([], s)
  | c :: cs =>
      let '(r, s1) := call s c in
      let '(rs, s2) := run s1 cs in
      (r :: rs, s2)
  end.
End calls.

(** A short scripted run: a message is delivered and a timer fires. *)
Example simulator_script :
  let s := Simulator_new default_simulator_config in
  (@run sorted_heap_lib s
     [call_register 1; call_register 2; call_send 1 2 [7; 8] 3; call_arm 2 election 1;
      call_write 1 [1; 2; 3] 4; call_flush 1 0; call_next; call_next; call_next; call_next;
      call_next]).1 =
  [reply_bool true; reply_bool true; reply_send (mkSendResult send_queued 1 2);
   reply_timer (Some (mkTimerToken 2 election 1 1 2));
   reply_storage (mkStorageSubmitResult submit_queued 1 4);
   reply_storage (mkStorageSubmitResult submit_queued 2 4);
   reply_event (Some (mkScheduledEvent 1 2 (PTimer (mkTimerEvent 2 election 1 1))));
   reply_event (Some (mkScheduledEvent 3 1 (PNetwork (mkNetworkEvent 1 1 2 1 1 0 [7; 8]))));
   reply_event (Some (mkScheduledEvent 4 3 (PStorage (mkStorageEvent 1 1 op_write 1 3 completed_ok))));
   reply_event (Some (mkScheduledEvent 4 4 (PStorage (mkStorageEvent 1 2 op_flush 1 3 completed_ok))));
   reply_event None].
Proof. vm_compute. reflexivity. Qed.
