(* ===== verification/SimTrace.v ===== *)
(** * SimTrace: the trace as JSON lines

    Translation of [to_string], [append_unsigned], [append_json_string] and
    [render_jsonl] of [src/simulator.cpp].  A trace file determines the trace: two
    traces with the same text are equal. *)

From Stdlib Require Import DecimalString DecimalN.
From stdpp Require Import strings.
From S2P Require Import Prelude Model Bytes SimQueue Simulator.
#[local] Open Scope string_scope.
#[local] Open Scope N_scope.

(** ** Rendering *)

Definition kind_to_string (kind : SimTraceKind) : string :=
  match kind with
  | sim_node_registered => "node_registered"
  | sim_node_crashed => "node_crashed"
  | sim_node_restarted => "node_restarted"
  | sim_timer_armed => "timer_armed"
  | sim_timer_cancelled => "timer_cancelled"
  | sim_timer_fired => "timer_fired"
  | sim_stale_event => "stale_event"
  | sim_link_fault => "link_fault"
  | sim_network_queued => "network_queued"
  | sim_network_dropped => "network_dropped"
  | sim_network_saturated => "network_saturated"
  | sim_network_delivered => "network_delivered"
  | sim_storage_queued => "storage_queued"
  | sim_storage_completed => "storage_completed"
  | sim_storage_crashed => "storage_crashed"
  | sim_storage_initialized => "storage_initialized"
  | sim_storage_repaired => "storage_repaired"
  | sim_storage_fault => "storage_fault"
  | sim_storage_saturated => "storage_saturated"
  | sim_user_scheduled => "user_scheduled"
  | sim_user_delivered => "user_delivered"
  end.

(** [std::to_chars]: the shortest decimal representation. *)
Definition append_unsigned (output : string) (value : N) : string :=
  output +:+ NilEmpty.string_of_uint (N.to_uint value).

Definition quote : string := String "034" EmptyString.

Definition kHex (n : N) : string :=
  match String.get (N.to_nat n) "0123456789abcdef" with Some c => String c EmptyString | None => EmptyString end.

(** The body of the [switch] over one byte. *)
Definition escape_byte (c : Ascii.ascii) : string :=
  let byte := Ascii.N_of_ascii c in
  if byte =? 34 then "\" +:+ quote
  else if byte =? 92 then "\\"
  else if byte =? 8 then "\b"
  else if byte =? 12 then "\f"
  else if byte =? 10 then "\n"
  else if byte =? 13 then "\r"
  else if byte =? 9 then "\t"
  else if byte <? 32 then "\u00" +:+ kHex (N.shiftr byte 4) +:+ kHex (N.land byte 15)
  else String c EmptyString.

Fixpoint escape_bytes (value : string) : string :=
  match value with EmptyString => EmptyString | String c v => escape_byte c +:+ escape_bytes v end.

Definition append_json_string (output value : string) : string :=
  output +:+ quote +:+ escape_bytes value +:+ quote.

(** The text of a field name, with its quotes and colon. *)
Definition json_key (name : string) : string := quote +:+ name +:+ quote +:+ ":".

(** The loop body of [render_jsonl]. *)
Definition render_record (output : string) (r : SimTraceRecord) : string :=
  let o := output +:+ "{" +:+ json_key "time" in
  let o := append_unsigned o (st_time r) +:+ "," +:+ json_key "sequence" in
  let o := append_unsigned o (st_sequence r) +:+ "," +:+ json_key "kind" in
  let o := append_json_string o (kind_to_string (st_kind r)) +:+ "," +:+ json_key "node" in
  let o := append_unsigned o (st_node r) +:+ "," +:+ json_key "peer" in
  let o := append_unsigned o (st_peer r) +:+ "," +:+ json_key "token" in
  let o := append_unsigned o (st_token r) +:+ "," +:+ json_key "incarnation" in
  let o := append_unsigned o (st_incarnation r) +:+ "," +:+ json_key "bytes" in
  let o := append_unsigned o (st_bytes r) +:+ "," +:+ json_key "detail" in
  append_json_string o (st_detail r) +:+ "}" +:+ String "010" EmptyString.

Fixpoint render_records (output : string) (records : list SimTraceRecord) : string :=
  match records with [] => output | r :: rs => render_records (render_record output r) rs end.

Definition render_jsonl (records : list SimTraceRecord) (truncated : bool) : string :=
  let output := render_records EmptyString records in
  if truncated
  then output +:+ "{" +:+ json_key "trace_truncated" +:+ "true}" +:+ String "010" EmptyString
  else output.

Definition trace_jsonl (s : Simulator) : string :=
  render_jsonl (sim_trace_records s) (sim_trace_was_truncated s).

(** ** Reading back *)

#[local] Arguments String.append : simpl nomatch.

Lemma append_assoc (a b c : string) : (a +:+ b) +:+ c = a +:+ (b +:+ c).
Proof. induction a; simpl; congruence. Qed.

(** The first byte of an escaped text. *)
Definition unescape_first (s : string) : option (Ascii.ascii * string) :=
  match s with
  | String "\" (String "u" (String "0" (String "0" (String h (String l s))))) =>
      let digit c := let n := Ascii.N_of_ascii c in if n <? 58 then n - 48 else n - 87 in
      Some (Ascii.ascii_of_N (16 * digit h + digit l), s)
  | String "\" (String "b" s) => Some ("008"%char, s)
  | String "\" (String "f" s) => Some ("012"%char, s)
  | String "\" (String "n" s) => Some ("010"%char, s)
  | String "\" (String "r" s) => Some ("013"%char, s)
  | String "\" (String "t" s) => Some ("009"%char, s)
  | String "\" (String c s) => Some (c, s)
  | String "034" _ => None
  | String c s => Some (c, s)
  | EmptyString => None
  end.

Lemma unescape_escape c x : unescape_first (escape_byte c +:+ x) = Some (c, x).
Proof. destruct c as [[] [] [] [] [] [] [] []]; reflexivity. Qed.

Lemma escape_bytes_inj s t x y :
  escape_bytes s +:+ quote +:+ x = escape_bytes t +:+ quote +:+ y -> s = t /\ x = y.
Proof.
  revert t. induction s as [|c s IH]; intros [|d t] H; simpl in H.
  - by injection H.
  - apply (f_equal unescape_first) in H. by rewrite append_assoc, unescape_escape in H.
  - apply (f_equal unescape_first) in H. by rewrite append_assoc, unescape_escape in H.
  - apply (f_equal unescape_first) in H. rewrite !append_assoc, !unescape_escape in H.
    injection H as -> H. by destruct (IH _ H) as [-> ->].
Qed.

(** Digits up to the first other byte. *)
Fixpoint digits_of (s : string) : string :=
  match s with
  | String c s' => if (48 <=? Ascii.N_of_ascii c) && (Ascii.N_of_ascii c <=? 57)
                   then String c (digits_of s') else EmptyString
  | EmptyString => EmptyString
  end.

Lemma digits_of_uint d x :
  digits_of (NilEmpty.string_of_uint d +:+ "," +:+ x) = NilEmpty.string_of_uint d.
Proof. induction d; simpl in *; congruence. Qed.

Lemma unsigned_inj a b x y :
  NilEmpty.string_of_uint (N.to_uint a) +:+ "," +:+ x =
  NilEmpty.string_of_uint (N.to_uint b) +:+ "," +:+ y -> a = b /\ x = y.
Proof.
  intros H. pose proof (f_equal digits_of H) as Hd. rewrite !digits_of_uint in Hd. rewrite Hd in H.
  apply (f_equal NilEmpty.uint_of_string) in Hd. rewrite !NilEmpty.usu in Hd. injection Hd as Hd.
  apply (f_equal N.of_uint) in Hd. rewrite !DecimalN.Unsigned.of_to in Hd. split; [done|].
  apply (inj (String.append _)) in H. by injection H.
Qed.

Lemma kind_to_string_inj k1 k2 : kind_to_string k1 = kind_to_string k2 -> k1 = k2.
Proof. by destruct k1, k2. Qed.

(** The line of a record, without what precedes it. *)
Definition record_line (r : SimTraceRecord) : string := render_record EmptyString r.

Lemma render_record_app o r : render_record o r = o +:+ record_line r.
Proof. unfold record_line, render_record, append_json_string, append_unsigned. by rewrite !append_assoc. Qed.

Lemma render_records_app o rs : render_records o rs = o +:+ render_records EmptyString rs.
Proof.
  revert o. induction rs as [|r rs IH]; intros o; simpl.
  - induction o; simpl; congruence.
  - rewrite IH, (IH (render_record EmptyString r)), render_record_app. apply append_assoc.
Qed.

(** Peels a literal off both sides of an equation between texts. *)
Ltac peel H := apply (inj (String.append _)) in H.

Lemma record_line_inj r1 r2 x y : record_line r1 +:+ x = record_line r2 +:+ y -> r1 = r2 /\ x = y.
Proof.
  destruct r1 as [a1 a2 a3 a4 a5 a6 a7 a8 a9], r2 as [b1 b2 b3 b4 b5 b6 b7 b8 b9].
  unfold record_line, render_record, append_json_string, append_unsigned.
  cbn [st_time st_sequence st_kind st_node st_peer st_token st_incarnation st_bytes st_detail].
  rewrite !append_assoc. intros H. do 3 peel H.
  apply unsigned_inj in H as [-> H]. peel H.
  apply unsigned_inj in H as [-> H]. do 2 peel H.
  apply escape_bytes_inj in H as [->%kind_to_string_inj H]. do 2 peel H.
  do 5 (apply unsigned_inj in H as [-> H]; peel H). peel H.
  apply escape_bytes_inj in H as [-> H]. do 2 peel H. done.
Qed.

Lemma render_jsonl_app rs t : render_jsonl rs t = render_records EmptyString rs +:+ render_jsonl [] t.
Proof.
  unfold render_jsonl. destruct t; [done|]. simpl. induction (render_records _ _); simpl; congruence.
Qed.

(** A line is neither the end of the text nor the truncation marker. *)
Lemma record_line_start r x t : record_line r +:+ x <> render_jsonl [] t.
Proof.
  unfold record_line, render_record, append_json_string, append_unsigned. rewrite !append_assoc.
  destruct t; discriminate.
Qed.

(** (a trace file determines the trace).  Two traces with the same JSON text
    are equal, record by record and in their truncation mark: numbers, kinds and
    detail strings with any bytes are rendered without ambiguity. *)
Theorem trace_jsonl_injective (rs1 rs2 : list SimTraceRecord) (t1 t2 : bool)
    (Heq : render_jsonl rs1 t1 = render_jsonl rs2 t2) : rs1 = rs2 /\ t1 = t2.
Proof.
  revert rs2 Heq. induction rs1 as [|r1 rs1 IH]; intros [|r2 rs2] Heq.
  - split; [done|]. by destruct t1, t2.
  - rewrite (render_jsonl_app (r2 :: rs2)) in Heq. simpl in Heq.
    rewrite render_records_app, append_assoc in Heq. symmetry in Heq. by apply record_line_start in Heq.
  - rewrite (render_jsonl_app (r1 :: rs1)) in Heq. simpl in Heq.
    rewrite render_records_app, append_assoc in Heq. by apply record_line_start in Heq.
  - rewrite (render_jsonl_app (r1 :: rs1)), (render_jsonl_app (r2 :: rs2)) in Heq. simpl in Heq.
    rewrite (render_records_app (render_record _ r1)), (render_records_app (render_record _ r2)),
      !append_assoc, <- !render_jsonl_app in Heq.
    apply record_line_inj in Heq as [-> Heq]. by destruct (IH _ Heq) as [-> ->].
Qed.

Definition demo_trace : list SimTraceRecord :=
  [mkSimTraceRecord 0 1 sim_node_registered 1 0 0 1 0 EmptyString;
   mkSimTraceRecord 120 2 sim_link_fault 1 2 3 1 0 ("a" +:+ quote +:+ "\" +:+ String "007" EmptyString)].

Lemma trace_jsonl_injective_witness : demo_trace = demo_trace /\ false = false.
Proof.
  apply (trace_jsonl_injective demo_trace demo_trace false false). vm_compute. reflexivity.
Defined.
