(* ===== verification/SimSpec.v ===== *)
(** * SimSpec: the steps of the simulator

    [effect] is a small-step specification of the simulator: one rule per kind of
    change, over states that are compared without their traces, with the pending
    events as a multiset.  [call_effects] shows that every member function is a
    sequence of such steps; the invariants are proved against the steps. *)

From stdpp Require Import relations.
From S2P Require Import Prelude Model Bytes SimQueue Simulator.

(** ** The trace is write-only *)

(** Equality of two states but for their traces. *)
Record core_eq (s s' : Simulator) : Prop := {
  ce_config : sim_config s' = sim_config s;
  ce_events : sim_events s' = sim_events s;
  ce_nodes : sim_nodes s' = sim_nodes s;
  ce_links : sim_links s' = sim_links s;
  ce_total : sim_total_network_bytes s' = sim_total_network_bytes s;
  ce_delivery : sim_next_delivery_id s' = sim_next_delivery_id s;
  ce_storage : sim_next_storage_id s' = sim_next_storage_id s;
}.

#[global] Instance core_eq_equiv : Equivalence core_eq.
Proof.
  split.
  - intros s. by split.
  - intros s1 s2 []. by split.
  - intros s1 s2 s3 [] []. split; congruence.
Qed.

Lemma record_core s k n p t i b d : core_eq s (record s k n p t i b d).
Proof. unfold record. destruct (_ <=? _); by split. Qed.

Lemma record_of s s' k n p t i b d : core_eq s s' -> core_eq s (record s' k n p t i b d).
Proof. intros Hs. etrans; [exact Hs|apply record_core]. Qed.

Create HintDb simcore discriminated.
#[export] Hint Resolve record_of : simcore.
#[export] Hint Extern 1 (core_eq ?s ?s) => reflexivity : simcore.

(** ** Changes of one node *)

(** The changes that schedule nothing: registration, restart, timer
    cancellation, fault requests, initialisation and repair of the device. *)
Inductive node_step (limits : StorageLimits) (now : Tick) : option NodeState -> NodeState -> Prop :=
  | node_registered :
      node_step limits now None
        (mkNodeState true 1 0 0 (mkStorageDevice [] [] ∅ 0 now false None false))
  | node_restarted st :
      ns_alive st = false -> ns_incarnation st <> u64_max ->
      node_step limits now (Some st)
        (mkNodeState true (add64 (ns_incarnation st) 1) 0 0
           (mkStorageDevice (sd_stable (ns_storage st)) (sd_unstable (ns_storage st))
              (sd_pending (ns_storage st)) (sd_pending_bytes (ns_storage st)) now
              (sd_fail_next_write (ns_storage st)) (sd_short_write_prefix (ns_storage st))
              (sd_fail_next_flush (ns_storage st))))
  | node_cancelled st kind :
      ns_alive st = true ->
      node_step limits now (Some st)
        (set_timer_generation st kind (advance_generation (timer_generation st kind)))
  | node_faulted st fw sw ff :
      ns_alive st = true ->
      node_step limits now (Some st) (set_device st (set_faults (ns_storage st) fw sw ff))
  | node_initialized st bytes :
      ns_alive st = true -> blen bytes <= sl_max_file_bytes limits ->
      sd_stable (ns_storage st) = [] -> sd_unstable (ns_storage st) = [] ->
      sd_pending (ns_storage st) = ∅ ->
      node_step limits now (Some st)
        (set_device st (mkStorageDevice bytes (sd_unstable (ns_storage st)) (sd_pending (ns_storage st))
           (sd_pending_bytes (ns_storage st)) now (sd_fail_next_write (ns_storage st))
           (sd_short_write_prefix (ns_storage st)) (sd_fail_next_flush (ns_storage st))))
  | node_repaired st valid :
      ns_alive st = false ->
      node_step limits now (Some st)
        (set_device st (mkStorageDevice (take (N.to_nat valid) (sd_stable (ns_storage st)))
           (sd_unstable (ns_storage st)) (sd_pending (ns_storage st)) (sd_pending_bytes (ns_storage st))
           (sd_available_at (ns_storage st)) (sd_fail_next_write (ns_storage st))
           (sd_short_write_prefix (ns_storage st)) (sd_fail_next_flush (ns_storage st)))).

(** An accepted submission: the operation and the device it leaves. *)
Definition submitted (d : StorageDevice) (id : StorageOpId) (op : PendingStorageOperation)
    (fw : bool) (sw : option N) (ff : bool) : StorageDevice :=
  mkStorageDevice (sd_stable d) (sd_unstable d) (<[id := op]> (sd_pending d))
    (sd_pending_bytes d + blen (po_bytes op)) (po_completion_time op) fw sw ff.

(** The event that completes a pending operation of a node. *)
Definition op_event (node : NodeId) (inc : N) (id : StorageOpId) (op : PendingStorageOperation)
  : ScheduledEvent :=
  mkScheduledEvent (po_completion_time op) (po_event_sequence op)
    (PStorage (mkStorageEvent node id (po_kind op) inc (po_actual_write_bytes op)
                 (po_completion_status op))).

(** What a submission schedules. *)
Record op_ok (op : PendingStorageOperation) : Prop := {
  oo_write : po_actual_write_bytes op <= blen (po_bytes op);
  oo_flush : po_kind op = op_flush -> po_bytes op = [];
}.

(** ** Steps *)

(** The queue [q'] is [q] with one more event. *)
Record q_added (q q' : EventQueue) (e : ScheduledEvent) : Prop := {
  qa_ok : queue_ok q';
  qa_heap : q_heap q' ≡ₚ e :: q_heap q;
  qa_now : q_now q' = q_now q;
  qa_limits : q_limits q' = q_limits q;
  qa_sequence : ev_sequence e = q_next_sequence q;
  qa_time : q_now q <= ev_time e;
}.

(** The event [e] comes first in [q], and [q'] is the rest. *)
Record q_popped (q q' : EventQueue) (e : ScheduledEvent) : Prop := {
  qp_ok : queue_ok q';
  qp_heap : q_heap q ≡ₚ e :: q_heap q';
  qp_first : Forall (ev_lt e) (q_heap q');
  qp_now : q_now q' = ev_time e;
  qp_mono : q_now q <= ev_time e;
  qp_limits : q_limits q' = q_limits q;
}.

Definition release_event (s : Simulator) (e : ScheduledEvent) : Simulator :=
  match ev_payload e with PNetwork n => release_network_bytes s n | _ => s end.

(** The node a crash leaves. *)
Definition crashed_node (st : NodeState) (crash : StorageCrashSpec) (now : Tick) : NodeState :=
  mkNodeState false (ns_incarnation st) (ns_election_generation st) (ns_heartbeat_generation st)
    (crash_device (ns_storage st) crash now).

(** The copies of one message. *)
Definition copy_event (time first : N) (e : N -> NetworkEvent) (i : nat) : ScheduledEvent :=
  mkScheduledEvent time (first + N.of_nat i) (PNetwork (e (N.of_nat i))).

Definition device_size (d : StorageDevice) : N :=
  blen (sd_stable d) + blen (sd_unstable d) + sd_pending_bytes d.

Inductive effect (s s' : Simulator) : Prop :=
  | eff_quiet : core_eq s s' -> effect s s'
  | eff_node n st' :
      node_step (sc_storage (sim_config s)) (q_now (sim_events s)) (sim_nodes s !! n) st' ->
      core_eq (put_node s n st') s' -> effect s s'
  | eff_link f t l' :
      ls_queued_bytes l' = ls_queued_bytes (link s f t) ->
      core_eq (put_link s f t l') s' -> effect s s'
  | eff_timer n st kind time sequence q' :
      sim_nodes s !! n = Some st -> ns_alive st = true ->
      q_added (sim_events s) q'
        (mkScheduledEvent time sequence (PTimer (mkTimerEvent n kind
           (advance_generation (timer_generation st kind)) (ns_incarnation st)))) ->
      core_eq (put_node (set_events s q') n
                 (set_timer_generation st kind (advance_generation (timer_generation st kind)))) s' ->
      effect s s'
  | eff_user n st tag bytes time sequence q' :
      sim_nodes s !! n = Some st -> ns_alive st = true ->
      q_added (sim_events s) q'
        (mkScheduledEvent time sequence (PUser (mkUserEvent n tag (ns_incarnation st) bytes))) ->
      core_eq (set_events s q') s' -> effect s s'
  | eff_send f t source target bytes copies time id q' l' :
      sim_nodes s !! f = Some source -> ns_alive source = true ->
      sim_nodes s !! t = Some target -> ns_alive target = true ->
      queue_ok q' -> q_now q' = q_now (sim_events s) -> q_limits q' = q_limits (sim_events s) ->
      q_heap q' ≡ₚ ((copy_event time (q_next_sequence (sim_events s))
        (fun copy => mkNetworkEvent id f t (ns_incarnation source) (ns_incarnation target) copy bytes))
        <$> seq 0 (N.to_nat copies)) ++ q_heap (sim_events s) ->
      ls_queued_bytes l' = ls_queued_bytes (link s f t) + blen bytes * copies ->
      ls_queued_bytes l' <= tl_max_queued_bytes_per_link (sc_transport (sim_config s)) ->
      sim_total_network_bytes s + blen bytes * copies <=
        tl_max_total_queued_bytes (sc_transport (sim_config s)) ->
      core_eq (set_total_network_bytes
                 (put_link (set_events (set_next_delivery_id s (next_id id)) q') f t l')
                 (sim_total_network_bytes s + blen bytes * copies)) s' ->
      effect s s'
  | eff_submit n st op fw sw ff q' :
      sim_nodes s !! n = Some st -> ns_alive st = true -> op_ok op ->
      storage_start s (ns_storage st) <= po_completion_time op ->
      sim_next_storage_id s <> 0 ->
      q_added (sim_events s) q' (op_event n (ns_incarnation st) (sim_next_storage_id s) op) ->
      sd_pending_bytes (ns_storage st) + blen (po_bytes op) <=
        sl_max_pending_bytes (sc_storage (sim_config s)) \/ po_bytes op = [] ->
      device_size (ns_storage st) + blen (po_bytes op) <= sl_max_file_bytes (sc_storage (sim_config s)) ->
      N.of_nat (size (sd_pending (ns_storage st))) < sl_max_pending_operations (sc_storage (sim_config s)) ->
      core_eq (put_node (set_events (set_next_storage_id s (next_id (sim_next_storage_id s))) q') n
                 (set_device st (submitted (ns_storage st) (sim_next_storage_id s) op fw sw ff))) s' ->
      effect s s'
  | eff_crash n st crash cancelled q' :
      sim_nodes s !! n = Some st -> ns_alive st = true -> queue_ok q' ->
      q_now q' = q_now (sim_events s) -> q_limits q' = q_limits (sim_events s) ->
      q_next_sequence q' = q_next_sequence (sim_events s) ->
      q_heap q' ≡ₚ filter (fun e => cancelled_by_crash s n e = false) (q_heap (sim_events s)) ->
      cancelled ≡ₚ filter (fun e => cancelled_by_crash s n e = true) (q_heap (sim_events s)) ->
      core_eq (fold_left release_event cancelled
                 (set_events (put_node s n (crashed_node st crash (q_now (sim_events s)))) q')) s' ->
      effect s s'
  | eff_pop e q' :
      q_popped (sim_events s) q' e ->
      core_eq (dispatch_payload (set_events s q') (ev_payload e)).2 s' ->
      effect s s'.

(** ** Every call is a sequence of steps *)

(** The configured limits fit their types, and files are within their bound. *)
Record config_fits (c : SimulatorConfig) : Prop := {
  cf_per_link : tl_max_queued_bytes_per_link (sc_transport c) <= u64_max;
  cf_total : tl_max_total_queued_bytes (sc_transport c) <= u64_max;
  cf_file : sl_max_file_bytes (sc_storage c) <= u64_max;
}.

Definition files_ok (s : Simulator) : Prop :=
  forall n st, sim_nodes s !! n = Some st ->
    device_size (ns_storage st) <= sl_max_file_bytes (sc_storage (sim_config s)).

Lemma fold_cancelled s node inc l :
  core_eq (fold_left release_event l s) (record_cancelled s node inc l).
Proof.
  assert (Hrel : forall e s s', core_eq s s' -> core_eq (release_event s e) (release_event s' e)).
  { intros e s0 s1 [Hc He Hn Hl Ht Hd Hs]. unfold release_event.
    destruct (ev_payload e) as [|m| |]; try (by split).
    unfold release_network_bytes. rewrite Hl, Ht.
    destruct (_ !! _); split; simpl; congruence. }
  assert (Hfold : forall l s s', core_eq s s' ->
    core_eq (fold_left release_event l s) (fold_left release_event l s')).
  { induction l0 as [|e l0 IH]; intros s0 s1 Heq; [done|]. simpl. by apply IH, Hrel. }
  revert s. induction l as [|e l IH]; intros s; [done|]. simpl. etrans; [|apply IH].
  apply Hfold. unfold release_event. destruct (ev_payload e); auto with simcore.
Qed.

(** A dispatched event changes neither the queue nor the counters. *)
Lemma dispatch_events s p : sim_events (dispatch_payload s p).2 = sim_events s.
Proof.
  assert (Hrec : forall s' k n q t i b d, sim_events (record s' k n q t i b d) = sim_events s')
    by (intros; apply record_core).
  destruct p as [t|e|e|u]; simpl; unfold fire_timer, deliver_network, complete_storage, deliver_user;
    repeat case_match; simpl; rewrite Hrec; try done;
    unfold release_network_bytes; by destruct (_ !! _).
Qed.

Section calls_are_steps.
Context `{HeapLaws}.

Lemma schedule_at_added q time p r q' :
  queue_ok q -> time <= u64_max -> schedule_at q time p = (r, q') -> sched_ok r = true ->
  q_added q q' (mkScheduledEvent time (sched_sequence r) p).
Proof.
  intros Hq Ht E Hr. pose proof (schedule_at_spec q time p Hq Ht) as Hs. rewrite E in Hs.
  destruct Hs as (Hok & Hq' & Hs). rewrite Hr in Hok.
  destruct (accepts_event q time) eqn:Ha; [|done]. destruct Hs as (-> & Hn & Hl & _ & _ & Hp).
  split; try done. simpl. unfold accepts_event in Ha. rewrite !andb_true_iff, negb_true_iff in Ha.
  destruct Ha as [[[Ha _] _] _]. apply N.ltb_ge in Ha. done.
Qed.

Lemma schedule_at_refused q time p r q' :
  schedule_at q time p = (r, q') -> sched_ok r = false -> q' = q.
Proof. unfold schedule_at. intros E Hr. repeat case_match; simplify_eq; try done. Qed.

Lemma schedule_after_added q delay p r q' :
  queue_ok q -> schedule_after q delay p = (r, q') ->
  if sched_ok r then exists time, q_added q q' (mkScheduledEvent time (sched_sequence r) p) else q' = q.
Proof.
  intros Hq E. unfold schedule_after in E. destruct (add_overflows _ _); [by simplify_eq|].
  destruct (sched_ok r) eqn:Hr.
  - eexists. eapply schedule_at_added; [done|apply add64_range|done|done].
  - by eapply schedule_at_refused.
Qed.
(** Room for [n] more events. *)
Definition room (q : EventQueue) (n : N) : Prop :=
  pending q + n <= max_pending_events (q_limits q) /\
  q_total_scheduled q + n <= max_total_events (q_limits q) /\
  (n = 0 \/ q_next_sequence q <> 0 /\ q_next_sequence q + n <= u64_max + 1).

Lemma can_schedule_room q n : queue_ok q -> can_schedule q n = true -> room q n.
Proof.
  intros Hq. pose proof (qo_next _ Hq) as Hn. unfold can_schedule.
  destruct (N.ltb_spec (max_pending_events (q_limits q)) n),
    (N.ltb_spec (max_pending_events (q_limits q) - n) (pending q)); simpl; try done.
  destruct (N.ltb_spec (max_total_events (q_limits q)) n),
    (N.ltb_spec (max_total_events (q_limits q) - n) (q_total_scheduled q)); simpl; try done.
  destruct (N.eqb_spec (q_next_sequence q) 0); [done|].
  rewrite sub64_small by done. rewrite add64_small by lia. intros Hle%N.leb_le.
  split_and!; [lia|lia|right; lia].
Qed.

Lemma accepted q time p n :
  queue_ok q -> time <= u64_max -> q_now q <= time -> room q (N.succ n) ->
  let q' := (schedule_at q time p).2 in
  q_added q q' (mkScheduledEvent time (q_next_sequence q) p) /\ room q' n /\
  sched_ok (schedule_at q time p).1 = true /\ sched_sequence (schedule_at q time p).1 = q_next_sequence q /\
  (n = 0 \/ q_next_sequence q' = q_next_sequence q + 1).
Proof.
  intros Hq Hmax Hnow (Hp & Ht & Hs). destruct Hs as [Hs|[Hs1 Hs2]]; [lia|].
  pose proof (schedule_at_spec q time p Hq Hmax) as Hx.
  destruct (schedule_at q time p) as [r q'] eqn:E. simpl. destruct Hx as (Hok & Hq' & Hx).
  assert (Ha : accepts_event q time = true).
  { unfold accepts_event. rewrite !andb_true_iff, !negb_true_iff, N.ltb_ge, !N.ltb_lt, N.eqb_neq. lia. }
  rewrite Ha in Hx, Hok. destruct Hx as (Hseq & Hn & Hl & Hnx & Htot & Hperm).
  split; [by split; try done; simpl|].
  assert (Hnx' : n = 0 \/ q_next_sequence q' = q_next_sequence q + 1).
  { destruct (N.eq_dec n 0); [by left|right]. rewrite Hnx. unfold next_id.
    destruct (N.eqb_spec (q_next_sequence q) u64_max); [lia|]. apply add64_small. lia. }
  split_and!; try done. unfold room. rewrite Hl. split_and!.
  - unfold pending in *. rewrite Hperm. simpl. lia.
  - lia.
  - destruct Hnx' as [?| ->]; [by left|]. destruct (N.eq_dec n 0); [by left|right]. lia.
Qed.

Lemma schedule_copies_spec n q time e i :
  queue_ok q -> time <= u64_max -> q_now q <= time -> room q (N.of_nat n) ->
  let q' := schedule_copies q time e i n in
  queue_ok q' /\ q_now q' = q_now q /\ q_limits q' = q_limits q /\
  q_heap q' ≡ₚ ((fun j => mkScheduledEvent time (q_next_sequence q + N.of_nat j)
                            (PNetwork (e (i + N.of_nat j)))) <$> seq 0 n) ++ q_heap q.
Proof.
  revert q i. induction n as [|n IH]; intros q i Hq Hmax Hnow Hroom; [done|].
  rewrite Nat2N.inj_succ in Hroom.
  destruct (accepted q time (PNetwork (e i)) (N.of_nat n) Hq Hmax Hnow Hroom)
    as ([Hq' Hh Hn Hl _ _] & Hroom' & _ & _ & Hnx). cbn [schedule_copies].
  set (q1 := (schedule_at q time (PNetwork (e i))).2) in *.
  destruct (IH q1 (i + 1) Hq' Hmax ltac:(by rewrite Hn) Hroom') as (H1 & H2 & H3 & H4).
  split_and!; [done|congruence|congruence|]. rewrite H4, Hh. simpl.
  rewrite <- Permutation_middle, !N.add_0_r. apply Permutation_skip. apply Permutation_app_tail.
  rewrite <- fmap_S_seq, <- list_fmap_compose. destruct Hnx as [Hz|Hnx].
  - assert (n = O) as -> by lia. done.
  - rewrite Hnx.
    assert (Heq : forall l : list nat,
      (fun j => mkScheduledEvent time (q_next_sequence q + 1 + N.of_nat j)
         (PNetwork (e (i + 1 + N.of_nat j)))) <$> l =
      ((fun j => mkScheduledEvent time (q_next_sequence q + N.of_nat j)
         (PNetwork (e (i + N.of_nat j)))) ∘ S) <$> l).
    { intros l. apply list_fmap_ext. intros _ j _. simpl. f_equal; [lia|]. do 2 f_equal. lia. }
    by rewrite Heq.
Qed.
Definition effects : relation Simulator := rtc effect.

Lemma quiet s s' : core_eq s s' -> effects s s'.
Proof. intros Hc. by apply rtc_once, eff_quiet. Qed.

Lemma register_effects s n : effects s (register_node s n).2.
Proof.
  unfold register_node. destruct (sim_nodes s !! n) eqn:E; [by apply quiet|].
  apply rtc_once. eapply eff_node; [rewrite E; constructor|]. simpl. auto with simcore.
Qed.

Lemma restart_effects s n : effects s (restart_node s n).2.
Proof.
  unfold restart_node. destruct (sim_nodes s !! n) as [st|] eqn:E; [|by apply quiet].
  destruct (ns_alive st) eqn:Ha; simpl; [by apply quiet|].
  destruct (N.eqb_spec (ns_incarnation st) u64_max); simpl; [by apply quiet|].
  apply rtc_once. eapply eff_node; [rewrite E; by apply node_restarted|]. auto with simcore.
Qed.

Lemma cancel_effects s n k : effects s (cancel_timer s n k).2.
Proof.
  unfold cancel_timer. destruct (sim_nodes s !! n) as [st|] eqn:E; [|by apply quiet].
  destruct (ns_alive st) eqn:Ha; simpl; [|by apply quiet].
  apply rtc_once. eapply eff_node; [rewrite E; by apply (node_cancelled _ _ _ k)|]. auto with simcore.
Qed.

Lemma fault_effects s f t g token detail : effects s (set_fault s f t g token detail).2.
Proof. apply rtc_once. unfold set_fault. eapply eff_link; [|apply record_core]. done. Qed.

Lemma fault_request_effects s n f bytes detail :
  (forall d, exists fw sw ff, f d = set_faults d fw sw ff) ->
  effects s (fault_request s n f bytes detail).2.
Proof.
  intros Hf. unfold fault_request. destruct (sim_nodes s !! n) as [st|] eqn:E; [|by apply quiet].
  destruct (ns_alive st) eqn:Ha; simpl; [|by apply quiet].
  destruct (Hf (ns_storage st)) as (fw & sw & ff & ->).
  apply rtc_once. eapply eff_node; [rewrite E; by apply (node_faulted _ _ _ fw sw ff)|]. auto with simcore.
Qed.

Lemma initialize_effects s n bytes : effects s (initialize_storage s n bytes).2.
Proof.
  unfold initialize_storage, device_idle. destruct (sim_nodes s !! n) as [st|] eqn:E; [|by apply quiet].
  destruct (ns_alive st) eqn:Ha; simpl; [|by apply quiet].
  destruct (N.ltb_spec (sl_max_file_bytes (sc_storage (sim_config s))) (blen bytes)); [by apply quiet|].
  repeat case_bool_decide; simpl; try by apply quiet.
  apply rtc_once. eapply eff_node; [rewrite E; by apply (node_initialized _ _ _ bytes)|]. auto with simcore.
Qed.

Lemma truncate_effects s n v : effects s (truncate_stable_storage s n v).2.
Proof.
  unfold truncate_stable_storage. destruct (sim_nodes s !! n) as [st|] eqn:E; [|by apply quiet].
  destruct (ns_alive st) eqn:Ha; simpl; [by apply quiet|].
  destruct (_ || _); [by apply quiet|].
  apply rtc_once. eapply eff_node; [rewrite E; by apply (node_repaired _ _ _ v)|]. apply record_core.
Qed.

Lemma arm_effects s n k d : queue_ok (sim_events s) -> effects s (arm_timer s n k d).2.
Proof.
  intros Hq. unfold arm_timer. destruct (sim_nodes s !! n) as [st|] eqn:E; [|by apply quiet].
  destruct (ns_alive st) eqn:Ha; simpl; [|by apply quiet].
  destruct (schedule_after _ _ _) as [r q] eqn:Eq.
  pose proof (schedule_after_added _ _ _ _ _ Hq Eq) as Hs.
  destruct (sched_ok r); simpl.
  - destruct Hs as [time Hs]. apply rtc_once. eapply eff_timer; [done..|]. auto with simcore.
  - subst q. apply quiet. by split.
Qed.

Lemma user_effects s n tag bytes d : queue_ok (sim_events s) -> effects s (schedule_user s n tag bytes d).2.
Proof.
  intros Hq. unfold schedule_user. destruct (sim_nodes s !! n) as [st|] eqn:E; [|by apply quiet].
  destruct (ns_alive st) eqn:Ha; simpl; [|by apply quiet]. destruct (_ <? _); [by apply quiet|].
  destruct (schedule_after _ _ _) as [r q] eqn:Eq.
  pose proof (schedule_after_added _ _ _ _ _ Hq Eq) as Hs.
  destruct (sched_ok r); simpl.
  - destruct Hs as [time Hs]. apply rtc_once. eapply eff_user; [done..|]. auto with simcore.
  - subst q. apply quiet. by split.
Qed.

Lemma crash_effects s n crash : queue_ok (sim_events s) -> effects s (crash_node s n crash).2.
Proof.
  intros Hq. unfold crash_node. destruct (sim_nodes s !! n) as [st|] eqn:E; [|by apply quiet].
  destruct (ns_alive st) eqn:Ha; cbn [negb]; [|by apply quiet].
  fold (crashed_node st crash (q_now (sim_events s))). cbv zeta.
  set (s1 := put_node s n (crashed_node st crash (q_now (sim_events s)))).
  pose proof (extract_if_spec (sim_events s1) (cancelled_by_crash s1 n) Hq) as Hx.
  destruct (extract_if (sim_events s1) (cancelled_by_crash s1 n)) as [cs q].
  destruct Hx as (Hq' & Hn & Hl & Hs & _ & Hk & Hcs).
  apply rtc_once. eapply (eff_crash _ _ n st crash cs q); try done; [by rewrite Hcs|].
  etrans; [apply fold_cancelled|]. by do 2 apply record_of.
Qed.

Lemma start_bound s st time latency :
  queue_ok (sim_events s) -> add_overflows (storage_start s (ns_storage st)) latency = false ->
  time = add64 (storage_start s (ns_storage st)) latency ->
  sd_available_at (ns_storage st) <= u64_max ->
  time <= u64_max /\ storage_start s (ns_storage st) <= time /\ q_now (sim_events s) <= time.
Proof.
  intros Hq Ho -> Ha. pose proof (qo_now _ Hq) as Hn. unfold add_overflows, storage_start in *.
  apply N.ltb_ge in Ho. rewrite add64_small by lia. lia.
Qed.

(** Timestamps of devices fit their type. *)
Definition clocks_ok (s : Simulator) : Prop :=
  forall n st, sim_nodes s !! n = Some st -> sd_available_at (ns_storage st) <= u64_max.

Lemma write_outcome_bound d size : (write_outcome d size).2 <= size.
Proof.
  unfold write_outcome. destruct (sd_fail_next_write d); simpl; [lia|].
  destruct (sd_short_write_prefix d); simpl; [|lia]. destruct (N.eqb_spec size 0); simpl; lia.
Qed.

Lemma file_full_false limits d size :
  sl_max_file_bytes limits <= u64_max -> device_size d <= sl_max_file_bytes limits ->
  file_full limits d size = false -> device_size d + size <= sl_max_file_bytes limits.
Proof.
  unfold device_size, file_full, size_add_overflows. intros Hm Hd Hf.
  rewrite !orb_false_iff, !N.ltb_ge in Hf. destruct Hf as [[[H1 H2] H3] H4].
  rewrite add64_small in H2 by lia. rewrite (add64_small (blen _) (blen _)) in H3, H4 by lia.
  rewrite add64_small in H3 by lia. rewrite (add64_small (_ + _) (sd_pending_bytes d)) in H4 by lia.
  rewrite add64_small in H4 by lia. lia.
Qed.

Lemma submit_accepts s p time r q :
  queue_ok (sim_events s) -> can_schedule (sim_events s) 1 = true -> time <= u64_max ->
  q_now (sim_events s) <= time -> schedule_at (sim_events s) time p = (r, q) ->
  sched_ok r = true /\ q_added (sim_events s) q (mkScheduledEvent time (sched_sequence r) p).
Proof.
  intros Hq Hc Ht Hn E. pose proof (accepted _ time p 0 Hq Ht Hn (can_schedule_room _ _ Hq Hc)) as Ha.
  rewrite E in Ha. simpl in Ha. destruct Ha as (Ha & _ & -> & -> & _). done.
Qed.

Lemma flush_effects s n latency :
  queue_ok (sim_events s) -> files_ok s -> clocks_ok s -> effects s (submit_flush s n latency).2.
Proof.
  intros Hq Hf Hk. unfold submit_flush. destruct (sim_nodes s !! n) as [st|] eqn:E; [|by apply quiet].
  destruct (ns_alive st) eqn:Ha; simpl; [|by apply quiet].
  destruct (N.leb_spec (sl_max_pending_operations (sc_storage (sim_config s))) (N.of_nat (size (sd_pending (ns_storage st))))) as [|Hcount];
    [apply quiet, record_core|].
  destruct (add_overflows _ _) eqn:Ho; [by apply quiet|].
  destruct (can_schedule _ _) eqn:Hc; simpl; [|by apply quiet].
  destruct (N.eqb_spec (sim_next_storage_id s) 0) as [|Hid]; [by apply quiet|].
  destruct (start_bound s st _ latency Hq Ho eq_refl (Hk _ _ E)) as (Ht & Hst & Hn).
  destruct (schedule_at _ _ _) as [r q] eqn:Es.
  destruct (submit_accepts _ _ _ _ _ Hq Hc Ht Hn Es) as [-> Hadd]. simpl.
  set (op := mkPendingStorageOperation op_flush [] (if sd_fail_next_flush (ns_storage st)
    then completed_io_error else completed_ok) 0 (add64 (storage_start s (ns_storage st)) latency)
    (sched_sequence r)).
  apply rtc_once. eapply (eff_submit _ _ n st op (sd_fail_next_write (ns_storage st))
    (sd_short_write_prefix (ns_storage st)) false q); try done.
  - by right.
  - pose proof (Hf _ _ E). change (blen (po_bytes op)) with 0. lia.
  - apply record_of. unfold submitted. change (blen (po_bytes op)) with 0. by rewrite N.add_0_r.
Qed.

Lemma write_effects s n bytes latency :
  queue_ok (sim_events s) -> files_ok s -> clocks_ok s -> config_fits (sim_config s) ->
  effects s (submit_write s n bytes latency).2.
Proof.
  intros Hq Hf Hk Hcf. unfold submit_write. destruct (sim_nodes s !! n) as [st|] eqn:E; [|by apply quiet].
  destruct (ns_alive st) eqn:Ha; simpl; [|by apply quiet].
  destruct (_ <? blen bytes); [by apply quiet|].
  destruct (_ || _) eqn:Hp; [apply quiet, record_core|].
  destruct (file_full _ _ _) eqn:Hff; [apply quiet, record_core|].
  destruct (add_overflows _ _) eqn:Ho; [by apply quiet|].
  destruct (can_schedule _ _) eqn:Hc; simpl; [|by apply quiet].
  destruct (N.eqb_spec (sim_next_storage_id s) 0) as [|Hid]; [by apply quiet|].
  destruct (start_bound s st _ latency Hq Ho eq_refl (Hk _ _ E)) as (Ht & Hst & Hn).
  apply file_full_false in Hff; [|apply Hcf|by apply (Hf n)].
  rewrite !orb_false_iff, !N.ltb_ge, N.leb_gt in Hp. destruct Hp as [[Hcount Hp1] Hp2].
  pose proof (write_outcome_bound (ns_storage st) (blen bytes)) as Hw.
  destruct (write_outcome _ _) as [status actual].
  destruct (schedule_at _ _ _) as [r q] eqn:Es.
  destruct (submit_accepts _ _ _ _ _ Hq Hc Ht Hn Es) as [-> Hadd]. simpl.
  set (op := mkPendingStorageOperation op_write bytes status actual
    (add64 (storage_start s (ns_storage st)) latency) (sched_sequence r)).
  apply rtc_once. eapply (eff_submit _ _ n st op false None (sd_fail_next_flush (ns_storage st)) q); try done.
  - left. change (po_bytes op) with bytes. lia.
  - apply record_of. unfold submitted. change (po_bytes op) with bytes.
    rewrite add64_small; [done|]. destruct Hcf. unfold device_size in Hff. lia.
Qed.

Lemma send_effects s f t bytes delay :
  queue_ok (sim_events s) -> config_fits (sim_config s) -> effects s (send s f t bytes delay).2.
Proof.
  intros Hq Hcf. unfold send. destruct (sim_nodes s !! f) as [source|] eqn:Ef; [|by apply quiet].
  destruct (sim_nodes s !! t) as [target|] eqn:Et; [|by apply quiet].
  destruct (ns_alive source) eqn:Haf; simpl; [|by apply quiet].
  destruct (ns_alive target) eqn:Hat; simpl; [|by apply quiet].
  destruct (_ <? blen bytes); [by apply quiet|].
  assert (Hl : effects s (put_link s f t (link s f t))) by (by apply rtc_once; eapply eff_link).
  assert (Hrec : forall k n p tk i b d, effects s (record (put_link s f t (link s f t)) k n p tk i b d)).
  { intros. apply rtc_once. eapply eff_link; [|apply record_core]. done. }
  destruct (lf_partitioned _); [apply Hrec|].
  destruct (negb _); simpl.
  { apply rtc_once. unfold link. eapply (eff_link _ _ f t); [|apply record_of].
    2:{ instantiate (1 := mkLinkState _ _). split; simpl; try done. by rewrite insert_insert_eq. } done. }
  destruct (_ <? lf_extra_copies_next _); [done|].
  set (copies := lf_extra_copies_next (ls_fault (link s f t)) + 1).
  destruct (size_multiply_overflows _ _) eqn:Hmo; [done|].
  assert (Hmul : mul64 (blen bytes) copies = blen bytes * copies).
  { apply wrap64_small. unfold size_multiply_overflows in Hmo.
    destruct (N.eqb_spec (blen bytes) 0) as [->|Hz]; [unfold u64_max; lia|]. simpl in Hmo.
    apply N.ltb_ge in Hmo.
    pose proof (N.Div0.mul_div_le u64_max (blen bytes)). nia. }
  rewrite Hmul.
  destruct (_ || _) eqn:Hov; [done|]. destruct (send_saturated _ _ _) eqn:Hsat; [apply Hrec|].
  destruct (can_schedule _ _) eqn:Hc; simpl; [|apply Hrec].
  destruct (_ =? 0); [done|].
  assert (Hsame : link (put_link s f t (link s f t)) f t = link s f t)
    by (unfold link at 1; simpl; by rewrite lookup_insert_eq).
  unfold enqueue_copies. rewrite Hsame. simpl.
  apply orb_false_iff in Hov as [Hov1 Hov2]. unfold add_overflows in Hov1, Hov2.
  apply N.ltb_ge in Hov1, Hov2. pose proof (qo_now _ Hq) as Hnow.
  rewrite (add64_small (q_now (sim_events s)) delay) in Hov2 |- * by lia.
  rewrite (add64_small (_ + delay)) by lia.
  unfold send_saturated in Hsat. simpl in Hsat. rewrite !orb_false_iff, !N.ltb_ge in Hsat.
  destruct Hsat as [[[Hs1 Hs2] Hs3] Hs4]. destruct Hcf as [Hcf1 Hcf2 _].
  rewrite !add64_small by lia.
  set (time := q_now (sim_events s) + delay + lf_additional_delay (ls_fault (link s f t))).
  set (e := fun copy => mkNetworkEvent (sim_next_delivery_id s) f t (ns_incarnation source)
                          (ns_incarnation target) copy bytes).
  destruct (schedule_copies_spec (N.to_nat copies) (sim_events s) time e 0 Hq ltac:(lia) ltac:(lia))
    as (H1 & H2 & H3 & H4).
  { rewrite N2Nat.id. by apply can_schedule_room. }
  set (l' := mkLinkState _ (_ + _)).
  apply rtc_once. eapply (eff_send _ _ f t source target bytes copies time (sim_next_delivery_id s)
    (schedule_copies (sim_events s) time e 0 (N.to_nat copies)) l'); try done.
  - simpl. lia.
  - simpl. lia.
  - apply record_of. split; simpl; try done. by rewrite insert_insert_eq.
Qed.

(** [next] pops events until one is delivered. *)
Lemma next_loop_effects fuel s : queue_ok (sim_events s) -> effects s (next_loop fuel s).2.
Proof.
  revert s. induction fuel as [|fuel IH]; intros s Hq; cbn [next_loop].
  - destruct (pop_next _) as [[?|] ?]; by apply quiet.
  - pose proof (pop_next_spec _ Hq) as Hp.
    destruct (pop_next (sim_events s)) as [[e|] q] eqn:E; [|by apply quiet].
    destruct Hp as (P1 & P2 & P3 & P4 & P5 & P6 & _ & _).
    assert (Hstep : effect s (dispatch_payload (set_events s q) (ev_payload e)).2)
      by (eapply eff_pop; [by split|done]).
    assert (Hq' : queue_ok (sim_events (dispatch_payload (set_events s q) (ev_payload e)).2))
      by (rewrite dispatch_events; done).
    destruct (dispatch_payload _ _) as [[p|] s']; simpl in *; [by apply rtc_once|].
    eapply rtc_l; [exact Hstep|]. by apply IH.
Qed.

Lemma call_effects s c :
  queue_ok (sim_events s) -> files_ok s -> clocks_ok s -> config_fits (sim_config s) ->
  effects s (call s c).2.
Proof.
  intros Hq Hf Hk Hc. destruct c; simpl.
  - apply register_effects.
  - by apply crash_effects.
  - apply restart_effects.
  - by apply arm_effects.
  - apply cancel_effects.
  - unfold set_partition. destruct (_ || _); [by apply quiet|apply fault_effects].
  - unfold set_link_delay. destruct (_ || _); [by apply quiet|apply fault_effects].
  - unfold drop_next. destruct (_ || _); [by apply quiet|apply fault_effects].
  - unfold duplicate_next. destruct (_ || _); [by apply quiet|apply fault_effects].
  - by apply send_effects.
  - by apply write_effects.
  - by apply flush_effects.
  - apply fault_request_effects. intros d. by do 3 eexists.
  - apply fault_request_effects. intros d. by do 3 eexists.
  - apply fault_request_effects. intros d. by do 3 eexists.
  - apply initialize_effects.
  - apply truncate_effects.
  - by apply user_effects.
  - by apply next_loop_effects.
Qed.

End calls_are_steps.
