(* ===== verification/SimNetwork.v ===== *)
(** * SimNetwork: the byte accounting of the simulated network

    The counters of queued bytes, one per link and one for all links, are always
    the sums over the pending deliveries, so the bounds [send] enforces are bounds
    on the bytes in flight. *)

From stdpp Require Import relations.
From S2P Require Import Prelude Model Bytes SimQueue Simulator SimSpec.

(** ** Sums *)

Section sums.
Context {A : Type}.
Implicit Types (f : A -> N) (l : list A).

Definition sumN f l : N := foldr (fun x acc => f x + acc) 0 l.

#[global] Instance sumN_perm f : Proper (Permutation ==> eq) (sumN f).
Proof. intros l1 l2 Hp. induction Hp; simpl; lia. Qed.

Lemma sumN_app f l1 l2 : sumN f (l1 ++ l2) = sumN f l1 + sumN f l2.
Proof. induction l1 as [|x l1 IH]; simpl; lia. Qed.

Lemma sumN_filter f (P : A -> bool) l :
  sumN f l = sumN f (filter (fun x => P x = true) l) + sumN f (filter (fun x => P x = false) l).
Proof.
  induction l as [|x l IH]; [done|]. rewrite !filter_cons. simpl.
  destruct (P x); simpl; rewrite ?decide_True, ?decide_False by done; simpl; lia.
Qed.

Lemma sumN_constant {B} (g : B -> A) f c (l : list B) :
  (forall x, f (g x) = c) -> sumN f (g <$> l) = c * N.of_nat (length l).
Proof.
  intros Hc. induction l as [|x l IH]; [simpl; lia|].
  rewrite fmap_cons. change (sumN f (g x :: (g <$> l))) with (f (g x) + sumN f (g <$> l)).
  rewrite Hc, IH. simpl length. lia.
Qed.

Lemma sumN_elem f l x : x ∈ l -> f x <= sumN f l.
Proof. induction 1 as [x l|x y l _ IH]; simpl; lia. Qed.
End sums.

(** ** The accounting invariant *)

Definition in_flight (e : ScheduledEvent) : N :=
  match ev_payload e with PNetwork n => blen (ne_bytes n) | _ => 0 end.

Definition on_link (k : N * N) (e : ScheduledEvent) : N :=
  match ev_payload e with
  | PNetwork n => if bool_decide ((ne_from n, ne_to n) = k) then blen (ne_bytes n) else 0
  | _ => 0
  end.

Definition queued_on (s : Simulator) (k : N * N) : N :=
  ls_queued_bytes (default new_link (sim_links s !! k)).

(** The counters count the events of [l]. *)
Definition accounted (s : Simulator) (l : list ScheduledEvent) : Prop :=
  (forall k, queued_on s k = sumN (on_link k) l) /\ sim_total_network_bytes s = sumN in_flight l.

Definition net_inv (s : Simulator) : Prop :=
  accounted s (q_heap (sim_events s)) /\
  (forall k, queued_on s k <= tl_max_queued_bytes_per_link (sc_transport (sim_config s))) /\
  sim_total_network_bytes s <= tl_max_total_queued_bytes (sc_transport (sim_config s)).

Lemma accounted_perm s l1 l2 : l1 ≡ₚ l2 -> accounted s l1 -> accounted s l2.
Proof. intros Hp [H1 H2]. split; [intros k|]; by rewrite <- Hp. Qed.

Lemma accounted_core s s' l : core_eq s s' -> accounted s l -> accounted s' l.
Proof.
  intros [_ _ _ Hl Ht _ _] [H1 H2].
  split; [intros k; unfold queued_on; rewrite Hl; apply H1|by rewrite Ht].
Qed.

Lemma net_inv_core s s' : core_eq s s' -> net_inv s -> net_inv s'.
Proof.
  intros Hc (H1 & H2 & H3). pose proof Hc as [Hcfg He _ Hl Ht _ _]. split_and!.
  - rewrite He. by eapply accounted_core.
  - intros k. unfold queued_on. rewrite Hl, Hcfg. apply H2.
  - by rewrite Ht, Hcfg.
Qed.

(** Counters that do not change keep counting an unchanged set of deliveries. *)
Lemma accounted_same s s' l l' :
  sim_links s' = sim_links s -> sim_total_network_bytes s' = sim_total_network_bytes s ->
  (forall k, sumN (on_link k) l' = sumN (on_link k) l) -> sumN in_flight l' = sumN in_flight l ->
  accounted s l -> accounted s' l'.
Proof.
  intros Hl Ht Hk Hf [H1 H2]. split; [intros k; unfold queued_on; rewrite Hl, Hk; apply H1|congruence].
Qed.

Lemma release_accounted s e l : accounted s (e :: l) -> accounted (release_event s e) l.
Proof.
  intros [H1 H2]. unfold release_event. destruct (ev_payload e) as [|n| |] eqn:E.
  1,3,4: split; [intros k; rewrite H1|rewrite H2]; simpl; unfold on_link, in_flight; by rewrite E.
  assert (Hsub : forall x b, (if x <? b then 0 else x - b) = x - b).
  { intros x b. destruct (N.ltb_spec x b); lia. }
  simpl in H2. unfold in_flight at 1 in H2. rewrite E in H2.
  split; [intros k|unfold release_network_bytes; simpl; rewrite Hsub; lia].
  specialize (H1 k) as Hk. simpl in Hk. unfold on_link at 1 in Hk. rewrite E in Hk.
  unfold release_network_bytes, queued_on in *. simpl.
  destruct (sim_links s !! (ne_from n, ne_to n)) as [lk|] eqn:El; simpl.
  - destruct (decide ((ne_from n, ne_to n) = k)) as [<-|Hne].
    + rewrite lookup_insert_eq. rewrite El in Hk. rewrite bool_decide_true in Hk by done.
      simpl in *. rewrite Hsub. lia.
    + rewrite lookup_insert_ne by done. rewrite bool_decide_false in Hk by done. lia.
  - destruct (decide ((ne_from n, ne_to n) = k)) as [<-|Hne].
    + rewrite El in Hk |- *. rewrite bool_decide_true in Hk by done. simpl in *. lia.
    + rewrite bool_decide_false in Hk by done. lia.
Qed.

Lemma release_all_accounted l s l' :
  accounted s (l ++ l') -> accounted (fold_left release_event l s) l'.
Proof.
  revert s. induction l as [|e l IH]; intros s Ha; [done|]. simpl. by apply IH, release_accounted.
Qed.

(** The event a call dispatches is the one whose bytes it releases. *)
Lemma dispatch_release s e :
  sim_links (dispatch_payload s (ev_payload e)).2 = sim_links (release_event s e) /\
  sim_total_network_bytes (dispatch_payload s (ev_payload e)).2 =
    sim_total_network_bytes (release_event s e) /\
  sim_config (dispatch_payload s (ev_payload e)).2 = sim_config s.
Proof.
  assert (Hl : forall s' k n q t i b d, sim_links (record s' k n q t i b d) = sim_links s')
    by (intros; apply record_core).
  assert (Ht : forall s' k n q t i b d, sim_total_network_bytes (record s' k n q t i b d) =
    sim_total_network_bytes s') by (intros; apply record_core).
  assert (Hc : forall s' k n q t i b d, sim_config (record s' k n q t i b d) = sim_config s')
    by (intros; apply record_core).
  unfold release_event. destruct (ev_payload e) as [t|n|p|u]; simpl.
  - unfold fire_timer. destruct (negb _); simpl; by rewrite Hl, Ht, Hc.
  - assert (Hcfg : sim_config (release_network_bytes s n) = sim_config s)
      by (unfold release_network_bytes; by destruct (_ !! _)).
    unfold deliver_network. destruct (lf_partitioned _); simpl; [by rewrite Hl, Ht, Hc|].
    destruct (_ || _); simpl; by rewrite Hl, Ht, Hc.
  - unfold complete_storage. destruct (sim_nodes s !! se_node p); simpl; [|by rewrite Hl, Ht, Hc].
    destruct (_ || _); simpl; [by rewrite Hl, Ht, Hc|].
    destruct (_ !! se_operation_id p); simpl; [|by rewrite Hl, Ht, Hc].
    destruct (complete_operation _ _ _ _). simpl. by rewrite Hl, Ht, Hc.
  - unfold deliver_user. destruct (negb _); simpl; by rewrite Hl, Ht, Hc.
Qed.

Lemma queued_shrinks l s :
  (forall k, queued_on (fold_left release_event l s) k <= queued_on s k) /\
  sim_total_network_bytes (fold_left release_event l s) <= sim_total_network_bytes s /\
  sim_config (fold_left release_event l s) = sim_config s /\
  sim_events (fold_left release_event l s) = sim_events s.
Proof.
  revert s. induction l as [|e l IH]; intros s; [done|]. simpl.
  destruct (IH (release_event s e)) as (H1 & H2 & H3 & H4).
  assert (Hone : (forall k, queued_on (release_event s e) k <= queued_on s k) /\
    sim_total_network_bytes (release_event s e) <= sim_total_network_bytes s /\
    sim_config (release_event s e) = sim_config s /\ sim_events (release_event s e) = sim_events s).
  { unfold release_event. destruct (ev_payload e) as [|n| |]; try done.
    unfold release_network_bytes, queued_on. simpl.
    split_and!; [intros k| | |]; destruct (sim_links s !! (ne_from n, ne_to n)) as [lk|] eqn:El;
      simpl; try done; try (destruct (_ <? _); lia).
    destruct (decide ((ne_from n, ne_to n) = k)) as [<-|Hne].
    - rewrite lookup_insert_eq, El. simpl. destruct (_ <? _); lia.
    - by rewrite lookup_insert_ne by done. }
  destruct Hone as (O1 & O2 & O3 & O4). split_and!; try congruence; [intros k|lia].
  etrans; [apply H1|apply O1].
Qed.

(** ** Preservation *)

Lemma no_delivery e l :
  (forall n, ev_payload e <> PNetwork n) ->
  (forall k, sumN (on_link k) (e :: l) = sumN (on_link k) l) /\
  sumN in_flight (e :: l) = sumN in_flight l.
Proof.
  intros Hn. unfold on_link, in_flight. simpl.
  destruct (ev_payload e) as [|n| |]; try done. by destruct (Hn n).
Qed.

Lemma added_net_inv s s' q' e :
  q_added (sim_events s) q' e -> (forall n, ev_payload e <> PNetwork n) ->
  sim_config s' = sim_config s -> sim_links s' = sim_links s ->
  sim_total_network_bytes s' = sim_total_network_bytes s -> sim_events s' = q' ->
  net_inv s -> net_inv s'.
Proof.
  intros [_ Hh _ _ _ _] Hn Hc Hl Ht He (H1 & H2 & H3). destruct (no_delivery e (q_heap (sim_events s)) Hn).
  split_and!.
  - rewrite He. eapply accounted_perm; [symmetry; exact Hh|].
    eapply (accounted_same s); try done.
  - intros k. unfold queued_on. rewrite Hl, Hc. apply H2.
  - by rewrite Ht, Hc.
Qed.

Lemma send_net_inv s s' f t copies bytes l' events q' :
  net_inv s ->
  (forall x, exists id i j c, ev_payload (events x) = PNetwork (mkNetworkEvent id f t i j c bytes)) ->
  q_heap q' ≡ₚ (events <$> seq 0 (N.to_nat copies)) ++ q_heap (sim_events s) ->
  ls_queued_bytes l' = ls_queued_bytes (link s f t) + blen bytes * copies ->
  ls_queued_bytes l' <= tl_max_queued_bytes_per_link (sc_transport (sim_config s)) ->
  sim_total_network_bytes s + blen bytes * copies <=
    tl_max_total_queued_bytes (sc_transport (sim_config s)) ->
  sim_config s' = sim_config s -> sim_events s' = q' ->
  sim_links s' = <[(f, t) := l']> (sim_links s) ->
  sim_total_network_bytes s' = sim_total_network_bytes s + blen bytes * copies -> net_inv s'.
Proof.
  intros ((H1 & H2) & H3 & H4) Hev Hh Hq Hb1 Hb2 Hc He Hl Ht.
  assert (Hlink : forall k, sumN (on_link k) (events <$> seq 0 (N.to_nat copies)) =
    (if bool_decide ((f, t) = k) then blen bytes else 0) * copies).
  { intros k. rewrite (sumN_constant events (on_link k) (if bool_decide ((f, t) = k) then blen bytes else 0)).
    - by rewrite length_seq, N2Nat.id.
    - intros x. unfold on_link. destruct (Hev x) as (? & ? & ? & ? & ->). done. }
  assert (Hfly : sumN in_flight (events <$> seq 0 (N.to_nat copies)) = blen bytes * copies).
  { rewrite (sumN_constant events in_flight (blen bytes)).
    - by rewrite length_seq, N2Nat.id.
    - intros x. unfold in_flight. by destruct (Hev x) as (? & ? & ? & ? & ->). }
  split_and!; rewrite ?He, ?Hc.
  - eapply accounted_perm; [symmetry; exact Hh|]. split.
    + intros k. rewrite sumN_app, Hlink, <- H1. unfold queued_on. rewrite Hl.
      destruct (decide ((f, t) = k)) as [<-|Hne].
      * rewrite lookup_insert_eq, bool_decide_true by done. simpl. rewrite Hq. unfold link. lia.
      * rewrite lookup_insert_ne, bool_decide_false by done. lia.
    + rewrite sumN_app, Hfly, Ht, <- H2. lia.
  - intros k. unfold queued_on. rewrite Hl. destruct (decide ((f, t) = k)) as [<-|Hne].
    + by rewrite lookup_insert_eq.
    + rewrite lookup_insert_ne by done. apply H3.
  - by rewrite Ht.
Qed.

Lemma effect_net_inv s s' : effect s s' -> net_inv s -> net_inv s'.
Proof.
  intros Hs Hi. pose proof Hi as ((H1 & H2) & H3 & H4).
  destruct Hs as [Hc|n st' _ Hc|f t l' Hq Hc|n st kind time sq q' _ _ Ha Hc|n st tag bs time sq q' _ _ Ha Hc
    |f t sc tg bytes copies time id q' l' _ _ _ _ _ _ _ Hh Hq Hb1 Hb2 Hc
    |n st op fw sw ff q' _ _ _ _ _ Ha _ _ _ Hc|n st crash cs q' _ _ Hq' Hn _ _ Hk Hcs Hc|e q' Hp Hc].
  - by eapply net_inv_core.
  - eapply net_inv_core; [exact Hc|]. done.
  - eapply net_inv_core; [exact Hc|].
    assert (Hsame : forall k, queued_on (put_link s f t l') k = queued_on s k).
    { intros k. unfold queued_on. simpl. destruct (decide ((f, t) = k)) as [<-|Hne].
      - rewrite lookup_insert_eq. exact Hq.
      - by rewrite lookup_insert_ne. }
    split_and!; [split; [intros k; by rewrite Hsame|done]|intros k; rewrite Hsame; apply H3|done].
  - eapply net_inv_core; [exact Hc|]. eapply added_net_inv; [exact Ha|done..|exact Hi].
  - eapply net_inv_core; [exact Hc|]. eapply added_net_inv; [exact Ha|done..|exact Hi].
  - eapply net_inv_core; [exact Hc|]. eapply send_net_inv; [exact Hi| |exact Hh|exact Hq|done..].
    intros x. by do 4 eexists.
  - eapply net_inv_core; [exact Hc|]. eapply added_net_inv; [exact Ha|done..|exact Hi].
  - eapply net_inv_core; [exact Hc|].
    destruct (queued_shrinks cs (set_events (put_node s n (crashed_node st crash
      (q_now (sim_events s)))) q')) as (S1 & S2 & S3 & S4).
    split_and!.
    + rewrite S4. simpl. apply release_all_accounted.
      split; [intros k; etrans; [apply H1|]|etrans; [apply H2|]];
        rewrite (sumN_filter _ (cancelled_by_crash s n)), sumN_app, Hcs, Hk; done.
    + intros k. rewrite S3. etrans; [apply S1|]. apply H3.
    + rewrite S3. etrans; [apply S2|]. done.
  - destruct Hp as [_ Hh _ _ _ _]. eapply net_inv_core; [exact Hc|].
    destruct (dispatch_release (set_events s q') e) as (Hl & Ht & Hcfg).
    destruct (queued_shrinks [e] (set_events s q')) as (S1 & S2 & S3 & S4). simpl in S1, S2.
    split_and!.
    + rewrite dispatch_events. simpl.
      eapply (accounted_same (release_event (set_events s q') e)); [done|done|done|done|].
      apply release_accounted. split; [intros k; etrans; [apply H1|]|etrans; [apply H2|]]; by rewrite Hh.
    + intros k. rewrite Hcfg. unfold queued_on. rewrite Hl. etrans; [apply S1|apply H3].
    + rewrite Hcfg, Ht. etrans; [apply S2|]. done.
Qed.
