(* ===== verification/SimStorage.v ===== *)
(** * SimStorage: the simulated storage device

    The invariant of the devices: every pending operation has exactly one
    completion event in the queue, operations of one device complete in the order
    they were submitted, and the byte counters are exact. *)

From stdpp Require Import relations.
From S2P Require Import Prelude Model Bytes SimQueue Simulator SimSpec SimNetwork.

(** ** Ordered maps *)

Section ordered.
Context {A : Type}.
Implicit Types (m : gmap N A).

Lemma sorted_items_unique m l :
  StronglySorted key_le l -> l ≡ₚ map_to_list m -> sorted_items m = l.
Proof.
  intros Hs Hp. apply (StronglySorted_unique_strong key_le); [|apply sorted_items_sorted|done|].
  - intros [k1 x1] [k2 x2] H1 H2 Hle1 Hle2. unfold key_le in *. simpl in *.
    assert (k1 = k2) as -> by lia. rewrite elem_of_sorted_items in H1.
    rewrite Hp, elem_of_map_to_list in H2. congruence.
  - by rewrite sorted_items_perm.
Qed.

(** The least binding of a map is the first of its sequence. *)
Lemma sorted_items_min m k x :
  m !! k = Some x -> (forall k' x', m !! k' = Some x' -> k <= k') ->
  sorted_items m = (k, x) :: sorted_items (delete k m).
Proof.
  intros Hk Hmin. apply sorted_items_unique.
  - constructor; [apply sorted_items_sorted|]. rewrite Forall_forall. intros [k' x'] Hin.
    rewrite elem_of_sorted_items, lookup_delete_Some in Hin. destruct Hin as [_ Hin].
    unfold key_le. simpl. by apply (Hmin k' x').
  - rewrite sorted_items_perm. by apply map_to_list_delete.
Qed.

Lemma sorted_items_first m k x l :
  sorted_items m = (k, x) :: l ->
  m !! k = Some x /\ (forall k' x', m !! k' = Some x' -> k <= k') /\ l = sorted_items (delete k m).
Proof.
  intros Hl. assert (Hk : m !! k = Some x) by (rewrite <- elem_of_sorted_items, Hl; by left).
  assert (Hmin : forall k' x', m !! k' = Some x' -> k <= k').
  { intros k' x' Hk'. pose proof (sorted_items_sorted m) as Hs. rewrite Hl in Hs.
    apply StronglySorted_inv in Hs as [_ Hs]. rewrite Forall_forall in Hs.
    rewrite <- elem_of_sorted_items, Hl in Hk'. apply elem_of_cons in Hk' as [[= -> _]|Hin]; [done|].
    by apply (Hs (k', x')). }
  split_and!; [done|done|]. rewrite (sorted_items_min m k x Hk Hmin) in Hl. by injection Hl as ->.
Qed.

Lemma sorted_items_max m k x :
  (forall k' x', m !! k' = Some x' -> k' < k) ->
  sorted_items (<[k := x]> m) = sorted_items m ++ [(k, x)].
Proof.
  intros Hmax. assert (Hk : m !! k = None).
  { destruct (m !! k) as [y|] eqn:E; [|done]. specialize (Hmax _ _ E). lia. }
  apply sorted_items_unique.
  - apply StronglySorted_app_2; [|apply sorted_items_sorted|by repeat constructor].
    intros [k1 x1] [k2 x2] H1 H2%list_elem_of_singleton. injection H2 as -> ->.
    rewrite elem_of_sorted_items in H1. unfold key_le. simpl. specialize (Hmax _ _ H1). lia.
  - rewrite sorted_items_perm, map_to_list_insert by done. by rewrite (comm app).
Qed.

Lemma sorted_items_nil m : sorted_items m = [] -> m = ∅.
Proof. intros Hn. apply map_to_list_empty_iff, Permutation_nil. by rewrite <- Hn, sorted_items_perm. Qed.

Lemma sorted_items_empty : sorted_items (∅ : gmap N A) = [].
Proof. apply sorted_items_unique; [constructor|]. by rewrite map_to_list_empty. Qed.
End ordered.

(** ** The invariant *)

Definition pending_size (m : gmap N PendingStorageOperation) : N :=
  sumN (fun p => blen (po_bytes p.2)) (sorted_items m).

Record device_ok (s : Simulator) (n : NodeId) (st : NodeState) : Prop := {
  do_dead : ns_alive st = false -> sd_unstable (ns_storage st) = [] /\ sd_pending (ns_storage st) = ∅;
  do_pending id op : sd_pending (ns_storage st) !! id = Some op ->
    1 <= id /\ (sim_next_storage_id s = 0 \/ id < sim_next_storage_id s) /\ op_ok op /\
    op_event n (ns_incarnation st) id op ∈ q_heap (sim_events s) /\
    po_completion_time op <= sd_available_at (ns_storage st);
  do_fifo id1 op1 id2 op2 :
    sd_pending (ns_storage st) !! id1 = Some op1 -> sd_pending (ns_storage st) !! id2 = Some op2 ->
    id1 < id2 -> ev_lt (op_event n (ns_incarnation st) id1 op1) (op_event n (ns_incarnation st) id2 op2);
  do_bytes : sd_pending_bytes (ns_storage st) = pending_size (sd_pending (ns_storage st));
  do_limit : sd_pending_bytes (ns_storage st) <= sl_max_pending_bytes (sc_storage (sim_config s));
  do_file : device_size (ns_storage st) <= sl_max_file_bytes (sc_storage (sim_config s));
  do_clock : sd_available_at (ns_storage st) <= u64_max;
  do_count : N.of_nat (size (sd_pending (ns_storage st))) <= sl_max_pending_operations (sc_storage (sim_config s));
}.

Record storage_inv (s : Simulator) : Prop := {
  sv_queue : queue_ok (sim_events s);
  sv_config : config_fits (sim_config s);
  sv_next : sim_next_storage_id s <= u64_max;
  sv_devices n st : sim_nodes s !! n = Some st -> device_ok s n st;
  sv_events e p : e ∈ q_heap (sim_events s) -> ev_payload e = PStorage p ->
    exists st op, sim_nodes s !! se_node p = Some st /\
      sd_pending (ns_storage st) !! se_operation_id p = Some op /\
      e = op_event (se_node p) (ns_incarnation st) (se_operation_id p) op;
}.

Definition storage_event (e : ScheduledEvent) : bool :=
  match ev_payload e with PStorage _ => true | _ => false end.

(** A device is unaffected by steps that keep its completion events. *)
Lemma device_ok_frame s s' n st :
  (forall id op, sd_pending (ns_storage st) !! id = Some op ->
     op_event n (ns_incarnation st) id op ∈ q_heap (sim_events s) ->
     op_event n (ns_incarnation st) id op ∈ q_heap (sim_events s')) ->
  sim_config s' = sim_config s ->
  (sim_next_storage_id s' = sim_next_storage_id s \/
   sim_next_storage_id s' = next_id (sim_next_storage_id s) /\ 1 <= sim_next_storage_id s <= u64_max) ->
  device_ok s n st -> device_ok s' n st.
Proof.
  intros He Hc Hn [D1 D2 D3 D4 D5 D6 D7 D8]. split; rewrite ?Hc; try done.
  intros id op Hop. destruct (D2 id op Hop) as (H1 & H2 & H3 & H4 & H5).
  split_and!; try done; [|by apply He].
  destruct Hn as [->|[-> Hb]]; [done|]. destruct (next_id_spec _ Hb) as [?|[? _]]; [by left|]. lia.
Qed.

Lemma storage_inv_core s s' : core_eq s s' -> storage_inv s -> storage_inv s'.
Proof.
  intros [Hc He Hn _ _ _ Hs] [I1 I2 I3 I4 I5]. split; rewrite ?He, ?Hc, ?Hs, ?Hn; try done.
  intros n st Hst. apply (device_ok_frame s); [by rewrite He|done|by left|]. by apply I4.
Qed.

(** ** Preservation *)

(** A node whose pending operations, incarnation and clock are kept. *)
Lemma device_ok_same s n st st' :
  sd_pending (ns_storage st') = sd_pending (ns_storage st) ->
  ns_incarnation st' = ns_incarnation st -> ns_alive st' = ns_alive st ->
  sd_unstable (ns_storage st') = sd_unstable (ns_storage st) ->
  sd_pending_bytes (ns_storage st') = sd_pending_bytes (ns_storage st) ->
  sd_available_at (ns_storage st') = sd_available_at (ns_storage st) ->
  blen (sd_stable (ns_storage st')) <= blen (sd_stable (ns_storage st)) ->
  device_ok s n st -> device_ok s n st'.
Proof.
  intros Hp Hi Ha Hu Hb Hv Hs [D1 D2 D3 D4 D5 D6 D7 D8].
  split; rewrite ?Hp, ?Hi, ?Ha, ?Hu, ?Hb, ?Hv; try done.
  unfold device_size in *. rewrite Hu, Hb. lia.
Qed.

(** A node with no pending operation. *)
Lemma device_ok_idle s n st :
  sd_pending (ns_storage st) = ∅ -> sd_pending_bytes (ns_storage st) = 0 ->
  (ns_alive st = false -> sd_unstable (ns_storage st) = []) ->
  device_size (ns_storage st) <= sl_max_file_bytes (sc_storage (sim_config s)) ->
  sd_available_at (ns_storage st) <= u64_max -> device_ok s n st.
Proof.
  intros Hp Hb Hu Hf Hv. split; rewrite ?Hp; try done.
  - auto.
  - rewrite Hb. apply N.le_0_l.
  - rewrite map_size_empty. apply N.le_0_l.
Qed.

Lemma idle_bytes s n st : device_ok s n st -> sd_pending (ns_storage st) = ∅ -> sd_pending_bytes (ns_storage st) = 0.
Proof. intros Hd Hp. rewrite (do_bytes _ _ _ Hd), Hp. unfold pending_size. by rewrite sorted_items_empty. Qed.

Lemma node_step_device s n o st' :
  queue_ok (sim_events s) -> config_fits (sim_config s) ->
  (forall st, o = Some st -> device_ok s n st) ->
  node_step (sc_storage (sim_config s)) (q_now (sim_events s)) o st' ->
  device_ok s n st' /\
  forall st, o = Some st -> sd_pending (ns_storage st') = sd_pending (ns_storage st) /\
    (sd_pending (ns_storage st) = ∅ \/ ns_incarnation st' = ns_incarnation st).
Proof.
  intros Hq Hc Ho Hs. pose proof (qo_now _ Hq) as Hnow. destruct Hs as [|st Ha Hi|st k Ha|st fw sw ff Ha|st bs Ha Hb S1 S2 S3|st v Ha].
  - split; [|done]. apply device_ok_idle; simpl; try done. unfold device_size. simpl. unfold blen. simpl. lia.
  - specialize (Ho st eq_refl). destruct (do_dead _ _ _ Ho Ha) as [Hu Hp]. split.
    + apply device_ok_idle; simpl; try done; [by eapply idle_bytes|]. exact (do_file _ _ _ Ho).
    + intros ? [= <-]. split; [done|by left].
  - specialize (Ho st eq_refl). split.
    + eapply device_ok_same; [..|exact Ho]; by destruct k.
    + intros ? [= <-]. split; [by destruct k|right; by destruct k].
  - specialize (Ho st eq_refl). split; [by eapply device_ok_same; [..|exact Ho]|].
    intros ? [= <-]. split; [done|by right].
  - specialize (Ho st eq_refl). pose proof (idle_bytes _ _ _ Ho S3) as Hz. split.
    + apply device_ok_idle; simpl; try done.
      unfold device_size. simpl. rewrite S2, Hz. change (blen []) with 0. lia.
    + intros ? [= <-]. split; [done|by right].
  - specialize (Ho st eq_refl). split.
    + eapply device_ok_same; [..|exact Ho]; try done. simpl. unfold blen. rewrite length_take. lia.
    + intros ? [= <-]. split; [done|by right].
Qed.

Lemma node_storage_inv s n st' :
  storage_inv s ->
  node_step (sc_storage (sim_config s)) (q_now (sim_events s)) (sim_nodes s !! n) st' ->
  storage_inv (put_node s n st').
Proof.
  intros [I1 I2 I3 I4 I5] Hs. destruct (node_step_device s n _ st' I1 I2 (I4 n) Hs) as [Hd Hk].
  split; simpl; try done.
  - intros n' st. destruct (decide (n = n')) as [<-|Hne].
    + rewrite lookup_insert_eq. intros [= <-]. apply (device_ok_frame s); try done. by left.
    + rewrite lookup_insert_ne by done. intros Hst. apply (device_ok_frame s); try done; [by left|].
      by apply I4.
  - intros e p He Hp. destruct (I5 e p He Hp) as (st & op & Hst & Hop & ->).
    destruct (decide (n = se_node p)) as [->|Hne].
    + destruct (Hk st Hst) as [Hpd [Hz|Hi]]; [by rewrite Hz, lookup_empty in Hop|].
      exists st', op. rewrite lookup_insert_eq, Hpd, Hi. done.
    + exists st, op. by rewrite lookup_insert_ne.
Qed.

(** Steps that keep the nodes and the completion events. *)
Lemma other_storage_inv s s' :
  storage_inv s -> queue_ok (sim_events s') -> sim_config s' = sim_config s ->
  sim_nodes s' = sim_nodes s -> sim_next_storage_id s' = sim_next_storage_id s ->
  (forall e, storage_event e = true -> e ∈ q_heap (sim_events s) <-> e ∈ q_heap (sim_events s')) ->
  storage_inv s'.
Proof.
  intros [I1 I2 I3 I4 I5] Hq Hc Hn Hs He. split; rewrite ?Hc, ?Hs, ?Hn; try done.
  - intros n st Hst. apply (device_ok_frame s); [|done|by left|by apply I4].
    intros id op _ H2. by apply He.
  - intros e p Hin Hp. apply (I5 e p); [|done]. apply He; [|done]. unfold storage_event. by rewrite Hp.
Qed.

(** The sequence number of a new event is larger than all pending ones. *)
Lemma added_sequence q q' e x :
  queue_ok q -> q_added q q' e -> x ∈ q_heap q -> ev_sequence x < ev_sequence e.
Proof.
  intros Hq [Hq' Hh _ _ Hs _] Hx.
  pose proof (qo_range _ Hq) as Hr. rewrite Forall_forall in Hr. destruct (Hr x Hx) as [_ Hlt].
  pose proof (qo_range _ Hq') as Hr'. rewrite Forall_forall in Hr'.
  destruct (Hr' e) as [? _]; [rewrite Hh; by left|]. lia.
Qed.

Lemma added_time q q' e : q_added q q' e -> ev_time e <= u64_max.
Proof.
  intros [Hq' Hh _ _ _ _]. pose proof (qo_times _ Hq') as Ht. rewrite Forall_forall in Ht.
  destruct (Ht e); [rewrite Hh; by left|]. done.
Qed.

Lemma submit_device s s' n st op fw sw ff q' :
  storage_inv s -> sim_nodes s !! n = Some st -> ns_alive st = true -> op_ok op ->
  storage_start s (ns_storage st) <= po_completion_time op -> sim_next_storage_id s <> 0 ->
  q_added (sim_events s) q' (op_event n (ns_incarnation st) (sim_next_storage_id s) op) ->
  sd_pending_bytes (ns_storage st) + blen (po_bytes op) <=
    sl_max_pending_bytes (sc_storage (sim_config s)) \/ po_bytes op = [] ->
  device_size (ns_storage st) + blen (po_bytes op) <= sl_max_file_bytes (sc_storage (sim_config s)) ->
  N.of_nat (size (sd_pending (ns_storage st))) < sl_max_pending_operations (sc_storage (sim_config s)) ->
  sim_events s' = q' -> sim_config s' = sim_config s ->
  sim_next_storage_id s' = next_id (sim_next_storage_id s) ->
  device_ok s' n (set_device st (submitted (ns_storage st) (sim_next_storage_id s) op fw sw ff)).
Proof.
  intros Hi Hst Ha Hop Hstart Hid Hadd Hlim Hfile Hcount He Hc Hn. pose proof (sv_devices _ Hi _ _ Hst) as Hd.
  set (id := sim_next_storage_id s) in *. pose proof (sv_next _ Hi) as Hmax. fold id in Hmax.
  assert (Hold : forall id' op', sd_pending (ns_storage st) !! id' = Some op' -> id' < id).
  { intros id' op' Hp. destruct (do_pending _ _ _ Hd _ _ Hp) as (_ & [?|?] & _); [lia|done]. }
  assert (Hheap : q_heap (sim_events s') ≡ₚ op_event n (ns_incarnation st) id op :: q_heap (sim_events s))
    by (rewrite He; apply Hadd).
  unfold storage_start in Hstart. split; simpl; rewrite ?Hc.
  - by rewrite Ha.
  - intros id' op' Hp. apply lookup_insert_Some in Hp as [[<- <-]|[Hne Hp]].
    + split_and!; [lia| |done|rewrite Hheap; by left|done]. rewrite Hn.
      destruct (next_id_spec id ltac:(lia)) as [?|[? _]]; [by left|right; lia].
    + destruct (do_pending _ _ _ Hd _ _ Hp) as (H1 & H2 & H3 & H4 & H5).
      split_and!; [done| |done|rewrite Hheap; by right|lia]. rewrite Hn. specialize (Hold _ _ Hp).
      destruct (next_id_spec id ltac:(lia)) as [?|[? _]]; [by left|right; lia].
  - intros id1 op1 id2 op2 H1 H2 Hlt.
    apply lookup_insert_Some in H1 as [[<- <-]|[_ H1]]; apply lookup_insert_Some in H2 as [[<- <-]|[_ H2]].
    + lia.
    + specialize (Hold _ _ H2). lia.
    + destruct (do_pending _ _ _ Hd _ _ H1) as (_ & _ & _ & Hin & Htime).
      pose proof (added_sequence _ _ _ _ (sv_queue _ Hi) Hadd Hin) as Hseq.
      apply ev_lt_spec. simpl in *. lia.
    + by apply (do_fifo _ _ _ Hd id1 op1 id2 op2).
  - unfold pending_size. rewrite sorted_items_max by done. rewrite sumN_app. simpl.
    rewrite (do_bytes _ _ _ Hd). unfold pending_size. lia.
  - pose proof (do_limit _ _ _ Hd). destruct Hlim as [?|Hz]; [done|]. rewrite Hz. change (blen []) with 0. lia.
  - unfold device_size in *. simpl. lia.
  - by apply added_time in Hadd.
  - rewrite map_size_insert_None; [lia|]. apply eq_None_not_Some. intros [op' Hp]. specialize (Hold _ _ Hp). lia.
Qed.

Lemma submit_storage_inv s n st op fw sw ff q' :
  storage_inv s -> sim_nodes s !! n = Some st -> ns_alive st = true -> op_ok op ->
  storage_start s (ns_storage st) <= po_completion_time op -> sim_next_storage_id s <> 0 ->
  q_added (sim_events s) q' (op_event n (ns_incarnation st) (sim_next_storage_id s) op) ->
  sd_pending_bytes (ns_storage st) + blen (po_bytes op) <=
    sl_max_pending_bytes (sc_storage (sim_config s)) \/ po_bytes op = [] ->
  device_size (ns_storage st) + blen (po_bytes op) <= sl_max_file_bytes (sc_storage (sim_config s)) ->
  N.of_nat (size (sd_pending (ns_storage st))) < sl_max_pending_operations (sc_storage (sim_config s)) ->
  storage_inv (put_node (set_events (set_next_storage_id s (next_id (sim_next_storage_id s))) q') n
                 (set_device st (submitted (ns_storage st) (sim_next_storage_id s) op fw sw ff))).
Proof.
  intros Hi Hst Ha Hop Hstart Hid Hadd Hlim Hfile Hcount.
  pose proof Hi as [I1 I2 I3 I4 I5]. pose proof (qa_heap _ _ _ Hadd) as Hheap.
  split; simpl; try done.
  - apply Hadd.
  - destruct (next_id_spec (sim_next_storage_id s) ltac:(lia)) as [->|[_ ?]]; [lia|done].
  - intros n' st'. destruct (decide (n = n')) as [<-|Hne].
    + rewrite lookup_insert_eq. intros [= <-]. by eapply submit_device.
    + rewrite lookup_insert_ne by done. intros Hst'.
      apply (device_ok_frame s); [|done|simpl; right; lia|by apply I4].
      intros id' op' _ Hin. simpl. rewrite Hheap. by right.
  - intros e p Hin Hp. rewrite Hheap in Hin. apply elem_of_cons in Hin as [->|Hin].
    + simpl in Hp. injection Hp as <-. simpl. rewrite lookup_insert_eq.
      do 2 eexists. split_and!; [done| |]; simpl; [by rewrite lookup_insert_eq|done].
    + destruct (I5 e p Hin Hp) as (st' & op' & Hst' & Hop' & ->).
      destruct (decide (n = se_node p)) as [->|Hne].
      * rewrite lookup_insert_eq. assert (st' = st) as -> by congruence.
        exists (set_device st (submitted (ns_storage st) (sim_next_storage_id s) op fw sw ff)), op'.
        split_and!; [done| |done]. simpl. rewrite lookup_insert_ne; [done|].
        destruct (do_pending _ _ _ (I4 _ _ Hst) _ _ Hop') as (_ & [?|?] & _); lia.
      * rewrite lookup_insert_ne by done. by exists st', op'.
Qed.

(** ** Crashes *)

(** The bytes of the active write, all of which a crash may leave on the medium. *)
Definition active_bytes (d : StorageDevice) : list N :=
  match active_operation d with
  | Some op => match po_kind op with op_write => po_bytes op | op_flush => [] end
  | None => []
  end.

(** A crash leaves the stable bytes and a prefix of what was written after
    them: the ordered device never skips bytes. *)
Lemma crash_prefix d crash now :
  exists k, sd_stable (crash_device d crash now) =
    sd_stable d ++ take k (sd_unstable d ++ active_bytes d).
Proof.
  unfold crash_device, torn_bytes, unstable_survivors, active_bytes. simpl.
  set (a := match active_operation d with Some op => _ | None => _ end).
  destruct (N.eqb_spec (N.min (surviving_unstable_bytes crash) (blen (sd_unstable d)))
    (blen (sd_unstable d))) as [He|Hne].
  - rewrite He. unfold blen. rewrite Nat2N.id, firstn_all.
    destruct (active_operation d) as [op|]; [destruct (po_kind op)|]; subst a.
    + set (k := N.to_nat (N.min _ _)). exists (length (sd_unstable d) + k)%nat.
      by rewrite take_app_add, app_assoc.
    + exists (length (sd_unstable d)). by rewrite take_app_length, app_nil_r.
    + exists (length (sd_unstable d)). by rewrite take_app_length, app_nil_r.
  - rewrite app_nil_r. exists (N.to_nat (surviving_unstable_bytes crash)).
    rewrite N.min_l by lia. rewrite take_app_le; [done|]. unfold blen in *. lia.
Qed.

Lemma active_size s n st : device_ok s n st -> blen (active_bytes (ns_storage st)) <= sd_pending_bytes (ns_storage st).
Proof.
  intros Hd. rewrite (do_bytes _ _ _ Hd). unfold active_bytes, active_operation, pending_size.
  destruct (sorted_items _) as [|[id op] l]; simpl; [done|].
  destruct (po_kind op); [lia|]. change (blen []) with 0. lia.
Qed.

Lemma crash_size s n st crash now :
  device_ok s n st -> device_size (crash_device (ns_storage st) crash now) <= device_size (ns_storage st).
Proof.
  intros Hd. pose proof (active_size _ _ _ Hd) as Ha.
  destruct (crash_prefix (ns_storage st) crash now) as [k Hk]. unfold device_size.
  rewrite Hk. unfold crash_device. simpl. change (blen []) with 0. rewrite blen_app.
  assert (blen (take k (sd_unstable (ns_storage st) ++ active_bytes (ns_storage st))) <=
          blen (sd_unstable (ns_storage st)) + blen (active_bytes (ns_storage st))); [|lia].
  rewrite <- blen_app. unfold blen. rewrite length_take. lia.
Qed.

Lemma fold_release_kept l s :
  sim_nodes (fold_left release_event l s) = sim_nodes s /\
  sim_next_storage_id (fold_left release_event l s) = sim_next_storage_id s.
Proof.
  revert s. induction l as [|e l IH]; intros s; [done|]. simpl.
  destruct (IH (release_event s e)) as [-> ->]. unfold release_event.
  destruct (ev_payload e); try done. unfold release_network_bytes. by destruct (_ !! _).
Qed.

Lemma cancelled_storage s n e p :
  ev_payload e = PStorage p -> cancelled_by_crash s n e = (se_node p =? n).
Proof. intros Hp. unfold cancelled_by_crash. by rewrite Hp. Qed.

Lemma crash_storage_inv s n st crash cancelled q' :
  storage_inv s -> sim_nodes s !! n = Some st -> queue_ok q' ->
  q_heap q' ≡ₚ filter (fun e => cancelled_by_crash s n e = false) (q_heap (sim_events s)) ->
  storage_inv (fold_left release_event cancelled
    (set_events (put_node s n (crashed_node st crash (q_now (sim_events s)))) q')).
Proof.
  intros Hi Hst Hq' Hh. pose proof Hi as [I1 I2 I3 I4 I5].
  set (s1 := set_events (put_node s n (crashed_node st crash (q_now (sim_events s)))) q').
  destruct (queued_shrinks cancelled s1) as (_ & _ & Hc & He).
  destruct (fold_release_kept cancelled s1) as [Hn Hs].
  split; rewrite ?Hc, ?He, ?Hn, ?Hs; try done.
  - simpl. intros n' st'. destruct (decide (n = n')) as [<-|Hne].
    + rewrite lookup_insert_eq. intros [= <-]. apply device_ok_idle; simpl; try done.
      * rewrite Hc. etrans; [apply (crash_size s n), (I4 _ _ Hst)|]. apply (do_file _ _ _ (I4 _ _ Hst)).
      * apply (qo_now _ I1).
    + rewrite lookup_insert_ne by done. intros Hst'.
      apply (device_ok_frame s); [|by rewrite Hc|left; by rewrite Hs|by apply I4].
      intros id op _ Hin. rewrite He. simpl. rewrite Hh, list_elem_of_filter. split; [|done].
      unfold cancelled_by_crash. simpl. apply N.eqb_neq. congruence.
  - simpl. intros e p Hin Hp. rewrite Hh, list_elem_of_filter in Hin. destruct Hin as [Hcn Hin].
    rewrite (cancelled_storage _ _ _ _ Hp) in Hcn. apply N.eqb_neq in Hcn.
    destruct (I5 e p Hin Hp) as (st' & op' & Hst' & ? & ?). exists st', op'.
    rewrite lookup_insert_ne by (intros ->; by apply Hcn). done.
Qed.

(** ** Completions *)

(** A completion event is never stale, and completes the oldest operation. *)
Lemma completion_first s e q' p :
  storage_inv s -> q_popped (sim_events s) q' e -> ev_payload e = PStorage p ->
  exists st op, sim_nodes s !! se_node p = Some st /\ ns_alive st = true /\
    ns_incarnation st = se_incarnation p /\
    e = op_event (se_node p) (ns_incarnation st) (se_operation_id p) op /\
    sorted_items (sd_pending (ns_storage st)) =
      (se_operation_id p, op) :: sorted_items (delete (se_operation_id p) (sd_pending (ns_storage st))).
Proof.
  intros Hi [_ Hh Hf _ _ _] Hp. destruct (sv_events _ Hi e p) as (st & op & Hst & Hop & He);
    [rewrite Hh; by left|done|].
  pose proof (sv_devices _ Hi _ _ Hst) as Hd. exists st, op. split_and!; try done.
  - destruct (ns_alive st) eqn:Ha; [done|]. destruct (do_dead _ _ _ Hd Ha) as [_ Hz].
    by rewrite Hz, lookup_empty in Hop.
  - rewrite He in Hp. simpl in Hp. by injection Hp as <-.
  - apply sorted_items_min; [done|]. intros id' op' Hop'.
    destruct (N.le_gt_cases (se_operation_id p) id') as [?|Hlt]; [done|]. exfalso.
    destruct (do_pending _ _ _ Hd _ _ Hop') as (_ & _ & _ & Hin & _).
    pose proof (do_fifo _ _ _ Hd _ _ _ _ Hop' Hop Hlt) as Hlt1. rewrite <- He in Hlt1.
    rewrite Hh in Hin. apply elem_of_cons in Hin as [Heq|Hin].
    + rewrite Heq in Hlt1. apply ev_lt_spec in Hlt1. lia.
    + rewrite Forall_forall in Hf. pose proof (Hf _ Hin) as Hlt2.
      apply ev_lt_spec in Hlt1, Hlt2. lia.
Qed.

Lemma dispatch_storage s p st op :
  sim_nodes s !! se_node p = Some st -> ns_alive st = true -> ns_incarnation st = se_incarnation p ->
  sd_pending (ns_storage st) !! se_operation_id p = Some op ->
  let '(count, d') := complete_operation (ns_storage st) (se_operation_id p) op (q_now (sim_events s)) in
  (dispatch_payload s (PStorage p)).1 = Some (PStorage (mkStorageEvent (se_node p) (se_operation_id p)
    (se_kind p) (se_incarnation p) count (po_completion_status op))) /\
  core_eq (put_node s (se_node p) (set_device st d')) (dispatch_payload s (PStorage p)).2.
Proof.
  intros Hst Ha Hinc Hop. simpl. unfold complete_storage. rewrite Hst, Ha, Hinc, N.eqb_refl, Hop. simpl.
  destruct (complete_operation _ _ _ _) as [count d']. split; [done|apply record_core].
Qed.

Lemma complete_fields d id op now :
  let '(_, d') := complete_operation d id op now in
  sd_pending d' = delete id (sd_pending d) /\
  (sd_stable d' ++ sd_unstable d' = sd_stable d ++ sd_unstable d ++
     match po_kind op with
     | op_write => take (N.to_nat (po_actual_write_bytes op)) (po_bytes op)
     | op_flush => []
     end) /\
  sd_pending_bytes d' = match po_kind op with
                        | op_write => sub64 (sd_pending_bytes d) (blen (po_bytes op))
                        | op_flush => sd_pending_bytes d
                        end /\
  sd_available_at d' = if bool_decide (sd_pending d' = ∅) then now else sd_available_at d.
Proof.
  unfold complete_operation. destruct (po_kind op); simpl.
  - split_and!; try done. 
  - destruct (bool_decide _); simpl; split_and!; try done; by rewrite !app_nil_r.
Qed.

Lemma complete_device s s' n st op id q' now :
  storage_inv s -> sim_nodes s !! n = Some st -> ns_alive st = true ->
  sorted_items (sd_pending (ns_storage st)) =
    (id, op) :: sorted_items (delete id (sd_pending (ns_storage st))) ->
  q_heap (sim_events s) ≡ₚ op_event n (ns_incarnation st) id op :: q_heap q' ->
  sim_events s' = q' -> sim_config s' = sim_config s ->
  sim_next_storage_id s' = sim_next_storage_id s -> now <= u64_max ->
  device_ok s' n (set_device st (complete_operation (ns_storage st) id op now).2).
Proof.
  intros Hi Hst Ha Hsort Hh He Hc Hn Hnow. pose proof (sv_devices _ Hi _ _ Hst) as Hd.
  destruct (sorted_items_first _ _ _ _ Hsort) as (Hop & Hmin & _).
  destruct (do_pending _ _ _ Hd _ _ Hop) as (_ & _ & [Hw Hfl] & _).
  pose proof (complete_fields (ns_storage st) id op now) as Hf.
  destruct (complete_operation _ _ _ _) as [count d']. destruct Hf as (Hpend & Hbytes & Hpb & Hav). simpl.
  assert (Hsize : pending_size (sd_pending (ns_storage st)) =
    blen (po_bytes op) + pending_size (delete id (sd_pending (ns_storage st))))
    by (unfold pending_size at 1; by rewrite Hsort).
  pose proof (do_bytes _ _ _ Hd) as Hb. pose proof (do_file _ _ _ Hd) as Hfile.
  pose proof (cf_file _ (sv_config _ Hi)) as Hcf.
  assert (Hpb' : sd_pending_bytes d' = pending_size (delete id (sd_pending (ns_storage st)))).
  { rewrite Hpb. unfold device_size in Hfile. destruct (po_kind op).
    - rewrite sub64_small by lia. lia.
    - rewrite Hfl in Hsize by done. change (blen []) with 0 in Hsize. lia. }
  split; simpl; rewrite ?Hpend, ?Hc.
  - by rewrite Ha.
  - intros id' op' [Hne Hop']%lookup_delete_Some.
    destruct (do_pending _ _ _ Hd _ _ Hop') as (H1 & H2 & H3 & H4 & H5). split_and!; try done.
    + by rewrite Hn.
    + rewrite He. rewrite Hh in H4. apply elem_of_cons in H4 as [Heq|?]; [|done].
      injection Heq as _ _ -> _ _ _. done.
    + rewrite Hav. rewrite bool_decide_false; [done|]. rewrite Hpend. intros Hz.
      assert (Hl : delete id (sd_pending (ns_storage st)) !! id' = Some op') by (by rewrite lookup_delete_ne).
      by rewrite Hz, lookup_empty in Hl.
  - intros id1 op1 id2 op2 [_ H1]%lookup_delete_Some [_ H2]%lookup_delete_Some. by apply (do_fifo _ _ _ Hd).
  - exact Hpb'.
  - pose proof (do_limit _ _ _ Hd). lia.
  - unfold device_size in *. apply (f_equal blen) in Hbytes. rewrite !blen_app in Hbytes.
    assert (blen (match po_kind op with op_write => take (N.to_nat (po_actual_write_bytes op)) (po_bytes op)
      | op_flush => [] end) <= blen (po_bytes op)); [|lia].
    destruct (po_kind op); unfold blen; rewrite ?length_take; simpl; lia.
  - rewrite Hav. pose proof (do_clock _ _ _ Hd). by destruct (bool_decide _).
  - pose proof (do_count _ _ _ Hd). rewrite map_size_delete_Some by by exists op. lia.
Qed.

Lemma dispatch_kept s p :
  sim_config (dispatch_payload s p).2 = sim_config s /\
  sim_next_storage_id (dispatch_payload s p).2 = sim_next_storage_id s /\
  (match p with PStorage _ => True | _ => sim_nodes (dispatch_payload s p).2 = sim_nodes s end).
Proof.
  assert (Hc : forall s' k n q t i b d, sim_config (record s' k n q t i b d) = sim_config s')
    by (intros; apply record_core).
  assert (Hs : forall s' k n q t i b d, sim_next_storage_id (record s' k n q t i b d) =
    sim_next_storage_id s') by (intros; apply record_core).
  assert (Hn : forall s' k n q t i b d, sim_nodes (record s' k n q t i b d) = sim_nodes s')
    by (intros; apply record_core).
  destruct p as [t|m|p|u]; simpl.
  - unfold fire_timer. destruct (negb _); simpl; by rewrite Hc, Hs, Hn.
  - assert (Hrel : sim_config (release_network_bytes s m) = sim_config s /\
      sim_next_storage_id (release_network_bytes s m) = sim_next_storage_id s /\
      sim_nodes (release_network_bytes s m) = sim_nodes s)
      by (unfold release_network_bytes; by destruct (_ !! _)).
    unfold deliver_network. destruct (lf_partitioned _); simpl; [by rewrite Hc, Hs, Hn|].
    destruct (_ || _); simpl; by rewrite Hc, Hs, Hn.
  - unfold complete_storage. destruct (sim_nodes s !! se_node p); simpl; [|by rewrite Hc, Hs].
    destruct (_ || _); simpl; [by rewrite Hc, Hs|].
    destruct (_ !! se_operation_id p); simpl; [|by rewrite Hc, Hs].
    destruct (complete_operation _ _ _ _). simpl. by rewrite Hc, Hs.
  - unfold deliver_user. destruct (negb _); simpl; by rewrite Hc, Hs, Hn.
Qed.

Lemma popped_other q q' e x :
  q_popped q q' e -> storage_event e = false -> storage_event x = true -> x ∈ q_heap q <-> x ∈ q_heap q'.
Proof.
  intros [_ Hh _ _ _ _] He Hx. rewrite Hh, elem_of_cons. split; [|by right].
  intros [->|?]; [congruence|done].
Qed.

Lemma pop_storage_inv s e q' :
  storage_inv s -> q_popped (sim_events s) q' e ->
  storage_inv (dispatch_payload (set_events s q') (ev_payload e)).2.
Proof.
  intros Hi Hp. pose proof Hi as [I1 I2 I3 I4 I5]. pose proof Hp as [Hq' Hh Hf Hnow _ _].
  destruct (dispatch_kept (set_events s q') (ev_payload e)) as (Hc & Hs & Hn).
  destruct (storage_event e) eqn:Hse.
  - unfold storage_event in Hse. destruct (ev_payload e) as [| |p|] eqn:E; try done. clear Hn.
    destruct (completion_first s e q' p Hi Hp E) as (st & op & Hst & Ha & Hinc & He & Hsort).
    destruct (sorted_items_first _ _ _ _ Hsort) as (Hop & _ & _).
    pose proof (dispatch_storage (set_events s q') p st op Hst Ha Hinc Hop) as Hd.
    pose proof (complete_fields (ns_storage st) (se_operation_id p) op (q_now (sim_events (set_events s q')))) as Hfd.
    assert (Hnow' : q_now (sim_events (set_events s q')) <= u64_max) by apply Hq'.
    assert (Hdev : forall s', sim_events s' = q' -> sim_config s' = sim_config s ->
      sim_next_storage_id s' = sim_next_storage_id s -> device_ok s' (se_node p) (set_device st
        (complete_operation (ns_storage st) (se_operation_id p) op (q_now (sim_events (set_events s q')))).2)).
    { intros s' H1 H2 H3. eapply complete_device; try done. by rewrite <- He. }
    destruct (complete_operation _ _ _ _) as [count d']. destruct Hd as [_ Hcore].
    destruct Hfd as (Hpend & _). simpl in Hdev.
    eapply storage_inv_core; [exact Hcore|]. split; simpl; try done.
    + intros n' st'. destruct (decide (se_node p = n')) as [<-|Hne].
      * rewrite lookup_insert_eq. intros [= <-]. by apply Hdev.
      * rewrite lookup_insert_ne by done. intros Hst'.
        apply (device_ok_frame s); [|done|by left|by apply I4].
        intros id' op' _ Hin. simpl. rewrite Hh in Hin. apply elem_of_cons in Hin as [Heq|?]; [|done].
        rewrite He in Heq. injection Heq as _ _ -> _ _ _ _. done.
    + intros x px Hx Hpx. destruct (I5 x px ltac:(rewrite Hh; by right) Hpx) as (st' & op' & Hst' & Hop' & Hxe).
      destruct (decide (se_node p = se_node px)) as [Heq|Hne].
      * rewrite <- Heq in Hst' |- *. assert (st' = st) as -> by congruence.
        exists (set_device st d'), op'. rewrite lookup_insert_eq. split_and!; [done| |by rewrite Heq].
        simpl. rewrite Hpend. rewrite lookup_delete_ne; [done|]. intros Hid. rewrite <- Hid in *.
        assert (op' = op) as -> by congruence. rewrite Forall_forall in Hf. specialize (Hf x Hx).
        rewrite Hxe, <- Heq, <- He in Hf. apply ev_lt_spec in Hf. lia.
      * exists st', op'. by rewrite lookup_insert_ne by done.
  - apply (other_storage_inv s); try done.
    + by rewrite dispatch_events.
    + unfold storage_event in Hse. by destruct (ev_payload e).
    + intros x Hx. rewrite dispatch_events. by apply (popped_other _ _ e).
Qed.

Lemma added_other q q' e x :
  q_added q q' e -> storage_event e = false -> storage_event x = true -> x ∈ q_heap q <-> x ∈ q_heap q'.
Proof.
  intros [_ Hh _ _ _ _] He Hx. rewrite Hh, elem_of_cons. split; [by right|].
  intros [->|?]; [congruence|done].
Qed.

Lemma effect_storage_inv s s' : effect s s' -> storage_inv s -> storage_inv s'.
Proof.
  intros Hs Hi. pose proof Hi as [I1 I2 I3 I4 I5].
  destruct Hs as [Hc|n st' Hn Hc|f t l' Hq Hc|n st kind time sq q' Hst Hal Ha Hc|n st tag bs time sq q' Hst Hal Ha Hc
    |f t sc tg bytes copies time id q' l' _ _ _ _ Hq' _ _ Hh _ _ _ Hc
    |n st op fw sw ff q' Hst Hal Hop Hstart Hid Ha Hlim Hfile Hcount Hc|n st crash cs q' Hst Hal Hq' _ _ _ Hk _ Hc|e q' Hp Hc].
  all: eapply storage_inv_core; [exact Hc|].
  - done.
  - by apply node_storage_inv.
  - by apply (other_storage_inv s).
  - assert (Hi' : storage_inv (set_events s q')).
    { apply (other_storage_inv s); try done; [apply Ha|]. intros x Hx. by apply (added_other _ _ _ _ Ha). }
    apply (node_storage_inv _ n _ Hi'). simpl. rewrite Hst. by constructor.
  - apply (other_storage_inv s); try done; [apply Ha|]. intros x Hx. by apply (added_other _ _ _ _ Ha).
  - apply (other_storage_inv s); try done. intros x Hx. simpl. rewrite Hh, elem_of_app. split; [by right|].
    intros [Hin|?]; [|done]. apply list_elem_of_fmap in Hin as (j & -> & _). done.
  - by apply submit_storage_inv.
  - by apply crash_storage_inv.
  - by apply pop_storage_inv.
Qed.
