(* ===== verification/SimEquiv.v ===== *)
(** * SimEquiv: the simulator does not depend on the heap library

    Two simulators that run the same calls over two conforming implementations
    of the heap algorithms give the same replies.  [sim_eq] relates their states:
    everything is equal except the order of the heap and the order in which a
    crash traces the events it cancels. *)

From S2P Require Import Prelude Model Bytes SimQueue Simulator SimSpec SimNetwork SimStorage.

Record sim_eq (s1 s2 : Simulator) : Prop := {
  se_config : sim_config s1 = sim_config s2;
  se_events : queue_eq (sim_events s1) (sim_events s2);
  se_nodes : sim_nodes s1 = sim_nodes s2;
  se_links : sim_links s1 = sim_links s2;
  se_total : sim_total_network_bytes s1 = sim_total_network_bytes s2;
  se_delivery : sim_next_delivery_id s1 = sim_next_delivery_id s2;
  se_storage : sim_next_storage_id s1 = sim_next_storage_id s2;
  se_sequence : sim_next_trace_sequence s1 = sim_next_trace_sequence s2;
  se_trace : length (sim_trace_records s1) = length (sim_trace_records s2);
  se_truncated : sim_trace_was_truncated s1 = sim_trace_was_truncated s2;
}.

#[global] Instance sim_eq_equiv : Equivalence sim_eq.
Proof.
  split.
  - intros s. by split.
  - intros s1 s2 []. by split.
  - intros s1 s2 s3 [] []. split; by etrans.
Qed.

(** A call preserves the relation and replies the same. *)
Definition same_reply {A} (p1 p2 : A * Simulator) : Prop := p1.1 = p2.1 /\ sim_eq p1.2 p2.2.

Lemma record_eq s1 s2 k1 n1 p1 t1 i1 b1 d1 k2 n2 p2 t2 i2 b2 d2 :
  sim_eq s1 s2 -> sim_eq (record s1 k1 n1 p1 t1 i1 b1 d1) (record s2 k2 n2 p2 t2 i2 b2 d2).
Proof.
  intros [? ? ? ? ? ? ? ? Ht ?]. unfold record.
  replace (sim_config s2) with (sim_config s1) by done. rewrite Ht.
  destruct (_ <=? _); split; simpl; try done; try congruence. rewrite !length_app. simpl. lia.
Qed.

Lemma set_events_eq s1 s2 q1 q2 :
  sim_eq s1 s2 -> queue_eq q1 q2 -> sim_eq (set_events s1 q1) (set_events s2 q2).
Proof. intros [] ?. by split. Qed.

Lemma put_node_eq s1 s2 n st : sim_eq s1 s2 -> sim_eq (put_node s1 n st) (put_node s2 n st).
Proof. intros []. split; simpl; congruence. Qed.

Lemma put_link_eq s1 s2 f t l : sim_eq s1 s2 -> sim_eq (put_link s1 f t l) (put_link s2 f t l).
Proof. intros []. split; simpl; congruence. Qed.

Lemma set_total_eq s1 s2 n :
  sim_eq s1 s2 -> sim_eq (set_total_network_bytes s1 n) (set_total_network_bytes s2 n).
Proof. intros []. split; simpl; congruence. Qed.

Lemma set_delivery_eq s1 s2 n :
  sim_eq s1 s2 -> sim_eq (set_next_delivery_id s1 n) (set_next_delivery_id s2 n).
Proof. intros []. split; simpl; congruence. Qed.

Lemma set_storage_eq s1 s2 n :
  sim_eq s1 s2 -> sim_eq (set_next_storage_id s1 n) (set_next_storage_id s2 n).
Proof. intros []. split; simpl; congruence. Qed.

Create HintDb simeq discriminated.
#[export] Hint Resolve record_eq set_events_eq put_node_eq put_link_eq set_total_eq set_delivery_eq
  set_storage_eq : simeq.

(** ** Releasing bytes commutes *)

Definition drop_queued (b : N) (l : LinkState) : LinkState :=
  mkLinkState (ls_fault l) (ls_queued_bytes l - b).

Lemma release_fields s e :
  sim_links (release_network_bytes s e) =
    alter (drop_queued (blen (ne_bytes e))) (ne_from e, ne_to e) (sim_links s) /\
  sim_total_network_bytes (release_network_bytes s e) =
    sim_total_network_bytes s - blen (ne_bytes e).
Proof.
  unfold release_network_bytes. set (b := blen (ne_bytes e)).
  assert (Hsub : forall x, (if x <? b then 0 else x - b) = x - b).
  { intros x. destruct (N.ltb_spec x b); lia. }
  rewrite Hsub. split; [|done].
  destruct (sim_links s !! (ne_from e, ne_to e)) as [l|] eqn:E; simpl.
  - rewrite Hsub. apply map_eq. intros k. destruct (decide (k = (ne_from e, ne_to e))) as [->|Hk].
    + by rewrite lookup_insert_eq, lookup_alter_eq, E.
    + by rewrite lookup_insert_ne, lookup_alter_ne by done.
  - apply map_eq. intros k. destruct (decide (k = (ne_from e, ne_to e))) as [->|Hk].
    + by rewrite lookup_alter_eq, E.
    + by rewrite lookup_alter_ne by done.
Qed.

Lemma release_eq s1 s2 e :
  sim_eq s1 s2 -> sim_eq (release_network_bytes s1 e) (release_network_bytes s2 e).
Proof.
  intros Heq. unfold release_network_bytes. rewrite (se_links _ _ Heq), (se_total _ _ Heq).
  apply set_total_eq. destruct (_ !! _); auto with simeq.
Qed.
#[export] Hint Resolve release_eq : simeq.

(** One turn of the loop of [crash_node]. *)
Definition cancel_one (s : Simulator) (node : NodeId) (inc : N) (e : ScheduledEvent) : Simulator :=
  record_cancelled s node inc [e].

Lemma cancel_one_eq s1 s2 node inc e :
  sim_eq s1 s2 -> sim_eq (cancel_one s1 node inc e) (cancel_one s2 node inc e).
Proof. intros Heq. unfold cancel_one. simpl. destruct (ev_payload e); auto with simeq. Qed.

Lemma record_cancelled_eq s1 s2 node inc l :
  sim_eq s1 s2 -> sim_eq (record_cancelled s1 node inc l) (record_cancelled s2 node inc l).
Proof.
  revert s1 s2. induction l as [|e l IH]; intros s1 s2 Heq; [done|].
  simpl. apply IH. by apply (cancel_one_eq s1 s2 node inc e).
Qed.

Lemma cancel_one_release s node inc e :
  sim_eq (cancel_one s node inc e) (record (release_event s e) sim_stale_event 0 0 0 0 0 "").
Proof. unfold cancel_one, release_event. simpl. destruct (ev_payload e); by apply record_eq. Qed.

Lemma release_event_record s e k n p t i b d :
  sim_eq (release_event (record s k n p t i b d) e) (record (release_event s e) k n p t i b d).
Proof.
  unfold release_event. destruct (ev_payload e) as [|m| |]; try done.
  unfold release_network_bytes, record. simpl.
  destruct (sc_max_trace_records _ <=? _) eqn:E; destruct (_ !! _); simpl; rewrite E; by split.
Qed.

Lemma release_event_eq s1 s2 e : sim_eq s1 s2 -> sim_eq (release_event s1 e) (release_event s2 e).
Proof. intros Heq. unfold release_event. destruct (ev_payload e); auto with simeq. Qed.

Lemma release_swap s e1 e2 :
  sim_eq (release_event (release_event s e1) e2) (release_event (release_event s e2) e1).
Proof.
  unfold release_event. destruct (ev_payload e1) as [|m1| |], (ev_payload e2) as [|m2| |]; try done.
  destruct (release_fields (release_network_bytes s m1) m2) as [HL1 HT1].
  destruct (release_fields (release_network_bytes s m2) m1) as [HL2 HT2].
  destruct (release_fields s m1) as [HL3 HT3], (release_fields s m2) as [HL4 HT4].
  rewrite HL3 in HL1. rewrite HT3 in HT1. rewrite HL4 in HL2. rewrite HT4 in HT2.
  assert (Hrest : forall s m,
    sim_config (release_network_bytes s m) = sim_config s /\
    sim_events (release_network_bytes s m) = sim_events s /\
    sim_nodes (release_network_bytes s m) = sim_nodes s /\
    sim_next_delivery_id (release_network_bytes s m) = sim_next_delivery_id s /\
    sim_next_storage_id (release_network_bytes s m) = sim_next_storage_id s /\
    sim_next_trace_sequence (release_network_bytes s m) = sim_next_trace_sequence s /\
    sim_trace_records (release_network_bytes s m) = sim_trace_records s /\
    sim_trace_was_truncated (release_network_bytes s m) = sim_trace_was_truncated s).
  { intros s0 m. unfold release_network_bytes. by destruct (_ !! _). }
  destruct (Hrest (release_network_bytes s m1) m2) as (A1 & A2 & A3 & A4 & A5 & A6 & A7 & A8).
  destruct (Hrest (release_network_bytes s m2) m1) as (B1 & B2 & B3 & B4 & B5 & B6 & B7 & B8).
  destruct (Hrest s m1) as (C1 & C2 & C3 & C4 & C5 & C6 & C7 & C8).
  destruct (Hrest s m2) as (D1 & D2 & D3 & D4 & D5 & D6 & D7 & D8).
  split; try congruence.
  - by rewrite A2, B2, C2, D2.
  - rewrite HL1, HL2. apply map_eq. intros k. rewrite !lookup_alter.
    generalize (ne_from m1, ne_to m1) as k1, (ne_from m2, ne_to m2) as k2. intros k1 k2.
    repeat case_decide; subst; try done; destruct (_ !! _); simpl; try done.
    unfold drop_queued. simpl. do 2 f_equal. lia.
  - rewrite HT1, HT2. lia.
Qed.

Lemma cancel_swap s node inc e1 e2 :
  sim_eq (cancel_one (cancel_one s node inc e1) node inc e2)
         (cancel_one (cancel_one s node inc e2) node inc e1).
Proof.
  assert (Hone : forall a b, sim_eq (cancel_one (cancel_one s node inc a) node inc b)
    (record (record (release_event (release_event s a) b) sim_stale_event 0 0 0 0 0 "")
       sim_stale_event 0 0 0 0 0 "")).
  { intros a b. etrans; [apply cancel_one_eq, cancel_one_release|].
    etrans; [apply cancel_one_release|]. apply record_eq. apply release_event_record. }
  rewrite (Hone e1 e2), (Hone e2 e1). do 2 apply record_eq. apply release_swap.
Qed.

Lemma record_cancelled_perm s1 s2 node inc l1 l2 :
  sim_eq s1 s2 -> l1 ≡ₚ l2 ->
  sim_eq (record_cancelled s1 node inc l1) (record_cancelled s2 node inc l2).
Proof.
  intros Heq Hp. revert s1 s2 Heq. induction Hp as [|e l1 l2 _ IH|e1 e2 l|l1 l2 l3 _ IH1 _ IH2];
    intros s1 s2 Heq.
  - done.
  - simpl. apply IH. by apply (cancel_one_eq s1 s2 node inc e).
  - simpl. apply (record_cancelled_eq _ _ node inc l).
    etrans; [apply (cancel_swap s1 node inc e2 e1)|]. by do 2 apply cancel_one_eq.
  - etrans; [by apply IH1|by apply IH2].
Qed.

(** ** Calls that do not touch the queue *)

Lemma se_now s1 s2 : sim_eq s1 s2 -> q_now (sim_events s1) = q_now (sim_events s2).
Proof. intros Heq. apply (se_events _ _ Heq). Qed.

Lemma se_link s1 s2 f t : sim_eq s1 s2 -> link s1 f t = link s2 f t.
Proof. intros Heq. unfold link. by rewrite (se_links _ _ Heq). Qed.

Lemma se_incarnation s1 s2 n : sim_eq s1 s2 -> incarnation s1 n = incarnation s2 n.
Proof. intros Heq. unfold incarnation. by rewrite (se_nodes _ _ Heq). Qed.

Lemma se_known s1 s2 n : sim_eq s1 s2 -> known s1 n = known s2 n.
Proof. intros Heq. unfold known. by rewrite (se_nodes _ _ Heq). Qed.

(** Rewrites what a call reads of the left state into what it reads of the right
    one. *)
Ltac same_reads Heq :=
  rewrite ?(se_nodes _ _ Heq), ?(se_config _ _ Heq), ?(se_now _ _ Heq), ?(se_link _ _ _ _ Heq),
    ?(se_known _ _ _ Heq), ?(se_total _ _ Heq), ?(se_delivery _ _ Heq), ?(se_storage _ _ Heq),
    ?(queue_eq_can_schedule _ _ _ (se_events _ _ Heq)).

(** Splits on the branches of a call that reads the same in both states. *)
Ltac same_branches := repeat case_match; split; simpl in *; auto with simeq; try congruence.

Lemma register_eq s1 s2 n : sim_eq s1 s2 -> same_reply (register_node s1 n) (register_node s2 n).
Proof. intros Heq. unfold register_node. same_reads Heq. same_branches. Qed.

Lemma restart_eq s1 s2 n : sim_eq s1 s2 -> same_reply (restart_node s1 n) (restart_node s2 n).
Proof. intros Heq. unfold restart_node. same_reads Heq. same_branches. Qed.

Lemma cancel_eq s1 s2 n k : sim_eq s1 s2 -> same_reply (cancel_timer s1 n k) (cancel_timer s2 n k).
Proof. intros Heq. unfold cancel_timer. same_reads Heq. same_branches. Qed.

Lemma set_fault_eq s1 s2 f t g token d :
  sim_eq s1 s2 -> same_reply (set_fault s1 f t g token d) (set_fault s2 f t g token d).
Proof. intros Heq. unfold set_fault. same_reads Heq. split; simpl; auto with simeq. Qed.

Lemma fault_request_eq s1 s2 n f b d :
  sim_eq s1 s2 -> same_reply (fault_request s1 n f b d) (fault_request s2 n f b d).
Proof. intros Heq. unfold fault_request. same_reads Heq. same_branches. Qed.

Lemma initialize_eq s1 s2 n bs :
  sim_eq s1 s2 -> same_reply (initialize_storage s1 n bs) (initialize_storage s2 n bs).
Proof. intros Heq. unfold initialize_storage. same_reads Heq. same_branches. Qed.

Lemma truncate_eq s1 s2 n v :
  sim_eq s1 s2 -> same_reply (truncate_stable_storage s1 n v) (truncate_stable_storage s2 n v).
Proof. intros Heq. unfold truncate_stable_storage. same_reads Heq. same_branches. Qed.

(** ** Calls that use the queue *)

Section two_libraries.
Context (L1 L2 : HeapLib) {W1 : @HeapLaws L1} {W2 : @HeapLaws L2}.
Implicit Types (s : Simulator).

Lemma arm_eq s1 s2 n k d :
  queue_ok (sim_events s1) -> queue_ok (sim_events s2) -> sim_eq s1 s2 ->
  same_reply (@arm_timer L1 s1 n k d) (@arm_timer L2 s2 n k d).
Proof.
  intros Hq1 Hq2 Heq. unfold arm_timer. same_reads Heq.
  destruct (sim_nodes s2 !! n) as [st|]; [|by split]. destruct (negb (ns_alive st)); [by split|].
  set (p := PTimer _). destruct (schedule_after_eq L1 L2 _ _ d p Hq1 Hq2 (se_events _ _ Heq)) as [Hr Hq].
  destruct (@schedule_after L1 _ _ _) as [r1 q1], (@schedule_after L2 _ _ _) as [r2 q2].
  simpl in *. subst r2. destruct (negb (sched_ok r1)); split; simpl; auto with simeq.
Qed.

Lemma user_eq s1 s2 n tag bs d :
  queue_ok (sim_events s1) -> queue_ok (sim_events s2) -> sim_eq s1 s2 ->
  same_reply (@schedule_user L1 s1 n tag bs d) (@schedule_user L2 s2 n tag bs d).
Proof.
  intros Hq1 Hq2 Heq. unfold schedule_user. same_reads Heq.
  destruct (sim_nodes s2 !! n) as [st|]; [|by split]. destruct (negb (ns_alive st)); [by split|].
  destruct (_ <? _); [by split|].
  set (p := PUser _). destruct (schedule_after_eq L1 L2 _ _ d p Hq1 Hq2 (se_events _ _ Heq)) as [Hr Hq].
  destruct (@schedule_after L1 _ _ _) as [r1 q1], (@schedule_after L2 _ _ _) as [r2 q2].
  simpl in *. subst r2. destruct (sched_ok r1); split; simpl; auto with simeq.
Qed.

Lemma flush_eq s1 s2 n l :
  queue_ok (sim_events s1) -> queue_ok (sim_events s2) -> sim_eq s1 s2 ->
  same_reply (@submit_flush L1 s1 n l) (@submit_flush L2 s2 n l).
Proof.
  intros Hq1 Hq2 Heq. unfold submit_flush, storage_start. same_reads Heq.
  destruct (sim_nodes s2 !! n) as [st|]; [|by split].
  do 5 (case_match; [split; simpl; by auto with simeq|]). simpl.
  set (p := PStorage _). set (time := add64 _ _).
  destruct (schedule_at_eq L1 L2 _ _ time p Hq1 Hq2 (se_events _ _ Heq)) as [Hr Hq].
  destruct (@schedule_at L1 _ _ _) as [r1 q1], (@schedule_at L2 _ _ _) as [r2 q2].
  simpl in *. subst r2. destruct (negb (sched_ok r1)); split; simpl; auto 6 with simeq.
Qed.

Lemma write_eq s1 s2 n bs l :
  queue_ok (sim_events s1) -> queue_ok (sim_events s2) -> sim_eq s1 s2 ->
  same_reply (@submit_write L1 s1 n bs l) (@submit_write L2 s2 n bs l).
Proof.
  intros Hq1 Hq2 Heq. unfold submit_write, storage_start. same_reads Heq.
  destruct (sim_nodes s2 !! n) as [st|]; [|by split].
  do 7 (case_match; [split; simpl; by auto with simeq|]). simpl.
  destruct (write_outcome _ _) as [status actual].
  set (p := PStorage _). set (time := add64 _ _).
  destruct (schedule_at_eq L1 L2 _ _ time p Hq1 Hq2 (se_events _ _ Heq)) as [Hr Hq].
  destruct (@schedule_at L1 _ _ _) as [r1 q1], (@schedule_at L2 _ _ _) as [r2 q2].
  simpl in *. subst r2. destruct (negb (sched_ok r1)); split; simpl; auto 6 with simeq.
Qed.

Lemma crash_eq s1 s2 n c :
  queue_ok (sim_events s1) -> queue_ok (sim_events s2) -> sim_eq s1 s2 ->
  same_reply (@crash_node L1 s1 n c) (@crash_node L2 s2 n c).
Proof.
  intros Hq1 Hq2 Heq. unfold crash_node. same_reads Heq.
  destruct (sim_nodes s2 !! n) as [st|]; [|by split]. destruct (negb (ns_alive st)); [by split|].
  set (st' := mkNodeState _ _ _ _ _). unfold cancelled_by_crash. cbn [sim_config put_node].
  rewrite (se_config _ _ Heq). set (P := fun e : ScheduledEvent => _). cbn [sim_events put_node].
  destruct (extract_if_eq L1 L2 _ _ P Hq1 Hq2 (se_events _ _ Heq)) as [Hr Hq].
  destruct (@extract_if L1 _ _) as [c1 q1], (@extract_if L2 _ _) as [c2 q2]. simpl in *.
  split; [done|]. simpl. do 2 apply record_eq. apply record_cancelled_perm; [|done].
  auto with simeq.
Qed.

Lemma schedule_copies_eq n q1 q2 time e i :
  queue_ok q1 -> queue_ok q2 -> queue_eq q1 q2 -> time <= u64_max ->
  queue_eq (@schedule_copies L1 q1 time e i n) (@schedule_copies L2 q2 time e i n).
Proof.
  revert q1 q2 i. induction n as [|n IH]; intros q1 q2 i Hq1 Hq2 Heq Ht; [done|]. simpl.
  pose proof (@schedule_at_spec L1 W1 q1 time (PNetwork (e i)) Hq1 Ht) as S1.
  pose proof (@schedule_at_spec L2 W2 q2 time (PNetwork (e i)) Hq2 Ht) as S2.
  destruct (schedule_at_eq L1 L2 q1 q2 time (PNetwork (e i)) Hq1 Hq2 Heq) as [_ Hq].
  destruct (@schedule_at L1 _ _ _) as [r1 q1'], (@schedule_at L2 _ _ _) as [r2 q2'].
  apply IH; [apply S1|apply S2|done|done].
Qed.

Lemma send_eq s1 s2 f t bs d :
  queue_ok (sim_events s1) -> queue_ok (sim_events s2) -> sim_eq s1 s2 ->
  same_reply (@send L1 s1 f t bs d) (@send L2 s2 f t bs d).
Proof.
  intros Hq1 Hq2 Heq. unfold send, send_saturated. simpl. same_reads Heq.
  destruct (sim_nodes s2 !! f) as [source|]; [|by split].
  destruct (sim_nodes s2 !! t) as [target|]; [|by split].
  do 10 (case_match; [split; simpl; by auto with simeq|]).
  unfold enqueue_copies, link. simpl. same_reads Heq. rewrite !lookup_insert_eq. simpl.
  split; [done|]. simpl. apply record_eq, set_total_eq, put_link_eq.
  apply set_events_eq; [by auto with simeq|]. apply schedule_copies_eq; try done.
  - apply Heq.
  - apply add64_range.
Qed.

Lemma link_fault_eq s1 s2 f t : sim_eq s1 s2 -> link_fault s1 f t = link_fault s2 f t.
Proof. intros Heq. unfold link_fault. by rewrite (se_links _ _ Heq). Qed.

Lemma endpoint_eq s1 s2 n i : sim_eq s1 s2 -> endpoint_valid s1 n i = endpoint_valid s2 n i.
Proof. intros Heq. unfold endpoint_valid. by rewrite (se_nodes _ _ Heq). Qed.

Lemma dispatch_eq s1 s2 p :
  sim_eq s1 s2 -> same_reply (dispatch_payload s1 p) (dispatch_payload s2 p).
Proof.
  intros Heq. destruct p as [t|e|e|u]; simpl.
  - unfold fire_timer. same_reads Heq. same_branches.
  - assert (Hr : sim_eq (release_network_bytes s1 e) (release_network_bytes s2 e)) by auto with simeq.
    unfold deliver_network. rewrite (link_fault_eq _ _ _ _ Hr), !(endpoint_eq _ _ _ _ Hr).
    rewrite (se_config _ _ Hr). same_branches.
  - unfold complete_storage. same_reads Heq. same_branches.
  - unfold deliver_user. rewrite (endpoint_eq _ _ _ _ Heq). same_branches.
Qed.

Lemma next_loop_eq fuel s1 s2 :
  queue_ok (sim_events s1) -> queue_ok (sim_events s2) -> sim_eq s1 s2 ->
  same_reply (@next_loop L1 fuel s1) (@next_loop L2 fuel s2).
Proof.
  revert s1 s2. induction fuel as [|fuel IH]; intros s1 s2 Hq1 Hq2 Heq; cbn [next_loop];
    destruct (pop_next_eq L1 L2 _ _ Hq1 Hq2 (se_events _ _ Heq)) as [He Hq];
    pose proof (@pop_next_spec L1 W1 _ Hq1) as S1; pose proof (@pop_next_spec L2 W2 _ Hq2) as S2;
    destruct (@pop_next L1 _) as [[e|] q1], (@pop_next L2 _) as [[e'|] q2]; simpl in *;
    simplify_eq; try by split.
  destruct (dispatch_eq _ _ (ev_payload e') (set_events_eq _ _ _ _ Heq Hq)) as [Hr Hs].
  pose proof (dispatch_events (set_events s1 q1) (ev_payload e')) as E1.
  pose proof (dispatch_events (set_events s2 q2) (ev_payload e')) as E2.
  destruct (dispatch_payload _ _) as [[p|] s1'], (dispatch_payload _ _) as [[p'|] s2'];
    simpl in *; simplify_eq; [by split|].
  apply IH; [apply S1|apply S2|done].
Qed.

Lemma next_eq s1 s2 :
  queue_ok (sim_events s1) -> queue_ok (sim_events s2) -> sim_eq s1 s2 ->
  same_reply (@next L1 s1) (@next L2 s2).
Proof.
  intros Hq1 Hq2 Heq. unfold next.
  replace (length (q_heap (sim_events s1))) with (length (q_heap (sim_events s2)));
    [by apply next_loop_eq|].
  apply Permutation_length. symmetry. apply (se_events _ _ Heq).
Qed.

Lemma reply_as_eq {A} (f : A -> Reply) p1 p2 :
  same_reply p1 p2 -> same_reply (reply_as f p1) (reply_as f p2).
Proof. intros [Hr Hs]. split; simpl; [by rewrite Hr|done]. Qed.

Lemma call_eq s1 s2 c :
  queue_ok (sim_events s1) -> queue_ok (sim_events s2) -> sim_eq s1 s2 ->
  same_reply (@call L1 s1 c) (@call L2 s2 c).
Proof.
  intros Hq1 Hq2 Heq. destruct c; cbn [call]; apply reply_as_eq.
  - by apply register_eq.
  - by apply crash_eq.
  - by apply restart_eq.
  - by apply arm_eq.
  - by apply cancel_eq.
  - unfold set_partition. same_reads Heq. destruct (_ || _); [by split|by apply set_fault_eq].
  - unfold set_link_delay. same_reads Heq. destruct (_ || _); [by split|by apply set_fault_eq].
  - unfold drop_next. same_reads Heq. destruct (_ || _); [by split|by apply set_fault_eq].
  - unfold duplicate_next. same_reads Heq. destruct (_ || _); [by split|by apply set_fault_eq].
  - by apply send_eq.
  - by apply write_eq.
  - by apply flush_eq.
  - by apply fault_request_eq.
  - by apply fault_request_eq.
  - by apply fault_request_eq.
  - by apply initialize_eq.
  - by apply truncate_eq.
  - by apply user_eq.
  - by apply next_eq.
Qed.
End two_libraries.
