(* ===== verification/SimDelivery.v ===== *)
(** * SimDelivery: what the device keeps and which event [Simulator::next] delivers

    Stable bytes only grow: no call but the explicit repair of a stopped node
    removes or changes them, and a crash extends them by a prefix of what was
    written after them.

    [deliverable] is the reference predicate: whether an event is still valid
    for its node and link.  [next] discards the events that are not and returns
    the first one that is, in the order of time and sequence number. *)

From stdpp Require Import relations.
From S2P Require Import Prelude Model Bytes SimQueue Simulator SimSpec SimNetwork SimStorage.

(** ** Stable bytes only grow *)

Definition grows (s s' : Simulator) : Prop :=
  forall n, stable_bytes s n `prefix_of` stable_bytes s' n.

#[global] Instance grows_preorder : PreOrder grows.
Proof. split; [by intros s n|]. intros s1 s2 s3 H1 H2 n. by etrans; [apply H1|apply H2]. Qed.

Lemma grows_nodes s s1 s2 : sim_nodes s1 = sim_nodes s2 -> grows s s1 -> grows s s2.
Proof. intros Hn Hg n. specialize (Hg n). unfold stable_bytes in *. by rewrite <- Hn. Qed.

Lemma grows_record s s' k n p t i b d : grows s s' -> grows s (record s' k n p t i b d).
Proof. apply grows_nodes. symmetry. apply record_core. Qed.

Lemma grows_events s s' q : grows s s' -> grows s (set_events s' q).
Proof. by apply grows_nodes. Qed.

Lemma grows_link s s' f t l : grows s s' -> grows s (put_link s' f t l).
Proof. by apply grows_nodes. Qed.

Lemma grows_total s s' x : grows s s' -> grows s (set_total_network_bytes s' x).
Proof. by apply grows_nodes. Qed.

Lemma grows_storage_id s s' x : grows s s' -> grows s (set_next_storage_id s' x).
Proof. by apply grows_nodes. Qed.

Lemma grows_delivery_id s s' x : grows s s' -> grows s (set_next_delivery_id s' x).
Proof. by apply grows_nodes. Qed.

Lemma grows_node s s' n st : stable_bytes s n `prefix_of` sd_stable (ns_storage st) ->
  grows s s' -> grows s (put_node s' n st).
Proof.
  intros Hst Hg m. unfold stable_bytes at 2. simpl. destruct (decide (n = m)) as [<-|Hne].
  - by rewrite lookup_insert_eq.
  - rewrite lookup_insert_ne by done. apply Hg.
Qed.

Lemma grows_same s s' n st st' :
  sim_nodes s !! n = Some st -> sd_stable (ns_storage st') = sd_stable (ns_storage st) ->
  grows s s' -> grows s (put_node s' n st').
Proof. intros Hn Hs. apply grows_node. unfold stable_bytes. by rewrite Hn, Hs. Qed.

Create HintDb grow discriminated.
#[export] Hint Resolve grows_record grows_events grows_link grows_total grows_storage_id
  grows_delivery_id grows_same : grow.
#[export] Hint Extern 1 (grows ?s ?s) => reflexivity : grow.
#[export] Hint Extern 2 (sd_stable _ = sd_stable _) => reflexivity : grow.

(** Splits on the branches of a call none of which shrinks a file. *)
Ltac grow_branches := repeat case_match; simplify_eq/=; eauto 8 with grow.

Lemma record_cancelled_grows s s' n inc l : grows s s' -> grows s (record_cancelled s' n inc l).
Proof.
  apply grows_nodes. rewrite (ce_nodes _ _ (fold_cancelled s' n inc l)).
  symmetry. apply fold_release_kept.
Qed.

Lemma dispatch_grows s s' p : grows s s' -> grows s (dispatch_payload s' p).2.
Proof.
  intros Hg. etrans; [exact Hg|]. destruct p as [t|e|e|u]; simpl.
  - unfold fire_timer. grow_branches.
  - unfold deliver_network, release_network_bytes. grow_branches.
  - unfold complete_storage. destruct (sim_nodes s' !! se_node e) as [st|] eqn:Hn; simpl; [|auto with grow].
    destruct (_ || _); simpl; [auto with grow|]. destruct (sd_pending _ !! _) as [op|]; simpl; [|auto with grow].
    destruct (complete_operation _ _ _ _) as [c d'] eqn:Hc. simpl. apply grows_record, grows_node; [|done].
    simpl. unfold stable_bytes. rewrite Hn. revert Hc. unfold complete_operation.
    destruct (po_kind op); [|case_bool_decide]; intros [= _ <-]; simpl; try done. by apply prefix_app_r.
  - unfold deliver_user. grow_branches.
Qed.

(** The calls that may cut a file. *)
Definition repairs (n : NodeId) (c : Call) : bool :=
  match c with call_truncate m _ => m =? n | _ => false end.

Section growth.
Context `{HeapLib}.

Lemma next_loop_grows fuel s s' : grows s s' -> grows s (next_loop fuel s').2.
Proof.
  revert s'. induction fuel as [|fuel IH]; intros s' Hg; cbn [next_loop].
  - by destruct (pop_next _) as [[?|] ?].
  - destruct (pop_next (sim_events s')) as [[e|] q]; [|done].
    pose proof (dispatch_grows s (set_events s' q) (ev_payload e) (grows_events _ _ _ Hg)) as Hd.
    destruct (dispatch_payload _ _) as [[p|] s1]; [done|by apply IH].
Qed.

Lemma crash_grows s n crash : grows s (crash_node s n crash).2.
Proof.
  unfold crash_node. destruct (sim_nodes s !! n) as [st|] eqn:Hn; [|done].
  destruct (negb _); [done|]. destruct (extract_if _ _) as [l q]. simpl.
  do 2 apply grows_record. apply record_cancelled_grows, grows_events, grows_node; [|done].
  unfold stable_bytes. rewrite Hn. simpl. rewrite <- app_assoc. by apply prefix_app_r.
Qed.

Lemma send_grows s f t bs d : grows s (send s f t bs d).2.
Proof. unfold send, enqueue_copies. grow_branches. Qed.

Lemma write_grows s n bs l : grows s (submit_write s n bs l).2.
Proof. unfold submit_write. grow_branches. Qed.

Lemma flush_grows s n l : grows s (submit_flush s n l).2.
Proof. unfold submit_flush. grow_branches. Qed.

Lemma fault_request_grows s n f b d :
  (forall x, sd_stable (f x) = sd_stable x) -> grows s (fault_request s n f b d).2.
Proof.
  intros Hf. unfold fault_request. repeat case_match; try done. simpl.
  apply grows_record. eapply grows_same; [done|apply Hf|done].
Qed.

Lemma truncate_grows s m v n :
  m <> n -> stable_bytes s n `prefix_of` stable_bytes (truncate_stable_storage s m v).2 n.
Proof.
  intros Hne. unfold truncate_stable_storage. destruct (sim_nodes s !! m) as [st|]; [|done].
  destruct (ns_alive st); [done|]. destruct (_ || _); [done|]. simpl. unfold stable_bytes.
  rewrite (ce_nodes _ _ (record_core _ _ _ _ _ _ _ _)). simpl. by rewrite lookup_insert_ne.
Qed.

Lemma call_grows s c n :
  repairs n c = false -> stable_bytes s n `prefix_of` stable_bytes (call s c).2 n.
Proof.
  intros Hr. destruct c as [| | | | | | | | | | | | | | | |m v| |]; cbn [call reply_as snd].
  17: by apply truncate_grows, N.eqb_neq.
  all: clear Hr; revert n; match goal with |- forall n, stable_bytes ?s n `prefix_of` stable_bytes ?t n =>
    change (grows s t) end.
  - unfold register_node. destruct (sim_nodes s !! node) eqn:Hn; [done|]. simpl.
    apply grows_record, grows_node; [|done]. unfold stable_bytes. by rewrite Hn.
  - apply crash_grows.
  - unfold restart_node. grow_branches.
  - unfold arm_timer, set_timer_generation. grow_branches.
  - unfold cancel_timer, set_timer_generation. grow_branches.
  - unfold set_partition, set_fault. grow_branches.
  - unfold set_link_delay, set_fault. grow_branches.
  - unfold drop_next, set_fault. grow_branches.
  - unfold duplicate_next, set_fault. grow_branches.
  - apply send_grows.
  - apply write_grows.
  - apply flush_grows.
  - by apply fault_request_grows.
  - by apply fault_request_grows.
  - by apply fault_request_grows.
  - unfold initialize_storage. destruct (sim_nodes s !! node) as [st|] eqn:Hn; [|done].
    destruct (_ || _); [done|]. destruct (_ || _) eqn:He; [done|]. simpl.
    apply grows_record, grows_node; [|done]. unfold stable_bytes. rewrite Hn. simpl.
    apply orb_false_iff in He as [He _]. apply negb_false_iff, bool_decide_eq_true in He. rewrite He.
    apply prefix_nil.
  - unfold schedule_user. grow_branches.
  - by apply next_loop_grows.
Qed.

Lemma run_grows cs s n :
  forallb (fun c => negb (repairs n c)) cs = true ->
  stable_bytes s n `prefix_of` stable_bytes (run s cs).2 n.
Proof.
  revert s. induction cs as [|c cs IH]; intros s Hr; [done|]. simpl in Hr.
  apply andb_true_iff in Hr as [Hc Hr]. apply negb_true_iff in Hc.
  pose proof (call_grows s c n Hc) as Hg. simpl. destruct (call s c) as [r s1].
  specialize (IH s1 Hr). destruct (run s1 cs) as [rs s2]. simpl in *. by etrans.
Qed.
End growth.

(** ** Delivery *)

(** An event is addressed to a live node in the incarnation that scheduled it;
    a timer is of the current generation, a message on a link that is not
    partitioned, a completion of a pending operation. *)
Definition deliverable (s : Simulator) (p : EventPayload) : bool :=
  match p with
  | PTimer t =>
      endpoint_valid s (te_node t) (te_incarnation t) &&
      match sim_nodes s !! te_node t with
      | Some st => timer_generation st (te_kind t) =? te_generation t
      | None => false
      end
  | PNetwork e =>
      negb (lf_partitioned (link_fault s (ne_from e) (ne_to e))) &&
      endpoint_valid s (ne_to e) (ne_to_incarnation e) &&
      (negb (tl_drop_in_flight_on_endpoint_crash (sc_transport (sim_config s))) ||
       endpoint_valid s (ne_from e) (ne_from_incarnation e))
  | PStorage e =>
      endpoint_valid s (se_node e) (se_incarnation e) &&
      match sim_nodes s !! se_node e with
      | Some st => negb (bool_decide (sd_pending (ns_storage st) !! se_operation_id e = None))
      | None => false
      end
  | PUser u => endpoint_valid s (ue_node u) (ue_incarnation u)
  end.

(** The payload handed out: a completion carries the outcome of its operation. *)
Definition same_event (p p' : EventPayload) : Prop :=
  match p, p' with
  | PStorage e, PStorage e' =>
      se_node e' = se_node e /\ se_operation_id e' = se_operation_id e /\ se_kind e' = se_kind e /\
      se_incarnation e' = se_incarnation e
  | PStorage _, _ | _, PStorage _ => False
  | _, _ => p' = p
  end.

(** What [deliverable] reads. *)
Definition same_world (s s' : Simulator) : Prop :=
  sim_nodes s' = sim_nodes s /\ sim_config s' = sim_config s /\
  forall f t, link_fault s' f t = link_fault s f t.

#[global] Instance same_world_preorder : PreOrder same_world.
Proof.
  split; [by intros s|]. intros s1 s2 s3 (? & ? & H1) (? & ? & H2).
  split_and!; [congruence|congruence|]. intros f t. by rewrite H2, H1.
Qed.

Lemma same_world_deliverable s s' p : same_world s s' -> deliverable s' p = deliverable s p.
Proof.
  intros (Hn & Hc & Hl). assert (He : forall n i, endpoint_valid s' n i = endpoint_valid s n i)
    by (intros; unfold endpoint_valid; by rewrite Hn).
  destruct p; simpl; by rewrite ?He, ?Hn, ?Hc, ?Hl.
Qed.

Lemma record_world s k n p t i b d : same_world s (record s k n p t i b d).
Proof.
  destruct (record_core s k n p t i b d) as [Hc _ Hn Hl _ _ _]. split_and!; [done..|].
  intros f u. unfold link_fault. by rewrite Hl.
Qed.

Lemma release_world s e : same_world s (release_network_bytes s e).
Proof.
  unfold release_network_bytes. destruct (sim_links s !! _) as [l|] eqn:El; [|done].
  split_and!; [done..|]. intros f t. unfold link_fault. simpl.
  destruct (decide ((ne_from e, ne_to e) = (f, t))) as [[= <- <-]|Hne].
  - by rewrite lookup_insert_eq, El.
  - by rewrite lookup_insert_ne.
Qed.

(** Dispatching follows [deliverable]; a discarded event changes no node. *)
Lemma dispatch_spec s p :
  if deliverable s p
  then exists p', (dispatch_payload s p).1 = Some p' /\ same_event p p'
  else (dispatch_payload s p).1 = None /\ same_world s (dispatch_payload s p).2.
Proof.
  destruct p as [t|e|e|u]; simpl.
  - unfold fire_timer, endpoint_valid. destruct (sim_nodes s !! te_node t) as [st|]; simpl;
      [|split; [done|apply record_world]].
    destruct (_ && _); simpl; [by eexists|split; [done|apply record_world]].
  - pose proof (release_world s e) as Hw. pose proof Hw as (Hn & Hc & Hl).
    unfold deliver_network. rewrite Hl, Hc.
    assert (He : forall n i, endpoint_valid (release_network_bytes s e) n i = endpoint_valid s n i)
      by (intros; unfold endpoint_valid; by rewrite Hn).
    rewrite !He. destruct (lf_partitioned _); simpl; [split; [done|]; etrans; [exact Hw|apply record_world]|].
    destruct (endpoint_valid s (ne_to e) _), (endpoint_valid s (ne_from e) _),
      (tl_drop_in_flight_on_endpoint_crash _); simpl; try (by eexists);
      (split; [done|]; etrans; [exact Hw|apply record_world]).
  - unfold complete_storage, endpoint_valid. destruct (sim_nodes s !! se_node e) as [st|]; simpl;
      [|split; [done|apply record_world]].
    destruct (ns_alive st), (ns_incarnation st =? se_incarnation e); simpl;
      try (split; [done|apply record_world]).
    destruct (sd_pending _ !! _) as [op|]; simpl; [|split; [done|apply record_world]].
    destruct (complete_operation _ _ _ _). by eexists.
  - unfold deliver_user. destruct (endpoint_valid _ _ _); simpl; [by eexists|].
    split; [done|apply record_world].
Qed.

Lemma dispatch_stale s p s' : dispatch_payload s p = (None, s') -> deliverable s p = false /\ same_world s s'.
Proof.
  intros Hd. pose proof (dispatch_spec s p) as H. rewrite Hd in H. simpl in H.
  destruct (deliverable s p); [by destruct H as (? & ? & _)|]. by destruct H.
Qed.

Lemma dispatch_some s p p' s' :
  dispatch_payload s p = (Some p', s') -> deliverable s p = true /\ same_event p p'.
Proof.
  intros Hd. pose proof (dispatch_spec s p) as H. rewrite Hd in H. simpl in H.
  destruct (deliverable s p); [|by destruct H]. destruct H as (p1 & [= <-] & ?). done.
Qed.

(** ** The loop *)

Definition stale (s : Simulator) (x : ScheduledEvent) : Prop := deliverable s (ev_payload x) = false.

(** The turns of the loop: the stale events, then the delivered one. *)
Record delivery (s : Simulator) (l : list ScheduledEvent) (s1 : Simulator) (e : ScheduledEvent)
    (q : EventQueue) (p : EventPayload) (s' : Simulator) : Prop := {
  dl_effects : effects s s1;
  dl_world : same_world s s1;
  dl_heap : q_heap (sim_events s) ≡ₚ l ++ q_heap (sim_events s1);
  dl_stale : Forall (fun x => stale s x /\ ev_lt x e) l;
  dl_clock : q_now (sim_events s) <= q_now (sim_events s1);
  dl_pop : q_popped (sim_events s1) q e;
  dl_dispatch : dispatch_payload (set_events s1 q) (ev_payload e) = (Some p, s');
}.

Section loop.
Context `{HeapLaws}.

Lemma next_loop_spec fuel s :
  queue_ok (sim_events s) -> (length (q_heap (sim_events s)) <= fuel)%nat ->
  match next_loop fuel s with
  | (None, s') => Forall (stale s) (q_heap (sim_events s)) /\ q_heap (sim_events s') = []
  | (Some ev, s') => exists l s1 e q p, delivery s l s1 e q p s' /\
      ev = mkScheduledEvent (ev_time e) (ev_sequence e) p
  end.
Proof.
  revert s. induction fuel as [|fuel IH]; intros s Hq Hlen; cbn [next_loop];
    pose proof (pop_next_spec _ Hq) as Hp;
    destruct (pop_next (sim_events s)) as [[e|] q] eqn:E; try (destruct Hp as [Hp _]; rewrite Hp; by split).
  { destruct Hp as (Hp & _). rewrite Hp in Hlen. simpl in Hlen. lia. }
  destruct Hp as (P1 & P2 & P3 & P4 & P5 & P6 & _ & _).
  assert (Hpop : q_popped (sim_events s) q e) by (by split).
  destruct (dispatch_payload (set_events s q) (ev_payload e)) as [[p|] s1] eqn:Ed.
  - exists [], s, e, q, p. split; [|done]. by split.
  - assert (Hstep : effect s s1) by (eapply eff_pop; [exact Hpop|by rewrite Ed]).
    pose proof (dispatch_events (set_events s q) (ev_payload e)) as He. rewrite Ed in He. simpl in He.
    destruct (dispatch_stale _ _ _ Ed) as [Hst Hw].
    assert (Hw' : same_world s s1) by done.
    assert (Hst' : stale s e) by (unfold stale; by rewrite <- Hst).
    assert (Hstale : forall x, stale s1 x -> stale s x)
      by (intros x; unfold stale; by rewrite (same_world_deliverable _ _ _ Hw')).
    specialize (IH s1). rewrite He in IH. rewrite P1 in Hlen. simpl in Hlen.
    specialize (IH P3 ltac:(lia)). destruct (next_loop fuel s1) as [[ev|] s'].
    + destruct IH as (l & s2 & e2 & q2 & p & [D1 D2 D3 D4 D5 D6 D7] & ->).
      rewrite He in D3, D5.
      exists (e :: l), s2, e2, q2, p. split; [|done]. split; try done.
      * by eapply rtc_l.
      * by etrans.
      * rewrite P1, D3. done.
      * constructor.
        { split; [done|]. rewrite Forall_forall in P2. apply P2. rewrite D3, elem_of_app. right.
          rewrite (qp_heap _ _ _ D6). by left. }
        eapply Forall_impl; [exact D4|]. intros x [Hx ?]. auto.
      * lia.
    + destruct IH as [IH1 IH2]. split; [|done]. rewrite P1. constructor; [done|].
      eapply Forall_impl; [exact IH1|done].
Qed.

(** As many turns as there are events are enough. *)
Lemma next_loop_enough fuel s :
  queue_ok (sim_events s) -> (length (q_heap (sim_events s)) <= fuel)%nat ->
  next_loop fuel s = next s.
Proof.
  unfold next. remember (length (q_heap (sim_events s))) as n eqn:En. revert fuel s En.
  induction n as [|n IH]; intros fuel s En Hq Hf.
  - pose proof (pop_next_spec _ Hq) as Hp. destruct fuel; cbn [next_loop];
      destruct (pop_next _) as [[e|] q]; try done; destruct Hp as (Hp & _);
      rewrite Hp in En; simpl in En; lia.
  - destruct fuel as [|fuel]; [lia|]. cbn [next_loop]. pose proof (pop_next_spec _ Hq) as Hp.
    destruct (pop_next _) as [[e|] q]; [|done]. destruct Hp as (P1 & _ & P3 & _).
    pose proof (dispatch_events (set_events s q) (ev_payload e)) as He.
    destruct (dispatch_payload _ _) as [[p|] s1]; [done|]. simpl in He. rewrite P1 in En. simpl in En.
    apply IH; rewrite ?He; [lia|done|lia].
Qed.

Lemma next_spec s ev s' :
  queue_ok (sim_events s) -> next s = (Some ev, s') ->
  exists l s1 e q p, delivery s l s1 e q p s' /\ ev = mkScheduledEvent (ev_time e) (ev_sequence e) p.
Proof. intros Hq Hn. pose proof (next_loop_spec _ s Hq (le_n _)) as Hs. unfold next in Hn. by rewrite Hn in Hs. Qed.
End loop.
