(* ===== verification/SimTheorems.v ===== *)
(** * SimTheorems: properties of the simulator

    [sim_inv] is the invariant of the whole simulator: the queue, the network
    accounting and the devices.  A fresh simulator satisfies it and every call
    keeps it, whatever heap library the event queue runs on. *)

From stdpp Require Import relations.
From S2P Require Import Prelude Model StateMachine RaftTypes RaftSpec System.
From S2P Require Import Bytes Wal WalFormat WalFrames WalRecovery WalScan WalFile WalDurability WalTheorems.
From S2P Require Import SimQueue Simulator SimSpec SimNetwork SimStorage SimEquiv SimDelivery.
#[local] Open Scope N_scope.

Definition sim_inv (s : Simulator) : Prop := storage_inv s /\ net_inv s.

(** The limits of a configuration fit their 64-bit types. *)
Definition typed_config (c : SimulatorConfig) : Prop :=
  config_fits c /\ max_total_events (sc_events c) <= u64_max.

Lemma sim_inv_queue s : sim_inv s -> queue_ok (sim_events s).
Proof. intros [Hs _]. apply Hs. Qed.

Lemma sim_inv_new config : typed_config config -> sim_inv (Simulator_new config).
Proof.
  intros [[H1 H2 H3] Ht]. split.
  - split; simpl; try done.
    + by apply queue_new_ok.
    + intros e p Hin. by apply not_elem_of_nil in Hin.
  - assert (Hz : forall k, queued_on (Simulator_new config) k = 0)
      by (intros k; unfold queued_on; simpl; by rewrite lookup_empty).
    split_and!; [|intros k; rewrite Hz|]; simpl; [|lia|lia]. by split.
Qed.

Section invariant.
Context `{HeapLaws}.

Lemma effects_inv s s' : effects s s' -> sim_inv s -> sim_inv s'.
Proof.
  induction 1 as [|s s1 s' He _ IH]; [done|]. intros [Hs Hn]. apply IH.
  split; [by eapply effect_storage_inv|by eapply effect_net_inv].
Qed.

Lemma call_inv s c : sim_inv s -> sim_inv (call s c).2.
Proof.
  intros Hi. pose proof Hi as [Hs _]. apply (effects_inv s); [|done].
  apply call_effects; [apply Hs| | |apply Hs].
  - intros n st Hn. apply (do_file _ _ _ (sv_devices _ Hs _ _ Hn)).
  - intros n st Hn. apply (do_clock _ _ _ (sv_devices _ Hs _ _ Hn)).
Qed.

Lemma run_inv cs s : sim_inv s -> sim_inv (run s cs).2.
Proof.
  revert s. induction cs as [|c cs IH]; intros s Hi; [done|]. simpl.
  pose proof (call_inv s c Hi) as Hc. destruct (call s c) as [r s1].
  specialize (IH s1 Hc). by destruct (run s1 cs).
Qed.
(** The limits are those of the configuration for ever. *)
Definition limits_of (s : Simulator) : SimulatorConfig * EventQueueLimits := (sim_config s, q_limits (sim_events s)).

Lemma effect_limits s s' : effect s s' -> limits_of s' = limits_of s.
Proof using.
  assert (Hcore : forall s1, core_eq s1 s' -> limits_of s1 = limits_of s -> limits_of s' = limits_of s).
  { intros s1 [Hc He _ _ _ _ _] <-. unfold limits_of. by rewrite Hc, He. }
  intros Hs. destruct Hs as [Hc|n st' _ Hc|f t l' Hq Hc|n st kind time sq q' _ _ Ha Hc|n st tag bs time sq q' _ _ Ha Hc
    |f t sc tg bytes copies time id q' l' _ _ _ _ _ _ Hl _ _ _ _ Hc
    |n st op fw sw ff q' _ _ _ _ _ Ha _ _ _ Hc|n st crash cs q' _ _ Hq' _ Hl _ _ _ Hc|e q' Hp Hc].
  all: apply (Hcore _ Hc); try done; unfold limits_of; simpl; rewrite ?(qa_limits _ _ _ Ha), ?Hl; try done.
  - destruct (queued_shrinks cs (set_events (put_node s n (crashed_node st crash (q_now (sim_events s)))) q')) as (_ & _ & -> & ->).
    simpl. by rewrite Hl.
  - destruct (dispatch_kept (set_events s q') (ev_payload e)) as (-> & _). rewrite dispatch_events. simpl.
    by rewrite (qp_limits _ _ _ Hp).
Qed.

Lemma run_limits cs s : sim_inv s -> limits_of (run s cs).2 = limits_of s.
Proof.
  revert s. induction cs as [|c cs IH]; intros s Hi; [done|]. simpl.
  pose proof (call_inv s c Hi) as Hc. pose proof Hi as [Hs _].
  assert (He : effects s (call s c).2).
  { apply call_effects; [apply Hs| | |apply Hs].
    - intros n st Hn. apply (do_file _ _ _ (sv_devices _ Hs _ _ Hn)).
    - intros n st Hn. apply (do_clock _ _ _ (sv_devices _ Hs _ _ Hn)). }
  assert (Hl : limits_of (call s c).2 = limits_of s).
  { clear -He. induction He as [|s s1 s2 H1 _ IH]; [done|]. by rewrite IH, (effect_limits _ _ H1). }
  destruct (call s c) as [r s1]. specialize (IH s1 Hc). simpl in *. destruct (run s1 cs). simpl in *. congruence.
Qed.
End invariant.

Lemma run_eq L1 L2 {W1 : @HeapLaws L1} {W2 : @HeapLaws L2} cs s1 s2 :
  sim_inv s1 -> sim_inv s2 -> sim_eq s1 s2 ->
  (@run L1 s1 cs).1 = (@run L2 s2 cs).1 /\ sim_eq (@run L1 s1 cs).2 (@run L2 s2 cs).2.
Proof.
  revert s1 s2. induction cs as [|c cs IH]; intros s1 s2 H1 H2 Heq; [done|]. simpl.
  destruct (call_eq L1 L2 s1 s2 c (sim_inv_queue _ H1) (sim_inv_queue _ H2) Heq) as [Hr Hs].
  pose proof (@call_inv L1 W1 s1 c H1) as I1. pose proof (@call_inv L2 W2 s2 c H2) as I2.
  destruct (@call L1 s1 c) as [r1 t1], (@call L2 s2 c) as [r2 t2]. simpl in *. subst r2.
  destruct (IH t1 t2 I1 I2 Hs) as [Hrs Ht].
  destruct (@run L1 t1 cs), (@run L2 t2 cs). simpl in *. by subst.
Qed.

(** (determinism across standard libraries).  A sequence of calls on a new
    simulator gives the same replies, the same events in the same order and the
    same final nodes, devices, links and clock for any two implementations of the
    heap algorithms that meet the C++ standard: the layout of the heap cannot be
    observed. *)
Theorem sim_library_independent (L1 L2 : HeapLib) (W1 : @HeapLaws L1) (W2 : @HeapLaws L2)
    (config : SimulatorConfig) (cs : list Call) (Hc : typed_config config) :
  (@run L1 (Simulator_new config) cs).1 = (@run L2 (Simulator_new config) cs).1 /\
  sim_nodes (@run L1 (Simulator_new config) cs).2 = sim_nodes (@run L2 (Simulator_new config) cs).2 /\
  sim_links (@run L1 (Simulator_new config) cs).2 = sim_links (@run L2 (Simulator_new config) cs).2 /\
  now (@run L1 (Simulator_new config) cs).2 = now (@run L2 (Simulator_new config) cs).2.
Proof.
  pose proof (sim_inv_new config Hc) as Hi.
  destruct (run_eq L1 L2 cs _ _ Hi Hi ltac:(reflexivity)) as [Hr Hs].
  split_and!; [done|apply Hs|apply Hs|by apply se_now].
Qed.

(** (delivery order).  [next] discards exactly the pending events that are
    stale and come before the first deliverable one, in the order of time and
    sequence number, delivers that one and advances the clock to its time; it
    returns nothing only when no pending event is deliverable. *)
Theorem sim_next_in_order `{HeapLaws} (s s' : Simulator) (o : option ScheduledEvent)
    (Hi : sim_inv s) (Hn : next s = (o, s')) :
  match o with
  | None => Forall (stale s) (q_heap (sim_events s)) /\ q_heap (sim_events s') = []
  | Some ev => exists l e,
      q_heap (sim_events s) ≡ₚ l ++ e :: q_heap (sim_events s') /\
      Forall (fun x => stale s x /\ ev_lt x e) l /\ Forall (ev_lt e) (q_heap (sim_events s')) /\
      deliverable s (ev_payload e) = true /\ same_event (ev_payload e) (ev_payload ev) /\
      ev_time ev = ev_time e /\ ev_sequence ev = ev_sequence e /\
      now s' = ev_time e /\ now s <= now s'
  end.
Proof.
  pose proof (next_loop_spec _ s (sim_inv_queue _ Hi) (le_n _)) as Hs. unfold next in Hn.
  rewrite Hn in Hs. destruct o as [ev|]; [|done].
  destruct Hs as (l & s1 & e & q & p & [_ D2 D3 D4 D5 D6 D7] & ->).
  pose proof (dispatch_events (set_events s1 q) (ev_payload e)) as He. rewrite D7 in He. simpl in He.
  destruct (dispatch_some _ _ _ _ D7) as [Hd Hp]. exists l, e. unfold now. rewrite He. simpl.
  rewrite D3, (qp_heap _ _ _ D6), (qp_now _ _ _ D6). pose proof (qp_mono _ _ _ D6).
  split_and!; try done; [apply D6| |lia]. rewrite <- Hd. symmetry.
  by apply (same_world_deliverable s (set_events s1 q)).
Qed.

(** The trace grows only by [record], which stops at the limit. *)
Definition traced (s : Simulator) : Prop :=
  N.of_nat (length (sim_trace_records s)) <= sc_max_trace_records (sim_config s).

Lemma traced_record s k n p t i b d : traced s -> traced (record s k n p t i b d).
Proof.
  unfold traced, record. intros Hs.
  destruct (N.leb_spec (sc_max_trace_records (sim_config s)) (N.of_nat (length (sim_trace_records s)))); [done|].
  simpl. rewrite length_app. simpl. lia.
Qed.

(** Goes through the branches of a call. *)
Ltac traced_step :=
  repeat case_match; simplify_eq/=; repeat (apply traced_record; simpl); try done.

Lemma traced_release s e : traced s -> traced (release_network_bytes s e).
Proof. intros Hs. unfold release_network_bytes. by destruct (_ !! _). Qed.

Lemma traced_cancelled s node inc l : traced s -> traced (record_cancelled s node inc l).
Proof.
  revert s. induction l as [|e l IH]; intros s Hs; [done|]. simpl. apply IH.
  destruct (ev_payload e); apply traced_record; [done|by apply traced_release|done..].
Qed.

Lemma traced_dispatch s p : traced s -> traced (dispatch_payload s p).2.
Proof.
  intros Hs. pose proof (traced_release s) as Hr. destruct p as [t|m|e|u]; simpl.
  - unfold fire_timer. traced_step.
  - unfold deliver_network. repeat case_match; simpl; by apply traced_record, Hr.
  - unfold complete_storage. traced_step.
  - unfold deliver_user. traced_step.
Qed.

Lemma traced_call `{HeapLib} s c : traced s -> traced (call s c).2.
Proof.
  intros Hs. destruct c; simpl.
  - unfold register_node. traced_step.
  - unfold crash_node. destruct (sim_nodes s !! node) as [st|]; [|done]. destruct (negb _); [done|].
    destruct (extract_if _ _) as [cancelled q]. simpl. by apply traced_record, traced_record, traced_cancelled.
  - unfold restart_node. traced_step.
  - unfold arm_timer. traced_step.
  - unfold cancel_timer. traced_step.
  - unfold set_partition, set_fault. traced_step.
  - unfold set_link_delay, set_fault. traced_step.
  - unfold drop_next, set_fault. traced_step.
  - unfold duplicate_next, set_fault. traced_step.
  - unfold send, enqueue_copies. traced_step.
  - unfold submit_write. traced_step.
  - unfold submit_flush. traced_step.
  - unfold fail_next_write, fault_request. traced_step.
  - unfold short_write_next, fault_request. traced_step.
  - unfold fail_next_flush, fault_request. traced_step.
  - unfold initialize_storage. traced_step.
  - unfold truncate_stable_storage. traced_step.
  - unfold schedule_user. traced_step.
  - unfold next. generalize (length (q_heap (sim_events s))) as fuel. intros fuel. revert s Hs.
    induction fuel as [|fuel IH]; intros s Hs; simpl; destruct (pop_next _) as [[e|] q]; try done.
    pose proof (traced_dispatch (set_events s q) (ev_payload e) Hs) as Hd. destruct (dispatch_payload _ _) as [[p|] s1]; [done|].
    by apply IH.
Qed.

Lemma traced_run `{HeapLib} cs s : traced s -> traced (run s cs).2.
Proof.
  revert s. induction cs as [|c cs IH]; intros s Hs; [done|]. simpl. pose proof (traced_call s c Hs) as Hc.
  destruct (call s c) as [r s1]. specialize (IH s1 Hc). by destruct (run s1 cs).
Qed.

(** C40 (bounded resources).  After any calls, the queued-byte counters of every link
    and of the network are exactly the bytes of the messages in flight; they, the
    pending events and the events ever scheduled, the records of the trace, and for
    every node the number of pending storage operations, their bytes and all the bytes
    of the device are within the limits of the configuration. *)
Theorem sim_resources_bounded `{HeapLaws} (config : SimulatorConfig) (cs : list Call)
    (Hc : typed_config config) :
  let s := (run (Simulator_new config) cs).2 in
  (forall f t, ls_queued_bytes (link s f t) = sumN (on_link (f, t)) (q_heap (sim_events s)) /\
     ls_queued_bytes (link s f t) <= tl_max_queued_bytes_per_link (sc_transport config)) /\
  queued_network_bytes s = sumN in_flight (q_heap (sim_events s)) /\
  queued_network_bytes s <= tl_max_total_queued_bytes (sc_transport config) /\
  pending_events s <= max_pending_events (sc_events config) /\
  q_total_scheduled (sim_events s) <= max_total_events (sc_events config) /\
  N.of_nat (length (sim_trace_records s)) <= sc_max_trace_records config /\
  (forall n st, sim_nodes s !! n = Some st ->
     N.of_nat (size (sd_pending (ns_storage st))) <= sl_max_pending_operations (sc_storage config)) /\
  (forall n, blen (visible_bytes s n) + pending_storage_bytes s n <= sl_max_file_bytes (sc_storage config) /\
     pending_storage_bytes s n <= sl_max_pending_bytes (sc_storage config)).
Proof.
  intros s. pose proof (sim_inv_new config Hc) as Hnew. destruct (run_inv cs _ Hnew) as [Hs [[Hk Ht] [Hkb Htb]]].
  pose proof (run_limits cs _ Hnew) as Hl. fold s in Hs, Hk, Ht, Hkb, Htb, Hl.
  assert (Htr : traced s) by (apply traced_run; unfold traced; simpl; apply N.le_0_l).
  unfold limits_of in Hl. injection Hl as Ec Eq. pose proof (qo_pending _ (sv_queue _ Hs)) as Hp.
  pose proof (qo_total _ (sv_queue _ Hs)) as Htot. unfold traced in Htr. rewrite ?Ec, ?Eq in *. simpl in *.
  split_and!; [|exact Ht|exact Htb|exact Hp|exact Htot|exact Htr|..].
  - intros f t. split; [apply (Hk (f, t))|apply (Hkb (f, t))].
  - intros n st Hn. pose proof (do_count _ _ _ (sv_devices _ Hs _ _ Hn)) as Hd. by rewrite Ec in Hd.
  - intros n. unfold visible_bytes, pending_storage_bytes.
    destruct (sim_nodes s !! n) as [st|] eqn:Hn; [|change (blen []) with 0; lia].
    pose proof (sv_devices _ Hs _ _ Hn) as Hd. pose proof (do_file _ _ _ Hd) as Hf. pose proof (do_limit _ _ _ Hd) as Hm.
    rewrite Ec in Hf, Hm. unfold device_size in Hf. rewrite blen_app. split; [exact Hf|exact Hm].
Qed.

(** The state a delivered completion leaves: it completes the oldest pending
    operation of its node, and changes nothing else of the nodes. *)
Lemma storage_delivery `{HeapLaws} (s s' : Simulator) ev p :
  sim_inv s -> next s = (Some ev, s') -> ev_payload ev = PStorage p ->
  exists st op d', sim_nodes s !! se_node p = Some st /\
    sorted_items (sd_pending (ns_storage st)) =
      (se_operation_id p, op) :: sorted_items (delete (se_operation_id p) (sd_pending (ns_storage st))) /\
    complete_operation (ns_storage st) (se_operation_id p) op (now s') = (se_byte_count p, d') /\
    se_kind p = po_kind op /\ se_status p = po_completion_status op /\
    sim_nodes s' = <[se_node p := set_device st d']> (sim_nodes s).
Proof.
  intros Hi Hn Hp.
  destruct (next_spec s ev s' (sim_inv_queue _ Hi) Hn) as (l & s1 & e & q & p' & [D1 D2 _ _ _ D6 D7] & ->).
  simpl in Hp. subst p'. destruct (dispatch_some _ _ _ _ D7) as [_ Hsame].
  destruct (ev_payload e) as [|?|p0|?] eqn:Ee; try done.
  destruct Hsame as (Hnode & Hid & Hk & Hinc).
  destruct (effects_inv s s1 D1 Hi) as [Hs1 _].
  destruct (completion_first s1 e q p0 Hs1 D6 Ee) as (st & op & Hst & Ha & Hi' & He & Hfirst).
  assert (Hop : sd_pending (ns_storage st) !! se_operation_id p0 = Some op) by (by apply (sorted_items_first _ _ _ _ Hfirst)).
  pose proof (dispatch_storage (set_events s1 q) p0 st op Hst Ha Hi' Hop) as Hd.
  destruct (complete_operation _ _ _ _) as [count d'] eqn:Hc. rewrite D7 in Hd. simpl in Hd.
  destruct Hd as [[= ->] Hd]. destruct D2 as (Hnodes & _).
  exists st, op, d'. simpl. split_and!; try done.
  - by rewrite <- Hnodes.
  - pose proof (dispatch_events (set_events s1 q) (PStorage p0)) as Hev. rewrite D7 in Hev.
    unfold now. simpl in Hev. by rewrite Hev.
  - rewrite He in Ee. simpl in Ee. by injection Ee as <-.
  - rewrite (ce_nodes _ _ Hd). simpl. by rewrite Hnodes.
Qed.

(** C39 (ordered, durable storage).  A delivered completion is that of the oldest
    pending operation of its node.  A write appends exactly the bytes it reports
    to what the node can read and leaves the stable bytes alone; a flush that
    reports success makes everything readable stable, and no later call other
    than an explicit repair of that node (crashes with any survival pattern
    included) removes or alters those bytes; a failed flush changes nothing. *)
Theorem sim_storage_durable `{HeapLaws} (s s' : Simulator) (ev : ScheduledEvent) (p : StorageEvent)
    (cs : list Call) (Hi : sim_inv s) (Hn : next s = (Some ev, s')) (Hp : ev_payload ev = PStorage p)
    (Hcs : forallb (fun c => negb (repairs (se_node p) c)) cs = true) :
  exists st op, sim_nodes s !! se_node p = Some st /\
    sd_pending (ns_storage st) !! se_operation_id p = Some op /\
    (forall id op', sd_pending (ns_storage st) !! id = Some op' -> se_operation_id p <= id) /\
    match se_kind p with
    | op_write =>
        visible_bytes s' (se_node p) =
          visible_bytes s (se_node p) ++ take (N.to_nat (se_byte_count p)) (po_bytes op) /\
        stable_bytes s' (se_node p) = stable_bytes s (se_node p)
    | op_flush =>
        if bool_decide (se_status p = completed_ok)
        then unstable_bytes s' (se_node p) = [] /\
             stable_bytes s' (se_node p) = visible_bytes s (se_node p) /\
             visible_bytes s (se_node p) `prefix_of` stable_bytes (run s' cs).2 (se_node p)
        else stable_bytes s' (se_node p) = stable_bytes s (se_node p) /\
             unstable_bytes s' (se_node p) = unstable_bytes s (se_node p)
    end.
Proof.
  destruct (storage_delivery s s' ev p Hi Hn Hp) as (st & op & d' & Hst & Hf & Hc & Hk & Hs & Hnodes).
  destruct (sorted_items_first _ _ _ _ Hf) as (Hop & Hmin & _).
  exists st, op. split_and!; [done..|]. pose proof (run_grows cs s' (se_node p) Hcs) as Hgrow.
  revert Hc Hgrow. unfold complete_operation, visible_bytes, stable_bytes, unstable_bytes.
  rewrite Hnodes, Hst, lookup_insert_eq, Hk, Hs. destruct (po_kind op); [|case_bool_decide];
    intros [= Hb <-]; simpl; rewrite <- ?Hb; [by rewrite app_assoc|done|done].
Qed.

(** A crash leaves a stopped node with an idle device, whose file the repair can
    cut anywhere. *)
Lemma crash_node_state `{HeapLib} s n st crash s' :
  sim_nodes s !! n = Some st -> crash_node s n crash = (true, s') ->
  sim_nodes s' !! n = Some (crashed_node st crash (q_now (sim_events s))).
Proof.
  intros Hst. unfold crash_node. rewrite Hst. destruct (negb _); [done|].
  destruct (extract_if _ _) as [l q]. intros [= <-].
  rewrite !(ce_nodes _ _ (record_core _ _ _ _ _ _ _ _)).
  rewrite (ce_nodes _ _ (fold_cancelled _ _ _ _)), (proj1 (fold_release_kept _ _)). simpl.
  by rewrite lookup_insert_eq.
Qed.

Lemma repair_crashed s n st crash now valid :
  sim_nodes s !! n = Some (crashed_node st crash now) -> valid <= blen (stable_bytes s n) ->
  exists s2, truncate_stable_storage s n valid = (true, s2) /\
    stable_bytes s2 n = take (N.to_nat valid) (stable_bytes s n).
Proof.
  intros Hn. unfold truncate_stable_storage, stable_bytes. rewrite Hn. simpl. intros Hv.
  rewrite (proj2 (N.ltb_ge _ _) Hv). simpl. eexists. split; [done|].
  rewrite (ce_nodes _ _ (record_core _ _ _ _ _ _ _ _)). simpl. by rewrite lookup_insert_eq.
Qed.

(** (crash and recovery of the log on the device).  Let the stable bytes of a
    live node be the log file of the batches [d], and let the bytes written after
    them, with those of the write in progress, be the first part of the frames of
    the batches [u].  Whatever a crash of the node leaves on the medium, scanning
    it recovers all of [d] and the first [k] batches of [u], and cutting the file
    where the scan says leaves a file that scans to the same state with no
    incomplete tail. *)
Theorem sim_wal_crash `{HeapLib} (o : WalOptions) (id : WalIdentity) (s s' : Simulator)
    (n : NodeId) (st : NodeState) (crash : StorageCrashSpec) (d u : list PersistBatch)
    (fd fu : list N) (sd su : WalState) (Hid : identity_fits id) (Ho : validate_options o = inr tt)
    (Hfit : Forall batch_fits (d ++ u)) (Hst : sim_nodes s !! n = Some st)
    (Hd : wal_write o created_state d = inr (fd, sd)) (Hu : wal_write o sd u = inr (fu, su))
    (Hfile : sd_stable (ns_storage st) = file_header_bytes id ++ fd)
    (Htail : sd_unstable (ns_storage st) ++ active_bytes (ns_storage st) `prefix_of` fu)
    (Hcrash : crash_node s n crash = (true, s')) :
  exists k r s2 r2,
    scan_wal_bytes (stable_bytes s' n) id o = inr r /\
    wal_recovered (sc_state r) = replayed (d ++ take k u) /\
    truncate_stable_storage s' n (sc_valid_bytes r) = (true, s2) /\
    scan_wal_bytes (stable_bytes s2 n) id o = inr r2 /\
    wal_recovered (sc_state r2) = replayed (d ++ take k u) /\ sc_has_incomplete_tail r2 = false.
Proof.
  pose proof (validate_options_ok _ _ Ho) as Hok.
  pose proof (crash_node_state s n st crash s' Hst Hcrash) as Hs'.
  destruct (crash_prefix (ns_storage st) crash (q_now (sim_events s))) as [c Hc].
  set (img := take c _) in Hc.
  destruct (cut_appended sd u fu su [] img (wal_write_appended _ _ _ _ Hu) ltac:(by left))
    as (k & fs & sk & t & Ha & Ht & Himg).
  { rewrite app_nil_r. etrans; [apply prefix_take|exact Htail]. }
  pose proof (appended_app _ _ _ _ _ _ _ (wal_write_appended _ _ _ _ Hd) Ha) as Hall.
  assert (Hbytes : stable_bytes s' n = file_header_bytes id ++ (fd ++ fs) ++ t).
  { unfold stable_bytes. rewrite Hs'. cbn [ns_storage crashed_node].
    rewrite Hc, Hfile, Himg. by rewrite !app_assoc. }
  assert (Hfit' : Forall batch_fits (d ++ take k u)).
  { apply Forall_app in Hfit as [? ?]. apply Forall_app. split; [done|by apply Forall_take]. }
  pose proof (scan_file Hok id _ _ _ t tt Ho Hid Hfit' Hall Ht) as Hscan.
  pose proof (scan_file Hok id _ _ _ [] tt Ho Hid Hfit' Hall ltac:(by left)) as Hscan2.
  rewrite app_nil_r in Hscan2.
  destruct (appended_ok _ _ _ _ Hall created_ok) as [_ Hap].
  pose proof (appended_file _ _ _ _ Hall) as Hlen.
  assert (Hvalid : ws_file_bytes sk = blen (file_header_bytes id ++ fd ++ fs)).
  { rewrite Hlen, (blen_app (file_header_bytes id)), file_header_length. reflexivity. }
  destruct (repair_crashed s' n st crash (q_now (sim_events s)) (ws_file_bytes sk) Hs')
    as (s2 & Htr & Hst2).
  { rewrite Hbytes, Hvalid, !blen_app. lia. }
  rewrite <- Hbytes in Hscan. exists k. eexists. exists s2. eexists.
  split_and!; [exact Hscan|exact Hap|exact Htr| | |].
  - rewrite Hst2, Hvalid, Hbytes, (app_assoc _ _ t). unfold blen. rewrite Nat2N.id, take_app_length.
    exact Hscan2.
  - exact Hap.
  - reflexivity.
Qed.

(** ** Witnesses *)

Lemma default_config_typed : typed_config default_simulator_config.
Proof. split; [split|]; by vm_compute. Qed.

Definition demo_calls : list Call :=
  [call_register 1; call_register 2; call_send 1 2 [7; 8] 3; call_arm 2 election 1;
   call_write 1 [1; 2; 3] 4; call_flush 1 0; call_next; call_next; call_next].

Definition demo_sim : Simulator :=
  (@run sorted_heap_lib (Simulator_new default_simulator_config) demo_calls).2.

Lemma demo_sim_inv : sim_inv demo_sim.
Proof.
  apply (@run_inv sorted_heap_lib sorted_heap_laws demo_calls), sim_inv_new, default_config_typed.
Qed.

Lemma sim_library_independent_witness :
  (@run sorted_heap_lib (Simulator_new default_simulator_config) demo_calls).1 =
  (@run swapped_heap_lib (Simulator_new default_simulator_config) demo_calls).1.
Proof.
  apply (sim_library_independent sorted_heap_lib swapped_heap_lib sorted_heap_laws swapped_heap_laws
    default_simulator_config demo_calls default_config_typed).
Defined.

Lemma sim_next_in_order_witness :
  exists l e, q_heap (sim_events demo_sim) ≡ₚ l ++ e :: q_heap (sim_events (@next sorted_heap_lib demo_sim).2) /\
    deliverable demo_sim (ev_payload e) = true.
Proof.
  destruct (@sim_next_in_order sorted_heap_lib sorted_heap_laws demo_sim
    (@next sorted_heap_lib demo_sim).2 (Some (mkScheduledEvent 4 4 (PStorage (mkStorageEvent 1 2 op_flush 1 3 completed_ok)))))
    as (l & e & H1 & _ & _ & H2 & _).
  - exact demo_sim_inv.
  - vm_compute. reflexivity.
  - exists l, e. split; [exact H1|exact H2].
Defined.

(** A device that takes one operation at a time. *)
Definition narrow_config : SimulatorConfig :=
  let c := default_simulator_config in let l := sc_storage c in
  mkSimulatorConfig (sc_events c) (sc_transport c)
    (mkStorageLimits (sl_max_file_bytes l) (sl_max_write_bytes l) (sl_max_pending_bytes l) 1) (sc_max_trace_records c).

Definition narrow_calls : list Call := [call_register 1; call_write 1 [1; 2] 4; call_write 1 [3] 4; call_flush 1 0].

Lemma sim_resources_bounded_witness :
  let r := @run sorted_heap_lib (Simulator_new narrow_config) narrow_calls in
  drop 2 r.1 = [reply_storage (refused_storage submit_pending_limit); reply_storage (refused_storage submit_pending_limit)] /\
  exists st, sim_nodes r.2 !! 1 = Some st /\ size (sd_pending (ns_storage st)) = 1%nat /\
    N.of_nat (size (sd_pending (ns_storage st))) <= sl_max_pending_operations (sc_storage narrow_config).
Proof.
  intros r. split; [vm_compute; reflexivity|].
  assert (Hsome : match sim_nodes r.2 !! 1 with Some st => Nat.eqb (size (sd_pending (ns_storage st))) 1 | None => false end = true)
    by (vm_compute; reflexivity).
  destruct (@sim_resources_bounded sorted_heap_lib sorted_heap_laws narrow_config narrow_calls) as (_ & _ & _ & _ & _ & _ & Hc & _);
    [split; [split|]; by vm_compute|]. fold r in Hc.
  destruct (sim_nodes r.2 !! 1) as [st|] eqn:E; [|discriminate Hsome]. exists st. split; [reflexivity|].
  split; [by apply Nat.eqb_eq|]. exact (Hc 1 st E).
Defined.

Lemma sim_storage_durable_witness :
  visible_bytes demo_sim 1 `prefix_of`
    stable_bytes (@run sorted_heap_lib (@next sorted_heap_lib demo_sim).2
                    [call_write 1 [9] 5; call_crash 1 (mkStorageCrashSpec 0 0)]).2 1.
Proof.
  destruct (@sim_storage_durable sorted_heap_lib sorted_heap_laws demo_sim
    (@next sorted_heap_lib demo_sim).2
    (mkScheduledEvent 4 4 (PStorage (mkStorageEvent 1 2 op_flush 1 3 completed_ok)))
    (mkStorageEvent 1 2 op_flush 1 3 completed_ok)
    [call_write 1 [9] 5; call_crash 1 (mkStorageCrashSpec 0 0)]) as (st & op & _ & _ & _ & _ & _ & Hp).
  - exact demo_sim_inv.
  - vm_compute. reflexivity.
  - reflexivity.
  - reflexivity.
  - exact Hp.
Defined.

(** A node whose file holds one batch, with the frame of a second one in flight. *)
Definition demo_disk : Simulator :=
  (@run sorted_heap_lib (Simulator_new default_simulator_config)
     [call_register 1; call_initialize 1 (file_header_bytes demo_id ++ demo_written.1);
      call_write 1 (ef_bytes demo_next) 5]).2.

Definition demo_disk_node : NodeState := default new_node (sim_nodes demo_disk !! 1).

Definition demo_tail : list N * WalState :=
  match wal_write default_options demo_written.2 [demo_batch2] with
  | inr r => r
  | inl _ => ([], created_state)
  end.

Lemma sim_wal_crash_witness :
  exists k r s2 r2,
    scan_wal_bytes (stable_bytes (@crash_node sorted_heap_lib demo_disk 1 (mkStorageCrashSpec 0 100)).2 1)
      demo_id default_options = inr r /\
    wal_recovered (sc_state r) = replayed ([demo_batch1] ++ take k [demo_batch2]) /\
    truncate_stable_storage (@crash_node sorted_heap_lib demo_disk 1 (mkStorageCrashSpec 0 100)).2 1
      (sc_valid_bytes r) = (true, s2) /\
    scan_wal_bytes (stable_bytes s2 1) demo_id default_options = inr r2 /\
    wal_recovered (sc_state r2) = replayed ([demo_batch1] ++ take k [demo_batch2]) /\
    sc_has_incomplete_tail r2 = false.
Proof.
  apply (@sim_wal_crash sorted_heap_lib default_options demo_id demo_disk _ 1 demo_disk_node
    (mkStorageCrashSpec 0 100) [demo_batch1] [demo_batch2] demo_written.1 demo_tail.1 demo_written.2
    demo_tail.2).
  - split_and!; by vm_compute.
  - vm_compute. reflexivity.
  - exact demo_fits.
  - vm_compute. reflexivity.
  - vm_compute. reflexivity.
  - vm_compute. reflexivity.
  - vm_compute. reflexivity.
  - apply (bool_decide_unpack _). vm_compute. reflexivity.
  - vm_compute. reflexivity.
Defined.
