(* ===== verification/HarnessTypes.v ===== *)
(** * HarnessTypes: the data of the deterministic cluster

    The types of [include/detlog/cluster.hpp] and of [Impl] in [src/cluster.cpp],
    the names and the JSON form of its trace, and its checks on one node and on
    snapshots.

    The state is [Impl]; its data members are kept in three records, those that
    carry the protocol, those of the invariant observer and those of the trace
    and the client replies.  A function that can throw returns the message of the
    exception on the left of a sum. *)

From Stdlib Require Import DecimalString DecimalN.
From S2P Require Import Prelude Model StateMachine RaftTypes Raft RaftSpec Bytes Codec Wal WalRecovery.
From S2P Require Import Pcg SimQueue Simulator SimTrace.
#[local] Open Scope string_scope.
#[local] Open Scope list_scope.
#[local] Open Scope N_scope.

(** [std::to_string]. *)
Definition dec (n : N) : string := NilEmpty.string_of_uint (N.to_uint n).

(** ** Exceptions *)

Definition Throw (A : Type) : Type := string + A.
Definition tbind {A B} (x : Throw A) (k : A -> Throw B) : Throw B :=
  match x with inl e => inl e | inr a => k a end.
Notation "x <== e ; k" := (tbind e (fun x => k)) (at level 100, e at next level, right associativity).

Definition exn_what (e : Exn) : string :=
  match e with invalid_argument what | logic_error what => what end.

(** ** Configuration and snapshots *)

Record ClusterConfig := mkClusterConfig {
  cc_members : list NodeId;
  cc_seed : N;
  cc_raft : RaftConfig;
  cc_codec : Limits;
  cc_simulator : SimulatorConfig;
  cc_wal : WalOptions;
  cc_cluster_id_high : N;
  cc_cluster_id_low : N;
  cc_election_jitter : Tick;
  cc_network_delay : Tick;
  cc_storage_write_latency : Tick;
  cc_storage_flush_latency : Tick;
  cc_max_semantic_trace_records : N;
  cc_max_retained_client_replies : N;
  cc_automatic_invariant_checks : bool;
}.

(** The default member initialisers. *)
Definition default_cluster_config : ClusterConfig :=
  mkClusterConfig [1; 2; 3] 1 (default_config 0 []) default_limits default_simulator_config
    default_options 0x4445544c4f470001 0x53494d554c41544f 10 1 1 1 1000000 10000 true.

Definition cluster_config (node_count seed : N) : Throw ClusterConfig :=
  if negb (node_count =? 3) && negb (node_count =? 5)
  then inl "cluster size must be three or five"
  else
    let c := default_cluster_config in
    inr (mkClusterConfig (N.of_nat <$> seq 1 (N.to_nat node_count)) seed (cc_raft c) (cc_codec c)
           (cc_simulator c) (cc_wal c) (cc_cluster_id_high c) (cc_cluster_id_low c)
           (cc_election_jitter c) (cc_network_delay c) (cc_storage_write_latency c)
           (cc_storage_flush_latency c) (cc_max_semantic_trace_records c)
           (cc_max_retained_client_replies c) (cc_automatic_invariant_checks c)).

Record NodeSnapshot := mkNodeSnapshot {
  sn_id : NodeId;
  sn_alive : bool;
  sn_role : RaftRole;
  sn_term : Term;
  sn_leader_ready : bool;
  sn_last_log_index : LogIndex;
  sn_durable_last_log_index : LogIndex;
  sn_commit_index : LogIndex;
  sn_last_applied : LogIndex;
  sn_deferred_events : N;
  sn_log : list LogEntry;
}.

Record ClusterQueueDepth := mkClusterQueueDepth {
  qd_scheduled_events : N; qd_network_bytes : N; qd_storage_bytes : N;
}.

(** [InvariantResult]: [None] when [ok], the detail otherwise. *)
Definition InvariantResult : Type := option string.

Inductive ClusterTraceSource := source_adapter | source_raft | source_simulator.

Record ClusterTraceRecord := mkClusterTraceRecord {
  ct_time : Tick;
  ct_sequence : N;
  ct_source : ClusterTraceSource;
  ct_kind : string;
  ct_node : NodeId;
  ct_peer : NodeId;
  ct_term : Term;
  ct_index : LogIndex;
  ct_token : N;
  ct_bytes : N;
  ct_detail : string;
}.

(** ** Names and seeds *)

Definition mix_seed (value : N) : N :=
  let v := add64 value 0x9e3779b97f4a7c15 in
  let v := mul64 (N.lxor v (N.shiftr v 30)) 0xbf58476d1ce4e5b9 in
  let v := mul64 (N.lxor v (N.shiftr v 27)) 0x94d049bb133111eb in
  N.lxor v (N.shiftr v 31).

Definition tick_add_overflows (lhs rhs : Tick) : bool := u64_max - lhs <? rhs.

Definition raft_trace_name (kind : TraceKind) : string :=
  match kind with
  | role_change => "role_change"
  | term_change => "term_change"
  | vote => "vote"
  | Model.send => "send"
  | receive => "receive"
  | storage_begin => "storage_begin"
  | storage_complete => "storage_complete"
  | log_change => "log_change"
  | Model.commit => "commit"
  | apply_entry => "apply"
  | client_reply => "client_reply"
  | queue_saturated => "queue_saturated"
  | fault => "fault"
  end.

Definition send_status_name (status : SendStatus) : string :=
  match status with
  | send_queued => "queued"
  | send_dropped => "dropped"
  | send_partitioned => "partitioned"
  | send_unknown_node => "unknown_node"
  | send_endpoint_down => "endpoint_down"
  | send_frame_limit => "frame_limit"
  | send_queue_limit => "queue_limit"
  | send_duplicate_limit => "duplicate_limit"
  | send_time_overflow => "time_overflow"
  | send_event_limit => "event_limit"
  end.

Definition storage_status_name (status : StorageSubmitStatus) : string :=
  match status with
  | submit_queued => "queued"
  | submit_unknown_node => "unknown_node"
  | submit_node_down => "node_down"
  | submit_write_limit => "write_limit"
  | submit_pending_limit => "pending_limit"
  | submit_file_limit => "file_limit"
  | submit_time_overflow => "time_overflow"
  | submit_event_limit => "event_limit"
  | submit_id_exhausted => "id_exhausted"
  end.

Definition source_name (source : ClusterTraceSource) : string :=
  match source with
  | source_adapter => "adapter"
  | source_raft => "raft"
  | source_simulator => "simulator"
  end.

(** The loop body of [render_cluster_jsonl], and the function. *)
Definition render_cluster_record (output : string) (r : ClusterTraceRecord) : string :=
  let o := output +:+ "{" +:+ json_key "time" in
  let o := append_unsigned o (ct_time r) +:+ "," +:+ json_key "sequence" in
  let o := append_unsigned o (ct_sequence r) +:+ "," +:+ json_key "source" in
  let o := append_json_string o (source_name (ct_source r)) +:+ "," +:+ json_key "kind" in
  let o := append_json_string o (ct_kind r) +:+ "," +:+ json_key "node" in
  let o := append_unsigned o (ct_node r) +:+ "," +:+ json_key "peer" in
  let o := append_unsigned o (ct_peer r) +:+ "," +:+ json_key "term" in
  let o := append_unsigned o (ct_term r) +:+ "," +:+ json_key "index" in
  let o := append_unsigned o (ct_index r) +:+ "," +:+ json_key "token" in
  let o := append_unsigned o (ct_token r) +:+ "," +:+ json_key "bytes" in
  let o := append_unsigned o (ct_bytes r) +:+ "," +:+ json_key "detail" in
  append_json_string o (ct_detail r) +:+ "}" +:+ String "010" EmptyString.

Definition render_cluster_jsonl (records : list ClusterTraceRecord) : string :=
  foldl render_cluster_record EmptyString records.

(** ** Checks on one node and on snapshots *)

(** The [digest] of [compare_applied_prefix], with its own constants and its own
    [byte], [u64] and [string]. *)
Definition observed_byte (hash v : N) : N := mul64 (N.lxor hash v) 1099511628211.

Definition observed_u64 (hash v : N) : N :=
  foldl (fun h i => observed_byte h (N.shiftr v (8 * N.of_nat i) mod 256)) hash (seq 0 8).

Fixpoint observed_characters (hash : N) (s : string) : N :=
  match s with
  | EmptyString => hash
  | String character s => observed_characters (observed_byte hash (N_of_ascii character)) s
  end.

Definition observed_string (hash : N) (s : string) : N :=
  observed_characters (observed_u64 hash (N.of_nat (String.length s))) s.

Definition observed_digest (c : ClientCommand) : N :=
  let hash := observed_byte 14695981039346656037 (command_kind_u8 (kind c)) in
  observed_string (observed_string hash (key c)) (value c).

(** Whether the loop goes on before the [switch]. *)
Definition observed_skip (sessions : gmap SessionId SessionRecord) (c : ClientCommand) : bool :=
  match sessions !! session c with
  | Some existing =>
      if sequence c <? sr_sequence existing then true
      else if sequence c =? sr_sequence existing then
        (if negb (observed_digest c =? sr_command_digest existing) then true else true)
      else (sr_sequence existing =? u64_max) || negb (sequence c =? add64 (sr_sequence existing) 1)
  | None => negb (sequence c =? 1)
  end.

(** The [switch]: the values and the result it leaves. *)
Definition observed_switch (values : gmap string string) (c : ClientCommand) : gmap string string * string :=
  match kind c with
  | put => (<[key c := value c]> values, value c)
  | erase => match values !! key c with
             | Some found => (delete (key c) values, found)
             | None => (values, EmptyString)
             end
  | get => (values, match values !! key c with Some found => found | None => EmptyString end)
  end.

(** The loop body: the observer's own execution of one entry over the values and
    sessions of the applied prefix. *)
Definition replay_entry (vs : gmap string string * gmap SessionId SessionRecord) (e : LogEntry)
  : gmap string string * gmap SessionId SessionRecord :=
  match command e with
  | None => vs
  | Some c =>
      let '(values, sessions) := vs in
      if observed_skip sessions c then vs
      else
        let '(values', result) := observed_switch values c in
        (values', <[session c := mkSessionRecord (sequence c) (observed_digest c) status_ok result]> sessions)
  end.

Definition compare_applied_prefix (n : RaftNode) : option string :=
  if commit_index_ n <? last_applied_ n then Some "lastApplied exceeds commitIndex"
  else if N.of_nat (length (log_ n)) <? last_applied_ n
  then Some "lastApplied exceeds the local log"
  else
    let '(values, sessions) :=
      foldl replay_entry (∅, ∅) (take (N.to_nat (last_applied_ n)) (log_ n)) in
    if negb (N.of_nat (size values) =? key_count (state_machine_ n)) ||
       negb (N.of_nat (size sessions) =? session_count (state_machine_ n))
    then Some "state-machine cardinality differs from applied log prefix"
    else if negb (forallb (fun p => bool_decide (Some p.2 = kv_session (state_machine_ n) p.1))
                    (map_to_list sessions))
    then Some "state-machine session differs from applied log prefix"
    else if negb (forallb (fun p => bool_decide (Some p.2 = value_for_test (state_machine_ n) p.1))
                    (map_to_list values))
    then Some "state-machine value differs from applied log prefix"
    else None.

(** [log[offset].index == offset + 1] from an offset on. *)
Fixpoint consecutive (offset : N) (log : list LogEntry) : bool :=
  match log with
  | [] => true
  | e :: log => (index e =? offset + 1) && consecutive (offset + 1) log
  end.

(** The comparison loop of [check_log_matching]: the index it fails at. *)
Fixpoint first_mismatch (prefix_equal : bool) (offset : N) (ls rs : list LogEntry) : option N :=
  match ls, rs with
  | l :: ls, r :: rs =>
      let prefix_equal := prefix_equal && bool_decide (l = r) in
      if (term l =? term r) && negb prefix_equal then Some (offset + 1)
      else first_mismatch prefix_equal (offset + 1) ls rs
  | _, _ => None
  end.

(** The inner loop over the snapshots after one. *)
Fixpoint match_against (first : NodeSnapshot) (rest : list NodeSnapshot) : InvariantResult :=
  match rest with
  | [] => None
  | second :: rest =>
      match first_mismatch true 0 (sn_log first) (sn_log second) with
      | Some at_index =>
          Some ("Log Matching violated between nodes " +:+ dec (sn_id first) +:+ " and " +:+
                dec (sn_id second) +:+ " at index " +:+ dec at_index)
      | None => match_against first rest
      end
  end.

Fixpoint match_pairs (snapshots : list NodeSnapshot) : InvariantResult :=
  match snapshots with
  | [] => None
  | first :: rest =>
      match match_against first rest with Some e => Some e | None => match_pairs rest end
  end.

Definition check_log_matching (snapshots : list NodeSnapshot) : InvariantResult :=
  match List.find (fun node => negb (consecutive 0 (sn_log node))) snapshots with
  | Some node => Some ("snapshot log is not consecutive on node " +:+ dec (sn_id node))
  | None => match_pairs snapshots
  end.

#[global] Instance TraceKind_eq_dec : EqDecision TraceKind.
Proof. solve_decision. Defined.

(** ** State *)

Record TimerBinding := mkTimerBinding {
  tb_simulator_generation : N; tb_raft_generation : N; tb_incarnation : N;
}.

Record NodeRuntime := mkNodeRuntime {
  rt_raft_config : RaftConfig;
  rt_identity : WalIdentity;
  rt_wal_state : WalState;
  rt_raft : option RaftNode;
  rt_election_random : Pcg32;
  rt_election_timer : option TimerBinding;
  rt_heartbeat_timer : option TimerBinding;
  rt_storage_write_latency : Tick;
  rt_storage_flush_latency : Tick;
}.

(** [NodeRuntime::NodeRuntime]. *)
Definition NodeRuntime_new (config : RaftConfig) (identity : WalIdentity) (seed stream : N)
    (write flush : Tick) : NodeRuntime :=
  mkNodeRuntime config identity initial_state None (Pcg32_new seed stream) None None write flush.

Inductive PersistStage := stage_write | stage_flush.

Record PendingPersist := mkPendingPersist {
  pp_node : NodeId;
  pp_incarnation : N;
  pp_raft_operation : StorageOpId;
  pp_expected_frame_sequence : N;
  pp_stage : PersistStage;
}.

(** What the invariant observer keeps. *)
Record Observer := mkObserver {
  ob_committed_ghost : gmap N LogEntry;
  ob_commit_certificate_terms : gmap N Term;
  ob_elected_leaders : gmap N NodeId;
  ob_durable_votes : gmap (N * N) NodeId;
  ob_observed_commit_indexes : gmap N LogIndex;
  ob_observed_durable_terms : gmap N Term;
  ob_observer_failure : option string;
  ob_adapter_failure : option string;
  ob_last_invariant : InvariantResult;
}.

(** What the cluster reports: replies and the semantic trace. *)
Record Reports := mkReports {
  rp_next_client_token : ClientToken;
  rp_client_replies : list ClientReply;
  rp_semantic_trace : list ClusterTraceRecord;
  rp_semantic_trace_truncated : bool;
  rp_reply_retention_saturated : bool;
  rp_simulator_trace_offset : N;
  rp_next_trace_sequence : N;
}.

Record Impl := mkImpl {
  im_config : ClusterConfig;
  im_simulator : Simulator;
  im_nodes : gmap N NodeRuntime;
  im_pending_persists : gmap N PendingPersist;
  im_effect_queue : list (NodeId * RaftEffect);
  im_draining_effects : bool;
  im_observer : Observer;
  im_reports : Reports;
}.

(** [Impl::Impl]. *)
Definition Impl_new (config : ClusterConfig) : Impl :=
  mkImpl config (Simulator_new (cc_simulator config)) ∅ ∅ [] false
    (mkObserver ∅ ∅ ∅ ∅ ∅ ∅ None None None) (mkReports 1 [] [] false false 0 1).

Section setters.
Implicit Types (c : Impl).

Definition set_config c (v : ClusterConfig) : Impl :=
  mkImpl v (im_simulator c) (im_nodes c) (im_pending_persists c) (im_effect_queue c)
    (im_draining_effects c) (im_observer c) (im_reports c).
Definition set_simulator c (v : Simulator) : Impl :=
  mkImpl (im_config c) v (im_nodes c) (im_pending_persists c) (im_effect_queue c)
    (im_draining_effects c) (im_observer c) (im_reports c).
Definition put_runtime c (n : NodeId) (v : NodeRuntime) : Impl :=
  mkImpl (im_config c) (im_simulator c) (<[n := v]> (im_nodes c)) (im_pending_persists c)
    (im_effect_queue c) (im_draining_effects c) (im_observer c) (im_reports c).
Definition set_pending_persists c (v : gmap N PendingPersist) : Impl :=
  mkImpl (im_config c) (im_simulator c) (im_nodes c) v (im_effect_queue c)
    (im_draining_effects c) (im_observer c) (im_reports c).
Definition set_effect_queue c (v : list (NodeId * RaftEffect)) : Impl :=
  mkImpl (im_config c) (im_simulator c) (im_nodes c) (im_pending_persists c) v
    (im_draining_effects c) (im_observer c) (im_reports c).
Definition set_draining_effects c (v : bool) : Impl :=
  mkImpl (im_config c) (im_simulator c) (im_nodes c) (im_pending_persists c) (im_effect_queue c)
    v (im_observer c) (im_reports c).
Definition set_observer c (v : Observer) : Impl :=
  mkImpl (im_config c) (im_simulator c) (im_nodes c) (im_pending_persists c) (im_effect_queue c)
    (im_draining_effects c) v (im_reports c).
Definition set_reports c (v : Reports) : Impl :=
  mkImpl (im_config c) (im_simulator c) (im_nodes c) (im_pending_persists c) (im_effect_queue c)
    (im_draining_effects c) (im_observer c) v.
End setters.

Section runtime_setters.
Implicit Types (n : NodeRuntime).

Definition set_wal_state n (v : WalState) : NodeRuntime :=
  mkNodeRuntime (rt_raft_config n) (rt_identity n) v (rt_raft n) (rt_election_random n)
    (rt_election_timer n) (rt_heartbeat_timer n) (rt_storage_write_latency n)
    (rt_storage_flush_latency n).
Definition set_raft n (v : option RaftNode) : NodeRuntime :=
  mkNodeRuntime (rt_raft_config n) (rt_identity n) (rt_wal_state n) v (rt_election_random n)
    (rt_election_timer n) (rt_heartbeat_timer n) (rt_storage_write_latency n)
    (rt_storage_flush_latency n).
Definition set_election_random n (v : Pcg32) : NodeRuntime :=
  mkNodeRuntime (rt_raft_config n) (rt_identity n) (rt_wal_state n) (rt_raft n) v
    (rt_election_timer n) (rt_heartbeat_timer n) (rt_storage_write_latency n)
    (rt_storage_flush_latency n).
Definition set_timers n (el hb : option TimerBinding) : NodeRuntime :=
  mkNodeRuntime (rt_raft_config n) (rt_identity n) (rt_wal_state n) (rt_raft n)
    (rt_election_random n) el hb (rt_storage_write_latency n) (rt_storage_flush_latency n).
Definition set_latencies n (write flush : Tick) : NodeRuntime :=
  mkNodeRuntime (rt_raft_config n) (rt_identity n) (rt_wal_state n) (rt_raft n)
    (rt_election_random n) (rt_election_timer n) (rt_heartbeat_timer n) write flush.

(** [Impl::timer_binding], read and written. *)
Definition timer_binding n (kind : TimerKind) : option TimerBinding :=
  match kind with heartbeat => rt_heartbeat_timer n | election => rt_election_timer n end.
Definition set_timer_binding n (kind : TimerKind) (b : option TimerBinding) : NodeRuntime :=
  match kind with
  | heartbeat => set_timers n (rt_election_timer n) b
  | election => set_timers n b (rt_heartbeat_timer n)
  end.
End runtime_setters.
