(* ===== verification/Harness.v ===== *)
(** * Harness: the deterministic cluster

    Translation of [DeterministicCluster] of [include/detlog/cluster.hpp] and
    [src/cluster.cpp]: every node runs [RaftNode], its messages pass through the
    wire codec and the simulated network, and a batch it persists is a WAL frame
    that is written and flushed on its simulated device. *)

From S2P Require Import Prelude Model StateMachine RaftTypes Raft RaftSpec Bytes Codec Wal WalRecovery.
From S2P Require Import Pcg SimQueue Simulator SimTrace HarnessTypes.
#[local] Open Scope string_scope.
#[local] Open Scope list_scope.
#[local] Open Scope N_scope.

(** ** Trace and replies *)

Definition c_now (c : Impl) : Tick := now (im_simulator c).

Definition push_trace (r : Reports) (t : ClusterTraceRecord) (truncated : bool) : Reports :=
  mkReports (rp_next_client_token r) (rp_client_replies r) (rp_semantic_trace r ++ [t]) truncated
    (rp_reply_retention_saturated r) (rp_simulator_trace_offset r)
    (add64 (rp_next_trace_sequence r) 1).

(** [Impl::record]. *)
Definition record (c : Impl) (source : ClusterTraceSource) (kind : string) (node peer : NodeId)
    (term : Term) (index : LogIndex) (token bytes : N) (detail : string) : Impl :=
  let r := im_reports c in
  let limit := cc_max_semantic_trace_records (im_config c) in
  if rp_semantic_trace_truncated r then c
  else if limit =? 0 then
    set_reports c (mkReports (rp_next_client_token r) (rp_client_replies r) (rp_semantic_trace r) true
      (rp_reply_retention_saturated r) (rp_simulator_trace_offset r) (rp_next_trace_sequence r))
  else if limit - 1 <=? N.of_nat (length (rp_semantic_trace r)) then
    set_reports c (push_trace r
      (mkClusterTraceRecord (c_now c) (rp_next_trace_sequence r) source_adapter "trace_saturated"
         0 0 0 0 0 0 "semantic trace retention bound reached") true)
  else
    set_reports c (push_trace r
      (mkClusterTraceRecord (c_now c) (rp_next_trace_sequence r) source kind node peer term index
         token bytes detail) false).

Definition advance_offset (c : Impl) : Impl :=
  let r := im_reports c in
  set_reports c (mkReports (rp_next_client_token r) (rp_client_replies r) (rp_semantic_trace r)
    (rp_semantic_trace_truncated r) (rp_reply_retention_saturated r)
    (rp_simulator_trace_offset r + 1) (rp_next_trace_sequence r)).

(** The loop of [Impl::sync_simulator_trace] over the records not yet seen. *)
Fixpoint sync_records (c : Impl) (l : list SimTraceRecord) : Impl :=
  match l with
  | [] => c
  | e :: l =>
      sync_records
        (record (advance_offset c) source_simulator (kind_to_string (st_kind e)) (st_node e)
           (st_peer e) 0 0 (st_token e) (st_bytes e) (st_detail e)) l
  end.

Definition sync_simulator_trace (c : Impl) : Impl :=
  sync_records c (drop (N.to_nat (rp_simulator_trace_offset (im_reports c)))
                    (sim_trace_records (im_simulator c))).

Definition runtime (c : Impl) (node : NodeId) : option NodeRuntime := im_nodes c !! node.

Definition term_for (c : Impl) (node : NodeId) : Term :=
  match runtime c node with
  | None => 0
  | Some found =>
      match rt_raft found with
      | Some raft => current_term (hard_state_ raft)
      | None => current_term (ws_hard_state (rt_wal_state found))
      end
  end.

Definition set_replies (c : Impl) (l : list ClientReply) (saturated : bool) : Impl :=
  let r := im_reports c in
  set_reports c (mkReports (rp_next_client_token r) l (rp_semantic_trace r)
    (rp_semantic_trace_truncated r) saturated (rp_simulator_trace_offset r)
    (rp_next_trace_sequence r)).

Definition retain_reply (c : Impl) (reply : ClientReply) (node : NodeId) : Impl :=
  let replies c := rp_client_replies (im_reports c) in
  let saturated c := rp_reply_retention_saturated (im_reports c) in
  let c1 :=
    if cc_max_retained_client_replies (im_config c) <=? N.of_nat (length (replies c)) then
      let c1 := set_replies c (drop 1 (replies c)) (saturated c) in
      if negb (saturated c) then
        record (set_replies c1 (replies c1) true) source_adapter "reply_retention_saturated" node 0
          (term_for c node) 0 (cr_token reply) 0 "oldest retained reply evicted"
      else c1
    else c in
  set_replies c1 (replies c1 ++ [reply]) (saturated c1).

(** ** The observer *)

Definition set_observer_failure (c : Impl) (what : string) : Impl :=
  let o := im_observer c in
  match ob_observer_failure o with
  | Some _ => c
  | None =>
      set_observer c (mkObserver (ob_committed_ghost o) (ob_commit_certificate_terms o)
        (ob_elected_leaders o) (ob_durable_votes o) (ob_observed_commit_indexes o)
        (ob_observed_durable_terms o) (Some what) (ob_adapter_failure o) (ob_last_invariant o))
  end.

Definition set_adapter_failure (c : Impl) (what : string) : Impl :=
  let o := im_observer c in
  match ob_adapter_failure o with
  | Some _ => c
  | None =>
      set_observer c (mkObserver (ob_committed_ghost o) (ob_commit_certificate_terms o)
        (ob_elected_leaders o) (ob_durable_votes o) (ob_observed_commit_indexes o)
        (ob_observed_durable_terms o) (ob_observer_failure o) (Some what) (ob_last_invariant o))
  end.

Definition put_vote (o : Observer) (voter term candidate : N) : Observer :=
  mkObserver (ob_committed_ghost o) (ob_commit_certificate_terms o) (ob_elected_leaders o)
    (<[(voter, term) := candidate]> (ob_durable_votes o)) (ob_observed_commit_indexes o)
    (ob_observed_durable_terms o) (ob_observer_failure o) (ob_adapter_failure o) (ob_last_invariant o).

Definition put_leader (o : Observer) (term leader : N) : Observer :=
  mkObserver (ob_committed_ghost o) (ob_commit_certificate_terms o)
    (<[term := leader]> (ob_elected_leaders o)) (ob_durable_votes o) (ob_observed_commit_indexes o)
    (ob_observed_durable_terms o) (ob_observer_failure o) (ob_adapter_failure o) (ob_last_invariant o).

Definition register_vote (c : Impl) (voter : NodeId) (term : Term) (candidate : NodeId) : Impl :=
  match ob_durable_votes (im_observer c) !! (voter, term) with
  | None => set_observer c (put_vote (im_observer c) voter term candidate)
  | Some other =>
      if other =? candidate then c
      else set_observer_failure c
             ("node " +:+ dec voter +:+ " voted for two candidates in term " +:+ dec term)
  end.

(** The votes observed for a candidate in a term. *)
Definition votes_for (o : Observer) (candidate : NodeId) (term : Term) : N :=
  N.of_nat (length (filter (fun p : (N * N) * NodeId => p.1.2 = term /\ p.2 = candidate)
                      (map_to_list (ob_durable_votes o)))).

(** [node->raft->log().size() < index || log[index - 1] != committed]. *)
Definition lacks (log : list LogEntry) (index : LogIndex) (committed : LogEntry) : bool :=
  (N.of_nat (length log) <? index) ||
  negb (bool_decide (log !! N.to_nat (sub64 index 1) = Some committed)).

Definition register_leader (c : Impl) (leader : NodeId) (term : Term) : Impl :=
  match ob_elected_leaders (im_observer c) !! term with
  | Some other =>
      if other =? leader then c
      else set_observer_failure c ("two leaders were observed in term " +:+ dec term)
  | None =>
      let c1 := set_observer c (put_leader (im_observer c) term leader) in
      match runtime c1 leader with
      | None => c1
      | Some node =>
          let votes := votes_for (im_observer c1) leader term in
          let c2 :=
            if votes <? N.of_nat (length (members (rt_raft_config node))) / 2 + 1
            then set_observer_failure c1
                   ("leader lacks an observed durable vote certificate in term " +:+ dec term)
            else c1 in
          match rt_raft node, ob_observer_failure (im_observer c2) with
          | Some raft, None =>
              match List.find (fun p => lacks (log_ raft) p.1 p.2)
                      (sorted_items (ob_committed_ghost (im_observer c2))) with
              | Some (index, _) =>
                  set_observer_failure c2 ("new leader is missing committed index " +:+ dec index +:+
                                           " in term " +:+ dec term)
              | None => c2
              end
          | _, _ => c2
          end
      end
  end.

(** ** Effects

    [enqueue_effects] and [drain_effects] call each other through [deliver]; the
    flag [draining_effects] keeps the inner call from draining.  The handlers take
    the function to drain with as an argument, which ties the knot below. *)

Section effects.
Context `{HeapLib}.

Definition enqueue_with (drain : Impl -> Throw Impl) (c : Impl) (node : NodeId)
    (effects : list RaftEffect) : Throw Impl :=
  let c1 := set_effect_queue c (im_effect_queue c ++ (pair node <$> effects)) in
  if im_draining_effects c1 then inr c1 else drain c1.

(** An exception thrown by [RaftNode::step] ends the call. *)
Definition deliver_with (drain : Impl -> Throw Impl) (c : Impl) (node : NodeId) (event : RaftEvent)
  : Throw Impl :=
  match runtime c node with
  | None => inr c
  | Some found =>
      match rt_raft found with
      | None => inr c
      | Some raft =>
          if negb (is_alive (im_simulator c) node) then inr c
          else match step event raft with
               | Throws e => inl (exn_what e)
               | Returns (_, raft', effects) =>
                   enqueue_with drain (put_runtime c node (set_raft found (Some raft'))) node effects
               end
      end
  end.

Definition fail_storage_with (drain : Impl -> Throw Impl) (c : Impl) (node : NodeId)
    (operation : StorageOpId) (reason : string) : Throw Impl :=
  let c1 := record c source_adapter "persist_failed" node 0 (term_for c node) 0 operation 0 reason in
  deliver_with drain c1 node (StorageComplete operation false reason).

(** [pending_persists.emplace]: an existing binding is kept. *)
Definition emplace_persist (c : Impl) (id : StorageOpId) (p : PendingPersist) : Impl :=
  match im_pending_persists c !! id with
  | Some _ => c
  | None => set_pending_persists c (<[id := p]> (im_pending_persists c))
  end.

Definition handle_persist (drain : Impl -> Throw Impl) (c : Impl) (node : NodeId)
    (op_id : StorageOpId) (batch : PersistBatch) : Throw Impl :=
  match runtime c node with
  | None => inr c
  | Some found =>
      match rt_raft found with
      | None => inr c
      | Some raft =>
          if negb (is_alive (im_simulator c) node) then inr c
          else
            match encode_wal_frame (rt_wal_state found) batch (cc_wal (im_config c)) with
            | inl error => fail_storage_with drain c node op_id (we_what error)
            | inr encoded =>
                let '(submitted, s) :=
                  submit_write (im_simulator c) node (ef_bytes encoded)
                    (rt_storage_write_latency found) in
                let c1 := sync_simulator_trace (set_simulator c s) in
                match sub_status submitted with
                | submit_queued =>
                    let c2 := emplace_persist c1 (sub_operation_id submitted)
                                (mkPendingPersist node (incarnation s node) op_id
                                   (ws_last_frame_sequence (ef_state_after encoded)) stage_write) in
                    inr (record c2 source_adapter "persist_write_queued" node 0
                           (current_term (hard_state_ raft)) 0 op_id (blen (ef_bytes encoded)) "")
                | status => fail_storage_with drain c1 node op_id (storage_status_name status)
                end
            end
      end
  end.

Definition handle_send (c : Impl) (node : NodeId) (envelope : MessageEnvelope) : Impl :=
  let c1 :=
    match env_message envelope with
    | MRequestVote request =>
        register_vote c (env_from envelope) (rv_term request) (rv_candidate_id request)
    | MRequestVoteResponse response =>
        if rvr_vote_granted response
        then register_vote c (env_from envelope) (rvr_term response) (env_to envelope)
        else c
    | _ => c
    end in
  match encode_message (env_message envelope) (cc_codec (im_config c1)) with
  | failure error _ =>
      let c2 := set_adapter_failure c1
                  ("core emitted an unencodable protocol message: " +:+ Codec.to_string error) in
      record c2 source_adapter "codec_rejected" node (env_to envelope) (term_for c2 node) 0 0 0
        (Codec.to_string error)
  | success encoded =>
      let '(sent, s) :=
        Simulator.send (im_simulator c1) (env_from envelope) (env_to envelope) encoded
          (cc_network_delay (im_config c1)) in
      let c2 := sync_simulator_trace (set_simulator c1 s) in
      record c2 source_adapter "transport_send" (env_from envelope) (env_to envelope)
        (term_for c2 node) 0 0 (blen encoded) (send_status_name (sr_send_status sent))
  end.

(** The election jitter: the delay with it, and the generator after drawing. *)
Definition jittered (config : ClusterConfig) (found : NodeRuntime) (timer : TimerRequest)
  : option Tick * NodeRuntime :=
  if bool_decide (tr_kind timer = election) && negb (cc_election_jitter config =? 0) then
    let '(jitter, g) := inclusive (rt_election_random found) 0 (cc_election_jitter config) in
    let found' := set_election_random found g in
    if tick_add_overflows (tr_delay timer) jitter then (None, found')
    else (Some (add64 (tr_delay timer) jitter), found')
  else (Some (tr_delay timer), found).

Definition handle_timer (c : Impl) (node : NodeId) (timer : TimerRequest) : Impl :=
  match runtime c node with
  | None => c
  | Some found0 =>
      match rt_raft found0 with
      | None => c
      | Some raft =>
          let term := current_term (hard_state_ raft) in
          if negb (is_alive (im_simulator c) node) then c
          else
            let '(delay, found) := jittered (im_config c) found0 timer in
            let c0 := put_runtime c node found in
            match delay with
            | None =>
                record c0 source_adapter "timer_rejected" node 0 term 0 (tr_generation timer) 0
                  "time_overflow"
            | Some delay =>
                let '(token, s) := arm_timer (im_simulator c0) node (tr_kind timer) delay in
                let c1 := sync_simulator_trace (set_simulator c0 s) in
                match token with
                | Some token =>
                    let c2 := put_runtime c1 node
                                (set_timer_binding found (tr_kind timer)
                                   (Some (mkTimerBinding (tt_generation token) (tr_generation timer)
                                            (tt_incarnation token)))) in
                    record c2 source_adapter "timer_mapped" node 0 term 0 (tr_generation timer) 0
                      (kind_name (tr_kind timer))
                | None =>
                    let rejected :=
                      record
                        (set_adapter_failure c1 "timer re-arm failed without an existing live timer")
                        source_adapter "timer_rejected" node 0 term 0 (tr_generation timer) 0
                        "simulator_limit" in
                    match timer_binding found (tr_kind timer) with
                    | Some previous =>
                        if tb_incarnation previous =? incarnation s node then
                          let c2 := put_runtime c1 node
                                      (set_timer_binding found (tr_kind timer)
                                         (Some (mkTimerBinding (tb_simulator_generation previous)
                                                  (tr_generation timer) (tb_incarnation previous)))) in
                          record c2 source_adapter "timer_rearm_coalesced" node 0 term 0
                            (tr_generation timer) 0 "existing simulator deadline retained"
                        else rejected
                    | None => rejected
                    end
                end
            end
      end
  end.

(** [static_cast<unsigned>(status)]. *)
Definition client_status_number (s : ClientStatus) : N :=
  match s with
  | status_ok => 0 | not_leader => 1 | leader_not_ready => 2 | busy => 3 | status_unavailable => 4
  | stale_sequence => 5 | sequence_gap => 6 | request_id_conflict => 7 | invalid_request => 8
  | storage_error => 9
  end.

Definition handle_effect (drain : Impl -> Throw Impl) (c : Impl) (node : NodeId) (effect : RaftEffect)
  : Throw Impl :=
  match effect with
  | TraceEffect t =>
      let c1 := if bool_decide (trace_kind t = role_change) &&
                   bool_decide (trace_detail t = "became leader")
                then register_leader c (trace_node t) (trace_term t) else c in
      inr (record c1 source_raft (raft_trace_name (trace_kind t)) (trace_node t) 0 (trace_term t)
             (trace_index t) 0 0 (trace_detail t))
  | ClientReplyEffect reply =>
      let c1 := retain_reply c reply node in
      inr (record c1 source_adapter "client_reply" node 0 (term_for c1 node) (cr_log_index reply)
             (cr_token reply) 0 (dec (client_status_number (cr_status reply))))
  | PersistEffect op_id batch => handle_persist drain c node op_id batch
  | SendEffect envelope => inr (handle_send c node envelope)
  | ScheduleTimerEffect timer => inr (handle_timer c node timer)
  end.

(** While [draining_effects] is set, enqueuing does not drain. *)
Definition no_drain (c : Impl) : Throw Impl := inr c.

(** [n] turns of the loop of [drain_effects], or until the queue is empty. *)
Fixpoint drain_turns (n : nat) (c : Impl) : Throw Impl :=
  match n with
  | O => inr c
  | S n =>
      match im_effect_queue c with
      | [] => inr c
      | (node, effect) :: queue =>
          let c1 := sync_simulator_trace (set_effect_queue c queue) in
          c2 <== handle_effect no_drain c1 node effect;
          drain_turns n c2
      end
  end.

(** The loop takes the queue as it finds it in one round, and what was appended
    meanwhile in the next.  Only a failed persist appends, and what it appends
    persists nothing, so two rounds empty the queue. *)
Definition drain_loop (c : Impl) : Throw Impl :=
  c1 <== drain_turns (length (im_effect_queue c)) c;
  drain_turns (length (im_effect_queue c1)) c1.

Definition drain_effects (c : Impl) : Throw Impl :=
  c1 <== drain_loop (set_draining_effects c true);
  inr (set_draining_effects (sync_simulator_trace c1) false).

Definition enqueue_effects : Impl -> NodeId -> list RaftEffect -> Throw Impl := enqueue_with drain_effects.
Definition deliver : Impl -> NodeId -> RaftEvent -> Throw Impl := deliver_with drain_effects.
Definition fail_storage : Impl -> NodeId -> StorageOpId -> string -> Throw Impl :=
  fail_storage_with drain_effects.

(** ** The invariant check *)

(** The snapshot of a node, from its engine or, when it is down, from its
    durable state. *)
Definition make_snapshot (c : Impl) (id : NodeId) (node : NodeRuntime) : NodeSnapshot :=
  let down :=
    let w := rt_wal_state node in
    let size := N.of_nat (length (ws_entries w)) in
    mkNodeSnapshot id false unavailable (current_term (ws_hard_state w)) false size size
      (ws_commit_index w) 0 0 (ws_entries w) in
  match rt_raft node with
  | None => down
  | Some raft =>
      if negb (is_alive (im_simulator c) id) then down
      else mkNodeSnapshot id true (role_ raft) (current_term (hard_state_ raft)) (leader_ready_ raft)
             (last_log_index raft) (durable_last_log_index_ raft) (commit_index_ raft)
             (last_applied_ raft) (N.of_nat (length (deferred_events_ raft))) (log_ raft)
  end.

Definition set_observed (c : Impl) (id : NodeId) (t : Term) (commit : LogIndex) : Impl :=
  let o := im_observer c in
  set_observer c (mkObserver (ob_committed_ghost o) (ob_commit_certificate_terms o)
    (ob_elected_leaders o) (ob_durable_votes o) (<[id := commit]> (ob_observed_commit_indexes o))
    (<[id := t]> (ob_observed_durable_terms o)) (ob_observer_failure o) (ob_adapter_failure o)
    (ob_last_invariant o)).

(** A check either stops with a detail or goes on; both keep what it recorded. *)
Definition Checked (A : Type) : Type := Impl * (string + A).
Definition go_on {A} (c : Impl) (a : A) : Checked A := (c, inr a).
Definition fail_with {A} (c : Impl) (what : string) : Checked A := (c, inl what).
Definition kbind {A B} (x : Checked A) (k : Impl -> A -> Checked B) : Checked B :=
  match x with (c, inl e) => (c, inl e) | (c, inr a) => k c a end.

(** The body of the first loop over the nodes. *)
Definition inspect_node (c : Impl) (id : NodeId) (node : NodeRuntime) : Checked NodeSnapshot :=
  let w := rt_wal_state node in
  let o := im_observer c in
  let durable_term := current_term (ws_hard_state w) in
  let on := " on node " +:+ dec id in
  if sl_max_pending_bytes (sc_storage (cc_simulator (im_config c))) <?
     pending_storage_bytes (im_simulator c) id
  then fail_with c ("simulator storage-byte bound exceeded" +:+ on)
  else if N.of_nat (length (ws_entries w)) <? ws_commit_index w
  then fail_with c ("durable commit index exceeds durable log" +:+ on)
  else if durable_term <? default 0 (ob_observed_durable_terms o !! id)
  then fail_with c ("durable term decreased" +:+ on)
  else if ws_commit_index w <? default 0 (ob_observed_commit_indexes o !! id)
  then fail_with c ("durable commit index decreased" +:+ on)
  else
    let c1 := set_observed c id durable_term (ws_commit_index w) in
    let c2 := match voted_for (ws_hard_state w) with
              | Some who => register_vote c1 id durable_term who
              | None => c1
              end in
    match rt_raft node with
    | Some raft =>
        if negb (is_alive (im_simulator c2) id) then go_on c2 (make_snapshot c2 id node)
        else if commit_index_ raft <? last_applied_ raft
        then fail_with c2 ("lastApplied exceeds commitIndex" +:+ on)
        else if max_deferred_events (rt_raft_config node) <? N.of_nat (length (deferred_events_ raft))
        then fail_with c2 ("deferred event bound exceeded" +:+ on)
        else if negb (consecutive 0 (log_ raft))
        then fail_with c2 ("volatile log is not consecutive" +:+ on)
        else match compare_applied_prefix raft with
             | Some mismatch => fail_with c2 (mismatch +:+ on)
             | None => go_on c2 (make_snapshot c2 id node)
             end
    | None => go_on c2 (make_snapshot c2 id node)
    end.

Fixpoint inspect_nodes (c : Impl) (l : list (NodeId * NodeRuntime)) (acc : list NodeSnapshot)
  : Checked (list NodeSnapshot) :=
  match l with
  | [] => go_on c acc
  | (id, node) :: l =>
      kbind (inspect_node c id node) (fun c snapshot => inspect_nodes c l (acc ++ [snapshot]))
  end.

Definition highest_certified (c : Impl) : LogIndex :=
  match last (sorted_items (ob_committed_ghost (im_observer c))) with Some p => p.1 | None => 0 end.

(** [wal_state.entries[target - 1] == target_entry] on enough nodes. *)
Definition durable_replicas (c : Impl) (target : LogIndex) (entry : LogEntry) : N :=
  N.of_nat (length (filter (fun p : NodeId * NodeRuntime =>
    lacks (ws_entries (rt_wal_state p.2)) target entry = false) (sorted_items (im_nodes c)))).

(** The loop that adds the entries [index .. target] of a leader to the ghost. *)
Fixpoint certify (n : nat) (c : Impl) (raft : RaftNode) (index : LogIndex) : Checked unit :=
  match n with
  | O => go_on c tt
  | S n =>
      match log_ raft !! N.to_nat (sub64 index 1) with
      | None => go_on c tt
      | Some entry =>
          let o := im_observer c in
          let ghost := ob_committed_ghost o in
          let certify_term c :=
            let o := im_observer c in
            set_observer c (mkObserver (ob_committed_ghost o)
              (match ob_commit_certificate_terms o !! index with
               | Some _ => ob_commit_certificate_terms o
               | None => <[index := current_term (hard_state_ raft)]> (ob_commit_certificate_terms o)
               end) (ob_elected_leaders o) (ob_durable_votes o) (ob_observed_commit_indexes o)
              (ob_observed_durable_terms o) (ob_observer_failure o) (ob_adapter_failure o)
              (ob_last_invariant o)) in
          match ghost !! index with
          | Some old =>
              if bool_decide (old = entry) then certify n (certify_term c) raft (index + 1)
              else fail_with c ("committed entry changed at index " +:+ dec index)
          | None =>
              let c1 := set_observer c (mkObserver (<[index := entry]> ghost)
                (ob_commit_certificate_terms o) (ob_elected_leaders o) (ob_durable_votes o)
                (ob_observed_commit_indexes o) (ob_observed_durable_terms o) (ob_observer_failure o)
                (ob_adapter_failure o) (ob_last_invariant o)) in
              certify n (certify_term c1) raft (index + 1)
          end
      end
  end.

(** The body of the loop over the leaders. *)
Definition inspect_leader (c : Impl) (id : NodeId) (node : NodeRuntime) : Checked unit :=
  match rt_raft node with
  | None => go_on c tt
  | Some raft =>
      if negb (is_alive (im_simulator c) id) || negb (bool_decide (role_ raft = leader))
      then go_on c tt
      else
        let c1 := register_leader c id (current_term (hard_state_ raft)) in
        match ob_observer_failure (im_observer c1) with
        | Some what => fail_with c1 what
        | None =>
            let target := commit_index_ raft in
            if target <=? highest_certified c1 then go_on c1 tt
            else if (target =? 0) || (N.of_nat (length (log_ raft)) <? target)
            then fail_with c1 "leader commit target is outside its log"
            else match log_ raft !! N.to_nat (target - 1) with
                 | None => fail_with c1 "leader commit target is outside its log"
                 | Some entry =>
                     if negb (term entry =? current_term (hard_state_ raft))
                     then fail_with c1 "leader directly committed an entry from an older term"
                     else if durable_replicas c1 target entry <? quorum_size raft
                     then fail_with c1 ("new commit lacks a durable quorum certificate at index " +:+
                                        dec target)
                     else certify (N.to_nat (target - highest_certified c1)) c1 raft
                            (highest_certified c1 + 1)
                 end
        end
  end.

Fixpoint inspect_leaders (c : Impl) (l : list (NodeId * NodeRuntime)) : Checked unit :=
  match l with
  | [] => go_on c tt
  | (id, node) :: l => kbind (inspect_leader c id node) (fun c _ => inspect_leaders c l)
  end.

(** The committed prefix of one snapshot, from an index on. *)
Fixpoint committed_prefix (ghost : gmap N LogEntry) (snapshot : NodeSnapshot) (n : nat)
    (index : LogIndex) : InvariantResult :=
  match n with
  | O => None
  | S n =>
      if bool_decide (ghost !! index <> None /\
                      sn_log snapshot !! N.to_nat (sub64 index 1) = ghost !! index)
      then committed_prefix ghost snapshot n (index + 1)
      else Some ("committed-prefix disagreement on node " +:+ dec (sn_id snapshot) +:+ " at index " +:+
                 dec index)
  end.

Definition inspect_committed (c : Impl) (certified : LogIndex) (snapshot : NodeSnapshot)
  : InvariantResult :=
  if certified <? sn_commit_index snapshot
  then Some ("node exposed an uncertified commit index " +:+ dec (sn_commit_index snapshot))
  else committed_prefix (ob_committed_ghost (im_observer c)) snapshot
         (N.to_nat (sn_commit_index snapshot)) 1.

(** The body of the leader-completeness loop. *)
Definition inspect_complete (c : Impl) (snapshot : NodeSnapshot) : InvariantResult :=
  if negb (sn_alive snapshot) || negb (bool_decide (sn_role snapshot = leader)) then None
  else
    let missing (p : LogIndex * LogEntry) :=
      match ob_commit_certificate_terms (im_observer c) !! p.1 with
      | Some t => if sn_term snapshot <? t then false else lacks (sn_log snapshot) p.1 p.2
      | None => lacks (sn_log snapshot) p.1 p.2
      end in
    match List.find missing (sorted_items (ob_committed_ghost (im_observer c))) with
    | Some (index, _) =>
        Some ("leader completeness violated by node " +:+ dec (sn_id snapshot) +:+ " at index " +:+
              dec index)
    | None => None
    end.

(** The first failure of a check over snapshots. *)
Fixpoint first_failure {A} (check : A -> InvariantResult) (l : list A) : InvariantResult :=
  match l with
  | [] => None
  | a :: l => match check a with Some e => Some e | None => first_failure check l end
  end.

Definition checked (c : Impl) (r : InvariantResult) : Checked unit :=
  match r with Some e => fail_with c e | None => go_on c tt end.

Definition inspect_invariants (c : Impl) : Impl * InvariantResult :=
  let conf := im_config c in
  let r : Checked unit :=
    match ob_adapter_failure (im_observer c), ob_observer_failure (im_observer c) with
    | Some what, _ => fail_with c what
    | None, Some what => fail_with c what
    | None, None =>
        if max_pending_events (sc_events (cc_simulator conf)) <? pending_events (im_simulator c)
        then fail_with c "simulator pending-event bound exceeded"
        else if tl_max_total_queued_bytes (sc_transport (cc_simulator conf)) <?
                queued_network_bytes (im_simulator c)
        then fail_with c "simulator network-byte bound exceeded"
        else if cc_max_semantic_trace_records conf <?
                N.of_nat (length (rp_semantic_trace (im_reports c)))
        then fail_with c "cluster semantic-trace bound exceeded"
        else if cc_max_retained_client_replies conf <?
                N.of_nat (length (rp_client_replies (im_reports c)))
        then fail_with c "cluster client-reply bound exceeded"
        else
          kbind (inspect_nodes c (sorted_items (im_nodes c)) []) (fun c snapshots =>
            match ob_observer_failure (im_observer c) with
            | Some what => fail_with c what
            | None =>
                kbind (checked c (check_log_matching snapshots)) (fun c _ =>
                kbind (inspect_leaders c (sorted_items (im_nodes c))) (fun c _ =>
                kbind (checked c (first_failure (inspect_committed c (highest_certified c)) snapshots))
                  (fun c _ => checked c (first_failure (inspect_complete c) snapshots))))
            end)
    end in
  (r.1, match r.2 with inl what => Some what | inr _ => None end).

Definition set_last_invariant (c : Impl) (r : InvariantResult) : Impl :=
  let o := im_observer c in
  set_observer c (mkObserver (ob_committed_ghost o) (ob_commit_certificate_terms o)
    (ob_elected_leaders o) (ob_durable_votes o) (ob_observed_commit_indexes o)
    (ob_observed_durable_terms o) (ob_observer_failure o) (ob_adapter_failure o) r).

Definition verify_if_enabled (c : Impl) : Throw Impl :=
  let '(c1, r) := inspect_invariants c in
  let c2 := set_last_invariant c1 r in
  match r with
  | Some detail =>
      if cc_automatic_invariant_checks (im_config c2)
      then inl ("cluster invariant failed: " +:+ detail) else inr c2
  | None => inr c2
  end.

Definition check_invariants (c : Impl) : InvariantResult * Impl :=
  let '(c1, r) := inspect_invariants c in (r, set_last_invariant c1 r).

(** ** Recovery and storage completions *)

Definition recovered_from (w : WalState) : RecoveredState :=
  mkRecoveredState (ws_hard_state w) (ws_entries w) (ws_commit_index w).

Definition recover_node (c : Impl) (node : NodeId) (runtime : NodeRuntime)
    (repair_incomplete_tail : bool) : bool * Impl :=
  let id := Wal.node_id (rt_identity runtime) in
  let w := rt_wal_state runtime in
  match scan_wal_bytes (stable_bytes (im_simulator c) id) (rt_identity runtime)
          (cc_wal (im_config c)) with
  | inl error =>
      (false, record c source_adapter "wal_recovery_failed" id 0 (current_term (ws_hard_state w))
                (ws_commit_index w) 0 0 (we_what error))
  | inr scanned =>
      let recovered c := put_runtime c node (set_wal_state runtime (sc_state scanned)) in
      if sc_has_incomplete_tail scanned then
        if negb repair_incomplete_tail || (u64_max <? sc_valid_bytes scanned) then (false, c)
        else
          let '(cut, s) := truncate_stable_storage (im_simulator c) id (sc_valid_bytes scanned) in
          if negb cut then (false, set_simulator c s)
          else
            let c1 := sync_simulator_trace (set_simulator c s) in
            let c2 := record c1 source_adapter "wal_tail_repaired" id 0
                        (current_term (ws_hard_state (sc_state scanned)))
                        (ws_commit_index (sc_state scanned)) 0 (sc_valid_bytes scanned) "" in
            (true, recovered c2)
      else (true, recovered c)
  end.

(** The second half of [Impl::handle_storage_event]: the frame is on the medium. *)
Definition finish_persist (c : Impl) (event : StorageEvent) (bridge : PendingPersist) : Throw Impl :=
  match runtime c (se_node event) with
  | None => inr c
  | Some node =>
      match rt_raft node with
      | None => inr c
      | Some _ =>
          match scan_wal_bytes (stable_bytes (im_simulator c) (se_node event)) (rt_identity node)
                  (cc_wal (im_config c)) with
          | inl error => fail_storage c (se_node event) (pp_raft_operation bridge) (we_what error)
          | inr scanned =>
              if sc_has_incomplete_tail scanned ||
                 negb (ws_last_frame_sequence (sc_state scanned) =? pp_expected_frame_sequence bridge)
              then fail_storage c (se_node event) (pp_raft_operation bridge)
                     "flush did not produce the expected complete WAL frame"
              else
                let w := sc_state scanned in
                let c1 := put_runtime c (se_node event) (set_wal_state node w) in
                let c2 := record c1 source_adapter "persist_durable" (se_node event) 0
                            (current_term (ws_hard_state w)) (ws_commit_index w)
                            (pp_raft_operation bridge) (se_byte_count event) "" in
                deliver c2 (se_node event)
                  (StorageComplete (pp_raft_operation bridge) true EmptyString)
          end
      end
  end.

(** The first half: the write completed, and the flush is submitted. *)
Definition start_flush (c : Impl) (event : StorageEvent) (bridge : PendingPersist) : Throw Impl :=
  let gone := fail_storage c (se_node event) (pp_raft_operation bridge)
                "storage node became unavailable before flush" in
  match runtime c (se_node event) with
  | None => gone
  | Some node =>
      match rt_raft node with
      | None => gone
      | Some _ =>
          if negb (is_alive (im_simulator c) (se_node event)) then gone
          else
            let '(flush, s) :=
              submit_flush (im_simulator c) (se_node event) (rt_storage_flush_latency node) in
            let c1 := sync_simulator_trace (set_simulator c s) in
            match sub_status flush with
            | submit_queued =>
                let c2 := emplace_persist c1 (sub_operation_id flush)
                            (mkPendingPersist (pp_node bridge) (pp_incarnation bridge)
                               (pp_raft_operation bridge) (pp_expected_frame_sequence bridge)
                               stage_flush) in
                inr (record c2 source_adapter "persist_flush_queued" (se_node event) 0
                       (term_for c2 (se_node event)) 0 (pp_raft_operation bridge)
                       (se_byte_count event) "")
            | status => fail_storage c1 (se_node event) (pp_raft_operation bridge)
                          (storage_status_name status)
            end
      end
  end.

Definition handle_storage_event (c : Impl) (event : StorageEvent) : Throw Impl :=
  match im_pending_persists c !! se_operation_id event with
  | None =>
      inr (record c source_adapter "orphan_storage_completion" (se_node event) 0
             (term_for c (se_node event)) 0 (se_operation_id event) (se_byte_count event) "")
  | Some bridge =>
      let c1 := set_pending_persists c (delete (se_operation_id event) (im_pending_persists c)) in
      if negb (pp_node bridge =? se_node event) ||
         negb (pp_incarnation bridge =? incarnation (im_simulator c1) (se_node event)) then
        inr (record c1 source_adapter "stale_storage_bridge" (se_node event) 0
               (term_for c1 (se_node event)) 0 (pp_raft_operation bridge) (se_byte_count event) "")
      else if negb (bool_decide (se_status event = completed_ok)) then
        fail_storage c1 (se_node event) (pp_raft_operation bridge) (status_name (se_status event))
      else match pp_stage bridge with
           | stage_write => start_flush c1 event bridge
           | stage_flush => finish_persist c1 event bridge
           end
  end.

(** ** Construction *)

Definition kWalFrameMargin : N := 256.

(** The bounds [Impl::initialize] checks: the message of the first violation. *)
Definition config_error (config : ClusterConfig) : option string :=
  let ms := cc_members config in
  let r := cc_raft config in
  let w := cc_wal config in
  let k := cc_codec config in
  let t := sc_transport (cc_simulator config) in
  let d := sc_storage (cc_simulator config) in
  let e := sc_events (cc_simulator config) in
  let count := N.of_nat (length ms) in
  let frame := max_append_bytes_per_rpc r in
  if (negb (count =? 3) && negb (count =? 5)) || adjacent_equal ms
  then Some "cluster membership must contain three or five unique node IDs"
  else if sub64 u64_max (election_timeout r) <? cc_election_jitter config
  then Some "election timeout plus jitter overflows"
  else if max_entries_per_append k <? max_append_entries_per_rpc r
  then Some "wire entry bound is smaller than the Raft append bound"
  else if wo_max_entries_per_frame w <? max_append_entries_per_rpc r
  then Some "WAL entry bound is smaller than the Raft append bound"
  else if (Codec.max_key_bytes k <? RaftTypes.max_key_bytes r) ||
          (Codec.max_value_bytes k <? RaftTypes.max_value_bytes r) ||
          (wo_max_key_bytes w <? RaftTypes.max_key_bytes r) ||
          (wo_max_value_bytes w <? RaftTypes.max_value_bytes r) ||
          (max_frame_bytes k <? frame) || (wo_max_frame_bytes w <? frame)
  then Some "Raft payload bounds exceed codec or WAL bounds"
  else if (tl_max_frame_bytes t <? frame) || (tl_max_queued_bytes_per_link t <? frame) ||
          (tl_max_total_queued_bytes t <? frame) || (u64_max - kWalFrameMargin <? frame) ||
          (sl_max_write_bytes d <? add64 frame kWalFrameMargin) ||
          (sl_max_pending_bytes d <? add64 frame kWalFrameMargin) ||
          (sl_max_pending_operations d =? 0) ||
          (sl_max_file_bytes d <? add64 frame kWalFrameMargin) ||
          (max_pending_events e <? count) || (max_total_events e <? count)
  then Some "simulator bounds cannot carry one maximum Raft/WAL operation"
  else if cc_max_retained_client_replies config =? 0
  then Some "client reply retention bound must be nonzero"
  else None.

Definition with_identity (r : RaftConfig) (id : NodeId) (ms : list NodeId) : RaftConfig :=
  mkRaftConfig id ms (election_timeout r) (heartbeat_interval r) (max_deferred_events r)
    (max_uncommitted_entries r) (max_uncommitted_bytes r) (max_command_bytes r)
    (RaftTypes.max_key_bytes r) (RaftTypes.max_value_bytes r) (max_append_entries_per_rpc r)
    (max_append_bytes_per_rpc r) (append_retry_heartbeats r) (max_waiters_per_request r).

Definition sorted_config (c : ClusterConfig) : ClusterConfig :=
  mkClusterConfig (sort_members (cc_members c)) (cc_seed c) (cc_raft c) (cc_codec c)
    (cc_simulator c) (cc_wal c) (cc_cluster_id_high c) (cc_cluster_id_low c) (cc_election_jitter c)
    (cc_network_delay c) (cc_storage_write_latency c) (cc_storage_flush_latency c)
    (cc_max_semantic_trace_records c) (cc_max_retained_client_replies c)
    (cc_automatic_invariant_checks c).

(** The body of the loop that sets up one member. *)
Definition initialize_node (c : Impl) (id : NodeId) : Throw Impl :=
  let config := im_config c in
  let raft_config := with_identity (cc_raft config) id (cc_members config) in
  let identity := mkWalIdentity (cc_cluster_id_high config) (cc_cluster_id_low config) id in
  let node := NodeRuntime_new raft_config identity (mix_seed (N.lxor (cc_seed config) id))
                (mix_seed (add64 (cc_seed config) id)) (cc_storage_write_latency config)
                (cc_storage_flush_latency config) in
  match im_nodes c !! id with
  | Some _ => inl "failed to register cluster node"
  | None =>
      let c1 := put_runtime c id node in
      let '(registered, s1) := register_node (im_simulator c1) id in
      if negb registered then inl "failed to register cluster node"
      else
        let c2 := sync_simulator_trace (set_simulator c1 s1) in
        match encode_wal_file_header identity with
        | inl error => inl (we_what error)
        | inr header =>
            let '(stored, s2) := initialize_storage (im_simulator c2) id header in
            if negb stored then inl "simulated storage cannot hold the WAL file header"
            else
              let c3 := sync_simulator_trace (set_simulator c2 s2) in
              match scan_wal_bytes (stable_bytes (im_simulator c3) id) identity (cc_wal config) with
              | inl error => inl (we_what error)
              | inr scanned =>
                  match RaftNode_new raft_config (recovered_from (sc_state scanned)) with
                  | Throws e => inl (exn_what e)
                  | Returns raft =>
                      inr (put_runtime c3 id
                             (set_raft (set_wal_state node (sc_state scanned)) (Some raft)))
                  end
              end
        end
  end.

Fixpoint initialize_nodes (c : Impl) (ids : list NodeId) : Throw Impl :=
  match ids with
  | [] => inr c
  | id :: ids => c1 <== initialize_node c id; initialize_nodes c1 ids
  end.

(** [enqueue_effects(id, node.raft->start())] for one node. *)
Definition start_node (c : Impl) (id : NodeId) : Throw Impl :=
  match runtime c id with
  | None => inr c
  | Some node =>
      match rt_raft node with
      | None => inr c
      | Some raft =>
          match start raft with
          | Throws e => inl (exn_what e)
          | Returns (_, raft', effects) =>
              enqueue_effects (put_runtime c id (set_raft node (Some raft'))) id effects
          end
      end
  end.

Fixpoint start_nodes (c : Impl) (ids : list NodeId) : Throw Impl :=
  match ids with
  | [] => inr c
  | id :: ids => c1 <== start_node c id; start_nodes c1 ids
  end.

Definition initialize (c : Impl) : Throw Impl :=
  let c0 := set_config c (sorted_config (im_config c)) in
  match config_error (im_config c0) with
  | Some what => inl what
  | None =>
      c1 <== initialize_nodes c0 (cc_members (im_config c0));
      c2 <== start_nodes c1 (sorted_items (im_nodes c1)).*1;
      verify_if_enabled c2
  end.

Definition DeterministicCluster_new (config : ClusterConfig) : Throw Impl :=
  initialize (Impl_new config).

(** ** The event loop *)

(** The branches of [DeterministicCluster::step]. *)
Definition step_timer (c : Impl) (timer : TimerEvent) : Throw Impl :=
  match runtime c (te_node timer) with
  | None => inr c
  | Some node =>
      match rt_raft node with
      | None => inr c
      | Some raft =>
          let stale :=
            inr (record c source_adapter "timer_mapping_stale" (te_node timer) 0
                   (term_for c (te_node timer)) 0 (te_generation timer) 0 "") in
          match timer_binding node (te_kind timer) with
          | None => stale
          | Some binding =>
              if (tb_simulator_generation binding =? te_generation timer) &&
                 (tb_incarnation binding =? te_incarnation timer) then
                let c1 := put_runtime c (te_node timer)
                            (set_timer_binding node (te_kind timer) None) in
                let c2 := record c1 source_adapter "timer_deliver" (te_node timer) 0
                            (current_term (hard_state_ raft)) 0 (tb_raft_generation binding) 0 "" in
                deliver c2 (te_node timer) (TimerFired (te_kind timer) (tb_raft_generation binding))
              else stale
          end
      end
  end.

Definition step_network (c : Impl) (network : NetworkEvent) : Throw Impl :=
  match decode_message (ne_bytes network) (cc_codec (im_config c)) with
  | failure error _ =>
      inr (record c source_adapter "codec_decode_failed" (ne_to network) (ne_from network)
             (term_for c (ne_to network)) 0 (ne_delivery_id network) (blen (ne_bytes network))
             (Codec.to_string error))
  | success decoded =>
      let c1 := record c source_adapter "protocol_deliver" (ne_to network) (ne_from network)
                  (term_for c (ne_to network)) 0 (ne_delivery_id network)
                  (blen (ne_bytes network)) "" in
      deliver c1 (ne_to network)
        (MessageReceived (mkMessageEnvelope (ne_from network) (ne_to network) decoded))
  end.

Definition step_payload (c : Impl) (payload : EventPayload) : Throw Impl :=
  match payload with
  | PTimer timer => step_timer c timer
  | PNetwork network => step_network c network
  | PStorage storage => handle_storage_event c storage
  | PUser user =>
      inr (record c source_adapter "user_event" (ue_node user) 0 (term_for c (ue_node user)) 0
             (ue_tag user) (blen (ue_bytes user)) "")
  end.

Definition cluster_step (c : Impl) : Throw (bool * Impl) :=
  let '(scheduled, s) := next (im_simulator c) in
  let c1 := sync_simulator_trace (set_simulator c s) in
  match scheduled with
  | None => inr (false, c1)
  | Some event =>
      c2 <== step_payload c1 (ev_payload event);
      c3 <== verify_if_enabled (sync_simulator_trace c2);
      inr (true, c3)
  end.

Fixpoint cluster_run (max_events : nat) (c : Impl) : Throw (N * Impl) :=
  match max_events with
  | O => inr (0, c)
  | S n =>
      r <== cluster_step c;
      if negb r.1 then inr (0, r.2)
      else (r1 <== cluster_run n r.2; inr (r1.1 + 1, r1.2))
  end.

(** The [for] loop of [run_until], after the test before it. *)
Fixpoint run_until_loop (predicate : Impl -> bool) (max_events : nat) (c : Impl)
  : Throw (bool * Impl) :=
  match max_events with
  | O => inr (predicate c, c)
  | S n =>
      r <== cluster_step c;
      if negb r.1 then inr (predicate r.2, r.2)
      else if predicate r.2 then inr (true, r.2)
      else run_until_loop predicate n r.2
  end.

Definition run_until (predicate : Impl -> bool) (max_events : N) (c : Impl) : Throw (bool * Impl) :=
  if predicate c then inr (true, c) else run_until_loop predicate (N.to_nat max_events) c.

(** ** Observers *)

Definition snapshot (c : Impl) (node : NodeId) : option NodeSnapshot :=
  make_snapshot c node <$> runtime c node.

Definition snapshots (c : Impl) : list NodeSnapshot := omap (snapshot c) (cc_members (im_config c)).

Definition leaders (c : Impl) (require_ready : bool) : list NodeId :=
  (filter (fun p : NodeId * NodeRuntime =>
     match rt_raft p.2 with
     | Some raft => is_alive (im_simulator c) p.1 && bool_decide (role_ raft = leader) &&
                    (negb require_ready || leader_ready_ raft)
     | None => false
     end = true) (sorted_items (im_nodes c))).*1.

Definition the_leader (c : Impl) (require_ready : bool) : option NodeId :=
  match leaders c require_ready with [id] => Some id | _ => None end.

Definition run_until_leader (max_events : N) (require_ready : bool) (c : Impl)
  : Throw (option NodeId * Impl) :=
  r <== run_until (fun c => negb (is_none (the_leader c require_ready))) max_events c;
  inr (the_leader r.2 require_ready, r.2).

Definition reply_for (c : Impl) (token : ClientToken) : option ClientReply :=
  List.find (fun r => cr_token r =? token) (reverse (rp_client_replies (im_reports c))).

Definition run_until_reply (token : ClientToken) (max_events : N) (c : Impl) : Throw (bool * Impl) :=
  run_until (fun c => negb (is_none (reply_for c token))) max_events c.

Definition take_replies (c : Impl) : list ClientReply * Impl :=
  (rp_client_replies (im_reports c),
   set_replies c [] (rp_reply_retention_saturated (im_reports c))).

(** The loop of [queue_depth]: the sum saturates. *)
Definition add_pending (c : Impl) (total : N) (node : NodeId) : N :=
  let pending := pending_storage_bytes (im_simulator c) node in
  if u64_max - total <? pending then u64_max else total + pending.

Definition queue_depth (c : Impl) : ClusterQueueDepth :=
  mkClusterQueueDepth (pending_events (im_simulator c)) (queued_network_bytes (im_simulator c))
    (foldl (add_pending c) 0 (cc_members (im_config c))).

Definition stable_state (c : Impl) (node : NodeId) : option RecoveredState :=
  (fun n => recovered_from (rt_wal_state n)) <$> runtime c node.

Definition cluster_value (c : Impl) (node : NodeId) (key : string) : option string :=
  match runtime c node with
  | Some found =>
      match rt_raft found with
      | Some raft => if is_alive (im_simulator c) node then value_for_test (state_machine_ raft) key
                     else None
      | None => None
      end
  | None => None
  end.

Definition committed_entry (c : Impl) (index : LogIndex) : option LogEntry :=
  ob_committed_ghost (im_observer c) !! index.

Definition command_is_committed (c : Impl) (session : SessionId) (sequence : N) : bool :=
  existsb (fun p : LogIndex * LogEntry =>
    match command p.2 with
    | Some cmd => bool_decide (Model.session cmd = session) && (Model.sequence cmd =? sequence)
    | None => false
    end) (sorted_items (ob_committed_ghost (im_observer c))).

Definition cluster_trace_jsonl (c : Impl) : string :=
  render_cluster_jsonl (rp_semantic_trace (im_reports c)).

(** ** Client requests *)

Definition submit (c : Impl) (node : NodeId) (cmd : ClientCommand) : Throw (ClientToken * Impl) :=
  let r := im_reports c in
  let token := rp_next_client_token r in
  if token =? 0 then inl "client token space is exhausted"
  else
    let c1 := set_reports c (mkReports (add64 token 1) (rp_client_replies r) (rp_semantic_trace r)
                (rp_semantic_trace_truncated r) (rp_reply_retention_saturated r)
                (rp_simulator_trace_offset r) (rp_next_trace_sequence r)) in
    let c2 := record c1 source_adapter "client_submit" node 0 (term_for c1 node) 0 token
                (add64 (string_size (key cmd)) (string_size (value cmd))) "" in
    let down :=
      let c3 := retain_reply c2 (mkClientReply token status_unavailable None 0 EmptyString) node in
      inr (record c3 source_adapter "client_reply" node 0 (term_for c3 node) 0 token 0 "unavailable") in
    c4 <== match runtime c2 node with
           | None => down
           | Some found =>
               match rt_raft found with
               | None => down
               | Some _ => if negb (is_alive (im_simulator c2) node) then down
                           else deliver c2 node (ClientRequest token cmd)
               end
           end;
    c5 <== verify_if_enabled c4;
    inr (token, c5).

Definition submit_to_leader (c : Impl) (cmd : ClientCommand) (require_ready : bool)
  : Throw (option ClientToken * Impl) :=
  match the_leader c require_ready with
  | None => inr (None, c)
  | Some target => r <== submit c target cmd; inr (Some r.1, r.2)
  end.

(** ** Faults *)

Definition crash (c : Impl) (node : NodeId) (storage : StorageCrashSpec) : Throw (bool * Impl) :=
  match runtime c node with
  | None => inr (false, c)
  | Some found =>
      match rt_raft found with
      | None => inr (false, c)
      | Some _ =>
          let '(crashed, s) := crash_node (im_simulator c) node storage in
          if negb crashed then inr (false, set_simulator c s)
          else
            let c1 := sync_simulator_trace (set_simulator c s) in
            let c2 := put_runtime c1 node (set_timers (set_raft found None) None None) in
            let c3 := set_pending_persists c2
                        (filter (fun p => pp_node p.2 <> node) (im_pending_persists c2)) in
            let w := rt_wal_state found in
            let c4 := record c3 source_adapter "process_crash" node 0
                        (current_term (ws_hard_state w)) (ws_commit_index w) 0 0 "" in
            c5 <== verify_if_enabled c4;
            inr (true, c5)
      end
  end.

(** The restart of a node whose log is recovered and whose device is up. *)
Definition boot_node (c : Impl) (node : NodeId) : Throw (bool * Impl) :=
  match runtime c node with
  | None => inr (false, c)
  | Some found =>
      match RaftNode_new (rt_raft_config found) (recovered_from (rt_wal_state found)) with
      | Throws e => inl (exn_what e)
      | Returns raft =>
          let c1 := put_runtime c node (set_raft found (Some raft)) in
          let c2 := record c1 source_adapter "process_restart" node 0
                      (current_term (hard_state_ raft)) (commit_index_ raft) 0 0 "" in
          c3 <== start_node c2 node;
          c4 <== verify_if_enabled c3;
          inr (true, c4)
      end
  end.

Definition restart (c : Impl) (node : NodeId) : Throw (bool * Impl) :=
  match runtime c node with
  | None => inr (false, c)
  | Some found =>
      if negb (is_none (rt_raft found)) || is_alive (im_simulator c) node then inr (false, c)
      else
        let '(recovered, c1) := recover_node c node found true in
        if negb recovered then inr (false, c1)
        else
          let '(restarted, s) := restart_node (im_simulator c1) node in
          if negb restarted then inr (false, set_simulator c1 s)
          else boot_node (sync_simulator_trace (set_simulator c1 s)) node
  end.

(** The common shape of the calls that change the simulator only. *)
Definition forward (c : Impl) (r : bool * Simulator) : Throw (bool * Impl) :=
  let c1 := sync_simulator_trace (set_simulator c r.2) in
  if r.1 then (c2 <== verify_if_enabled c1; inr (true, c2)) else inr (false, c1).

Definition cluster_set_partition (c : Impl) (from to : NodeId) (partitioned : bool) :=
  forward c (set_partition (im_simulator c) from to partitioned).
Definition cluster_set_link_delay (c : Impl) (from to : NodeId) (delay : Tick) :=
  forward c (set_link_delay (im_simulator c) from to delay).
Definition cluster_drop_next (c : Impl) (from to : NodeId) (count : N) :=
  forward c (drop_next (im_simulator c) from to count).
Definition cluster_duplicate_next (c : Impl) (from to : NodeId) (extra_copies : N) :=
  forward c (duplicate_next (im_simulator c) from to extra_copies).
Definition fail_next_storage_write (c : Impl) (node : NodeId) :=
  forward c (fail_next_write (im_simulator c) node).
Definition cluster_short_write_next (c : Impl) (node : NodeId) (prefix_bytes : N) :=
  forward c (short_write_next (im_simulator c) node prefix_bytes).
Definition fail_next_storage_flush (c : Impl) (node : NodeId) :=
  forward c (fail_next_flush (im_simulator c) node).

Definition set_bidirectional_partition (c : Impl) (first second : NodeId) (partitioned : bool)
  : Throw (bool * Impl) :=
  r <== cluster_set_partition c first second partitioned;
  if negb r.1 then inr (false, r.2) else cluster_set_partition r.2 second first partitioned.

Fixpoint isolate_from (c : Impl) (node : NodeId) (partitioned : bool) (peers : list NodeId)
  : Throw (bool * Impl) :=
  match peers with
  | [] => inr (true, c)
  | peer :: peers =>
      if peer =? node then isolate_from c node partitioned peers
      else
        r <== set_bidirectional_partition c node peer partitioned;
        if negb r.1 then inr (false, r.2) else isolate_from r.2 node partitioned peers
  end.

Definition isolate (c : Impl) (node : NodeId) (partitioned : bool) : Throw (bool * Impl) :=
  match runtime c node with
  | None => inr (false, c)
  | Some _ => isolate_from c node partitioned (cc_members (im_config c))
  end.

Definition set_storage_latency (c : Impl) (node : NodeId) (write_ticks flush_ticks : Tick)
  : Throw (bool * Impl) :=
  match runtime c node with
  | None => inr (false, c)
  | Some found =>
      match rt_raft found with
      | None => inr (false, c)
      | Some raft =>
          if negb (is_alive (im_simulator c) node) then inr (false, c)
          else
            let c1 := put_runtime c node (set_latencies found write_ticks flush_ticks) in
            let c2 := record c1 source_adapter "storage_latency_set" node 0
                        (current_term (hard_state_ raft)) 0 write_ticks 0
                        ("write_ticks=" +:+ dec write_ticks +:+ " flush_ticks=" +:+ dec flush_ticks) in
            c3 <== verify_if_enabled c2;
            inr (true, c3)
      end
  end.
End effects.

(** ** Scenarios *)

(** The calls a scenario is made of. *)
Inductive ClusterCall :=
  | do_step
  | do_submit (node : NodeId) (cmd : ClientCommand)
  | do_crash (node : NodeId) (storage : StorageCrashSpec)
  | do_restart (node : NodeId)
  | do_partition (from to : NodeId) (partitioned : bool)
  | do_link_delay (from to : NodeId) (delay : Tick)
  | do_drop (from to : NodeId) (count : N)
  | do_duplicate (from to : NodeId) (extra_copies : N)
  | do_latency (node : NodeId) (write_ticks flush_ticks : Tick)
  | do_fail_write (node : NodeId)
  | do_short_write (node : NodeId) (prefix_bytes : N)
  | do_fail_flush (node : NodeId)
  | do_take_replies
  | do_check.

Section scenarios.
Context `{HeapLib}.

Definition cluster_call (c : Impl) (a : ClusterCall) : Throw Impl :=
  let state {A} (r : Throw (A * Impl)) : Throw Impl := (x <== r; inr x.2) in
  match a with
  | do_step => state (cluster_step c)
  | do_submit n cmd => state (submit c n cmd)
  | do_crash n storage => state (crash c n storage)
  | do_restart n => state (restart c n)
  | do_partition f t b => state (cluster_set_partition c f t b)
  | do_link_delay f t d => state (cluster_set_link_delay c f t d)
  | do_drop f t k => state (cluster_drop_next c f t k)
  | do_duplicate f t k => state (cluster_duplicate_next c f t k)
  | do_latency n w f => state (set_storage_latency c n w f)
  | do_fail_write n => state (fail_next_storage_write c n)
  | do_short_write n k => state (cluster_short_write_next c n k)
  | do_fail_flush n => state (fail_next_storage_flush c n)
  | do_take_replies => inr (take_replies c).2
  | do_check => inr (check_invariants c).2
  end.

Fixpoint cluster_calls (c : Impl) (l : list ClusterCall) : Throw Impl :=
  match l with
  | [] => inr c
  | a :: l => c1 <== cluster_call c a; cluster_calls c1 l
  end.
End scenarios.
