(* ===== verification/HarnessSim.v ===== *)
(** * HarnessSim: what the simulator calls of the cluster change

    For each simulator call the cluster makes: the devices, lives and incarnations
    it leaves, and the messages that are on the wire afterwards. *)

From stdpp Require Import relations.
From S2P Require Import Prelude Model StateMachine RaftTypes RaftSpec Bytes.
From S2P Require Import SimQueue Simulator SimSpec SimNetwork SimStorage SimDelivery SimTheorems.
#[local] Open Scope N_scope.

(** The part of a node's state that outlives timers and fault requests. *)
Record Body := mkBody {
  bd_alive : bool;
  bd_incarnation : N;
  bd_stable : list N;
  bd_unstable : list N;
  bd_pending : gmap N PendingStorageOperation;
}.

Definition body (st : NodeState) : Body :=
  mkBody (ns_alive st) (ns_incarnation st) (sd_stable (ns_storage st)) (sd_unstable (ns_storage st))
    (sd_pending (ns_storage st)).

Definition body_at (s : Simulator) (n : NodeId) : option Body := body <$> sim_nodes s !! n.

(** A message on the wire. *)
Definition on_wire (s : Simulator) (m : NetworkEvent) : Prop :=
  exists e, e ∈ q_heap (sim_events s) /\ ev_payload e = PNetwork m.

(** The wire has lost messages at most. *)
Definition wire_le (s s' : Simulator) : Prop := forall m, on_wire s' m -> on_wire s m.

(** Nothing but timers, fault requests and links has changed. *)
Definition still (s s' : Simulator) : Prop :=
  (forall n, body_at s' n = body_at s n) /\ wire_le s s' /\ sim_next_storage_id s' = sim_next_storage_id s.

Lemma still_refl s : still s s.
Proof. by split_and!; [| intros m|]. Qed.
#[local] Hint Resolve still_refl : core.

Lemma still_nodes s s' :
  sim_nodes s' = sim_nodes s -> sim_events s' = sim_events s ->
  sim_next_storage_id s' = sim_next_storage_id s -> still s s'.
Proof.
  intros Hn He Hi. split_and!; [intros n; unfold body_at; by rewrite Hn|intros m; unfold on_wire; by rewrite He|done].
Qed.

Lemma body_put s n st m : body_at (put_node s n st) m = if decide (m = n) then Some (body st) else body_at s m.
Proof.
  unfold body_at. simpl. case_decide as E; [by rewrite E, lookup_insert_eq|by rewrite lookup_insert_ne].
Qed.

Lemma body_record s k n p t i b d m : body_at (record s k n p t i b d) m = body_at s m.
Proof. unfold body_at. by rewrite (ce_nodes _ _ (record_core s k n p t i b d)). Qed.

Lemma record_events s k n p t i b d : sim_events (record s k n p t i b d) = sim_events s.
Proof. apply record_core. Qed.

Lemma record_storage_id s k n p t i b d :
  sim_next_storage_id (record s k n p t i b d) = sim_next_storage_id s.
Proof. apply record_core. Qed.

Lemma record_nodes s k n p t i b d : sim_nodes (record s k n p t i b d) = sim_nodes s.
Proof. apply record_core. Qed.

Section added.
Context (s s' : Simulator) (e : ScheduledEvent).

(** A new event that is no message leaves the wire as it is. *)
Lemma added_wire :
  q_added (sim_events s) (sim_events s') e -> (forall m, ev_payload e <> PNetwork m) -> wire_le s s'.
Proof.
  intros [] Hne m (x & Hx & Hm). rewrite qa_heap in Hx. apply elem_of_cons in Hx as [->|Hx]; [by apply Hne in Hm|].
  by exists x.
Qed.
End added.

Section frames.
Context `{HeapLaws}.

Lemma set_fault_still s f t g tok d : still s (set_fault s f t g tok d).2.
Proof. apply still_nodes; simpl; by rewrite ?record_nodes, ?record_events, ?record_storage_id. Qed.

Lemma fault_request_still s n f b d :
  (forall x, sd_stable (f x) = sd_stable x /\ sd_unstable (f x) = sd_unstable x /\
             sd_pending (f x) = sd_pending x) -> still s (fault_request s n f b d).2.
Proof.
  intros Hf. unfold fault_request. destruct (sim_nodes s !! n) as [st|] eqn:E; [|by auto].
  destruct (ns_alive st) eqn:Ha; simpl; [|by auto]. destruct (Hf (ns_storage st)) as (H1 & H2 & H3).
  split_and!; [|intros m; unfold on_wire; by rewrite record_events|by rewrite record_storage_id].
  intros m. rewrite body_record, body_put. case_decide as Em; [|done]. subst m.
  unfold body_at. rewrite E. simpl. unfold body. simpl. by rewrite H1, H2, H3.
Qed.

Lemma arm_still s n k d : queue_ok (sim_events s) -> still s (arm_timer s n k d).2.
Proof.
  intros Hq. unfold arm_timer. destruct (sim_nodes s !! n) as [st|] eqn:E; [|by auto].
  destruct (ns_alive st) eqn:Ha; simpl; [|by auto].
  destruct (schedule_after _ _ _) as [r q] eqn:Es.
  pose proof (schedule_after_added _ _ _ _ _ Hq Es) as Hadd. destruct (sched_ok r); simpl.
  - destruct Hadd as [time Hadd]. split_and!.
    + intros m. rewrite body_record, body_put. case_decide as Em; [|done]. subst m.
      unfold body_at. rewrite E. by destruct k.
    + eapply added_wire; [rewrite record_events; exact Hadd|done].
    + by rewrite record_storage_id.
  - subst q. by apply still_nodes.
Qed.

(** A send puts copies of one message on the wire. *)
Lemma send_frame s f t bytes delay :
  sim_inv s ->
  let s' := (send s f t bytes delay).2 in
  (forall n, body_at s' n = body_at s n) /\ sim_next_storage_id s' = sim_next_storage_id s /\
  forall m, on_wire s' m -> on_wire s m \/ (ne_from m = f /\ ne_to m = t /\ ne_bytes m = bytes).
Proof.
  intros Hi. pose proof (sim_inv_queue _ Hi) as Hq. pose proof Hi as [Hst _].
  assert (Hquiet : forall s', still s s' -> (forall n, body_at s' n = body_at s n) /\
    sim_next_storage_id s' = sim_next_storage_id s /\
    forall m, on_wire s' m -> on_wire s m \/ (ne_from m = f /\ ne_to m = t /\ ne_bytes m = bytes)).
  { intros s' (Hb & Hw & Hn). split_and!; [done..|]. intros m Hm. left. by apply Hw. }
  unfold send. destruct (sim_nodes s !! f) as [source|] eqn:Ef; [|by apply Hquiet; auto].
  destruct (sim_nodes s !! t) as [target|] eqn:Et; [|by apply Hquiet; auto].
  destruct (_ || _); [by apply Hquiet; auto|]. destruct (_ <? blen bytes); [by apply Hquiet; auto|].
  assert (Hl : still s (put_link s f t (link s f t))) by by apply still_nodes.
  destruct (lf_partitioned _); [apply Hquiet, still_nodes; simpl; by rewrite ?record_nodes, ?record_events, ?record_storage_id|].
  destruct (negb _); simpl; [apply Hquiet, still_nodes; simpl; by rewrite ?record_nodes, ?record_events, ?record_storage_id|].
  destruct (_ <? lf_extra_copies_next _); [by apply Hquiet; auto|].
  destruct (size_multiply_overflows _ _) eqn:Hmo; [by apply Hquiet; auto|].
  destruct (add_overflows _ _ || _) eqn:Hov; [by apply Hquiet; auto|].
  destruct (send_saturated _ _ _); [apply Hquiet, still_nodes; simpl; by rewrite ?record_nodes, ?record_events, ?record_storage_id|].
  destruct (can_schedule _ _) eqn:Hc; simpl;
    [|apply Hquiet, still_nodes; simpl; by rewrite ?record_nodes, ?record_events, ?record_storage_id].
  destruct (_ =? 0); [by apply Hquiet; auto|]. unfold enqueue_copies. simpl.
  apply orb_false_iff in Hov as [Hov1 Hov2]. unfold add_overflows in Hov1, Hov2.
  apply N.ltb_ge in Hov1, Hov2. pose proof (qo_now _ Hq) as Hnow.
  rewrite (add64_small (q_now (sim_events s)) delay) in Hov2 |- * by lia.
  rewrite (add64_small (_ + delay)) by lia.
  match goal with |- context [schedule_copies _ ?time ?e 0 ?n] =>
    destruct (schedule_copies_spec n (sim_events s) time e 0 Hq ltac:(lia) ltac:(lia)) as (H1 & H2 & H3 & H4) end.
  { rewrite N2Nat.id. by apply can_schedule_room. }
  split_and!; [intros n; by rewrite body_record|by rewrite record_storage_id|].
  intros m (x & Hx & Hm). rewrite record_events in Hx. simpl in Hx. rewrite H4 in Hx.
  apply elem_of_app in Hx as [Hx|Hx]; [right|left; by exists x].
  apply list_elem_of_fmap in Hx as (j & -> & _). simpl in Hm. by injection Hm as <-.
Qed.

(** An operation on the device of [n]: the only body that changes is that of [n]. *)
Definition moves (s s' : Simulator) (n : NodeId) (b : Body) : Prop :=
  (forall m, body_at s' m = if decide (m = n) then Some b else body_at s m) /\ wire_le s s'.

(** The device of [n] has accepted operation [id]. *)
Record accepts_op (s s' : Simulator) (n : NodeId) (id : StorageOpId) (op : PendingStorageOperation)
  : Prop := {
  ao_node : exists st, sim_nodes s !! n = Some st /\ ns_alive st = true /\
    moves s s' n (mkBody true (ns_incarnation st) (sd_stable (ns_storage st)) (sd_unstable (ns_storage st))
                    (<[id := op]> (sd_pending (ns_storage st))));
  ao_id : id = sim_next_storage_id s /\ id <> 0;
  ao_next : sim_next_storage_id s' = next_id id;
}.

Lemma submitted_moves s s1 n st d' k t i b det :
  sim_nodes s !! n = Some st -> ns_alive st = true ->
  q_added (sim_events s) (sim_events s1) t -> (forall m, ev_payload t <> PNetwork m) ->
  sim_nodes s1 = sim_nodes s ->
  moves s (record (put_node s1 n (set_device st d')) k n 0 i (ns_incarnation st) b det) n
    (mkBody true (ns_incarnation st) (sd_stable d') (sd_unstable d') (sd_pending d')).
Proof using.
  intros E Ha Hadd Hne Hn. split.
  - intros m. rewrite body_record, body_put. case_decide; [by rewrite <- Ha|].
    unfold body_at. by rewrite Hn.
  - eapply added_wire; [rewrite record_events; exact Hadd|done].
Qed.

Lemma write_frame s n bytes latency r s' :
  sim_inv s -> submit_write s n bytes latency = (r, s') ->
  match sub_status r with
  | submit_queued => exists op, accepts_op s s' n (sub_operation_id r) op /\ po_kind op = op_write /\
      po_bytes op = bytes /\
      (if decide (po_completion_status op = completed_ok)
       then po_actual_write_bytes op = blen bytes
       else po_actual_write_bytes op < blen bytes \/ bytes = [])
  | _ => still s s'
  end.
Proof.
  intros Hi. pose proof (sim_inv_queue _ Hi) as Hq. pose proof Hi as [Hst _]. unfold submit_write.
  destruct (sim_nodes s !! n) as [st|] eqn:E; [|intros [= <- <-]; apply still_refl].
  pose proof (sv_devices _ Hst _ _ E) as Hd.
  destruct (ns_alive st) eqn:Ha; simpl; [|intros [= <- <-]; apply still_refl].
  assert (Hrec : forall k p t i b d, still s (record s k n p t i b d)).
  { intros. apply still_nodes; by rewrite ?record_nodes, ?record_events, ?record_storage_id. }
  destruct (_ <? blen bytes); [intros [= <- <-]; apply still_refl|].
  destruct (_ || _); [intros [= <- <-]; apply Hrec|].
  destruct (file_full _ _ _); [intros [= <- <-]; apply Hrec|].
  destruct (add_overflows _ _) eqn:Hov; [intros [= <- <-]; apply still_refl|].
  destruct (can_schedule _ _) eqn:Hc; simpl; [|intros [= <- <-]; apply still_refl].
  destruct (N.eqb_spec (sim_next_storage_id s) 0) as [Hz|Hz]; [intros [= <- <-]; apply still_refl|].
  destruct (write_outcome (ns_storage st) (blen bytes)) as [status actual] eqn:Hw.
  destruct (schedule_at _ _ _) as [sr q] eqn:Hs. simpl in Hs.
  destruct (start_bound s st _ latency Hq Hov eq_refl (do_clock _ _ _ Hd)) as (Ht & _ & Hnow).
  destruct (submit_accepts _ _ _ _ _ Hq Hc Ht Hnow Hs) as [Hok Hadd]. rewrite Hok. simpl.
  intros [= <- <-]. simpl.
  exists (mkPendingStorageOperation op_write bytes status actual
            (add64 (storage_start s (ns_storage st)) latency) (sched_sequence sr)).
  split_and!; [|reflexivity|reflexivity|].
  - split; [|by split|by rewrite record_storage_id].
    exists st. split_and!; [done|done|].
    by eapply (submitted_moves s (set_events (set_next_storage_id s _) q) n st
      (mkStorageDevice _ _ _ _ _ _ _ _)).
  - simpl. unfold write_outcome in Hw.
    destruct (sd_fail_next_write _); [injection Hw as <- <-|destruct (sd_short_write_prefix _); injection Hw as <- <-].
    + simpl. destruct bytes; [by right|left]. unfold blen. simpl. lia.
    + simpl. destruct bytes; [by right|left]. unfold blen. simpl length.
      destruct (N.eqb_spec (N.of_nat (S (length bytes))) 0); lia.
    + done.
Qed.

Lemma flush_frame s n latency r s' :
  sim_inv s -> submit_flush s n latency = (r, s') ->
  match sub_status r with
  | submit_queued => exists op, accepts_op s s' n (sub_operation_id r) op /\ po_kind op = op_flush /\
      po_bytes op = []
  | _ => still s s'
  end.
Proof.
  intros Hi. pose proof (sim_inv_queue _ Hi) as Hq. pose proof Hi as [Hst _]. unfold submit_flush.
  destruct (sim_nodes s !! n) as [st|] eqn:E; [|intros [= <- <-]; apply still_refl].
  pose proof (sv_devices _ Hst _ _ E) as Hd.
  destruct (ns_alive st) eqn:Ha; simpl; [|intros [= <- <-]; apply still_refl].
  destruct (_ <=? _).
  { intros [= <- <-]. apply still_nodes; by rewrite ?record_nodes, ?record_events, ?record_storage_id. }
  destruct (add_overflows _ _) eqn:Hov; [intros [= <- <-]; apply still_refl|].
  destruct (can_schedule _ _) eqn:Hc; simpl; [|intros [= <- <-]; apply still_refl].
  destruct (N.eqb_spec (sim_next_storage_id s) 0) as [Hz|Hz]; [intros [= <- <-]; apply still_refl|].
  destruct (schedule_at _ _ _) as [sr q] eqn:Hs. simpl in Hs.
  destruct (start_bound s st _ latency Hq Hov eq_refl (do_clock _ _ _ Hd)) as (Ht & _ & Hnow).
  destruct (submit_accepts _ _ _ _ _ Hq Hc Ht Hnow Hs) as [Hok Hadd]. rewrite Hok. simpl.
  intros [= <- <-]. simpl.
  exists (mkPendingStorageOperation op_flush [] (if sd_fail_next_flush (ns_storage st)
            then completed_io_error else completed_ok) 0
            (add64 (storage_start s (ns_storage st)) latency) (sched_sequence sr)).
  split_and!; [|reflexivity|reflexivity].
  split; [|by split|by rewrite record_storage_id].
  exists st. split_and!; [done|done|].
  by eapply (submitted_moves s (set_events (set_next_storage_id s _) q) n st
    (mkStorageDevice _ _ _ _ _ _ _ _)).
Qed.

Lemma record_cancelled_frame l s n inc :
  sim_nodes (record_cancelled s n inc l) = sim_nodes s /\
  sim_events (record_cancelled s n inc l) = sim_events s /\
  sim_next_storage_id (record_cancelled s n inc l) = sim_next_storage_id s.
Proof using.
  destruct (fold_cancelled s n inc l) as [_ He Hn _ _ _ Hi]. rewrite He, Hn, Hi.
  destruct (fold_release_kept l s) as [-> ->]. by destruct (queued_shrinks l s) as (_ & _ & _ & ->).
Qed.

Lemma crash_frame s n crash b s' :
  sim_inv s -> crash_node s n crash = (b, s') ->
  if b then exists st k, sim_nodes s !! n = Some st /\ ns_alive st = true /\
    sim_next_storage_id s' = sim_next_storage_id s /\
    moves s s' n (mkBody false (ns_incarnation st)
      (sd_stable (ns_storage st) ++ take k (sd_unstable (ns_storage st) ++ active_bytes (ns_storage st))) [] ∅)
  else s' = s.
Proof.
  intros Hi. pose proof (sim_inv_queue _ Hi) as Hq. unfold crash_node.
  destruct (sim_nodes s !! n) as [st|] eqn:E; [|by intros [= <- <-]].
  destruct (ns_alive st) eqn:Ha; cbn [negb]; [|by intros [= <- <-]]. cbv zeta.
  fold (crashed_node st crash (q_now (sim_events s))).
  set (s1 := put_node s n (crashed_node st crash (q_now (sim_events s)))).
  pose proof (extract_if_spec (sim_events s1) (cancelled_by_crash s1 n) Hq) as Hx.
  destruct (extract_if (sim_events s1) (cancelled_by_crash s1 n)) as [cs q].
  destruct Hx as (_ & _ & _ & _ & _ & Hk & _). intros [= <- <-].
  destruct (crash_prefix (ns_storage st) crash (q_now (sim_events s))) as [k Hpre].
  destruct (record_cancelled_frame cs (set_events s1 q) n (ns_incarnation st)) as (Hn & He & Hid).
  exists st, k. split_and!; [done|done|rewrite !record_storage_id; apply Hid|]. rewrite <- Hpre. split.
  - intros m. rewrite !body_record. unfold body_at at 1. rewrite Hn. simpl.
    case_decide as Em; [by rewrite Em, lookup_insert_eq|by rewrite lookup_insert_ne].
  - intros m (x & Hx & Hm). rewrite !record_events, He in Hx. simpl in Hx. rewrite Hk in Hx.
    apply list_elem_of_filter in Hx as [_ Hx]. by exists x.
Qed.

Lemma restart_frame s n b s' :
  restart_node s n = (b, s') ->
  if b then exists st, sim_nodes s !! n = Some st /\ ns_alive st = false /\
    sim_next_storage_id s' = sim_next_storage_id s /\
    moves s s' n (mkBody true (add64 (ns_incarnation st) 1) (sd_stable (ns_storage st))
      (sd_unstable (ns_storage st)) (sd_pending (ns_storage st)))
  else s' = s.
Proof using.
  unfold restart_node. destruct (sim_nodes s !! n) as [st|] eqn:E; [|by intros [= <- <-]].
  destruct (ns_alive st) eqn:Ha; simpl; [by intros [= <- <-]|].
  destruct (_ =? _); [by intros [= <- <-]|]. intros [= <- <-].
  exists st. split_and!; [done|done|by rewrite record_storage_id|]. split.
  - intros m. by rewrite body_record, body_put.
  - intros m. unfold on_wire. by rewrite record_events.
Qed.

Lemma truncate_frame s n v b s' :
  truncate_stable_storage s n v = (b, s') ->
  if b then exists st, sim_nodes s !! n = Some st /\ ns_alive st = false /\
    sim_next_storage_id s' = sim_next_storage_id s /\
    moves s s' n (mkBody false (ns_incarnation st) (take (N.to_nat v) (sd_stable (ns_storage st)))
      (sd_unstable (ns_storage st)) (sd_pending (ns_storage st)))
  else s' = s.
Proof using.
  unfold truncate_stable_storage. destruct (sim_nodes s !! n) as [st|] eqn:E; [|by intros [= <- <-]].
  destruct (ns_alive st) eqn:Ha; simpl; [by intros [= <- <-]|].
  destruct (_ || _); [by intros [= <- <-]|]. intros [= <- <-].
  exists st. split_and!; [done|done|by rewrite record_storage_id|]. split.
  - intros m. rewrite body_record, body_put. unfold body. simpl. by rewrite Ha.
  - intros m. unfold on_wire. by rewrite record_events.
Qed.

Lemma register_frame s n s' :
  register_node s n = (true, s') ->
  sim_nodes s !! n = None /\ sim_next_storage_id s' = sim_next_storage_id s /\
  moves s s' n (mkBody true 1 [] [] ∅).
Proof using.
  unfold register_node. destruct (sim_nodes s !! n) as [st|] eqn:E; [done|]. intros [= <-].
  split_and!; [done|by rewrite record_storage_id|]. split.
  - intros m. by rewrite body_record, body_put.
  - intros m. unfold on_wire. by rewrite record_events.
Qed.

Lemma initialize_frame s n bytes s' :
  initialize_storage s n bytes = (true, s') ->
  exists st, sim_nodes s !! n = Some st /\ ns_alive st = true /\
    sim_next_storage_id s' = sim_next_storage_id s /\
    moves s s' n (mkBody true (ns_incarnation st) bytes (sd_unstable (ns_storage st)) (sd_pending (ns_storage st))).
Proof using.
  unfold initialize_storage. destruct (sim_nodes s !! n) as [st|] eqn:E; [|done].
  destruct (ns_alive st) eqn:Ha; simpl; [|done]. destruct (_ <? _); [done|].
  destruct (_ || _); [done|]. intros [= <-].
  exists st. split_and!; [done|done|by rewrite record_storage_id|]. split.
  - intros m. rewrite body_record, body_put. unfold body. simpl. by rewrite Ha.
  - intros m. unfold on_wire. by rewrite record_events.
Qed.

(** The stale events [next] discards change nothing else. *)
Lemma next_loop_frame fuel s o s' :
  queue_ok (sim_events s) -> next_loop fuel s = (o, s') ->
  exists s1, sim_nodes s1 = sim_nodes s /\ sim_next_storage_id s1 = sim_next_storage_id s /\
    wire_le s s1 /\
    match o with
    | None => s' = s1
    | Some ev => exists e q, q_popped (sim_events s1) q e /\
        dispatch_payload (set_events s1 q) (ev_payload e) = (Some (ev_payload ev), s')
    end.
Proof.
  revert s. induction fuel as [|fuel IH]; intros s Hq Hn; cbn [next_loop] in Hn;
    pose proof (pop_next_spec _ Hq) as Hp; destruct (pop_next (sim_events s)) as [[e|] q] eqn:E;
    try (injection Hn as <- <-; exists s; by split_and!; [..|intros m|]).
  destruct Hp as (P1 & P2 & P3 & P4 & P5 & P6 & _ & _).
  assert (Hpop : q_popped (sim_events s) q e) by (by split).
  destruct (dispatch_payload (set_events s q) (ev_payload e)) as [[p|] s1] eqn:Ed.
  - injection Hn as <- <-. exists s. split_and!; [done|done|by intros m|]. by exists e, q.
  - pose proof (dispatch_events (set_events s q) (ev_payload e)) as He. rewrite Ed in He. simpl in He.
    destruct (dispatch_stale _ _ _ Ed) as [_ (Hnodes & _ & _)].
    destruct (dispatch_kept (set_events s q) (ev_payload e)) as (_ & Hid & _). rewrite Ed in Hid.
    destruct (IH s1) as (s2 & H1 & H2 & H3 & H4); [by rewrite He|done|].
    exists s2. split_and!; [by rewrite H1, Hnodes|by rewrite H2| |done].
    intros m Hm. apply H3 in Hm as (x & Hx & Hm). exists x. split; [|done].
    rewrite He in Hx. rewrite P1. by apply list_elem_of_further.
Qed.

(** [next] consumes events; a delivered message was on the wire, and only a storage
    completion changes a device. *)
Lemma next_frame s o s' :
  sim_inv s -> next s = (o, s') ->
  wire_le s s' /\ sim_next_storage_id s' = sim_next_storage_id s /\
  match o with
  | Some ev =>
      match ev_payload ev with
      | PStorage p => exists st op d', sim_nodes s !! se_node p = Some st /\ ns_alive st = true /\
          sd_pending (ns_storage st) !! se_operation_id p = Some op /\
          complete_operation (ns_storage st) (se_operation_id p) op (now s') = (se_byte_count p, d') /\
          se_status p = po_completion_status op /\
          (forall m, body_at s' m = if decide (m = se_node p) then Some (body (set_device st d')) else body_at s m)
      | PNetwork m => on_wire s m /\ forall n, body_at s' n = body_at s n
      | _ => forall n, body_at s' n = body_at s n
      end
  | None => forall n, body_at s' n = body_at s n
  end.
Proof.
  intros Hi Hnext. pose proof (sim_inv_queue _ Hi) as Hq.
  destruct (next_loop_frame _ _ _ _ Hq Hnext) as (s1 & Hn1 & Hid1 & Hw1 & Hrest).
  assert (Hb1 : forall n, body_at s1 n = body_at s n) by (intros n; unfold body_at; by rewrite Hn1).
  destruct o as [ev|]; [|by subst s'].
  destruct Hrest as (e & q & Hpop & Hd).
  pose proof (dispatch_events (set_events s1 q) (ev_payload e)) as He. rewrite Hd in He. simpl in He.
  destruct (dispatch_kept (set_events s1 q) (ev_payload e)) as (_ & Hid & Hkept).
  rewrite Hd in Hid, Hkept. simpl in *.
  assert (Hwire : forall x, x ∈ q_heap (sim_events s') -> x ∈ q_heap (sim_events s1)).
  { intros x. rewrite He, (qp_heap _ _ _ Hpop). by apply list_elem_of_further. }
  split_and!; [|congruence|].
  { intros m (x & Hx & Hm). apply Hw1. exists x. auto. }
  destruct (dispatch_some _ _ _ _ Hd) as [_ Hsame].
  destruct (ev_payload ev) as [t|m|p|u] eqn:Eev, (ev_payload e) as [t0|m0|p0|u0] eqn:Ee; try done.
  - intros n. rewrite <- Hb1. unfold body_at. by rewrite Hkept.
  - injection Hsame as ->. split; [|intros n; rewrite <- Hb1; unfold body_at; by rewrite Hkept].
    apply Hw1. exists e. split; [|done]. rewrite (qp_heap _ _ _ Hpop). apply list_elem_of_here.
  - destruct (storage_delivery s s' ev p Hi Hnext Eev) as (st & op & d' & Hst & Hf & Hc & _ & Hs & Hn).
    exists st, op, d'. split_and!; try done.
    + destruct (ns_alive st) eqn:Ha; [done|]. destruct Hi as [Hsi _].
      destruct (do_dead _ _ _ (sv_devices _ Hsi _ _ Hst) Ha) as [_ Hnil].
      rewrite Hnil, sorted_items_empty in Hf. done.
    + by apply (sorted_items_first _ _ _ _ Hf).
    + intros m. unfold body_at. rewrite Hn. case_decide as Em; [by rewrite Em, lookup_insert_eq|by rewrite lookup_insert_ne].
  - intros n. rewrite <- Hb1. unfold body_at. by rewrite Hkept.
Qed.
End frames.
