(* ===== verification/HarnessState.v ===== *)
(** * HarnessState: how the deterministic cluster stands for a cluster of nodes

    [matches] relates the state of [DeterministicCluster] to a state of the cluster
    of [Deployment]: a running member has the node of the abstract host, its WAL is
    the abstract disk, a batch it waits for is in the effect queue, being written or
    being flushed, and every frame on the simulated wire encodes a message that was
    sent. *)

From stdpp Require Import relations.
From S2P Require Import Prelude Model StateMachine RaftTypes Raft RaftSpec RaftRefine RaftReplicate RaftElection RaftAppend RaftStep System SystemFrame SystemSteps SystemLog SystemSafety Deployment ClusterSafety RaftTyped RaftOps.
From S2P Require Codec.
From S2P Require Import Bytes Wal WalFormat WalFrames WalRecovery WalScan WalFile WalDurability HostAhead HostStep.
From S2P Require Import Pcg SimQueue Simulator SimTrace SimSpec SimStorage SimTheorems HarnessTypes Harness HarnessSim.
#[local] Open Scope N_scope.

(** ** A log on a device *)

(** [stored id o w bytes ds]: the bytes are the header and the frames of the batches
    [ds], and the state [w] is what they leave. *)
Record stored (id : WalIdentity) (o : WalOptions) (w : WalState) (bytes : list N)
    (ds : list PersistBatch) : Prop := {
  sd_fits : Forall batch_fits ds;
  sd_chain : exists fs st, appended o created_state ds fs st /\ same_log w st /\
    bytes = file_header_bytes id ++ fs;
}.

Section stored.
Context (id : WalIdentity) (o : WalOptions).

Lemma stored_recovered w bytes ds : stored id o w bytes ds -> wal_recovered w = replayed ds.
Proof using.
  intros [_ (fs & st & Ha & (Hw & _) & _)]. rewrite Hw.
  destruct (appended_ok _ _ _ _ Ha created_ok) as [_ ->]. done.
Qed.

Lemma torn_same w st t : ws_last_frame_sequence w = ws_last_frame_sequence st -> torn o w t -> torn o st t.
Proof using. unfold torn. by intros ->. Qed.

(** The frame of a further batch. *)
Lemma stored_next w bytes ds b f :
  stored id o w bytes ds -> batch_fits b -> encode_wal_frame w b o = inr f ->
  stored id o (ef_state_after f) (bytes ++ ef_bytes f) (ds ++ [b]).
Proof using.
  intros [Hfit (fs & st & Ha & Hs & ->)] Hb Hf.
  destruct (encode_wal_frame_inv _ _ _ Hf) as (_ & Hsz & Hbytes & v & Hstage & Hafter).
  split; [by apply Forall_app; split; [|constructor]|].
  rewrite (new_view_same _ _ Hs) in Hstage. pose proof Hs as (Hw & Hseq & Hlen).
  exists (fs ++ ef_bytes f), (advanced st v (ef_bytes f)). split_and!; [| |by rewrite app_assoc].
  - eapply appended_app; [done|]. rewrite <- (app_nil_r (ef_bytes f)) at 1.
    eapply appended_cons; [done|done| |constructor]. by rewrite <- Hseq.
  - rewrite Hafter. unfold same_log. simpl. rewrite Hseq, Hlen. split_and!; [|done|done].
    unfold wal_recovered in *. simpl. injection Hw as H1 H2 H3. by rewrite H2.
Qed.

(** A scan of the log and a torn tail. *)
Lemma stored_scan w bytes ds t u :
  validate_options o = inr u -> identity_fits id -> stored id o w bytes ds -> torn o w t ->
  exists r, scan_wal_bytes (bytes ++ t) id o = inr r /\ stored id o (sc_state r) bytes ds /\
    sc_valid_bytes r = blen bytes /\ sc_has_incomplete_tail r = negb (is_nil t) /\
    ws_last_frame_sequence (sc_state r) = ws_last_frame_sequence w.
Proof using.
  intros Hv Hid [Hfit (fs & st & Ha & Hs & ->)] Ht. pose proof (validate_options_ok _ _ Hv) as Hok.
  destruct Hs as (Hw & Hseq & Hlen). apply (torn_same _ _ _ Hseq) in Ht.
  rewrite <- app_assoc. rewrite (scan_file Hok id _ _ _ t u Hv Hid Hfit Ha Ht).
  eexists. split; [done|]. cbn [finish_scan sc_state sc_valid_bytes sc_has_incomplete_tail ws_last_frame_sequence].
  split_and!; [split; [done|by exists fs, st]| |done|done].
  by rewrite blen_app, file_header_length, (appended_file _ _ _ _ Ha).
Qed.

(** What a crash leaves of the frame that was being written: all of it or a torn
    tail. *)
Lemma crash_leaves w b f t :
  encode_wal_frame w b o = inr f -> t `prefix_of` ef_bytes f -> t = ef_bytes f \/ torn o w t.
Proof using.
  intros Hf Hp. destruct (decide (t = ef_bytes f)); [by left|right]. by eapply torn_frame.
Qed.

Lemma stored_created : stored id o created_state (file_header_bytes id) [].
Proof using. split; [constructor|]. exists [], created_state. split_and!; [constructor|done|by rewrite app_nil_r]. Qed.

End stored.

(** ** The relation *)

(** The batches of [x] that wait in the effect queue. *)
Definition queued (x : NodeId) (q : list (NodeId * RaftEffect)) : list (StorageOpId * PersistBatch) :=
  omap (fun p => if decide (p.1 = x) then effect_persist p.2 else None) q.

Lemma queued_app x q q' : queued x (q ++ q') = queued x q ++ queued x q'.
Proof. apply omap_app. Qed.

Lemma queued_own x es : queued x (pair x <$> es) = persists es.
Proof.
  unfold queued, persists. induction es as [|e es IH]; [done|]. simpl. rewrite decide_True by done.
  destruct (effect_persist e); [f_equal|]; exact IH.
Qed.

Lemma queued_other x y es : x <> y -> queued y (pair x <$> es) = [].
Proof. intros Hne. induction es as [|e es IH]; [done|]. simpl. by rewrite decide_False by done. Qed.

(** The configuration of a member and the identity of its log. *)
Definition member_config (conf : ClusterConfig) (x : NodeId) : RaftConfig :=
  with_identity (cc_raft conf) x (cc_members conf).
Definition engine_config (conf : ClusterConfig) (x : NodeId) : RaftConfig :=
  with_members (member_config conf x) (sort_members (members (member_config conf x))).
Definition member_identity (conf : ClusterConfig) (x : NodeId) : WalIdentity :=
  mkWalIdentity (cc_cluster_id_high conf) (cc_cluster_id_low conf) x.

Section relation.
Context (conf : ClusterConfig).
Implicit Types (net : Net) (b : Body) (r : RaftNode) (w : WalState) (c : Impl).
Implicit Types (pp : gmap N PendingPersist) (todo : list (StorageOpId * PersistBatch)).

Definition bridge_to (x : NodeId) b (q : PendingStorage) (f : WalEncodedFrame) (stage : PersistStage)
  : PendingPersist :=
  mkPendingPersist x (bd_incarnation b) (ps_op_id q) (ws_last_frame_sequence (ef_state_after f)) stage.

(** The device work of a member whose node takes part: what it waits for is in the
    effect queue, or its frame is being written, or being flushed. *)
Inductive working pp todo (x : NodeId) w b r : Prop :=
  | work_none : todo = pend r -> bd_unstable b = [] -> bd_pending b = ∅ -> working pp todo x w b r
  | work_write q f id op :
      todo = [] -> pending_storage_ r = Some q -> encode_wal_frame w (ps_batch q) (cc_wal conf) = inr f ->
      bd_unstable b = [] -> bd_pending b = {[id := op]} -> po_kind op = op_write ->
      po_bytes op = ef_bytes f ->
      (po_completion_status op = completed_ok -> po_actual_write_bytes op = blen (ef_bytes f)) ->
      pp !! id = Some (bridge_to x b q f stage_write) -> working pp todo x w b r
  | work_flush q f id op :
      todo = [] -> pending_storage_ r = Some q -> encode_wal_frame w (ps_batch q) (cc_wal conf) = inr f ->
      bd_unstable b = ef_bytes f -> bd_pending b = {[id := op]} -> po_kind op = op_flush ->
      po_bytes op = [] ->
      pp !! id = Some (bridge_to x b q f stage_flush) -> working pp todo x w b r.

(** What a failed write has left behind the log of a node that waited for [n]'s batch. *)
Definition leftover w (n : RaftNode) (t : list N) : Prop :=
  t = [] \/ exists q f, pending_storage_ n = Some q /\ batch_fits (ps_batch q) /\
    encode_wal_frame w (ps_batch q) (cc_wal conf) = inr f /\ t `prefix_of` ef_bytes f.

(** A member that runs: its node takes part, or a failed write has stopped it. *)
Inductive engaged pp todo net (x : NodeId) w b r : Prop :=
  | engaged_live :
      n_host net !! x = Some (mkHost r (wal_recovered w) false) -> working pp todo x w b r ->
      engaged pp todo net x w b r
  | engaged_dead n :
      dead r -> n_host net !! x = Some (mkHost n (wal_recovered w) false) -> todo = [] ->
      bd_pending b = ∅ -> leftover w n (bd_unstable b) -> engaged pp todo net x w b r.

Record member_up pp todo net (x : NodeId) w b r : Prop := {
  mu_alive : bd_alive b = true;
  mu_sound : sound (engine_config conf x) (n_sent net) r;
  mu_stored : exists ds, stored (member_identity conf x) (cc_wal conf) w (bd_stable b) ds;
  mu_engaged : engaged pp todo net x w b r;
}.

Record member_down todo net (x : NodeId) b : Prop := {
  md_alive : bd_alive b = false;
  md_todo : todo = [];
  md_clean : bd_unstable b = [] /\ bd_pending b = ∅;
  md_log : exists n ds written w bytes t, n_host net !! x = Some (mkHost n (replayed ds) written) /\
    stored (member_identity conf x) (cc_wal conf) w bytes ds /\ torn (cc_wal conf) w t /\
    bd_stable b = bytes ++ t;
}.

Record member pp todo net (x : NodeId) (rt : NodeRuntime) b : Prop := {
  mb_config : rt_raft_config rt = member_config conf x;
  mb_identity : rt_identity rt = member_identity conf x;
  mb_state : match rt_raft rt with
             | Some r => member_up pp todo net x (rt_wal_state rt) b r
             | None => member_down todo net x b
             end;
}.

(** A frame that encodes a message that was sent. *)
Definition carried net (m : NetworkEvent) : Prop :=
  exists env, env ∈ n_sent net /\ envelope_fits env /\ env_from env = ne_from m /\ env_to env = ne_to m /\
    Codec.encode_message (env_message env) (cc_codec conf) = Codec.success (ne_bytes m).

(** An effect that waits in the queue. *)
Definition effect_ok net (e : RaftEffect) : Prop :=
  effect_fits e /\ match e with SendEffect env => env ∈ n_sent net | _ => True end.

Definition member_at c net (x : NodeId) : Prop :=
  exists rt b, im_nodes c !! x = Some rt /\ body_at (im_simulator c) x = Some b /\
    member (im_pending_persists c) (queued x (im_effect_queue c)) net x rt b.

Record matches c net : Prop := {
  mt_cluster : cluster (member_config conf) (cc_members conf) net;
  mt_config : im_config c = conf;
  mt_sim : sim_inv (im_simulator c);
  mt_wire : forall m, on_wire (im_simulator c) m -> carried net m;
  mt_queue : Forall (fun p => p.1 ∈ cc_members conf /\ effect_ok net p.2) (im_effect_queue c);
  mt_fresh : forall id p, im_pending_persists c !! id = Some p ->
    sim_next_storage_id (im_simulator c) = 0 \/ id < sim_next_storage_id (im_simulator c);
  mt_members : forall x, x ∈ cc_members conf -> member_at c net x;
  mt_nodes : forall x, is_Some (im_nodes c !! x) -> x ∈ cc_members conf;
  mt_bodies : forall x, is_Some (body_at (im_simulator c) x) -> x ∈ cc_members conf;
}.

(** ** What does not matter *)

(** The parts of the state the relation reads. *)
Definition core c :=
  (im_config c, im_simulator c, im_nodes c, im_pending_persists c, im_effect_queue c, im_draining_effects c).

Lemma core_fields c c' :
  core c' = core c -> im_config c' = im_config c /\ im_simulator c' = im_simulator c /\
    im_nodes c' = im_nodes c /\ im_pending_persists c' = im_pending_persists c /\
    im_effect_queue c' = im_effect_queue c /\ im_draining_effects c' = im_draining_effects c.
Proof. unfold core. intros [= ? ? ? ? ? ?]. by split_and!. Qed.

Lemma matches_core c c' net : core c' = core c -> matches c net -> matches c' net.
Proof.
  intros (E1 & E2 & E3 & E4 & E5 & _)%core_fields [].
  constructor; rewrite ?E1, ?E2, ?E3, ?E4, ?E5; try done.
  intros x Hx. unfold member_at. rewrite E2, E3, E4, E5. by apply mt_members0.
Qed.

Lemma carried_moved net net' x m : moved x net net' -> carried net m -> carried net' m.
Proof. intros Hm (env & Hs & ?). exists env. split; [by eapply moved_sent|done]. Qed.

Lemma effect_ok_moved net net' x e : moved x net net' -> effect_ok net e -> effect_ok net' e.
Proof. intros Hm [Hf Hs]. split; [done|]. destruct e; try done. by eapply moved_sent. Qed.

(** A member while the cluster moves elsewhere and other bridges change. *)
Lemma member_kept pp pp' todo net net' x y rt b :
  moved y net net' -> x <> y -> (forall id p, pp !! id = Some p -> pp_node p = x -> pp' !! id = Some p) ->
  member pp todo net x rt b -> member pp' todo net' x rt b.
Proof.
  intros Hm Hne Hpp []. constructor; [done..|]. destruct (rt_raft rt) as [r|].
  - destruct mb_state0 as [Ha Hs Hst He]. constructor; [done| |done|].
    + eapply sound_mono; [|done]. intros e. by apply (moved_sent y).
    + destruct He as [Hh Hw|n Hd Hh ? ? ?]; [|eapply engaged_dead; try done; by rewrite (mv_others _ _ _ Hm)].
      apply engaged_live; [by rewrite (mv_others _ _ _ Hm)|].
      destruct Hw as [?|? ? id|? ? id]; [by apply work_none|eapply work_write|eapply work_flush];
        try done; by apply Hpp.
  - destruct mb_state0 as [? ? ? (n & ds & wr & w & bytes & t & Hh & ?)]. constructor; [done..|].
    exists n, ds, wr, w, bytes, t. by rewrite (mv_others _ _ _ Hm).
Qed.
End relation.

(** ** Reports and observations *)

Create Rewrite HintDb harness_core.

Section reports.
Context `{HeapLib}.
Implicit Types (c : Impl).

Lemma record_core_eq c source kind node peer t i token bytes detail :
  core (record c source kind node peer t i token bytes detail) = core c.
Proof using. unfold record. by repeat case_match. Qed.

Lemma sync_core c : core (sync_simulator_trace c) = core c.
Proof using.
  unfold sync_simulator_trace. generalize (drop (N.to_nat (rp_simulator_trace_offset (im_reports c)))
    (sim_trace_records (im_simulator c))). intros l. revert c.
  induction l as [|e l IH]; intros c; [done|]. simpl. by rewrite IH, record_core_eq.
Qed.

Lemma replies_core c l b : core (set_replies c l b) = core c.
Proof using. done. Qed.

Lemma retain_core c reply node : core (retain_reply c reply node) = core c.
Proof using. unfold retain_reply. repeat case_match; simpl; by rewrite ?replies_core, ?record_core_eq. Qed.

Lemma observer_failure_core c what : core (set_observer_failure c what) = core c.
Proof using. unfold set_observer_failure. by case_match. Qed.

Lemma adapter_failure_core c what : core (set_adapter_failure c what) = core c.
Proof using. unfold set_adapter_failure. by case_match. Qed.

Lemma register_vote_core c voter t candidate : core (register_vote c voter t candidate) = core c.
Proof using. unfold register_vote. repeat case_match; by rewrite ?observer_failure_core. Qed.

Lemma register_leader_core c leader t : core (register_leader c leader t) = core c.
Proof using. unfold register_leader. repeat case_match; by rewrite ?observer_failure_core. Qed.

(** A check leaves the core alone. *)
Definition checks {A} (c : Impl) (k : Checked A) : Prop := core k.1 = core c.

Lemma checks_bind {A B} c (x : Checked A) (k : Impl -> A -> Checked B) :
  checks c x -> (forall c' a, core c' = core c -> checks c (k c' a)) -> checks c (kbind x k).
Proof using. intros Hx Hk. destruct x as [c1 [e|a]]; [done|]. by apply Hk. Qed.

Lemma inspect_node_checks c id node : checks c (inspect_node c id node).
Proof using.
  unfold inspect_node, checks, go_on, fail_with. repeat case_match; simpl;
    by rewrite ?register_vote_core.
Qed.

Lemma inspect_nodes_checks l c0 c acc : core c = core c0 -> checks c0 (inspect_nodes c l acc).
Proof using.
  revert c acc. induction l as [|[id node] l IH]; intros c acc Hc; simpl; [done|].
  apply checks_bind; [unfold checks; by rewrite inspect_node_checks|]. intros c' a Hc'. by apply IH.
Qed.

Lemma certify_checks n c0 c raft i : core c = core c0 -> checks c0 (certify n c raft i).
Proof using.
  revert c i. induction n as [|n IH]; intros c i Hc; simpl; [done|].
  repeat case_match; try done; by apply IH.
Qed.

Lemma inspect_leader_checks c id node : checks c (inspect_leader c id node).
Proof using.
  unfold inspect_leader, checks, go_on, fail_with. repeat case_match; simpl;
    rewrite ?register_leader_core; try done; rewrite certify_checks; [apply register_leader_core|done].
Qed.

Lemma inspect_leaders_checks l c0 c : core c = core c0 -> checks c0 (inspect_leaders c l).
Proof using.
  revert c. induction l as [|[id node] l IH]; intros c Hc; simpl; [done|].
  apply checks_bind; [unfold checks; by rewrite inspect_leader_checks|]. intros c' a Hc'. by apply IH.
Qed.

Lemma inspect_core c : core (inspect_invariants c).1 = core c.
Proof using.
  unfold inspect_invariants. simpl. repeat case_match; try done.
  apply (checks_bind c); [by apply inspect_nodes_checks|]. intros c1 snapshots Hc1.
  case_match; [done|]. apply checks_bind; [unfold checked; by case_match|]. intros c2 _ Hc2.
  apply checks_bind; [by apply inspect_leaders_checks|]. intros c3 _ Hc3.
  apply checks_bind; [unfold checked; by case_match|]. intros c4 _ Hc4. unfold checked. by case_match.
Qed.

(** A verified call ends with the state it had, or throws. *)
Lemma verify_core c c' : verify_if_enabled c = inr c' -> core c' = core c.
Proof using.
  unfold verify_if_enabled. pose proof (inspect_core c) as Hi. destruct (inspect_invariants c) as [c1 r].
  simpl in Hi. destruct r as [detail|]; [case_match; [done|]|]; intros [= <-]; done.
Qed.

End reports.
#[export] Hint Rewrite @record_core_eq @sync_core @retain_core @observer_failure_core @adapter_failure_core
  @register_vote_core @register_leader_core : harness_core.
