(* ===== verification/HarnessEffects.v ===== *)
(** * HarnessEffects: the effects of a node in the deterministic cluster

    Each handler of [src/cluster.cpp] keeps [matches]: delivering an event, sending,
    arming a timer, writing, flushing and completing a batch, and failing it.
    Draining the effect queue empties it. *)

From stdpp Require Import relations.
From S2P Require Import Prelude Model StateMachine RaftTypes Raft RaftSpec RaftRefine RaftReplicate RaftElection RaftAppend RaftStep System SystemFrame SystemSteps SystemLog SystemSafety Deployment ClusterSafety RaftTyped RaftOps.
From S2P Require Codec.
From S2P Require Import Bytes Wal WalFormat WalFrames WalRecovery WalScan WalFile WalDurability HostAhead HostStep.
From S2P Require Import Pcg SimQueue Simulator SimTrace SimSpec SimStorage SimTheorems HarnessTypes Harness HarnessSim HarnessState.
#[local] Open Scope N_scope.

(** The configuration fits its types, and its members are distinct. *)
Record harness_setup (conf : ClusterConfig) : Prop := {
  hn_nodup : NoDup (cc_members conf);
  hn_ids : Forall u32 (cc_members conf);
  hn_bytes : max_append_bytes_per_rpc (cc_raft conf) <= u64_max;
  hn_cluster : u64 (cc_cluster_id_high conf) /\ u64 (cc_cluster_id_low conf);
}.

(** A call that returns. *)
Definition returns {A} (r : Throw A) (P : A -> Prop) : Prop := exists a, r = inr a /\ P a.

Lemma returns_bind {A B} (r : Throw A) (k : A -> Throw B) P Q :
  returns r P -> (forall a, P a -> returns (k a) Q) -> returns (tbind r k) Q.
Proof. intros (a & -> & Ha) Hk. exact (Hk a Ha). Qed.

Lemma returns_mono {A} (r : Throw A) (P Q : A -> Prop) :
  returns r P -> (forall a, P a -> Q a) -> returns r Q.
Proof. intros (a & Hr & Ha) Hk. exists a. auto. Qed.

Section setup.
Context (conf : ClusterConfig) (Hset : harness_setup conf).

Lemma member_configured : configured (member_config conf) (cc_members conf).
Proof using Hset. intros x Hx. split_and!; [done|done|apply Hset]. Qed.

Lemma engine_ids x : Forall u32 (members (engine_config conf x)).
Proof using Hset.
  simpl. unfold sort_members. rewrite merge_sort_Permutation. apply Hset.
Qed.

Lemma identity_ok x : x ∈ cc_members conf -> identity_fits (member_identity conf x).
Proof using Hset.
  intros Hx. destruct Hset as [_ Hids _ [? ?]]. rewrite Forall_forall in Hids. specialize (Hids x Hx).
  unfold identity_fits. simpl. by split_and!.
Qed.
End setup.

Section effects.
Context `{HeapLaws} (conf : ClusterConfig) (Hset : harness_setup conf).
Implicit Types (net : Net) (b : Body) (r : RaftNode) (w : WalState) (c : Impl).
Abbreviation matches := (matches conf).
Abbreviation member_at := (member_at conf).

(** ** Changes at one member *)

(** Outside [x] nothing has changed but messages lost or newly carried. *)
Record shift (x : NodeId) c c' net' : Prop := {
  sf_config : im_config c' = im_config c;
  sf_sim : sim_inv (im_simulator c');
  sf_wire : forall m, on_wire (im_simulator c') m -> on_wire (im_simulator c) m \/ carried conf net' m;
  sf_queue : Forall (fun p => p.1 ∈ cc_members conf /\ effect_ok net' p.2) (im_effect_queue c');
  sf_fresh : forall id p, im_pending_persists c' !! id = Some p ->
    sim_next_storage_id (im_simulator c') = 0 \/ id < sim_next_storage_id (im_simulator c');
  sf_nodes : forall y, y <> x -> im_nodes c' !! y = im_nodes c !! y;
  sf_bodies : forall y, y <> x -> body_at (im_simulator c') y = body_at (im_simulator c) y;
  sf_queued : forall y, y <> x -> queued y (im_effect_queue c') = queued y (im_effect_queue c);
  sf_bridges : forall id p, im_pending_persists c !! id = Some p -> pp_node p <> x ->
    im_pending_persists c' !! id = Some p;
}.

Lemma matches_shift x c c' net net' :
  matches c net -> x ∈ cc_members conf -> cluster (member_config conf) (cc_members conf) net' ->
  moved x net net' -> shift x c c' net' -> member_at c' net' x -> matches c' net'.
Proof.
  intros [] Hx Hc Hm [] Hat. constructor; try done.
  - by rewrite sf_config0.
  - intros m Hw. destruct (sf_wire0 m Hw) as [?|?]; [|done]. eapply carried_moved; eauto.
  - intros y Hy. destruct (decide (y = x)) as [->|Hne]; [done|].
    destruct (mt_members y Hy) as (rt & b & H1 & H2 & H3). exists rt, b.
    split_and!; [by rewrite sf_nodes0|by rewrite sf_bodies0|]. rewrite sf_queued0 by done.
    eapply member_kept; [done|done| |done]. intros id p Hp <-. by apply sf_bridges0.
  - intros y Hy. destruct (decide (y = x)) as [->|Hne]; [done|]. apply mt_nodes. by rewrite <- sf_nodes0.
  - intros y Hy. destruct (decide (y = x)) as [->|Hne]; [done|]. apply mt_bodies. by rewrite <- sf_bodies0.
Qed.

(** The simulator changes timers, links and fault requests only. *)
Lemma matches_still c net s :
  matches c net -> sim_inv s -> still (im_simulator c) s -> matches (set_simulator c s) net.
Proof.
  intros [] Hs (Hb & Hw & Hid). constructor; simpl; try done.
  - intros m Hm. by apply mt_wire, Hw.
  - by rewrite Hid.
  - intros x Hx. destruct (mt_members x Hx) as (rt & b & H1 & H2 & H3). exists rt, b.
    simpl. by rewrite Hb.
  - intros x. rewrite Hb. apply mt_bodies.
Qed.

(** The runtime of a member changes timers, generators and latencies only. *)
Lemma matches_runtime c net x rt rt' :
  matches c net -> im_nodes c !! x = Some rt ->
  rt_raft_config rt' = rt_raft_config rt -> rt_identity rt' = rt_identity rt ->
  rt_wal_state rt' = rt_wal_state rt -> rt_raft rt' = rt_raft rt -> matches (put_runtime c x rt') net.
Proof.
  intros Hmt Hx E1 E2 E3 E4. pose proof Hmt as []. constructor; simpl; try done.
  - intros y Hy. destruct (mt_members y Hy) as (rt0 & b & H1 & H2 & H3). destruct (decide (y = x)) as [->|Hne].
    + exists rt', b. simpl. rewrite lookup_insert_eq. split_and!; [done..|]. simplify_eq.
      destruct H3 as [? ? Hst]. constructor; [congruence..|]. by rewrite E3, E4.
    + exists rt0, b. simpl. by rewrite lookup_insert_ne.
  - intros y [rt0 Hy]. destruct (decide (y = x)) as [->|Hne]; [by apply mt_nodes|].
    rewrite lookup_insert_ne in Hy by done. apply mt_nodes. eauto.
Qed.

(** An effect that is no batch leaves the queue. *)
Lemma matches_pop c net x e q :
  matches c net -> im_effect_queue c = (x, e) :: q -> effect_persist e = None ->
  matches (set_effect_queue c q) net.
Proof.
  intros Hmt Hq He. pose proof Hmt as []. constructor; simpl; try done.
  - rewrite Hq in mt_queue. by apply Forall_cons in mt_queue as [_ ?].
  - intros y Hy. destruct (mt_members y Hy) as (rt & b & H1 & H2 & H3). exists rt, b. split_and!; [done..|].
    rewrite Hq in H3. simpl in *. rewrite He in H3. by destruct (decide (x = y)).
Qed.

Lemma alive_body s x b : body_at s x = Some b -> is_alive s x = bd_alive b.
Proof.
  unfold body_at, is_alive. destruct (sim_nodes s !! x); [|done]. by intros [= <-].
Qed.

Lemma incarnation_body s x b : body_at s x = Some b -> incarnation s x = bd_incarnation b.
Proof.
  unfold body_at, incarnation. destruct (sim_nodes s !! x); [|done]. by intros [= <-].
Qed.

Lemma stable_body s x b : body_at s x = Some b -> stable_bytes s x = bd_stable b.
Proof.
  unfold body_at, stable_bytes. destruct (sim_nodes s !! x); [|done]. by intros [= <-].
Qed.

(** A runtime with a node is that of a running member. *)
Lemma up_found c net x rt r :
  matches c net -> im_nodes c !! x = Some rt -> rt_raft rt = Some r ->
  x ∈ cc_members conf /\ rt_raft_config rt = member_config conf x /\ rt_identity rt = member_identity conf x /\
  is_alive (im_simulator c) x = true /\
  exists b, body_at (im_simulator c) x = Some b /\
    member_up conf (im_pending_persists c) (queued x (im_effect_queue c)) net x (rt_wal_state rt) b r.
Proof.
  intros Hmt Hx Hr. assert (Hin : x ∈ cc_members conf) by (apply (mt_nodes _ _ _ Hmt); eauto).
  destruct (mt_members _ _ _ Hmt x Hin) as (rt' & b & H1 & H2 & []). simplify_eq. rewrite Hr in mb_state.
  split_and!; [done..| |by exists b]. rewrite (alive_body _ _ _ H2). apply mb_state.
Qed.

(** ** Building a shift *)

Lemma effects_ok net es :
  Forall effect_fits es -> (forall e, e ∈ sends es -> e ∈ n_sent net) -> Forall (effect_ok net) es.
Proof.
  induction 1 as [|e es He _ IH]; intros Hs; constructor.
  - split; [done|]. destruct e; try done. apply Hs. simpl. apply list_elem_of_here.
  - apply IH. intros env Hin. apply Hs. destruct e; simpl; try done. by apply list_elem_of_further.
Qed.

Lemma shift_refl x c net net' : matches c net -> moved x net net' -> shift x c c net'.
Proof.
  intros [] Hm. constructor; try done; [by left|].
  eapply Forall_impl; [exact mt_queue|]. intros p [? ?]. split; [done|]. by eapply effect_ok_moved.
Qed.

Section from.
Context (x : NodeId) (c c0 : Impl) (net' : Net) (Hs : shift x c c0 net').

Lemma shift_core c1 : core c1 = core c0 -> shift x c c1 net'.
Proof using Hs.
  intros (E1 & E2 & E3 & E4 & E5 & _)%core_fields. destruct Hs.
  constructor; rewrite ?E1, ?E2, ?E3, ?E4, ?E5; done.
Qed.

Lemma shift_put rt : shift x c (put_runtime c0 x rt) net'.
Proof using Hs. destruct Hs. constructor; simpl; try done. intros y Hy. rewrite lookup_insert_ne by done. auto. Qed.

Lemma shift_enqueue es :
  x ∈ cc_members conf -> Forall (effect_ok net') es ->
  shift x c (set_effect_queue c0 (im_effect_queue c0 ++ (pair x <$> es))) net'.
Proof using Hs.
  intros Hx Hes. destruct Hs. constructor; simpl; try done.
  - apply Forall_app. split; [done|]. apply Forall_fmap. eapply Forall_impl; [exact Hes|]. done.
  - intros y Hy. rewrite queued_app, (queued_other x y) by done. rewrite app_nil_r. auto.
Qed.

Lemma shift_pop e q : im_effect_queue c0 = (x, e) :: q -> shift x c (set_effect_queue c0 q) net'.
Proof using Hs.
  intros Hq. destruct Hs. constructor; simpl; try done.
  - rewrite Hq in sf_queue0. by apply Forall_cons in sf_queue0 as [_ ?].
  - intros y Hy. rewrite <- sf_queued0, Hq by done. simpl. by rewrite decide_False.
Qed.

Lemma shift_sim s :
  sim_inv s -> wire_le (im_simulator c0) s ->
  (forall y, y <> x -> body_at s y = body_at (im_simulator c0) y) ->
  (sim_next_storage_id s = sim_next_storage_id (im_simulator c0) \/
   sim_next_storage_id s = next_id (sim_next_storage_id (im_simulator c0)) /\
   sim_next_storage_id (im_simulator c0) <> 0) ->
  shift x c (set_simulator c0 s) net'.
Proof using Hs.
  intros Hi Hw Hb Hid. destruct Hs. constructor; simpl; try done.
  - intros m Hm. by apply sf_wire0, Hw.
  - intros id p Hp. destruct (sf_fresh0 id p Hp) as [E|E], Hid as [->|[-> ?]]; auto; [done|].
    unfold next_id. destruct (N.eqb_spec (sim_next_storage_id (im_simulator c0)) u64_max); [by left|right].
    destruct sf_sim0 as [Hst _]. pose proof (sv_next _ Hst). rewrite add64_small by lia. lia.
  - intros y Hy. rewrite Hb by done. auto.
Qed.

Lemma shift_bridge id p :
  pp_node p = x -> im_pending_persists c0 !! id = None ->
  sim_next_storage_id (im_simulator c0) = 0 \/ id < sim_next_storage_id (im_simulator c0) ->
  shift x c (set_pending_persists c0 (<[id := p]> (im_pending_persists c0))) net'.
Proof using Hs.
  intros Hp Hn Hid. destruct Hs. constructor; simpl; try done.
  - intros i p' Hi. destruct (decide (i = id)) as [->|Hne]; [done|]. rewrite lookup_insert_ne in Hi by done. eauto.
  - intros i p' Hi Hne. specialize (sf_bridges0 i p' Hi Hne). rewrite lookup_insert_ne; [done|]. intros ->. congruence.
Qed.

Lemma shift_unbridge id p :
  im_pending_persists c0 !! id = Some p -> pp_node p = x ->
  shift x c (set_pending_persists c0 (delete id (im_pending_persists c0))) net'.
Proof using Hs.
  intros Hn Hp. destruct Hs. constructor; simpl; try done.
  - intros i p' Hi. apply lookup_delete_Some in Hi as [_ Hi]. eauto.
  - intros i p' Hi Hne. specialize (sf_bridges0 i p' Hi Hne). apply lookup_delete_Some. split; [|done].
    intros ->. congruence.
Qed.

End from.

(** ** A step of a node *)

(** The state after a node has stepped and its effects are queued. *)
Definition stepped c (x : NodeId) (rt : NodeRuntime) r (es : list RaftEffect) : Impl :=
  set_effect_queue (put_runtime c x (set_raft rt (Some r))) (im_effect_queue c ++ (pair x <$> es)).

Lemma shift_stepped x c c0 net' rt r es :
  shift x c c0 net' -> x ∈ cc_members conf -> Forall (effect_ok net') es -> shift x c (stepped c0 x rt r es) net'.
Proof. intros Hs Hx Hes. apply (shift_enqueue x c (put_runtime c0 x (set_raft rt (Some r)))); [by apply shift_put|done..]. Qed.

Lemma stepped_found c x rt r es :
  im_nodes (stepped c x rt r es) !! x = Some (set_raft rt (Some r)) /\
  queued x (im_effect_queue (stepped c x rt r es)) = queued x (im_effect_queue c) ++ persists es.
Proof. simpl. rewrite lookup_insert_eq. split; [done|]. by rewrite queued_app, queued_own. Qed.

(** A node that is stepped passes its effects on. *)
Lemma deliver_steps d c x rt r ev r' es :
  im_nodes c !! x = Some rt -> rt_raft rt = Some r -> is_alive (im_simulator c) x = true ->
  step ev r = Returns (tt, r', es) ->
  deliver_with d c x ev =
    if im_draining_effects c then inr (stepped c x rt r' es) else d (stepped c x rt r' es).
Proof. intros Hx Hr Ha Hst. unfold deliver_with, runtime. by rewrite Hx, Hr, Ha, Hst. Qed.

Lemma sound_returns x sent ev r :
  sound (engine_config conf x) sent r -> event_ok (fun e => e ∈ sent) ev ->
  exists r' es, step ev r = Returns (tt, r', es).
Proof.
  intros [Hi _] Hok. pose proof (step_refines ev _ Hi Hok) as Hw. unfold wps, wp in Hw.
  destruct (step ev r) as [[[[] s'] es]|]; [by exists s', es|done].
Qed.

(** A stopped node ignores whatever it is given. *)
Lemma dead_stepped pp net x w b r n ev r' es :
  sound (engine_config conf x) (n_sent net) r -> dead r -> event_fine net ev ->
  step ev r = Returns (tt, r', es) -> bd_alive b = true ->
  (exists ds, stored (member_identity conf x) (cc_wal conf) w (bd_stable b) ds) ->
  n_host net !! x = Some (mkHost n (wal_recovered w) false) -> bd_pending b = ∅ -> leftover conf w n (bd_unstable b) ->
  member_up conf pp (persists es) net x w b r' /\ Forall (effect_ok net) es.
Proof.
  intros Hs Hd [Hok Hfit] Hst Ha Hstored Hh Hp Hl.
  destruct (dead_step _ (engine_ids conf Hset x) _ _ _ _ _ Hs Hd Hok Hfit Hst) as (Hs' & Hd' & Hse & Hpe).
  destruct (step_batches _ (engine_ids conf Hset x) _ _ _ _ _ Hs Hok Hfit Hst) as (_ & Hf & _).
  split; [|apply effects_ok; [done|rewrite Hse; by intros e ?%not_elem_of_nil]].
  constructor; [done..|]. by apply (engaged_dead conf _ _ _ _ _ _ _ n).
Qed.

(** The node of a member takes an event other than a completion. *)
Lemma event_stepped c net x rt r ev :
  matches c net -> im_nodes c !! x = Some rt -> rt_raft rt = Some r -> event_fine net ev ->
  is_storage_complete ev = false ->
  exists r' es net', step ev r = Returns (tt, r', es) /\ matches (stepped c x rt r' es) net'.
Proof.
  intros Hmt Hx Hr Hfine Hsc. pose proof Hfine as [Hok Hfit].
  destruct (up_found c net x rt r Hmt Hx Hr) as (Hin & Hcf & Hid & Ha & b & Hb & [Hal Hs Hst He]).
  destruct (sound_returns x _ ev r Hs Hok) as (r' & es & Hstep). exists r', es.
  destruct (step_batches _ (engine_ids conf Hset x) _ _ _ _ _ Hs Hok Hfit Hstep) as (Hs' & Hf & _).
  pose proof (stepped_found c x rt r' es) as [Hn Hq].
  assert (Hat : forall net', member_up conf (im_pending_persists c)
      (queued x (im_effect_queue c) ++ persists es) net' x (rt_wal_state rt) b r' ->
    member_at (stepped c x rt r' es) net' x).
  { intros net' Hup. exists (set_raft rt (Some r')), b. split_and!; [done..|]. constructor; [done..|]. simpl in *.
    by rewrite queued_app, queued_own. }
  destruct He as [Hh Hw|n Hd Hh Htodo Hp Hl].
  - destruct (do_event _ _ net x r _ false ev r' es (mt_cluster _ _ _ Hmt) Hh (fine_allowed _ _ _ Hfine Hsc) Hstep)
      as (net' & Hc' & Hm & Hx' & Hse). exists net'. split; [done|].
    apply (matches_shift x c _ net); [done..| |].
    { apply shift_stepped; [by eapply shift_refl|done|by apply effects_ok]. }
    apply Hat. constructor; [done|eapply sound_mono; [|done]; intros e; by apply (moved_sent x)|done|].
    apply engaged_live; [done|]. destruct (pending_storage_ r) as [q|] eqn:Eq.
    + destruct (pending_kept _ _ _ _ _ _ _ Hs Hfit Eq Hsc Hstep) as (_ & -> & Hq'). rewrite app_nil_r.
      assert (Hpe : pend r' = pend r) by (unfold pend; by rewrite Eq, Hq').
      destruct Hw as [?|q0 f id op|q0 f id op]; [apply work_none; congruence|eapply (work_write _ _ _ _ _ _ _ q0)|
        eapply (work_flush _ _ _ _ _ _ _ q0)]; try done; congruence.
    + destruct Hw as [Ht ? ?|? ? ? ? _ E|? ? ? ? _ E]; [|congruence..]. apply work_none; [|done..].
      rewrite Ht, (step_pend _ (engine_ids conf Hset x) _ _ _ _ _ Hs Hok Hfit ltac:(by right) Hstep).
      unfold pend. by rewrite Eq.
  - exists net. split; [done|].
    destruct (dead_stepped (im_pending_persists c) net x _ b r n ev r' es Hs Hd Hfine Hstep Hal Hst Hh Hp Hl) as [Hup Hes].
    apply (matches_shift x c _ net); [done|done|apply Hmt|apply moved_refl| |].
    { apply shift_stepped; [eapply shift_refl; [done|apply moved_refl]|done..]. }
    apply Hat. by rewrite Htodo.
Qed.

(** ** Failing a batch *)

(** The member waits for a batch that cannot complete any more: what its device may
    still show is a prefix of the frame. *)
Record doomed net (x : NodeId) w b r (q : PendingStorage) : Prop := {
  dm_alive : bd_alive b = true;
  dm_sound : sound (engine_config conf x) (n_sent net) r;
  dm_stored : exists ds, stored (member_identity conf x) (cc_wal conf) w (bd_stable b) ds;
  dm_host : n_host net !! x = Some (mkHost r (wal_recovered w) false);
  dm_waits : pending_storage_ r = Some q;
  dm_pending : bd_pending b = ∅;
  dm_left : leftover conf w r (bd_unstable b);
}.

Lemma failed_stepped net x w b r q err :
  doomed net x w b r q ->
  exists r' es, step (StorageComplete (ps_op_id q) false err) r = Returns (tt, r', es) /\
    persists es = [] /\ Forall (effect_ok net) es /\ forall pp, member_up conf pp [] net x w b r'.
Proof.
  intros []. destruct (sound_returns x _ (StorageComplete (ps_op_id q) false err) r dm_sound0 I) as (r' & es & Hst).
  exists r', es. pose proof (engine_ids conf Hset x) as Hids.
  destruct (failing_step _ Hids _ _ _ _ _ _ dm_sound0 dm_waits0 Hst) as (Hs' & Hd & Hse & Hpe).
  destruct (step_batches _ Hids _ (StorageComplete (ps_op_id q) false err) _ _ _ dm_sound0 I I Hst) as (_ & Hf & _).
  split_and!; [done..|apply effects_ok; [done|rewrite Hse; by intros e ?%not_elem_of_nil]|].
  intros pp. constructor; [done..|]. by apply (engaged_dead conf _ _ _ _ _ _ _ r).
Qed.

(** The effects that are no batches. *)
Definition light (q : list (NodeId * RaftEffect)) : Prop := Forall (fun p => effect_persist p.2 = None) q.

Lemma light_own x es : persists es = [] -> light (pair x <$> es).
Proof.
  intros He. apply Forall_fmap. induction es as [|e es IH]; constructor; simpl in *.
  - by destruct (effect_persist e).
  - apply IH. by destruct (effect_persist e).
Qed.

(** [fail_storage] stops the node of a doomed member. *)
Lemma fail_storage_steps d c c0 net x rt b r q what :
  matches c net -> x ∈ cc_members conf -> shift x c c0 net ->
  im_nodes c0 !! x = Some rt -> rt_raft rt = Some r -> rt_raft_config rt = member_config conf x ->
  rt_identity rt = member_identity conf x -> body_at (im_simulator c0) x = Some b ->
  queued x (im_effect_queue c0) = [] -> doomed net x (rt_wal_state rt) b r q ->
  exists c2 es, matches c2 net /\ im_effect_queue c2 = im_effect_queue c0 ++ (pair x <$> es) /\
    persists es = [] /\ im_draining_effects c2 = im_draining_effects c0 /\
    fail_storage_with d c0 x (ps_op_id q) what = if im_draining_effects c0 then inr c2 else d c2.
Proof.
  intros Hmt Hin Hsh Hx Hr Hcf Hid Hb Hq Hdm. unfold fail_storage_with.
  set (c1 := record _ _ _ _ _ _ _ _ _ _). assert (Hcore : core c1 = core c0) by apply record_core_eq.
  clearbody c1. destruct (core_fields _ _ Hcore) as (_ & E2 & E3 & _ & E5 & E6).
  destruct (failed_stepped net x _ b r q what Hdm) as (r' & es & Hst & Hpe & Hes & Hup).
  exists (stepped c1 x rt r' es), es.
  rewrite (deliver_steps d c1 x rt r _ r' es); rewrite ?E2, ?E3, ?E6; [|done|done| |done].
  2: { rewrite (alive_body _ _ _ Hb). apply Hdm. }
  split_and!; [|simpl; by rewrite E5|done|simpl; by rewrite E6|done].
  apply (matches_shift x c _ net); [done|done|apply Hmt|apply moved_refl| |].
  { apply shift_stepped; [by apply (shift_core x c c0)|done|done]. }
  destruct (stepped_found c1 x rt r' es) as [Hn Hqx]. exists (set_raft rt (Some r')), b.
  split_and!; [done|simpl; by rewrite E2|]. constructor; [done..|]. rewrite Hqx, E5, Hq, Hpe. apply Hup.
Qed.

(** ** Starting a batch *)

(** A batch in the queue is the one its node waits for, and nothing of it has reached
    the device. *)
Lemma queued_member c net x op batch q :
  matches c net -> im_effect_queue c = (x, PersistEffect op batch) :: q ->
  x ∈ cc_members conf /\ queued x q = [] /\
  exists rt b r p, im_nodes c !! x = Some rt /\ rt_raft rt = Some r /\
    rt_raft_config rt = member_config conf x /\ rt_identity rt = member_identity conf x /\
    body_at (im_simulator c) x = Some b /\ op = ps_op_id p /\ batch = ps_batch p /\
    bd_unstable b = [] /\ doomed net x (rt_wal_state rt) b r p.
Proof.
  intros Hmt Hq. pose proof (mt_queue _ _ _ Hmt) as Hok. rewrite Hq in Hok.
  apply Forall_cons in Hok as [[Hin _] _]. simpl in Hin.
  destruct (mt_members _ _ _ Hmt x Hin) as (rt & b & Hx & Hb & [Hcf Hid Hst]). rewrite Hq in Hst. simpl in Hst.
  rewrite decide_True in Hst by done. simpl in Hst. destruct (rt_raft rt) as [r|] eqn:Hr; [|by destruct Hst].
  destruct Hst as [Hal Hs Hstored He].
  destruct He as [Hh [Ht Hu Hp|? ? ? ? Ht|? ? ? ? Ht]|? ? ? Ht]; try discriminate Ht.
  unfold pend in Ht. destruct (pending_storage_ r) as [p|] eqn:Ep; [|discriminate Ht]. injection Ht as -> -> Hnil.
  split_and!; [done|exact Hnil|]. exists rt, b, r, p. split_and!; try done. constructor; try done. by left.
Qed.

Lemma submit_write_inv s n bytes l : sim_inv s -> sim_inv (submit_write s n bytes l).2.
Proof. apply (call_inv s (call_write n bytes l)). Qed.

Lemma submit_flush_inv s n l : sim_inv s -> sim_inv (submit_flush s n l).2.
Proof. apply (call_inv s (call_flush n l)). Qed.

(** The simulator changes nothing that matters, for a shift. *)
Lemma shift_still x c c0 net s :
  shift x c c0 net -> sim_inv s -> still (im_simulator c0) s -> shift x c (set_simulator c0 s) net.
Proof. intros Hsh Hi (Hb & Hw & Hid). apply shift_sim; [done|done|done|by intros y _|by left]. Qed.

Lemma emplace_core c c' id p : core c' = core c -> core (emplace_persist c' id p) = core (emplace_persist c id p).
Proof.
  intros (E1 & E2 & E3 & E4 & E5 & E6)%core_fields. unfold emplace_persist. rewrite E4.
  destruct (im_pending_persists c !! id); unfold core; simpl; by rewrite E1, E2, E3, ?E4, E5, E6.
Qed.

(** A fresh operation of the device gets its bridge. *)
Lemma emplaced x c c0 net s id op p :
  shift x c c0 net -> sim_inv s -> accepts_op (im_simulator c0) s x id op -> pp_node p = x ->
  exists c1, emplace_persist (set_simulator c0 s) id p = c1 /\ shift x c c1 net /\
    im_pending_persists c1 !! id = Some p /\ im_simulator c1 = s /\ im_nodes c1 = im_nodes c0 /\
    im_effect_queue c1 = im_effect_queue c0 /\ im_draining_effects c1 = im_draining_effects c0.
Proof.
  intros Hsh Hi [(st & _ & _ & Hb & Hw) [Hid Hz] Hnext] Hp. eexists. split; [reflexivity|].
  assert (Hnone : im_pending_persists c0 !! id = None).
  { destruct (im_pending_persists c0 !! id) as [p'|] eqn:E; [|done].
    destruct (sf_fresh _ _ _ _ Hsh _ _ E); [congruence|lia]. }
  assert (Hs1 : shift x c (set_simulator c0 s) net).
  { apply shift_sim; [done..| |right; split; congruence]. intros y Hy. by rewrite Hb, decide_False. }
  unfold emplace_persist. simpl. rewrite Hnone. split_and!; [|simpl; by rewrite lookup_insert_eq|done..].
  apply (shift_bridge x c (set_simulator c0 s)); [done..|]. simpl. rewrite Hnext. unfold next_id.
  destruct (N.eqb_spec id u64_max); [by left|right]. destruct (sf_sim _ _ _ _ Hsh) as [Hst _].
  pose proof (sv_next _ Hst). rewrite add64_small by lia. lia.
Qed.

Definition drained_on (q : list (NodeId * RaftEffect)) c : Prop :=
  (exists net app, matches c net /\ im_effect_queue c = q ++ app /\ light app) /\ im_draining_effects c = true.

Lemma handle_persist_ok c c1 net x op batch q :
  matches c net -> im_effect_queue c = (x, PersistEffect op batch) :: q -> im_draining_effects c = true ->
  core c1 = core (set_effect_queue c q) -> returns (handle_persist no_drain c1 x op batch) (drained_on q).
Proof.
  intros Hmt Hq Hdr Hcore.
  destruct (queued_member c net x op batch q Hmt Hq)
    as (Hin & Hnil & rt & b & r & p & Hx & Hr & Hcf & Hid & Hb & -> & -> & Hu & Hdm).
  assert (Hsh : shift x c c1 net).
  { apply (shift_core x c (set_effect_queue c q)); [|done]. apply (shift_pop x c c net) with (PersistEffect (ps_op_id p) (ps_batch p)); [|done].
    eapply shift_refl; [done|apply moved_refl]. }
  destruct (core_fields _ _ Hcore) as (E1 & E2 & E3 & E4 & E5 & E6). simpl in *.
  assert (Hfail : forall c0 what, shift x c c0 net -> im_nodes c0 = im_nodes c ->
    body_at (im_simulator c0) x = Some b -> im_effect_queue c0 = q -> im_draining_effects c0 = true ->
    returns (fail_storage_with no_drain c0 x (ps_op_id p) what) (drained_on q)).
  { intros c0 what Hs0 N0 B0 Q0 D0.
    destruct (fail_storage_steps no_drain c c0 net x rt b r p what Hmt Hin Hs0) as (c2 & es & Hm2 & Hq2 & Hpe & Hd2 & ->);
      try done; [by rewrite N0|by rewrite Q0|]. rewrite D0. exists c2. split; [done|].
    split; [|congruence]. exists net, (pair x <$> es). split_and!; [done|by rewrite Hq2, Q0|by apply light_own]. }
  unfold handle_persist, runtime. rewrite E2, E3, Hx, Hr, (alive_body _ _ _ Hb), (dm_alive _ _ _ _ _ _ Hdm). simpl.
  rewrite E1, (mt_config _ _ _ Hmt).
  destruct (encode_wal_frame (rt_wal_state rt) (ps_batch p) (cc_wal conf)) as [err|f] eqn:Hf.
  { apply Hfail; [done|done|by rewrite E2|done|by rewrite E6]. }
  pose proof (submit_write_inv (im_simulator c) x (ef_bytes f) (rt_storage_write_latency rt) (mt_sim _ _ _ Hmt)) as Hi.
  destruct (submit_write (im_simulator c) x (ef_bytes f) (rt_storage_write_latency rt)) as [sub s] eqn:Hsub.
  pose proof (write_frame _ _ _ _ _ _ (mt_sim _ _ _ Hmt) Hsub) as Hfr. simpl in Hi.
  assert (Hstill : still (im_simulator c) s -> forall what, returns
    (fail_storage_with no_drain (sync_simulator_trace (set_simulator c1 s)) x (ps_op_id p) what) (drained_on q)).
  { intros Hst what. pose proof (sync_core (set_simulator c1 s)) as Hc2.
    destruct (core_fields _ _ Hc2) as (_ & F2 & F3 & _ & F5 & F6). simpl in *. apply Hfail.
    - apply (shift_core x c (set_simulator c1 s)); [|done]. apply shift_still; [done..|]. by rewrite E2.
    - by rewrite F3.
    - rewrite F2. destruct Hst as [Hst _]. by rewrite Hst.
    - by rewrite F5.
    - by rewrite F6, E6. }
  destruct (sub_status sub); try (by apply Hstill). destruct Hfr as (o & Hacc & Hk & Hby & Hact).
  eexists. split; [reflexivity|]. set (bridge := mkPendingPersist _ _ _ _ _).
  assert (Hsync : core (emplace_persist (sync_simulator_trace (set_simulator c1 s)) (sub_operation_id sub) bridge) =
    core (emplace_persist (set_simulator c1 s) (sub_operation_id sub) bridge)).
  { apply emplace_core, sync_core. }
  rewrite <- E2 in Hacc. destruct (emplaced x c c1 net s (sub_operation_id sub) o bridge Hsh Hi Hacc eq_refl)
    as (c3 & Hc3 & Hsh3 & Hpp & Hs3 & Hn3 & Hq3 & Hd3). rewrite Hc3 in Hsync.
  match goal with |- drained_on q ?c4 => assert (Hcore4 : core c4 = core c3) by (by rewrite record_core_eq, Hsync) end.
  destruct (core_fields _ _ Hcore4) as (_ & G2 & G3 & G4 & G5 & G6). split; [|congruence].
  exists net, []. split_and!; [|rewrite app_nil_r; congruence|constructor].
  apply (matches_core conf c3); [done|]. apply (matches_shift x c _ net); [done|done|apply Hmt|apply moved_refl|done|].
  destruct Hacc as [(st & Hsn & Hal & Hbod & _) _ _]. unfold body_at in Hb. rewrite E2 in Hsn. rewrite Hsn in Hb.
  injection Hb as <-. exists rt. eexists. split_and!; [by rewrite Hn3, E3|rewrite Hs3, Hbod; by rewrite decide_True|].
  constructor; [done..|]. rewrite Hr. destruct Hdm. constructor; [done..|]. apply engaged_live; [done|].
  simpl in *. eapply (work_write conf _ _ _ _ _ _ p f _ o); try done.
  - by rewrite Hq3, E5.
  - simpl. rewrite dm_pending0. done.
  - intros Hc. by rewrite decide_True in Hact.
  - rewrite Hpp. unfold bridge, bridge_to. do 2 f_equal. simpl. erewrite incarnation_body; [|rewrite Hbod; by rewrite decide_True]. done.
Qed.

(** ** The other effects *)

(** The relation holds, and the queue is as before. *)
Definition stays c net c' : Prop :=
  matches c' net /\ im_effect_queue c' = im_effect_queue c /\ im_draining_effects c' = im_draining_effects c.

Lemma stays_core c net c' : matches c net -> core c' = core c -> stays c net c'.
Proof.
  intros Hmt Hc. destruct (core_fields _ _ Hc) as (_ & _ & _ & _ & Hq & Hd).
  split_and!; [by eapply matches_core|done..].
Qed.

Lemma stays_trans c c1 c2 net : stays c net c1 -> (matches c1 net -> stays c1 net c2) -> stays c net c2.
Proof. intros (H1 & Q1 & D1) Hk. destruct (Hk H1) as (? & ? & ?). split_and!; [done|congruence..]. Qed.

Lemma stays_still c net s :
  matches c net -> sim_inv s -> still (im_simulator c) s -> stays c net (set_simulator c s).
Proof. intros. split_and!; [by apply matches_still|done..]. Qed.

Lemma stays_runtime c net x rt rt' :
  matches c net -> im_nodes c !! x = Some rt ->
  rt_raft_config rt' = rt_raft_config rt -> rt_identity rt' = rt_identity rt ->
  rt_wal_state rt' = rt_wal_state rt -> rt_raft rt' = rt_raft rt -> stays c net (put_runtime c x rt').
Proof. intros. split_and!; [by eapply matches_runtime|done..]. Qed.

Lemma matches_sent c net f t bytes delay :
  matches c net -> (forall m, ne_from m = f -> ne_to m = t -> ne_bytes m = bytes -> carried conf net m) ->
  matches (set_simulator c (Simulator.send (im_simulator c) f t bytes delay).2) net.
Proof.
  intros Hmt Hm. pose proof (call_inv (im_simulator c) (call_send f t bytes delay) (mt_sim _ _ _ Hmt)) as Hi.
  simpl in Hi. destruct (send_frame (im_simulator c) f t bytes delay (mt_sim _ _ _ Hmt)) as (Hb & Hid & Hw).
  destruct Hmt. constructor; simpl; try done.
  - intros m Hon. destruct (Hw m Hon) as [?|(? & ? & ?)]; auto.
  - by rewrite Hid.
  - intros x Hx. destruct (mt_members x Hx) as (rt & b & H1 & H2 & H3). exists rt, b. simpl. by rewrite Hb.
  - intros x. rewrite Hb. apply mt_bodies.
Qed.

Lemma handle_send_ok c net x env :
  matches c net -> effect_ok net (SendEffect env) -> stays c net (handle_send c x env).
Proof.
  intros Hmt [Hfit Hsent]. unfold handle_send. set (c1 := match env_message env with MRequestVote _ => _ | _ => _ end).
  assert (Hc1 : core c1 = core c) by (unfold c1; repeat case_match; by rewrite ?register_vote_core). clearbody c1.
  apply (stays_trans c c1); [by apply stays_core|]. clear Hmt. intros Hmt. rewrite (mt_config _ _ _ Hmt).
  destruct (Codec.encode_message (env_message env) (cc_codec conf)) as [bytes|error offset] eqn:Henc;
    [|apply stays_core; [done|]; by rewrite record_core_eq, adapter_failure_core].
  pose proof (matches_sent c1 net (env_from env) (env_to env) bytes (cc_network_delay conf) Hmt) as Hm.
  destruct (Simulator.send _ _ _ _ _) as [sent s]. simpl in Hm.
  apply (stays_trans c1 (set_simulator c1 s)).
  - split_and!; [|done..]. apply Hm. intros m Hf Ht Hby. exists env. rewrite Hby. by split_and!.
  - intros Hm2. apply stays_core; [done|]. by rewrite record_core_eq, sync_core.
Qed.

Lemma jittered_same config rt timer d rt' :
  jittered config rt timer = (d, rt') ->
  rt_raft_config rt' = rt_raft_config rt /\ rt_identity rt' = rt_identity rt /\
  rt_wal_state rt' = rt_wal_state rt /\ rt_raft rt' = rt_raft rt.
Proof. unfold jittered. repeat case_match; by intros [= <- <-]. Qed.

Lemma handle_timer_ok c net x timer : matches c net -> stays c net (handle_timer c x timer).
Proof.
  intros Hmt. unfold handle_timer, runtime. destruct (im_nodes c !! x) as [rt|] eqn:Hx; [|by apply stays_core].
  destruct (rt_raft rt) as [r|] eqn:Hr; [|by apply stays_core].
  destruct (negb _); [by apply stays_core|]. destruct (jittered _ rt timer) as [delay rt1] eqn:Hj.
  destruct (jittered_same _ _ _ _ _ Hj) as (J1 & J2 & J3 & J4). cbv zeta.
  apply (stays_trans c (put_runtime c x rt1)); [by apply (stays_runtime c net x rt)|]. clear Hmt. intros Hmt.
  destruct delay as [delay|]; [|apply stays_core; [done|apply record_core_eq]].
  set (c0 := put_runtime c x rt1) in *. assert (Hx0 : im_nodes c0 !! x = Some rt1) by apply lookup_insert_eq.
  clearbody c0. pose proof (call_inv (im_simulator c0) (call_arm x (tr_kind timer) delay) (mt_sim _ _ _ Hmt)) as Hi.
  pose proof (arm_still (im_simulator c0) x (tr_kind timer) delay (sim_inv_queue _ (mt_sim _ _ _ Hmt))) as Hst.
  simpl in Hi. destruct (arm_timer _ _ _ _) as [token s]. simpl in Hi, Hst.
  apply (stays_trans c0 (set_simulator c0 s)); [by apply stays_still|]. clear Hmt. intros Hmt.
  apply (stays_trans _ (sync_simulator_trace (set_simulator c0 s))); [apply stays_core; [done|apply sync_core]|].
  clear Hmt. intros Hmt. set (c1 := sync_simulator_trace _) in *.
  assert (Hx1 : im_nodes c1 !! x = Some rt1).
  { destruct (core_fields _ _ (sync_core (set_simulator c0 s))) as (_ & _ & E & _). unfold c1. by rewrite E. }
  clearbody c1. assert (Hbind : forall binding source kind node peer t i tok bytes detail,
    stays c1 net (record (put_runtime c1 x (set_timer_binding rt1 (tr_kind timer) binding))
      source kind node peer t i tok bytes detail)).
  { intros. eapply stays_trans; [|intros ?; apply stays_core; [done|apply record_core_eq]].
    apply (stays_runtime c1 net x rt1); try done; by destruct (tr_kind timer). }
  destruct token as [token|]; [apply Hbind|].
  assert (Hrej : forall source kind node peer t i tok bytes detail what, stays c1 net
    (record (set_adapter_failure c1 what) source kind node peer t i tok bytes detail)).
  { intros. apply stays_core; [done|]. by rewrite record_core_eq, adapter_failure_core. }
  repeat case_match; try apply Hbind; apply Hrej.
Qed.

(** ** Draining the queue *)

Lemma drained_stays q c c' net : matches c net -> im_effect_queue c = q -> im_draining_effects c = true ->
  stays c net c' -> drained_on q c' /\ im_effect_queue c' = q.
Proof.
  intros _ Hq Hd (Hm & Hq' & Hd'). split; [split; [|congruence]|congruence]. exists net, [].
  split_and!; [done|rewrite app_nil_r; congruence|constructor].
Qed.

Lemma handle_effect_ok c c1 net x e q :
  matches c net -> im_effect_queue c = (x, e) :: q -> im_draining_effects c = true ->
  core c1 = core (set_effect_queue c q) ->
  returns (handle_effect no_drain c1 x e)
    (fun c2 => drained_on q c2 /\ (effect_persist e = None -> im_effect_queue c2 = q)).
Proof.
  intros Hmt Hq Hd Hcore. destruct (effect_persist e) as [pb|] eqn:He.
  { destruct e; try discriminate He. eapply returns_mono; [by eapply handle_persist_ok|].
    intros c2 H2. by split. }
  assert (Hok : effect_ok net e).
  { pose proof (mt_queue _ _ _ Hmt) as Hall. rewrite Hq in Hall. by apply Forall_cons in Hall as [[_ ?] _]. }
  assert (Hm1 : matches c1 net) by (eapply matches_core; [done|by eapply matches_pop]).
  destruct (core_fields _ _ Hcore) as (_ & _ & _ & _ & E5 & E6). simpl in E5, E6. rewrite Hd in E6.
  assert (Hdone : forall c2, stays c1 net c2 -> returns (inr c2 : Throw Impl)
    (fun c2 => drained_on q c2 /\ (@None (StorageOpId * PersistBatch) = None -> im_effect_queue c2 = q))).
  { intros c2 Hst. exists c2. split; [done|]. by destruct (drained_stays q c1 c2 net Hm1 E5 E6 Hst). }
  destruct e as [op b|env|timer|reply|t]; simpl; [discriminate He|..]; apply Hdone.
  - by apply handle_send_ok.
  - by apply handle_timer_ok.
  - apply stays_core; [done|]. by rewrite record_core_eq, retain_core.
  - apply stays_core; [done|]. rewrite record_core_eq. case_match; [apply register_leader_core|done].
Qed.

(** One turn of the loop takes the first effect. *)
Lemma drain_turn n c net x e q :
  matches c net -> im_effect_queue c = (x, e) :: q -> im_draining_effects c = true ->
  exists c2, drain_turns (S n) c = drain_turns n c2 /\ drained_on q c2 /\
    (effect_persist e = None -> im_effect_queue c2 = q).
Proof.
  intros Hmt Hq Hd.
  destruct (handle_effect_ok c (sync_simulator_trace (set_effect_queue c q)) net x e q Hmt Hq Hd
    (sync_core _)) as (c2 & Hh & H2).
  exists c2. split; [|done]. cbn [drain_turns]. rewrite Hq, Hh. done.
Qed.

(** After as many turns as there were effects, only effects that are no batches are
    left. *)
Lemma drain_turns_light rest c net app :
  matches c net -> im_effect_queue c = rest ++ app -> light app -> im_draining_effects c = true ->
  returns (drain_turns (length rest) c)
    (fun c' => exists net', matches c' net' /\ light (im_effect_queue c') /\ im_draining_effects c' = true).
Proof.
  revert c net app. induction rest as [|[x e] rest IH]; intros c net app Hmt Hq Hl Hd; cbn [length].
  { exists c. split; [done|]. exists net. rewrite Hq. done. }
  destruct (drain_turn (length rest) c net x e _ Hmt Hq Hd) as (c2 & -> & [(net2 & app2 & Hm2 & Hq2 & Hl2) Hd2] & _).
  eapply (IH c2 net2 (app ++ app2)); [done|by rewrite Hq2, app_assoc|by apply Forall_app|done].
Qed.

(** Effects that are no batches add nothing to the queue. *)
Lemma drain_turns_empty q c net :
  matches c net -> im_effect_queue c = q -> light q -> im_draining_effects c = true ->
  returns (drain_turns (length q) c)
    (fun c' => exists net', matches c' net' /\ im_effect_queue c' = [] /\ im_draining_effects c' = true).
Proof.
  revert c net. induction q as [|[x e] q IH]; intros c net Hmt Hq Hl Hd; cbn [length].
  { exists c. split; [done|]. by exists net. }
  apply Forall_cons in Hl as [He Hl]. simpl in He.
  destruct (drain_turn (length q) c net x e _ Hmt Hq Hd) as (c2 & -> & [(net2 & app2 & Hm2 & _) Hd2] & Hq2).
  by eapply (IH c2 net2); [done|apply Hq2|..].
Qed.

(** The state between two calls. *)
Definition at_ease c : Prop :=
  exists net, matches c net /\ im_effect_queue c = [] /\ im_draining_effects c = false.

Lemma ease_core c c' : at_ease c -> core c' = core c -> at_ease c'.
Proof.
  intros (net & Hm & Hq & Hd) Hc. destruct (core_fields _ _ Hc) as (_ & _ & _ & _ & E5 & E6).
  exists net. split_and!; [by eapply matches_core|congruence..].
Qed.

Lemma matches_flag c net flag : matches c net -> matches (set_draining_effects c flag) net.
Proof. by intros []. Qed.

Lemma drain_effects_ok c net : matches c net -> returns (drain_effects c) at_ease.
Proof.
  intros Hmt. unfold drain_effects, drain_loop.
  set (c0 := set_draining_effects c true). assert (Hm0 : matches c0 net) by by apply matches_flag.
  assert (Hd0 : im_draining_effects c0 = true) by done. clearbody c0.
  eapply returns_bind.
  { eapply returns_bind; [eapply (drain_turns_light (im_effect_queue c0) c0 net []); try done; [by rewrite app_nil_r|constructor]|].
    intros c1 (net1 & Hm1 & Hl1 & Hd1). by eapply (drain_turns_empty _ c1 net1). }
  intros c2 (net2 & Hm2 & Hq2 & Hd2). eexists. split; [done|].
  destruct (core_fields _ _ (sync_core c2)) as (_ & _ & _ & _ & E5 & _).
  exists net2. split_and!; [apply matches_flag; eapply matches_core; [apply sync_core|done]|simpl; congruence|done].
Qed.

(** An event for a member: its effects are carried out, and the queue is empty again. *)
Lemma deliver_ok c net x ev :
  matches c net -> im_effect_queue c = [] -> im_draining_effects c = false -> event_fine net ev ->
  is_storage_complete ev = false -> returns (deliver c x ev) at_ease.
Proof.
  intros Hmt Hq Hd Hev Hsc. assert (He : at_ease c) by (by exists net). unfold deliver, deliver_with, runtime.
  destruct (im_nodes c !! x) as [rt|] eqn:Hx; [|by exists c].
  destruct (rt_raft rt) as [r|] eqn:Hr; [|by exists c].
  destruct (up_found c net x rt r Hmt Hx Hr) as (_ & _ & _ & Ha & _). rewrite Ha. simpl.
  destruct (event_stepped c net x rt r ev Hmt Hx Hr Hev Hsc) as (r' & es & net' & -> & Hm').
  unfold enqueue_with. simpl. rewrite Hd. by eapply (drain_effects_ok (stepped c x rt r' es)).
Qed.

End effects.
