(* ===== verification/HarnessRun.v ===== *)
(** * HarnessRun: the calls of the deterministic cluster

    Storage completions, the event loop, client requests, crashes, restarts and
    construction keep the relation of [HarnessState]; a call returns unless the
    observer reports a violation, the client tokens are used up or the engine
    refuses a recovered log. *)

From stdpp Require Import relations.
From S2P Require Import Prelude Model StateMachine RaftTypes Raft RaftSpec RaftRefine RaftReplicate RaftElection RaftAppend RaftStep System SystemFrame SystemSteps SystemLog SystemSafety Deployment ClusterSafety RaftTyped RaftOps.
From S2P Require Codec HostPoll HostSites.
From S2P Require Import Bytes Wal WalFormat WalFrames WalRecovery WalScan WalFile WalDurability HostAhead HostStep.
From S2P Require Import Pcg SimQueue Simulator SimTrace SimSpec SimStorage SimTheorems HarnessTypes Harness HarnessSim HarnessState HarnessEffects.
#[local] Open Scope N_scope.

Section storage.
Context `{HeapLaws} (conf : ClusterConfig) (Hset : harness_setup conf).
Implicit Types (net : Net) (b : Body) (r : RaftNode) (w : WalState) (c : Impl).
Abbreviation matches := (matches conf).
Abbreviation member_at := (member_at conf).
Abbreviation at_ease := (at_ease conf).

Lemma shift_moved x c c0 net net' : moved x net net' -> shift conf x c c0 net -> shift conf x c c0 net'.
Proof.
  intros Hm []. constructor; try done.
  - intros m Hw. destruct (sf_wire m Hw) as [?|?]; [by left|right]. by eapply carried_moved.
  - eapply Forall_impl; [exact sf_queue|]. intros p [? ?]. split; [done|]. by eapply effect_ok_moved.
Qed.

(** A batch whose frame is stable completes: the abstract host writes it and takes
    the completion. *)
Lemma complete_steps d c c0 net x rt b r q w0 ds :
  matches c net -> x ∈ cc_members conf -> shift conf x c c0 net -> im_nodes c0 !! x = Some rt ->
  rt_raft rt = Some r -> rt_raft_config rt = member_config conf x -> rt_identity rt = member_identity conf x ->
  body_at (im_simulator c0) x = Some b -> bd_alive b = true -> bd_unstable b = [] -> bd_pending b = ∅ ->
  queued x (im_effect_queue c0) = [] -> im_draining_effects c0 = false ->
  sound (engine_config conf x) (n_sent net) r ->
  n_host net !! x = Some (mkHost r (wal_recovered w0) false) -> pending_storage_ r = Some q ->
  stored (member_identity conf x) (cc_wal conf) (rt_wal_state rt) (bd_stable b) ds ->
  wal_recovered (rt_wal_state rt) = apply_batch (wal_recovered w0) (ps_batch q) ->
  exists c2 net', matches c2 net' /\
    deliver_with d c0 x (StorageComplete (ps_op_id q) true EmptyString) = d c2.
Proof.
  intros Hmt Hin Hsh Hx Hr Hcf Hid Hb Hal Hu Hp Hq Hd Hs Hh Hw Hst Hrec.
  set (ev := StorageComplete (ps_op_id q) true EmptyString). pose proof (engine_ids conf Hset x) as Hids.
  destruct (sound_returns conf x _ ev r Hs I) as (r' & es & Hstep).
  destruct (step_batches _ Hids _ ev _ _ _ Hs I I Hstep) as (Hs' & Hf & _).
  destruct (do_write _ _ net x r _ q (mt_cluster _ _ _ Hmt) Hh Hw) as (net1 & Hc1 & Hm1 & Hx1).
  destruct (do_done _ _ net1 x r _ q r' es Hc1 Hx1 Hw Hstep) as (net2 & Hc2 & Hm2 & Hx2 & Hse).
  assert (Hm : moved x net net2) by (by eapply moved_trans).
  exists (stepped c0 x rt r' es), net2. split.
  - apply (matches_shift conf x c _ net); [done..| |].
    { apply shift_stepped; [by eapply shift_moved|done|by apply effects_ok]. }
    destruct (stepped_found c0 x rt r' es) as [Hn Hqx]. exists (set_raft rt (Some r')), b.
    split_and!; [done..|]. constructor; [done..|]. rewrite Hqx, Hq. simpl.
    constructor; [done|eapply sound_mono; [|done]; intros e; by apply (moved_sent x)|by exists ds|].
    apply engaged_live; [by rewrite Hrec|]. apply work_none; [|done..].
    symmetry. apply (step_pend _ Hids _ ev r r' es Hs I I); [left|done]. unfold completed. rewrite Hw. simpl. by rewrite N.eqb_refl.
  - rewrite (deliver_steps d c0 x rt r ev r' es); [by rewrite Hd|done|done| |done].
    by rewrite (alive_body _ _ _ Hb).
Qed.

(** [fail_storage] outside a drain. *)
Lemma fail_storage_ok c c0 net x rt b r q what :
  matches c net -> x ∈ cc_members conf -> shift conf x c c0 net ->
  im_nodes c0 !! x = Some rt -> rt_raft rt = Some r -> rt_raft_config rt = member_config conf x ->
  rt_identity rt = member_identity conf x -> body_at (im_simulator c0) x = Some b ->
  queued x (im_effect_queue c0) = [] -> im_draining_effects c0 = false ->
  doomed conf net x (rt_wal_state rt) b r q ->
  returns (fail_storage c0 x (ps_op_id q) what) at_ease.
Proof.
  intros Hmt Hin Hsh Hx Hr Hcf Hid Hb Hq Hd Hdm. unfold fail_storage.
  destruct (fail_storage_steps conf Hset drain_effects c c0 net x rt b r q what Hmt Hin Hsh Hx Hr Hcf Hid Hb Hq Hdm)
    as (c2 & es & Hm2 & _ & _ & _ & ->). rewrite Hd. by eapply drain_effects_ok.
Qed.

(** ** A completion of the device *)

(** The member a completion belongs to: it is writing or flushing. *)
Record completing c net (x : NodeId) (rt : NodeRuntime) b r (q : PendingStorage) (f : WalEncodedFrame)
    (id : N) (op : PendingStorageOperation) (stage : PersistStage) : Prop := {
  cp_in : x ∈ cc_members conf;
  cp_runtime : im_nodes c !! x = Some rt;
  cp_raft : rt_raft rt = Some r;
  cp_config : rt_raft_config rt = member_config conf x;
  cp_identity : rt_identity rt = member_identity conf x;
  cp_body : body_at (im_simulator c) x = Some b;
  cp_alive : bd_alive b = true;
  cp_sound : sound (engine_config conf x) (n_sent net) r;
  cp_stored : exists ds, stored (member_identity conf x) (cc_wal conf) (rt_wal_state rt) (bd_stable b) ds;
  cp_host : n_host net !! x = Some (mkHost r (wal_recovered (rt_wal_state rt)) false);
  cp_waits : pending_storage_ r = Some q;
  cp_frame : encode_wal_frame (rt_wal_state rt) (ps_batch q) (cc_wal conf) = inr f;
  cp_pending : bd_pending b = {[id := op]};
  cp_bridge : im_pending_persists c !! id = Some (bridge_to x b q f stage);
  cp_stage : match stage with
    | stage_write => po_kind op = op_write /\ po_bytes op = ef_bytes f /\ bd_unstable b = [] /\
        (po_completion_status op = completed_ok -> po_actual_write_bytes op = blen (ef_bytes f))
    | stage_flush => po_kind op = op_flush /\ bd_unstable b = ef_bytes f
    end;
}.

Lemma completion_found c net x b id op :
  matches c net -> body_at (im_simulator c) x = Some b -> bd_alive b = true -> bd_pending b !! id = Some op ->
  exists rt r q f stage, completing c net x rt b r q f id op stage.
Proof.
  intros Hmt Hb Ha Hop. assert (Hin : x ∈ cc_members conf) by (apply (mt_bodies _ _ _ Hmt); eauto).
  destruct (mt_members _ _ _ Hmt x Hin) as (rt & b' & Hx & Hb' & [Hcf Hid Hst]). simplify_eq.
  destruct (rt_raft rt) as [r|] eqn:Hr; [|destruct Hst; congruence].
  destruct Hst as [Hal Hs Hstored He].
  assert (Hne : bd_pending b <> ∅) by (intros E; by rewrite E, lookup_empty in Hop).
  destruct He as [Hh [?|q f i o ? ? ? ? Hp ? ? ? ?|q f i o ? ? ? ? Hp ? ? ?]|]; [done|..|done].
  all: rewrite Hp in Hop; apply lookup_singleton_Some in Hop as [<- <-].
  - exists rt, r, q, f, stage_write. by constructor.
  - exists rt, r, q, f, stage_flush. by constructor.
Qed.

Lemma batch_of_fits x sent r q :
  sound (engine_config conf x) sent r -> pending_storage_ r = Some q -> batch_fits (ps_batch q).
Proof. intros [_ Ht] Hq. by destruct (ty_pending _ _ Ht _ Hq) as (_ & ? & _). Qed.

Section completed.
Context (c c1 : Impl) (net : Net) (x : NodeId) (rt : NodeRuntime) (b b1 : Body) (r : RaftNode)
  (q : PendingStorage) (f : WalEncodedFrame) (id : N) (op : PendingStorageOperation).
Context (Hmt : matches c net) (Hq : im_effect_queue c = []) (Hd : im_draining_effects c = false).
Context (stage : PersistStage) (Hcp : completing c net x rt b r q f id op stage).

(** The state after the device has completed the operation and the bridge is gone. *)
Context (Hsh : shift conf x c c1 net) (Hn1 : im_nodes c1 = im_nodes c) (Hq1 : im_effect_queue c1 = [])
  (Hd1 : im_draining_effects c1 = false) (Hb1 : body_at (im_simulator c1) x = Some b1)
  (Ha1 : bd_alive b1 = true) (Hp1 : bd_pending b1 = ∅) (Hi1 : bd_incarnation b1 = bd_incarnation b).

Lemma completed_doomed :
  bd_stable b1 = bd_stable b -> bd_unstable b1 `prefix_of` ef_bytes f -> doomed conf net x (rt_wal_state rt) b1 r q.
Proof using Hcp Ha1 Hp1.
  intros Hs Hu. destruct Hcp. constructor; try done; [by rewrite Hs|].
  right. exists q, f. split_and!; try done. by eapply batch_of_fits.
Qed.

Lemma completed_fails what :
  bd_stable b1 = bd_stable b -> bd_unstable b1 `prefix_of` ef_bytes f ->
  returns (fail_storage c1 x (ps_op_id q) what) at_ease.
Proof using All.
  intros Hs Hu. pose proof (completed_doomed Hs Hu) as Hdm. destruct Hcp.
  eapply (fail_storage_ok c c1 net x rt b1 r q); try done; [by rewrite Hn1|by rewrite Hq1].
Qed.

(** The frame is written: the flush is submitted, or the batch fails. *)
Lemma start_flush_ok event :
  se_node event = x -> bd_stable b1 = bd_stable b -> bd_unstable b1 = ef_bytes f ->
  returns (start_flush c1 event (bridge_to x b q f stage_write)) at_ease.
Proof using All.
  intros He Hs Hu. assert (Hdm : doomed conf net x (rt_wal_state rt) b1 r q) by (by apply completed_doomed; rewrite ?Hu).
  pose proof Hcp as []. unfold start_flush, runtime. rewrite He, Hn1, cp_runtime0, cp_raft0, (alive_body _ _ _ Hb1), Ha1. simpl.
  pose proof (sf_sim _ _ _ _ _ Hsh) as Hi.
  pose proof (submit_flush_inv (im_simulator c1) x (rt_storage_flush_latency rt) Hi) as Hi2.
  destruct (submit_flush (im_simulator c1) x (rt_storage_flush_latency rt)) as [sub s] eqn:Hsub. simpl in Hi2.
  pose proof (flush_frame _ _ _ _ _ Hi Hsub) as Hfr. pose proof (sync_core (set_simulator c1 s)) as Hc2.
  destruct (core_fields _ _ Hc2) as (_ & F2 & F3 & _ & F5 & F6). simpl in F2, F3, F5, F6.
  assert (Hstill : still (im_simulator c1) s -> forall what, returns
    (fail_storage (sync_simulator_trace (set_simulator c1 s)) x (ps_op_id q) what) at_ease).
  { intros Hst what. eapply (fail_storage_ok c _ net x rt b1 r q); try done.
    - apply (shift_core conf x c (set_simulator c1 s)); [by apply shift_still|done].
    - by rewrite F3, Hn1.
    - rewrite F2. by rewrite (proj1 Hst).
    - by rewrite F5, Hq1.
    - by rewrite F6. }
  destruct (sub_status sub); try (by apply Hstill). destruct Hfr as (o & Hacc & Hk & Hby).
  destruct (emplaced conf x c c1 net s (sub_operation_id sub) o (bridge_to x b q f stage_flush) Hsh Hi2 Hacc eq_refl)
    as (c3 & Hc3 & Hsh3 & Hpp & Hs3 & Hn3 & Hq3 & Hd3).
  eexists. split; [reflexivity|]. apply (ease_core conf c3); [|rewrite record_core_eq, <- Hc3; apply emplace_core, sync_core].
  exists net. split_and!; [|congruence..]. apply (matches_shift conf x c _ net); [done|done|apply Hmt|apply moved_refl|done|].
  destruct Hacc as [(st & Hsn & Hal & Hbod & _) _ _]. unfold body_at in Hb1. rewrite Hsn in Hb1. injection Hb1 as <-.
  simpl in *. exists rt. eexists. split_and!; [by rewrite Hn3, Hn1|rewrite Hs3, Hbod; by rewrite decide_True|].
  constructor; [done..|]. rewrite cp_raft0. constructor; [done|done|simpl; by rewrite Hs|]. apply engaged_live; [done|].
  eapply (work_flush conf _ _ _ _ _ _ q f _ o); try done.
  - by rewrite Hq3, Hq1.
  - simpl. rewrite Hp1. done.
  - rewrite Hpp. unfold bridge_to. simpl. by rewrite Hi1.
Qed.

(** The frame is stable: the log is scanned and the node takes the completion. *)
Lemma finish_persist_ok event :
  se_node event = x -> bd_stable b1 = bd_stable b ++ ef_bytes f -> bd_unstable b1 = [] ->
  returns (finish_persist c1 event (bridge_to x b q f stage_flush)) at_ease.
Proof using All.
  intros He Hs Hu. pose proof Hcp as []. destruct cp_stored0 as [ds Hst].
  pose proof (batch_of_fits x _ _ _ cp_sound0 cp_waits0) as Hfit.
  pose proof (stored_next _ _ _ _ _ _ _ Hst Hfit cp_frame0) as Hst2.
  destruct (stored_scan _ _ _ _ _ [] tt (encode_wal_frame_options _ _ _ cp_frame0) (identity_ok conf Hset x cp_in0) Hst2
    ltac:(by left)) as (sc & Hscan & Hst3 & _ & Htail & Hseq). rewrite app_nil_r in Hscan. simpl in Htail.
  unfold finish_persist, runtime. rewrite He, Hn1, cp_runtime0, cp_raft0, (stable_body _ _ _ Hb1), Hs, cp_identity0.
  rewrite (sf_config _ _ _ _ _ Hsh), (mt_config _ _ _ Hmt), Hscan, Htail, Hseq. unfold bridge_to at 1.
  cbn [pp_expected_frame_sequence]. rewrite N.eqb_refl. cbn [orb negb].
  set (c2 := put_runtime c1 x (set_wal_state rt (sc_state sc))).
  set (c3 := record c2 _ _ _ _ _ _ _ _ _). assert (Hc3 : core c3 = core c2) by apply record_core_eq. clearbody c3.
  destruct (core_fields _ _ Hc3) as (_ & F2 & F3 & _ & F5 & F6). simpl in F2, F3, F5, F6.
  destruct (complete_steps drain_effects c c3 net x (set_wal_state rt (sc_state sc)) b1 r q (rt_wal_state rt) (ds ++ [ps_batch q]))
    as (c4 & net' & Hm4 & Hdel); try done.
  - apply (shift_core conf x c c2); [by apply shift_put|done].
  - by rewrite F3, lookup_insert_eq.
  - by rewrite F2.
  - by rewrite F5, Hq1.
  - by rewrite F6.
  - simpl. by rewrite Hs.
  - simpl. rewrite (stored_recovered _ _ _ _ _ Hst3), (stored_recovered _ _ _ _ _ Hst).
    unfold replayed. by rewrite foldl_app.
  - unfold deliver. cbn [pp_raft_operation bridge_to]. rewrite Hdel. by eapply drain_effects_ok.
Qed.
End completed.

(** The completion that [next] has delivered. *)
Lemma storage_event_ok c c1 net ev p s' :
  matches c net -> im_effect_queue c = [] -> im_draining_effects c = false ->
  next (im_simulator c) = (Some ev, s') -> ev_payload ev = PStorage p -> core c1 = core (set_simulator c s') ->
  returns (handle_storage_event c1 p) at_ease.
Proof.
  intros Hmt Hq Hd Hnext Hp Hc1. pose proof (mt_sim _ _ _ Hmt) as Hi.
  pose proof (call_inv (im_simulator c) call_next Hi) as Hi'. simpl in Hi'. rewrite Hnext in Hi'. simpl in Hi'.
  destruct (next_frame _ _ _ Hi Hnext) as (Hw & Hid & Hfr). rewrite Hp in Hfr.
  destruct Hfr as (st & op & d' & Hst & Ha & Hop & Hco & Hstat & Hbod). set (x := se_node p) in *.
  destruct (completion_found c net x (body st) (se_operation_id p) op Hmt) as (rt & r & q & f & stage & Hcp); [by unfold body_at; rewrite Hst|done|done|].
  destruct (core_fields _ _ Hc1) as (_ & E2 & E3 & E4 & E5 & E6). simpl in E2, E3, E4, E5, E6.
  pose proof (Hbod x) as Hbx. rewrite decide_True in Hbx by done.
  assert (Hsh : shift conf x c (set_simulator c s') net).
  { apply shift_sim; [eapply shift_refl; [done|apply moved_refl]|done|done| |by left].
    intros y Hy. by rewrite Hbod, decide_False. }
  unfold handle_storage_event. rewrite E4, (cp_bridge _ _ _ _ _ _ _ _ _ _ _ Hcp). cbn [pp_node bridge_to].
  rewrite N.eqb_refl. simpl negb at 1. cbn [orb]. rewrite <- E4.
  set (c2 := set_pending_persists c1 (delete _ _)).
  assert (Hsh2 : shift conf x c c2 net).
  { apply (shift_unbridge conf x c c1) with (bridge_to x (body st) q f stage); [|rewrite E4; apply Hcp|done].
    by apply (shift_core conf x c (set_simulator c s')). }
  assert (Hinc : incarnation (im_simulator c2) x = bd_incarnation (body st)).
  { simpl. rewrite E2. by rewrite (incarnation_body _ _ _ Hbx). }
  change (se_node p) with x. rewrite Hinc. cbn [pp_incarnation bridge_to]. rewrite N.eqb_refl. cbn [negb].
  assert (Hb2 : body_at (im_simulator c2) x = Some (body (set_device st d'))) by (simpl; by rewrite E2).
  assert (Hq2 : im_effect_queue c2 = []) by (simpl; congruence).
  assert (Hd2 : im_draining_effects c2 = false) by (simpl; congruence).
  assert (Hpend : sd_pending d' = ∅).
  { pose proof (cp_pending _ _ _ _ _ _ _ _ _ _ _ Hcp) as Hpe. simpl in Hpe. unfold complete_operation in Hco.
    destruct (po_kind op); [|destruct (bool_decide _)]; injection Hco as _ <-; simpl; rewrite Hpe; apply delete_singleton_eq. }
  pose proof (cp_stage _ _ _ _ _ _ _ _ _ _ _ Hcp) as Hstage.
  assert (Hdev : match stage with
    | stage_write => sd_stable d' = sd_stable (ns_storage st) /\
        sd_unstable d' = take (N.to_nat (po_actual_write_bytes op)) (ef_bytes f)
    | stage_flush => if bool_decide (po_completion_status op = completed_ok)
        then sd_stable d' = sd_stable (ns_storage st) ++ ef_bytes f /\ sd_unstable d' = []
        else sd_stable d' = sd_stable (ns_storage st) /\ sd_unstable d' = ef_bytes f
    end).
  { unfold complete_operation in Hco. simpl in Hstage. destruct stage.
    - destruct Hstage as (Hk & Hby & Hu & _). rewrite Hk, Hby, Hu in Hco. by injection Hco as _ <-.
    - destruct Hstage as (Hk & Hu). rewrite Hk, Hu in Hco. by case_bool_decide; injection Hco as _ <-. }
  clear Hco. rewrite Hstat in *. case_bool_decide as Hok; cbn [negb]; destruct stage; destruct Hdev as [Hsd Hud].
  - eapply (start_flush_ok c c2 net x rt (body st) (body (set_device st d')) r q f); try done.
    simpl. destruct Hstage as (_ & _ & _ & Hact). rewrite Hud, Hact by done. unfold blen. rewrite Nat2N.id.
    by rewrite take_ge.
  - eapply (finish_persist_ok c c2 net x rt (body st) (body (set_device st d')) r q f); done.
  - eapply (completed_fails c c2 net x rt (body st) (body (set_device st d')) r q f); try done.
    simpl. rewrite Hud. apply prefix_take.
  - eapply (completed_fails c c2 net x rt (body st) (body (set_device st d')) r q f); try done.
    simpl. by rewrite Hud.
Qed.
End storage.

(** ** Calls *)

(** Why a call may throw: the observer reports a violation, the tokens are used up,
    or the engine refuses a recovered state. *)
Inductive excuse (conf : ClusterConfig) : string -> Prop :=
  | excuse_violation what :
      cc_automatic_invariant_checks conf = true -> excuse conf ("cluster invariant failed: " +:+ what)%string
  | excuse_tokens : excuse conf "client token space is exhausted"
  | excuse_refused x r e :
      RaftNode_new (member_config conf x) r = Throws e -> excuse conf (exn_what e).

(** A call that ends in a state with [P], or throws with an excuse. *)
Definition ends {A} (conf : ClusterConfig) (r : Throw A) (P : A -> Prop) : Prop :=
  match r with inr a => P a | inl what => excuse conf what end.

Lemma ends_returns {A} conf (r : Throw A) P : returns r P -> ends conf r P.
Proof. by intros (a & -> & Ha). Qed.

Lemma ends_bind {A B} conf (r : Throw A) (k : A -> Throw B) P Q :
  ends conf r P -> (forall a, P a -> ends conf (k a) Q) -> ends conf (tbind r k) Q.
Proof. destruct r as [e|a]; simpl; [done|]. intros Ha Hk. by apply Hk. Qed.

(** The arguments of a call are values of their types. *)
Definition cluster_call_fits (a : ClusterCall) : Prop :=
  match a with do_submit _ cmd => command_fits cmd | _ => True end.

Section calls.
Context `{HeapLaws} (conf : ClusterConfig) (Hset : harness_setup conf).
Implicit Types (net : Net) (b : Body) (r : RaftNode) (w : WalState) (c : Impl).
Abbreviation matches := (matches conf).
Abbreviation member_at := (member_at conf).
Abbreviation at_ease := (at_ease conf).
Abbreviation ends := (ends conf).

Lemma ease_stays c c' net : matches c net -> im_effect_queue c = [] -> im_draining_effects c = false ->
  stays conf c net c' -> at_ease c'.
Proof. intros _ Hq Hd (Hm & Hq' & Hd'). exists net. split_and!; [done|congruence..]. Qed.

Lemma verify_ends c : at_ease c -> ends (verify_if_enabled c) at_ease.
Proof.
  intros He. pose proof (verify_core c) as Hv. pose proof (inspect_core c) as Hi.
  assert (Hcf : im_config (inspect_invariants c).1 = conf).
  { destruct (core_fields _ _ Hi) as (-> & _). destruct He as (net & Hm & _). apply Hm. }
  unfold verify_if_enabled in *. destruct (inspect_invariants c) as [c1 o]. simpl in Hcf.
  destruct o as [detail|]; [|by eapply ease_core; [|apply Hv]].
  change (im_config (set_last_invariant c1 (Some detail))) with (im_config c1) in *. rewrite Hcf in *.
  destruct (cc_automatic_invariant_checks conf) eqn:Ha; [by constructor|]. by eapply ease_core; [|apply Hv].
Qed.

(** A call that ends with the check and a result. *)
Lemma verified_ends {A} c (a : A) :
  at_ease c -> ends (c1 <== verify_if_enabled c; inr (a, c1)) (fun p => at_ease p.2).
Proof. intros He. eapply ends_bind; [by apply verify_ends|]. done. Qed.

(** Calls that change links and fault requests only. *)
Lemma forward_ends c (p : bool * Simulator) :
  at_ease c -> sim_inv p.2 -> still (im_simulator c) p.2 -> ends (forward c p) (fun p => at_ease p.2).
Proof.
  intros (net & Hm & Hq & Hd) Hi Hs. unfold forward. set (c1 := sync_simulator_trace _).
  assert (He : at_ease c1).
  { apply (ease_core conf (set_simulator c p.2)); [|apply sync_core]. by eapply ease_stays, stays_still. }
  destruct p.1; [|done]. by apply verified_ends.
Qed.

(** ** Events *)

Lemma timer_ends c net timer :
  matches c net -> im_effect_queue c = [] -> im_draining_effects c = false -> ends (step_timer c timer) at_ease.
Proof.
  intros Hm Hq Hd. assert (He : at_ease c) by (by exists net). unfold step_timer, runtime.
  destruct (im_nodes c !! te_node timer) as [rt|] eqn:Hx; [|done]. destruct (rt_raft rt) as [r|]; [|done].
  assert (Hstale : forall s k n p t i tok by' d, at_ease (record c s k n p t i tok by' d)).
  { intros. eapply ease_core; [done|apply record_core_eq]. }
  destruct (timer_binding rt (te_kind timer)) as [binding|]; [|apply Hstale].
  destruct (_ && _); [|apply Hstale]. set (c1 := put_runtime c _ _).
  assert (Hst : stays conf c net c1) by (eapply stays_runtime; try done; by destruct (te_kind timer)).
  clearbody c1. destruct Hst as (Hm1 & Hq1 & Hd1). apply ends_returns.
  set (c2 := record c1 _ _ _ _ _ _ _ _ _). assert (Hc2 : core c2 = core c1) by apply record_core_eq. clearbody c2.
  destruct (core_fields _ _ Hc2) as (_ & _ & _ & _ & E5 & E6).
  eapply (deliver_ok conf Hset c2 net); [by eapply matches_core|congruence|congruence|done|done].
Qed.

Lemma network_ends c net m :
  matches c net -> im_effect_queue c = [] -> im_draining_effects c = false -> carried conf net m ->
  ends (step_network c m) at_ease.
Proof.
  intros Hm Hq Hd (env & Hs & Hfit & Hf & Ht & Henc). unfold step_network. rewrite (mt_config _ _ _ Hm).
  destruct (Codec.decode_message (ne_bytes m) (cc_codec conf)) as [msg|error offset] eqn:Hdec.
  2: { eapply (ease_core conf c); [by exists net|apply record_core_eq]. }
  set (c2 := record c _ _ _ _ _ _ _ _ _). assert (Hc2 : core c2 = core c) by apply record_core_eq. clearbody c2.
  destruct (core_fields _ _ Hc2) as (_ & _ & _ & _ & E5 & E6). apply ends_returns.
  assert (msg = env_message env) as -> by (eapply HostPoll.decode_encoded; [apply Hfit|done..]).
  rewrite <- Hf, <- Ht. eapply (deliver_ok conf Hset c2 net); [by eapply matches_core|congruence|congruence| |done].
  assert (Heq : mkMessageEnvelope (env_from env) (env_to env) (env_message env) = env) by by destruct env.
  rewrite Heq. split; [|done]. split; [done|]. apply fits_wf, Hfit.
Qed.

Lemma cluster_step_ends c : at_ease c -> ends (cluster_step c) (fun p => at_ease p.2).
Proof.
  intros (net & Hm & Hq & Hd). unfold cluster_step. pose proof (mt_sim _ _ _ Hm) as Hi.
  pose proof (call_inv (im_simulator c) call_next Hi) as Hi'. simpl in Hi'.
  destruct (next (im_simulator c)) as [o s] eqn:Hn. simpl in Hi'.
  destruct (next_frame _ _ _ Hi Hn) as (Hw & Hid & Hfr). set (c1 := sync_simulator_trace (set_simulator c s)).
  assert (Hc1 : core c1 = core (set_simulator c s)) by apply sync_core. clearbody c1.
  destruct (core_fields _ _ Hc1) as (_ & _ & _ & _ & E5 & E6). simpl in E5, E6. rewrite Hq in E5. rewrite Hd in E6.
  assert (Hm1 : (forall n, body_at s n = body_at (im_simulator c) n) -> matches c1 net).
  { intros Hb. eapply matches_core; [exact Hc1|]. by apply matches_still. }
  destruct o as [ev|]; [|exists net; split_and!; auto].
  assert (Hpay : ends (step_payload c1 (ev_payload ev)) at_ease).
  { unfold step_payload. destruct (ev_payload ev) as [t|m|p|u] eqn:Hp.
    - by apply (timer_ends c1 net); auto.
    - destruct Hfr as [Hon Hb]. apply (network_ends c1 net); auto. by apply (mt_wire _ _ _ Hm).
    - apply ends_returns. by eapply (storage_event_ok conf Hset c c1 net).
    - eapply (ease_core conf c1); [exists net; split_and!; auto|apply record_core_eq]. }
  eapply ends_bind; [exact Hpay|]. intros c2 He2. apply verified_ends. eapply ease_core; [done|apply sync_core].
Qed.

(** ** Client requests *)

Lemma submit_ends c node cmd :
  at_ease c -> command_fits cmd -> ends (submit c node cmd) (fun p => at_ease p.2).
Proof.
  intros He Hfit. unfold submit. destruct (_ =? 0); [constructor|]. cbv zeta.
  set (c1 := set_reports c _). assert (Hc1 : core c1 = core c) by done. clearbody c1.
  set (c2 := record c1 _ _ _ _ _ _ _ _ _). assert (Hc2 : core c2 = core c) by (unfold c2; by rewrite record_core_eq).
  clearbody c2. clear c1 Hc1. apply (ease_core conf _ c2) in He; [|done].
  eapply ends_bind; [|intros c4 He4; by apply verified_ends].
  set (down := inr _). assert (Hdown : ends down at_ease).
  { eapply ease_core; [exact He|]. by rewrite record_core_eq, retain_core. }
  destruct (runtime c2 node) as [rt|] eqn:Hx; [|done]. destruct (rt_raft rt); [|done].
  destruct (negb _); [done|]. apply ends_returns. destruct He as (net & Hm & Hq & Hd).
  by apply (deliver_ok conf Hset c2 net).
Qed.

Lemma latency_ends c node wt ft : at_ease c -> ends (set_storage_latency c node wt ft) (fun p => at_ease p.2).
Proof.
  intros He. unfold set_storage_latency, runtime. destruct (im_nodes c !! node) as [rt|] eqn:Hx; [|done].
  destruct (rt_raft rt) as [r|] eqn:Hr; [|done]. destruct (negb _); [done|]. cbv zeta. apply verified_ends.
  eapply ease_core; [|apply record_core_eq]. destruct He as (net & Hm & Hq & Hd).
  eapply (ease_stays c); [done..|]. by eapply (stays_runtime conf Hset c net node rt).
Qed.

(** ** Crashes *)

(** Any prefix of what was written after the log survives: the abstract host has
    written the batch, or the log has a torn tail. *)
Lemma crash_log net x n w bytes ds t k :
  cluster (member_config conf) (cc_members conf) net -> n_host net !! x = Some (mkHost n (wal_recovered w) false) ->
  stored (member_identity conf x) (cc_wal conf) w bytes ds -> leftover conf w n t ->
  exists net', cluster (member_config conf) (cc_members conf) net' /\ moved x net net' /\
    exists n' ds' written w' bytes' t', n_host net' !! x = Some (mkHost n' (replayed ds') written) /\
      stored (member_identity conf x) (cc_wal conf) w' bytes' ds' /\ torn (cc_wal conf) w' t' /\
      bytes ++ take k t = bytes' ++ t'.
Proof.
  intros Hc Hh Hst Hl. rewrite (stored_recovered _ _ _ _ _ Hst) in Hh.
  assert (Hstay : forall t', torn (cc_wal conf) w t' -> exists net', cluster (member_config conf) (cc_members conf) net' /\
    moved x net net' /\ exists n' ds' written w' bytes' t'', n_host net' !! x = Some (mkHost n' (replayed ds') written) /\
      stored (member_identity conf x) (cc_wal conf) w' bytes' ds' /\ torn (cc_wal conf) w' t'' /\ bytes ++ t' = bytes' ++ t'').
  { intros t' Ht'. exists net. split_and!; [done|apply moved_refl|]. by exists n, ds, false, w, bytes, t'. }
  destruct Hl as [->|(q & f & Hq & Hfit & Hf & Hp)]; [rewrite take_nil; apply Hstay; by left|].
  assert (Hp' : take k t `prefix_of` ef_bytes f) by (etrans; [apply prefix_take|done]).
  destruct (crash_leaves _ _ _ _ _ Hf Hp') as [->|Htorn]; [|by apply Hstay].
  destruct (do_write _ _ net x n _ q Hc Hh Hq) as (net' & Hc' & Hm & Hx).
  exists net'. split_and!; [done..|]. exists n, (ds ++ [ps_batch q]), true, (ef_state_after f), (bytes ++ ef_bytes f), [].
  split_and!; [unfold replayed; by rewrite foldl_app|by apply (stored_next _ _ w)|by left|by rewrite app_nil_r].
Qed.

Lemma sorted_items_singleton {A} (id : N) (a : A) : sorted_items ({[id := a]} : gmap N A) = [(id, a)].
Proof. apply Permutation_singleton_r. by rewrite sorted_items_perm, map_to_list_singleton. Qed.

(** What a crash may leave of the work of a running member. *)
Lemma up_leftover c net x w st r todo :
  member_up conf (im_pending_persists c) todo net x w (body st) r ->
  exists n, n_host net !! x = Some (mkHost n (wal_recovered w) false) /\
    leftover conf w n (sd_unstable (ns_storage st) ++ active_bytes (ns_storage st)).
Proof.
  intros [Ha Hs Hst He]. unfold active_bytes, active_operation.
  assert (Hbatch : forall q, pending_storage_ r = Some q -> batch_fits (ps_batch q)) by (intros q; by eapply batch_of_fits).
  destruct He as [Hh [Ht Hu Hp|q f id op Ht Hq Hf Hu Hp Hk Hby Hact Hpp|q f id op Ht Hq Hf Hu Hp Hk Hby Hpp]|n Hd Hh Ht Hp Hl]; simpl in *.
  - exists r. split; [done|]. left. by rewrite Hu, Hp, sorted_items_empty.
  - exists r. split; [done|]. rewrite Hu, Hp, sorted_items_singleton, Hk, Hby. simpl. right. exists q, f. by split_and!; auto.
  - exists r. split; [done|]. rewrite Hu, Hp, sorted_items_singleton, Hk, app_nil_r. right. exists q, f. by split_and!; auto.
  - exists n. split; [done|]. by rewrite Hp, sorted_items_empty, app_nil_r.
Qed.

Lemma crash_ends c node storage : at_ease c -> ends (crash c node storage) (fun p => at_ease p.2).
Proof.
  intros He. unfold crash, runtime. destruct (im_nodes c !! node) as [rt|] eqn:Hx; [|done].
  destruct (rt_raft rt) as [r|] eqn:Hr; [|done]. pose proof He as (net & Hm & Hq & Hd).
  destruct (up_found conf c net node rt r Hm Hx Hr) as (Hin & Hcf & Hid & Ha & b & Hb & Hup).
  pose proof (call_inv (im_simulator c) (call_crash node storage) (mt_sim _ _ _ Hm)) as Hi. simpl in Hi.
  destruct (crash_node (im_simulator c) node storage) as [ok s] eqn:Hcr. simpl in Hi.
  pose proof (crash_frame _ _ _ _ _ (mt_sim _ _ _ Hm) Hcr) as Hfr.
  destruct ok; cbn [negb]; [|subst s; by apply (ease_core conf c)]. destruct Hfr as (st & k & Hst & Hal & Hnext & Hbod & Hwire). cbv zeta.
  apply verified_ends. eapply ease_core; [|apply record_core_eq].
  unfold body_at in Hb. rewrite Hst in Hb. injection Hb as <-.
  destruct (up_leftover c net node _ st r _ Hup) as (n & Hh & Hl). destruct (mu_stored _ _ _ _ _ _ _ _ Hup) as [ds Hds].
  destruct (crash_log net node n _ _ ds _ k (mt_cluster _ _ _ Hm) Hh Hds Hl) as (net' & Hc' & Hmv & Hlog).
  set (c1 := sync_simulator_trace (set_simulator c s)).
  assert (Hc1 : core c1 = core (set_simulator c s)) by apply sync_core. clearbody c1.
  destruct (core_fields _ _ Hc1) as (E1 & E2 & E3 & E4 & E5 & E6). simpl in E1, E2, E3, E4, E5, E6.
  exists net'. split_and!; [|simpl; congruence..].
  apply (matches_shift conf node c _ net); [done..| |].
  - constructor; simpl; rewrite ?E1, ?E2, ?E3, ?E4, ?E5; try done.
    + intros m Hon. left. by apply Hwire.
    + by rewrite Hq.
    + intros i p Hp. apply map_lookup_filter_Some in Hp as [Hp _]. rewrite Hnext. by apply (mt_fresh _ _ _ Hm _ p).
    + intros y Hy. by rewrite lookup_insert_ne.
    + intros y Hy. by rewrite Hbod, decide_False.
    + intros i p Hp Hne. by apply map_lookup_filter_Some.
  - eexists _, _. simpl. rewrite E2, E3, lookup_insert_eq, Hbod, decide_True by done. split_and!; [done..|].
    constructor; [done..|]. simpl. constructor; [done|by rewrite E5, Hq|done|exact Hlog].
Qed.

(** ** Restarts *)

(** A member whose log is recovered. *)
Record recovered_member c net (x : NodeId) (rt : NodeRuntime) b : Prop := {
  rm_matches : matches c net;
  rm_queue : im_effect_queue c = [];
  rm_draining : im_draining_effects c = false;
  rm_runtime : im_nodes c !! x = Some rt;
  rm_raft : rt_raft rt = None;
  rm_body : body_at (im_simulator c) x = Some b;
  rm_clean : bd_unstable b = [] /\ bd_pending b = ∅;
  rm_log : exists n ds written, n_host net !! x = Some (mkHost n (replayed ds) written) /\
    stored (member_identity conf x) (cc_wal conf) (rt_wal_state rt) (bd_stable b) ds;
}.

Lemma scan_refuses bs id e : validate_options (cc_wal conf) = inl e -> scan_wal_bytes bs id (cc_wal conf) = inl e.
Proof. intros He. unfold scan_wal_bytes, scan_source. by rewrite He. Qed.

Lemma recover_ok c net x rt ok c1 :
  matches c net -> im_effect_queue c = [] -> im_draining_effects c = false ->
  im_nodes c !! x = Some rt -> rt_raft rt = None -> recover_node c x rt true = (ok, c1) ->
  at_ease c1 /\ (ok = true -> exists rt1 b, recovered_member c1 net x rt1 b).
Proof.
  intros Hm Hq Hd Hx Hr Hrec. assert (He : at_ease c) by (by exists net).
  assert (Hin : x ∈ cc_members conf) by (apply (mt_nodes _ _ _ Hm); eauto).
  destruct (mt_members _ _ _ Hm x Hin) as (rt' & b & Hx' & Hb & [Hcf Hid Hst]). simplify_eq. rewrite Hr in Hst.
  destruct Hst as [Hal Htodo [Hu Hp] (n & ds & wr & w & bytes & t & Hh & Hstored & Htorn & Hstable)].
  unfold recover_node in Hrec. rewrite Hid in Hrec. cbn [Wal.node_id member_identity] in Hrec.
  rewrite (stable_body _ _ _ Hb), Hstable, (mt_config _ _ _ Hm) in Hrec.
  destruct (validate_options (cc_wal conf)) as [e|u] eqn:Hv.
  { rewrite (scan_refuses _ _ _ Hv) in Hrec. injection Hrec as <- <-. split; [|done].
    eapply ease_core; [done|apply record_core_eq]. }
  destruct (stored_scan _ _ _ _ _ t u Hv (identity_ok conf Hset x Hin) Hstored Htorn) as (sc & Hscan & Hst & Hval & Htail & _).
  rewrite Hscan, Htail, Hval in Hrec.
  assert (Hput : forall c0 b0, matches c0 net -> im_effect_queue c0 = [] -> im_draining_effects c0 = false ->
    im_nodes c0 !! x = Some rt -> body_at (im_simulator c0) x = Some b0 -> bd_unstable b0 = [] /\ bd_pending b0 = ∅ ->
    bd_alive b0 = false -> bd_stable b0 = bytes -> recovered_member (put_runtime c0 x (set_wal_state rt (sc_state sc))) net x
      (set_wal_state rt (sc_state sc)) b0).
  { intros c0 b0 Hm0 Q0 D0 X0 B0 C0 A0 S0. constructor; try done.
    - apply (matches_shift conf x c0 _ net); [done|done|apply Hm0|apply moved_refl|apply shift_put; eapply shift_refl; [done|apply moved_refl]|].
      exists (set_wal_state rt (sc_state sc)), b0. simpl. rewrite lookup_insert_eq. split_and!; [done..|].
      constructor; [done..|]. simpl. rewrite Hr. constructor; [done|by rewrite Q0|done|].
      exists n, ds, wr, (sc_state sc), bytes, []. split_and!; [done..|by left|by rewrite app_nil_r].
    - simpl. by rewrite lookup_insert_eq.
    - exists n, ds, wr. simpl. by rewrite S0. }
  destruct (is_nil t) eqn:Hnil; cbn [negb] in Hrec.
  - destruct t; [|done]. rewrite app_nil_r in Hstable. injection Hrec as <- <-.
    assert (Hrm : recovered_member (put_runtime c x (set_wal_state rt (sc_state sc))) net x (set_wal_state rt (sc_state sc)) b) by (by apply Hput).
    split; [|eauto]. exists net. by destruct Hrm.
  - destruct (_ || _); [injection Hrec as <- <-; by split|].
    pose proof (call_inv (im_simulator c) (call_truncate x (blen bytes)) (mt_sim _ _ _ Hm)) as Hi. simpl in Hi.
    destruct (truncate_stable_storage (im_simulator c) x (blen bytes)) as [cut s] eqn:Htr. simpl in Hi.
    pose proof (truncate_frame _ _ _ _ _ Htr) as Hfr. destruct cut; cbn [negb] in Hrec.
    2: { injection Hrec as <- <-. subst s. split; [by apply (ease_core conf c)|done]. }
    destruct Hfr as (st & Hsn & Ha & Hnext & Hbod & Hwire). unfold body_at in Hb. rewrite Hsn in Hb. injection Hb as <-.
    set (c2 := sync_simulator_trace (set_simulator c s)) in *. cbn [fst snd] in Hrec. injection Hrec as <- <-.
    set (c3 := record c2 _ _ _ _ _ _ _ _ _).
    assert (Hc3 : core c3 = core (set_simulator c s)) by (unfold c3, c2; by rewrite record_core_eq, sync_core). clearbody c3. clear c2.
    destruct (core_fields _ _ Hc3) as (_ & E2 & E3 & _ & E5 & E6). simpl in E2, E3, E5, E6.
    set (b0 := mkBody _ _ _ _ _) in Hbod. simpl in Hstable, Hu, Hp.
    assert (Hb0 : bd_stable b0 = bytes) by (simpl; rewrite Hstable; by apply take_blen_app).
    assert (Hm3 : matches c3 net).
    { eapply matches_core; [exact Hc3|]. apply (matches_shift conf x c _ net); [done|done|apply Hm|apply moved_refl| |].
      - apply shift_sim; [eapply shift_refl; [done|apply moved_refl]|done|done| |by left].
        intros y Hy. by rewrite Hbod, decide_False.
      - exists rt, b0. simpl. rewrite Hbod, decide_True by done. split_and!; [done..|]. constructor; [done..|]. rewrite Hr.
        constructor; [done|done|done|]. exists n, ds, wr, w, bytes, [].
        split_and!; [done..|by left|by rewrite app_nil_r]. }
    assert (Hrm : recovered_member (put_runtime c3 x (set_wal_state rt (sc_state sc))) net x (set_wal_state rt (sc_state sc)) b0).
    { apply Hput; try done; [congruence|congruence|congruence|]. rewrite E2, Hbod. by rewrite decide_True. }
    split; [|eauto]. exists net. by destruct Hrm.
Qed.

(** The node of a member that was just constructed, and its [start]. *)
Lemma built_sound net x n ds :
  x ∈ cc_members conf -> cluster (member_config conf) (cc_members conf) net -> Forall batch_fits ds ->
  RaftNode_new (member_config conf x) (replayed ds) = Returns n ->
  n_host net !! x = Some (mkHost n (replayed ds) false) ->
  sound (engine_config conf x) (n_sent net) n /\ pending_storage_ n = None.
Proof.
  intros Hin Hc Hfit Hnew Hx. pose proof (new_state _ _ _ Hnew) as Hst.
  assert (Hcfg : config_ n = engine_config conf x) by (by rewrite Hst). split; [|by rewrite Hst]. constructor.
  - exact (ClusterSafety.host_inv (hn_nodup _ Hset) (member_configured conf Hset) Hc x _ Hx).
  - rewrite <- Hcfg. apply (new_typed _ _ _ Hnew); [rewrite Hcfg; by apply engine_ids|].
    destruct (HostSites.replayed_fits ds Hfit). by apply (recovered_typed _ _ _ Hnew).
Qed.

Lemma start_quiet x sent r :
  sound (engine_config conf x) sent r ->
  exists r' es, start r = Returns (tt, r', es) /\ sound (engine_config conf x) sent r' /\
    pending_storage_ r' = pending_storage_ r /\ role_ r' = role_ r /\ sends es = [] /\ persists es = [] /\
    Forall effect_fits es.
Proof.
  intros [Hi Ht]. pose proof (quiet_start r) as Hq. unfold wp in Hq.
  destruct (start r) as [[[[] r'] es]|] eqn:Hst; [|done]. destruct Hq as [Hh Hse].
  destruct (start_outcome _ r r' es Ht Hst) as (Ht' & Hf & Hpe & _).
  exists r', es. destruct (hard_eq_soft _ _ Hh) as [p ->]. split_and!; try done.
  constructor; [|done]. by apply node_inv_soft.
Qed.

(** [start] of a running member. *)
Lemma start_node_ok c net x :
  matches c net -> im_effect_queue c = [] -> im_draining_effects c = false -> returns (start_node c x) at_ease.
Proof.
  intros Hm Hq Hd. assert (He : at_ease c) by (by exists net). unfold start_node, runtime.
  destruct (im_nodes c !! x) as [rt|] eqn:Hx; [|by exists c]. destruct (rt_raft rt) as [r|] eqn:Hr; [|by exists c].
  destruct (up_found conf c net x rt r Hm Hx Hr) as (Hin & Hcf & Hid & Ha & b & Hb & [Hal Hs Hst Hen]).
  destruct (start_quiet x _ r Hs) as (r' & es & Hstart & Hs' & Hp & Hrole & Hse & Hpe & Hf). rewrite Hstart.
  unfold enqueue_effects, enqueue_with. simpl. rewrite Hd.
  change (set_effect_queue _ _) with (stepped c x rt r' es).
  assert (Hpend : pend r' = pend r) by (unfold pend; by rewrite Hp).
  assert (Hat : forall net', moved x net net' -> engaged conf (im_pending_persists c) (queued x (im_effect_queue c)) net' x (rt_wal_state rt) b r' ->
    member_at (stepped c x rt r' es) net' x).
  { intros net' Hmv Hen'. destruct (stepped_found c x rt r' es) as [Hn Hqx]. exists (set_raft rt (Some r')), b.
    split_and!; [done..|]. constructor; [done..|]. rewrite Hqx, Hpe, app_nil_r. constructor; [done| |done|done].
    eapply sound_mono; [|done]. intros e. by apply (moved_sent x). }
  assert (Hes : forall net', Forall (effect_ok net') es).
  { intros net'. apply effects_ok; [done|]. rewrite Hse. by intros e ?%not_elem_of_nil. }
  assert (Hdrain : forall net', cluster (member_config conf) (cc_members conf) net' -> moved x net net' ->
    engaged conf (im_pending_persists c) (queued x (im_effect_queue c)) net' x (rt_wal_state rt) b r' ->
    returns (drain_effects (stepped c x rt r' es)) at_ease).
  { intros net' Hc' Hmv Hen'. eapply drain_effects_ok; [done|]. apply (matches_shift conf x c _ net net'); auto.
    apply shift_stepped; [by eapply shift_refl|done|done]. }
  destruct Hen as [Hh Hw|n [Hdr Hdp] Hh Ht Hbp Hl].
  - destruct (do_start _ _ net x r _ false r' es (mt_cluster _ _ _ Hm) Hh Hstart) as (net' & Hc' & Hmv & Hx' & _).
    apply (Hdrain net'); [done..|]. apply engaged_live; [done|].
    destruct Hw as [?|q f id op|q f id op]; [apply work_none; congruence|eapply (work_write _ _ _ _ _ _ _ q)|
      eapply (work_flush _ _ _ _ _ _ _ q)]; try done; congruence.
  - apply (Hdrain net); [apply Hm|apply moved_refl|]. apply (engaged_dead conf _ _ _ _ _ _ _ n); try done.
    split; congruence.
Qed.

Lemma boot_ends c net x rt b c1 s :
  recovered_member c net x rt b -> restart_node (im_simulator c) x = (true, s) ->
  core c1 = core (set_simulator c s) -> ends (boot_node c1 x) (fun p => at_ease p.2).
Proof.
  intros [Hm Hq Hd Hx Hr Hb [Hu Hp] (n & ds & wr & Hh & Hst)] Hre Hc1.
  assert (Hin : x ∈ cc_members conf) by (apply (mt_nodes _ _ _ Hm); eauto).
  destruct (mt_members _ _ _ Hm x Hin) as (rt' & b' & Hx' & _ & [Hcf Hid _]).
  rewrite Hx in Hx'. injection Hx' as <-.
  pose proof (call_inv (im_simulator c) (call_restart x) (mt_sim _ _ _ Hm)) as Hi. simpl in Hi. rewrite Hre in Hi. simpl in Hi.
  destruct (restart_frame _ _ _ _ Hre) as (st & Hsn & Ha & Hnext & Hbod & Hwire).
  destruct (core_fields _ _ Hc1) as (E1 & E2 & E3 & E4 & E5 & E6). simpl in E1, E2, E3, E4, E5, E6.
  unfold boot_node, runtime. rewrite E3, Hx, Hcf.
  change (recovered_from (rt_wal_state rt)) with (wal_recovered (rt_wal_state rt)). rewrite (stored_recovered _ _ _ _ _ Hst).
  destruct (RaftNode_new (member_config conf x) (replayed ds)) as [r|e] eqn:Hnew; [|by eapply excuse_refused].
  destruct (HostAhead.do_crash _ _ net x n _ wr r (mt_cluster _ _ _ Hm) Hh Hnew) as (net' & Hc' & Hmv & Hx2).
  destruct (built_sound net' x r ds Hin Hc' (sd_fits _ _ _ _ _ Hst) Hnew Hx2) as [Hs Hpn].
  unfold body_at in Hb. rewrite Hsn in Hb. injection Hb as <-. simpl in Hu, Hp. cbv zeta.
  set (c2 := record _ _ _ _ _ _ _ _ _ _).
  assert (Hc2 : core c2 = core (put_runtime c1 x (set_raft rt (Some r)))) by apply record_core_eq. clearbody c2.
  assert (Hm2 : matches c2 net').
  { eapply matches_core; [exact Hc2|]. apply (matches_shift conf x c _ net net'); [done..| |].
    - apply shift_put. eapply shift_core; [|exact Hc1]. apply shift_sim; [by eapply shift_refl|done|done| |by left].
      intros y Hy. by rewrite Hbod, decide_False.
    - eexists _, _. simpl. rewrite E2, E3, E4, lookup_insert_eq, Hbod, decide_True by done. split_and!; [done..|].
      constructor; [done..|]. simpl. constructor; [done|done|by exists ds|].
      apply engaged_live; [by rewrite (stored_recovered _ _ _ _ _ Hst)|]. apply work_none; [|done..].
      rewrite E5, Hq. unfold pend. by rewrite Hpn. }
  destruct (core_fields _ _ Hc2) as (_ & _ & _ & _ & F5 & F6). simpl in F5, F6.
  eapply ends_bind; [apply ends_returns, (start_node_ok c2 net'); [done|congruence..]|].
  intros c3 He3. by apply verified_ends.
Qed.

Lemma restart_ends c node : at_ease c -> ends (restart c node) (fun p => at_ease p.2).
Proof.
  intros He. unfold restart, runtime. destruct (im_nodes c !! node) as [rt|] eqn:Hx; [|done].
  destruct (rt_raft rt) as [r|] eqn:Hr; [done|]. simpl. destruct (is_alive _ _); [done|].
  destruct He as (net & Hm & Hq & Hd). destruct (recover_node c node rt true) as [ok c1] eqn:Hrec.
  destruct (recover_ok c net node rt ok c1 Hm Hq Hd Hx Hr Hrec) as [He1 Hok]. destruct ok; [|done]. simpl.
  destruct (Hok eq_refl) as (rt1 & b & Hrm). destruct (restart_node (im_simulator c1) node) as [up s] eqn:Hre.
  pose proof (restart_frame _ _ _ _ Hre) as Hfr. destruct up; simpl; [|subst s; by apply (ease_core conf c1)].
  eapply boot_ends; [done..|apply sync_core].
Qed.

(** ** Every call *)

Lemma link_partition_still s f t flag : still s (set_partition s f t flag).2.
Proof. unfold set_partition. case_match; [apply still_refl|apply set_fault_still]. Qed.

Lemma delay_still s f t d : still s (set_link_delay s f t d).2.
Proof. unfold set_link_delay. case_match; [apply still_refl|apply set_fault_still]. Qed.

Lemma drop_still s f t k : still s (drop_next s f t k).2.
Proof. unfold drop_next. case_match; [apply still_refl|apply set_fault_still]. Qed.

Lemma duplicate_still s f t k : still s (duplicate_next s f t k).2.
Proof. unfold duplicate_next. case_match; [apply still_refl|apply set_fault_still]. Qed.

Lemma ends_state {A} (k : Throw (A * Impl)) :
  ends k (fun p => at_ease p.2) -> ends (x <== k; inr x.2) at_ease.
Proof. intros Hk. by eapply ends_bind; [exact Hk|]. Qed.

Lemma ease_sim c : at_ease c -> sim_inv (im_simulator c).
Proof. intros (net & Hm & _). apply Hm. Qed.

Lemma cluster_call_ends c a : at_ease c -> cluster_call_fits a -> ends (cluster_call c a) at_ease.
Proof.
  intros He Hfit. pose proof (ease_sim c He) as Hi. pose proof (call_inv (im_simulator c)) as Hc.
  destruct a as [|n cmd|n spec|n|f t flag|f t d|f t k|f t k|n wt ft|n|n k|n| |]; cbn [cluster_call]; try apply ends_state.
  - by apply cluster_step_ends.
  - by apply submit_ends.
  - by apply crash_ends.
  - by apply restart_ends.
  - apply forward_ends; [done|apply (Hc (call_partition f t flag) Hi)|apply link_partition_still].
  - apply forward_ends; [done|apply (Hc (call_delay f t d) Hi)|apply delay_still].
  - apply forward_ends; [done|apply (Hc (call_drop f t k) Hi)|apply drop_still].
  - apply forward_ends; [done|apply (Hc (call_duplicate f t k) Hi)|apply duplicate_still].
  - by apply latency_ends.
  - apply forward_ends; [done|apply (Hc (call_fail_write n) Hi)|by apply fault_request_still].
  - apply forward_ends; [done|apply (Hc (call_short_write n k) Hi)|by apply fault_request_still].
  - apply forward_ends; [done|apply (Hc (call_fail_flush n) Hi)|by apply fault_request_still].
  - by eapply ease_core.
  - unfold check_invariants. pose proof (inspect_core c) as Hcore. destruct (inspect_invariants c) as [c1 o].
    by apply (ease_core conf c).
Qed.

Lemma cluster_calls_end c l : at_ease c -> Forall cluster_call_fits l -> ends (cluster_calls c l) at_ease.
Proof.
  intros He Hl. revert c He. induction Hl as [|a l Ha _ IH]; intros c He; [done|].
  simpl. eapply ends_bind; [by apply cluster_call_ends|]. intros c1 He1. by apply IH.
Qed.

(** ** Construction *)

(** The members set up so far. *)
Record preparing (ready : list NodeId) c : Prop := {
  pr_config : im_config c = conf;
  pr_sim : sim_inv (im_simulator c);
  pr_wire : forall m, ~ on_wire (im_simulator c) m;
  pr_rest : im_effect_queue c = [] /\ im_draining_effects c = false /\ im_pending_persists c = ∅;
  pr_ready : forall x, x ∈ ready -> exists rt b r, im_nodes c !! x = Some rt /\
    body_at (im_simulator c) x = Some b /\ rt_raft_config rt = member_config conf x /\
    rt_identity rt = member_identity conf x /\ rt_raft rt = Some r /\
    RaftNode_new (member_config conf x) empty_disk = Returns r /\ bd_alive b = true /\
    bd_unstable b = [] /\ bd_pending b = ∅ /\
    stored (member_identity conf x) (cc_wal conf) (rt_wal_state rt) (bd_stable b) [];
  pr_nodes : forall x, is_Some (im_nodes c !! x) -> x ∈ ready;
  pr_bodies : forall x, is_Some (body_at (im_simulator c) x) -> x ∈ ready;
}.

Lemma initialize_node_ok ready c x c' :
  preparing ready c -> x ∈ cc_members conf -> initialize_node c x = inr c' -> preparing (ready ++ [x]) c'.
Proof.
  intros Hpr Hin Hinit. pose proof Hpr as []. unfold initialize_node in Hinit. cbv zeta in Hinit.
  rewrite pr_config0 in Hinit. destruct (im_nodes c !! x) eqn:Hx; [done|].
  set (node := NodeRuntime_new _ _ _ _ _ _) in Hinit. cbn [im_simulator put_runtime] in Hinit.
  pose proof (call_inv (im_simulator c) (call_register x) pr_sim0) as Hi1. simpl in Hi1.
  destruct (register_node (im_simulator c) x) as [[] s1] eqn:Hreg; cbn [negb] in Hinit; [|done]. simpl in Hi1.
  destruct (register_frame _ _ _ Hreg) as (Hnone & _ & Hb1 & Hw1).
  set (c2 := sync_simulator_trace _) in Hinit.
  assert (Hc2 : core c2 = core (set_simulator (put_runtime c x node) s1)) by apply sync_core. clearbody c2.
  destruct (core_fields _ _ Hc2) as (E1 & E2 & E3 & E4 & E5 & E6). simpl in E1, E2, E3, E4, E5, E6.
  rewrite E2 in Hinit. unfold encode_wal_file_header in Hinit. rewrite make_file_header_bytes in Hinit.
  change (mkWalIdentity (cc_cluster_id_high conf) (cc_cluster_id_low conf) x) with (member_identity conf x) in *.
  pose proof (call_inv s1 (call_initialize x (file_header_bytes (member_identity conf x))) Hi1) as Hi2. simpl in Hi2.
  destruct (initialize_storage s1 x (file_header_bytes (member_identity conf x))) as [[] s2] eqn:Hst; cbn [negb] in Hinit; [|done].
  simpl in Hi2. destruct (initialize_frame _ _ _ _ Hst) as (st & Hsn & Hal & _ & Hb2 & Hw2).
  set (c3 := sync_simulator_trace _) in Hinit.
  assert (Hc3 : core c3 = core (set_simulator c2 s2)) by apply sync_core. clearbody c3.
  destruct (core_fields _ _ Hc3) as (F1 & F2 & F3 & F4 & F5 & F6). simpl in F1, F2, F3, F4, F5, F6.
  rewrite F2 in Hinit. pose proof (Hb2 x) as Hbx. rewrite decide_True in Hbx by done.
  rewrite (stable_body _ _ _ Hbx) in Hinit. cbn [bd_stable] in Hinit.
  destruct (validate_options (cc_wal conf)) as [e|u] eqn:Hv; [by rewrite (scan_refuses _ _ _ Hv) in Hinit|].
  destruct (stored_scan _ _ _ _ _ [] u Hv (identity_ok conf Hset x Hin) (stored_created (member_identity conf x) (cc_wal conf))
    ltac:(by left)) as (sc & Hscan & Hstored & _). rewrite app_nil_r in Hscan.
  rewrite Hscan in Hinit. change (recovered_from (sc_state sc)) with (wal_recovered (sc_state sc)) in Hinit.
  rewrite (stored_recovered _ _ _ _ _ Hstored) in Hinit. change (replayed []) with empty_disk in Hinit.
  change (with_identity (cc_raft conf) x (cc_members conf)) with (member_config conf x) in Hinit.
  destruct (RaftNode_new (member_config conf x) empty_disk) as [r|] eqn:Hnew; [|done]. injection Hinit as <-.
  pose proof (Hb1 x) as Hbx1. rewrite decide_True in Hbx1 by done. unfold body_at in Hbx1. rewrite Hsn in Hbx1.
  injection Hbx1 as _ _ _ Hun Hpe.
  assert (Hfind : forall y, y <> x -> im_nodes (put_runtime c3 x (set_raft (set_wal_state node (sc_state sc)) (Some r))) !! y = im_nodes c !! y).
  { intros y Hy. simpl. rewrite F3, E3, !lookup_insert_ne by done. done. }
  assert (Hbody : forall y, y <> x -> body_at (im_simulator c3) y = body_at (im_simulator c) y).
  { intros y Hy. rewrite F2, Hb2, decide_False, Hb1, decide_False by done. done. }
  destruct pr_rest0 as (R1 & R2 & R3).
  constructor; simpl; try congruence.
  - intros m Hm. rewrite F2 in Hm. by apply (pr_wire0 m), Hw1, Hw2.
  - split_and!; congruence.
  - intros y Hy. destruct (decide (y = x)) as [->|Hne].
    + eexists _, _, r. rewrite lookup_insert_eq, F2, Hbx. split_and!; try done.
    + apply elem_of_app in Hy as [Hy|Hy%list_elem_of_singleton]; [|done].
      destruct (pr_ready0 y Hy) as (rt & b & r0 & H1 & H2 & H3). exists rt, b, r0. specialize (Hfind y Hne). simpl in Hfind.
      by rewrite Hfind, (Hbody y Hne).
  - intros y Hy. apply elem_of_app. destruct (decide (y = x)) as [->|Hne]; [right; apply list_elem_of_here|left].
    specialize (Hfind y Hne). simpl in Hfind. rewrite Hfind in Hy. auto.
  - intros y Hy. apply elem_of_app. destruct (decide (y = x)) as [->|Hne]; [right; apply list_elem_of_here|left].
    rewrite (Hbody y Hne) in Hy. auto.
Qed.

Lemma initialize_nodes_ok ids ready c c' :
  preparing ready c -> (forall x, x ∈ ids -> x ∈ cc_members conf) -> initialize_nodes c ids = inr c' ->
  preparing (ready ++ ids) c'.
Proof.
  revert ready c. induction ids as [|x ids IH]; intros ready c Hpr Hsub Hinit; simpl in Hinit.
  { injection Hinit as <-. by rewrite app_nil_r. }
  destruct (initialize_node c x) as [e|c1] eqn:H1; [done|]. simpl in Hinit.
  replace (ready ++ x :: ids) with ((ready ++ [x]) ++ ids) by (by rewrite <- app_assoc).
  apply (IH _ c1); [|intros y Hy; apply Hsub; by right|done].
  apply (initialize_node_ok ready c); [done|apply Hsub; by left|done].
Qed.

(** The abstract cluster boots when every node can be built from an empty disk. *)
Lemma boot_known cfg xs :
  (forall x, x ∈ xs -> exists r, RaftNode_new (cfg x) empty_disk = Returns r) ->
  exists hs, boot cfg xs = Some hs /\
    forall x r, x ∈ xs -> RaftNode_new (cfg x) empty_disk = Returns r -> hs !! x = Some (mkHost r empty_disk false).
Proof.
  induction xs as [|y xs IH]; intros Hall; simpl.
  { exists ∅. split; [done|]. by intros x r ?%not_elem_of_nil. }
  destruct IH as (hs & -> & Hhs); [intros x Hx; apply Hall; by right|].
  destruct (Hall y) as [r Hr]; [by left|]. simpl. rewrite Hr. eexists. split; [reflexivity|].
  intros x r' Hx Hr'. destruct (decide (x = y)) as [->|Hne].
  - rewrite lookup_insert_eq. congruence.
  - rewrite lookup_insert_ne by done. apply Hhs; [|done]. by apply elem_of_cons in Hx as [?|?].
Qed.

Lemma prepared_ease c : preparing (cc_members conf) c -> at_ease c.
Proof.
  intros []. destruct pr_rest0 as (Hq & Hd & Hpp).
  destruct (boot_known (member_config conf) (cc_members conf)) as (hs & Hboot & Hhs).
  { intros x Hx. destruct (pr_ready0 x Hx) as (rt & b & r & Hr). exists r. apply Hr. }
  assert (Hc : cluster (member_config conf) (cc_members conf) (mkNet hs [])) by (by exists hs, []).
  exists (mkNet hs []). split_and!; [|done..]. constructor; try done.
  - intros m Hm. by destruct (pr_wire0 m Hm).
  - rewrite Hq. constructor.
  - rewrite Hpp. intros i p. by rewrite lookup_empty.
  - intros x Hx. destruct (pr_ready0 x Hx) as (rt & b & r & Hn & Hb & Hcf & Hid & Hr & Hnew & Hal & Hu & Hp & Hst).
    pose proof (Hhs x r Hx Hnew) as Hh. destruct (built_sound (mkNet hs []) x r [] Hx Hc (Forall_nil_2 _) Hnew Hh) as [Hs Hpn].
    exists rt, b. split_and!; [done..|]. constructor; [done..|]. rewrite Hr. constructor; [done|done|by exists []|].
    apply engaged_live; [by rewrite (stored_recovered _ _ _ _ _ Hst)|]. apply work_none; [|done..].
    rewrite Hq. unfold pend. by rewrite Hpn.
Qed.

Lemma start_nodes_ok ids c : at_ease c -> returns (start_nodes c ids) at_ease.
Proof.
  revert c. induction ids as [|x ids IH]; intros c He; [by exists c|]. simpl. destruct He as (net & Hm & Hq & Hd).
  eapply returns_bind; [by eapply (start_node_ok c net)|]. apply IH.
Qed.
End calls.

(** The values of the configuration fit their types. *)
Record config_typed (config : ClusterConfig) : Prop := {
  ct_members : Forall u32 (cc_members config);
  ct_append : max_append_bytes_per_rpc (cc_raft config) <= u64_max;
  ct_cluster : u64 (cc_cluster_id_high config) /\ u64 (cc_cluster_id_low config);
  ct_simulator : typed_config (cc_simulator config);
}.

Lemma accepted_setup config :
  config_typed config -> config_error (sorted_config config) = None -> harness_setup (sorted_config config).
Proof.
  intros [Hm Ha Hc _] He. unfold config_error in He. destruct (_ || adjacent_equal _) eqn:Hadj; [done|].
  apply orb_false_iff in Hadj as [_ Hadj]. constructor; [by apply sort_members_nodup| |done|done].
  simpl. unfold sort_members. by rewrite merge_sort_Permutation.
Qed.

Section construction.
Context `{HeapLaws}.

(** A cluster that was constructed. *)
Lemma constructed config c :
  config_typed config -> DeterministicCluster_new config = inr c ->
  harness_setup (sorted_config config) /\ at_ease (sorted_config config) c.
Proof.
  intros Ht Hnew. unfold DeterministicCluster_new, initialize in Hnew. cbn [im_config Impl_new set_config] in Hnew.
  destruct (config_error (sorted_config config)) eqn:He; [done|]. pose proof (accepted_setup config Ht He) as Hset.
  split; [done|]. set (conf := sorted_config config) in *.
  destruct (initialize_nodes _ _) as [e|c1] eqn:Hin; [done|]. cbn [tbind] in Hnew.
  assert (Hpr : preparing conf (cc_members conf) c1).
  { apply (initialize_nodes_ok conf Hset (cc_members conf) [] (set_config (Impl_new config) conf)); [|done|exact Hin].
    constructor; simpl; try done.
    - apply sim_inv_new, Ht.
    - intros m (e & He' & _). by apply not_elem_of_nil in He'.
    - by intros x ?%not_elem_of_nil.
    - intros x [rt Hx]. by rewrite lookup_empty in Hx.
    - intros x [b Hx]. unfold body_at in Hx. simpl in Hx. by rewrite lookup_empty in Hx. }
  destruct (start_nodes_ok conf Hset (sorted_items (im_nodes c1)).*1 c1 (prepared_ease conf Hset c1 Hpr))
    as (c2 & Hst & He2). rewrite Hst in Hnew. cbn [tbind] in Hnew.
  eapply ease_core; [exact He2|]. by apply verify_core.
Qed.

(** A state a scenario leads to. *)
Lemma reached config c0 c l :
  config_typed config -> DeterministicCluster_new config = inr c0 -> Forall cluster_call_fits l ->
  cluster_calls c0 l = inr c -> harness_setup (sorted_config config) /\ at_ease (sorted_config config) c.
Proof.
  intros Ht Hnew Hl Hc. destruct (constructed config c0 Ht Hnew) as [Hset He]. split; [done|].
  pose proof (cluster_calls_end (sorted_config config) Hset c0 l He Hl) as Hend. by rewrite Hc in Hend.
Qed.
End construction.
