(* ===== verification/HarnessTheorems.v ===== *)
(** * HarnessTheorems: what the deterministic cluster guarantees

    The theorems about scenarios of [DeterministicCluster], and a scenario of three
    nodes with a client request, a crash of the leader and its restart. *)

From stdpp Require Import relations.
From S2P Require Import Prelude Model StateMachine RaftTypes Raft RaftSpec RaftRefine RaftReplicate RaftElection RaftAppend RaftStep System SystemFrame SystemSteps SystemLog SystemSafety Deployment ClusterSafety RaftTyped RaftOps.
From S2P Require Codec HostPoll.
From S2P Require Import Bytes Wal WalFormat WalFrames WalRecovery WalScan WalFile WalDurability HostAhead HostStep.
From S2P Require Import Pcg SimQueue Simulator SimTrace SimSpec SimStorage SimTheorems HarnessTypes Harness HarnessSim HarnessState HarnessEffects HarnessRun.
#[local] Open Scope N_scope.

(** A state of the deterministic cluster: a configuration was accepted and a
    scenario was played. *)
Definition played_to `{HeapLib} (config : ClusterConfig) (l : list ClusterCall) (c : Impl) : Prop :=
  config_typed config /\ Forall cluster_call_fits l /\
  exists c0, DeterministicCluster_new config = inr c0 /\ cluster_calls c0 l = inr c.

Section facts.
Context `{HeapLaws}.
Implicit Types (config : ClusterConfig) (c : Impl).

Lemma played_ease config l c :
  played_to config l c -> harness_setup (sorted_config config) /\ at_ease (sorted_config config) c.
Proof. intros (Ht & Hl & c0 & Hnew & Hc). by apply (reached config c0 c l). Qed.

Lemma cluster_calls_app (c c1 : Impl) l l' :
  cluster_calls c l = inr c1 -> cluster_calls c (l ++ l') = cluster_calls c1 l'.
Proof.
  revert c. induction l as [|a l IH]; intros c; simpl; [by intros [= <-]|].
  destruct (cluster_call c a) as [e|c2]; simpl; [done|]. apply IH.
Qed.

(** A running member whose node takes part has the node and the disk of the abstract
    host. *)
Lemma running_host conf c net x rt r :
  matches conf c net -> im_nodes c !! x = Some rt -> rt_raft rt = Some r -> role_ r <> unavailable ->
  n_host net !! x = Some (mkHost r (recovered_from (rt_wal_state rt)) false).
Proof.
  intros Hm Hx Hr Hrole. destruct (up_found conf c net x rt r Hm Hx Hr) as (_ & _ & _ & _ & b & _ & [_ _ _ He]).
  by destruct He as [?|n [? _]].
Qed.

(** The snapshot of a running node. *)
Lemma snapshot_running c x s :
  snapshot c x = Some s -> sn_alive s = true -> exists rt r, im_nodes c !! x = Some rt /\ rt_raft rt = Some r /\
    sn_role s = role_ r /\ sn_term s = current_term (hard_state_ r) /\ sn_commit_index s = commit_index_ r /\
    sn_log s = log_ r.
Proof.
  unfold snapshot, runtime, make_snapshot. destruct (im_nodes c !! x) as [rt|] eqn:Hx; [|done]. intros [= <-].
  destruct (rt_raft rt) as [r|] eqn:Hr; [|done]. destruct (negb _); [done|]. intros _. by exists rt, r.
Qed.

(** The log of a member that is down. *)
Lemma down_log conf c net x rt sc :
  harness_setup conf -> matches conf c net -> im_nodes c !! x = Some rt -> rt_raft rt = None ->
  scan_wal_bytes (stable_bytes (im_simulator c) x) (member_identity conf x) (cc_wal conf) = inr sc ->
  exists n written, n_host net !! x = Some (mkHost n (recovered_from (sc_state sc)) written).
Proof.
  intros Hset Hm Hx Hr Hscan. assert (Hin : x ∈ cc_members conf) by (apply (mt_nodes _ _ _ Hm); eauto).
  destruct (mt_members _ _ _ Hm x Hin) as (rt' & b & Hx' & Hb & [_ _ Hst]). simplify_eq. rewrite Hr in Hst.
  destruct Hst as [_ _ _ (n & ds & wr & w & bytes & t & Hh & Hs & Ht & Hstable)].
  rewrite (stable_body _ _ _ Hb), Hstable in Hscan.
  destruct (validate_options (cc_wal conf)) as [e|u] eqn:Hv; [by rewrite (scan_refuses _ _ _ _ Hv) in Hscan|].
  destruct (stored_scan _ _ _ _ _ t u Hv (identity_ok conf Hset x Hin) Hs Ht) as (sc' & Hscan' & Hs' & _).
  rewrite Hscan' in Hscan. injection Hscan as <-. exists n, wr. rewrite Hh.
  change (recovered_from (sc_state sc')) with (wal_recovered (sc_state sc')). by rewrite (stored_recovered _ _ _ _ _ Hs').
Qed.

Lemma leads_spec c ready x :
  x ∈ leaders c ready -> exists rt r, im_nodes c !! x = Some rt /\ rt_raft rt = Some r /\
    is_alive (im_simulator c) x = true /\ role_ r = leader.
Proof.
  unfold leaders. intros ([y rt] & -> & Hin)%list_elem_of_fmap. apply list_elem_of_filter in Hin as [Hl Hin]. simpl in *.
  rewrite sorted_items_perm in Hin. apply elem_of_map_to_list in Hin. destruct (rt_raft rt) as [r|] eqn:Hr; [|done].
  rewrite !andb_true_iff, bool_decide_eq_true in Hl. exists rt, r. tauto.
Qed.

(** The snapshots of the running nodes. *)
Lemma running_snapshot c s :
  s ∈ filter (fun s => sn_alive s = true /\ sn_role s <> unavailable) (snapshots c) ->
  exists x rt r, im_nodes c !! x = Some rt /\ rt_raft rt = Some r /\ role_ r <> unavailable /\
    s = mkNodeSnapshot x true (role_ r) (current_term (hard_state_ r)) (leader_ready_ r)
          (last_log_index r) (durable_last_log_index_ r) (commit_index_ r)
          (last_applied_ r) (N.of_nat (length (deferred_events_ r))) (log_ r).
Proof.
  intros [[Ha Hrole] Hin]%list_elem_of_filter. unfold snapshots in Hin. apply list_elem_of_omap in Hin as (x & _ & Hs).
  unfold snapshot, runtime, make_snapshot in Hs. destruct (im_nodes c !! x) as [rt|] eqn:Hx; [|done]. simpl in Hs.
  injection Hs as <-. destruct (rt_raft rt) as [r|] eqn:Hr; [|done]. destruct (negb _) eqn:Hal; [done|].
  by exists x, rt, r.
Qed.
End facts.

(** ** The checks of the observer *)

Section checks.
Implicit Types (m : KvStateMachine) (es : list LogEntry).

Lemma acceptable_valid cfg e :
  entry_acceptable cfg e = true -> match command e with Some c => structurally_valid c = true | None => True end.
Proof.
  unfold entry_acceptable. destruct (command e); [|done]. unfold command_acceptable. by intros [? _]%andb_true_iff.
Qed.

(** The observer's digest is the machine's. *)
Lemma observed_characters_bytes h (s : string) : observed_characters h s = foldl hash_byte h (string_bytes s).
Proof. revert h. induction s as [|a s IH]; intros h; [done|]. simpl. apply IH. Qed.

Lemma observed_string_hash h (s : string) : observed_string h s = hash_string h s.
Proof. unfold observed_string, hash_string. by rewrite observed_characters_bytes. Qed.

Lemma observed_digest_eq c : observed_digest c = command_digest c.
Proof. unfold observed_digest, command_digest. by rewrite !observed_string_hash. Qed.

Lemma observed_switch_eq values c : observed_switch values c = ((execute values c).2, (execute values c).1).
Proof. unfold observed_switch, execute. destruct (kind c); [done|by destruct (values !! key c)..]. Qed.

Lemma observed_skip_eq m c :
  observed_skip (sessions_ m) c = match session_check m c with Some _ => true | None => false end.
Proof. unfold observed_skip, session_check. rewrite observed_digest_eq. by repeat case_match. Qed.

(** One entry, executed by the observer and by the machine. *)
Lemma replay_entry_apply m e :
  match command e with Some c => structurally_valid c = true | None => True end ->
  replay_entry (values_ m, sessions_ m) e =
    let m' := match command e with Some c => (kv_apply m c).2 | None => m end in (values_ m', sessions_ m').
Proof.
  unfold replay_entry. destruct (command e) as [c|]; [|done]. intros Hv. unfold kv_apply. rewrite Hv. simpl.
  rewrite observed_skip_eq, observed_switch_eq, observed_digest_eq.
  destruct (session_check m c); [done|]. by destruct (execute (values_ m) c).
Qed.

Lemma reexecuted es m :
  Forall (fun e => match command e with Some c => structurally_valid c = true | None => True end) es ->
  foldl replay_entry (values_ m, sessions_ m) es =
    (values_ (replay m (log_commands es)), sessions_ (replay m (log_commands es))).
Proof.
  intros Hes. revert m. induction Hes as [|e es He _ IH]; intros m; [done|]. simpl.
  rewrite (replay_entry_apply m e He). destruct (command e) as [c|]; simpl; by rewrite IH.
Qed.

Lemma compare_accepts n :
  node_ok n -> Forall (fun e => match command e with Some c => structurally_valid c = true | None => True end) (log_ n) ->
  compare_applied_prefix n = None.
Proof.
  intros [[] _ _] Hv. unfold compare_applied_prefix, llen in *.
  destruct (N.ltb_spec (commit_index_ n) (last_applied_ n)); [lia|].
  destruct (N.ltb_spec (N.of_nat (length (log_ n))) (last_applied_ n)); [lia|].
  pose proof (reexecuted (take (N.to_nat (last_applied_ n)) (log_ n)) empty_kv (Forall_take _ _ _ Hv)) as Hr.
  simpl in Hr. rewrite Hr, <- ok_machine. clear Hr. unfold key_count, session_count. rewrite !N.eqb_refl. simpl.
  assert (Hs : forallb (fun p => bool_decide (Some p.2 = kv_session (state_machine_ n) p.1))
    (map_to_list (sessions_ (state_machine_ n))) = true).
  { apply List.forallb_forall. intros [k v] Hin%list_elem_of_In%elem_of_map_to_list. by apply bool_decide_eq_true. }
  assert (Hw : forallb (fun p => bool_decide (Some p.2 = value_for_test (state_machine_ n) p.1))
    (map_to_list (values_ (state_machine_ n))) = true).
  { apply List.forallb_forall. intros [k v] Hin%list_elem_of_In%elem_of_map_to_list. by apply bool_decide_eq_true. }
  by rewrite Hs, Hw.
Qed.

(** The Log Matching property of two logs. *)
Definition logs_matching (ls rs : list LogEntry) : Prop :=
  forall k l r, ls !! k = Some l -> rs !! k = Some r -> term l = term r -> take (S k) ls = take (S k) rs.

Lemma consecutive_spec offset log :
  consecutive offset log = true <-> forall k e, log !! k = Some e -> index e = offset + N.of_nat k + 1.
Proof.
  revert offset. induction log as [|e log IH]; intros offset; simpl; [split; [by intros _ k e|done]|].
  rewrite andb_true_iff, N.eqb_eq, IH. split.
  - intros [He Hl] [|k] e' Hk; simpl in Hk; [injection Hk as <-; lia|]. rewrite (Hl k e' Hk). lia.
  - intros Hl. split; [rewrite (Hl 0%nat e eq_refl); lia|]. intros k e' Hk. rewrite (Hl (S k) e' Hk). lia.
Qed.

(** The comparison of two logs, from any prefix on. *)
Lemma first_mismatch_spec same offset ls rs :
  first_mismatch same offset ls rs = None <->
  forall k l r, ls !! k = Some l -> rs !! k = Some r -> term l = term r ->
    same = true /\ take (S k) ls = take (S k) rs.
Proof.
  revert same offset rs. induction ls as [|l ls IH]; intros same offset rs; simpl; [split; [by intros _ k l r|done]|].
  destruct rs as [|r rs]; simpl; [split; [by intros _ k l' r' _|done]|].
  destruct (same && bool_decide (l = r)) eqn:Hs; simpl.
  - apply andb_true_iff in Hs as [-> <-%bool_decide_eq_true]. rewrite andb_false_r, IH. split.
    + intros Hall [|k] l' r' Hl Hr Ht; simpl in *; [done|].
      split; [done|]. f_equal. by apply (Hall k l' r').
    + intros Hall k l' r' Hl Hr Ht. destruct (Hall (S k) l' r' Hl Hr Ht) as [_ Heq]. by injection Heq.
  - rewrite andb_true_r. destruct (N.eqb_spec (term l) (term r)) as [Ht|Ht].
    + split; [done|]. intros Hall. destruct (Hall 0%nat l r eq_refl eq_refl Ht) as [-> Heq]. injection Heq as Heq.
      simpl in Hs. by rewrite bool_decide_eq_true_2 in Hs.
    + rewrite IH. split.
      * intros Hall [|k] l' r' Hl Hr Ht'; simpl in *; [congruence|]. by destruct (Hall k l' r' Hl Hr Ht').
      * intros Hall k l' r' Hl Hr Ht'. exfalso. destruct (Hall (S k) l' r' Hl Hr Ht') as [-> Heq]. injection Heq as Heq _.
        simpl in Hs. by rewrite bool_decide_eq_true_2 in Hs.
Qed.

Lemma match_against_spec s rest :
  match_against s rest = None <-> forall s', s' ∈ rest -> logs_matching (sn_log s) (sn_log s').
Proof.
  induction rest as [|s' rest IH]; simpl; [split; [by intros _ s' ?%not_elem_of_nil|done]|].
  pose proof (first_mismatch_spec true 0 (sn_log s) (sn_log s')) as Hf. destruct (first_mismatch _ _ _ _) as [k|].
  - split; [done|]. intros Hall. assert (Hn : Some k = None); [|done]. apply Hf. intros i l r Hl Hr Ht. split; [done|].
    by apply (Hall s' (list_elem_of_here _ _) i l r).
  - rewrite IH. split.
    + intros Hall s0 [->|Hin]%elem_of_cons; [|by apply Hall]. intros i l r Hl Hr Ht. by apply (proj1 Hf eq_refl i l r).
    + intros Hall s0 Hin. apply Hall. by right.
Qed.

Lemma match_pairs_spec l :
  match_pairs l = None <->
  forall i j s s', (i < j)%nat -> l !! i = Some s -> l !! j = Some s' -> logs_matching (sn_log s) (sn_log s').
Proof.
  induction l as [|s l IH]; simpl; [split; [by intros _ i j s s'|done]|].
  pose proof (match_against_spec s l) as Hm. destruct (match_against s l) as [e|].
  - split; [done|]. intros Hall. assert (Hn : Some e = None); [|done]. apply Hm. intros s' Hin.
    apply list_elem_of_lookup in Hin as [k Hk]. by apply (Hall 0%nat (S k) s s' ltac:(lia) eq_refl).
  - rewrite IH. split.
    + intros Hall [|i] [|j] s1 s2 Hij H1 H2; simpl in *; try lia.
      * injection H1 as <-. apply (proj1 Hm eq_refl). by eapply list_elem_of_lookup_2.
      * apply (Hall i j); [lia|done..].
    + intros Hall i j s1 s2 Hij H1 H2. by apply (Hall (S i) (S j) s1 s2 ltac:(lia)).
Qed.

(** [check_log_matching] decides the Log Matching property of the snapshots. *)
Lemma log_check_spec l :
  check_log_matching l = None <->
  (forall s, s ∈ l -> forall k e, sn_log s !! k = Some e -> index e = N.of_nat k + 1) /\
  (forall i j s s', (i < j)%nat -> l !! i = Some s -> l !! j = Some s' -> logs_matching (sn_log s) (sn_log s')).
Proof.
  unfold check_log_matching. rewrite <- match_pairs_spec.
  destruct (List.find _ l) as [s|] eqn:Hf.
  - split; [done|]. intros [Hall _]. apply List.find_some in Hf as [Hin%list_elem_of_In Hc].
    apply negb_true_iff in Hc. assert (Ht : consecutive 0 (sn_log s) = true); [|congruence].
    apply consecutive_spec. intros k e He. rewrite (Hall s Hin k e He). lia.
  - split; [|by intros [_ ?]]. intros Hm. split; [|done]. intros s Hin%list_elem_of_In k e He.
    pose proof (List.find_none _ _ Hf s Hin) as Hc. apply negb_false_iff in Hc.
    rewrite (proj1 (consecutive_spec 0 _) Hc k e He). lia.
Qed.
End checks.

(** C7 The deterministic cluster refines the cluster of nodes: whatever a scenario
    of steps, client requests, crashes with any survival pattern, restarts, link and
    storage faults does, there is a run of the abstract cluster in which every frame
    on the simulated wire encodes a message that was sent, every running node that
    takes part is the node of the abstract host with its log on the abstract disk,
    and the stable bytes of a crashed node recover to the abstract disk. *)
Theorem harness_refines_cluster `{HeapLaws} (config : ClusterConfig) (l : list ClusterCall) (c : Impl) :
  played_to config l c ->
  let conf := sorted_config config in
  exists net, cluster (member_config conf) (cc_members conf) net /\
    (forall m, on_wire (im_simulator c) m -> carried conf net m) /\
    (forall x rt r, im_nodes c !! x = Some rt -> rt_raft rt = Some r -> role_ r <> unavailable ->
       n_host net !! x = Some (mkHost r (recovered_from (rt_wal_state rt)) false)) /\
    (forall x rt sc, im_nodes c !! x = Some rt -> rt_raft rt = None ->
       scan_wal_bytes (stable_bytes (im_simulator c) x) (member_identity conf x) (cc_wal conf) = inr sc ->
       exists n written, n_host net !! x = Some (mkHost n (recovered_from (sc_state sc)) written)).
Proof.
  intros Hp conf. destruct (played_ease config l c Hp) as [Hset (net & Hm & _)]. exists net.
  split_and!; [apply Hm|apply Hm| |].
  - intros x rt r. by apply (running_host conf c net).
  - intros x rt sc. by apply (down_log conf c net).
Qed.

(** C8 The snapshots of a scenario agree on what is committed: two running nodes that
    take part and have both committed an index show the same entry there. *)
Theorem harness_commits_agree `{HeapLaws} (config : ClusterConfig) (l : list ClusterCall) (c : Impl)
    (x y : NodeId) (sx sy : NodeSnapshot) (i : LogIndex) :
  played_to config l c -> snapshot c x = Some sx -> snapshot c y = Some sy ->
  sn_alive sx = true -> sn_alive sy = true -> sn_role sx <> unavailable -> sn_role sy <> unavailable ->
  1 <= i -> i <= sn_commit_index sx -> i <= sn_commit_index sy ->
  exists e, sn_log sx !! N.to_nat (i - 1) = Some e /\ sn_log sy !! N.to_nat (i - 1) = Some e.
Proof.
  intros Hp Hsx Hsy Hax Hay Hrx Hry Hi Hix Hiy. destruct (played_ease config l c Hp) as [Hset (net & Hm & _)].
  destruct (snapshot_running _ _ _ Hsx Hax) as (tx & rx & Nx & Rx & Ex & _ & Cx & Lx).
  destruct (snapshot_running _ _ _ Hsy Hay) as (ty & ry & Ny & Ry & Ey & _ & Cy & Ly).
  rewrite Ex in Hrx. rewrite Ey in Hry.
  pose proof (running_host _ c net x tx rx Hm Nx Rx Hrx) as Hx.
  pose proof (running_host _ c net y ty ry Hm Ny Ry Hry) as Hy.
  pose proof (node_commits_agree (hn_nodup _ Hset) (member_configured _ Hset) (mt_cluster _ _ _ Hm) x y _ _ Hx Hy Hrx Hry) as Ha.
  simpl in Ha. destruct (log_at_is_Some (log_ rx) i) as [e He]; [destruct Ha as (Hl & _); lia|].
  exists e. rewrite Lx, Ly, <- !(log_at_lookup _ i) by lia. split; [done|].
  by rewrite <- (agree_log_at _ _ _ i Ha) by lia.
Qed.

(** One leader per term in a scenario: two nodes that [leaders] lists with the same
    term are the same node. *)
Theorem harness_one_leader `{HeapLaws} (config : ClusterConfig) (l : list ClusterCall) (c : Impl)
    (ready ready' : bool) (x y : NodeId) :
  played_to config l c -> x ∈ leaders c ready -> y ∈ leaders c ready' ->
  sn_term <$> snapshot c x = sn_term <$> snapshot c y -> x = y.
Proof.
  intros Hp Hlx Hly Ht. destruct (played_ease config l c Hp) as [Hset (net & Hm & _)].
  apply leads_spec in Hlx as (tx & rx & Nx & Rx & Ax & Ex), Hly as (ty & ry & Ny & Ry & Ay & Ey).
  pose proof (running_host _ c net x tx rx Hm Nx Rx ltac:(by rewrite Ex)) as Hx.
  pose proof (running_host _ c net y ty ry Hm Ny Ry ltac:(by rewrite Ey)) as Hy.
  eapply (leaders_unique (hn_nodup _ Hset) (member_configured _ Hset) (mt_cluster _ _ _ Hm) x y _ _ Hx Hy Ex Ey).
  unfold snapshot, runtime, make_snapshot in Ht. rewrite Nx, Ny in Ht. simpl in Ht.
  rewrite Rx, Ry, Ax, Ay in Ht. simpl in Ht |- *. congruence.
Qed.

(** C9 Calls return: in every state of a scenario a call throws only when the observer
    reports a violation, the client tokens are used up or the engine refuses a
    recovered log, and when it returns no effect is left in the queue. *)
Theorem harness_calls_return `{HeapLaws} (config : ClusterConfig) (l : list ClusterCall) (c : Impl)
    (a : ClusterCall) :
  played_to config l c -> cluster_call_fits a ->
  match cluster_call c a with
  | inr c' => im_effect_queue c' = [] /\ im_draining_effects c' = false
  | inl what => excuse (sorted_config config) what
  end.
Proof.
  intros Hp Ha. destruct (played_ease config l c Hp) as [Hset He].
  pose proof (cluster_call_ends (sorted_config config) Hset c a He Ha) as Hend.
  destruct (cluster_call c a) as [what|c']; [done|]. by destruct Hend as (net & _ & ? & ?).
Qed.

(** C10 The observer's own execution of the log, with a digest, a session check and a
    [switch] of its own, agrees with the state machine: in every state of every scenario
    [compare_applied_prefix] accepts every running node. *)
Theorem harness_reexecution_agrees `{HeapLaws} (config : ClusterConfig) (l : list ClusterCall) (c : Impl)
    (x : NodeId) (rt : NodeRuntime) (r : RaftNode) :
  played_to config l c -> im_nodes c !! x = Some rt -> rt_raft rt = Some r -> compare_applied_prefix r = None.
Proof.
  intros Hp Hx Hr. destruct (played_ease config l c Hp) as [Hset (net & Hm & _)].
  destruct (up_found _ c net x rt r Hm Hx Hr) as (_ & _ & _ & _ & b & _ & [_ [Hi Ht] _ _]).
  apply compare_accepts; [apply Hi|]. eapply Forall_impl; [apply (ty_log _ _ Ht)|].
  intros e (_ & Ha & _). by eapply acceptable_valid.
Qed.

(** The observer's log check accepts the nodes that take part: in every state of a
    scenario [check_log_matching] finds no violation among the snapshots of the
    running nodes. *)
Theorem harness_log_check_accepts `{HeapLaws} (config : ClusterConfig) (l : list ClusterCall) (c : Impl) :
  played_to config l c ->
  check_log_matching (filter (fun s => sn_alive s = true /\ sn_role s <> unavailable) (snapshots c)) = None.
Proof.
  intros Hp. destruct (played_ease config l c Hp) as [Hset (net & Hm & _)].
  apply log_check_spec. split.
  - intros s Hs. apply running_snapshot in Hs as (x & rt & r & Nx & Rx & Ex & ->).
    pose proof (running_host _ c net x rt r Hm Nx Rx Ex) as Hx.
    pose proof (ClusterSafety.host_ok (hn_nodup _ Hset) (member_configured _ Hset) (mt_cluster _ _ _ Hm) x _ Hx) as Hok.
    intros k e He. apply (ok_log _ (ok_base _ Hok)) in He. simpl in He. lia.
  - intros i j s s' _ Hs Hs'. apply list_elem_of_lookup_2, running_snapshot in Hs as (x & rx & nx & Nx & Rx & Ex & ->).
    apply list_elem_of_lookup_2, running_snapshot in Hs' as (y & ry & ny & Ny & Ry & Ey & ->).
    pose proof (running_host _ c net x rx nx Hm Nx Rx Ex) as Hx.
    pose proof (running_host _ c net y ry ny Hm Ny Ry Ey) as Hy.
    intros k e e' He He' Ht.
    destruct (logs_match (hn_nodup _ Hset) (member_configured _ Hset) (mt_cluster _ _ _ Hm) x y _ _ (N.of_nat (S k)) Hx Hy Ex Ey)
      as (_ & _ & Heq); simpl in *.
    + apply lookup_lt_Some in He. unfold llen. lia.
    + apply lookup_lt_Some in He'. unfold llen. lia.
    + unfold log_term_at. rewrite !log_at_lookup by lia. replace (N.to_nat (N.of_nat (S k) - 1)) with k by lia.
      by rewrite He, He'.
    + by rewrite Nat2N.id in Heq.
Qed.

(** ** A scenario *)

Definition demo_library : HeapLib := sorted_heap_lib.
#[local] Existing Instance demo_library.
#[local] Instance demo_laws : HeapLaws := sorted_heap_laws.

Definition demo_config : ClusterConfig := default_cluster_config.

(** An election; then a request to the leader and its crash while it writes the
    entry, with a torn write left on its device, and its restart. *)
Definition demo_election : list ClusterCall := replicate 40 do_step.
Definition demo_crash : list ClusterCall :=
  [do_submit 3 (mkClientCommand (mkSessionId 7 7) 1 put "k" "v"); do_step;
   do_crash 3 (mkStorageCrashSpec 10 10); do_restart 3; do_step].

(** A node that runs and has committed an index. *)
Definition shows (c : Impl) (x : NodeId) (commit : LogIndex) : bool :=
  match snapshot c x with
  | Some s => sn_alive s && negb (bool_decide (sn_role s = unavailable)) && (commit <=? sn_commit_index s)
  | None => false
  end.

Lemma shows_spec c x commit :
  shows c x commit = true -> exists s, snapshot c x = Some s /\ sn_alive s = true /\
    sn_role s <> unavailable /\ commit <= sn_commit_index s.
Proof.
  unfold shows. destruct (snapshot c x) as [s|]; [|done].
  rewrite !andb_true_iff, negb_true_iff, bool_decide_eq_false, N.leb_le. intros [[? ?] ?]. by exists s.
Qed.

Definition elected (c : Impl) : bool :=
  bool_decide (leaders c true = [3]) && bool_decide (leaders c false = [3]).

(** The scenario, evaluated once. *)
Definition demo_check : bool :=
  match DeterministicCluster_new demo_config with
  | inl _ => false
  | inr c0 =>
      match cluster_calls c0 demo_election with
      | inl _ => false
      | inr c1 =>
          elected c1 &&
          match cluster_calls c1 demo_crash with
          | inl _ => false
          | inr c2 => shows c2 1 1 && shows c2 2 1
          end
      end
  end.

Lemma demo_checked : demo_check = true.
Proof. vm_compute. reflexivity. Qed.

Lemma demo_typed : config_typed demo_config.
Proof.
  constructor; [repeat constructor; vm_compute; discriminate|vm_compute; discriminate|vm_compute; split; discriminate|].
  split; [constructor|]; vm_compute; discriminate.
Qed.

Lemma demo_calls_fit : Forall cluster_call_fits demo_election /\ Forall cluster_call_fits demo_crash.
Proof. split; [by apply Forall_replicate|]. repeat constructor; vm_compute; discriminate. Qed.

(** The state after the election, and the one at the end. *)
Lemma demo_states :
  exists c1 c2, played_to demo_config demo_election c1 /\ elected c1 = true /\
    played_to demo_config (demo_election ++ demo_crash) c2 /\ shows c2 1 1 = true /\ shows c2 2 1 = true.
Proof.
  pose proof demo_checked as Hc. unfold demo_check in Hc.
  destruct (DeterministicCluster_new demo_config) as [|c0] eqn:H0; [done|].
  destruct (cluster_calls c0 demo_election) as [|c1] eqn:H1; [done|]. apply andb_true_iff in Hc as [He Hc].
  destruct (cluster_calls c1 demo_crash) as [|c2] eqn:H2; [done|]. apply andb_true_iff in Hc as [S1 S2].
  destruct demo_calls_fit as [F1 F2]. exists c1, c2.
  split; [exact (conj demo_typed (conj F1 (ex_intro _ c0 (conj H0 H1))))|]. split; [exact He|].
  split; [|exact (conj S1 S2)]. split; [exact demo_typed|]. split; [apply Forall_app; exact (conj F1 F2)|].
  exists c0. split; [exact H0|]. rewrite (cluster_calls_app c0 c1 _ _ H1). exact H2.
Qed.

Lemma harness_refines_cluster_witness :
  exists c net, played_to demo_config (demo_election ++ demo_crash) c /\
    cluster (member_config (sorted_config demo_config)) [1; 2; 3] net /\
    forall m, on_wire (im_simulator c) m -> carried (sorted_config demo_config) net m.
Proof.
  destruct demo_states as (c1 & c & _ & _ & Hp & _).
  destruct (harness_refines_cluster demo_config _ c Hp) as (net & Hc & Hw & _).
  exists c, net. exact (conj Hp (conj Hc Hw)).
Defined.

Lemma harness_commits_agree_witness :
  exists c s1 s2 e, played_to demo_config (demo_election ++ demo_crash) c /\
    snapshot c 1 = Some s1 /\ snapshot c 2 = Some s2 /\
    sn_log s1 !! 0%nat = Some e /\ sn_log s2 !! 0%nat = Some e.
Proof.
  destruct demo_states as (c1 & c & _ & _ & Hp & S1 & S2).
  apply shows_spec in S1 as (s1 & X1 & A1 & R1 & C1), S2 as (s2 & X2 & A2 & R2 & C2).
  destruct (harness_commits_agree demo_config _ c 1 2 s1 s2 1 Hp X1 X2 A1 A2 R1 R2
    ltac:(lia) C1 C2) as (e & E1 & E2).
  exists c, s1, s2, e. exact (conj Hp (conj X1 (conj X2 (conj E1 E2)))).
Defined.

Lemma harness_one_leader_witness :
  exists c, played_to demo_config demo_election c /\ 3 ∈ leaders c true /\ 3 ∈ leaders c false /\ (3 : NodeId) = 3.
Proof.
  destruct demo_states as (c & c2 & Hp & He & _). apply andb_true_iff in He as [L1 L2].
  apply bool_decide_eq_true in L1, L2.
  assert (H1 : 3 ∈ leaders c true) by (rewrite L1; apply list_elem_of_here).
  assert (H2 : 3 ∈ leaders c false) by (rewrite L2; apply list_elem_of_here).
  exists c. exact (conj Hp (conj H1 (conj H2
    (harness_one_leader demo_config _ c true false 3 3 Hp H1 H2 eq_refl)))).
Defined.

Lemma harness_calls_return_witness :
  exists c, played_to demo_config demo_election c /\
    match cluster_call c (do_crash 3 (mkStorageCrashSpec 10 10)) with
    | inr c' => im_effect_queue c' = [] /\ im_draining_effects c' = false
    | inl what => excuse (sorted_config demo_config) what
    end.
Proof.
  destruct demo_states as (c & c2 & Hp & _). exists c.
  exact (conj Hp (harness_calls_return demo_config _ c (do_crash 3 (mkStorageCrashSpec 10 10)) Hp I)).
Defined.

Lemma harness_reexecution_agrees_witness :
  exists c rt r, played_to demo_config demo_election c /\ im_nodes c !! 3 = Some rt /\ rt_raft rt = Some r /\
    compare_applied_prefix r = None.
Proof.
  destruct demo_states as (c & c2 & Hp & He & _). apply andb_true_iff in He as [L1 _]. apply bool_decide_eq_true in L1.
  assert (H1 : 3 ∈ leaders c true) by (rewrite L1; apply list_elem_of_here).
  destruct (leads_spec c true 3 H1) as (rt & r & Hx & Hr & _). exists c, rt, r.
  exact (conj Hp (conj Hx (conj Hr (harness_reexecution_agrees demo_config _ c 3 rt r Hp Hx Hr)))).
Defined.

Lemma harness_log_check_accepts_witness :
  exists c, played_to demo_config (demo_election ++ demo_crash) c /\
    check_log_matching (filter (fun s => sn_alive s = true /\ sn_role s <> unavailable) (snapshots c)) = None.
Proof.
  destruct demo_states as (c1 & c & _ & _ & Hp & _). exists c.
  exact (conj Hp (harness_log_check_accepts demo_config _ c Hp)).
Defined.
