(* ===== verification/NodeProgram.v ===== *)
(** * NodeProgram: the command-line node

    [apps/detlog_node.cpp]: the options of the program, the configuration of the host
    it runs, and its console.  A text that is searched and cut ([std::string_view]) is
    a list of characters; a function that throws [std::invalid_argument] returns the
    message on the left of a sum.

    The console is a program of two threads.  The input thread reads lines into a
    bounded queue; the main thread polls the host, takes one line and executes it.
    [console_step] is one action of either: a critical section, one access to an
    atomic variable, or the work between two of them. *)

From Stdlib Require Import Ascii DecimalString DecimalN DecimalFacts DecimalPos.
From stdpp Require Import relations sorting.
From S2P Require Import Prelude Model StateMachine RaftTypes Raft RaftSpec RaftRefine RaftReplicate RaftElection RaftAppend RaftStep System Deployment RaftTyped.
From S2P Require Codec.
From S2P Require Import Bytes Wal WalFrames WalFile WalDurability Pcg SimQueue Simulator SimTrace HarnessTypes TcpTypes HostTypes HostWorker NodeHost HostOwner HostSites HostTheorems.
#[local] Open Scope string_scope.
#[local] Open Scope list_scope.
#[local] Open Scope N_scope.

(** ** Texts *)

Definition text : Type := list ascii.
Definition chars (s : string) : text := String.list_ascii_of_string s.
Definition text_string (t : text) : string := String.string_of_list_ascii t.

(** [std::string_view::find], [rfind] and [substr]. *)
Definition find_char (c : ascii) (t : text) : option nat := fst <$> list_find (eq c) t.
Definition rfind_char (c : ascii) (t : text) : option nat :=
  (fun i => length t - 1 - i)%nat <$> find_char c (reverse t).
Definition substr (from count : nat) (t : text) : text := take count (drop from t).

(** ** [std::from_chars] for an unsigned 64-bit value *)

Definition digit_value (c : ascii) : N :=
  let n := N_of_ascii c in
  if (48 <=? n) && (n <=? 57) then n - 48
  else if (97 <=? n) && (n <=? 122) then n - 87
  else if (65 <=? n) && (n <=? 90) then n - 55
  else 255.

Definition is_digit (base : N) (c : ascii) : bool := digit_value c <? base.

(** The longest run of digits, and what follows it. *)
Fixpoint span_digits (base : N) (t : text) : text * text :=
  match t with
  | [] => ([], [])
  | c :: t' =>
      if is_digit base c then (let '(ds, rest) := span_digits base t' in (c :: ds, rest)) else ([], t)
  end.

Definition digits_value (base : N) (ds : text) : N :=
  foldl (fun acc c => acc * base + digit_value c) 0 ds.

Inductive CharsError := chars_invalid_argument | chars_out_of_range.

Definition from_chars (base : N) (t : text) : (CharsError + N) * text :=
  match span_digits base t with
  | ([], _) => (inl chars_invalid_argument, t)
  | (ds, rest) =>
      (if u64_max <? digits_value base ds then inl chars_out_of_range else inr (digits_value base ds), rest)
  end.

Definition parse_unsigned (t : text) (option : string) (base : N) : Throw N :=
  match from_chars base t with
  | (inr v, []) => inr v
  | _ => inl (option +:+ " has an invalid unsigned value")
  end.

(** ** Options *)

Record MemberAddress := mkMemberAddress { ma_node : NodeId; ma_address : string; ma_port : N }.

#[global] Instance MemberAddress_eq_dec : EqDecision MemberAddress.
Proof. solve_decision. Defined.

Record Arguments := mkArguments {
  ar_node : NodeId;
  ar_members : list MemberAddress;
  ar_wal_path : string;
  ar_cluster_high : N;
  ar_cluster_low : N;
  ar_seed : N;
  ar_incarnation : N;
  ar_tick_ms : N;
  ar_allow_non_loopback : bool;
}.

Definition parse_cluster (t : text) : Throw (N * N) :=
  halves <== match find_char ":" t with
             | Some colon => inr (substr 0 colon t, drop (colon + 1) t)
             | None => if (length t =? 32)%nat then inr (substr 0 16 t, drop 16 t)
                       else inl "--cluster requires 32 hex digits or HIGH:LOW"
             end;
  let '(high, low) := halves in
  if (length high =? 0)%nat || (length low =? 0)%nat || (16 <? length high)%nat || (16 <? length low)%nat
  then inl "--cluster halves must contain 1-16 hex digits"
  else
    high <== parse_unsigned high "--cluster" 16;
    low <== parse_unsigned low "--cluster" 16;
    inr (high, low).

(** The loop body of [parse_members]: one entry. *)
Definition parse_member (item : text) : Throw MemberAddress :=
  match find_char "@" item, rfind_char ":" item with
  | Some at_, Some colon =>
      if (at_ =? 0)%nat || (colon <=? at_ + 1)%nat || (length item <=? colon + 1)%nat
      then inl "--members entries must be ID@IPv4:PORT"
      else
        node <== parse_unsigned (substr 0 at_ item) "--members" 10;
        port <== parse_unsigned (drop (colon + 1) item) "--members" 10;
        if (node =? 0) || (u32_max <? node) || (port =? 0) || (65535 <? port)
        then inl "--members ID or port is out of range"
        else inr (mkMemberAddress node (text_string (substr (at_ + 1) (colon - at_ - 1) item)) port)
  | _, _ => inl "--members entries must be ID@IPv4:PORT"
  end.

(** The loop, from position [from] on.  Every turn moves past a comma or ends the loop, so
    as many turns as characters and one are enough. *)
Fixpoint parse_items (turns : nat) (spec : text) (from : nat) (ms : list MemberAddress)
  : Throw (list MemberAddress) :=
  match turns with
  | O => inr ms
  | S turns =>
      if (length spec <? from)%nat then inr ms
      else
        let comma := find_char "," (drop from spec) in
        let item := match comma with Some n => substr from n spec | None => drop from spec end in
        m <== parse_member item;
        match comma with
        | None => inr (ms ++ [m])
        | Some n => parse_items turns spec (from + n + 1) (ms ++ [m])
        end
  end.

Definition node_before (a b : MemberAddress) : Prop := ma_node a <= ma_node b.
#[global] Instance node_before_dec : RelDecision node_before.
Proof. intros a b. unfold node_before. apply _. Defined.

Definition parse_members (spec : text) : Throw (list MemberAddress) :=
  ms <== parse_items (S (length spec)) spec 0 [];
  let ms := merge_sort node_before ms in
  if negb ((length ms =? 3)%nat || (length ms =? 5)%nat) || adjacent_equal (ma_node <$> ms)
  then inl "--members requires 3 or 5 unique nodes"
  else inr ms.

(** The arguments read so far, and which of the required ones were. *)
Record Parsing := mkParsing {
  pa_result : Arguments;
  pa_has_node : bool; pa_has_members : bool; pa_has_wal : bool; pa_has_cluster : bool;
}.

Definition parsing_start : Parsing :=
  mkParsing (mkArguments 0 [] "" 0 0 1 0 10 false) false false false false.

Definition set_allow (p : Parsing) : Parsing :=
  let r := pa_result p in
  mkParsing (mkArguments (ar_node r) (ar_members r) (ar_wal_path r) (ar_cluster_high r)
    (ar_cluster_low r) (ar_seed r) (ar_incarnation r) (ar_tick_ms r) true)
    (pa_has_node p) (pa_has_members p) (pa_has_wal p) (pa_has_cluster p).

(** One option with its value. *)
Definition take_option (argument value : string) (p : Parsing) : Throw Parsing :=
  let r := pa_result p in
  let unsigned := parse_unsigned (chars value) argument 10 in
  let put_numbers seed incarnation tick_ms :=
    mkParsing (mkArguments (ar_node r) (ar_members r) (ar_wal_path r) (ar_cluster_high r)
      (ar_cluster_low r) seed incarnation tick_ms (ar_allow_non_loopback r))
      (pa_has_node p) (pa_has_members p) (pa_has_wal p) (pa_has_cluster p) in
  if String.eqb argument "--id" then
    parsed <== unsigned;
    if (parsed =? 0) || (u32_max <? parsed) then inl "--id is out of range"
    else inr (mkParsing (mkArguments parsed (ar_members r) (ar_wal_path r) (ar_cluster_high r)
      (ar_cluster_low r) (ar_seed r) (ar_incarnation r) (ar_tick_ms r) (ar_allow_non_loopback r))
      true (pa_has_members p) (pa_has_wal p) (pa_has_cluster p))
  else if String.eqb argument "--members" then
    ms <== parse_members (chars value);
    inr (mkParsing (mkArguments (ar_node r) ms (ar_wal_path r) (ar_cluster_high r)
      (ar_cluster_low r) (ar_seed r) (ar_incarnation r) (ar_tick_ms r) (ar_allow_non_loopback r))
      (pa_has_node p) true (pa_has_wal p) (pa_has_cluster p))
  else if String.eqb argument "--wal" then
    inr (mkParsing (mkArguments (ar_node r) (ar_members r) value (ar_cluster_high r)
      (ar_cluster_low r) (ar_seed r) (ar_incarnation r) (ar_tick_ms r) (ar_allow_non_loopback r))
      (pa_has_node p) (pa_has_members p) true (pa_has_cluster p))
  else if String.eqb argument "--cluster" then
    c <== parse_cluster (chars value);
    inr (mkParsing (mkArguments (ar_node r) (ar_members r) (ar_wal_path r) c.1 c.2
      (ar_seed r) (ar_incarnation r) (ar_tick_ms r) (ar_allow_non_loopback r))
      (pa_has_node p) (pa_has_members p) (pa_has_wal p) true)
  else if String.eqb argument "--seed" then
    v <== unsigned; inr (put_numbers v (ar_incarnation r) (ar_tick_ms r))
  else if String.eqb argument "--incarnation" then
    v <== unsigned; inr (put_numbers (ar_seed r) v (ar_tick_ms r))
  else if String.eqb argument "--tick-ms" then
    v <== unsigned;
    if (v =? 0) || (i64_max <? v) then inl "--tick-ms is out of range"
    else inr (put_numbers (ar_seed r) (ar_incarnation r) v)
  else inl ("unknown option: " +:+ argument).

(** The loop of [parse_arguments] over [argv] without the program name; [None]: the usage
    was printed and the process exits. *)
Fixpoint parse_options (argv : list string) (p : Parsing) : Throw (option Parsing) :=
  match argv with
  | [] => inr (Some p)
  | argument :: rest =>
      if String.eqb argument "--help" || String.eqb argument "-h" then inr None
      else if String.eqb argument "--allow-non-loopback" then parse_options rest (set_allow p)
      else
        match rest with
        | [] => inl (argument +:+ " requires a value")
        | value :: rest => p' <== take_option argument value p; parse_options rest p'
        end
  end.

Definition parse_arguments (argv : list string) : Throw (option Arguments) :=
  r <== parse_options argv parsing_start;
  match r with
  | None => inr None
  | Some p =>
      if negb (pa_has_node p) || negb (pa_has_members p) || negb (pa_has_wal p) || negb (pa_has_cluster p)
      then inl "--id, --members, --wal, and --cluster are required"
      else if negb (bool_decide (ar_node (pa_result p) ∈ ma_node <$> ar_members (pa_result p)))
      then inl "--id is not present in --members"
      else inr (Some (pa_result p))
  end.

(** ** The host *)

(** The loop over the members that fills the addresses in. *)
Definition add_endpoint (node : NodeId) (t : TcpTransportConfig) (m : MemberAddress) : TcpTransportConfig :=
  if ma_node m =? node then
    mkTcpTransportConfig (tc_identity t) (tc_incarnation t) (ma_address m) (ma_port m)
      (tc_allow_non_loopback t) (tc_peers t) (tc_limits t)
  else
    mkTcpTransportConfig (tc_identity t) (tc_incarnation t) (tc_listen_address t) (tc_listen_port t)
      (tc_allow_non_loopback t)
      (tc_peers t ++ [mkTcpPeerEndpoint (ma_node m) (ma_address m) (ma_port m)]) (tc_limits t).

Definition host_config (a : Arguments) : NodeHostConfig :=
  let tcp := mkTcpTransportConfig
    (mkTcpIdentity (ar_cluster_high a) (ar_cluster_low a) (ar_node a)) (ar_incarnation a)
    "127.0.0.1" 0 (ar_allow_non_loopback a) [] default_tcp_limits in
  mkNodeHostConfig (default_config (ar_node a) (ma_node <$> ar_members a))
    (mkWalIdentity (ar_cluster_high a) (ar_cluster_low a) (ar_node a)) (ar_wal_path a) default_options
    (foldl (add_endpoint (ar_node a)) tcp (ar_members a)) Codec.default_limits
    (Z.of_N (ar_tick_ms a)) 10 (ar_seed a) 1 default_host_limits (mkGroupCommitConfig false 8 2).

(** ** Searching and scanning *)

Lemma find_char_app c l r : c ∉ l -> find_char c (l ++ c :: r) = Some (length l).
Proof.
  intros Hc. unfold find_char. enough (list_find (eq c) (l ++ c :: r) = Some (length l, c)) as -> by done.
  apply list_find_Some. split_and!; [|done|].
  - by rewrite lookup_app_r, Nat.sub_diag by lia.
  - intros j y Hj Hlt <-. rewrite lookup_app_l in Hj by done. by apply list_elem_of_lookup_2 in Hj.
Qed.

Lemma find_char_none c l : c ∉ l -> find_char c l = None.
Proof.
  intros Hc. unfold find_char. enough (list_find (eq c) l = None) as -> by done.
  apply list_find_None, Forall_forall. by intros y Hy <-.
Qed.

Lemma rfind_char_app c l r : c ∉ r -> rfind_char c (l ++ c :: r) = Some (length l).
Proof.
  intros Hc. unfold rfind_char. rewrite reverse_app, reverse_cons, <- (assoc_L (++)). simpl.
  rewrite find_char_app by (by rewrite elem_of_reverse). simpl. f_equal. rewrite length_reverse, length_app. simpl. lia.
Qed.

Lemma span_all base ds : Forall (fun c => is_digit base c = true) ds -> span_digits base ds = (ds, []).
Proof. induction 1 as [|c ds Hc _ IH]; simpl; [done|]. by rewrite Hc, IH. Qed.

Lemma parse_unsigned_ok base ds option :
  ds <> [] -> Forall (fun c => is_digit base c = true) ds -> digits_value base ds <= u64_max ->
  parse_unsigned ds option base = inr (digits_value base ds).
Proof.
  intros Hne Hds Hv. unfold parse_unsigned, from_chars. rewrite (span_all base ds Hds). destruct ds; [done|].
  by destruct (N.ltb_spec u64_max (digits_value base (a :: ds))); [lia|].
Qed.

Lemma from_chars_fits base t v rest : from_chars base t = (inr v, rest) -> u64 v.
Proof.
  unfold from_chars, u64. destruct (span_digits base t) as [[|d ds] r]; [done|].
  by destruct (N.ltb_spec u64_max (digits_value base (d :: ds))); intros [= <-].
Qed.

Lemma parse_unsigned_fits base t option v : parse_unsigned t option base = inr v -> u64 v.
Proof.
  unfold parse_unsigned. destruct (from_chars base t) as [[e|w] [|]] eqn:Hf; try done. intros [= <-].
  by eapply from_chars_fits.
Qed.

(** *** Numbers as [std::to_string] writes them *)

Fixpoint uint_value (acc : N) (d : Decimal.uint) : N :=
  match d with
  | Decimal.Nil => acc
  | Decimal.D0 d => uint_value (acc * 10 + 0) d
  | Decimal.D1 d => uint_value (acc * 10 + 1) d
  | Decimal.D2 d => uint_value (acc * 10 + 2) d
  | Decimal.D3 d => uint_value (acc * 10 + 3) d
  | Decimal.D4 d => uint_value (acc * 10 + 4) d
  | Decimal.D5 d => uint_value (acc * 10 + 5) d
  | Decimal.D6 d => uint_value (acc * 10 + 6) d
  | Decimal.D7 d => uint_value (acc * 10 + 7) d
  | Decimal.D8 d => uint_value (acc * 10 + 8) d
  | Decimal.D9 d => uint_value (acc * 10 + 9) d
  end.

Lemma uint_chars d acc :
  Forall (fun c => is_digit 10 c = true) (chars (NilEmpty.string_of_uint d)) /\
  foldl (fun acc c => acc * 10 + digit_value c) acc (chars (NilEmpty.string_of_uint d)) = uint_value acc d.
Proof.
  revert acc. induction d as [|d IH|d IH|d IH|d IH|d IH|d IH|d IH|d IH|d IH|d IH]; intros acc; [done|..].
  all: split; [constructor; [done|apply (IH 0)]|apply IH].
Qed.

Lemma uint_value_acc d p : uint_value (Npos p) d = Npos (Pos.of_uint_acc d p).
Proof.
  revert p. induction d as [|d IH|d IH|d IH|d IH|d IH|d IH|d IH|d IH|d IH|d IH]; intros p; [done|..].
  all: cbn [uint_value Pos.of_uint_acc]; rewrite <- IH; f_equal; lia.
Qed.

Lemma uint_value_of d : uint_value 0 d = N.of_uint d.
Proof. induction d; try done; apply uint_value_acc. Qed.

Lemma dec_digits n : Forall (fun c => is_digit 10 c = true) (chars (dec n)).
Proof. apply (uint_chars _ 0). Qed.

Lemma dec_value n : digits_value 10 (chars (dec n)) = n.
Proof.
  unfold digits_value, dec. destruct (uint_chars (N.to_uint n) 0) as [_ ->]. rewrite uint_value_of.
  apply DecimalN.Unsigned.of_to.
Qed.

Lemma dec_nonempty n : 1 <= n -> (0 < length (chars (dec n)))%nat.
Proof.
  intros Hn. pose proof (dec_value n) as Hv. destruct (chars (dec n)) as [|c l]; [|simpl; lia].
  unfold digits_value in Hv. simpl in Hv. lia.
Qed.

Lemma parse_dec n option : 1 <= n -> n <= u64_max -> parse_unsigned (chars (dec n)) option 10 = inr n.
Proof.
  intros H1 H2. rewrite parse_unsigned_ok; [by rewrite dec_value| |apply dec_digits|by rewrite dec_value].
  intros E. pose proof (dec_nonempty n H1) as Hl. rewrite E in Hl. simpl in Hl. lia.
Qed.

Lemma dec_free n c : is_digit 10 c = false -> c ∉ chars (dec n).
Proof. intros Hc Hin. pose proof (dec_digits n) as Hd. rewrite Forall_forall in Hd. specialize (Hd c Hin). simpl in Hd. congruence. Qed.

(** ** Writing members *)

Definition member_text (m : MemberAddress) : text :=
  chars (dec (ma_node m)) ++ "@"%char :: chars (ma_address m) ++ ":"%char :: chars (dec (ma_port m)).

Fixpoint members_text (ms : list MemberAddress) : text :=
  match ms with
  | [] => []
  | [m] => member_text m
  | m :: ms => member_text m ++ ","%char :: members_text ms
  end.

(** A member that can be written: its address is not empty and has no comma. *)
Record writable (m : MemberAddress) : Prop := {
  wr_node : 1 <= ma_node m <= u32_max;
  wr_port : 1 <= ma_port m <= 65535;
  wr_address : ma_address m <> EmptyString;
  wr_comma : ","%char ∉ chars (ma_address m);
}.

Lemma widths : u32_max <= u64_max /\ 65535 <= u64_max.
Proof. by vm_compute. Qed.

Lemma chars_empty s : s <> EmptyString -> (0 < length (chars s))%nat.
Proof. destruct s; simpl; [done|lia]. Qed.

Lemma text_string_chars s : text_string (chars s) = s.
Proof. apply String.string_of_list_ascii_of_string. Qed.

Lemma parse_member_text m : writable m -> parse_member (member_text m) = inr m.
Proof.
  intros [Hn Hp Ha Hc]. pose proof widths as [Hw1 Hw2]. unfold parse_member, member_text. set (id := chars (dec (ma_node m))).
  set (port := chars (dec (ma_port m))). apply chars_empty in Ha.
  pose proof (dec_nonempty (ma_node m) ltac:(lia)) as Hid. pose proof (dec_nonempty (ma_port m) ltac:(lia)) as Hpo.
  fold id in Hid. fold port in Hpo.
  rewrite find_char_app by (by apply dec_free).
  assert (Hr : rfind_char ":" (id ++ "@"%char :: chars (ma_address m) ++ ":"%char :: port) =
    Some (length id + S (length (chars (ma_address m))))%nat).
  { replace (id ++ "@"%char :: chars (ma_address m) ++ ":"%char :: port)
      with ((id ++ "@"%char :: chars (ma_address m)) ++ ":"%char :: port) by (by rewrite <- (assoc_L (++))).
    rewrite rfind_char_app by (by apply dec_free). by rewrite length_app. }
  rewrite Hr, !length_app. simpl length. rewrite length_app. simpl length.
  destruct (Nat.eqb_spec (length id) 0); [lia|]. destruct (Nat.leb_spec (length id + S (length (chars (ma_address m)))) (length id + 1)); [lia|].
  destruct (Nat.leb_spec (length id + S (length (chars (ma_address m)) + S (length port)))
    (length id + S (length (chars (ma_address m))) + 1)); [lia|]. cbn [orb].
  unfold substr. rewrite drop_0, take_app_length. unfold id. rewrite parse_dec by lia. fold id. cbn [tbind].
  replace (length id + S (length (chars (ma_address m))) + 1)%nat with (length id + S (length (chars (ma_address m)) + 1))%nat by lia.
  rewrite drop_app_add. simpl. rewrite drop_app_add. simpl. rewrite drop_0. unfold port. rewrite parse_dec by lia. simpl.
  destruct (N.eqb_spec (ma_node m) 0); [lia|]. destruct (N.ltb_spec u32_max (ma_node m)); [lia|].
  destruct (N.eqb_spec (ma_port m) 0); [lia|]. destruct (N.ltb_spec 65535 (ma_port m)); [lia|]. simpl.
  rewrite drop_app_add. simpl. rewrite drop_0.
  replace (length id + S (length (chars (ma_address m))) - length id - 1)%nat with (length (chars (ma_address m))) by lia.
  rewrite take_app_length, text_string_chars. by destruct m.
Qed.

Lemma member_no_comma m : writable m -> ","%char ∉ member_text m.
Proof.
  intros [_ _ _ Hc]. unfold member_text. rewrite elem_of_app, elem_of_cons, elem_of_app, elem_of_cons.
  intros [H|[H|[H|[H|H]]]]; [by eapply dec_free in H|done|done|done|by eapply dec_free in H].
Qed.

Lemma parse_items_text ms pre acc turns :
  ms <> [] -> Forall writable ms -> (length (members_text ms) < turns)%nat ->
  parse_items turns (pre ++ members_text ms) (length pre) acc = inr (acc ++ ms).
Proof.
  intros Hne Hw. revert pre acc turns. induction Hw as [|m ms Hm Hms IH]; [done|]. intros pre acc turns Ht.
  destruct turns as [|turns]; [lia|]. cbn [parse_items]. rewrite length_app.
  destruct (Nat.ltb_spec (length pre + length (members_text (m :: ms))) (length pre)); [lia|].
  unfold substr. rewrite drop_app_length. pose proof (member_no_comma m Hm) as Hc. destruct ms as [|m' ms].
  - cbn [members_text]. by rewrite find_char_none, parse_member_text by done.
  - change (members_text (m :: m' :: ms)) with (member_text m ++ ","%char :: members_text (m' :: ms)) in *.
    rewrite length_app, length_cons in Ht.
    rewrite find_char_app, take_app_length, parse_member_text by done. cbn [tbind].
    replace (pre ++ member_text m ++ ","%char :: members_text (m' :: ms))
      with ((pre ++ member_text m ++ [","%char]) ++ members_text (m' :: ms)) by (by rewrite <- !(assoc_L (++))).
    replace (length pre + length (member_text m) + 1)%nat with (length (pre ++ member_text m ++ [","%char]))
      by (rewrite !length_app; simpl; lia).
    rewrite (IH ltac:(done)) by lia. by rewrite <- (assoc_L (++)).
Qed.

(** ** What the options guarantee *)

#[global] Instance node_before_total : Total node_before.
Proof. intros a b. unfold node_before. lia. Qed.
#[global] Instance node_before_trans : Transitive node_before.
Proof. intros a b c. unfold node_before. lia. Qed.

(** The members as [parse_members] leaves them. *)
Record members_ready (ms : list MemberAddress) : Prop := {
  mr_count : length ms = 3%nat \/ length ms = 5%nat;
  mr_sorted : Sorted node_before ms;
  mr_unique : NoDup (ma_node <$> ms);
  mr_values : Forall (fun m => 1 <= ma_node m <= u32_max /\ 1 <= ma_port m <= 65535) ms;
}.

Lemma sorted_nodes ms : Sorted node_before ms -> Sorted N.le (ma_node <$> ms).
Proof. induction 1 as [|m ms _ IH Hm]; constructor; [done|]. destruct Hm; by constructor. Qed.

Lemma NoDup_adjacent l : NoDup l -> adjacent_equal l = false.
Proof.
  induction 1 as [|x l Hx _ IH]; [done|]. destruct l as [|y l]; [done|].
  change (adjacent_equal (x :: y :: l)) with ((x =? y) || adjacent_equal (y :: l)). rewrite IH, orb_false_r.
  apply N.eqb_neq. intros ->. by apply Hx, elem_of_cons; left.
Qed.

Lemma sort_sorted ns : Sorted N.le ns -> sort_members ns = ns.
Proof.
  intros Hs. unfold sort_members. apply (Sorted_unique N.le); [|done|apply merge_sort_Permutation].
  apply Sorted_merge_sort. intros x y. lia.
Qed.

Lemma filter_sorted (P : N -> Prop) `{!forall x, Decision (P x)} ns : Sorted N.le ns -> Sorted N.le (filter P ns).
Proof.
  intros Hs. apply StronglySorted_Sorted. apply Sorted_StronglySorted in Hs; [|intros x y z; lia].
  induction Hs as [|x ns _ IH Hx]; [constructor|]. rewrite filter_cons. destruct (decide (P x)); [|done].
  constructor; [done|]. apply Forall_forall. intros y [_ Hy]%list_elem_of_filter. rewrite Forall_forall in Hx. auto.
Qed.

Lemma parse_member_values item m :
  parse_member item = inr m -> 1 <= ma_node m <= u32_max /\ 1 <= ma_port m <= 65535.
Proof.
  unfold parse_member. intros H. repeat (case_match; try done). destruct (parse_unsigned _ _ _) as [?|node]; [done|]. cbn [tbind] in H.
  destruct (parse_unsigned _ _ _) as [?|port]; [done|]. cbn [tbind] in H.
  destruct (N.eqb_spec node 0), (N.ltb_spec u32_max node), (N.eqb_spec port 0), (N.ltb_spec 65535 port); try done.
  injection H as <-. simpl. lia.
Qed.

Lemma parse_items_values turns spec from acc ms :
  parse_items turns spec from acc = inr ms ->
  Forall (fun m => 1 <= ma_node m <= u32_max /\ 1 <= ma_port m <= 65535) acc ->
  Forall (fun m => 1 <= ma_node m <= u32_max /\ 1 <= ma_port m <= 65535) ms.
Proof.
  revert from acc. induction turns as [|turns IH]; intros from acc; cbn [parse_items]; [by intros [= ->]|].
  destruct (_ <? _)%nat; [by intros [= ->]|]. destruct (parse_member _) as [?|m] eqn:Hm; [done|]. cbn [tbind].
  apply parse_member_values in Hm. destruct (find_char _ _); [|intros [= <-] ?; by apply Forall_app_2; [|constructor]].
  intros Hi Hf. eapply IH; [exact Hi|]. by apply Forall_app_2; [|constructor].
Qed.

Lemma parse_members_ready spec ms : parse_members spec = inr ms -> members_ready ms.
Proof.
  unfold parse_members. destruct (parse_items _ _ _ _) as [?|l] eqn:Hl; [done|]. cbn [tbind].
  destruct (negb _ || _) eqn:Hc; [done|]. intros [= <-].
  apply orb_false_iff in Hc as [Hn Ha]. apply negb_false_iff, orb_true_iff in Hn. rewrite !Nat.eqb_eq in Hn.
  assert (Hs : Sorted node_before (merge_sort node_before l)) by (apply Sorted_merge_sort, _).
  constructor; [done..|by apply adjacent_equal_NoDup; [apply sorted_nodes|]|].
  rewrite merge_sort_Permutation. eapply parse_items_values; [exact Hl|constructor].
Qed.

(** What an accepted command line amounts to. *)
Record arguments_ready (a : Arguments) : Prop := {
  rd_members : members_ready (ar_members a);
  rd_node : ar_node a ∈ ma_node <$> ar_members a;
  rd_cluster : u64 (ar_cluster_high a) /\ u64 (ar_cluster_low a);
  rd_numbers : u64 (ar_seed a) /\ u64 (ar_incarnation a);
  rd_tick : 1 <= ar_tick_ms a <= i64_max;
}.

Record parsing_ok (p : Parsing) : Prop := {
  po_members : pa_has_members p = true -> members_ready (ar_members (pa_result p));
  po_cluster : u64 (ar_cluster_high (pa_result p)) /\ u64 (ar_cluster_low (pa_result p));
  po_numbers : u64 (ar_seed (pa_result p)) /\ u64 (ar_incarnation (pa_result p));
  po_tick : 1 <= ar_tick_ms (pa_result p) <= i64_max;
}.

Lemma parse_cluster_fits t c : parse_cluster t = inr c -> u64 c.1 /\ u64 c.2.
Proof.
  unfold parse_cluster. destruct (match find_char ":" t with Some _ => _ | None => _ end) as [?|[high low]]; [done|]. cbn [tbind].
  destruct (_ || _); [done|]. destruct (parse_unsigned high _ _) as [?|h] eqn:Hh; [done|]. cbn [tbind].
  destruct (parse_unsigned low _ _) as [?|l] eqn:Hl; [done|]. intros [= <-]. eauto using parse_unsigned_fits.
Qed.

Lemma take_option_ok argument value p p' : take_option argument value p = inr p' -> parsing_ok p -> parsing_ok p'.
Proof.
  unfold take_option. intros Ht [Hm Hc Hn Hk]. pose proof (parse_unsigned_fits 10 (chars value) argument) as Hu.
  set (unsigned := parse_unsigned (chars value) argument 10) in *. clearbody unsigned.
  destruct (String.eqb argument "--id").
  { destruct unsigned as [?|v]; [done|]. cbn [tbind] in Ht. destruct (_ || _); [done|]. injection Ht as <-. by constructor. }
  destruct (String.eqb argument "--members").
  { destruct (parse_members _) eqn:Hp; [done|]. injection Ht as <-. constructor; simpl; try done. intros _.
    by eapply parse_members_ready. }
  destruct (String.eqb argument "--wal"); [injection Ht as <-; by constructor|].
  destruct (String.eqb argument "--cluster").
  { destruct (parse_cluster _) eqn:Hp; [done|]. injection Ht as <-. constructor; simpl; try done. by eapply parse_cluster_fits. }
  destruct unsigned as [?|v]; [by repeat (destruct (String.eqb _ _); [done|])|]. cbn [tbind] in Ht.
  destruct (String.eqb argument "--seed"); [injection Ht as <-; constructor; simpl; try done; split; [by apply Hu|apply Hn]|].
  destruct (String.eqb argument "--incarnation"); [injection Ht as <-; constructor; simpl; try done; split; [apply Hn|by apply Hu]|].
  destruct (String.eqb argument "--tick-ms"); [|done].
  destruct (N.eqb_spec v 0), (N.ltb_spec i64_max v); try done. injection Ht as <-. constructor; simpl; try done. lia.
Qed.

Lemma parse_options_ok argv p p' : parse_options argv p = inr (Some p') -> parsing_ok p -> parsing_ok p'.
Proof.
  revert p. induction argv as [argv IH] using (induction_ltof1 _ length). unfold ltof in IH.
  intros p. destruct argv as [|argument rest]; cbn [parse_options]; [by intros [= <-]|].
  destruct (_ || _); [done|]. destruct (String.eqb argument "--allow-non-loopback").
  { intros Hp [Hm Hc Hn Hk]. eapply IH; [|exact Hp|by constructor]. simpl. lia. }
  destruct rest as [|value rest]; [done|]. destruct (take_option argument value p) as [?|p1] eqn:Ht; [done|]. cbn [tbind].
  intros Hp Hok. eapply IH; [|exact Hp|by eapply take_option_ok]. simpl. lia.
Qed.

Lemma parse_arguments_ready argv a : parse_arguments argv = inr (Some a) -> arguments_ready a.
Proof.
  unfold parse_arguments. destruct (parse_options argv parsing_start) as [?|[p|]] eqn:Hp; [done| |done]. cbn [tbind].
  destruct (_ || _) eqn:Hh; [done|]. destruct (negb (bool_decide _)) eqn:Hn; [done|]. intros [= <-].
  apply parse_options_ok in Hp as [Hm Hc Hnum Hk]; [|by constructor]. apply negb_false_iff, bool_decide_eq_true in Hn.
  apply orb_false_iff in Hh as [Hh _]. apply orb_false_iff in Hh as [Hh _]. apply orb_false_iff in Hh as [_ Hh].
  apply negb_false_iff in Hh. constructor; auto.
Qed.

(** *** The transport of the host *)

Lemma endpoints_frame node ms t :
  tc_identity (foldl (add_endpoint node) t ms) = tc_identity t /\
  tc_limits (foldl (add_endpoint node) t ms) = tc_limits t.
Proof.
  revert t. induction ms as [|m ms IH]; intros t; [done|]. simpl. destruct (IH (add_endpoint node t m)) as [-> ->].
  unfold add_endpoint. by destruct (_ =? _).
Qed.

Lemma endpoints_peers node ms t :
  pe_node_id <$> tc_peers (foldl (add_endpoint node) t ms) =
  (pe_node_id <$> tc_peers t) ++ filter (fun x => x <> node) (ma_node <$> ms).
Proof.
  revert t. induction ms as [|m ms IH]; intros t; simpl; [by rewrite app_nil_r|]. rewrite IH. unfold add_endpoint.
  destruct (N.eqb_spec (ma_node m) node) as [->|Hne]; simpl.
  - by rewrite filter_cons_False by naive_solver.
  - rewrite filter_cons_True by done. rewrite fmap_app, <- (assoc_L (++)). done.
Qed.

Lemma arguments_setup (args : NodeId -> Arguments) ms :
  ms <> [] ->
  (forall x, x ∈ ma_node <$> ms -> arguments_ready (args x) /\ ar_node (args x) = x /\ ar_members (args x) = ms) ->
  hosted_setup (fun x => host_config (args x)) (ma_node <$> ms).
Proof.
  intros Hne Ha. assert (Hms : members_ready ms).
  { destruct ms as [|m ms']; [done|]. destruct (Ha (ma_node m)) as ([] & _ & <-); [|done]. simpl. apply elem_of_cons. by left. }
  pose proof Hms as [Hc Hs Hu Hv].
  assert (Hids : Forall u32 (ma_node <$> ms)) by (apply Forall_fmap; eapply Forall_impl; [exact Hv|]; simpl; unfold u32; lia).
  constructor; [done|done| |done| |].
  - intros x Hx. destruct (Ha x Hx) as (_ & Hn & Hm). unfold raft_config. simpl. by rewrite Hn, Hm.
  - intros x Hx. destruct (Ha x Hx) as ([] & Hn & Hm). simpl. split_and!; [by apply rd_cluster0..|]. simpl.
    rewrite Hn. by rewrite Forall_forall in Hids; apply Hids.
  - assert (Hb : forall xs, (forall x, x ∈ xs -> x ∈ ma_node <$> ms) ->
      is_Some (boot (raft_config (fun x => host_config (args x))) xs)).
    { induction xs as [|x xs IH]; intros Hxs; [by eexists|]. simpl.
      destruct IH as [hs ->]; [intros y Hy; apply Hxs, elem_of_cons; by right|]. simpl.
      assert (Hx : x ∈ ma_node <$> ms) by (apply Hxs, elem_of_cons; by left). destruct (Ha x Hx) as (_ & Hn & Hm).
      destruct (RaftNode_new _ _) eqn:Hr; [by eexists|]. exfalso. revert Hr. unfold RaftNode_new, raft_config, host_config.
      simpl. rewrite Hn, Hm, (sort_sorted (ma_node <$> ms)), (NoDup_adjacent _ Hu), bool_decide_eq_true_2, length_fmap
        by (by try apply sorted_nodes). by destruct Hc as [-> | ->]. }
    by apply Hb.
Qed.

Lemma host_config_valid a :
  arguments_ready a -> ar_wal_path a <> EmptyString -> validate_host_config (host_config a) = inr tt.
Proof.
  intros [[Hc Hs Hu Hv] Hn _ _ Ht] Hw. unfold validate_host_config.
  destruct (endpoints_frame (ar_node a) (ar_members a) (mkTcpTransportConfig
    (mkTcpIdentity (ar_cluster_high a) (ar_cluster_low a) (ar_node a)) (ar_incarnation a)
    "127.0.0.1" 0 (ar_allow_non_loopback a) [] default_tcp_limits)) as [Hid Hl].
  assert (Hnode : ar_node a <> 0).
  { apply list_elem_of_fmap in Hn as (m & -> & Hm). rewrite Forall_forall in Hv. specialize (Hv m Hm). simpl in Hv. lia. }
  assert (H1 : identity_consistent (host_config a) = true).
  { unfold identity_consistent. simpl. rewrite Hid. simpl. rewrite !N.eqb_refl, !andb_true_r.
    destruct (N.eqb_spec (ar_node a) 0); [done|]. rewrite andb_true_r. destruct (ar_wal_path a); [done|].
    by destruct (N.eqb_spec (string_size (String a0 s)) 0). }
  assert (H2 : host_bounds_ok (host_config a) = true).
  { unfold host_bounds_ok. simpl. rewrite !andb_true_r. apply Z.ltb_lt. lia. }
  assert (H3 : codec_bound_ok (host_config a) = true) by (unfold codec_bound_ok; simpl; by rewrite Hl).
  assert (H4 : outbound_bound_ok (host_config a) = true) by (unfold outbound_bound_ok; simpl; by rewrite Hl).
  assert (H5 : members_ok (host_config a) = true).
  { unfold members_ok. simpl. rewrite sort_sorted, (NoDup_adjacent _ Hu), bool_decide_eq_true_2, length_fmap
      by (by try apply sorted_nodes). by destruct Hc as [-> | ->]. }
  assert (H6 : peers_match (host_config a) = true).
  { unfold peers_match. simpl. rewrite endpoints_peers. simpl. apply bool_decide_eq_true.
    apply sorted_nodes in Hs. rewrite (sort_sorted (ma_node <$> _)) by done. apply sort_sorted.
    by apply filter_sorted. }
  rewrite H1, H2, H3, H4, H5, H6. done.
Qed.

(** ** The console *)

(** [std::isspace] in the C locale, [input >> word], [std::getline], [trim_left]. *)
Definition is_space (c : ascii) : bool :=
  let n := N_of_ascii c in (n =? 32) || ((9 <=? n) && (n <=? 13)).

Fixpoint trim_left (t : text) : text :=
  match t with
  | c :: t' => if is_space c then trim_left t' else t
  | [] => []
  end.

Fixpoint span_word (t : text) : text * text :=
  match t with
  | c :: t' => if is_space c then ([], t) else (let '(w, rest) := span_word t' in (c :: w, rest))
  | [] => ([], [])
  end.

Definition read_word (t : text) : string * text :=
  let '(w, rest) := span_word (trim_left t) in (text_string w, rest).

Fixpoint get_line (t : text) : text :=
  match t with
  | c :: t' => if (N_of_ascii c =? 10) then [] else c :: get_line t'
  | [] => []
  end.

Definition client_status (s : ClientStatus) : string :=
  match s with
  | status_ok => "ok"
  | not_leader => "not_leader"
  | leader_not_ready => "leader_not_ready"
  | busy => "busy"
  | status_unavailable => "unavailable"
  | stale_sequence => "stale_sequence"
  | sequence_gap => "sequence_gap"
  | request_id_conflict => "request_id_conflict"
  | invalid_request => "invalid_request"
  | storage_error => "storage_error"
  end.

Definition role_name (r : RaftRole) : string :=
  match r with
  | follower => "follower" | candidate => "candidate" | leader => "leader" | unavailable => "unavailable"
  end.

(** The number a [bool] and a submit status print as. *)
Definition bool_text (b : bool) : string := if b then "1" else "0".
Definition submit_status_number (s : NodeHostSubmitStatus) : N :=
  match s with sub_accepted => 0 | sub_would_block => 1 | sub_stopped => 2 | sub_error => 3 end.

Definition status_line (s : NodeHostStatus) : string :=
  "node=" +:+ dec (st_node s) +:+ " role=" +:+ role_name (st_role s) +:+ " term=" +:+ dec (st_term s) +:+
  " ready=" +:+ bool_text (st_leader_ready s) +:+ " commit=" +:+ dec (st_commit_index s) +:+
  " applied=" +:+ dec (st_last_applied s) +:+
  match st_leader_hint s with Some l => " leader=" +:+ dec l | None => "" end.

Definition reply_line (r : ClientReply) : string :=
  "reply token=" +:+ dec (cr_token r) +:+ " status=" +:+ client_status (cr_status r) +:+
  " index=" +:+ dec (cr_log_index r) +:+
  (if string_empty (cr_value r) then "" else " value=" +:+ cr_value r) +:+
  match cr_leader_hint r with Some l => " leader=" +:+ dec l | None => "" end.

Definition metrics_line (m : NodeHostMetrics) : string :=
  "tcp_sent=" +:+ dec (m tcp_messages_queued) +:+ " tcp_received=" +:+ dec (m tcp_messages_received) +:+
  " tcp_backpressure=" +:+ dec (m tcp_backpressure_drops) +:+ " tcp_down=" +:+ dec (m tcp_down_drops) +:+
  " storage_errors=" +:+ dec (m storage_errors).

(** The input thread: in [std::getline], past the loop, past the store to [input_done]. *)
Inductive InputThread := rd_reading | rd_ending | rd_done.

#[global] Instance InputThread_eq_dec : EqDecision InputThread.
Proof. solve_decision. Defined.

(** Where the main thread is: at the top of the loop, before the lock, before the
    exchange of the counter, before the load of [input_done], before a command, before
    [host.stop()], and at the end of [main] with its exit code. *)
Inductive MainPc :=
  | at_poll
  | at_take (activity : bool)
  | at_drops (activity : bool) (line : option string)
  | at_idle (activity : bool)
  | at_command (line : string)
  | at_stop
  | at_exit (code : N).

(** What has happened: the lines read and whether they were queued, the lines whose
    command was executed, the drops reported, the commands made from a line and those
    submitted again. *)
Record History := mkHistory {
  hs_read : list (string * bool);
  hs_executed : list string;
  hs_reported : N;
  hs_fresh : list ClientCommand;
  hs_retried : list ClientCommand;
}.

Definition kInputQueueLimit : nat := 64.

Section console.
Context {W T : Type} `{Transport W T}.
Abbreviation Host := (HostImpl T).
Context (caller session_epoch : N).

Record Console := mkConsole {
  cs_host : Host;
  cs_queue : list string;
  cs_reader : InputThread;
  cs_input_drops : N;
  cs_pc : MainPc;
  cs_last_command : option ClientCommand;
  cs_next_request_id : N;
  cs_out : list string;
  cs_err : list string;
  cs_history : History;
}.
Implicit Types (s : Console).

Definition set_host (h : Host) s : Console :=
  mkConsole h (cs_queue s) (cs_reader s) (cs_input_drops s) (cs_pc s) (cs_last_command s)
    (cs_next_request_id s) (cs_out s) (cs_err s) (cs_history s).
Definition set_pc (pc : MainPc) s : Console :=
  mkConsole (cs_host s) (cs_queue s) (cs_reader s) (cs_input_drops s) pc (cs_last_command s)
    (cs_next_request_id s) (cs_out s) (cs_err s) (cs_history s).
Definition say (line : string) s : Console :=
  mkConsole (cs_host s) (cs_queue s) (cs_reader s) (cs_input_drops s) (cs_pc s) (cs_last_command s)
    (cs_next_request_id s) (cs_out s ++ [line]) (cs_err s) (cs_history s).
Definition complain (line : string) s : Console :=
  mkConsole (cs_host s) (cs_queue s) (cs_reader s) (cs_input_drops s) (cs_pc s) (cs_last_command s)
    (cs_next_request_id s) (cs_out s) (cs_err s ++ [line]) (cs_history s).
Definition set_input (queue : list string) (reader : InputThread) (drops : N) (hs : History) s : Console :=
  mkConsole (cs_host s) queue reader drops (cs_pc s) (cs_last_command s)
    (cs_next_request_id s) (cs_out s) (cs_err s) hs.
Definition set_commands (last : option ClientCommand) (next : N) (hs : History) s : Console :=
  mkConsole (cs_host s) (cs_queue s) (cs_reader s) (cs_input_drops s) (cs_pc s) last next
    (cs_out s) (cs_err s) hs.

(** *** The input thread *)

Definition is_quit (line : string) : bool := String.eqb line "quit" || String.eqb line "exit".

(** One turn of the loop of the input thread, on a line. *)
Definition take_line (line : string) s : Console :=
  let hs := cs_history s in
  let room := (length (cs_queue s) <? kInputQueueLimit)%nat in
  let read := mkHistory (hs_read hs ++ [(line, room)]) (hs_executed hs) (hs_reported hs) (hs_fresh hs) (hs_retried hs) in
  set_input (if room then cs_queue s ++ [line] else cs_queue s)
    (if is_quit line then rd_ending else cs_reader s)
    (if room then cs_input_drops s else add64 (cs_input_drops s) 1) read s.

Definition set_reader (r : InputThread) s : Console :=
  set_input (cs_queue s) r (cs_input_drops s) (cs_history s) s.

(** *** The main thread *)

(** An exception: [main] prints it and returns 1. *)
Definition host_what (e : HostExn) : string :=
  match e with
  | host_exn e => exn_what e
  | wal_exn e => we_what e
  | tcp_exn (tcp_thrown e) => te_what e
  | tcp_exn _ => "system error"
  end.

Definition calls {A} (m : Call A) (s : Console) (k : A -> Console -> Console) : Console :=
  match m (cs_host s) with
  | (inr a, h) => k a (set_host h s)
  | (inl e, h) => set_pc (at_exit 1) (complain ("detlog-node: " +:+ host_what e) (set_host h s))
  end.

(** The 16 calls of [poll_once]. *)
Fixpoint polls (n : nat) (activity : bool) : Call bool :=
  match n with
  | O => call_ret activity
  | S n => call_bind (poll_once caller) (fun polled => polls n (polled || activity))
  end.

Definition poll_turn s : Console :=
  calls (polls 16 false) s (fun activity s =>
  calls (poll_replies caller 1024) s (fun replies s =>
    set_pc (at_take activity) (foldl (fun s r => say (reply_line r) s) s replies))).

Definition take_turn (activity : bool) s : Console :=
  match cs_queue s with
  | [] => set_pc (at_drops activity None) s
  | line :: queue => set_pc (at_drops activity (Some line)) (set_input queue (cs_reader s) (cs_input_drops s) (cs_history s) s)
  end.

Definition drops_turn (activity : bool) (line : option string) s : Console :=
  let dropped := cs_input_drops s in
  let hs := cs_history s in
  let reported := mkHistory (hs_read hs) (hs_executed hs) (hs_reported hs + dropped) (hs_fresh hs) (hs_retried hs) in
  let s := set_input (cs_queue s) (cs_reader s) 0 reported s in
  let s := if dropped =? 0 then s else complain ("dropped " +:+ dec dropped +:+ " input commands: queue full") s in
  set_pc (match line with None => at_idle activity | Some l => at_command l end) s.

Definition idle_turn s : Console :=
  set_pc (match cs_reader s with rd_done => at_stop | _ => at_poll end) s.

(** The commands [retry], and [put], [get] and [erase]. *)
Definition retry_command s : Console :=
  match cs_last_command s with
  | None => complain "no command is available to retry" s
  | Some cmd =>
      let hs := cs_history s in
      calls (submit caller cmd) (set_commands (Some cmd) (cs_next_request_id s)
          (mkHistory (hs_read hs) (hs_executed hs) (hs_reported hs) (hs_fresh hs) (hs_retried hs ++ [cmd])) s)
        (fun r s => say ("retry status=" +:+ dec (submit_status_number (sr_status r)) +:+ " token=" +:+ dec (sr_token r)) s)
  end.

Definition submit_command (kind : CommandKind) (key value : string) s : Console :=
  let hs := cs_history s in
  let cmd := mkClientCommand (mkSessionId session_epoch (cs_next_request_id s)) 1 kind key value in
  let s := set_commands (cs_last_command s) (add64 (cs_next_request_id s) 1)
    (mkHistory (hs_read hs) (hs_executed hs) (hs_reported hs) (hs_fresh hs ++ [cmd]) (hs_retried hs)) s in
  calls (submit caller cmd) s (fun r s =>
    match sr_status r with
    | sub_accepted =>
        say ("submitted token=" +:+ dec (sr_token r)) (set_commands (Some cmd) (cs_next_request_id s) (cs_history s) s)
    | st => complain ("submit rejected status=" +:+ dec (submit_status_number st)) s
    end).

Definition key_command (operation : string) (kind : CommandKind) (input : text) s : Console :=
  let '(key, rest) := read_word input in
  if string_empty key
  then complain (operation +:+ " requires KEY" +:+ (if String.eqb operation "put" then " VALUE" else "")) s
  else if String.eqb operation "put" then
    let value := text_string (trim_left (get_line rest)) in
    if string_empty value then complain "put requires a nonempty VALUE" s else submit_command kind key value s
  else submit_command kind key EmptyString s.

(** A command, with the rest of the turn: [at_exit] when a call threw. *)
Definition execute_line (line : string) s : Console :=
  let '(operation, input) := read_word (chars line) in
  if String.eqb operation "quit" || String.eqb operation "exit" then set_pc at_stop s
  else if String.eqb operation "status" then calls (status caller) s (fun r s => say (status_line r) s)
  else if String.eqb operation "metrics" then say (metrics_line (nh_metrics (cs_host s))) s
  else if String.eqb operation "retry" then retry_command s
  else if String.eqb operation "put" then key_command operation put input s
  else if String.eqb operation "get" then key_command operation get input s
  else if String.eqb operation "erase" then key_command operation erase input s
  else if string_empty operation then s
  else complain ("unknown command: " +:+ operation) s.

Definition command_turn (line : string) s : Console :=
  let hs := cs_history s in
  let executed := mkHistory (hs_read hs) (hs_executed hs ++ [line]) (hs_reported hs) (hs_fresh hs) (hs_retried hs) in
  execute_line line (set_pc at_poll (set_input (cs_queue s) (cs_reader s) (cs_input_drops s) executed s)).

Definition main_turn s : Console :=
  match cs_pc s with
  | at_poll => poll_turn s
  | at_take activity => take_turn activity s
  | at_drops activity line => drops_turn activity line s
  | at_idle _ => idle_turn s
  | at_command line => command_turn line s
  | at_stop => set_pc (at_exit 0) (set_host (host_stop (cs_host s)) s)
  | at_exit _ => s
  end.

(** One action of the input thread, of the main thread, or of what surrounds the host:
    its worker, the clock and the network. *)
Inductive console_step s : Console -> Prop :=
  | step_line line : cs_reader s = rd_reading -> console_step s (take_line line s)
  | step_eof : cs_reader s = rd_reading -> console_step s (set_reader rd_ending s)
  | step_done : cs_reader s = rd_ending -> console_step s (set_reader rd_done s)
  | step_main : console_step s (main_turn s)
  | step_worker : console_step s (set_host (lock_worker (cs_host s)) s)
  | step_surroundings env : console_step s (set_host (set_nh_env env (cs_host s)) s)
  | step_network t :
      tcp_handed t = tcp_handed (nh_tcp (cs_host s)) -> console_step s (set_host (set_nh_tcp t (cs_host s)) s).

(** The console when the host has started. *)
Definition console_start (h : Host) : Console :=
  mkConsole h [] rd_reading 0 at_poll None 1 [] [] (mkHistory [] [] 0 [] []).

Definition console_reaches (c0 s : Console) : Prop := rtc console_step c0 s.
End console.

(** [main] up to the loop: the options, the host, its start and the banner. *)
Definition session_epoch_of (clock : N) (a : Arguments) : N :=
  N.lxor (N.lxor (wrap64 clock) (wrap64 (N.shiftl (ar_node a) 32))) (ar_incarnation a).

Definition banner (a : Arguments) (port : N) : string :=
  "detlog-node " +:+ dec (ar_node a) +:+ " listening on port " +:+ dec port +:+
  "; commands: put KEY VALUE | get KEY | erase KEY | retry | status | metrics | quit".

Inductive Launch (C : Type) :=
  | launch_usage
  | launch_failed (what : string)
  | launched (a : Arguments) (c : C).
Arguments launch_usage {C}.
Arguments launch_failed {C}.
Arguments launched {C}.

Definition node_main {W T : Type} `{Transport W T} (argv : list string) (caller : N)
    (fails : N -> N -> option string) (outs : list IoOutcome) (world : W) (env : Surroundings) (f : NativeFile)
  : Launch (Console (T := T)) :=
  match parse_arguments argv with
  | inl what => launch_failed what
  | inr None => launch_usage
  | inr (Some a) =>
      match NodeHost_new (host_config a) fails outs world env f with
      | (inl e, _) => launch_failed (host_what e)
      | (inr h, _) =>
          match call_bind (host_start caller) (fun _ => host_listening_port caller) h with
          | (inl e, _) => launch_failed (host_what e)
          | (inr port, h) => launched a (say (banner a port) (console_start h))
          end
      end
  end.

(** *** The books of the console *)

(** The line the main thread holds. *)
Definition in_hand (pc : MainPc) : list string :=
  match pc with at_drops _ (Some l) | at_command l => [l] | _ => [] end.

Definition kept (l : list (string * bool)) : list string := (filter (fun p => p.2 = true) l).*1.
Definition lost (l : list (string * bool)) : N := N.of_nat (length (filter (fun p => p.2 = false) l)).

(** The sessions of the first [n] commands. *)
Definition sessions_made (epoch : N) (n : nat) : list SessionId :=
  (fun i => mkSessionId epoch (wrap64 (1 + N.of_nat i))) <$> seq 0 n.

Section books.
Context {W T : Type} `{Transport W T}.
Context (caller epoch : N).
Implicit Types (s : Console (T := T)) (h : HostImpl T).
Abbreviation step := (console_step caller epoch).

Record console_ok s : Prop := {
  co_lines : kept (hs_read (cs_history s)) = hs_executed (cs_history s) ++ in_hand (cs_pc s) ++ cs_queue s;
  co_drops : wrap64 (lost (hs_read (cs_history s))) = wrap64 (hs_reported (cs_history s) + cs_input_drops s);
  co_room : (length (cs_queue s) <= kInputQueueLimit)%nat;
  co_next : cs_next_request_id s = wrap64 (1 + N.of_nat (length (hs_fresh (cs_history s))));
  co_sessions : session <$> hs_fresh (cs_history s) = sessions_made epoch (length (hs_fresh (cs_history s)));
  co_shape : Forall (fun c => sequence c = 1 /\ structurally_valid c = true) (hs_fresh (cs_history s));
  co_last : match cs_last_command s with Some c => c ∈ hs_fresh (cs_history s) | None => True end;
  co_retried : Forall (fun c => c ∈ hs_fresh (cs_history s)) (hs_retried (cs_history s));
}.

(** What [console_ok] speaks of. *)
Definition books s :=
  (cs_queue s, cs_input_drops s, cs_last_command s, cs_next_request_id s, cs_history s, in_hand (cs_pc s)).

Lemma books_ok s s' : books s' = books s -> console_ok s -> console_ok s'.
Proof. unfold books. intros [= E1 E2 E3 E4 E5 E6] []. constructor; by rewrite ?E1, ?E2, ?E3, ?E4, ?E5, ?E6. Qed.

Lemma calls_ok {A} (m : Call A) s k :
  in_hand (cs_pc s) = [] -> console_ok s ->
  (forall a h, console_ok (set_host h s) -> console_ok (k a (set_host h s))) -> console_ok (calls m s k).
Proof.
  intros Hp Hok Hk. unfold calls. destruct (m (cs_host s)) as [[e|a] h].
  - apply (books_ok s); [|done]. unfold books. simpl. by rewrite Hp.
  - apply Hk. by apply (books_ok s).
Qed.

Lemma wrap64_add_l x y : wrap64 (wrap64 x + y) = wrap64 (x + y).
Proof. unfold wrap64. apply N.Div0.add_mod_idemp_l. Qed.

Lemma take_line_ok line s : console_ok s -> console_ok (take_line line s).
Proof.
  intros []. unfold take_line. constructor; simpl; try done.
  - unfold kept. rewrite filter_app, fmap_app. fold (kept (hs_read (cs_history s))). rewrite co_lines0.
    destruct (_ <? _)%nat; simpl; [|by rewrite app_nil_r]. by rewrite <- !(assoc_L (++)).
  - unfold lost. rewrite filter_app, length_app, Nat2N.inj_add. fold (lost (hs_read (cs_history s))).
    destruct (_ <? _)%nat; simpl; [by rewrite N.add_0_r|]. unfold add64.
    rewrite <- wrap64_add_l, co_drops0, wrap64_add_l, (N.add_comm (hs_reported _)), <- N.add_assoc.
    rewrite (N.add_comm (hs_reported _) (wrap64 _)), wrap64_add_l. f_equal. lia.
  - destruct (Nat.ltb_spec (length (cs_queue s)) kInputQueueLimit); [|done]. rewrite length_app. simpl. lia.
Qed.

Lemma sessions_made_S n : sessions_made epoch (S n) = sessions_made epoch n ++ [mkSessionId epoch (wrap64 (1 + N.of_nat n))].
Proof. unfold sessions_made. by rewrite seq_S, fmap_app. Qed.

Lemma submit_command_ok k key value s :
  in_hand (cs_pc s) = [] -> string_empty key = false ->
  (k <> put -> string_empty value = true) -> console_ok s -> console_ok (submit_command caller epoch k key value s).
Proof.
  intros Hp Hkey Hval [] . unfold submit_command. cbv zeta.
  set (cmd := mkClientCommand _ 1 k key value). set (s1 := set_commands _ _ _ s).
  assert (Hs1 : console_ok s1).
  { unfold s1. constructor; simpl; try done.
    - rewrite co_next0, length_app, Nat2N.inj_add. simpl. unfold add64. rewrite wrap64_add_l. f_equal. lia.
    - rewrite fmap_app, length_app, Nat.add_1_r, sessions_made_S, co_sessions0. simpl. by rewrite co_next0.
    - apply Forall_app_2; [done|]. constructor; [|done]. split; [done|]. unfold structurally_valid. simpl. rewrite Hkey.
      destruct k; [done|by apply Hval..].
    - destruct (cs_last_command s); [|done]. apply elem_of_app. by left.
    - eapply Forall_impl; [exact co_retried0|]. intros c Hc. apply elem_of_app. by left. }
  apply calls_ok; [done..|]. intros r h Hok. destruct (sr_status r); [|by apply (books_ok (set_host h s1))..].
  pose proof Hok as []. constructor; simpl in *; try done. apply elem_of_app. right. by apply list_elem_of_singleton.
Qed.

Lemma key_command_ok operation k input s :
  in_hand (cs_pc s) = [] -> (k <> put -> String.eqb operation "put" = false) ->
  console_ok s -> console_ok (key_command caller epoch operation k input s).
Proof.
  intros Hp Hop Hok. unfold key_command. destruct (read_word input) as [key rest].
  destruct (string_empty key) eqn:Hk; [by apply (books_ok s)|]. destruct (String.eqb operation "put") eqn:Ho.
  - destruct (string_empty (text_string _)); [by apply (books_ok s)|]. apply submit_command_ok; try done. intros Hn. by specialize (Hop Hn).
  - by apply submit_command_ok.
Qed.

Lemma execute_line_ok line s :
  in_hand (cs_pc s) = [] -> console_ok s -> console_ok (execute_line caller epoch line s).
Proof.
  intros Hp Hok. unfold execute_line. destruct (read_word (chars line)) as [op input].
  destruct (_ || _); [by apply (books_ok s); [unfold books; simpl; rewrite Hp|]|].
  destruct (String.eqb op "status"); [by apply calls_ok; [done..|]; intros r h; apply books_ok|].
  destruct (String.eqb op "metrics"); [by apply (books_ok s)|]. destruct (String.eqb op "retry").
  { unfold retry_command. destruct (cs_last_command s) as [cmd|] eqn:Hl; [|by apply (books_ok s)].
    apply calls_ok; [done| |by intros r h; apply books_ok]. pose proof Hok as []. rewrite Hl in co_last0.
    constructor; simpl; try done. by apply Forall_app_2; [|constructor]. }
  destruct (String.eqb op "put") eqn:E1; [by apply key_command_ok|].
  destruct (String.eqb op "get"); [by apply key_command_ok|]. destruct (String.eqb op "erase"); [by apply key_command_ok|].
  destruct (string_empty op); [done|by apply (books_ok s)].
Qed.

Lemma replies_books s rs : books (foldl (fun s r => say (reply_line r) s) s rs) = books s.
Proof. revert s. induction rs as [|r rs IH]; intros s; [done|]. simpl. by rewrite IH. Qed.

Lemma set_pc_ok pc s : in_hand pc = in_hand (cs_pc s) -> console_ok s -> console_ok (set_pc pc s).
Proof. intros Hp. apply books_ok. unfold books. simpl. by rewrite Hp. Qed.

Lemma main_turn_ok s : console_ok s -> console_ok (main_turn caller epoch s).
Proof.
  intros Hok. unfold main_turn. destruct (cs_pc s) as [|a|a l|a|l| |] eqn:Hpc.
  - unfold poll_turn. apply calls_ok; [by rewrite Hpc|done|]. intros a h Hok1. apply calls_ok; [simpl; by rewrite Hpc|done|].
    intros rs h2 Hok2. apply set_pc_ok.
    { pose proof (replies_books (set_host h2 (set_host h s)) rs) as Hb. unfold books in Hb.
      injection Hb as _ _ _ _ _ ->. simpl. by rewrite Hpc. }
    eapply books_ok; [apply replies_books|done].
  - unfold take_turn. destruct (cs_queue s) as [|line queue] eqn:Hq; [apply set_pc_ok; [by rewrite Hpc|done]|].
    destruct Hok. rewrite Hpc, Hq in co_lines0. rewrite Hq in co_room0. constructor; simpl in *; try done. lia.
  - unfold drops_turn. cbv zeta. apply set_pc_ok.
    { destruct (_ =? _); simpl; rewrite Hpc; by destruct l. }
    assert (Hz : console_ok (set_input (cs_queue s) (cs_reader s) 0 (mkHistory (hs_read (cs_history s))
      (hs_executed (cs_history s)) (hs_reported (cs_history s) + cs_input_drops s) (hs_fresh (cs_history s))
      (hs_retried (cs_history s))) s)).
    { destruct Hok. constructor; simpl; try done. by rewrite N.add_0_r. }
    destruct (_ =? _); [done|]. eapply books_ok; [|exact Hz]. done.
  - unfold idle_turn. apply set_pc_ok; [|done]. rewrite Hpc. by destruct (cs_reader s).
  - unfold command_turn. apply execute_line_ok; [done|]. destruct Hok. rewrite Hpc in co_lines0.
    constructor; simpl in *; try done. by rewrite co_lines0, <- (assoc_L (++)).
  - apply set_pc_ok; [simpl; by rewrite Hpc|]. by apply (books_ok s).
  - done.
Qed.

Lemma console_step_ok s s' : step s s' -> console_ok s -> console_ok s'.
Proof.
  intros Hs Hok. destruct Hs; try by apply (books_ok s).
  - by apply take_line_ok.
  - by apply main_turn_ok.
Qed.

Lemma console_start_ok h : console_ok (console_start h).
Proof. constructor; try done; try by constructor. unfold kInputQueueLimit. simpl. lia. Qed.

Lemma console_reaches_ok c0 s : console_reaches caller epoch c0 s -> console_ok c0 -> console_ok s.
Proof. unfold console_reaches. induction 1; [done|]. eauto using console_step_ok. Qed.

Lemma node_main_ok argv fails outs (world : W) env f a (c0 : Console (T := T)) :
  node_main argv caller fails outs world env f = launched a c0 -> console_ok c0.
Proof.
  unfold node_main. destruct (parse_arguments argv) as [?|[a'|]]; [done| |done].
  destruct (NodeHost_new _ _ _ _ _ _) as [[?|h] ?]; [done|]. destruct (call_bind _ _ _) as [[?|port] h']; [done|].
  intros [= _ <-]. apply (books_ok (console_start h')); [done|apply console_start_ok].
Qed.

(** *** The end of the input *)

(** How many turns the main thread still takes when no more lines come. *)
Definition turns_left s : nat :=
  let n := (6 * length (cs_queue s))%nat in
  match cs_pc s with
  | at_poll => n + 5 | at_take _ => n + 4 | at_drops _ (Some _) => n + 7 | at_drops _ None => n + 3
  | at_idle _ => n + 2 | at_command _ => n + 6 | at_stop => n + 1 | at_exit _ => 0
  end%nat.

(** A run with [n] turns of the main thread. *)
Inductive main_runs : nat -> Console (T := T) -> Console (T := T) -> Prop :=
  | runs_end s : main_runs 0 s s
  | runs_main n s s' : main_runs n (main_turn caller epoch s) s' -> main_runs (S n) s s'
  | runs_other n s s1 s' : step s s1 -> main_runs n s1 s' -> main_runs n s s'.

Definition after_line s s' : Prop :=
  cs_queue s' = cs_queue s /\ cs_reader s' = cs_reader s /\
  match cs_pc s' with at_poll | at_stop | at_exit _ => True | _ => False end.

Lemma execute_line_after line s : cs_pc s = at_poll -> after_line s (execute_line caller epoch line s).
Proof.
  destruct s as [h q r d pc last next out err hs]. simpl. intros ->. set (s := mkConsole _ _ _ _ _ _ _ _ _ _).
  assert (Hkey : forall op k input, after_line s (key_command caller epoch op k input s)).
  { intros op k input. unfold key_command, submit_command, calls. destruct (read_word input) as [key rest].
    destruct (string_empty key); [done|]. destruct (String.eqb op "put"); [destruct (string_empty _); [done|]|].
    all: cbv zeta; destruct (submit _ _ _) as [[e|res] h']; [done|]; by destruct (sr_status res). }
  unfold execute_line. destruct (read_word (chars line)) as [op input]. destruct (_ || _); [done|].
  destruct (String.eqb op "status"); [unfold calls; by destruct (status _ _) as [[]]|].
  destruct (String.eqb op "metrics"); [done|]. destruct (String.eqb op "retry").
  { unfold retry_command, calls. destruct (cs_last_command s); [|done]. by destruct (submit _ _ _) as [[]]. }
  destruct (String.eqb op "put"); [done|]. destruct (String.eqb op "get"); [done|]. destruct (String.eqb op "erase"); [done|].
  by destruct (string_empty op).
Qed.

Lemma replies_after s rs :
  let s' := foldl (fun s r => say (reply_line r) s) s rs in cs_queue s' = cs_queue s /\ cs_reader s' = cs_reader s.
Proof. revert s. induction rs as [|r rs IH]; intros s; [done|]. simpl. by destruct (IH (say (reply_line r) s)) as [-> ->]. Qed.

(** A turn of the main thread when the input has ended. *)
Lemma main_turn_left s :
  cs_reader s = rd_done -> cs_reader (main_turn caller epoch s) = rd_done /\
  (turns_left (main_turn caller epoch s) <= turns_left s - 1)%nat.
Proof.
  intros Hr. unfold turns_left, main_turn. destruct (cs_pc s) as [|a|a l|a|l| |] eqn:Hpc.
  - unfold poll_turn, calls. destruct (polls _ _ _ _) as [[e|a] h]; simpl; [split; [done|lia]|].
    destruct (poll_replies _ _ _) as [[e|rs] h']; simpl; [split; [done|lia]|].
    destruct (replies_after (set_host h' (set_host h s)) rs) as [-> ->]. simpl. split; [done|lia].
  - unfold take_turn. destruct (cs_queue s) as [|line q] eqn:Hq; simpl; rewrite ?Hq; simpl; split; done || lia.
  - unfold drops_turn. cbv zeta. destruct (_ =? _), l; simpl; split; done || lia.
  - unfold idle_turn. simpl. rewrite Hr. split; [done|lia].
  - unfold command_turn. set (s1 := set_pc _ _). destruct (execute_line_after l s1 eq_refl) as (Hq & Hre & Hp).
    rewrite Hq, Hre. simpl. split; [done|]. destruct (cs_pc (execute_line caller epoch l s1)); try done; lia.
  - simpl. split; [done|lia].
  - split; [done|]. rewrite Hpc. lia.
Qed.

Lemma console_step_left s s' :
  step s s' -> cs_reader s = rd_done -> cs_reader s' = rd_done /\ (turns_left s' <= turns_left s)%nat.
Proof.
  intros Hs Hr. destruct Hs; try congruence; try done.
  destruct (main_turn_left s Hr). split; [done|lia].
Qed.

Lemma main_runs_left n s s' :
  main_runs n s s' -> cs_reader s = rd_done -> (turns_left s' <= turns_left s - n)%nat.
Proof.
  induction 1 as [s|n s s' _ IH|n s s1 s' Hs _ IH]; intros Hr; [lia| |].
  - destruct (main_turn_left s Hr) as [Hr1 Hl]. specialize (IH Hr1). lia.
  - destruct (console_step_left s s1 Hs Hr) as [Hr1 Hl]. specialize (IH Hr1). lia.
Qed.

Lemma turns_left_exit s : turns_left s = 0%nat -> exists code, cs_pc s = at_exit code.
Proof. unfold turns_left. destruct (cs_pc s) as [| |? []| | | |code]; try lia. by exists code. Qed.
End books.

(** ** Theorems *)

(** C21 Members round-trip: however the three or five members of a cluster are ordered
    when they are written as ID@ADDRESS:PORT with commas between, [parse_members]
    returns the same list, sorted by identifier. *)
Theorem node_members_roundtrip ms ps :
  (length ms = 3 \/ length ms = 5)%nat -> NoDup (ma_node <$> ms) -> Forall writable ms -> ps ≡ₚ ms ->
  parse_members (chars (text_string (members_text ps))) = inr (merge_sort node_before ms).
Proof.
  intros Hl Hn Hw Hp. unfold chars, text_string. rewrite String.list_ascii_of_string_of_list_ascii. unfold parse_members.
  rewrite <- Hp in Hw, Hn. assert (Hne : ps <> []) by (intros ->; apply Permutation_length in Hp; simpl in Hp; lia).
  rewrite (parse_items_text ps [] []) by (done || lia). cbn [tbind app].
  assert (Hs : merge_sort node_before ps = merge_sort node_before ms).
  { apply (Sorted_unique_strong node_before); try apply Sorted_merge_sort, _; [|by rewrite !merge_sort_Permutation].
    intros m1 m2 H1 H2 Hle Hge. rewrite merge_sort_Permutation in H1, H2. rewrite <- Hp in H2. unfold node_before in *.
    apply list_elem_of_lookup in H1 as [i Hi], H2 as [j Hj].
    enough (i = j) as -> by congruence. eapply (NoDup_lookup _ _ _ (ma_node m1) Hn); rewrite list_lookup_fmap; [by rewrite Hi|].
    rewrite Hj. simpl. f_equal. lia. }
  assert (Hnd : NoDup (ma_node <$> merge_sort node_before ps)) by (by rewrite merge_sort_Permutation).
  rewrite (NoDup_adjacent _ Hnd), orb_false_r. rewrite (Permutation_length (merge_sort_Permutation node_before ps)), (Permutation_length Hp).
  rewrite Hs. by destruct Hl as [-> | ->].
Qed.

(** An accepted command line configures a host that can be constructed: unless the
    path of the log is empty, [NodeHost] accepts the configuration made from it. *)
Theorem node_configuration_valid argv a :
  parse_arguments argv = inr (Some a) -> ar_wal_path a <> EmptyString ->
  validate_host_config (host_config a) = inr tt.
Proof. intros Ha. by apply host_config_valid, (parse_arguments_ready argv). Qed.

(** C3 Processes started from command lines agree: when every member of a cluster is
    started with its own identifier and the members of the cluster, two settled
    processes that have both committed an index hold the same entry there, through
    crashes of processes and machines. *)
Theorem node_processes_agree {W T : Type} `{TransportLaws W T} (argv : NodeId -> list string)
    (args : NodeId -> Arguments) ms (s : Hosted (T := T)) x y hx hy i :
  ms <> [] ->
  (forall x, x ∈ ma_node <$> ms -> parse_arguments (argv x) = inr (Some (args x)) /\ ar_node (args x) = x /\
     ar_members (args x) = ms) ->
  hosted_reachable (fun x => host_config (args x)) (ma_node <$> ms) s ->
  hd_sites s !! x = Some (up hx) -> hd_sites s !! y = Some (up hy) -> settled hx -> settled hy ->
  1 <= i -> i <= commit_index_ (nh_raft hx) -> i <= commit_index_ (nh_raft hy) ->
  exists e, entry_at (nh_raft hx) i = Some e /\ entry_at (nh_raft hy) i = Some e.
Proof.
  intros Hne Ha. apply settled_agree, arguments_setup; [done|]. intros z Hz. destruct (Ha z Hz) as (Hp & Hn & Hm).
  split_and!; [by eapply parse_arguments_ready|done..].
Qed.

(** C22 No line of the input is lost silently: in every state of the console, the lines
    the input thread has queued are those executed, the one the main thread holds and
    those in the queue, in this order; the other lines are counted, in the number of
    drops reported or still to be reported; and the queue holds at most 64 lines. *)
Theorem console_lines_accounted {W T : Type} `{Transport W T} argv caller epoch fails outs (world : W) env f a
    (c0 s : Console (T := T)) :
  node_main argv caller fails outs world env f = launched a c0 -> console_reaches caller epoch c0 s ->
  kept (hs_read (cs_history s)) = hs_executed (cs_history s) ++ in_hand (cs_pc s) ++ cs_queue s /\
  wrap64 (lost (hs_read (cs_history s))) = wrap64 (hs_reported (cs_history s) + cs_input_drops s) /\
  (length (cs_queue s) <= 64)%nat.
Proof. intros Hm Hr. by destruct (console_reaches_ok _ _ _ _ Hr (node_main_ok _ _ _ _ _ _ _ _ _ _ Hm)). Qed.

(** C23 Every command of the console has a session of its own: the commands made from
    lines [put], [get] and [erase], fewer than 2^64, have distinct sessions, sequence
    number 1 and the shape a node accepts, and [retry] submits one of them again,
    unchanged. *)
Theorem console_commands_distinct {W T : Type} `{Transport W T} argv caller epoch fails outs (world : W) env f a
    (c0 s : Console (T := T)) :
  node_main argv caller fails outs world env f = launched a c0 -> console_reaches caller epoch c0 s ->
  N.of_nat (length (hs_fresh (cs_history s))) < u64_size ->
  NoDup (session <$> hs_fresh (cs_history s)) /\
  Forall (fun c => sequence c = 1 /\ structurally_valid c = true) (hs_fresh (cs_history s)) /\
  Forall (fun c => c ∈ hs_fresh (cs_history s)) (hs_retried (cs_history s)).
Proof.
  intros Hm Hr Hn. destruct (console_reaches_ok _ _ _ _ Hr (node_main_ok _ _ _ _ _ _ _ _ _ _ Hm)).
  split_and!; [|done..]. rewrite co_sessions0. unfold sessions_made. apply NoDup_fmap_2_strong; [|apply NoDup_seq].
  intros i j Hi%elem_of_seq Hj%elem_of_seq [= Heq]. unfold wrap64 in Heq.
  assert (Hsz : 0 < u64_size) by done.
  assert (E : forall k, (k < length (hs_fresh (cs_history s)))%nat ->
    (1 + N.of_nat k) mod u64_size = if decide (1 + N.of_nat k = u64_size) then 0 else 1 + N.of_nat k).
  { intros k Hk. destruct (decide _) as [->|Hne]; [by apply N.Div0.mod_same|]. apply N.mod_small. lia. }
  rewrite !E in Heq by lia. destruct (decide _), (decide _); lia.
Qed.

(** The console ends when its input ends: once the input thread is done, every run in
    which the main thread takes 391 turns has left [main]. *)
Theorem console_ends {W T : Type} `{Transport W T} argv caller epoch fails outs (world : W) env f a
    (c0 s s' : Console (T := T)) n :
  node_main argv caller fails outs world env f = launched a c0 -> console_reaches caller epoch c0 s ->
  cs_reader s = rd_done -> main_runs caller epoch n s s' -> (391 <= n)%nat -> exists code, cs_pc s' = at_exit code.
Proof.
  intros Hm Hr Hd Hruns Hn. destruct (console_reaches_ok _ _ _ _ Hr (node_main_ok _ _ _ _ _ _ _ _ _ _ Hm)).
  apply turns_left_exit. pose proof (main_runs_left _ _ _ _ _ Hruns Hd). unfold kInputQueueLimit in *.
  assert (turns_left s <= 391)%nat; [|lia]. unfold turns_left. destruct (cs_pc s) as [| |? []| | | |]; lia.
Qed.

(** C24 A line read last can be lost: when the main thread has found the queue empty and
    is about to load [input_done], the input thread can queue a line and end, and [main]
    then leaves its loop and returns 0 with the line unexecuted in the queue. *)
Theorem console_loses_line {W T : Type} `{Transport W T} caller epoch (s : Console (T := T)) activity line :
  cs_pc s = at_idle activity -> cs_reader s = rd_reading -> (length (cs_queue s) < kInputQueueLimit)%nat ->
  exists s', console_reaches caller epoch s s' /\ cs_pc s' = at_exit 0 /\ cs_queue s' = cs_queue s ++ [line] /\
    hs_executed (cs_history s') = hs_executed (cs_history s) /\
    hs_read (cs_history s') = hs_read (cs_history s) ++ [(line, true)].
Proof.
  intros Hpc Hr Hroom%Nat.ltb_lt.
  assert (Hread : exists s1, console_reaches caller epoch s s1 /\ cs_reader s1 = rd_ending /\ cs_pc s1 = at_idle activity /\
    cs_queue s1 = cs_queue s ++ [line] /\ hs_executed (cs_history s1) = hs_executed (cs_history s) /\
    hs_read (cs_history s1) = hs_read (cs_history s) ++ [(line, true)]).
  { assert (Hl : console_reaches caller epoch s (take_line line s)) by by apply rtc_once, step_line.
    destruct (is_quit line) eqn:Hq.
    - exists (take_line line s). split; [done|]. unfold take_line. simpl. by rewrite Hroom, Hq.
    - exists (set_reader rd_ending (take_line line s)). split.
      + eapply rtc_r; [exact Hl|]. apply step_eof. unfold take_line. simpl. by rewrite Hq.
      + unfold take_line. simpl. by rewrite Hroom. }
  destruct Hread as (s1 & Hs1 & Hr1 & Hp1 & Hq1 & He1 & Hh1). pose (s2 := set_reader rd_done s1).
  exists (main_turn caller epoch (main_turn caller epoch s2)).
  assert (E : main_turn caller epoch s2 = set_pc at_stop s2) by (unfold main_turn; simpl; by rewrite Hp1).
  split; [|by rewrite E]. eapply rtc_r; [eapply rtc_r; [eapply rtc_r; [exact Hs1|by apply step_done]|]|]; apply step_main.
Qed.

(** ** A deployment and a session of the console *)

Definition demo_argv (x : NodeId) : list string :=
  ["--id"; dec x; "--members"; "3@127.0.0.1:7103,1@127.0.0.1:7101,2@127.0.0.1:7102"; "--wal"; "node.wal";
   "--cluster"; "11:22"].
Definition demo_members : list MemberAddress :=
  [mkMemberAddress 1 "127.0.0.1" 7101; mkMemberAddress 2 "127.0.0.1" 7102; mkMemberAddress 3 "127.0.0.1" 7103].
Definition demo_args (x : NodeId) : Arguments := mkArguments x demo_members "node.wal" 17 34 1 0 10 false.

Lemma demo_parsed x :
  x ∈ ma_node <$> demo_members ->
  parse_arguments (demo_argv x) = inr (Some (demo_args x)) /\ ar_node (demo_args x) = x /\
  ar_members (demo_args x) = demo_members.
Proof.
  simpl. intros Hx. repeat (apply elem_of_cons in Hx as [->|Hx]; [split; [by vm_compute|done]|]). by apply not_elem_of_nil in Hx.
Qed.

Definition wait_storage (x t : N) : list Label := [l_worker x (at_ms t) 4; poll x; poll x].

(** Process 1 is elected by process 2 and commits the first entry on both. *)
Definition demo_labels : list Label :=
  [l_boot 1; l_boot 2; l_boot 3;
   l_call 1 (call_start 0); l_call 2 (call_start 0); l_call 3 (call_start 0);
   l_clock 1 (at_ms 250); poll 1] ++ wait_storage 1 250 ++ deliver_to 2 1 0 ++ wait_storage 2 260 ++
  deliver_to 1 2 0 ++ wait_storage 1 270 ++ deliver_to 2 1 2 ++ wait_storage 2 280 ++
  deliver_to 1 2 1 ++ wait_storage 1 290 ++ deliver_to 2 1 4 ++ wait_storage 2 300.

Definition demo_committed (s : Hosted (T := ScriptTcp)) : bool :=
  match host_at s 1, host_at s 2 with
  | Some h1, Some h2 => settledb h1 && settledb h2 && (1 <=? commit_index_ (nh_raft h1)) && (1 <=? commit_index_ (nh_raft h2))
  | _, _ => false
  end.

Lemma demo_run :
  exists s h1 h2, hosted_reachable (fun x => host_config (demo_args x)) (ma_node <$> demo_members) s /\
    hd_sites s !! 1 = Some (up h1) /\ hd_sites s !! 2 = Some (up h2) /\ settled h1 /\ settled h2 /\
    1 <= commit_index_ (nh_raft h1) /\ 1 <= commit_index_ (nh_raft h2).
Proof.
  assert (Hc : match do_labels (fun x => host_config (demo_args x)) demo_labels (hosted_init (ma_node <$> demo_members)) with
    | Some s => demo_committed s | None => false end = true) by (vm_compute; reflexivity).
  destruct (do_labels _ _ _) as [s|] eqn:Hs; [|done]. apply do_labels_steps in Hs; [|by repeat constructor].
  unfold demo_committed in Hc. destruct (host_at s 1) as [h1|] eqn:H1; [|done]. destruct (host_at s 2) as [h2|] eqn:H2; [|done].
  rewrite !andb_true_iff, !N.leb_le in Hc. destruct Hc as [[[S1 S2] C1] C2]. exists s, h1, h2.
  split_and!; try done; try (by apply host_at_up); by apply settledb_spec.
Qed.

(** What the input thread and the main thread do in turn. *)
Inductive ConsoleEvent := ev_line (line : string) | ev_eof | ev_done | ev_main (turns : nat).

Section play.
Context {W T : Type} `{Transport W T} (caller epoch : N).

Definition play_event (s : Console (T := T)) (e : ConsoleEvent) : Console (T := T) :=
  match e, cs_reader s with
  | ev_line line, rd_reading => take_line line s
  | ev_eof, rd_reading => set_reader rd_ending s
  | ev_done, rd_ending => set_reader rd_done s
  | ev_main n, _ => Nat.iter n (main_turn caller epoch) s
  | _, _ => s
  end.

Lemma iter_reaches n s : console_reaches caller epoch s (Nat.iter n (main_turn caller epoch) s).
Proof. induction n as [|n IH]; [apply rtc_refl|]. simpl. eapply rtc_r; [exact IH|apply step_main]. Qed.

Lemma iter_runs n s : main_runs caller epoch n s (Nat.iter n (main_turn caller epoch) s).
Proof.
  revert s. induction n as [|n IH]; intros s; [constructor|]. constructor. rewrite Nat.iter_succ_r. apply IH.
Qed.

Lemma play_reaches es s : console_reaches caller epoch s (foldl play_event s es).
Proof.
  revert s. induction es as [|e es IH]; intros s; [apply rtc_refl|]. simpl. unfold console_reaches in *. etrans; [|apply IH].
  unfold play_event. destruct e, (cs_reader s) eqn:Hr; try apply rtc_refl; try apply iter_reaches; apply rtc_once.
  - by apply step_line.
  - by apply step_eof.
  - by apply step_done.
Qed.
End play.

(** Two commands and a [retry], then the end of the input. *)
Definition demo_session : list ConsoleEvent :=
  [ev_line "put a 1"; ev_line "get a"; ev_main 5; ev_line "retry"; ev_eof; ev_main 10; ev_done].

Definition demo_epoch : N := session_epoch_of 1000 (demo_args 1).
Abbreviation demo_launch :=
  (node_main (T := ScriptTcp) (demo_argv 1) 0 reads_ok [] tt (mkSurroundings 0 [] []) (log_file [])).

Definition demo_session_check (s : Console (T := ScriptTcp)) : bool :=
  bool_decide (cs_reader s = rd_done) && bool_decide (length (hs_fresh (cs_history s)) = 2%nat) &&
  bool_decide (hs_executed (cs_history s) = ["put a 1"; "get a"; "retry"]) && bool_decide (cs_err s = []).

Definition idle_check (s : Console (T := ScriptTcp)) : bool :=
  bool_decide (cs_reader s = rd_reading) && match cs_pc s with at_idle _ => true | _ => false end &&
  bool_decide (cs_queue s = []).

(** The console after some events, when the program was launched. *)
Definition played_check (check : Console (T := ScriptTcp) -> bool) (es : list ConsoleEvent)
    (l : Launch (Console (T := ScriptTcp))) : bool :=
  match l with launched _ c0 => check (foldl (play_event 0 demo_epoch) c0 es) | _ => false end.

Lemma played_check_spec check es l :
  played_check check es l = true ->
  exists a c0 s, l = launched a c0 /\ console_reaches 0 demo_epoch c0 s /\ check s = true.
Proof.
  destruct l as [| |a c0]; [done..|]. intros Hc. exists a, c0, (foldl (play_event 0 demo_epoch) c0 es).
  split_and!; [done|apply play_reaches|done].
Qed.

Lemma demo_session_checked : played_check demo_session_check demo_session demo_launch = true.
Proof. vm_compute. reflexivity. Qed.

Lemma demo_idle_checked : played_check idle_check [ev_main 3] demo_launch = true.
Proof. vm_compute. reflexivity. Qed.

Lemma demo_session_state :
  exists a c0 s, demo_launch = launched a c0 /\ console_reaches 0 demo_epoch c0 s /\ cs_reader s = rd_done /\
    length (hs_fresh (cs_history s)) = 2%nat /\ hs_executed (cs_history s) = ["put a 1"; "get a"; "retry"].
Proof.
  destruct (played_check_spec _ _ _ demo_session_checked) as (a & c0 & s & Hl & Hr & Hc). exists a, c0, s.
  unfold demo_session_check in Hc. rewrite !andb_true_iff, !bool_decide_eq_true in Hc. tauto.
Qed.

(** The main thread has found the queue empty. *)
Lemma demo_idle_state :
  exists a c0 s, demo_launch = launched a c0 /\ console_reaches 0 demo_epoch c0 s /\ cs_reader s = rd_reading /\
    (exists activity, cs_pc s = at_idle activity) /\ cs_queue s = [].
Proof.
  destruct (played_check_spec _ _ _ demo_idle_checked) as (a & c0 & s & Hl & Hr & Hc). exists a, c0, s.
  unfold idle_check in Hc. rewrite !andb_true_iff, !bool_decide_eq_true in Hc. destruct Hc as [[H1 H2] H3].
  split_and!; [exact Hl|exact Hr|exact H1| |exact H3]. clear Hl Hr. destruct (cs_pc s); try done. by eexists.
Qed.

Lemma node_members_roundtrip_witness :
  parse_members (chars (text_string (members_text (reverse demo_members)))) = inr demo_members.
Proof.
  change (inr demo_members) with (inr (merge_sort node_before demo_members) : Throw (list MemberAddress)).
  apply (node_members_roundtrip demo_members (reverse demo_members)).
  - by left.
  - by apply (bool_decide_unpack (NoDup (ma_node <$> demo_members))).
  - unfold demo_members. repeat constructor; simpl; try done; by apply (bool_decide_unpack (","%char ∉ chars "127.0.0.1")).
  - apply reverse_Permutation.
Defined.

Lemma node_configuration_valid_witness : validate_host_config (host_config (demo_args 2)) = inr tt.
Proof. apply (node_configuration_valid (demo_argv 2)); [by vm_compute|done]. Defined.

Lemma node_processes_agree_witness :
  exists (s : Hosted (T := ScriptTcp)) hx hy e, hd_sites s !! 1 = Some (up hx) /\ hd_sites s !! 2 = Some (up hy) /\
    entry_at (nh_raft hx) 1 = Some e /\ entry_at (nh_raft hy) 1 = Some e.
Proof.
  destruct demo_run as (s & h1 & h2 & Hr & H1 & H2 & S1 & S2 & C1 & C2).
  destruct (node_processes_agree demo_argv demo_args demo_members s 1 2 h1 h2 1 ltac:(done) demo_parsed Hr H1 H2 S1 S2
    ltac:(lia) C1 C2) as [e He]. by exists s, h1, h2, e.
Defined.

Lemma console_lines_accounted_witness :
  exists s : Console (T := ScriptTcp), kept (hs_read (cs_history s)) = ["put a 1"; "get a"; "retry"] ++ in_hand (cs_pc s) ++ cs_queue s.
Proof.
  destruct demo_session_state as (a & c0 & s & Hl & Hr & _ & _ & He). exists s. rewrite <- He.
  apply (console_lines_accounted (demo_argv 1) 0 demo_epoch reads_ok [] tt (mkSurroundings 0 [] []) (log_file []) a c0 s Hl Hr).
Defined.

Lemma console_commands_distinct_witness :
  exists s : Console (T := ScriptTcp), length (hs_fresh (cs_history s)) = 2%nat /\ NoDup (session <$> hs_fresh (cs_history s)).
Proof.
  destruct demo_session_state as (a & c0 & s & Hl & Hr & _ & Hn & _). exists s. split; [exact Hn|].
  apply (console_commands_distinct (demo_argv 1) 0 demo_epoch reads_ok [] tt (mkSurroundings 0 [] []) (log_file []) a c0 s Hl Hr).
  by rewrite Hn.
Defined.

Lemma console_ends_witness :
  exists (s s' : Console (T := ScriptTcp)) code, cs_reader s = rd_done /\ cs_pc s' = at_exit code.
Proof.
  destruct demo_session_state as (a & c0 & s & Hl & Hr & Hd & _). exists s, (Nat.iter 391 (main_turn 0 demo_epoch) s).
  destruct (console_ends (demo_argv 1) 0 demo_epoch reads_ok [] tt (mkSurroundings 0 [] []) (log_file []) a c0 s _ 391 Hl Hr Hd
    (iter_runs 0 demo_epoch 391 s) ltac:(lia)) as [code Hc].
  exists code. split; [exact Hd|exact Hc].
Defined.

Lemma console_loses_line_witness :
  exists s : Console (T := ScriptTcp), cs_pc s = at_exit 0 /\ cs_queue s = ["put a 1"].
Proof.
  destruct demo_idle_state as (a & c0 & s & Hl & Hr & Hread & (act & Hpc) & Hq).
  destruct (console_loses_line 0 demo_epoch s act "put a 1" Hpc Hread ltac:(rewrite Hq; unfold kInputQueueLimit; simpl; lia))
    as (s' & _ & Hx & Hq' & _). exists s'. rewrite Hq in Hq'.
  split; [exact Hx|exact Hq'].
Defined.
