(* ===== verification/SimProgram.v ===== *)
(** * SimProgram: the programs that drive the deterministic cluster

    [apps/detlog_sim.cpp], a command line with eight scenarios, and
    [fuzz/scenario_fuzz.cpp], which turns the bytes of an input into a scenario.  Both only
    call [DeterministicCluster]; every run of theirs is shown to be a scenario of
    [HarnessTheorems], and a scenario of the former that ends well has done what it is for
    ([outcome]).  The file a trace is written to is a parameter: it tells for a path
    and the bytes whether opening or writing fails.  The two other fuzz drivers, of the
    codec and of the log scan, are here too. *)

From S2P Require Import Prelude Model StateMachine RaftTypes Raft RaftSpec Deployment RaftTyped.
From S2P Require Import Bytes Wal Pcg SimQueue Simulator SimTrace SimSpec SimStorage SimTheorems HarnessTypes Harness HarnessSim HarnessState HarnessEffects HarnessRun HarnessTheorems.
From S2P Require Codec NodeProgram TcpMachine.
#[local] Open Scope string_scope.
#[local] Open Scope list_scope.
#[local] Open Scope N_scope.

Definition demo_key : string := "demo-key".

(** The trace file: the message when it cannot be opened or written. *)
Definition TraceFile : Type := string -> string -> option string.

Section scenarios.
Context `{HeapLib}.

(** ** [detlog-sim] *)

Definition put_demo (session : SessionId) (sequence : N) (value : string) : ClientCommand :=
  mkClientCommand session sequence put demo_key value.

Definition commit_command (c : Impl) (leader : NodeId) (cmd : ClientCommand) : Throw (ClientReply * Impl) :=
  t <== submit c leader cmd;
  r <== run_until_reply t.1 50000 t.2;
  if negb r.1 then inl "client request did not complete"
  else match reply_for r.2 t.1 with
       | Some reply => if bool_decide (cr_status reply = status_ok) then inr (reply, r.2)
                       else inl "client request did not commit successfully"
       | None => inl "client request did not commit successfully"
       end.

Record ScenarioSummary := mkScenarioSummary {
  ss_first_leader : NodeId;
  ss_replacement_leader : option NodeId;
  ss_first_commit : LogIndex;
  ss_second_commit : LogIndex;
}.

(** The first ready leader other than [old]. *)
Definition another_leader (old : NodeId) (c : Impl) : option NodeId :=
  List.find (fun l => negb (l =? old)) (leaders c true).

Definition wait_replacement (c : Impl) (old : NodeId) : Throw (NodeId * Impl) :=
  r <== run_until (fun c => negb (is_none (another_leader old c))) 50000 c;
  if negb r.1 then inl "cluster did not elect a replacement"
  else match another_leader old r.2 with
       | Some l => inr (l, r.2)
       | None => inl "replacement disappeared after election"
       end.

Definition wait_value (c : Impl) (node : NodeId) (expected : string) : Throw (unit * Impl) :=
  r <== run_until (fun c => bool_decide (cluster_value c node demo_key = Some expected)) 50000 c;
  if negb r.1 then inl "node did not catch up to the expected value" else inr (tt, r.2).

(** A call whose [false] the scenario reports. *)
Definition demand (r : Throw (bool * Impl)) (what : string) : Throw (unit * Impl) :=
  x <== r; if (x.1 : bool) then inr (tt, x.2) else inl what.

(** The default argument of [crash]. *)
Definition keep_nothing : StorageCrashSpec := mkStorageCrashSpec 0 0.

Definition run_leader_crash (c : Impl) (first : NodeId) (session : SessionId) : Throw (ScenarioSummary * Impl) :=
  a <== commit_command c first (put_demo session 1 "before-crash");
  b <== demand (crash a.2 first keep_nothing) "could not crash the first leader";
  w <== wait_replacement b.2 first;
  d <== commit_command w.2 w.1 (put_demo session 2 "after-crash");
  e <== demand (restart d.2 first) "could not restart the old leader";
  f <== wait_value e.2 first "after-crash";
  inr (mkScenarioSummary first (Some w.1) (cr_log_index a.1) (cr_log_index d.1), f.2).

(** The loops over the peers that cut the links out of [node], checked and unchecked. *)
Fixpoint cut_links (c : Impl) (node : NodeId) (peers : list NodeId) : Throw (unit * Impl) :=
  match peers with
  | [] => inr (tt, c)
  | peer :: peers =>
      if peer =? node then cut_links c node peers
      else
        x <== demand (cluster_set_partition c node peer true) "could not inject asymmetric partition";
        cut_links x.2 node peers
  end.

Fixpoint heal_links (c : Impl) (node : NodeId) (peers : list NodeId) : Throw (unit * Impl) :=
  match peers with
  | [] => inr (tt, c)
  | peer :: peers =>
      if peer =? node then heal_links c node peers
      else (x <== cluster_set_partition c node peer false; heal_links x.2 node peers)
  end.

Definition run_partition (c : Impl) (first : NodeId) (session : SessionId) (symmetric : bool)
  : Throw (ScenarioSummary * Impl) :=
  a <== commit_command c first (put_demo session 1 "before-partition");
  b <== (if symmetric then demand (isolate a.2 first true) "could not isolate leader"
         else cut_links a.2 first (cc_members (im_config a.2)));
  t <== submit b.2 first (put_demo session 2 "ambiguous-partition-write");
  w <== wait_replacement t.2 first;
  d <== commit_command w.2 w.1 (put_demo session 2 "after-partition");
  e <== (if symmetric then (x <== isolate d.2 first false; inr (tt, x.2))
         else heal_links d.2 first (cc_members (im_config d.2)));
  f <== wait_value e.2 first "after-partition";
  inr (mkScenarioSummary first (Some w.1) (cr_log_index a.1) (cr_log_index d.1), f.2).

Definition run_ambiguous_retry (c : Impl) (first : NodeId) (session : SessionId) : Throw (ScenarioSummary * Impl) :=
  let cmd := put_demo session 1 "applied-once" in
  a <== commit_command c first cmd;
  let c1 := (take_replies a.2).2 in
  let before := snapshot c1 first in
  r <== commit_command c1 first cmd;
  let after := snapshot r.2 first in
  match before, after with
  | Some b, Some e =>
      if negb (sn_last_log_index b =? sn_last_log_index e) || negb (cr_log_index r.1 =? cr_log_index a.1)
      then inl "ambiguous retry appended or applied twice"
      else inr (mkScenarioSummary first None (cr_log_index a.1) (cr_log_index r.1), r.2)
  | _, _ => inl "ambiguous retry appended or applied twice"
  end.

Definition run_torn_wal (c : Impl) (first : NodeId) (session : SessionId) : Throw (ScenarioSummary * Impl) :=
  a <== commit_command c first (put_demo session 1 "before-torn-tail");
  t <== submit a.2 first (put_demo session 2 "torn-unacknowledged");
  b <== demand (crash t.2 first (mkStorageCrashSpec 0 20)) "torn-WAL crash/restart failed";
  d <== demand (restart b.2 first) "torn-WAL crash/restart failed";
  w <== run_until_leader 50000 true d.2;
  match w.1 with
  | None => inl "cluster did not recover from torn WAL"
  | Some ready =>
      e <== commit_command w.2 ready (put_demo session 2 "after-torn-tail");
      f <== wait_value e.2 first "after-torn-tail";
      inr (mkScenarioSummary first (Some ready) (cr_log_index a.1) (cr_log_index e.1), f.2)
  end.

(** The last member that is not the leader; zero when there is none. *)
Definition last_follower (c : Impl) (first : NodeId) : NodeId :=
  foldl (fun slow node => if node =? first then slow else node) 0 (cc_members (im_config c)).

Definition run_slow_follower (c : Impl) (first : NodeId) (session : SessionId) : Throw (ScenarioSummary * Impl) :=
  let slow := last_follower c first in
  if slow =? 0 then inl "could not configure slow follower"
  else
    x <== demand (cluster_set_link_delay c first slow 25) "could not configure slow follower";
    y <== demand (cluster_set_link_delay x.2 slow first 25) "could not configure slow follower";
    a <== commit_command y.2 first (put_demo session 1 "with-slow-follower");
    r <== cluster_run 250 a.2;
    p <== cluster_set_link_delay r.2 first slow 1;
    q <== cluster_set_link_delay p.2 slow first 1;
    f <== wait_value q.2 slow "with-slow-follower";
    inr (mkScenarioSummary first None (cr_log_index a.1) (cr_log_index a.1), f.2).

Definition run_slow_disk (c : Impl) (first : NodeId) (session : SessionId) : Throw (ScenarioSummary * Impl) :=
  let slow := last_follower c first in
  if slow =? 0 then inl "could not configure per-node slow disk"
  else
    x <== demand (set_storage_latency c slow 10 25) "could not configure per-node slow disk";
    a <== commit_command x.2 first (put_demo session 1 "with-slow-disk");
    f <== wait_value a.2 slow "with-slow-disk";
    inr (mkScenarioSummary first None (cr_log_index a.1) (cr_log_index a.1), f.2).

(** The loop of [run_saturation] over the numbers of the requests. *)
Fixpoint saturate (c : Impl) (first : NodeId) (session : SessionId) (indexes : list N) : Throw (unit * Impl) :=
  match indexes with
  | [] => inr (tt, c)
  | i :: indexes =>
      t <== submit c first (put_demo (mkSessionId (high session) (add64 (low session) i)) 1 ("saturated-" +:+ dec i));
      saturate t.2 first session indexes
  end.

Definition run_saturation (c : Impl) (first : NodeId) (session : SessionId) : Throw (ScenarioSummary * Impl) :=
  x <== demand (isolate c first true) "could not isolate leader for saturation";
  y <== saturate x.2 first session (N.of_nat <$> seq 1 12);
  r <== cluster_run 2000 y.2;
  let depth := queue_depth r.2 in
  if max_pending_events (sc_events (cc_simulator (im_config r.2))) <? qd_scheduled_events depth
  then inl "saturation exceeded a bound or invariant"
  else
    let '(verdict, c1) := check_invariants r.2 in
    if negb (is_none verdict) then inl "saturation exceeded a bound or invariant"
    else
      z <== isolate c1 first false;
      w <== run_until_leader 50000 true z.2;
      match w.1 with
      | None => inl "cluster did not recover after saturation"
      | Some ready =>
          match snapshot w.2 ready with
          | None => inl "bad optional access"
          | Some sn =>
              a <== commit_command w.2 ready (put_demo session 1 "after-saturation");
              inr (mkScenarioSummary first (Some ready) (sn_commit_index sn) (cr_log_index a.1), a.2)
          end
      end.

(** *** [main] *)

Record SimOptions := mkSimOptions {
  so_seed : N; so_nodes : N; so_scenario : string; so_trace : option string;
}.

Definition sim_unsigned (value option : string) : Throw N :=
  match NodeProgram.from_chars 10 (NodeProgram.chars value) with
  | (inr v, []) => inr v
  | _ => inl (option +:+ " requires an unsigned integer")
  end.

Definition take_sim_option (argument value : string) (o : SimOptions) : Throw SimOptions :=
  if String.eqb argument "--seed" then
    v <== sim_unsigned value argument; inr (mkSimOptions v (so_nodes o) (so_scenario o) (so_trace o))
  else if String.eqb argument "--nodes" then
    v <== sim_unsigned value argument;
    if negb (v =? 3) && negb (v =? 5) then inl "--nodes must be 3 or 5"
    else inr (mkSimOptions (so_seed o) v (so_scenario o) (so_trace o))
  else if String.eqb argument "--trace" then inr (mkSimOptions (so_seed o) (so_nodes o) (so_scenario o) (Some value))
  else if String.eqb argument "--scenario" then inr (mkSimOptions (so_seed o) (so_nodes o) value (so_trace o))
  else inl ("unknown option: " +:+ argument).

(** [None]: the usage was printed. *)
Fixpoint sim_options (argv : list string) (o : SimOptions) : Throw (option SimOptions) :=
  match argv with
  | [] => inr (Some o)
  | argument :: rest =>
      if String.eqb argument "--help" || String.eqb argument "-h" then inr None
      else match rest with
           | [] => inl (argument +:+ " requires a value")
           | value :: rest => o' <== take_sim_option argument value o; sim_options rest o'
           end
  end.

Definition scenario_names : list string :=
  ["leader-crash"; "symmetric-partition"; "asymmetric-partition"; "ambiguous-retry"; "torn-wal";
   "slow-follower"; "slow-disk"; "saturation"].

(** The limits the saturation scenario lowers. *)
Definition saturation_limits (c : ClusterConfig) : ClusterConfig :=
  let r := cc_raft c in
  mkClusterConfig (cc_members c) (cc_seed c)
    (mkRaftConfig (RaftTypes.node_id r) (members r) (election_timeout r) (heartbeat_interval r) (max_deferred_events r)
       2 4096 (max_command_bytes r) (RaftTypes.max_key_bytes r) (RaftTypes.max_value_bytes r)
       (max_append_entries_per_rpc r) (max_append_bytes_per_rpc r) (append_retry_heartbeats r) (max_waiters_per_request r))
    (cc_codec c) (cc_simulator c) (cc_wal c) (cc_cluster_id_high c) (cc_cluster_id_low c) (cc_election_jitter c)
    (cc_network_delay c) (cc_storage_write_latency c) (cc_storage_flush_latency c)
    (cc_max_semantic_trace_records c) (cc_max_retained_client_replies c) (cc_automatic_invariant_checks c).

Definition sim_config (o : SimOptions) : Throw ClusterConfig :=
  config <== cluster_config (so_nodes o) (so_seed o);
  inr (if String.eqb (so_scenario o) "saturation" then saturation_limits config else config).

Definition run_scenario (name : string) (c : Impl) (first : NodeId) (session : SessionId) : Throw (ScenarioSummary * Impl) :=
  if String.eqb name "leader-crash" then run_leader_crash c first session
  else if String.eqb name "symmetric-partition" then run_partition c first session true
  else if String.eqb name "asymmetric-partition" then run_partition c first session false
  else if String.eqb name "ambiguous-retry" then run_ambiguous_retry c first session
  else if String.eqb name "torn-wal" then run_torn_wal c first session
  else if String.eqb name "slow-follower" then run_slow_follower c first session
  else if String.eqb name "saturation" then run_saturation c first session
  else run_slow_disk c first session.

(** From the options to the check after the scenario. *)
Definition play_scenario (o : SimOptions) : Throw (ScenarioSummary * Impl) :=
  if negb (bool_decide (so_scenario o ∈ scenario_names)) then inl "unknown --scenario value"
  else
    config <== sim_config o;
    c0 <== DeterministicCluster_new config;
    w <== run_until_leader 50000 true c0;
    match w.1 with
    | None => inl "cluster did not elect a ready leader"
    | Some first =>
        r <== run_scenario (so_scenario o) w.2 first (mkSessionId 0x4445544c4f47 (so_seed o));
        let '(verdict, c1) := check_invariants r.2 in
        match verdict with
        | Some detail => inl ("invariant failure: " +:+ detail)
        | None => inr (r.1, c1)
        end
    end.

Definition summary_line (o : SimOptions) (s : ScenarioSummary) (c : Impl) : string :=
  "scenario=" +:+ so_scenario o +:+ " seed=" +:+ dec (so_seed o) +:+ " nodes=" +:+ dec (so_nodes o) +:+
  " first_leader=" +:+ dec (ss_first_leader s) +:+ " replacement_leader=" +:+
  match ss_replacement_leader s with Some l => dec l | None => "none" end +:+
  " first_commit=" +:+ dec (ss_first_commit s) +:+ " second_commit=" +:+ dec (ss_second_commit s) +:+
  " virtual_time=" +:+ dec (c_now c) +:+
  " trace_records=" +:+ dec (N.of_nat (length (rp_semantic_trace (im_reports c)))).

(** How the process ends: the exit code, the lines it prints, and the cluster it leaves. *)
Inductive SimExit :=
  | sim_usage
  | sim_failed (what : string)
  | sim_done (output : list string) (summary : ScenarioSummary) (c : Impl).

Definition detlog_sim (file : TraceFile) (argv : list string) : SimExit :=
  match sim_options argv (mkSimOptions 1 3 "leader-crash" None) with
  | inl what => sim_failed what
  | inr None => sim_usage
  | inr (Some o) =>
      match play_scenario o with
      | inl what => sim_failed what
      | inr (s, c) =>
          match so_trace o with
          | None => sim_done [summary_line o s c] s c
          | Some path =>
              match file path (cluster_trace_jsonl c) with
              | Some what => sim_failed what
              | None => sim_done [summary_line o s c; "trace=" +:+ path] s c
              end
          end
      end
  end.
End scenarios.

(** ** Programs play scenarios *)

Section plays.
Context `{HeapLaws}.
Implicit Types (c : Impl).

(** Calls lead from one state to another. *)
Definition led c c' : Prop := exists l, Forall cluster_call_fits l /\ cluster_calls c l = inr c'.

(** What a program returns was reached by calls. *)
Definition plays {A} c (r : Throw (A * Impl)) : Prop := forall a c', r = inr (a, c') -> led c c'.

Lemma led_refl c : led c c.
Proof. by exists []. Qed.

Lemma led_trans c c1 c2 : led c c1 -> led c1 c2 -> led c c2.
Proof.
  intros (l1 & F1 & H1) (l2 & F2 & H2). exists (l1 ++ l2). split; [by apply Forall_app_2|].
  by rewrite (cluster_calls_app c c1).
Qed.

Lemma plays_ret {A} c (a : A) : plays c (inr (a, c)).
Proof. intros b c' [= _ <-]. apply led_refl. Qed.

Lemma plays_fail {A} c what : plays c (inl what : Throw (A * Impl)).
Proof. by intros a c'. Qed.

Lemma plays_bind {A B} c (r : Throw (A * Impl)) (k : A * Impl -> Throw (B * Impl)) :
  plays c r -> (forall a c1, led c c1 -> plays c1 (k (a, c1))) -> plays c (tbind r k).
Proof.
  intros Hr Hk b c' Hb. destruct r as [e|[a c1]]; [done|]. assert (H1 : led c c1) by by eapply Hr.
  eapply led_trans; [exact H1|]. by eapply (Hk a c1 H1).
Qed.

Lemma plays_call {A} c (r : Throw (A * Impl)) call :
  cluster_call_fits call -> (x <== r; inr x.2) = cluster_call c call -> plays c r.
Proof. intros Hf Hc a c' Hr. exists [call]. split; [by constructor|]. simpl. rewrite <- Hc, Hr. done. Qed.

Lemma plays_step c : plays c (cluster_step c).
Proof. by apply (plays_call c _ do_step). Qed.
Lemma plays_submit c n cmd : command_fits cmd -> plays c (submit c n cmd).
Proof. intros. by apply (plays_call c _ (do_submit n cmd)). Qed.
Lemma plays_crash c n spec : plays c (crash c n spec).
Proof. by apply (plays_call c _ (do_crash n spec)). Qed.
Lemma plays_restart c n : plays c (restart c n).
Proof. by apply (plays_call c _ (do_restart n)). Qed.
Lemma plays_partition c f t b : plays c (cluster_set_partition c f t b).
Proof. by apply (plays_call c _ (do_partition f t b)). Qed.
Lemma plays_delay c f t d : plays c (cluster_set_link_delay c f t d).
Proof. by apply (plays_call c _ (do_link_delay f t d)). Qed.
Lemma plays_drop c f t k : plays c (cluster_drop_next c f t k).
Proof. by apply (plays_call c _ (do_drop f t k)). Qed.
Lemma plays_duplicate c f t k : plays c (cluster_duplicate_next c f t k).
Proof. by apply (plays_call c _ (do_duplicate f t k)). Qed.
Lemma plays_latency c n w f : plays c (set_storage_latency c n w f).
Proof. by apply (plays_call c _ (do_latency n w f)). Qed.
Lemma plays_fail_write c n : plays c (fail_next_storage_write c n).
Proof. by apply (plays_call c _ (do_fail_write n)). Qed.
Lemma plays_short_write c n k : plays c (cluster_short_write_next c n k).
Proof. by apply (plays_call c _ (do_short_write n k)). Qed.
Lemma plays_fail_flush c n : plays c (fail_next_storage_flush c n).
Proof. by apply (plays_call c _ (do_fail_flush n)). Qed.

Lemma led_check c : led c (check_invariants c).2.
Proof. exists [do_check]. by split; [repeat constructor|]. Qed.

Lemma led_take c : led c (take_replies c).2.
Proof. exists [do_take_replies]. by split; [repeat constructor|]. Qed.

Lemma plays_led {A} c c1 (r : Throw (A * Impl)) : led c c1 -> plays c1 r -> plays c r.
Proof. intros Hl Hr a c' E. eapply led_trans; [exact Hl|by eapply Hr]. Qed.

Lemma plays_run n c : plays c (cluster_run n c).
Proof.
  revert c. induction n as [|n IH]; intros c; [apply plays_ret|]. simpl. apply plays_bind; [apply plays_step|].
  intros b c1 _. destruct b; simpl; [|apply plays_ret]. apply plays_bind; [apply IH|]. intros k c2 _. apply plays_ret.
Qed.

Lemma plays_run_until p n c : plays c (run_until p n c).
Proof.
  unfold run_until. destruct (p c); [apply plays_ret|]. generalize (N.to_nat n). clear n. intros n. revert c.
  induction n as [|n IH]; intros c; [apply plays_ret|]. simpl. apply plays_bind; [apply plays_step|].
  intros b c1 _. destruct b; simpl; [|apply plays_ret]. destruct (p c1); [apply plays_ret|apply IH].
Qed.

Lemma plays_demand c r what : plays c r -> plays c (demand r what).
Proof. intros Hr. apply plays_bind; [done|]. intros [] c1 _; [apply plays_ret|apply plays_fail]. Qed.

Lemma plays_ignore {A B} c (r : Throw (A * Impl)) (b : B) : plays c r -> plays c (x <== r; inr (b, x.2)).
Proof. intros Hr. apply plays_bind; [done|]. intros a c1 _. apply plays_ret. Qed.

Lemma plays_isolate c n b : plays c (isolate c n b).
Proof.
  unfold isolate. destruct (runtime c n); [|apply plays_ret]. generalize (cc_members (im_config c)). intros ps.
  revert c. induction ps as [|p ps IH]; intros c; [apply plays_ret|]. cbn [isolate_from]. destruct (_ =? _); [apply IH|].
  apply plays_bind.
  - unfold set_bidirectional_partition. apply plays_bind; [apply plays_partition|]. intros [] c1 _; [apply plays_partition|apply plays_ret].
  - intros [] c1 _; [apply IH|apply plays_ret].
Qed.

Lemma plays_leader n b c : plays c (run_until_leader n b c).
Proof. unfold run_until_leader. apply plays_bind; [apply plays_run_until|]. intros x c1 _. apply plays_ret. Qed.

Lemma plays_commit c n cmd : command_fits cmd -> plays c (commit_command c n cmd).
Proof.
  intros Hf. unfold commit_command. apply plays_bind; [by apply plays_submit|]. intros t c1 _. unfold run_until_reply. simpl.
  apply plays_bind; [apply plays_run_until|]. intros [] c2 _; simpl; [|apply plays_fail].
  destruct (reply_for c2 t) as [r|]; [|apply plays_fail]. destruct (bool_decide _); [apply plays_ret|apply plays_fail].
Qed.

Lemma plays_replacement c n : plays c (wait_replacement c n).
Proof.
  unfold wait_replacement. apply plays_bind; [apply plays_run_until|]. intros [] c1 _; simpl; [|apply plays_fail].
  destruct (another_leader n c1); [apply plays_ret|apply plays_fail].
Qed.

Lemma plays_value c n v : plays c (wait_value c n v).
Proof.
  unfold wait_value. apply plays_bind; [apply plays_run_until|]. intros [] c1 _; simpl; [apply plays_ret|apply plays_fail].
Qed.

Lemma plays_cut c n ps : plays c (cut_links c n ps).
Proof.
  revert c. induction ps as [|p ps IH]; intros c; [apply plays_ret|]. cbn [cut_links]. destruct (_ =? _); [apply IH|].
  apply plays_bind; [apply plays_demand, plays_partition|]. intros x c1 _. apply IH.
Qed.

Lemma plays_heal c n ps : plays c (heal_links c n ps).
Proof.
  revert c. induction ps as [|p ps IH]; intros c; [apply plays_ret|]. cbn [heal_links]. destruct (_ =? _); [apply IH|].
  apply plays_bind; [apply plays_partition|]. intros x c1 _. apply IH.
Qed.
End plays.

Create HintDb plays.
#[export] Hint Resolve plays_ret plays_fail plays_step plays_submit plays_crash plays_restart plays_partition plays_delay
  plays_drop plays_duplicate plays_latency plays_fail_write plays_short_write plays_fail_flush plays_run plays_run_until
  plays_demand plays_ignore plays_isolate plays_leader plays_commit plays_replacement plays_value plays_cut plays_heal : plays.
(** One statement of a program after the other. *)
Ltac play := repeat (apply plays_bind; [solve [eauto with plays]|intros ?? _; cbn [fst snd]]); try solve [eauto with plays].

Lemma tbind_inv {A B} (r : Throw A) (k : A -> Throw B) b :
  tbind r k = inr b -> exists a, r = inr a /\ k a = inr b.
Proof. destruct r as [e|a]; [done|]. by exists a. Qed.

(** The statements a program has executed. *)
Ltac unwind H := repeat (let x := fresh "x" in let c := fresh "c" in let E := fresh "E" in
  apply tbind_inv in H as ([x c] & E & H); cbn [fst snd] in *).

(** ** What steps and requests leave alone

    Nodes crash and return, links are cut, delayed and healed, and disks slow down only
    when a fault is called for: an event of the simulation and a client request change
    none of it. *)

Create HintDb weather.
Section weather.
Context `{HeapLib}.
Implicit Types (s : Simulator) (c : Impl).

(** Whether the link is cut, and what it adds to the delay. *)
Definition weather (f : LinkFaultState) : bool * Tick := (lf_partitioned f, lf_additional_delay f).

Definition same_weather s s' : Prop :=
  (forall n, is_alive s' n = is_alive s n) /\ forall f t, weather (link_fault s' f t) = weather (link_fault s f t).

#[global] Instance same_weather_pre : PreOrder same_weather.
Proof using.
  split; [done|]. intros s1 s2 s3 [A1 L1] [A2 L2]. split; [intros n; by rewrite A2|intros f t; by rewrite L2].
Qed.

Lemma weather_parts s s' : sim_nodes s' = sim_nodes s -> sim_links s' = sim_links s -> same_weather s s'.
Proof using. intros Hn Hl. unfold same_weather, is_alive, link_fault. by rewrite Hn, Hl. Qed.

Lemma record_links s k n p t i b d : sim_links (Simulator.record s k n p t i b d) = sim_links s.
Proof using. apply record_core. Qed.

Lemma weather_record s s' k n p t i b d : same_weather s s' -> same_weather s (Simulator.record s' k n p t i b d).
Proof using.
  intros Hs. etrans; [exact Hs|]. apply weather_parts; [apply record_nodes|apply record_links].
Qed.

Lemma weather_events s s' q : same_weather s s' -> same_weather s (set_events s' q).
Proof using. intros Hs. etrans; [exact Hs|]. by apply weather_parts. Qed.

Lemma weather_node s s' n st st' :
  sim_nodes s' !! n = Some st -> ns_alive st' = ns_alive st -> same_weather s s' -> same_weather s (put_node s' n st').
Proof using.
  intros E Ha Hs. etrans; [exact Hs|]. split; [|done]. intros m. unfold is_alive. simpl.
  destruct (decide (m = n)) as [-> |]; [by rewrite lookup_insert_eq, E|by rewrite lookup_insert_ne].
Qed.

Lemma link_fault_link s f t : link_fault s f t = ls_fault (link s f t).
Proof using. unfold link_fault, link. by destruct (sim_links s !! (f, t)). Qed.

Lemma weather_link s s' f t l :
  weather (ls_fault l) = weather (ls_fault (link s' f t)) -> same_weather s s' -> same_weather s (put_link s' f t l).
Proof using.
  intros Hl Hs. etrans; [exact Hs|]. split; [done|]. intros f' t'. rewrite !link_fault_link. unfold link at 1. simpl.
  destruct (decide ((f', t') = (f, t))) as [[= -> ->]|Hne]; [by rewrite lookup_insert_eq|by rewrite lookup_insert_ne].
Qed.

Lemma weather_release s s' e : same_weather s s' -> same_weather s (release_network_bytes s' e).
Proof using.
  intros Hs. unfold release_network_bytes.
  match goal with |- same_weather s (set_total_network_bytes ?x _) => transitivity x; [|by apply weather_parts] end.
  destruct (sim_links s' !! _) as [l|] eqn:E; [|done]. apply weather_link; [|done]. unfold link. by rewrite E.
Qed.

Lemma weather_arm s n k d : same_weather s (arm_timer s n k d).2.
Proof using.
  unfold arm_timer. destruct (sim_nodes s !! n) as [st|] eqn:E; [|done]. destruct (negb _); [done|].
  destruct (schedule_after _ _ _) as [r q]. destruct (negb _); simpl; [by apply weather_events|].
  apply weather_record. eapply weather_node; [exact E|by destruct k|]. by apply weather_events.
Qed.

Lemma weather_send s f t bytes delay : same_weather s (send s f t bytes delay).2.
Proof using.
  unfold send. destruct (sim_nodes s !! f) as [x|], (sim_nodes s !! t) as [y|]; try done.
  destruct (_ || _); [done|]. destruct (_ <? blen bytes); [done|].
  assert (Hl : same_weather s (put_link s f t (link s f t))) by by apply weather_link.
  assert (Hg : link (put_link s f t (link s f t)) f t = link s f t) by (unfold link at 1; simpl; by rewrite lookup_insert_eq).
  destruct (lf_partitioned (ls_fault (link s f t))) eqn:Ep; [by apply weather_record|].
  repeat (match goal with |- same_weather _ (snd (if ?b then _ else _)) => destruct b end);
    cbn [snd enqueue_copies]; try apply weather_record; try done.
  - apply weather_link; [|done]. rewrite Hg. unfold weather. simpl. by rewrite Ep.
  - match goal with |- same_weather s (set_total_network_bytes ?x _) => transitivity x; [|by apply weather_parts] end.
    apply weather_link; [|apply weather_events; etrans; [exact Hl|by apply weather_parts]].
    unfold weather. simpl. unfold link; simpl; by rewrite !lookup_insert_eq.
Qed.

Lemma weather_write s n bytes latency : same_weather s (submit_write s n bytes latency).2.
Proof using.
  unfold submit_write. destruct (sim_nodes s !! n) as [st|] eqn:E; [|done].
  repeat (match goal with |- same_weather _ (snd (if ?b then _ else _)) => destruct b end);
    simpl; try apply weather_record; try done.
  destruct (write_outcome _ _). destruct (schedule_at _ _ _) as [r q].
  assert (Hq : same_weather s (set_events (set_next_storage_id s (next_id (sim_next_storage_id s))) q)) by by apply weather_parts.
  destruct (negb _); simpl; [done|]. apply weather_record. by eapply weather_node.
Qed.

Lemma weather_flush s n latency : same_weather s (submit_flush s n latency).2.
Proof using.
  unfold submit_flush. destruct (sim_nodes s !! n) as [st|] eqn:E; [|done].
  repeat (match goal with |- same_weather _ (snd (if ?b then _ else _)) => destruct b end);
    simpl; try apply weather_record; try done.
  all: destruct (schedule_at _ _ _) as [r q].
  all: assert (Hq : same_weather s (set_events (set_next_storage_id s (next_id (sim_next_storage_id s))) q)) by by apply weather_parts.
  all: destruct (negb _); simpl; [done|]; apply weather_record; by eapply weather_node.
Qed.

Lemma weather_dispatch s p : same_weather s (dispatch_payload s p).2.
Proof using.
  destruct p as [t|e|e|u]; simpl.
  - unfold fire_timer. destruct (negb _); simpl; by apply weather_record.
  - unfold deliver_network. destruct (lf_partitioned _); [|destruct (_ || _)]; simpl; by apply weather_record, weather_release.
  - unfold complete_storage. destruct (sim_nodes s !! _) as [st|] eqn:E; [|by apply weather_record].
    destruct (_ || _); [by apply weather_record|]. destruct (sd_pending _ !! _); [|by apply weather_record].
    destruct (complete_operation _ _ _ _) as [k d]. simpl. apply weather_record. by eapply weather_node.
  - unfold deliver_user. destruct (negb _); simpl; by apply weather_record.
Qed.

Lemma weather_next s : same_weather s (next s).2.
Proof using.
  unfold next. generalize (length (q_heap (sim_events s))). intros n. revert s.
  induction n as [|n IH]; intros s; simpl; destruct (pop_next _) as [[e|] q]; try done.
  pose proof (weather_dispatch (set_events s q) (ev_payload e)) as Hd.
  assert (Hq : same_weather s (set_events s q)) by by apply weather_events.
  destruct (dispatch_payload _ _) as [[p|] s']; simpl in *; etrans; [exact Hq|exact Hd|exact Hq|]. etrans; [exact Hd|apply IH].
Qed.

(** The latencies of a member's disk. *)
Definition disk_latency c (n : NodeId) : option (Tick * Tick) :=
  (fun rt => (rt_storage_write_latency rt, rt_storage_flush_latency rt)) <$> runtime c n.

(** No fault came or went. *)
Record steady c c' : Prop := {
  sy_config : im_config c' = im_config c;
  sy_weather : same_weather (im_simulator c) (im_simulator c');
  sy_latency : forall n, disk_latency c' n = disk_latency c n;
}.

#[global] Instance steady_pre : PreOrder steady.
Proof using.
  split; [by constructor|]. intros c1 c2 c3 [A1 W1 L1] [A2 W2 L2].
  constructor; [by rewrite A2|by etrans|intros n; by rewrite L2].
Qed.

Lemma steady_core c c' : core c' = core c -> steady c c'.
Proof using.
  intros (E1 & E2 & E3 & _)%core_fields. constructor; [done|by rewrite E2|]. intros n. unfold disk_latency, runtime. by rewrite E3.
Qed.

Lemma steady_after c c1 c' : core c' = core c1 -> steady c c1 -> steady c c'.
Proof using. intros Hc Hs. etrans; [exact Hs|by apply steady_core]. Qed.

Lemma steady_simulator c c1 s : same_weather (im_simulator c1) s -> steady c c1 -> steady c (set_simulator c1 s).
Proof using. intros Hs Hc. etrans; [exact Hc|]. by constructor. Qed.

Lemma steady_runtime c c1 n found found' :
  runtime c1 n = Some found -> rt_storage_write_latency found' = rt_storage_write_latency found ->
  rt_storage_flush_latency found' = rt_storage_flush_latency found -> steady c c1 -> steady c (put_runtime c1 n found').
Proof using.
  intros E Hw Hf Hc. etrans; [exact Hc|]. constructor; [done..|]. intros m. unfold disk_latency, runtime in *. simpl.
  destruct (decide (m = n)) as [-> |]; [rewrite lookup_insert_eq, E; simpl; by rewrite Hw, Hf|by rewrite lookup_insert_ne].
Qed.

(** A computation of the cluster during which no fault comes or goes. *)
Definition calmly c (r : Throw Impl) : Prop := forall c', r = inr c' -> steady c c'.

Lemma calmly_ret c c1 : steady c c1 -> calmly c (inr c1).
Proof using. by intros Hs c' [= <-]. Qed.

Lemma calmly_throw c e : calmly c (inl e).
Proof using. done. Qed.

Lemma calmly_bind c r (k : Impl -> Throw Impl) :
  calmly c r -> (forall c1, steady c c1 -> calmly c (k c1)) -> calmly c (tbind r k).
Proof using. intros Hr Hk. destruct r as [e|c1]; [done|]. by apply Hk, Hr. Qed.

Lemma calmly_from c c1 r : steady c c1 -> calmly c1 r -> calmly c r.
Proof using. intros Hs Hr c' E. etrans; [exact Hs|by apply Hr]. Qed.

Lemma verify_calmly c : calmly c (verify_if_enabled c).
Proof using. intros c' Hv. by apply steady_core, verify_core. Qed.

Lemma steady_record c c1 source kind n p t i tok b d : steady c c1 -> steady c (record c1 source kind n p t i tok b d).
Proof using. apply steady_after, record_core_eq. Qed.

Lemma steady_sync c c1 : steady c c1 -> steady c (sync_simulator_trace c1).
Proof using. apply steady_after, sync_core. Qed.

Lemma steady_emplace c c1 id p : steady c c1 -> steady c (emplace_persist c1 id p).
Proof using. intros Hs. etrans; [exact Hs|]. unfold emplace_persist. case_match; by constructor. Qed.
#[local] Hint Resolve steady_record steady_sync steady_emplace steady_simulator calmly_ret calmly_throw
  weather_arm weather_send weather_write weather_flush : weather.
#[local] Hint Extern 1 (steady _ _) => reflexivity : weather.

Section draining.
Context (drain : Impl -> Throw Impl) (Hdrain : forall c, calmly c (drain c)).

Lemma deliver_calmly c n e : calmly c (deliver_with drain c n e).
Proof using Hdrain.
  unfold deliver_with. destruct (runtime c n) as [found|] eqn:E; [|auto with weather].
  destruct (rt_raft found) as [raft|]; [|auto with weather]. destruct (negb _); [auto with weather|].
  destruct (step e raft) as [[[u raft'] es]|x]; [|auto with weather]. unfold enqueue_with.
  assert (Hs : steady c (set_effect_queue (put_runtime c n (set_raft found (Some raft')))
    (im_effect_queue (put_runtime c n (set_raft found (Some raft'))) ++ (pair n <$> es)))).
  { transitivity (put_runtime c n (set_raft found (Some raft'))); [by eapply steady_runtime|by constructor]. }
  cbv zeta. destruct (im_draining_effects _); [by apply calmly_ret|]. by eapply calmly_from.
Qed.

Lemma fail_calmly c n op what : calmly c (fail_storage_with drain c n op what).
Proof using Hdrain. eapply calmly_from; [|apply deliver_calmly]. auto with weather. Qed.

Lemma persist_calmly c n op batch : calmly c (handle_persist drain c n op batch).
Proof using Hdrain.
  unfold handle_persist. destruct (runtime c n) as [found|]; [|auto with weather].
  destruct (rt_raft found) as [raft|]; [|auto with weather]. destruct (negb _); [auto with weather|].
  destruct (encode_wal_frame _ _ _) as [e|f]; [by apply fail_calmly|].
  pose proof (weather_write (im_simulator c) n (ef_bytes f) (rt_storage_write_latency found)) as Hw.
  destruct (submit_write _ _ _ _) as [r s]. simpl in Hw. cbv zeta.
  destruct (sub_status r); try (eapply calmly_from; [|apply fail_calmly]); auto 7 with weather.
Qed.

Lemma send_steady c n env : steady c (handle_send c n env).
Proof using.
  unfold handle_send. cbv zeta.
  match goal with |- context [Codec.encode_message _ (cc_codec (im_config ?x))] =>
    assert (Hv : steady c x) by (apply steady_core; repeat case_match; by rewrite ?register_vote_core); revert Hv; generalize x end.
  intros c1 Hv. destruct (Codec.encode_message _ _) as [bytes|e o].
  - pose proof (weather_send (im_simulator c1) (env_from env) (env_to env) bytes (cc_network_delay (im_config c1))) as Hw.
    destruct (send _ _ _ _ _) as [r s]. simpl in Hw. auto 7 with weather.
  - apply steady_record. eapply steady_after; [apply adapter_failure_core|done].
Qed.

Lemma timer_steady c n t : steady c (handle_timer c n t).
Proof using.
  unfold handle_timer. destruct (runtime c n) as [found0|] eqn:E; [|done]. destruct (rt_raft found0); [|done].
  cbv zeta. destruct (negb _); [done|].
  assert (Hj : rt_storage_write_latency (jittered (im_config c) found0 t).2 = rt_storage_write_latency found0 /\
    rt_storage_flush_latency (jittered (im_config c) found0 t).2 = rt_storage_flush_latency found0).
  { unfold jittered. destruct (_ && _); [|done]. destruct (inclusive _ _ _) as [j g]. by destruct (tick_add_overflows _ _). }
  destruct (jittered (im_config c) found0 t) as [delay found]. simpl in Hj. destruct Hj as [Hw Hf].
  assert (Hp : forall c1 x, im_nodes c1 !! n = Some x -> rt_storage_write_latency x = rt_storage_write_latency found ->
    rt_storage_flush_latency x = rt_storage_flush_latency found -> steady c c1 -> forall k b, steady c (put_runtime c1 n (set_timer_binding found k b))).
  { intros c1 x Hx H1 H2 Hs k b. eapply steady_runtime; [exact Hx|by destruct k|by destruct k|done]. }
  assert (H0 : steady c (put_runtime c n found)) by by eapply steady_runtime.
  destruct delay as [delay|]; [|by apply steady_record].
  pose proof (weather_arm (im_simulator (put_runtime c n found)) n (tr_kind t) delay) as Ha.
  destruct (arm_timer _ _ _ _) as [token s]. simpl in Ha.
  assert (H1 : steady c (sync_simulator_trace (set_simulator (put_runtime c n found) s))) by auto with weather.
  assert (Hx : im_nodes (sync_simulator_trace (set_simulator (put_runtime c n found) s)) !! n = Some found).
  { destruct (core_fields _ _ (sync_core (set_simulator (put_runtime c n found) s))) as (_ & _ & -> & _). simpl. by rewrite lookup_insert_eq. }
  destruct token as [token|]; [by apply steady_record; eapply Hp|].
  assert (Hr : forall what, steady c (set_adapter_failure (sync_simulator_trace (set_simulator (put_runtime c n found) s)) what)).
  { intros what. eapply steady_after; [apply adapter_failure_core|done]. }
  destruct (timer_binding _ _); [destruct (_ =? _)|]; apply steady_record; auto. by eapply Hp.
Qed.

Lemma effect_calmly c n e : calmly c (handle_effect drain c n e).
Proof using Hdrain.
  destruct e; simpl; [by apply persist_calmly|apply calmly_ret, send_steady|apply calmly_ret, timer_steady|..]; apply calmly_ret, steady_record, steady_core.
  - by rewrite retain_core.
  - case_match; [by rewrite register_leader_core|done].
Qed.
End draining.

Lemma turns_calmly n c : calmly c (drain_turns n c).
Proof using.
  revert c. induction n as [|n IH]; intros c; [by apply calmly_ret|]. simpl.
  destruct (im_effect_queue c) as [|[node e] q]; [by apply calmly_ret|].
  apply calmly_bind; [|intros c1 Hs; by eapply calmly_from].
  eapply calmly_from; [|apply effect_calmly; intros c1; by apply calmly_ret]. apply steady_sync. by constructor.
Qed.

Lemma drain_calmly c : calmly c (drain_effects c).
Proof using.
  unfold drain_effects. apply calmly_bind.
  - eapply calmly_from; [|unfold drain_loop; apply calmly_bind; [apply turns_calmly|intros c1 Hs; eapply calmly_from; [exact Hs|apply turns_calmly]]].
    by constructor.
  - intros c1 Hs. apply calmly_ret. transitivity (sync_simulator_trace c1); [by apply steady_sync|by constructor].
Qed.

Lemma flush_calmly c e b : calmly c (start_flush c e b).
Proof using.
  unfold start_flush, fail_storage. destruct (runtime c _) as [node|]; [|apply fail_calmly, drain_calmly].
  destruct (rt_raft node); [|apply fail_calmly, drain_calmly]. destruct (negb _); [apply fail_calmly, drain_calmly|].
  pose proof (weather_flush (im_simulator c) (se_node e) (rt_storage_flush_latency node)) as Hw.
  destruct (submit_flush _ _ _) as [result s]. simpl in Hw. cbv zeta.
  destruct (sub_status result); try (eapply calmly_from; [|apply fail_calmly, drain_calmly]); auto 7 with weather.
Qed.

Lemma finish_calmly c e b : calmly c (finish_persist c e b).
Proof using.
  unfold finish_persist, fail_storage, deliver. destruct (runtime c _) as [node|] eqn:E; [|auto with weather].
  destruct (rt_raft node); [|auto with weather]. destruct (scan_wal_bytes _ _ _) as [x|x]; [apply fail_calmly, drain_calmly|].
  destruct (_ || _); [apply fail_calmly, drain_calmly|]. eapply calmly_from; [|apply deliver_calmly, drain_calmly].
  apply steady_record. by eapply steady_runtime.
Qed.

Lemma storage_calmly c e : calmly c (handle_storage_event c e).
Proof using.
  unfold handle_storage_event. destruct (im_pending_persists c !! _) as [b|]; [|auto with weather]. cbv zeta.
  assert (Hs : steady c (set_pending_persists c (delete (se_operation_id e) (im_pending_persists c)))) by by constructor.
  destruct (_ || _); [auto with weather|]. destruct (negb _); [|destruct (pp_stage b)];
    (eapply calmly_from; [exact Hs|]); [apply fail_calmly, drain_calmly|apply flush_calmly|apply finish_calmly].
Qed.

Lemma payload_calmly c p : calmly c (step_payload c p).
Proof using.
  destruct p as [t|e|e|u]; simpl; [| |apply storage_calmly|auto with weather].
  - unfold step_timer. destruct (runtime c _) as [node|] eqn:E; [|auto with weather]. destruct (rt_raft node); [|auto with weather].
    destruct (timer_binding _ _); [|auto with weather]. destruct (_ && _); [|auto with weather].
    eapply calmly_from; [|apply deliver_calmly, drain_calmly]. apply steady_record. by eapply steady_runtime; [exact E|destruct (te_kind t)..|].
  - unfold step_network. destruct (Codec.decode_message _ _); [|auto with weather].
    eapply calmly_from; [|apply deliver_calmly, drain_calmly]. auto with weather.
Qed.

Lemma step_steady c b c' : cluster_step c = inr (b, c') -> steady c c'.
Proof using.
  unfold cluster_step. pose proof (weather_next (im_simulator c)) as Hn. destruct (next _) as [e s]. simpl in Hn.
  assert (Hs : steady c (sync_simulator_trace (set_simulator c s))) by auto with weather.
  destruct e as [e|]; [|by intros [= _ <-]]. intros (c2 & H2 & Hr)%tbind_inv. apply tbind_inv in Hr as (c3 & H3 & Hr).
  injection Hr as _ <-. etrans; [exact Hs|]. etrans; [by eapply payload_calmly|]. etrans; [by apply steady_sync|]. by eapply verify_calmly.
Qed.

Lemma submit_steady c n cmd t c' : submit c n cmd = inr (t, c') -> steady c c'.
Proof using.
  unfold submit. cbv zeta. destruct (_ =? 0); [done|]. intros (c4 & H4 & Hr)%tbind_inv.
  apply tbind_inv in Hr as (c5 & H5 & Hr). injection Hr as _ <-. etrans; [|by eapply verify_calmly].
  revert H4; match goal with |- context [runtime ?x n] =>
    assert (Hs : steady c x) by (apply steady_record; by constructor); revert Hs; generalize x end; intros c2 Hs H4.
  assert (Hd : forall r, steady c (retain_reply c2 r n)) by (intros ?; eapply steady_after; [apply retain_core|done]).
  destruct (runtime c2 n) as [found|]; [|injection H4 as <-; by apply steady_record].
  destruct (rt_raft found); [|injection H4 as <-; by apply steady_record].
  destruct (negb _); [injection H4 as <-; by apply steady_record|]. etrans; [exact Hs|].
  by eapply (deliver_calmly drain_effects drain_calmly).
Qed.
End weather.

Section sim.
Context `{HeapLaws}.
Implicit Types (c : Impl) (s : SessionId).

Lemma put_demo_fits s n v : session_fits s -> u64 n -> command_fits (put_demo s n v).
Proof. by intros [? ?] ?. Qed.
#[local] Hint Resolve put_demo_fits : plays.
#[local] Hint Extern 1 (u64 _) => done : plays.

Lemma plays_saturate c n s ks : session_fits s -> plays c (saturate c n s ks).
Proof.
  intros Hs. revert c. induction ks as [|i ks IH]; intros c; [apply plays_ret|]. cbn [saturate].
  apply plays_bind; [|intros t c1 _; apply IH]. apply plays_submit, put_demo_fits; [|done]. destruct Hs as [Hh Hl]. split; [done|].
  simpl. unfold u64, add64, wrap64. pose proof (N.mod_lt (low s + i) u64_size ltac:(done)) as Hm. unfold u64_max. lia.
Qed.
#[local] Hint Resolve plays_saturate : plays.

Lemma plays_scenario name c n s : session_fits s -> plays c (run_scenario name c n s).
Proof.
  intros Hs. unfold run_scenario.
  repeat (match goal with |- plays _ (if ?b then _ else _) => destruct b end).
  - unfold run_leader_crash. play.
  - unfold run_partition. play.
  - unfold run_partition. play.
  - unfold run_ambiguous_retry. cbv zeta. play. eapply plays_led; [apply led_take|]. play.
    repeat case_match; eauto with plays.
  - unfold run_torn_wal. play. destruct a3; [|apply plays_fail]. play.
  - unfold run_slow_follower. cbv zeta. destruct (_ =? _); [apply plays_fail|]. play.
  - unfold run_saturation. play. cbv zeta. destruct (_ <? _); [apply plays_fail|].
    match goal with |- context [check_invariants ?x] => pose proof (led_check x) as Hc; destruct (check_invariants x) as [v c4] end.
    simpl in Hc. destruct (negb _); [apply plays_fail|]. eapply plays_led; [exact Hc|]. play.
    repeat case_match; play.
  - unfold run_slow_disk. cbv zeta. destruct (_ =? _); [apply plays_fail|]. play.
Qed.

(** *** What a scenario has shown when it ends *)

(** Only events of the simulation happened. *)
Definition stepped c c' : Prop := exists n, cluster_calls c (replicate n do_step) = inr c'.

(** The request was submitted to the node, and after some events answered with success. *)
Definition answered c (node : NodeId) (cmd : ClientCommand) (reply : ClientReply) c' : Prop :=
  exists t c1, submit c node cmd = inr (t, c1) /\ stepped c1 c' /\ reply_for c' t = Some reply /\ cr_status reply = status_ok.

Definition down c (node : NodeId) : Prop := is_alive (im_simulator c) node = false.
Definition cut c (f t : NodeId) : bool := lf_partitioned (link_fault (im_simulator c) f t).
Definition delay c (f t : NodeId) : Tick := lf_additional_delay (link_fault (im_simulator c) f t).

(** The node reaches no other member; whether the others reach it is [both]. *)
Definition severed (both : bool) c (node : NodeId) : Prop :=
  forall p, p ∈ cc_members (im_config c) -> p <> node -> cut c node p = true /\ cut c p node = both.

(** The leader was down from the crash until its replacement had committed, came back and
    has the value. *)
Definition crash_outcome s (first : NodeId) c0 (r : ScenarioSummary) c : Prop :=
  exists a c1 c2 c3 l d c4 c5,
    answered c0 first (put_demo s 1 "before-crash") a c1 /\
    crash c1 first keep_nothing = inr (true, c2) /\ down c2 first /\
    stepped c2 c3 /\ l ∈ leaders c3 true /\ l <> first /\
    answered c3 l (put_demo s 2 "after-crash") d c4 /\ down c4 first /\
    restart c4 first = inr (true, c5) /\ stepped c5 c /\ cluster_value c first demo_key = Some "after-crash" /\
    r = mkScenarioSummary first (Some l) (cr_log_index a) (cr_log_index d).

(** The leader was cut off while it got a request it could not commit and until another
    leader had committed that request's rival; in the end it has the rival's value. *)
Definition partition_outcome (symmetric : bool) s (first : NodeId) c0 (r : ScenarioSummary) c : Prop :=
  exists a c1 c2 t c3 c4 l d c5,
    answered c0 first (put_demo s 1 "before-partition") a c1 /\
    led c1 c2 /\ severed symmetric c2 first /\
    submit c2 first (put_demo s 2 "ambiguous-partition-write") = inr (t, c3) /\
    stepped c3 c4 /\ l ∈ leaders c4 true /\ l <> first /\
    answered c4 l (put_demo s 2 "after-partition") d c5 /\ severed symmetric c5 first /\
    led c5 c /\ cluster_value c first demo_key = Some "after-partition" /\
    r = mkScenarioSummary first (Some l) (cr_log_index a) (cr_log_index d).

(** The retry was answered with the index of the first answer, and the log has not grown. *)
Definition retry_outcome s (first : NodeId) c0 (r : ScenarioSummary) c : Prop :=
  exists a c1 b d e,
    answered c0 first (put_demo s 1 "applied-once") a c1 /\
    snapshot (take_replies c1).2 first = Some b /\
    answered (take_replies c1).2 first (put_demo s 1 "applied-once") d c /\
    snapshot c first = Some e /\ sn_last_log_index e = sn_last_log_index b /\ cr_log_index d = cr_log_index a /\
    r = mkScenarioSummary first None (cr_log_index a) (cr_log_index d).

(** The leader crashed while a request of it was on its way to the disk, and came back;
    a leader committed afterwards and the node that crashed has the value. *)
Definition torn_outcome s (first : NodeId) c0 (r : ScenarioSummary) c : Prop :=
  exists a c1 t c2 c3 c4 c5 ready d c6,
    answered c0 first (put_demo s 1 "before-torn-tail") a c1 /\
    submit c1 first (put_demo s 2 "torn-unacknowledged") = inr (t, c2) /\
    crash c2 first (mkStorageCrashSpec 0 20) = inr (true, c3) /\ down c3 first /\
    restart c3 first = inr (true, c4) /\ stepped c4 c5 /\ the_leader c5 true = Some ready /\
    answered c5 ready (put_demo s 2 "after-torn-tail") d c6 /\ stepped c6 c /\
    cluster_value c first demo_key = Some "after-torn-tail" /\
    r = mkScenarioSummary first (Some ready) (cr_log_index a) (cr_log_index d).

(** The request was committed and 250 events passed with the links of a follower slow;
    the follower has the value. *)
Definition slow_link_outcome s (first : NodeId) c0 (r : ScenarioSummary) c : Prop :=
  exists slow c1 a c2 k c3,
    let slowed c := delay c first slow = 25 /\ delay c slow first = 25 in
    slow ∈ cc_members (im_config c0) /\ slow <> first /\ led c0 c1 /\ slowed c1 /\
    answered c1 first (put_demo s 1 "with-slow-follower") a c2 /\ cluster_run 250 c2 = inr (k, c3) /\ slowed c3 /\
    led c3 c /\ cluster_value c slow demo_key = Some "with-slow-follower" /\
    r = mkScenarioSummary first None (cr_log_index a) (cr_log_index a).

(** The request was committed and reached a follower whose disk was slow to the end. *)
Definition slow_disk_outcome s (first : NodeId) c0 (r : ScenarioSummary) c : Prop :=
  exists slow c1 a c2,
    slow ∈ cc_members (im_config c0) /\ slow <> first /\ led c0 c1 /\ disk_latency c1 slow = Some (10, 25) /\
    answered c1 first (put_demo s 1 "with-slow-disk") a c2 /\ stepped c2 c /\ disk_latency c slow = Some (10, 25) /\
    cluster_value c slow demo_key = Some "with-slow-disk" /\
    r = mkScenarioSummary first None (cr_log_index a) (cr_log_index a).

(** The request number [i] of the saturation. *)
Definition saturating s (first : NodeId) (i : N) : ClusterCall :=
  do_submit first (put_demo (mkSessionId (high s) (add64 (low s) i)) 1 ("saturated-" +:+ dec i)).

(** The leader got twelve requests while it was cut off; 2000 events later the queue was
    within its bound and the invariants held; a leader committed afterwards. *)
Definition saturation_outcome s (first : NodeId) c0 (r : ScenarioSummary) c : Prop :=
  exists c1 c2 k c3 c4 ready sn a,
    led c0 c1 /\ severed true c1 first /\
    cluster_calls c1 (saturating s first <$> (N.of_nat <$> seq 1 12)) = inr c2 /\
    cluster_run 2000 c2 = inr (k, c3) /\ severed true c3 first /\
    qd_scheduled_events (queue_depth c3) <= max_pending_events (sc_events (cc_simulator (im_config c3))) /\
    (check_invariants c3).1 = None /\ led c3 c4 /\ the_leader c4 true = Some ready /\
    snapshot c4 ready = Some sn /\ answered c4 ready (put_demo s 1 "after-saturation") a c /\
    r = mkScenarioSummary first (Some ready) (sn_commit_index sn) (cr_log_index a).

Definition outcome (name : string) : SessionId -> NodeId -> Impl -> ScenarioSummary -> Impl -> Prop :=
  if String.eqb name "leader-crash" then crash_outcome
  else if String.eqb name "symmetric-partition" then partition_outcome true
  else if String.eqb name "asymmetric-partition" then partition_outcome false
  else if String.eqb name "ambiguous-retry" then retry_outcome
  else if String.eqb name "torn-wal" then torn_outcome
  else if String.eqb name "slow-follower" then slow_link_outcome
  else if String.eqb name "saturation" then saturation_outcome
  else slow_disk_outcome.

(** **** The waits *)

Lemma stepped_refl c : stepped c c.
Proof. by exists 0%nat. Qed.
#[local] Hint Resolve stepped_refl : plays.

Lemma stepped_step c b c1 c' : cluster_step c = inr (b, c1) -> stepped c1 c' -> stepped c c'.
Proof. intros Hs [n Hn]. exists (S n). simpl. by rewrite Hs. Qed.

Lemma stepped_steady c c' : stepped c c' -> steady c c'.
Proof.
  intros [n Hn]. revert c Hn. induction n as [|n IH]; intros c Hn; simpl in Hn; [by injection Hn as <-|].
  apply tbind_inv in Hn as (c1 & H1 & Hn). apply tbind_inv in H1 as ([b c2] & H1 & [= <-]).
  etrans; [by eapply step_steady|by apply IH].
Qed.

Lemma stepped_led c c' : stepped c c' -> led c c'.
Proof. intros [n Hn]. exists (replicate n do_step). split; [by apply Forall_replicate|done]. Qed.

Lemma run_until_shows p n c b c' : run_until p n c = inr (b, c') -> stepped c c' /\ b = p c'.
Proof.
  unfold run_until. destruct (p c) eqn:Hp; [intros [= <- <-]; eauto with plays|]. generalize (N.to_nat n). clear n Hp. intros n. revert c.
  induction n as [|n IH]; intros c; simpl; [intros [= <- <-]; eauto with plays|]. intros ([x c1] & Hs & Hr)%tbind_inv. cbn [fst snd] in Hr.
  assert (Hend : forall y, inr (y, c1) = inr (b, c') :> Throw _ -> y = p c1 -> stepped c c' /\ b = p c').
  { intros y [= <- <-] ->. split; [|done]. by eapply stepped_step; [|apply stepped_refl]. }
  destruct x; cbn [negb] in Hr; [|by eapply Hend]. destruct (p c1) eqn:Hp; [by eapply Hend|].
  destruct (IH c1 Hr) as [Hi Hb]. split; [by eapply stepped_step|done].
Qed.

Lemma run_stepped n c k c' : cluster_run n c = inr (k, c') -> stepped c c'.
Proof.
  revert c k. induction n as [|n IH]; intros c k; simpl; [intros [= _ <-]; apply stepped_refl|].
  intros ([x c1] & Hs & Hr)%tbind_inv. cbn [fst snd] in Hr. destruct x; cbn [negb] in Hr.
  - apply tbind_inv in Hr as ([k1 c2] & Hr & [= _ <-]). eapply stepped_step; [exact Hs|by eapply IH].
  - injection Hr as _ <-. eapply stepped_step; [exact Hs|apply stepped_refl].
Qed.

Lemma commit_answered c n cmd reply c' : commit_command c n cmd = inr (reply, c') -> answered c n cmd reply c'.
Proof.
  unfold commit_command, run_until_reply. intros ([t c1] & Ht & Hr)%tbind_inv. cbn [fst snd] in Hr.
  apply tbind_inv in Hr as ([b c2] & [Hs Hb]%run_until_shows & Hr). cbn [fst snd] in Hr. destruct b; [|done]. simpl in Hr.
  destruct (reply_for c2 t) as [x|] eqn:Hx; [|done]. destruct (bool_decide _) eqn:Ho; [|done]. injection Hr as <- <-.
  exists t, c1. split_and!; [done..|]. by apply bool_decide_eq_true in Ho.
Qed.

Lemma answered_steady c n cmd reply c' : answered c n cmd reply c' -> steady c c'.
Proof. intros (t & c1 & Hs & Hst & _). etrans; [by eapply submit_steady|by apply stepped_steady]. Qed.

Lemma wait_value_shows c n v u c' : wait_value c n v = inr (u, c') -> stepped c c' /\ cluster_value c' n demo_key = Some v.
Proof.
  unfold wait_value. intros ([[] c1] & Hr & Hw)%tbind_inv; [|done]. simpl in Hw. injection Hw as _ <-.
  apply run_until_shows in Hr as [Hs Hp]. split; [done|]. symmetry in Hp. by apply bool_decide_eq_true in Hp.
Qed.

Lemma wait_replacement_shows c old l c' :
  wait_replacement c old = inr (l, c') -> stepped c c' /\ l ∈ leaders c' true /\ l <> old.
Proof.
  unfold wait_replacement. intros ([[] c1] & Hr & Hw)%tbind_inv; [|done]. simpl in Hw.
  destruct (another_leader old c1) as [l'|] eqn:Hl; [|done]. injection Hw as <- <-. apply run_until_shows in Hr as [Hs _].
  unfold another_leader in Hl. apply List.find_some in Hl as [Hin Hne]. split_and!; [done|by apply list_elem_of_In|].
  by apply negb_true_iff, N.eqb_neq in Hne.
Qed.

Lemma run_until_leader_shows n b c w c' : run_until_leader n b c = inr (w, c') -> stepped c c' /\ w = the_leader c' b.
Proof. unfold run_until_leader. intros ([x c1] & [Hs _]%run_until_shows & [= <- <-])%tbind_inv. done. Qed.

Lemma demand_true r what u c : demand r what = inr (u, c) -> r = inr (true, c).
Proof. unfold demand. intros ([[] c1] & -> & Hr)%tbind_inv; [|done]. simpl in Hr. by injection Hr as _ <-. Qed.

(** **** The faults *)

Lemma crash_node_down (s s' : Simulator) n spec : crash_node s n spec = (true, s') -> is_alive s' n = false.
Proof.
  intros Hc. assert (Hs : is_Some (sim_nodes s !! n)) by (unfold crash_node in Hc; by destruct (sim_nodes s !! n)).
  destruct Hs as [st Hst]. unfold is_alive. by rewrite (crash_node_state s n st spec s' Hst Hc).
Qed.

Lemma crash_down c n spec c' : crash c n spec = inr (true, c') -> down c' n.
Proof.
  unfold crash, down. destruct (runtime c n) as [found|]; [|done]. destruct (rt_raft found); [|done].
  destruct (crash_node _ _ _) as [b s] eqn:Hd.
  destruct b; simpl; [|done]. intros (c5 & Hv & [= <-])%tbind_inv. apply verify_core, core_fields in Hv as (_ & -> & _).
  match goal with |- is_alive (im_simulator (record ?x _ _ _ _ _ _ _ _ _)) _ = _ =>
    destruct (core_fields _ _ (record_core_eq x source_adapter "process_crash" n 0 (current_term (ws_hard_state (rt_wal_state found)))
      (ws_commit_index (rt_wal_state found)) 0 0 "")) as (_ & -> & _) end.
  simpl. destruct (core_fields _ _ (sync_core (set_simulator c s))) as (_ & -> & _). by eapply crash_node_down.
Qed.

Lemma steady_down c c' n : steady c c' -> down c n -> down c' n.
Proof. unfold down. by intros [_ [-> _] _]. Qed.

Lemma steady_cut c c' f t : steady c c' -> cut c' f t = cut c f t.
Proof. intros [_ [_ Hl] _]. specialize (Hl f t). unfold weather in Hl. by injection Hl. Qed.

Lemma steady_delay c c' f t : steady c c' -> delay c' f t = delay c f t.
Proof. intros [_ [_ Hl] _]. specialize (Hl f t). unfold weather in Hl. by injection Hl. Qed.

Lemma steady_severed b c c' n : steady c c' -> severed b c n -> severed b c' n.
Proof. intros Hs Hv p Hp Hne. rewrite !(steady_cut _ _ _ _ Hs). apply Hv; [|done]. by rewrite <- (sy_config _ _ Hs). Qed.

Lemma forward_shows c r b c' :
  forward c r = inr (b, c') -> b = r.1 /\ im_config c' = im_config c /\ im_simulator c' = r.2.
Proof.
  unfold forward. destruct (core_fields _ _ (sync_core (set_simulator c r.2))) as (E1 & E2 & _).
  destruct r as [[] s]; simpl in *.
  - intros (c2 & (F1 & F2 & _)%verify_core%core_fields & [= <- <-])%tbind_inv. rewrite F1, F2. done.
  - by intros [= <- <-].
Qed.

Lemma fault_links (s : Simulator) f t g tok d f' t' :
  link_fault (set_fault s f t g tok d).2 f' t' = if decide ((f', t') = (f, t)) then g (link_fault s f t) else link_fault s f' t'.
Proof.
  unfold set_fault. cbn [snd]. unfold link_fault at 1.
  rewrite record_links. simpl. case_decide as E; [|by rewrite lookup_insert_ne by congruence].
  injection E as -> ->. rewrite lookup_insert_eq. simpl. by rewrite link_fault_link.
Qed.

Lemma partition_shows c f t b c' :
  cluster_set_partition c f t b = inr (true, c') ->
  im_config c' = im_config c /\ forall f' t', cut c' f' t' = if decide ((f', t') = (f, t)) then b else cut c f' t'.
Proof.
  intros (Hb & Hc & Hs)%forward_shows. split; [done|]. intros f' t'. unfold cut. rewrite Hs. unfold set_partition in *.
  destruct (_ || _); [done|]. rewrite fault_links. by case_decide.
Qed.

Lemma delay_shows c f t d c' :
  cluster_set_link_delay c f t d = inr (true, c') ->
  im_config c' = im_config c /\ forall f' t', delay c' f' t' = if decide ((f', t') = (f, t)) then d else delay c f' t'.
Proof.
  intros (Hb & Hc & Hs)%forward_shows. split; [done|]. intros f' t'. unfold delay. rewrite Hs. unfold set_link_delay in *.
  destruct (_ || _); [done|]. rewrite fault_links. by case_decide.
Qed.

Lemma latency_shows c n w f c' : set_storage_latency c n w f = inr (true, c') -> disk_latency c' n = Some (w, f).
Proof.
  unfold set_storage_latency. destruct (runtime c n) as [found|]; [|done]. destruct (rt_raft found); [|done].
  destruct (negb _); [done|]. intros (c3 & Hv & [= <-])%tbind_inv. apply verify_core, core_fields in Hv as (_ & _ & Hn & _).
  unfold disk_latency, runtime. rewrite Hn. unfold record. repeat case_match; simpl; by rewrite lookup_insert_eq.
Qed.

(** The links out of the node are cut, and the others are as before. *)
Lemma cut_links_shows c n ps u c' :
  cut_links c n ps = inr (u, c') ->
  im_config c' = im_config c /\ (forall p, p ∈ ps -> p <> n -> cut c' n p = true) /\
  (forall f t, cut c f t = true -> cut c' f t = true) /\ forall f t, f <> n -> cut c' f t = cut c f t.
Proof.
  revert c. induction ps as [|p ps IH]; intros c; cbn [cut_links].
  { intros [= _ <-]. split_and!; [done| |done|done]. by intros p ?%not_elem_of_nil. }
  destruct (N.eqb_spec p n) as [-> |Hne].
  { intros (A & B & C & D)%IH. split_and!; try done. intros q [-> |Hq]%elem_of_cons Hn; [done|auto]. }
  intros ([u1 c1] & [Hc Hp]%demand_true%partition_shows & (A & B & C & D)%IH)%tbind_inv. cbn [snd] in *.
  split_and!; [by rewrite A| | |].
  - intros q [-> |Hq]%elem_of_cons Hn; [|auto]. apply C. rewrite Hp. by rewrite decide_True.
  - intros f t Hf. apply C. rewrite Hp. by case_decide.
  - intros f t Hf. rewrite D, Hp by done. by rewrite decide_False by congruence.
Qed.

Lemma isolate_from_shows c n ps c' :
  isolate_from c n true ps = inr (true, c') ->
  im_config c' = im_config c /\ (forall p, p ∈ ps -> p <> n -> cut c' n p = true /\ cut c' p n = true) /\
  forall f t, cut c f t = true -> cut c' f t = true.
Proof.
  revert c. induction ps as [|p ps IH]; intros c; cbn [isolate_from].
  { intros [= <-]. split_and!; [done| |done]. by intros p ?%not_elem_of_nil. }
  destruct (N.eqb_spec p n) as [-> |Hne].
  { intros (A & B & C)%IH. split_and!; try done. intros q [-> |Hq]%elem_of_cons Hn; [done|auto]. }
  unfold set_bidirectional_partition. intros ([b c2] & Hb & Hr)%tbind_inv. apply tbind_inv in Hb as ([b1 c1] & H1 & H2).
  cbn [fst snd] in *. destruct b; [|done]. destruct b1; [|done]. cbn [negb] in *.
  apply partition_shows in H1 as [E1 P1], H2 as [E2 P2]. apply IH in Hr as (A & B & C).
  assert (Hk : forall f t, cut c1 f t = true -> cut c' f t = true) by (intros; apply C; rewrite P2; by case_decide).
  split_and!; [by rewrite A, E2| |].
  - intros q [-> |Hq]%elem_of_cons Hn; [|auto]. split.
    + apply Hk. rewrite P1. by rewrite decide_True.
    + apply C. rewrite P2. by rewrite decide_True.
  - intros f t Hf. apply Hk. rewrite P1. by case_decide.
Qed.

Lemma isolate_severed c n c' : isolate c n true = inr (true, c') -> severed true c' n.
Proof.
  unfold isolate. destruct (runtime c n); [|done]. intros (A & B & _)%isolate_from_shows. unfold severed. rewrite A. exact B.
Qed.

Lemma cut_severed c n u c' :
  (forall p, cut c p n = false) -> cut_links c n (cc_members (im_config c)) = inr (u, c') -> severed false c' n.
Proof.
  intros Ho (A & B & _ & D)%cut_links_shows p Hp Hne. rewrite A in Hp. split; [by apply B|by rewrite D].
Qed.

(** **** At the start no link is cut *)

Definition open c : Prop := forall f t, cut c f t = false.

Lemma steady_open c c' : steady c c' -> open c -> open c'.
Proof. intros Hs Ho f t. by rewrite (steady_cut _ _ _ _ Hs). Qed.

Lemma links_open c c' : sim_links (im_simulator c') = sim_links (im_simulator c) -> open c -> open c'.
Proof. intros Hl Ho f t. unfold cut, link_fault. rewrite Hl. apply Ho. Qed.

Lemma initialize_node_open c n c' : initialize_node c n = inr c' -> open c -> open c'.
Proof.
  unfold initialize_node. cbv zeta. intros Hi Ho. destruct (im_nodes c !! n); [done|]. revert Ho. apply links_open.
  assert (Hsync : forall c x, im_simulator (sync_simulator_trace (set_simulator c x)) = x).
  { intros c1 x. by destruct (core_fields _ _ (sync_core (set_simulator c1 x))) as (_ & -> & _). }
  unfold register_node, initialize_storage in Hi.
  repeat (case_match; try done); simplify_eq/=; rewrite ?Hsync, ?record_links; simpl; rewrite ?Hsync, ?record_links; done.
Qed.

Lemma start_node_steady c n c' : start_node c n = inr c' -> steady c c'.
Proof.
  unfold start_node. destruct (runtime c n) as [node|] eqn:E; [|by intros [= <-]]. destruct (rt_raft node) as [raft|]; [|by intros [= <-]].
  destruct (start raft) as [[[u raft'] es]|e]; [|done]. unfold enqueue_effects, enqueue_with. cbv zeta.
  match goal with |- context [im_draining_effects ?x] => assert (Hs : steady c x); [|destruct (im_draining_effects x)] end.
  - transitivity (put_runtime c n (set_raft node (Some raft'))); [by eapply steady_runtime|by constructor].
  - by intros [= <-].
  - intros Hd. etrans; [exact Hs|by eapply drain_calmly].
Qed.

Lemma initialize_nodes_open l c c' : initialize_nodes c l = inr c' -> open c -> open c'.
Proof.
  revert c. induction l as [|n l IH]; intros c; simpl; [by intros [= <-]|]. intros (c1 & H1 & Hl)%tbind_inv Ho.
  eapply IH; [exact Hl|]. by eapply initialize_node_open.
Qed.

Lemma start_nodes_steady l c c' : start_nodes c l = inr c' -> steady c c'.
Proof.
  revert c. induction l as [|n l IH]; intros c; simpl; [by intros [= <-]|]. intros (c1 & H1 & Hl)%tbind_inv.
  etrans; [by eapply start_node_steady|by apply IH].
Qed.

Lemma new_open config c : DeterministicCluster_new config = inr c -> open c.
Proof.
  unfold DeterministicCluster_new, initialize. cbv zeta. destruct (config_error _); [done|].
  intros (c1 & H1 & Hr)%tbind_inv. apply tbind_inv in Hr as (c2 & H2 & Hv).
  eapply steady_open; [by apply steady_core, verify_core|]. eapply steady_open; [by eapply start_nodes_steady|].
  by eapply initialize_nodes_open.
Qed.

(** **** The scenarios *)

Lemma last_follower_member c first :
  last_follower c first <> 0 -> last_follower c first ∈ cc_members (im_config c) /\ last_follower c first <> first.
Proof.
  unfold last_follower. generalize (cc_members (im_config c)). intros ms.
  assert (Hg : forall acc, let r := foldl (fun slow node => if node =? first then slow else node) acc ms in
    r = acc \/ (r ∈ ms /\ r <> first)).
  { induction ms as [|m ms IH]; intros acc; [by left|]. simpl. destruct (N.eqb_spec m first) as [-> |Hne].
    - destruct (IH acc) as [?|[? ?]]; [by left|right]. split; [by apply elem_of_cons; right|done].
    - destruct (IH m) as [-> |[? ?]]; right; (split; [|done]); apply elem_of_cons; [by left|by right]. }
  intros Hz. by destruct (Hg 0) as [Hr|Hr].
Qed.

Lemma crash_shows c n s r c' : run_leader_crash c n s = inr (r, c') -> crash_outcome s n c r c'.
Proof.
  unfold run_leader_crash. intros Hr. unwind Hr. injection Hr as <- <-.
  apply commit_answered in E, E2. apply demand_true in E0, E3. apply wait_replacement_shows in E1 as (S1 & Hl & Hn).
  apply wait_value_shows in E4 as [S2 Hv]. pose proof (crash_down _ _ _ _ E0) as Hd.
  assert (Hd' : down c3 n).
  { eapply steady_down; [by eapply answered_steady|]. eapply steady_down; [by eapply stepped_steady|done]. }
  by exists x, c0, c1, c2, x1, x2, c3, c4.
Qed.

Lemma partition_scenario_shows c n s b r c' :
  open c -> session_fits s -> run_partition c n s b = inr (r, c') -> partition_outcome b s n c r c'.
Proof.
  intros Ho Hs. unfold run_partition. intros Hr. unwind Hr. injection Hr as <- <-.
  apply commit_answered in E, E3. apply wait_replacement_shows in E2 as (S1 & Hl & Hn).
  apply wait_value_shows in E5 as [S2 Hv].
  assert (Hsev : severed b c1 n /\ led c0 c1).
  { destruct b.
    - split; [by apply demand_true, isolate_severed in E0|]. eapply (plays_demand _ _ _ (plays_isolate _ _ _)). exact E0.
    - split; [|eapply plays_cut; exact E0]. eapply cut_severed; [|exact E0]. intros p.
      by apply (steady_open _ _ (answered_steady _ _ _ _ _ E)). }
  destruct Hsev as [Hsev L1].
  assert (L2 : led c4 c6).
  { eapply led_trans; [|by eapply stepped_led]. destruct b; [|by eapply plays_heal].
    eapply (plays_ignore _ _ _ (plays_isolate _ _ _)). exact E4. }
  exists x, c0, c1, x1, c2, c3, x2, x3, c4. split_and!; try done.
  eapply steady_severed; [by eapply answered_steady|]. eapply steady_severed; [by eapply stepped_steady|].
  eapply steady_severed; [by eapply submit_steady|done].
Qed.

Lemma retry_shows c n s r c' : run_ambiguous_retry c n s = inr (r, c') -> retry_outcome s n c r c'.
Proof.
  unfold run_ambiguous_retry. cbv zeta. intros Hr. unwind Hr. apply commit_answered in E, E0.
  destruct (snapshot (take_replies c0).2 n) as [b|] eqn:Eb; [|done]. destruct (snapshot c1 n) as [e|] eqn:Ee; [|done].
  destruct (negb _ || negb _) eqn:Hn; [done|]. injection Hr as <- <-.
  apply orb_false_iff in Hn as [H1%negb_false_iff%N.eqb_eq H2%negb_false_iff%N.eqb_eq].
  by exists x, c0, b, x0, e.
Qed.

Lemma torn_shows c n s r c' : run_torn_wal c n s = inr (r, c') -> torn_outcome s n c r c'.
Proof.
  unfold run_torn_wal. intros Hr. unwind Hr. destruct x3 as [l|]; [|done]. unwind Hr. injection Hr as <- <-.
  apply commit_answered in E, E4. apply demand_true in E1, E2. apply run_until_leader_shows in E3 as [S1 Hl].
  apply wait_value_shows in E5 as [S2 Hv]. pose proof (crash_down _ _ _ _ E1) as Hd.
  by exists x, c0, x0, c1, c2, c3, c4, l, x3, c5.
Qed.

Lemma slow_link_shows c n s r c' : session_fits s -> run_slow_follower c n s = inr (r, c') -> slow_link_outcome s n c r c'.
Proof.
  intros Hs. unfold run_slow_follower. cbv zeta. intros Hr. destruct (N.eqb_spec (last_follower c n) 0) as [|Hz]; [done|].
  apply last_follower_member in Hz as [Hm Hne]. revert Hr Hm Hne. generalize (last_follower c n). intros slow Hr Hm Hne. unwind Hr.
  injection Hr as <- <-. apply wait_value_shows in E5 as [S2 Hv].
  assert (L1 : led c c1).
  { eapply led_trans; [eapply (plays_demand _ _ _ (plays_delay _ _ _ _)); exact E|].
    eapply (plays_demand _ _ _ (plays_delay _ _ _ _)). exact E0. }
  assert (L2 : led c3 c6).
  { eapply led_trans; [by eapply plays_delay|]. eapply led_trans; [by eapply plays_delay|]. by apply stepped_led. }
  apply demand_true, delay_shows in E as [_ D1], E0 as [_ D2]. apply commit_answered in E1.
  assert (Hslow : delay c1 n slow = 25 /\ delay c1 slow n = 25).
  { rewrite !D2, !D1. split; repeat case_decide; congruence. }
  exists slow, c1, x1, c2, x2, c3. cbv zeta. split_and!; try done; try apply Hslow.
  all: rewrite (steady_delay c2 c3) by (by eapply stepped_steady, run_stepped); rewrite (steady_delay c1 c2) by (by eapply answered_steady); apply Hslow.
Qed.

Lemma slow_disk_shows c n s r c' : session_fits s -> run_slow_disk c n s = inr (r, c') -> slow_disk_outcome s n c r c'.
Proof.
  intros Hs. unfold run_slow_disk. cbv zeta. intros Hr. destruct (N.eqb_spec (last_follower c n) 0) as [|Hz]; [done|].
  apply last_follower_member in Hz as [Hm Hne]. unwind Hr. injection Hr as <- <-. apply wait_value_shows in E1 as [S2 Hv].
  assert (L1 : led c c0) by (eapply (plays_demand _ _ _ (plays_latency _ _ _ _)); exact E).
  apply demand_true, latency_shows in E. apply commit_answered in E0.
  exists (last_follower c n), c0, x0, c1. split_and!; try done.
  rewrite (sy_latency _ _ (stepped_steady _ _ S2)). by rewrite (sy_latency _ _ (answered_steady _ _ _ _ _ E0)).
Qed.

Lemma saturate_calls c n s ks u c' : saturate c n s ks = inr (u, c') -> cluster_calls c (saturating s n <$> ks) = inr c'.
Proof.
  revert c. induction ks as [|i ks IH]; intros c; cbn [saturate]; [by intros [= _ <-]|].
  intros ([t c1] & Ht & Hr)%tbind_inv. simpl. rewrite Ht. by apply IH.
Qed.

Lemma saturate_steady c n s ks u c' : saturate c n s ks = inr (u, c') -> steady c c'.
Proof.
  revert c. induction ks as [|i ks IH]; intros c; cbn [saturate]; [by intros [= _ <-]|].
  intros ([t c1] & Ht & Hr)%tbind_inv. etrans; [by eapply submit_steady|by apply IH].
Qed.

Lemma saturation_shows c n s r c' : session_fits s -> run_saturation c n s = inr (r, c') -> saturation_outcome s n c r c'.
Proof.
  intros Hs. unfold run_saturation. intros Hr. unwind Hr. cbv zeta in Hr.
  destruct (N.ltb_spec (max_pending_events (sc_events (cc_simulator (im_config c2)))) (qd_scheduled_events (queue_depth c2))) as [|Hq]; [done|].
  pose proof (led_check c2) as Lc. destruct (check_invariants c2) as [v c4] eqn:Hc. simpl in Lc.
  destruct v; [done|]. cbn [is_none negb] in Hr. unwind Hr.
  apply run_until_leader_shows in E3 as [S1 Hl]. destruct x3 as [l|]; [|done].
  destruct (snapshot c5 l) as [sn|] eqn:Hsn; [|done]. unwind Hr. injection Hr as <- <-. apply commit_answered in E3.
  assert (L1 : led c c0) by (eapply (plays_demand _ _ _ (plays_isolate _ _ _)); exact E).
  apply demand_true, isolate_severed in E.
  exists c0, c1, x1, c2, c5, l, sn, x3. split_and!; try done.
  - by eapply saturate_calls.
  - eapply steady_severed; [by eapply stepped_steady, run_stepped|]. eapply steady_severed; [by eapply saturate_steady|done].
  - by rewrite Hc.
  - eapply led_trans; [exact Lc|]. eapply led_trans; [by eapply plays_isolate|by apply stepped_led].
Qed.

Lemma scenario_outcome name c n s r c' :
  open c -> session_fits s -> run_scenario name c n s = inr (r, c') -> outcome name s n c r c'.
Proof.
  intros Ho Hs. unfold run_scenario, outcome.
  repeat (match goal with |- context [String.eqb name ?x] => destruct (String.eqb name x) end).
  all: eauto using crash_shows, partition_scenario_shows, retry_shows, torn_shows, slow_link_shows, saturation_shows, slow_disk_shows.
Qed.

(** *** The options *)

Record options_ok (o : SimOptions) : Prop := {
  oo_seed : u64 (so_seed o);
  oo_nodes : so_nodes o = 3 \/ so_nodes o = 5;
}.

Lemma take_sim_option_ok a v o o' : take_sim_option a v o = inr o' -> options_ok o -> options_ok o'.
Proof.
  unfold take_sim_option, sim_unsigned. intros Ht [Hs Hn].
  destruct (NodeProgram.from_chars 10 (NodeProgram.chars v)) as [[e|w] rest] eqn:Hf; [|apply NodeProgram.from_chars_fits in Hf; destruct rest].
  all: cbn [tbind] in Ht; repeat (destruct (String.eqb a _); [try done; try (injection Ht as <-; by constructor)|]); try done.
  destruct (N.eqb_spec w 3), (N.eqb_spec w 5); try done; injection Ht as <-; constructor; simpl; auto.
Qed.

Lemma sim_options_ok argv o o' : sim_options argv o = inr (Some o') -> options_ok o -> options_ok o'.
Proof.
  revert o. induction argv as [argv IH] using (induction_ltof1 _ length). unfold ltof in IH. intros o.
  destruct argv as [|a rest]; cbn [sim_options]; [by intros [= <-]|]. destruct (_ || _); [done|].
  destruct rest as [|v rest]; [done|]. intros (o1 & Ht & Ho)%tbind_inv Hok.
  eapply IH; [|exact Ho|by eapply take_sim_option_ok]. simpl. lia.
Qed.

Lemma sim_config_typed o config : options_ok o -> sim_config o = inr config -> config_typed config.
Proof.
  intros [_ Hn] Hc. assert (Hm : cc_members config = [1; 2; 3] \/ cc_members config = [1; 2; 3; 4; 5]).
  { unfold sim_config, cluster_config in Hc. destruct Hn as [Hn|Hn]; rewrite Hn in Hc; simpl in Hc;
      injection Hc as <-; destruct (String.eqb _ _); auto. }
  assert (Hd : max_append_bytes_per_rpc (cc_raft config) = 512 * 1024 /\ cc_simulator config = default_simulator_config /\
    cc_cluster_id_high config = 0x4445544c4f470001 /\ cc_cluster_id_low config = 0x53494d554c41544f).
  { unfold sim_config, cluster_config in Hc. destruct Hn as [Hn|Hn]; rewrite Hn in Hc; simpl in Hc;
      injection Hc as <-; by destruct (String.eqb _ _). }
  destruct Hd as (D1 & D2 & D3 & D4). constructor.
  - destruct Hm as [-> | ->]; repeat constructor; vm_compute; discriminate.
  - rewrite D1. vm_compute. discriminate.
  - rewrite D3, D4. split; vm_compute; discriminate.
  - rewrite D2. apply default_config_typed.
Qed.
End sim.

(** C11 A run of detlog-sim that ends well prints the summary of a scenario that did what
    it is for.  The final state is reached by calls of the cluster from the configuration
    of the options, the invariants hold there, and before the scenario began a ready
    leader was elected.  A crashed or cut-off leader was down or cut off until the other
    node that the summary names had committed the second request as ready leader, and then
    has caught up with its value; a leader that crashed with a request on its way to the
    disk came back and has the value committed afterwards; a retry was answered with the index of the first answer
    and the log did not grow; a follower has the value committed while its links or its
    disk were slow; and a leader commits after twelve requests to a leader cut off, whose
    events stayed within the bound. *)
Theorem sim_program_sound `{HeapLaws} (file : TraceFile) (argv output : list string) (r : ScenarioSummary) (c : Impl) :
  detlog_sim file argv = sim_done output r c ->
  exists o config l ci c0 first c',
    sim_options argv (mkSimOptions 1 3 "leader-crash" None) = inr (Some o) /\ sim_config o = inr config /\
    hd_error output = Some (summary_line o r c) /\ played_to config l c /\
    DeterministicCluster_new config = inr ci /\ stepped ci c0 /\ the_leader c0 true = Some first /\
    outcome (so_scenario o) (mkSessionId 0x4445544c4f47 (so_seed o)) first c0 r c' /\ check_invariants c' = (None, c).
Proof.
  unfold detlog_sim. destruct (sim_options _ _) as [?|[o|]] eqn:Ho; [done| |done].
  apply sim_options_ok in Ho as Hok; [|by constructor; [vm_compute|left]].
  intros Hd. assert (Hp : play_scenario o = inr (r, c) /\ hd_error output = Some (summary_line o r c)).
  { destruct (play_scenario o) as [?|[r' c']]; [done|]. destruct (so_trace o); [destruct (file _ _); [done|]|]; by injection Hd as <- <- <-. }
  destruct Hp as [Hp Hout]. clear Hd. unfold play_scenario in Hp. destruct (negb _); [done|].
  apply tbind_inv in Hp as (config & Hc & Hp). apply tbind_inv in Hp as (ci & Hnew & Hp).
  apply tbind_inv in Hp as ([w c0] & Hw & Hp). cbn [fst snd] in Hp. pose proof (plays_leader 50000 true ci _ _ Hw) as L0.
  apply run_until_leader_shows in Hw as [S0 ->]. destruct (the_leader c0 true) as [first|] eqn:Hf; [|done].
  apply tbind_inv in Hp as ([r1 c2] & Hs & Hp). cbn [fst snd] in Hp. pose proof (led_check c2) as Lc.
  destruct (check_invariants c2) as [v c3] eqn:Hv. simpl in Lc. destruct v; [done|]. injection Hp as -> ->.
  assert (Hses : session_fits (mkSessionId 0x4445544c4f47 (so_seed o))) by (split; [by vm_compute|apply Hok]).
  destruct (led_trans _ _ _ (led_trans _ _ _ L0 (plays_scenario _ _ _ _ Hses _ _ Hs)) Lc) as (l & Hl & Hcalls).
  exists o, config, l, ci, c0, first, c2. split_and!; try done.
  - split_and!; [by eapply sim_config_typed|done|]. by exists ci.
  - apply scenario_outcome; [|done..]. eapply steady_open; [by apply stepped_steady|by eapply new_open].
Qed.

(** ** The scenario fuzzer *)

Definition kMaximumInputBytes : nat := 256.
Definition kMaximumActions : nat := 32.

Inductive ActionKind :=
  | step_burst | client_put | client_retry | directed_partition | symmetric_partition
  | act_drop_next | act_duplicate_next | act_link_delay | crash_intact | crash_torn | act_restart
  | act_fail_write | act_short_write | act_fail_flush.

Definition action_kinds : list ActionKind :=
  [step_burst; client_put; client_retry; directed_partition; symmetric_partition; act_drop_next;
   act_duplicate_next; act_link_delay; crash_intact; crash_torn; act_restart; act_fail_write;
   act_short_write; act_fail_flush].

Record Action := mkAction {
  ac_kind : ActionKind; ac_first : N; ac_second : N; ac_amount : N; ac_enabled : bool;
}.

(** How a run stops early: [std::abort], an exception, or a read outside an array. *)
Inductive Stop := fuzz_aborted | fuzz_threw (what : string) | fuzz_out_of_bounds.
Definition Fuzz (A : Type) : Type := Stop + A.
Definition fbind {A B} (m : Fuzz A) (k : A -> Fuzz B) : Fuzz B := match m with inl e => inl e | inr a => k a end.
Notation "x <! e ; k" := (fbind e (fun x => k)) (at level 100, e at next level, right associativity).
Definition lift {A} (r : Throw A) : Fuzz A := match r with inl e => inl (fuzz_threw e) | inr a => inr a end.
Definition element {A} (l : list A) (i : nat) : Fuzz A := match l !! i with Some a => inr a | None => inl fuzz_out_of_bounds end.

Definition hash_input (bytes : list N) : N :=
  foldl (fun hash byte => mul64 (N.lxor hash byte) 1099511628211) 14695981039346656037 bytes.

(** The loop body and the loop of [decode_actions]. *)
Definition decode_action (bytes : list N) (index : nat) : Fuzz Action :=
  let offset := (1 + index * 5)%nat in
  b0 <! element bytes offset;
  b1 <! element bytes (offset + 1);
  b2 <! element bytes (offset + 2);
  b3 <! element bytes (offset + 3);
  b4 <! element bytes (offset + 4);
  k <! element action_kinds (N.to_nat (b0 mod 14));
  inr (mkAction k b1 b2 (N.lor (N.shiftl b3 8) b4 mod 65536) (negb (N.land b4 0x80 =? 0))).

Fixpoint decode_each (bytes : list N) (indexes : list nat) : Fuzz (list Action) :=
  match indexes with
  | [] => inr []
  | i :: indexes => a <! decode_action bytes i; l <! decode_each bytes indexes; inr (a :: l)
  end.

Definition decode_actions (bytes : list N) : Fuzz (list Action) :=
  if (length bytes <=? 1)%nat then inr []
  else decode_each bytes (seq 0 (min kMaximumActions ((length bytes - 1) / 5))).

Record FuzzScenario := mkFuzzScenario {
  fz_seed : N;
  fz_cluster : Impl;
  fz_sequences : list N;
  fz_commands : list (option ClientCommand);
}.

Definition fuzz_configuration (seed node_count : N) : Throw ClusterConfig :=
  c <== cluster_config node_count seed;
  let s := cc_simulator c in
  inr (mkClusterConfig (cc_members c) (cc_seed c) (cc_raft c) (cc_codec c)
         (mkSimulatorConfig (mkEventQueueLimits 10000 100000) (sc_transport s) (sc_storage s) 20000)
         (cc_wal c) (cc_cluster_id_high c) (cc_cluster_id_low c) (cc_election_jitter c)
         (cc_network_delay c) (cc_storage_write_latency c) (cc_storage_flush_latency c)
         20000 256 (cc_automatic_invariant_checks c)).

Section fuzz.
Context `{HeapLib}.
Implicit Types (s : FuzzScenario).

Definition put_cluster s (c : Impl) : FuzzScenario := mkFuzzScenario (fz_seed s) c (fz_sequences s) (fz_commands s).

Definition FuzzScenario_new (seed node_count : N) : Fuzz FuzzScenario :=
  config <! lift (fuzz_configuration seed node_count);
  c <! lift (DeterministicCluster_new config);
  inr (mkFuzzScenario seed c [0; 0; 0; 0] [None; None; None; None]).

Definition fuzz_members s : list NodeId := cc_members (im_config (fz_cluster s)).

(** A call of the cluster whose result is kept, and one whose result is not. *)
Definition fcall {A} s (r : Throw (A * Impl)) : Fuzz (A * FuzzScenario) :=
  x <! lift r; inr (x.1, put_cluster s x.2).
Definition fdo {A} s (r : Throw (A * Impl)) : Fuzz FuzzScenario := x <! fcall s r; inr x.2.

Definition fuzz_node s (selector : N) : Fuzz NodeId :=
  element (fuzz_members s) (N.to_nat (selector mod N.of_nat (length (fuzz_members s)))).

Definition fuzz_check s : Fuzz FuzzScenario :=
  let '(verdict, c) := check_invariants (fz_cluster s) in
  match verdict with Some _ => inl fuzz_aborted | None => inr (put_cluster s c) end.

Definition fuzz_step s : Fuzz (bool * FuzzScenario) :=
  x <! fcall s (cluster_step (fz_cluster s));
  s' <! fuzz_check x.2;
  inr (x.1, s').

Fixpoint drive (count : nat) s : Fuzz FuzzScenario :=
  match count with
  | O => inr s
  | S count => x <! fuzz_step s; if (x.1 : bool) then drive count x.2 else inr x.2
  end.

Fixpoint wait_for_leader (max_events : nat) s : Fuzz (option NodeId * FuzzScenario) :=
  match max_events with
  | O => inr (the_leader (fz_cluster s) true, s)
  | S n =>
      match the_leader (fz_cluster s) true with
      | Some l => inr (Some l, s)
      | None =>
          x <! fuzz_step s;
          if (x.1 : bool) then wait_for_leader n x.2 else inr (the_leader (fz_cluster x.2) true, x.2)
      end
  end.

Definition fuzz_submit s (selector : N) (target : NodeId) (value : N) : Fuzz FuzzScenario :=
  let slot := N.to_nat (selector mod 4) in
  q <! element (fz_sequences s) slot;
  let sequence := add64 q 1 in
  let cmd := mkClientCommand (mkSessionId (N.lxor (fz_seed s) 0x46555a5a434c4e54) (N.of_nat slot + 1)) sequence put
    ("fuzz-key-" +:+ dec (N.of_nat slot)) ("v-" +:+ dec value) in
  let s := mkFuzzScenario (fz_seed s) (fz_cluster s) (<[slot := sequence]> (fz_sequences s))
    (<[slot := Some cmd]> (fz_commands s)) in
  fdo s (submit (fz_cluster s) target cmd).

Definition fuzz_retry s (selector : N) (target : NodeId) : Fuzz FuzzScenario :=
  cmd <! element (fz_commands s) (N.to_nat (selector mod 4));
  match cmd with Some cmd => fdo s (submit (fz_cluster s) target cmd) | None => inr s end.

(** The node after [first], when both selectors chose the same. *)
Definition second_node s (first second : NodeId) : Fuzz NodeId :=
  if first =? second then
    let ms := fuzz_members s in
    let offset := default (length ms) (fst <$> list_find (eq first) ms) in
    element ms ((offset + 1) mod length ms)
  else inr second.

Definition apply_kind s (a : Action) (first second : NodeId) : Fuzz FuzzScenario :=
  let c := fz_cluster s in
  let n := ac_amount a in
  match ac_kind a with
  | step_burst => drive (N.to_nat (1 + n mod 4)) s
  | client_put => fuzz_submit s (ac_first a) second n
  | client_retry => fuzz_retry s (ac_first a) second
  | directed_partition => fdo s (cluster_set_partition c first second (ac_enabled a))
  | symmetric_partition => fdo s (set_bidirectional_partition c first second (ac_enabled a))
  | act_drop_next => fdo s (cluster_drop_next c first second (1 + n mod 3))
  | act_duplicate_next => fdo s (cluster_duplicate_next c first second (n mod 4))
  | act_link_delay => fdo s (cluster_set_link_delay c first second (n mod 7))
  | crash_intact => fdo s (crash c first (mkStorageCrashSpec u64_max u64_max))
  | crash_torn => fdo s (crash c first (mkStorageCrashSpec (n mod 8) (1 + n mod 24)))
  | act_restart => fdo s (restart c first)
  | act_fail_write => fdo s (fail_next_storage_write c first)
  | act_short_write => fdo s (cluster_short_write_next c first (1 + n mod 24))
  | act_fail_flush => fdo s (fail_next_storage_flush c first)
  end.

Definition apply_action s (a : Action) : Fuzz FuzzScenario :=
  first <! fuzz_node s (ac_first a);
  chosen <! fuzz_node s (ac_second a);
  second <! second_node s first chosen;
  s' <! apply_kind s a first second;
  fuzz_check s'.

Fixpoint apply_actions s (l : list Action) : Fuzz FuzzScenario :=
  match l with
  | [] => inr s
  | a :: l => s' <! apply_action s a; apply_actions s' l
  end.

(** The loops of [recover_and_prove_progress]. *)
Definition alive_node s (node : NodeId) : option bool := sn_alive <$> snapshot (fz_cluster s) node.

Fixpoint crash_all (ms : list NodeId) s : Fuzz FuzzScenario :=
  match ms with
  | [] => inr s
  | m :: ms =>
      match alive_node s m with
      | Some true => s1 <! fdo s (crash (fz_cluster s) m keep_nothing); s2 <! fuzz_check s1; crash_all ms s2
      | _ => crash_all ms s
      end
  end.

Fixpoint restart_all (ms : list NodeId) s : Fuzz FuzzScenario :=
  match ms with
  | [] => inr s
  | m :: ms =>
      s1 <! match alive_node s m with
            | Some false => x <! fcall s (restart (fz_cluster s) m); if (x.1 : bool) then inr x.2 else inl fuzz_aborted
            | _ => inr s
            end;
      s2 <! fuzz_check s1;
      restart_all ms s2
  end.

Definition heal_link (from to : NodeId) s : Fuzz FuzzScenario :=
  s <! fdo s (cluster_set_partition (fz_cluster s) from to false);
  s <! fdo s (cluster_set_link_delay (fz_cluster s) from to 1);
  s <! fdo s (cluster_drop_next (fz_cluster s) from to 0);
  fdo s (cluster_duplicate_next (fz_cluster s) from to 0).

Fixpoint heal_all (pairs : list (NodeId * NodeId)) s : Fuzz FuzzScenario :=
  match pairs with
  | [] => inr s
  | (from, to) :: pairs => if from =? to then heal_all pairs s else (s' <! heal_link from to s; heal_all pairs s')
  end.

Definition progress_command s : ClientCommand :=
  mkClientCommand (mkSessionId 0x46555a5a5343454e (fz_seed s)) 1 put "fuzz-progress" "ok".

(** The loop over the events after a submission: whether the request was committed. *)
Fixpoint await_commit (events : nat) (token : ClientToken) s : Fuzz (bool * FuzzScenario) :=
  match events with
  | O => inr (false, s)
  | S n =>
      match reply_for (fz_cluster s) token with
      | Some reply =>
          inr (bool_decide (cr_status reply = status_ok) &&
               command_is_committed (fz_cluster s) (session (progress_command s)) (sequence (progress_command s)), s)
      | None => x <! fuzz_step s; if (x.1 : bool) then await_commit n token x.2 else inr (false, x.2)
      end
  end.

Fixpoint attempts (n : nat) s : Fuzz FuzzScenario :=
  match n with
  | O => inl fuzz_aborted
  | S n =>
      w <! wait_for_leader 4000 s;
      match w.1 with
      | None => attempts n w.2
      | Some l =>
          t <! fcall w.2 (submit (fz_cluster w.2) l (progress_command w.2));
          r <! await_commit 4000 t.1 t.2;
          if (r.1 : bool) then fuzz_check r.2 else attempts n r.2
      end
  end.

Definition recover_and_prove_progress s : Fuzz FuzzScenario :=
  s <! crash_all (fuzz_members s) s;
  s <! restart_all (fuzz_members s) s;
  s <! heal_all (list_prod (fuzz_members s) (fuzz_members s)) s;
  s <! fuzz_check s;
  attempts 4 s.

Definition bounded_input (input : list N) : list N := take (min (length input) kMaximumInputBytes) input.
Definition fuzz_nodes (bounded : list N) : N :=
  match bounded with b :: _ => if N.land b 1 =? 0 then 3 else 5 | [] => 3 end.

Definition run_input (input : list N) : Fuzz FuzzScenario :=
  let bounded := bounded_input input in
  s <! FuzzScenario_new (hash_input bounded) (fuzz_nodes bounded);
  l <! decode_actions bounded;
  s <! apply_actions s l;
  recover_and_prove_progress s.

(** The entry point: zero, or an abort. *)
Definition scenario_fuzz_one (input : list N) : option N :=
  match run_input input with inr _ => Some 0 | inl _ => None end.
End fuzz.

(** [fuzz/codec_fuzz.cpp] and [fuzz/wal_fuzz.cpp]. *)
Definition codec_fuzz_one (input : list N) : Codec.Result Message * Codec.Result LogEntry * Codec.Result ClientCommand :=
  (Codec.decode_message input Codec.default_limits, Codec.decode_log_entry input Codec.default_limits,
   Codec.decode_command input Codec.default_limits).

Definition wal_fuzz_limits : WalOptions :=
  mkWalOptions (wo_flush_policy default_options) (1024 * 1024) (4 * 1024 * 1024) (wo_max_group_frames default_options)
    4096 (16 * 1024) (256 * 1024) 100000.

Definition wal_fuzz_one (input : list N) : WalError + WalScanResult :=
  scan_wal_bytes input (mkWalIdentity 0x1122334455667788 0x99aabbccddeeff00 1) wal_fuzz_limits.

(** *** Every input is handled within bounds *)

(** A run that reads no array outside its bounds, with what holds when it returns. *)
Definition safe {A} (m : Fuzz A) (Q : A -> Prop) : Prop :=
  match m with inr a => Q a | inl fuzz_out_of_bounds => False | inl _ => True end.

Lemma safe_bind {A B} (m : Fuzz A) (k : A -> Fuzz B) P Q :
  safe m P -> (forall a, P a -> safe (k a) Q) -> safe (fbind m k) Q.
Proof. destruct m as [e|a]; simpl; [by destruct e|]. auto. Qed.

Lemma safe_mono {A} (m : Fuzz A) (P Q : A -> Prop) : safe m P -> (forall a, P a -> Q a) -> safe m Q.
Proof. destruct m as [e|a]; simpl; [by destruct e|]. auto. Qed.

Lemma safe_element {A} (l : list A) i : (i < length l)%nat -> safe (element l i) (fun a => l !! i = Some a).
Proof. intros Hi. unfold element. destruct (lookup_lt_is_Some_2 l i Hi) as [a ->]. done. Qed.

Lemma decode_action_safe bytes i : (6 + i * 5 <= length bytes)%nat -> safe (decode_action bytes i) (fun _ => True).
Proof.
  intros Hl. unfold decode_action. cbv zeta. do 5 (eapply safe_bind; [apply safe_element; lia|intros ? _]).
  eapply safe_bind; [|done]. apply safe_element. pose proof (N.mod_lt a 14 ltac:(done)). unfold action_kinds. simpl. lia.
Qed.

Lemma decode_safe bytes : safe (decode_actions bytes) (fun _ => True).
Proof.
  unfold decode_actions. destruct (Nat.leb_spec (length bytes) 1); [done|].
  assert (Hg : forall l, (forall i, i ∈ l -> (6 + i * 5 <= length bytes)%nat) -> safe (decode_each bytes l) (fun _ => True)).
  { induction l as [|i l IH]; intros Hi; [done|]. simpl. eapply safe_bind; [apply decode_action_safe, Hi, elem_of_cons; by left|].
    intros a _. eapply safe_bind; [apply IH; intros j Hj; apply Hi, elem_of_cons; by right|done]. }
  apply Hg. intros i [_ Hi]%elem_of_seq. pose proof (Nat.Div0.mul_div_le (length bytes - 1) 5). lia.
Qed.

Section fuzz_safety.
Context `{HeapLaws} (config : ClusterConfig) (c0 : Impl) (seed : N) (Hseed : u64 seed).
Context (Htyped : config_typed config) (Hnew : DeterministicCluster_new config = inr c0) (Hsome : cc_members config <> []).
Implicit Types (s : FuzzScenario).

Record fuzz_ok s : Prop := {
  fo_led : led c0 (fz_cluster s);
  fo_seed : fz_seed s = seed;
  fo_sequences : length (fz_sequences s) = 4%nat;
  fo_commands : length (fz_commands s) = 4%nat;
  fo_fits : Forall (fun o => match o with Some c => command_fits c | None => True end) (fz_commands s);
}.

Lemma fuzz_members_some s : fuzz_ok s -> (0 < length (fuzz_members s))%nat.
Proof.
  intros [(l & Hf & Hc) _ _ _ _].
  destruct (reached config c0 (fz_cluster s) l Htyped Hnew Hf Hc) as [_ (net & Hm & _)].
  unfold fuzz_members. rewrite (mt_config _ _ _ Hm). simpl. unfold sort_members.
  rewrite (Permutation_length (merge_sort_Permutation N.le (cc_members config))). by destruct (cc_members config); [|simpl; lia].
Qed.

Lemma put_cluster_ok s c : fuzz_ok s -> led (fz_cluster s) c -> fuzz_ok (put_cluster s c).
Proof. intros [] Hl. constructor; try done. simpl. by eapply led_trans. Qed.

Lemma fcall_safe {A} s (r : Throw (A * Impl)) :
  fuzz_ok s -> plays (fz_cluster s) r -> safe (fcall s r) (fun x => fuzz_ok x.2).
Proof.
  intros Hs Hr. unfold fcall, lift. destruct r as [e|[a c]]; [done|]. simpl. apply put_cluster_ok; [done|]. by eapply Hr.
Qed.

Lemma fdo_safe {A} s (r : Throw (A * Impl)) : fuzz_ok s -> plays (fz_cluster s) r -> safe (fdo s r) fuzz_ok.
Proof. intros Hs Hr. eapply safe_bind; [by apply fcall_safe|]. by intros x. Qed.

Lemma check_safe s :
  fuzz_ok s -> safe (fuzz_check s) (fun s' => fuzz_ok s' /\ fz_cluster s' = (check_invariants (fz_cluster s)).2).
Proof.
  intros Hs. unfold fuzz_check. pose proof (led_check (fz_cluster s)) as Hl.
  destruct (check_invariants (fz_cluster s)) as [[v|] c]; [done|]. simpl. split; [by apply put_cluster_ok|done].
Qed.

Lemma check_keeps s : fuzz_ok s -> safe (fuzz_check s) fuzz_ok.
Proof. intros Hs. eapply safe_mono; [by apply check_safe|]. by intros s' []. Qed.

Lemma step_safe s : fuzz_ok s -> safe (fuzz_step s) (fun x => fuzz_ok x.2).
Proof.
  intros Hs. eapply safe_bind; [apply fcall_safe; [done|apply plays_step]|]. intros x Hx.
  eapply safe_bind; [by apply check_keeps|]. by intros s'.
Qed.

Lemma drive_safe n s : fuzz_ok s -> safe (drive n s) fuzz_ok.
Proof.
  revert s. induction n as [|n IH]; intros s Hs; [done|]. simpl. eapply safe_bind; [by apply step_safe|].
  intros [[] s'] Hx; simpl in *; [by apply IH|done].
Qed.

Lemma wait_safe n s : fuzz_ok s -> safe (wait_for_leader n s) (fun x => fuzz_ok x.2).
Proof.
  revert s. induction n as [|n IH]; intros s Hs; [done|]. simpl. destruct (the_leader _ _); [done|].
  eapply safe_bind; [by apply step_safe|]. intros [[] s'] Hx; simpl in *; [by apply IH|done].
Qed.

Lemma node_safe s k : fuzz_ok s -> safe (fuzz_node s k) (fun _ => True).
Proof.
  intros Hs. pose proof (fuzz_members_some s Hs) as Hm. eapply safe_mono; [apply safe_element|done].
  pose proof (N.mod_lt k (N.of_nat (length (fuzz_members s))) ltac:(lia)). lia.
Qed.

Lemma second_safe s x y : fuzz_ok s -> safe (second_node s x y) (fun _ => True).
Proof.
  intros Hs. pose proof (fuzz_members_some s Hs) as Hm. unfold second_node. destruct (_ =? _); [|done]. cbv zeta.
  eapply safe_mono; [apply safe_element|done]. apply Nat.mod_upper_bound. lia.
Qed.

Lemma slot_bound k : (N.to_nat (k mod 4) < 4)%nat.
Proof. pose proof (N.mod_lt k 4 ltac:(done)). lia. Qed.

Lemma wrap64_fits x : u64 (wrap64 x).
Proof. unfold u64, wrap64. pose proof (N.mod_lt x u64_size ltac:(done)). unfold u64_max. lia. Qed.

Lemma submit_safe s k t v : fuzz_ok s -> safe (fuzz_submit s k t v) fuzz_ok.
Proof.
  intros Hs. pose proof Hs as []. pose proof (slot_bound k) as Hk. unfold fuzz_submit. cbv zeta.
  eapply safe_bind; [apply safe_element; lia|]. intros q _.
  assert (Hfit : command_fits (mkClientCommand (mkSessionId (N.lxor (fz_seed s) 0x46555a5a434c4e54) (N.of_nat (N.to_nat (k mod 4)) + 1))
    (add64 q 1) put ("fuzz-key-" +:+ dec (N.of_nat (N.to_nat (k mod 4)))) ("v-" +:+ dec v))).
  { split_and!; simpl; [rewrite fo_seed0; by apply TcpMachine.lxor_u64; [|vm_compute]| |apply wrap64_fits].
    assert (4 <= u64_max) by by vm_compute. unfold u64. lia. }
  apply fdo_safe; [|by apply plays_submit]. constructor; simpl; try done; [by rewrite length_insert..|].
  by apply Forall_insert.
Qed.

Lemma retry_safe s k t : fuzz_ok s -> safe (fuzz_retry s k t) fuzz_ok.
Proof.
  intros Hs. pose proof Hs as []. pose proof (slot_bound k) as Hk. unfold fuzz_retry.
  eapply safe_bind; [apply safe_element; lia|]. intros [cmd|] Hc; [|done].
  apply fdo_safe; [done|]. apply plays_submit. by apply (Forall_lookup_1 _ _ _ _ fo_fits0 Hc).
Qed.

Lemma plays_both c f t b : plays c (set_bidirectional_partition c f t b).
Proof. unfold set_bidirectional_partition. apply plays_bind; [apply plays_partition|]. intros [] c1 _; simpl; auto with plays. Qed.

Lemma action_safe s a : fuzz_ok s -> safe (apply_action s a) fuzz_ok.
Proof.
  intros Hs. unfold apply_action. eapply safe_bind; [by apply node_safe|]. intros x _.
  eapply safe_bind; [by apply node_safe|]. intros y _. eapply safe_bind; [by apply second_safe|]. intros z _.
  eapply safe_bind; [|intros s'; apply check_keeps]. unfold apply_kind. cbv zeta.
  destruct (ac_kind a); try (apply fdo_safe; [done|]; auto with plays; apply plays_both);
    auto using drive_safe, submit_safe, retry_safe.
Qed.

Lemma actions_safe s l : fuzz_ok s -> safe (apply_actions s l) fuzz_ok.
Proof.
  revert s. induction l as [|a l IH]; intros s Hs; [done|]. simpl. eapply safe_bind; [by apply action_safe|]. apply IH.
Qed.

Lemma crash_all_safe ms s : fuzz_ok s -> safe (crash_all ms s) fuzz_ok.
Proof.
  revert s. induction ms as [|m ms IH]; intros s Hs; [done|]. simpl. destruct (alive_node s m) as [[]|]; [|by apply IH..].
  eapply safe_bind; [apply fdo_safe; [done|apply plays_crash]|]. intros s1 H1. eapply safe_bind; [by apply check_keeps|]. apply IH.
Qed.

Lemma restart_all_safe ms s : fuzz_ok s -> safe (restart_all ms s) fuzz_ok.
Proof.
  revert s. induction ms as [|m ms IH]; intros s Hs; [done|]. simpl.
  eapply safe_bind; [|intros s1 H1; eapply safe_bind; [by apply check_keeps|apply IH]].
  destruct (alive_node s m) as [[]|]; [done| |done]. eapply safe_bind; [apply fcall_safe; [done|apply plays_restart]|].
  by intros [[] s'] Hx.
Qed.

Lemma heal_all_safe ps s : fuzz_ok s -> safe (heal_all ps s) fuzz_ok.
Proof.
  revert s. induction ps as [|[x y] ps IH]; intros s Hs; [done|]. simpl. destruct (_ =? _); [by apply IH|].
  eapply safe_bind; [|apply IH]. unfold heal_link.
  repeat (eapply safe_bind; [apply fdo_safe; [done|auto with plays]|intros ? ?]). apply fdo_safe; [done|auto with plays].
Qed.

(** The request was committed when the loop says so. *)
Lemma await_safe n t s :
  fuzz_ok s -> safe (await_commit n t s) (fun x => fuzz_ok x.2 /\ (x.1 = true ->
    command_is_committed (fz_cluster x.2) (session (progress_command x.2)) 1 = true)).
Proof.
  revert s. induction n as [|n IH]; intros s Hs; [done|]. simpl. destruct (reply_for _ _).
  { simpl. split; [done|]. by intros [_ Hc]%andb_true_iff. }
  eapply safe_bind; [by apply step_safe|]. intros [[] s'] Hx; simpl in *; [by apply IH|done].
Qed.

Definition proved_progress s : Prop :=
  exists c1, led c0 c1 /\ command_is_committed c1 (mkSessionId 0x46555a5a5343454e seed) 1 = true /\
    fz_cluster s = (check_invariants c1).2.

Lemma attempts_safe n s : fuzz_ok s -> safe (attempts n s) proved_progress.
Proof.
  revert s. induction n as [|n IH]; intros s Hs; [done|]. cbn [attempts].
  eapply safe_bind; [by apply wait_safe|]. intros [[l|] s1] H1; cbn [fst snd] in *; [|by apply IH].
  eapply safe_bind; [apply fcall_safe; [done|]; apply plays_submit; split_and!; [by vm_compute|simpl; by rewrite (fo_seed _ H1)|by vm_compute]|].
  intros [t s2] H2. cbn [fst snd] in *. eapply safe_bind; [by apply await_safe|]. intros [[] s3] [H3 Hc]; cbn [fst snd] in *; [|by apply IH].
  eapply safe_mono; [by apply check_safe|]. intros s4 [_ H4]. exists (fz_cluster s3).
  split_and!; [apply H3| |done]. specialize (Hc eq_refl). simpl in Hc. by rewrite (fo_seed _ H3) in Hc.
Qed.

Lemma recover_safe s : fuzz_ok s -> safe (recover_and_prove_progress s) proved_progress.
Proof.
  intros Hs. unfold recover_and_prove_progress. eapply safe_bind; [by apply crash_all_safe|]. intros s1 H1.
  eapply safe_bind; [by apply restart_all_safe|]. intros s2 H2. eapply safe_bind; [by apply heal_all_safe|]. intros s3 H3.
  eapply safe_bind; [by apply check_keeps|]. intros s4 H4. by apply attempts_safe.
Qed.
End fuzz_safety.

Lemma hash_fits bytes : u64 (hash_input bytes).
Proof.
  unfold hash_input. assert (Hg : forall h, u64 h -> u64 (foldl (fun hash byte => mul64 (N.lxor hash byte) 1099511628211) h bytes)).
  { induction bytes as [|b bytes IH]; intros h Hh; [done|]. simpl. apply IH, wrap64_fits. }
  apply Hg. by vm_compute.
Qed.

Lemma fuzz_config_typed seed bounded config :
  fuzz_configuration seed (fuzz_nodes bounded) = inr config -> config_typed config /\ cc_members config <> [].
Proof.
  assert (Hn : fuzz_nodes bounded = 3 \/ fuzz_nodes bounded = 5).
  { unfold fuzz_nodes. destruct bounded as [|b l]; [by left|]. destruct (_ =? _); auto. }
  intros Hc. assert (Hm : cc_members config = [1; 2; 3] \/ cc_members config = [1; 2; 3; 4; 5]).
  { unfold fuzz_configuration, cluster_config in Hc. destruct Hn as [Hn|Hn]; rewrite Hn in Hc; simpl in Hc; injection Hc as <-; auto. }
  assert (Hd : max_append_bytes_per_rpc (cc_raft config) = 512 * 1024 /\
    cc_simulator config = mkSimulatorConfig (mkEventQueueLimits 10000 100000) (sc_transport default_simulator_config)
      (sc_storage default_simulator_config) 20000 /\
    cc_cluster_id_high config = 0x4445544c4f470001 /\ cc_cluster_id_low config = 0x53494d554c41544f).
  { unfold fuzz_configuration, cluster_config in Hc. by destruct Hn as [Hn|Hn]; rewrite Hn in Hc; simpl in Hc; injection Hc as <-. }
  destruct Hd as (D1 & D2 & D3 & D4). split; [constructor|by destruct Hm as [-> | ->]].
  - destruct Hm as [-> | ->]; repeat constructor; vm_compute; discriminate.
  - rewrite D1. vm_compute. discriminate.
  - rewrite D3, D4. split; vm_compute; discriminate.
  - rewrite D2. split; [constructor|]; vm_compute; discriminate.
Qed.

(** C12 The fuzzer handles every input: whatever the bytes, no array is read outside its
    bounds, and when a run returns, a scenario of the cluster has been played in which
    the request that proves progress after the faults is committed. *)
Theorem fuzz_input_safe `{HeapLaws} (input : list N) :
  safe (run_input input) (fun s => exists config l c1,
    fuzz_configuration (hash_input (bounded_input input)) (fuzz_nodes (bounded_input input)) = inr config /\
    played_to config l c1 /\
    command_is_committed c1 (mkSessionId 0x46555a5a5343454e (hash_input (bounded_input input))) 1 = true /\
    fz_cluster s = (check_invariants c1).2).
Proof.
  unfold run_input. cbv zeta. set (seed := hash_input _). unfold FuzzScenario_new.
  destruct (fuzz_configuration seed _) as [e|config] eqn:Hc; [done|]. cbn [lift fbind].
  destruct (fuzz_config_typed _ _ _ Hc) as [Ht Hne]. destruct (DeterministicCluster_new config) as [e|c0] eqn:Hnew; [done|]. cbn [lift fbind].
  eapply safe_bind; [apply decode_safe|]. intros l _.
  eapply safe_bind; [apply (actions_safe config c0 seed (hash_fits _) Ht Hnew Hne); constructor; try done; [apply led_refl|repeat constructor]|].
  intros s Hs. eapply safe_mono; [by apply (recover_safe c0 seed (hash_fits _))|].
  intros s' (c1 & (l1 & Hf & Hcalls) & Hcom & Hlast). exists config, l1, c1. split_and!; [done| |done|done].
  split_and!; [done|done|]. by exists c0.
Qed.

(** ** Runs *)

#[local] Existing Instance demo_library.
#[local] Instance program_laws : HeapLaws := demo_laws.

Definition sim_printed (e : SimExit) : list string := match e with sim_done output _ _ => output | _ => [] end.

(** The scenario of a crashed leader, with the seed 1: member 3 leads, crashes, and is
    replaced by member 1. *)
Abbreviation crash_run := (detlog_sim (fun _ _ => None) []).

Lemma crash_run_prints :
  sim_printed crash_run =
    ["scenario=leader-crash seed=1 nodes=3 first_leader=3 replacement_leader=1 first_commit=2 second_commit=4 virtual_time=74 trace_records=637"].
Proof. vm_compute. reflexivity. Qed.

Lemma printed_done e line l : sim_printed e = line :: l -> exists r c, e = sim_done (line :: l) r c.
Proof. destruct e as [| |output r c]; simpl; [done..|]. intros ->. by exists r, c. Qed.

Lemma sim_program_sound_witness :
  exists output r c config l first c0 c', crash_run = sim_done output r c /\ played_to config l c /\
    the_leader c0 true = Some first /\ crash_outcome (mkSessionId 0x4445544c4f47 1) first c0 r c' /\
    check_invariants c' = (None, c).
Proof.
  destruct (printed_done _ _ _ crash_run_prints) as (r & c & Hr).
  destruct (sim_program_sound (fun _ _ => None) [] _ r c Hr)
    as (o & config & l & ci & c0 & first & c' & Ho & _ & _ & Hp & _ & _ & Hl & Hout & Hc).
  injection Ho as <-. eexists _, r, c, config, l, first, c0, c'.
  split; [exact Hr|]. split; [exact Hp|]. split; [exact Hl|]. split; [exact Hout|exact Hc].
Defined.

Definition returns {A} (m : Fuzz A) : bool := match m with inr _ => true | inl _ => false end.

(** The input of one zero byte, with which the fuzzer tries itself. *)
Lemma fuzz_zero_returns : returns (run_input [0]) = true.
Proof. vm_compute. reflexivity. Qed.

Lemma safe_returns {A} (m : Fuzz A) (Q : A -> Prop) :
  returns m = true -> safe m Q -> exists a, m = inr a /\ Q a.
Proof. destruct m as [e|a]; [discriminate|]. intros _ HQ. by exists a. Qed.

Lemma fuzz_input_safe_witness :
  exists s config l c1, run_input [0] = inr s /\ played_to config l c1 /\
    command_is_committed c1 (mkSessionId 0x46555a5a5343454e (hash_input (bounded_input [0]))) 1 = true /\
    fz_cluster s = (check_invariants c1).2.
Proof.
  pose proof (fuzz_input_safe [0]) as Hsafe. pose proof fuzz_zero_returns as Hret.
  pose proof (safe_returns _ _ Hret Hsafe) as Hend. clear Hsafe Hret.
  destruct Hend as [s [Hs Hq]].
  destruct Hq as [config [l [c1 [_ [Hp [Hc Hf]]]]]].
  exists s, config, l, c1. split; [exact Hs|]. split; [exact Hp|]. split; [exact Hc|exact Hf].
Defined.
